(* ===== verification/_CoqProject ===== *)
-Q . S2P
Prelude.v
Proto.v
Rows.v
Gc.v
Hll.v
Mutations.v
GcReplay.v
Filters.v
Server.v
Store.v
Tokens.v
Targets.v
WritePath.v
Chunks.v
ReadPath.v
KeyCodec.v
KeySchema.v
TableAdmin.v
TableOps.v
Tombstones.v
TableUpdate.v
ChangeStream.v
Metadata.v
Restart.v
Backups.v
Instances.v
Lexer.v
Views.v
Operations.v
SqlValues.v
SqlFloat.v
SqlArith.v
SqlTime.v
SqlDates.v
Like.v
SqlOps.v
SqlCast.v
Bexpr.v
Pushdown.v
Aggregates.v
Sources.v
Exec.v
ScanRanges.v
BindOps.v
Funcs.v
FuncsMath.v
FuncsArray.v
Encodings.v
SqlText.v
TimeFmt.v
FuncsString.v
FuncsPattern.v
FuncsMisc.v
FuncsTime.v
Ast.v
Binder.v
BinderOk.v
Parser.v
ParserOk.v
Precedence.v
