(* ===== verification/Prelude.v ===== *)
(** * little_bigtable: a verification development

    little_bigtable is an emulator of Cloud Bigtable: a gRPC server ([src/bttest])
    that keeps table schemas and admin resources in memory, rows and everything
    durable in an SQL database, and answers the data, table-admin, instance-admin
    and query APIs.  This library models the server's own logic and proves what
    makes it correct.

    ** The program and its model

    A request handler reads and changes three things: the maps of the [server]
    struct, the database, and the clock.  The model keeps them in one [world]
    (Store.v); a handler is a function of the state monad [M], which also carries
    the gRPC status codes and Go panics ([outcome], below).  Every statement is one
    numbered call to the driver, and an oracle, [driver], decides which calls fail
    and how; the clock ([clock]) and the random source are oracles too; the numbers that RAND
    draws in a query are an argument of its run, one for every evaluation ([draws]).  A theorem
    that quantifies over the environment [Env] therefore holds for every pattern of
    failures and every clock.  [withTx] rolls the database back, and only the
    database: what a failed transaction has changed in memory stays changed, as in
    the code.

    - Prelude.v: byte strings, wrap-around integers, outcomes and their monad,
      sorting, and the tactics and lemmas the other files share.
    - Proto.v: the API messages.
    - Rows.v: [row], [family], [cell] (inmem.go), [normalize] (filter.go).
    - Gc.v, GcReplay.v: garbage collection of a row (inmem.go) and the change
      records it writes.
    - Hll.v: HyperLogLog++ sketches (internal/gsql/hll.go), the values of
      aggregate families.
    - Mutations.v: validation and application of mutations (mutation_engine.go).
    - Filters.v: row filters (filter.go).
    - Server.v, Store.v: the [table] and [server] structs (inmem.go), the database
      tables (sql_schema.go), transactions and the row store (storage.go).
    - Tokens.v: page tokens and continuation tokens (operations.go,
      localcloud_backups.go, localcloud_change_stream.go).
    - Targets.v: the table or view a request names and what the view lets it see
      (targets.go).
    - WritePath.v: MutateRow, MutateRows, CheckAndMutateRow, ReadModifyWriteRow
      (data_write.go, mutation_engine.go).
    - Chunks.v, ReadPath.v: ReadRows, SampleRowKeys and the chunked row protocol
      (data_read.go, validation.go).
    - KeyCodec.v, KeySchema.v: structured row keys (internal/gsql/keycodec.go).
    - TableAdmin.v, TableOps.v, Tombstones.v, TableUpdate.v: the handlers of
      table_admin.go with the table store (sql_tables.go).
    - ChangeStream.v: the change log and its readers (localcloud_change_stream.go).
    - Metadata.v, Restart.v: the persisted form of a table (sql_tables.go) and the
      start of a server (inmem.go).
    - Backups.v: localcloud_backups.go.
    - Instances.v: instances, clusters and app profiles
      (localcloud_instance_admin.go, sql_admin_metadata.go).
    - Lexer.v: the lexer of the query language and the literals it reads back
      (internal/gsql/lexer.go, cast.go, parser.go).
    - Views.v: authorized views, logical views, schema bundles and IAM policies
      (localcloud_authorized_views.go, localcloud_logical_views.go,
      localcloud_schema_bundles.go, sql_iam.go, sql_proto_store.go).
    - Operations.v: the registry of operations (operations.go).
    - The query language (internal/gsql), bottom up.  SqlValues.v: types, values,
      comparison, equality and grouping keys (types.go, values.go).  SqlFloat.v,
      SqlArith.v: floats and checked arithmetic (ops.go).  SqlTime.v, SqlDates.v:
      timestamps, dates and their texts (values.go, cast.go, funcs_time.go).
      SqlOps.v, Like.v, SqlCast.v: the evaluators of the operators and casts
      (ops.go, cast.go).  Bexpr.v: bound expressions and their evaluation
      (bind.go); [wf] is the typing invariant of a bound expression.
    - Pushdown.v: the row ranges of a WHERE clause (pushdown.go).  Aggregates.v:
      aggregate calls (aggregates.go).  Sources.v: a table as rows of values
      (source.go).  Exec.v, ScanRanges.v: query plans and their execution (exec.go,
      source.go, mv.go).
    - BindOps.v: operators, constructors and special forms are bound (ops.go,
      cast.go).  Funcs.v: overloads and their resolution (bind.go).  FuncsMath.v,
      FuncsArray.v, FuncsString.v, FuncsPattern.v, FuncsMisc.v: the functions of
      funcs_math.go, funcs_array.go, funcs_string.go (its regular expressions and
      FORMAT apart) and funcs_misc.go; Encodings.v: hexadecimal, base64 and base32;
      SqlText.v: values as literals, text and JSON (cast.go, funcs_misc.go).
    - TimeFmt.v: the format strings of FORMAT_ and PARSE_ (timefmt.go); FuncsTime.v:
      the date and time functions (funcs_time.go).
    - Ast.v: the syntax tree (ast.go).  Parser.v: the parser (parser.go), a state monad
      over the list of tokens; ParserOk.v: it is total; Precedence.v: the grammar of
      its operators.
    - Binder.v: names and scopes, types, calls and aggregate calls, and the recursion
      over the tree (bind.go, funcs_*.go, aggregates.go); BinderOk.v: it is sound.
    The components meet in interfaces: [Gob] (Store.v), what the row codec
    promises to the row store; [Env] (Store.v), what a handler may assume of
    driver, clock and randomness, which is nothing; [Etagged] (Views.v), what
    a message with an etag offers to the conditional updates; and what the query
    language uses of Go's library: [TimeZones] (SqlTime.v), [Strconv] (SqlCast.v),
    [Unicode] (FuncsString.v), [Folding] and [Quoting] (Binder.v), [Regexp] and [Fmt]
    (FuncsPattern.v), [Json] (FuncsMisc.v), the math functions (FuncsMath.v) and the float computation of a
    sketch's estimate, [Estimator] (Aggregates.v).

    ** What the theorems show

    - Writes.  Mutation lists refine a map from coordinates to cells
      ([applyMutations_refines]); validated lists never fail halfway
      ([validated_mutations_apply]); the handlers are atomic under any failure
      ([write_handlers_atomic]), keep every stored row well-formed, do what they
      are asked exactly once ([MutateRow_effect], [MutateRow_deduplicates],
      [CheckAndMutateRow_effect], [MutateRows_statuses]),
      and the change records they write replay to the same row
      ([mutation_changes_replay], [gc_changes_replay]).
    - Reads.  ReadRows returns the selected rows, filtered, restricted by the view
      and within the limit ([ReadRows_spec]); the chunks a client receives
      reassemble to them ([chunks_roundtrip]); filters that validate, and have
      their range messages, never fail ([filterRow_total]).
    - Administration.  The handlers are atomic ([admin_handlers_atomic]), do what
      they say ([UpdateTable_effect], [ModifyColumnFamilies_effect],
      [DropRowRange_effect]), deleting and undeleting a table gives back
      its rows and its definition ([delete_undelete_roundtrip]), memory and database stay in agreement and
      survive a restart ([restart_consistent], [admin_metadata_consistent]),
      backups restore the rows they were taken of ([backup_restore_roundtrip]),
      and an update with an etag that is no longer current is refused
      ([conditional_updates]).
    - Change streams.  A reader running between arbitrary writes delivers every
      record of its partition exactly once and in order ([stream_exactly_once]),
      and a reader that resumes with a token continues where it stopped
      ([ReadChangeStream_resumes]).
    - Encodings.  Sketches, row keys, pages, literals and table metadata round-trip;
      ordered keys sort as their fields do ([ordered_code_key_order]); listing
      page by page visits everything once ([paginate_complete]); the lexer
      terminates on every input ([lex_total]).
    - Queries.  Comparison is a total order that grouping keys agree with
      ([values_ordered_and_grouped]); integer arithmetic is exact or fails
      ([int64_arith_exact]); casts to text and back return the value
      ([cast_text_roundtrip]); LIKE decides its pattern language ([like_decides]);
      the key ranges of a WHERE clause hold every row it accepts
      ([key_ranges_complete]), so that reading only them changes no result
      ([pushdown_transparent]), as long as no RAND is called; a query returns the rows its clauses describe
      ([query_results]) and an aggregate call the fold of the rows it is given
      ([aggregate_calls]).  The parser is total and its trees are what the binder
      expects ([parser_total]), it reads operators with the precedence of the
      dialect ([parser_precedence]), and binding a tree gives an expression whose
      evaluation never panics and yields its type ([binder_type_safe]), two
      functions apart.
    - Where the code does not do what it means to, a theorem exhibits the run
      ([undelete_retry_strands_rows], [purge_not_retried],
      [logical_view_lost_update], [low_watermark_passes_commit],
      [pushdown_draws_again], [repeat_overflow_panics] and others).

    ** Bounds and fuel

    Loops that are not structural take fuel, and each has a lemma that the fuel
    given is enough: [splitLoop] takes the length of its input, and the lexer's loops
    one pass more, each of which consumes a byte; the parser's loops and its recursion
    ([levels], [queryLevels]) one level for every token; [orderedLen] ten and
    [countPrefix] eleven passes, the longest ordered integer being ten bytes;
    [writeValue] one pass more than the value has bytes; [digits] twenty decimal
    digits for a 64-bit integer; [searchLoop] the length of the list, which halves;
    [pollLoop] and [allPages] one pass more than there are records or items.
    [matchLoop] (LIKE) backtracks at most once per pattern position and byte;
    [readJSON] takes twice the tokens of the document ([readFuel_enough]); a JSON
    path, a format string and a regular-expression offset take their length.
    Integers are [Z] with [wrap64] and [wrap32] written where the code computes
    with [int64] and [int32].

    ** What is not modelled

    Locks: a handler runs under [s.mu] or the table's lock and is one sequence of
    steps, except where the code lets go of them, as change-stream readers and
    [UpdateLogicalView] do, which run as interleaved steps.  Protobuf and gob
    encodings of metadata are the identity; the codec of a row is an interface.
    [stream.Send] succeeds.  A table lives in one map of the server; after a
    failed and repeated undelete the Go maps share a pointer, which the model keeps
    apart.  The floating-point [Estimate] of a sketch, the legacy encoding of table
    metadata, the filter language of backup lists, the analyzer that turns a parsed
    query into a plan, the wire forms of SQL values, positions and texts of syntax errors,
    the gRPC wiring and the SQL dialect are left out. *)

From stdpp Require Import base list gmap sorting.
From Stdlib Require Import ZArith Lia.
From Stdlib Require Ascii String.
Export (notations) Stdlib.Strings.String.

#[local] Open Scope Z_scope.

(** ** Byte strings

    Go's [string] and [[]byte] are both byte sequences and the code converts
    between them freely; both are a list of byte values here. *)

Abbreviation bytes := (list Z).

(** The bytes of a string constant of the sources. *)
Definition str (s : String.string) : bytes :=
  (fun a => Z.of_N (Ascii.N_of_ascii a)) <$> String.list_ascii_of_string s.
Arguments str s%_string.

Definition is_byte (b : Z) : Prop := 0 <= b < 256.
Definition all_bytes (s : bytes) : Prop := Forall is_byte s.

#[global] Instance is_byte_dec b : Decision (is_byte b).
Proof. unfold is_byte. apply _. Defined.
#[global] Instance all_bytes_dec s : Decision (all_bytes s).
Proof. unfold all_bytes. apply _. Defined.

(** ** Machine integers

    [int64] and [uint64] values are integers of [Z]; every Go operation on
    them that can leave the range is followed by one of these. *)

Definition two63 : Z := 9223372036854775808.
Definition two64 : Z := 18446744073709551616.
Definition int64_min : Z := -9223372036854775808.
Definition int64_max : Z := 9223372036854775807.

(** Two's complement wrap-around of a signed 64-bit result. *)
Definition wrap64 (z : Z) : Z := (z + two63) mod two64 - two63.
Definition wrap32 (n : Z) : Z := (n + 2147483648) mod 4294967296 - 2147483648.

(** Conversion to, and wrap-around of, an unsigned 64-bit value. *)
Definition to_u64 (z : Z) : Z := z mod two64.

Definition is_int64 (z : Z) : Prop := int64_min <= z <= int64_max.
Definition is_uint64 (z : Z) : Prop := 0 <= z < two64.

#[global] Instance is_int64_dec z : Decision (is_int64 z).
Proof. unfold is_int64. apply _. Defined.

Ltac unfold_words :=
  unfold is_uint64, is_int64, wrap64, to_u64, int64_min, int64_max, two63, two64 in *.

(** ** Status codes and fallible computations *)

(** The gRPC status codes the sources return; messages are not modelled. *)
Inductive Code : Type :=
| Canceled | InvalidArgument | DeadlineExceeded | NotFound | AlreadyExists
| PermissionDenied | FailedPrecondition | Unimplemented | Internal | Unavailable
| OutOfRange | ResourceExhausted | Aborted | Unknown.

#[global] Instance Code_eq_dec : EqDecision Code.
Proof. solve_decision. Defined.

(** The result of a Go function: a value, an error status, or a run-time
    panic (nil dereference, index out of range). *)
Inductive outcome (A : Type) : Type :=
| Ret (a : A)
| Err (c : Code)
| Panic.
Arguments Ret {A} a.
Arguments Err {A} c.
Arguments Panic {A}.

#[global] Instance outcome_ret : MRet outcome := fun A a => Ret a.
#[global] Instance outcome_bind : MBind outcome := fun A B f m =>
  match m with Ret a => f a | Err c => Err c | Panic => Panic end.

Definition is_ret {A} (m : outcome A) : bool :=
  match m with Ret _ => true | _ => false end.

Section loops.
Context {A B : Type}.

(** A [for] loop over a slice whose body may fail. *)
Section foldM.
Context (f : B -> A -> outcome B).
Fixpoint foldM (b : B) (l : list A) : outcome B :=
  match l with
  | [] => Ret b
  | a :: l' => b' ← f b a; foldM b' l'
  end.
End foldM.

(** Collecting the results of a fallible function, in order. *)
Section collectM.
Context (f : A -> outcome B).
Fixpoint collectM (l : list A) : outcome (list B) :=
  match l with
  | [] => Ret []
  | a :: l' => b ← f a; bs ← collectM l'; Ret (b :: bs)
  end.
End collectM.
End loops.

(** Case analysis on the binds of a hypothesis or of the goal. *)
Ltac outcome_case :=
  match goal with
  | H : context [mbind (M := outcome) _ ?m] |- _ =>
      let E := fresh "E" in destruct m eqn:E; cbn [mbind outcome_bind] in H
  | |- context [mbind (M := outcome) _ ?m] =>
      let E := fresh "E" in destruct m eqn:E; cbn [mbind outcome_bind]
  end.
Ltac inv_outcome := simplify_eq/=; repeat (outcome_case; simplify_eq/=).

Create HintDb lbt discriminated.
Create HintDb lbt_rw.

Lemma foldM_app {A B} (f : B -> A -> outcome B) b l1 l2 :
  foldM f b (l1 ++ l2) = (b' ← foldM f b l1; foldM f b' l2).
Proof.
  revert b. induction l1 as [|a l1 IH]; intros b; [done|].
  cbn [foldM app]. destruct (f b a) as [b'| |]; cbn; [apply IH|done|done].
Qed.

(** An invariant of the body is an invariant of the loop. *)
Lemma foldM_inv {A B} (P : B -> Prop) (f : B -> A -> outcome B) l :
  (forall b a b', a ∈ l -> P b -> f b a = Ret b' -> P b') ->
  forall b b', P b -> foldM f b l = Ret b' -> P b'.
Proof.
  induction l as [|a l IH]; intros Hf b b' Hb E; cbn in E; [by simplify_eq|].
  inv_outcome. eapply IH; [|eapply Hf; [left|..]; eauto|done].
  intros ????. eapply Hf. by right.
Qed.

(** A loop whose body never fails under an invariant never fails. *)
Lemma foldM_total {A B} (P : B -> Prop) (f : B -> A -> outcome B) l :
  (forall b a, a ∈ l -> P b -> exists b', f b a = Ret b' /\ P b') ->
  forall b, P b -> exists b', foldM f b l = Ret b' /\ P b'.
Proof.
  induction l as [|a l IH]; intros Hf b Hb; cbn; [by exists b|].
  destruct (Hf b a) as (b1 & -> & Hb1); [left|done|]. cbn.
  apply IH; [|done]. intros ???. apply Hf. by right.
Qed.

Lemma foldM_safe {A B} (f : B -> A -> outcome B) l : (forall b a, f b a <> Panic) -> forall b, foldM f b l <> Panic.
Proof.
  intros Hf. induction l as [|a l IH]; intros b; [done|]. cbn [foldM]. specialize (Hf b a). destruct (f b a); [apply IH|done|done].
Qed.

Lemma foldM_ret {A B} (f : B -> A -> outcome B) (g : B -> A -> B) l b :
  (forall b a, a ∈ l -> f b a = Ret (g b a)) ->
  foldM f b l = Ret (foldl g b l).
Proof.
  revert b. induction l as [|a l IH]; intros b Hf; [done|]. cbn.
  rewrite Hf by left. cbn. apply IH. intros. apply Hf. by right.
Qed.

Lemma collectM_ret {A B} (f : A -> outcome B) (g : A -> B) l :
  (forall a, a ∈ l -> f a = Ret (g a)) -> collectM f l = Ret (g <$> l).
Proof.
  induction l as [|a l IH]; intros Hf; [done|]. cbn.
  rewrite Hf by left. cbn. rewrite IH; [done|]. intros. apply Hf. by right.
Qed.

Lemma collectM_length {A B} (f : A -> outcome B) l bs :
  collectM f l = Ret bs -> length bs = length l.
Proof.
  revert bs. induction l as [|a l IH]; intros bs E; cbn in E; inv_outcome; [done|].
  by rewrite (IH _ eq_refl).
Qed.

(** ** Lexicographic order of byte strings (Go's [<] on strings and
    [bytes.Compare]) *)

Fixpoint bytes_compare (a b : bytes) : comparison :=
  match a, b with
  | [], [] => Eq
  | [], _ :: _ => Lt
  | _ :: _, [] => Gt
  | x :: a', y :: b' =>
      match x ?= y with Eq => bytes_compare a' b' | c => c end
  end.

Definition bytes_ltb (a b : bytes) : bool :=
  match bytes_compare a b with Lt => true | _ => false end.
Definition bytes_leb (a b : bytes) : bool :=
  match bytes_compare a b with Gt => false | _ => true end.
Definition bytes_eqb (a b : bytes) : bool := bool_decide (a = b).

Lemma bytes_compare_refl a : bytes_compare a a = Eq.
Proof. induction a as [|x a IH]; cbn; [done|]. by rewrite Z.compare_refl. Qed.

Lemma bytes_compare_eq a b : bytes_compare a b = Eq <-> a = b.
Proof.
  split; [|intros ->; apply bytes_compare_refl].
  revert b. induction a as [|x a IH]; intros [|y b]; cbn; try done.
  destruct (Z.compare_spec x y); intros; try done. subst. f_equal. by apply IH.
Qed.

Lemma bytes_compare_antisym a b : bytes_compare b a = CompOpp (bytes_compare a b).
Proof.
  revert b. induction a as [|x a IH]; intros [|y b]; cbn; try done.
  rewrite (Z.compare_antisym x y). destruct (x ?= y) eqn:E; cbn; [apply IH|done|done].
Qed.

Lemma bytes_compare_lt_trans a b c :
  bytes_compare a b = Lt -> bytes_compare b c = Lt -> bytes_compare a c = Lt.
Proof.
  revert b c. induction a as [|x a IH]; intros [|y b] [|z c]; cbn; try done.
  destruct (Z.compare_spec x y) as [?|?|?], (Z.compare_spec y z) as [?|?|?];
    intros ??; try done; destruct (Z.compare_spec x z); try lia; eauto.
Qed.

Lemma bytes_ltb_lt a b : bytes_ltb a b = true <-> bytes_compare a b = Lt.
Proof. unfold bytes_ltb. destruct (bytes_compare a b); intuition congruence. Qed.

Lemma bytes_leb_ltb a b : bytes_leb a b = negb (bytes_ltb b a).
Proof.
  unfold bytes_leb, bytes_ltb. rewrite (bytes_compare_antisym a b).
  by destruct (bytes_compare a b).
Qed.

Lemma bytes_leb_cases a b : bytes_leb a b = true <-> bytes_ltb a b = true \/ a = b.
Proof.
  unfold bytes_leb, bytes_ltb. rewrite <- bytes_compare_eq.
  destruct (bytes_compare a b); intuition congruence.
Qed.

Lemma bytes_leb_refl a : bytes_leb a a = true.
Proof. apply bytes_leb_cases. by right. Qed.

Lemma bytes_ltb_irrefl a : bytes_ltb a a = false.
Proof. unfold bytes_ltb. by rewrite bytes_compare_refl. Qed.

Lemma bytes_ltb_trans a b c :
  bytes_ltb a b = true -> bytes_ltb b c = true -> bytes_ltb a c = true.
Proof. rewrite !bytes_ltb_lt. apply bytes_compare_lt_trans. Qed.

Lemma bytes_leb_trans a b c :
  bytes_leb a b = true -> bytes_leb b c = true -> bytes_leb a c = true.
Proof.
  rewrite !bytes_leb_cases. intros [?| ->] [?| ->]; eauto using bytes_ltb_trans.
Qed.

Lemma bytes_leb_ltb_trans a b c :
  bytes_leb a b = true -> bytes_ltb b c = true -> bytes_ltb a c = true.
Proof. rewrite bytes_leb_cases. intros [?| ->]; eauto using bytes_ltb_trans. Qed.

Lemma bytes_ltb_leb_trans a b c :
  bytes_ltb a b = true -> bytes_leb b c = true -> bytes_ltb a c = true.
Proof. rewrite bytes_leb_cases. intros ? [?| <-]; eauto using bytes_ltb_trans. Qed.

Lemma bytes_leb_total a b : bytes_leb a b = true \/ bytes_leb b a = true.
Proof.
  unfold bytes_leb. rewrite (bytes_compare_antisym a b).
  destruct (bytes_compare a b); cbn; auto.
Qed.

Lemma bytes_leb_antisym a b : bytes_leb a b = true -> bytes_leb b a = true -> a = b.
Proof.
  rewrite bytes_leb_cases. intros [H|H] H'; [|done].
  rewrite bytes_leb_ltb, H in H'. done.
Qed.

Lemma bytes_ltb_nil_r a : bytes_ltb a [] = false.
Proof. by destruct a. Qed.
Lemma bytes_leb_nil_l a : bytes_leb [] a = true.
Proof. by destruct a. Qed.

(** Appending a zero byte yields the immediate lexicographic successor. *)
Lemma bytes_ltb_snoc0 a b :
  all_bytes b -> bytes_ltb b (a ++ [0]) = bytes_leb b a.
Proof.
  unfold bytes_ltb, bytes_leb. revert b.
  induction a as [|x a IH]; intros [|y b] Hb; cbn; try done.
  - destruct (Z.compare_spec y 0); try done; [by destruct b|].
    apply Forall_cons in Hb as [[] _]. lia.
  - apply Forall_cons in Hb as [_ Hb]. destruct (y ?= x); auto.
Qed.

Lemma bytes_leb_snoc0 a b :
  all_bytes b -> bytes_leb (a ++ [0]) b = bytes_ltb a b.
Proof.
  intros Hb. rewrite bytes_leb_ltb, bytes_ltb_snoc0 by done.
  by rewrite bytes_leb_ltb, negb_involutive.
Qed.

#[export] Hint Resolve bytes_leb_refl bytes_leb_total bytes_leb_trans : lbt.

(** ** Stable insertion sort

    [sort.Stable], and [sort.Sort] where the sorted result is unique. *)

Section isort.
Context {A : Type} (leb : A -> A -> bool).

Fixpoint insert_sorted (x : A) (l : list A) : list A :=
  match l with
  | [] => [x]
  | y :: l' => if leb x y then x :: l else y :: insert_sorted x l'
  end.

Definition isort (l : list A) : list A := foldr insert_sorted [] l.

Abbreviation sorted := (StronglySorted (fun x y => leb x y = true)).

Lemma insert_sorted_perm x l : insert_sorted x l ≡ₚ x :: l.
Proof.
  induction l as [|y l IH]; cbn; [done|]. destruct (leb x y); [done|].
  rewrite IH. apply Permutation_swap.
Qed.

Lemma isort_perm l : isort l ≡ₚ l.
Proof.
  induction l as [|x l IH]; cbn; [done|]. fold (isort l).
  by rewrite insert_sorted_perm, IH.
Qed.

Lemma elem_of_isort x l : x ∈ isort l <-> x ∈ l.
Proof. by rewrite isort_perm. Qed.

Lemma length_isort l : length (isort l) = length l.
Proof. apply Permutation_length, isort_perm. Qed.

Lemma isort_nil_inv l : isort l = [] -> l = [].
Proof. intros E. apply Permutation_nil_r. by rewrite <- E, isort_perm. Qed.

Lemma insert_sorted_head x l :
  Forall (fun y => leb x y = true) l -> insert_sorted x l = x :: l.
Proof. destruct l as [|y l]; [done|]. intros [H _]%Forall_cons. cbn. by rewrite H. Qed.

(** Sorting a sorted list changes nothing. *)
Lemma isort_id l : sorted l -> isort l = l.
Proof.
  induction 1 as [|x l Hl IH Hx]; cbn; [done|].
  fold (isort l). rewrite IH. by apply insert_sorted_head.
Qed.

Context (leb_total : forall x y, leb x y = true \/ leb y x = true).
Context (leb_trans : forall x y z, leb x y = true -> leb y z = true -> leb x z = true).

Lemma insert_sorted_sorted x l : sorted l -> sorted (insert_sorted x l).
Proof.
  induction 1 as [|y l Hl IH Hy]; cbn; [by repeat constructor|].
  destruct (leb x y) eqn:E.
  - repeat constructor; auto. eapply Forall_impl; eauto.
  - constructor; [done|]. rewrite insert_sorted_perm. constructor; [|done].
    destruct (leb_total x y); congruence.
Qed.

Lemma isort_sorted l : sorted (isort l).
Proof. induction l; cbn; [constructor|]. by apply insert_sorted_sorted. Qed.

(** Elements that a predicate does not separate keep their relative order. *)
Lemma insert_sorted_filter (P : A -> Prop) `{!forall x, Decision (P x)} x l :
  (forall y z, P y -> P z -> leb y z = true) ->
  filter P (insert_sorted x l) = filter P (x :: l).
Proof.
  intros HP. induction l as [|y l IH]; [done|].
  cbn [insert_sorted]. destruct (leb x y) eqn:E; [done|].
  rewrite !filter_cons in *. rewrite IH.
  destruct (decide (P x)), (decide (P y)); try done.
  rewrite HP in E by done. done.
Qed.

Lemma isort_stable (P : A -> Prop) `{!forall x, Decision (P x)} l :
  (forall y z, P y -> P z -> leb y z = true) ->
  filter P (isort l) = filter P l.
Proof.
  intros HP. induction l as [|x l IH]; [done|]. cbn [isort foldr].
  rewrite insert_sorted_filter by done. fold (isort l).
  rewrite !filter_cons. by rewrite IH.
Qed.

(** A sorted permutation is unique when ties are equal elements of the list. *)
Lemma sorted_unique_on l1 l2 :
  (forall x y, x ∈ l1 -> y ∈ l1 -> leb x y = true -> leb y x = true -> x = y) ->
  sorted l1 -> sorted l2 -> l1 ≡ₚ l2 -> l1 = l2.
Proof.
  intros Hanti H1. revert l2. induction H1 as [|x l1 Hl1 IH Hx]; intros l2 H2 HP.
  { symmetry in HP. by apply Permutation_nil_r in HP. }
  destruct H2 as [|y l2 Hl2 Hy].
  { by apply Permutation_nil_r in HP. }
  assert (x = y) as <-.
  { assert (y ∈ x :: l1) as Hyin by (rewrite HP; left).
    assert (x ∈ y :: l2) as Hxin by (rewrite <- HP; left).
    apply elem_of_cons in Hyin as [->|Hyin]; [done|].
    apply elem_of_cons in Hxin as [->|Hxin]; [done|].
    rewrite list.Forall_forall in Hx, Hy.
    apply Hanti; [left|by right|by apply Hx|by apply Hy]. }
  f_equal. apply IH; [|done|by apply (inj (cons x))].
  intros ????. apply Hanti; by right.
Qed.

Lemma isort_perm_eq l1 l2 :
  (forall x y, x ∈ l1 -> y ∈ l1 -> leb x y = true -> leb y x = true -> x = y) ->
  l1 ≡ₚ l2 -> isort l1 = isort l2.
Proof.
  intros Hanti HP. apply sorted_unique_on; auto using isort_sorted.
  - intros x y. rewrite !elem_of_isort. auto.
  - by rewrite !isort_perm.
Qed.
End isort.

(** [sort.Strings]. *)
Definition sort_strings (l : list bytes) : list bytes := isort bytes_leb l.

Abbreviation strings_sorted := (StronglySorted (fun x y => bytes_leb x y = true)).

Lemma sort_strings_sorted l : strings_sorted (sort_strings l).
Proof. apply isort_sorted; eauto with lbt. Qed.

Lemma sort_strings_perm l : sort_strings l ≡ₚ l.
Proof. apply isort_perm. Qed.

Lemma elem_of_sort_strings x l : x ∈ sort_strings l <-> x ∈ l.
Proof. apply elem_of_isort. Qed.

Lemma sort_strings_unique l1 l2 : l1 ≡ₚ l2 -> sort_strings l1 = sort_strings l2.
Proof. apply isort_perm_eq; eauto using bytes_leb_antisym with lbt. Qed.

Lemma sort_strings_NoDup l : NoDup l -> NoDup (sort_strings l).
Proof. by rewrite sort_strings_perm. Qed.

(** ** Lists *)

Lemma StronglySorted_sublist {A} (R : A -> A -> Prop) (l1 l2 : list A) :
  l1 `sublist_of` l2 -> StronglySorted R l2 -> StronglySorted R l1.
Proof.
  induction 1 as [|x l1 l2 Hs IH|x l1 l2 Hs IH]; inversion 1; subst; auto.
  constructor; auto. rewrite list.Forall_forall in *. intros y Hy.
  eauto using elem_of_sublist.
Qed.

(** ** Loops over maps *)

(** A [range] loop that maps every entry with a fallible body. *)
Definition map_traverse {A B : Type} (f : bytes -> A -> outcome B) (m : gmap bytes A)
    : outcome (gmap bytes B) :=
  l ← collectM (fun '(k, a) => b ← f k a; Ret (k, b)) (map_to_list m);
  Ret (list_to_map l).

Lemma map_traverse_ret {A B : Type} (f : bytes -> A -> outcome B) (g : bytes -> A -> B)
    (m : gmap bytes A) :
  (forall k a, m !! k = Some a -> f k a = Ret (g k a)) ->
  map_traverse f m = Ret (map_imap (fun k a => Some (g k a)) m).
Proof.
  intros Hf. unfold map_traverse.
  rewrite (collectM_ret _ (fun '(k, a) => (k, g k a))); cycle 1.
  { intros [k a] Hin%elem_of_map_to_list. by rewrite Hf. }
  cbn. f_equal. apply map_eq. intros k. rewrite map_lookup_imap.
  assert (NoDup ((fun '(k, a) => (k, g k a)) <$> map_to_list m).*1) as Hnd.
  { rewrite <- list_fmap_compose. rewrite (list_fmap_ext _ fst); [apply NoDup_fst_map_to_list|].
    by intros ? [? ?] _. }
  destruct (m !! k) as [a|] eqn:E; cbn.
  - apply elem_of_list_to_map; [done|]. apply list_elem_of_fmap.
    exists (k, a). split; [done|]. by apply elem_of_map_to_list.
  - apply not_elem_of_list_to_map. rewrite list_elem_of_fmap. intros ([? ?] & -> & Hin).
    apply list_elem_of_fmap in Hin as ([? ?] & [= -> ->] & Hin%elem_of_map_to_list).
    cbn in *. congruence.
Qed.

(** ** Big-endian words ([binary.BigEndian]) *)

Fixpoint be_encode (n : nat) (v : Z) : bytes :=
  match n with
  | O => []
  | S n' => Z.shiftr v (8 * Z.of_nat n') mod 256 :: be_encode n' v
  end.

Definition be_decode (b : bytes) : Z := foldl (fun x c => x * 256 + c) 0 b.

(** [PutUint64] of [uint64(v)], and [int64] of [Uint64]. *)
Definition be64 (v : Z) : bytes := be_encode 8 (to_u64 v).
Definition be64_int64 (b : bytes) : Z := wrap64 (be_decode b).

Lemma length_be_encode n v : length (be_encode n v) = n.
Proof. induction n; cbn; congruence. Qed.

Lemma be_encode_bytes n v : all_bytes (be_encode n v).
Proof.
  induction n; cbn; constructor; auto. apply (Z.mod_pos_bound _ 256). lia.
Qed.

Lemma pow256_S n : 256 ^ Z.of_nat (S n) = 256 ^ Z.of_nat n * 256.
Proof. rewrite Nat2Z.inj_succ, Z.pow_succ_r by lia. lia. Qed.

Lemma pow256_pos n : 0 < 256 ^ Z.of_nat n.
Proof. apply Z.pow_pos_nonneg; lia. Qed.

Lemma shiftr_256 v n : Z.shiftr v (8 * Z.of_nat n) = v / 256 ^ Z.of_nat n.
Proof. rewrite Z.shiftr_div_pow2 by lia. by rewrite Z.pow_mul_r by lia. Qed.

Lemma be_head_tail v n :
  Z.shiftr v (8 * Z.of_nat n) mod 256 * 256 ^ Z.of_nat n + v mod 256 ^ Z.of_nat n
  = v mod 256 ^ Z.of_nat (S n).
Proof.
  rewrite shiftr_256, pow256_S. pose proof (pow256_pos n).
  rewrite Z.rem_mul_r by lia. lia.
Qed.

Lemma be_decode_acc acc b :
  foldl (fun x c => x * 256 + c) acc b = acc * 256 ^ Z.of_nat (length b) + be_decode b.
Proof.
  unfold be_decode. revert acc. induction b as [|c b IH]; intros acc; cbn [foldl length]; [lia|].
  rewrite IH, (IH (0 * 256 + c)), pow256_S. lia.
Qed.

Lemma be_decode_cons c b : be_decode (c :: b) = c * 256 ^ Z.of_nat (length b) + be_decode b.
Proof. unfold be_decode at 1. cbn [foldl]. rewrite be_decode_acc. lia. Qed.

Lemma be_decode_encode n v : be_decode (be_encode n v) = v mod 256 ^ Z.of_nat n.
Proof.
  induction n as [|n IH]; [cbn; by rewrite Z.mod_1_r|].
  cbn [be_encode]. rewrite be_decode_cons, IH, length_be_encode. apply be_head_tail.
Qed.

Lemma be_decode_bound b : all_bytes b -> 0 <= be_decode b < 256 ^ Z.of_nat (length b).
Proof.
  induction 1 as [|c b [Hc0 Hc1] Hb IH]; [cbn; lia|]. rewrite be_decode_cons.
  cbn [length]. rewrite pow256_S. nia.
Qed.

Lemma be_encode_mod n v : be_encode n (v mod 256 ^ Z.of_nat n) = be_encode n v.
Proof.
  assert (forall m w, (m <= n)%nat -> w mod 256 ^ Z.of_nat n = v mod 256 ^ Z.of_nat n ->
    be_encode m w = be_encode m v) as H; cycle 1.
  { apply H; [lia|]. apply Z.mod_mod. pose proof (pow256_pos n). lia. }
  intros m w. induction m as [|m IH]; intros Hm E; cbn; [done|].
  f_equal; [|apply IH; [lia|done]].
  assert (forall u, Z.shiftr u (8 * Z.of_nat m) mod 256
    = (u mod 256 ^ Z.of_nat n) mod 256 ^ Z.of_nat (S m) / 256 ^ Z.of_nat m) as Hu.
  { intros u. pose proof (pow256_pos m). pose proof (pow256_pos (n - S m)).
    replace (256 ^ Z.of_nat n) with (256 ^ Z.of_nat (S m) * 256 ^ Z.of_nat (n - S m))
      by (rewrite <- Z.pow_add_r by lia; f_equal; lia).
    rewrite Z.rem_mul_r by (rewrite ?pow256_S; lia).
    rewrite (Z.mul_comm (256 ^ Z.of_nat (S m))), Z.mod_add by (rewrite pow256_S; lia).
    rewrite Z.mod_mod by (rewrite pow256_S; lia). rewrite <- be_head_tail.
    rewrite Z.div_add_l by lia. rewrite (Z.div_small (u mod _)); [lia|].
    apply Z.mod_pos_bound. lia. }
  by rewrite !Hu, E.
Qed.

Lemma be_encode_decode b : all_bytes b -> be_encode (length b) (be_decode b) = b.
Proof.
  induction 1 as [|c b Hc Hb IH]; [done|]. cbn [length be_encode].
  pose proof (be_decode_bound b Hb). pose proof (pow256_pos (length b)).
  rewrite be_decode_cons, shiftr_256, Z.div_add_l, Z.div_small, Z.add_0_r by lia.
  f_equal; [by apply Z.mod_small|].
  rewrite <- (be_encode_mod (length b)), Z.add_comm, Z.mod_add, be_encode_mod by lia. done.
Qed.

(** Fixed-width big-endian encodings compare as the numbers do. *)
Lemma be_encode_compare n v w :
  bytes_compare (be_encode n v) (be_encode n w)
  = (v mod 256 ^ Z.of_nat n ?= w mod 256 ^ Z.of_nat n).
Proof.
  induction n as [|n IH]; [cbn; by rewrite !Z.mod_1_r|].
  cbn [be_encode bytes_compare]. rewrite IH, <- !be_head_tail.
  pose proof (pow256_pos n).
  pose proof (Z.mod_pos_bound v (256 ^ Z.of_nat n) ltac:(lia)).
  pose proof (Z.mod_pos_bound w (256 ^ Z.of_nat n) ltac:(lia)).
  set (hv := Z.shiftr v _ mod 256). set (hw := Z.shiftr w _ mod 256).
  destruct (Z.compare_spec hv hw) as [->|Hlt|Hgt].
  - destruct (Z.compare_spec (v mod 256 ^ Z.of_nat n) (w mod 256 ^ Z.of_nat n)); symmetry;
      [apply Z.compare_eq_iff|apply Z.compare_lt_iff|apply Z.compare_gt_iff]; lia.
  - symmetry. apply Z.compare_lt_iff. nia.
  - symmetry. apply Z.compare_gt_iff. nia.
Qed.

Lemma to_u64_id z : is_uint64 z -> to_u64 z = z.
Proof. intros. apply Z.mod_small. done. Qed.

Lemma wrap32_id n : -2147483648 <= n < 2147483648 -> wrap32 n = n.
Proof. intros Hn. unfold wrap32. rewrite Z.mod_small by lia. lia. Qed.
Lemma wrap32_range n : -2147483648 <= wrap32 n <= 2147483647.
Proof. unfold wrap32. pose proof (Z.mod_pos_bound (n + 2147483648) 4294967296). lia. Qed.
Lemma wrap64_id z : is_int64 z -> wrap64 z = z.
Proof. unfold_words. intros. rewrite Z.mod_small; lia. Qed.

Lemma wrap64_range z : is_int64 (wrap64 z).
Proof.
  unfold_words. pose proof (Z.mod_pos_bound (z + 9223372036854775808) 18446744073709551616). lia.
Qed.

Lemma to_u64_range z : is_uint64 (to_u64 z).
Proof. unfold_words. apply Z.mod_pos_bound. lia. Qed.

Lemma wrap64_to_u64 z : wrap64 (to_u64 z) = wrap64 z.
Proof. unfold_words. rewrite Z.add_mod_idemp_l by lia. done. Qed.

Lemma pow256_8 : 256 ^ Z.of_nat 8 = two64.
Proof. reflexivity. Qed.

Lemma length_be64 v : length (be64 v) = 8%nat.
Proof. apply length_be_encode. Qed.

Lemma be64_roundtrip v : be64_int64 (be64 v) = wrap64 v.
Proof.
  unfold be64_int64, be64. rewrite be_decode_encode, pow256_8. fold (to_u64 (to_u64 v)).
  rewrite (to_u64_id (to_u64 v)) by apply to_u64_range. apply wrap64_to_u64.
Qed.

Lemma be64_decode_roundtrip b : all_bytes b -> length b = 8%nat -> be64 (be64_int64 b) = b.
Proof.
  intros Hb Hl. pose proof (be_decode_bound b Hb) as Hd. rewrite Hl, pow256_8 in Hd.
  transitivity (be_encode 8 (be_decode b)); [|rewrite <- Hl; by apply be_encode_decode].
  unfold be64, be64_int64. f_equal. unfold_words.
  rewrite Zminus_mod_idemp_l. replace (be_decode b + _ - _) with (be_decode b) by lia.
  apply Z.mod_small. lia.
Qed.

#[export] Hint Resolve wrap64_range to_u64_range be_encode_bytes : lbt.
