(* ===== verification/Proto.v ===== *)
(** * Wire messages

    The messages of the Bigtable data and admin APIs that the modelled code
    reads and writes ([bigtablepb], [adminpb]).  The packages themselves are
    generated and live outside the repository; only the fields the sources
    use are kept, a [oneof] is an inductive type with one constructor per
    case, and a pointer the sources test for nil is an [option].

    A [google.protobuf.Duration] is represented by the nanosecond count its
    [AsDuration] returns. *)

From S2P Require Import Prelude.
From stdpp Require Import base list gmap.

Set Warnings "-register-all".

(** ** Bounds shared by row ranges, column ranges and value ranges *)

Inductive StartBound : Type :=
| Start_Unset | Start_Open (b : bytes) | Start_Closed (b : bytes).

Inductive EndBound : Type :=
| End_Unset | End_Open (b : bytes) | End_Closed (b : bytes).

#[global] Instance StartBound_eq_dec : EqDecision StartBound.
Proof. solve_decision. Defined.
#[global] Instance EndBound_eq_dec : EqDecision EndBound.
Proof. solve_decision. Defined.

Record RowRange : Type := mkRowRange { rr_start : StartBound; rr_end : EndBound }.

#[global] Instance RowRange_eq_dec : EqDecision RowRange.
Proof. solve_decision. Defined.

Record RowSet : Type := mkRowSet { rs_RowKeys : list bytes; rs_RowRanges : list RowRange }.

Record TimestampRange : Type := mkTimestampRange {
  StartTimestampMicros : Z;
  EndTimestampMicros : Z }.

#[global] Instance TimestampRange_eq_dec : EqDecision TimestampRange.
Proof. solve_decision. Defined.

(** ** Garbage-collection rules *)

Inductive GcRule : Type :=
| GcRule_Unset
| GcRule_MaxNumVersions (n : Z)
| GcRule_MaxAge (ns : Z)
| GcRule_Union (rules : list GcRule)
| GcRule_Intersection (rules : list GcRule).

Lemma GcRule_ind' (P : GcRule -> Prop) :
  P GcRule_Unset ->
  (forall n, P (GcRule_MaxNumVersions n)) ->
  (forall d, P (GcRule_MaxAge d)) ->
  (forall rs, Forall P rs -> P (GcRule_Union rs)) ->
  (forall rs, Forall P rs -> P (GcRule_Intersection rs)) ->
  forall r, P r.
Proof.
  intros H0 H1 H2 H3 H4. fix IH 1. intros [|n|d|rs|rs].
  - exact H0.
  - apply H1.
  - apply H2.
  - apply H3. induction rs as [|r rs IHrs]; constructor; [apply IH|apply IHrs].
  - apply H4. induction rs as [|r rs IHrs]; constructor; [apply IH|apply IHrs].
Qed.

(** ** Types: family value types and row-key schema fields *)

Inductive Aggregator : Type :=
| Aggregator_Unset | Aggregator_Sum | Aggregator_Min | Aggregator_Max
| Aggregator_HllppUniqueCount.

(** [Type_Int64 true] and [Type_Timestamp true] carry the OrderedCodeBytes
    encoding, [false] any other (the sources default to big-endian bytes);
    [Type_String e] carries [null_escape_char = e]. *)
Inductive Type_ : Type :=
| Type_Unset
| Type_Bytes (escape_nulls : bool)
| Type_String (null_escape_char : bytes)
| Type_Int64 (ordered_code : bool)
| Type_Timestamp (ordered_code : bool)
| Type_Other
| Type_Aggregate (input : Type_) (agg : Aggregator).

#[global] Instance Aggregator_eq_dec : EqDecision Aggregator.
Proof. solve_decision. Defined.
#[global] Instance Type_eq_dec : EqDecision Type_.
Proof. solve_decision. Defined.

(** ** Values *)

Inductive Value_ : Type :=
| Value_Unset
| Value_RawValue (b : bytes)
| Value_RawTimestampMicros (us : Z)
| Value_BytesValue (b : bytes)
| Value_StringValue (s : bytes)
| Value_IntValue (n : Z)
| Value_TimestampValue (seconds nanos : Z)
| Value_Other.

(** ** Mutations *)

Inductive TimestampOrigin : Type :=
| ORIGIN_UNSPECIFIED | USER_SPECIFIED | CLIENT_AUTO_GENERATED.

#[global] Instance TimestampOrigin_eq_dec : EqDecision TimestampOrigin.
Proof. solve_decision. Defined.

Inductive MutationKind : Type :=
| Mutation_nil
| Mutation_SetCell (fam : bytes) (qual : bytes) (ts : Z) (value : bytes)
| Mutation_DeleteFromColumn (fam : bytes) (qual : bytes) (tr : option TimestampRange)
| Mutation_DeleteFromFamily (fam : bytes)
| Mutation_DeleteFromRow
| Mutation_AddToCell (fam : bytes) (qual ts input : Value_)
| Mutation_MergeToCell (fam : bytes) (qual ts input : Value_).

Record Mutation : Type := mkMutation {
  mutation : MutationKind;
  timestamp_origin : TimestampOrigin }.

(** A mutation the server builds itself has no origin set. *)
Definition mut (k : MutationKind) : Mutation := mkMutation k ORIGIN_UNSPECIFIED.

Inductive RMWRule : Type :=
| Rule_Unset | Rule_AppendValue (b : bytes) | Rule_IncrementAmount (n : Z).

Record ReadModifyWriteRule : Type := mkRMW {
  rmw_FamilyName : bytes; rmw_ColumnQualifier : bytes; rmw_Rule : RMWRule }.

Record Idempotency : Type := mkIdempotency {
  idem_Token : bytes;
  idem_StartTime : option (Z * Z)  (* seconds, nanos *) }.

(** ** Row filters *)

(** An IEEE double as far as the sources look at it: comparisons. *)
Inductive float64 : Type :=
| F_NaN | F_NegInf | F_PosInf | F_Fin (num : Z) (den : positive).

Definition float_ltb (a b : float64) : bool :=
  match a, b with
  | F_NaN, _ | _, F_NaN => false
  | F_NegInf, F_NegInf => false
  | F_NegInf, _ => true
  | _, F_NegInf => false
  | F_PosInf, _ => false
  | _, F_PosInf => true
  | F_Fin n1 d1, F_Fin n2 d2 => (n1 * Z.pos d2 <? n2 * Z.pos d1)%Z
  end.

Definition float_leb (a b : float64) : bool :=
  match a, b with
  | F_NaN, _ | _, F_NaN => false
  | _, _ => negb (float_ltb b a)
  end.

Record ColumnRange : Type := mkColumnRange {
  cr_FamilyName : bytes; cr_start : StartBound; cr_end : EndBound }.

Record ValueRange : Type := mkValueRange { vr_start : StartBound; vr_end : EndBound }.

Inductive RowFilter : Type :=
| Filter_nil
| Filter_Chain (subs : list RowFilter)
| Filter_Interleave (subs : list RowFilter)
| Filter_Condition (predicate on_true on_false : option RowFilter)
| Filter_Condition_nil
| Filter_Sink (b : bool)
| Filter_PassAll (b : bool)
| Filter_BlockAll (b : bool)
| Filter_RowKeyRegex (pat : bytes)
| Filter_RowSample (p : float64)
| Filter_FamilyNameRegex (pat : bytes)
| Filter_ColumnQualifierRegex (pat : bytes)
| Filter_ColumnRange (r : option ColumnRange)
| Filter_TimestampRange (r : option TimestampRange)
| Filter_ValueRegex (pat : bytes)
| Filter_ValueRange (r : ValueRange)
| Filter_ValueBitmask (mask : bytes)
| Filter_CellsPerRowOffset (n : Z)
| Filter_CellsPerRowLimit (n : Z)
| Filter_CellsPerColumnLimit (n : Z)
| Filter_StripValue (b : bool)
| Filter_ApplyLabel (label : bytes).

Definition option_all {A} (P : A -> Prop) (o : option A) : Prop :=
  match o with Some a => P a | None => True end.

Lemma RowFilter_ind' (P : RowFilter -> Prop) :
  (forall subs, Forall P subs -> P (Filter_Chain subs)) ->
  (forall subs, Forall P subs -> P (Filter_Interleave subs)) ->
  (forall p t f, option_all P p -> option_all P t -> option_all P f ->
     P (Filter_Condition p t f)) ->
  (forall f, (match f with
              | Filter_Chain _ | Filter_Interleave _ | Filter_Condition _ _ _ => False
              | _ => True end) -> P f) ->
  forall f, P f.
Proof.
  intros Hc Hi Hcond Hrest. fix IH 1.
  intros f. destruct f as [|subs|subs|p t e| | | | | | | | | | | | | | | | | |];
    try (apply Hrest; exact I).
  - apply Hc. induction subs as [|f subs IHs]; constructor; [apply IH|apply IHs].
  - apply Hi. induction subs as [|f subs IHs]; constructor; [apply IH|apply IHs].
  - apply Hcond; [destruct p|destruct t|destruct e]; cbn; first [apply IH|exact I].
Qed.
