(* ===== verification/Rows.v ===== *)
(** * Rows, families and cells

    The in-memory row of [inmem.go] ([row], [family], [cell] and their
    methods), [normalize] of [filter.go] and [appendOrReplaceCell] of
    [mutation_engine.go].

    Go maps are [gmap]s.  A [range] over a map whose body only touches the
    entry it visits is written with the corresponding map combinator, so the
    unspecified iteration order of Go does not appear. *)

From S2P Require Import Prelude Proto.
From stdpp Require Import base list gmap sorting.
From Stdlib Require Import ZArith Lia.

#[local] Open Scope Z_scope.

(** ** Data *)

Record cell : Type := mkCell { Ts : Z; Value : bytes; Labels : list bytes }.

Record family : Type := mkFamily {
  Name : bytes;
  Order : Z;
  ColNames : list bytes;
  Cells : gmap bytes (list cell) }.

Record row : Type := mkRow { key : bytes; families : gmap bytes family }.

Record columnFamily : Type := mkColumnFamily {
  cf_Name : bytes;
  cf_Order : Z;
  cf_GCRule : option GcRule;
  cf_ValueType : option Type_ }.

#[global] Instance cell_eq_dec : EqDecision cell.
Proof. solve_decision. Defined.
#[global] Instance family_eq_dec : EqDecision family.
Proof. solve_decision. Defined.
#[global] Instance row_eq_dec : EqDecision row.
Proof. solve_decision. Defined.

(** The keys and the values a [range] loop over a Go map visits. *)
Definition map_keys {A} (m : gmap bytes A) : list bytes := (map_to_list m).*1.
Definition map_vals {A} (m : gmap bytes A) : list A := (map_to_list m).*2.

(** Record updates. *)
Definition set_families (r : row) (m : gmap bytes family) : row := mkRow (key r) m.
Definition set_Cells (f : family) (m : gmap bytes (list cell)) : family :=
  mkFamily (Name f) (Order f) (ColNames f) m.
Definition set_ColNames (f : family) (cols : list bytes) : family :=
  mkFamily (Name f) (Order f) cols (Cells f).

(** Writing back the family a pointer [r.families[name]] refers to. *)
Definition put_family (r : row) (name : bytes) (f : family) : row :=
  set_families r (<[name := f]> (families r)).

(** ** Operations *)

Definition newRow (k : bytes) : row := mkRow k ∅.

(** A loop [for _, fam := range m { out[fam.Name] = fam }]. *)
Definition by_name (m : gmap bytes family) : gmap bytes family :=
  list_to_map ((fun f => (Name f, f)) <$> map_vals m).

(** [row.copy]: slices and maps are values here, so only the re-keying by
    family name remains visible. *)
Definition copy (r : row) : row := mkRow (key r) (by_name (families r)).

Definition isEmpty (r : row) : bool :=
  forallb (fun fam => forallb (fun cs => Nat.eqb (length cs) 0) (map_vals (Cells fam)))
    (map_vals (families r)).

Definition cellCount (r : row) : Z :=
  foldl (fun n fam => foldl (fun n cs => n + Z.of_nat (length cs)) n (map_vals (Cells fam)))
    0 (map_vals (families r)).

(** [byCreationOrder.Less], as a non-strict comparison. *)
Definition byCreationOrder (a b : family) : bool :=
  if negb (Order a =? Order b) then Order a <? Order b else bytes_leb (Name a) (Name b).

Definition sortedFamilies (r : row) : list family :=
  isort byCreationOrder (map_vals (families r)).

(** Returns the row with the family present, and the family. *)
Definition getOrCreateFamily (r : row) (name : bytes) (order : Z) : row * family :=
  match families r !! name with
  | Some f => (r, f)
  | None => let f := mkFamily name order [] ∅ in (put_family r name f, f)
  end.

(** Returns the family with the column name recorded, and the column's cells. *)
Definition cellsByColumn (f : family) (name : bytes) : family * list cell :=
  match Cells f !! name with
  | Some cs => (f, cs)
  | None => (set_ColNames f (sort_strings (ColNames f ++ [name])), [])
  end.

(** [byDescTS.Less], as a non-strict comparison. *)
Definition byDescTS (a b : cell) : bool := Ts b <=? Ts a.
Definition sort_cells (cs : list cell) : list cell := isort byDescTS cs.

(** The body of [normalize]'s loop: [None] is a deleted family. *)
Definition normalize_family (fam : family) : option family :=
  let cells := omap (fun cs => if Nat.eqb (length cs) 0 then None else Some (sort_cells cs))
                 (Cells fam) in
  let cols := map_keys cells in
  if Nat.eqb (length cols) 0 then None
  else Some (mkFamily (Name fam) (Order fam) (sort_strings cols) cells).

Definition normalize (r : row) : row :=
  set_families r (omap normalize_family (families r)).

(** [row.size]: key bytes plus, per cell, value and qualifier bytes. *)
Definition size (r : row) : Z :=
  foldl (fun n fam =>
    foldl (fun n '(col, cs) =>
      foldl (fun n c => n + (Z.of_nat (length (Value c)) + Z.of_nat (length col))) n cs)
    n (map_to_list (Cells fam)))
  (Z.of_nat (length (key r))) (map_vals (families r)).

(** The in-place replacement of the first cell with the new timestamp. *)
Fixpoint replaceCell (cs : list cell) (c : cell) : option (list cell) :=
  match cs with
  | [] => None
  | c0 :: cs' => if Ts c0 =? Ts c then Some (c :: cs')
                 else cons c0 <$> replaceCell cs' c
  end.

Definition appendOrReplaceCell (cs : list cell) (c : cell) : list cell :=
  match replaceCell cs c with
  | Some cs' => cs'
  | None => sort_cells (cs ++ [c])
  end.

(** ** The cells of a row, and its invariants *)

(** The cells of a column; a missing family or column has none. *)
Definition cells_at (r : row) (fam col : bytes) : list cell :=
  default [] (families r !! fam ≫= fun f => Cells f !! col).

(** The cell of a column with a given timestamp. *)
Fixpoint find_ts (cs : list cell) (ts : Z) : option cell :=
  match cs with
  | [] => None
  | c :: cs' => if Ts c =? ts then Some c else find_ts cs' ts
  end.

Definition desc_le (cs : list cell) : Prop := StronglySorted (fun a b => Ts b <= Ts a) cs.
Definition desc_lt (cs : list cell) : Prop := StronglySorted (fun a b => Ts b < Ts a) cs.

Definition names_ok (r : row) : Prop := map_Forall (fun n f => Name f = n) (families r).

(** [ColNames] is the sorted list of the columns in [Cells]. *)
Definition cols_ok (f : family) : Prop := ColNames f = sort_strings (map_keys (Cells f)).

(** A column order predicate lifted to families and rows. *)
Definition family_ok (P : list cell -> Prop) (f : family) : Prop :=
  cols_ok f /\ Cells f ≠ ∅ /\ map_Forall (fun _ cs => cs ≠ [] /\ P cs) (Cells f).

Definition row_ok (P : list cell -> Prop) (r : row) : Prop :=
  map_Forall (fun n f => Name f = n /\ family_ok P f) (families r).

(** What [normalize] establishes: no empty column or family, [ColNames] in
    step with [Cells], cells by descending timestamp, duplicates allowed. *)
Definition normal_row : row -> Prop := row_ok desc_le.

(** What a stored row satisfies: moreover one cell per timestamp. *)
Definition stored_row : row -> Prop := row_ok desc_lt.

(** ** Lemmas on maps *)

Lemma elem_of_map_keys {A} (m : gmap bytes A) k : k ∈ map_keys m <-> is_Some (m !! k).
Proof.
  unfold map_keys. rewrite list_elem_of_fmap. split.
  - intros ([k' a] & -> & H%elem_of_map_to_list). eauto.
  - intros [a H]. exists (k, a). split; [done|]. by apply elem_of_map_to_list.
Qed.

Lemma elem_of_map_vals {A} (m : gmap bytes A) a : a ∈ map_vals m <-> exists k, m !! k = Some a.
Proof.
  unfold map_vals. rewrite list_elem_of_fmap. split.
  - intros ([k a'] & -> & H%elem_of_map_to_list). eauto.
  - intros [k H]. exists (k, a). split; [done|]. by apply elem_of_map_to_list.
Qed.

Lemma NoDup_map_keys {A} (m : gmap bytes A) : NoDup (map_keys m).
Proof. apply NoDup_fst_map_to_list. Qed.

Lemma map_keys_nil {A} (m : gmap bytes A) : map_keys m = [] <-> m = ∅.
Proof.
  split; intros H.
  - apply map_to_list_empty_iff. by apply fmap_nil_inv in H.
  - subst. unfold map_keys. by rewrite map_to_list_empty.
Qed.

Lemma map_keys_dom_eq {A B : Type} (m1 : gmap bytes A) (m2 : gmap bytes B) :
  (forall k, is_Some (m1 !! k) <-> is_Some (m2 !! k)) ->
  sort_strings (map_keys m1) = sort_strings (map_keys m2).
Proof.
  intros H. apply sort_strings_unique, NoDup_Permutation; auto using NoDup_map_keys.
  intros k. by rewrite !elem_of_map_keys.
Qed.

Lemma length_eqb_0 {A} (l : list A) : Nat.eqb (length l) 0 = true <-> l = [].
Proof. by rewrite Nat.eqb_eq, length_zero_iff_nil. Qed.

Lemma cells_at_family r fam col f :
  families r !! fam = Some f -> cells_at r fam col = default [] (Cells f !! col).
Proof. unfold cells_at. by intros ->. Qed.

Lemma cells_at_no_family r fam col : families r !! fam = None -> cells_at r fam col = [].
Proof. unfold cells_at. by intros ->. Qed.

(** ** [isEmpty] *)

Lemma isEmpty_spec r : isEmpty r = true <-> forall fam col, cells_at r fam col = [].
Proof.
  unfold isEmpty. rewrite forallb_forall. split.
  - intros H fam col. destruct (families r !! fam) as [f|] eqn:Ef; cycle 1.
    { by apply cells_at_no_family. }
    rewrite (cells_at_family _ _ _ _ Ef). destruct (Cells f !! col) as [cs|] eqn:Ec; [|done].
    assert (In f (map_vals (families r))) as Hf.
    { apply list_elem_of_In, elem_of_map_vals. eauto. }
    specialize (H f Hf). rewrite forallb_forall in H.
    apply length_eqb_0, H, list_elem_of_In, elem_of_map_vals. eauto.
  - intros H f [fam Hf]%list_elem_of_In%elem_of_map_vals. apply forallb_forall.
    intros cs [col Hc]%list_elem_of_In%elem_of_map_vals. apply length_eqb_0.
    specialize (H fam col). by rewrite (cells_at_family _ _ _ _ Hf), Hc in H.
Qed.

(** ** Sorting cells *)

Lemma byDescTS_sorted cs :
  StronglySorted (fun x y => byDescTS x y = true) cs <-> desc_le cs.
Proof.
  unfold byDescTS, desc_le. split; induction 1; constructor; auto;
    (eapply Forall_impl; [done|]); intros; cbn in *; lia.
Qed.

Lemma byDescTS_total x y : byDescTS x y = true \/ byDescTS y x = true.
Proof. unfold byDescTS. lia. Qed.
Lemma byDescTS_trans x y z : byDescTS x y = true -> byDescTS y z = true -> byDescTS x z = true.
Proof. unfold byDescTS. lia. Qed.

#[export] Hint Resolve byDescTS_total byDescTS_trans : lbt.

Lemma sort_cells_sorted cs : desc_le (sort_cells cs).
Proof. apply byDescTS_sorted, isort_sorted; eauto with lbt. Qed.

Lemma sort_cells_id cs : desc_le cs -> sort_cells cs = cs.
Proof. intros H. apply isort_id. by apply byDescTS_sorted. Qed.

Lemma sort_cells_perm cs : sort_cells cs ≡ₚ cs.
Proof. apply isort_perm. Qed.

Lemma sort_cells_nil cs : sort_cells cs = [] <-> cs = [].
Proof. split; [apply isort_nil_inv|by intros ->]. Qed.

Lemma length_sort_cells cs : length (sort_cells cs) = length cs.
Proof. apply length_isort. Qed.

Lemma desc_lt_le cs : desc_lt cs -> desc_le cs.
Proof.
  unfold desc_lt, desc_le. induction 1; constructor; auto.
  eapply Forall_impl; [done|]. cbn. lia.
Qed.

(** Descending cells with distinct timestamps are strictly descending. *)
Lemma desc_lt_NoDup cs : desc_lt cs <-> desc_le cs /\ NoDup (Ts <$> cs).
Proof.
  split.
  - intros H. split; [by apply desc_lt_le|].
    induction H as [|c cs H IH Hc]; cbn; constructor; auto.
    rewrite list_elem_of_fmap. intros (c' & E & Hin).
    rewrite list.Forall_forall in Hc. specialize (Hc c' Hin). cbn in Hc. lia.
  - intros [H Hnd]. induction H as [|c cs H IH Hc]; constructor.
    + apply IH. by apply NoDup_cons_1_2 in Hnd.
    + apply NoDup_cons_1_1 in Hnd. rewrite list.Forall_forall in *.
      intros c' Hin. specialize (Hc c' Hin). cbn in Hc.
      assert (Ts c' <> Ts c); [|lia]. intros E. apply Hnd. rewrite <- E.
      by apply list_elem_of_fmap_2.
Qed.

Lemma find_ts_filter cs t : find_ts cs t = head (filter (fun c => Ts c = t) cs).
Proof.
  induction cs as [|c cs IH]; [done|]. cbn [find_ts]. rewrite filter_cons.
  destruct (Z.eqb_spec (Ts c) t); case_decide; try done; congruence.
Qed.

(** Sorting keeps the first cell of each timestamp. *)
Lemma find_ts_sort cs t : find_ts (sort_cells cs) t = find_ts cs t.
Proof.
  rewrite !find_ts_filter. unfold sort_cells. rewrite isort_stable; [done|].
  unfold byDescTS. intros y z -> ->. lia.
Qed.

Lemma find_ts_Some cs t c : find_ts cs t = Some c -> c ∈ cs /\ Ts c = t.
Proof.
  induction cs as [|c0 cs IH]; [done|]. cbn. destruct (Z.eqb_spec (Ts c0) t).
  - intros [= ->]. split; [left|done].
  - intros [? ?]%IH. split; [by right|done].
Qed.

Lemma find_ts_None cs t : find_ts cs t = None <-> Forall (fun c => Ts c <> t) cs.
Proof.
  induction cs as [|c cs IH]; [done|]. cbn. rewrite Forall_cons.
  rewrite <- IH. destruct (Z.eqb_spec (Ts c) t); intuition congruence.
Qed.

Lemma find_ts_app cs1 cs2 t :
  find_ts (cs1 ++ cs2) t = match find_ts cs1 t with Some c => Some c | None => find_ts cs2 t end.
Proof. induction cs1 as [|c cs1 IH]; [done|]. cbn. by destruct (Ts c =? t). Qed.

Lemma find_ts_unique cs c : NoDup (Ts <$> cs) -> c ∈ cs -> find_ts cs (Ts c) = Some c.
Proof.
  induction cs as [|c0 cs IH]; intros Hnd; [by intros ?%not_elem_of_nil|].
  intros [->|Hin]%elem_of_cons; cbn; [by rewrite Z.eqb_refl|].
  apply NoDup_cons_1_1 in Hnd as Hn. apply NoDup_cons_1_2 in Hnd.
  destruct (Z.eqb_spec (Ts c0) (Ts c)) as [E|]; [|auto].
  destruct Hn. rewrite E. by apply list_elem_of_fmap_2.
Qed.

(** Strictly descending columns are determined by their cells per timestamp. *)
Lemma desc_lt_ext cs1 cs2 :
  desc_lt cs1 -> desc_lt cs2 -> (forall t, find_ts cs1 t = find_ts cs2 t) -> cs1 = cs2.
Proof.
  intros [H1 N1]%desc_lt_NoDup [H2 N2]%desc_lt_NoDup Hf.
  apply (sorted_unique_on byDescTS); try by apply byDescTS_sorted.
  - unfold byDescTS. intros x y Hx Hy ??. assert (Ts x = Ts y) as E by lia.
    apply find_ts_unique in Hx, Hy; auto. rewrite E, Hy in Hx. by simplify_eq.
  - apply NoDup_Permutation.
    + by eapply NoDup_fmap_1.
    + by eapply NoDup_fmap_1.
    + intros c. split; intros Hin.
      * apply find_ts_unique in Hin; auto. rewrite Hf in Hin. by apply find_ts_Some in Hin as [? _].
      * apply find_ts_unique in Hin; auto. rewrite <- Hf in Hin. by apply find_ts_Some in Hin as [? _].
Qed.

(** ** [appendOrReplaceCell] *)

Lemma replaceCell_Some cs c cs' :
  replaceCell cs c = Some cs' ->
  exists l1 c0 l2, cs = l1 ++ c0 :: l2 /\ cs' = l1 ++ c :: l2 /\ Ts c0 = Ts c
    /\ find_ts l1 (Ts c) = None.
Proof.
  revert cs'. induction cs as [|c0 cs IH]; intros cs'; cbn; [done|].
  destruct (Z.eqb_spec (Ts c0) (Ts c)) as [E|E].
  - intros [= <-]. exists [], c0, cs. done.
  - intros (cs1 & H & ->)%fmap_Some.
    apply IH in H as (l1 & c1 & l2 & -> & -> & E1 & Hn).
    exists (c0 :: l1), c1, l2. cbn. destruct (Z.eqb_spec (Ts c0) (Ts c)); [congruence|]. done.
Qed.

Lemma replaceCell_None cs c : replaceCell cs c = None <-> find_ts cs (Ts c) = None.
Proof.
  induction cs as [|c0 cs IH]; cbn; [done|].
  destruct (Ts c0 =? Ts c); [done|]. rewrite <- IH. by destruct (replaceCell cs c).
Qed.

Lemma appendOrReplaceCell_nonempty cs c : appendOrReplaceCell cs c <> [].
Proof.
  unfold appendOrReplaceCell. destruct (replaceCell cs c) eqn:E.
  - apply replaceCell_Some in E as (l1 & c0 & l2 & -> & -> & _). by destruct l1.
  - rewrite sort_cells_nil. by destruct cs.
Qed.

Lemma appendOrReplaceCell_Ts cs c :
  Ts <$> appendOrReplaceCell cs c ≡ₚ
    (if decide (find_ts cs (Ts c) = None) then Ts c :: (Ts <$> cs) else Ts <$> cs).
Proof.
  unfold appendOrReplaceCell. destruct (replaceCell cs c) as [cs'|] eqn:E.
  - rewrite decide_False; cycle 1.
    { intros H%replaceCell_None. congruence. }
    apply replaceCell_Some in E as (l1 & c0 & l2 & -> & -> & E & _).
    by rewrite !fmap_app, !fmap_cons, E.
  - rewrite decide_True by by apply replaceCell_None.
    rewrite sort_cells_perm, fmap_app. cbn. by rewrite Permutation_app_comm.
Qed.

Lemma desc_le_replace l1 c0 l2 c :
  Ts c0 = Ts c -> desc_le (l1 ++ c0 :: l2) -> desc_le (l1 ++ c :: l2).
Proof.
  unfold desc_le. intros E. induction l1 as [|c1 l1 IH]; cbn; inversion 1; subst; constructor; auto.
  - by rewrite <- E.
  - rewrite Forall_app, Forall_cons in *. rewrite <- E. tauto.
Qed.

(** A write keeps a column strictly descending, hence one cell per timestamp. *)
Lemma appendOrReplaceCell_desc_lt cs c : desc_lt cs -> desc_lt (appendOrReplaceCell cs c).
Proof.
  rewrite !desc_lt_NoDup. intros [Hd Hn]. split.
  - unfold appendOrReplaceCell. destruct (replaceCell cs c) eqn:E; [|apply sort_cells_sorted].
    apply replaceCell_Some in E as (l1 & c0 & l2 & -> & -> & E & _).
    by eapply desc_le_replace.
  - rewrite appendOrReplaceCell_Ts. case_decide as Hc; [|done]. constructor; [|done].
    rewrite list_elem_of_fmap. intros (c' & Ec & Hin).
    apply find_ts_None in Hc. rewrite list.Forall_forall in Hc. by apply (Hc c').
Qed.

(** The write is visible at its timestamp and nowhere else. *)
Lemma find_ts_appendOrReplaceCell cs c t :
  find_ts (appendOrReplaceCell cs c) t = if Ts c =? t then Some c else find_ts cs t.
Proof.
  unfold appendOrReplaceCell. destruct (replaceCell cs c) as [cs'|] eqn:E.
  - apply replaceCell_Some in E as (l1 & c0 & l2 & -> & -> & E & Hn).
    rewrite !find_ts_app. cbn. rewrite E. destruct (Z.eqb_spec (Ts c) t) as [<-|]; [|done].
    by rewrite Hn.
  - apply replaceCell_None in E. rewrite find_ts_sort, find_ts_app. cbn.
    destruct (Z.eqb_spec (Ts c) t) as [<-|]; [by rewrite E|]. by destruct (find_ts cs t).
Qed.

(** ** [copy] *)

Lemma by_name_id (m : gmap bytes family) :
  map_Forall (fun n f => Name f = n) m -> by_name m = m.
Proof.
  intros H. unfold by_name, map_vals. rewrite <- list_fmap_compose.
  rewrite <- (list_to_map_to_list m) at 2. f_equal.
  rewrite <- (list_fmap_id (map_to_list m)) at 2. apply list_fmap_ext.
  intros i [n f] Hi. cbn. f_equal. apply H, elem_of_map_to_list.
  by eapply list_elem_of_lookup_2.
Qed.

Lemma row_ok_names P r : row_ok P r -> names_ok r.
Proof. intros H n f Hf. by apply H in Hf as [? _]. Qed.

Lemma copy_id r : names_ok r -> copy r = r.
Proof. intros H. unfold copy. rewrite by_name_id by done. by destruct r. Qed.

#[export] Hint Resolve row_ok_names : lbt.

(** ** [normalize] *)

Definition norm_col (cs : list cell) : option (list cell) :=
  if Nat.eqb (length cs) 0 then None else Some (sort_cells cs).

Lemma norm_col_default cs : default [] (norm_col cs) = sort_cells cs.
Proof. unfold norm_col. by destruct cs. Qed.

Lemma norm_col_Some cs cs' :
  norm_col cs = Some cs' -> cs' = sort_cells cs /\ cs <> [].
Proof. unfold norm_col. destruct cs; cbn; [done|]. by intros [= <-]. Qed.

Lemma norm_col_id cs : cs <> [] -> desc_le cs -> norm_col cs = Some cs.
Proof.
  intros Hne Hd. unfold norm_col. destruct cs; [done|]. cbn [length Nat.eqb].
  by rewrite sort_cells_id.
Qed.

Lemma normalize_family_spec f :
  normalize_family f =
    (let m := omap norm_col (Cells f) in
     if decide (m = ∅) then None
     else Some (mkFamily (Name f) (Order f) (sort_strings (map_keys m)) m)).
Proof.
  unfold normalize_family, norm_col. cbn zeta.
  match goal with |- context [map_keys ?m] => set (M := m) end.
  case_decide as HM.
  - by rewrite (proj2 (length_eqb_0 _) (proj2 (map_keys_nil _) HM)).
  - destruct (Nat.eqb (length (map_keys M)) 0) eqn:E; [|done].
    by apply length_eqb_0, map_keys_nil in E.
Qed.

Lemma lookup_normalize r fam :
  families (normalize r) !! fam = families r !! fam ≫= normalize_family.
Proof. apply lookup_omap. Qed.

Lemma normalize_family_cells f f' col :
  normalize_family f = Some f' -> Cells f' !! col = Cells f !! col ≫= norm_col.
Proof.
  rewrite normalize_family_spec. cbn zeta. case_decide; [done|].
  intros [= <-]. cbn. apply lookup_omap.
Qed.

(** Normalising keeps every column's cells, in descending timestamp order. *)
Lemma cells_at_normalize r fam col :
  cells_at (normalize r) fam col = sort_cells (cells_at r fam col).
Proof.
  unfold cells_at. rewrite lookup_normalize.
  destruct (families r !! fam) as [f|]; [|done]. cbn.
  destruct (normalize_family f) as [f'|] eqn:E; cbn.
  - rewrite (normalize_family_cells _ _ _ E). destruct (Cells f !! col); [|done].
    apply norm_col_default.
  - rewrite normalize_family_spec in E. cbn zeta in E. case_decide as Hm; [|done].
    pose proof (f_equal (fun m => m !! col) Hm) as H. cbn in H.
    rewrite lookup_omap, lookup_empty in H. destruct (Cells f !! col) as [cs|]; [|done].
    cbn in *. by rewrite <- norm_col_default, H.
Qed.

Lemma normalize_family_ok f f' :
  normalize_family f = Some f' -> Name f' = Name f /\ Order f' = Order f /\ family_ok desc_le f'.
Proof.
  rewrite normalize_family_spec. cbn zeta. case_decide as Hm; [done|].
  intros [= <-]. do 4 (split; [done|]). intros col cs. cbn.
  rewrite lookup_omap. intros (cs0 & _ & E)%bind_Some.
  apply norm_col_Some in E as [-> Hne].
  split; [by rewrite sort_cells_nil|apply sort_cells_sorted].
Qed.

Lemma normalize_normal r : names_ok r -> normal_row (normalize r).
Proof.
  intros H fam f. rewrite lookup_normalize. intros (f0 & Hf & E)%bind_Some.
  apply normalize_family_ok in E as (-> & _ & Hok). split; [by apply H|done].
Qed.

Lemma family_ok_normalize f : family_ok desc_le f -> normalize_family f = Some f.
Proof.
  intros (Hc & Hne & Hcells). rewrite normalize_family_spec. cbn zeta.
  assert (omap norm_col (Cells f) = Cells f) as ->.
  { apply map_eq. intros col. rewrite lookup_omap.
    destruct (Cells f !! col) as [cs|] eqn:E; [|done]. cbn.
    apply Hcells in E as [??]. by apply norm_col_id. }
  rewrite decide_False by done. rewrite <- Hc. by destruct f.
Qed.

(** Normal rows are exactly the fixed points. *)
Lemma normalize_id r : normal_row r -> normalize r = r.
Proof.
  intros H. unfold normalize, set_families. destruct r as [k m]; cbn. f_equal.
  apply map_eq. intros fam. rewrite lookup_omap.
  destruct (m !! fam) as [f|] eqn:E; [|done]. cbn.
  apply H in E as [_ ?]. by apply family_ok_normalize.
Qed.

Lemma normalize_idem r : names_ok r -> normalize (normalize r) = normalize r.
Proof. intros. by apply normalize_id, normalize_normal. Qed.

Lemma key_normalize r : key (normalize r) = key r.
Proof. done. Qed.

Lemma isEmpty_normalize r : isEmpty (normalize r) = isEmpty r.
Proof.
  apply eq_true_iff_eq. rewrite !isEmpty_spec.
  split; intros H fam col; specialize (H fam col);
    rewrite cells_at_normalize in *; by apply sort_cells_nil.
Qed.

Lemma row_ok_impl (P Q : list cell -> Prop) r :
  (forall cs, P cs -> Q cs) -> row_ok P r -> row_ok Q r.
Proof.
  intros HPQ H fam f Hf. apply H in Hf as (Hn & Hc & Hne & Hcells).
  do 3 (split; [done|]). intros col cs Hcs. apply Hcells in Hcs as [??]. auto.
Qed.

Lemma stored_normal r : stored_row r -> normal_row r.
Proof. apply row_ok_impl, desc_lt_le. Qed.

#[export] Hint Resolve stored_normal normalize_normal : lbt.

Lemma row_ok_cells P r fam col :
  row_ok P r -> cells_at r fam col <> [] -> P (cells_at r fam col).
Proof.
  intros H. destruct (families r !! fam) as [f|] eqn:Ef; cycle 1.
  { by rewrite cells_at_no_family. }
  rewrite (cells_at_family _ _ _ _ Ef).
  destruct (Cells f !! col) as [cs|] eqn:Ec; [|done]. intros _.
  apply H in Ef as (_ & _ & _ & Hcells). by apply Hcells in Ec as [_ ?].
Qed.

Lemma stored_cells r fam col : stored_row r -> desc_lt (cells_at r fam col).
Proof.
  intros H. destruct (decide (cells_at r fam col = [])) as [->|]; [constructor|].
  by apply row_ok_cells.
Qed.

Lemma normal_cells r fam col : normal_row r -> desc_le (cells_at r fam col).
Proof.
  intros H. destruct (decide (cells_at r fam col = [])) as [->|]; [constructor|].
  by apply row_ok_cells.
Qed.

(** Normalising a row with one cell per timestamp and column yields a row
    that may be stored. *)
Lemma normalize_stored r :
  names_ok r -> (forall fam col, NoDup (Ts <$> cells_at r fam col)) ->
  stored_row (normalize r).
Proof.
  intros Hn Hnd fam f Hf. pose proof Hf as Hf'.
  apply (normalize_normal r Hn) in Hf as (Hname & Hc & Hne & Hcells).
  do 3 (split; [done|]). intros col cs Hcs. pose proof Hcs as Hcs'.
  apply Hcells in Hcs as [? Hd]. split; [done|]. apply desc_lt_NoDup. split; [done|].
  specialize (Hnd fam col). replace cs with (cells_at (normalize r) fam col).
  - by rewrite cells_at_normalize, sort_cells_perm.
  - by rewrite (cells_at_family _ _ _ _ Hf'), Hcs'.
Qed.

(** Rows without empty columns are determined by their key, the creation
    order of their families and their cells. *)
Lemma row_ok_ext P Q r1 r2 :
  row_ok P r1 -> row_ok Q r2 -> key r1 = key r2 ->
  (forall fam f1 f2, families r1 !! fam = Some f1 -> families r2 !! fam = Some f2 ->
     Order f1 = Order f2) ->
  (forall fam col, cells_at r1 fam col = cells_at r2 fam col) -> r1 = r2.
Proof.
  intros H1 H2 Hk Ho Hc.
  assert (forall (P Q : list cell -> Prop) r1 r2, row_ok P r1 -> row_ok Q r2 ->
    (forall fam col, cells_at r1 fam col = cells_at r2 fam col) ->
    forall fam, is_Some (families r1 !! fam) -> is_Some (families r2 !! fam)) as Hdom.
  { clear. intros P Q r1 r2 H1 H2 Hc fam [f1 Hf1].
    pose proof Hf1 as Hf. apply H1 in Hf as (_ & _ & Hne & Hcells).
    apply map_choose in Hne as (col & cs & Hcs). apply Hcells in Hcs as Hcs'.
    destruct (families r2 !! fam) eqn:E; [eauto|]. specialize (Hc fam col).
    rewrite (cells_at_family _ _ _ _ Hf1), (cells_at_no_family _ _ _ E), Hcs in Hc. by destruct Hcs'. }
  destruct r1 as [k1 m1], r2 as [k2 m2]; cbn in Hk; subst k2. f_equal. apply map_eq. intros fam.
  destruct (m1 !! fam) as [f1|] eqn:E1; cycle 1.
  { destruct (m2 !! fam) eqn:E2; [|done].
    destruct (Hdom _ _ _ _ H2 H1 (fun a b => eq_sym (Hc a b)) fam) as [? ?]; cbn; [eauto|].
    cbn in *. congruence. }
  destruct (Hdom _ _ _ _ H1 H2 Hc fam) as [f2 E2]; cbn in *; [eauto|]. rewrite E2. f_equal.
  specialize (Ho _ _ _ E1 E2).
  apply H1 in E1 as E1'. destruct E1' as (Hn1 & Hc1 & _ & Hcells1).
  apply H2 in E2 as E2'. destruct E2' as (Hn2 & Hc2 & _ & Hcells2).
  assert (Cells f1 = Cells f2) as Hcells.
  { apply map_eq. intros col. specialize (Hc fam col). unfold cells_at in Hc. cbn in Hc.
    rewrite E1, E2 in Hc. cbn in Hc.
    destruct (Cells f1 !! col) eqn:C1, (Cells f2 !! col) eqn:C2; cbn in Hc; subst; auto;
      [by apply Hcells1 in C1 as [? _]|by apply Hcells2 in C2 as [? _]]. }
  destruct f1, f2; unfold cols_ok in *; cbn in *; subst. done.
Qed.

(** ** [sortedFamilies] *)

Lemma byCreationOrder_total a b : byCreationOrder a b = true \/ byCreationOrder b a = true.
Proof.
  unfold byCreationOrder. rewrite (Z.eqb_sym (Order b)).
  destruct (Z.eqb_spec (Order a) (Order b)); cbn; [apply bytes_leb_total|lia].
Qed.

Lemma byCreationOrder_trans a b c :
  byCreationOrder a b = true -> byCreationOrder b c = true -> byCreationOrder a c = true.
Proof.
  unfold byCreationOrder.
  destruct (Z.eqb_spec (Order a) (Order b)), (Z.eqb_spec (Order b) (Order c)),
    (Z.eqb_spec (Order a) (Order c)); cbn; try lia. apply bytes_leb_trans.
Qed.

Lemma byCreationOrder_antisym a b :
  byCreationOrder a b = true -> byCreationOrder b a = true ->
  Order a = Order b /\ Name a = Name b.
Proof.
  unfold byCreationOrder. rewrite (Z.eqb_sym (Order b)).
  destruct (Z.eqb_spec (Order a) (Order b)); cbn; [|lia].
  split; [done|]. by apply bytes_leb_antisym.
Qed.

#[export] Hint Resolve byCreationOrder_total byCreationOrder_trans : lbt.

Abbreviation creation_sorted := (StronglySorted (fun a b => byCreationOrder a b = true)).

Lemma sortedFamilies_sorted r : creation_sorted (sortedFamilies r).
Proof. apply isort_sorted; eauto with lbt. Qed.

Lemma sortedFamilies_perm r : sortedFamilies r ≡ₚ map_vals (families r).
Proof. apply isort_perm. Qed.

Lemma elem_of_sortedFamilies r f :
  names_ok r -> f ∈ sortedFamilies r <-> families r !! Name f = Some f.
Proof.
  intros Hn. rewrite sortedFamilies_perm, elem_of_map_vals. split; [|eauto].
  intros [n Hf]. by rewrite (Hn n f Hf).
Qed.

Lemma map_vals_names (m : gmap bytes family) :
  map_Forall (fun n f => Name f = n) m -> Name <$> map_vals m = map_keys m.
Proof.
  intros H. unfold map_vals, map_keys. rewrite <- list_fmap_compose.
  apply list_fmap_ext. intros i [n f] Hi. cbn. apply H, elem_of_map_to_list.
  by eapply list_elem_of_lookup_2.
Qed.

Lemma sortedFamilies_NoDup r : names_ok r -> NoDup (Name <$> sortedFamilies r).
Proof.
  intros Hn. rewrite sortedFamilies_perm, map_vals_names by done. apply NoDup_map_keys.
Qed.

(** Any sorted arrangement of the families is the one the code computes, so
    the map's iteration order and the instability of [sort.Sort] do not show. *)
Lemma sortedFamilies_unique r l :
  names_ok r -> l ≡ₚ map_vals (families r) -> creation_sorted l -> l = sortedFamilies r.
Proof.
  intros Hn HP Hs. symmetry.
  apply (sorted_unique_on byCreationOrder); auto using sortedFamilies_sorted.
  - intros x y Hx Hy H1 H2. destruct (byCreationOrder_antisym x y H1 H2) as [_ E].
    apply elem_of_sortedFamilies in Hx; [|done]. apply elem_of_sortedFamilies in Hy; [|done].
    rewrite E in Hx. congruence.
  - by rewrite sortedFamilies_perm, HP.
Qed.

(** ** [getOrCreateFamily] and column writes *)

Lemma getOrCreateFamily_spec r name order :
  let '(r', f) := getOrCreateFamily r name order in
  families r' !! name = Some f /\ key r' = key r
  /\ (forall fam col, cells_at r' fam col = cells_at r fam col)
  /\ (forall n, n <> name -> families r' !! n = families r !! n)
  /\ (families r !! name = Some f \/ (families r !! name = None /\ f = mkFamily name order [] ∅)).
Proof.
  unfold getOrCreateFamily. destruct (families r !! name) as [f|] eqn:E; [naive_solver|].
  unfold put_family, set_families; cbn. split_and!; auto.
  - apply lookup_insert_eq.
  - intros fam col. unfold cells_at. cbn. rewrite lookup_insert.
    case_decide; [|done]. subst. by rewrite E.
  - intros n Hn. by rewrite lookup_insert_ne.
Qed.

(** Setting the cells of one column of one family. *)
Definition set_col (r : row) (name col : bytes) (order : Z) (g : list cell -> list cell) : row :=
  let '(r1, f) := getOrCreateFamily r name order in
  let '(f1, cs) := cellsByColumn f col in
  put_family r1 name (set_Cells f1 (<[col := g cs]> (Cells f1))).

Lemma cellsByColumn_spec f col :
  let '(f1, cs) := cellsByColumn f col in
  cs = default [] (Cells f !! col) /\ Cells f1 = Cells f
  /\ Name f1 = Name f /\ Order f1 = Order f
  /\ ((Cells f !! col = Some cs /\ f1 = f) \/
      (Cells f !! col = None /\ ColNames f1 = sort_strings (ColNames f ++ [col]))).
Proof. unfold cellsByColumn. destruct (Cells f !! col) eqn:E; cbn; naive_solver. Qed.

Lemma cells_at_set_col r name col order g fam c :
  cells_at (set_col r name col order g) fam c =
    if decide (fam = name /\ c = col) then g (cells_at r fam c) else cells_at r fam c.
Proof.
  unfold set_col. pose proof (getOrCreateFamily_spec r name order) as Hg.
  destruct (getOrCreateFamily r name order) as [r1 f].
  destruct Hg as (Hf & _ & Hcells & Hother & _).
  pose proof (cellsByColumn_spec f col) as Hc. destruct (cellsByColumn f col) as [f1 cs].
  destruct Hc as (-> & Hc1 & _).
  rewrite <- (Hcells fam c). unfold cells_at, put_family. cbn.
  destruct (decide (fam = name)) as [->|Hne]; cycle 1.
  { rewrite lookup_insert_ne by done. rewrite decide_False by naive_solver. done. }
  rewrite lookup_insert_eq, Hf. cbn. rewrite Hc1.
  destruct (decide (c = col)) as [->|Hne].
  - rewrite lookup_insert_eq, decide_True by done. done.
  - rewrite lookup_insert_ne by done. rewrite decide_False by naive_solver. done.
Qed.

Lemma cols_ok_insert f col cs :
  cols_ok f -> Cells f !! col = None ->
  sort_strings (ColNames f ++ [col]) = sort_strings (map_keys (<[col := cs]> (Cells f))).
Proof.
  intros Hc Hn. apply sort_strings_unique. rewrite Hc, sort_strings_perm.
  apply NoDup_Permutation; [|apply NoDup_map_keys|].
  - apply NoDup_app. split_and!; [apply NoDup_map_keys| |apply NoDup_singleton].
    intros x Hx ->%list_elem_of_singleton. apply elem_of_map_keys in Hx as [? ?]. congruence.
  - intros x. rewrite elem_of_app, list_elem_of_singleton, !elem_of_map_keys, lookup_insert_is_Some.
    destruct (decide (col = x)); naive_solver.
Qed.

(** A column write through a family keeps the row invariant. *)
Lemma set_col_ok P r name col order g :
  row_ok P r -> g (cells_at r name col) <> [] -> P (g (cells_at r name col)) ->
  row_ok P (set_col r name col order g).
Proof.
  intros Hr Hne HP. unfold set_col.
  pose proof (getOrCreateFamily_spec r name order) as Hg.
  destruct (getOrCreateFamily r name order) as [r1 f].
  destruct Hg as (Hf & _ & Hcells & Hother & Hold).
  assert (Name f = name /\ cols_ok f /\ map_Forall (fun _ cs => cs ≠ [] /\ P cs) (Cells f))
    as (Hname & Hcols & HF).
  { destruct Hold as [Hf'|[_ ->]]; [apply Hr in Hf' as (?&?&?&?); done|]. split_and!; done. }
  specialize (Hcells name col). rewrite (cells_at_family _ _ _ _ Hf) in Hcells.
  pose proof (cellsByColumn_spec f col) as Hc. destruct (cellsByColumn f col) as [f1 cs].
  destruct Hc as (Hcs & Hc1 & Hn1 & Ho1 & Hcase). rewrite <- Hcs in Hcells.
  intros n fam. unfold put_family; cbn. rewrite lookup_insert. case_decide as Hnn.
  - intros [= <-]. subst n. rewrite Hc1. unfold set_Cells. cbn.
    split; [congruence|]. split; [|split].
    + unfold cols_ok. cbn. destruct Hcase as [[Hsome ->]|[Hnone ->]].
      * rewrite Hcols. apply map_keys_dom_eq. intros k. rewrite lookup_insert_is_Some.
        destruct (decide (col = k)); naive_solver.
      * by apply cols_ok_insert.
    + cbn. apply insert_non_empty.
    + cbn. apply map_Forall_insert_2; [|done]. rewrite Hcells. done.
  - rewrite Hother by done. apply Hr.
Qed.

(** ** A sample row

    Used where a statement is applied to concrete data: two families, [a]
    created after [b]. *)
Module Sample.
Definition c1 := mkCell 2000 [1] [].
Definition c2 := mkCell 1000 [2] [].
Definition c3 := mkCell 3000 [3] [].
Definition row1 : row := mkRow [107]
  {[ [97] := mkFamily [97] 2 [[113]] {[ [113] := [c1; c2] ]};
     [98] := mkFamily [98] 1 [[113]] {[ [113] := [c3] ]} ]}.

Lemma row1_stored : stored_row row1.
Proof.
  intros n f Hf. cbn [row1 families] in Hf.
  apply lookup_insert_Some in Hf as [[<- <-]|[_ [<- <-]%lookup_singleton_Some]];
    (split; [done|]); (split; [by vm_compute|]); (split; [done|]);
    intros col cs Hcs; cbn [Cells] in Hcs; apply lookup_singleton_Some in Hcs as [<- <-];
    (split; [done|]); repeat constructor; cbn; lia.
Qed.
End Sample.

(** ** Properties *)

(** [normalize] sorts every column newest first without losing, adding or
    reordering equal-timestamp cells, drops empty columns and families, and
    leaves a well-formed row; a second call changes nothing. *)
Theorem normalize_spec r :
  names_ok r ->
  normal_row (normalize r) /\ normalize (normalize r) = normalize r /\
  forall fam col, cells_at (normalize r) fam col = sort_cells (cells_at r fam col) /\
                  sort_cells (cells_at r fam col) ≡ₚ cells_at r fam col.
Proof.
  intros Hn. split; [by apply normalize_normal|]. split; [by apply normalize_idem|].
  intros fam col. split; [apply cells_at_normalize|apply sort_cells_perm].
Qed.

Lemma normalize_spec_witness :
  normal_row (normalize Sample.row1) /\
  normalize (normalize Sample.row1) = normalize Sample.row1 /\
  forall fam col, cells_at (normalize Sample.row1) fam col = sort_cells (cells_at Sample.row1 fam col) /\
                  sort_cells (cells_at Sample.row1 fam col) ≡ₚ cells_at Sample.row1 fam col.
Proof. apply normalize_spec. apply (row_ok_names desc_lt), Sample.row1_stored. Defined.

(** Writing a cell into a column ordered newest first with distinct
    timestamps keeps that order; the written timestamp reads back the new
    cell and every other timestamp what it held before. *)
Theorem appendOrReplaceCell_spec cs c :
  desc_lt cs ->
  desc_lt (appendOrReplaceCell cs c) /\
  forall t, find_ts (appendOrReplaceCell cs c) t = if Ts c =? t then Some c else find_ts cs t.
Proof.
  intros H. split; [by apply appendOrReplaceCell_desc_lt|]. intros t.
  apply find_ts_appendOrReplaceCell.
Qed.

Lemma appendOrReplaceCell_spec_witness :
  desc_lt (appendOrReplaceCell [Sample.c1; Sample.c2] (mkCell 1500 [9] [])) /\
  forall t, find_ts (appendOrReplaceCell [Sample.c1; Sample.c2] (mkCell 1500 [9] [])) t =
    if 1500 =? t then Some (mkCell 1500 [9] []) else find_ts [Sample.c1; Sample.c2] t.
Proof.
  apply (appendOrReplaceCell_spec [Sample.c1; Sample.c2] (mkCell 1500 [9] [])).
  repeat constructor; cbn; lia.
Defined.
