(* ===== verification/Gc.v ===== *)
(** * Garbage collection

    The GC rules of [inmem.go]: [gcDeletes], [applyGCAt], [applyGC],
    [row.gcWithChanges] and [row.gc].  The clock reading is an argument. *)

From S2P Require Import Prelude Proto Rows.
From stdpp Require Import base list gmap sorting.
From Stdlib Require Import ZArith Lia.

#[local] Open Scope Z_scope.

(** ** Operations *)

(** The loop of the [MaxNumVersions] case: [i] runs from [n] to
    [len(cells)-1] and negative indices are skipped. *)
Definition flagVersions (n : Z) (len : nat) (flags : list bool) : list bool :=
  foldl (fun flags i => if 0 <=? i then <[Z.to_nat i := true]> flags else flags)
    flags (seqZ n (Z.of_nat len - n)).

Definition gcCutoff (ns nowMicros : Z) : Z := wrap64 (nowMicros - Z.quot ns 1000).

Fixpoint gcDeletes (cells : list cell) (rule : GcRule) (nowMicros : Z) : list bool :=
  let flags := replicate (length cells) false in
  match rule with
  | GcRule_Unset => flags
  | GcRule_MaxNumVersions n => flagVersions n (length cells) flags
  | GcRule_MaxAge ns => (fun c => Ts c <? gcCutoff ns nowMicros) <$> cells
  | GcRule_Union subs =>
      foldl (fun flags sub => zip_with orb flags (gcDeletes cells sub nowMicros)) flags subs
  | GcRule_Intersection subs =>
      match subs with
      | [] => flags
      | _ => foldl (fun flags sub => zip_with andb flags (gcDeletes cells sub nowMicros))
               (replicate (length cells) true) subs
      end
  end.

(** The loop of [applyGCAt] that splits the cells by their flag. *)
Fixpoint splitFlags (flags : list bool) (cells : list cell) : list cell * list cell :=
  match flags, cells with
  | f :: flags', c :: cells' =>
      let '(kept, removed) := splitFlags flags' cells' in
      if f then (kept, c :: removed) else (c :: kept, removed)
  | _, _ => ([], [])
  end.

Definition applyGCAt (cells : list cell) (rule : option GcRule) (nowMicros : Z)
    : list cell * list cell :=
  match cells, rule with
  | [], _ | _, None => (cells, [])
  | _, Some rule =>
      let '(kept, removed) := splitFlags (gcDeletes cells rule nowMicros) cells in
      match removed with [] => (cells, []) | _ => (kept, removed) end
  end.

Definition applyGC (cells : list cell) (rule : option GcRule) (nowMicros : Z)
    : list cell * bool :=
  let '(kept, removed) := applyGCAt cells rule nowMicros in
  (kept, negb (Nat.eqb (length removed) 0)).

(** The change record of one collected cell. *)
Definition gcChange (fam col : bytes) (c : cell) : Mutation :=
  mut (Mutation_DeleteFromColumn fam col
         (Some (mkTimestampRange (Ts c) (wrap64 (Ts c + 1000))))).

(** The loop over the columns of one family. *)
Definition gcFamily (rule : GcRule) (nowMicros : Z) (fam : family)
    : family * list Mutation :=
  foldl (fun '(f, changes) col =>
    let cs := default [] (Cells f !! col) in
    let '(kept, removed) := applyGCAt cs (Some rule) nowMicros in
    match removed with
    | [] => (f, changes)
    | _ => (set_Cells f (<[col := kept]> (Cells f)),
            changes ++ (gcChange (Name f) col <$> removed))
    end) (fam, []) (ColNames fam).

Definition gcWithChanges (r : row) (rules : gmap bytes GcRule) (nowMicros : Z)
    : row * list Mutation :=
  if decide (rules = ∅) then (r, [])
  else
    let '(r', changes) :=
      foldl (fun '(r, changes) fam =>
        match rules !! Name fam with
        | None => (r, changes)
        | Some rule =>
            let '(fam', ch) := gcFamily rule nowMicros fam in
            (put_family r (Name fam) fam', changes ++ ch)
        end) (r, []) (sortedFamilies r) in
    (normalize r', changes).

Definition gc (r : row) (rules : gmap bytes GcRule) (nowMicros : Z) : row * bool :=
  let '(r', changes) := gcWithChanges r rules nowMicros in
  (r', negb (Nat.eqb (length changes) 0)).

(** ** Specification

    Whether a rule makes the [i]-th newest cell of a column eligible: a
    union when some child does, an intersection when it has children and all
    of them do. *)

Fixpoint gc_eligible (rule : GcRule) (nowMicros : Z) (i : nat) (c : cell) : bool :=
  match rule with
  | GcRule_Unset => false
  | GcRule_MaxNumVersions n => n <=? Z.of_nat i
  | GcRule_MaxAge ns => Ts c <? gcCutoff ns nowMicros
  | GcRule_Union subs => existsb (fun s => gc_eligible s nowMicros i c) subs
  | GcRule_Intersection subs =>
      match subs with
      | [] => false
      | _ => forallb (fun s => gc_eligible s nowMicros i c) subs
      end
  end.

(** The cells a rule keeps, from index [i] on. *)
Fixpoint gc_keep (rule : GcRule) (nowMicros : Z) (i : nat) (cells : list cell) : list cell :=
  match cells with
  | [] => []
  | c :: cells' =>
      let rest := gc_keep rule nowMicros (S i) cells' in
      if gc_eligible rule nowMicros i c then rest else c :: rest
  end.

(** The cells a rule removes, from index [i] on. *)
Fixpoint gc_drop (rule : GcRule) (nowMicros : Z) (i : nat) (cells : list cell) : list cell :=
  match cells with
  | [] => []
  | c :: cells' =>
      let rest := gc_drop rule nowMicros (S i) cells' in
      if gc_eligible rule nowMicros i c then c :: rest else rest
  end.

(** ** [gcDeletes] implements the specification *)

Lemma flagVersions_length n len flags : length (flagVersions n len flags) = length flags.
Proof.
  unfold flagVersions. generalize (seqZ n (Z.of_nat len - n)). intros l. revert flags.
  induction l as [|i l IH]; intros flags; cbn; [done|]. rewrite IH.
  destruct (0 <=? i); [apply length_insert|done].
Qed.

Lemma flag_loop_lookup (l : list Z) (flags : list bool) (i : nat) :
  foldl (fun flags i => if 0 <=? i then <[Z.to_nat i := true]> flags else flags) flags l !! i
  = (if decide (Z.of_nat i ∈ l) then (fun _ => true) <$> flags !! i else flags !! i).
Proof.
  revert flags. induction l as [|j l IH]; intros flags; cbn; [done|]. rewrite IH.
  assert ((if 0 <=? j then <[Z.to_nat j:=true]> flags else flags) !! i =
    if decide (Z.of_nat i = j) then (fun _ => true) <$> flags !! i else flags !! i) as ->.
  { clear IH. destruct (Z.leb_spec 0 j); case_decide; subst; try lia; auto.
    - rewrite Nat2Z.id. destruct (flags !! i) eqn:E.
      + apply list_lookup_insert_eq. by eapply lookup_lt_Some.
      + rewrite list_insert_ge by by apply lookup_ge_None. done.
    - by rewrite list_lookup_insert_ne by lia. }
  clear IH. destruct (decide (Z.of_nat i = j)) as [Hj|Hj], (decide (Z.of_nat i ∈ l)) as [Hl|Hl].
  - rewrite decide_True by by right. by rewrite <- option_fmap_compose.
  - rewrite decide_True by (rewrite Hj; left). done.
  - rewrite decide_True by by right. done.
  - rewrite decide_False; [done|]. intros [|]%elem_of_cons; done.
Qed.

Lemma flagVersions_lookup n (cells : list cell) i :
  flagVersions n (length cells) (replicate (length cells) false) !! i =
    (fun _ => n <=? Z.of_nat i) <$> cells !! i.
Proof.
  unfold flagVersions. rewrite flag_loop_lookup.
  destruct (cells !! i) as [c|] eqn:E; cbn.
  - apply lookup_lt_Some in E. rewrite lookup_replicate_2 by done. cbn.
    destruct (Z.leb_spec n (Z.of_nat i)).
    + rewrite decide_True; [done|]. apply elem_of_seqZ. lia.
    + rewrite decide_False; [done|]. rewrite elem_of_seqZ. lia.
  - apply lookup_ge_None in E.
    rewrite (proj2 (lookup_ge_None (replicate _ _) _)) by by rewrite length_replicate.
    by case_decide.
Qed.

Lemma imap_eq_lookup {A B} (f : nat -> A -> B) (l : list A) (l' : list B) :
  (forall i, l' !! i = f i <$> l !! i) -> l' = imap f l.
Proof. intros H. apply list_eq. intros i. by rewrite H, list_lookup_imap. Qed.

Lemma zip_with_imap {A} (op : bool -> bool -> bool) (f g : nat -> A -> bool) (l : list A) :
  zip_with op (imap f l) (imap g l) = imap (fun i a => op (f i a) (g i a)) l.
Proof.
  apply imap_eq_lookup. intros i. rewrite lookup_zip_with, !list_lookup_imap.
  by destruct (l !! i).
Qed.

Lemma replicate_imap {A} (b : bool) (l : list A) :
  replicate (length l) b = imap (fun _ _ => b) l.
Proof.
  apply imap_eq_lookup. intros i. destruct (l !! i) eqn:E; cbn.
  - apply lookup_replicate_2. by eapply lookup_lt_Some.
  - apply lookup_ge_None. apply lookup_ge_None in E. by rewrite length_replicate.
Qed.

Lemma foldl_zip_imap {A} (op : bool -> bool -> bool) (g : GcRule -> list bool)
    (e : GcRule -> nat -> A -> bool) (l : list A) subs v :
  Forall (fun s => g s = imap (e s) l) subs ->
  foldl (fun flags sub => zip_with op flags (g sub)) (imap v l) subs =
    imap (fun i c => foldl (fun b s => op b (e s i c)) (v i c) subs) l.
Proof.
  intros Hs. revert v. induction Hs as [|s subs Hs _ IH]; intros v; cbn; [done|].
  by rewrite Hs, zip_with_imap, IH.
Qed.

Lemma foldl_orb {A} (e : A -> bool) subs b :
  foldl (fun b s => b || e s) b subs = b || existsb e subs.
Proof.
  revert b. induction subs as [|s subs IH]; intros b; cbn; [by rewrite orb_false_r|].
  by rewrite IH, orb_assoc.
Qed.

Lemma foldl_andb {A} (e : A -> bool) subs b :
  foldl (fun b s => b && e s) b subs = b && forallb e subs.
Proof.
  revert b. induction subs as [|s subs IH]; intros b; cbn; [by rewrite andb_true_r|].
  by rewrite IH, andb_assoc.
Qed.

Lemma imap_ext_fun {A B} (f g : nat -> A -> B) (l : list A) :
  (forall i a, f i a = g i a) -> imap f l = imap g l.
Proof. intros H. apply imap_eq_lookup. intros i. rewrite list_lookup_imap.
  destruct (l !! i); cbn; [by rewrite H|done]. Qed.

Lemma gcDeletes_imap cells rule now :
  gcDeletes cells rule now = imap (gc_eligible rule now) cells.
Proof.
  induction rule as [| | |subs IH|subs IH] using GcRule_ind'; cbn [gcDeletes].
  - apply (replicate_imap false).
  - apply imap_eq_lookup. intros i. apply flagVersions_lookup.
  - apply imap_eq_lookup. intros i. apply list_lookup_fmap.
  - rewrite replicate_imap, (foldl_zip_imap _ _ _ _ _ _ IH).
    apply imap_ext_fun. intros i c. cbn [gc_eligible]. by rewrite foldl_orb.
  - destruct subs as [|s subs]; [apply (replicate_imap false)|].
    rewrite replicate_imap, (foldl_zip_imap _ _ _ _ _ _ IH).
    apply imap_ext_fun. intros i c. cbn [gc_eligible]. by rewrite foldl_andb.
Qed.

Lemma imap_shift {A B} (f : nat -> A -> B) a (l : list A) :
  imap f (a :: l) = f 0%nat a :: imap (fun i => f (S i)) l.
Proof. done. Qed.

Lemma splitFlags_imap rule now i cells :
  splitFlags (imap (fun j => gc_eligible rule now (i + j)) cells) cells =
    (gc_keep rule now i cells, gc_drop rule now i cells).
Proof.
  revert i. induction cells as [|c cells IH]; intros i; [done|].
  rewrite imap_shift. cbn [splitFlags gc_keep gc_drop].
  rewrite (imap_ext_fun _ (fun j => gc_eligible rule now (S i + j)));
    [|intros; f_equal; lia].
  rewrite IH, Nat.add_0_r. by destruct (gc_eligible rule now i c).
Qed.

Lemma gc_drop_nil rule now i cells : gc_drop rule now i cells = [] -> gc_keep rule now i cells = cells.
Proof.
  revert i. induction cells as [|c cells IH]; intros i; cbn; [done|].
  destruct (gc_eligible rule now i c); [done|]. intros. by rewrite IH.
Qed.

Lemma applyGCAt_spec cells rule now :
  applyGCAt cells (Some rule) now = (gc_keep rule now 0 cells, gc_drop rule now 0 cells).
Proof.
  unfold applyGCAt. destruct cells as [|c cells]; [done|].
  rewrite gcDeletes_imap, (splitFlags_imap rule now 0).
  destruct (gc_drop rule now 0 (c :: cells)) eqn:E; [|done].
  by rewrite (gc_drop_nil _ _ _ _ E).
Qed.

(** ** What collection does to a column *)

(** An older position in the column never makes a cell less eligible. *)
Lemma gc_eligible_mono rule now i j c :
  (j <= i)%nat -> gc_eligible rule now j c = true -> gc_eligible rule now i c = true.
Proof.
  intros Hij. induction rule as [| | |subs IH|subs IH] using GcRule_ind';
    cbn [gc_eligible]; try done.
  - lia.
  - rewrite !existsb_exists. intros (s & Hs & E). exists s. split; [done|].
    rewrite List.Forall_forall in IH. by apply IH.
  - destruct subs as [|s0 subs]; [done|]. rewrite !forallb_forall.
    intros E s Hs. rewrite List.Forall_forall in IH. by apply IH, E.
Qed.

Lemma gc_keep_drop_perm rule now i cells :
  gc_keep rule now i cells ++ gc_drop rule now i cells ≡ₚ cells.
Proof.
  revert i. induction cells as [|c cells IH]; intros i; cbn; [done|].
  destruct (gc_eligible rule now i c); [|by cbn; rewrite IH].
  by rewrite <- Permutation_middle, IH.
Qed.

Lemma gc_keep_sublist rule now i cells : gc_keep rule now i cells `sublist_of` cells.
Proof.
  revert i. induction cells as [|c cells IH]; intros i; cbn; [constructor|].
  destruct (gc_eligible rule now i c); [by apply sublist_cons|by apply sublist_skip].
Qed.

Lemma gc_keep_desc_lt rule now i cells : desc_lt cells -> desc_lt (gc_keep rule now i cells).
Proof. apply StronglySorted_sublist, gc_keep_sublist. Qed.

Lemma gc_keep_desc_le rule now i cells : desc_le cells -> desc_le (gc_keep rule now i cells).
Proof. apply StronglySorted_sublist, gc_keep_sublist. Qed.

Lemma gc_keep_again rule now i j cells :
  (j <= i)%nat -> gc_keep rule now j (gc_keep rule now i cells) = gc_keep rule now i cells.
Proof.
  revert i j. induction cells as [|c cells IH]; intros i j Hij; cbn; [done|].
  destruct (gc_eligible rule now i c) eqn:E; [apply IH; lia|]. cbn.
  destruct (gc_eligible rule now j c) eqn:E'.
  - rewrite (gc_eligible_mono _ _ _ _ _ Hij E') in E. done.
  - f_equal. apply IH. lia.
Qed.

(** ** What collection does to a row *)

(** The cells collection leaves in a column of family [fam]. *)
Definition gc_col (rules : gmap bytes GcRule) (now : Z) (fam : bytes) (cs : list cell)
    : list cell :=
  match rules !! fam with Some rule => gc_keep rule now 0 cs | None => cs end.

(** The changes collection reports for a row. *)
Definition gc_changes (rules : gmap bytes GcRule) (now : Z) (r : row) : list Mutation :=
  sortedFamilies r ≫= fun fam =>
    match rules !! Name fam with
    | None => []
    | Some rule => ColNames fam ≫= fun col =>
        gcChange (Name fam) col <$> gc_drop rule now 0 (default [] (Cells fam !! col))
    end.

Definition gcFamily_step rule now : family * list Mutation -> bytes -> family * list Mutation :=
  fun '(f, changes) col =>
    let cs := default [] (Cells f !! col) in
    let '(kept, removed) := applyGCAt cs (Some rule) now in
    match removed with
    | [] => (f, changes)
    | _ => (set_Cells f (<[col := kept]> (Cells f)),
            changes ++ (gcChange (Name f) col <$> removed))
    end.

Lemma gcFamily_step_spec rule now f ch col :
  let '(f', ch') := gcFamily_step rule now (f, ch) col in
  Name f' = Name f /\ Order f' = Order f /\ ColNames f' = ColNames f /\
  ch' = ch ++ (gcChange (Name f) col <$> gc_drop rule now 0 (default [] (Cells f !! col))) /\
  forall c, Cells f' !! c =
    if decide (c = col) then gc_keep rule now 0 <$> Cells f !! c else Cells f !! c.
Proof.
  unfold gcFamily_step. rewrite applyGCAt_spec.
  destruct (gc_drop rule now 0 (default [] (Cells f !! col))) as [|d ds] eqn:E.
  - split_and!; auto; [by rewrite app_nil_r|]. intros c. case_decide; [|done]. subst c.
    destruct (Cells f !! col) as [cs|]; [|done]. cbn in *. by rewrite gc_drop_nil.
  - split_and!; auto. intros c. cbn. rewrite lookup_insert.
    destruct (Cells f !! col) as [cs|] eqn:Ec; [|done]. cbn.
    destruct (decide (col = c)) as [->|]; [by rewrite decide_True, Ec|].
    by rewrite decide_False.
Qed.

Lemma gcFamily_loop_spec rule now cols f ch :
  NoDup cols ->
  let '(f', ch') := foldl (gcFamily_step rule now) (f, ch) cols in
  Name f' = Name f /\ Order f' = Order f /\ ColNames f' = ColNames f /\
  ch' = ch ++ (cols ≫= fun col =>
          gcChange (Name f) col <$> gc_drop rule now 0 (default [] (Cells f !! col))) /\
  forall c, Cells f' !! c =
    if decide (c ∈ cols) then gc_keep rule now 0 <$> Cells f !! c else Cells f !! c.
Proof.
  revert f ch. induction cols as [|col cols IH]; intros f ch Hnd.
  { cbn. split_and!; auto. by rewrite app_nil_r. }
  apply NoDup_cons in Hnd as [Hni Hnd]. cbn [foldl].
  pose proof (gcFamily_step_spec rule now f ch col) as Hs.
  destruct (gcFamily_step rule now (f, ch) col) as [f1 ch1].
  destruct Hs as (Hn & Ho & Hc & -> & Hcells). specialize (IH f1 (ch ++ (gcChange (Name f) col <$>
    gc_drop rule now 0 (default [] (Cells f !! col)))) Hnd).
  destruct (foldl _ _ cols) as [f' ch']. destruct IH as (Hn' & Ho' & Hc' & -> & Hcells').
  split_and!; [congruence..| |].
  - rewrite bind_cons, app_assoc, Hn. f_equal. apply Forall_bind_ext, list.Forall_forall.
    intros c Hc0. rewrite Hcells, decide_False; [done|]. by intros ->.
  - intros c. rewrite Hcells', Hcells. destruct (decide (c = col)) as [->|Hne].
    + rewrite (decide_False (P := col ∈ cols)) by done.
      by rewrite (decide_True (P := col ∈ col :: cols)) by left.
    + destruct (decide (c ∈ cols)).
      * by rewrite decide_True by by right.
      * rewrite decide_False; [done|]. by intros [|]%elem_of_cons.
Qed.

Definition gc_family_of (rules : gmap bytes GcRule) (now : Z) (f : family) : family :=
  match rules !! Name f with None => f | Some rule => (gcFamily rule now f).1 end.

Definition gc_row_step (rules : gmap bytes GcRule) (now : Z)
    : row * list Mutation -> family -> row * list Mutation :=
  fun '(r, changes) fam =>
    match rules !! Name fam with
    | None => (r, changes)
    | Some rule =>
        let '(fam', ch) := gcFamily rule now fam in
        (put_family r (Name fam) fam', changes ++ ch)
    end.

Lemma gcFamily_spec rule now f :
  cols_ok f ->
  Name (gcFamily rule now f).1 = Name f /\ Order (gcFamily rule now f).1 = Order f /\
  (gcFamily rule now f).2 = (ColNames f ≫= fun col =>
     gcChange (Name f) col <$> gc_drop rule now 0 (default [] (Cells f !! col))) /\
  forall c, Cells (gcFamily rule now f).1 !! c = gc_keep rule now 0 <$> Cells f !! c.
Proof.
  intros Hc. pose proof (gcFamily_loop_spec rule now (ColNames f) f []) as H.
  change (foldl (gcFamily_step rule now) (f, []) (ColNames f)) with (gcFamily rule now f) in H.
  destruct (gcFamily rule now f) as [f' ch'].
  destruct H as (Hn & Ho & _ & -> & Hcells).
  { rewrite Hc. apply sort_strings_NoDup, NoDup_map_keys. }
  split_and!; auto. intros c. cbn. rewrite Hcells. case_decide as Hd; [done|].
  rewrite Hc, elem_of_sort_strings, elem_of_map_keys in Hd.
  destruct (Cells f !! c); [|done]. destruct Hd. eauto.
Qed.

Lemma gc_loop_spec rules now l r ch :
  NoDup (Name <$> l) -> Forall (fun f => families r !! Name f = Some f /\ cols_ok f) l ->
  let '(r', ch') := foldl (gc_row_step rules now) (r, ch) l in
  key r' = key r /\
  ch' = ch ++ (l ≫= fun fam =>
    match rules !! Name fam with
    | None => []
    | Some rule => ColNames fam ≫= fun col =>
        gcChange (Name fam) col <$> gc_drop rule now 0 (default [] (Cells fam !! col))
    end) /\
  forall n, families r' !! n =
    if decide (n ∈ Name <$> l) then gc_family_of rules now <$> families r !! n
    else families r !! n.
Proof.
  revert r ch. induction l as [|f l IH]; intros r ch Hnd Hf.
  { cbn. split_and!; auto. by rewrite app_nil_r. }
  rewrite fmap_cons in Hnd. apply NoDup_cons in Hnd as [Hni Hnd].
  apply Forall_cons in Hf as [[Hlk Hc] Hf]. cbn [foldl].
  assert (exists r1, gc_row_step rules now (r, ch) f = (r1, ch ++
     match rules !! Name f with
     | None => []
     | Some rule => ColNames f ≫= fun col =>
        gcChange (Name f) col <$> gc_drop rule now 0 (default [] (Cells f !! col))
     end) /\ key r1 = key r /\ forall n, families r1 !! n =
        if decide (n = Name f) then Some (gc_family_of rules now f) else families r !! n)
    as (r1 & -> & Hk1 & Hr1).
  { unfold gc_row_step, gc_family_of. destruct (rules !! Name f) as [rule|].
    - destruct (gcFamily_spec rule now f Hc) as (_ & _ & Hch & _).
      destruct (gcFamily rule now f) as [f' ch1]. cbn in Hch. subst ch1.
      eexists. split; [done|]. split; [done|]. intros n. cbn. rewrite lookup_insert.
      destruct (decide (Name f = n)); case_decide; congruence.
    - exists r. rewrite app_nil_r. split_and!; auto. intros n. case_decide; congruence. }
  set (ch1 := ch ++ _). specialize (IH r1 ch1 Hnd).
  destruct (foldl _ _ l) as [r' ch']. destruct IH as (Hk' & -> & Hr').
  { rewrite list.Forall_forall in *. intros g Hg. destruct (Hf g Hg) as [Hg1 Hg2].
    split; [|done]. rewrite Hr1, decide_False; [done|]. intros E. apply Hni.
    rewrite <- E. by apply list_elem_of_fmap_2. }
  split_and!; [congruence| |].
  - subst ch1. by rewrite bind_cons, app_assoc.
  - intros n. rewrite Hr', Hr1, fmap_cons.
    destruct (decide (n = Name f)) as [->|Hn].
    + rewrite (decide_False (P := _ ∈ Name <$> l)) by done.
      rewrite decide_True by left. by rewrite Hlk.
    + destruct (decide (n ∈ Name <$> l)).
      * by rewrite decide_True by by right.
      * rewrite decide_False; [done|]. by intros [|]%elem_of_cons.
Qed.

Lemma gcWithChanges_unfold r rules now :
  rules <> ∅ ->
  gcWithChanges r rules now =
    (normalize (foldl (gc_row_step rules now) (r, []) (sortedFamilies r)).1,
     (foldl (gc_row_step rules now) (r, []) (sortedFamilies r)).2).
Proof.
  intros H. unfold gcWithChanges. rewrite decide_False by done.
  change (fun '(r0, changes) fam => _) with (gc_row_step rules now).
  by destruct (foldl _ _ _).
Qed.

Lemma row_ok_families P r :
  row_ok P r ->
  NoDup (Name <$> sortedFamilies r) /\ Forall (fun f => families r !! Name f = Some f /\ cols_ok f) (sortedFamilies r).
Proof.
  intros H. split; [apply sortedFamilies_NoDup; eauto with lbt|].
  apply list.Forall_forall. intros f Hf%elem_of_sortedFamilies; [|eauto with lbt].
  split; [done|]. by apply H in Hf as (_ & ? & _).
Qed.

(** The row before the final [normalize]. *)
Lemma gc_loop_row P r rules now :
  row_ok P r ->
  let '(r', ch) := foldl (gc_row_step rules now) (r, []) (sortedFamilies r) in
  key r' = key r /\ ch = gc_changes rules now r /\ forall n, families r' !! n = gc_family_of rules now <$> families r !! n.
Proof.
  intros H. destruct (row_ok_families P r H) as [Hnd Hf].
  pose proof (gc_loop_spec rules now (sortedFamilies r) r [] Hnd Hf) as Hs.
  destruct (foldl _ _ _) as [r' ch]. destruct Hs as (Hk & -> & Hr).
  split_and!; auto. intros n. rewrite Hr. case_decide as Hd; [done|].
  destruct (families r !! n) as [f|] eqn:E; [|done]. destruct Hd.
  apply H in E as E'. destruct E' as [<- _]. apply list_elem_of_fmap_2.
  apply elem_of_sortedFamilies; eauto with lbt.
Qed.

Lemma gc_family_of_cells rules now f col :
  cols_ok f ->
  Name (gc_family_of rules now f) = Name f /\ Order (gc_family_of rules now f) = Order f /\ default [] (Cells (gc_family_of rules now f) !! col) =
    gc_col rules now (Name f) (default [] (Cells f !! col)).
Proof.
  intros Hc. unfold gc_family_of, gc_col. destruct (rules !! Name f) as [rule|]; [|done].
  destruct (gcFamily_spec rule now f Hc) as (Hn & Ho & _ & Hcells).
  split_and!; auto. rewrite Hcells. by destruct (Cells f !! col).
Qed.

Lemma gc_col_empty now fam cs : gc_col ∅ now fam cs = cs.
Proof. unfold gc_col. by rewrite lookup_empty. Qed.

Lemma gc_col_desc_le rules now fam cs : desc_le cs -> desc_le (gc_col rules now fam cs).
Proof. unfold gc_col. destruct (rules !! fam); [apply gc_keep_desc_le|done]. Qed.

Lemma gc_col_desc_lt rules now fam cs : desc_lt cs -> desc_lt (gc_col rules now fam cs).
Proof. unfold gc_col. destruct (rules !! fam); [apply gc_keep_desc_lt|done]. Qed.

Lemma gc_changes_empty now r : gc_changes ∅ now r = [].
Proof.
  unfold gc_changes. induction (sortedFamilies r) as [|f l IH]; [done|].
  rewrite bind_cons, IH, lookup_empty. done.
Qed.

(** The row's cells before the final [normalize]. *)
Lemma gc_loop_cells r rules now fam col :
  normal_row r ->
  let r' := (foldl (gc_row_step rules now) (r, []) (sortedFamilies r)).1 in
  names_ok r' /\ cells_at r' fam col = gc_col rules now fam (cells_at r fam col).
Proof.
  intros H. cbn zeta. pose proof (gc_loop_row _ r rules now H) as Hs.
  destruct (foldl _ _ _) as [r' ch]. destruct Hs as (_ & _ & Hr). cbn. split.
  - intros n f. rewrite Hr. intros (f0 & Hf0 & ->)%fmap_Some.
    apply H in Hf0 as (Hn & Hc & _). by destruct (gc_family_of_cells rules now f0 [] Hc) as (-> & _).
  - unfold cells_at. rewrite Hr. destruct (families r !! fam) as [f|] eqn:E; cbn.
    + apply H in E as (Hn & Hc & _). rewrite <- Hn. by apply gc_family_of_cells.
    + unfold gc_col. by destruct (rules !! fam).
Qed.

(** Collection acts on each column by its family's rule. *)
Lemma cells_at_gcWithChanges r rules now fam col :
  normal_row r ->
  cells_at (gcWithChanges r rules now).1 fam col = gc_col rules now fam (cells_at r fam col).
Proof.
  intros H. destruct (decide (rules = ∅)) as [->|Hne].
  { unfold gcWithChanges. by rewrite decide_True, gc_col_empty. }
  rewrite gcWithChanges_unfold by done. cbn [fst].
  destruct (gc_loop_cells r rules now fam col H) as [_ Hcells].
  rewrite cells_at_normalize, Hcells. apply sort_cells_id, gc_col_desc_le.
  by apply normal_cells.
Qed.

Lemma gcWithChanges_changes r rules now :
  normal_row r -> (gcWithChanges r rules now).2 = gc_changes rules now r.
Proof.
  intros H. destruct (decide (rules = ∅)) as [->|Hne].
  { unfold gcWithChanges. rewrite decide_True by done. by rewrite gc_changes_empty. }
  rewrite gcWithChanges_unfold by done. cbn [snd].
  pose proof (gc_loop_row _ r rules now H) as Hs.
  destruct (foldl _ _ _) as [r' ch]. by destruct Hs as (_ & -> & _).
Qed.

Lemma key_gcWithChanges r rules now : normal_row r -> key (gcWithChanges r rules now).1 = key r.
Proof.
  intros H. destruct (decide (rules = ∅)) as [->|Hne].
  { unfold gcWithChanges. by rewrite decide_True. }
  rewrite gcWithChanges_unfold by done. cbn. pose proof (gc_loop_row _ r rules now H) as Hs.
  destruct (foldl _ _ _) as [r' ch]. by destruct Hs as (Hk & _).
Qed.

Lemma gcWithChanges_normal r rules now :
  normal_row r -> normal_row (gcWithChanges r rules now).1.
Proof.
  intros H. destruct (decide (rules = ∅)) as [->|Hne].
  { unfold gcWithChanges. by rewrite decide_True. }
  rewrite gcWithChanges_unfold by done. apply normalize_normal.
  by apply (gc_loop_cells r rules now [] []).
Qed.

Lemma gcWithChanges_stored r rules now :
  stored_row r -> stored_row (gcWithChanges r rules now).1.
Proof.
  intros H. pose proof (stored_normal _ H) as Hn.
  destruct (decide (rules = ∅)) as [->|Hne].
  { unfold gcWithChanges. by rewrite decide_True. }
  rewrite gcWithChanges_unfold by done. apply normalize_stored.
  - by apply (gc_loop_cells r rules now [] []).
  - intros fam col. destruct (gc_loop_cells r rules now fam col Hn) as [_ ->].
    apply desc_lt_NoDup, gc_col_desc_lt. by apply stored_cells.
Qed.

(** ** Properties *)

(** Collection of a column by a rule tree keeps exactly the cells the rule
    does not make eligible (MaxNumVersions by position newest first, MaxAge by
    the cutoff, unions by some child, intersections by all of a non-empty list
    of children), returns the others as removed, loses none, and collecting
    the result again removes nothing. *)
Theorem applyGCAt_partition cells rule now :
  let '(kept, removed) := applyGCAt cells (Some rule) now in
  kept = gc_keep rule now 0 cells /\ removed = gc_drop rule now 0 cells /\
  kept ++ removed ≡ₚ cells /\ kept `sublist_of` cells /\
  applyGCAt kept (Some rule) now = (kept, []).
Proof.
  rewrite applyGCAt_spec. split; [done|]. split; [done|].
  split; [apply gc_keep_drop_perm|]. split; [apply gc_keep_sublist|].
  rewrite applyGCAt_spec, gc_keep_again by lia. f_equal.
  pose proof (gc_keep_drop_perm rule now 0 (gc_keep rule now 0 cells)) as HP.
  rewrite gc_keep_again in HP by lia. apply Permutation_length in HP.
  rewrite length_app in HP. destruct (gc_drop _ _ _ _); [done|cbn in HP; lia].
Qed.

(** C12: Garbage collection of a stored row leaves a stored row with the same
    key, keeps in each column what its family's rule keeps and the whole
    column when the family has no rule, and reports a deletion for every
    removed cell, in the order families and columns are visited. *)
Theorem gcWithChanges_spec r rules now :
  stored_row r ->
  let '(r', changes) := gcWithChanges r rules now in
  stored_row r' /\ key r' = key r /\ changes = gc_changes rules now r /\
  forall fam col, cells_at r' fam col =
    match rules !! fam with
    | Some rule => gc_keep rule now 0 (cells_at r fam col)
    | None => cells_at r fam col
    end.
Proof.
  intros Hr. pose proof (stored_normal _ Hr) as Hn. rewrite (surjective_pairing (gcWithChanges r rules now)).
  split; [by apply gcWithChanges_stored|]. split; [by apply key_gcWithChanges|].
  split; [by apply gcWithChanges_changes|]. intros fam col. by apply cells_at_gcWithChanges.
Qed.

Lemma gcWithChanges_spec_witness :
  let rules := {[ [97] := GcRule_MaxNumVersions 1 ]} in
  let '(r', changes) := gcWithChanges Sample.row1 rules 5000 in
  stored_row r' /\ key r' = key Sample.row1 /\ changes = gc_changes rules 5000 Sample.row1 /\
  forall fam col, cells_at r' fam col =
    match rules !! fam with
    | Some rule => gc_keep rule 5000 0 (cells_at Sample.row1 fam col)
    | None => cells_at Sample.row1 fam col
    end.
Proof. apply gcWithChanges_spec. apply Sample.row1_stored. Defined.
