(* ===== verification/Hll.v ===== *)
(** * HyperLogLog++ sketches

    [internal/gsql/hll.go] without the floating-point [Estimate], and the
    [hllSketch] wrapper of [query_service.go].  A sketch is sparse (the set of
    distinct hashes) or dense (2^p registers). *)

From S2P Require Import Prelude Proto.
From stdpp Require Import base list gmap sorting.
From Stdlib Require Import ZArith Lia.

#[local] Open Scope Z_scope.

(** ** Data *)

(** [hll_sparse] is [None] once the sketch is dense. *)
Record HLL : Type := mkHLL {
  hll_p : Z;
  hll_sparse : option (gset Z);
  hll_regs : list Z }.

Definition hllVersion : Z := 1.
Definition hllDefaultPrecision : Z := 14.
Definition hllMaxPrecision : Z := 24.

Definition newHLLPrecision (p : Z) : HLL := mkHLL p (Some ∅) [].
Definition NewHLL : HLL := newHLLPrecision hllDefaultPrecision.

Definition sparseLimit (h : HLL) : Z := (2 ^ hll_p h) / 8.

(** ** Hashing: 64-bit FNV-1a and the fmix64 finalizer *)

Definition mul64 (a b : Z) : Z := to_u64 (a * b).

Definition hllHash (b : bytes) : Z :=
  let x := foldl (fun x c => mul64 (Z.lxor x c) 1099511628211) 14695981039346656037 b in
  let x := Z.lxor x (Z.shiftr x 33) in
  let x := mul64 x 18397679294719823053 in
  let x := Z.lxor x (Z.shiftr x 33) in
  let x := mul64 x 14181476777654086739 in
  Z.lxor x (Z.shiftr x 33).

(** [bits.Len64] and [bits.LeadingZeros64]. *)
Definition Len64 (x : Z) : Z := if x <=? 0 then 0 else Z.log2 x + 1.
Definition LeadingZeros64 (x : Z) : Z := 64 - Len64 x.

(** ** Registers *)

Definition regIndex (p x : Z) : Z := Z.shiftr x (64 - p).
Definition regRho (p x : Z) : Z :=
  LeadingZeros64 (Z.lor (to_u64 (Z.shiftl x p)) (Z.shiftl 1 (p - 1))) + 1.

(** [if v > regs[i] { regs[i] = v }]. *)
Definition raiseReg (regs : list Z) (i : nat) (v : Z) : list Z :=
  if default 0 (regs !! i) <? v then <[i := v]> regs else regs.

Definition setRegister (h : HLL) (x : Z) : HLL :=
  mkHLL (hll_p h) (hll_sparse h)
    (raiseReg (hll_regs h) (Z.to_nat (regIndex (hll_p h) x)) (regRho (hll_p h) x)).

Definition densify (h : HLL) : HLL :=
  let zero := replicate (Z.to_nat (2 ^ hll_p h)) 0 in
  let xs := match hll_sparse h with Some s => elements s | None => [] end in
  let h' := foldl setRegister (mkHLL (hll_p h) (hll_sparse h) zero) xs in
  mkHLL (hll_p h') None (hll_regs h').

(** [if len(h.sparse) > h.sparseLimit() { h.densify() }]. *)
Definition densifyOverLimit (h : HLL) : HLL :=
  match hll_sparse h with
  | Some s => if sparseLimit h <? Z.of_nat (size s) then densify h else h
  | None => h
  end.

Definition addHash (h : HLL) (x : Z) : HLL :=
  match hll_sparse h with
  | Some s => densifyOverLimit (mkHLL (hll_p h) (Some ({[ x ]} ∪ s)) (hll_regs h))
  | None => setRegister h x
  end.

Definition HLL_Add (h : HLL) (item : bytes) : HLL := addHash h (hllHash item).

(** The register loop of [downgrade] from precision [p0] to [p]. *)
Definition downgradeReg (d : Z) (j : Z) (r : Z) : Z :=
  let dropped := Z.land j (2 ^ d - 1) in
  if negb (dropped =? 0) then d - Len64 dropped + 1 else d + r.

Definition downgradeRegs (d p : Z) (regs : list Z) : list Z :=
  foldl (fun out '(j, r) =>
    if r =? 0 then out
    else raiseReg out (Z.to_nat (Z.shiftr j d)) (downgradeReg d j r))
  (replicate (Z.to_nat (2 ^ p)) 0)
  (imap (fun j r => (Z.of_nat j, r)) regs).

Definition downgrade (h : HLL) (p : Z) : HLL :=
  if hll_p h <=? p then h
  else match hll_sparse h with
       | Some s => densifyOverLimit (mkHLL p (Some s) (hll_regs h))
       | None => mkHLL p None (downgradeRegs (hll_p h - p) p (hll_regs h))
       end.

(** [h.Merge(o)]; [o] is cloned before it is downgraded. *)
Definition HLL_Merge (h o : HLL) : HLL :=
  let '(h, o) :=
    if hll_p h <? hll_p o then (h, downgrade o (hll_p h))
    else if hll_p o <? hll_p h then (downgrade h (hll_p o), o)
    else (h, o) in
  match hll_sparse o with
  | Some s => foldl addHash h (elements s)
  | None =>
      let h := match hll_sparse h with Some _ => densify h | None => h end in
      mkHLL (hll_p h) (hll_sparse h)
        (foldl (fun regs '(i, r) => raiseReg regs i r) (hll_regs h)
           (imap (fun i r => (i, r)) (hll_regs o)))
  end.

(** ** Encoding *)

(** [binary.AppendUvarint]; ten bytes hold any [uint64]. *)
Fixpoint uvarint_bytes (fuel : nat) (x : Z) : bytes :=
  match fuel with
  | O => []
  | S fuel' => if x <? 128 then [x] else Z.lor (x mod 128) 128 :: uvarint_bytes fuel' (x / 128)
  end.
Definition AppendUvarint (out : bytes) (x : Z) : bytes := out ++ uvarint_bytes 10 x.

(** [binary.Uvarint]: the value and the remaining bytes, [None] when the Go
    function reports a byte count <= 0 (truncated or overflowing input). *)
Fixpoint uvarint_loop (i : nat) (acc : Z) (b : bytes) : option (Z * bytes) :=
  match b with
  | [] => None
  | c :: b' =>
      if Nat.leb 10 i then None
      else if c <? 128 then
        if Nat.eqb i 9 && (1 <? c) then None
        else Some (to_u64 (acc + c * 128 ^ Z.of_nat i), b')
      else uvarint_loop (S i) (to_u64 (acc + (c - 128) * 128 ^ Z.of_nat i)) b'
  end.
Definition Uvarint (b : bytes) : option (Z * bytes) := uvarint_loop 0 0 b.

(** [hs] sorted ascending, written as deltas from the previous hash. *)
Fixpoint encodeDeltas (prev : Z) (hs : list Z) : bytes :=
  match hs with
  | [] => []
  | x :: hs' => uvarint_bytes 10 (to_u64 (x - prev)) ++ encodeDeltas x hs'
  end.

Definition sortedHashes (s : gset Z) : list Z := isort Z.leb (elements s).

Definition Encode (h : HLL) : bytes :=
  match hll_sparse h with
  | Some s =>
      AppendUvarint [hllVersion; hll_p h; 0] (Z.of_nat (length (sortedHashes s)))
        ++ encodeDeltas 0 (sortedHashes s)
  | None => [hllVersion; hll_p h; 1] ++ hll_regs h
  end.

(** The loop of the sparse case of [DecodeHLL]. *)
Fixpoint decodeDeltas (n : nat) (prev : Z) (s : gset Z) (b : bytes) : option (gset Z * bytes) :=
  match n with
  | O => Some (s, b)
  | S n' =>
      match Uvarint b with
      | None => None
      | Some (d, rest) =>
          let prev := to_u64 (prev + d) in
          decodeDeltas n' prev ({[ prev ]} ∪ s) rest
      end
  end.

Definition DecodeHLL (b : bytes) : option HLL :=
  match b with
  | v :: p :: repr :: rest =>
      if negb (v =? hllVersion) then None
      else if (p <? 4) || (hllMaxPrecision <? p) then None
      else if repr =? 0 then
        match Uvarint rest with
        | None => None
        | Some (n, rest) =>
            if 2 ^ p <? n then None
            else match decodeDeltas (Z.to_nat n) 0 ∅ rest with
                 | Some (s, []) => Some (densifyOverLimit (mkHLL p (Some s) []))
                 | _ => None
                 end
        end
      else if repr =? 1 then
        if negb (Z.of_nat (length rest) =? 2 ^ p) then None
        else if existsb (fun r => 64 - p + 1 <? r) rest then None
        else Some (mkHLL p None rest)
      else None
  | _ => None
  end.

Definition HLLInputBytes (v : Value_) : option bytes :=
  match v with
  | Value_IntValue n => Some (be64 n)
  | Value_StringValue s => Some s
  | Value_BytesValue b => Some b
  | Value_RawValue b => Some b
  | _ => None
  end.

(** ** Invariant *)

(** A sketch is sparse within the limit, or dense with one register per
    index, each within the largest rank the precision allows. *)
Definition hll_ok (h : HLL) : Prop :=
  4 <= hll_p h <= hllMaxPrecision /\
  match hll_sparse h with
  | Some s => hll_regs h = [] /\ set_Forall is_uint64 s /\ Z.of_nat (size s) <= sparseLimit h
  | None => Z.of_nat (length (hll_regs h)) = 2 ^ hll_p h /\
            Forall (fun r => 0 <= r <= 65 - hll_p h) (hll_regs h)
  end.

(** The rank register [i] of the sketch, whatever its representation. *)
Definition hashes_reg (p : Z) (xs : list Z) (i : nat) : Z :=
  foldr (fun x m => if decide (Z.to_nat (regIndex p x) = i) then Z.max (regRho p x) m else m) 0 xs.

Definition hll_reg (h : HLL) (i : nat) : Z :=
  match hll_sparse h with
  | Some s => hashes_reg (hll_p h) (elements s) i
  | None => default 0 (hll_regs h !! i)
  end.

Lemma regIndex_bound p x : 0 <= p <= 64 -> is_uint64 x -> 0 <= regIndex p x < 2 ^ p.
Proof.
  intros Hp Hx. unfold regIndex. rewrite Z.shiftr_div_pow2 by lia.
  assert (2 ^ 64 = 2 ^ (64 - p) * 2 ^ p) as E by (rewrite <- Z.pow_add_r by lia; f_equal; lia).
  unfold_words. assert (0 < 2 ^ (64 - p)) by (apply Z.pow_pos_nonneg; lia).
  split; [apply Z.div_pos; lia|]. apply Z.div_lt_upper_bound; [done|].
  rewrite <- E. cbn. lia.
Qed.

Lemma Len64_pos x : 0 < x -> Len64 x = Z.log2 x + 1.
Proof. unfold Len64. intros. destruct (Z.leb_spec x 0); lia. Qed.

Lemma regRho_bound p x : 1 <= p <= 64 -> 1 <= regRho p x <= 65 - p.
Proof.
  intros Hp. unfold regRho, LeadingZeros64. rewrite (Z.shiftl_1_l (p - 1)).
  pose proof (to_u64_range (Z.shiftl x p)) as Hx. set (a := to_u64 (Z.shiftl x p)) in *.
  assert (0 < 2 ^ (p - 1)) as Hp1 by (apply Z.pow_pos_nonneg; lia).
  assert (0 <= a) as Ha by (unfold_words; lia).
  assert (Z.log2 (Z.lor a (2 ^ (p - 1))) = Z.max (Z.log2 a) (p - 1)) as Hlog.
  { rewrite Z.log2_lor by lia. by rewrite Z.log2_pow2 by lia. }
  assert (Z.log2 a <= 63) as Hla.
  { destruct (decide (a = 0)) as [->|]; [cbn; lia|].
    assert (Z.log2 a < 64); [|lia]. apply Z.log2_lt_pow2; [lia|]. unfold_words. cbn. lia. }
  rewrite Len64_pos, Hlog; [lia|].
  assert (0 <= Z.lor a (2 ^ (p - 1))) by (apply Z.lor_nonneg; lia).
  assert (Z.lor a (2 ^ (p - 1)) <> 0); [|lia]. intros [_ E]%Z.lor_eq_0_iff. lia.
Qed.

Lemma length_raiseReg regs i v : length (raiseReg regs i v) = length regs.
Proof. unfold raiseReg. destruct (_ <? _); [apply length_insert|done]. Qed.

Lemma raiseReg_Forall (P : Z -> Prop) regs i v : P v -> Forall P regs -> Forall P (raiseReg regs i v).
Proof. intros. unfold raiseReg. destruct (_ <? _); [by apply Forall_insert|done]. Qed.

Lemma raiseReg_lookup regs i v j :
  (i < length regs)%nat ->
  default 0 (raiseReg regs i v !! j) =
    if decide (i = j) then Z.max (default 0 (regs !! j)) v else default 0 (regs !! j).
Proof.
  intros Hi. unfold raiseReg. destruct (Z.ltb_spec (default 0 (regs !! i)) v) as [Hlt|Hge].
  - case_decide; subst.
    + rewrite list_lookup_insert_eq by done. cbn. lia.
    + by rewrite list_lookup_insert_ne by done.
  - case_decide; subst; lia.
Qed.

(** Dense sketches of a given precision, as the register loops see them. *)
Definition dense_regs (p : Z) (regs : list Z) : Prop :=
  Z.of_nat (length regs) = 2 ^ p /\ Forall (fun r => 0 <= r <= 65 - p) regs.

Lemma setRegister_dense h x :
  4 <= hll_p h <= hllMaxPrecision -> is_uint64 x -> dense_regs (hll_p h) (hll_regs h) ->
  dense_regs (hll_p h) (hll_regs (setRegister h x)) /\
  forall i, default 0 (hll_regs (setRegister h x) !! i) =
    if decide (Z.to_nat (regIndex (hll_p h) x) = i)
    then Z.max (default 0 (hll_regs h !! i)) (regRho (hll_p h) x)
    else default 0 (hll_regs h !! i).
Proof.
  intros Hp Hx [Hl Hf]. unfold hllMaxPrecision in *. cbn.
  pose proof (regIndex_bound (hll_p h) x ltac:(lia) Hx).
  pose proof (regRho_bound (hll_p h) x ltac:(lia)). split.
  - split; [by rewrite length_raiseReg|]. apply raiseReg_Forall; [lia|done].
  - intros i. apply raiseReg_lookup. lia.
Qed.

Lemma setRegisters_dense xs h :
  4 <= hll_p h <= hllMaxPrecision -> Forall is_uint64 xs -> dense_regs (hll_p h) (hll_regs h) ->
  let h' := foldl setRegister h xs in
  hll_p h' = hll_p h /\ hll_sparse h' = hll_sparse h /\ dense_regs (hll_p h) (hll_regs h') /\
  forall i, default 0 (hll_regs h' !! i) =
    Z.max (default 0 (hll_regs h !! i)) (hashes_reg (hll_p h) xs i).
Proof.
  intros Hp Hxs. revert h Hp. induction Hxs as [|x xs Hx _ IH]; intros h Hp Hd; cbn zeta.
  { cbn. split_and!; auto. intros i. destruct Hd as [_ Hf].
    assert (0 <= default 0 (hll_regs h !! i)); [|lia].
    destruct (hll_regs h !! i) eqn:E; cbn; [|lia].
    rewrite list.Forall_forall in Hf. apply list_elem_of_lookup_2 in E. by apply Hf in E as [? _]. }
  destruct (setRegister_dense h x Hp Hx Hd) as [Hd' Hl'].
  cbn [foldl]. destruct (IH (setRegister h x) Hp Hd') as (-> & -> & Hd'' & Hl'').
  split_and!; auto. intros i. rewrite Hl'', Hl'. cbn [hashes_reg foldr].
  fold (hashes_reg (hll_p h) xs i). change (hll_p (setRegister h x)) with (hll_p h).
  case_decide; lia.
Qed.

Lemma hashes_reg_nonneg p xs i : 1 <= p <= 64 -> 0 <= hashes_reg p xs i.
Proof.
  intros Hp. induction xs as [|x xs IH]; cbn; [lia|].
  pose proof (regRho_bound p x Hp). case_decide; unfold hashes_reg in IH; lia.
Qed.

Lemma hashes_reg_perm p xs ys i : xs ≡ₚ ys -> hashes_reg p xs i = hashes_reg p ys i.
Proof. induction 1; cbn; repeat case_decide; unfold hashes_reg in *; lia. Qed.

Lemma replicate_dense p : 4 <= p <= hllMaxPrecision -> dense_regs p (replicate (Z.to_nat (2 ^ p)) 0).
Proof.
  unfold hllMaxPrecision. intros Hp. split.
  - rewrite length_replicate, Z2Nat.id; [done|]. apply Z.pow_nonneg. lia.
  - apply Forall_replicate. lia.
Qed.

Lemma elements_uint64 (s : gset Z) : set_Forall is_uint64 s -> Forall is_uint64 (elements s).
Proof. intros H. apply list.Forall_forall. intros x Hx%elem_of_elements. by apply H. Qed.

Lemma lookup_zeros n i : default 0 (replicate n 0 !! i) = 0.
Proof.
  destruct (replicate n 0 !! i) eqn:E; [|done]. by apply lookup_replicate_1 in E as [-> _].
Qed.

(** [densify] changes the representation and no register. *)
Lemma densify_spec p s regs :
  4 <= p <= hllMaxPrecision -> set_Forall is_uint64 s ->
  let h := mkHLL p (Some s) regs in
  hll_ok (densify h) /\ hll_p (densify h) = p /\ hll_sparse (densify h) = None /\
  forall i, hll_reg (densify h) i = hashes_reg p (elements s) i.
Proof.
  intros Hp Hs. cbn zeta.
  pose proof (setRegisters_dense (elements s) (mkHLL p (Some s) (replicate (Z.to_nat (2 ^ p)) 0))
    Hp (elements_uint64 s Hs) (replicate_dense p Hp)) as (Hp' & Hs' & Hd & Hl).
  unfold densify. cbn [hll_p hll_sparse hll_regs] in *. split; [|split_and!]; auto.
  - split; cbn; rewrite Hp'; [lia|]. exact Hd.
  - intros i. unfold hll_reg; cbn. rewrite Hl, lookup_zeros.
    pose proof (hashes_reg_nonneg p (elements s) i). unfold hllMaxPrecision in *. lia.
Qed.

Lemma densifyOverLimit_spec p s :
  4 <= p <= hllMaxPrecision -> set_Forall is_uint64 s ->
  let h := mkHLL p (Some s) [] in
  hll_ok (densifyOverLimit h) /\ hll_p (densifyOverLimit h) = p /\
  forall i, hll_reg (densifyOverLimit h) i = hashes_reg p (elements s) i.
Proof.
  intros Hp Hs. cbn zeta. unfold densifyOverLimit. cbn [hll_sparse].
  destruct (Z.ltb_spec (sparseLimit (mkHLL p (Some s) [])) (Z.of_nat (size s))).
  - pose proof (densify_spec p s [] Hp Hs) as (? & ? & ? & ?). auto.
  - split_and!; auto. split; [done|]. cbn. split_and!; auto.
Qed.

(** ** Adding and merging *)

Lemma hashes_reg_elem p xs x :
  x ∈ xs -> regRho p x <= hashes_reg p xs (Z.to_nat (regIndex p x)).
Proof.
  induction xs as [|y xs IH]; [by intros ?%not_elem_of_nil|].
  intros [->|Hx]%elem_of_cons; cbn.
  - rewrite decide_True by done. lia.
  - specialize (IH Hx). unfold hashes_reg in IH. case_decide; lia.
Qed.

Lemma hashes_reg_insert p s x i :
  hashes_reg p (elements ({[ x ]} ∪ s : gset Z)) i =
    if decide (Z.to_nat (regIndex p x) = i) then Z.max (hashes_reg p (elements s) i) (regRho p x)
    else hashes_reg p (elements s) i.
Proof.
  destruct (decide (x ∈ s)) as [Hx|Hx].
  - replace ({[ x ]} ∪ s) with s by set_solver. case_decide; subst; [|done].
    pose proof (hashes_reg_elem p (elements s) x (proj2 (elem_of_elements _ _) Hx)). lia.
  - rewrite (hashes_reg_perm p _ (x :: elements s)) by by apply elements_union_singleton.
    cbn. fold (hashes_reg p (elements s) i). case_decide; lia.
Qed.

Lemma addHash_spec h x :
  hll_ok h -> is_uint64 x ->
  hll_ok (addHash h x) /\ hll_p (addHash h x) = hll_p h /\
  forall i, hll_reg (addHash h x) i =
    if decide (Z.to_nat (regIndex (hll_p h) x) = i) then Z.max (hll_reg h i) (regRho (hll_p h) x)
    else hll_reg h i.
Proof.
  destruct h as [p sp regs]. intros [Hp Hh] Hx. unfold addHash. cbn [hll_sparse hll_p hll_regs] in *.
  destruct sp as [s|].
  - destruct Hh as (-> & Hs & Hsz).
    assert (set_Forall is_uint64 ({[ x ]} ∪ s)) as Hs' by (intros y Hy; set_solver).
    destruct (densifyOverLimit_spec p _ Hp Hs') as (Hok & Hp' & Hr).
    split_and!; auto. intros i. rewrite Hr. apply hashes_reg_insert.
  - destruct (setRegister_dense (mkHLL p None regs) x Hp Hx Hh) as [Hd Hl].
    split_and!; auto. by split.
Qed.

Lemma addHashes_spec xs h :
  hll_ok h -> Forall is_uint64 xs ->
  hll_ok (foldl addHash h xs) /\ hll_p (foldl addHash h xs) = hll_p h /\
  forall i, hll_reg (foldl addHash h xs) i = Z.max (hll_reg h i) (hashes_reg (hll_p h) xs i).
Proof.
  intros Hh Hxs. revert h Hh. induction Hxs as [|x xs Hx _ IH]; intros h Hh; cbn [foldl].
  - split_and!; auto. intros i. cbn. assert (0 <= hll_reg h i); [|lia].
    destruct h as [p [s|] regs], Hh as [Hp Hh]; unfold hll_reg, hllMaxPrecision in *; cbn in *.
    + apply hashes_reg_nonneg. lia.
    + destruct (regs !! i) eqn:E; cbn; [|lia]. destruct Hh as [_ Hf].
      rewrite list.Forall_forall in Hf. apply list_elem_of_lookup_2 in E. by apply Hf in E as [? _].
  - destruct (addHash_spec h x Hh Hx) as (Hok & Hp & Hr).
    destruct (IH _ Hok) as (Hok' & Hp' & Hr'). split_and!; [done|congruence|].
    intros i. rewrite Hr', Hr, Hp. cbn. fold (hashes_reg (hll_p h) xs i). case_decide; lia.
Qed.

Lemma mergeRegs_loop k oregs regs :
  (k + length oregs <= length regs)%nat -> 
  let out := foldl (fun regs '(i, r) => raiseReg regs i r) regs
               (imap (fun i r => ((k + i)%nat, r)) oregs) in
  length out = length regs /\
  forall j, default 0 (out !! j) =
    if decide (k <= j < k + length oregs)%nat
    then Z.max (default 0 (regs !! j)) (default 0 (oregs !! (j - k)%nat)) else default 0 (regs !! j).
Proof.
  revert k regs. induction oregs as [|r oregs IH]; intros k regs Hk; cbn zeta.
  { cbn. split; [done|]. intros j. rewrite decide_False by lia. done. }
  cbn [imap foldl length] in *. rewrite Nat.add_0_r.
  replace (imap _ oregs) with (imap (fun i r => ((S k + i)%nat, r)) oregs)
    by (apply imap_ext; intros; cbn; f_equal; lia).
  destruct (IH (S k) (raiseReg regs k r)) as [Hl Hj]; [rewrite length_raiseReg; lia|].
  split; [by rewrite Hl, length_raiseReg|]. intros j. rewrite Hj, raiseReg_lookup by lia.
  destruct (decide (k = j)) as [<-|Hne].
  - rewrite decide_False by lia. rewrite decide_True by lia. by rewrite Nat.sub_diag.
  - destruct (decide (S k <= j < S k + length oregs)%nat).
    + rewrite decide_True by lia. replace (j - k)%nat with (S (j - S k)) by lia. done.
    + by rewrite decide_False by lia.
Qed.

Lemma mergeRegs_Forall (P : Z -> Prop) k oregs regs :
  Forall P oregs -> Forall P regs ->
  Forall P (foldl (fun regs '(i, r) => raiseReg regs i r) regs
              (imap (fun i r => ((k + i)%nat, r)) oregs)).
Proof.
  intros Ho. revert k regs. induction Ho as [|r oregs Hr _ IH]; intros k regs Hregs; [done|].
  cbn [imap foldl]. replace (imap _ oregs) with (imap (fun i r => ((S k + i)%nat, r)) oregs)
    by (apply imap_ext; intros; cbn; f_equal; lia).
  apply IH. by apply raiseReg_Forall.
Qed.

(** [Merge] of sketches of one precision takes the larger register. *)
Lemma HLL_Merge_same_precision h o :
  hll_ok h -> hll_ok o -> hll_p h = hll_p o ->
  hll_ok (HLL_Merge h o) /\ hll_p (HLL_Merge h o) = hll_p h /\
  forall i, hll_reg (HLL_Merge h o) i = Z.max (hll_reg h i) (hll_reg o i).
Proof.
  intros Hh Ho Hpp. unfold HLL_Merge. rewrite Hpp, Z.ltb_irrefl. rewrite <- Hpp.
  destruct (hll_sparse o) as [so|] eqn:Eo.
  - destruct Ho as [_ Ho]. rewrite Eo in Ho. destruct Ho as (_ & Hs & _).
    destruct (addHashes_spec (elements so) h Hh (elements_uint64 _ Hs)) as (? & ? & Hr).
    split_and!; auto. intros i. rewrite Hr. unfold hll_reg at 3. by rewrite Eo, <- Hpp.
  - assert (exists hd, hll_ok hd /\ hll_p hd = hll_p h /\ hll_sparse hd = None /\
      (forall i, hll_reg hd i = hll_reg h i) /\
      (match hll_sparse h with Some _ => densify h | None => h end) = hd)
      as (hd & [_ Hd] & Hpd & Hsd & Hrd & ->).
    { clear Ho Eo Hpp. destruct h as [p [s|] regs]; cbn [hll_sparse hll_p].
      - destruct Hh as [Hp (_ & Hs & _)]. exists (densify (mkHLL p (Some s) regs)).
        destruct (densify_spec p s regs Hp Hs) as (? & ? & ? & ?). auto.
      - exists (mkHLL p None regs). auto. }
    rewrite Hsd in Hd. destruct Hd as [Hld Hfd]. destruct Ho as [Hpo Ho]. rewrite Eo in Ho.
    destruct Ho as [Hlo Hfo]. rewrite <- Hpp in *. rewrite Hpd in *.
    pose proof (mergeRegs_loop 0 (hll_regs o) (hll_regs hd) ltac:(lia)) as [Hl Hj].
    pose proof (mergeRegs_Forall _ 0 _ _ Hfo Hfd) as Hfm. cbn [Nat.add] in Hl, Hj, Hfm.
    split_and!; cbn; auto.
    + split; cbn; rewrite ?Hpd; [done|]. rewrite Hsd. split; [by rewrite Hl|done].
    + intros i. unfold hll_reg at 1. cbn. rewrite Hsd, Hj. rewrite <- Hrd.
      unfold hll_reg. rewrite Hsd, Eo, Nat.sub_0_r. case_decide as Hd; [done|].
      assert (hll_regs o !! i = None) as -> by (apply lookup_ge_None; lia).
      assert (hll_regs hd !! i = None) as -> by (apply lookup_ge_None; lia). done.
Qed.

(** ** Encoding and decoding *)

Lemma lor_128 a : 0 <= a < 128 -> Z.lor a 128 = a + 128.
Proof.
  intros H. rewrite <- Z.add_nocarry_lor; [done|].
  apply Z.bits_inj'. intros n Hn. rewrite Z.land_spec, Z.bits_0.
  change 128 with (2 ^ 7). rewrite Z.pow2_bits_eqb by lia.
  destruct (Z.eqb_spec 7 n) as [<-|]; [|by rewrite andb_false_r].
  assert (Z.testbit a 7 = false) as ->; [|done].
  apply Z.testbit_false; [lia|]. by rewrite Z.div_small by (cbn; lia).
Qed.

Lemma pow128_S i : 128 ^ Z.of_nat (S i) = 128 ^ Z.of_nat i * 128.
Proof. rewrite Nat2Z.inj_succ, Z.pow_succ_r by lia. lia. Qed.

Lemma uvarint_loop_roundtrip fuel i acc x rest :
  (i + S fuel = 10)%nat -> 0 <= x -> 0 <= acc -> acc + x * 128 ^ Z.of_nat i < two64 ->
  uvarint_loop i acc (uvarint_bytes (S fuel) x ++ rest) =
    Some (acc + x * 128 ^ Z.of_nat i, rest).
Proof.
  revert i acc x. induction fuel as [|fuel IH]; intros i acc x Hi Hx Hacc Hb.
  all: assert (0 < 128 ^ Z.of_nat i) as Hpos by (apply Z.pow_pos_nonneg; lia).
  - replace i with 9%nat in * by lia. unfold two64 in Hb. change (128 ^ Z.of_nat 9) with 9223372036854775808 in *.
    cbn [uvarint_bytes]. destruct (Z.ltb_spec x 128); [|lia]. cbn.
    destruct (Z.ltb_spec x 128); [|lia]. destruct (Z.ltb_spec 1 x); [lia|].
    rewrite to_u64_id by (unfold_words; lia). done.
  - cbn [uvarint_bytes]. destruct (Z.ltb_spec x 128) as [Hlt|Hge].
    + cbn [app uvarint_loop]. rewrite (proj2 (Nat.leb_gt 10 i)) by lia.
      destruct (Z.ltb_spec x 128); [|lia]. rewrite (proj2 (Nat.eqb_neq i 9)) by lia. cbn [andb].
      rewrite to_u64_id by (unfold_words; lia). done.
    + rewrite lor_128 by (apply Z.mod_pos_bound; lia). cbn [app uvarint_loop].
      rewrite (proj2 (Nat.leb_gt 10 i)) by lia.
      pose proof (Z.mod_pos_bound x 128 ltac:(lia)). pose proof (Z.div_mod x 128 ltac:(lia)).
      destruct (Z.ltb_spec (x mod 128 + 128) 128); [lia|].
      assert (0 <= x / 128) by (apply Z.div_pos; lia).
      replace (x mod 128 + 128 - 128) with (x mod 128) by lia.
      rewrite to_u64_id by (unfold_words; nia).
      fold (uvarint_bytes (S fuel)) in IH |- *.
      change (if x / 128 <? 128 then [x / 128] else _) with (uvarint_bytes (S fuel) (x / 128)).
      rewrite IH; [|lia|lia|nia|rewrite pow128_S; nia].
      f_equal. f_equal. rewrite pow128_S. nia.
Qed.

Lemma Uvarint_roundtrip x rest :
  is_uint64 x -> Uvarint (uvarint_bytes 10 x ++ rest) = Some (x, rest).
Proof.
  intros Hx. unfold Uvarint, is_uint64 in *. rewrite uvarint_loop_roundtrip; cbn; try lia.
  by rewrite Z.mul_1_r.
Qed.

Lemma deltas_roundtrip hs prev s rest :
  StronglySorted (fun a b => (a <=? b) = true) hs -> Forall is_uint64 hs ->
  0 <= prev -> Forall (fun x => prev <= x) hs ->
  decodeDeltas (length hs) prev s (encodeDeltas prev hs ++ rest) = Some (list_to_set hs ∪ s, rest).
Proof.
  intros Hs. revert prev s. induction Hs as [|x hs Hs IH Hx]; intros prev s Hu Hp Hle.
  { cbn. f_equal. f_equal. set_solver. }
  apply Forall_cons in Hu as [Hux Hu]. apply Forall_cons in Hle as [Hlex Hle].
  cbn [length encodeDeltas decodeDeltas]. rewrite <- app_assoc.
  rewrite to_u64_id by (unfold is_uint64 in *; lia).
  rewrite Uvarint_roundtrip by (unfold is_uint64 in *; lia).
  replace (prev + (x - prev)) with x by lia. rewrite to_u64_id by done.
  rewrite IH; auto.
  - f_equal. f_equal. cbn. set_solver.
  - unfold is_uint64 in Hux. lia.
  - eapply Forall_impl; [exact Hx|]. cbn. lia.
Qed.

Lemma sortedHashes_spec (s : gset Z) :
  StronglySorted (fun a b => (a <=? b) = true) (sortedHashes s) /\
  list_to_set (sortedHashes s) = s /\ length (sortedHashes s) = size s.
Proof.
  unfold sortedHashes. split_and!.
  - apply isort_sorted; intros; lia.
  - apply set_eq. intros x. by rewrite elem_of_list_to_set, elem_of_isort, elem_of_elements.
  - rewrite length_isort. done.
Qed.

Lemma existsb_false_Forall {A} (f : A -> bool) l :
  existsb f l = false <-> Forall (fun x => f x = false) l.
Proof.
  induction l as [|x l IH]; cbn; [done|]. rewrite orb_false_iff, Forall_cons, IH. done.
Qed.

(** Every sketch the code builds survives an encode/decode round trip. *)
Lemma DecodeHLL_Encode h : hll_ok h -> DecodeHLL (Encode h) = Some h.
Proof.
  destruct h as [p [s|] regs]; intros [Hp Hh]; cbn [hll_p hll_sparse hll_regs] in *;
    unfold Encode; cbn [hll_sparse hll_p hll_regs].
  - destruct Hh as (-> & Hs & Hsz). destruct (sortedHashes_spec s) as (Hsorted & Hset & Hlen).
    unfold AppendUvarint. rewrite <- !app_assoc. cbn [app DecodeHLL].
    change (negb (hllVersion =? hllVersion)) with false. cbn match.
    unfold hllMaxPrecision in *. destruct (Z.ltb_spec p 4); [lia|].
    destruct (Z.ltb_spec 24 p); [lia|]. cbn [orb]. cbn [Z.eqb].
    assert (Z.of_nat (size s) <= 2 ^ p) as Hle.
    { unfold sparseLimit in Hsz. cbn in Hsz. pose proof (Z.pow_nonneg 2 p ltac:(lia)).
      pose proof (Z.div_le_upper_bound (2 ^ p) 8 (2 ^ p)). lia. }
    assert (2 ^ p <= 2 ^ 24) as Hpb by (apply Z.pow_le_mono_r; lia).
    rewrite Uvarint_roundtrip by (rewrite Hlen; unfold_words; lia).
    destruct (Z.ltb_spec (2 ^ p) (Z.of_nat (length (sortedHashes s)))); [lia|].
    rewrite Nat2Z.id. rewrite <- (app_nil_r (encodeDeltas _ _)).
    rewrite deltas_roundtrip; auto; [| |lia|].
    + rewrite Hset, union_empty_r_L. unfold densifyOverLimit. cbn [hll_sparse].
      destruct (Z.ltb_spec (sparseLimit (mkHLL p (Some s) [])) (Z.of_nat (size s))); [lia|done].
    + apply list.Forall_forall. intros x Hx%elem_of_isort%elem_of_elements. by apply Hs.
    + apply list.Forall_forall. intros x Hx%elem_of_isort%elem_of_elements. by apply Hs.
  - destruct Hh as [Hl Hf]. cbn [app DecodeHLL].
    change (negb (hllVersion =? hllVersion)) with false. cbn match.
    unfold hllMaxPrecision in *. destruct (Z.ltb_spec p 4); [lia|].
    destruct (Z.ltb_spec 24 p); [lia|]. cbn [orb]. cbn [Z.eqb Pos.eqb].
    rewrite Hl, Z.eqb_refl. cbn [negb].
    rewrite (proj2 (existsb_false_Forall _ _)); [done|].
    eapply Forall_impl; [exact Hf|]. cbn. lia.
Qed.

Lemma decodeDeltas_uint64 n prev s b s' rest :
  set_Forall is_uint64 s -> decodeDeltas n prev s b = Some (s', rest) -> set_Forall is_uint64 s'.
Proof.
  revert prev s b. induction n as [|n IH]; intros prev s b Hs; cbn; [by intros [= <- _]|].
  destruct (Uvarint b) as [[d b']|]; [|done]. apply IH.
  apply set_Forall_union; [|done]. apply set_Forall_singleton, to_u64_range.
Qed.

(** Whatever bytes decode, the sketch satisfies the invariant. *)
Lemma DecodeHLL_ok b h : all_bytes b -> DecodeHLL b = Some h -> hll_ok h.
Proof.
  intros Hb. unfold DecodeHLL. destruct b as [|v [|p [|repr rest]]]; try done.
  destruct (negb (v =? hllVersion)); [done|].
  destruct ((p <? 4) || (hllMaxPrecision <? p)) eqn:Ep; [done|].
  assert (4 <= p <= hllMaxPrecision) as Hp by lia.
  destruct (repr =? 0).
  - destruct (Uvarint rest) as [[n rest']|]; [|done]. destruct (2 ^ p <? n); [done|].
    destruct (decodeDeltas (Z.to_nat n) 0 ∅ rest') as [[s [|]]|] eqn:E; try done.
    intros [= <-]. apply decodeDeltas_uint64 in E; [|apply set_Forall_empty].
    by apply (densifyOverLimit_spec p s Hp E).
  - destruct (repr =? 1); [|done].
    destruct (negb (Z.of_nat (length rest) =? 2 ^ p)) eqn:El; [done|].
    destruct (existsb _ rest) eqn:Er; [done|]. intros [= <-]. split; [done|]. cbn.
    split; [lia|]. apply existsb_false_Forall in Er.
    assert (all_bytes rest) as Hrest by (by repeat apply Forall_cons in Hb as [_ Hb]).
    apply list.Forall_forall. intros r Hr. unfold all_bytes in Hrest.
    rewrite list.Forall_forall in Er, Hrest.
    specialize (Er r Hr). specialize (Hrest r Hr). unfold is_byte in Hrest. cbn in *. lia.
Qed.

Lemma NewHLL_ok : hll_ok NewHLL.
Proof.
  split; [unfold hllMaxPrecision; cbn; unfold hllDefaultPrecision; lia|].
  cbn. split_and!; [done|apply set_Forall_empty|done].
Qed.

Lemma hllHash_uint64 b : is_uint64 (hllHash b).
Proof.
  unfold hllHash.
  assert (forall x, is_uint64 x -> is_uint64 (Z.lxor x (Z.shiftr x 33))) as H; cycle 1.
  { apply H, to_u64_range. }
  intros x [H0 H1]. split.
  - apply Z.lxor_nonneg. rewrite Z.shiftr_nonneg. lia.
  - assert (Z.shiftr x 33 <= x) as Hs.
    { rewrite Z.shiftr_div_pow2 by lia. apply Z.div_le_upper_bound; [done|]. cbn. lia. }
    destruct (decide (Z.lxor x (Z.shiftr x 33) = 0)) as [->|Hne]; [done|].
    assert (0 <= Z.shiftr x 33) by by apply Z.shiftr_nonneg.
    assert (0 <= Z.lxor x (Z.shiftr x 33)) by (apply Z.lxor_nonneg; lia).
    change two64 with (2 ^ 64) in *. apply Z.log2_lt_pow2; [lia|].
    eapply Z.le_lt_trans; [apply Z.log2_lxor; lia|].
    rewrite Z.max_l by (by apply Z.log2_le_mono).
    destruct (decide (x = 0)) as [->|]; [done|]. apply Z.log2_lt_pow2; lia.
Qed.

(** ** Precision changes keep the invariant *)

Lemma downgradeReg_bound d j r p :
  0 < d -> 0 <= j -> 0 <= r <= 65 - (p + d) -> 4 <= p <= 64 -> p + d <= 64 ->
  0 <= downgradeReg d j r <= 65 - p.
Proof.
  intros Hd Hj Hr Hp Hpd. unfold downgradeReg.
  replace (2 ^ d - 1) with (Z.ones d) by (rewrite Z.ones_equiv; lia).
  rewrite Z.land_ones by lia. pose proof (Z.mod_pos_bound j (2 ^ d) ltac:(apply Z.pow_pos_nonneg; lia)).
  destruct (Z.eqb_spec (j mod 2 ^ d) 0) as [->|Hne]; cbn [negb]; [lia|].
  rewrite Len64_pos by lia.
  assert (0 <= Z.log2 (j mod 2 ^ d)) by apply Z.log2_nonneg.
  assert (Z.log2 (j mod 2 ^ d) < d) by (apply Z.log2_lt_pow2; lia). lia.
Qed.

Lemma downgradeRegs_dense d p regs :
  0 < d -> 4 <= p <= hllMaxPrecision -> p + d <= 64 ->
  Forall (fun r => 0 <= r <= 65 - (p + d)) regs -> dense_regs p (downgradeRegs d p regs).
Proof.
  intros Hd Hp Hpd Hf. unfold downgradeRegs.
  assert (Forall (fun q => 0 <= q.1 /\ 0 <= q.2 <= 65 - (p + d))
            (imap (fun j r => (Z.of_nat j, r)) regs)) as Hi.
  { apply list.Forall_forall. intros q Hq. apply elem_of_lookup_imap in Hq as (j & r & -> & Hj).
    cbn. apply list_elem_of_lookup_2 in Hj. rewrite list.Forall_forall in Hf.
    split; [lia|]. by apply Hf. }
  generalize (replicate_dense p Hp). generalize (replicate (Z.to_nat (2 ^ p)) 0).
  clear Hf. induction Hi as [|[j r] l [Hj Hr] _ IH]; intros out Hout; [done|]. cbn [foldl] in *.
  apply IH. cbn in Hj, Hr. destruct (r =? 0); [done|]. destruct Hout as [Hl Hout].
  split; [by rewrite length_raiseReg|]. apply raiseReg_Forall; [|done].
  unfold hllMaxPrecision in *. apply downgradeReg_bound; lia.
Qed.

Lemma downgrade_ok h p : hll_ok h -> 4 <= p <= hllMaxPrecision ->
  hll_ok (downgrade h p) /\ hll_p (downgrade h p) = Z.min (hll_p h) p.
Proof.
  intros Hok Hp. unfold downgrade. destruct (Z.leb_spec (hll_p h) p); [split; [done|lia]|].
  destruct h as [p0 [s|] regs], Hok as [Hp0 Hh]; cbn [hll_p hll_sparse hll_regs] in *.
  - destruct Hh as (-> & Hs & _). destruct (densifyOverLimit_spec p s Hp Hs) as (? & ? & _).
    split; [done|lia].
  - destruct Hh as [Hl Hf]. split; [|cbn; lia]. split; [done|]. cbn.
    apply downgradeRegs_dense; unfold hllMaxPrecision in *; try lia.
    by replace (p + (p0 - p)) with p0 by lia.
Qed.

(** [Merge] accepts any two sketches and uses the lower precision. *)
Lemma HLL_Merge_ok h o :
  hll_ok h -> hll_ok o ->
  hll_ok (HLL_Merge h o) /\ hll_p (HLL_Merge h o) = Z.min (hll_p h) (hll_p o).
Proof.
  intros Hh Ho.
  assert (HLL_Merge h o = HLL_Merge (downgrade h (hll_p o)) (downgrade o (hll_p h))) as ->.
  { unfold HLL_Merge at 1 2.
    destruct (downgrade_ok h (hll_p o) Hh (proj1 Ho)) as [_ ->].
    destruct (downgrade_ok o (hll_p h) Ho (proj1 Hh)) as [_ ->].
    rewrite (Z.min_comm (hll_p o)), Z.ltb_irrefl. unfold downgrade.
    destruct (Z.ltb_spec (hll_p h) (hll_p o)), (Z.ltb_spec (hll_p o) (hll_p h)),
      (Z.leb_spec (hll_p h) (hll_p o)), (Z.leb_spec (hll_p o) (hll_p h)); done || lia. }
  destruct (downgrade_ok h (hll_p o) Hh (proj1 Ho)) as [Hh' Hp].
  destruct (downgrade_ok o (hll_p h) Ho (proj1 Hh)) as [Ho' Hp'].
  destruct (HLL_Merge_same_precision _ _ Hh' Ho') as (? & ? & _); [lia|]. split; [done|lia].
Qed.

Lemma HLL_Add_ok h item : hll_ok h -> hll_ok (HLL_Add h item) /\ hll_p (HLL_Add h item) = hll_p h.
Proof.
  intros Hh. destruct (addHash_spec h (hllHash item) Hh (hllHash_uint64 item)) as (? & ? & _). done.
Qed.

(** ** Sketches of item lists *)

Definition sketch (items : list bytes) : HLL := foldl HLL_Add NewHLL items.

Lemma sketch_spec items :
  hll_ok (sketch items) /\ hll_p (sketch items) = hllDefaultPrecision /\
  forall i, hll_reg (sketch items) i = hashes_reg hllDefaultPrecision (hllHash <$> items) i.
Proof.
  assert (sketch items = foldl addHash NewHLL (hllHash <$> items)) as ->.
  { unfold sketch. generalize NewHLL. induction items as [|x xs IH]; intros h; [done|]. apply IH. }
  destruct (addHashes_spec (hllHash <$> items) NewHLL NewHLL_ok) as (Hok & Hp & Hr).
  { apply list.Forall_forall. intros x (b & -> & _)%list_elem_of_fmap. apply hllHash_uint64. }
  split_and!; [done|done|]. intros i. rewrite Hr.
  change (hll_reg NewHLL i) with 0. change (hll_p NewHLL) with hllDefaultPrecision.
  pose proof (hashes_reg_nonneg hllDefaultPrecision (hllHash <$> items) i
    ltac:(by unfold hllDefaultPrecision)). lia.
Qed.

Lemma hashes_reg_app p xs ys i :
  1 <= p <= 64 -> hashes_reg p (xs ++ ys) i = Z.max (hashes_reg p xs i) (hashes_reg p ys i).
Proof.
  intros Hp. pose proof (hashes_reg_nonneg p ys i Hp).
  unfold hashes_reg in *. induction xs as [|x xs IH]; cbn [app foldr]; [lia|]. case_decide; lia.
Qed.

Lemma hashes_reg_le p xs ys i :
  1 <= p <= 64 -> (forall x, x ∈ xs -> x ∈ ys) -> hashes_reg p xs i <= hashes_reg p ys i.
Proof.
  intros Hp. induction xs as [|x xs IH]; intros Hin; cbn; [by apply hashes_reg_nonneg|].
  fold (hashes_reg p xs i).
  assert (hashes_reg p xs i <= hashes_reg p ys i) by (apply IH; intros; apply Hin; by right).
  case_decide; [|done]. subst i. pose proof (hashes_reg_elem p ys x (Hin x ltac:(left))). lia.
Qed.

(** ** Properties *)

(** Decoding an encoded sketch gives the sketch back, sparse or dense, at
    every precision. *)
Theorem DecodeHLL_Encode_roundtrip h : hll_ok h -> DecodeHLL (Encode h) = Some h.
Proof. apply DecodeHLL_Encode. Qed.

Lemma DecodeHLL_Encode_roundtrip_witness :
  DecodeHLL (Encode (HLL_Add NewHLL [1; 2])) = Some (HLL_Add NewHLL [1; 2]).
Proof. apply DecodeHLL_Encode_roundtrip. apply HLL_Add_ok, NewHLL_ok. Defined.

(** Whatever bytes [DecodeHLL] accepts, the result is a well-formed sketch
    (precision in range, sparse set within its limit or one in-range rank per
    register), and merging two such sketches gives one at the lower
    precision. *)
Theorem DecodeHLL_merge_ok b1 b2 h1 h2 :
  all_bytes b1 -> all_bytes b2 -> DecodeHLL b1 = Some h1 -> DecodeHLL b2 = Some h2 ->
  hll_ok h1 /\ hll_ok h2 /\ hll_ok (HLL_Merge h1 h2) /\
  hll_p (HLL_Merge h1 h2) = Z.min (hll_p h1) (hll_p h2).
Proof.
  intros H1 H2 E1 E2. apply DecodeHLL_ok in E1; [|done]. apply DecodeHLL_ok in E2; [|done].
  destruct (HLL_Merge_ok h1 h2 E1 E2). auto.
Qed.

Lemma DecodeHLL_merge_ok_witness :
  let h1 := default NewHLL (DecodeHLL [1; 4; 0; 0]) in
  let h2 := default NewHLL (DecodeHLL [1; 5; 0; 1; 7]) in
  hll_ok h1 /\ hll_ok h2 /\ hll_ok (HLL_Merge h1 h2) /\
  hll_p (HLL_Merge h1 h2) = Z.min (hll_p h1) (hll_p h2).
Proof.
  apply (DecodeHLL_merge_ok [1; 4; 0; 0] [1; 5; 0; 1; 7]);
    [repeat constructor; vm_compute; done..|vm_compute; reflexivity|vm_compute; reflexivity].
Defined.

(** A sketch depends only on the set of items added, not on their order or
    multiplicity, and merging the sketches of two lists has the registers of
    the sketch of both. *)
Theorem sketch_set_semantics xs ys i :
  ((forall x, x ∈ xs <-> x ∈ ys) -> hll_reg (sketch xs) i = hll_reg (sketch ys) i) /\
  hll_reg (HLL_Merge (sketch xs) (sketch ys)) i = hll_reg (sketch (xs ++ ys)) i.
Proof.
  destruct (sketch_spec xs) as (Hx & Hpx & Hrx), (sketch_spec ys) as (Hy & Hpy & Hry).
  assert (1 <= hllDefaultPrecision <= 64) as Hp by (by unfold hllDefaultPrecision).
  split.
  - intros Hset. rewrite Hrx, Hry. apply Z.le_antisymm; (apply hashes_reg_le; [done|]);
      intros h (b & -> & Hb)%list_elem_of_fmap; apply list_elem_of_fmap_2; by apply Hset.
  - destruct (HLL_Merge_same_precision _ _ Hx Hy) as (_ & _ & ->); [congruence|].
    destruct (sketch_spec (xs ++ ys)) as (_ & _ & ->). rewrite Hrx, Hry, fmap_app.
    by rewrite hashes_reg_app.
Qed.

Lemma sketch_set_semantics_witness :
  hll_reg (sketch [[1]; [2]; [1]]) 0 = hll_reg (sketch [[2]; [1]]) 0.
Proof.
  apply (proj1 (sketch_set_semantics [[1]; [2]; [1]] [[2]; [1]] 0)).
  intros x. rewrite !elem_of_cons. set_solver.
Defined.
