(* ===== verification/Mutations.v ===== *)
(** * The mutation engine

    [mutation_engine.go] up to [appendOrReplaceCell]: timestamp granularity,
    validation of mutation lists and their application to a candidate row.
    The server clock is an argument. *)

From S2P Require Import Prelude Proto Rows Hll.
From stdpp Require Import base list gmap sorting.
From Stdlib Require Import ZArith Lia.

#[local] Open Scope Z_scope.

(** ** Constants *)

Definition maxMutationsPerRequest : Z := 100000.
Definition maxRowKeyBytes : Z := 4 * 1024.
Definition minValidMilliSeconds : Z := 0.
Definition maxValidMilliSeconds : Z := int64_max - Z.rem int64_max 1000.

(** ** Timestamps *)

(** [newTimestamp] for a clock reading [time.Now().UnixNano()]. *)
Definition newTimestamp (unixNano : Z) : Z :=
  let ts := Z.quot unixNano 1000 in ts - Z.rem ts 1000.

Definition validTimestamp (ts : Z) : bool :=
  (minValidMilliSeconds <=? ts) && (ts <=? maxValidMilliSeconds) && (Z.rem ts 1000 =? 0).

(** [adminpb.Table_TimestampGranularity]. *)
Inductive Table_TimestampGranularity : Type :=
| TIMESTAMP_GRANULARITY_UNSPECIFIED | MILLIS | MICROS.

#[global] Instance Table_TimestampGranularity_eq_dec : EqDecision Table_TimestampGranularity.
Proof. solve_decision. Defined.

Record granularity : Type := mkGranularity { micros : bool }.

Definition tableGranularity (t : Table_TimestampGranularity) : granularity :=
  mkGranularity (bool_decide (t = MICROS)).

Definition valid (g : granularity) (ts : Z) : bool :=
  if micros g then 0 <=? ts else validTimestamp ts.

Definition resolve (g : granularity) (ts : Z) (origin : TimestampOrigin) (now : Z) : Z * bool :=
  if ts =? -1 then (now, true)
  else
    let ts := if bool_decide (origin = CLIENT_AUTO_GENERATED) && negb (micros g) && (0 <=? ts)
              then ts - Z.rem ts 1000 else ts in
    (ts, valid g ts).

Definition validateRowKey (k : bytes) : outcome unit :=
  if Nat.eqb (length k) 0 then Err InvalidArgument
  else if maxRowKeyBytes <? Z.of_nat (length k) then Err InvalidArgument
  else Ret tt.

Definition unknownFamilyError {A} : outcome A := Err NotFound.

(** ** Aggregate families *)

Inductive aggregateKind : Type :=
| aggregateNone | aggregateSum | aggregateMin | aggregateMax | aggregateHLL.

#[global] Instance aggregateKind_eq_dec : EqDecision aggregateKind.
Proof. solve_decision. Defined.

Definition familyAggregate (cf : columnFamily) : aggregateKind :=
  match cf_ValueType cf with
  | Some (Type_Aggregate _ Aggregator_Sum) => aggregateSum
  | Some (Type_Aggregate _ Aggregator_Min) => aggregateMin
  | Some (Type_Aggregate _ Aggregator_Max) => aggregateMax
  | Some (Type_Aggregate _ Aggregator_HllppUniqueCount) => aggregateHLL
  | _ => aggregateNone
  end.

Definition valueQualifier (v : Value_) : option bytes :=
  match v with
  | Value_RawValue b => Some b
  | Value_BytesValue b => Some b
  | Value_StringValue s => Some s
  | _ => None
  end.

(** [Timestamp.AsTime().UnixMicro()]: [time.Unix] normalises the nanoseconds
    into [0, 1e9) first. *)
Definition unixMicro (seconds nanos : Z) : Z :=
  wrap64 ((seconds + nanos / 1000000000) * 1000000 + (nanos mod 1000000000) / 1000).

Definition valueTimestamp (v : Value_) : option Z :=
  match v with
  | Value_RawTimestampMicros us => Some us
  | Value_IntValue n => Some n
  | Value_TimestampValue s n => Some (unixMicro s n)
  | _ => None
  end.

Definition int64Input (v : Value_) : option Z :=
  match v with
  | Value_IntValue n => Some n
  | Value_RawValue b => if Nat.eqb (length b) 8 then Some (be64_int64 b) else None
  | Value_BytesValue b => if Nat.eqb (length b) 8 then Some (be64_int64 b) else None
  | _ => None
  end.

Definition rawBytesValue (v : Value_) : bytes :=
  match v with
  | Value_RawValue b => b
  | Value_BytesValue b => b
  | Value_StringValue s => s
  | _ => []
  end.

Definition encodeInt64 (v : Z) : bytes := be64 v.

(** ** Validation *)

Definition validateAggregateMutation (fam : bytes) (qualifier timestamp input : Value_)
    (fams : gmap bytes columnFamily) (g : granularity) (origin : TimestampOrigin)
    (merge : bool) : outcome unit :=
  match fams !! fam with
  | None => unknownFamilyError
  | Some cf =>
      let kind := familyAggregate cf in
      if bool_decide (kind = aggregateNone) then Err InvalidArgument
      else match valueQualifier qualifier with
      | None => Err InvalidArgument
      | Some _ =>
          let ok := match valueTimestamp timestamp with
                    | Some ts => (resolve g ts origin 0).2 && negb (ts =? -1)
                    | None => false
                    end in
          if negb ok then Err InvalidArgument
          else if bool_decide (kind = aggregateHLL) then
            if merge then
              match DecodeHLL (rawBytesValue input) with
              | None => Err InvalidArgument | Some _ => Ret tt end
            else match HLLInputBytes input with
                 | None => Err InvalidArgument | Some _ => Ret tt end
          else match int64Input input with
               | None => Err InvalidArgument | Some _ => Ret tt end
      end
  end.

Definition validateMutation (m : Mutation) (fams : gmap bytes columnFamily) (g : granularity)
    : outcome unit :=
  match mutation m with
  | Mutation_SetCell fam _ ts _ =>
      match fams !! fam with
      | None => unknownFamilyError
      | Some cf =>
          if negb (bool_decide (familyAggregate cf = aggregateNone)) then Err InvalidArgument
          else if negb (resolve g ts (timestamp_origin m) 0).2 then Err InvalidArgument
          else Ret tt
      end
  | Mutation_DeleteFromColumn fam _ tr =>
      match fams !! fam with
      | None => unknownFamilyError
      | Some _ =>
          match tr with
          | None => Ret tt
          | Some tr =>
              let s := StartTimestampMicros tr in
              let e := EndTimestampMicros tr in
              if negb (valid g s) then Err InvalidArgument
              else if negb (e =? 0) && negb (valid g e) then Err InvalidArgument
              else if negb (e =? 0) && (e <=? s) then Err InvalidArgument
              else Ret tt
          end
      end
  | Mutation_DeleteFromFamily fam =>
      match fams !! fam with None => unknownFamilyError | Some _ => Ret tt end
  | Mutation_DeleteFromRow => Ret tt
  | Mutation_AddToCell fam q ts input =>
      validateAggregateMutation fam q ts input fams g (timestamp_origin m) false
  | Mutation_MergeToCell fam q ts input =>
      validateAggregateMutation fam q ts input fams g (timestamp_origin m) true
  | Mutation_nil => Err InvalidArgument
  end.

Definition validateMutations (muts : list Mutation) (fams : gmap bytes columnFamily)
    (g : granularity) : outcome unit :=
  if Nat.eqb (length muts) 0 then Err InvalidArgument
  else if maxMutationsPerRequest <? Z.of_nat (length muts) then Err InvalidArgument
  else foldM (fun _ m => validateMutation m fams g) tt muts.

(** ** Application *)

(** Whether [deleteFromColumn] drops a cell with timestamp [ts]. *)
Definition inDeleteRange (tr : TimestampRange) (ts : Z) : bool :=
  (StartTimestampMicros tr <=? ts) &&
  ((EndTimestampMicros tr =? 0) || (ts <? EndTimestampMicros tr)).

(** Removes the first occurrence of a column name. *)
Fixpoint dropColName (col : bytes) (cols : list bytes) : list bytes :=
  match cols with
  | [] => []
  | c :: cols' => if bool_decide (c = col) then cols' else c :: dropColName col cols'
  end.

Definition deleteFromColumn (r : row) (famName col : bytes) (tr : option TimestampRange) : row :=
  match families r !! famName with
  | None => r
  | Some fam =>
      let cs := default [] (Cells fam !! col) in
      let cs := match tr with
                | Some tr => filter (fun c => inDeleteRange tr (Ts c) = false) cs
                | None => []
                end in
      match cs with
      | _ :: _ => put_family r famName (set_Cells fam (<[col := cs]> (Cells fam)))
      | [] =>
          let fam := set_Cells fam (delete col (Cells fam)) in
          let fam := set_ColNames fam (dropColName col (ColNames fam)) in
          if decide (Cells fam = ∅) then set_families r (delete famName (families r))
          else put_family r famName fam
      end
  end.

(** The index of the first cell with timestamp [ts]. *)
Fixpoint cellIndex (cs : list cell) (ts : Z) : option nat :=
  match cs with
  | [] => None
  | c :: cs' => if Ts c =? ts then Some 0%nat else S <$> cellIndex cs' ts
  end.

Definition setValue (cs : list cell) (i : nat) (v : bytes) : list cell :=
  alter (fun c => mkCell (Ts c) v (Labels c)) i cs.

(** The new value of an Int64 aggregate. *)
Definition aggregateInt64 (kind : aggregateKind) (existing input : Z) : Z :=
  match kind with
  | aggregateSum => wrap64 (existing + input)
  | aggregateMin => if input <? existing then input else existing
  | aggregateMax => if existing <? input then input else existing
  | _ => existing
  end.

Definition applyAggregate (r : row) (cf : columnFamily) (famName : bytes)
    (qualifier timestamp input : Value_) (g : granularity) (origin : TimestampOrigin)
    (merge : bool) : outcome row :=
  let col := default [] (valueQualifier qualifier) in
  let ts := default 0 (valueTimestamp timestamp) in
  let ts := (resolve g ts origin 0).1 in
  let '(r, f) := getOrCreateFamily r famName (cf_Order cf) in
  let '(f, cs) := cellsByColumn f col in
  let store cs' := put_family r famName (set_Cells f (<[col := cs']> (Cells f))) in
  let idx := cellIndex cs ts in
  let kind := familyAggregate cf in
  if bool_decide (kind = aggregateHLL) then
    sketch ← (match idx with
              | Some i => match DecodeHLL (default [] (Value <$> cs !! i)) with
                          | Some h => Ret h | None => Err FailedPrecondition end
              | None => Ret NewHLL
              end : outcome HLL);
    sketch ← (if merge then
                match DecodeHLL (rawBytesValue input) with
                | Some o => Ret (HLL_Merge sketch o) | None => Err InvalidArgument end
              else Ret (HLL_Add sketch (default [] (HLLInputBytes input))) : outcome HLL);
    let value := Encode sketch in
    match idx with
    | Some i => Ret (store (setValue cs i value))
    | None => Ret (store (appendOrReplaceCell cs (mkCell ts value [])))
    end
  else
    let inp := default 0 (int64Input input) in
    match idx with
    | None => Ret (store (appendOrReplaceCell cs (mkCell ts (encodeInt64 inp) [])))
    | Some i =>
        let old := default [] (Value <$> cs !! i) in
        let existing := if Nat.eqb (length old) 8 then be64_int64 old else 0 in
        Ret (store (setValue cs i (encodeInt64 (aggregateInt64 kind existing inp))))
    end.

(** One iteration of [applyMutations]: the row and the change records.  A
    missing family dereferences a nil [columnFamily]. *)
Definition applyMutation (fams : gmap bytes columnFamily) (g : granularity) (now : Z)
    (st : row * list Mutation) (m : Mutation) : outcome (row * list Mutation) :=
  let '(r, changes) := st in
  match mutation m with
  | Mutation_SetCell fam col ts v =>
      match fams !! fam with
      | None => Panic
      | Some cf =>
          let ts := (resolve g ts (timestamp_origin m) now).1 in
          Ret (set_col r fam col (cf_Order cf) (fun cs => appendOrReplaceCell cs (mkCell ts v [])),
               changes ++ [mut (Mutation_SetCell fam col ts v)])
      end
  | Mutation_DeleteFromColumn fam col tr => Ret (deleteFromColumn r fam col tr, changes ++ [m])
  | Mutation_DeleteFromFamily fam =>
      Ret (set_families r (delete fam (families r)), changes ++ [m])
  | Mutation_DeleteFromRow =>
      Ret (set_families r ∅,
           changes ++ ((fun f => mut (Mutation_DeleteFromFamily (Name f))) <$> sortedFamilies r))
  | Mutation_AddToCell fam q ts input =>
      match fams !! fam with
      | None => Panic
      | Some cf =>
          r ← applyAggregate r cf fam q ts input g (timestamp_origin m) false;
          Ret (r, changes ++ [m])
      end
  | Mutation_MergeToCell fam q ts input =>
      match fams !! fam with
      | None => Panic
      | Some cf =>
          r ← applyAggregate r cf fam q ts input g (timestamp_origin m) true;
          Ret (r, changes ++ [m])
      end
  | Mutation_nil => Err Unimplemented
  end.

Definition applyMutations (r : row) (muts : list Mutation) (fams : gmap bytes columnFamily)
    (g : granularity) (now : Z) : outcome (row * list Mutation) :=
  foldM (applyMutation fams g now) (r, []) muts.

(** ** Specification

    A stored row is a partial map from (family, qualifier, timestamp) to
    cells; a mutation updates it pointwise. *)

Definition arow : Type := bytes -> bytes -> Z -> option cell.

Definition represents (r : row) (a : arow) : Prop :=
  forall fam col ts, find_ts (cells_at r fam col) ts = a fam col ts.

(** The timestamps a DeleteFromColumn covers; no range covers all. *)
Definition deletesTs (tr : option TimestampRange) (ts : Z) : bool :=
  match tr with Some tr => inDeleteRange tr ts | None => true end.

Definition aset (a : arow) (fam col : bytes) (ts : Z) (c : cell) : arow :=
  fun f q t => if decide (f = fam /\ q = col /\ t = ts) then Some c else a f q t.

(** The cell an aggregate mutation leaves at timestamp [ts]. *)
Definition spec_aggregate (kind : aggregateKind) (ts : Z) (input : Value_) (merge : bool)
    (old : option cell) : outcome cell :=
  let labels := from_option Labels [] old in
  if bool_decide (kind = aggregateHLL) then
    h ← (match old with
         | Some c => match DecodeHLL (Value c) with
                     | Some h => Ret h | None => Err FailedPrecondition end
         | None => Ret NewHLL
         end : outcome HLL);
    if merge then
      match DecodeHLL (rawBytesValue input) with
      | Some o => Ret (mkCell ts (Encode (HLL_Merge h o)) labels)
      | None => Err InvalidArgument
      end
    else Ret (mkCell ts (Encode (HLL_Add h (default [] (HLLInputBytes input)))) labels)
  else
    let inp := default 0 (int64Input input) in
    Ret (mkCell ts (encodeInt64
      match old with
      | None => inp
      | Some c => aggregateInt64 kind
                    (if Nat.eqb (length (Value c)) 8 then be64_int64 (Value c) else 0) inp
      end) labels).

Definition spec_aggregate_step (a : arow) (cf : columnFamily) (fam : bytes) (q ts input : Value_)
    (g : granularity) (origin : TimestampOrigin) (merge : bool) : outcome arow :=
  let col := default [] (valueQualifier q) in
  let t := (resolve g (default 0 (valueTimestamp ts)) origin 0).1 in
  c ← spec_aggregate (familyAggregate cf) t input merge (a fam col t);
  Ret (aset a fam col t c).

Definition spec_mutation (fams : gmap bytes columnFamily) (g : granularity) (now : Z)
    (a : arow) (m : Mutation) : outcome arow :=
  match mutation m with
  | Mutation_SetCell fam col ts v =>
      match fams !! fam with
      | None => Panic
      | Some _ => let t := (resolve g ts (timestamp_origin m) now).1 in
                  Ret (aset a fam col t (mkCell t v []))
      end
  | Mutation_DeleteFromColumn fam col tr =>
      Ret (fun f q t =>
        if decide (f = fam /\ q = col /\ deletesTs tr t = true) then None else a f q t)
  | Mutation_DeleteFromFamily fam => Ret (fun f q t => if decide (f = fam) then None else a f q t)
  | Mutation_DeleteFromRow => Ret (fun _ _ _ => None)
  | Mutation_AddToCell fam q ts input =>
      match fams !! fam with
      | None => Panic
      | Some cf => spec_aggregate_step a cf fam q ts input g (timestamp_origin m) false
      end
  | Mutation_MergeToCell fam q ts input =>
      match fams !! fam with
      | None => Panic
      | Some cf => spec_aggregate_step a cf fam q ts input g (timestamp_origin m) true
      end
  | Mutation_nil => Err Unimplemented
  end.

Definition spec_mutations (a : arow) (muts : list Mutation) (fams : gmap bytes columnFamily)
    (g : granularity) (now : Z) : outcome arow :=
  foldM (spec_mutation fams g now) a muts.

(** ** Column writes *)

Lemma cellIndex_find cs ts :
  match cellIndex cs ts with
  | Some i => exists c, cs !! i = Some c /\ find_ts cs ts = Some c /\
      forall v, setValue cs i v = appendOrReplaceCell cs (mkCell ts v (Labels c))
  | None => find_ts cs ts = None
  end.
Proof.
  induction cs as [|c cs IH]; cbn; [done|]. destruct (Z.eqb_spec (Ts c) ts) as [E|E].
  - exists c. split_and!; auto. intros v. unfold setValue, appendOrReplaceCell. cbn.
    by rewrite E, Z.eqb_refl.
  - destruct (cellIndex cs ts) as [i|]; cbn; [|done].
    destruct IH as (c' & Hi & Hf & Hv). exists c'. split_and!; auto. intros v.
    specialize (Hv v). unfold setValue, appendOrReplaceCell in *. cbn.
    rewrite (proj2 (Z.eqb_neq _ _) E).
    destruct (replaceCell cs _) as [cs'|] eqn:Er; cbn; [by f_equal|].
    apply replaceCell_None in Er. cbn in Er. congruence.
Qed.

Lemma set_col_getOrCreate r name col order g :
  let '(r1, f) := getOrCreateFamily r name order in
  let '(f1, cs) := cellsByColumn f col in
  cs = cells_at r name col /\
  put_family r1 name (set_Cells f1 (<[col := g cs]> (Cells f1))) = set_col r name col order g.
Proof.
  unfold set_col. pose proof (getOrCreateFamily_spec r name order) as Hg.
  destruct (getOrCreateFamily r name order) as [r1 f].
  destruct Hg as (Hf & _ & Hcells & _).
  pose proof (cellsByColumn_spec f col) as Hc. destruct (cellsByColumn f col) as [f1 cs].
  destruct Hc as (-> & _). split; [|done].
  by rewrite <- Hcells, (cells_at_family _ _ _ _ Hf).
Qed.

Lemma set_col_const r name col order g :
  set_col r name col order (fun _ => g (cells_at r name col)) = set_col r name col order g.
Proof.
  pose proof (set_col_getOrCreate r name col order g) as H. unfold set_col.
  destruct (getOrCreateFamily r name order) as [r1 f].
  destruct (cellsByColumn f col) as [f1 cs]. by destruct H as [-> _].
Qed.

(** An aggregate mutation writes the cell of its specification. *)
Lemma applyAggregate_spec r cf fam q ts input g origin merge :
  let col := default [] (valueQualifier q) in
  let t := (resolve g (default 0 (valueTimestamp ts)) origin 0).1 in
  applyAggregate r cf fam q ts input g origin merge =
    (c ← spec_aggregate (familyAggregate cf) t input merge (find_ts (cells_at r fam col) t);
     Ret (set_col r fam col (cf_Order cf) (fun cs => appendOrReplaceCell cs c))).
Proof.
  cbn zeta. unfold applyAggregate. set (col := default [] (valueQualifier q)).
  set (t := (resolve g _ _ _).1).
  pose proof (fun c => set_col_getOrCreate r fam col (cf_Order cf) (fun cs => appendOrReplaceCell cs c))
    as H.
  destruct (getOrCreateFamily r fam (cf_Order cf)) as [r1 f].
  destruct (cellsByColumn f col) as [f1 cs].
  pose proof (H (mkCell 0 [] [])) as [-> _].
  assert (forall c, put_family r1 fam (set_Cells f1 (<[col := appendOrReplaceCell
    (cells_at r fam col) c]> (Cells f1))) =
    set_col r fam col (cf_Order cf) (fun cs => appendOrReplaceCell cs c)) as Hs
    by (intros c; by destruct (H c)).
  clear H. set (cs := cells_at r fam col) in *. unfold spec_aggregate.
  pose proof (cellIndex_find cs t) as Hi. destruct (cellIndex cs t) as [i|].
  - destruct Hi as (c & Hi & -> & Hv). rewrite Hi. cbn.
    destruct (bool_decide (familyAggregate cf = aggregateHLL)).
    + destruct (DecodeHLL (Value c)); [|done]. cbn.
      destruct merge; [destruct (DecodeHLL (rawBytesValue input)); [|done]|]; cbn; by rewrite Hv, Hs.
    + cbn. by rewrite Hv, Hs.
  - rewrite Hi. cbn. destruct (bool_decide (familyAggregate cf = aggregateHLL)).
    + destruct merge; [destruct (DecodeHLL (rawBytesValue input)); [|done]|]; cbn; by rewrite Hs.
    + cbn. by rewrite Hs.
Qed.

Lemma spec_aggregate_Ts kind ts input merge old c :
  spec_aggregate kind ts input merge old = Ret c -> Ts c = ts.
Proof.
  unfold spec_aggregate. destruct (bool_decide _); [|by intros [= <-]].
  intros E. outcome_case; try done.
  destruct merge; [destruct (DecodeHLL (rawBytesValue input)); [|done]|]; by simplify_eq.
Qed.

(** ** [deleteFromColumn] *)

Lemma dropColName_perm col cols : col ∈ cols -> cols ≡ₚ col :: dropColName col cols.
Proof.
  induction cols as [|c cols IH]; [by intros ?%not_elem_of_nil|].
  intros Hin. cbn. case_bool_decide as E; [by subst|].
  apply elem_of_cons in Hin as [->|Hin]; [done|]. rewrite (IH Hin) at 1.
  apply Permutation_swap.
Qed.

Lemma dropColName_notin col cols : col ∉ cols -> dropColName col cols = cols.
Proof.
  induction cols as [|c cols IH]; intros Hn; cbn; [done|].
  apply not_elem_of_cons in Hn as [Hne Hn]. rewrite bool_decide_eq_false_2 by done.
  by rewrite IH.
Qed.

Lemma dropColName_sublist col cols : dropColName col cols `sublist_of` cols.
Proof.
  induction cols as [|c cols IH]; cbn; [constructor|].
  case_bool_decide; [by apply sublist_cons|by apply sublist_skip].
Qed.

Lemma cols_ok_delete f col :
  cols_ok f -> dropColName col (ColNames f) = sort_strings (map_keys (delete col (Cells f))).
Proof.
  unfold cols_ok. intros ->. destruct (Cells f !! col) as [cs|] eqn:E; cycle 1.
  { rewrite delete_id by done. apply dropColName_notin.
    rewrite elem_of_sort_strings, elem_of_map_keys, E. by intros [? ?]. }
  assert (col ∈ sort_strings (map_keys (Cells f))) as Hin.
  { rewrite elem_of_sort_strings, elem_of_map_keys. eauto. }
  apply (sorted_unique_on bytes_leb).
  - intros x y _ _. apply bytes_leb_antisym.
  - eapply StronglySorted_sublist; [apply dropColName_sublist|apply sort_strings_sorted].
  - apply sort_strings_sorted.
  - apply (inj (cons col)). rewrite <- dropColName_perm by done.
    rewrite !sort_strings_perm. unfold map_keys.
    by rewrite <- (map_to_list_delete _ col cs E).
Qed.

Lemma find_ts_filter_ts (p : Z -> bool) cs t :
  find_ts (filter (fun c => p (Ts c) = false) cs) t = if p t then None else find_ts cs t.
Proof.
  induction cs as [|c cs IH]; [by destruct (p t)|]. rewrite filter_cons. cbn [find_ts].
  destruct (Z.eqb_spec (Ts c) t) as [E|E]; case_decide as Hp; cbn [find_ts].
  - rewrite (proj2 (Z.eqb_eq _ _) E). subst t. by rewrite Hp.
  - rewrite IH. subst t. by destruct (p (Ts c)).
  - rewrite (proj2 (Z.eqb_neq _ _) E). done.
  - done.
Qed.

(** The cells [deleteFromColumn] leaves in the column it addresses. *)
Definition delete_cells (tr : option TimestampRange) (cs : list cell) : list cell :=
  match tr with
  | Some tr => filter (fun c => inDeleteRange tr (Ts c) = false) cs
  | None => []
  end.

Lemma cells_at_deleteFromColumn r fam col tr f q :
  cells_at (deleteFromColumn r fam col tr) f q =
    if decide (f = fam /\ q = col) then delete_cells tr (cells_at r f q) else cells_at r f q.
Proof.
  unfold deleteFromColumn. destruct (families r !! fam) as [F|] eqn:EF; cycle 1.
  { case_decide as Hd; [|done]. destruct Hd as [-> ->]. rewrite cells_at_no_family by done.
    by destruct tr. }
  cbn zeta. fold (delete_cells tr (default [] (Cells F !! col))).
  assert (cells_at r fam col = default [] (Cells F !! col)) as Hc by by apply cells_at_family.
  rewrite <- Hc. destruct (delete_cells tr (cells_at r fam col)) as [|c cs] eqn:Ed.
  - destruct (decide (f = fam /\ q = col)) as [[-> ->]|Hn].
    + rewrite Ed. case_decide as Hm; unfold cells_at, put_family; cbn.
      * by rewrite lookup_delete_eq.
      * rewrite lookup_insert_eq. cbn. by rewrite lookup_delete_eq.
    + case_decide as Hm; unfold cells_at, put_family; cbn in *.
      * rewrite lookup_delete. case_decide as Hf; [|done]. subst f. rewrite EF. cbn.
        pose proof (f_equal (fun m => m !! q) Hm) as Hq. cbn in Hq.
        rewrite lookup_delete_ne, lookup_empty in Hq by naive_solver. by rewrite Hq.
      * rewrite lookup_insert. case_decide as Hf; [|done]. subst f. rewrite EF. cbn.
        rewrite lookup_delete_ne by naive_solver. done.
  - unfold cells_at, put_family; cbn. rewrite lookup_insert.
    destruct (decide (f = fam /\ q = col)) as [[-> ->]|Hn].
    + rewrite decide_True by done. cbn. rewrite lookup_insert_eq. cbn. by rewrite <- Ed, Hc, EF.
    + case_decide as Hf; [|done]. subst f. rewrite EF. cbn. rewrite lookup_insert_ne by naive_solver. done.
Qed.

Lemma deleteFromColumn_ok (P : list cell -> Prop) r fam col tr :
  (forall cs, P cs -> P (delete_cells tr cs)) ->
  row_ok P r -> row_ok P (deleteFromColumn r fam col tr).
Proof.
  intros HP Hr. unfold deleteFromColumn. destruct (families r !! fam) as [F|] eqn:EF; [|done].
  cbn zeta. fold (delete_cells tr (default [] (Cells F !! col))).
  apply Hr in EF as EF'. destruct EF' as (Hn & Hcols & Hne & HF).
  destruct (delete_cells tr (default [] (Cells F !! col))) as [|c cs] eqn:Ed.
  - case_decide as Hm; intros n f; unfold put_family; cbn in *.
    + rewrite lookup_delete_Some. intros [_ Hf]. by apply Hr.
    + rewrite lookup_insert. case_decide as Hf; [|apply Hr]. intros [= <-]. subst n. cbn.
      split; [done|]. split; [by apply cols_ok_delete|]. split; [done|].
      intros q cs. cbn. rewrite lookup_delete_Some. intros [_ Hq]. by apply HF in Hq.
  - intros n f. unfold put_family; cbn. rewrite lookup_insert. case_decide as Hf; [|apply Hr].
    intros [= <-]. subst n. split; [done|]. cbn.
    destruct (Cells F !! col) as [cs0|] eqn:Ec; cycle 1.
    { cbn in Ed. by destruct tr. }
    split; [|split].
    + unfold cols_ok in *. cbn. rewrite Hcols. apply map_keys_dom_eq. intros k.
      rewrite lookup_insert_is_Some. destruct (decide (col = k)); naive_solver.
    + cbn. apply insert_non_empty.
    + cbn. apply map_Forall_insert_2; [|done]. split; [done|]. rewrite <- Ed. cbn.
      apply HP. by apply HF in Ec as [_ ?].
Qed.

Lemma delete_cells_desc_lt tr cs : desc_lt cs -> desc_lt (delete_cells tr cs).
Proof.
  intros H. destruct tr; [|constructor].
  eapply StronglySorted_sublist; [|exact H]. apply sublist_filter.
Qed.

(** ** The engine implements the specification *)

Lemma set_cell_stored r fam col order c :
  stored_row r -> stored_row (set_col r fam col order (fun cs => appendOrReplaceCell cs c)).
Proof.
  intros H. apply set_col_ok; [done|apply appendOrReplaceCell_nonempty|].
  apply appendOrReplaceCell_desc_lt. by apply stored_cells.
Qed.

Lemma set_cell_represents r a fam col order c :
  represents r a ->
  represents (set_col r fam col order (fun cs => appendOrReplaceCell cs c)) (aset a fam col (Ts c) c).
Proof.
  intros H f q t. rewrite cells_at_set_col. unfold aset.
  destruct (decide (f = fam /\ q = col)) as [[-> ->]|Hn].
  - rewrite find_ts_appendOrReplaceCell. destruct (Z.eqb_spec (Ts c) t) as [<-|].
    + by rewrite decide_True.
    + rewrite decide_False by naive_solver. apply H.
  - rewrite decide_False by naive_solver. apply H.
Qed.

Lemma key_set_col r fam col order g : key (set_col r fam col order g) = key r.
Proof.
  unfold set_col. pose proof (getOrCreateFamily_spec r fam order) as Hg.
  destruct (getOrCreateFamily _ _ _), (cellsByColumn _ _). by destruct Hg as (_ & ? & _).
Qed.

Lemma key_deleteFromColumn r fam col tr : key (deleteFromColumn r fam col tr) = key r.
Proof.
  unfold deleteFromColumn. destruct (families r !! fam); [|done]. cbn zeta.
  repeat case_match; done.
Qed.

Lemma deleteFromFamily_ok P r fam :
  row_ok P r -> row_ok P (set_families r (delete fam (families r))).
Proof. intros H n f. cbn. rewrite lookup_delete_Some. intros [_ Hf]. by apply H. Qed.

Lemma applyMutation_simulation fams g now r ch a m :
  stored_row r -> represents r a ->
  match applyMutation fams g now (r, ch) m with
  | Ret (r', _) => stored_row r' /\ key r' = key r /\
      exists a', spec_mutation fams g now a m = Ret a' /\ represents r' a'
  | Err c => spec_mutation fams g now a m = Err c
  | Panic => spec_mutation fams g now a m = Panic
  end.
Proof.
  intros Hr Ha. unfold applyMutation, spec_mutation.
  assert (forall cf fam q ts input merge,
    match (r0 ← applyAggregate r cf fam q ts input g (timestamp_origin m) merge;
           Ret (r0, ch ++ [m])) with
    | Ret (r', _) => stored_row r' /\ key r' = key r /\
        exists a', spec_aggregate_step a cf fam q ts input g (timestamp_origin m) merge = Ret a'
          /\ represents r' a'
    | Err c => spec_aggregate_step a cf fam q ts input g (timestamp_origin m) merge = Err c
    | Panic => spec_aggregate_step a cf fam q ts input g (timestamp_origin m) merge = Panic
    end) as Hagg.
  { intros. rewrite applyAggregate_spec. unfold spec_aggregate_step. rewrite Ha.
    destruct (spec_aggregate _ _ _ _ _) as [c| |] eqn:E; cbn; try done.
    split; [by apply set_cell_stored|]. split; [apply key_set_col|].
    eexists. split; [done|]. apply spec_aggregate_Ts in E.
    pose proof (set_cell_represents r a fam (default [] (valueQualifier q)) (cf_Order cf) c Ha)
      as H. by rewrite E in H. }
  destruct (mutation m) as [|fam col ts v|fam col tr|fam| |fam q ts input|fam q ts input].
  - done.
  - destruct (fams !! fam) as [cf|]; [|done]. split; [by apply set_cell_stored|]. split; [apply key_set_col|].
    eexists. split; [done|].
    by apply (set_cell_represents _ _ _ _ _ (mkCell (resolve g ts (timestamp_origin m) now).1 v [])).
  - split; [apply deleteFromColumn_ok; [apply delete_cells_desc_lt|done]|].
    split; [apply key_deleteFromColumn|].
    + eexists. split; [done|]. intros f q t. cbn. rewrite cells_at_deleteFromColumn, <- (Ha f q t).
      destruct (decide (f = fam /\ q = col)) as [[-> ->]|Hn].
      * destruct tr as [tr|]; cbn.
        -- rewrite find_ts_filter_ts. destruct (inDeleteRange tr t);
             [by rewrite decide_True|by rewrite decide_False by naive_solver].
        -- by rewrite decide_True.
      * by rewrite decide_False by naive_solver.
  - split; [by apply deleteFromFamily_ok|]. split; [done|]. eexists. split; [done|].
    intros f q t. cbn. rewrite <- Ha. unfold cells_at. cbn. rewrite lookup_delete.
    destruct (decide (fam = f)), (decide (f = fam)); done || congruence.
  - split; [intros n f; cbn; by rewrite lookup_empty|]. split; [done|].
    eexists. split; [done|]. intros f q t. done.
  - destruct (fams !! fam); [apply Hagg|done].
  - destruct (fams !! fam); [apply Hagg|done].
Qed.

#[local] Arguments applyMutation : simpl never.
#[local] Arguments spec_mutation : simpl never.

Lemma applyMutations_simulation fams g now muts r ch a :
  stored_row r -> represents r a ->
  match foldM (applyMutation fams g now) (r, ch) muts with
  | Ret (r', _) => stored_row r' /\ key r' = key r /\
      exists a', spec_mutations a muts fams g now = Ret a' /\ represents r' a'
  | Err c => spec_mutations a muts fams g now = Err c
  | Panic => spec_mutations a muts fams g now = Panic
  end.
Proof.
  revert r ch a. induction muts as [|m muts IH]; intros r ch a Hr Ha; cbn.
  { split_and!; auto. exists a. done. }
  pose proof (applyMutation_simulation fams g now r ch a m Hr Ha) as H.
  destruct (applyMutation fams g now (r, ch) m) as [[r1 ch1]| |]; cbn.
  - destruct H as (Hr1 & Hk1 & a1 & -> & Ha1). cbn. specialize (IH r1 ch1 a1 Hr1 Ha1).
    destruct (foldM _ (r1, ch1) muts) as [[r' ch']| |]; try done.
    destruct IH as (? & ? & ?). split_and!; [done|congruence|done].
  - by rewrite H.
  - by rewrite H.
Qed.

(** ** Validated mutations succeed *)

(** Every cell of an HLL++ family is a sketch. *)
Definition hll_cells (fams : gmap bytes columnFamily) (r : row) : Prop :=
  forall fam cf col c, fams !! fam = Some cf -> familyAggregate cf = aggregateHLL ->
    c ∈ cells_at r fam col -> exists h, DecodeHLL (Value c) = Some h /\ hll_ok h.

(** The bytes of a MergeToCell input are bytes. *)
Definition mutation_bytes (m : Mutation) : Prop :=
  match mutation m with
  | Mutation_MergeToCell _ _ _ input => all_bytes (rawBytesValue input)
  | _ => True
  end.

Lemma elem_of_appendOrReplaceCell cs c x :
  x ∈ appendOrReplaceCell cs c -> x = c \/ x ∈ cs.
Proof.
  unfold appendOrReplaceCell. destruct (replaceCell cs c) eqn:E.
  - apply replaceCell_Some in E as (l1 & c0 & l2 & -> & -> & _).
    rewrite !elem_of_app, !elem_of_cons. tauto.
  - rewrite sort_cells_perm, elem_of_app, list_elem_of_singleton. tauto.
Qed.

Lemma set_cell_hll_cells fams r fam col order c :
  hll_cells fams r ->
  (forall cf, fams !! fam = Some cf -> familyAggregate cf = aggregateHLL ->
     exists h, DecodeHLL (Value c) = Some h /\ hll_ok h) ->
  hll_cells fams (set_col r fam col order (fun cs => appendOrReplaceCell cs c)).
Proof.
  intros H Hc f cf q x Hcf Hk. rewrite cells_at_set_col.
  case_decide as Hd; [|by apply (H f cf)]. destruct Hd as [-> ->].
  intros [->|Hx]%elem_of_appendOrReplaceCell; [by apply (Hc cf)|by apply (H fam cf col)].
Qed.

Lemma hll_cells_subset fams r r' :
  (forall f q x, x ∈ cells_at r' f q -> x ∈ cells_at r f q) -> hll_cells fams r -> hll_cells fams r'.
Proof. intros Hs H f cf q x Hf Hk Hx. by apply (H f cf q), Hs. Qed.

Lemma delete_cells_subset tr cs x : x ∈ delete_cells tr cs -> x ∈ cs.
Proof.
  destruct tr; cbn; [|by intros ?%not_elem_of_nil]. by intros [_ ?]%list_elem_of_filter.
Qed.

(** A validated aggregate mutation has a cell to write. *)
Lemma spec_aggregate_total fams g fam q ts input origin merge old :
  validateAggregateMutation fam q ts input fams g origin merge = Ret tt ->
  (merge = true -> all_bytes (rawBytesValue input)) ->
  exists cf, fams !! fam = Some cf /\
  ((familyAggregate cf = aggregateHLL ->
      forall c, old = Some c -> exists h, DecodeHLL (Value c) = Some h /\ hll_ok h) ->
   exists c, spec_aggregate (familyAggregate cf)
      (resolve g (default 0 (valueTimestamp ts)) origin 0).1 input merge old = Ret c /\
      (familyAggregate cf = aggregateHLL -> exists h, DecodeHLL (Value c) = Some h /\ hll_ok h)).
Proof.
  unfold validateAggregateMutation. destruct (fams !! fam) as [cf|]; [|done]. intros Hv Hb.
  exists cf. split; [done|]. intros Hold.
  case_bool_decide; [done|]. destruct (valueQualifier q); [|done].
  destruct (negb _) eqn:?; [done|]. unfold spec_aggregate.
  case_bool_decide as Hk; [|by eexists].
  specialize (Hold Hk).
  assert (exists h, (match old with
         | Some c => match DecodeHLL (Value c) with
                     | Some h => Ret h | None => Err FailedPrecondition end
         | None => Ret NewHLL
         end : outcome HLL) = Ret h /\ hll_ok h) as (h & -> & Hh).
  { destruct old as [c|]; [|eauto using NewHLL_ok].
    destruct (Hold c eq_refl) as (h & -> & Hh). eauto. }
  cbn. destruct merge.
  - destruct (DecodeHLL (rawBytesValue input)) as [o|] eqn:Eo; [|done].
    apply DecodeHLL_ok in Eo; [|auto]. eexists. split; [done|]. intros _. cbn.
    exists (HLL_Merge h o). destruct (HLL_Merge_ok h o Hh Eo) as [Hok _].
    by rewrite DecodeHLL_Encode.
  - eexists. split; [done|]. intros _. cbn.
    exists (HLL_Add h (default [] (HLLInputBytes input))).
    destruct (HLL_Add_ok h (default [] (HLLInputBytes input)) Hh) as [Hok _].
    by rewrite DecodeHLL_Encode.
Qed.

Lemma applyAggregate_total fams g r fam q ts input origin merge :
  validateAggregateMutation fam q ts input fams g origin merge = Ret tt ->
  (merge = true -> all_bytes (rawBytesValue input)) -> hll_cells fams r ->
  exists cf r', fams !! fam = Some cf /\
    applyAggregate r cf fam q ts input g origin merge = Ret r' /\ hll_cells fams r'.
Proof.
  intros Hv Hb Hh.
  destruct (spec_aggregate_total fams g fam q ts input origin merge
    (find_ts (cells_at r fam (default [] (valueQualifier q)))
       (resolve g (default 0 (valueTimestamp ts)) origin 0).1) Hv Hb) as (cf & Hcf & Hc).
  destruct Hc as (c & Hc & Hck).
  { intros Hk c [Hin _]%find_ts_Some. by eapply (Hh fam cf). }
  exists cf. eexists. split; [done|]. rewrite applyAggregate_spec, Hc. cbn. split; [done|].
  apply set_cell_hll_cells; [done|]. intros cf' Hcf'. by simplify_eq.
Qed.

Lemma applyMutation_total fams g now r ch m :
  hll_cells fams r -> validateMutation m fams g = Ret tt -> mutation_bytes m ->
  exists r' ch', applyMutation fams g now (r, ch) m = Ret (r', ch') /\ hll_cells fams r'.
Proof.
  intros Hh Hv Hb. unfold applyMutation, validateMutation, mutation_bytes in *.
  destruct (mutation m) as [|fam col ts v|fam col tr|fam| |fam q ts input|fam q ts input]; [done|..].
  - destruct (fams !! fam) as [cf|] eqn:Hcf; [|done]. do 2 eexists. split; [done|].
    apply set_cell_hll_cells; [done|]. intros cf' ? Hk. simplify_eq.
    rewrite Hk in Hv. done.
  - do 2 eexists. split; [done|]. eapply hll_cells_subset; [|exact Hh].
    intros f q x. rewrite cells_at_deleteFromColumn. case_decide; [apply delete_cells_subset|done].
  - do 2 eexists. split; [done|]. eapply hll_cells_subset; [|exact Hh].
    intros f q x. unfold cells_at. cbn. rewrite lookup_delete. case_decide; [|done].
    by intros ?%not_elem_of_nil.
  - do 2 eexists. split; [done|]. eapply hll_cells_subset; [|exact Hh].
    intros f q x. unfold cells_at. cbn. by intros ?%not_elem_of_nil.
  - destruct (applyAggregate_total fams g r fam q ts input (timestamp_origin m) false Hv)
      as (cf & r' & -> & -> & ?); [done..|]. cbn. eauto.
  - destruct (applyAggregate_total fams g r fam q ts input (timestamp_origin m) true Hv)
      as (cf & r' & -> & -> & ?); [done..|]. cbn. eauto.
Qed.

Lemma validateMutations_Forall muts fams g :
  validateMutations muts fams g = Ret tt ->
  muts <> [] /\ Forall (fun m => validateMutation m fams g = Ret tt) muts.
Proof.
  unfold validateMutations. destruct (Nat.eqb (length muts) 0) eqn:E; [done|].
  destruct (_ <? _); [done|]. intros H. split; [by intros ->|]. clear E.
  induction muts as [|m muts IH]; [constructor|]. cbn in H.
  destruct (validateMutation m fams g) as [[]| |] eqn:Em; try done. constructor; auto.
Qed.

Lemma foldM_validated fams g now muts r ch :
  hll_cells fams r -> Forall (fun m => validateMutation m fams g = Ret tt) muts ->
  Forall mutation_bytes muts ->
  exists r' ch', foldM (applyMutation fams g now) (r, ch) muts = Ret (r', ch') /\ hll_cells fams r'.
Proof.
  intros Hh Hv Hb. revert r ch Hh. induction Hv as [|m muts Hm _ IH]; intros r ch Hh; cbn; [eauto|].
  apply Forall_cons in Hb as [Hbm Hb].
  destruct (applyMutation_total fams g now r ch m Hh Hm Hbm) as (r1 & ch1 & -> & Hh1). cbn.
  by apply IH.
Qed.

(** ** Change records replay *)

Lemma valid_nonneg g ts : valid g ts = true -> 0 <= ts.
Proof. unfold valid, validTimestamp, minValidMilliSeconds. destruct (micros g); lia. Qed.

(** A resolved timestamp resolves to itself, whatever the clock. *)
Lemma resolve_fixed g ts origin now now' :
  (resolve g ts origin 0).2 = true -> 0 <= now ->
  (resolve g (resolve g ts origin now).1 ORIGIN_UNSPECIFIED now').1 = (resolve g ts origin now).1.
Proof.
  unfold resolve. destruct (Z.eqb_spec ts (-1)) as [->|Hts]; cbn.
  - intros _ Hn. destruct (Z.eqb_spec now (-1)); [lia|]. done.
  - intros Hv%valid_nonneg _. set (t := if _ && _ && _ then _ else ts) in *.
    destruct (Z.eqb_spec t (-1)); [lia|]. done.
Qed.

Lemma replay_deletes fams g now (l : list family) r ch :
  foldM (applyMutation fams g now) (r, ch)
    ((fun f => mut (Mutation_DeleteFromFamily (Name f))) <$> l) =
  Ret (set_families r (foldl (fun m f => delete (Name f) m) (families r) l),
       ch ++ ((fun f => mut (Mutation_DeleteFromFamily (Name f))) <$> l)).
Proof.
  revert r ch. induction l as [|f l IH]; intros r ch.
  { cbn. rewrite app_nil_r. by destruct r. }
  rewrite fmap_cons. cbn [foldM foldl].
  change (applyMutation fams g now (r, ch) (mut (Mutation_DeleteFromFamily (Name f)))) with
    (Ret (set_families r (delete (Name f) (families r)), ch ++ [mut (Mutation_DeleteFromFamily (Name f))])).
  cbn [mbind outcome_bind]. rewrite IH. by rewrite <- app_assoc.
Qed.

Lemma foldl_delete_lookup (l : list family) (m : gmap bytes family) n :
  foldl (fun m f => delete (Name f) m) m l !! n = if decide (n ∈ Name <$> l) then None else m !! n.
Proof.
  revert m. induction l as [|f l IH]; intros m; cbn [foldl]; [done|]. rewrite IH, fmap_cons.
  destruct (decide (n ∈ Name <$> l)).
  - by rewrite decide_True by by right.
  - rewrite lookup_delete. destruct (decide (Name f = n)) as [<-|Hne].
    + by rewrite decide_True by left.
    + rewrite decide_False; [done|]. intros [|]%elem_of_cons; congruence.
Qed.

Lemma delete_all_families r :
  names_ok r -> foldl (fun m f => delete (Name f) m) (families r) (sortedFamilies r) = ∅.
Proof.
  intros Hn. apply map_eq. intros n. rewrite foldl_delete_lookup, lookup_empty.
  case_decide as Hd; [done|]. destruct (families r !! n) as [f|] eqn:E; [|done]. destruct Hd.
  apply Hn in E as E'. rewrite <- E'. apply list_elem_of_fmap_2.
  apply elem_of_sortedFamilies; [done|]. by rewrite E'.
Qed.

Lemma applyMutation_replay fams g now now' r ch m r' ch' ch0 :
  names_ok r -> validateMutation m fams g = Ret tt -> 0 <= now ->
  applyMutation fams g now (r, ch) m = Ret (r', ch') ->
  exists d, ch' = ch ++ d /\ foldM (applyMutation fams g now') (r, ch0) d = Ret (r', ch0 ++ d).
Proof.
  intros Hn Hv Hnow. unfold applyMutation at 1. unfold validateMutation in Hv.
  assert (forall f, (r0 ← f; Ret (r0, ch ++ [m])) = Ret (r', ch') -> f = Ret r' /\ ch' = ch ++ [m])
    as Hagg.
  { intros [r0| |]; cbn; [|done..]. by intros [= -> ->]. }
  destruct (mutation m) as [|fam col ts v|fam col tr|fam| |fam q ts input|fam q ts input] eqn:Em;
    [done|..].
  - destruct (fams !! fam) as [cf|] eqn:Hcf; [|done]. intros [= <- <-].
    eexists. split; [done|]. cbn [foldM]. unfold applyMutation. cbn. rewrite Hcf. cbn.
    destruct (negb (bool_decide _)); [done|]. destruct (resolve g ts _ 0).2 eqn:Er; [|done].
    by rewrite resolve_fixed.
  - intros [= <- <-]. exists [m]. split; [done|]. cbn [foldM]. unfold applyMutation. by rewrite Em.
  - intros [= <- <-]. exists [m]. split; [done|]. cbn [foldM]. unfold applyMutation. by rewrite Em.
  - intros [= <- <-]. eexists. split; [done|]. rewrite replay_deletes. by rewrite delete_all_families.
  - destruct (fams !! fam) as [cf|] eqn:Hcf; [|done]. intros [Ha ->]%Hagg. exists [m].
    split; [done|]. cbn [foldM]. unfold applyMutation. by rewrite Em, Hcf, Ha.
  - destruct (fams !! fam) as [cf|] eqn:Hcf; [|done]. intros [Ha ->]%Hagg. exists [m].
    split; [done|]. cbn [foldM]. unfold applyMutation. by rewrite Em, Hcf, Ha.
Qed.

Lemma applyMutation_stored fams g now r ch m r' ch' :
  stored_row r -> applyMutation fams g now (r, ch) m = Ret (r', ch') -> stored_row r' /\ key r' = key r.
Proof.
  intros Hr E. pose proof (applyMutation_simulation fams g now r ch
    (fun f q t => find_ts (cells_at r f q) t) m Hr ltac:(done)) as H.
  rewrite E in H. by destruct H as (? & ? & _).
Qed.

Lemma applyMutations_stored fams g now muts r r' ch :
  stored_row r -> applyMutations r muts fams g now = Ret (r', ch) -> stored_row r' /\ key r' = key r.
Proof.
  intros Hr E. pose proof (applyMutations_simulation fams g now muts r []
    (fun f q t => find_ts (cells_at r f q) t) Hr ltac:(done)) as H.
  unfold applyMutations in E. rewrite E in H. by destruct H as (? & ? & _).
Qed.

Lemma foldM_replay fams g now now' muts r ch ch0 r' ch' :
  stored_row r -> Forall (fun m => validateMutation m fams g = Ret tt) muts -> 0 <= now ->
  foldM (applyMutation fams g now) (r, ch) muts = Ret (r', ch') ->
  exists d, ch' = ch ++ d /\ foldM (applyMutation fams g now') (r, ch0) d = Ret (r', ch0 ++ d).
Proof.
  intros Hr Hv Hnow. revert r ch ch0 Hr. induction Hv as [|m muts Hm _ IH]; intros r ch ch0 Hr E; cbn in E.
  { simplify_eq. exists []. by rewrite !app_nil_r. }
  destruct (applyMutation fams g now (r, ch) m) as [[r1 ch1]| |] eqn:E1; try done. cbn in E.
  apply applyMutation_stored in E1 as E1'; [|done]. destruct E1' as [Hr1 _].
  apply (applyMutation_replay _ _ _ now' _ _ _ _ _ ch0) in E1 as (d1 & -> & Hd1);
    [|eauto with lbt|done|done].
  apply (IH r1 _ (ch0 ++ d1) Hr1) in E as (d2 & -> & Hd2).
  exists (d1 ++ d2). split; [by rewrite app_assoc|]. rewrite foldM_app, Hd1. cbn. by rewrite Hd2, app_assoc.
Qed.

(** ** Properties *)

(** A table with one plain and one summing family, for concrete instances. *)
Module SampleTable.
Definition fams : gmap bytes columnFamily :=
  {[ [97] := mkColumnFamily [97] 2 None None;
     [98] := mkColumnFamily [98] 1 None (Some (Type_Aggregate (Type_Int64 false) Aggregator_Sum)) ]}.
Definition g : granularity := mkGranularity false.
Definition muts : list Mutation :=
  [mut (Mutation_SetCell [97] [113] 5000 [7]);
   mut (Mutation_DeleteFromColumn [97] [113] (Some (mkTimestampRange 1000 2000)));
   mut (Mutation_AddToCell [98] (Value_RawValue [113]) (Value_RawTimestampMicros 3000) (Value_IntValue 4))].
Lemma muts_valid : validateMutations muts fams g = Ret tt.
Proof. by vm_compute. Qed.
Lemma muts_bytes : Forall mutation_bytes muts.
Proof. repeat constructor. Qed.
Lemma no_hll r : hll_cells fams r.
Proof.
  intros fam cf col c Hcf Hk. unfold fams in Hcf.
  apply lookup_insert_Some in Hcf as [[_ <-]|[_ [_ <-]%lookup_singleton_Some]]; done.
Qed.
End SampleTable.

(** C2: [applyMutations] implements the pointwise specification of a mutation
    list: on a stored row that represents a partial map from (family,
    qualifier, timestamp) to cells, it fails exactly when the specification
    fails and with the same error, and otherwise returns a stored row with the
    same key that represents the specified map. *)
Theorem applyMutations_refines fams g now muts r a :
  stored_row r -> represents r a ->
  match applyMutations r muts fams g now with
  | Ret (r', _) => stored_row r' /\ key r' = key r /\
      exists a', spec_mutations a muts fams g now = Ret a' /\ represents r' a'
  | Err c => spec_mutations a muts fams g now = Err c
  | Panic => spec_mutations a muts fams g now = Panic
  end.
Proof. apply applyMutations_simulation. Qed.

Lemma applyMutations_refines_witness :
  let a : arow := fun fam col ts => find_ts (cells_at Sample.row1 fam col) ts in
  match applyMutations Sample.row1 SampleTable.muts SampleTable.fams SampleTable.g 9000 with
  | Ret (r', _) => stored_row r' /\ key r' = key Sample.row1 /\
      exists a', spec_mutations a SampleTable.muts SampleTable.fams SampleTable.g 9000 = Ret a' /\
        represents r' a'
  | Err c => spec_mutations a SampleTable.muts SampleTable.fams SampleTable.g 9000 = Err c
  | Panic => spec_mutations a SampleTable.muts SampleTable.fams SampleTable.g 9000 = Panic
  end.
Proof. cbn zeta. apply applyMutations_refines; [apply Sample.row1_stored|intros fam col ts; reflexivity]. Defined.

(** A mutation list that [validateMutations] accepts is applied without
    error and without dereferencing a missing family, whatever the clock; the
    row stays stored and keeps its key, and every cell of an HLL++ family
    stays a decodable sketch. *)
Theorem validated_mutations_apply fams g now muts r :
  validateMutations muts fams g = Ret tt -> Forall mutation_bytes muts ->
  stored_row r -> hll_cells fams r ->
  exists r' changes, applyMutations r muts fams g now = Ret (r', changes) /\
    stored_row r' /\ key r' = key r /\ hll_cells fams r'.
Proof.
  intros Hv Hb Hr Hh. apply validateMutations_Forall in Hv as [_ Hv].
  destruct (foldM_validated fams g now muts r [] Hh Hv Hb) as (r' & ch & E & Hh').
  exists r', ch. split; [done|]. destruct (applyMutations_stored _ _ _ _ _ _ _ Hr E). auto.
Qed.

Lemma validated_mutations_apply_witness :
  exists r' changes, applyMutations Sample.row1 SampleTable.muts SampleTable.fams SampleTable.g 9000 =
      Ret (r', changes) /\
    stored_row r' /\ key r' = key Sample.row1 /\ hll_cells SampleTable.fams r'.
Proof.
  apply validated_mutations_apply; [apply SampleTable.muts_valid|apply SampleTable.muts_bytes|
    apply Sample.row1_stored|apply SampleTable.no_hll].
Defined.

(** C32: The change records of an accepted mutation list are a redo log: applied
    at any later clock reading to the row the list started from, they give
    the same row, and the change records of that replay are the records
    themselves. *)
Theorem mutation_changes_replay fams g now now' muts r r' changes :
  validateMutations muts fams g = Ret tt -> stored_row r -> 0 <= now ->
  applyMutations r muts fams g now = Ret (r', changes) ->
  applyMutations r changes fams g now' = Ret (r', changes).
Proof.
  intros Hv Hr Hnow E. apply validateMutations_Forall in Hv as [_ Hv].
  by apply (foldM_replay _ _ _ now' _ _ _ [] _ _ Hr Hv Hnow) in E as (d & -> & Hd).
Qed.

Lemma mutation_changes_replay_witness :
  exists r' changes,
    applyMutations Sample.row1 SampleTable.muts SampleTable.fams SampleTable.g 9000 = Ret (r', changes) /\
    applyMutations Sample.row1 changes SampleTable.fams SampleTable.g 12345 = Ret (r', changes).
Proof.
  eexists _, _. split; [vm_compute; reflexivity|].
  eapply (mutation_changes_replay _ _ 9000 _ SampleTable.muts);
    [apply SampleTable.muts_valid|apply Sample.row1_stored|lia|vm_compute; reflexivity].
Defined.
