(* ===== verification/GcReplay.v ===== *)
(** * Garbage-collection changes as a redo log

    [row.gcWithChanges] (inmem.go) reports each collected cell as a
    DeleteFromColumn over [[Ts, Ts+1000)], the form in which the change stream
    publishes it.  On millisecond timestamps replaying the reported mutations
    with the mutation engine reproduces the collected row; on microsecond
    timestamps the range is too wide. *)

From S2P Require Import Prelude Proto Rows Gc Hll Mutations.
From stdpp Require Import base list gmap sorting.
From Stdlib Require Import ZArith Lia.

#[local] Open Scope Z_scope.
#[local] Arguments applyMutation : simpl never.

(** The timestamps a MILLIS table stores, below the last millisecond. *)
Definition millis_cells (cs : list cell) : Prop :=
  Forall (fun c => 0 <= Ts c /\ Ts c + 1000 <= int64_max /\ Ts c mod 1000 = 0) cs.

Definition millis_row (r : row) : Prop := forall fam col, millis_cells (cells_at r fam col).

(** Replaying a list of DeleteFromColumn mutations. *)
Definition replay_deletions (r : row) (dels : list (bytes * bytes * TimestampRange)) : row :=
  foldl (fun r '(fam, col, tr) => deleteFromColumn r fam col (Some tr)) r dels.

Definition deletion (d : bytes * bytes * TimestampRange) : Mutation :=
  let '(fam, col, tr) := d in mut (Mutation_DeleteFromColumn fam col (Some tr)).

Lemma foldM_deletions fams g now dels r ch :
  foldM (applyMutation fams g now) (r, ch) (deletion <$> dels) =
    Ret (replay_deletions r dels, ch ++ (deletion <$> dels)).
Proof.
  revert r ch. induction dels as [|[[fam col] tr] dels IH]; intros r ch.
  { cbn. by rewrite app_nil_r. }
  rewrite fmap_cons. cbn [foldM].
  change (applyMutation fams g now (r, ch) (deletion (fam, col, tr))) with
    (Ret (deleteFromColumn r fam col (Some tr), ch ++ [deletion (fam, col, tr)])).
  cbn [mbind outcome_bind]. rewrite IH. by rewrite <- app_assoc.
Qed.

(** The deletions of a list that address a column. *)
Definition hits (dels : list (bytes * bytes * TimestampRange)) (fam col : bytes) (ts : Z) : bool :=
  existsb (fun '(f, q, tr) =>
    bool_decide (f = fam) && bool_decide (q = col) && inDeleteRange tr ts) dels.

Lemma cells_at_replay dels r fam col :
  cells_at (replay_deletions r dels) fam col =
    filter (fun c => hits dels fam col (Ts c) = false) (cells_at r fam col).
Proof.
  revert r. induction dels as [|[[f q] tr] dels IH]; intros r.
  { cbn. induction (cells_at r fam col) as [|c cs IHc]; [done|].
    rewrite filter_cons_True by done. by rewrite <- IHc. }
  unfold replay_deletions in *. cbn [foldl]. rewrite IH, cells_at_deleteFromColumn.
  destruct (decide (fam = f /\ col = q)) as [[-> ->]|Hn]; cbn [hits existsb delete_cells].
  - rewrite list_filter_filter. apply list_filter_iff. intros c.
    rewrite !bool_decide_eq_true_2 by done. cbn.
    unfold hits. destruct (inDeleteRange tr (Ts c)); cbn; naive_solver.
  - apply list_filter_iff. intros c. unfold hits.
    destruct (bool_decide (f = fam)) eqn:E1, (bool_decide (q = col)) eqn:E2; cbn; try done.
    apply bool_decide_eq_true in E1, E2. naive_solver.
Qed.

Lemma replay_deletions_stored dels r :
  stored_row r -> stored_row (replay_deletions r dels) /\ key (replay_deletions r dels) = key r.
Proof.
  unfold replay_deletions. revert r. induction dels as [|[[f q] tr] dels IH]; intros r Hr; [done|].
  cbn [foldl]. destruct (IH (deleteFromColumn r f q (Some tr))) as [? Hk].
  - apply deleteFromColumn_ok; [apply delete_cells_desc_lt|done].
  - by rewrite Hk, key_deleteFromColumn.
Qed.

(** The deletions [gc_changes] lists, as data. *)
Definition gc_deletions (rules : gmap bytes GcRule) (now : Z) (r : row)
    : list (bytes * bytes * TimestampRange) :=
  sortedFamilies r ≫= fun fam =>
    match rules !! Name fam with
    | None => []
    | Some rule => ColNames fam ≫= fun col =>
        (fun c => (Name fam, col, mkTimestampRange (Ts c) (wrap64 (Ts c + 1000)))) <$>
          gc_drop rule now 0 (default [] (Cells fam !! col))
    end.

Lemma list_bind_fmap_out {A B C} (g : B -> C) (h : A -> list B) (l : list A) :
  g <$> (l ≫= h) = l ≫= fun x => g <$> h x.
Proof. induction l as [|x l IH]; [done|]. by rewrite !bind_cons, fmap_app, IH. Qed.

Lemma gc_changes_deletions rules now r :
  gc_changes rules now r = deletion <$> gc_deletions rules now r.
Proof.
  unfold gc_changes, gc_deletions. rewrite list_bind_fmap_out. apply list_bind_ext; [|done].
  intros fam. destruct (rules !! Name fam); [|done].
  rewrite list_bind_fmap_out. apply list_bind_ext; [|done]. intros col.
  by rewrite <- list_fmap_compose.
Qed.

Lemma elem_of_gc_deletions P rules now r fam col tr :
  row_ok P r ->
  (fam, col, tr) ∈ gc_deletions rules now r <->
  exists rule d, rules !! fam = Some rule /\ d ∈ gc_drop rule now 0 (cells_at r fam col) /\
    tr = mkTimestampRange (Ts d) (wrap64 (Ts d + 1000)).
Proof.
  intros Hr. unfold gc_deletions. rewrite list_elem_of_bind. split.
  - intros (f & Hin & Hf). apply elem_of_sortedFamilies in Hf; [|eauto with lbt].
    destruct (rules !! Name f) as [rule|] eqn:Er; [|by apply not_elem_of_nil in Hin].
    apply list_elem_of_bind in Hin as (q & Hin & Hq).
    apply list_elem_of_fmap in Hin as (d & [= -> -> ->] & Hd).
    exists rule, d. split_and!; auto. by rewrite (cells_at_family _ _ _ _ Hf).
  - intros (rule & d & Er & Hd & ->).
    destruct (families r !! fam) as [f|] eqn:Ef; cycle 1.
    { rewrite cells_at_no_family in Hd by done. by apply not_elem_of_nil in Hd. }
    apply Hr in Ef as Ef'. destruct Ef' as (Hn & Hc & _).
    exists f. split; [|apply elem_of_sortedFamilies; [eauto with lbt|by rewrite Hn]].
    rewrite Hn, Er. apply list_elem_of_bind. rewrite (cells_at_family _ _ _ _ Ef) in Hd.
    exists col. split; [apply list_elem_of_fmap; eauto|].
    rewrite Hc, elem_of_sort_strings, elem_of_map_keys.
    destruct (Cells f !! col); [eauto|]. by apply not_elem_of_nil in Hd.
Qed.

Lemma gc_drop_subset rule now i cs c : c ∈ gc_drop rule now i cs -> c ∈ cs.
Proof.
  intros H. rewrite <- (gc_keep_drop_perm rule now i cs). apply elem_of_app. by right.
Qed.

(** Filtering out exactly the dropped cells leaves the kept ones. *)
Lemma filter_not_dropped rule now i cs (p : cell -> bool) :
  NoDup cs -> (forall c, c ∈ cs -> p c = true <-> c ∈ gc_drop rule now i cs) ->
  filter (fun c => p c = false) cs = gc_keep rule now i cs.
Proof.
  revert i. induction cs as [|c cs IH]; intros i Hnd Hp; [done|].
  apply NoDup_cons in Hnd as [Hni Hnd]. cbn [gc_keep gc_drop] in *.
  assert (filter (fun c => p c = false) cs = gc_keep rule now (S i) cs) as Hrest.
  { apply IH; [done|]. intros x Hx. rewrite Hp by by right.
    destruct (gc_eligible rule now i c); [|done]. rewrite elem_of_cons.
    split; [intros [->|]; done|by right]. }
  specialize (Hp c ltac:(left)). rewrite filter_cons. rewrite Hrest.
  destruct (gc_eligible rule now i c).
  - rewrite decide_False; [done|]. rewrite (proj2 Hp); [done|left].
  - rewrite decide_True; [done|]. destruct (p c); [|done].
    destruct Hni. eapply gc_drop_subset. by apply Hp.
Qed.

Lemma millis_in_range c d :
  0 <= Ts d -> Ts d + 1000 <= int64_max -> Ts d mod 1000 = 0 -> Ts c mod 1000 = 0 ->
  inDeleteRange (mkTimestampRange (Ts d) (wrap64 (Ts d + 1000))) (Ts c) = true <-> Ts c = Ts d.
Proof.
  intros H0 Hmax Hd Hc. unfold inDeleteRange. cbn.
  rewrite wrap64_id by (unfold is_int64, int64_min, int64_max in *; lia).
  assert (Ts c = 1000 * (Ts c / 1000)) by (rewrite (Z.div_mod (Ts c) 1000) at 1; lia).
  assert (Ts d = 1000 * (Ts d / 1000)) by (rewrite (Z.div_mod (Ts d) 1000) at 1; lia).
  lia.
Qed.

Lemma replay_column r rules now fam col :
  stored_row r -> millis_row r ->
  cells_at (replay_deletions r (gc_deletions rules now r)) fam col =
    gc_col rules now fam (cells_at r fam col).
Proof.
  intros Hr Hm. rewrite cells_at_replay. set (cs := cells_at r fam col).
  pose proof (stored_cells r fam col Hr) as [_ Hnd]%desc_lt_NoDup. fold cs in Hnd.
  specialize (Hm fam col). fold cs in Hm. unfold millis_cells in Hm.
  rewrite list.Forall_forall in Hm.
  assert (forall c, c ∈ cs -> hits (gc_deletions rules now r) fam col (Ts c) = true <->
    exists rule, rules !! fam = Some rule /\ c ∈ gc_drop rule now 0 cs) as Hhit.
  { intros c Hc. unfold hits. rewrite existsb_exists. split.
    - intros ([[f q] tr] & Hin & Hb). apply list_elem_of_In in Hin.
      rewrite !andb_true_iff, !bool_decide_eq_true in Hb. destruct Hb as [[-> ->] Hb].
      apply (elem_of_gc_deletions _ _ _ _ _ _ _ Hr) in Hin as (rule & d & Er & Hd & ->).
      exists rule. split; [done|]. apply gc_drop_subset in Hd as Hd'. fold cs in Hd, Hd'.
      destruct (Hm d Hd') as (? & ? & ?). destruct (Hm c Hc) as (_ & _ & ?).
      apply millis_in_range in Hb; auto.
      replace c with d; [done|]. apply (f_equal Some), eq_sym in Hb.
      apply find_ts_unique in Hc as Fc; [|done]. apply find_ts_unique in Hd' as Fd; [|done].
      simplify_eq. rewrite Hb in Fd. congruence.
    - intros (rule & Er & Hd). exists (fam, col, mkTimestampRange (Ts c) (wrap64 (Ts c + 1000))).
      split.
      + apply list_elem_of_In. apply (elem_of_gc_deletions _ _ _ _ _ _ _ Hr). exists rule, c. done.
      + rewrite !bool_decide_eq_true_2 by done. cbn. destruct (Hm c Hc) as (? & ? & ?).
        by apply millis_in_range. }
  unfold gc_col. destruct (rules !! fam) as [rule|] eqn:Er.
  - apply (filter_not_dropped rule now 0 cs (fun c => hits (gc_deletions rules now r) fam col (Ts c))).
    + by eapply NoDup_fmap_1.
    + intros c Hc. rewrite Hhit by done. naive_solver.
  - clear Hnd. induction cs as [|c cs IH]; [done|]. rewrite filter_cons_True.
    + f_equal. apply IH; intros; [apply Hm; by right|rewrite Hhit by (by right)].
      split; intros (? & ? & _); done.
    + destruct (hits _ _ _ _) eqn:E; [|done]. apply Hhit in E as (? & ? & _); [done|left].
Qed.

(** Creation orders survive deletions and collection. *)
Definition orders_from (r' r : row) : Prop :=
  forall n f', families r' !! n = Some f' -> exists f, families r !! n = Some f /\ Order f' = Order f.

Lemma deleteFromColumn_orders r fam col tr : orders_from (deleteFromColumn r fam col tr) r.
Proof.
  intros n f'. unfold deleteFromColumn. destruct (families r !! fam) as [F|] eqn:EF; [|eauto].
  cbn zeta. case_match; [case_decide|]; unfold put_family; cbn.
  - rewrite lookup_delete_Some. naive_solver.
  - rewrite lookup_insert. case_decide; [|eauto]. intros [= <-]. subst n. eauto.
  - rewrite lookup_insert. case_decide; [|eauto]. intros [= <-]. subst n. eauto.
Qed.

Lemma replay_orders dels r : orders_from (replay_deletions r dels) r.
Proof.
  unfold replay_deletions. revert r. induction dels as [|[[f q] tr] dels IH]; intros r n f' Hf.
  { cbn in Hf. eauto. }
  cbn [foldl] in Hf. apply IH in Hf as (f1 & Hf1 & ->).
  by apply deleteFromColumn_orders in Hf1.
Qed.

Lemma gcWithChanges_orders P r rules now :
  row_ok P r -> orders_from (gcWithChanges r rules now).1 r.
Proof.
  intros H n f'. destruct (decide (rules = ∅)) as [->|Hne].
  { unfold gcWithChanges. rewrite decide_True by done. eauto. }
  rewrite gcWithChanges_unfold by done. cbn [fst].
  pose proof (gc_loop_row _ r rules now H) as Hs.
  destruct (foldl _ _ _) as [r' ch]. destruct Hs as (_ & _ & Hr). cbn [fst].
  rewrite lookup_normalize, Hr. intros (f1 & Hf1 & En)%bind_Some.
  apply fmap_Some in Hf1 as (f & Hf & ->). exists f. split; [done|].
  apply H in Hf as (_ & Hc & _). apply normalize_family_ok in En as (_ & -> & _).
  by destruct (gc_family_of_cells rules now f [] Hc) as (_ & -> & _).
Qed.

Lemma gc_replay r rules now fams g now' :
  stored_row r -> millis_row r ->
  applyMutations r (gcWithChanges r rules now).2 fams g now' = Ret (gcWithChanges r rules now).
Proof.
  intros Hr Hm. pose proof (stored_normal _ Hr) as Hn.
  rewrite (surjective_pairing (gcWithChanges r rules now)) at 2.
  rewrite gcWithChanges_changes by done. rewrite gc_changes_deletions.
  unfold applyMutations. rewrite foldM_deletions. cbn [app]. f_equal. f_equal.
  destruct (replay_deletions_stored (gc_deletions rules now r) r Hr) as [Hs Hk].
  eapply row_ok_ext; [exact Hs|by apply gcWithChanges_stored| | |].
  - by rewrite Hk, key_gcWithChanges.
  - intros n f1 f2 (f & Hf & ->)%replay_orders H2.
    apply (gcWithChanges_orders _ _ _ _ Hr) in H2 as (f' & Hf' & ->). by simplify_eq.
  - intros fam col. by rewrite replay_column, cells_at_gcWithChanges.
Qed.

(** ** Properties *)

(** C33: For a table with millisecond granularity, applying the change records
    of a collection to the row before it gives the row after it, so that a
    reader of the change stream that replays them follows the table. *)
Theorem gc_changes_replay r rules now fams g now' :
  stored_row r -> millis_row r ->
  applyMutations r (gcWithChanges r rules now).2 fams g now' = Ret (gcWithChanges r rules now).
Proof. apply gc_replay. Qed.

Lemma gc_changes_replay_witness :
  applyMutations Sample.row1 (gcWithChanges Sample.row1 {[ [97] := GcRule_MaxNumVersions 1 ]} 5000).2
    ∅ (mkGranularity false) 0 = Ret (gcWithChanges Sample.row1 {[ [97] := GcRule_MaxNumVersions 1 ]} 5000).
Proof.
  apply gc_changes_replay; [apply Sample.row1_stored|].
  intros fam col. unfold cells_at, Sample.row1. cbn [families].
  rewrite lookup_insert. case_decide; [|rewrite lookup_singleton; case_decide; [|constructor]];
    cbn [Cells mbind option_bind]; cbn; rewrite lookup_singleton; case_decide; cbn;
    repeat constructor; cbn; vm_compute; done.
Defined.

(** A row of a table with microsecond granularity: two versions half a
    millisecond apart. *)
Definition micros_row : row := mkRow [107]
  {[ [97] := mkFamily [97] 1 [[113]] {[ [113] := [mkCell 1500 [1] []; mkCell 1000 [2] []] ]} ]}.

(** For a table with microsecond granularity the change records are too
    wide: a collection that keeps the newest of two versions half a
    millisecond apart reports a deletion range that, replayed, removes the
    kept version too. *)
Theorem gc_changes_too_wide :
  let rules := {[ [97] := GcRule_MaxNumVersions 1 ]} in
  let '(r', changes) := gcWithChanges micros_row rules 5000 in
  cells_at r' [97] [113] = [mkCell 1500 [1] []] /\
  exists r'', applyMutations micros_row changes ∅ (mkGranularity true) 5000 = Ret (r'', changes) /\
    cells_at r'' [97] [113] = [].
Proof. vm_compute. split; [done|]. eexists. split; done. Qed.
