(* ===== verification/Filters.v ===== *)
(** * Row filters

    [filter.go]: validation and evaluation of [RowFilter] trees.  The regular
    expression engine ([rsc.io/binaryregexp]) and the random source
    ([rand.Float64]) are parameters. *)

From S2P Require Import Prelude Proto Rows.
From stdpp Require Import base list gmap sorting.
From Stdlib Require Import ZArith Lia.

#[local] Open Scope Z_scope.

(** ** Pure helpers *)

Definition maxFilterDepth : Z := 20.

Definition labelChar (c : Z) : bool :=
  ((97 <=? c) && (c <=? 122)) || ((48 <=? c) && (c <=? 57)) || (c =? 45).

(** [validLabelTransformer], the pattern [^[a-z0-9\-]{1,15}$]. *)
Definition validLabelTransformer (label : bytes) : bool :=
  (1 <=? length label)%nat && (length label <=? 15)%nat && forallb labelChar label.

(** [escapeUTF]: bytes above 127 become [\xHH]. *)
Definition hexDigit (n : Z) : Z := if n <? 10 then 48 + n else 55 + n.
Definition escapeByte (c : Z) : bytes :=
  if 127 <? c then [92; 120; hexDigit (Z.shiftr c 4); hexDigit (Z.land c 15)] else [c].
Definition escapeUTF (s : bytes) : bytes := s ≫= escapeByte.

(** Go slice expressions [s[:n]] and [s[n:]] for an [n] that may be out of range. *)
Definition slice_to {A} (s : list A) (n : Z) : outcome (list A) :=
  if (n <? 0) || (Z.of_nat (length s) <? n) then Panic else Ret (take (Z.to_nat n) s).
Definition slice_from {A} (s : list A) (n : Z) : outcome (list A) :=
  if (n <? 0) || (Z.of_nat (length s) <? n) then Panic else Ret (drop (Z.to_nat n) s).

Fixpoint containsLabelTransformer (f : RowFilter) : bool :=
  match f with
  | Filter_ApplyLabel _ => true
  | Filter_Chain subs => existsb containsLabelTransformer subs
  | Filter_Interleave subs => existsb containsLabelTransformer subs
  | Filter_Condition _ t e =>
      match t with Some t => containsLabelTransformer t | None => false end ||
      match e with Some e => containsLabelTransformer e | None => false end
  | _ => false
  end.

(** [mergeCells dst src]: every cell of [src] is appended to its column of
    [dst]; a family [dst] lacks is created with [src]'s order. *)
Definition appendFamily (d s : family) : option family :=
  Some (set_Cells d (union_with (fun a b => Some (a ++ b)) (Cells d) (Cells s))).

Definition mergeCells (dst src : row) : row :=
  normalize (set_families dst
    (union_with appendFamily (families dst)
       ((fun f => set_ColNames f []) <$> by_name (families src)))).

(** [modifyCell]. *)
Definition modifyCell (f : RowFilter) (c : cell) : outcome cell :=
  match f with
  | Filter_StripValue _ => Ret (mkCell (Ts c) [] (Labels c))
  | Filter_ApplyLabel label =>
      if negb (validLabelTransformer label) then Err InvalidArgument
      else Ret (mkCell (Ts c) (Value c) [label])
  | _ => Ret c
  end.

Definition startAllows (b : StartBound) (s : bytes) : bool :=
  match b with
  | Start_Unset => true
  | Start_Open b => negb (bytes_leb s b)
  | Start_Closed b => negb (bytes_ltb s b)
  end.
Definition endAllows (b : EndBound) (s : bytes) : bool :=
  match b with
  | End_Unset => true
  | End_Closed b => bytes_leb s b
  | End_Open b => bytes_ltb s b
  end.

(** [(value & mask) == mask] byte by byte; a length mismatch never matches. *)
Definition bitmaskMatches (mask value : bytes) : bool :=
  Nat.eqb (length mask) (length value) &&
  forallb (fun '(v, m) => Z.land v m =? m) (zip value mask).

Section filters.
Context {regexp : Type} (Compile : bytes -> option regexp) (MatchString : regexp -> bytes -> bool).
(** The [n]-th value [randFloat] returns. *)
Context (randFloat : nat -> float64).

Definition newRegexp (pat : bytes) : option regexp :=
  Compile (str "^(?:" ++ escapeUTF pat ++ str ")$").

Definition checkRegexp (pat : bytes) : outcome unit :=
  match newRegexp pat with None => Err InvalidArgument | Some _ => Ret tt end.

(** *** Validation *)

Fixpoint validateFilterAt (f : RowFilter) (depth : Z) (inCondition : bool) : outcome unit :=
  let checkOption o := match o with
                       | None => Ret tt
                       | Some sub => validateFilterAt sub (depth + 1) true
                       end in
  if maxFilterDepth <? depth then Err InvalidArgument
  else match f with
  | Filter_nil => Ret tt
  | Filter_Chain subs =>
      if (length subs <? 2)%nat then Err InvalidArgument
      else
        labelled ← foldM (fun labelled sub =>
          _ ← validateFilterAt sub (depth + 1) inCondition;
          Ret (if containsLabelTransformer sub then labelled + 1 else labelled)) 0 subs;
        if 1 <? labelled then Err InvalidArgument else Ret tt
  | Filter_Interleave subs =>
      if (length subs <? 2)%nat then Err InvalidArgument
      else foldM (fun _ sub => validateFilterAt sub (depth + 1) inCondition) tt subs
  | Filter_Condition_nil => Err InvalidArgument
  | Filter_Condition p t e =>
      _ ← checkOption p; _ ← checkOption t; checkOption e
  | Filter_Sink b =>
      if negb b then Err InvalidArgument
      else if inCondition then Err InvalidArgument else Ret tt
  | Filter_PassAll b => if negb b then Err InvalidArgument else Ret tt
  | Filter_BlockAll b => if negb b then Err InvalidArgument else Ret tt
  | Filter_RowKeyRegex pat => checkRegexp pat
  | Filter_RowSample p =>
      if float_leb p (F_Fin 0 1) || float_leb (F_Fin 1 1) p then Err InvalidArgument else Ret tt
  | Filter_FamilyNameRegex pat => checkRegexp pat
  | Filter_ColumnQualifierRegex pat => checkRegexp pat
  | Filter_ValueRegex pat => checkRegexp pat
  | Filter_ColumnRange r =>
      match r with
      | None => Err InvalidArgument
      | Some r => if Nat.eqb (length (cr_FamilyName r)) 0 then Err InvalidArgument else Ret tt
      end
  | Filter_TimestampRange r =>
      match r with
      | None => Ret tt
      | Some tr =>
          if negb (Z.rem (StartTimestampMicros tr) 1000 =? 0) ||
             negb (Z.rem (EndTimestampMicros tr) 1000 =? 0) then Err InvalidArgument
          else if (StartTimestampMicros tr <? 0) || (EndTimestampMicros tr <? 0)
          then Err InvalidArgument else Ret tt
      end
  | Filter_CellsPerRowOffset n => if n <? 0 then Err InvalidArgument else Ret tt
  | Filter_CellsPerRowLimit n => if n <? 0 then Err InvalidArgument else Ret tt
  | Filter_CellsPerColumnLimit n => if n <? 0 then Err InvalidArgument else Ret tt
  | Filter_ApplyLabel label =>
      if negb (validLabelTransformer label) then Err InvalidArgument else Ret tt
  | Filter_StripValue b => if negb b then Err InvalidArgument else Ret tt
  | Filter_ValueBitmask mask => if Nat.eqb (length mask) 0 then Err InvalidArgument else Ret tt
  | Filter_ValueRange _ => Ret tt
  end.

Definition validateFilter (f : option RowFilter) : outcome unit :=
  match f with None => Ret tt | Some f => validateFilterAt f 0 false end.

(** *** Per-cell filters *)

Definition includeCell (f : RowFilter) (fam col : bytes) (c : cell) : outcome bool :=
  match f with
  | Filter_StripValue _ | Filter_ApplyLabel _ => Ret true
  | Filter_FamilyNameRegex pat =>
      match newRegexp pat with None => Err InvalidArgument | Some rx => Ret (MatchString rx fam) end
  | Filter_ColumnQualifierRegex pat =>
      match newRegexp pat with None => Err InvalidArgument | Some rx => Ret (MatchString rx col) end
  | Filter_ValueRegex pat =>
      match newRegexp pat with None => Err InvalidArgument | Some rx => Ret (MatchString rx (Value c)) end
  | Filter_ColumnRange r =>
      match r with
      | None => Panic
      | Some r => Ret (bool_decide (fam = cr_FamilyName r) && startAllows (cr_start r) col
                       && endAllows (cr_end r) col)
      end
  | Filter_TimestampRange r =>
      match r with
      | None => Panic
      | Some tr =>
          if negb (Z.rem (StartTimestampMicros tr) 1000 =? 0) ||
             negb (Z.rem (EndTimestampMicros tr) 1000 =? 0) then Err InvalidArgument
          else Ret ((StartTimestampMicros tr <=? Ts c) &&
                    ((EndTimestampMicros tr =? 0) || (Ts c <? EndTimestampMicros tr)))
      end
  | Filter_ValueBitmask mask => Ret (bitmaskMatches mask (Value c))
  | Filter_ValueRange r => Ret (startAllows (vr_start r) (Value c) && endAllows (vr_end r) (Value c))
  | _ => Err Unimplemented
  end.

(** The loop over the cells of one column. *)
Definition filterColumn (f : RowFilter) (fam col : bytes) (cs : list cell) : outcome (list cell) :=
  foldM (fun out c =>
    include ← includeCell f fam col c;
    if negb include then Ret out
    else c' ← modifyCell f c; Ret (out ++ [c'])) [] cs.

(** The loops at the end of [evalFilter].  A family or column without an
    included cell is empty here and absent there; [normalize] drops it. *)
Definition filterCells (f : RowFilter) (inp : row) : outcome row :=
  fams ← map_traverse (fun _ fam =>
    cells ← map_traverse (fun col cs => filterColumn f (Name fam) col cs) (Cells fam);
    Ret (mkFamily (Name fam) (Order fam) [] cells)) (by_name (families inp));
  Ret (normalize (mkRow (key inp) fams)).

(** *** Limits *)

Definition columnLimit (lim : Z) (inp : row) : outcome row :=
  let out := copy inp in
  fams ← map_traverse (fun _ fam =>
    cells ← map_traverse (fun _ cs =>
      if lim <? Z.of_nat (length cs) then slice_to cs lim else Ret cs) (Cells fam);
    Ret (set_Cells fam cells)) (families out);
  Ret (normalize (set_families out fams)).

(** A loop over the columns of the families in creation order that carries
    a counter: [body remaining cs] returns the new cells and counter. *)
Definition eachColumn (body : Z -> list cell -> outcome (list cell * Z)) (n : Z) (out : row)
    : outcome row :=
  '(out, _) ← foldM (fun '(out, n) fam =>
    '(fam, n) ← foldM (fun '(fam, n) col =>
      '(cs, n) ← body n (default [] (Cells fam !! col));
      Ret (set_Cells fam (<[col := cs]> (Cells fam)), n)) (fam, n) (ColNames fam);
    Ret (put_family out (Name fam) fam, n)) (out, n) (sortedFamilies out);
  Ret (normalize out).

Definition rowLimit (n : Z) (inp : row) : outcome row :=
  eachColumn (fun remaining cs =>
    cs ← (if remaining <? Z.of_nat (length cs) then slice_to cs remaining else Ret cs);
    Ret (cs, remaining - Z.of_nat (length cs))) n (copy inp).

Definition rowOffset (n : Z) (inp : row) : outcome row :=
  eachColumn (fun skip cs =>
    if Z.of_nat (length cs) <=? skip then Ret ([], skip - Z.of_nat (length cs))
    else cs ← slice_from cs skip; Ret (cs, 0)) n (copy inp).

(** *** Evaluation *)

(** The row cells reach through a Sink, and the random draws so far. *)
Record fstate : Type := mkFstate { fs_sink : row; fs_draws : nat }.

Fixpoint evalFilter (f : RowFilter) (inp : row) (st : fstate) : outcome (row * fstate) :=
  let evalOption o st := match o with
                         | None => Ret (copy inp, st)
                         | Some sub => evalFilter sub inp st
                         end in
  let pure (m : outcome row) := r ← m; Ret (r, st) in
  match f with
  | Filter_nil | Filter_PassAll _ => Ret (copy inp, st)
  | Filter_BlockAll _ => Ret (newRow (key inp), st)
  | Filter_Sink _ => Ret (newRow (key inp), mkFstate (mergeCells (fs_sink st) inp) (fs_draws st))
  | Filter_Chain subs =>
      '(cur, st) ← foldM (fun '(cur, st) sub => evalFilter sub cur st) (inp, st) subs;
      match subs with [] => Ret (copy inp, st) | _ => Ret (cur, st) end
  | Filter_Interleave subs =>
      '(out, st) ← foldM (fun '(out, st) sub =>
         '(branch, st) ← evalFilter sub inp st;
         Ret (mergeCells out branch, st)) (newRow (key inp), st) subs;
      Ret (normalize out, st)
  | Filter_Condition_nil => Panic
  | Filter_Condition p t e =>
      '(predicate, stp) ← evalOption p (mkFstate (newRow (key inp)) (fs_draws st));
      let st := mkFstate (fs_sink st) (fs_draws stp) in
      let next := if isEmpty predicate then e else t in
      match next with
      | None => Ret (newRow (key inp), st)
      | Some _ => if isEmpty predicate then evalOption e st else evalOption t st
      end
  | Filter_RowKeyRegex pat =>
      match newRegexp pat with
      | None => Err InvalidArgument
      | Some rx => if negb (MatchString rx (key inp)) then Ret (newRow (key inp), st)
                   else Ret (copy inp, st)
      end
  | Filter_RowSample p =>
      let st' := mkFstate (fs_sink st) (S (fs_draws st)) in
      if float_ltb (randFloat (fs_draws st)) p then Ret (copy inp, st')
      else Ret (newRow (key inp), st')
  | Filter_CellsPerColumnLimit n => pure (columnLimit n inp)
  | Filter_CellsPerRowLimit n => pure (rowLimit n inp)
  | Filter_CellsPerRowOffset n => pure (rowOffset n inp)
  | Filter_FamilyNameRegex _ | Filter_ColumnQualifierRegex _ | Filter_ColumnRange _
  | Filter_TimestampRange _ | Filter_ValueRegex _ | Filter_ValueRange _
  | Filter_ValueBitmask _ | Filter_StripValue _ | Filter_ApplyLabel _ => pure (filterCells f inp)
  end.

(** [filterRow]: the row with its cells replaced, whether any remain, and
    the random draws used. *)
Definition filterRow (f : option RowFilter) (r : row) (draws : nat) : outcome (row * bool * nat) :=
  match f with
  | None => Ret (r, negb (isEmpty r), draws)
  | Some fl =>
      _ ← validateFilter f;
      '(out, st) ← evalFilter fl r (mkFstate (newRow (key r)) draws);
      let out := normalize (mergeCells out (fs_sink st)) in
      let r := set_families r (families out) in
      Ret (r, negb (isEmpty r), fs_draws st)
  end.
End filters.


(** ** [mergeCells] *)

Lemma cells_at_merge_raw (dst src : gmap bytes family) k fam col :
  cells_at (mkRow k (union_with appendFamily dst ((fun f => set_ColNames f []) <$> src))) fam col =
    cells_at (mkRow k dst) fam col ++ cells_at (mkRow k src) fam col.
Proof.
  unfold cells_at. cbn. rewrite lookup_union_with, lookup_fmap.
  destruct (dst !! fam) as [d|], (src !! fam) as [s|]; cbn; [| | |done].
  - rewrite lookup_union_with. destruct (Cells d !! col), (Cells s !! col); cbn;
      by rewrite ?app_nil_r.
  - by rewrite app_nil_r.
  - done.
Qed.

(** Merging keeps every cell of both rows, duplicates included. *)
Lemma cells_at_mergeCells dst src fam col :
  names_ok src ->
  cells_at (mergeCells dst src) fam col = sort_cells (cells_at dst fam col ++ cells_at src fam col).
Proof.
  intros Hs. unfold mergeCells. rewrite cells_at_normalize. f_equal.
  rewrite by_name_id by done. unfold set_families. destruct dst as [k d], src as [k' s]. cbn.
  apply (cells_at_merge_raw d s k).
Qed.

Lemma mergeCells_normal dst src :
  names_ok dst -> names_ok src -> normal_row (mergeCells dst src).
Proof.
  intros Hd Hs. apply normalize_normal. intros n f. cbn.
  rewrite lookup_union_with, lookup_fmap, by_name_id by done.
  destruct (families dst !! n) as [d|] eqn:Ed, (families src !! n) as [s|] eqn:Es; cbn; try done;
    intros [= <-]; cbn; [by apply Hd|by apply Hd|by apply Hs].
Qed.

Lemma key_mergeCells dst src : key (mergeCells dst src) = key dst.
Proof. done. Qed.

Lemma newRow_normal k : normal_row (newRow k).
Proof. intros n f. cbn. by rewrite lookup_empty. Qed.

Lemma cells_at_newRow k fam col : cells_at (newRow k) fam col = [].
Proof. done. Qed.

#[export] Hint Resolve mergeCells_normal newRow_normal : lbt.

(** ** Per-cell filters *)

(** The filters [includeCell] and [modifyCell] handle. *)
Definition cell_filter (f : RowFilter) : bool :=
  match f with
  | Filter_FamilyNameRegex _ | Filter_ColumnQualifierRegex _ | Filter_ColumnRange _
  | Filter_TimestampRange _ | Filter_ValueRegex _ | Filter_ValueRange _
  | Filter_ValueBitmask _ | Filter_StripValue _ | Filter_ApplyLabel _ => true
  | _ => false
  end.

(** What a transformer does to an included cell. *)
Definition modified (f : RowFilter) (c : cell) : cell :=
  match f with
  | Filter_StripValue _ => mkCell (Ts c) [] (Labels c)
  | Filter_ApplyLabel label => mkCell (Ts c) (Value c) [label]
  | _ => c
  end.

Lemma modified_Ts f c : Ts (modified f c) = Ts c.
Proof. by destruct f. Qed.

(** Messages a request on the wire can carry: a set [oneof] message is not nil. *)
Fixpoint wire_filter (f : RowFilter) : bool :=
  match f with
  | Filter_Chain subs | Filter_Interleave subs => forallb wire_filter subs
  | Filter_Condition p t e =>
      match p with Some p => wire_filter p | None => true end &&
      match t with Some t => wire_filter t | None => true end &&
      match e with Some e => wire_filter e | None => true end
  | Filter_TimestampRange None => false
  | _ => true
  end.

Section filter_lemmas.
Context {regexp : Type} (Compile : bytes -> option regexp) (MatchString : regexp -> bytes -> bool).
Context (randFloat : nat -> float64).

Abbreviation includeCell := (includeCell Compile MatchString).
Abbreviation filterColumn := (filterColumn Compile MatchString).
Abbreviation filterCells := (filterCells Compile MatchString).
Abbreviation validateFilterAt := (validateFilterAt Compile).
Abbreviation evalFilter := (evalFilter Compile MatchString randFloat).

(** Whether a per-cell filter passes a cell. *)
Definition included (f : RowFilter) (fam col : bytes) (c : cell) : bool :=
  match includeCell f fam col c with Ret b => b | _ => false end.

Lemma cell_filter_total f depth inCond fam col c :
  cell_filter f = true -> wire_filter f = true ->
  validateFilterAt f depth inCond = Ret tt ->
  includeCell f fam col c = Ret (included f fam col c) /\ modifyCell f c = Ret (modified f c).
Proof.
  unfold included. intros Hc Hw Hv.
  destruct f as [| | | | | | | | | |pat|pat|r|r|pat|r|mask| | | |b|label]; try done;
    cbn [Filters.validateFilterAt] in Hv; destruct (_ <? _); try done; cbn.
  - unfold checkRegexp in Hv. by destruct (newRegexp Compile pat).
  - unfold checkRegexp in Hv. by destruct (newRegexp Compile pat).
  - by destruct r.
  - destruct r as [tr|]; [|done]. by destruct (_ || _).
  - unfold checkRegexp in Hv. by destruct (newRegexp Compile pat).
  - by destruct (validLabelTransformer label).
Qed.

Lemma filterColumn_spec f fam col cs :
  (forall c, includeCell f fam col c = Ret (included f fam col c) /\
             modifyCell f c = Ret (modified f c)) ->
  filterColumn f fam col cs =
    Ret (modified f <$> filter (fun c => included f fam col c = true) cs).
Proof.
  intros H. unfold Filters.filterColumn.
  rewrite (foldM_ret _ (fun out c => if included f fam col c then out ++ [modified f c] else out)).
  2:{ intros out c _. destruct (H c) as [-> ->]. cbn. by destruct (included f fam col c). }
  f_equal.
  assert (forall out, foldl (fun out c => if included f fam col c then out ++ [modified f c] else out)
    out cs = out ++ (modified f <$> filter (fun c => included f fam col c = true) cs)) as ->; [|done].
  induction cs as [|c cs IH]; intros out; cbn [foldl]; [by rewrite app_nil_r|].
  rewrite IH, filter_cons. destruct (included f fam col c) eqn:E.
  - rewrite decide_True by done. by rewrite fmap_cons, <- app_assoc.
  - by rewrite decide_False.
Qed.

Lemma filterCells_total f inp :
  names_ok inp ->
  (forall fam col c, includeCell f fam col c = Ret (included f fam col c) /\
                     modifyCell f c = Ret (modified f c)) ->
  exists out, filterCells f inp = Ret out /\ normal_row out /\ key out = key inp /\
    forall fam col, cells_at out fam col =
      sort_cells (modified f <$> filter (fun c => included f fam col c = true) (cells_at inp fam col)).
Proof.
  intros Hn H. unfold Filters.filterCells. rewrite by_name_id by done.
  rewrite (map_traverse_ret _ (fun n fam => mkFamily (Name fam) (Order fam) []
    (map_imap (fun col (cs : list cell) => Some (modified f <$>
       filter (fun c => included f (Name fam) col c = true) cs)) (Cells fam)))).
  2:{ intros n fam Hfam. rewrite (map_traverse_ret _ (fun col (cs : list cell) => modified f <$>
        filter (fun c => included f (Name fam) col c = true) cs)); [done|].
      intros col cs _. apply filterColumn_spec. apply H. }
  cbn. eexists. split; [done|]. split; [|split; [done|]].
  - apply normalize_normal. intros n fam. cbn. rewrite map_lookup_imap.
    intros (fam0 & Hf & [= <-])%bind_Some. cbn. by apply Hn.
  - intros fam col. rewrite cells_at_normalize. f_equal. unfold cells_at. cbn.
    rewrite map_lookup_imap. destruct (families inp !! fam) as [f0|] eqn:Ef; [|done]. cbn.
    rewrite map_lookup_imap, (Hn _ _ Ef). by destruct (Cells f0 !! col).
Qed.

(** On a normal row the kept cells keep their order. *)
Lemma modified_filter_desc f (p : cell -> Prop) `{!forall c, Decision (p c)} cs :
  desc_le cs -> desc_le (modified f <$> filter p cs).
Proof.
  unfold desc_le. induction 1 as [|c cs Hs IH Hc]; [constructor|]. rewrite filter_cons.
  case_decide; [|done]. rewrite fmap_cons. constructor; [done|].
  apply list.Forall_forall. intros x Hx. apply list_elem_of_fmap in Hx as (y & -> & Hy).
  apply list_elem_of_filter in Hy as [_ Hy]. rewrite !modified_Ts.
  rewrite list.Forall_forall in Hc. by apply Hc.
Qed.
End filter_lemmas.

(** ** Limits and offsets *)

Lemma columnLimit_total n inp :
  names_ok inp -> 0 <= n ->
  exists out, columnLimit n inp = Ret out /\ normal_row out /\ key out = key inp /\
    forall fam col, cells_at out fam col = sort_cells (take (Z.to_nat n) (cells_at inp fam col)).
Proof.
  intros Hn H0. unfold columnLimit. rewrite copy_id by done.
  rewrite (map_traverse_ret _ (fun _ fam => set_Cells fam
    (map_imap (fun _ (cs : list cell) => Some (take (Z.to_nat n) cs)) (Cells fam)))).
  2:{ intros fam f _. rewrite (map_traverse_ret _ (fun _ (cs : list cell) => take (Z.to_nat n) cs)); [done|].
      intros col cs _. destruct (Z.ltb_spec n (Z.of_nat (length cs))).
      - unfold slice_to. destruct (Z.ltb_spec n 0); [lia|].
        by destruct (Z.ltb_spec (Z.of_nat (length cs)) n); [lia|].
      - by rewrite take_ge by lia. }
  cbn. eexists. split; [done|]. split; [|split; [done|]].
  - apply normalize_normal. intros fam f. cbn. rewrite map_lookup_imap.
    intros (f0 & Hf & [= <-])%bind_Some. cbn. by apply Hn.
  - intros fam col. rewrite cells_at_normalize. f_equal. unfold cells_at. cbn.
    rewrite map_lookup_imap. destruct (families inp !! fam) as [f0|]; [|by destruct (Z.to_nat n)]. cbn.
    rewrite map_lookup_imap. destruct (Cells f0 !! col); [done|by destruct (Z.to_nat n)].
Qed.

(** The cells of a row in the order responses list them: families by creation
    order, columns by name, cells as stored. *)
Definition family_cells (f : family) : list (bytes * bytes * cell) :=
  ColNames f ≫= fun col => (fun c => (Name f, col, c)) <$> default [] (Cells f !! col).
Definition row_cells (r : row) : list (bytes * bytes * cell) := sortedFamilies r ≫= family_cells.

(** Families and rows whose column lists are in step, before [normalize]. *)
Definition raw_family (f : family) : Prop :=
  cols_ok f /\ map_Forall (fun _ cs => desc_le cs) (Cells f).
Definition raw_row (r : row) : Prop :=
  map_Forall (fun n f => Name f = n /\ raw_family f) (families r).

Lemma normal_raw r : normal_row r -> raw_row r.
Proof.
  intros H n f Hf. apply H in Hf as (? & ? & _ & Hc). split; [done|]. split; [done|].
  intros col cs Hcs. by apply Hc in Hcs as [_ ?].
Qed.

Lemma bind_omap {A B C} (g : A -> option B) (h : A -> list C) (k : B -> list C) (l : list A) :
  (forall a, a ∈ l -> match g a with Some b => h a = k b | None => h a = [] end) ->
  l ≫= h = omap g l ≫= k.
Proof.
  induction l as [|a l IH]; intros H; [done|]. rewrite bind_cons. cbn [omap list_omap].
  pose proof (H a ltac:(left)) as Ha. rewrite IH by (intros; apply H; by right).
  destruct (g a); [by rewrite bind_cons, Ha|by rewrite Ha].
Qed.

Lemma omap_sorted {A B} (RA : A -> A -> Prop) (RB : B -> B -> Prop) (g : A -> option B) l :
  (forall x y x' y', g x = Some x' -> g y = Some y' -> RA x y -> RB x' y') ->
  StronglySorted RA l -> StronglySorted RB (omap g l).
Proof.
  intros Hg. induction 1 as [|x l Hs IH Hx]; cbn; [constructor|].
  destruct (g x) as [x'|] eqn:E; [|done]. constructor; [done|].
  apply list.Forall_forall. intros y' Hy. apply list_elem_of_omap in Hy as (y & Hy & E').
  rewrite list.Forall_forall in Hx. eauto.
Qed.

Lemma map_vals_omap {A B : Type} (g : A -> option B) (m : gmap bytes A) :
  map_vals (omap g m) ≡ₚ omap g (map_vals m).
Proof.
  induction m as [|k a m Hk IH] using map_ind.
  { rewrite omap_empty. unfold map_vals. by rewrite !map_to_list_empty. }
  assert (map_vals (<[k:=a]> m) ≡ₚ a :: map_vals m) as ->.
  { unfold map_vals. by rewrite map_to_list_insert. }
  rewrite omap_insert. cbn [omap list_omap]. destruct (g a) as [b|].
  - unfold map_vals at 1. rewrite map_to_list_insert by by rewrite lookup_omap, Hk. cbn. by rewrite <- IH.
  - rewrite delete_id by by rewrite lookup_omap, Hk. done.
Qed.

Lemma sortedFamilies_normalize r :
  raw_row r -> sortedFamilies (normalize r) = omap normalize_family (sortedFamilies r).
Proof.
  intros H. assert (names_ok r) as Hn by (intros n f Hf; by apply H in Hf as [? _]).
  symmetry. apply sortedFamilies_unique.
  - apply (row_ok_names desc_le). by apply normalize_normal.
  - cbn. rewrite map_vals_omap. by rewrite sortedFamilies_perm.
  - eapply omap_sorted; [|apply sortedFamilies_sorted]. intros x y x' y' Hx Hy.
    apply normalize_family_ok in Hx as (Hx1 & Hx2 & _).
    apply normalize_family_ok in Hy as (Hy1 & Hy2 & _).
    unfold byCreationOrder. by rewrite Hx1, Hx2, Hy1, Hy2.
Qed.

Lemma sort_strings_filter (p : bytes -> Prop) `{!forall x, Decision (p x)} l :
  sort_strings (filter p l) = filter p (sort_strings l).
Proof.
  apply (sorted_unique_on bytes_leb).
  - intros x y _ _. apply bytes_leb_antisym.
  - apply sort_strings_sorted.
  - eapply StronglySorted_sublist; [apply sublist_filter|apply sort_strings_sorted].
  - by rewrite !sort_strings_perm.
Qed.

Lemma family_cells_normalize f :
  raw_family f ->
  match normalize_family f with Some f' => family_cells f = family_cells f' | None => family_cells f = [] end.
Proof.
  intros [Hc Hd]. set (ne := fun col => default [] (Cells f !! col) <> []).
  assert (forall cols, (cols ≫= fun col => (fun c => (Name f, col, c)) <$> default [] (Cells f !! col)) =
    (filter ne cols ≫= fun col => (fun c => (Name f, col, c)) <$> default [] (Cells f !! col))) as Hskip.
  { induction cols as [|col cols IH]; [done|]. rewrite bind_cons, filter_cons, IH.
    case_decide as Hd'; [done|]. unfold ne in Hd'.
    destruct (default [] (Cells f !! col)); [done|]. by destruct Hd'. }
  assert (filter ne (ColNames f) = sort_strings (map_keys (omap norm_col (Cells f)))) as Hk.
  { rewrite Hc, <- sort_strings_filter. apply sort_strings_unique, NoDup_Permutation;
      [apply NoDup_filter, NoDup_map_keys|apply NoDup_map_keys|].
    intros col. rewrite list_elem_of_filter, !elem_of_map_keys, lookup_omap. unfold ne.
    destruct (Cells f !! col) as [[|c cs]|]; cbn; [|naive_solver|naive_solver].
    split; [naive_solver|]. by intros [? ?]. }
  assert (family_cells f = (sort_strings (map_keys (omap norm_col (Cells f))) ≫= fun col =>
    (fun c => (Name f, col, c)) <$> default [] (Cells f !! col))) as ->.
  { unfold family_cells. by rewrite Hskip, Hk. }
  rewrite normalize_family_spec. cbn zeta. case_decide as Hm; [by rewrite Hm|].
  unfold family_cells. cbn. apply Forall_bind_ext, list.Forall_forall.
  intros col Hin. rewrite lookup_omap. destruct (Cells f !! col) as [cs|] eqn:E; [|done]. cbn.
  rewrite norm_col_default, sort_cells_id; [done|]. by apply Hd in E.
Qed.

(** Normalising drops empty columns and families and keeps the cell order. *)
Lemma row_cells_normalize r : raw_row r -> row_cells (normalize r) = row_cells r.
Proof.
  intros H. unfold row_cells. rewrite sortedFamilies_normalize by done. symmetry.
  apply bind_omap. intros f Hf. apply family_cells_normalize.
  rewrite sortedFamilies_perm, elem_of_map_vals in Hf. destruct Hf as [n Hf]. by apply H in Hf as [_ ?].
Qed.

(** A row listed from the families of its map in creation order. *)
Lemma sortedFamilies_rebuild out (fams : list family) :
  creation_sorted fams -> NoDup (Name <$> fams) ->
  (forall n, is_Some (families out !! n) -> n ∈ Name <$> fams) ->
  let out' := foldl (fun r f => put_family r (Name f) f) out fams in
  names_ok out' /\ key out' = key out /\ fams = sortedFamilies out' /\
  forall n f, families out' !! n = Some f -> f ∈ fams.
Proof.
  intros Hs Hnd Hdom out'.
  assert (forall l r, NoDup (Name <$> l) -> let r' := foldl (fun r f => put_family r (Name f) f) r l in
    key r' = key r /\ families r' = list_to_map ((fun f => (Name f, f)) <$> l) ∪ families r) as Hfold.
  { induction l as [|f l IH]; intros r Hl; cbn; [by rewrite (left_id_L ∅ (∪))|].
    cbn in Hl. apply NoDup_cons in Hl as [Hnf Hl].
    destruct (IH (put_family r (Name f) f) Hl) as [-> ->]. split; [done|]. cbn.
    rewrite <- insert_union_r, insert_union_l; [done|].
    apply not_elem_of_list_to_map_1. by rewrite <- list_fmap_compose. }
  destruct (Hfold fams out Hnd) as [Hkey Hfams]. fold out' in Hkey, Hfams.
  assert (families out' = list_to_map ((fun f => (Name f, f)) <$> fams)) as Hm.
  { rewrite Hfams. apply map_eq. intros n. rewrite lookup_union.
    destruct (list_to_map _ !! n) eqn:E; [by destruct (families out !! n)|].
    apply not_elem_of_list_to_map_2 in E. rewrite <- list_fmap_compose in E. cbn.
    destruct (families out !! n) eqn:E'; [|done]. destruct E. by apply Hdom; rewrite E'. }
  assert (map_to_list (families out') ≡ₚ (fun f => (Name f, f)) <$> fams) as Hl.
  { rewrite Hm. apply map_to_list_to_map. by rewrite <- list_fmap_compose. }
  assert (forall n f, families out' !! n = Some f -> Name f = n /\ f ∈ fams) as Hin.
  { intros n f Hf. apply elem_of_map_to_list in Hf. rewrite Hl in Hf.
    by apply list_elem_of_fmap in Hf as (? & [= -> ->] & ?). }
  assert (names_ok out') as Hok by (intros n f Hf; by apply Hin in Hf as [? _]).
  split; [done|]. split; [done|]. split; [|naive_solver].
  apply sortedFamilies_unique; [done| |done].
  unfold map_vals. rewrite Hl, <- list_fmap_compose. symmetry.
  change (id <$> fams ≡ₚ fams). by rewrite list_fmap_id.
Qed.

(** ** The loops over the columns of a row

    [T n] is what a pass with counter [n] keeps of a list; taking and
    dropping distribute over concatenation in the way the counter is
    threaded. *)
Section each_column.
Context (T : forall A : Type, nat -> list A -> list A).
Arguments T {A} _ _.
Context (body : Z -> list cell -> outcome (list cell * Z)).
Hypothesis T_fmap : forall A B (f : A -> B) n l, T n (f <$> l) = f <$> T n l.
Hypothesis T_app : forall A n (l1 l2 : list A), T n (l1 ++ l2) = T n l1 ++ T (n - length l1) l2.
Hypothesis T_nil : forall A n, T n (@nil A) = [].
Hypothesis T_sublist : forall A n (l : list A), T n l `sublist_of` l.
Hypothesis body_T : forall n cs, body (Z.of_nat n) cs = Ret (T n cs, Z.of_nat (n - length cs)).

Definition col_cells (f : family) (col : bytes) : list (bytes * bytes * cell) :=
  (fun c => (Name f, col, c)) <$> default [] (Cells f !! col).

Lemma family_cells_cols f : family_cells f = ColNames f ≫= col_cells f.
Proof. done. Qed.

Definition column_step : family * Z -> bytes -> outcome (family * Z) :=
  fun '(fam, n) col =>
    '(cs, n) ← body n (default [] (Cells fam !! col));
    Ret (set_Cells fam (<[col := cs]> (Cells fam)), n).

Definition same_shape (f f' : family) : Prop :=
  Name f' = Name f /\ Order f' = Order f /\ ColNames f' = ColNames f.

Lemma columns_loop cols : forall fam n,
  NoDup cols -> raw_family fam -> (forall col, col ∈ cols -> is_Some (Cells fam !! col)) ->
  exists fam', foldM column_step (fam, Z.of_nat n) cols =
      Ret (fam', Z.of_nat (n - length (cols ≫= col_cells fam))) /\
    same_shape fam fam' /\ raw_family fam' /\
    (cols ≫= col_cells fam') = T n (cols ≫= col_cells fam) /\
    forall col, col ∉ cols -> Cells fam' !! col = Cells fam !! col.
Proof.
  induction cols as [|col cols IH]; intros fam n Hnd Hraw Hdom.
  { exists fam. cbn. rewrite T_nil, Nat.sub_0_r. unfold same_shape. auto 10. }
  apply NoDup_cons in Hnd as [Hnc Hnd]. cbn [foldM]. cbn [column_step]. rewrite body_T. cbn.
  destruct (Hdom col ltac:(left)) as [cs Hcs]. rewrite Hcs. cbn.
  set (fam1 := set_Cells fam (<[col:=T n cs]> (Cells fam))).
  assert (raw_family fam1) as Hraw1.
  { destruct Hraw as [Hc Hd]. split.
    - unfold cols_ok. cbn. rewrite Hc. apply map_keys_dom_eq.
      intros k. destruct (decide (col = k)) as [<-|]; simplify_map_eq; naive_solver.
    - apply map_Forall_insert_2; [|done]. eapply StronglySorted_sublist; [apply T_sublist|].
      by eapply Hd. }
  assert (forall c, c ∈ cols -> col_cells fam1 c = col_cells fam c) as Hsame.
  { intros c Hc. unfold col_cells. cbn. rewrite lookup_insert_ne by (intros ->; done). done. }
  destruct (IH fam1 (n - length cs)%nat Hnd Hraw1) as (fam' & E & Hsh & Hr & Hcells & Hrest).
  { intros c Hc. cbn. rewrite lookup_insert_is_Some'. right. apply Hdom. by right. }
  assert ((cols ≫= col_cells fam1) = (cols ≫= col_cells fam)) as Hb
    by (apply Forall_bind_ext, list.Forall_forall; done).
  assert (length (col_cells fam col) = length cs) as Hlen
    by (unfold col_cells; by rewrite Hcs, length_fmap).
  rewrite Hb in E, Hcells. exists fam'. split; [|split; [|split; [|split]]].
  - rewrite E, length_app, Hlen. do 3 f_equal. lia.
  - done.
  - done.
  - rewrite T_app, Hlen, Hcells. f_equal. unfold col_cells.
    rewrite (Hrest col Hnc). cbn. rewrite lookup_insert_eq, Hcs. cbn.
    destruct Hsh as [-> _]. by rewrite T_fmap.
  - intros c Hc. apply not_elem_of_cons in Hc as [Hne Hc]. rewrite (Hrest c Hc). cbn.
    by rewrite lookup_insert_ne by done.
Qed.

Definition family_step : row * Z -> family -> outcome (row * Z) :=
  fun '(out, n) fam =>
    '(fam, n) ← foldM column_step (fam, n) (ColNames fam);
    Ret (put_family out (Name fam) fam, n).

Lemma families_loop fams : forall out n,
  Forall raw_family fams ->
  exists fams', foldM family_step (out, Z.of_nat n) fams =
      Ret (foldl (fun r f => put_family r (Name f) f) out fams',
           Z.of_nat (n - length (fams ≫= family_cells))) /\
    Forall2 same_shape fams fams' /\ Forall raw_family fams' /\
    (fams' ≫= family_cells) = T n (fams ≫= family_cells).
Proof.
  induction fams as [|fam fams IH]; intros out n Hraw.
  { exists []. cbn. rewrite T_nil, Nat.sub_0_r. repeat constructor. }
  apply Forall_cons in Hraw as [Hf Hraw]. cbn [foldM]. cbn [family_step].
  destruct (columns_loop (ColNames fam) fam n) as (fam' & -> & Hsh & Hr & Hcells & _).
  { destruct Hf as [-> _]. apply sort_strings_NoDup, NoDup_map_keys. }
  { done. }
  { intros col. destruct Hf as [-> _]. by rewrite sort_strings_perm, elem_of_map_keys. }
  cbn. destruct (IH (put_family out (Name fam') fam')
    (n - length (ColNames fam ≫= col_cells fam))%nat Hraw) as (fams' & E & Hsh' & Hr' & Hcells').
  exists (fam' :: fams'). split; [|split; [by constructor|split; [by constructor|]]].
  - rewrite E. cbn. rewrite length_app. do 3 f_equal. unfold family_cells, col_cells. lia.
  - cbn [foldl]. rewrite !bind_cons, T_app, Hcells'. f_equal.
    rewrite !family_cells_cols. destruct Hsh as (_ & _ & ->). done.
Qed.

Lemma eachColumn_T n inp :
  raw_row inp ->
  exists out, eachColumn body (Z.of_nat n) inp = Ret out /\ normal_row out /\ key out = key inp /\
    row_cells out = T n (row_cells inp).
Proof.
  intros Hraw. assert (names_ok inp) as Hn by (intros k f Hf; by apply Hraw in Hf as [? _]).
  destruct (families_loop (sortedFamilies inp) inp n) as (fams' & E & Hsh & Hr & Hcells).
  { apply list.Forall_forall. intros f Hf. apply elem_of_sortedFamilies in Hf; [|done].
    by apply Hraw in Hf as [_ ?]. }
  assert (Name <$> fams' = Name <$> sortedFamilies inp) as Hnames.
  { clear -Hsh. induction Hsh as [|f f' l l' [Hf _] _ IH]; [done|]. cbn. by rewrite Hf, IH. }
  destruct (sortedFamilies_rebuild inp fams') as (Hok & Hkey & Hsf & Hin).
  { pose proof (sortedFamilies_sorted inp) as Hs. clear -Hsh Hs.
    induction Hsh as [|f f' l l' (Hn & Ho & _) Hl IH]; [constructor|].
    apply StronglySorted_inv in Hs as [Hs Hall]. constructor; [auto|].
    clear -Hall Hl Hn Ho. induction Hl as [|g g' l l' (Hn' & Ho' & _) _ IH]; constructor.
    - apply Forall_inv in Hall. unfold byCreationOrder in *. by rewrite Hn, Ho, Hn', Ho'.
    - apply IH. by eapply Forall_inv_tail. }
  { rewrite Hnames. by apply sortedFamilies_NoDup. }
  { intros k [f Hf]. rewrite Hnames. apply list_elem_of_fmap. exists f.
    rewrite (Hn k f Hf). split; [done|]. apply elem_of_sortedFamilies; [done|].
    by rewrite (Hn k f Hf). }
  set (out' := foldl _ inp fams') in *.
  assert (raw_row out') as Hraw'.
  { intros k f Hf. split; [by apply Hok|]. apply Hin in Hf.
    rewrite list.Forall_forall in Hr. auto. }
  exists (normalize out'). unfold eachColumn. fold column_step. fold family_step.
  rewrite E. cbn. split; [done|]. split; [by apply normalize_normal|].
  split; [done|]. rewrite row_cells_normalize by done.
  unfold row_cells. by rewrite <- Hsf, Hcells.
Qed.
End each_column.

(** The row limit keeps the first cells of the row in response order; the
    offset skips them. *)
Lemma rowLimit_total n inp :
  normal_row inp -> 0 <= n ->
  exists out, rowLimit n inp = Ret out /\ normal_row out /\ key out = key inp /\
    row_cells out = take (Z.to_nat n) (row_cells inp).
Proof.
  intros Hr Hn. unfold rowLimit. rewrite copy_id by (by eapply row_ok_names).
  destruct (Z_of_nat_complete n Hn) as [m' ->]. rewrite Nat2Z.id. apply (eachColumn_T (fun A => @take A)).
  - intros. by rewrite fmap_take.
  - intros. apply firstn_app.
  - intros. apply take_nil.
  - intros. apply sublist_take.
  - intros m cs. destruct (Z.ltb_spec (Z.of_nat m) (Z.of_nat (length cs))).
    + unfold slice_to. rewrite (proj2 (Z.ltb_ge _ 0)), (proj2 (Z.ltb_ge _ (Z.of_nat m))) by lia. cbn.
      rewrite Nat2Z.id, length_take. do 2 f_equal. lia.
    + cbn. rewrite take_ge by lia. do 2 f_equal. lia.
  - by apply normal_raw.
Qed.

Lemma rowOffset_total n inp :
  normal_row inp -> 0 <= n ->
  exists out, rowOffset n inp = Ret out /\ normal_row out /\ key out = key inp /\
    row_cells out = drop (Z.to_nat n) (row_cells inp).
Proof.
  intros Hr Hn. unfold rowOffset. rewrite copy_id by (by eapply row_ok_names).
  destruct (Z_of_nat_complete n Hn) as [m' ->]. rewrite Nat2Z.id. apply (eachColumn_T (fun A => @drop A)).
  - intros. by rewrite fmap_drop.
  - intros. apply skipn_app.
  - intros. apply drop_nil.
  - intros. apply sublist_drop.
  - intros m cs. destruct (Z.leb_spec (Z.of_nat (length cs)) (Z.of_nat m)).
    + rewrite drop_ge by lia. do 2 f_equal. lia.
    + unfold slice_from. rewrite (proj2 (Z.ltb_ge _ 0)), (proj2 (Z.ltb_ge _ (Z.of_nat m))) by lia. cbn.
      rewrite Nat2Z.id. do 2 f_equal. lia.
  - by apply normal_raw.
Qed.

(** ** Evaluation of validated filters *)

Lemma elem_of_row_cells r fam col c :
  normal_row r -> (fam, col, c) ∈ row_cells r <-> c ∈ cells_at r fam col.
Proof.
  intros Hr. pose proof (row_ok_names _ _ Hr) as Hn.
  unfold row_cells, family_cells, cells_at. rewrite list_elem_of_bind. split.
  - intros (f & Hc & Hf). apply elem_of_sortedFamilies in Hf; [|done].
    apply list_elem_of_bind in Hc as (col' & Hc & _).
    apply list_elem_of_fmap in Hc as (c' & [= -> -> ->] & Hc). by rewrite Hf.
  - destruct (families r !! fam) as [f|] eqn:Ef; cbn; [|by intros ?%not_elem_of_nil].
    intros Hc. pose proof (Hn _ _ Ef) as <-. exists f. rewrite elem_of_sortedFamilies by done.
    split; [|done]. apply list_elem_of_bind. exists col. split.
    + apply list_elem_of_fmap. eauto.
    + apply Hr in Ef as (_ & -> & _). rewrite sort_strings_perm, elem_of_map_keys.
      destruct (Cells f !! col); [done|by apply not_elem_of_nil in Hc].
Qed.

(** [c] comes from [c0]: the timestamp is kept, the value kept or stripped. *)
Definition cell_from (c0 c : cell) : Prop := Ts c = Ts c0 /\ (Value c = Value c0 \/ Value c = []).

(** Every cell of [out] comes from a cell of the same column of [inp]. *)
Definition derived (inp out : row) : Prop :=
  forall fam col c, c ∈ cells_at out fam col -> exists c0, c0 ∈ cells_at inp fam col /\ cell_from c0 c.

Lemma cell_from_refl c : cell_from c c.
Proof. split; auto. Qed.
Lemma cell_from_trans a b c : cell_from a b -> cell_from b c -> cell_from a c.
Proof. unfold cell_from. intros [-> [E|E]] [-> [E'|E']]; rewrite ?E', ?E; auto. Qed.
Lemma modified_from f c : cell_from c (modified f c).
Proof. split; [apply modified_Ts|]. destruct f; cbn; auto. Qed.
#[export] Hint Resolve cell_from_refl modified_from : lbt.

Lemma derived_refl r : derived r r.
Proof. intros fam col c Hc. eauto with lbt. Qed.
Lemma derived_trans a b c : derived a b -> derived b c -> derived a c.
Proof.
  intros H1 H2 fam col x Hx. apply H2 in Hx as (y & Hy & F). apply H1 in Hy as (z & Hz & F').
  eauto using cell_from_trans.
Qed.
Lemma derived_sub inp out :
  (forall fam col c, c ∈ cells_at out fam col -> c ∈ cells_at inp fam col) -> derived inp out.
Proof. intros H fam col c Hc. eauto with lbt. Qed.
Lemma derived_newRow inp k : derived inp (newRow k).
Proof. intros fam col c. rewrite cells_at_newRow. by intros ?%not_elem_of_nil. Qed.
Lemma derived_merge inp a b : names_ok b -> derived inp a -> derived inp b -> derived inp (mergeCells a b).
Proof.
  intros Hb Ha Hb' fam col c. rewrite cells_at_mergeCells, sort_cells_perm by done.
  intros [?|?]%elem_of_app; auto.
Qed.
#[export] Hint Resolve derived_refl derived_newRow : lbt.

Lemma limit_derived inp out (P : list (bytes * bytes * cell) -> list (bytes * bytes * cell)) :
  normal_row inp -> normal_row out -> (forall l, P l `sublist_of` l) ->
  row_cells out = P (row_cells inp) -> derived inp out.
Proof.
  intros Hi Ho HP E. apply derived_sub. intros fam col c. rewrite <- !elem_of_row_cells, E by done.
  intros Hx. eapply elem_of_submseteq; [exact Hx|]. apply sublist_submseteq, HP.
Qed.

(** What the evaluation of a filter promises: the output is a normal row with
    the input's key made of the input's cells, and the cells a Sink sends
    to the result are the input's too. *)
Record eval_good (inp : row) (st : fstate) (res : row * fstate) : Prop := {
  eg_normal : normal_row (res.1);
  eg_key : key (res.1) = key inp;
  eg_derived : derived inp (res.1);
  eg_sink : normal_row (fs_sink (res.2));
  eg_sink_key : key (fs_sink (res.2)) = key (fs_sink st);
  eg_sink_derived : derived (mergeCells (fs_sink st) inp) (fs_sink (res.2)) }.

Lemma sink_unchanged st inp :
  normal_row inp -> normal_row (fs_sink st) -> derived (mergeCells (fs_sink st) inp) (fs_sink st).
Proof.
  intros Hi Hs. apply derived_sub. intros fam col c Hc.
  rewrite cells_at_mergeCells, sort_cells_perm by (by eapply row_ok_names).
  apply elem_of_app. by left.
Qed.

Lemma eval_good_pure inp st out draws :
  normal_row inp -> normal_row (fs_sink st) ->
  normal_row out -> key out = key inp -> derived inp out ->
  eval_good inp st (out, mkFstate (fs_sink st) draws).
Proof. intros. split; cbn; auto using sink_unchanged. Qed.

Lemma eval_good_same inp st out :
  normal_row inp -> normal_row (fs_sink st) ->
  normal_row out -> key out = key inp -> derived inp out -> eval_good inp st (out, st).
Proof. destruct st as [s d]. intros. by apply (eval_good_pure inp (mkFstate s d) out d). Qed.

(** Evaluating a further filter on a row derived from the input. *)
Lemma eval_good_step inp st cur st1 res :
  normal_row inp -> normal_row (fs_sink st) -> normal_row cur ->
  derived inp cur -> normal_row (fs_sink st1) -> key (fs_sink st1) = key (fs_sink st) ->
  derived (mergeCells (fs_sink st) inp) (fs_sink st1) ->
  eval_good cur st1 res ->
  derived inp (res.1) /\ normal_row (fs_sink (res.2)) /\ key (fs_sink (res.2)) = key (fs_sink st) /\
  derived (mergeCells (fs_sink st) inp) (fs_sink (res.2)).
Proof.
  intros Hi Hs Hc Hd Hs1 Hk1 Hd1 [Hn Hk Hdr Hsn Hsk Hsd].
  split; [by eapply derived_trans|]. split; [done|]. split; [congruence|].
  eapply derived_trans; [|exact Hsd]. apply derived_merge; [by eapply row_ok_names|done|].
  eapply derived_trans; [|exact Hd]. apply derived_sub. intros fam col c Hx.
  rewrite cells_at_mergeCells, sort_cells_perm by (by eapply row_ok_names).
  apply elem_of_app. by right.
Qed.

Section eval.
Context {regexp : Type} (Compile : bytes -> option regexp) (MatchString : regexp -> bytes -> bool).
Context (randFloat : nat -> float64).

Abbreviation validateFilterAt := (validateFilterAt Compile).
Abbreviation evalFilter := (evalFilter Compile MatchString randFloat).

(** [f] is evaluated without error on every row, and well. *)
Definition evaluates (f : RowFilter) : Prop :=
  forall inp st, normal_row inp -> normal_row (fs_sink st) ->
  exists res, evalFilter f inp st = Ret res /\ eval_good inp st res.

Lemma validated_chain subs depth inCond :
  validateFilterAt (Filter_Chain subs) depth inCond = Ret tt ->
  Forall (fun sub => validateFilterAt sub (depth + 1) inCond = Ret tt) subs.
Proof.
  cbn [Filters.validateFilterAt]. destruct (maxFilterDepth <? depth); [done|].
  destruct (length subs <? 2)%nat; [done|]. generalize 0. intros k H.
  destruct (foldM _ k subs) as [k'| |] eqn:E; [|done..]. clear H. revert k E.
  induction subs as [|s subs IH]; intros k E; [constructor|].
  cbn [foldM] in E. inv_outcome. match goal with u : unit |- _ => destruct u end. constructor; eauto.
Qed.

Lemma validated_interleave subs depth inCond :
  validateFilterAt (Filter_Interleave subs) depth inCond = Ret tt ->
  Forall (fun sub => validateFilterAt sub (depth + 1) inCond = Ret tt) subs.
Proof.
  cbn [Filters.validateFilterAt]. destruct (maxFilterDepth <? depth); [done|].
  destruct (length subs <? 2)%nat; [done|].
  induction subs as [|s subs IH]; intros E; [constructor|].
  cbn [foldM] in E. inv_outcome. repeat match goal with u : unit |- _ => destruct u end. constructor; eauto.
Qed.

Lemma evaluates_chain subs : Forall evaluates subs -> evaluates (Filter_Chain subs).
Proof.
  intros Hsubs inp st Hi Hs.
  destruct (foldM_total (fun '(cur, st1) => normal_row cur /\ key cur = key inp /\ derived inp cur /\
      normal_row (fs_sink st1) /\ key (fs_sink st1) = key (fs_sink st) /\
      derived (mergeCells (fs_sink st) inp) (fs_sink st1))
    (fun '(cur, st) sub => evalFilter sub cur st) subs) with (b := (inp, st))
    as ([cur st1] & E & Hn & Hk & Hd & Hs1 & Hk1 & Hd1).
  - intros [cur st1] sub Hin (Hn & Hk & Hd & Hs1 & Hk1 & Hd1). rewrite list.Forall_forall in Hsubs.
    destruct (Hsubs sub Hin cur st1 Hn Hs1) as ([cur' st'] & -> & G). eexists. split; [done|].
    destruct (eval_good_step inp st cur st1 _ Hi Hs Hn Hd Hs1 Hk1 Hd1 G) as (? & ? & ? & ?).
    destruct G as [G1 G2 _ _ _ _]. cbn in *. repeat split_and; auto; congruence.
  - repeat split_and; auto using sink_unchanged with lbt.
  - cbn. rewrite E. cbn. exists (match subs with [] => copy inp | _ => cur end, st1).
    split; [by destruct subs|]. rewrite copy_id by (by eapply row_ok_names).
    destruct subs; split; cbn; auto with lbt.
Qed.

Lemma evaluates_interleave subs : Forall evaluates subs -> evaluates (Filter_Interleave subs).
Proof.
  intros Hsubs inp st Hi Hs.
  destruct (foldM_total (fun '(cur, st1) => normal_row cur /\ key cur = key inp /\ derived inp cur /\
      normal_row (fs_sink st1) /\ key (fs_sink st1) = key (fs_sink st) /\
      derived (mergeCells (fs_sink st) inp) (fs_sink st1))
    (fun '(out, st) sub => '(branch, st) ← evalFilter sub inp st; Ret (mergeCells out branch, st)) subs)
    with (b := (newRow (key inp), st)) as ([cur st1] & E & Hn & Hk & Hd & Hs1 & Hk1 & Hd1).
  - intros [cur st1] sub Hin (Hn & Hk & Hd & Hs1 & Hk1 & Hd1). rewrite list.Forall_forall in Hsubs.
    destruct (Hsubs sub Hin inp st1 Hi Hs1) as ([cur' st'] & -> & G). eexists. split; [done|].
    destruct (eval_good_step inp st inp st1 _ Hi Hs Hi (derived_refl _) Hs1 Hk1 Hd1 G) as (? & ? & ? & ?).
    destruct G as [G1 G2 _ _ _ _]. cbn in *.
    repeat split_and; auto; [apply mergeCells_normal|apply derived_merge]; eauto using row_ok_names.
  - repeat split_and; auto using sink_unchanged with lbt.
  - cbn. rewrite E. cbn. rewrite normalize_id by done. eexists. split; [done|]. by split.
Qed.

Lemma evaluates_condition p t e :
  option_all evaluates p -> option_all evaluates t -> option_all evaluates e ->
  evaluates (Filter_Condition p t e).
Proof.
  intros Hp Ht He inp st Hi Hs. cbn.
  assert (forall o st0, option_all evaluates o -> normal_row (fs_sink st0) ->
    exists res, match o with None => Ret (copy inp, st0) | Some sub => evalFilter sub inp st0 end = Ret res
      /\ eval_good inp st0 res) as Hopt.
  { intros [sub|] st0 Ho Hs0; [by apply Ho|]. eexists. split; [done|].
    rewrite copy_id by (by eapply row_ok_names). apply eval_good_same; auto with lbt. }
  destruct (Hopt p (mkFstate (newRow (key inp)) (fs_draws st)) Hp) as ([pr stp] & -> & Gp).
  { cbn. auto with lbt. }
  cbn. set (st1 := mkFstate (fs_sink st) (fs_draws stp)).
  assert (forall o, option_all evaluates o -> exists res,
    match o with None => Ret (newRow (key inp), st1) | Some sub => evalFilter sub inp st1 end = Ret res
      /\ eval_good inp st res) as Hbranch.
  { intros [sub|] Ho.
    - destruct (Ho inp st1 Hi Hs) as (res & E & G). exists res. by destruct G.
    - eexists. split; [done|]. apply eval_good_pure; auto with lbt. }
  destruct (isEmpty pr).
  - destruct (Hbranch e He) as (res & E & G). exists res. by destruct e.
  - destruct (Hbranch t Ht) as (res & E & G). exists res. by destruct t.
Qed.

Lemma evaluates_total f : forall depth inCond,
  wire_filter f = true -> validateFilterAt f depth inCond = Ret tt -> evaluates f.
Proof.
  induction f as [subs IH|subs IH|p t e IHp IHt IHe|f Hf] using RowFilter_ind';
    intros depth inCond Hw Hv.
  - apply evaluates_chain. apply validated_chain in Hv. cbn in Hw. rewrite forallb_forall in Hw.
    rewrite list.Forall_forall in *. intros sub Hin. eapply IH; [done| |by apply Hv].
    by apply Hw, list_elem_of_In.
  - apply evaluates_interleave. apply validated_interleave in Hv. cbn in Hw. rewrite forallb_forall in Hw.
    rewrite list.Forall_forall in *. intros sub Hin. eapply IH; [done| |by apply Hv].
    by apply Hw, list_elem_of_In.
  - cbn in Hv, Hw. destruct (_ <? _); [done|]. inv_outcome.
    apply andb_true_iff in Hw as [[Hwp Hwt]%andb_true_iff Hwe].
    repeat match goal with u : unit |- _ => destruct u end.
    apply evaluates_condition; [destruct p|destruct t|destruct e]; cbn in *; eauto.
  - intros inp st Hi Hs. pose proof (row_ok_names _ _ Hi) as Hn.
    assert (forall out, normal_row out -> key out = key inp -> derived inp out ->
      eval_good inp st (out, st)) as Hpure
      by (intros; by apply eval_good_same).
    assert (cell_filter f = true -> exists out, filterCells Compile MatchString f inp = Ret out /\
      eval_good inp st (out, st)) as Hcell.
    { intros Hc. destruct (filterCells_total Compile MatchString f inp Hn) as (out & E & Ho & Hk & Hcells).
      { intros. by eapply cell_filter_total. }
      exists out. split; [done|]. apply Hpure; [done..|]. intros fam col c. rewrite Hcells, sort_cells_perm.
      intros (c0 & -> & [_ Hc0]%list_elem_of_filter)%list_elem_of_fmap. eauto with lbt. }
    destruct f as [| | | | |b|b|b|pat|q| | | | | | | |n|n|n|b|label]; try done;
      try (destruct (Hcell eq_refl) as (out & E & G); exists (out, st); cbn [Filters.evalFilter];
           rewrite E; done);
      cbn in Hv; destruct (_ <? _); try done; cbn [Filters.evalFilter].
    + eexists. split; [done|]. rewrite copy_id by done. auto with lbt.
    + eexists. split; [done|]. split; cbn; auto with lbt. eauto using mergeCells_normal, row_ok_names.
    + eexists. split; [done|]. rewrite copy_id by done. auto with lbt.
    + eexists. split; [done|]. auto with lbt.
    + unfold checkRegexp in Hv. destruct (newRegexp Compile pat) as [rx|]; [|done].
      destruct (negb _); (eexists; split; [done|]); rewrite ?copy_id by done; auto with lbt.
    + cbn zeta. clear Hv; destruct (float_ltb (randFloat (fs_draws st)) q); (eexists; split; [done|]); apply eval_good_pure;
        rewrite ?copy_id by done; auto with lbt.
    + destruct (Z.ltb_spec n 0); [done|]. destruct (rowOffset_total n inp Hi) as (out & -> & Ho & Hk & Hc);
        [done|]. eexists. split; [done|]. apply Hpure; auto.
      apply (limit_derived inp out (drop (Z.to_nat n))); auto. intros. apply sublist_drop.
    + destruct (Z.ltb_spec n 0); [done|]. destruct (rowLimit_total n inp Hi) as (out & -> & Ho & Hk & Hc);
        [done|]. eexists. split; [done|]. apply Hpure; auto.
      apply (limit_derived inp out (take (Z.to_nat n))); auto. intros. apply sublist_take.
    + destruct (Z.ltb_spec n 0); [done|]. destruct (columnLimit_total n inp Hn) as (out & -> & Ho & Hk & Hc);
        [done|]. eexists. split; [done|]. apply Hpure; auto. apply derived_sub.
      intros fam col c. rewrite Hc, sort_cells_perm. intros (i & Hi' & _)%elem_of_take. by eapply list_elem_of_lookup_2.
Qed.
End eval.

(** ** Bounds on filter trees *)

Fixpoint filter_depth (f : RowFilter) : Z :=
  let opt o := match o with Some g => 1 + filter_depth g | None => 0 end in
  match f with
  | Filter_Chain subs | Filter_Interleave subs =>
      foldr (fun g d => Z.max (1 + filter_depth g) d) 0 subs
  | Filter_Condition p t e => Z.max (opt p) (Z.max (opt t) (opt e))
  | _ => 0
  end.

Lemma foldr_max_le (g : RowFilter -> Z) subs b :
  0 <= b -> Forall (fun f => 1 + g f <= b) subs -> foldr (fun f d => Z.max (1 + g f) d) 0 subs <= b.
Proof. intros Hb. induction 1; cbn [foldr]; lia. Qed.

Section depth.
Context {regexp : Type} (Compile : bytes -> option regexp).

Lemma validated_at_depth f depth inCond :
  validateFilterAt Compile f depth inCond = Ret tt -> depth <= maxFilterDepth.
Proof. destruct f; cbn; destruct (Z.ltb_spec maxFilterDepth depth); unfold maxFilterDepth in *; done || lia. Qed.

Lemma validated_depth f : forall depth inCond,
  validateFilterAt Compile f depth inCond = Ret tt -> depth + filter_depth f <= maxFilterDepth.
Proof.
  induction f as [subs IH|subs IH|p t e IHp IHt IHe|f Hf] using RowFilter_ind'; intros depth inCond Hv;
    pose proof (validated_at_depth _ _ _ Hv) as Hd.
  - apply validated_chain in Hv. cbn [filter_depth].
    enough (foldr (fun f d => Z.max (1 + filter_depth f) d) 0 subs <= maxFilterDepth - depth) by lia.
    apply foldr_max_le; [lia|]. rewrite list.Forall_forall in *. intros sub Hin.
    specialize (IH sub Hin _ _ (Hv sub Hin)). lia.
  - apply validated_interleave in Hv. cbn [filter_depth].
    enough (foldr (fun f d => Z.max (1 + filter_depth f) d) 0 subs <= maxFilterDepth - depth) by lia.
    apply foldr_max_le; [lia|]. rewrite list.Forall_forall in *. intros sub Hin.
    specialize (IH sub Hin _ _ (Hv sub Hin)). lia.
  - cbn [validateFilterAt] in Hv. destruct (maxFilterDepth <? depth); [done|]. inv_outcome.
    repeat match goal with u : unit |- _ => destruct u end.
    assert (forall o, option_all (fun f => forall depth inCond,
        validateFilterAt Compile f depth inCond = Ret tt -> depth + filter_depth f <= maxFilterDepth) o ->
      match o with None => Ret tt | Some sub => validateFilterAt Compile sub (depth + 1) true end = Ret tt ->
      depth + (match o with Some g => 1 + filter_depth g | None => 0 end) <= maxFilterDepth) as Hopt.
    { intros [g|] Ho Hg; [|lia]. cbn in Ho. specialize (Ho _ _ Hg). lia. }
    cbn [filter_depth]. pose proof (Hopt p IHp). pose proof (Hopt t IHt). pose proof (Hopt e IHe).
    intuition lia.
  - destruct f; try done; cbn; lia.
Qed.
End depth.

(** ** Properties *)

(** A validated filter evaluates on every normal row. *)
Lemma filterRow_ok {regexp : Type} (Compile : bytes -> option regexp)
    (MatchString : regexp -> bytes -> bool) (randFloat : nat -> float64) f r draws :
  validateFilter Compile f = Ret tt -> option_all (fun f => wire_filter f = true) f -> normal_row r ->
  exists r' draws', filterRow Compile MatchString randFloat f r draws = Ret (r', negb (isEmpty r'), draws') /\
    normal_row r' /\ key r' = key r /\ derived r r'.
Proof.
  intros Hv Hw Hr. destruct f as [f|]; [|exists r, draws; cbn; auto with lbt].
  cbn in Hw. destruct (evaluates_total Compile MatchString randFloat f 0 false Hw Hv r
    (mkFstate (newRow (key r)) draws) Hr) as ([out st] & E & [Hn Hk Hd Hs Hsk Hsd]); [apply newRow_normal|].
  unfold filterRow. rewrite Hv. cbn [mbind outcome_bind fst snd fs_sink] in *. rewrite E.
  cbn [mbind outcome_bind]. cbn zeta.
  assert (normal_row (mergeCells out (fs_sink st))) as Hm by eauto using mergeCells_normal, row_ok_names.
  rewrite normalize_id by done. eexists _, _. split; [done|]. split; [done|]. split; [done|].
  change (derived r (mergeCells out (fs_sink st))). apply derived_merge; [by eapply row_ok_names|done|]. eapply derived_trans; [|exact Hsd].
  apply derived_merge; [by eapply row_ok_names|apply derived_newRow|apply derived_refl].
Qed.

(** A concrete regular-expression engine for the examples: patterns are
    literal, anchored as [newRegexp] anchors them. *)
Module Literal.
Definition Compile (pat : bytes) : option bytes := Some pat.
Definition MatchString (rx s : bytes) : bool := bytes_eqb rx (str "^(?:" ++ s ++ str ")$").
Definition randFloat (n : nat) : float64 := F_Fin (Z.of_nat n) 7.
Definition sample : row := Sample.row1.
Definition sample_filter : RowFilter :=
  Filter_Interleave [Filter_Chain [Filter_FamilyNameRegex [97]; Filter_StripValue true];
                     Filter_Condition (Some (Filter_CellsPerRowLimit 1)) (Some (Filter_PassAll true)) None;
                     Filter_Sink true; Filter_CellsPerRowOffset 1].

Lemma sample_normal : normal_row sample.
Proof. apply stored_normal, Sample.row1_stored. Qed.
End Literal.

(** C38: A row filter that [validateFilter] accepts is evaluated without error and without panic
    on every normal row; the result is a normal row with the same key, every cell of it
    comes from a cell of the same column of the input (timestamp kept, value kept or
    stripped), and the flag says whether any cell is left.  The filter has a range message
    in every timestamp-range filter ([wire_filter]); one without is accepted by
    [validateFilter] and panics when it is evaluated. *)
Theorem filterRow_total {regexp : Type} (Compile : bytes -> option regexp)
    (MatchString : regexp -> bytes -> bool) (randFloat : nat -> float64) f r draws :
  validateFilter Compile f = Ret tt -> option_all (fun f => wire_filter f = true) f -> normal_row r ->
  exists r' draws', filterRow Compile MatchString randFloat f r draws = Ret (r', negb (isEmpty r'), draws') /\
    normal_row r' /\ key r' = key r /\ derived r r'.
Proof. apply filterRow_ok. Qed.

Lemma filterRow_total_witness :
  exists r' draws', filterRow Literal.Compile Literal.MatchString Literal.randFloat
      (Some Literal.sample_filter) Literal.sample 0 =
      Ret (r', negb (isEmpty r'), draws') /\
    normal_row r' /\ key r' = key Literal.sample /\ derived Literal.sample r'.
Proof. apply filterRow_total; [reflexivity|reflexivity|apply Literal.sample_normal]. Defined.

(** A validated filter tree is at most [maxFilterDepth] deep, whatever
    the regular-expression engine. *)
Theorem validateFilter_depth {regexp : Type} (Compile : bytes -> option regexp) f :
  validateFilter Compile (Some f) = Ret tt -> filter_depth f <= maxFilterDepth.
Proof. intros Hv. pose proof (validated_depth Compile f 0 false Hv). lia. Qed.

Lemma validateFilter_depth_witness : filter_depth Literal.sample_filter <= maxFilterDepth.
Proof. apply (validateFilter_depth Literal.Compile). reflexivity. Defined.

(** The per-row cell limit keeps exactly the first [n] cells of the row in
    response order (families by creation order, columns by name, cells newest
    first) and the offset exactly the others, so that a limit and an offset
    with the same count split the row. *)
Theorem row_limit_offset_split {regexp : Type} (Compile : bytes -> option regexp)
    (MatchString : regexp -> bytes -> bool) (randFloat : nat -> float64) n r st :
  normal_row r -> 0 <= n ->
  exists first rest,
    evalFilter Compile MatchString randFloat (Filter_CellsPerRowLimit n) r st = Ret (first, st) /\
    evalFilter Compile MatchString randFloat (Filter_CellsPerRowOffset n) r st = Ret (rest, st) /\
    row_cells first ++ row_cells rest = row_cells r /\
    Z.of_nat (length (row_cells first)) = Z.min n (Z.of_nat (length (row_cells r))).
Proof.
  intros Hr Hn. destruct (rowLimit_total n r Hr Hn) as (a & Ea & _ & _ & Ha).
  destruct (rowOffset_total n r Hr Hn) as (b & Eb & _ & _ & Hb).
  exists a, b. cbn [evalFilter]. rewrite Ea, Eb, Ha, Hb. split; [done|]. split; [done|].
  rewrite take_drop, length_take. split; [done|lia].
Qed.

Lemma row_limit_offset_split_witness :
  exists first rest,
    evalFilter Literal.Compile Literal.MatchString Literal.randFloat (Filter_CellsPerRowLimit 2)
      Literal.sample (mkFstate (newRow [107]) 0) = Ret (first, mkFstate (newRow [107]) 0) /\
    evalFilter Literal.Compile Literal.MatchString Literal.randFloat (Filter_CellsPerRowOffset 2)
      Literal.sample (mkFstate (newRow [107]) 0) = Ret (rest, mkFstate (newRow [107]) 0) /\
    row_cells first ++ row_cells rest = row_cells Literal.sample /\
    Z.of_nat (length (row_cells first)) = Z.min 2 (Z.of_nat (length (row_cells Literal.sample))).
Proof. apply row_limit_offset_split; [apply Literal.sample_normal|lia]. Defined.

(** A validated per-cell filter (family, qualifier or value pattern, column,
    timestamp or value range, bitmask, strip, label) keeps in every column
    exactly the included cells, in their order, each changed as the
    transformer says. *)
Theorem cell_filter_spec {regexp : Type} (Compile : bytes -> option regexp)
    (MatchString : regexp -> bytes -> bool) (randFloat : nat -> float64) f depth inCond r st :
  cell_filter f = true -> wire_filter f = true -> validateFilterAt Compile f depth inCond = Ret tt ->
  normal_row r ->
  exists out, evalFilter Compile MatchString randFloat f r st = Ret (out, st) /\
    forall fam col, cells_at out fam col =
      modified f <$> filter (fun c => included Compile MatchString f fam col c = true)
                            (cells_at r fam col).
Proof.
  intros Hc Hw Hv Hr.
  assert (forall fam col c, includeCell Compile MatchString f fam col c =
      Ret (included Compile MatchString f fam col c) /\ modifyCell f c = Ret (modified f c)) as Hi
    by (intros; by eapply cell_filter_total).
  destruct (filterCells_total Compile MatchString f r (row_ok_names _ _ Hr) Hi) as (out & E & _ & _ & Ho).
  exists out. split.
  - by destruct f; try done; cbn [evalFilter]; rewrite E.
  - intros fam col. rewrite Ho, sort_cells_id by (by apply modified_filter_desc, normal_cells).
    done.
Qed.

Lemma cell_filter_spec_witness :
  exists out, evalFilter Literal.Compile Literal.MatchString Literal.randFloat
      (Filter_TimestampRange (Some (mkTimestampRange 1000 2000))) Literal.sample
      (mkFstate (newRow [107]) 0) = Ret (out, mkFstate (newRow [107]) 0) /\
    forall fam col, cells_at out fam col =
      modified (Filter_TimestampRange (Some (mkTimestampRange 1000 2000))) <$>
        filter (fun c => included Literal.Compile Literal.MatchString
                           (Filter_TimestampRange (Some (mkTimestampRange 1000 2000))) fam col c = true)
               (cells_at Literal.sample fam col).
Proof.
  apply (cell_filter_spec _ _ _ _ 0 false); [reflexivity..|apply Literal.sample_normal].
Defined.

(** An Interleave of validated filters evaluates its branches in order on
    the same row and keeps in every column the cells of all branches,
    duplicates included, sorted newest first. *)
Theorem interleave_union {regexp : Type} (Compile : bytes -> option regexp)
    (MatchString : regexp -> bytes -> bool) (randFloat : nat -> float64) subs r st :
  validateFilter Compile (Some (Filter_Interleave subs)) = Ret tt ->
  wire_filter (Filter_Interleave subs) = true -> normal_row r -> normal_row (fs_sink st) ->
  exists branches st' out,
    foldM (fun '(bs, st) sub => '(b, st) ← evalFilter Compile MatchString randFloat sub r st;
                                Ret (bs ++ [b], st)) ([], st) subs = Ret (branches, st') /\
    evalFilter Compile MatchString randFloat (Filter_Interleave subs) r st = Ret (out, st') /\
    forall fam col, cells_at out fam col ≡ₚ (branches ≫= fun b => cells_at b fam col) /\
                    desc_le (cells_at out fam col).
Proof.
  intros Hv Hw Hr Hs. apply validated_interleave in Hv. cbn in Hw. rewrite forallb_forall in Hw.
  assert (Forall (evaluates Compile MatchString randFloat) subs) as He.
  { rewrite list.Forall_forall in *. intros sub Hin. eapply evaluates_total; [|by apply Hv].
    by apply Hw, list_elem_of_In. }
  clear Hv Hw. cbn [evalFilter].
  assert (forall bs acc st, normal_row acc -> normal_row (fs_sink st) ->
    (forall fam col, cells_at acc fam col ≡ₚ (bs ≫= fun b => cells_at b fam col)) ->
    exists branches st' out,
      foldM (fun '(bs, st) sub => '(b, st) ← evalFilter Compile MatchString randFloat sub r st;
                                Ret (bs ++ [b], st)) (bs, st) subs = Ret (branches, st') /\
      foldM (fun '(out, st) sub => '(branch, st) ← evalFilter Compile MatchString randFloat sub r st;
                                Ret (mergeCells out branch, st)) (acc, st) subs = Ret (out, st') /\
      normal_row out /\
      forall fam col, cells_at out fam col ≡ₚ (branches ≫= fun b => cells_at b fam col)) as Hloop.
  { induction He as [|sub subs Hsub _ IH]; intros bs acc st0 Ha Hs0 Hc; [eauto 10|].
    cbn [foldM]. destruct (Hsub r st0 Hr Hs0) as ([b st1] & -> & [Hn _ _ Hs1 _ _]). cbn in *.
    apply IH; [by eauto using mergeCells_normal, row_ok_names|done|].
    intros fam col. rewrite cells_at_mergeCells, sort_cells_perm, Hc, bind_app by (by eapply row_ok_names).
    cbn. by rewrite app_nil_r. }
  destruct (Hloop [] (newRow (key r)) st) as (bs & st' & out & E1 & E2 & Hn & Hc); auto with lbt.
  exists bs, st', out. rewrite E1, E2. split; [done|]. cbn [mbind outcome_bind].
  rewrite normalize_id by done. split; [done|]. split; [apply Hc|by apply normal_cells].
Qed.

Lemma interleave_union_witness :
  exists branches st' out,
    foldM (fun '(bs, st) sub => '(b, st) ← evalFilter Literal.Compile Literal.MatchString
                                  Literal.randFloat sub Literal.sample st;
                                Ret (bs ++ [b], st)) ([], mkFstate (newRow [107]) 0)
      [Filter_PassAll true; Filter_StripValue true] = Ret (branches, st') /\
    evalFilter Literal.Compile Literal.MatchString Literal.randFloat
      (Filter_Interleave [Filter_PassAll true; Filter_StripValue true]) Literal.sample
      (mkFstate (newRow [107]) 0) = Ret (out, st') /\
    forall fam col, cells_at out fam col ≡ₚ (branches ≫= fun b => cells_at b fam col) /\
                    desc_le (cells_at out fam col).
Proof.
  apply interleave_union; [reflexivity..|apply Literal.sample_normal|apply newRow_normal].
Defined.

(** A sampling probability that is not a number passes [validateFilter],
    although it is not in the open interval (0, 1) the check asks for, and
    the sampled row is then always dropped. *)
Theorem row_sample_nan {regexp : Type} (Compile : bytes -> option regexp)
    (MatchString : regexp -> bytes -> bool) (randFloat : nat -> float64) r draws :
  validateFilter Compile (Some (Filter_RowSample F_NaN)) = Ret tt /\
  exists r', filterRow Compile MatchString randFloat (Some (Filter_RowSample F_NaN)) r draws =
    Ret (r', false, S draws) /\ forall fam col, cells_at r' fam col = [].
Proof.
  split; [done|]. unfold filterRow. cbn [mbind outcome_bind evalFilter].
  change (validateFilter Compile (Some (Filter_RowSample F_NaN))) with (Ret tt). cbn [mbind outcome_bind].
  assert (float_ltb (randFloat draws) F_NaN = false) as Hf by (by destruct (randFloat draws)).
  cbn [fs_draws]. rewrite Hf. cbn [mbind outcome_bind fs_sink fs_draws]. cbn zeta.
  set (r' := set_families r _). assert (forall fam col, cells_at r' fam col = []) as Hc.
  { intros fam col. subst r'.
    change (cells_at (normalize (mergeCells (newRow (key r)) (newRow (key r)))) fam col = []).
    rewrite cells_at_normalize, cells_at_mergeCells by (by eapply row_ok_names, newRow_normal). done. }
  exists r'. rewrite (proj2 (isEmpty_spec r') Hc). done.
Qed.
