(* ===== verification/Server.v ===== *)
(** * Tables and the server's state

    The [table] and [server] records of [inmem.go] with the admin messages
    they hold, resource-name helpers, and the lookups every request starts
    with. *)

From S2P Require Import Prelude Proto Rows Mutations.
From stdpp Require Import base list gmap sorting.
From Stdlib Require Import ZArith Lia.

#[local] Open Scope Z_scope.

(** ** Admin messages *)

(** [ChangeStreamConfig]; the retention period in nanoseconds when set. *)
Record ChangeStreamConfig : Type := mkChangeStreamConfig { RetentionPeriod : option Z }.

Record AutomatedBackupPolicy : Type := mkBackupPolicy {
  bp_RetentionPeriod : option Z;
  bp_Frequency : option Z;
  bp_Locations : list bytes;
  bp_KeepHotDuration : option Z;
  bp_Disabled : bool }.

(** A field of a row-key schema. *)
Record Type_Struct_Field : Type := mkField { FieldName : bytes; FieldType : Type_ }.

Inductive StructEncoding : Type :=
| Encoding_Unset
| Encoding_Singleton
| Encoding_DelimitedBytes (delimiter : bytes)
| Encoding_OrderedCodeBytes.

Record Type_Struct : Type := mkStruct { Fields : list Type_Struct_Field; Encoding : StructEncoding }.

Record FamilySubsets : Type := mkFamilySubsets { Qualifiers : list bytes; QualifierPrefixes : list bytes }.

(** [AuthorizedView] with its subset view. *)
Record SubsetView : Type := mkSubsetView { sv_RowPrefixes : list bytes; sv_FamilySubsets : gmap bytes FamilySubsets }.
Record AuthorizedView : Type := mkAuthorizedView {
  av_Name : bytes;
  av_SubsetView : option SubsetView;
  av_Etag : bytes;
  av_DeletionProtection : bool }.
(** The nil-safe getters of the subset view. *)
Definition av_RowPrefixes (av : AuthorizedView) : list bytes := from_option sv_RowPrefixes [] (av_SubsetView av).
Definition av_FamilySubsets (av : AuthorizedView) : gmap bytes FamilySubsets := from_option sv_FamilySubsets ∅ (av_SubsetView av).

(** [SchemaBundle]: serialized descriptors, or the JSON text of Avro schemas. *)
Inductive SchemaBundle_Type : Type :=
| Bundle_Unset
| Bundle_ProtoSchema (protoDescriptors : bytes)
| Bundle_AvroSchema (jsonSchemas : list bytes).
Record SchemaBundle : Type := mkSchemaBundle { sb_Name : bytes; sb_Etag : bytes; sb_Type : SchemaBundle_Type }.

(** An IAM [Policy]; bindings and audit configurations are opaque. *)
Record Policy : Type := mkPolicy {
  po_Version : Z; po_Bindings : list bytes; po_AuditConfigs : list bytes; po_Etag : bytes }.

(** [Instance], as far as the sources read it. *)
Inductive Instance_Type : Type := TYPE_UNSPECIFIED | PRODUCTION | DEVELOPMENT.
Inductive Instance_Edition : Type := EDITION_UNSPECIFIED | ENTERPRISE | ENTERPRISE_PLUS.
Record Instance : Type := mkInstance {
  in_Name : bytes; in_DisplayName : bytes; in_Type : Instance_Type; in_Edition : Instance_Edition;
  in_Labels : gmap bytes bytes; in_CreateTime : Z }.

(** [Cluster]; its configuration is opaque. *)
Inductive StorageType : Type := STORAGE_TYPE_UNSPECIFIED | SSD | HDD.
Record Cluster : Type := mkCluster {
  cl_Name : bytes; cl_Location : bytes; cl_ServeNodes : Z; cl_StorageType : StorageType;
  cl_Config : option bytes; cl_NodeScalingFactor : Z }.

(** [AppProfile] with its routing policy and isolation. *)
Inductive RoutingPolicy : Type :=
| Routing_Unset
| Routing_Single (clusterId : bytes) (allowTransactionalWrites : bool)
| Routing_Any (clusterIds : list bytes).
Inductive Isolation : Type := Isolation_Unset | Isolation_Standard (priority : Z) | Isolation_DataBoost (owner : Z).
Record AppProfile : Type := mkAppProfile {
  ap_Name : bytes; ap_Description : bytes; ap_Etag : bytes; ap_Routing : RoutingPolicy; ap_Isolation : Isolation }.

(** [GetSingleClusterRouting()], with its [allow_transactional_writes]. *)
Definition ap_SingleCluster (p : AppProfile) : option bool :=
  match ap_Routing p with Routing_Single _ allow => Some allow | _ => None end.
Definition ap_DataBoost (p : AppProfile) : bool :=
  match ap_Isolation p with Isolation_DataBoost _ => true | _ => false end.

(** [adminpb.ColumnFamily]. *)
Record ColumnFamily : Type := mkCF { cfm_GcRule : option GcRule; cfm_ValueType : option Type_ }.

(** [RestoreInfo] of a table restored from a backup: the [BackupInfo]. *)
Record BackupInfo : Type := mkBackupInfo {
  bi_Backup : bytes; bi_StartTime : Z; bi_EndTime : Z; bi_SourceTable : bytes; bi_SourceBackup : bytes }.

(** ** The [table] and [server] structs *)

Record table : Type := mkTable {
  t_parent : bytes;
  t_tableId : bytes;
  t_storageId : bytes;
  t_counter : Z;
  t_families : gmap bytes columnFamily;
  t_backupPolicy : option AutomatedBackupPolicy;
  t_deletionProtection : bool;
  t_changeStream : option ChangeStreamConfig;
  t_rowKeySchema : option Type_Struct;
  t_tieredStorage : option bytes;   (* [TieredStorageConfig], opaque *)
  t_granularity : Table_TimestampGranularity;
  t_restoreInfo : option BackupInfo;
  t_initialSplits : list bytes;
  t_createTime : Z;
  t_deleteTime : option Z }.

(** A materialized view, as far as commits to its source concern it. *)
Record materializedView : Type := mkMV {
  mv_source : bytes; mv_storage : table; mv_dirty : bool; mv_DeletionProtection : bool }.

Record server : Type := mkServer {
  s_instances : gmap bytes Instance;
  s_clusters : gmap bytes Cluster;
  s_appProfiles : gmap bytes AppProfile;
  s_tables : gmap bytes table;
  s_deletedTables : gmap bytes table;
  s_mvs : gmap bytes materializedView;
  s_opSeq : Z }.

Definition set_instances (s : server) m : server :=
  mkServer m (s_clusters s) (s_appProfiles s) (s_tables s) (s_deletedTables s) (s_mvs s) (s_opSeq s).
Definition set_clusters (s : server) m : server :=
  mkServer (s_instances s) m (s_appProfiles s) (s_tables s) (s_deletedTables s) (s_mvs s) (s_opSeq s).
Definition set_appProfiles (s : server) m : server :=
  mkServer (s_instances s) (s_clusters s) m (s_tables s) (s_deletedTables s) (s_mvs s) (s_opSeq s).
Definition set_mvs (s : server) m : server :=
  mkServer (s_instances s) (s_clusters s) (s_appProfiles s) (s_tables s) (s_deletedTables s) m (s_opSeq s).
Definition set_tables (s : server) m : server :=
  mkServer (s_instances s) (s_clusters s) (s_appProfiles s) m (s_deletedTables s) (s_mvs s) (s_opSeq s).
Definition set_deletedTables (s : server) m : server :=
  mkServer (s_instances s) (s_clusters s) (s_appProfiles s) (s_tables s) m (s_mvs s) (s_opSeq s).
Definition set_opSeq (s : server) n : server :=
  mkServer (s_instances s) (s_clusters s) (s_appProfiles s) (s_tables s) (s_deletedTables s) (s_mvs s) n.

(** ** Methods of [table] *)

Definition table_name (t : table) : bytes := t_parent t ++ str "/tables/" ++ t_tableId t.
Definition storageName (t : table) : bytes := t_parent t ++ str "/tables/" ++ t_storageId t.
Definition deleted (t : table) : bool := bool_decide (is_Some (t_deleteTime t)).

Definition changeStreamRetention (t : table) : Z :=
  match t_changeStream t with
  | None => 0
  | Some cfg => default 0 (RetentionPeriod cfg)
  end.

Definition changeStreamEnabled (t : table) : bool :=
  match t_changeStream t with
  | None => false
  | Some cfg => 0 <? default 0 (RetentionPeriod cfg)
  end.

Definition gcRulesNoLock (t : table) : gmap bytes GcRule := omap cf_GCRule (t_families t).

(** ** String helpers of the Go library *)

(** [strings.HasPrefix]. *)
Fixpoint HasPrefix (s p : bytes) {struct p} : bool :=
  match p, s with
  | [], _ => true
  | c :: p', d :: s' => (c =? d) && HasPrefix s' p'
  | _ :: _, [] => false
  end.

Lemma HasPrefix_spec s p : HasPrefix s p = true <-> exists rest, s = p ++ rest.
Proof.
  revert s. induction p as [|c p IH]; intros s; cbn; [split; [intros _; by exists s|done]|].
  destruct s as [|d s]; [split; [done|by intros [? [=]]]|].
  rewrite andb_true_iff, Z.eqb_eq, IH. split.
  - intros [-> [rest ->]]. by exists rest.
  - intros [rest [= -> ->]]. split; [done|]. by exists rest.
Qed.

(** [strings.LastIndex]: the last position where [sub] occurs. *)
Fixpoint LastIndex (s sub : bytes) : option nat :=
  match s with
  | [] => if HasPrefix s sub then Some 0%nat else None
  | _ :: s' =>
      match LastIndex s' sub with
      | Some i => Some (S i)
      | None => if HasPrefix s sub then Some 0%nat else None
      end
  end.

(** [strings.SplitN(s, "/", n)] for [n >= 1]: at most [n] parts. *)
Fixpoint splitSlash (n : nat) (cur : bytes) (s : bytes) : list bytes :=
  match s with
  | [] => [cur]
  | c :: s' =>
      match n with
      | S (S n' as m) => if c =? 47 then cur :: splitSlash m [] s' else splitSlash n (cur ++ [c]) s'
      | _ => [cur ++ s]
      end
  end.

(** [strings.Join(parts, "/")]. *)
Fixpoint joinSlash (parts : list bytes) : bytes :=
  match parts with
  | [] => []
  | [p] => p
  | p :: parts' => p ++ str "/" ++ joinSlash parts'
  end.

Definition tableInstance (name : bytes) : bytes :=
  let parts := splitSlash 5 [] name in
  if (4 <=? length parts)%nat then joinSlash (take 4 parts) else name.

Definition authorizedViewParentTable (name : bytes) : bytes :=
  match LastIndex name (str "/authorizedViews/") with
  | None => name
  | Some idx => take idx name
  end.

(** ** Lookups *)

Definition localRequireTable (s : server) (tableName : bytes) : outcome table :=
  match s_tables s !! tableName with None => Err NotFound | Some t => Ret t end.

Definition resolveAppProfile (s : server) (instance id : bytes) : outcome (option AppProfile) :=
  if bool_decide (is_Some (s_instances s !! instance)) then
    let id := match id with [] => str "default" | _ => id end in
    match s_appProfiles s !! (instance ++ str "/appProfiles/" ++ id) with
    | Some p => Ret (Some p)
    | None => if bool_decide (id = str "default") then Ret None else Err NotFound
    end
  else Ret None.

Definition isDataBoostProfile (p : option AppProfile) : bool := from_option ap_DataBoost false p.

(** [singleTarget]: exactly one of the names is set. *)
Definition singleTarget (names : list bytes) : outcome bytes :=
  found ← foldM (fun found n =>
    match n with
    | [] => Ret found
    | _ => match found with [] => Ret n | _ => Err InvalidArgument end
    end) [] names;
  match found with [] => Err InvalidArgument | _ => Ret found end.
