(* ===== verification/Store.v ===== *)
(** * Storage

    [storage.go] and the SQL tables of [sql_schema.go] a request touches: the
    database as finite maps, requests as a state monad whose statements may
    fail at any point and whose clock readings are arbitrary, transactions
    ([withTx]) and the row store ([SqlRows]).

    The SQL engine executes the statements the sources give it; what is
    modelled is the statements' meaning on the tables.  The engine's failures
    are an oracle: the [n]-th call to the driver fails or not.  The gob codec
    of row contents is an interface. *)

From S2P Require Import Prelude Proto Rows Hll Mutations Server.
From stdpp Require Import base list gmap sorting.
From Stdlib Require Import ZArith Lia.

#[local] Open Scope Z_scope.

(** ** Interfaces to the outside *)

(** [encoding/gob] on the family map of a row: decoding an encoding gives
    the value back. *)
Class Gob (blob : Type) : Type := {
  gob_encode : gmap bytes family -> option blob;
  gob_decode : blob -> option (gmap bytes family);
  gob_roundtrip m b : gob_encode m = Some b -> gob_decode b = Some m }.

(** Rows kept as they are: the instance used for concrete runs. *)
#[global, refine] Instance plain_gob : Gob (gmap bytes family) :=
  {| gob_encode := Some; gob_decode := Some |}.
Proof. by intros m b [= ->]. Defined.

(** How a driver call fails: the request context was cancelled or expired,
    or anything else. *)
Inductive fault : Type := F_Canceled | F_DeadlineExceeded | F_Other.

(** The driver, the clock and the random source: whether the [n]-th driver
    call fails, the [n]-th reading of [time.Now().UnixNano()], and the [n]-th
    draw of [rand.Float64]. *)
Class Env : Type := mkEnv {
  driver : nat -> option fault;
  clock : nat -> Z;
  random : nat -> float64 }.

(** An error that is not a gRPC status has code [Unknown], as in
    [status.Convert]; the context errors are recognised by [storageErr]. *)
Definition fault_code (f : fault) : Code :=
  match f with
  | F_Canceled => Canceled
  | F_DeadlineExceeded => DeadlineExceeded
  | F_Other => Unknown
  end.

Definition storageErr (c : Code) : Code :=
  match c with Unknown => Internal | c => c end.

(** ** Data *)

Inductive ChangeType : Type := USER | GARBAGE_COLLECTION.

(** A record of [change_stream_t]. *)
Record changeRecord : Type := mkChangeRecord {
  cr_id : Z;
  cr_table : bytes;
  cr_rowKey : bytes;
  cr_type : ChangeType;
  cr_commitMicros : Z;
  cr_mutations : list Mutation }.

(** [Backup]: what the sources read of it; times in nanoseconds. *)
Inductive BackupType : Type := BACKUP_TYPE_UNSPECIFIED | STANDARD | HOT | BACKUP_TYPE_OTHER (n : Z).
Inductive BackupState : Type := BACKUP_STATE_UNSPECIFIED | CREATING | READY.
Record Backup : Type := mkBackup {
  bk_Name : bytes; bk_SourceTable : bytes; bk_SourceBackup : bytes;
  bk_ExpireTime : option Z; bk_StartTime : Z; bk_EndTime : Z; bk_SizeBytes : Z;
  bk_State : BackupState; bk_Type : BackupType; bk_HotToStandardTime : option Z }.

(** [LogicalView]. *)
Record LogicalView : Type := mkLogicalView { lv_Name : bytes; lv_Query : bytes; lv_Etag : bytes; lv_DeletionProtection : bool }.

(** [tableRecord], with the fields of the schema message it contains. *)
Record tableRecord : Type := mkTableRecord {
  tr_ColumnFamilies : gmap bytes ColumnFamily;
  tr_Granularity : Table_TimestampGranularity;
  tr_DeletionProtection : bool;
  tr_ChangeStream : option ChangeStreamConfig;
  tr_RowKeySchema : option Type_Struct;
  tr_RestoreInfo : option BackupInfo;
  tr_BackupPolicy : option AutomatedBackupPolicy;
  tr_TieredStorage : option bytes;
  tr_FamilyOrder : gmap bytes Z;
  tr_Counter : Z;
  tr_InitialSplits : list bytes;
  tr_CreateMicros : Z;
  tr_DeleteMicros : Z;
  tr_TableID : bytes }.

(** The tables of admin metadata; a cluster and an app profile with their
    parent column, a backup manifest as the record it encodes. *)
Record metadata : Type := mkMetadata {
  instances_t : gmap bytes Instance;
  clusters_t : gmap bytes (bytes * Cluster);
  app_profiles_t : gmap bytes (bytes * AppProfile);
  logical_views_t : gmap bytes LogicalView;
  backups_t : gmap bytes Backup;
  backup_manifests_t : gmap bytes tableRecord }.

Record database (blob : Type) : Type := mkDatabase {
  rows_t : gmap (bytes * bytes * bytes) blob;            (* parent, table_id, row_key *)
  tables_t : gmap (bytes * bytes) table;                 (* parent, table_id *)
  change_stream_t : list changeRecord;
  change_stream_seq : Z;                                 (* last id assigned *)
  idempotency_t : gmap (bytes * bytes * bytes) Z;        (* table_name, row_key, token *)
  authorized_views_t : gmap bytes AuthorizedView;        (* name *)
  schema_bundles_t : gmap bytes SchemaBundle;            (* name *)
  iam_policies_t : gmap bytes Policy;                    (* resource *)
  operations_t : gset bytes;                             (* name *)
  meta_t : metadata }.
Arguments mkDatabase {blob} _ _ _ _ _ _ _ _ _ _.
Arguments rows_t {blob} _.
Arguments tables_t {blob} _.
Arguments change_stream_t {blob} _.
Arguments change_stream_seq {blob} _.
Arguments idempotency_t {blob} _.
Arguments authorized_views_t {blob} _.
Arguments schema_bundles_t {blob} _.
Arguments iam_policies_t {blob} _.
Arguments operations_t {blob} _.
Arguments meta_t {blob} _.

Definition set_rows_t {blob} (d : database blob) m : database blob :=
  mkDatabase m (tables_t d) (change_stream_t d) (change_stream_seq d) (idempotency_t d) (authorized_views_t d) (schema_bundles_t d) (iam_policies_t d) (operations_t d) (meta_t d).
Definition set_tables_t {blob} (d : database blob) m : database blob :=
  mkDatabase (rows_t d) m (change_stream_t d) (change_stream_seq d) (idempotency_t d) (authorized_views_t d) (schema_bundles_t d) (iam_policies_t d) (operations_t d) (meta_t d).
Definition set_change_stream_t {blob} (d : database blob) l seq : database blob :=
  mkDatabase (rows_t d) (tables_t d) l seq (idempotency_t d) (authorized_views_t d) (schema_bundles_t d) (iam_policies_t d) (operations_t d) (meta_t d).
Definition set_idempotency_t {blob} (d : database blob) m : database blob :=
  mkDatabase (rows_t d) (tables_t d) (change_stream_t d) (change_stream_seq d) m (authorized_views_t d) (schema_bundles_t d) (iam_policies_t d) (operations_t d) (meta_t d).
Definition set_authorized_views_t {blob} (d : database blob) m : database blob :=
  mkDatabase (rows_t d) (tables_t d) (change_stream_t d) (change_stream_seq d) (idempotency_t d) m (schema_bundles_t d) (iam_policies_t d) (operations_t d) (meta_t d).
Definition set_schema_bundles_t {blob} (d : database blob) m : database blob :=
  mkDatabase (rows_t d) (tables_t d) (change_stream_t d) (change_stream_seq d) (idempotency_t d) (authorized_views_t d) m (iam_policies_t d) (operations_t d) (meta_t d).
Definition set_iam_policies_t {blob} (d : database blob) m : database blob :=
  mkDatabase (rows_t d) (tables_t d) (change_stream_t d) (change_stream_seq d) (idempotency_t d) (authorized_views_t d) (schema_bundles_t d) m (operations_t d) (meta_t d).
Definition set_operations_t {blob} (d : database blob) m : database blob :=
  mkDatabase (rows_t d) (tables_t d) (change_stream_t d) (change_stream_seq d) (idempotency_t d) (authorized_views_t d) (schema_bundles_t d) (iam_policies_t d) m (meta_t d).
Definition set_meta_t {blob} (d : database blob) m : database blob :=
  mkDatabase (rows_t d) (tables_t d) (change_stream_t d) (change_stream_seq d) (idempotency_t d) (authorized_views_t d) (schema_bundles_t d) (iam_policies_t d) (operations_t d) m.

Definition set_instances_t (d : metadata) m : metadata :=
  mkMetadata m (clusters_t d) (app_profiles_t d) (logical_views_t d) (backups_t d) (backup_manifests_t d).
Definition set_clusters_t (d : metadata) m : metadata :=
  mkMetadata (instances_t d) m (app_profiles_t d) (logical_views_t d) (backups_t d) (backup_manifests_t d).
Definition set_app_profiles_t (d : metadata) m : metadata :=
  mkMetadata (instances_t d) (clusters_t d) m (logical_views_t d) (backups_t d) (backup_manifests_t d).
Definition set_logical_views_t (d : metadata) m : metadata :=
  mkMetadata (instances_t d) (clusters_t d) (app_profiles_t d) m (backups_t d) (backup_manifests_t d).
Definition set_backups_t (d : metadata) m : metadata :=
  mkMetadata (instances_t d) (clusters_t d) (app_profiles_t d) (logical_views_t d) m (backup_manifests_t d).
Definition set_backup_manifests_t (d : metadata) m : metadata :=
  mkMetadata (instances_t d) (clusters_t d) (app_profiles_t d) (logical_views_t d) (backups_t d) m.
Definition no_metadata : metadata := mkMetadata ∅ ∅ ∅ ∅ ∅ ∅.

(** The state a request runs in: the database, the server's maps, and how
    many driver calls, clock readings and random draws were made. *)
Record world (blob : Type) : Type := mkWorld {
  w_db : database blob;
  w_srv : server;
  w_calls : nat;
  w_ticks : nat;
  w_draws : nat }.
Arguments mkWorld {blob} _ _ _ _ _.
Arguments w_db {blob} _.
Arguments w_srv {blob} _.
Arguments w_calls {blob} _.
Arguments w_ticks {blob} _.
Arguments w_draws {blob} _.

Definition set_db {blob} (w : world blob) d : world blob :=
  mkWorld d (w_srv w) (w_calls w) (w_ticks w) (w_draws w).
Definition set_srv {blob} (w : world blob) s : world blob :=
  mkWorld (w_db w) s (w_calls w) (w_ticks w) (w_draws w).

(** ** The request monad *)

Definition M (blob A : Type) : Type := world blob -> outcome A * world blob.

#[global] Instance M_ret blob : MRet (M blob) := fun A a w => (Ret a, w).
#[global] Instance M_bind blob : MBind (M blob) := fun A B f m w =>
  let '(r, w') := m w in
  match r with Ret a => f a w' | Err c => (Err c, w') | Panic => (Panic, w') end.

Definition lift {blob A} (r : outcome A) : M blob A := fun w => (r, w).
Definition fail {blob A} (c : Code) : M blob A := lift (Err c).

(** The server's maps, under [s.mu]. *)
Definition getServer {blob} : M blob server := fun w => (Ret (w_srv w), w).
Definition putServer {blob} (s : server) : M blob unit := fun w => (Ret tt, set_srv w s).

(** [if err != nil { return f(err) }]. *)
Definition mapErr {blob A} (f : Code -> Code) (m : M blob A) : M blob A := fun w =>
  let '(r, w') := m w in
  (match r with Err c => Err (f c) | r => r end, w').

(** [if err := m(); err != nil { ...; continue }]: the error as a value. *)
Definition catch {blob A} (m : M blob A) : M blob (A + Code) := fun w =>
  let '(r, w') := m w in
  (match r with Ret a => Ret (inl a) | Err c => Ret (inr c) | Panic => Panic end, w').

Section forM.
Context {blob A B : Type} (f : B -> A -> M blob B).
Fixpoint forM (b : B) (l : list A) : M blob B :=
  match l with
  | [] => mret b
  | a :: l' => b' ← f b a; forM b' l'
  end.
End forM.

Section store.
Context {blob : Type} `{!Gob blob} `{!Env}.

(** A driver call: it fails without effect, or runs the statement. *)
Definition call {A} (f : database blob -> outcome A * database blob) : M blob A := fun w =>
  let w' := mkWorld (w_db w) (w_srv w) (S (w_calls w)) (w_ticks w) (w_draws w) in
  match driver (w_calls w) with
  | Some flt => (Err (fault_code flt), w')
  | None => let '(r, d) := f (w_db w) in (r, set_db w' d)
  end.

(** [time.Now()] in nanoseconds, and its [UnixMicro()]. *)
Definition timeNow : M blob Z := fun w =>
  (Ret (clock (w_ticks w)), mkWorld (w_db w) (w_srv w) (w_calls w) (S (w_ticks w)) (w_draws w)).
Definition nowMicro : M blob Z := t ← timeNow; mret (t / 1000).

(** [withTx]: the statements of [fn] take effect together when it and the
    commit succeed; an error or a panic rolls them back. *)
Definition withTx {A} (fn : M blob A) : M blob A := fun w =>
  let rollback (w' : world blob) := set_db w' (w_db w) in
  match call (fun d => (Ret tt, d)) w with
  | (Ret _, w0) =>
      match fn w0 with
      | (Ret a, w1) =>
          match call (fun d => (Ret tt, d)) w1 with
          | (Ret _, w2) => (Ret a, w2)
          | (Err c, w2) => (Err c, rollback w2)
          | (Panic, w2) => (Panic, rollback w2)
          end
      | (Err c, w1) => (Err c, rollback w1)
      | (Panic, w1) => (Panic, rollback w1)
      end
  | (Err c, w0) => (Err c, w0)
  | (Panic, w0) => (Panic, w0)
  end.

(** ** Key ranges *)

Record keyRange : Type := mkKeyRange { kr_start : bytes; kr_end : bytes }.

Definition contains (r : keyRange) (k : bytes) : bool :=
  bytes_leb (kr_start r) k && (bool_decide (kr_end r = []) || bytes_ltb k (kr_end r)).

Definition kr_empty (r : keyRange) : bool :=
  negb (bool_decide (kr_end r = [])) && bytes_leb (kr_end r) (kr_start r).

(** ** The row store *)

Record SqlRows : Type := mkSqlRows { sr_parent : bytes; sr_tableId : bytes }.

(** [row.Scan] on the blob of a row. *)
Definition row_Scan (k : bytes) (b : blob) : outcome row :=
  match gob_decode b with Some m => Ret (mkRow k m) | None => Err Unknown end.

Definition SqlRows_load (t : SqlRows) (k : bytes) : M blob (option row) :=
  call (fun d =>
    match rows_t d !! (sr_parent t, sr_tableId t, k) with
    | None => (Ret None, d)
    | Some b => (r ← row_Scan k b; Ret (Some r), d)
    end).

Definition SqlRows_remove (t : SqlRows) (k : bytes) : M blob unit :=
  call (fun d => (Ret tt, set_rows_t d (delete (sr_parent t, sr_tableId t, k) (rows_t d)))).

Definition SqlRows_save (t : SqlRows) (r : row) : M blob unit :=
  if isEmpty r then SqlRows_remove t (key r)
  else match gob_encode (families r) with
  | None => fail Unknown
  | Some b => call (fun d =>
      (Ret tt, set_rows_t d (<[(sr_parent t, sr_tableId t, key r) := b]> (rows_t d))))
  end.

Definition SqlRows_clear (t : SqlRows) : M blob unit :=
  call (fun d => (Ret tt, set_rows_t d
    (filter (fun '((p, i, _), _) => ~ (p = sr_parent t /\ i = sr_tableId t)) (rows_t d)))).

(** The rows of the table inside [rng], as [(row_key, families)], in key
    order. *)
Definition selectRows (t : SqlRows) (d : database blob) (rng : keyRange) : list (bytes * blob) :=
  isort (fun a b => bytes_leb a.1 b.1)
    (omap (fun '((p, i, k), b) =>
       if bool_decide (p = sr_parent t) && bool_decide (i = sr_tableId t) &&
          (bool_decide (kr_start rng = []) || bytes_leb (kr_start rng) k) &&
          (bool_decide (kr_end rng = []) || bytes_ltb k (kr_end rng))
       then Some (k, b) else None) (map_to_list (rows_t d))).

(** The query of [scan] with the loop that reads its rows. *)
Definition scanRows (t : SqlRows) (rng : keyRange) (reversed : bool) : M blob (list row) :=
  if kr_empty rng then mret []
  else call (fun d =>
    let found := selectRows t d rng in
    (collectM (fun '(k, b) => row_Scan k b) (if reversed then reverse found else found), d)).

(** [scan]: [fn] visits the rows until it returns [false]. *)
Section visit.
Context {S : Type} (fn : S -> row -> M blob (S * bool)).
Fixpoint visitRows (s : S) (l : list row) : M blob S :=
  match l with
  | [] => mret s
  | r :: l' => '(s', more) ← fn s r; if (more : bool) then visitRows s' l' else mret s'
  end.
End visit.

Definition SqlRows_scan {S} (t : SqlRows) (rng : keyRange) (reversed : bool)
    (fn : S -> row -> M blob (S * bool)) (s : S) : M blob S :=
  loaded ← scanRows t rng reversed; visitRows fn s loaded.

Definition SqlRows_count (t : SqlRows) : M blob Z :=
  call (fun d => (Ret (Z.of_nat (length (selectRows t d (mkKeyRange [] [])))), d)).

(** [INSERT ... SELECT]; a row that exists already violates the primary key. *)
Definition SqlRows_copyTo (t dst : SqlRows) : M blob unit :=
  call (fun d =>
    let src := selectRows t d (mkKeyRange [] []) in
    if existsb (fun '(k, _) => bool_decide (is_Some (rows_t d !! (sr_parent dst, sr_tableId dst, k)))) src
    then (Err Unknown, d)
    else (Ret tt, set_rows_t d
      (foldl (fun m '(k, b) => <[(sr_parent dst, sr_tableId dst, k) := b]> m) (rows_t d) src))).
End store.

#[global] Instance SqlRows_eq_dec : EqDecision SqlRows.
Proof. solve_decision. Defined.

(** ** Key ranges *)

Lemma contains_spec r k :
  contains r k = true <-> bytes_leb (kr_start r) k = true /\ (kr_end r = [] \/ bytes_ltb k (kr_end r) = true).
Proof. unfold contains. rewrite andb_true_iff, orb_true_iff, bool_decide_eq_true. done. Qed.

Lemma kr_empty_spec r k : kr_empty r = true -> contains r k = false.
Proof.
  unfold kr_empty. rewrite andb_true_iff, negb_true_iff, bool_decide_eq_false.
  intros [Hne Hle]. destruct (contains r k) eqn:E; [|done].
  apply contains_spec in E as [Hs [?|He]]; [done|].
  pose proof (bytes_leb_ltb_trans _ _ _ (bytes_leb_trans _ _ _ Hle Hs) He) as Habs.
  by rewrite bytes_ltb_irrefl in Habs.
Qed.

(** ** Read-only and atomic computations *)

(** [m] leaves the database as it is. *)
Definition readonly {blob A} (m : M blob A) : Prop :=
  forall w, w_db (m w).2 = w_db w.

(** [m] changes the database only when it succeeds. *)
Definition atomic {blob A} (m : M blob A) : Prop :=
  forall w, match m w with (Ret _, _) => True | (_, w') => w_db w' = w_db w end.

Section laws.
Context {blob : Type} `{!Gob blob} `{!Env}.
Implicit Types (w : world blob) (d : database blob).

Lemma readonly_ret {A} (a : A) : readonly (blob := blob) (mret a).
Proof. done. Qed.
Lemma readonly_lift {A} (r : outcome A) : readonly (blob := blob) (lift r).
Proof. done. Qed.
Lemma readonly_bind {A B} (m : M blob A) (f : A -> M blob B) :
  readonly m -> (forall a, readonly (f a)) -> readonly (m ≫= f).
Proof.
  intros Hm Hf w. specialize (Hm w). unfold mbind, M_bind. destruct (m w) as [[a| |] w']; cbn in *; auto.
  rewrite <- Hm. apply Hf.
Qed.
Lemma readonly_mapErr {A} f (m : M blob A) : readonly m -> readonly (mapErr f m).
Proof. intros Hm w. specialize (Hm w). unfold mapErr. by destruct (m w) as [[]]. Qed.
Lemma readonly_call {A} (f : database blob -> outcome A * database blob) :
  (forall d, (f d).2 = d) -> readonly (call f).
Proof.
  intros Hf w. unfold call. destruct (driver _); [done|]. specialize (Hf (w_db w)).
  by destruct (f (w_db w)).
Qed.
Lemma readonly_timeNow : readonly (blob := blob) timeNow.
Proof. done. Qed.
Lemma readonly_nowMicro : readonly (blob := blob) nowMicro.
Proof. done. Qed.

Lemma atomic_readonly {A} (m : M blob A) : readonly m -> atomic m.
Proof. intros Hm w. specialize (Hm w). by destruct (m w) as [[]]. Qed.
Lemma atomic_bind {A B} (m : M blob A) (f : A -> M blob B) :
  readonly m -> (forall a, atomic (f a)) -> atomic (m ≫= f).
Proof.
  intros Hm Hf w. specialize (Hm w). unfold mbind, M_bind. destruct (m w) as [[a| |] w']; cbn in *; auto.
  rewrite <- Hm. apply Hf.
Qed.
Lemma atomic_then {A B} (m : M blob A) (f : A -> M blob B) :
  atomic m -> (forall a w, exists b, (f a w).1 = Ret b) -> atomic (m ≫= f).
Proof.
  intros Hm Hf w. specialize (Hm w). unfold mbind, M_bind. destruct (m w) as [[a| |] w']; auto.
  destruct (Hf a w') as [b Hb]. by destruct (f a w') as [[] ?].
Qed.
Lemma atomic_mapErr {A} f (m : M blob A) : atomic m -> atomic (mapErr f m).
Proof. intros Hm w. specialize (Hm w). unfold mapErr. by destruct (m w) as [[]]. Qed.

(** Whatever its statements do, a transaction that fails writes nothing. *)
Lemma atomic_withTx {A} (fn : M blob A) : atomic (withTx fn).
Proof.
  intros w. unfold withTx. pose proof (readonly_call (fun d => (Ret tt, d)) (fun _ => eq_refl) w) as H0.
  destruct (call _ w) as [[]w0]; cbn in H0; auto.
  destruct (fn w0) as [[] w1]; auto. by destruct (call _ w1) as [[] w2].
Qed.

Lemma readonly_forM {A B} (f : B -> A -> M blob B) l :
  (forall b a, readonly (f b a)) -> forall b, readonly (forM f b l).
Proof.
  intros Hf. induction l as [|a l IH]; intros b; cbn; [done|]. apply readonly_bind; auto.
Qed.

Lemma readonly_load t k : readonly (SqlRows_load t k).
Proof. apply readonly_call. intros d. by destruct (_ !! _). Qed.

Lemma readonly_scanRows t rng rev : readonly (scanRows t rng rev).
Proof. unfold scanRows. destruct (kr_empty rng); [done|]. by apply readonly_call. Qed.

Lemma readonly_visitRows {S} (fn : S -> row -> M blob (S * bool)) l :
  (forall s r, readonly (fn s r)) -> forall s, readonly (visitRows fn s l).
Proof.
  intros Hf. induction l as [|r l IH]; intros s; cbn; [done|].
  apply readonly_bind; [done|]. intros [s' []]; [apply IH|done].
Qed.

(** ** The rows of a table *)

Definition stored_at (d : database blob) (t : SqlRows) (k : bytes) : option blob :=
  rows_t d !! (sr_parent t, sr_tableId t, k).

Lemma elem_of_selectRows t d rng k b :
  (k, b) ∈ selectRows t d rng <-> stored_at d t k = Some b /\ contains rng k = true.
Proof.
  unfold selectRows, stored_at. rewrite elem_of_isort, list_elem_of_omap. split.
  - intros ([[[p i] k'] b'] & Hin & Hif). apply elem_of_map_to_list in Hin.
    case_match eqn:E; [|done]. simplify_eq.
    rewrite !andb_true_iff, !orb_true_iff, !bool_decide_eq_true in E.
    destruct E as [[[-> ->] Hs] He]. split; [done|]. apply contains_spec. split; [|done].
    destruct Hs as [->|]; [apply bytes_leb_nil_l|done].
  - intros [Hl Hc]. exists ((sr_parent t, sr_tableId t, k), b). split; [by apply elem_of_map_to_list|].
    apply contains_spec in Hc as [Hs He]. rewrite !bool_decide_eq_true_2 by done.
    rewrite Hs, orb_true_r. cbn. destruct He as [->| ->]; [done|]. by rewrite orb_true_r.
Qed.

Lemma selectRows_keys_NoDup t d rng : NoDup (selectRows t d rng).*1.
Proof.
  unfold selectRows. rewrite isort_perm.
  assert (forall l : list ((bytes * bytes * bytes) * blob), NoDup l.*1 ->
    NoDup (omap (fun '((p, i, k), b) =>
       if bool_decide (p = sr_parent t) && bool_decide (i = sr_tableId t) &&
          (bool_decide (kr_start rng = []) || bytes_leb (kr_start rng) k) &&
          (bool_decide (kr_end rng = []) || bytes_ltb k (kr_end rng))
       then Some (k, b) else None) l).*1) as Hgen; [|apply Hgen, NoDup_fst_map_to_list].
  induction l as [|[[[p i] k] b] l IH]; intros Hnd; [constructor|].
  cbn in Hnd. apply NoDup_cons in Hnd as [Hni Hnd]. cbn [omap list_omap].
  destruct (_ && _) eqn:E; [|auto]. cbn. constructor; [|auto].
  intros ([k' b'] & -> & Hin)%list_elem_of_fmap. apply list_elem_of_omap in Hin as ([[[p' i'] k''] b''] & Hin & Hif).
  case_match eqn:E'; [|done]. simplify_eq.
  rewrite !andb_true_iff, !bool_decide_eq_true in E, E'.
  destruct E as [[[-> ->] _] _], E' as [[[-> ->] _] _].
  apply Hni, list_elem_of_fmap. exists ((sr_parent t, sr_tableId t, k'), b'). done.
Qed.

(** Without bounds, [selectRows] gives all rows of the table. *)
Lemma selectRows_all t d k :
  (list_to_map (selectRows t d (mkKeyRange [] [])) : gmap bytes blob) !! k = stored_at d t k.
Proof.
  apply option_eq. intros b. rewrite <- elem_of_list_to_map by apply selectRows_keys_NoDup. rewrite elem_of_selectRows.
  unfold contains. cbn. rewrite bytes_leb_nil_l. cbn. tauto.
Qed.

Lemma selectRows_all_keys t d k :
  k ∈ (selectRows t d (mkKeyRange [] [])).*1 <-> is_Some (stored_at d t k).
Proof.
  rewrite <- selectRows_all. split.
  - intros ([k' b] & -> & Hi)%list_elem_of_fmap. exists b. apply elem_of_list_to_map; [apply selectRows_keys_NoDup|done].
  - intros [b Hb%elem_of_list_to_map_2]. apply list_elem_of_fmap. by exists (k, b).
Qed.

(** The keys come in strictly increasing order. *)
Lemma selectRows_sorted t d rng :
  StronglySorted (fun a b => bytes_ltb a b = true) (selectRows t d rng).*1.
Proof.
  pose proof (selectRows_keys_NoDup t d rng) as Hnd.
  assert (StronglySorted (fun a b => bytes_leb a.1 b.1 = true) (selectRows t d rng)) as Hs.
  { apply isort_sorted.
    - intros x y. apply bytes_leb_total.
    - intros x y z. apply bytes_leb_trans. }
  revert Hnd Hs. generalize (selectRows t d rng). induction l as [|[k b] l IH]; intros Hnd Hs; [constructor|].
  cbn in *. apply NoDup_cons in Hnd as [Hni Hnd]. apply StronglySorted_inv in Hs as [Hs Hall].
  constructor; [auto|]. apply list.Forall_forall. intros k' Hk'.
  apply list_elem_of_fmap in Hk' as ([k'' b'] & -> & Hin). rewrite list.Forall_forall in Hall.
  specialize (Hall _ Hin). cbn in *. apply bytes_leb_cases in Hall as [?| ->]; [done|].
  destruct Hni. apply list_elem_of_fmap. exists (k'', b'). done.
Qed.
End laws.

#[export] Hint Resolve readonly_ret readonly_lift readonly_timeNow readonly_nowMicro readonly_load
  readonly_scanRows atomic_withTx atomic_mapErr readonly_mapErr : lbt.

(** ** Successful runs *)

Lemma bind_run {blob A B} (m : M blob A) (f : A -> M blob B) w :
  (m ≫= f) w = let '(r, w') := m w in
               match r with Ret a => f a w' | Err c => (Err c, w') | Panic => (Panic, w') end.
Proof. done. Qed.

Lemma bind_Ret {blob A B} (m : M blob A) (f : A -> M blob B) w b w' :
  (m ≫= f) w = (Ret b, w') <-> exists a w1, m w = (Ret a, w1) /\ f a w1 = (Ret b, w').
Proof.
  unfold mbind, M_bind. destruct (m w) as [[a| |] w1]; split; try done.
  - intros E. eauto.
  - intros (a' & w1' & [= <- <-] & E). done.
  - by intros (? & ? & [=] & _).
  - by intros (? & ? & [=] & _).
Qed.

Lemma run_Ret {A B} (p : outcome A * B) a : p.1 = Ret a -> p = (Ret a, p.2).
Proof. destruct p. cbn. by intros ->. Qed.

Lemma ret_Ret {blob A} (a b : A) (w w' : world blob) : (mret a : M blob A) w = (Ret b, w') <-> a = b /\ w' = w.
Proof. unfold mret, M_ret. split; [by intros [= -> ->]|by intros [-> ->]]. Qed.

Lemma lift_Ret {blob A} (r : outcome A) b (w w' : world blob) : lift r w = (Ret b, w') <-> r = Ret b /\ w' = w.
Proof. unfold lift. split; [by intros [= -> ->]|by intros [-> ->]]. Qed.

Lemma fail_Ret {blob A} c (b : A) (w w' : world blob) : fail c w <> (Ret b, w').
Proof. done. Qed.

Lemma mapErr_Ret {blob A} f (m : M blob A) b w w' : mapErr f m w = (Ret b, w') <-> m w = (Ret b, w').
Proof. unfold mapErr. destruct (m w) as [[]]; split; done. Qed.

Lemma call_Ret {blob} `{!Env} {A} (f : database blob -> outcome A * database blob) b w w' :
  call f w = (Ret b, w') -> exists d, f (w_db w) = (Ret b, d) /\
    w' = mkWorld d (w_srv w) (S (w_calls w)) (w_ticks w) (w_draws w).
Proof.
  unfold call. destruct (driver _); [done|]. destruct (f (w_db w)) as [r d] eqn:E.
  intros [= -> <-]. by exists d.
Qed.

(** A transaction that succeeds has the effect of its statements. *)
Lemma withTx_Ret {blob} `{!Env} {A} (fn : M blob A) a w w' :
  withTx fn w = (Ret a, w') -> exists w0 w1, w_db w0 = w_db w /\ w_srv w0 = w_srv w /\
    fn w0 = (Ret a, w1) /\ w_db w' = w_db w1 /\ w_srv w' = w_srv w1.
Proof.
  unfold withTx. destruct (call _ w) as [[[]| |] w0] eqn:E0; try done.
  apply call_Ret in E0 as (d & [= <-] & ->).
  destruct (fn _) as [[a'| |] w1] eqn:E1; try done.
  destruct (call _ w1) as [[[]| |] w2] eqn:E2; try done.
  apply call_Ret in E2 as (d' & [= <-] & ->). intros [= <- <-].
  eexists _, w1. split; [|split; [|split; [exact E1|done]]]; done.
Qed.

(** Takes a hypothesis [m w = (Ret b, w')] apart. *)
Ltac inv_M :=
  repeat match goal with
  | H : (mbind _ _) _ = (Ret _, _) |- _ => apply bind_Ret in H as (? & ? & ? & ?)
  | H : (mret _) _ = (Ret _, _) |- _ => apply ret_Ret in H as [? ?]
  | H : (lift _) _ = (Ret _, _) |- _ => apply lift_Ret in H as [? ?]
  | H : (fail _) _ = (Ret _, _) |- _ => by destruct (fail_Ret _ _ _ _ H)
  | H : (mapErr _ _) _ = (Ret _, _) |- _ => apply mapErr_Ret in H
  | H : let '(_, _) := ?p in _ |- _ => destruct p
  | H : (let '(_, _) := ?p in _) _ = _ |- _ => destruct p
  | H : (if ?b then _ else _) _ = (Ret _, _) |- _ => destruct b eqn:?
  end; simplify_eq/=.

(** ** Rows as values *)

Section rows_values.
Context {blob : Type} `{!Gob blob} `{!Env}.
Implicit Types (w : world blob) (d : database blob).

(** The row stored under a key. *)
Definition row_at d (t : SqlRows) (k : bytes) : option row :=
  stored_at d t k ≫= fun b => mkRow k <$> gob_decode b.

(** Every stored row decodes to a non-empty row in stored form. *)
Definition db_ok d : Prop :=
  forall t k b, stored_at d t k = Some b ->
    exists r, row_at d t k = Some r /\ stored_row r /\ isEmpty r = false.

Lemma db_ok_row d t k r :
  db_ok d -> row_at d t k = Some r -> stored_row r /\ key r = k /\ isEmpty r = false.
Proof.
  intros Hd Hr. unfold row_at in Hr. apply bind_Some in Hr as (b & Hb & Hm).
  destruct (Hd t k b Hb) as (r' & Hr' & Hs & He). unfold row_at in Hr'. rewrite Hb in Hr'. cbn in Hr'.
  rewrite Hm in Hr'. simplify_eq. apply fmap_Some in Hm as (m & _ & ->). done.
Qed.

(** [load] returns the stored row. *)
Lemma load_Ret t k w o w' :
  SqlRows_load t k w = (Ret o, w') -> o = row_at (w_db w) t k /\ w_db w' = w_db w /\ w_srv w' = w_srv w.
Proof.
  unfold SqlRows_load. intros (d & E & ->)%call_Ret. cbn. unfold row_at, stored_at.
  destruct (rows_t (w_db w) !! _) as [b|] eqn:Eb; cbn in *.
  - unfold row_Scan in E. destruct (gob_decode b); cbn in E; [|done]. simplify_eq. done.
  - simplify_eq. done.
Qed.

(** The parts of the database a row write leaves alone. *)
Definition rows_only d d' : Prop :=
  tables_t d' = tables_t d /\ change_stream_t d' = change_stream_t d /\
  change_stream_seq d' = change_stream_seq d /\ idempotency_t d' = idempotency_t d /\
  authorized_views_t d' = authorized_views_t d /\ schema_bundles_t d' = schema_bundles_t d /\
  iam_policies_t d' = iam_policies_t d /\ operations_t d' = operations_t d /\ meta_t d' = meta_t d.

(** [d'] is [d] with one row replaced. *)
Definition row_updated d d' (t : SqlRows) (k : bytes) (v : option row) : Prop :=
  forall t' k', row_at d' t' k' = if decide (t' = t /\ k' = k) then v else row_at d t' k'.

Definition sql_key (t : SqlRows) (k : bytes) : bytes * bytes * bytes := (sr_parent t, sr_tableId t, k).

Lemma sql_key_inj t k t' k' : sql_key t k = sql_key t' k' -> t = t' /\ k = k'.
Proof. destruct t, t'. unfold sql_key. cbn. by intros [= -> -> ->]. Qed.

Lemma save_Ret t r w w' :
  SqlRows_save t r w = (Ret tt, w') ->
  row_updated (w_db w) (w_db w') t (key r) (if isEmpty r then None else Some r) /\
  rows_only (w_db w) (w_db w') /\ w_srv w' = w_srv w /\
  (db_ok (w_db w) -> stored_row r -> db_ok (w_db w')).
Proof.
  unfold SqlRows_save. destruct (isEmpty r) eqn:Ee.
  - intros (d & [= <-] & ->)%call_Ret. cbn.
    assert (forall t' k', stored_at (set_rows_t (w_db w) (delete (sql_key t (key r)) (rows_t (w_db w)))) t' k' =
      if decide (t' = t /\ k' = key r) then None else stored_at (w_db w) t' k') as Hst.
    { intros t' k'. unfold stored_at. cbn. fold (sql_key t' k'). case_decide as Hd.
      - destruct Hd as [-> ->]. apply lookup_delete_eq.
      - apply lookup_delete_ne. intros [<- <-]%sql_key_inj. tauto. }
    split_and!; try done.
    + intros t' k'. unfold row_at. rewrite Hst. by case_decide.
    + intros Hd _ t' k' b. unfold row_at. rewrite Hst. case_decide; [done|]. apply Hd.
  - destruct (gob_encode (families r)) as [b|] eqn:Eb; [|done].
    intros (d & [= <-] & ->)%call_Ret. cbn.
    assert (forall t' k', stored_at (set_rows_t (w_db w) (<[sql_key t (key r) := b]> (rows_t (w_db w)))) t' k' =
      if decide (t' = t /\ k' = key r) then Some b else stored_at (w_db w) t' k') as Hst.
    { intros t' k'. unfold stored_at. cbn. fold (sql_key t' k'). case_decide as Hd.
      - destruct Hd as [-> ->]. apply lookup_insert_eq.
      - apply lookup_insert_ne. intros [<- <-]%sql_key_inj. tauto. }
    apply gob_roundtrip in Eb.
    assert (row_updated (w_db w) (set_rows_t (w_db w) (<[sql_key t (key r) := b]> (rows_t (w_db w))))
      t (key r) (Some r)) as Hup.
    { intros t' k'. unfold row_at. rewrite Hst. case_decide as Hd; [|done]. cbn. rewrite Eb.
      destruct Hd as [-> ->]. by destruct r. }
    split_and!; try done.
    intros Hd Hr t' k' b'. rewrite Hst, Hup. case_decide as Hk; [|apply Hd].
    intros _. by exists r.
Qed.
End rows_values.
