(* ===== verification/Tokens.v ===== *)
(** * Tokens and pages

    Page tokens and change-stream continuation tokens are base64 strings: the
    [base64.RawURLEncoding], [strconv] and [sort.Search] the sources use, the
    two paginations ([paginate] of [operations.go], [paginateOrdered] of
    [localcloud_backups.go]) and the continuation token of
    [localcloud_change_stream.go]. *)

From S2P Require Import Prelude Server.
From stdpp Require Import base list gmap sorting.
From Stdlib Require Import ZArith Lia.

#[local] Open Scope Z_scope.

(** ** [base64.RawURLEncoding] *)

Definition b64_char (i : Z) : Z :=
  if i <? 26 then 65 + i else if i <? 52 then 97 + (i - 26) else if i <? 62 then 48 + (i - 52)
  else if i =? 62 then 45 else 95.

Definition b64_index (c : Z) : option Z :=
  if (65 <=? c) && (c <=? 90) then Some (c - 65)
  else if (97 <=? c) && (c <=? 122) then Some (c - 97 + 26)
  else if (48 <=? c) && (c <=? 57) then Some (c - 48 + 52)
  else if c =? 45 then Some 62 else if c =? 95 then Some 63 else None.

Fixpoint EncodeToString (src : bytes) : bytes :=
  match src with
  | a :: b :: c :: rest =>
      let v := a * 65536 + b * 256 + c in
      b64_char (v / 262144) :: b64_char (v / 4096 mod 64) :: b64_char (v / 64 mod 64) :: b64_char (v mod 64) ::
      EncodeToString rest
  | [a; b] =>
      let v := a * 65536 + b * 256 in
      [b64_char (v / 262144); b64_char (v / 4096 mod 64); b64_char (v / 64 mod 64)]
  | [a] => let v := a * 65536 in [b64_char (v / 262144); b64_char (v / 4096 mod 64)]
  | [] => []
  end.

(** Quanta of four characters; the last one may have two or three, whose
    unused bits are ignored. *)
Fixpoint decodeQuanta (s : bytes) : option bytes :=
  match s with
  | [] => Some []
  | [_] => None
  | [c1; c2] =>
      i1 ← b64_index c1; i2 ← b64_index c2;
      Some [(i1 * 262144 + i2 * 4096) / 65536]
  | [c1; c2; c3] =>
      i1 ← b64_index c1; i2 ← b64_index c2; i3 ← b64_index c3;
      let v := i1 * 262144 + i2 * 4096 + i3 * 64 in
      Some [v / 65536; v / 256 mod 256]
  | c1 :: c2 :: c3 :: c4 :: rest =>
      i1 ← b64_index c1; i2 ← b64_index c2; i3 ← b64_index c3; i4 ← b64_index c4;
      let v := i1 * 262144 + i2 * 4096 + i3 * 64 + i4 in
      out ← decodeQuanta rest;
      Some (v / 65536 :: v / 256 mod 256 :: v mod 256 :: out)
  end.

(** [DecodeString] skips carriage returns and line feeds. *)
Definition DecodeString (s : bytes) : option bytes :=
  decodeQuanta (filter (fun c => c <> 10 /\ c <> 13) s).

Lemma b64_index_char i : 0 <= i < 64 -> b64_index (b64_char i) = Some i.
Proof.
  intros Hi. unfold b64_char, b64_index.
  repeat (case_match; repeat match goal with
    | E : (_ && _) = true |- _ => apply andb_true_iff in E as [? ?]
    | E : (_ && _) = false |- _ => apply andb_false_iff in E
    end); try (f_equal; lia); lia.
Qed.
Lemma b64_char_kept i : 0 <= i < 64 -> b64_char i <> 10 /\ b64_char i <> 13.
Proof. intros Hi. unfold b64_char. repeat case_match; lia. Qed.

(** The four sextets of a 24-bit value. *)
Lemma sextets v : 0 <= v < 16777216 ->
  0 <= v / 262144 < 64 /\ 0 <= v / 4096 mod 64 < 64 /\ 0 <= v / 64 mod 64 < 64 /\ 0 <= v mod 64 < 64 /\
  v / 262144 * 262144 + v / 4096 mod 64 * 4096 + v / 64 mod 64 * 64 + v mod 64 = v.
Proof. intros Hv. Z.to_euclidean_division_equations. lia. Qed.

Lemma octets a b c : is_byte a -> is_byte b -> is_byte c ->
  let v := a * 65536 + b * 256 + c in
  0 <= v < 16777216 /\ v / 65536 = a /\ v / 256 mod 256 = b /\ v mod 256 = c.
Proof. unfold is_byte. intros ???. cbv zeta. split; [lia|]. Z.to_euclidean_division_equations. lia. Qed.

Lemma filter_all {A : Type} (P : A -> Prop) `{!forall x, Decision (P x)} l : Forall P l -> filter P l = l.
Proof. induction 1; [done|]. rewrite filter_cons_True by done. by f_equal. Qed.
Lemma filter_none {A : Type} (P : A -> Prop) `{!forall x, Decision (P x)} l : Forall (fun x => ~ P x) l -> filter P l = [].
Proof. induction 1; [done|]. by rewrite filter_cons_False. Qed.

Lemma EncodeToString_kept src : all_bytes src -> filter (fun c => c <> 10 /\ c <> 13) (EncodeToString src) = EncodeToString src.
Proof.
  intros Hb. apply filter_all. revert Hb. revert src. fix IH 1. intros [|a [|b [|c src]]] Hb.
  - constructor.
  - apply Forall_cons in Hb as [Ha _]. pose proof (octets a 0 0 Ha) as Ho. unfold is_byte in Ho.
    destruct (sextets (a * 65536 + 0 * 256 + 0)) as (? & ? & _); [apply Ho; lia|].
    cbn. replace (a * 65536) with (a * 65536 + 0 * 256 + 0) by lia. repeat constructor; by apply b64_char_kept.
  - apply Forall_cons in Hb as [Ha Hb]. apply Forall_cons in Hb as [Hb _]. pose proof (octets a b 0 Ha Hb) as Ho. unfold is_byte in Ho.
    destruct (sextets (a * 65536 + b * 256 + 0)) as (? & ? & ? & _); [apply Ho; lia|].
    cbn. replace (a * 65536 + b * 256) with (a * 65536 + b * 256 + 0) by lia. repeat constructor; by apply b64_char_kept.
  - apply Forall_cons in Hb as [Ha Hb]. apply Forall_cons in Hb as [Hb Hc]. apply Forall_cons in Hc as [Hc Hs].
    destruct (sextets (a * 65536 + b * 256 + c)) as (? & ? & ? & ? & _); [by apply octets|].
    cbn [EncodeToString]. constructor; [by apply b64_char_kept|]. constructor; [by apply b64_char_kept|].
    constructor; [by apply b64_char_kept|]. constructor; [by apply b64_char_kept|]. by apply IH.
Qed.

Lemma decode_EncodeToString src : all_bytes src -> DecodeString (EncodeToString src) = Some src.
Proof.
  intros Hall. unfold DecodeString. rewrite EncodeToString_kept by done. revert Hall. revert src. fix IH 1.
  intros [|a [|b [|c src]]] Hb.
  - done.
  - apply Forall_cons in Hb as [Ha _]. assert (is_byte 0) as H0 by done.
    destruct (octets a 0 0 Ha H0 H0) as (Hv & Ea & _ & _). destruct (sextets _ Hv) as (B1 & B2 & B3 & B4 & Es).
    cbn. replace (a * 65536) with (a * 65536 + 0 * 256 + 0) by lia. rewrite !b64_index_char by done. cbn. f_equal. f_equal.
    revert Es Ea. clear. Z.to_euclidean_division_equations. lia.
  - apply Forall_cons in Hb as [Ha Hb]. apply Forall_cons in Hb as [Hb _]. assert (is_byte 0) as H0 by done.
    destruct (octets a b 0 Ha Hb H0) as (Hv & Ea & Eb & _). destruct (sextets _ Hv) as (B1 & B2 & B3 & B4 & Es).
    cbn. replace (a * 65536 + b * 256) with (a * 65536 + b * 256 + 0) by lia. rewrite !b64_index_char by done. cbn.
    replace ((a * 65536 + b * 256 + 0) mod 64) with 0 in Es by (revert Hv; clear; Z.to_euclidean_division_equations; lia).
    rewrite Z.add_0_r in Es. rewrite Es, Ea, Eb. done.
  - apply Forall_cons in Hb as [Ha Hb]. apply Forall_cons in Hb as [Hb Hc]. apply Forall_cons in Hc as [Hc Hs].
    destruct (octets a b c Ha Hb Hc) as (Hv & Ea & Eb & Ec). destruct (sextets _ Hv) as (B1 & B2 & B3 & B4 & Es).
    cbn [EncodeToString decodeQuanta]. rewrite !b64_index_char by done. cbn. rewrite (IH src Hs). cbn. by rewrite Es, Ea, Eb, Ec.
Qed.

(** ** [strconv] *)

(** [strconv.FormatInt(n, 10)]. *)
Fixpoint digits (fuel : nat) (n : Z) (acc : bytes) : bytes :=
  match fuel with
  | O => acc
  | S fuel => let acc := (48 + n mod 10) :: acc in if n / 10 =? 0 then acc else digits fuel (n / 10) acc
  end.
Definition FormatInt (n : Z) : bytes := if n <? 0 then 45 :: digits 20 (- n) [] else digits 20 n [].

(** [strconv.ParseInt(s, 10, 64)]; [strconv.Atoi] on a 64-bit [int]. *)
Definition parseDigit (acc : option Z) (c : Z) : option Z :=
  n ← acc; if (48 <=? c) && (c <=? 57) then Some (n * 10 + (c - 48)) else None.
Definition parseDigits (s : bytes) : option Z :=
  match s with [] => None | _ => foldl parseDigit (Some 0) s end.
Definition ParseInt (s : bytes) : option Z :=
  match s with
  | 45 :: s' => n ← parseDigits s'; if n <=? two63 then Some (- n) else None
  | 43 :: s' => n ← parseDigits s'; if n <? two63 then Some n else None
  | _ => n ← parseDigits s; if n <? two63 then Some n else None
  end.

Lemma digits_parse fuel : forall n acc, 0 <= n < 10 ^ Z.of_nat fuel ->
  foldl parseDigit (Some 0) (digits fuel n acc) = foldl parseDigit (Some n) acc.
Proof.
  induction fuel as [|fuel IH]; intros n acc Hn; cbn [digits].
  { replace n with 0; [done|]. rewrite Z.pow_0_r in Hn. lia. }
  assert (parseDigit (Some (n / 10)) (48 + n mod 10) = Some n) as Hd.
  { unfold parseDigit. cbn. pose proof (Z.mod_pos_bound n 10). rewrite !(proj2 (Z.leb_le _ _)) by lia. cbn. f_equal.
    pose proof (Z.div_mod n 10). lia. }
  destruct (n / 10 =? 0) eqn:E.
  - apply Z.eqb_eq in E. rewrite E in Hd. cbn [foldl]. by rewrite Hd.
  - rewrite IH; [cbn [foldl]; by rewrite Hd|]. rewrite Nat2Z.inj_succ, Z.pow_succ_r in Hn by lia.
    split; [apply Z.div_pos; lia|]. apply Z.div_lt_upper_bound; lia.
Qed.

Lemma digits_all fuel : forall n acc, Forall (fun c => 48 <= c <= 57) acc -> Forall (fun c => 48 <= c <= 57) (digits fuel n acc).
Proof.
  induction fuel as [|fuel IH]; intros n acc Ha; [done|]. cbn [digits]. pose proof (Z.mod_pos_bound n 10).
  assert (Forall (fun c => 48 <= c <= 57) ((48 + n mod 10) :: acc)) by (constructor; [lia|done]). case_match; auto.
Qed.
Lemma digits_cons fuel n acc : exists c s, digits (S fuel) n acc = c :: s.
Proof.
  revert n acc. induction fuel as [|fuel IH]; intros n acc; cbn [digits].
  { destruct (n / 10 =? 0); eauto. }
  destruct (n / 10 =? 0); [eauto|]. apply IH.
Qed.

Lemma ParseInt_FormatInt n : is_int64 n -> ParseInt (FormatInt n) = Some n.
Proof.
  intros Hn. unfold FormatInt. assert (forall m, 0 <= m <= two63 -> parseDigits (digits 20 m []) = Some m) as Hp.
  { intros m Hm. destruct (digits_cons 19 m []) as (c & s & E). unfold parseDigits. rewrite E, <- E.
    rewrite digits_parse; [done|]. revert Hm. unfold two63. lia. }
  unfold_words. destruct (n <? 0) eqn:E.
  - apply Z.ltb_lt in E. cbn [ParseInt]. rewrite Hp by lia. cbn. unfold two63.
    rewrite (proj2 (Z.leb_le _ _)) by lia. f_equal. lia.
  - apply Z.ltb_ge in E. destruct (digits_cons 19 n []) as (c & s & Ec). unfold ParseInt.
    pose proof (digits_all 20 n [] ltac:(constructor)) as Hd. rewrite Ec in *. apply Forall_cons in Hd as [Hc _].
    assert (parseDigits (c :: s) = Some n) as Hps by (rewrite <- Ec; apply Hp; lia).
    assert (match c :: s with
      | 45 :: s' => n ← parseDigits s'; if n <=? two63 then Some (- n) else None
      | 43 :: s' => n ← parseDigits s'; if n <? two63 then Some n else None
      | _ => n ← parseDigits (c :: s); if n <? two63 then Some n else None end =
      (n ← parseDigits (c :: s); if n <? two63 then Some n else None)) as ->.
    { repeat (case_match; try done; try lia). }
    rewrite Hps. cbn. unfold two63. by rewrite (proj2 (Z.ltb_lt _ _)) by lia.
Qed.

Lemma FormatInt_bytes n : all_bytes (FormatInt n).
Proof.
  unfold FormatInt, all_bytes, is_byte. assert (forall m, Forall (fun c => 0 <= c < 256) (digits 20 m [])) as Hd.
  { intros m. eapply Forall_impl; [apply digits_all; constructor|]. intros; cbn in *; lia. }
  case_match; [constructor; [lia|]|]; apply Hd.
Qed.

(** ** [sort.Search] *)

(** The loop of [sort.Search]: the range [i, j) halves at each pass. *)
Fixpoint searchLoop (fuel : nat) (f : nat -> bool) (i j : nat) : nat :=
  match fuel with
  | O => i
  | S fuel =>
      if (i <? j)%nat then
        let h := ((i + j) / 2)%nat in
        if negb (f h) then searchLoop fuel f (S h) j else searchLoop fuel f i h
      else i
  end.
Definition sort_Search (n : nat) (f : nat -> bool) : nat := searchLoop n f 0 n.

(** For a predicate that stays true once it is, the search finds where it
    becomes true. *)
Lemma searchLoop_spec (f : nat -> bool) p : forall fuel i j, (j - i <= fuel)%nat -> (i <= p <= j)%nat ->
  (forall k, (k < p)%nat -> f k = false) -> (forall k, (p <= k < j)%nat -> f k = true) -> searchLoop fuel f i j = p.
Proof.
  induction fuel as [|fuel IH]; intros i j Hf Hp Hlo Hhi; cbn [searchLoop]; [lia|].
  destruct (i <? j)%nat eqn:E; [apply Nat.ltb_lt in E|apply Nat.ltb_ge in E; lia].
  pose proof (Nat.div_mod (i + j) 2 ltac:(lia)) as Hd. pose proof (Nat.mod_upper_bound (i + j) 2 ltac:(lia)) as Hm.
  set (h := ((i + j) / 2)%nat) in *. destruct (decide (h < p)%nat) as [Hlt|Hge].
  - rewrite Hlo by done. cbn [negb]. apply IH; [lia|lia|done|done].
  - rewrite Hhi by lia. cbn [negb]. apply IH; [lia|lia|done|]. intros k Hk. apply Hhi. lia.
Qed.

Lemma sort_Search_spec n (f : nat -> bool) p : (p <= n)%nat ->
  (forall k, (k < p)%nat -> f k = false) -> (forall k, (p <= k < n)%nat -> f k = true) -> sort_Search n f = p.
Proof. intros Hp Hlo Hhi. apply searchLoop_spec; [lia|lia|done|done]. Qed.

(** ** Pages *)

Section pages.
Context {T : Type} (key : T -> bytes).

Definition byKey (a b : T) : bool := bytes_leb (key a) (key b).

Definition paginate (items : list T) (pageSize : Z) (pageToken : bytes) : outcome (list T * bytes) :=
  if pageSize <? 0 then Err InvalidArgument
  else
    let items := isort byKey items in
    start ← match pageToken with
            | [] => Ret 0%nat
            | _ =>
                match DecodeString pageToken with
                | None => Err InvalidArgument
                | Some after =>
                    Ret (sort_Search (length items)
                      (fun i => match items !! i with Some t => bytes_ltb after (key t) | None => false end))
                end
            end;
    let items := drop start items in
    if (pageSize =? 0) || (Z.of_nat (length items) <=? pageSize) then Ret (items, [])
    else
      let page := take (Z.to_nat pageSize) items in
      Ret (page, EncodeToString (from_option key [] (last page))).

(** [paginateOrdered]: pages of a list in its own order, by offset. *)
Definition paginateOrdered (items : list T) (pageSize : Z) (pageToken : bytes) : outcome (list T * bytes) :=
  if pageSize <? 0 then Err InvalidArgument
  else
    start ← match pageToken with
            | [] => Ret 0%nat
            | _ =>
                match DecodeString pageToken with
                | None => Err InvalidArgument
                | Some raw =>
                    if negb (HasPrefix raw (str "o:")) then Err InvalidArgument
                    else match ParseInt (drop 2 raw) with
                    | None => Err InvalidArgument
                    | Some n => if n <? 0 then Err InvalidArgument else Ret (Nat.min (Z.to_nat n) (length items))
                    end
                end
            end;
    let items := drop start items in
    if (pageSize =? 0) || (Z.of_nat (length items) <=? pageSize) then Ret (items, [])
    else Ret (take (Z.to_nat pageSize) items,
              EncodeToString (str "o:" ++ FormatInt (Z.of_nat start + pageSize))).

Lemma byKey_total a b : byKey a b = true \/ byKey b a = true.
Proof. apply bytes_leb_total. Qed.
Lemma byKey_trans a b c : byKey a b = true -> byKey b c = true -> byKey a c = true.
Proof. apply bytes_leb_trans. Qed.

(** In a sorted list the items above a key are a suffix, which the search
    finds. *)
Lemma search_above (after : bytes) (l : list T) :
  StronglySorted (fun a b => byKey a b = true) l ->
  drop (sort_Search (length l) (fun i => match l !! i with Some t => bytes_ltb after (key t) | None => false end)) l =
  filter (fun t => bytes_ltb after (key t) = true) l.
Proof.
  intros Hs.
  assert (exists l1 l2, l = l1 ++ l2 /\ Forall (fun t => bytes_ltb after (key t) = false) l1 /\
    Forall (fun t => bytes_ltb after (key t) = true) l2) as (l1 & l2 & -> & H1 & H2).
  { induction Hs as [|a l Hl IH Ha]; [by exists [], []|]. destruct (bytes_ltb after (key a)) eqn:E.
    - exists [], (a :: l). split_and!; [done|constructor|]. constructor; [done|]. eapply Forall_impl; [exact Ha|].
      cbn. intros t Ht. by eapply bytes_ltb_leb_trans.
    - destruct IH as (l1 & l2 & -> & H1 & H2). exists (a :: l1), l2. split_and!; [done| |done]. by constructor. }
  rewrite (sort_Search_spec _ _ (length l1)).
  - rewrite drop_app_length, filter_app, (filter_all _ l2) by done. rewrite filter_none; [done|].
    eapply Forall_impl; [exact H1|]. cbn. congruence.
  - rewrite length_app. lia.
  - intros k Hk. rewrite lookup_app_l by done. destruct (lookup_lt_is_Some_2 _ _ Hk) as [t Ht]. rewrite Ht.
    rewrite list.Forall_forall in H1. eapply H1, list_elem_of_lookup_2, Ht.
  - intros k Hk. rewrite lookup_app_r by lia. rewrite length_app in Hk.
    destruct (lookup_lt_is_Some_2 l2 (k - length l1)%nat) as [t Ht]; [lia|]. rewrite Ht.
    rewrite list.Forall_forall in H2. eapply H2, list_elem_of_lookup_2, Ht.
Qed.

(** The page that starts a list, with the token of its last key. *)
Definition firstPage (n : Z) (rest : list T) : list T * bytes :=
  if (n =? 0) || (Z.of_nat (length rest) <=? n) then (rest, [])
  else (take (Z.to_nat n) rest, EncodeToString (from_option key [] (last (take (Z.to_nat n) rest)))).

Lemma EncodeToString_nil k : EncodeToString k = [] -> k = [].
Proof. destruct k as [|a [|b [|c k]]]; done. Qed.

Lemma paginate_first items n : 0 <= n -> paginate items n [] = Ret (firstPage n (isort byKey items)).
Proof. intros Hn. unfold paginate, firstPage. rewrite (proj2 (Z.ltb_ge _ _)) by done. cbn. by destruct (_ || _). Qed.

Lemma paginate_after items n k : 0 <= n -> k <> [] -> all_bytes k ->
  paginate items n (EncodeToString k) = Ret (firstPage n (filter (fun t => bytes_ltb k (key t) = true) (isort byKey items))).
Proof.
  intros Hn Hk Hb. unfold paginate. rewrite (proj2 (Z.ltb_ge _ _)) by done. rewrite decode_EncodeToString by done.
  destruct (EncodeToString k) eqn:E; [by apply EncodeToString_nil in E|]. cbn [mbind outcome_bind].
  rewrite search_above by (apply isort_sorted; [apply byKey_total|apply byKey_trans]). unfold firstPage. by destruct (_ || _).
Qed.

(** A client that follows the tokens. *)
Fixpoint allPages (fuel : nat) (items : list T) (n : Z) (token : bytes) : outcome (list T) :=
  match fuel with
  | O => Panic
  | S fuel =>
      '(page, next) ← paginate items n token;
      match next with
      | [] => Ret page
      | _ => rest ← allPages fuel items n next; Ret (page ++ rest)
      end
  end.

Lemma above_split (A B : list T) x :
  StronglySorted (fun a b => byKey a b = true) (A ++ x :: B) -> NoDup (key <$> (A ++ x :: B)) ->
  filter (fun t => bytes_ltb (key x) (key t) = true) (A ++ x :: B) = B.
Proof.
  intros Hs Hnd. rewrite filter_app, filter_cons, decide_False by (by rewrite bytes_ltb_irrefl).
  apply StronglySorted_app in Hs as (Hlt & _ & HxB). rewrite fmap_app in Hnd. cbn in Hnd.
  apply NoDup_app in Hnd as (_ & _ & HnB). apply NoDup_cons in HnB as [HnB _]. rewrite filter_none, filter_all; [done| |].
  - apply StronglySorted_inv in HxB as [_ HxB]. apply list.Forall_forall. intros t Ht. rewrite list.Forall_forall in HxB.
    apply HxB in Ht as Hle. unfold byKey in Hle. apply bytes_leb_cases in Hle as [?|Heq]; [done|].
    destruct HnB. rewrite Heq. by apply list_elem_of_fmap_2.
  - apply list.Forall_forall. intros t Ht. assert (byKey t x = true) as Hle by (apply Hlt; [done|left]).
    unfold byKey in Hle. rewrite bytes_leb_ltb in Hle. by destruct (bytes_ltb (key x) (key t)).
Qed.

Lemma allPages_from items n : 0 < n -> NoDup (key <$> items) -> Forall (fun t => key t <> [] /\ all_bytes (key t)) items ->
  forall fuel A B tok, isort byKey items = A ++ B ->
  (tok = [] /\ A = [] \/ exists A' x, A = A' ++ [x] /\ tok = EncodeToString (key x)) ->
  (length B < fuel)%nat -> allPages fuel items n tok = Ret B.
Proof.
  intros Hn Hnd Hk. pose proof (isort_sorted byKey byKey_total byKey_trans items) as Hs.
  assert (NoDup (key <$> isort byKey items)) as Hnds by (by rewrite isort_perm).
  assert (forall x, x ∈ isort byKey items -> key x <> [] /\ all_bytes (key x)) as Hks.
  { intros x Hx. rewrite elem_of_isort in Hx. rewrite list.Forall_forall in Hk. auto. }
  induction fuel as [|fuel IH]; intros A B tok E Ht Hf; [lia|]. cbn [allPages].
  assert (paginate items n tok = Ret (firstPage n B)) as ->.
  { destruct Ht as [[-> ->]|(A' & x & -> & ->)]; [rewrite paginate_first by lia; by rewrite E|].
    destruct (Hks x) as [Hx1 Hx2]; [rewrite E; set_solver|]. rewrite paginate_after by (done || lia).
    rewrite E, <- app_assoc in *. cbn [app] in *. by rewrite above_split. }
  unfold firstPage. rewrite (proj2 (Z.eqb_neq _ _)) by lia. cbn [orb]. destruct (Z.of_nat (length B) <=? n) eqn:El; [done|].
  apply Z.leb_gt in El. cbn [mbind outcome_bind]. set (m := Z.to_nat n).
  destruct (last (take m B)) as [x|] eqn:Elast.
  2: { apply last_None in Elast. apply (f_equal length) in Elast. rewrite length_take in Elast. cbn in Elast. lia. }
  apply last_Some in Elast as [P EP]. cbn [from_option].
  destruct (Hks x) as [Hx1 Hx2]. { rewrite E, <- (take_drop m B), EP. set_solver. }
  destruct (EncodeToString (key x)) eqn:Ex; [by apply EncodeToString_nil in Ex|]. rewrite <- Ex.
  rewrite (IH (A ++ take m B) (drop m B)); [cbn; by rewrite take_drop| | |].
  - by rewrite <- app_assoc, take_drop.
  - right. exists (A ++ P), x. by rewrite EP, app_assoc.
  - rewrite length_drop. lia.
Qed.
End pages.

(** ** Continuation tokens *)

Definition encodeChangeStreamToken (id : Z) : bytes := EncodeToString (str "cs1:" ++ FormatInt id).

Definition decodeChangeStreamToken (token : bytes) : outcome Z :=
  match DecodeString token with
  | None => Err InvalidArgument
  | Some raw =>
      if negb (HasPrefix raw (str "cs1:")) then Err InvalidArgument
      else match ParseInt (drop 4 raw) with
      | None => Err InvalidArgument
      | Some id => if id <? 0 then Err InvalidArgument else Ret id
      end
  end.

Lemma decode_encode_token id : 0 <= id -> is_int64 id -> decodeChangeStreamToken (encodeChangeStreamToken id) = Ret id.
Proof.
  intros Hid Hi. unfold decodeChangeStreamToken, encodeChangeStreamToken. rewrite decode_EncodeToString.
  - cbn [str]. change (drop 4 (str "cs1:" ++ FormatInt id)) with (FormatInt id).
    rewrite ParseInt_FormatInt by done. change (HasPrefix (str "cs1:" ++ FormatInt id) (str "cs1:")) with true. cbn.
    by rewrite (proj2 (Z.ltb_ge _ _)).
  - apply Forall_app. split; [by vm_compute; repeat constructor|apply FormatInt_bytes].
Qed.

(** C39: Listings page without loss or repetition: following the tokens from
    the first page of any positive size returns every item once, in key order,
    within one page more than there are items; and the page after a token is
    exactly the start of the items above its key, whatever items were added or
    removed since the token was issued. *)
Theorem paginate_complete {T : Type} (key : T -> bytes) n :
  0 < n ->
  (forall items, NoDup (key <$> items) -> Forall (fun t => key t <> [] /\ all_bytes (key t)) items ->
     allPages key (S (length items)) items n [] = Ret (isort (byKey key) items)) /\
  (forall items k, k <> [] -> all_bytes k -> exists next,
     paginate key items n (EncodeToString k) =
       Ret (take (Z.to_nat n) (filter (fun t => bytes_ltb k (key t) = true) (isort (byKey key) items)), next)).
Proof.
  intros Hn. split.
  - intros items Hnd Hk. eapply allPages_from; [done|done|done|by rewrite app_nil_l|by left|rewrite length_isort; lia].
  - intros items k Hk Hb. rewrite paginate_after by (done || lia). unfold firstPage.
    rewrite (proj2 (Z.eqb_neq _ _)) by lia. cbn [orb]. case_match eqn:E; eexists; [|reflexivity].
    rewrite take_ge; [reflexivity|]. apply Z.leb_le in E. lia.
Qed.

Lemma paginate_complete_witness :
  allPages (fun b : bytes => b) (S (length [[3]; [1]; [2]])) [[3]; [1]; [2]] 2 [] = Ret [[1]; [2]; [3]].
Proof.
  destruct (paginate_complete (fun b : bytes => b) 2) as [Hall _]; [lia|].
  rewrite (Hall [[3]; [1]; [2]]); [reflexivity| |].
  - cbn. repeat constructor; set_solver.
  - repeat constructor; done.
Defined.
