(* ===== verification/Targets.v ===== *)
(** * Request targets and authorized views

    [targets.go]: the resource a data request names, the app profile it runs
    under, and the policy of an authorized view. *)

From S2P Require Import Prelude Proto Rows Hll Mutations Server Store.
From stdpp Require Import base list gmap sorting.
From Stdlib Require Import ZArith Lia.

#[local] Open Scope Z_scope.

(** ** View policies *)

Record familySubset : Type := mkFamilySubset { fs_qualifiers : gset bytes; fs_prefixes : list bytes }.

Record viewPolicy : Type := mkViewPolicy {
  vp_name : bytes;
  vp_rowPrefixes : list bytes;
  vp_families : gmap bytes familySubset }.

Definition compileViewPolicy (av : AuthorizedView) : viewPolicy :=
  mkViewPolicy (av_Name av) (av_RowPrefixes av)
    ((fun fs => mkFamilySubset (list_to_set (Qualifiers fs)) (QualifierPrefixes fs))
       <$> av_FamilySubsets av).

Definition rowAllowed (p : viewPolicy) (k : bytes) : bool :=
  existsb (HasPrefix k) (vp_rowPrefixes p).

Definition cellAllowed (p : viewPolicy) (fam col : bytes) : bool :=
  match vp_families p !! fam with
  | None => false
  | Some sub =>
      bool_decide (col ∈ fs_qualifiers sub) || existsb (HasPrefix col) (fs_prefixes sub)
  end.

Definition familyFullyAllowed (p : viewPolicy) (fam : bytes) : bool :=
  match vp_families p !! fam with
  | None => false
  | Some sub => existsb (fun prefix => bool_decide (prefix = [])) (fs_prefixes sub)
  end.

(** The columns of one family inside the view. *)
Definition allowedCells (p : viewPolicy) (f : family) : gmap bytes (list cell) :=
  filter (fun '(col, cs) => cellAllowed p (Name f) col = true /\ cs <> []) (Cells f).

(** [restrict].  A family without an allowed cell is empty here and absent
    there; [normalize] drops it. *)
Definition restrict (p : viewPolicy) (r : row) : row :=
  if negb (rowAllowed p (key r)) then newRow (key r)
  else normalize (mkRow (key r)
    ((fun f => mkFamily (Name f) (Order f) [] (allowedCells p f)) <$> by_name (families r))).

Definition checkMutation (p : viewPolicy) (m : Mutation) : outcome unit :=
  let column fam col := if negb (cellAllowed p fam col) then Err PermissionDenied else Ret tt in
  match mutation m with
  | Mutation_SetCell fam col _ _ => column fam col
  | Mutation_DeleteFromColumn fam col _ => column fam col
  | Mutation_AddToCell fam q _ _ => column fam (default [] (valueQualifier q))
  | Mutation_MergeToCell fam q _ _ => column fam (default [] (valueQualifier q))
  | Mutation_DeleteFromFamily fam =>
      if negb (familyFullyAllowed p fam) then Err PermissionDenied else Ret tt
  | Mutation_DeleteFromRow => Err PermissionDenied
  | Mutation_nil => Ret tt
  end.

Definition checkMutations (p : viewPolicy) (k : bytes) (muts : list Mutation) : outcome unit :=
  if negb (rowAllowed p k) then Err PermissionDenied
  else foldM (fun _ m => checkMutation p m) tt muts.

Definition checkRules (p : viewPolicy) (k : bytes) (rules : list ReadModifyWriteRule) : outcome unit :=
  if negb (rowAllowed p k) then Err PermissionDenied
  else foldM (fun _ rule =>
    if negb (cellAllowed p (rmw_FamilyName rule) (rmw_ColumnQualifier rule))
    then Err PermissionDenied else Ret tt) tt rules.

(** ** Targets *)

Record dataTarget : Type := mkDataTarget {
  dt_tbl : table;
  dt_view : option viewPolicy;
  dt_mv : option bytes;
  dt_appProfile : option AppProfile;
  dt_resource : bytes }.

Section targets.
Context {blob : Type} `{!Gob blob} `{!Env}.

(** [SqlAuthorizedViews.Get]. *)
Definition avBackend_Get (name : bytes) : M blob (option AuthorizedView) :=
  call (fun d => (Ret (authorized_views_t d !! name), d)).

Definition authorizedViewTarget (avName : bytes) : M blob dataTarget :=
  let tableName := authorizedViewParentTable avName in
  if bool_decide (tableName = avName) then fail InvalidArgument
  else
    s ← getServer;
    tbl ← lift (localRequireTable s tableName);
    av ← mapErr (fun _ => Internal) (avBackend_Get avName);
    match av with
    | None => fail NotFound
    | Some av => mret (mkDataTarget tbl (Some (compileViewPolicy av)) None None avName)
    end.

Definition materializedViewTarget (name : bytes) : M blob dataTarget :=
  s ← getServer;
  match s_mvs s !! name with
  | None => fail NotFound
  | Some mv => mret (mkDataTarget (mv_storage mv) None (Some name) None name)
  end.

Definition tableTarget (tableName : bytes) : M blob dataTarget :=
  s ← getServer;
  tbl ← lift (localRequireTable s tableName);
  mret (mkDataTarget tbl None None None tableName).

Definition withProfile (t : dataTarget) (p : option AppProfile) : dataTarget :=
  mkDataTarget (dt_tbl t) (dt_view t) (dt_mv t) p (dt_resource t).

Definition resolveReadTarget (tableName avName mvName appProfileID : bytes) : M blob dataTarget :=
  _ ← lift (singleTarget [tableName; avName; mvName]);
  target ← (match mvName, avName with
            | _ :: _, _ => materializedViewTarget mvName
            | [], _ :: _ => authorizedViewTarget avName
            | [], [] => tableTarget tableName
            end);
  s ← getServer;
  profile ← lift (resolveAppProfile s (tableInstance (dt_resource target)) appProfileID);
  mret (withProfile target profile).

Definition resolveWriteTarget (tableName avName appProfileID : bytes) (transactional : bool)
    : M blob dataTarget :=
  _ ← lift (singleTarget [tableName; avName]);
  target ← (match avName with
            | _ :: _ => authorizedViewTarget avName
            | [] => tableTarget tableName
            end);
  s ← getServer;
  profile ← lift (resolveAppProfile s (tableInstance (dt_resource target)) appProfileID);
  if isDataBoostProfile profile then fail FailedPrecondition
  else if transactional &&
          match profile with
          | None => false
          | Some p => negb (default false (ap_SingleCluster p))
          end then fail FailedPrecondition
  else mret (withProfile target profile).

Lemma readonly_getServer : readonly (blob := blob) getServer.
Proof. done. Qed.
Lemma readonly_authorizedViewTarget name : readonly (authorizedViewTarget name).
Proof.
  unfold authorizedViewTarget. case_match; [done|]. apply readonly_bind; [done|]. intros s.
  apply readonly_bind; [done|]. intros tbl. apply readonly_bind; [|by intros []].
  apply readonly_mapErr. by apply readonly_call.
Qed.
Lemma readonly_tableTarget name : readonly (blob := blob) (tableTarget name).
Proof. apply readonly_bind; [done|]. intros s. by apply readonly_bind. Qed.
Lemma readonly_materializedViewTarget name : readonly (blob := blob) (materializedViewTarget name).
Proof. apply readonly_bind; [done|]. intros s. by destruct (_ !! _). Qed.

Lemma readonly_resolveWriteTarget tn av ap tx : readonly (resolveWriteTarget tn av ap tx).
Proof.
  apply readonly_bind; [done|]. intros _. apply readonly_bind.
  { destruct av; [apply readonly_tableTarget|apply readonly_authorizedViewTarget]. }
  intros tgt. apply readonly_bind; [done|]. intros s. apply readonly_bind; [done|]. intros p.
  repeat case_match; done.
Qed.

Lemma readonly_resolveReadTarget tn av mv ap : readonly (resolveReadTarget tn av mv ap).
Proof.
  apply readonly_bind; [done|]. intros _. apply readonly_bind.
  { destruct mv; [destruct av|]; eauto using readonly_tableTarget, readonly_authorizedViewTarget,
      readonly_materializedViewTarget. }
  intros tgt. apply readonly_bind; [done|]. intros s. by apply readonly_bind.
Qed.
End targets.

#[export] Hint Resolve readonly_getServer readonly_resolveWriteTarget readonly_resolveReadTarget : lbt.

(** ** What a view shows *)

Lemma HasPrefix_nil s : HasPrefix s [] = true.
Proof. done. Qed.

Lemma familyFullyAllowed_cells p fam col : familyFullyAllowed p fam = true -> cellAllowed p fam col = true.
Proof.
  unfold familyFullyAllowed, cellAllowed. destruct (vp_families p !! fam) as [sub|]; [|done].
  rewrite existsb_exists. intros (pre & Hin & ->%bool_decide_eq_true).
  apply orb_true_iff. right. apply existsb_exists. by exists [].
Qed.

Lemma restrict_names p r : names_ok r ->
  names_ok (mkRow (key r)
    ((fun f => mkFamily (Name f) (Order f) [] (allowedCells p f)) <$> by_name (families r))).
Proof.
  intros Hn n f. cbn. rewrite by_name_id by done. rewrite lookup_fmap.
  intros (f0 & Hf & ->)%fmap_Some. cbn. by apply Hn.
Qed.

Lemma restrict_normal p r : names_ok r -> normal_row (restrict p r).
Proof.
  intros Hn. unfold restrict. destruct (negb _).
  - intros n f. cbn. by rewrite lookup_empty.
  - by apply normalize_normal, restrict_names.
Qed.

Lemma cells_at_restrict p r fam col :
  normal_row r ->
  cells_at (restrict p r) fam col =
    if rowAllowed p (key r) && cellAllowed p fam col then cells_at r fam col else [].
Proof.
  intros Hr. pose proof (row_ok_names _ _ Hr) as Hn. unfold restrict.
  destruct (rowAllowed p (key r)); cbn [negb andb]; [|done].
  rewrite cells_at_normalize. unfold cells_at at 1. cbn. rewrite by_name_id by done.
  rewrite lookup_fmap. unfold cells_at. destruct (families r !! fam) as [f|] eqn:Ef; cbn.
  2:{ by destruct (cellAllowed p fam col). }
  unfold allowedCells. rewrite map_lookup_filter, (Hn _ _ Ef).
  destruct (Cells f !! col) as [cs|] eqn:Ec; cbn; [|by destruct (cellAllowed p fam col)].
  apply Hr in Ef as (_ & _ & _ & Hc). apply Hc in Ec as [Hne Hs].
  destruct (cellAllowed p fam col).
  - rewrite option_guard_True by done. cbn. by apply sort_cells_id.
  - rewrite option_guard_False by naive_solver. done.
Qed.

(** ** Permitted mutations stay inside the view *)

Lemma applyAggregate_frame r cf fam q ts input g origin merge r' f c :
  applyAggregate r cf fam q ts input g origin merge = Ret r' ->
  ~ (f = fam /\ c = default [] (valueQualifier q)) -> cells_at r' f c = cells_at r f c.
Proof.
  rewrite applyAggregate_spec. intros E Hne.
  destruct (spec_aggregate _ _ _ _ _) as [cl| |]; try done. cbn in E. simplify_eq.
  rewrite cells_at_set_col. by rewrite decide_False.
Qed.

Lemma applyMutation_frame p fams g now r ch m r' ch' f c :
  checkMutation p m = Ret tt -> applyMutation fams g now (r, ch) m = Ret (r', ch') ->
  cellAllowed p f c = false -> cells_at r' f c = cells_at r f c.
Proof.
  unfold checkMutation, applyMutation. intros Hck E Hna.
  assert (forall fam col, (if negb (cellAllowed p fam col) then Err PermissionDenied else Ret tt) = Ret tt ->
    ~ (f = fam /\ c = col)) as Hout.
  { intros fam col H [-> ->]. by rewrite Hna in H. }
  destruct (mutation m) as [|fam col ts v|fam col tr|fam| |fam q ts input|fam q ts input]; try done.
  - destruct (fams !! fam) as [cf|]; [|done]. simplify_eq.
    rewrite cells_at_set_col. by rewrite decide_False by (by apply Hout).
  - simplify_eq. rewrite cells_at_deleteFromColumn. by rewrite decide_False by (by apply Hout).
  - simplify_eq. destruct (familyFullyAllowed p fam) eqn:Ef; [|done].
    unfold cells_at. cbn. rewrite lookup_delete_ne; [done|]. intros ->.
    by rewrite (familyFullyAllowed_cells _ _ c Ef) in Hna.
  - destruct (fams !! fam) as [cf|]; [|done].
    destruct (applyAggregate _ _ _ _ _ _ _ _ _) eqn:Ea; try done. cbn in E. simplify_eq.
    eapply applyAggregate_frame; [done|by apply Hout].
  - destruct (fams !! fam) as [cf|]; [|done].
    destruct (applyAggregate _ _ _ _ _ _ _ _ _) eqn:Ea; try done. cbn in E. simplify_eq.
    eapply applyAggregate_frame; [done|by apply Hout].
Qed.

Lemma checkMutations_Forall p k muts :
  checkMutations p k muts = Ret tt -> rowAllowed p k = true /\ Forall (fun m => checkMutation p m = Ret tt) muts.
Proof.
  unfold checkMutations. destruct (rowAllowed p k); [|done]. cbn [negb]. intros E. split; [done|].
  induction muts as [|m muts IH]; [constructor|]. cbn [foldM] in E.
  destruct (checkMutation p m) as [[]| |] eqn:Em; try done. constructor; auto.
Qed.

Lemma foldM_frame p fams g now muts r ch r' ch' f c :
  Forall (fun m => checkMutation p m = Ret tt) muts ->
  foldM (applyMutation fams g now) (r, ch) muts = Ret (r', ch') ->
  cellAllowed p f c = false -> cells_at r' f c = cells_at r f c.
Proof.
  intros Hck. revert r ch. induction Hck as [|m muts Hm _ IH]; intros r ch E Hna; cbn [foldM] in E.
  { by simplify_eq. }
  destruct (applyMutation fams g now (r, ch) m) as [[r1 ch1]| |] eqn:E1; try done. cbn in E.
  rewrite (IH r1 ch1 E Hna). by eapply applyMutation_frame.
Qed.

(** ** Properties *)

(** A view on one family of the sample row, for concrete instances. *)
Module SampleView.
Definition view : AuthorizedView :=
  mkAuthorizedView (str "v") (Some (mkSubsetView [[107]] {[ [97] := mkFamilySubsets [] [[113]] ]})) [] false.
Definition policy : viewPolicy := compileViewPolicy view.
End SampleView.

(** Through an authorized view a row shows exactly the cells of the columns
    the view lists, and no cell at all when the row key has none of the
    view's prefixes. *)
Theorem restrict_spec p r fam col :
  normal_row r ->
  normal_row (restrict p r) /\ key (restrict p r) = key r /\
  cells_at (restrict p r) fam col =
    if rowAllowed p (key r) && cellAllowed p fam col then cells_at r fam col else [].
Proof.
  intros Hr. split; [by eapply restrict_normal, row_ok_names|]. split.
  - unfold restrict. by destruct (negb _).
  - by apply cells_at_restrict.
Qed.

Lemma restrict_spec_witness :
  normal_row (restrict SampleView.policy Sample.row1) /\
  key (restrict SampleView.policy Sample.row1) = key Sample.row1 /\
  cells_at (restrict SampleView.policy Sample.row1) [98] [113] =
    if rowAllowed SampleView.policy (key Sample.row1) && cellAllowed SampleView.policy [98] [113]
    then cells_at Sample.row1 [98] [113] else [].
Proof. apply restrict_spec. apply stored_normal, Sample.row1_stored. Defined.

(** C37: A mutation list that a view's [checkMutations] admits leaves every
    column outside the view exactly as it was, and touches only a row the
    view covers. *)
Theorem permitted_mutations_confined p fams g now muts r r' changes fam col :
  checkMutations p (key r) muts = Ret tt ->
  applyMutations r muts fams g now = Ret (r', changes) ->
  rowAllowed p (key r) = true /\
  (cellAllowed p fam col = false -> cells_at r' fam col = cells_at r fam col).
Proof.
  intros [Hrow Hck]%checkMutations_Forall E. split; [done|]. intros Hna.
  by eapply foldM_frame.
Qed.

Lemma permitted_mutations_confined_witness :
  exists r' changes,
    applyMutations Sample.row1 [mut (Mutation_SetCell [97] [113; 1] 5000 [7])] SampleTable.fams
      SampleTable.g 9000 = Ret (r', changes) /\
    cells_at r' [98] [113] = cells_at Sample.row1 [98] [113].
Proof.
  eexists _, _. split; [vm_compute; reflexivity|].
  eapply (permitted_mutations_confined SampleView.policy SampleTable.fams SampleTable.g 9000
    [mut (Mutation_SetCell [97] [113; 1] 5000 [7])] Sample.row1); vm_compute; reflexivity.
Defined.
