(* ===== verification/WritePath.v ===== *)
(** * The write path

    [stage] and [persist] of [mutation_engine.go] and the handlers of
    [data_write.go]: MutateRow, MutateRows, CheckAndMutateRow and
    ReadModifyWriteRow, with the idempotency tokens.  A handler runs under the
    table's lock, so it is one sequence of steps here. *)

From S2P Require Import Prelude Proto Rows Gc Hll Mutations Filters Server Store Targets.
From stdpp Require Import base list gmap sorting.
From Stdlib Require Import ZArith Lia.

#[local] Open Scope Z_scope.

(** ** Requests *)

Record MutateRowRequest : Type := mkMutateRow {
  mr_TableName : bytes; mr_AuthorizedViewName : bytes; mr_AppProfileId : bytes;
  mr_RowKey : bytes; mr_Mutations : list Mutation; mr_Idempotency : option Idempotency }.

Record MutateRowsEntry : Type := mkEntry {
  en_RowKey : bytes; en_Mutations : list Mutation; en_Idempotency : option Idempotency }.

Record MutateRowsRequest : Type := mkMutateRows {
  mrs_TableName : bytes; mrs_AuthorizedViewName : bytes; mrs_AppProfileId : bytes;
  mrs_Entries : list MutateRowsEntry }.

Record CheckAndMutateRowRequest : Type := mkCheckAndMutate {
  cm_TableName : bytes; cm_AuthorizedViewName : bytes; cm_AppProfileId : bytes;
  cm_RowKey : bytes; cm_PredicateFilter : option RowFilter;
  cm_TrueMutations : list Mutation; cm_FalseMutations : list Mutation }.

Record ReadModifyWriteRowRequest : Type := mkReadModifyWrite {
  rw_TableName : bytes; rw_AuthorizedViewName : bytes; rw_AppProfileId : bytes;
  rw_RowKey : bytes; rw_Rules : list ReadModifyWriteRule }.

(** ** Commits *)

Record rowCommit : Type := mkCommit {
  rc_key : bytes;
  rc_before : option row;
  rc_after : row;
  rc_userChanges : list Mutation;
  rc_gcChanges : list Mutation }.

Definition table_rows (t : table) : SqlRows := mkSqlRows (t_parent t) (t_storageId t).

(** [idempotencyWindow] in nanoseconds. *)
Definition idempotencyWindow : Z := 15 * 60 * 1000000000.

Definition idem_token (idem : option Idempotency) : bytes := from_option idem_Token [] idem.

(** The change record a ReadModifyWrite rule leaves. *)
Definition setCellChange (fam col : bytes) (ts : Z) (v : bytes) : Mutation :=
  mut (Mutation_SetCell fam col ts v).

(** The value a rule writes over the newest visible cell. *)
Definition rmwValue (rule : RMWRule) (prev : option cell) : outcome bytes :=
  match rule with
  | Rule_AppendValue v => Ret (from_option Value [] prev ++ v)
  | Rule_IncrementAmount n =>
      match prev with
      | None => Ret (encodeInt64 (wrap64 (0 + n)))
      | Some c =>
          if negb (Nat.eqb (length (Value c)) 8) then Err FailedPrecondition
          else Ret (encodeInt64 (wrap64 (be64_int64 (Value c) + n)))
      end
  | Rule_Unset => Ret []
  end.

(** The loop over the rules works on the row, on the copy that shows what
    garbage collection leaves, on the result row and on the changes. *)
Record rmwState : Type := mkRmw {
  rmw_r : row; rmw_visible : row; rmw_result : row; rmw_changes : list Mutation }.

Section write.
Context {blob : Type} `{!Gob blob} `{!Env}.
Context {regexp : Type} (Compile : bytes -> option regexp) (MatchString : regexp -> bytes -> bool).

(** [row.gcWithChanges] with its clock reading. *)
Definition gcNow (rules : gmap bytes GcRule) (r : row) : M blob (row * list Mutation) :=
  if decide (rules = ∅) then mret (r, [])
  else now ← nowMicro; mret (gcWithChanges r rules now).

Definition newTimestampNow : M blob Z := t ← timeNow; mret (newTimestamp t).

(** [filterRow] with its random draws. *)
Definition filterRowNow (f : option RowFilter) (r : row) : M blob (row * bool) := fun w =>
  match filterRow Compile MatchString random f r (w_draws w) with
  | Ret (r', ok, draws) =>
      (Ret (r', ok), mkWorld (w_db w) (w_srv w) (w_calls w) (w_ticks w) draws)
  | Err c => (Err c, w)
  | Panic => (Panic, w)
  end.

(** [stage]: [mutate] returns the mutated candidate, its changes, and what
    else the handler's closure sets. *)
Definition stage {X : Type} (tbl : table) (staged : gmap bytes rowCommit) (k : bytes)
    (mutate : row -> M blob (row * list Mutation * X)) : M blob (rowCommit * gmap bytes rowCommit * X) :=
  '(base, before) ← (match staged !! k with
    | Some prev => mret (Some (rc_after prev), rc_before prev)
    | None => stored ← mapErr storageErr (SqlRows_load (table_rows tbl) k); mret (stored, stored)
    end);
  '(candidate, changes, x) ← mutate (match base with Some r => copy r | None => newRow k end);
  let candidate := set_families candidate
    (filter (fun '(name, _) => is_Some (t_families tbl !! name)) (families candidate)) in
  '(candidate, gcChanges) ← gcNow (gcRulesNoLock tbl) candidate;
  let candidate := normalize candidate in
  let commit :=
    match staged !! k with
    | Some prev => mkCommit k before candidate (rc_userChanges prev ++ changes) (rc_gcChanges prev ++ gcChanges)
    | None => mkCommit k before candidate changes gcChanges
    end in
  mret (commit, <[k := commit]> staged, x).

(** [SqlChangeLog.append]. *)
Definition changeLog_append (tableName k : bytes) (ty : ChangeType) (commitMicros : Z)
    (muts : list Mutation) : M blob unit :=
  call (fun d =>
    let id := change_stream_seq d + 1 in
    (Ret tt, set_change_stream_t d
       (change_stream_t d ++ [mkChangeRecord id tableName k ty commitMicros muts]) id)).

Definition writeCommit (tbl : table) (commitMicros : Z) (c : rowCommit) : M blob unit :=
  _ ← SqlRows_save (table_rows tbl) (rc_after c);
  if negb (changeStreamEnabled tbl) then mret tt
  else
    _ ← (match rc_userChanges c with
         | [] => mret tt
         | ms => changeLog_append (table_name tbl) (rc_key c) USER commitMicros ms
         end);
    match rc_gcChanges c with
    | [] => mret tt
    | ms => changeLog_append (table_name tbl) (rc_key c) GARBAGE_COLLECTION commitMicros ms
    end.

Definition writeCommits (tbl : table) (commits : list rowCommit) (commitMicros : Z) : M blob unit :=
  forM (fun _ c => writeCommit tbl commitMicros c) tt commits.

Definition persistWith (tbl : table) (commits : list rowCommit) (extra : M blob unit) : M blob unit :=
  match commits with
  | [] => mret tt
  | _ =>
      commitMicros ← nowMicro;
      mapErr storageErr (withTx (_ ← writeCommits tbl commits commitMicros; extra))
  end.

Definition persist (tbl : table) (commits : list rowCommit) : M blob unit :=
  persistWith tbl commits (mret tt).

(** [afterCommit] marks the views derived from the table stale. *)
Definition afterCommit (tbl : table) (commits : list rowCommit) : M blob unit :=
  match commits with
  | [] => mret tt
  | _ =>
      s ← getServer;
      putServer (set_mvs s ((fun mv =>
        if bool_decide (mv_source mv = table_name tbl) then mkMV (mv_source mv) (mv_storage mv) true (mv_DeletionProtection mv)
        else mv) <$> s_mvs s))
  end.

(** ** Idempotency tokens *)

Definition validateIdempotency (idem : option Idempotency) : M blob unit :=
  match idem with
  | None => mret tt
  | Some i =>
      match idem_Token i with
      | [] => mret tt
      | tok =>
          if (length tok <? 8)%nat then fail InvalidArgument
          else match idem_StartTime i with
          | None => mret tt
          | Some (sec, nanos) =>
              if negb (sec =? 0) || negb (nanos =? 0) then
                now ← timeNow;
                if idempotencyWindow <? now - (sec * 1000000000 + nanos)
                then fail FailedPrecondition else mret tt
              else mret tt
          end
      end
  end.

Definition idempotencySeen (tableName k : bytes) (idem : option Idempotency) : M blob bool :=
  match idem_token idem with
  | [] => mret false
  | tok =>
      expire ← mapErr (fun _ => Internal)
        (call (fun d => (Ret (idempotency_t d !! (tableName, k, tok)), d)));
      match expire with
      | None => mret false
      | Some expire => now ← nowMicro; mret (now <? expire)
      end
  end.

Definition recordIdempotency (tableName k : bytes) (idem : option Idempotency) : M blob unit :=
  match idem_token idem with
  | [] => mret tt
  | tok =>
      t ← timeNow;
      let expire := (t + idempotencyWindow) / 1000 in
      call (fun d => (Ret tt,
        set_idempotency_t d (<[(tableName, k, tok) := expire]> (idempotency_t d))))
  end.

(** ** Handlers *)

Definition checkView (target : dataTarget) (k : bytes) (muts : list Mutation) : outcome unit :=
  match dt_view target with None => Ret tt | Some p => checkMutations p k muts end.

(** The closure MutateRow and MutateRows give to [stage]. *)
Definition mutateWith (muts : list Mutation) (tbl : table) (now : Z) (r : row)
    : M blob (row * list Mutation * unit) :=
  '(r', changes) ← lift (applyMutations r muts (t_families tbl) (tableGranularity (t_granularity tbl)) now);
  mret (r', changes, tt).

Definition MutateRow (req : MutateRowRequest) : M blob unit :=
  if Nat.eqb (length (mr_Mutations req)) 0 then fail InvalidArgument
  else
    target ← resolveWriteTarget (mr_TableName req) (mr_AuthorizedViewName req) (mr_AppProfileId req) false;
    _ ← lift (validateRowKey (mr_RowKey req));
    _ ← validateIdempotency (mr_Idempotency req);
    _ ← lift (checkView target (mr_RowKey req) (mr_Mutations req));
    let tbl := dt_tbl target in
    seen ← idempotencySeen (table_name tbl) (mr_RowKey req) (mr_Idempotency req);
    if (seen : bool) then mret tt
    else
      _ ← lift (validateMutations (mr_Mutations req) (t_families tbl)
                  (tableGranularity (t_granularity tbl)));
      now ← newTimestampNow;
      '(commit, _, _) ← stage tbl ∅ (mr_RowKey req) (mutateWith (mr_Mutations req) tbl now);
      _ ← persistWith tbl [commit]
            (recordIdempotency (table_name tbl) (mr_RowKey req) (mr_Idempotency req));
      afterCommit tbl [commit].

(** The variables of MutateRows' loop.  [bs_entryCommit] and [bs_status] are
    filled entry by entry: whether the entry was staged, and its status
    ([None] is OK). *)
Record batchState : Type := mkBatch {
  bs_staged : gmap bytes rowCommit;
  bs_order : list bytes;
  bs_entryCommit : list bool;
  bs_status : list (option Code);
  bs_tokens : gset bytes }.

Definition setStatus (st : batchState) (c : option Code) : batchState :=
  mkBatch (bs_staged st) (bs_order st) (bs_entryCommit st ++ [false]) (bs_status st ++ [c]) (bs_tokens st).

Definition batchEntry (target : dataTarget) (now : Z) (st : batchState) (entry : MutateRowsEntry)
    : M blob batchState :=
  let tbl := dt_tbl target in
  let k := en_RowKey entry in
  let token := idem_token (en_Idempotency entry) in
  valid ← catch (
    _ ← lift (validateRowKey k);
    _ ← validateIdempotency (en_Idempotency entry);
    _ ← lift (checkView target k (en_Mutations entry));
    lift (validateMutations (en_Mutations entry) (t_families tbl) (tableGranularity (t_granularity tbl))));
  match valid with
  | inr c => mret (setStatus st (Some c))
  | inl _ =>
      let batchKey := k ++ [0] ++ token in
      if negb (bool_decide (token = [])) && bool_decide (batchKey ∈ bs_tokens st)
      then mret (setStatus st None)
      else
        seen ← catch (idempotencySeen (table_name tbl) k (en_Idempotency entry));
        match seen with
        | inl true => mret (setStatus st None)
        | _ =>
            let st := if bool_decide (token = []) then st
                      else mkBatch (bs_staged st) (bs_order st) (bs_entryCommit st) (bs_status st)
                             ({[ batchKey ]} ∪ bs_tokens st) in
            match seen with
            | inr c => mret (setStatus st (Some c))
            | inl _ =>
                let existed := bool_decide (is_Some (bs_staged st !! k)) in
                res ← catch (stage tbl (bs_staged st) k (mutateWith (en_Mutations entry) tbl now));
                match res with
                | inr c => mret (setStatus st (Some c))
                | inl (_, staged, _) =>
                    mret (mkBatch staged (if existed then bs_order st else bs_order st ++ [k])
                            (bs_entryCommit st ++ [true]) (bs_status st ++ [None]) (bs_tokens st))
                end
            end
        end
  end.

Definition MutateRows (req : MutateRowsRequest) : M blob (list (option Code)) :=
  let nMutations := list_sum (length <$> (en_Mutations <$> mrs_Entries req)) in
  if Nat.eqb nMutations 0 then fail InvalidArgument
  else if maxMutationsPerRequest <? Z.of_nat nMutations then fail InvalidArgument
  else
    target ← resolveWriteTarget (mrs_TableName req) (mrs_AuthorizedViewName req) (mrs_AppProfileId req) false;
    let tbl := dt_tbl target in
    now ← newTimestampNow;
    st ← forM (batchEntry target now) (mkBatch ∅ [] [] [] ∅) (mrs_Entries req);
    let final := omap (fun k => bs_staged st !! k) (bs_order st) in
    res ← catch (persistWith tbl final
      (forM (fun _ '(entry, committed) =>
         if (committed : bool) then recordIdempotency (table_name tbl) (en_RowKey entry) (en_Idempotency entry)
         else mret tt) tt (zip (mrs_Entries req) (bs_entryCommit st))));
    match res with
    | inr c =>
        mret (zip_with (fun (committed : bool) s => if committed then Some c else s)
                (bs_entryCommit st) (bs_status st))
    | inl _ => _ ← afterCommit tbl final; mret (bs_status st)
    end.

(** The closure CheckAndMutateRow gives to [stage]; it also sets [matched]. *)
Definition checkAndMutate (target : dataTarget) (req : CheckAndMutateRowRequest) (now : Z) (r : row)
    : M blob (row * list Mutation * bool) :=
  let tbl := dt_tbl target in
  let fams := t_families tbl in
  let g := tableGranularity (t_granularity tbl) in
  let visible := match dt_view target with Some p => restrict p r | None => r end in
  matched ← (match cm_PredicateFilter req with
    | None => mret (negb (isEmpty visible))
    | Some f =>
        '(candidate, _) ← gcNow (gcRulesNoLock tbl) (copy visible);
        '(_, ok) ← filterRowNow (Some f) candidate;
        mret ok
    end);
  let muts := if (matched : bool) then cm_TrueMutations req else cm_FalseMutations req in
  match muts with
  | [] => mret (r, [], matched)
  | _ =>
      _ ← lift (validateMutations muts fams g);
      '(r', changes) ← lift (applyMutations r muts fams g now);
      mret (r', changes, matched)
  end.

Definition CheckAndMutateRow (req : CheckAndMutateRowRequest) : M blob bool :=
  target ← resolveWriteTarget (cm_TableName req) (cm_AuthorizedViewName req) (cm_AppProfileId req) true;
  _ ← lift (validateRowKey (cm_RowKey req));
  if Nat.eqb (length (cm_TrueMutations req)) 0 && Nat.eqb (length (cm_FalseMutations req)) 0
  then fail InvalidArgument
  else
    _ ← lift (validateFilter Compile (cm_PredicateFilter req));
    _ ← lift (match dt_view target with
              | None => Ret tt
              | Some p =>
                  foldM (fun _ muts => match muts with [] => Ret tt | _ => checkMutations p (cm_RowKey req) muts end)
                    tt [cm_TrueMutations req; cm_FalseMutations req]
              end);
    let tbl := dt_tbl target in
    now ← newTimestampNow;
    '(commit, _, matched) ← stage tbl ∅ (cm_RowKey req) (checkAndMutate target req now);
    if Nat.eqb (length (rc_userChanges commit)) 0 then mret matched
    else _ ← persist tbl [commit]; _ ← afterCommit tbl [commit]; mret matched.

(** One rule of ReadModifyWriteRow. *)
Definition rmwRule (fams : gmap bytes columnFamily) (st : rmwState) (rule : ReadModifyWriteRule)
    : M blob rmwState :=
  let fam := rmw_FamilyName rule in
  let col := rmw_ColumnQualifier rule in
  match fams !! fam with
  | None => lift Panic
  | Some cf =>
      let prev := head (cells_at (rmw_visible st) fam col) in
      now ← newTimestampNow;
      let ts := match prev with Some c => Z.max now (Ts c) | None => now end in
      value ← lift (rmwValue (rmw_Rule rule) prev);
      let newCell := mkCell ts value [] in
      let write r := set_col r fam col (cf_Order cf) (fun cs => appendOrReplaceCell cs newCell) in
      mret (mkRmw (write (rmw_r st)) (write (rmw_visible st))
              (set_col (rmw_result st) fam col (cf_Order cf) (fun _ => [newCell]))
              (rmw_changes st ++ [setCellChange fam col ts value]))
  end.

Definition readModifyWrite (tbl : table) (k : bytes) (rules : list ReadModifyWriteRule) (r : row)
    : M blob (row * list Mutation * row) :=
  '(visible, _) ← gcNow (gcRulesNoLock tbl) (copy r);
  st ← forM (rmwRule (t_families tbl)) (mkRmw r visible (newRow k) []) rules;
  mret (rmw_r st, rmw_changes st, rmw_result st).

(** The checks on the rules before the row is read. *)
Definition checkRmwRule (fams : gmap bytes columnFamily) (rule : ReadModifyWriteRule) : outcome unit :=
  match fams !! rmw_FamilyName rule with
  | None => unknownFamilyError
  | Some cf =>
      if negb (bool_decide (familyAggregate cf = aggregateNone)) then Err InvalidArgument
      else match rmw_Rule rule with Rule_Unset => Err InvalidArgument | _ => Ret tt end
  end.

(** The families of the response: names in creation order, columns by name,
    the written cell of each. *)
Definition rmwResponse (result : row) : outcome (list (bytes * list (bytes * cell))) :=
  collectM (fun f =>
    cols ← collectM (fun col =>
      match default [] (Cells f !! col) with c :: _ => Ret (col, c) | [] => Panic end) (ColNames f);
    Ret (Name f, cols)) (sortedFamilies result).

Definition ReadModifyWriteRow (req : ReadModifyWriteRowRequest)
    : M blob (list (bytes * list (bytes * cell))) :=
  target ← resolveWriteTarget (rw_TableName req) (rw_AuthorizedViewName req) (rw_AppProfileId req) true;
  _ ← lift (validateRowKey (rw_RowKey req));
  if Nat.eqb (length (rw_Rules req)) 0 then fail InvalidArgument
  else if maxMutationsPerRequest <? Z.of_nat (length (rw_Rules req)) then fail InvalidArgument
  else
    _ ← lift (match dt_view target with
              | None => Ret tt
              | Some p => checkRules p (rw_RowKey req) (rw_Rules req)
              end);
    let tbl := dt_tbl target in
    _ ← lift (foldM (fun _ rule => checkRmwRule (t_families tbl) rule) tt (rw_Rules req));
    '(commit, _, result) ← stage tbl ∅ (rw_RowKey req) (readModifyWrite tbl (rw_RowKey req) (rw_Rules req));
    _ ← persist tbl [commit];
    _ ← afterCommit tbl [commit];
    lift (rmwResponse result).
End write.

#[local] Arguments persistWith : simpl never.
#[local] Arguments afterCommit : simpl never.
#[local] Arguments rmwRule : simpl never.
#[local] Arguments stage : simpl never.
#[local] Arguments batchEntry : simpl never.

(** ** A failed request writes nothing *)

(** Closes [readonly] goals built from binds, branches and known calls. *)
Ltac solve_readonly :=
  repeat first
    [ done
    | solve [eauto with lbt]
    | apply readonly_bind; [|intros ?]
    | apply readonly_mapErr
    | apply readonly_call; intros ?
    | case_match ].

Section atomicity.
Context {blob : Type} `{!Gob blob} `{!Env}.
Context {regexp : Type} (Compile : bytes -> option regexp) (MatchString : regexp -> bytes -> bool).

Lemma readonly_catch {A} (m : M blob A) : readonly m -> readonly (catch m).
Proof. intros Hm w. specialize (Hm w). unfold catch. by destruct (m w) as [[]]. Qed.

Lemma readonly_gcNow rules r : readonly (blob := blob) (gcNow rules r).
Proof. unfold gcNow. solve_readonly. Qed.

Lemma readonly_newTimestampNow : readonly (blob := blob) newTimestampNow.
Proof. unfold newTimestampNow. solve_readonly. Qed.

Lemma readonly_filterRowNow f r : readonly (blob := blob) (filterRowNow Compile MatchString f r).
Proof. intros w. unfold filterRowNow. destruct (filterRow _ _ _ _ _ _) as [[[]]| |]; done. Qed.

#[local] Hint Resolve readonly_catch readonly_gcNow readonly_newTimestampNow readonly_filterRowNow : lbt.

Lemma readonly_stage {X : Type} tbl staged k (mutate : row -> M blob (row * list Mutation * X)) :
  (forall r, readonly (mutate r)) -> readonly (stage tbl staged k mutate).
Proof. intros Hm. unfold stage. solve_readonly; apply Hm. Qed.

Lemma readonly_mutateWith muts tbl now r : readonly (blob := blob) (mutateWith muts tbl now r).
Proof. unfold mutateWith. solve_readonly. Qed.

Lemma readonly_validateIdempotency idem : readonly (blob := blob) (validateIdempotency idem).
Proof. unfold validateIdempotency. solve_readonly. Qed.

Lemma readonly_idempotencySeen tn k idem : readonly (blob := blob) (idempotencySeen tn k idem).
Proof. unfold idempotencySeen. solve_readonly. Qed.

Lemma readonly_checkAndMutate target req now r :
  readonly (blob := blob) (checkAndMutate Compile MatchString target req now r).
Proof. unfold checkAndMutate. solve_readonly. Qed.

Lemma readonly_rmwRule fams st rule : readonly (blob := blob) (rmwRule fams st rule).
Proof. unfold rmwRule. solve_readonly. Qed.

Lemma readonly_readModifyWrite tbl k rules r : readonly (blob := blob) (readModifyWrite tbl k rules r).
Proof.
  unfold readModifyWrite. apply readonly_bind; [eauto with lbt|]. intros [v c].
  apply readonly_bind; [|done]. apply readonly_forM. intros. apply readonly_rmwRule.
Qed.

#[local] Hint Resolve readonly_stage readonly_mutateWith readonly_validateIdempotency
  readonly_idempotencySeen readonly_checkAndMutate readonly_readModifyWrite : lbt.

Lemma atomic_persistWith tbl commits extra : atomic (persistWith tbl commits extra).
Proof.
  unfold persistWith. destruct commits; [by apply atomic_readonly|].
  apply atomic_bind; [apply readonly_nowMicro|]. intros micros. eauto with lbt.
Qed.

Lemma afterCommit_total tbl commits w :
  exists w', afterCommit (blob := blob) tbl commits w = (Ret tt, w') /\ w_db w' = w_db w.
Proof. unfold afterCommit. destruct commits; [by exists w|]. eexists. split; done. Qed.

Lemma atomic_fail {A} c : atomic (blob := blob) (fail (A := A) c).
Proof. by apply atomic_readonly. Qed.

Lemma atomic_MutateRow req : atomic (MutateRow req).
Proof.
  unfold MutateRow. case_match; [apply atomic_fail|].
  repeat (apply atomic_bind; [solve [eauto with lbt]|]; intros ?).
  case_match; [by apply atomic_readonly|].
  repeat (apply atomic_bind; [solve [eauto with lbt]|]; intros ?).
  repeat case_match. apply atomic_then; [apply atomic_persistWith|].
  intros ? w. destruct (afterCommit_total (dt_tbl a) [r] w) as (w' & -> & _). by exists tt.
Qed.

Lemma atomic_CheckAndMutateRow req : atomic (CheckAndMutateRow Compile MatchString req).
Proof.
  unfold CheckAndMutateRow.
  repeat (apply atomic_bind; [solve [eauto with lbt]|]; intros ?). case_match; [apply atomic_fail|].
  repeat (apply atomic_bind; [solve [eauto with lbt]|]; intros ?). repeat case_match; [by apply atomic_readonly|].
  apply atomic_then; [apply atomic_persistWith|]. intros ? w.
  unfold mbind, M_bind. destruct (afterCommit_total (dt_tbl a) [r] w) as (w' & -> & _). by eexists.
Qed.
End atomicity.

(** ** What a commit does *)

(** A candidate after the table's families and GC policy were applied to
    it, with the GC changes. *)
Definition known (tbl : table) (r : row) : row :=
  set_families r (filter (fun '(name, _) => is_Some (t_families tbl !! name)) (families r)).

Definition settle (tbl : table) (now : Z) (r : row) : row * list Mutation :=
  let '(r', gcChanges) := gcWithChanges (known tbl r) (gcRulesNoLock tbl) now in
  (normalize r', gcChanges).

Lemma known_stored tbl r : stored_row r -> stored_row (known tbl r).
Proof. intros Hr n f Hf. cbn in Hf. apply map_lookup_filter_Some in Hf as [Hf _]. by apply Hr. Qed.

Lemma cells_at_known tbl r fam col :
  cells_at (known tbl r) fam col =
    if decide (is_Some (t_families tbl !! fam)) then cells_at r fam col else [].
Proof.
  unfold cells_at, known. cbn. rewrite map_lookup_filter.
  destruct (families r !! fam) as [f|]; cbn; [|by case_decide].
  case_decide as Hd; [by rewrite option_guard_True|by rewrite option_guard_False].
Qed.

Lemma settle_stored tbl now r :
  stored_row r -> stored_row (settle tbl now r).1 /\ key (settle tbl now r).1 = key r.
Proof.
  intros Hr. apply (known_stored tbl) in Hr as Hk. unfold settle.
  pose proof (gcWithChanges_stored (known tbl r) (gcRulesNoLock tbl) now Hk) as Hs.
  pose proof (key_gcWithChanges (known tbl r) (gcRulesNoLock tbl) now (stored_normal _ Hk)) as Hkey.
  destruct (gcWithChanges _ _ _) as [r' ch]. cbn [fst] in *.
  rewrite normalize_id by (by apply stored_normal). done.
Qed.

(** The change records of a commit, from the last assigned id on. *)
Definition commit_records (tbl : table) (micros : Z) (c : rowCommit) (seq : Z) : list changeRecord :=
  if changeStreamEnabled tbl then
    let user := match rc_userChanges c with
                | [] => []
                | ms => [mkChangeRecord (seq + 1) (table_name tbl) (rc_key c) USER micros ms]
                end in
    user ++ match rc_gcChanges c with
            | [] => []
            | ms => [mkChangeRecord (seq + Z.of_nat (length user) + 1) (table_name tbl) (rc_key c)
                       GARBAGE_COLLECTION micros ms]
            end
  else [].

Definition stored_form (r : row) : option row := if isEmpty r then None else Some r.

Section effects.
Context {blob : Type} `{!Gob blob} `{!Env}.
Implicit Types (w : world blob) (d : database blob).

Lemma gcNow_Ret rules r w res w' :
  gcNow rules r w = (Ret res, w') ->
  w_db w' = w_db w /\ w_srv w' = w_srv w /\ exists now, res = gcWithChanges r rules now.
Proof.
  unfold gcNow. case_decide as Hd.
  - intros [<- ->]%ret_Ret. split; [done|]. split; [done|]. exists 0. unfold gcWithChanges.
    by rewrite decide_True.
  - intros E. inv_M. unfold nowMicro in *. inv_M. unfold timeNow in *. simplify_eq/=. eauto.
Qed.

Lemma stage_Ret {X : Type} tbl k (mutate : row -> M blob (row * list Mutation * X)) w c staged x w' :
  (forall r, readonly (mutate r)) -> (forall r w1 b w2, mutate r w1 = (Ret b, w2) -> w_srv w2 = w_srv w1) ->
  stage tbl ∅ k mutate w = (Ret (c, staged, x), w') ->
  exists r' changes w1 w2 now,
    w_db w1 = w_db w /\ w_db w' = w_db w /\ w_srv w' = w_srv w /\
    mutate (match row_at (w_db w) (table_rows tbl) k with Some r => copy r | None => newRow k end) w1 =
      (Ret (r', changes, x), w2) /\
    c = mkCommit k (row_at (w_db w) (table_rows tbl) k) (settle tbl now r').1 changes (settle tbl now r').2.
Proof.
  intros Hro Hsrv E. unfold stage in E. rewrite lookup_empty in E. inv_M.
  match goal with H : SqlRows_load _ _ _ = _ |- _ => apply load_Ret in H as (-> & Hdb & Hs) end.
  match goal with H : mutate ?r0 ?w1 = _ |- _ =>
    pose proof (Hro r0 w1) as Hm; rewrite H in Hm; cbn in Hm; pose proof (Hsrv _ _ _ _ H) as Hsm end.
  match goal with H : gcNow _ _ _ = _ |- _ => apply gcNow_Ret in H as (Hg & Hsg & now & Heq) end.
  eexists _, _, _, _, now. split; [exact Hdb|]. split; [congruence|]. split; [congruence|].
  split; [eassumption|]. unfold settle, known. rewrite <- Heq. done.
Qed.

Lemma changeLog_append_Ret tn k ty micros ms w w' :
  changeLog_append (blob := blob) tn k ty micros ms w = (Ret tt, w') ->
  w_db w' = set_change_stream_t (w_db w)
    (change_stream_t (w_db w) ++ [mkChangeRecord (change_stream_seq (w_db w) + 1) tn k ty micros ms])
    (change_stream_seq (w_db w) + 1) /\ w_srv w' = w_srv w.
Proof. unfold changeLog_append. intros (d & [= <-] & ->)%call_Ret. done. Qed.

Lemma writeCommit_Ret tbl micros c w w' :
  writeCommit tbl micros c w = (Ret tt, w') ->
  let d := w_db w in let d' := w_db w' in
  let recs := commit_records tbl micros c (change_stream_seq d) in
  row_updated d d' (table_rows tbl) (key (rc_after c)) (stored_form (rc_after c)) /\
  change_stream_t d' = change_stream_t d ++ recs /\
  change_stream_seq d' = change_stream_seq d + Z.of_nat (length recs) /\
  tables_t d' = tables_t d /\ idempotency_t d' = idempotency_t d /\
  authorized_views_t d' = authorized_views_t d /\ w_srv w' = w_srv w /\
  (db_ok d -> stored_row (rc_after c) -> db_ok d').
Proof.
  unfold writeCommit, commit_records. intros E. inv_M; repeat match goal with
    u : unit |- _ => destruct u end;
  match goal with H : SqlRows_save _ _ _ = _ |- _ =>
    apply save_Ret in H as (Hup & (Ht & Hc & Hq & Hi & Ha & _) & Hs & Hok) end.
  - destruct (changeStreamEnabled tbl); [done|]. cbn. rewrite app_nil_r, Z.add_0_r. done.
  - destruct (changeStreamEnabled tbl); [|done]. cbn zeta.
    destruct (rc_userChanges c) as [|u us]; destruct (rc_gcChanges c) as [|g gs];
      repeat match goal with
      | H : (mret _) _ = _ |- _ => apply ret_Ret in H as [_ ->]
      | H : changeLog_append _ _ _ _ _ _ = _ |- _ => apply changeLog_append_Ret in H as [? ?]
      end;
      repeat match goal with H : w_db _ = set_change_stream_t _ _ _ |- _ => rewrite H; clear H end;
      cbn; rewrite ?Hc, ?Hq, <- ?app_assoc, ?app_nil_r, ?Z.add_0_r; cbn;
      split_and!; try done; try lia; try congruence.
Qed.

Lemma persistWith_one tbl c extra w w' :
  persistWith tbl [c] extra w = (Ret tt, w') ->
  exists micros w1 w2 w3, w_db w1 = w_db w /\ w_srv w1 = w_srv w /\
    writeCommit tbl micros c w1 = (Ret tt, w2) /\ extra w2 = (Ret tt, w3) /\
    w_db w' = w_db w3 /\ w_srv w' = w_srv w3.
Proof.
  unfold persistWith. intros E. apply bind_Ret in E as (micros & w1 & E1 & E).
  unfold nowMicro in E1. inv_M. unfold timeNow in *. simplify_eq/=.
  match goal with H : withTx _ _ = _ |- _ =>
    apply withTx_Ret in H as (w1 & w3 & Hd1 & Hs1 & Hf & Hd & Hs) end.
  inv_M. unfold writeCommits in *. cbn [forM] in *. inv_M. repeat match goal with u : unit |- _ => destruct u end.
  eexists _, w1, _, w3. cbn in *. split_and!; eauto.
Qed.

Lemma recordIdempotency_Ret tn k idem w w' :
  recordIdempotency (blob := blob) tn k idem w = (Ret tt, w') ->
  w_srv w' = w_srv w /\
  (idem_token idem = [] /\ w_db w' = w_db w \/
   idem_token idem <> [] /\ w_db w' = set_idempotency_t (w_db w)
     (<[(tn, k, idem_token idem) := (clock (w_ticks w) + idempotencyWindow) / 1000]>
        (idempotency_t (w_db w)))).
Proof.
  unfold recordIdempotency. destruct (idem_token idem) as [|b tok]; intros E.
  - apply ret_Ret in E as [_ ->]. split; [done|]. by left.
  - inv_M. unfold timeNow in *. simplify_eq/=.
    match goal with H : call _ _ = _ |- _ => apply call_Ret in H as (d & Hf & ->) end.
    simplify_eq/=. split; [done|]. by right.
Qed.

Lemma afterCommit_Ret tbl commits w w' :
  afterCommit (blob := blob) tbl commits w = (Ret tt, w') -> w_db w' = w_db w.
Proof. destruct (afterCommit_total tbl commits w) as (w1 & -> & Hd). by intros [= ->]. Qed.

Lemma mutateWith_Ret muts tbl now r w b w' :
  mutateWith (blob := blob) muts tbl now r w = (Ret b, w') ->
  w' = w /\ applyMutations r muts (t_families tbl) (tableGranularity (t_granularity tbl)) now = Ret (b.1.1, b.1.2).
Proof. unfold mutateWith. intros E. inv_M. done. Qed.

Lemma idempotencySeen_Ret tn k idem w b w' :
  idempotencySeen (blob := blob) tn k idem w = (Ret b, w') ->
  b = match idempotency_t (w_db w) !! (tn, k, idem_token idem) with
      | Some expire => negb (bool_decide (idem_token idem = [])) && (clock (w_ticks w) / 1000 <? expire)
      | None => false
      end.
Proof.
  unfold idempotencySeen. destruct (idem_token idem) as [|b0 tok]; intros E.
  - apply ret_Ret in E as [<- _]. by destruct (_ !! _).
  - inv_M. match goal with H : call _ _ = _ |- _ => apply call_Ret in H as (d & Hf & ->) end.
    simplify_eq/=. destruct (_ !! _); inv_M; [|done]. unfold nowMicro in *. inv_M.
    unfold timeNow in *. simplify_eq/=. done.
Qed.

(** The row an accepted MutateRow leaves. *)
Lemma MutateRow_Ret req w w' :
  db_ok (w_db w) -> MutateRow req w = (Ret tt, w') ->
  exists target w0, resolveWriteTarget (mr_TableName req) (mr_AuthorizedViewName req)
      (mr_AppProfileId req) false w = (Ret target, w0) /\
  let tbl := dt_tbl target in let k := mr_RowKey req in
  let g := tableGranularity (t_granularity tbl) in
  let d := w_db w in let d' := w_db w' in
  validateRowKey k = Ret tt /\ checkView target k (mr_Mutations req) = Ret tt /\
  ((d' = d /\ exists expire, idempotency_t d !! (table_name tbl, k, idem_token (mr_Idempotency req)) = Some expire) \/
   (validateMutations (mr_Mutations req) (t_families tbl) g = Ret tt /\
    exists now gcNow micros tick r' changes,
      applyMutations (default (newRow k) (row_at d (table_rows tbl) k)) (mr_Mutations req)
        (t_families tbl) g now = Ret (r', changes) /\
      row_updated d d' (table_rows tbl) k (stored_form (settle tbl gcNow r').1) /\
      change_stream_t d' = change_stream_t d ++
        commit_records tbl micros (mkCommit k (row_at d (table_rows tbl) k) (settle tbl gcNow r').1
          changes (settle tbl gcNow r').2) (change_stream_seq d) /\
      idempotency_t d' = (if bool_decide (idem_token (mr_Idempotency req) = []) then idempotency_t d
        else <[(table_name tbl, k, idem_token (mr_Idempotency req)) := (clock tick + idempotencyWindow) / 1000]>
               (idempotency_t d)) /\
      db_ok d')).
Proof.
  intros Hok E. unfold MutateRow in E. destruct (Nat.eqb _ _); [by apply fail_Ret in E|].
  apply bind_Ret in E as (target & w0 & Et & E). exists target, w0. split; [done|]. cbn zeta.
  pose proof (readonly_resolveWriteTarget (mr_TableName req) (mr_AuthorizedViewName req)
    (mr_AppProfileId req) false w) as Hro. rewrite Et in Hro. cbn in Hro.
  apply bind_Ret in E as ([] & w1 & [Hk ->]%lift_Ret & E). split; [done|].
  apply bind_Ret in E as ([] & w1 & Ev & E).
  pose proof (readonly_validateIdempotency (mr_Idempotency req) w0) as Hro1. rewrite Ev in Hro1. cbn in Hro1.
  apply bind_Ret in E as ([] & w2 & [Hc ->]%lift_Ret & E). split; [done|].
  apply bind_Ret in E as (seen & w2 & Es & E).
  pose proof (readonly_idempotencySeen (table_name (dt_tbl target)) (mr_RowKey req) (mr_Idempotency req) w1) as Hro2.
  rewrite Es in Hro2. cbn in Hro2. apply idempotencySeen_Ret in Es.
  assert (w_db w2 = w_db w) as Hdb by congruence. assert (w_db w1 = w_db w) as Hdb1 by congruence.
  destruct seen.
  { left. apply ret_Ret in E as [_ ->]. rewrite Hdb. split; [done|]. rewrite Hdb1 in Es.
    destruct (_ !! _); [eauto|done]. }
  right. apply bind_Ret in E as ([] & w3 & [Hv ->]%lift_Ret & E). split; [done|].
  apply bind_Ret in E as (now & w3 & En & E). unfold newTimestampNow in En. inv_M. unfold timeNow in *. simplify_eq/=.
  match goal with H : stage _ _ _ _ _ = _ |- _ => apply stage_Ret in H
    as (r' & ch & wa & wb & gn & Hwa & Hws & _ & Hmut & ->); [|intros; apply readonly_mutateWith|
      by intros ? ? ? ? [-> _]%mutateWith_Ret] end.
  apply mutateWith_Ret in Hmut as [-> Happ]. cbn [w_db fst snd] in *. rewrite Hdb in *.
  repeat match goal with u : unit |- _ => destruct u end.
  match goal with H : persistWith _ _ _ _ = _ |- _ =>
    apply persistWith_one in H as (micros & v1 & v2 & v3 & Hv1 & _ & Hwc & Hre & Hd3 & _) end.
  match goal with H : afterCommit _ _ _ = _ |- _ => apply afterCommit_Ret in H end.
  set (before := row_at (w_db w) (table_rows (dt_tbl target)) (mr_RowKey req)) in *.
  assert (match before with Some r => copy r | None => newRow (mr_RowKey req) end =
    default (newRow (mr_RowKey req)) before) as Hbase.
  { destruct before as [r|] eqn:Eb; [|done]. cbn. unfold before in Eb.
    apply db_ok_row in Eb as (Hst & _ & _); [|done]. apply copy_id. by eapply row_ok_names. }
  assert (stored_row (default (newRow (mr_RowKey req)) before) /\
          key (default (newRow (mr_RowKey req)) before) = mr_RowKey req) as [Hbst Hbk].
  { destruct before as [r|] eqn:Eb; cbn.
    - unfold before in Eb. by apply db_ok_row in Eb as (? & ? & _).
    - split; [|done]. intros n f. cbn. by rewrite lookup_empty. }
  rewrite Hbase in Happ. destruct (applyMutations_stored _ _ _ _ _ _ _ Hbst Happ) as [Hst' Hk'].
  destruct (settle_stored (dt_tbl target) gn r' Hst') as [Hss Hsk].
  apply writeCommit_Ret in Hwc. cbn zeta in Hwc. cbn [rc_after] in Hwc.
  destruct Hwc as (Hup & Hcs & Hq & Ht & Hi & Ha & _ & Hok').
  rewrite Hv1, Hws in *. rewrite Hsk, Hk', Hbk in Hup.
  apply recordIdempotency_Ret in Hre as (_ & Hre).
  eexists _, gn, micros, (w_ticks v2), r', ch. split; [exact Happ|].
  assert (w_db w' = w_db v3) as -> by congruence.
  destruct Hre as [[Htok Hd]|[Htok Hd]]; rewrite Hd.
  - rewrite bool_decide_eq_true_2 by done. split_and!; [done..|]. by apply Hok'.
  - rewrite bool_decide_eq_false_2 by done. split_and!; [exact Hup|exact Hcs| |].
    + cbn. by rewrite Hi.
    + apply Hok'; done.
Qed.
End effects.

(** ** Every handler keeps the database well formed *)

Definition commit_ok (k : bytes) (c : rowCommit) : Prop :=
  stored_row (rc_after c) /\ key (rc_after c) = k /\ rc_key c = k.

Definition staged_ok (staged : gmap bytes rowCommit) : Prop := map_Forall commit_ok staged.

(** [m] started in a well-formed database ends in one. *)
Definition keeps {blob} `{!Gob blob} {A} (m : M blob A) : Prop :=
  forall w, db_ok (w_db w) -> db_ok (w_db (m w).2).

Section well_formed.
Context {blob : Type} `{!Gob blob} `{!Env}.
Context {regexp : Type} (Compile : bytes -> option regexp) (MatchString : regexp -> bytes -> bool).
Implicit Types (w : world blob) (d : database blob).

Lemma newRow_stored k : stored_row (newRow k).
Proof. intros n f. cbn. by rewrite lookup_empty. Qed.

Lemma keeps_readonly {A} (m : M blob A) : readonly m -> keeps m.
Proof. intros Hm w Hok. by rewrite Hm. Qed.

Lemma keeps_bind_post {A B} (Q : A -> Prop) (m : M blob A) (f : A -> M blob B) :
  (forall w, db_ok (w_db w) -> match m w with (Ret a, w') => Q a /\ db_ok (w_db w') | (_, w') => db_ok (w_db w') end) ->
  (forall a, Q a -> keeps (f a)) -> keeps (m ≫= f).
Proof.
  intros Hm Hf w Hok. specialize (Hm w Hok). unfold mbind, M_bind.
  destruct (m w) as [[a| |] w']; cbn in *; auto. destruct Hm as [HQ Hok']. by apply (Hf a HQ w').
Qed.

Lemma keeps_bind {A B} (m : M blob A) (f : A -> M blob B) :
  keeps m -> (forall a, keeps (f a)) -> keeps (m ≫= f).
Proof.
  intros Hm Hf. apply (keeps_bind_post (fun _ => True)); [|auto].
  intros w Hok. specialize (Hm w Hok). destruct (m w) as [[]]; auto.
Qed.

Lemma keeps_catch {A} (m : M blob A) : keeps m -> keeps (catch m).
Proof. intros Hm w Hok. specialize (Hm w Hok). unfold catch. by destruct (m w) as [[]]. Qed.

Lemma keeps_afterCommit tbl commits : keeps (afterCommit tbl commits).
Proof. intros w Hok. destruct (afterCommit_total tbl commits w) as (w' & -> & Hd). cbn. by rewrite Hd. Qed.

(** Staging a stored row with a closure that keeps rows stored. *)
Lemma stage_ok {X : Type} tbl staged k (mutate : row -> M blob (row * list Mutation * X)) w res w' :
  (forall r, readonly (mutate r)) ->
  (forall r w1 r' ch x w2, stored_row r -> mutate r w1 = (Ret (r', ch, x), w2) ->
     stored_row r' /\ key r' = key r) ->
  db_ok (w_db w) -> staged_ok staged ->
  stage tbl staged k mutate w = (Ret res, w') ->
  commit_ok k res.1.1 /\ res.1.2 = <[k := res.1.1]> staged /\ staged_ok res.1.2.
Proof.
  intros Hro Hst Hok Hs E. unfold stage in E. apply bind_Ret in E as ([base before] & w1 & Eb & E).
  assert (stored_row (match base with Some r => copy r | None => newRow k end) /\
          key (match base with Some r => copy r | None => newRow k end) = k) as [Hb Hbk].
  { clear E. destruct (staged !! k) as [prev|] eqn:Ep; inv_M.
    - destruct (Hs k prev Ep) as (Hp & Hk & _). rewrite copy_id by (by eapply row_ok_names). done.
    - match goal with H : SqlRows_load _ _ _ = _ |- _ => apply load_Ret in H as (-> & _ & _) end.
      destruct (row_at _ _ _) as [r0|] eqn:Er; [|split; [apply newRow_stored|done]].
      apply db_ok_row in Er as (Hr & Hk & _); [|done]. rewrite copy_id by (by eapply row_ok_names). done. }
  clear Eb. apply bind_Ret in E as ([[r' ch] x] & w2 & Em & E).
  destruct (Hst _ _ _ _ _ _ Hb Em) as [Hr' Hk']. inv_M.
  match goal with H : gcNow _ _ _ = _ |- _ => apply gcNow_Ret in H as (_ & _ & now & Hg) end.
  destruct (settle_stored tbl now r' Hr') as [Hss Hsk]. unfold settle, known in Hss, Hsk.
  rewrite <- Hg in Hss, Hsk. cbn [fst snd] in *.
  assert (forall u g, commit_ok k (mkCommit k before (normalize r) u g)) as Hc.
  { intros u g. split_and!; [exact Hss| |done]. cbn [rc_after]. rewrite Hsk, Hk'. exact Hbk. }
  destruct (staged !! k); (split; [apply Hc|]); (split; [done|]); apply map_Forall_insert_2; auto.
Qed.

Lemma writeCommits_ok tbl commits micros w w' :
  Forall (fun c => stored_row (rc_after c)) commits -> db_ok (w_db w) ->
  writeCommits tbl commits micros w = (Ret tt, w') -> db_ok (w_db w').
Proof.
  unfold writeCommits. intros Hc. revert w. induction Hc as [|c cs Hc _ IH]; intros w Hok E; cbn [forM] in E.
  - by apply ret_Ret in E as [_ ->].
  - apply bind_Ret in E as ([] & w1 & E1 & E). apply writeCommit_Ret in E1 as (_ & _ & _ & _ & _ & _ & _ & Hd).
    eauto.
Qed.

Lemma keeps_persistWith tbl commits extra :
  Forall (fun c => stored_row (rc_after c)) commits -> keeps extra -> keeps (persistWith tbl commits extra).
Proof.
  intros Hc He w Hok. pose proof (atomic_persistWith tbl commits extra w) as Ha.
  destruct (persistWith tbl commits extra w) as [[[]| |] w'] eqn:E; [|by cbn; rewrite Ha..]. clear Ha.
  unfold persistWith in E. destruct commits as [|c cs]; [by apply ret_Ret in E as [_ ->]|].
  apply bind_Ret in E as (micros & w1 & E1 & E). apply mapErr_Ret in E.
  pose proof (readonly_nowMicro w) as Hro. rewrite E1 in Hro. cbn in Hro.
  apply withTx_Ret in E as (w2 & w3 & Hd2 & _ & Ef & Hd3 & _). cbn. rewrite Hd3.
  apply bind_Ret in Ef as ([] & w4 & Ew & Ex).
  apply writeCommits_ok in Ew; [|done|by rewrite Hd2, Hro]. specialize (He w4 Ew). by rewrite Ex in He.
Qed.

Lemma keeps_recordIdempotency tn k idem : keeps (recordIdempotency tn k idem).
Proof.
  intros w Hok. unfold recordIdempotency. destruct (idem_token idem); [done|].
  unfold mbind, M_bind, timeNow, call. cbn. by destruct (driver _).
Qed.

Lemma keeps_forM {A B} (f : B -> A -> M blob B) l :
  (forall b a, keeps (f b a)) -> forall b, keeps (forM f b l).
Proof. intros Hf. induction l as [|a l IH]; intros b; cbn; [by intros w Hok|]. by apply keeps_bind. Qed.

(** The three closures keep rows stored. *)
Lemma mutateWith_stored muts tbl now r w1 r' ch x w2 :
  stored_row r -> mutateWith (blob := blob) muts tbl now r w1 = (Ret (r', ch, x), w2) ->
  stored_row r' /\ key r' = key r.
Proof. intros Hr [_ E]%mutateWith_Ret. by apply applyMutations_stored in E. Qed.

Lemma checkAndMutate_stored target req now r w1 r' ch x w2 :
  stored_row r -> checkAndMutate (blob := blob) Compile MatchString target req now r w1 = (Ret (r', ch, x), w2) ->
  stored_row r' /\ key r' = key r.
Proof.
  intros Hr E. unfold checkAndMutate in E. apply bind_Ret in E as (m & w3 & _ & E).
  destruct (if m then _ else _) as [|m0 ms]; inv_M; [done|].
  match goal with H : applyMutations _ _ _ _ _ = _ |- _ => by apply applyMutations_stored in H end.
Qed.

Lemma rmwRule_stored fams st rule w st' w' :
  stored_row (rmw_r st) -> rmwRule (blob := blob) fams st rule w = (Ret st', w') ->
  stored_row (rmw_r st') /\ key (rmw_r st') = key (rmw_r st).
Proof.
  intros Hr E. unfold rmwRule in E. destruct (fams !! _) as [cf|]; [|done]. inv_M.
  split; [by apply set_cell_stored|apply key_set_col].
Qed.

Lemma rmwLoop_stored fams rules st w st' w' :
  stored_row (rmw_r st) -> forM (rmwRule (blob := blob) fams) st rules w = (Ret st', w') ->
  stored_row (rmw_r st') /\ key (rmw_r st') = key (rmw_r st).
Proof.
  revert st w. induction rules as [|rule rules IH]; intros st w Hst E; cbn [forM] in E.
  { by apply ret_Ret in E as [-> _]. }
  apply bind_Ret in E as (st1 & w1 & E1 & E). apply rmwRule_stored in E1 as [Hs1 Hk1]; [|done].
  apply IH in E as [? ?]; [|done]. split; [done|congruence].
Qed.

Lemma readModifyWrite_stored tbl k rules r w1 r' ch x w2 :
  stored_row r -> readModifyWrite (blob := blob) tbl k rules r w1 = (Ret (r', ch, x), w2) ->
  stored_row r' /\ key r' = key r.
Proof.
  intros Hr E. unfold readModifyWrite in E. inv_M.
  match goal with H : forM _ _ _ _ = _ |- _ => by apply rmwLoop_stored in H end.
Qed.

Lemma keeps_stage {X B : Type} (tbl : table) (staged : gmap bytes rowCommit) (k : bytes) (mutate : row -> M blob (row * list Mutation * X))
    (f : rowCommit * gmap bytes rowCommit * X -> M blob B) :
  (forall r, readonly (mutate r)) ->
  (forall r w1 r' ch x w2, stored_row r -> mutate r w1 = (Ret (r', ch, x), w2) ->
     stored_row r' /\ key r' = key r) ->
  staged_ok staged -> (forall (c : rowCommit) s x, commit_ok k c -> keeps (f (c, s, x))) -> keeps (stage tbl staged k mutate ≫= f).
Proof.
  intros Hro Hm Hs Hf. apply (keeps_bind_post (fun res => commit_ok k res.1.1)).
  - intros w Hok. pose proof (readonly_stage tbl staged k mutate Hro w) as Hdb.
    destruct (stage tbl staged k mutate w) as [[res| |] w'] eqn:E; cbn in Hdb; rewrite Hdb; auto.
    split; [|done]. by destruct (stage_ok _ _ _ _ _ _ _ Hro Hm Hok Hs E) as (? & _).
  - intros [[c s] x] Hc. by apply Hf.
Qed.

Lemma keeps_MutateRow req : keeps (MutateRow req).
Proof.
  unfold MutateRow. case_match; [by apply keeps_readonly|].
  repeat (apply keeps_bind; [apply keeps_readonly; solve [eauto using readonly_validateIdempotency,
    readonly_idempotencySeen with lbt]|]; intros ?).
  case_match; [by apply keeps_readonly|].
  repeat (apply keeps_bind; [apply keeps_readonly; solve [eauto using readonly_newTimestampNow with lbt]|]; intros ?).
  apply keeps_stage; [intros; apply readonly_mutateWith|intros; by eapply mutateWith_stored|
    apply map_Forall_empty|].
  intros c s x (Hc & _). apply keeps_bind; [|intros; apply keeps_afterCommit].
  apply keeps_persistWith; [by apply Forall_singleton|apply keeps_recordIdempotency].
Qed.

Lemma keeps_CheckAndMutateRow req : keeps (CheckAndMutateRow Compile MatchString req).
Proof.
  unfold CheckAndMutateRow.
  repeat (apply keeps_bind; [apply keeps_readonly; solve [eauto with lbt]|]; intros ?).
  case_match; [by apply keeps_readonly|].
  repeat (apply keeps_bind; [apply keeps_readonly; solve [eauto using readonly_newTimestampNow with lbt]|]; intros ?).
  apply keeps_stage; [intros; apply readonly_checkAndMutate|intros; by eapply checkAndMutate_stored|
    apply map_Forall_empty|].
  intros c s x (Hc & _). case_match; [by apply keeps_readonly|].
  apply keeps_bind; [|intros; apply keeps_bind; [apply keeps_afterCommit|intros; by apply keeps_readonly]].
  apply keeps_persistWith; [by apply Forall_singleton|by apply keeps_readonly].
Qed.

Lemma keeps_ReadModifyWriteRow req : keeps (ReadModifyWriteRow req).
Proof.
  unfold ReadModifyWriteRow.
  repeat (apply keeps_bind; [apply keeps_readonly; solve [eauto with lbt]|]; intros ?).
  repeat (case_match; [by apply keeps_readonly|]).
  repeat (apply keeps_bind; [apply keeps_readonly; solve [eauto with lbt]|]; intros ?).
  apply keeps_stage; [intros; apply readonly_readModifyWrite|intros; by eapply readModifyWrite_stored|
    apply map_Forall_empty|].
  intros c s x (Hc & _).
  apply keeps_bind; [|intros; apply keeps_bind; [apply keeps_afterCommit|intros; by apply keeps_readonly]].
  apply keeps_persistWith; [by apply Forall_singleton|by apply keeps_readonly].
Qed.

(** *** The batch loop *)

(** What the loop of MutateRows maintains. *)
Record batch_ok (st : batchState) : Prop := {
  bo_length : length (bs_entryCommit st) = length (bs_status st);
  bo_ok : forall i, bs_entryCommit st !! i = Some true -> bs_status st !! i = Some None;
  bo_order : true ∉ bs_entryCommit st -> bs_order st = [];
  bo_staged : staged_ok (bs_staged st) }.

Lemma setStatus_ok st c : batch_ok st -> batch_ok (setStatus st c).
Proof.
  intros [Hl Ho Hr Hs]. split; cbn; auto.
  - rewrite !length_app, Hl. done.
  - intros i. rewrite !lookup_app_Some. intros [Hi|[Hi Hx]]; [left; auto|].
    by destruct (i - length (bs_entryCommit st))%nat.
  - intros Hn. apply Hr. intros ?. apply Hn, elem_of_app. by left.
Qed.

Lemma readonly_batchEntry target now st entry : readonly (batchEntry target now st entry).
Proof.
  unfold batchEntry. apply readonly_bind.
  { apply readonly_catch. repeat (apply readonly_bind;
      [solve [eauto using readonly_validateIdempotency with lbt]|intros ?]). done. }
  intros [u|c]; [|done]. case_match; [done|]. apply readonly_bind.
  { apply readonly_catch, readonly_idempotencySeen. }
  intros seen. destruct seen as [[]|]; [done| |done].
  apply readonly_bind; [apply readonly_catch, readonly_stage; intros; apply readonly_mutateWith|].
  intros [[[? ?] ?]|]; done.
Qed.

Lemma catch_Ret {A} (m : M blob A) w res w' :
  catch m w = (Ret res, w') -> match res with inl a => m w = (Ret a, w') | inr c => m w = (Err c, w') end.
Proof. unfold catch. destruct (m w) as [[]]; intros [= <- <-]; done. Qed.

Lemma batchEntry_ok target now st entry w st' w' :
  db_ok (w_db w) -> batch_ok st -> batchEntry target now st entry w = (Ret st', w') ->
  batch_ok st' /\ length (bs_status st') = S (length (bs_status st)).
Proof.
  intros Hok Hst E. unfold batchEntry in E. apply bind_Ret in E as (valid & w1 & Ev & E).
  assert (w_db w1 = w_db w) as Hd1.
  { assert (readonly (catch (_ ← lift (validateRowKey (en_RowKey entry));
      _ ← validateIdempotency (en_Idempotency entry);
      _ ← lift (checkView target (en_RowKey entry) (en_Mutations entry));
      lift (validateMutations (en_Mutations entry) (t_families (dt_tbl target))
        (tableGranularity (t_granularity (dt_tbl target)))) : M blob unit))) as Hro.
    { apply readonly_catch. repeat (apply readonly_bind;
        [solve [eauto using readonly_validateIdempotency with lbt]|intros ?]). done. }
    specialize (Hro w). by rewrite Ev in Hro. }
  assert (forall c, batch_ok (setStatus st c) /\ length (bs_status (setStatus st c)) = S (length (bs_status st)))
    as Hset.
  { intros c. split; [by apply setStatus_ok|]. cbn. rewrite length_app. cbn. lia. }
  destruct valid as [u|c]; [|by apply ret_Ret in E as [<- _]].
  destruct (_ && _); [by apply ret_Ret in E as [<- _]|].
  apply bind_Ret in E as (seen & w2 & Es & E).
  assert (w_db w2 = w_db w) as Hd2.
  { pose proof (readonly_catch _ (readonly_idempotencySeen (table_name (dt_tbl target)) (en_RowKey entry)
      (en_Idempotency entry)) w1) as Hro. rewrite Es in Hro. cbn in Hro. congruence. }
  set (st1 := if bool_decide _ then st else _) in E.
  assert (batch_ok st1 /\ bs_status st1 = bs_status st) as [Hst1 Hs1].
  { clear E. subst st1. case_bool_decide; [done|]. split; [|done]. by destruct Hst. }
  assert (forall c, batch_ok (setStatus st1 c) /\ length (bs_status (setStatus st1 c)) = S (length (bs_status st)))
    as Hset1.
  { intros c. split; [by apply setStatus_ok|]. cbn. rewrite Hs1, length_app. cbn. lia. }
  destruct seen as [[]|c]; [by apply ret_Ret in E as [<- _]| |by apply ret_Ret in E as [<- _]].
  apply bind_Ret in E as (res & w3 & Er & E). apply catch_Ret in Er.
  destruct res as [[[cm staged] x]|c]; [|by apply ret_Ret in E as [<- _]].
  apply ret_Ret in E as [<- _]. apply stage_ok in Er as (Hc & Hstaged & Hsok);
    [|intros; apply readonly_mutateWith|intros; by eapply mutateWith_stored|by rewrite Hd2|apply Hst1].
  cbn [fst snd] in *. destruct Hst1 as [Hl Ho Hr Hss]. split; [|cbn; rewrite Hs1, length_app; cbn; lia].
  split; cbn; auto.
  - rewrite !length_app, Hl. done.
  - intros i. rewrite !lookup_app_Some. intros [Hi|[Hi Hx]]; [left; auto|].
    right. rewrite <- Hl. split; [done|]. by destruct (i - length (bs_entryCommit st1))%nat.
  - intros Hn. destruct Hn. apply elem_of_app. right. left.
Qed.

Lemma batchLoop_ok target now entries st w st' w' :
  db_ok (w_db w) -> batch_ok st -> forM (batchEntry target now) st entries w = (Ret st', w') ->
  batch_ok st' /\ length (bs_status st') = (length (bs_status st) + length entries)%nat /\ w_db w' = w_db w.
Proof.
  revert st w. induction entries as [|e es IH]; intros st w Hok Hst E; cbn [forM] in E.
  { apply ret_Ret in E as [-> ->]. cbn. split_and!; [done|lia|done]. }
  apply bind_Ret in E as (st1 & w1 & E1 & E).
  pose proof (readonly_batchEntry target now st e w) as Hro. rewrite E1 in Hro. cbn in Hro.
  apply batchEntry_ok in E1 as [Hst1 Hl1]; [|done..].
  apply IH in E as (Hst' & Hl & Hd); [|by rewrite Hro|done]. split_and!; [done| |congruence].
  rewrite Hl, Hl1. cbn. lia.
Qed.

Lemma empty_batch_ok : batch_ok (mkBatch ∅ [] [] [] ∅).
Proof. split; cbn; [done|by intros i; rewrite lookup_nil|done|apply map_Forall_empty]. Qed.

Lemma final_stored st :
  batch_ok st -> Forall (fun c => stored_row (rc_after c)) (omap (fun k => bs_staged st !! k) (bs_order st)).
Proof.
  intros [_ _ _ Hs]. apply list.Forall_forall. intros c (k & _ & Hk)%list_elem_of_omap.
  by apply Hs in Hk as (? & _).
Qed.

Lemma keeps_MutateRows req : keeps (MutateRows req).
Proof.
  unfold MutateRows. repeat (case_match; [by apply keeps_readonly|]).
  apply keeps_bind; [apply keeps_readonly; eauto with lbt|]. intros target.
  apply keeps_bind; [apply keeps_readonly, readonly_newTimestampNow|]. intros now.
  apply (keeps_bind_post batch_ok).
  - intros w Hok. pose proof (readonly_forM (batchEntry target now) (mrs_Entries req)
      (fun b a => readonly_batchEntry target now b a) (mkBatch ∅ [] [] [] ∅) w) as Hro.
    destruct (forM _ _ _ w) as [[st| |] w'] eqn:E; cbn in Hro; rewrite Hro; auto. split; [|done].
    by apply batchLoop_ok in E as (? & _); [|done|apply empty_batch_ok].
  - intros st Hst. apply keeps_bind.
    + apply keeps_catch, keeps_persistWith; [by apply final_stored|]. apply keeps_forM.
      intros ? [e []]; [apply keeps_recordIdempotency|by apply keeps_readonly].
    + intros [u|c]; [|by apply keeps_readonly].
      apply keeps_bind; [apply keeps_afterCommit|intros; by apply keeps_readonly].
Qed.

(** One status per entry; when every entry reports an error nothing was
    written; when the handler itself fails nothing was written. *)
Lemma MutateRows_result req w :
  db_ok (w_db w) ->
  match MutateRows req w with
  | (Ret sts, w') => length sts = length (mrs_Entries req) /\
      (Forall (fun s => s <> None) sts -> w_db w' = w_db w)
  | (_, w') => w_db w' = w_db w
  end.
Proof.
  intros Hok. unfold MutateRows. destruct (Nat.eqb _ 0); [done|].
  destruct (maxMutationsPerRequest <? _); [done|].
  rewrite bind_run.
  pose proof (readonly_resolveWriteTarget (mrs_TableName req) (mrs_AuthorizedViewName req)
    (mrs_AppProfileId req) false w) as Hd0.
  destruct (resolveWriteTarget _ _ _ _ w) as [[target| |] w0]; cbn in Hd0; [|exact Hd0..].
  rewrite bind_run.
  pose proof (readonly_newTimestampNow w0) as Hd1. destruct (newTimestampNow w0) as [[now| |] w1]; cbn in Hd1;
    [|cbn; congruence..].
  rewrite bind_run.
  pose proof (readonly_forM (batchEntry target now) (mrs_Entries req)
      (fun b a => readonly_batchEntry target now b a) (mkBatch ∅ [] [] [] ∅) w1) as Hd2.
  destruct (forM (batchEntry target now) _ _ w1) as [[st| |] w2] eqn:Eb; cbn in Hd2; [|cbn; congruence..].
  apply batchLoop_ok in Eb as (Hst & Hlen & _); [|by rewrite Hd1, Hd0|apply empty_batch_ok]. cbn in Hlen.
  rewrite bind_run.
  match goal with |- context [catch ?m w2] => set (P := m) end.
  assert (atomic P) as Hat by apply atomic_persistWith. specialize (Hat w2).
  unfold catch. destruct (P w2) as [[[]| |] w3] eqn:Ep; cbn.
  - rewrite bind_run.
    destruct (afterCommit_total (dt_tbl target) (omap (fun k => bs_staged st !! k) (bs_order st)) w3)
      as (w4 & -> & Hd4). cbn. split; [done|]. intros Hall.
    destruct Hst as [_ Ho Hr _]. subst P. rewrite Hr in Ep.
    { apply ret_Ret in Ep as [_ ->]. congruence. }
    intros [i Hi]%list_elem_of_lookup_1. apply Ho, list_elem_of_lookup_2 in Hi.
    rewrite list.Forall_forall in Hall. by apply Hall in Hi.
  - split; [|congruence]. destruct Hst as [Hl _ _ _]. rewrite length_zip_with. lia.
  - congruence.
Qed.
(** When a batch fails, or panics, nothing was written. *)
Lemma atomic_MutateRows req : atomic (MutateRows req).
Proof.
  intros w. unfold MutateRows. destruct (Nat.eqb _ 0); [done|]. destruct (maxMutationsPerRequest <? _); [done|]. rewrite bind_run.
  pose proof (readonly_resolveWriteTarget (mrs_TableName req) (mrs_AuthorizedViewName req) (mrs_AppProfileId req) false w) as Hd0.
  destruct (resolveWriteTarget _ _ _ _ w) as [[target| |] w0]; cbn in Hd0; [|exact Hd0..]. rewrite bind_run.
  pose proof (readonly_newTimestampNow w0) as Hd1. destruct (newTimestampNow w0) as [[now| |] w1]; cbn in Hd1; [|cbn; congruence..]. rewrite bind_run.
  pose proof (readonly_forM (batchEntry target now) (mrs_Entries req) (fun b a => readonly_batchEntry target now b a) (mkBatch ∅ [] [] [] ∅) w1) as Hd2.
  destruct (forM (batchEntry target now) _ _ w1) as [[st| |] w2]; cbn in Hd2; [|cbn; congruence..]. rewrite bind_run.
  match goal with |- context [catch ?m w2] => assert (atomic m) as Hat by apply atomic_persistWith; specialize (Hat w2); unfold catch; destruct (m w2) as [[[]| |] w3] end; cbn; [|done|congruence].
  rewrite bind_run. by destruct (afterCommit_total (dt_tbl target) (omap (fun k => bs_staged st !! k) (bs_order st)) w3) as (w4 & -> & _).
Qed.
End well_formed.

(** ** CheckAndMutateRow *)

Section check_and_mutate.
Context {blob : Type} `{!Gob blob} `{!Env}.
Context {regexp : Type} (Compile : bytes -> option regexp) (MatchString : regexp -> bytes -> bool).
Implicit Types (w : world blob) (d : database blob).

(** The row a request sees before it mutates it. *)
Definition visible_row (target : dataTarget) (r : row) : row :=
  match dt_view target with Some p => restrict p r | None => r end.

(** What the predicate of a request says of a row: without a filter, that
    some cell is visible; with one, that the filter leaves a cell of what
    garbage collection at some time leaves. *)
Definition predicate_holds (target : dataTarget) (req : CheckAndMutateRowRequest) (r : row) (b : bool) : Prop :=
  match cm_PredicateFilter req with
  | None => b = negb (isEmpty (visible_row target r))
  | Some f => exists now draws r' draws',
      filterRow Compile MatchString random (Some f)
        (gcWithChanges (copy (visible_row target r)) (gcRulesNoLock (dt_tbl target)) now).1 draws =
      Ret (r', b, draws')
  end.

Lemma checkAndMutate_Ret target req now r w r' ch matched w' :
  checkAndMutate Compile MatchString target req now r w = (Ret (r', ch, matched), w') ->
  let muts := if matched then cm_TrueMutations req else cm_FalseMutations req in
  let fams := t_families (dt_tbl target) in let g := tableGranularity (t_granularity (dt_tbl target)) in
  w_srv w' = w_srv w /\ predicate_holds target req r matched /\
  (muts = [] /\ r' = r /\ ch = [] \/
   validateMutations muts fams g = Ret tt /\ applyMutations r muts fams g now = Ret (r', ch)).
Proof.
  unfold checkAndMutate. intros E. apply bind_Ret in E as (m & w1 & Em & E).
  assert (predicate_holds target req r m /\ w_srv w1 = w_srv w) as [Hp Hs].
  { unfold predicate_holds, visible_row. destruct (cm_PredicateFilter req) as [f|].
    - apply bind_Ret in Em as ([candidate gch] & w2 & Eg & Em). apply gcNow_Ret in Eg as (_ & Hs2 & gn & Hg).
      apply bind_Ret in Em as ([rf ok] & w3 & Ef & [<- ->]%ret_Ret).
      unfold filterRowNow in Ef. destruct (filterRow _ _ _ _ _ _) as [[[r1 b1] dr]| |] eqn:Efr; simplify_eq/=.
      split; [|done]. exists gn. rewrite <- Hg. cbn. eauto.
    - by apply ret_Ret in Em as [<- ->]. }
  destruct (if m then _ else _) as [|m0 ms] eqn:Emuts.
  - apply ret_Ret in E as [[= <- <- <-] ->]. rewrite Emuts. split; [done|]. split; [done|]. by left.
  - apply bind_Ret in E as ([] & w2 & [Hv ->]%lift_Ret & E).
    apply bind_Ret in E as ([r1 ch1] & w3 & [Ha ->]%lift_Ret & [[= <- <- <-] ->]%ret_Ret).
    rewrite Emuts. split; [done|]. split; [done|]. by right.
Qed.

Lemma CheckAndMutateRow_Ret req w matched w' :
  db_ok (w_db w) -> CheckAndMutateRow Compile MatchString req w = (Ret matched, w') ->
  exists target w0, resolveWriteTarget (cm_TableName req) (cm_AuthorizedViewName req)
      (cm_AppProfileId req) true w = (Ret target, w0) /\
  let tbl := dt_tbl target in let k := cm_RowKey req in
  let d := w_db w in let d' := w_db w' in
  let g := tableGranularity (t_granularity tbl) in
  let r := default (newRow k) (row_at d (table_rows tbl) k) in
  let muts := if matched then cm_TrueMutations req else cm_FalseMutations req in
  predicate_holds target req r matched /\
  exists now r' changes,
    (muts = [] /\ r' = r /\ changes = [] \/
     validateMutations muts (t_families tbl) g = Ret tt /\
     applyMutations r muts (t_families tbl) g now = Ret (r', changes)) /\
    (changes = [] /\ d' = d \/
     changes <> [] /\ exists gcNow, row_updated d d' (table_rows tbl) k (stored_form (settle tbl gcNow r').1)).
Proof.
  intros Hok E. unfold CheckAndMutateRow in E. apply bind_Ret in E as (target & w0 & Et & E).
  exists target, w0. split; [done|]. cbn zeta.
  pose proof (readonly_resolveWriteTarget (cm_TableName req) (cm_AuthorizedViewName req)
    (cm_AppProfileId req) true w) as Hro. rewrite Et in Hro. cbn in Hro.
  apply bind_Ret in E as ([] & w1 & [_ ->]%lift_Ret & E). destruct (_ && _); [by apply fail_Ret in E|].
  apply bind_Ret in E as ([] & w1 & [_ ->]%lift_Ret & E).
  apply bind_Ret in E as ([] & w1 & [_ ->]%lift_Ret & E).
  apply bind_Ret in E as (now & w1 & En & E). unfold newTimestampNow in En.
  apply bind_Ret in En as (t & w2 & Et2 & [<- ->]%ret_Ret). unfold timeNow in Et2. simplify_eq/=.
  apply bind_Ret in E as ([[c staged] m] & w3 & Es & E).
  apply stage_Ret in Es as (r' & ch & wa & wb & gn & Hwa & Hws & _ & Hmut & ->);
    [|intros; apply readonly_checkAndMutate|].
  2:{ intros r0 w4 [[r1 c1] b1] w5 Hx. by apply checkAndMutate_Ret in Hx as (? & _). }
  cbn [w_db rc_userChanges] in *. rewrite Hro in *.
  set (before := row_at (w_db w) (table_rows (dt_tbl target)) (cm_RowKey req)) in *.
  assert (match before with Some r => copy r | None => newRow (cm_RowKey req) end =
    default (newRow (cm_RowKey req)) before /\ stored_row (default (newRow (cm_RowKey req)) before) /\
    key (default (newRow (cm_RowKey req)) before) = cm_RowKey req) as (Hbase & Hbst & Hbk).
  { destruct before as [r|] eqn:Eb; [|split_and!; [done|apply newRow_stored|done]]. cbn. unfold before in Eb.
    apply db_ok_row in Eb as (Hst & Hk & _); [|done]. split_and!; [|done|done].
    apply copy_id. by eapply row_ok_names. }
  rewrite Hbase in Hmut. pose proof Hmut as Hst'. apply checkAndMutate_stored in Hst' as [Hst' Hk']; [|done].
  apply checkAndMutate_Ret in Hmut as (_ & Hpred & Hbranch).
  destruct (Nat.eqb (length ch) 0) eqn:Elen.
  - apply ret_Ret in E as [-> ->]. split; [done|]. eexists _, r', ch. split; [exact Hbranch|]. left.
    apply Nat.eqb_eq, nil_length_inv in Elen. done.
  - apply bind_Ret in E as ([] & w4 & Ep & E). apply bind_Ret in E as ([] & w5 & Ea & [<- ->]%ret_Ret).
    apply afterCommit_Ret in Ea. apply persistWith_one in Ep as (micros & v1 & v2 & v3 & Hv1 & _ & Hwc & Hre & Hd3 & _).
    apply ret_Ret in Hre as [_ ->]. split; [done|]. eexists _, r', ch. split; [exact Hbranch|]. right.
    split; [by intros ->|]. exists gn. apply writeCommit_Ret in Hwc. destruct Hwc as (Hup & _).
    cbn [rc_after] in Hup. destruct (settle_stored (dt_tbl target) gn r' Hst') as [_ Hsk].
    rewrite Hsk, Hk', Hbk, Hv1, Hws in Hup. by rewrite Ea, Hd3.
Qed.
End check_and_mutate.

(** ** ReadModifyWriteRow *)

Lemma head_appendOrReplaceCell cs c :
  desc_lt cs -> (forall x, x ∈ cs -> Ts x <= Ts c) -> head (appendOrReplaceCell cs c) = Some c.
Proof.
  intros Hs Hmax. pose proof (appendOrReplaceCell_desc_lt cs c Hs) as Hd.
  assert (find_ts (appendOrReplaceCell cs c) (Ts c) = Some c) as Hf
    by (rewrite find_ts_appendOrReplaceCell; by rewrite Z.eqb_refl).
  destruct (appendOrReplaceCell cs c) as [|h l] eqn:E; [done|]. cbn. f_equal.
  assert (h = c \/ h ∈ cs) as [->|Hh]; [apply elem_of_appendOrReplaceCell; rewrite E; left|done|].
  apply find_ts_Some in Hf as [Hin _]. apply elem_of_cons in Hin as [->|Hin]; [done|].
  apply StronglySorted_inv in Hd as [_ Hall]. rewrite list.Forall_forall in Hall.
  specialize (Hall c Hin). specialize (Hmax h Hh). cbn in *. lia.
Qed.

Lemma desc_lt_head_max cs c x : desc_lt cs -> head cs = Some c -> x ∈ cs -> Ts x <= Ts c.
Proof.
  intros Hs Hc Hx. destruct cs as [|c' cs]; [done|]. cbn in Hc. simplify_eq.
  apply elem_of_cons in Hx as [->|Hx]; [done|]. apply StronglySorted_inv in Hs as [_ Hall].
  rewrite list.Forall_forall in Hall. specialize (Hall x Hx). cbn in Hall. lia.
Qed.

(** The integer an increment starts from: the newest visible value, if it is
    a 64-bit integer, and 0 when there is none. *)
Definition counter_value (cs : list cell) : option Z :=
  match cs with
  | [] => Some 0
  | c :: _ => if Nat.eqb (length (Value c)) 8 then Some (be64_int64 (Value c)) else None
  end.

Definition increments (fam col : bytes) (ns : list Z) : list ReadModifyWriteRule :=
  (fun n => mkRMW fam col (Rule_IncrementAmount n)) <$> ns.

Definition sumZ (ns : list Z) : Z := foldr Z.add 0 ns.

Lemma wrap64_add_l a b : wrap64 (wrap64 a + b) = wrap64 (a + b).
Proof.
  unfold wrap64. f_equal.
  replace ((a + two63) mod two64 - two63 + b + two63) with ((a + two63) mod two64 + b) by lia.
  rewrite Zplus_mod_idemp_l. f_equal. lia.
Qed.

Section increments.
Context {blob : Type} `{!Gob blob} `{!Env}.

(** After a rule the written cell is the newest visible one, the response
    shows it, and the row to be stored has it. *)
Lemma rmwRule_total fams fam col cf rule value st (w : world blob) :
  fams !! fam = Some cf -> stored_row (rmw_visible st) ->
  rmwValue rule (head (cells_at (rmw_visible st) fam col)) = Ret value ->
  exists st' w' ts, rmwRule fams st (mkRMW fam col rule) w = (Ret st', w') /\
    stored_row (rmw_visible st') /\
    let c := mkCell ts value [] in
    head (cells_at (rmw_visible st') fam col) = Some c /\
    cells_at (rmw_result st') fam col = [c] /\
    find_ts (cells_at (rmw_r st') fam col) ts = Some c /\
    rmw_changes st' = rmw_changes st ++ [setCellChange fam col ts value].
Proof.
  intros Hcf Hv Hval. unfold rmwRule. cbn [rmw_FamilyName rmw_ColumnQualifier rmw_Rule]. rewrite Hcf.
  set (prev := head (cells_at (rmw_visible st) fam col)) in *.
  rewrite bind_run. unfold newTimestampNow. rewrite bind_run. unfold timeNow. cbn.
  set (now := newTimestamp _).
  set (ts := match prev with Some c => Z.max now (Ts c) | None => now end).
  rewrite bind_run. unfold lift. rewrite Hval. unfold mret, M_ret.
  eexists _, _, ts. split; [done|]. cbn [rmw_visible rmw_result rmw_r rmw_changes].
  split; [by apply set_cell_stored|]. rewrite !cells_at_set_col, !decide_True by done.
  split_and!; [|done| |done].
  - apply head_appendOrReplaceCell; [by apply stored_cells|]. intros x Hx. cbn. subst ts.
    destruct prev as [c|] eqn:Ep.
    + pose proof (desc_lt_head_max _ _ _ (stored_cells _ fam col Hv) Ep Hx). lia.
    + unfold prev in Ep. destruct (cells_at (rmw_visible st) fam col); [|done]. by apply not_elem_of_nil in Hx.
  - rewrite find_ts_appendOrReplaceCell. cbn. by rewrite Z.eqb_refl.
Qed.

Lemma increments_total fams fam col cf ns n st (w : world blob) v :
  fams !! fam = Some cf -> stored_row (rmw_visible st) ->
  counter_value (cells_at (rmw_visible st) fam col) = Some v ->
  exists st' w' c, forM (rmwRule fams) st (increments fam col (n :: ns)) w = (Ret st', w') /\
    cells_at (rmw_result st') fam col = [c] /\ find_ts (cells_at (rmw_r st') fam col) (Ts c) = Some c /\
    Value c = encodeInt64 (wrap64 (v + sumZ (n :: ns))).
Proof.
  intros Hcf. revert n st w v. induction ns as [|n' ns IH]; intros n st w v Hv Hc;
    destruct (rmwRule_total fams fam col cf (Rule_IncrementAmount n) (encodeInt64 (wrap64 (v + n))) st w Hcf Hv)
      as (st1 & w1 & ts & E & Hv1 & Hhead & Hres & Hfind & _).
  1,3: unfold counter_value in Hc; destruct (cells_at (rmw_visible st) fam col) as [|c cs]; cbn; [by simplify_eq|];
    destruct (Nat.eqb (length (Value c)) 8); [|done]; by simplify_eq.
  - exists st1, w1, (mkCell ts (encodeInt64 (wrap64 (v + n))) []). cbn [increments fmap list_fmap forM].
    rewrite bind_run, E. cbn. split_and!; auto. by rewrite Z.add_0_r.
  - destruct (IH n' st1 w1 (wrap64 (v + n)) Hv1) as (st2 & w2 & c & E2 & Hres2 & Hf2 & Hval).
    { unfold counter_value. destruct (cells_at (rmw_visible st1) fam col) as [|c cs]; [done|].
      cbn [head] in Hhead. simplify_eq. cbn [Value]. unfold encodeInt64.
      rewrite length_be64. cbn [Nat.eqb]. f_equal.
      rewrite be64_roundtrip. apply wrap64_id, wrap64_range. }
    exists st2, w2, c. cbn [increments fmap list_fmap forM]. rewrite bind_run, E. split_and!; auto.
    rewrite Hval, wrap64_add_l. f_equal. f_equal. cbn. lia.
Qed.
End increments.

(** ** The response of ReadModifyWriteRow *)

Lemma rmwResponse_total P r : row_ok P r -> exists res, rmwResponse r = Ret res.
Proof.
  intros Hr. unfold rmwResponse. rewrite (collectM_ret _ (fun f => (Name f,
    (fun col => (col, default (mkCell 0 [] []) (head (default [] (Cells f !! col))))) <$> ColNames f))).
  { eauto. }
  intros f Hf. apply elem_of_sortedFamilies in Hf; [|by eapply row_ok_names].
  apply Hr in Hf as (_ & Hcols & _ & Hc).
  rewrite (collectM_ret _ (fun col => (col, default (mkCell 0 [] []) (head (default [] (Cells f !! col))))));
    [done|].
  intros col Hcol. rewrite Hcols in Hcol. apply elem_of_sort_strings, elem_of_map_keys in Hcol as [cs Hcs].
  rewrite Hcs. cbn. apply Hc in Hcs as [Hne _]. by destruct cs.
Qed.

Section rmw_atomic.
Context {blob : Type} `{!Gob blob} `{!Env}.

Abbreviation any_row := (row_ok (fun _ => True)).

Lemma rmwLoop_result fams rules st (w : world blob) st' w' :
  any_row (rmw_result st) -> forM (rmwRule fams) st rules w = (Ret st', w') -> any_row (rmw_result st').
Proof.
  revert st w. induction rules as [|rule rules IH]; intros st w Hst E; cbn [forM] in E.
  { by apply ret_Ret in E as [-> _]. }
  apply bind_Ret in E as (st1 & w1 & E1 & E). eapply IH; [|exact E]. unfold rmwRule in E1.
  destruct (fams !! _) as [cf|]; [|done]. inv_M. by apply set_col_ok.
Qed.

Lemma readModifyWrite_result tbl k rules r (w : world blob) r' ch x w' :
  readModifyWrite tbl k rules r w = (Ret (r', ch, x), w') -> any_row x.
Proof.
  intros E. unfold readModifyWrite in E. inv_M.
  match goal with H : forM _ _ _ _ = _ |- _ => apply rmwLoop_result in H end; [done|].
  intros n f. cbn. by rewrite lookup_empty.
Qed.

Lemma stage_result {X : Type} (Q : X -> Prop) tbl staged k (mutate : row -> M blob (row * list Mutation * X))
    w res w' :
  (forall r w1 r' ch x w2, mutate r w1 = (Ret (r', ch, x), w2) -> Q x) ->
  stage tbl staged k mutate w = (Ret res, w') -> Q res.2.
Proof.
  intros HQ E. unfold stage in E. apply bind_Ret in E as ([base before] & w1 & _ & E).
  apply bind_Ret in E as ([[r' ch] x] & w2 & Em & E). apply HQ in Em. inv_M. done.
Qed.

Lemma atomic_bind_post {A B} (Q : A -> Prop) (m : M blob A) (f : A -> M blob B) :
  readonly m -> (forall w a w', m w = (Ret a, w') -> Q a) -> (forall a, Q a -> atomic (f a)) -> atomic (m ≫= f).
Proof.
  intros Hm HQ Hf w. specialize (Hm w). rewrite bind_run. destruct (m w) as [[a| |] w'] eqn:E; cbn in *; auto.
  rewrite <- Hm. apply Hf. by eapply HQ.
Qed.

Lemma atomic_ReadModifyWriteRow req : atomic (ReadModifyWriteRow req).
Proof.
  unfold ReadModifyWriteRow.
  repeat (apply atomic_bind; [solve [eauto with lbt]|]; intros ?).
  repeat (case_match; [apply atomic_fail|]).
  repeat (apply atomic_bind; [solve [eauto with lbt]|]; intros ?).
  apply (atomic_bind_post (fun res => any_row res.2)).
  - apply readonly_stage. intros. apply readonly_readModifyWrite.
  - intros w res w' E. eapply (stage_result any_row); [|exact E].
    intros ? ? ? ? ? ?. apply readModifyWrite_result.
  - intros [[c s] x] Hx. apply atomic_then; [apply atomic_persistWith|]. intros ? w. rewrite bind_run.
    destruct (afterCommit_total (dt_tbl a) [c] w) as (w' & -> & _). cbn in Hx |- *.
    destruct (rmwResponse_total _ x Hx) as [res Hres]. exists res. cbn. done.
Qed.
End rmw_atomic.

(** ** Properties *)

(** A server with one table that holds the sample row, a driver that never
    fails and one that fails to commit, for concrete instances. *)
Module SampleWorld.
Definition parent : bytes := str "projects/p/instances/i".
Definition tbl : table :=
  mkTable parent [116] [116] 2 SampleTable.fams None false
    (Some (mkChangeStreamConfig (Some 86400000000000))) None None MILLIS None [] 0 None.
Definition server0 : server := mkServer ∅ ∅ ∅ {[ table_name tbl := tbl ]} ∅ ∅ 0.
Definition db0 : database (gmap bytes family) :=
  mkDatabase {[ (parent, [116], [107]) := families Sample.row1 ]} ∅ [] 0 ∅ ∅ ∅ ∅ ∅ no_metadata.
Definition world0 : world (gmap bytes family) := mkWorld db0 server0 0 0 0.
Definition seconds (n : nat) : Z := (Z.of_nat n + 1) * 1000000000.
Definition working : Env := mkEnv (fun _ => None) seconds (fun _ => F_Fin 1 2).
(** The fifth driver call, the commit of a two-entry batch, fails. *)
Definition failing : Env := mkEnv (fun n => if (n =? 5)%nat then Some F_Other else None) seconds (fun _ => F_Fin 1 2).
Definition req : MutateRowRequest :=
  mkMutateRow (table_name tbl) [] [] [107] SampleTable.muts (Some (mkIdempotency (str "token-01") None)).
Definition entry : MutateRowsEntry :=
  mkEntry [107] SampleTable.muts (Some (mkIdempotency (str "token-01") None)).
Definition batch : MutateRowsRequest := mkMutateRows (table_name tbl) [] [] [entry; entry].
Definition check : CheckAndMutateRowRequest :=
  mkCheckAndMutate (table_name tbl) [] [] [107] (Some (Filter_PassAll true)) SampleTable.muts [].

Lemma db0_ok : db_ok db0.
Proof.
  intros t k b Hb. unfold stored_at, db0 in Hb. cbn [rows_t] in Hb.
  apply lookup_singleton_Some in Hb as [Hk <-]. destruct t as [p i]. cbn in Hk. injection Hk as <- <- <-.
  exists Sample.row1. split; [by vm_compute|]. split; [apply Sample.row1_stored|by vm_compute].
Qed.
End SampleWorld.

(** C1: Every data-write handler is atomic: whatever statement of the driver fails, and
    whatever the request, when MutateRow, MutateRows, CheckAndMutateRow or
    ReadModifyWriteRow returns an error or panics, the database is exactly as before. *)
Theorem write_handlers_atomic {blob : Type} `{!Gob blob} `{!Env} {regexp : Type}
    (Compile : bytes -> option regexp) (MatchString : regexp -> bytes -> bool) :
  (forall req, atomic (MutateRow req)) /\
  (forall req, atomic (MutateRows req)) /\
  (forall req, atomic (CheckAndMutateRow Compile MatchString req)) /\
  (forall req, atomic (ReadModifyWriteRow req)).
Proof.
  split; [apply atomic_MutateRow|]. split; [apply atomic_MutateRows|]. split; [apply atomic_CheckAndMutateRow|apply atomic_ReadModifyWriteRow].
Qed.

(** C34: A MutateRows batch answers one status per entry, writes nothing when the
    handler fails, and writes nothing when every entry reports an error. *)
Theorem MutateRows_statuses {blob : Type} `{!Gob blob} `{!Env} req (w : world blob) :
  db_ok (w_db w) ->
  match MutateRows req w with
  | (Ret sts, w') => length sts = length (mrs_Entries req) /\
      (Forall (fun s => s <> None) sts -> w_db w' = w_db w)
  | (_, w') => w_db w' = w_db w
  end.
Proof. apply MutateRows_result. Qed.

Lemma MutateRows_statuses_witness :
  match MutateRows (H := SampleWorld.failing) SampleWorld.batch SampleWorld.world0 with
  | (Ret sts, w') => length sts = length (mrs_Entries SampleWorld.batch) /\
      (Forall (fun s => s <> None) sts -> w_db w' = w_db SampleWorld.world0)
  | (_, w') => w_db w' = w_db SampleWorld.world0
  end.
Proof. apply MutateRows_statuses. apply SampleWorld.db0_ok. Defined.

(** C14: All four data-write handlers keep the database well formed, on success
    and on failure: every stored row is non-empty, its columns are ordered
    newest first with distinct timestamps, and its column lists match. *)
Theorem write_handlers_keep_rows {blob : Type} `{!Gob blob} `{!Env} {regexp : Type}
    (Compile : bytes -> option regexp) (MatchString : regexp -> bytes -> bool) :
  (forall req, keeps (MutateRow req)) /\ (forall req, keeps (MutateRows req)) /\
  (forall req, keeps (CheckAndMutateRow Compile MatchString req)) /\
  (forall req, keeps (ReadModifyWriteRow req)).
Proof.
  split; [apply keeps_MutateRow|]. split; [apply keeps_MutateRows|].
  split; [apply keeps_CheckAndMutateRow|apply keeps_ReadModifyWriteRow].
Qed.

(** C6: An accepted MutateRow either was seen before (its idempotency token is
    recorded and the database is unchanged) or replaces exactly its row by the
    result of the mutations on the stored row, without the cells of unknown
    families and after garbage collection (an empty result removes the row),
    appends exactly the change records of that commit when the table has a
    change stream, records the token for 15 minutes, and changes no other
    row. *)
Theorem MutateRow_effect {blob : Type} `{!Gob blob} `{!Env} req (w w' : world blob) :
  db_ok (w_db w) -> MutateRow req w = (Ret tt, w') ->
  exists target w0, resolveWriteTarget (mr_TableName req) (mr_AuthorizedViewName req)
      (mr_AppProfileId req) false w = (Ret target, w0) /\
  let tbl := dt_tbl target in let k := mr_RowKey req in
  let g := tableGranularity (t_granularity tbl) in
  let d := w_db w in let d' := w_db w' in
  validateRowKey k = Ret tt /\ checkView target k (mr_Mutations req) = Ret tt /\
  ((d' = d /\ exists expire, idempotency_t d !! (table_name tbl, k, idem_token (mr_Idempotency req)) = Some expire) \/
   (validateMutations (mr_Mutations req) (t_families tbl) g = Ret tt /\
    exists now gcNow micros tick r' changes,
      applyMutations (default (newRow k) (row_at d (table_rows tbl) k)) (mr_Mutations req)
        (t_families tbl) g now = Ret (r', changes) /\
      row_updated d d' (table_rows tbl) k (stored_form (settle tbl gcNow r').1) /\
      change_stream_t d' = change_stream_t d ++
        commit_records tbl micros (mkCommit k (row_at d (table_rows tbl) k) (settle tbl gcNow r').1
          changes (settle tbl gcNow r').2) (change_stream_seq d) /\
      idempotency_t d' = (if bool_decide (idem_token (mr_Idempotency req) = []) then idempotency_t d
        else <[(table_name tbl, k, idem_token (mr_Idempotency req)) := (clock tick + idempotencyWindow) / 1000]>
               (idempotency_t d)) /\
      db_ok d')).
Proof. apply MutateRow_Ret. Qed.

Lemma MutateRow_effect_witness :
  let w := SampleWorld.world0 in
  let w' := (MutateRow (H := SampleWorld.working) SampleWorld.req w).2 in
  exists target w0, resolveWriteTarget (H := SampleWorld.working) (mr_TableName SampleWorld.req) [] [] false w =
      (Ret target, w0) /\ validateRowKey [107] = Ret tt /\ length (change_stream_t (w_db w')) = 1%nat.
Proof.
  cbn zeta. destruct (MutateRow_effect (H := SampleWorld.working) SampleWorld.req SampleWorld.world0
    (MutateRow (H := SampleWorld.working) SampleWorld.req SampleWorld.world0).2 SampleWorld.db0_ok)
    as (target & w0 & Ht & Hk & _ & _); [apply run_Ret; vm_compute; reflexivity|].
  exists target, w0. split; [exact Ht|]. split; [exact Hk|]. vm_compute. reflexivity.
Defined.

(** A MutateRow whose idempotency token is recorded for its row and not yet
    expired at any clock reading leaves the database unchanged, whatever its
    outcome: a retry inside the window is not applied twice. *)
Theorem MutateRow_deduplicates {blob : Type} `{!Gob blob} `{!Env} req (w : world blob) target w0 expire :
  resolveWriteTarget (mr_TableName req) (mr_AuthorizedViewName req) (mr_AppProfileId req) false w =
    (Ret target, w0) ->
  idem_token (mr_Idempotency req) <> [] ->
  idempotency_t (w_db w) !! (table_name (dt_tbl target), mr_RowKey req, idem_token (mr_Idempotency req)) =
    Some expire ->
  (forall n, clock n / 1000 < expire) ->
  w_db (MutateRow req w).2 = w_db w.
Proof.
  intros Ht Htok He Hcl. unfold MutateRow. destruct (Nat.eqb _ _); [done|].
  pose proof (readonly_resolveWriteTarget (mr_TableName req) (mr_AuthorizedViewName req)
    (mr_AppProfileId req) false w) as Hd0. rewrite bind_run, Ht in *. cbn in Hd0.
  rewrite bind_run. unfold lift at 1. destruct (validateRowKey _); [|done..].
  rewrite bind_run. pose proof (readonly_validateIdempotency (mr_Idempotency req) w0) as Hd1.
  destruct (validateIdempotency _ w0) as [[| |] w1]; cbn in Hd1; [|cbn; congruence..].
  rewrite bind_run. unfold lift at 1. destruct (checkView _ _ _); [|cbn; congruence..].
  rewrite bind_run. pose proof (readonly_idempotencySeen (table_name (dt_tbl target)) (mr_RowKey req)
    (mr_Idempotency req) w1) as Hd2.
  destruct (idempotencySeen _ _ _ w1) as [[seen| |] w2] eqn:Es; cbn in Hd2; [|cbn; congruence..].
  apply idempotencySeen_Ret in Es. rewrite Hd1, Hd0, He, bool_decide_eq_false_2 in Es by done.
  rewrite (proj2 (Z.ltb_lt _ _) (Hcl _)) in Es. cbn in Es. subst seen. cbn. congruence.
Qed.

Lemma MutateRow_deduplicates_witness :
  let name := table_name SampleWorld.tbl in
  let w := mkWorld (set_idempotency_t SampleWorld.db0
    {[ (name, [107], str "token-01") := 900000000 ]}) SampleWorld.server0 0 0 0 in
  let late := mkEnv (fun _ => None) (fun _ => 600000000000) (fun _ => F_Fin 1 2) in
  w_db (MutateRow (H := late) SampleWorld.req w).2 = w_db w.
Proof.
  cbn zeta. set (late := mkEnv _ _ _). set (w := mkWorld _ _ _ _ _).
  apply (MutateRow_deduplicates (H := late) SampleWorld.req w
    (mkDataTarget SampleWorld.tbl None None None (table_name SampleWorld.tbl)) w 900000000);
    [reflexivity|done|reflexivity|]. intros n. reflexivity.
Defined.

(** CheckAndMutateRow applies exactly the branch its predicate selects to
    the stored row: the predicate is evaluated on what the caller may see, the
    other branch is not even validated, an empty selected branch changes
    nothing, and only the request's row can change. *)
Theorem CheckAndMutateRow_effect {blob : Type} `{!Gob blob} `{!Env} {regexp : Type}
    (Compile : bytes -> option regexp) (MatchString : regexp -> bytes -> bool) req (w : world blob) matched w' :
  db_ok (w_db w) -> CheckAndMutateRow Compile MatchString req w = (Ret matched, w') ->
  exists target w0, resolveWriteTarget (cm_TableName req) (cm_AuthorizedViewName req)
      (cm_AppProfileId req) true w = (Ret target, w0) /\
  let tbl := dt_tbl target in let k := cm_RowKey req in
  let d := w_db w in let d' := w_db w' in
  let g := tableGranularity (t_granularity tbl) in
  let r := default (newRow k) (row_at d (table_rows tbl) k) in
  let muts := if matched then cm_TrueMutations req else cm_FalseMutations req in
  predicate_holds Compile MatchString target req r matched /\
  exists now r' changes,
    (muts = [] /\ r' = r /\ changes = [] \/
     validateMutations muts (t_families tbl) g = Ret tt /\
     applyMutations r muts (t_families tbl) g now = Ret (r', changes)) /\
    (changes = [] /\ d' = d \/
     changes <> [] /\ exists gcNow, row_updated d d' (table_rows tbl) k (stored_form (settle tbl gcNow r').1)).
Proof. apply CheckAndMutateRow_Ret. Qed.

Lemma CheckAndMutateRow_effect_witness :
  exists target w0,
    resolveWriteTarget (H := SampleWorld.working) (cm_TableName SampleWorld.check) [] [] true SampleWorld.world0 =
      (Ret target, w0) /\
    predicate_holds (H := SampleWorld.working) Literal.Compile Literal.MatchString target SampleWorld.check
      (default (newRow [107]) (row_at (w_db SampleWorld.world0) (table_rows (dt_tbl target)) [107])) true.
Proof.
  destruct (CheckAndMutateRow_effect (H := SampleWorld.working) Literal.Compile Literal.MatchString
    SampleWorld.check SampleWorld.world0 true
    (CheckAndMutateRow (H := SampleWorld.working) Literal.Compile Literal.MatchString
       SampleWorld.check SampleWorld.world0).2 SampleWorld.db0_ok)
    as (target & w0 & Ht & Hp & _); [apply run_Ret; vm_compute; reflexivity|].
  exists target, w0. split; [exact Ht|exact Hp].
Defined.

(** The function that ReadModifyWriteRow stages, for increments of one column of a stored
    row whose newest visible value is a 64-bit integer, or absent: it returns a row and a
    response whose one cell of the column is the integer plus all amounts, each rule
    seeing the one before, wrapped to 64 bits.  The handler around it can still fail, and
    collects garbage before it stores the row. *)
Lemma increments_accumulate {blob : Type} `{!Gob blob} `{!Env} tbl k fam col cf n ns r (w : world blob) v :
  t_families tbl !! fam = Some cf -> stored_row r ->
  counter_value (cells_at (gcWithChanges r (gcRulesNoLock tbl) (clock (w_ticks w) / 1000)).1 fam col) = Some v ->
  exists r' changes result w' c,
    readModifyWrite tbl k (increments fam col (n :: ns)) r w = (Ret (r', changes, result), w') /\
    cells_at result fam col = [c] /\ find_ts (cells_at r' fam col) (Ts c) = Some c /\
    Value c = encodeInt64 (wrap64 (v + sumZ (n :: ns))).
Proof.
  intros Hcf Hr Hv. unfold readModifyWrite. rewrite copy_id by (by eapply row_ok_names).
  set (vis := (gcWithChanges r (gcRulesNoLock tbl) (clock (w_ticks w) / 1000)).1) in *.
  assert (exists ch w1, gcNow (gcRulesNoLock tbl) r w = (Ret (vis, ch), w1)) as (ch & w1 & Eg).
  { subst vis. unfold gcNow. case_decide as Hd.
    - exists [], w. unfold mret, M_ret. rewrite Hd. unfold gcWithChanges. by rewrite decide_True.
    - unfold nowMicro. rewrite bind_run, bind_run. unfold timeNow. cbn. unfold mret, M_ret.
      destruct (gcWithChanges _ _ _) as [v0 c0]. by eexists _, _. }
  rewrite bind_run, Eg.
  destruct (increments_total (t_families tbl) fam col cf ns n (mkRmw r vis (newRow k) []) w1 v Hcf) as
    (st & w2 & c & E & Hres & Hf & Hval); [by apply gcWithChanges_stored|done|].
  rewrite bind_run, E. eexists _, _, _, _, c. split; [done|]. auto.
Qed.

(** When the transaction of a MutateRows batch fails, an entry that repeats
    the row key and idempotency token of an earlier entry of the batch is
    still reported as applied, although nothing was written. *)
Theorem batch_duplicate_reported_ok :
  let run := MutateRows (H := SampleWorld.failing) SampleWorld.batch SampleWorld.world0 in
  run.1 = Ret [Some Internal; None] /\ w_db run.2 = w_db SampleWorld.world0.
Proof.
  split; [vm_compute; reflexivity|]. vm_cast_no_check (eq_refl (w_db SampleWorld.world0)).
Qed.
