(* ===== verification/Chunks.v ===== *)
(** * Cell chunks

    The [rowWriter] of [data_read.go], which turns rows into the cell chunks of
    ReadRows responses, and the reader of the protocol a client runs on them.
    The two size limits are package variables and so arguments here. *)

From S2P Require Import Prelude Proto Rows Filters.
From stdpp Require Import base list gmap sorting.
From Stdlib Require Import ZArith Lia.

#[local] Open Scope Z_scope.

(** [ReadRowsResponse.CellChunk].  A row key, family or qualifier that is not
    set repeats the one before; a value size announces further pieces. *)
Record CellChunk : Type := mkChunk {
  ch_RowKey : bytes;
  ch_FamilyName : option bytes;
  ch_Qualifier : option bytes;
  ch_TimestampMicros : Z;
  ch_Labels : list bytes;
  ch_Value : bytes;
  ch_ValueSize : Z;
  ch_CommitRow : bool }.

(** The writer: the response being built, its size, and the responses sent. *)
Record rowWriter : Type := mkWriter {
  rw_resp : list CellChunk;
  rw_bytes : Z;
  rw_sent : list (list CellChunk) }.

Definition newRowWriter : rowWriter := mkWriter [] 0 [].

(** The variables of [writeRow]'s loops. *)
Record chunkState : Type := mkChunkState {
  cs_first : bool; cs_newFamily : bool; cs_newQualifier : bool;
  cs_chunks : list CellChunk; cs_bytes : Z }.

Section writer.
Context (readChunkValueBytes readResponseBytes : nat).

Definition flush (w : rowWriter) : rowWriter :=
  match rw_resp w with [] => w | chunks => mkWriter [] 0 (rw_sent w ++ [chunks]) end.

(** The loop over the pieces of a value; each pass consumes at least one byte
    when the limit is positive, so the value's length bounds the passes. *)
Fixpoint writeValue (fuel : nat) (k fam col : bytes) (c : cell) (firstPiece : bool) (value : bytes)
    (st : chunkState) : chunkState :=
  match fuel with
  | O => st
  | S fuel =>
      let piece := if (readChunkValueBytes <? length value)%nat then take readChunkValueBytes value else value in
      let chunk := mkChunk
        (if firstPiece && cs_first st then k else [])
        (if firstPiece && cs_newFamily st then Some fam else None)
        (if firstPiece && (cs_newFamily st || cs_newQualifier st) then Some col else None)
        (if firstPiece then Ts c else 0)
        (if firstPiece then Labels c else [])
        piece
        (if (length piece <? length value)%nat then wrap32 (Z.of_nat (length (Value c))) else 0)
        false in
      let st := mkChunkState false false false (cs_chunks st ++ [chunk])
                  (cs_bytes st + Z.of_nat (length piece)) in
      match drop (length piece) value with
      | [] => st
      | value => writeValue fuel k fam col c false value st
      end
  end.

Definition writeCell (k fam col : bytes) (st : chunkState) (c : cell) : chunkState :=
  writeValue (S (length (Value c))) k fam col c true (Value c) st.

Definition writeColumn (k : bytes) (f : family) (st : chunkState) (col : bytes) : chunkState :=
  foldl (writeCell k (Name f) col)
    (mkChunkState (cs_first st) (cs_newFamily st) true (cs_chunks st) (cs_bytes st))
    (default [] (Cells f !! col)).

Definition writeFamily (k : bytes) (st : chunkState) (f : family) : chunkState :=
  foldl (writeColumn k f)
    (mkChunkState (cs_first st) true (cs_newQualifier st) (cs_chunks st) (cs_bytes st)) (ColNames f).

Definition setCommit (ch : CellChunk) : CellChunk :=
  mkChunk (ch_RowKey ch) (ch_FamilyName ch) (ch_Qualifier ch) (ch_TimestampMicros ch) (ch_Labels ch)
    (ch_Value ch) (ch_ValueSize ch) true.

(** Marks the last chunk; without one the index is out of range. *)
Fixpoint commitLast (chunks : list CellChunk) : outcome (list CellChunk) :=
  match chunks with
  | [] => Panic
  | [ch] => Ret [setCommit ch]
  | ch :: chunks' => rest ← commitLast chunks'; Ret (ch :: rest)
  end.

Definition writeRow (w : rowWriter) (r : row) : outcome rowWriter :=
  let st := foldl (writeFamily (key r))
    (mkChunkState true false false (rw_resp w) (rw_bytes w)) (sortedFamilies r) in
  chunks ← commitLast (cs_chunks st);
  let w := mkWriter chunks (cs_bytes st) (rw_sent w) in
  if Z.of_nat readResponseBytes <=? cs_bytes st then Ret (flush w) else Ret w.
End writer.

(** ** The reader

    What a client makes of a chunk sequence: it keeps the row, family and
    qualifier in progress and the pieces of an unfinished value. *)

Record readerState : Type := mkReader {
  rd_rows : list (bytes * list (bytes * bytes * cell));
  rd_key : option bytes;
  rd_fam : bytes;
  rd_qual : bytes;
  rd_partial : option (Z * list bytes * bytes);
  rd_cells : list (bytes * bytes * cell) }.

Definition readChunk (st : readerState) (ch : CellChunk) : option readerState :=
  k ← (match rd_key st, ch_RowKey ch with
       | Some k, [] => Some k
       | None, (_ :: _) as k => Some k
       | _, _ => None
       end);
  let fam := default (rd_fam st) (ch_FamilyName ch) in
  let qual := default (rd_qual st) (ch_Qualifier ch) in
  let '(ts, labels, value) :=
    match rd_partial st with
    | Some (ts, labels, v) => (ts, labels, v ++ ch_Value ch)
    | None => (ch_TimestampMicros ch, ch_Labels ch, ch_Value ch)
    end in
  if 0 <? ch_ValueSize ch then
    if ch_CommitRow ch then None
    else Some (mkReader (rd_rows st) (Some k) fam qual (Some (ts, labels, value)) (rd_cells st))
  else
    let cells := rd_cells st ++ [(fam, qual, mkCell ts value labels)] in
    if ch_CommitRow ch then Some (mkReader (rd_rows st ++ [(k, cells)]) None [] [] None [])
    else Some (mkReader (rd_rows st) (Some k) fam qual None cells).

Fixpoint readChunks (st : readerState) (chunks : list CellChunk) : option readerState :=
  match chunks with
  | [] => Some st
  | ch :: chunks' => st' ← readChunk st ch; readChunks st' chunks'
  end.

Definition idle (rows : list (bytes * list (bytes * bytes * cell))) : readerState :=
  mkReader rows None [] [] None [].

Lemma readChunks_app st l1 l2 :
  readChunks st (l1 ++ l2) = (st' ← readChunks st l1; readChunks st' l2).
Proof.
  revert st. induction l1 as [|ch l1 IH]; intros st; [done|]. cbn. destruct (readChunk st ch); cbn; [apply IH|done].
Qed.

(** ** Reading what was written *)


(** The reader has read [chunks] from state [st0]. *)
Definition has_read (st0 : readerState) (chunks : list CellChunk) (st : readerState) : Prop :=
  readChunks st0 chunks = Some st.

(** The reader is inside the row [k] at the point the writer's flags say. *)
Record in_step (st0 : readerState) (k fam col : bytes) (ws : chunkState) (rd : readerState) : Prop := {
  is_read : has_read st0 (cs_chunks ws) rd;
  is_key : rd_key rd = if cs_first ws then None else Some k;
  is_fam : cs_newFamily ws = false -> rd_fam rd = fam;
  is_qual : cs_newFamily ws || cs_newQualifier ws = false -> rd_qual rd = col;
  is_whole : rd_partial rd = None }.

Section roundtrip.
Context (cb rb : nat).
Hypothesis cb_pos : (1 <= cb)%nat.

Lemma piece_facts (value : bytes) :
  let piece := if (cb <? length value)%nat then take cb value else value in
  piece ++ drop (length piece) value = value /\
  ((length piece <? length value)%nat = false <-> drop (length piece) value = []) /\
  (value <> [] -> (length (drop (length piece) value) < length value)%nat).
Proof.
  cbn zeta. destruct (Nat.ltb_spec cb (length value)) as [Hlt|Hge].
  - rewrite length_take, Nat.min_l by lia. split; [apply take_drop|]. rewrite Nat.ltb_ge. split.
    + split; [lia|]. intros Hd. apply (f_equal length) in Hd. rewrite length_drop in Hd. cbn in Hd. lia.
    + intros _. rewrite length_drop. lia.
  - rewrite drop_all, app_nil_r, Nat.ltb_irrefl. split_and!; try done.
    intros Hne. destruct value; [done|cbn; lia].
Qed.

(** The later pieces of a value complete the cell. *)
Lemma writeValue_rest fuel st0 k fam col c value prefix ws rd :
  (length value <= fuel)%nat -> value <> [] -> prefix ++ value = Value c ->
  Z.of_nat (length (Value c)) < 2147483648 ->
  cs_first ws = false -> cs_newFamily ws = false -> cs_newQualifier ws = false ->
  has_read st0 (cs_chunks ws) rd -> rd_key rd = Some k -> rd_fam rd = fam -> rd_qual rd = col ->
  rd_partial rd = Some (Ts c, Labels c, prefix) ->
  let ws' := writeValue cb fuel k fam col c false value ws in
  cs_first ws' = false /\ cs_newFamily ws' = false /\ cs_newQualifier ws' = false /\
  has_read st0 (cs_chunks ws')
    (mkReader (rd_rows rd) (Some k) fam col None (rd_cells rd ++ [(fam, col, c)])).
Proof.
  intros Hlen Hne Hval Hmax Hf Hnf Hnq Hr Hk Hfam Hqual Hp. revert value prefix ws rd Hlen Hne Hval Hf Hnf Hnq Hr Hk Hfam Hqual Hp.
  induction fuel as [|fuel IH]; intros value prefix ws rd Hlen Hne Hval Hf Hnf Hnq Hr Hk Hfam Hqual Hp.
  { destruct value; [done|cbn in Hlen; lia]. }
  cbn [writeValue andb]. destruct (piece_facts value) as (Hcat & Hlast & Hshort).
  set (piece := if (cb <? length value)%nat then take cb value else value) in *.
  set (chunk := mkChunk _ _ _ _ _ _ _ _).
  assert (0 < Z.of_nat (length (Value c))) as Hpos.
  { rewrite <- Hval, length_app. destruct value; [done|]. cbn. lia. }
  assert (readChunk rd chunk = Some (if (length piece <? length value)%nat
    then mkReader (rd_rows rd) (Some k) fam col (Some (Ts c, Labels c, prefix ++ piece)) (rd_cells rd)
    else mkReader (rd_rows rd) (Some k) fam col None
           (rd_cells rd ++ [(fam, col, mkCell (Ts c) (prefix ++ piece) (Labels c))]))) as Hread.
  { unfold readChunk, chunk. rewrite Hk, Hp, <- Hfam, <- Hqual.
    destruct (Nat.ltb_spec (length piece) (length value)); [|done]. cbn [ch_ValueSize].
    rewrite wrap32_id by lia. by rewrite (proj2 (Z.ltb_lt _ _) Hpos). }
  assert (has_read st0 (cs_chunks ws ++ [chunk]) (if (length piece <? length value)%nat
    then mkReader (rd_rows rd) (Some k) fam col (Some (Ts c, Labels c, prefix ++ piece)) (rd_cells rd)
    else mkReader (rd_rows rd) (Some k) fam col None
           (rd_cells rd ++ [(fam, col, mkCell (Ts c) (prefix ++ piece) (Labels c))]))) as Hnext.
  { unfold has_read in *. rewrite readChunks_app, Hr. cbn. by rewrite Hread. }
  destruct (drop (length piece) value) as [|b rest] eqn:Ed.
  - rewrite (proj2 Hlast eq_refl) in Hnext. rewrite app_nil_r in Hcat. rewrite Hcat, Hval in Hnext.
    cbn. split_and!; auto. by destruct c.
  - destruct (length piece <? length value)%nat eqn:El; [|discriminate (proj1 Hlast eq_refl)].
    apply (IH (b :: rest) (prefix ++ piece) (mkChunkState false false false (cs_chunks ws ++ [chunk]) _)
      (mkReader (rd_rows rd) (Some k) fam col (Some (Ts c, Labels c, prefix ++ piece)) (rd_cells rd)));
      try done.
    + specialize (Hshort Hne). lia.
    + by rewrite <- app_assoc, Hcat.
Qed.

(** A cell is read back with its family and column. *)
Lemma writeCell_in_step st0 k fam col c ws rd :
  k <> [] -> Z.of_nat (length (Value c)) < 2147483648 -> in_step st0 k fam col ws rd ->
  let ws' := writeCell cb k fam col ws c in
  cs_first ws' = false /\ cs_newFamily ws' = false /\ cs_newQualifier ws' = false /\
  has_read st0 (cs_chunks ws')
    (mkReader (rd_rows rd) (Some k) fam col None (rd_cells rd ++ [(fam, col, c)])).
Proof.
  intros Hkne Hmax [Hr Hk Hfam Hqual Hp]. unfold writeCell. cbn [writeValue andb].
  destruct (piece_facts (Value c)) as (Hcat & Hlast & Hshort).
  set (piece := if (cb <? length (Value c))%nat then take cb (Value c) else Value c) in *.
  set (chunk := mkChunk _ _ _ _ _ _ _ _).
  assert (readChunk rd chunk = Some (if (length piece <? length (Value c))%nat
    then mkReader (rd_rows rd) (Some k) fam col (Some (Ts c, Labels c, piece)) (rd_cells rd)
    else mkReader (rd_rows rd) (Some k) fam col None
           (rd_cells rd ++ [(fam, col, mkCell (Ts c) piece (Labels c))]))) as Hread.
  { unfold readChunk, chunk. rewrite Hk, Hp.
    cbn [ch_RowKey ch_FamilyName ch_Qualifier ch_TimestampMicros ch_Labels ch_Value ch_ValueSize ch_CommitRow].
    assert (default (rd_fam rd) (if cs_newFamily ws then Some fam else None) = fam) as ->
      by (destruct (cs_newFamily ws); cbn; auto).
    assert (default (rd_qual rd) (if cs_newFamily ws || cs_newQualifier ws then Some col else None) = col) as ->
      by (destruct (cs_newFamily ws || cs_newQualifier ws); cbn; auto).
    assert (match (if cs_first ws then None else Some k), (if cs_first ws then k else []) with
      | Some k, [] => Some k | None, (_ :: _) as k => Some k | _, _ => None end = Some k) as ->
      by (destruct (cs_first ws), k; done).
    cbn [mbind option_bind]. destruct (Nat.ltb_spec (length piece) (length (Value c))); [|done].
    rewrite wrap32_id by lia. destruct (Z.ltb_spec 0 (Z.of_nat (length (Value c)))); [done|lia]. }
  assert (has_read st0 (cs_chunks ws ++ [chunk]) (if (length piece <? length (Value c))%nat
    then mkReader (rd_rows rd) (Some k) fam col (Some (Ts c, Labels c, piece)) (rd_cells rd)
    else mkReader (rd_rows rd) (Some k) fam col None
           (rd_cells rd ++ [(fam, col, mkCell (Ts c) piece (Labels c))]))) as Hnext.
  { unfold has_read in *. rewrite readChunks_app, Hr. cbn. by rewrite Hread. }
  destruct (drop (length piece) (Value c)) as [|b rest] eqn:Ed.
  - rewrite (proj2 Hlast eq_refl) in Hnext. rewrite app_nil_r in Hcat. rewrite Hcat in Hnext.
    cbn. split_and!; auto. by destruct c.
  - destruct (length piece <? length (Value c))%nat eqn:El; [|discriminate (proj1 Hlast eq_refl)].
    apply (writeValue_rest _ st0 k fam col c (b :: rest) piece
      (mkChunkState false false false (cs_chunks ws ++ [chunk]) _)
      (mkReader (rd_rows rd) (Some k) fam col (Some (Ts c, Labels c, piece)) (rd_cells rd))); try done.
    assert (Value c <> []) as Hne by (intros E; by rewrite E, drop_nil in Ed).
    specialize (Hshort Hne). lia.
Qed.

(** Values the [int32] value size can announce. *)
Definition small_cell (c : cell) : Prop := Z.of_nat (length (Value c)) < 2147483648.

Lemma writeCells_in_step st0 k fam col cs ws rd :
  k <> [] -> Forall small_cell cs -> in_step st0 k fam col ws rd ->
  let ws' := foldl (writeCell cb k fam col) ws cs in
  exists rd', in_step st0 k fam col ws' rd' /\ rd_rows rd' = rd_rows rd /\
    rd_cells rd' = rd_cells rd ++ ((fun c => (fam, col, c)) <$> cs) /\
    cs_first ws' = match cs with [] => cs_first ws | _ => false end.
Proof.
  intros Hk Hs. revert ws rd. induction Hs as [|c cs Hc _ IH]; intros ws rd Hin; cbn [foldl].
  { exists rd. rewrite app_nil_r. done. }
  destruct (writeCell_in_step st0 k fam col c ws rd Hk Hc Hin) as (Hf & Hnf & Hnq & Hr).
  edestruct (IH (writeCell cb k fam col ws c)) as (rd' & Hin' & Hrows & Hcells & Hfirst).
  { split; [exact Hr|by rewrite Hf|done|done|done]. }
  exists rd'. split_and!; [done|done| |].
  - rewrite Hcells. cbn. by rewrite <- app_assoc.
  - rewrite Hfirst, Hf. by destruct cs.
Qed.

Definition small_row (r : row) : Prop := forall fam col, Forall small_cell (cells_at r fam col).

(** The flags of a chunk state after some cells were written. *)
Definition first_after {A} (l : list A) (b : bool) : bool := match l with [] => b | _ => false end.

Lemma first_after_app {A} (l1 l2 : list A) b : first_after (l1 ++ l2) b = first_after l2 (first_after l1 b).
Proof. destruct l1, l2; done. Qed.

Lemma writeColumns_in_step st0 k f cols ws rd col0 :
  k <> [] -> (forall col, Forall small_cell (default [] (Cells f !! col))) ->
  in_step st0 k (Name f) col0 ws rd ->
  let ws' := foldl (writeColumn cb k f) ws cols in
  exists rd' col', in_step st0 k (Name f) col' ws' rd' /\ rd_rows rd' = rd_rows rd /\
    rd_cells rd' = rd_cells rd ++ (cols ≫= col_cells f) /\
    cs_first ws' = first_after (cols ≫= col_cells f) (cs_first ws).
Proof.
  intros Hk Hs. revert ws rd col0. induction cols as [|col cols IH]; intros ws rd col0 Hin; cbn [foldl].
  { exists rd, col0. rewrite app_nil_r. done. }
  destruct (writeCells_in_step st0 k (Name f) col (default [] (Cells f !! col))
    (mkChunkState (cs_first ws) (cs_newFamily ws) true (cs_chunks ws) (cs_bytes ws)) rd Hk (Hs col))
    as (rd1 & Hin1 & Hrows1 & Hcells1 & Hfirst1).
  { destruct Hin as [Hr Hkey Hfam _ Hp]. split; [done|done|done|cbn; by rewrite orb_true_r|done]. }
  destruct (IH _ rd1 col Hin1) as (rd2 & col2 & Hin2 & Hrows2 & Hcells2 & Hfirst2).
  exists rd2, col2. split_and!; [done|congruence| |].
  - rewrite Hcells2, Hcells1, bind_cons, <- app_assoc. done.
  - etrans; [exact Hfirst2|]. rewrite Hfirst1, bind_cons, first_after_app. f_equal. unfold col_cells.
    by destruct (default [] (Cells f !! col)).
Qed.

Lemma writeFamilies_in_step st0 k fams ws rd fam0 col0 :
  k <> [] -> (forall f col, f ∈ fams -> Forall small_cell (default [] (Cells f !! col))) ->
  in_step st0 k fam0 col0 ws rd ->
  let ws' := foldl (writeFamily cb k) ws fams in
  exists rd' fam' col', in_step st0 k fam' col' ws' rd' /\ rd_rows rd' = rd_rows rd /\
    rd_cells rd' = rd_cells rd ++ (fams ≫= family_cells) /\
    cs_first ws' = first_after (fams ≫= family_cells) (cs_first ws).
Proof.
  intros Hk. revert ws rd fam0 col0. induction fams as [|f fams IH]; intros ws rd fam0 col0 Hs Hin; cbn [foldl].
  { exists rd, fam0, col0. rewrite app_nil_r. done. }
  destruct (writeColumns_in_step st0 k f (ColNames f)
    (mkChunkState (cs_first ws) true (cs_newQualifier ws) (cs_chunks ws) (cs_bytes ws)) rd col0 Hk)
    as (rd1 & col1 & Hin1 & Hrows1 & Hcells1 & Hfirst1).
  { intros col. apply Hs. left. }
  { destruct Hin as [Hr Hkey _ _ Hp]. by split. }
  destruct (IH _ rd1 (Name f) col1 (fun g col Hg => Hs g col (list_elem_of_further _ _ _ Hg)) Hin1)
    as (rd2 & fam2 & col2 & Hin2 & Hrows2 & Hcells2 & Hfirst2).
  exists rd2, fam2, col2. split_and!; [done|congruence| |].
  - rewrite Hcells2, Hcells1, bind_cons, <- app_assoc. done.
  - etrans; [exact Hfirst2|]. rewrite Hfirst1, bind_cons, first_after_app. done.
Qed.

Lemma list_snoc_cases {A} (l : list A) : l = [] \/ exists l' x, l = l' ++ [x].
Proof. destruct l using rev_ind; [by left|right; eauto]. Qed.

Lemma commitLast_snoc l ch : commitLast (l ++ [ch]) = Ret (l ++ [setCommit ch]).
Proof. induction l as [|x l IH]; [done|]. cbn. rewrite IH. by destruct l. Qed.

(** Committing the last chunk closes the row. *)
Lemma readChunk_commit rd ch rd' k :
  readChunk rd ch = Some rd' -> rd_key rd' = Some k -> rd_partial rd' = None ->
  readChunk rd (setCommit ch) = Some (idle (rd_rows rd' ++ [(k, rd_cells rd')])).
Proof.
  unfold readChunk. destruct ch as [ck cf cq cts cl cv csz cc]. cbn.
  destruct (rd_key rd) as [k0|], ck as [|b ck]; cbn; try done;
    (destruct (rd_partial rd) as [[[ts ls] v]|]; cbn; destruct (0 <? csz), cc; try done;
     intros [= <-]; cbn; intros [= <-]; done).
Qed.

(** What has been written decodes, response by response, to [rows]. *)
Definition writer_ok (w : rowWriter) (rows : list (bytes * list (bytes * bytes * cell))) : Prop :=
  exists parts last, Forall2 (fun resp part => readChunks (idle []) resp = Some (idle part)) (rw_sent w) parts /\
    readChunks (idle []) (rw_resp w) = Some (idle last) /\ rows = concat parts ++ last.

Lemma newRowWriter_ok : writer_ok newRowWriter [].
Proof. exists [], []. split_and!; [constructor|done|done]. Qed.

Lemma flush_writer_ok w rows : writer_ok w rows -> writer_ok (flush w) rows /\ rw_resp (flush w) = [].
Proof.
  intros (parts & lst & Hp & Hr & ->). unfold flush. destruct (rw_resp w) as [|ch chs] eqn:E.
  - split; [|done]. exists parts, lst. by rewrite E.
  - split; [|done]. exists (parts ++ [lst]), []. cbn. split_and!; [|done|].
    + apply Forall2_app; [done|]. by constructor.
    + rewrite concat_app. cbn. by rewrite !app_nil_r.
Qed.

Lemma small_families r f col :
  names_ok r -> small_row r -> f ∈ sortedFamilies r -> Forall small_cell (default [] (Cells f !! col)).
Proof.
  intros Hn Hs Hf. apply elem_of_sortedFamilies in Hf; [|done]. specialize (Hs (Name f) col).
  by rewrite (cells_at_family _ _ _ _ Hf) in Hs.
Qed.

Lemma writeRow_ok w rows r :
  writer_ok w rows -> names_ok r -> key r <> [] -> small_row r -> row_cells r <> [] ->
  exists w', writeRow cb rb w r = Ret w' /\ writer_ok w' (rows ++ [(key r, row_cells r)]).
Proof.
  intros (parts & lst & Hp & Hr & ->) Hn Hk Hs Hne.
  destruct (writeFamilies_in_step (idle []) (key r) (sortedFamilies r)
    (mkChunkState true false false (rw_resp w) (rw_bytes w)) (idle lst) [] [] Hk)
    as (rd & fam & col & [Hread Hkey _ _ Hpart] & Hrows & Hcells & Hfirst).
  { intros f c Hf. by eapply small_families. }
  { by split. }
  unfold writeRow. set (ws := foldl _ _ _) in *. cbn in Hrows, Hcells, Hfirst. fold (row_cells r) in Hcells, Hfirst.
  assert (cs_first ws = false) as Hf by (rewrite Hfirst; by destruct (row_cells r)).
  rewrite Hf in Hkey.
  destruct (list_snoc_cases (cs_chunks ws)) as [Ec|(l & x & Ec)]; rewrite Ec in *.
  { unfold has_read in Hread. cbn in Hread. injection Hread as <-. done. }
  rewrite commitLast_snoc. cbn [mbind outcome_bind].
  unfold has_read in Hread. rewrite readChunks_app in Hread.
  destruct (readChunks (idle []) l) as [rd0|] eqn:E0; [|done]. cbn in Hread.
  destruct (readChunk rd0 x) as [rd1|] eqn:E1; [|done]. cbn in Hread. injection Hread as ->.
  pose proof (readChunk_commit _ _ _ _ E1 Hkey Hpart) as Hc. rewrite Hrows, Hcells in Hc. cbn in Hc.
  assert (writer_ok (mkWriter (l ++ [setCommit x]) (cs_bytes ws) (rw_sent w))
    ((concat parts ++ lst) ++ [(key r, row_cells r)])) as Hok.
  { exists parts, (lst ++ [(key r, row_cells r)]). cbn. split_and!; [done| |by rewrite app_assoc].
    rewrite readChunks_app, E0. cbn. by rewrite Hc. }
  destruct (_ <=? _); eexists; (split; [done|]); [by apply flush_writer_ok|done].
Qed.
End roundtrip.

(** ** Properties *)

(** What the writer needs of a row: a key, cells, and values an [int32] size
    can announce. *)
Definition writable (r : row) : Prop :=
  names_ok r /\ key r <> [] /\ small_row r /\ row_cells r <> [].

Lemma writeRows_ok cb rb rows w done_ :
  (1 <= cb)%nat -> Forall writable rows -> writer_ok w done_ ->
  exists w', foldM (writeRow cb rb) w rows = Ret w' /\
    writer_ok w' (done_ ++ ((fun r => (key r, row_cells r)) <$> rows)).
Proof.
  intros Hcb Hr. revert w done_. induction Hr as [|r rows (Hn & Hk & Hs & Hc) _ IH]; intros w done_ Hw; cbn [foldM].
  { exists w. by rewrite app_nil_r. }
  destruct (writeRow_ok cb rb Hcb w done_ r Hw Hn Hk Hs Hc) as (w1 & -> & Hw1). cbn [mbind outcome_bind].
  destruct (IH w1 _ Hw1) as (w2 & E & Hw2). exists w2. split; [done|]. by rewrite <- app_assoc in Hw2.
Qed.

(** The responses decode, each on its own, to [rows] in order. *)
Definition decodes (sent : list (list CellChunk)) (rows : list row) : Prop :=
  exists parts, Forall2 (fun resp part => readChunks (idle []) resp = Some (idle part)) sent parts /\
    concat parts = (fun r => (key r, row_cells r)) <$> rows.

Lemma flush_decodes w rows :
  writer_ok w ((fun r => (key r, row_cells r)) <$> rows) -> decodes (rw_sent (flush w)) rows.
Proof.
  intros [(parts & lst & Hp & Hr & E) Hn]%flush_writer_ok. rewrite Hn in Hr. cbn in Hr.
  injection Hr as <-. exists parts. by rewrite app_nil_r in E.
Qed.

(** C9: Rows written as cell chunks are read back: for every chunk and response
    size limit, writing rows that have cells and flushing sends responses that a
    client's chunk reader accepts one by one, no row spanning two of them, and
    their rows are the rows written, in order, cell by cell, with large values
    reassembled from their pieces. *)
Theorem chunks_roundtrip cb rb rows :
  (1 <= cb)%nat -> Forall writable rows ->
  exists w, foldM (writeRow cb rb) newRowWriter rows = Ret w /\ decodes (rw_sent (flush w)) rows.
Proof.
  intros Hcb Hr. destruct (writeRows_ok cb rb rows newRowWriter [] Hcb Hr newRowWriter_ok) as (w & E & Hw).
  exists w. split; [done|]. by apply flush_decodes.
Qed.

(** A row whose value needs three chunks of one byte. *)
Module SampleChunks.
Definition long_row : row :=
  mkRow [107] {[ [97] := mkFamily [97] 1 [[113]] {[ [113] := [mkCell 1000 [1; 2; 3] []] ]} ]}.

Lemma long_row_writable : writable long_row.
Proof.
  split; [intros n f; cbn [long_row families]; by intros [<- <-]%lookup_singleton_Some|].
  split; [done|]. split; [|by vm_compute].
  intros fam col. unfold cells_at. cbn [long_row families].
  destruct (decide (fam = [97])) as [->|?]; [rewrite lookup_singleton_eq|by rewrite lookup_singleton_ne].
  cbn. destruct (decide (col = [113])) as [->|?]; [rewrite lookup_singleton_eq|by rewrite lookup_singleton_ne].
  by repeat constructor.
Qed.
End SampleChunks.

Lemma chunks_roundtrip_witness :
  exists w, foldM (writeRow 1 1) newRowWriter [SampleChunks.long_row; SampleChunks.long_row] = Ret w /\
    decodes (rw_sent (flush w)) [SampleChunks.long_row; SampleChunks.long_row].
Proof. apply chunks_roundtrip; [lia|]. repeat constructor; apply SampleChunks.long_row_writable. Defined.
