(* ===== verification/ReadPath.v ===== *)
(** * The read path

    [validation.go] and [data_read.go]: the rows a request selects, ReadRows
    and SampleRowKeys.  The refresh of a stale materialized view runs the SQL
    engine and is an argument. *)

From S2P Require Import Prelude Proto Rows Gc Hll Mutations Filters Server Store Targets WritePath Chunks.
From stdpp Require Import base list gmap sorting.
From Stdlib Require Import ZArith Lia.

#[local] Open Scope Z_scope.

(** ** Row ranges *)

Definition startKeyClosed (rr : RowRange) : bytes := match rr_start rr with Start_Closed b => b | _ => [] end.
Definition startKeyOpen (rr : RowRange) : bytes := match rr_start rr with Start_Open b => b | _ => [] end.
Definition endKeyClosed (rr : RowRange) : bytes := match rr_end rr with End_Closed b => b | _ => [] end.
Definition endKeyOpen (rr : RowRange) : bytes := match rr_end rr with End_Open b => b | _ => [] end.

Definition keysOutOfRange (s e : bytes) : bool :=
  if Nat.eqb (length s) 0 && Nat.eqb (length e) 0 then false
  else if Nat.eqb (length s) 0 || Nat.eqb (length e) 0 then false
  else bytes_ltb e s.

(** [messageOnInvalidKeyRanges]: whether there is a message. *)
Definition invalidKeyRanges (sC sO eC eO : bytes) : bool :=
  if negb (Nat.eqb (length sC) 0) && negb (Nat.eqb (length sO) 0) then true
  else if negb (Nat.eqb (length eC) 0) && negb (Nat.eqb (length eO) 0) then true
  else if keysOutOfRange sC eC then true
  else if keysOutOfRange sO eO then true
  else if keysOutOfRange sC eO then true
  else keysOutOfRange sO eC.

Definition validateRowRanges (rows : option RowSet) : outcome unit :=
  foldM (fun _ rr =>
    if invalidKeyRanges (startKeyClosed rr) (startKeyOpen rr) (endKeyClosed rr) (endKeyOpen rr)
    then Err InvalidArgument else Ret tt) tt (from_option rs_RowRanges [] rows).

Definition rowRangeToKeyRange (rr : RowRange) : keyRange :=
  mkKeyRange
    (match rr_start rr with Start_Closed b => b | Start_Open b => b ++ [0] | Start_Unset => [] end)
    (match rr_end rr with End_Closed b => b ++ [0] | End_Open b => b | End_Unset => [] end).

(** ** Read plans *)

Record readPlan : Type := mkPlan {
  rp_keys : list bytes; rp_ranges : list keyRange; rp_all : bool; rp_reversed : bool }.

Definition newReadPlan (rs : option RowSet) (reversed : bool) : readPlan :=
  match rs with
  | None => mkPlan [] [] true reversed
  | Some rs =>
      if Nat.eqb (length (rs_RowKeys rs) + length (rs_RowRanges rs)) 0 then mkPlan [] [] true reversed
      else mkPlan (rs_RowKeys rs) (rowRangeToKeyRange <$> rs_RowRanges rs) false reversed
  end.

(** [byRowKey]. *)
Definition byRowKey (a b : row) : bool := bytes_leb (key a) (key b).

Record ReadRowsRequest : Type := mkReadRows {
  rr_TableName : bytes; rr_AuthorizedViewName : bytes; rr_MaterializedViewName : bytes;
  rr_AppProfileId : bytes; rr_Rows : option RowSet; rr_Filter : option RowFilter;
  rr_RowsLimit : Z; rr_Reversed : bool; rr_RequestStatsView : Z }.

Record SampleRowKeysRequest : Type := mkSampleRowKeys {
  sk_TableName : bytes; sk_AuthorizedViewName : bytes; sk_MaterializedViewName : bytes;
  sk_AppProfileId : bytes; sk_RowRange : option RowRange }.

Record readStats : Type := mkStats {
  rowsSeen : Z; rowsReturned : Z; cellsSeen : Z; cellsReturned : Z }.

(** A response of the stream: cell chunks, or the final request stats. *)
Inductive ReadRowsResponse : Type :=
| Response_Chunks (chunks : list CellChunk)
| Response_Stats (stats : readStats).

Section read.
Context {blob : Type} `{!Gob blob} `{!Env}.
Context {regexp : Type} (Compile : bytes -> option regexp) (MatchString : regexp -> bytes -> bool).
Context (readChunkValueBytes readResponseBytes : nat) (sampleEveryBytes : Z).
(** [materializedView.readable]. *)
Context (readable : bytes -> M blob unit).

(** [readPlan.load]. *)
Definition loadKeys (t : SqlRows) (keys : list bytes) (seen : gmap bytes row) : M blob (gmap bytes row) :=
  forM (fun seen k =>
    match seen !! k with
    | Some _ => mret seen
    | None =>
        r ← SqlRows_load t k;
        mret (match r with Some r => <[k := r]> seen | None => seen end)
    end) seen keys.

Definition loadRanges (t : SqlRows) (ranges : list keyRange) (seen : gmap bytes row) : M blob (gmap bytes row) :=
  forM (fun seen rng =>
    SqlRows_scan t rng false (fun seen r =>
      mret (match seen !! key r with Some _ => seen | None => <[key r := r]> seen end, true)) seen) seen ranges.

Definition readPlan_load (p : readPlan) (t : SqlRows) : M blob (list row) :=
  if rp_all p then
    SqlRows_scan t (mkKeyRange [] []) (rp_reversed p) (fun out r => mret (out ++ [r], true)) []
  else
    seen ← loadKeys t (rp_keys p) ∅;
    seen ← loadRanges t (rp_ranges p) seen;
    let out := isort byRowKey (map_vals seen) in
    mret (if rp_reversed p then reverse out else out).

(** One row of ReadRows' loop: what the filter leaves of the row, if it has
    cells before and after it. *)
Definition readRow (target : dataTarget) (f : option RowFilter) (stats : readStats) (stored : row)
    : M blob (readStats * option row) :=
  let tbl := dt_tbl target in
  '(r, _) ← gcNow (gcRulesNoLock tbl) (known tbl stored);
  let skip := match dt_view target with Some p => negb (rowAllowed p (key r)) | None => false end in
  if skip then mret (stats, None)
  else
    let r := match dt_view target with Some p => restrict p r | None => r end in
    if isEmpty r then mret (stats, None)
    else
      let stats := mkStats (rowsSeen stats + 1) (rowsReturned stats)
                     (cellsSeen stats + cellCount r) (cellsReturned stats) in
      '(r, _) ← filterRowNow Compile MatchString f r;
      if isEmpty r then mret (stats, None)
      else mret (mkStats (rowsSeen stats) (rowsReturned stats + 1) (cellsSeen stats)
                   (cellsReturned stats + cellCount r), Some r).

(** ReadRows' loop: the writer, the stats, and the error that ended it. *)
Fixpoint readLoop (target : dataTarget) (f : option RowFilter) (limit : Z) (rows : list row)
    (w : rowWriter) (stats : readStats) : M blob (rowWriter * readStats * option Code) :=
  match rows with
  | [] => mret (w, stats, None)
  | stored :: rows' =>
      if (0 <? limit) && (limit <=? rowsReturned stats) then mret (w, stats, None)
      else
        res ← catch (readRow target f stats stored);
        match res with
        | inr c => mret (w, stats, Some c)
        | inl (stats, None) => readLoop target f limit rows' w stats
        | inl (stats, Some r) =>
            w ← lift (writeRow readChunkValueBytes readResponseBytes w r);
            readLoop target f limit rows' w stats
        end
  end.

(** [ReadRows]: the responses sent and the error that ended the stream. *)
Definition ReadRows (req : ReadRowsRequest) : M blob (list ReadRowsResponse * option Code) :=
  target ← resolveReadTarget (rr_TableName req) (rr_AuthorizedViewName req) (rr_MaterializedViewName req)
             (rr_AppProfileId req);
  if rr_RowsLimit req <? 0 then fail InvalidArgument
  else if rr_Reversed req && isDataBoostProfile (dt_appProfile target) then fail InvalidArgument
  else if negb ((0 <=? rr_RequestStatsView req) && (rr_RequestStatsView req <=? 2)) then fail InvalidArgument
  else
    _ ← lift (validateRowRanges (rr_Rows req));
    _ ← lift (validateFilter Compile (rr_Filter req));
    _ ← (match dt_mv target with Some mv => readable mv | None => mret tt end);
    let tbl := dt_tbl target in
    rows ← mapErr storageErr (readPlan_load (newReadPlan (rr_Rows req) (rr_Reversed req)) (table_rows tbl));
    '(w, stats, err) ← readLoop target (rr_Filter req) (rr_RowsLimit req) rows newRowWriter (mkStats 0 0 0 0);
    match err with
    | Some c => mret (Response_Chunks <$> rw_sent w, Some c)
    | None =>
        let sent := Response_Chunks <$> rw_sent (flush w) in
        mret (if rr_RequestStatsView req =? 2 then sent ++ [Response_Stats stats] else sent, None)
    end.

(** *** SampleRowKeys *)

Record sampleState : Type := mkSample {
  sm_samples : list (bytes * Z); sm_offset : Z; sm_sinceLast : Z; sm_lastKey : bytes;
  sm_splits : list bytes }.

(** The splits up to [upto] are passed; those inside the range and after the
    last row become samples. *)
Fixpoint passSplits (rng : keyRange) (upto : option bytes) (st : sampleState) (splits : list bytes) : sampleState :=
  match splits with
  | [] => mkSample (sm_samples st) (sm_offset st) (sm_sinceLast st) (sm_lastKey st) []
  | s :: rest =>
      if match upto with Some k => bytes_leb s k | None => true end then
        let samples := if contains rng s && bytes_ltb (sm_lastKey st) s
                       then sm_samples st ++ [(s, sm_offset st)] else sm_samples st in
        passSplits rng upto (mkSample samples (sm_offset st) (sm_sinceLast st) (sm_lastKey st) rest) rest
      else mkSample (sm_samples st) (sm_offset st) (sm_sinceLast st) (sm_lastKey st) splits
  end.

(** The callback of the scan. *)
Definition sampleRow (view : option viewPolicy) (rng : keyRange) (st : sampleState) (r : row) : sampleState :=
  let skip := match view with Some p => negb (rowAllowed p (key r)) | None => false end in
  if skip then st
  else
    let r := match view with Some p => restrict p r | None => r end in
    if match view with Some _ => isEmpty r | None => false end then st
    else
      let st := passSplits rng (Some (key r)) st (sm_splits st) in
      let offset := sm_offset st + Rows.size r in
      let sinceLast := sm_sinceLast st + Rows.size r in
      if sampleEveryBytes <=? sinceLast
      then mkSample (sm_samples st ++ [(key r, offset)]) offset 0 (key r) (sm_splits st)
      else mkSample (sm_samples st) offset sinceLast (key r) (sm_splits st).

(** Drops the trailing samples at [k]. *)
Fixpoint dropTrailing (k : bytes) (rev_samples : list (bytes * Z)) : list (bytes * Z) :=
  match rev_samples with
  | [] => []
  | (k', o) :: rest => if bool_decide (k' = k) then dropTrailing k rest else rev_samples
  end.

(** Sends the samples, skipping a key equal to the one before. *)
Fixpoint sendSamples (prev : option bytes) (samples : list (bytes * Z)) : list (bytes * Z) :=
  match samples with
  | [] => []
  | (k, o) :: rest =>
      if bool_decide (prev = Some k) then sendSamples (Some k) rest
      else (k, o) :: sendSamples (Some k) rest
  end.

Definition sampleEnd (rr : option RowRange) (rng : keyRange) : bytes :=
  match kr_end rng with
  | [] => []
  | e => match rr with
         | Some rr => match rr_end rr with End_Closed b => b | _ => e end
         | None => e
         end
  end.

(** The samples computed from the rows of the range. *)
Definition samplesOf (view : option viewPolicy) (rr : option RowRange) (splits : list bytes) (rows : list row)
    : list (bytes * Z) :=
  let rng := match rr with Some rr => rowRangeToKeyRange rr | None => mkKeyRange [] [] end in
  let st := foldl (sampleRow view rng) (mkSample [] 0 0 [] splits) rows in
  let st := passSplits rng None st (sm_splits st) in
  let end_ := sampleEnd rr rng in
  sendSamples None (reverse (dropTrailing end_ (reverse (sm_samples st))) ++ [(end_, sm_offset st)]).

Definition SampleRowKeys (req : SampleRowKeysRequest) : M blob (list (bytes * Z)) :=
  target ← resolveReadTarget (sk_TableName req) (sk_AuthorizedViewName req) (sk_MaterializedViewName req)
             (sk_AppProfileId req);
  _ ← (match dt_mv target with Some mv => readable mv | None => mret tt end);
  let rng := match sk_RowRange req with Some rr => rowRangeToKeyRange rr | None => mkKeyRange [] [] end in
  let tbl := dt_tbl target in
  rows ← mapErr storageErr (SqlRows_scan (table_rows tbl) rng false (fun out r => mret (out ++ [r], true)) []);
  mret (samplesOf (dt_view target) (sk_RowRange req) (t_initialSplits tbl) rows).
End read.

(** ** Key ranges of requests *)

Definition start_ok (rr : RowRange) (k : bytes) : Prop :=
  match rr_start rr with
  | Start_Closed b => bytes_leb b k = true
  | Start_Open b => bytes_ltb b k = true
  | Start_Unset => True
  end.
Definition end_ok (rr : RowRange) (k : bytes) : Prop :=
  match rr_end rr with
  | End_Closed b => bytes_leb k b = true
  | End_Open b => b = [] \/ bytes_ltb k b = true
  | End_Unset => True
  end.

Lemma contains_rowRange rr k :
  all_bytes k -> contains (rowRangeToKeyRange rr) k = true <-> start_ok rr k /\ end_ok rr k.
Proof.
  intros Hk. rewrite contains_spec. unfold rowRangeToKeyRange, start_ok, end_ok. cbn [kr_start kr_end].
  destruct rr as [[|b|b] [|e|e]]; cbn [rr_start rr_end];
    rewrite ?bytes_leb_nil_l, ?bytes_leb_snoc0, ?bytes_ltb_snoc0 by done;
    intuition; try (by destruct e).
Qed.

(** The keys a row set selects; an absent or empty set selects all. *)
Definition selected (rs : option RowSet) (k : bytes) : Prop :=
  match rs with
  | None | Some (mkRowSet [] []) => True
  | Some rs => k ∈ rs_RowKeys rs \/ exists rr, rr ∈ rs_RowRanges rs /\ start_ok rr k /\ end_ok rr k
  end.

(** The keys a plan selects. *)
Definition planned (p : readPlan) (k : bytes) : Prop :=
  rp_all p = true \/ k ∈ rp_keys p \/ exists rng, rng ∈ rp_ranges p /\ contains rng k = true.

Lemma planned_selected rs rev k : all_bytes k -> planned (newReadPlan rs rev) k <-> selected rs k.
Proof.
  intros Hk. unfold planned, selected, newReadPlan. destruct rs as [[keys ranges]|]; cbn [rs_RowKeys rs_RowRanges];
    [|cbn; tauto].
  destruct (Nat.eqb_spec (length keys + length ranges) 0) as [E|E].
  { destruct keys, ranges; cbn in *; try lia. }
  assert ((exists rng, rng ∈ (rowRangeToKeyRange <$> ranges) /\ contains rng k = true) <->
    exists rr, rr ∈ ranges /\ start_ok rr k /\ end_ok rr k) as Hr.
  { split.
    - intros (rng & (rr & -> & Hin)%list_elem_of_fmap & Hc). exists rr. by rewrite <- contains_rowRange.
    - intros (rr & Hin & Hc). exists (rowRangeToKeyRange rr). split; [by apply list_elem_of_fmap_2|].
      by apply contains_rowRange. }
  cbn [rp_all rp_keys rp_ranges]. rewrite Hr. destruct keys, ranges; cbn in *; try lia; intuition discriminate.
Qed.

Section load.
Context {blob : Type} `{!Gob blob} `{!Env}.
Implicit Types (w : world blob) (d : database blob) (t : SqlRows) (P Q : bytes -> Prop).

(** ** Loading a plan *)

Lemma collect_rows d t l rows :
  (forall k b, (k, b) ∈ l -> stored_at d t k = Some b) ->
  collectM (fun '(k, b) => row_Scan k b) l = Ret rows ->
  key <$> rows = l.*1 /\ Forall (fun r => row_at d t (key r) = Some r) rows.
Proof.
  revert rows. induction l as [|[k b] l IH]; intros rows Hl E; cbn [collectM] in E.
  { injection E as <-. done. }
  destruct (row_Scan k b) as [r| |] eqn:Er; try done. unfold row_Scan in Er.
  destruct (gob_decode b) as [m|] eqn:Em; [|done]. injection Er as <-. cbn [mbind outcome_bind] in E.
  destruct (collectM _ l) as [rows'| |] eqn:El; try done. cbn in E. injection E as <-.
  destruct (IH rows') as [Hk Hall]; [|done|].
  { intros k' b' Hin. apply Hl. by right. }
  split; [cbn; congruence|]. constructor; [|done]. unfold row_at. cbn.
  rewrite (Hl k b) by left. cbn. by rewrite Em.
Qed.

(** Distinct keys in the order of the request. *)
Definition key_before (rev : bool) (a b : bytes) : Prop := (if rev then bytes_ltb b a else bytes_ltb a b) = true.
Definition key_order (rev : bool) (rows : list row) : Prop := StronglySorted (key_before rev) (key <$> rows).

(** [rows] are the stored rows with a key in [P], in order. *)
Definition exactly d (t : SqlRows) (P : bytes -> Prop) (rev : bool) (rows : list row) : Prop :=
  (forall r, r ∈ rows <-> row_at d t (key r) = Some r /\ P (key r)) /\ key_order rev rows.

Lemma StronglySorted_reverse {A : Type} (R : A -> A -> Prop) l :
  StronglySorted R l -> StronglySorted (flip R) (reverse l).
Proof.
  induction 1 as [|x l Hl IH Hx]; [constructor|]. rewrite reverse_cons.
  assert (forall l', StronglySorted (flip R) l' -> Forall (fun y => R x y) l' -> StronglySorted (flip R) (l' ++ [x])) as Hsnoc.
  { induction 1 as [|y l' Hl' IH' Hy]; intros Hall; cbn; [by repeat constructor|].
    apply Forall_cons in Hall as [Hxy Hall]. constructor; [auto|]. apply Forall_app. split; [done|]. by constructor. }
  apply Hsnoc; [done|]. by rewrite reverse_Permutation.
Qed.

Lemma key_order_reverse rows : key_order false rows -> key_order true (reverse rows).
Proof. unfold key_order. intros Hs%StronglySorted_reverse. by rewrite fmap_reverse. Qed.

Lemma key_row_at d t k r : row_at d t k = Some r -> key r = k.
Proof. unfold row_at. intros (b & _ & (m & _ & ->)%fmap_Some)%bind_Some. done. Qed.

(** A scan reads the rows of the range in order. *)
Lemma scanRows_Ret t rng rev w rows w' :
  scanRows t rng rev w = (Ret rows, w') ->
  w_db w' = w_db w /\ w_srv w' = w_srv w /\
  exactly (w_db w) t (fun k => contains rng k = true) rev rows.
Proof.
  unfold scanRows. destruct (kr_empty rng) eqn:Ee.
  { intros [<- ->]%ret_Ret. split_and!; [done|done|split; [|constructor]]. intros r. rewrite kr_empty_spec by done. set_solver. }
  intros (d & [= E <-] & ->)%call_Ret. split; [done|]. split; [done|].
  set (found := selectRows t (w_db w) rng) in *.
  set (l := if rev then reverse found else found) in *.
  assert (forall k b, (k, b) ∈ l <-> stored_at (w_db w) t k = Some b /\ contains rng k = true) as Hl.
  { intros k b. rewrite <- elem_of_selectRows. unfold l. destruct rev; [apply elem_of_reverse|done]. }
  destruct (collect_rows (w_db w) t l rows) as [Hk Hall]; [intros; by apply Hl|done|].
  rewrite list.Forall_forall in Hall. split.
  - intros r. split.
    + intros Hr. split; [by apply Hall|].
      assert (key r ∈ l.*1) as ([k b] & -> & Hin)%list_elem_of_fmap by (rewrite <- Hk; by apply list_elem_of_fmap_2).
      by apply Hl in Hin as [_ ?].
    + intros [Hat Hc]. pose proof Hat as Hat'. unfold row_at in Hat'. apply bind_Some in Hat' as (b & Hb & _).
      assert (key r ∈ key <$> rows) as (r' & Hkey & Hin)%list_elem_of_fmap.
      { rewrite Hk. apply list_elem_of_fmap. exists (key r, b). split; [done|]. by apply Hl. }
      specialize (Hall _ Hin). rewrite <- Hkey in Hall. by simplify_eq.
  - unfold key_order. rewrite Hk. unfold l. pose proof (selectRows_sorted t (w_db w) rng) as Hs. fold found in Hs.
    destruct rev; [|exact Hs]. rewrite fmap_reverse. by apply StronglySorted_reverse in Hs.
Qed.

Lemma visitRows_pure {S : Type} (g : S -> row -> S) l : forall s w,
  visitRows (blob := blob) (fun s r => mret (g s r, true)) s l w = (Ret (foldl g s l), w).
Proof. induction l as [|r l IH]; intros s w; [done|]. cbn [visitRows foldl]. rewrite bind_run. cbn. apply IH. Qed.

Lemma foldl_snoc {A : Type} (l : list A) : forall acc, foldl (fun out x => out ++ [x]) acc l = acc ++ l.
Proof. induction l as [|x l IH]; intros acc; cbn; [by rewrite app_nil_r|]. rewrite IH, <- app_assoc. done. Qed.

(** [seen] holds the stored rows with a key in [P]. *)
Definition covers d (t : SqlRows) (P : bytes -> Prop) (seen : gmap bytes row) : Prop :=
  forall k r, seen !! k = Some r <-> row_at d t k = Some r /\ P k.

Lemma covers_ext d t P Q (seen : gmap bytes row) : (forall k, P k <-> Q k) -> covers d t P seen -> covers d t Q seen.
Proof. intros HPQ Hc k r. by rewrite <- HPQ. Qed.

Lemma loadKeys_Ret t keys : forall P seen w seen' w',
  covers (w_db w) t P seen -> loadKeys t keys seen w = (Ret seen', w') ->
  w_db w' = w_db w /\ w_srv w' = w_srv w /\ covers (w_db w) t (fun k => P k \/ k ∈ keys) seen'.
Proof.
  induction keys as [|k keys IH]; intros P seen w seen' w' Hc E; cbn in E.
  { apply ret_Ret in E as [<- ->]. split_and!; try done. eapply covers_ext, Hc. set_solver. }
  apply bind_Ret in E as (seen1 & w1 & E1 & E2).
  assert (w_db w1 = w_db w /\ w_srv w1 = w_srv w /\ covers (w_db w) t (fun k' => P k' \/ k' = k) seen1)
    as (Hd & Hs & Hc1).
  { destruct (seen !! k) as [r|] eqn:Ek.
    - apply ret_Ret in E1 as [<- ->]. split_and!; try done. intros k' r'. rewrite (Hc k' r').
      apply Hc in Ek as [_ HP]. naive_solver.
    - apply bind_Ret in E1 as (o & w2 & E1 & [<- ->]%ret_Ret). apply load_Ret in E1 as (-> & Hd & Hs).
      split_and!; try done. intros k' r'. destruct (row_at (w_db w) t k) as [r|] eqn:Er.
      + rewrite lookup_insert_Some, (Hc k' r'). destruct (decide (k = k')) as [<-|]; [|naive_solver].
        rewrite Er. split; [intros [[_ ->]|]; naive_solver|]. intros [[= ->] _]. by left.
      + rewrite (Hc k' r'). naive_solver congruence. }
  rewrite <- Hd in Hc1. destruct (IH _ _ _ _ _ Hc1 E2) as (Hd2 & Hs2 & Hc2). rewrite Hd in Hc2.
  split; [congruence|]. split; [congruence|]. eapply covers_ext, Hc2. set_solver.
Qed.

(** The map after a scan that keeps what it has. *)
Lemma covers_fold d t P Q rows : forall seen,
  covers d t P seen -> (forall r, r ∈ rows -> row_at d t (key r) = Some r) ->
  (forall k, Q k <-> P k \/ exists r, r ∈ rows /\ key r = k) ->
  covers d t Q (foldl (fun seen r => match seen !! key r with Some _ => seen | None => <[key r := r]> seen end) seen rows).
Proof.
  revert P. induction rows as [|r rows IH]; intros P seen Hc Hrows HQ; cbn [foldl].
  { eapply covers_ext, Hc. set_solver. }
  apply (IH (fun k => P k \/ k = key r)); [|set_solver|].
  2:{ intros k. rewrite HQ. set_solver. }
  pose proof (Hrows r ltac:(left)) as Hr. intros k r'. destruct (seen !! key r) as [r0|] eqn:Er.
  - rewrite (Hc k r'). apply Hc in Er as [_ HP]. naive_solver.
  - rewrite lookup_insert_Some, (Hc k r'). destruct (decide (key r = k)) as [<-|]; [|naive_solver].
    rewrite Hr. split; [intros [[_ ->]|]; naive_solver|]. intros [[= ->] _]. by left.
Qed.

Lemma loadRanges_Ret t ranges : forall P seen w seen' w',
  covers (w_db w) t P seen -> loadRanges t ranges seen w = (Ret seen', w') ->
  w_db w' = w_db w /\ w_srv w' = w_srv w /\
  covers (w_db w) t (fun k => P k \/ exists rng, rng ∈ ranges /\ contains rng k = true) seen'.
Proof.
  induction ranges as [|rng ranges IH]; intros P seen w seen' w' Hc E; cbn in E.
  { apply ret_Ret in E as [<- ->]. split_and!; try done. eapply covers_ext, Hc. set_solver. }
  apply bind_Ret in E as (seen1 & w1 & E1 & E2). unfold SqlRows_scan in E1.
  apply bind_Ret in E1 as (rows & w2 & Es & Ev). apply scanRows_Ret in Es as (Hd & Hs & Hx & _).
  rewrite visitRows_pure in Ev. injection Ev as <- <-.
  pose proof (covers_fold (w_db w) t P (fun k => P k \/ exists r, r ∈ rows /\ key r = k) rows seen Hc
    (fun r Hr => proj1 (proj1 (Hx r) Hr)) (fun k => iff_refl _)) as Hc1.
  rewrite <- Hd in Hc1. destruct (IH _ _ _ _ _ Hc1 E2) as (Hd2 & Hs2 & Hc2). rewrite Hd in Hc2.
  split; [congruence|]. split; [congruence|]. intros k r. rewrite (Hc2 k r). split; intros [Hat HP]; (split; [done|]).
  - destruct HP as [[HP|(r' & Hin & <-)]|(rng' & Hin & Hcon)]; [by left| |right; exists rng'; set_solver].
    right. exists rng. split; [left|]. by apply Hx in Hin as [_ ?].
  - destruct HP as [HP|(rng' & [->|Hin]%elem_of_cons & Hcon)]; [by left; left| |right; eauto].
    left. right. pose proof (key_row_at _ _ _ _ Hat) as <-. exists r. split; [|done]. by apply Hx.
Qed.

Lemma sorted_keys_strict (l : list row) :
  StronglySorted (fun a b => byRowKey a b = true) l -> NoDup (key <$> l) -> key_order false l.
Proof.
  unfold key_order. induction 1 as [|r l Hl IH Hr]; cbn; intros Hnd; [constructor|].
  apply NoDup_cons in Hnd as [Hni Hnd]. constructor; [auto|]. apply Forall_fmap.
  rewrite list.Forall_forall in *. intros r' Hin. specialize (Hr _ Hin). unfold byRowKey in Hr. cbn.
  apply bytes_leb_cases in Hr as [?|E]; [done|]. destruct Hni. rewrite E. by apply list_elem_of_fmap_2.
Qed.

(** The rows a plan loads. *)
Lemma readPlan_load_Ret p t w rows w' :
  readPlan_load p t w = (Ret rows, w') ->
  w_db w' = w_db w /\ w_srv w' = w_srv w /\ exactly (w_db w) t (planned p) (rp_reversed p) rows.
Proof.
  unfold readPlan_load. destruct (rp_all p) eqn:Eall.
  - unfold SqlRows_scan. intros (l & w1 & Es & Ev)%bind_Ret. apply scanRows_Ret in Es as (Hd & Hs & Hx & Ho).
    rewrite visitRows_pure, foldl_snoc in Ev. injection Ev as <- <-. split_and!; [done|done|split; [|done]].
    intros r. rewrite (Hx r). unfold planned, contains. cbn. rewrite Eall, bytes_leb_nil_l. cbn. naive_solver.
  - intros (seen1 & w1 & E1 & E)%bind_Ret. apply bind_Ret in E as (seen & w2 & E2 & [<- ->]%ret_Ret).
    apply (loadKeys_Ret _ _ (fun _ => False)) in E1 as (Hd1 & Hs1 & Hc1).
    2:{ intros k r. rewrite lookup_empty. naive_solver. }
    rewrite <- Hd1 in Hc1. apply (loadRanges_Ret _ _ _ _ _ _ _ Hc1) in E2 as (Hd2 & Hs2 & Hc2).
    rewrite Hd1 in Hc2. split; [congruence|]. split; [congruence|].
    assert (forall r, r ∈ isort byRowKey (map_vals seen) <->
      row_at (w_db w) t (key r) = Some r /\ planned p (key r)) as Hin.
    { intros r. rewrite elem_of_isort, elem_of_map_vals. unfold planned. rewrite Eall. split.
      - intros (k & [Hat HP]%Hc2). pose proof (key_row_at _ _ _ _ Hat) as ->. split; [done|]. naive_solver.
      - intros [Hat HP]. exists (key r). apply Hc2. split; [done|]. naive_solver. }
    assert (key_order false (isort byRowKey (map_vals seen))) as Ho.
    { apply sorted_keys_strict.
      - apply isort_sorted; unfold byRowKey; eauto with lbt.
      - rewrite isort_perm. assert (key <$> map_vals seen = map_keys seen) as ->; [|apply NoDup_map_keys].
        unfold map_vals, map_keys. rewrite <- list_fmap_compose. apply list_fmap_ext. intros i [k r] Hi.
        apply list_elem_of_lookup_2, elem_of_map_to_list, Hc2 in Hi as [Hat _]. cbn. by eapply key_row_at. }
    destruct (rp_reversed p); split; auto using key_order_reverse.
    intros r. by rewrite elem_of_reverse.
Qed.

(** A driver none of whose calls fails. *)
Definition reliable : Prop := forall n, driver n = None.

Lemma call_reliable {A : Type} (f : database blob -> outcome A * database blob) w :
  reliable -> (call f w).1 = (f (w_db w)).1.
Proof. intros Hrel. unfold call. rewrite Hrel. by destruct (f (w_db w)). Qed.

Lemma collect_total d t l :
  db_ok d -> (forall k b, (k, b) ∈ l -> stored_at d t k = Some b) ->
  exists rows, collectM (fun '(k, b) => row_Scan k b) l = Ret rows.
Proof.
  intros Hd. induction l as [|[k b] l IH]; intros Hl; cbn [collectM]; [by eexists|].
  pose proof (Hl k b ltac:(left)) as Hb. destruct (Hd _ _ _ Hb) as (r & Hr & _).
  unfold row_at in Hr. rewrite Hb in Hr. cbn in Hr.
  destruct (gob_decode b) as [m|] eqn:Em; [|done]. destruct IH as (rows & E); [set_solver|].
  assert (row_Scan k b = Ret (mkRow k m)) as -> by (unfold row_Scan; by rewrite Em).
  exists (mkRow k m :: rows). cbn [mbind outcome_bind]. by rewrite E.
Qed.

Lemma scanRows_total t rng rev w :
  reliable -> db_ok (w_db w) -> exists rows w', scanRows t rng rev w = (Ret rows, w').
Proof.
  intros Hrel Hd. unfold scanRows. destruct (kr_empty rng); [by eexists _, _|].
  destruct (collect_total (w_db w) t
    (if rev then reverse (selectRows t (w_db w) rng) else selectRows t (w_db w) rng) Hd) as (rows & E).
  { intros k b Hin. apply (elem_of_selectRows t (w_db w) rng k b). destruct rev; [by apply elem_of_reverse|done]. }
  eexists rows, _. apply run_Ret. rewrite call_reliable by done. exact E.
Qed.

Lemma load_total t k w :
  reliable -> db_ok (w_db w) -> exists o w', SqlRows_load t k w = (Ret o, w').
Proof.
  intros Hrel Hd. destruct (rows_t (w_db w) !! (sr_parent t, sr_tableId t, k)) as [b|] eqn:Eb.
  - destruct (Hd t k b Eb) as (r & Hr & _). exists (Some r). eexists. apply run_Ret. unfold SqlRows_load.
    rewrite call_reliable, Eb by done. unfold row_at, stored_at in Hr. rewrite Eb in Hr. cbn in *.
    unfold row_Scan. destruct (gob_decode b); [|done]. cbn in *. congruence.
  - exists None. eexists. apply run_Ret. unfold SqlRows_load. by rewrite call_reliable, Eb.
Qed.

Lemma loadKeys_total t keys : forall seen w,
  reliable -> db_ok (w_db w) -> exists seen' w', loadKeys t keys seen w = (Ret seen', w') /\ w_db w' = w_db w.
Proof.
  induction keys as [|k keys IH]; intros seen w Hrel Hd; cbn; [by eexists _, _|].
  destruct (seen !! k) as [r|]; [rewrite bind_run; cbn; by apply IH|].
  destruct (load_total t k w Hrel Hd) as (o & w1 & E). pose proof (readonly_load t k w) as Hw. rewrite E in Hw.
  cbn in Hw. rewrite !bind_run, E. cbn -[SqlRows_load]. rewrite <- Hw. apply IH; [done|]. by rewrite Hw.
Qed.

Lemma loadRanges_total t ranges : forall seen w,
  reliable -> db_ok (w_db w) -> exists seen' w', loadRanges t ranges seen w = (Ret seen', w').
Proof.
  induction ranges as [|rng ranges IH]; intros seen w Hrel Hd; cbn; [by eexists _, _|].
  destruct (scanRows_total t rng false w Hrel Hd) as (rows & w1 & E).
  pose proof (readonly_scanRows t rng false w) as Hw. rewrite E in Hw. cbn in Hw.
  rewrite bind_run. unfold SqlRows_scan at 1. rewrite bind_run, E, visitRows_pure. apply IH; [done|]. by rewrite Hw.
Qed.

Lemma readPlan_load_total p t w :
  reliable -> db_ok (w_db w) -> exists rows w', readPlan_load p t w = (Ret rows, w').
Proof.
  intros Hrel Hd. unfold readPlan_load. destruct (rp_all p).
  - unfold SqlRows_scan. destruct (scanRows_total t (mkKeyRange [] []) (rp_reversed p) w Hrel Hd) as (rows & w1 & E).
    rewrite bind_run, E, visitRows_pure. by eexists _, _.
  - destruct (loadKeys_total t (rp_keys p) ∅ w Hrel Hd) as (seen & w1 & E & Hw). rewrite bind_run, E.
    destruct (loadRanges_total t (rp_ranges p) seen w1 Hrel) as (seen' & w2 & E2); [by rewrite Hw|].
    rewrite bind_run, E2. by eexists _, _.
Qed.
End load.

(** ** What a read shows *)

(** What the table's families and GC policy, and the view, leave of a row. *)
Definition visible (target : dataTarget) (now : Z) (stored : row) : row :=
  let r := (gcWithChanges (known (dt_tbl target) stored) (gcRulesNoLock (dt_tbl target)) now).1 in
  match dt_view target with Some p => restrict p r | None => r end.

Lemma visible_normal target now stored :
  stored_row stored -> normal_row (visible target now stored) /\ key (visible target now stored) = key stored.
Proof.
  intros Hs. pose proof (stored_normal _ (known_stored (dt_tbl target) _ Hs)) as Hk.
  pose proof (gcWithChanges_normal _ (gcRulesNoLock (dt_tbl target)) now Hk) as Hn.
  pose proof (key_gcWithChanges _ (gcRulesNoLock (dt_tbl target)) now Hk) as Hkey.
  unfold visible. destruct (dt_view target) as [p|]; [|done]. split; [by eapply restrict_normal, row_ok_names|].
  unfold restrict. by destruct (negb _).
Qed.

Lemma restrict_denied p r : rowAllowed p (key r) = false -> isEmpty (restrict p r) = true.
Proof. intros E. unfold restrict. by rewrite E. Qed.

Lemma gc_col_incl rules now fam cs c : c ∈ gc_col rules now fam cs -> c ∈ cs.
Proof. unfold gc_col. destruct (rules !! fam); [|done]. intros Hc. eapply elem_of_sublist; [done|apply gc_keep_sublist]. Qed.

Lemma visible_small target now stored :
  stored_row stored -> small_row stored -> small_row (visible target now stored).
Proof.
  intros Hs Hsm fam col. apply list.Forall_forall. intros c Hc.
  assert (c ∈ cells_at stored fam col) as Hin; [|specialize (Hsm fam col); rewrite list.Forall_forall in Hsm; auto].
  pose proof (stored_normal _ (known_stored (dt_tbl target) _ Hs)) as Hk. unfold visible in Hc.
  assert (c ∈ cells_at (gcWithChanges (known (dt_tbl target) stored) (gcRulesNoLock (dt_tbl target)) now).1 fam col) as Hg.
  { destruct (dt_view target) as [p|]; [|done]. rewrite cells_at_restrict in Hc by (by apply gcWithChanges_normal).
    destruct (_ && _); [done|set_solver]. }
  rewrite cells_at_gcWithChanges in Hg by done. apply gc_col_incl in Hg. rewrite cells_at_known in Hg.
  case_decide; [done|set_solver].
Qed.

Lemma derived_small inp out : derived inp out -> small_row inp -> small_row out.
Proof.
  intros Hd Hs fam col. apply list.Forall_forall. intros c Hc. apply Hd in Hc as (c0 & Hc0 & _ & Hv).
  specialize (Hs fam col). rewrite list.Forall_forall in Hs. specialize (Hs _ Hc0). unfold small_cell in *.
  destruct Hv as [->| ->]; [done|]. cbn. lia.
Qed.

Lemma row_cells_nil r : normal_row r -> row_cells r = [] -> isEmpty r = true.
Proof.
  intros Hn E. apply isEmpty_spec. intros fam col. destruct (cells_at r fam col) as [|c cs] eqn:Ec; [done|].
  assert (c ∈ cells_at r fam col) as Hin by (rewrite Ec; left).
  apply elem_of_row_cells in Hin; [|done]. rewrite E in Hin. set_solver.
Qed.

Section answers.
Context {blob : Type} `{!Gob blob} `{!Env}.
Context {regexp : Type} (Compile : bytes -> option regexp) (MatchString : regexp -> bytes -> bool).
Implicit Types (w : world blob) (d : database blob).

(** What a stored row contributes: the filtered visible row. *)
Definition shows (target : dataTarget) (f : option RowFilter) (stored r : row) : Prop :=
  exists now, let v := visible target now stored in
    if isEmpty v then r = v
    else exists draws draws' ok, filterRow Compile MatchString random f v draws = Ret (r, ok, draws').

Definition readable_filter (f : option RowFilter) : Prop :=
  validateFilter Compile f = Ret tt /\ option_all (fun f => wire_filter f = true) f.

(** Rows a client can be sent. *)
Definition sendable (stored : row) : Prop := stored_row stored /\ key stored <> [] /\ small_row stored.

Lemma shows_row target f stored r :
  readable_filter f -> sendable stored -> shows target f stored r ->
  normal_row r /\ key r = key stored /\ small_row r.
Proof.
  intros [Hv Hw] (Hs & Hk & Hsm) (now & Hsh). cbn zeta in Hsh.
  destruct (visible_normal target now stored Hs) as [Hn Hkey].
  pose proof (visible_small target now stored Hs Hsm) as Hvs.
  destruct (isEmpty (visible target now stored)); [by subst r|].
  destruct Hsh as (draws & draws' & ok & E).
  destruct (filterRow_ok Compile MatchString random f _ draws Hv Hw Hn) as (r' & draws2 & E' & Hn' & Hk' & Hd).
  rewrite E in E'. injection E' as -> _ _. split; [done|]. split; [congruence|]. by eapply derived_small.
Qed.

Lemma gcNow_run rules r w :
  exists now w', gcNow rules r w = (Ret (gcWithChanges r rules now), w') /\ w_db w' = w_db w /\ w_srv w' = w_srv w.
Proof.
  unfold gcNow. case_decide as Hd; [|by eexists _, _].
  exists 0, w. split; [|done]. unfold gcWithChanges. by rewrite decide_True.
Qed.

Lemma readRow_run target f stats stored w :
  readable_filter f -> stored_row stored ->
  exists r stats' w', readRow Compile MatchString target f stats stored w = (Ret (stats', stored_form r), w') /\
    w_db w' = w_db w /\ shows target f stored r /\
    rowsReturned stats' = rowsReturned stats + (if isEmpty r then 0 else 1).
Proof.
  intros [Hv Hw] Hs. unfold readRow. destruct (gcNow_run (gcRulesNoLock (dt_tbl target)) (known (dt_tbl target) stored) w)
    as (now & w1 & E & Hd & _). rewrite bind_run, E. cbn beta iota zeta.
  destruct (visible_normal target now stored Hs) as [Hn Hk].
  assert (forall r0 : row, (let v := visible target now stored in if isEmpty v then r0 = v else
    exists draws draws' ok, filterRow Compile MatchString random f v draws = Ret (r0, ok, draws')) ->
    shows target f stored r0) as Hshow by (intros r0 Hr0; by exists now).
  unfold visible in Hn, Hk, Hshow. destruct (gcWithChanges _ _ _) as [g gch]. cbn [fst] in *.
  assert (match dt_view target with Some p => negb (rowAllowed p (key g)) | None => false end = true ->
    isEmpty (match dt_view target with Some p => restrict p g | None => g end) = true) as Hden.
  { destruct (dt_view target) as [p|]; [|done]. intros E'%negb_true_iff. by apply restrict_denied. }
  set (v := match dt_view target with Some p => restrict p g | None => g end) in *.
  assert (isEmpty v = true -> exists r stats' w', (mret (stats, None) : M blob (readStats * option row)) w1 =
    (Ret (stats', stored_form r), w') /\ w_db w' = w_db w /\ shows target f stored r /\
    rowsReturned stats' = rowsReturned stats + (if isEmpty r then 0 else 1)) as Hskip.
  { intros Ev. exists v, stats, w1. unfold stored_form. rewrite Ev, Z.add_0_r. split_and!; try done.
    apply Hshow. cbn zeta. by rewrite Ev. }
  destruct (match dt_view target with Some p => negb (rowAllowed p (key g)) | None => false end);
    [by apply Hskip, Hden|].
  destruct (isEmpty v) eqn:Ev; [by apply Hskip|]. rewrite bind_run. unfold filterRowNow at 1.
  destruct (filterRow_ok Compile MatchString random f v (w_draws w1) Hv Hw Hn) as (r & draws' & Ef & _).
  rewrite Ef. cbn beta iota. assert (shows target f stored r) as Hsh.
  { apply Hshow. eauto. }
  destruct (isEmpty r) eqn:Er; eexists r, _, _; unfold stored_form; rewrite Er; (split; [reflexivity|]); cbn;
    split_and!; try done; lia.
Qed.

(** The answer to the loaded rows, [n] rows having been returned before. *)
Inductive answers (target : dataTarget) (f : option RowFilter) (limit : Z) : Z -> list row -> list row -> Prop :=
| answers_end n : answers target f limit n [] []
| answers_limit n rows : 0 < limit -> limit <= n -> answers target f limit n rows []
| answers_row n stored rows r out :
    (0 < limit -> n < limit) -> shows target f stored r -> isEmpty r = false ->
    answers target f limit (n + 1) rows out -> answers target f limit n (stored :: rows) (r :: out)
| answers_skip n stored rows r out :
    (0 < limit -> n < limit) -> shows target f stored r -> isEmpty r = true ->
    answers target f limit n rows out -> answers target f limit n (stored :: rows) out.

Lemma readLoop_run cb rb target f limit rows : forall ww stats w acc,
  (1 <= cb)%nat -> readable_filter f -> Forall sendable rows -> writer_ok ww acc ->
  exists out ww' stats' w',
    readLoop Compile MatchString cb rb target f limit rows ww stats w = (Ret (ww', stats', None), w') /\
    w_db w' = w_db w /\ answers target f limit (rowsReturned stats) rows out /\
    writer_ok ww' (acc ++ ((fun r => (key r, row_cells r)) <$> out)) /\
    rowsReturned stats' = rowsReturned stats + Z.of_nat (length out).
Proof.
  induction rows as [|stored rows IH]; intros ww stats w acc Hcb Hf Hs Hw; cbn [readLoop].
  { exists [], ww, stats, w. rewrite app_nil_r, Z.add_0_r. split_and!; try done. constructor. }
  apply Forall_cons in Hs as [Hst Hs].
  destruct ((0 <? limit) && (limit <=? rowsReturned stats)) eqn:El.
  { apply andb_true_iff in El as [El1%Z.ltb_lt El2%Z.leb_le].
    exists [], ww, stats, w. rewrite app_nil_r, Z.add_0_r. split_and!; try done. by constructor. }
  assert (0 < limit -> rowsReturned stats < limit) as Hlim.
  { intros Hl%Z.ltb_lt. rewrite Hl in El. by apply Z.leb_gt. }
  destruct (readRow_run target f stats stored w Hf (proj1 Hst)) as (r & stats1 & w1 & E & Hd & Hsh & Hn).
  rewrite bind_run. unfold catch. rewrite E. unfold stored_form.
  destruct (shows_row _ _ _ _ Hf Hst Hsh) as (Hnr & Hkr & Hsr). destruct (isEmpty r) eqn:Er.
  - destruct (IH ww stats1 w1 acc Hcb Hf Hs Hw) as (out & ww' & stats' & w' & E' & Hd' & Ha & Hw' & Hn').
    exists out, ww', stats', w'. rewrite Hn, Z.add_0_r in *. split_and!; try done; [congruence|by eapply answers_skip].
  - destruct Hst as (_ & Hk & _). destruct (writeRow_ok cb rb Hcb ww acc r Hw) as (ww1 & Ew & Hw1);
      [by eapply row_ok_names|congruence|done| |].
    { intros E'. by rewrite (row_cells_nil r Hnr E') in Er. }
    rewrite bind_run. unfold lift. rewrite Ew.
    destruct (IH ww1 stats1 w1 _ Hcb Hf Hs Hw1) as (out & ww' & stats' & w' & E' & Hd' & Ha & Hw' & Hn').
    exists (r :: out), ww', stats', w'. rewrite Hn in *. rewrite <- app_assoc in Hw'.
    split_and!; try done; [congruence|by eapply answers_row|cbn [length]; lia].
Qed.

(** ** What an answer means *)

Section meaning.
Context (target : dataTarget) (f : option RowFilter) (limit : Z).

Lemma answers_length n rows out :
  answers target f limit n rows out -> 0 < limit -> n <= limit -> Z.of_nat (length out) <= limit - n.
Proof.
  induction 1 as [n|n rows Hl Hn|n stored rows r out Hn Hsh Hr Ha IH|n stored rows r out Hn Hsh Hr Ha IH];
    intros Hpos Hle; cbn [length]; try lia.
Qed.

Lemma answers_sound n rows out r :
  answers target f limit n rows out -> r ∈ out ->
  isEmpty r = false /\ exists stored, stored ∈ rows /\ shows target f stored r.
Proof.
  induction 1 as [n|n rows Hl Hn|n stored rows r0 out Hn Hsh Hr Ha IH|n stored rows r0 out Hn Hsh Hr Ha IH]; intros Hin.
  - set_solver.
  - set_solver.
  - apply elem_of_cons in Hin as [->|Hin]; [split; [done|]; exists stored; split; [left|done]|].
    destruct (IH Hin) as (He & st & Hst & Hs'). split; [done|]. exists st. split; [by right|done].
  - destruct (IH Hin) as (He & st & Hst & Hs'). split; [done|]. exists st. split; [by right|done].
Qed.

Lemma answers_keys n rows out :
  readable_filter f -> Forall sendable rows -> answers target f limit n rows out -> (key <$> out) `sublist_of` (key <$> rows).
Proof.
  intros Hf Hs Ha. induction Ha as [n|n rows Hl Hn|n stored rows r out Hn Hsh Hr Ha IH|n stored rows r out Hn Hsh Hr Ha IH];
    [done|apply sublist_nil_l| |]; apply Forall_cons in Hs as [Hst Hs]; cbn.
  - destruct (shows_row _ _ _ _ Hf Hst Hsh) as (_ & -> & _). apply sublist_skip. auto.
  - apply sublist_cons. auto.
Qed.

(** Every loaded row is answered, or comes after a full answer. *)
Lemma answers_complete rev n rows out stored :
  readable_filter f -> Forall sendable rows -> key_order rev rows -> answers target f limit n rows out -> stored ∈ rows ->
  (exists r, shows target f stored r /\ (isEmpty r = true \/ r ∈ out)) \/
  (0 < limit <= n + Z.of_nat (length out) /\ Forall (fun r => key_before rev (key r) (key stored)) out).
Proof.
  intros Hf Hs Ho Ha. revert Hs Ho.
  induction Ha as [n|n rows Hl Hn|n st rows r out Hn Hsh Hr Ha IH|n st rows r out Hn Hsh Hr Ha IH]; intros Hs Ho Hin.
  - set_solver.
  - right. cbn. split; [lia|constructor].
  - apply Forall_cons in Hs as [Hst Hs]. apply StronglySorted_inv in Ho as [Ho Hall].
    apply elem_of_cons in Hin as [->|Hin]; [left; exists r; split; [done|right; left]|].
    destruct (IH Hs Ho Hin) as [(r' & Hsh' & Hr')|[Hlen Hbef]].
    + left. exists r'. split; [done|]. destruct Hr' as [?|?]; [by left|right; by right].
    + right. cbn [length]. split; [lia|]. constructor; [|done].
      destruct (shows_row _ _ _ _ Hf Hst Hsh) as (_ & -> & _). rewrite list.Forall_forall in Hall.
      by apply Hall, list_elem_of_fmap_2.
  - apply Forall_cons in Hs as [Hst Hs]. apply StronglySorted_inv in Ho as [Ho Hall].
    apply elem_of_cons in Hin as [->|Hin]; [left; exists r; split; [done|by left]|]. by apply IH.
Qed.
End meaning.
End answers.

(** ** Samples *)

Section samples.
Context (every : Z) (view : option viewPolicy) (rng : keyRange).

Lemma passSplits_spec upto splits : forall st,
  exists passed rest, splits = passed ++ rest /\
    Forall (fun s => match upto with Some k => bytes_leb s k = true | None => True end) passed /\
    (upto = None -> rest = []) /\
    passSplits rng upto st splits =
      mkSample (sm_samples st ++ ((fun s => (s, sm_offset st)) <$>
          filter (fun s => contains rng s && bytes_ltb (sm_lastKey st) s = true) passed))
        (sm_offset st) (sm_sinceLast st) (sm_lastKey st) rest.
Proof.
  induction splits as [|s splits IH]; intros st; cbn [passSplits].
  { exists [], []. cbn. by rewrite app_nil_r. }
  destruct (match upto with Some k => bytes_leb s k | None => true end) eqn:E.
  - match goal with |- context [passSplits _ _ ?st' splits] => destruct (IH st') as (passed & rest & Esp & Hall & Hn & ->) end.
    exists (s :: passed), rest. split; [cbn; congruence|].
    split; [constructor; [by destruct upto|done]|]. split; [done|]. cbn [sm_samples sm_offset sm_sinceLast sm_lastKey].
    rewrite filter_cons. destruct (contains rng s && bytes_ltb (sm_lastKey st) s) eqn:Ec.
    + rewrite decide_True by done. cbn. by rewrite <- app_assoc.
    + rewrite decide_False by congruence. done.
  - exists [], (s :: splits). cbn. rewrite app_nil_r. destruct upto; [|done]. split_and!; done.
Qed.

(** Weakly increasing samples, as they are collected. *)
Definition sample_le (a b : bytes * Z) : Prop := bytes_leb a.1 b.1 = true /\ a.2 <= b.2.

Record sample_ok (st : sampleState) (s : bytes * Z) : Prop := {
  so_key : s.1 <> []; so_bytes : all_bytes s.1; so_in : contains rng s.1 = true; so_offset : s.2 <= sm_offset st }.

Record samples_ok (st : sampleState) : Prop := {
  sk_sorted : StronglySorted sample_le (sm_samples st);
  sk_each : Forall (sample_ok st) (sm_samples st);
  sk_splits : strings_sorted (sm_splits st);
  sk_bytes : Forall all_bytes (sm_splits st) }.

Definition behind (st : sampleState) : Prop := Forall (fun s => bytes_leb s.1 (sm_lastKey st) = true) (sm_samples st).

Lemma StronglySorted_app_2 {A : Type} (R : A -> A -> Prop) l1 l2 :
  StronglySorted R l1 -> StronglySorted R l2 -> (forall x y, x ∈ l1 -> y ∈ l2 -> R x y) -> StronglySorted R (l1 ++ l2).
Proof.
  induction 1 as [|x l1 Hl IH Hx]; intros H2 Hxy; cbn; [done|]. constructor.
  - apply IH; [done|]. intros y z Hy. apply Hxy. by right.
  - apply Forall_app. split; [done|]. apply list.Forall_forall. intros y Hy. apply Hxy; [left|done].
Qed.

Lemma bytes_ltb_nonempty a b : bytes_ltb a b = true -> b <> [].
Proof. by destruct a, b. Qed.

Lemma passSplits_ok upto st :
  samples_ok st -> behind st ->
  let st' := passSplits rng upto st (sm_splits st) in
  samples_ok st' /\ sm_offset st' = sm_offset st /\ sm_lastKey st' = sm_lastKey st /\
  Forall (fun s => bytes_leb s.1 (sm_lastKey st) = true \/
    match upto with Some k => bytes_leb s.1 k = true | None => True end) (sm_samples st').
Proof.
  intros [Hs He Hsp Hb] Hbeh. destruct (passSplits_spec upto (sm_splits st) st) as (passed & rest & Esp & Hall & _ & E).
  cbn zeta. rewrite E, Esp in *. clear E Esp. apply Forall_app in Hb as [Hbp Hbr].
  set (new := filter _ passed). assert (forall s, s ∈ new -> s ∈ passed /\ contains rng s = true /\ bytes_ltb (sm_lastKey st) s = true) as Hnew.
  { intros s. unfold new. rewrite list_elem_of_filter, andb_true_iff. tauto. }
  assert (new `sublist_of` passed) as Hsub by apply sublist_filter.
  rewrite list.Forall_forall in Hall, Hbp. unfold behind in Hbeh. rewrite list.Forall_forall in Hbeh.
  split_and!; cbn [sm_offset sm_lastKey sm_samples]; try done.
  - constructor; cbn [sm_samples sm_splits sm_offset].
    + apply StronglySorted_app_2; [done| |].
      * assert (strings_sorted new) as Hns.
        { eapply StronglySorted_sublist; [|exact Hsp]. eapply sublist_inserts_r. done. }
        clear -Hns. induction Hns as [|s l Hl IH Hx]; cbn; constructor; [done|]. apply Forall_fmap.
        eapply Forall_impl; [exact Hx|]. intros y Hy. split; [done|]. cbn. lia.
      * intros x y Hx Hy. apply list_elem_of_fmap in Hy as (s & -> & (_ & _ & Hlt)%Hnew).
        rewrite list.Forall_forall in He. split; [|by apply He].
        apply bytes_leb_cases. left. eapply bytes_leb_ltb_trans; [|exact Hlt]. by apply Hbeh.
    + apply Forall_app. split; [eapply Forall_impl; [exact He|]; by intros s []|].
      apply list.Forall_forall. intros x (s & -> & (Hin & Hc & Hlt)%Hnew)%list_elem_of_fmap.
      constructor; cbn; auto; [by eapply bytes_ltb_nonempty|lia].
    + eapply StronglySorted_sublist; [|exact Hsp]. by apply sublist_inserts_l.
    + done.
  - apply Forall_app. split; apply list.Forall_forall; intros x Hx; [left; by apply Hbeh|right].
    apply list_elem_of_fmap in Hx as (s & -> & (Hin & _)%Hnew). by apply Hall.
Qed.
(** What a row adds to the offset. *)
Definition sampled_size (r : row) : Z :=
  match view with
  | None => Rows.size r
  | Some p => if rowAllowed p (key r) && negb (isEmpty (restrict p r)) then Rows.size (restrict p r) else 0
  end.

Lemma key_restrict p r : key (restrict p r) = key r.
Proof. unfold restrict. by destruct (negb _). Qed.

(** The callback on a row the view shows, [r] being the shown row. *)
Lemma sampleRow_shown st r :
  samples_ok st -> behind st -> 0 <= Rows.size r -> all_bytes (key r) -> contains rng (key r) = true ->
  bytes_ltb (sm_lastKey st) (key r) = true ->
  let st' := sampleRow every None rng st r in
  samples_ok st' /\ behind st' /\ sm_offset st' = sm_offset st + Rows.size r /\ sm_lastKey st' = key r.
Proof.
  intros Hok Hbeh Hsz Hb Hin Hlt. unfold sampleRow. cbn beta iota zeta.
  destruct (passSplits_ok (Some (key r)) st Hok Hbeh) as ([Hs He Hsp Hsb] & Ho & _ & Hall).
  set (st1 := passSplits rng (Some (key r)) st (sm_splits st)) in *.
  assert (Forall (fun s => bytes_leb s.1 (key r) = true) (sm_samples st1)) as Hle.
  { eapply Forall_impl; [exact Hall|]. intros s [Hs'|Hs']; [|done]. cbn in *.
    eapply bytes_leb_trans; [exact Hs'|]. apply bytes_leb_cases. by left. }
  assert (Forall (sample_ok (mkSample [] (sm_offset st1 + Rows.size r) 0 [] [])) (sm_samples st1)) as He'.
  { eapply Forall_impl; [exact He|]. intros s [? ? ? ?]. constructor; cbn; auto. lia. }
  destruct (every <=? _); cbn [sm_offset sm_lastKey]; (split; [constructor|split; [|split; [lia|done]]]);
    cbn [sm_samples sm_splits sm_offset]; try done.
  - apply StronglySorted_app_2; [done|by repeat constructor|].
    intros x y Hx ->%list_elem_of_singleton. rewrite list.Forall_forall in He', Hle.
    split; [by apply Hle|]. apply (He' _ Hx).
  - apply Forall_app. split; [eapply Forall_impl; [exact He'|]; intros s []; by constructor|].
    constructor; [|done]. constructor; cbn; auto; [by eapply bytes_ltb_nonempty|lia].
  - apply Forall_app. split; [done|]. constructor; [|done]. apply bytes_leb_refl.
  - eapply Forall_impl; [exact He'|]. intros s []. by constructor.
Qed.

Lemma sampleRow_ok st r :
  samples_ok st -> behind st -> (forall r, 0 <= Rows.size r) -> all_bytes (key r) -> contains rng (key r) = true ->
  bytes_ltb (sm_lastKey st) (key r) = true ->
  let st' := sampleRow every view rng st r in
  samples_ok st' /\ behind st' /\ sm_offset st' = sm_offset st + sampled_size r /\
  bytes_leb (sm_lastKey st') (key r) = true.
Proof.
  intros Hok Hbeh Hsz Hb Hin Hlt. pose proof (proj2 (bytes_leb_cases _ _) (or_introl Hlt)) as Hle.
  assert (forall r', key r' = key r -> let st' := sampleRow every None rng st r' in
    samples_ok st' /\ behind st' /\ sm_offset st' = sm_offset st + Rows.size r' /\
    bytes_leb (sm_lastKey st') (key r) = true) as Hshown.
  { intros r' Hk. destruct (sampleRow_shown st r' Hok Hbeh) as (? & ? & ? & Hl); rewrite ?Hk; auto.
    cbn zeta. rewrite Hl, Hk. split_and!; auto. apply bytes_leb_refl. }
  unfold sampled_size. destruct view as [p|] eqn:Ev; [|by apply Hshown]. unfold sampleRow at 1 2 3 4. cbn zeta.
  destruct (rowAllowed p (key r)); cbn [negb andb]; [|rewrite Z.add_0_r; by split_and!].
  destruct (isEmpty (restrict p r)); cbn [negb]; [rewrite Z.add_0_r; by split_and!|].
  apply (Hshown (restrict p r)). apply key_restrict.
Qed.

Lemma sampleRows_ok rows : forall st,
  samples_ok st -> behind st -> (forall r, 0 <= Rows.size r) -> Forall (fun r => all_bytes (key r)) rows ->
  Forall (fun r => contains rng (key r) = true) rows -> key_order false rows ->
  Forall (fun r => bytes_ltb (sm_lastKey st) (key r) = true) rows ->
  let st' := foldl (sampleRow every view rng) st rows in
  samples_ok st' /\ behind st' /\ sm_offset st' = foldl (fun n r => n + sampled_size r) (sm_offset st) rows.
Proof.
  induction rows as [|r rows IH]; intros st Hok Hbeh Hsz Hb Hin Ho Hl; cbn [foldl]; [done|].
  apply Forall_cons in Hb as [Hbr Hb], Hin as [Hinr Hin], Hl as [Hlr Hl]. apply StronglySorted_inv in Ho as [Ho Hall].
  destruct (sampleRow_ok st r Hok Hbeh Hsz Hbr Hinr Hlr) as (Hok' & Hbeh' & Hoff & Hlast). rewrite <- Hoff.
  apply IH; try done. change (Forall (key_before false (key r)) (key <$> rows)) in Hall. rewrite Forall_fmap in Hall. eapply Forall_impl; [exact Hall|]. intros r' Hr'. cbn in *.
  by eapply bytes_leb_ltb_trans.
Qed.
End samples.

(** *** Sending the samples *)

Definition sample_lt (a b : bytes * Z) : Prop := bytes_ltb a.1 b.1 = true /\ a.2 <= b.2.

Lemma dropTrailing_spec k l :
  exists n, reverse l = reverse (dropTrailing k l) ++ n /\ Forall (fun s => s.1 = k) n /\
    match dropTrailing k l with [] => True | s :: _ => s.1 <> k end.
Proof.
  induction l as [|[k' o] l (n & E & Hn & Hh)]; cbn [dropTrailing]; [by exists []|].
  case_bool_decide as Hk.
  - exists (n ++ [(k', o)]). rewrite reverse_cons, E, <- app_assoc. split_and!; try done. apply Forall_app. by split; [|constructor].
  - exists []. rewrite app_nil_r. by split_and!.
Qed.

(** Sending a weakly increasing list sends a strictly increasing one. *)
Lemma sendSamples_strict l : forall prev,
  StronglySorted sample_le l ->
  Forall (fun s => match prev with Some k => bytes_leb k s.1 = true | None => True end) l ->
  StronglySorted sample_lt (sendSamples prev l) /\
  Forall (fun s => match prev with Some k => bytes_ltb k s.1 = true | None => True end) (sendSamples prev l) /\
  (forall s, s ∈ sendSamples prev l -> s ∈ l).
Proof.
  induction l as [|[k o] l IH]; intros prev Hs Hp; cbn [sendSamples]; [split_and!; [constructor|done|done]|].
  apply StronglySorted_inv in Hs as [Hs Hall]. apply Forall_cons in Hp as [Hk Hp].
  assert (Forall (fun s => bytes_leb k s.1 = true) l) as Hkl by (eapply Forall_impl; [exact Hall|]; by intros s [? _]).
  destruct (IH (Some k) Hs Hkl) as (H1 & H2 & H3). case_bool_decide as Hd.
  - subst prev. split_and!; [done|done|]. intros s Hin. right. by apply H3.
  - split_and!.
    + constructor; [done|]. rewrite list.Forall_forall in *. intros s Hin. split; [by apply H2|]. by apply Hall, H3.
    + constructor.
      * destruct prev as [k'|]; [|done]. cbn in Hk. apply bytes_leb_cases in Hk as [?|?]; [done|congruence].
      * destruct prev as [k'|]; [|by apply Forall_true]. cbn in Hk. eapply Forall_impl; [exact H2|].
        intros s Hs'. cbn in *. by eapply bytes_leb_ltb_trans.
    + intros s [->|Hin]%elem_of_cons; [left|right; by apply H3].
Qed.

Lemma sendSamples_snoc e l : forall prev,
  match last l with Some s => s.1 <> e.1 | None => prev <> Some e.1 end ->
  sendSamples prev (l ++ [e]) = sendSamples prev l ++ [e].
Proof.
  induction l as [|[k o] l IH]; intros prev Hl; cbn [sendSamples app].
  - destruct e as [k o]. cbn in *. by rewrite bool_decide_eq_false_2.
  - rewrite last_cons in Hl. rewrite IH; [by case_bool_decide|]. destruct (last l); [done|]. cbn in Hl. congruence.
Qed.

Lemma last_reverse_head {A : Type} (l : list A) : last (reverse l) = head l.
Proof. destruct l as [|x l]; [done|]. by rewrite reverse_cons, last_snoc. Qed.

Lemma foldl_add_nonneg {A : Type} (g : Z -> A -> Z) l : (forall n x, n <= g n x) -> forall n, n <= foldl g n l.
Proof. intros Hg. induction l as [|x l IH]; intros n; cbn; [lia|]. etrans; [apply Hg|apply IH]. Qed.

Lemma size_nonneg r : 0 <= Rows.size r.
Proof.
  unfold Rows.size. etrans; [apply (Nat2Z.is_nonneg (length (key r)))|]. apply foldl_add_nonneg. intros n f.
  apply foldl_add_nonneg. intros m [col cs]. apply foldl_add_nonneg. intros. lia.
Qed.

(** The end of a sample list: the keys of the range lie before it. *)
Lemma sampleEnd_bound rr s :
  let rng := match rr with Some rr => rowRangeToKeyRange rr | None => mkKeyRange [] [] end in
  all_bytes s -> contains rng s = true -> sampleEnd rr rng = [] /\ kr_end rng = [] \/ bytes_leb s (sampleEnd rr rng) = true.
Proof.
  cbn zeta. intros Hb Hc. destruct rr as [[st en]|]; [|by left]. unfold sampleEnd. cbn [rr_end].
  apply contains_spec in Hc as [_ Hc]. unfold rowRangeToKeyRange in *. cbn [kr_start kr_end rr_end] in *.
  destruct en as [|b|b]; [by left| |].
  - destruct b as [|x b]; [by left|]. right. destruct Hc as [?|Hc]; [done|]. apply bytes_leb_cases. by left.
  - right. destruct Hc as [Hc|Hc]; [by destruct b|]. rewrite bytes_ltb_snoc0 in Hc by done. destruct (b ++ [0]) eqn:E; [by destruct b|done].
Qed.

Lemma samplesOf_spec every view rr splits rows :
  let rng := match rr with Some rr => rowRangeToKeyRange rr | None => mkKeyRange [] [] end in
  strings_sorted splits -> Forall all_bytes splits -> key_order false rows ->
  Forall (fun r => key r <> [] /\ all_bytes (key r) /\ contains rng (key r) = true) rows ->
  let end_ := sampleEnd rr rng in
  exists body total,
    samplesOf every view rr splits rows = body ++ [(end_, total)] /\
    total = foldl (fun n r => n + sampled_size view r) 0 rows /\
    StronglySorted sample_lt body /\
    Forall (fun s => contains rng s.1 = true /\ (end_ = [] \/ bytes_ltb s.1 end_ = true) /\ s.2 <= total) body.
Proof.
  cbn zeta. intros Hsp Hsb Ho Hrows. unfold samplesOf. set (rng := match rr with Some _ => _ | None => _ end) in *.
  destruct (sampleRows_ok every view rng rows (mkSample [] 0 0 [] splits)) as (Hok & Hbeh & Hoff); try done.
  { constructor; [constructor|constructor|done|done]. }
  { constructor. }
  { apply size_nonneg. }
  1-3: eapply Forall_impl; [exact Hrows|]; intros r (? & ? & ?); try done.
  { cbn. by destruct (key r). }
  set (st := foldl _ _ rows) in *. cbn [sm_offset] in Hoff.
  destruct (passSplits_ok rng None st Hok Hbeh) as ([Hs He _ _] & Ho' & _ & _). rewrite <- Hoff.
  set (st' := passSplits rng None st (sm_splits st)) in *. cbn zeta.
  destruct (dropTrailing_spec (sampleEnd rr rng) (reverse (sm_samples st'))) as (n & E & Hn & Hhead).
  rewrite reverse_involutive in E. set (kept := reverse (dropTrailing _ _)) in *.
  assert (StronglySorted sample_le kept) as Hks.
  { eapply StronglySorted_sublist; [|exact Hs]. rewrite E. apply sublist_inserts_r. done. }
  assert (match last kept with Some s => s.1 <> sampleEnd rr rng | None => True end) as Hlast.
  { unfold kept. rewrite last_reverse_head. by destruct (dropTrailing _ _). }
  rewrite (sendSamples_snoc (sampleEnd rr rng, sm_offset st')) by (destruct (last kept); done).
  exists (sendSamples None kept), (sm_offset st'). rewrite Ho'. split; [done|]. split; [done|].
  destruct (sendSamples_strict kept None Hks) as (Hstrict & _ & Hin); [by apply Forall_true|]. split; [done|].
  apply list.Forall_forall. intros s Hins. apply Hin in Hins. rewrite list.Forall_forall in He.
  assert (s ∈ sm_samples st') as Hss by (rewrite E; apply elem_of_app; by left).
  destruct (He _ Hss) as [Hne Hbs Hc Hof]. split; [done|]. split; [|by rewrite <- Ho'].
  destruct (sampleEnd_bound rr s.1 Hbs Hc) as [[? _]|Hle]; [by left|]. fold rng in Hle.
  apply bytes_leb_cases in Hle as [?|Heq]; [by right|]. right.
  (* a key equal to the end would be the last of the kept samples *)
  destruct (last kept) as [l|] eqn:El; [|apply last_None in El; rewrite El in Hins; set_solver].
  apply last_Some in El as (front & El). rewrite El in Hins, Hks.
  apply elem_of_app in Hins as [Hins| ->%list_elem_of_singleton]; [|done].
  assert (bytes_leb s.1 l.1 = true) as Hsl.
  { clear -Hks Hins. induction front as [|x front IH]; [set_solver|]. apply StronglySorted_inv in Hks as [Hks Hall].
    apply elem_of_cons in Hins as [->|Hins]; [|by apply IH]. apply Forall_app in Hall as [_ [[? _] _]%Forall_cons]. done. }
  assert (l ∈ sm_samples st') as Hl by (rewrite E, El; set_solver).
  destruct (He _ Hl) as [_ Hbl Hcl _]. destruct (sampleEnd_bound rr l.1 Hbl Hcl) as [[Hz _]|Hll].
  - fold rng in Hz. rewrite Hz in Heq. done.
  - fold rng in Hll. destruct Hlast. rewrite Heq in Hsl. by apply bytes_leb_antisym.
Qed.

(** ** Properties *)

(** A read plan loads exactly the stored rows its row set selects (by key or
    by range, open and closed bounds as requested, everything when the set is
    absent or empty), each once, in key order or in reverse key order, leaving
    the database unchanged; when no driver call fails it always succeeds. *)
Theorem readPlan_load_spec {blob : Type} `{!Gob blob} `{!Env} rs rev t (w : world blob) :
  (forall rows w', readPlan_load (newReadPlan rs rev) t w = (Ret rows, w') ->
    w_db w' = w_db w /\ key_order rev rows /\
    forall r, all_bytes (key r) -> r ∈ rows <-> row_at (w_db w) t (key r) = Some r /\ selected rs (key r)) /\
  (reliable -> db_ok (w_db w) -> exists rows w', readPlan_load (newReadPlan rs rev) t w = (Ret rows, w')).
Proof.
  split; [|apply readPlan_load_total]. intros rows w' (Hd & _ & Hx & Ho)%readPlan_load_Ret.
  assert (rp_reversed (newReadPlan rs rev) = rev) as Hrev.
  { unfold newReadPlan. destruct rs; [|done]. by destruct (Nat.eqb _ _). }
  rewrite Hrev in Ho. split_and!; [done|done|]. intros r Hb. rewrite (Hx r), planned_selected by done. done.
Qed.

(** C7: ReadRows on a table or an authorized view answers correctly.  Once the
    request is validated and its rows are loaded, the handler succeeds, changes
    nothing in the database, and sends responses a client decodes one by one into
    a list of non-empty rows.  The rows come in the requested key order, no more
    than the limit; each is the filtered visible part (known families, garbage
    collected, restricted to the view) of a selected stored row; and every
    selected row is answered so, or shows nothing, or lies beyond a full limit.
    The stats count the rows returned. *)
Theorem ReadRows_spec {blob : Type} `{!Gob blob} `{!Env} {regexp : Type}
    (Compile : bytes -> option regexp) (MatchString : regexp -> bytes -> bool) cb rb
    (readable : bytes -> M blob unit) req (w : world blob) target w0 loaded w1 :
  resolveReadTarget (rr_TableName req) (rr_AuthorizedViewName req) (rr_MaterializedViewName req)
    (rr_AppProfileId req) w = (Ret target, w0) ->
  dt_mv target = None -> 0 <= rr_RowsLimit req -> 0 <= rr_RequestStatsView req <= 2 ->
  rr_Reversed req && isDataBoostProfile (dt_appProfile target) = false ->
  validateRowRanges (rr_Rows req) = Ret tt -> readable_filter Compile (rr_Filter req) ->
  readPlan_load (newReadPlan (rr_Rows req) (rr_Reversed req)) (table_rows (dt_tbl target)) w0 = (Ret loaded, w1) ->
  (1 <= cb)%nat -> (forall k r, row_at (w_db w) (table_rows (dt_tbl target)) k = Some r -> sendable r /\ all_bytes k) ->
  let limit := rr_RowsLimit req in
  let shown := shows Compile MatchString target (rr_Filter req) in
  exists sent out stats w',
    ReadRows Compile MatchString cb rb readable req w =
      (Ret ((Response_Chunks <$> sent) ++ (if rr_RequestStatsView req =? 2 then [Response_Stats stats] else []), None), w') /\
    w_db w' = w_db w /\ decodes sent out /\ rowsReturned stats = Z.of_nat (length out) /\
    key_order (rr_Reversed req) out /\ (0 < limit -> Z.of_nat (length out) <= limit) /\
    Forall (fun r => isEmpty r = false /\ exists stored,
      row_at (w_db w) (table_rows (dt_tbl target)) (key r) = Some stored /\
      selected (rr_Rows req) (key r) /\ shown stored r) out /\
    (forall k stored, row_at (w_db w) (table_rows (dt_tbl target)) k = Some stored -> selected (rr_Rows req) k ->
      (exists r, shown stored r /\ (isEmpty r = true \/ r ∈ out)) \/
      (0 < limit <= Z.of_nat (length out) /\ Forall (fun r => key_before (rr_Reversed req) (key r) k) out)).
Proof.
  intros Hres Hmv Hlim Hview Hboost Hranges Hfil Hload Hcb Hrows. cbn zeta.
  assert (w_db w0 = w_db w) as Hd0.
  { pose proof (readonly_resolveReadTarget (rr_TableName req) (rr_AuthorizedViewName req)
      (rr_MaterializedViewName req) (rr_AppProfileId req) w) as Hro. by rewrite Hres in Hro. }
  apply readPlan_load_Ret in Hload as Hl. destruct Hl as (Hd1 & _ & Hx & Ho). rewrite Hd0 in Hx.
  assert (rp_reversed (newReadPlan (rr_Rows req) (rr_Reversed req)) = rr_Reversed req) as Hrev.
  { unfold newReadPlan. destruct (rr_Rows req); [|done]. by destruct (Nat.eqb _ _). }
  rewrite Hrev in Ho.
  assert (Forall sendable loaded) as Hsend.
  { apply list.Forall_forall. intros r Hin. apply Hx in Hin as [Hat _]. by apply Hrows in Hat as [? _]. }
  destruct (readLoop_run Compile MatchString cb rb target (rr_Filter req) (rr_RowsLimit req) loaded newRowWriter
    (mkStats 0 0 0 0) w1 [] Hcb Hfil Hsend newRowWriter_ok) as (out & ww & stats & w' & E & Hd & Ha & Hw & Hn).
  exists (rw_sent (flush ww)), out, stats, w'. split_and!.
  - unfold ReadRows. rewrite bind_run, Hres, (proj2 (Z.ltb_ge _ _) Hlim), Hboost, !(proj2 (Z.leb_le _ _)) by lia.
    cbn [andb negb]. rewrite bind_run. unfold lift at 1. rewrite Hranges, bind_run. unfold lift at 1.
    rewrite (proj1 Hfil), Hmv, bind_run. cbn beta iota delta [mret M_ret]. rewrite bind_run. unfold mapErr.
    rewrite Hload, bind_run, E. destruct (_ =? 2); [done|]. by rewrite app_nil_r.
  - congruence.
  - by apply flush_decodes.
  - done.
  - unfold key_order in *. eapply StronglySorted_sublist; [|exact Ho]. by eapply answers_keys.
  - intros Hpos. eapply Z.le_trans; [eapply answers_length; [exact Ha|done|]|]; cbn; lia.
  - apply list.Forall_forall. intros r Hin.
    destruct (answers_sound Compile MatchString _ _ _ _ _ _ r Ha Hin) as (He & stored & Hst & Hsh). split; [done|].
    rewrite list.Forall_forall in Hsend.
    destruct (shows_row Compile MatchString _ _ _ _ Hfil (Hsend _ Hst) Hsh) as (_ & -> & _).
    exists stored. apply Hx in Hst as [Hat HP]. split_and!; try done.
    apply Hrows in Hat as [_ Hb]. by apply (planned_selected _ (rr_Reversed req)).
  - intros k stored Hat Hsel. pose proof (key_row_at _ _ _ _ Hat) as <-.
    destruct (answers_complete Compile MatchString _ _ _ _ _ _ _ stored Hfil Hsend Ho Ha) as [?|?]; [|by left|by right].
    apply Hx. split; [done|]. apply planned_selected; [|done]. by apply Hrows in Hat as [_ ?].
Qed.

(** A read of the sample table with its stats. *)
Module SampleRead.
Definition req : ReadRowsRequest :=
  mkReadRows (table_name SampleWorld.tbl) [] [] [] (Some (mkRowSet [[107]] [])) None 1 false 2.
Definition sample : SampleRowKeysRequest := mkSampleRowKeys (table_name SampleWorld.tbl) [] [] [] None.
Definition readable (_ : bytes) : M (gmap bytes family) unit := mret tt.
Definition target : dataTarget := mkDataTarget SampleWorld.tbl None None None (table_name SampleWorld.tbl).

Lemma stored_row1 t k r : row_at SampleWorld.db0 t k = Some r -> k = [107] /\ r = Sample.row1.
Proof.
  unfold row_at, stored_at, SampleWorld.db0. cbn [rows_t]. intros (b & Hb & Hr)%bind_Some.
  apply lookup_singleton_Some in Hb as [Hk <-]. destruct t as [p i]. cbn in Hk. injection Hk as _ _ <-.
  cbn in Hr. by injection Hr as <-.
Qed.

Lemma row1_sendable : sendable Sample.row1.
Proof.
  split; [apply Sample.row1_stored|]. split; [done|].
  intros fam col. apply list.Forall_forall. intros c Hc.
  apply elem_of_row_cells in Hc; [|apply stored_normal, Sample.row1_stored].
  assert (Forall (fun x => Z.of_nat (length (Value x.2)) = 1) (row_cells Sample.row1)) as Hall
    by (eapply bool_decide_eq_true_1; vm_compute; reflexivity).
  rewrite list.Forall_forall in Hall. specialize (Hall _ Hc). unfold small_cell. cbn in Hall. lia.
Qed.

Lemma db0_sendable t k r : row_at SampleWorld.db0 t k = Some r -> sendable r /\ all_bytes k.
Proof. intros [-> ->]%stored_row1. split; [apply row1_sendable|]. by repeat constructor. Qed.
End SampleRead.

Lemma ReadRows_spec_witness :
  exists sent out stats w',
    ReadRows (H := SampleWorld.working) Literal.Compile Literal.MatchString 1 1 SampleRead.readable SampleRead.req
      SampleWorld.world0 = (Ret ((Response_Chunks <$> sent) ++ [Response_Stats stats], None), w') /\
    decodes sent out /\ rowsReturned stats = Z.of_nat (length out).
Proof.
  destruct (ReadRows_spec (H := SampleWorld.working) Literal.Compile Literal.MatchString 1 1 SampleRead.readable
    SampleRead.req SampleWorld.world0 SampleRead.target SampleWorld.world0 [Sample.row1]
    (readPlan_load (H := SampleWorld.working) (newReadPlan (rr_Rows SampleRead.req) false)
      (table_rows SampleWorld.tbl) SampleWorld.world0).2)
    as (sent & out & stats & w' & E & _ & Hd & Hn & _).
  - vm_compute. reflexivity.
  - reflexivity.
  - vm_compute. discriminate.
  - vm_compute. split; discriminate.
  - reflexivity.
  - vm_compute. reflexivity.
  - split; [reflexivity|exact I].
  - apply run_Ret. vm_compute. reflexivity.
  - lia.
  - intros k r. apply SampleRead.db0_sendable.
  - exists sent, out, stats, w'. auto.
Defined.

(** SampleRowKeys on a table or an authorized view answers split points with
    strictly increasing keys inside the requested range and non-decreasing
    offsets, followed by one final sample: the end key of the range, or the
    empty key for the end of the table, with the total size of the rows the
    target shows in the range. *)
Theorem SampleRowKeys_spec {blob : Type} `{!Gob blob} `{!Env} every (readable : bytes -> M blob unit) req
    (w : world blob) target w0 rows w1 :
  let rng := match sk_RowRange req with Some rr => rowRangeToKeyRange rr | None => mkKeyRange [] [] end in
  resolveReadTarget (sk_TableName req) (sk_AuthorizedViewName req) (sk_MaterializedViewName req)
    (sk_AppProfileId req) w = (Ret target, w0) ->
  dt_mv target = None -> scanRows (table_rows (dt_tbl target)) rng false w0 = (Ret rows, w1) ->
  strings_sorted (t_initialSplits (dt_tbl target)) -> Forall all_bytes (t_initialSplits (dt_tbl target)) ->
  (forall k r, row_at (w_db w) (table_rows (dt_tbl target)) k = Some r -> k <> [] /\ all_bytes k) ->
  let end_ := sampleEnd (sk_RowRange req) rng in
  exists body total w',
    SampleRowKeys every readable req w = (Ret (body ++ [(end_, total)]), w') /\ w_db w' = w_db w /\
    exactly (w_db w) (table_rows (dt_tbl target)) (fun k => contains rng k = true) false rows /\
    total = foldl (fun n r => n + sampled_size (dt_view target) r) 0 rows /\
    StronglySorted sample_lt body /\
    Forall (fun s => contains rng s.1 = true /\ (end_ = [] \/ bytes_ltb s.1 end_ = true) /\ s.2 <= total) body.
Proof.
  cbn zeta. intros Hres Hmv Hscan Hsp Hsb Hkeys. set (rng := match sk_RowRange req with Some _ => _ | None => _ end) in *.
  assert (w_db w0 = w_db w) as Hd0.
  { pose proof (readonly_resolveReadTarget (sk_TableName req) (sk_AuthorizedViewName req)
      (sk_MaterializedViewName req) (sk_AppProfileId req) w) as Hro. by rewrite Hres in Hro. }
  apply scanRows_Ret in Hscan as Hl. destruct Hl as (Hd1 & _ & Hx). rewrite Hd0 in Hx.
  destruct (samplesOf_spec every (dt_view target) (sk_RowRange req) (t_initialSplits (dt_tbl target)) rows Hsp Hsb (proj2 Hx))
    as (body & total & E & Htot & Hs & Hall).
  { apply list.Forall_forall. intros r [Hat Hc]%Hx. apply Hkeys in Hat as [? ?]. done. }
  exists body, total, w1. split_and!; try done; [|congruence].
  unfold SampleRowKeys. rewrite bind_run, Hres, Hmv, bind_run. cbn beta iota delta [mret M_ret]. rewrite bind_run.
  unfold mapErr, SqlRows_scan. fold rng. rewrite bind_run, Hscan, visitRows_pure, foldl_snoc. cbn [app].
  exact (f_equal (fun l => (Ret l, w1)) E).
Qed.

Lemma SampleRowKeys_spec_witness :
  exists body total w',
    SampleRowKeys (H := SampleWorld.working) 1 SampleRead.readable SampleRead.sample SampleWorld.world0 =
      (Ret (body ++ [([], total)]), w') /\ StronglySorted sample_lt body.
Proof.
  destruct (SampleRowKeys_spec (H := SampleWorld.working) 1 SampleRead.readable SampleRead.sample SampleWorld.world0
    SampleRead.target SampleWorld.world0 [Sample.row1]
    (scanRows (H := SampleWorld.working) (table_rows SampleWorld.tbl) (mkKeyRange [] []) false SampleWorld.world0).2)
    as (body & total & w' & E & _ & _ & _ & Hs & _).
  - vm_compute. reflexivity.
  - reflexivity.
  - apply run_Ret. vm_compute. reflexivity.
  - constructor.
  - constructor.
  - intros k r [-> _]%SampleRead.stored_row1. split; [done|]. by repeat constructor.
  - exists body, total, w'. auto.
Defined.
