(* ===== verification/KeyCodec.v ===== *)
(** * The row-key codec

    [internal/gsql/keycodec.go]: the OrderedCode encoding of signed integers,
    the escaped join of ordered-code fields, and the encoding of a row key by a
    row-key schema in its three struct encodings. *)

From S2P Require Import Prelude Proto Rows Server.
From stdpp Require Import base list gmap sorting.
From Stdlib Require Import ZArith Lia.

#[local] Open Scope Z_scope.

(** ** Ordered-code integers *)

(** [bits.Len64]. *)
Definition Len64 (x : Z) : Z := if x =? 0 then 0 else Z.log2 x + 1.

(** [^b] on a byte. *)
Definition byte_not (b : Z) : Z := Z.lxor b 255.

(** [for bits.Len64(x) > 7*n-1 { n++ }]; 64 bits need at most ten bytes. *)
Fixpoint orderedLen (fuel n : nat) (x : Z) : nat :=
  match fuel with
  | O => n
  | S fuel => if 7 * Z.of_nat n - 1 <? Len64 x then orderedLen fuel (S n) x else n
  end.

(** [for i := 0; i < n; i++ { enc[i/8] |= 0x80 >> (i % 8) }]. *)
Definition setPrefix (n : nat) (enc : bytes) : bytes :=
  foldl (fun enc i => alter (fun b => Z.lor b (Z.shiftr 128 (Z.of_nat (i mod 8)))) (i / 8)%nat enc) enc (seq 0 n).

(** [for i := 0; i < n; i++ { enc[i/8] &^= 0x80 >> (i % 8) }]. *)
Definition clearPrefix (n : nat) (enc : bytes) : bytes :=
  foldl (fun enc i => alter (fun b => Z.ldiff b (Z.shiftr 128 (Z.of_nat (i mod 8)))) (i / 8)%nat enc) enc (seq 0 n).

Definition appendOrderedInt64 (dst : bytes) (v : Z) : bytes :=
  let neg := v <? 0 in
  let x := if neg then to_u64 (Z.lnot (to_u64 v)) else to_u64 v in
  let n := orderedLen 10 1 x in
  let buf := [0; 0] ++ be_encode 8 x in
  let enc := setPrefix n (drop (10 - n) buf) in
  dst ++ (if neg then byte_not <$> enc else enc).

(** The loop that counts the leading ones; it ends by the eleventh. *)
Fixpoint countPrefix (fuel n : nat) (b : bytes) : outcome nat :=
  match fuel with
  | O => Err InvalidArgument
  | S fuel =>
      if (length b <=? n / 8)%nat then Err InvalidArgument
      else if Z.land (default 0 (b !! (n / 8)%nat)) (Z.shiftr 128 (Z.of_nat (n mod 8))) =? 0 then Ret n
      else if (10 <? S n)%nat then Err InvalidArgument
      else countPrefix fuel (S n) b
  end.

(** The part of the decoder that reads through [get]: [b] is what it shows. *)
Definition decodeMagnitude (b : bytes) : outcome (Z * nat) :=
  n ← countPrefix 11 0 b;
  if (n <? 1)%nat || (length b <? n)%nat then Err InvalidArgument
  else
    let enc := clearPrefix n (take n b) in
    if existsb (fun c => negb (c =? 0)) (take (n - 8) enc) then Err InvalidArgument
    else
      let x := be_decode (drop (n - 8) enc) in
      if int64_max <? x then Err InvalidArgument else Ret (x, n).

Definition decodeOrderedInt64 (b : bytes) : outcome (Z * nat) :=
  match b with
  | [] => Err InvalidArgument
  | b0 :: _ =>
      let neg := Z.land b0 128 =? 0 in
      '(x, n) ← decodeMagnitude (if neg then byte_not <$> b else b);
      let v := if neg then Z.lnot x else x in
      if negb (Nat.eqb (length (appendOrderedInt64 [] v)) n) then Err InvalidArgument
      else Ret (v, n)
  end.

(** ** Lemmas *)

Lemma Len64_spec x k : 0 <= x -> 0 <= k -> k < Len64 x <-> 2 ^ k <= x.
Proof.
  intros Hx Hk. unfold Len64. destruct (Z.eqb_spec x 0) as [->|Hne].
  - pose proof (Z.pow_pos_nonneg 2 k). lia.
  - rewrite (Z.log2_le_pow2 x k) by lia. lia.
Qed.

(** The largest magnitude of an [n]-byte code. *)
Definition code_bound (n : nat) : Z := 2 ^ (7 * Z.of_nat n - 1).

Lemma orderedLen_spec fuel n x :
  0 <= x < code_bound (n + fuel) -> (1 <= n)%nat -> (n = 1%nat \/ code_bound (n - 1) <= x) ->
  let m := orderedLen fuel n x in
  (n <= m <= n + fuel)%nat /\ x < code_bound m /\ (m = 1%nat \/ code_bound (m - 1) <= x).
Proof.
  revert n. induction fuel as [|fuel IH]; intros n Hx Hn Hlow; cbn [orderedLen].
  { rewrite Nat.add_0_r in *. split; [lia|]. tauto. }
  destruct (Z.ltb_spec (7 * Z.of_nat n - 1) (Len64 x)) as [Hlt|Hge].
  - destruct (IH (S n)) as (H1 & H2 & H3); [by rewrite Nat.add_succ_l, <- Nat.add_succ_r|lia| |].
    { right. replace (S n - 1)%nat with n by lia. apply Len64_spec; lia. }
    split; [lia|]. tauto.
  - split; [lia|]. split; [|done]. apply Z.nle_gt. intros Hle.
    apply (Len64_spec x (7 * Z.of_nat n - 1)) in Hle; lia.
Qed.

Lemma orderedLen_ok x :
  0 <= x < two63 ->
  let n := orderedLen 10 1 x in
  (1 <= n <= 10)%nat /\ x < code_bound n /\ (n = 1%nat \/ code_bound (n - 1) <= x).
Proof.
  intros Hx. destruct (orderedLen_spec 10 1 x) as (H1 & H2 & H3); [|lia|by left|].
  { assert (two63 <= code_bound (1 + 10)) by (vm_compute; done). lia. }
  split; [|done]. split; [lia|]. destruct (decide (orderedLen 10 1 x <= 10)%nat) as [|Hgt]; [done|].
  destruct H3 as [H3|H3]; [lia|]. replace (orderedLen 10 1 x) with 11%nat in H3 by lia.
  assert (two63 <= code_bound (11 - 1)) by (vm_compute; done). lia.
Qed.

(** The bytes of a code as a number. *)
Definition code_value (n : nat) (x : Z) : Z := x + (2 ^ Z.of_nat n - 1) * 2 ^ (7 * Z.of_nat n).

Definition coded (n : nat) (x : Z) : bytes := setPrefix n (drop (10 - n) ([0; 0] ++ be_encode 8 x)).

Lemma be_encode_add m x p :
  be_encode (S m) (x + p * 256 ^ Z.of_nat m) = (x / 256 ^ Z.of_nat m + p) mod 256 :: be_encode m x.
Proof.
  cbn [be_encode]. pose proof (pow256_pos m). rewrite shiftr_256, Z.div_add by lia. f_equal.
  rewrite <- (be_encode_mod m (x + _)), Z.mod_add, be_encode_mod by lia. done.
Qed.

(** Setting the first bits of a byte whose first bits are clear. *)
Definition setBits (n : nat) (h : Z) : Z :=
  foldl (fun b i => Z.lor b (Z.shiftr 128 (Z.of_nat (i mod 8)))) h (seq 0 n).

Lemma in_range (P : Z -> bool) n : forallb (fun i => P (Z.of_nat i)) (seq 0 n) = true -> forall h, 0 <= h < Z.of_nat n -> P h = true.
Proof.
  intros Hall h Hh. rewrite forallb_forall in Hall. specialize (Hall (Z.to_nat h)).
  rewrite Z2Nat.id in Hall by lia. apply Hall, in_seq. lia.
Qed.

Lemma setBits_add n h : (n <= 8)%nat -> 0 <= h < 2 ^ (8 - Z.of_nat n) -> setBits n h = h + (256 - 2 ^ (8 - Z.of_nat n)).
Proof.
  intros Hn Hh.
  assert (forall k, (k <= 8)%nat -> forallb (fun i => setBits k (Z.of_nat i) =? Z.of_nat i + (256 - 2 ^ (8 - Z.of_nat k)))
    (seq 0 (2 ^ (8 - k))) = true) as Hall.
  { intros k Hk. do 9 (destruct k as [|k]; [vm_compute; reflexivity|]). lia. }
  apply Z.eqb_eq. apply (in_range (fun h => setBits n h =? h + (256 - 2 ^ (8 - Z.of_nat n))) _ (Hall n Hn)).
  rewrite Nat2Z.inj_pow, Nat2Z.inj_sub by lia. exact Hh.
Qed.

Lemma pow_split n : (1 <= n <= 8)%nat -> code_bound n * 2 = 2 ^ (8 - Z.of_nat n) * 256 ^ Z.of_nat (n - 1).
Proof.
  intros Hn. unfold code_bound. change 256 with (2 ^ 8). rewrite <- Z.pow_mul_r, <- Z.pow_add_r by lia.
  rewrite <- (Z.pow_1_r 2) at 2. rewrite <- Z.pow_add_r by lia. f_equal. lia.
Qed.

(** A code is the big-endian form of its value. *)
Lemma coded_value n x :
  (1 <= n <= 10)%nat -> 0 <= x < code_bound n -> x < two63 -> coded n x = be_encode n (code_value n x).
Proof.
  intros Hn Hx Hmax. destruct (decide (n <= 8)%nat) as [Hle|Hgt].
  - assert (exists m, n = S m) as [m ->] by (exists (n - 1)%nat; lia).
    assert (coded (S m) x = setBits (S m) (Z.shiftr x (8 * Z.of_nat m) mod 256) :: be_encode m x) as ->.
    { do 8 (destruct m as [|m]; [reflexivity|]). lia. }
    pose proof (pow_split (S m) ltac:(lia)) as Hsplit. replace (S m - 1)%nat with m in Hsplit by lia.
    pose proof (pow256_pos m) as Hpos. set (q := 256 ^ Z.of_nat m) in *.
    assert (0 <= x / q < 2 ^ (8 - Z.of_nat (S m))) as Hq.
    { split; [apply Z.div_pos; lia|]. apply Z.div_lt_upper_bound; lia. }
    assert (2 ^ (8 - Z.of_nat (S m)) <= 256) as H256 by (apply (Z.pow_le_mono_r 2 _ 8); lia).
    rewrite shiftr_256. fold q. rewrite Z.mod_small, setBits_add by lia.
    unfold code_value. replace ((2 ^ Z.of_nat (S m) - 1) * 2 ^ (7 * Z.of_nat (S m)))
      with ((256 - 2 ^ (8 - Z.of_nat (S m))) * q).
    2:{ unfold q. change 256 with (2 ^ 8). rewrite <- Z.pow_mul_r by lia. rewrite !Z.mul_sub_distr_r, <- !Z.pow_add_r by lia.
        rewrite Z.mul_1_l. f_equal; f_equal; lia. }
    unfold q. rewrite be_encode_add. fold q. by rewrite Z.mod_small by lia.
  - assert (n = 9%nat \/ n = 10%nat) as [-> | ->] by lia.
    + change (coded 9 x) with (255 :: setBits 1 (Z.shiftr x (8 * Z.of_nat 7) mod 256) :: be_encode 7 x).
      unfold code_bound in Hx. cbn [Z.of_nat] in Hx. rewrite shiftr_256.
      assert (0 <= x / 256 ^ Z.of_nat 7 < 64) as Hq.
      { split; [apply Z.div_pos; lia|]. apply Z.div_lt_upper_bound; [lia|]. change (256 ^ Z.of_nat 7 * 64) with (2 ^ 62). lia. }
      rewrite Z.mod_small by lia. rewrite setBits_add by (cbn; lia).
      replace (code_value 9 x) with ((x + 128 * 256 ^ Z.of_nat 7) + 255 * 256 ^ Z.of_nat 8) by (unfold code_value; cbn; lia).
      rewrite be_encode_add, be_encode_add. f_equal.
      * rewrite Z.div_small; [done|]. change (256 ^ Z.of_nat 8) with (2 ^ 64). change (256 ^ Z.of_nat 7) with (2 ^ 56). lia.
      * f_equal. rewrite Z.mod_small; cbn; lia.
    + change (coded 10 x) with (255 :: 192 :: be_encode 8 x). unfold two63 in Hmax.
      replace (code_value 10 x) with ((x + 192 * 256 ^ Z.of_nat 8) + 255 * 256 ^ Z.of_nat 9) by (unfold code_value; cbn; lia).
      rewrite be_encode_add, be_encode_add. f_equal; [|f_equal].
      * rewrite Z.div_small; [done|]. change (256 ^ Z.of_nat 8) with (2 ^ 64). change (256 ^ Z.of_nat 9) with (2 ^ 72). lia.
      * rewrite Z.div_small; [done|]. change (256 ^ Z.of_nat 8) with (2 ^ 64). lia.
Qed.

(** The shape of a code, by its length. *)
Lemma coded_small m x :
  (S m <= 7)%nat -> 0 <= x < code_bound (S m) ->
  coded (S m) x = setBits (S m) (x / 256 ^ Z.of_nat m) :: be_encode m x /\
  be_encode (S m) x = x / 256 ^ Z.of_nat m :: be_encode m x /\
  0 <= x / 256 ^ Z.of_nat m < 2 ^ (7 - Z.of_nat (S m)).
Proof.
  intros Hm Hx. pose proof (pow256_pos m) as Hpos.
  assert (0 <= x / 256 ^ Z.of_nat m < 2 ^ (7 - Z.of_nat (S m))) as Hq.
  { split; [apply Z.div_pos; lia|]. apply Z.div_lt_upper_bound; [lia|]. unfold code_bound in Hx.
    change 256 with (2 ^ 8). rewrite <- Z.pow_mul_r, <- Z.pow_add_r by lia.
    replace (8 * Z.of_nat m + (7 - Z.of_nat (S m))) with (7 * Z.of_nat (S m) - 1) by lia. lia. }
  assert (2 ^ (7 - Z.of_nat (S m)) <= 128) by (apply (Z.pow_le_mono_r 2 _ 7); lia).
  split; [|split; [|exact Hq]].
  - transitivity (setBits (S m) (Z.shiftr x (8 * Z.of_nat m) mod 256) :: be_encode m x).
    { do 7 (destruct m as [|m]; [reflexivity|]). lia. }
    by rewrite shiftr_256, Z.mod_small by lia.
  - cbn [be_encode]. by rewrite shiftr_256, Z.mod_small by lia.
Qed.

Lemma countPrefix_small n h t :
  (1 <= n <= 7)%nat -> 0 <= h < 2 ^ (7 - Z.of_nat n) ->
  countPrefix 11 0 (setBits n h :: t) = Ret n /\
  clearPrefix n (setBits n h :: t) = h :: t /\ Z.land (setBits n h) 128 =? 0 = false.
Proof.
  intros Hn Hh.
  set (P := fun n h => match countPrefix 11 0 (setBits n h :: t) with Ret m => Nat.eqb m n | _ => false end &&
    match clearPrefix n (setBits n h :: []) with [c] => c =? h | _ => false end && negb (Z.land (setBits n h) 128 =? 0)).
  assert (forall k, (1 <= k <= 7)%nat -> forallb (fun i => P k (Z.of_nat i)) (seq 0 (2 ^ (7 - k))) = true) as Hall.
  { intros k Hk. destruct k as [|k]; [lia|]. do 7 (destruct k as [|k]; [vm_compute; reflexivity|]). lia. }
  assert (P n h = true) as HP.
  { apply (in_range _ _ (Hall n Hn)). rewrite Nat2Z.inj_pow, Nat2Z.inj_sub by lia. exact Hh. }
  unfold P in HP. rewrite !andb_true_iff, negb_true_iff in HP. destruct HP as [[HP1 HP2] HP3]. split_and!; [| |done].
  - destruct (countPrefix 11 0 (setBits n h :: t)) as [m| |]; try done. by apply Nat.eqb_eq in HP1 as ->.
  - assert (forall b, exists c, clearPrefix n [b] = [c] /\ clearPrefix n (b :: t) = c :: t) as Hcl.
    { intros b. destruct n as [|n]; [lia|]. do 7 (destruct n as [|n]; [eexists; split; reflexivity|]). lia. }
    destruct (Hcl (setBits n h)) as (c & E1 & E2). rewrite E1 in HP2. rewrite E2. by apply Z.eqb_eq in HP2 as ->.
Qed.

(** Codes of eight bytes and more start with [0xff]. *)
Lemma countPrefix_large n b t :
  (8 <= n <= 10)%nat ->
  0 <= b < (if (n =? 8)%nat then 128 else if (n =? 9)%nat then 64 else 1) ->
  countPrefix 11 0 (255 :: setBits (n - 8) b :: t) = Ret n /\
  clearPrefix n (255 :: setBits (n - 8) b :: t) = 0 :: b :: t.
Proof.
  intros Hn Hb.
  set (P := fun n b => match countPrefix 11 0 (255 :: setBits (n - 8) b :: t) with Ret m => Nat.eqb m n | _ => false end &&
    match clearPrefix n (255 :: setBits (n - 8) b :: []) with [c0; c1] => (c0 =? 0) && (c1 =? b) | _ => false end).
  assert (P n b = true) as HP.
  { assert (n = 8 \/ n = 9 \/ n = 10)%nat as [-> | [-> | ->]] by lia; cbn in Hb.
    - apply (in_range (P 8%nat) 128); [vm_compute; reflexivity|done].
    - apply (in_range (P 9%nat) 64); [vm_compute; reflexivity|done].
    - apply (in_range (P 10%nat) 1); [vm_compute; reflexivity|done]. }
  unfold P in HP. rewrite !andb_true_iff in HP. destruct HP as [HP1 HP2]. split.
  - destruct (countPrefix 11 0 _) as [m| |]; try done. by apply Nat.eqb_eq in HP1 as ->.
  - assert (forall b1, exists c0 c1, clearPrefix n [255; b1] = [c0; c1] /\ clearPrefix n (255 :: b1 :: t) = c0 :: c1 :: t) as Hcl.
    { intros b1. assert (n = 8 \/ n = 9 \/ n = 10)%nat as [-> | [-> | ->]] by lia; eexists _, _; split; reflexivity. }
    destruct (Hcl (setBits (n - 8) b)) as (c0 & c1 & E1 & E2). rewrite E1 in HP2. rewrite E2.
    apply andb_true_iff in HP2 as [->%Z.eqb_eq ->%Z.eqb_eq]. done.
Qed.

(** What clearing the prefix leaves, and the length read back. *)
Lemma coded_decode n x rest :
  (1 <= n <= 10)%nat -> 0 <= x < code_bound n -> x < two63 ->
  countPrefix 11 0 (coded n x ++ rest) = Ret n /\ length (coded n x) = n /\
  clearPrefix n (coded n x) = drop (10 - n) ([0; 0] ++ be_encode 8 x) /\
  exists b t, coded n x = b :: t /\ (Z.land b 128 =? 0) = false.
Proof.
  intros Hn Hx Hmax. assert (length (coded n x) = n) as Hlen.
  { rewrite coded_value by done. apply length_be_encode. }
  destruct (decide (n <= 7)%nat) as [Hle|Hgt].
  - destruct n as [|m]; [lia|]. destruct (coded_small m x Hle Hx) as (Ec & Eb & Hq).
    rewrite Ec. destruct (countPrefix_small (S m) (x / 256 ^ Z.of_nat m) (be_encode m x ++ rest) ltac:(lia) Hq) as (H1 & _ & H3).
    destruct (countPrefix_small (S m) (x / 256 ^ Z.of_nat m) (be_encode m x) ltac:(lia) Hq) as (_ & H2 & _).
    split_and!; [exact H1|by rewrite <- Ec| |by eexists _, _]. rewrite H2, <- Eb.
    do 7 (destruct m as [|m]; [reflexivity|]). lia.
  - assert (exists b t, coded n x = 255 :: setBits (n - 8) b :: t /\ drop (10 - n) ([0; 0] ++ be_encode 8 x) = 0 :: b :: t /\
      0 <= b < (if (n =? 8)%nat then 128 else if (n =? 9)%nat then 64 else 1)) as (b & t & Ec & Ed & Hb).
    { unfold code_bound, two63 in *. assert (n = 8 \/ n = 9 \/ n = 10)%nat as [-> | [-> | ->]] by lia; cbn [Z.of_nat] in Hx.
      - exists (x / 256 ^ Z.of_nat 6), (be_encode 6 x). cbn [be_encode drop app Nat.sub Nat.eqb]. rewrite !shiftr_256.
        assert (0 <= x / 256 ^ Z.of_nat 6 < 128).
        { split; [apply Z.div_pos; lia|]. apply Z.div_lt_upper_bound; [lia|]. change (256 ^ Z.of_nat 6 * 128) with (2 ^ 55). lia. }
        assert (x / 256 ^ Z.of_nat 7 = 0) as E7 by (apply Z.div_small; change (256 ^ Z.of_nat 7) with (2 ^ 56); lia).
        unfold coded. cbn [be_encode drop app Nat.sub]. rewrite !shiftr_256, E7, !(Z.mod_small (x / 256 ^ Z.of_nat 6)) by lia.
        split_and!; [reflexivity|reflexivity|lia|lia].
      - exists (x / 256 ^ Z.of_nat 7), (be_encode 7 x). unfold coded. cbn [be_encode drop app Nat.sub Nat.eqb]. rewrite !shiftr_256.
        assert (0 <= x / 256 ^ Z.of_nat 7 < 64).
        { split; [apply Z.div_pos; lia|]. apply Z.div_lt_upper_bound; [lia|]. change (256 ^ Z.of_nat 7 * 64) with (2 ^ 62). lia. }
        rewrite !(Z.mod_small (x / 256 ^ Z.of_nat 7)) by lia.
        split_and!; [reflexivity|reflexivity|lia|lia].
      - exists 0, (be_encode 8 x). split_and!; [reflexivity|reflexivity|lia|reflexivity]. }
    rewrite Ec, Ed. destruct (countPrefix_large n b (t ++ rest) ltac:(lia) Hb) as [H1 _].
    destruct (countPrefix_large n b t ltac:(lia) Hb) as [_ H2]. split_and!; [exact H1|by rewrite <- Ec|exact H2|by eexists _, _].
Qed.

Lemma decodeMagnitude_coded n x rest :
  (1 <= n <= 10)%nat -> 0 <= x < code_bound n -> x < two63 -> decodeMagnitude (coded n x ++ rest) = Ret (x, n).
Proof.
  intros Hn Hx Hmax. destruct (coded_decode n x rest Hn Hx Hmax) as (Hc & Hl & Hcl & _).
  unfold decodeMagnitude. rewrite Hc. cbn [mbind outcome_bind].
  destruct (Nat.ltb_spec n 1); [lia|]. destruct (Nat.ltb_spec (length (coded n x ++ rest)) n) as [Hlt|_].
  { rewrite length_app in Hlt. lia. }
  cbn [orb]. replace (take n (coded n x ++ rest)) with (coded n x) by (by rewrite take_app_le, take_ge by lia).
  rewrite Hcl. clear Hc Hl Hcl.
  assert (existsb (fun c => negb (c =? 0)) (take (n - 8) (drop (10 - n) ([0; 0] ++ be_encode 8 x))) = false) as ->.
  { assert (n <= 8 \/ n = 9 \/ n = 10)%nat as [Hle|[-> | ->]] by lia; [|reflexivity|reflexivity].
    by replace (n - 8)%nat with 0%nat by lia. }
  assert (drop (n - 8) (drop (10 - n) ([0; 0] ++ be_encode 8 x)) = be_encode (min n 8) x) as ->.
  { destruct n as [|n]; [lia|]. do 10 (destruct n as [|n]; [reflexivity|]). lia. }
  rewrite be_decode_encode. assert (x mod 256 ^ Z.of_nat (n `min` 8) = x) as ->.
  { apply Z.mod_small. split; [lia|]. destruct (Nat.min_spec n 8) as [[Hm ->]|[Hm ->]].
    - unfold code_bound in Hx. change 256 with (2 ^ 8). rewrite <- Z.pow_mul_r by lia.
      eapply Z.lt_le_trans; [apply Hx|]. apply Z.pow_le_mono_r; lia.
    - rewrite pow256_8. unfold two63, two64 in *. lia. }
  destruct (Z.ltb_spec int64_max x); [|done]. unfold int64_max, two63 in *. lia.
Qed.

(** ** Codes of signed integers *)

Definition magnitude (v : Z) : Z := if v <? 0 then Z.lnot v else v.

Lemma magnitude_bound v : is_int64 v -> 0 <= magnitude v < two63.
Proof. unfold magnitude, Z.lnot. unfold_words. destruct (Z.ltb_spec v 0); lia. Qed.

Lemma appendOrderedInt64_coded dst v :
  is_int64 v ->
  let c := coded (orderedLen 10 1 (magnitude v)) (magnitude v) in
  appendOrderedInt64 dst v = dst ++ (if v <? 0 then byte_not <$> c else c).
Proof.
  intros Hv. cbn zeta. unfold appendOrderedInt64, magnitude. fold (coded (orderedLen 10 1 (to_u64 v)) (to_u64 v)).
  destruct (Z.ltb_spec v 0) as [Hneg|Hpos].
  - replace (to_u64 (Z.lnot (to_u64 v))) with (Z.lnot v); [done|]. unfold Z.lnot. unfold_words.
    rewrite <- (Z.mod_add v 1), (Z.mod_small (v + _)) by lia.
    rewrite <- (Z.mod_add _ 1) by lia. rewrite Z.mod_small by lia. lia.
  - replace (to_u64 v) with v; [done|]. unfold_words. rewrite Z.mod_small; lia.
Qed.

Lemma byte_not_involutive b : byte_not (byte_not b) = b.
Proof. unfold byte_not. rewrite Z.lxor_assoc, Z.lxor_nilpotent, Z.lxor_0_r. done. Qed.

Lemma byte_not_sub b : is_byte b -> byte_not b = 255 - b.
Proof.
  intros Hb. apply Z.eqb_eq. apply (in_range (fun b => byte_not b =? 255 - b) 256); [vm_compute; reflexivity|exact Hb].
Qed.

Lemma sign_bit b : is_byte b -> (Z.land b 128 =? 0) = false -> (Z.land (byte_not b) 128 =? 0) = true.
Proof.
  intros Hb Hs. pose proof (in_range (fun b => (Z.land b 128 =? 0) || (Z.land (byte_not b) 128 =? 0)) 256) as Hall.
  specialize (Hall ltac:(vm_compute; reflexivity) b Hb). cbn in Hall. by rewrite Hs in Hall.
Qed.

Lemma coded_bytes n x : (1 <= n <= 10)%nat -> 0 <= x < code_bound n -> x < two63 -> all_bytes (coded n x).
Proof. intros. rewrite coded_value by done. apply be_encode_bytes. Qed.

Lemma byte_not_map (l : bytes) : byte_not <$> (byte_not <$> l) = l.
Proof. rewrite <- list_fmap_compose. rewrite <- (list_fmap_id l) at 2. apply list_fmap_ext. intros i b _. apply byte_not_involutive. Qed.

Lemma ordered_decode v rest :
  is_int64 v -> decodeOrderedInt64 (appendOrderedInt64 [] v ++ rest) = Ret (v, length (appendOrderedInt64 [] v)).
Proof.
  intros Hv. pose proof (magnitude_bound v Hv) as Hm. destruct (orderedLen_ok _ Hm) as (Hn & Hx & _).
  assert (0 <= magnitude v < code_bound (orderedLen 10 1 (magnitude v))) as Hx' by lia.
  destruct (coded_decode _ _ [] Hn Hx' (proj2 Hm)) as (_ & Hlen & _ & b & t & Ec & Hsign).
  pose proof (coded_bytes _ _ Hn Hx' (proj2 Hm)) as Hb. pose proof (appendOrderedInt64_coded [] v Hv) as Ha.
  cbn zeta in Ha. cbn [app] in Ha.
  assert (length (appendOrderedInt64 [] v) = orderedLen 10 1 (magnitude v)) as Hla.
  { rewrite Ha. destruct (v <? 0); [by rewrite length_fmap|done]. }
  assert (forall r, decodeMagnitude (coded (orderedLen 10 1 (magnitude v)) (magnitude v) ++ r) =
    Ret (magnitude v, orderedLen 10 1 (magnitude v))) as Hd by (intros r; apply decodeMagnitude_coded; [done|done|apply Hm]).
  assert (negb (Nat.eqb (length (appendOrderedInt64 [] v)) (orderedLen 10 1 (magnitude v))) = false) as Hck
    by (by rewrite Hla, Nat.eqb_refl).
  assert (is_byte b) as Hb0 by (rewrite Ec in Hb; by apply Forall_cons in Hb as [? _]).
  assert ((if v <? 0 then Z.lnot (magnitude v) else magnitude v) = v) as Hval.
  { unfold magnitude. destruct (v <? 0); [apply Z.lnot_involutive|done]. }
  rewrite Hla. unfold decodeOrderedInt64. rewrite Ha. rewrite Ec in Hd |- *. destruct (v <? 0).
  - cbn [fmap list_fmap app]. rewrite (sign_bit b Hb0 Hsign), byte_not_involutive.
    change (list_fmap ?A ?B ?f ?l) with (@fmap list list_fmap A B f l). rewrite fmap_app, byte_not_map, app_comm_cons, Hd.
    cbn [mbind outcome_bind]. by rewrite Hval, Hck.
  - cbn [app]. rewrite Hsign, app_comm_cons, Hd. cbn [mbind outcome_bind]. rewrite Hval in *. by rewrite Hck.
Qed.

(** ** Order *)

(** [a] and [b] differ, [a] being smaller where they first do. *)
Definition differ (a b : bytes) : Prop :=
  exists p c d a' b', a = p ++ c :: a' /\ b = p ++ d :: b' /\ c < d.

Lemma compare_app p a b : bytes_compare (p ++ a) (p ++ b) = bytes_compare a b.
Proof. induction p as [|x p IH]; cbn; [done|]. by rewrite Z.compare_refl. Qed.

Lemma differ_compare a b r s : differ a b -> bytes_compare (a ++ r) (b ++ s) = Lt.
Proof.
  intros (p & c & d & a' & b' & -> & -> & Hlt). rewrite <- !app_assoc, compare_app. cbn.
  by rewrite (proj2 (Z.compare_lt_iff c d) Hlt).
Qed.

Lemma compare_differ a b : bytes_compare a b = Lt -> ~ (exists r, b = a ++ r) -> differ a b.
Proof.
  revert b. induction a as [|x a IH]; intros [|y b]; cbn; try done.
  - intros _ Hn. destruct Hn. by exists (y :: b).
  - destruct (Z.compare_spec x y) as [<-|Hlt|Hgt]; [|by exists [], x, y, a, b|done].
    intros Hc Hn. destruct (IH b Hc) as (p & c & d & a' & b' & -> & -> & Hlt).
    { intros [r ->]. apply Hn. by exists r. }
    by exists (x :: p), c, d, a', b'.
Qed.

Lemma differ_not a b : all_bytes a -> all_bytes b -> differ a b -> differ (byte_not <$> b) (byte_not <$> a).
Proof.
  intros Ha Hb (p & c & d & a' & b' & -> & -> & Hlt).
  apply Forall_app in Ha as [_ [Hc _]%Forall_cons], Hb as [_ [Hd _]%Forall_cons].
  exists (byte_not <$> p), (byte_not d), (byte_not c), (byte_not <$> b'), (byte_not <$> a').
  rewrite !fmap_app. split_and!; [done|done|]. rewrite !byte_not_sub by done. lia.
Qed.

Lemma be_encode_shift n k v : be_encode (n + k) (v * 256 ^ Z.of_nat k) = be_encode n v ++ replicate k 0.
Proof.
  pose proof (pow256_pos k) as Hk. induction n as [|n IH].
  - cbn [Nat.add be_encode app]. rewrite <- be_encode_mod, Z.mod_mul by lia. clear. induction k as [|k IH]; [done|].
    cbn [be_encode replicate]. rewrite IH, Z.shiftr_0_l. done.
  - cbn [Nat.add be_encode app]. rewrite IH. f_equal. rewrite !shiftr_256, Nat2Z.inj_add, Z.pow_add_r by lia.
    rewrite Z.div_mul_cancel_r; [done|pose proof (pow256_pos n); lia|lia].
Qed.

Lemma zeros_least l : all_bytes l -> bytes_compare l (replicate (length l) 0) <> Lt.
Proof.
  induction 1 as [|x l [Hx _] _ IH]; [done|]. cbn. destruct (Z.compare_spec x 0) as [->|?|?]; [done|lia|done].
Qed.

Lemma compare_unpad a b k m :
  all_bytes a -> (length a + k = length b + m)%nat ->
  bytes_compare (a ++ replicate k 0) (b ++ replicate m 0) = Lt -> bytes_compare a b = Lt.
Proof.
  intros Ha. revert b. induction Ha as [|x a Hx Ha IH]; intros [|y b] Hl Hc; cbn in *.
  - assert (k = m) as -> by lia. by rewrite bytes_compare_refl in Hc.
  - done.
  - destruct m as [|m]; [lia|]. exfalso. apply (zeros_least (x :: a ++ replicate k 0)).
    + constructor; [done|]. apply Forall_app. split; [done|]. by apply Forall_replicate.
    + cbn [length]. rewrite length_app, length_replicate. replace (S (length a + k)) with (S m) by lia. exact Hc.
  - destruct (x ?= y); [|done|done]. apply (IH b); [lia|done].
Qed.

(** Evaluates the powers of a goal and its hypotheses. *)
Ltac eval_pow :=
  repeat match goal with
  | |- context [?b ^ ?e] => let v := eval vm_compute in (b ^ e) in progress change (b ^ e) with v
  | H : context [?b ^ ?e] |- _ => let v := eval vm_compute in (b ^ e) in progress change (b ^ e) with v in H
  end.

Lemma code_value_mono n x n' x' :
  (1 <= n <= 10)%nat -> (1 <= n' <= 10)%nat -> 0 <= x < code_bound n -> 0 <= x' < code_bound n' -> x < x' -> (n <= n')%nat ->
  0 <= code_value n x * 256 ^ Z.of_nat (10 - n) < code_value n' x' * 256 ^ Z.of_nat (10 - n') /\
  code_value n' x' * 256 ^ Z.of_nat (10 - n') < 256 ^ Z.of_nat 10.
Proof.
  intros Hn Hn' Hx Hx' Hlt Hle. destruct n as [|n]; [lia|]. destruct n' as [|n']; [lia|]. unfold code_bound, code_value in *.
  do 10 (destruct n as [|n]; [do 10 (destruct n' as [|n']; [first [lia | eval_pow; lia]|]); lia|]). lia.
Qed.

(** Codes grow with the magnitude, and none is a prefix of another. *)
Lemma coded_differ n x n' x' :
  (1 <= n <= 10)%nat -> (1 <= n' <= 10)%nat -> 0 <= x < code_bound n -> 0 <= x' < code_bound n' ->
  x' < two63 -> x < x' -> (n <= n')%nat -> differ (coded n x) (coded n' x').
Proof.
  intros Hn Hn' Hx Hx' Hmax Hlt Hle. assert (x < two63) as Hmax' by lia.
  destruct (code_value_mono n x n' x') as [Hv Hb]; try done. apply compare_differ.
  - apply (compare_unpad _ _ (10 - n) (10 - n')).
    + by apply coded_bytes.
    + destruct (coded_decode n x [] Hn Hx Hmax') as (_ & -> & _). destruct (coded_decode n' x' [] Hn' Hx' Hmax) as (_ & -> & _). lia.
    + rewrite !coded_value, <- !be_encode_shift by done. replace (n + (10 - n))%nat with 10%nat by lia.
      replace (n' + (10 - n'))%nat with 10%nat by lia. rewrite be_encode_compare, !Z.mod_small by lia.
      apply Z.compare_lt_iff. lia.
  - intros [r E]. pose proof (decodeMagnitude_coded n x r Hn Hx Hmax') as H1. rewrite <- E in H1.
    pose proof (decodeMagnitude_coded n' x' [] Hn' Hx' Hmax) as H2. rewrite app_nil_r, H1 in H2.
    injection H2 as ? _. lia.
Qed.

Lemma orderedLen_mono x x' :
  0 <= x -> x < x' -> x' < two63 -> (orderedLen 10 1 x <= orderedLen 10 1 x')%nat.
Proof.
  intros Hx Hlt Hmax. destruct (orderedLen_ok x) as (Hn & _ & Hlow); [lia|].
  destruct (orderedLen_ok x') as (Hn' & Hup & _); [lia|]. destruct Hlow as [->|Hlow]; [lia|].
  assert (code_bound (orderedLen 10 1 x - 1) < code_bound (orderedLen 10 1 x')) as Hb by lia.
  unfold code_bound in Hb. apply Z.pow_lt_mono_r_iff in Hb; lia.
Qed.

(** The encoding preserves order, whatever follows in the key. *)
Lemma ordered_differ v w :
  is_int64 v -> is_int64 w -> v < w -> differ (appendOrderedInt64 [] v) (appendOrderedInt64 [] w).
Proof.
  intros Hv Hw Hlt. rewrite !appendOrderedInt64_coded by done. cbn [app].
  pose proof (magnitude_bound v Hv) as Hmv. pose proof (magnitude_bound w Hw) as Hmw.
  destruct (orderedLen_ok _ Hmv) as (Hnv & Hxv & _), (orderedLen_ok _ Hmw) as (Hnw & Hxw & _).
  assert (0 <= magnitude v < code_bound (orderedLen 10 1 (magnitude v))) as Hxv' by lia.
  assert (0 <= magnitude w < code_bound (orderedLen 10 1 (magnitude w))) as Hxw' by lia.
  pose proof (coded_bytes _ _ Hnv Hxv' (proj2 Hmv)) as Hbv. pose proof (coded_bytes _ _ Hnw Hxw' (proj2 Hmw)) as Hbw.
  assert (forall b, is_byte b -> (Z.land b 128 =? 0) = false -> 128 <= b) as Hbig.
  { intros b Hb Hs. pose proof (in_range (fun b => (Z.land b 128 =? 0) || (128 <=? b)) 256 ltac:(vm_compute; reflexivity) b Hb) as Hall.
    cbn in Hall. rewrite Hs in Hall. by apply Z.leb_le in Hall. }
  destruct (Z.ltb_spec v 0) as [Hvn|Hvp], (Z.ltb_spec w 0) as [Hwn|Hwp]; try lia.
  - assert (magnitude w < magnitude v) as Hm.
    { unfold magnitude, Z.lnot. destruct (Z.ltb_spec v 0), (Z.ltb_spec w 0); lia. }
    apply differ_not; [done|done|]. apply coded_differ; try done; [apply Hmv|]. apply orderedLen_mono; lia.
  - destruct (coded_decode _ _ [] Hnv Hxv' (proj2 Hmv)) as (_ & _ & _ & b & t & Ev & Hsv).
    destruct (coded_decode _ _ [] Hnw Hxw' (proj2 Hmw)) as (_ & _ & _ & c & u & Ew & Hsw).
    rewrite Ev, Ew in *. apply Forall_cons in Hbv as [Hb _], Hbw as [Hc _].
    exists [], (byte_not b), c, (byte_not <$> t), u. split_and!; [done|done|]. rewrite byte_not_sub by done.
    pose proof (Hbig b Hb Hsv). pose proof (Hbig c Hc Hsw). lia.
  - assert (magnitude v < magnitude w) as Hm.
    { unfold magnitude. destruct (Z.ltb_spec v 0), (Z.ltb_spec w 0); lia. }
    apply coded_differ; try done; [apply Hmw|]. apply orderedLen_mono; lia.
Qed.

(** ** Ordered-code keys *)

(** The escaped form of one field. *)
Definition escapeField (e : bytes) : bytes :=
  match e with
  | [] => [0; 0]
  | _ => e ≫= fun c => if c =? 0 then [0; 255] else [c]
  end.

(** The fields up to the last one that is not empty. *)
Fixpoint dropEmpty (encs : list bytes) : list bytes :=
  match encs with
  | [] => []
  | e :: encs' => match dropEmpty encs', e with [], [] => [] | rest, _ => e :: rest end
  end.

Fixpoint joinFields (encs : list bytes) : bytes :=
  match encs with
  | [] => []
  | [e] => escapeField e
  | e :: encs' => escapeField e ++ [0; 1] ++ joinFields encs'
  end.

Definition orderedCodeJoin (encs : list bytes) : bytes :=
  match dropEmpty encs with [] => [0; 0] | kept => joinFields kept end.

(** The loop of [orderedCodeSplit]; each pass consumes a byte. *)
Fixpoint splitLoop (fuel : nat) (key : bytes) (segs : list bytes) (cur : bytes) : outcome (list bytes) :=
  match fuel, key with
  | _, [] => Ret (segs ++ [cur])
  | O, _ => Panic
  | S fuel, c :: rest =>
      if negb (c =? 0) then splitLoop fuel rest segs (cur ++ [c])
      else match rest with
      | [] => Err InvalidArgument
      | d :: rest' =>
          if d =? 255 then splitLoop fuel rest' segs (cur ++ [0])
          else if d =? 1 then splitLoop fuel rest' (segs ++ [cur]) []
          else if d =? 0 then
            match cur with
            | _ :: _ => Err InvalidArgument
            | [] =>
                match rest' with
                | [] => splitLoop fuel rest' segs cur
                | 0 :: 1 :: _ => splitLoop fuel rest' segs cur
                | _ => Err InvalidArgument
                end
            end
          else Err InvalidArgument
      end
  end.

Definition orderedCodeSplit (key : bytes) (n : nat) : outcome (list bytes) :=
  match key with
  | [] => Ret (replicate n [])
  | _ =>
      segs ← splitLoop (length key) key [] [];
      if (n <? length segs)%nat then Err InvalidArgument
      else Ret (segs ++ replicate (n - length segs) [])
  end.

(** *** Splitting what was joined *)

Lemma escape_bind_cons c e :
  ((c :: e) ≫= fun c => if c =? 0 then [0; 255] else [c]) =
  (if c =? 0 then [0; 255] else [c]) ++ (e ≫= fun c => if c =? 0 then [0; 255] else [c]).
Proof. done. Qed.

(** Enough fuel is enough. *)
Lemma splitLoop_fuel f1 : forall f2 key segs cur,
  (length key <= f1)%nat -> (length key <= f2)%nat -> splitLoop f1 key segs cur = splitLoop f2 key segs cur.
Proof.
  induction f1 as [|f1 IH]; intros f2 key segs cur H1 H2; destruct key as [|c rest]; try (by destruct f2); try (cbn in H1; lia).
  destruct f2 as [|f2]; [cbn in H2; lia|]. cbn [splitLoop length] in *.
  destruct (negb (c =? 0)); [apply IH; lia|]. destruct rest as [|d rest']; [done|]. cbn [length] in *.
  destruct (d =? 255); [apply IH; lia|]. destruct (d =? 1); [apply IH; lia|]. destruct (d =? 0); [|done].
  destruct cur; [|done]. destruct rest' as [|x rest']; [apply IH; cbn; lia|].
  destruct x; try done. destruct rest' as [|y rest']; [done|]. destruct y as [|[]|]; try done. apply IH; cbn in *; lia.
Qed.

Definition escapeBytes (e : bytes) : bytes := e ≫= fun c => if c =? 0 then [0; 255] else [c].

(** The loop on the escaped bytes of a field followed by [rest]. *)
Lemma splitLoop_field e : forall f f' rest segs cur,
  (length (escapeBytes e ++ rest) <= f)%nat -> (length rest <= f')%nat ->
  splitLoop f (escapeBytes e ++ rest) segs cur = splitLoop f' rest segs (cur ++ e).
Proof.
  induction e as [|c e IH]; intros f f' rest segs cur Hf Hf'.
  { cbn. rewrite app_nil_r. by apply splitLoop_fuel. }
  replace (cur ++ c :: e) with ((cur ++ [c]) ++ e) by (by rewrite <- app_assoc).
  unfold escapeBytes in *. rewrite escape_bind_cons, <- app_assoc in *.
  destruct (Z.eqb_spec c 0) as [->|Hne]; cbn [app length] in Hf; (destruct f as [|f]; [lia|]).
  - cbn -[app]. cbn [app]. apply IH; [lia|done].
  - cbn [app splitLoop]. rewrite (proj2 (Z.eqb_neq c 0) Hne). cbn [negb]. apply IH; [lia|done].
Qed.

(** The loop on a whole field at the start of a segment. *)
Lemma splitLoop_segment e f f' rest segs :
  (length (escapeField e ++ rest) <= f)%nat -> (length rest <= f')%nat ->
  (rest = [] \/ exists r, rest = 0 :: 1 :: r) ->
  splitLoop f (escapeField e ++ rest) segs [] = splitLoop f' rest segs e.
Proof.
  intros Hf Hf' Hr. destruct e as [|c e].
  - cbn [escapeField app length] in *. destruct f as [|f]; [lia|]. cbn [splitLoop]. cbn -[splitLoop].
    destruct Hr as [->|(r & ->)]; apply splitLoop_fuel; cbn in *; lia.
  - change (escapeField (c :: e)) with (escapeBytes (c :: e)) in *. by apply splitLoop_field.
Qed.

Lemma splitLoop_join encs : forall e f segs,
  (length (joinFields (e :: encs)) <= f)%nat ->
  splitLoop f (joinFields (e :: encs)) segs [] = Ret (segs ++ e :: encs).
Proof.
  induction encs as [|e' encs IH]; intros e f segs Hf.
  - cbn [joinFields] in *. rewrite <- (app_nil_r (escapeField e)) in *.
    rewrite (splitLoop_segment e f 0) by (cbn; auto). done.
  - change (joinFields (e :: e' :: encs)) with (escapeField e ++ [0; 1] ++ joinFields (e' :: encs)) in *.
    rewrite !length_app in Hf. cbn [length] in Hf.
    rewrite (splitLoop_segment e f (S (S (length (joinFields (e' :: encs)))))).
    + change (splitLoop (S (length (joinFields (e' :: encs)))) (joinFields (e' :: encs)) (segs ++ [e]) [] = Ret (segs ++ e :: e' :: encs)).
      rewrite IH by lia. by rewrite <- app_assoc.
    + rewrite !length_app. cbn [length]. lia.
    + cbn [app length]. lia.
    + right. by eexists.
Qed.

Lemma dropEmpty_pad encs : exists k, encs = dropEmpty encs ++ replicate k [] /\ (length (dropEmpty encs) + k = length encs)%nat.
Proof.
  induction encs as [|e encs (k & E & Hl)]; [by exists 0%nat|]. cbn [dropEmpty].
  destruct (dropEmpty encs) as [|d ds] eqn:Ed.
  - destruct e as [|c e].
    + exists (S k). cbn in *. split; [congruence|lia].
    + exists k. cbn in *. split; [congruence|lia].
  - exists k. cbn in *. destruct e; split; try lia; congruence.
Qed.

Lemma joinFields_nonempty e encs : joinFields (e :: encs) <> [].
Proof. destruct encs as [|e' encs]; [destruct e as [|c e]; cbn; [done|by destruct (c =? 0)]|].
  change (joinFields (e :: e' :: encs)) with (escapeField e ++ [0; 1] ++ joinFields (e' :: encs)). by destruct (escapeField e). Qed.

Lemma split_join encs : encs <> [] -> orderedCodeSplit (orderedCodeJoin encs) (length encs) = Ret encs.
Proof.
  intros Hne. destruct (dropEmpty_pad encs) as (k & E & Hl). unfold orderedCodeJoin.
  destruct (dropEmpty encs) as [|d ds].
  - cbn [app length Nat.add] in E, Hl. subst k. destruct encs as [|e encs]; [done|]. cbn [length replicate] in *.
    unfold orderedCodeSplit. change (splitLoop (length [0; 0]) [0; 0] [] []) with (Ret [[]] : outcome (list bytes)).
    cbn [mbind outcome_bind length]. destruct (Nat.ltb_spec (S (length encs)) 1); [lia|].
    replace (S (length encs) - 1)%nat with (length encs) by lia. by rewrite E.
  - unfold orderedCodeSplit. destruct (joinFields (d :: ds)) as [|b bs] eqn:Ej; [by destruct (joinFields_nonempty d ds)|].
    rewrite <- Ej, splitLoop_join by done. cbn [app mbind outcome_bind].
    destruct (Nat.ltb_spec (length encs) (length (d :: ds))) as [Hlt|_]; [lia|].
    replace (length encs - length (d :: ds))%nat with k by lia. f_equal. symmetry. exact E.
Qed.

(** *** The order of joined keys *)

(** Field by field. *)
Fixpoint fields_compare (a b : list bytes) : comparison :=
  match a, b with
  | [], [] => Eq
  | [], _ => Lt
  | _, [] => Gt
  | x :: a', y :: b' => match bytes_compare x y with Eq => fields_compare a' b' | c => c end
  end.

(** What follows a field. *)
Definition joinTail (encs : list bytes) : bytes :=
  match dropEmpty encs with [] => [] | _ => [0; 1] ++ orderedCodeJoin encs end.

Lemma orderedCodeJoin_cons e encs : orderedCodeJoin (e :: encs) = escapeField e ++ joinTail encs.
Proof.
  unfold joinTail, orderedCodeJoin. cbn [dropEmpty]. destruct (dropEmpty encs) as [|d ds] eqn:Ed.
  - rewrite app_nil_r. by destruct e.
  - by destruct e.
Qed.

Lemma escapeBytes_compare e1 : forall e2 t1 t2,
  all_bytes e1 -> all_bytes e2 -> bytes_compare e1 e2 = Lt -> (t1 = [] \/ exists r, t1 = 0 :: 1 :: r) ->
  bytes_compare (escapeBytes e1 ++ t1) (escapeBytes e2 ++ t2) = Lt.
Proof.
  induction e1 as [|c e1 IH]; intros [|d e2] t1 t2 H1 H2 Hlt Ht; cbn in Hlt; try done; unfold escapeBytes in *.
  - apply Forall_cons in H2 as [[Hd _] _]. rewrite escape_bind_cons, <- app_assoc.
    destruct (Z.eqb_spec d 0) as [->|Hne]; destruct Ht as [->|(r & ->)]; cbn [mbind list_bind app bytes_compare]; try done.
    by rewrite (proj2 (Z.compare_lt_iff 0 d)) by lia.
  - apply Forall_cons in H1 as [[Hc _] H1], H2 as [[Hd _] H2]. rewrite !escape_bind_cons, <- !app_assoc.
    destruct (Z.compare_spec c d) as [<-|Hcd|]; [|clear Hlt|done].
    + rewrite compare_app. by apply IH.
    + rewrite (proj2 (Z.eqb_neq d 0)) by lia. destruct (Z.eqb_spec c 0) as [->|Hne]; cbn [app bytes_compare].
      * by rewrite (proj2 (Z.compare_lt_iff 0 d)) by lia.
      * by rewrite (proj2 (Z.compare_lt_iff c d)) by lia.
Qed.

Lemma escapeField_compare e1 e2 t1 t2 :
  all_bytes e1 -> all_bytes e2 -> bytes_compare e1 e2 = Lt -> (t1 = [] \/ exists r, t1 = 0 :: 1 :: r) ->
  bytes_compare (escapeField e1 ++ t1) (escapeField e2 ++ t2) = Lt.
Proof.
  intros H1 H2 Hlt Ht. destruct e2 as [|d e2]; [by destruct e1|]. change (escapeField (d :: e2)) with (escapeBytes (d :: e2)).
  destruct e1 as [|c e1]; [|by apply escapeBytes_compare].
  apply Forall_cons in H2 as [[Hd _] _]. unfold escapeBytes. rewrite escape_bind_cons, <- app_assoc.
  destruct (Z.eqb_spec d 0) as [->|Hne]; cbn [escapeField app bytes_compare]; [done|]. by rewrite (proj2 (Z.compare_lt_iff 0 d)) by lia.
Qed.

Lemma joinTail_cases encs : joinTail encs = [] \/ exists r, joinTail encs = 0 :: 1 :: r.
Proof. unfold joinTail. destruct (dropEmpty encs); [by left|]. right. by eexists. Qed.

Lemma dropEmpty_least encs1 encs2 : dropEmpty encs2 = [] -> length encs1 = length encs2 -> fields_compare encs1 encs2 <> Lt.
Proof.
  revert encs1. induction encs2 as [|e encs2 IH]; intros [|e1 encs1] Hd Hl; cbn in *; try done.
  destruct (dropEmpty encs2); [|by destruct e]. destruct e; [|done]. destruct e1; [|done]. apply IH; [done|lia].
Qed.

Lemma join_compare encs1 : forall encs2,
  Forall all_bytes encs1 -> Forall all_bytes encs2 -> length encs1 = length encs2 ->
  fields_compare encs1 encs2 = Lt -> bytes_compare (orderedCodeJoin encs1) (orderedCodeJoin encs2) = Lt.
Proof.
  induction encs1 as [|e1 encs1 IH]; intros [|e2 encs2] H1 H2 Hl Hlt; cbn in Hl, Hlt; try done.
  apply Forall_cons in H1 as [He1 H1], H2 as [He2 H2]. rewrite !orderedCodeJoin_cons.
  destruct (bytes_compare e1 e2) eqn:Ec; [| |done].
  - apply bytes_compare_eq in Ec as ->. rewrite compare_app. specialize (IH encs2 H1 H2 ltac:(lia) Hlt). unfold joinTail.
    destruct (dropEmpty encs2) eqn:E2; [by destruct (dropEmpty_least encs1 encs2 E2 ltac:(lia))|].
    destruct (dropEmpty encs1); [done|]. by rewrite compare_app.
  - apply escapeField_compare; auto using joinTail_cases.
Qed.
