(* ===== verification/KeySchema.v ===== *)
(** * Row keys by schema

    The rest of [internal/gsql/keycodec.go]: key fields with their null
    escapes, and the encoding and decoding of a whole row key in the singleton,
    delimited and ordered-code struct encodings. *)

From S2P Require Import Prelude Proto Rows Server KeyCodec.
From stdpp Require Import base list gmap sorting.
From Stdlib Require Import ZArith Lia.

#[local] Open Scope Z_scope.

(** ** UTF-8 *)

(** The valid rune at the head of a byte string, with its size: the ranges of
    [unicode/utf8]. *)
Definition between (lo hi b : Z) : bool := (lo <=? b) && (b <=? hi).

Definition rune_at (b : bytes) : option (Z * nat) :=
  match b with
  | [] => None
  | b0 :: t =>
      if between 0 127 b0 then Some (b0, 1%nat)
      else match t with
      | [] => None
      | b1 :: t1 =>
          if between 194 223 b0 then
            if between 128 191 b1 then Some (Z.land b0 31 * 64 + Z.land b1 63, 2%nat) else None
          else match t1 with
          | [] => None
          | b2 :: t2 =>
              if between 224 239 b0 then
                if between (if b0 =? 224 then 160 else 128) (if b0 =? 237 then 159 else 191) b1 &&
                   between 128 191 b2
                then Some (Z.land b0 15 * 4096 + Z.land b1 63 * 64 + Z.land b2 63, 3%nat) else None
              else match t2 with
              | [] => None
              | b3 :: _ =>
                  if between 240 244 b0 &&
                     between (if b0 =? 240 then 144 else 128) (if b0 =? 244 then 143 else 191) b1 &&
                     between 128 191 b2 && between 128 191 b3
                  then Some (Z.land b0 7 * 262144 + Z.land b1 63 * 4096 + Z.land b2 63 * 64 + Z.land b3 63, 4%nat)
                  else None
              end
          end
      end
  end.

(** The runes of a string, a byte that starts no valid rune being
    [utf8.RuneError]; [skip] bytes belong to the rune before. *)
Fixpoint runes (skip : nat) (b : bytes) : list Z :=
  match b with
  | [] => []
  | _ :: t =>
      match skip with
      | S skip => runes skip t
      | O => match rune_at b with
             | Some (r, n) => r :: runes (n - 1) t
             | None => 65533 :: runes 0 t
             end
      end
  end.

Fixpoint validFrom (skip : nat) (b : bytes) : bool :=
  match b with
  | [] => true
  | _ :: t =>
      match skip with
      | S skip => validFrom skip t
      | O => match rune_at b with Some (_, n) => validFrom (n - 1) t | None => false end
      end
  end.

(** [utf8.Valid]. *)
Definition isValidUTF8 (b : bytes) : bool := validFrom 0 b.

(** [strings.Trim(s, cutset) == ""]: every rune of [s] is in the cutset. *)
Definition trimsToEmpty (s cutset : bytes) : bool :=
  forallb (fun r => existsb (Z.eqb r) (runes 0 cutset)) (runes 0 s).

(** [strings.TrimSuffix]. *)
Definition TrimSuffix (s suffix : bytes) : bytes :=
  let n := (length s - length suffix)%nat in
  if bool_decide (length suffix <= length s)%nat && bool_decide (drop n s = suffix) then take n s else s.

(** [bytes.Index]; [bytes.Contains] is [Index >= 0]. *)
Fixpoint Index (s sub : bytes) : option nat :=
  if HasPrefix s sub then Some 0%nat
  else match s with [] => None | _ :: s' => S <$> Index s' sub end.
Definition Contains (s sub : bytes) : bool := bool_decide (is_Some (Index s sub)).

(** [bytes.Join]. *)
Fixpoint joinBytes (encs : list bytes) (sep : bytes) : bytes :=
  match encs with
  | [] => []
  | [e] => e
  | e :: encs' => e ++ sep ++ joinBytes encs' sep
  end.

(** ** Values and fields *)

(** The values of key fields: [nil], [[]byte], [string], [int64], [tsVal]. *)
Inductive keyValue : Type :=
| KV_Nil | KV_Bytes (b : bytes) | KV_String (s : bytes) | KV_Int64 (n : Z) | KV_Timestamp (us : Z).

Definition minTimestampMicros : Z := -62135596800 * 1000000.
Definition maxTimestampMicros : Z := 253402300799999999.

Definition checkTimestamp (us : Z) : outcome keyValue :=
  if (us <? minTimestampMicros) || (maxTimestampMicros <? us) then Err OutOfRange else Ret (KV_Timestamp us).

Definition allBytesEqual (b : bytes) (c : Z) : bool := forallb (fun x => x =? c) b.

Definition encodeInt64 (ordered : bool) (v : Z) : bytes :=
  if ordered then appendOrderedInt64 [] v else be64 v.

Definition decodeInt64 (ordered : bool) (b : bytes) : outcome Z :=
  if ordered then
    '(v, n) ← decodeOrderedInt64 b;
    if negb (Nat.eqb n (length b)) then Err InvalidArgument else Ret v
  else if negb (Nat.eqb (length b) 8) then Err InvalidArgument
  else Ret (be64_int64 b).

(** The encoded width: 8 for fixed, -1 for self-delimiting, 0 for variable. *)
Definition fixedKeyWidth (t : Type_) : Z :=
  match t with
  | Type_Int64 ordered | Type_Timestamp ordered => if ordered then -1 else 8
  | _ => 0
  end.

Definition encodeKeyField (t : Type_) (v : keyValue) : outcome bytes :=
  match t with
  | Type_Bytes escape =>
      match v with
      | KV_Nil => if escape then Ret [] else Err InvalidArgument
      | KV_Bytes b => Ret (if escape && allBytesEqual b 0 then b ++ [0] else b)
      | _ => Panic
      end
  | Type_String esc =>
      match v with
      | KV_Nil => match esc with [] => Err InvalidArgument | _ => Ret [] end
      | KV_String s => Ret (match esc with [] => s | _ => if trimsToEmpty s esc then s ++ esc else s end)
      | _ => Panic
      end
  | Type_Int64 ordered =>
      match v with
      | KV_Nil => Err InvalidArgument
      | KV_Int64 n => Ret (encodeInt64 ordered n)
      | _ => Panic
      end
  | Type_Timestamp ordered =>
      match v with
      | KV_Nil => Err InvalidArgument
      | KV_Timestamp us => Ret (encodeInt64 ordered us)
      | _ => Panic
      end
  | _ => Err InvalidArgument
  end.

Definition decodeKeyField (t : Type_) (b : bytes) : outcome keyValue :=
  match t with
  | Type_Bytes escape =>
      if escape && Nat.eqb (length b) 0 then Ret KV_Nil
      else if escape && allBytesEqual b 0 then Ret (KV_Bytes (take (length b - 1) b))
      else Ret (KV_Bytes b)
  | Type_String esc =>
      match esc, b with
      | _ :: _, [] => Ret KV_Nil
      | _, _ =>
          let s := match esc with
                   | [] => b
                   | _ => if trimsToEmpty b esc then TrimSuffix b esc else b
                   end in
          if isValidUTF8 b then Ret (KV_String s) else Err InvalidArgument
      end
  | Type_Int64 ordered => n ← decodeInt64 ordered b; Ret (KV_Int64 n)
  | Type_Timestamp ordered => n ← decodeInt64 ordered b; checkTimestamp n
  | _ => Err InvalidArgument
  end.

(** ** Whole keys *)

(** [keySchemaTypes]: whether the schema is accepted. *)
Definition keySchemaTypes (schema : option Type_Struct) : outcome unit :=
  match schema with
  | None => Err InvalidArgument
  | Some schema =>
      _ ← foldM (fun _ f =>
        match FieldType f with
        | Type_Bytes _ | Type_String _ | Type_Int64 _ | Type_Timestamp _ => Ret tt
        | _ => Err InvalidArgument
        end) tt (Fields schema);
      match Encoding schema with
      | Encoding_Singleton => if negb (Nat.eqb (length (Fields schema)) 1) then Err InvalidArgument else Ret tt
      | Encoding_DelimitedBytes d =>
          if Nat.eqb (length d) 0 || (50 <? length d)%nat then Err InvalidArgument else Ret tt
      | Encoding_OrderedCodeBytes => Ret tt
      | Encoding_Unset => Err InvalidArgument
      end
  end.

Fixpoint encodeFields (fields : list Type_Struct_Field) (vals : list keyValue) : outcome (list bytes) :=
  match fields, vals with
  | [], _ => Ret []
  | _ :: _, [] => Panic
  | f :: fields', v :: vals' =>
      b ← encodeKeyField (FieldType f) v; rest ← encodeFields fields' vals'; Ret (b :: rest)
  end.

(** Whether a variable-length field contains the delimiter. *)
Fixpoint delimiterInField (fields : list Type_Struct_Field) (encs : list bytes) (d : bytes) : bool :=
  match fields, encs with
  | f :: fields', e :: encs' =>
      ((fixedKeyWidth (FieldType f) =? 0) && Contains e d) || delimiterInField fields' encs' d
  | _, _ => false
  end.

Definition encodeKeyInternal (schema : Type_Struct) (vals : list keyValue) : outcome bytes :=
  encs ← encodeFields (Fields schema) vals;
  match Encoding schema with
  | Encoding_Singleton => match encs with e :: _ => Ret e | [] => Panic end
  | Encoding_DelimitedBytes d =>
      match encs with
      | [] => Ret d
      | _ => if delimiterInField (Fields schema) encs d then Err InvalidArgument else Ret (joinBytes encs d)
      end
  | Encoding_OrderedCodeBytes => Ret (orderedCodeJoin encs)
  | Encoding_Unset => Err InvalidArgument
  end.

(** [invalidf(...)] around another error. *)
Definition invalid {A} (r : outcome A) : outcome A :=
  match r with Err _ => Err InvalidArgument | r => r end.

(** The bytes of a delimited field and what follows them. *)
Definition takeField (t : Type_) (is_last : bool) (rest d : bytes) : outcome (bytes * bytes) :=
  let w := fixedKeyWidth t in
  if 0 <? w then
    if (length rest <? Z.to_nat w)%nat then Err InvalidArgument
    else Ret (take (Z.to_nat w) rest, drop (Z.to_nat w) rest)
  else if w <? 0 then
    '(_, n) ← invalid (decodeOrderedInt64 rest); Ret (take n rest, drop n rest)
  else if is_last then
    if Contains rest d then Err InvalidArgument else Ret (rest, [])
  else match Index rest d with
  | None => Err InvalidArgument
  | Some j => Ret (take j rest, drop j rest)
  end.

Fixpoint decodeDelimited (d : bytes) (first : bool) (fields : list Type_Struct_Field) (rest : bytes)
    : outcome (list keyValue * bytes) :=
  match fields with
  | [] => Ret ([], rest)
  | f :: fields' =>
      rest ← (if first then Ret rest
              else if HasPrefix rest d then Ret (drop (length d) rest) else Err InvalidArgument);
      '(fb, rest) ← takeField (FieldType f) (match fields' with [] => true | _ => false end) rest d;
      v ← invalid (decodeKeyField (FieldType f) fb);
      '(vs, rest) ← decodeDelimited d false fields' rest;
      Ret (v :: vs, rest)
  end.

Fixpoint decodeFields (fields : list Type_Struct_Field) (segs : list bytes) : outcome (list keyValue) :=
  match fields, segs with
  | [], _ => Ret []
  | _ :: _, [] => Panic
  | f :: fields', b :: segs' =>
      v ← invalid (decodeKeyField (FieldType f) b); vs ← decodeFields fields' segs'; Ret (v :: vs)
  end.

Definition decodeKeyInternal (schema : Type_Struct) (key : bytes) : outcome (list keyValue) :=
  match Encoding schema with
  | Encoding_Singleton =>
      match Fields schema with
      | [] => Panic
      | f :: fields' => v ← decodeKeyField (FieldType f) key; Ret (v :: replicate (length fields') KV_Nil)
      end
  | Encoding_DelimitedBytes d =>
      '(vs, rest) ← decodeDelimited d true (Fields schema) key;
      match rest with [] => Ret vs | _ => Err InvalidArgument end
  | Encoding_OrderedCodeBytes =>
      segs ← orderedCodeSplit key (length (Fields schema)); decodeFields (Fields schema) segs
  | Encoding_Unset => Err InvalidArgument
  end.

(** ** Fields read back *)

Lemma rune_at_app a r n rest : rune_at a = Some (r, n) -> rune_at (a ++ rest) = Some (r, n) /\ (1 <= n <= length a)%nat.
Proof.
  destruct a as [|b0 [|b1 [|b2 [|b3 t]]]]; unfold rune_at; cbn [app length];
    repeat case_match; intros; simplify_eq; split; try done; lia.
Qed.

Lemma validFrom_app a : forall k rest,
  validFrom k a = true -> (k <= length a)%nat ->
  validFrom k (a ++ rest) = validFrom 0 rest /\ runes k (a ++ rest) = runes k a ++ runes 0 rest.
Proof.
  induction a as [|b a IH]; intros k rest Hv Hk; cbn [length] in Hk; [by replace k with 0%nat by lia|].
  destruct k as [|k]; [|apply IH; [done|lia]]. cbn [validFrom runes app] in *.
  destruct (rune_at (b :: a)) as [[r n]|] eqn:E; [|done].
  destruct (rune_at_app (b :: a) r n rest E) as [E' Hn]. cbn [app] in E'. rewrite E'.
  cbn [length] in Hn. destruct (IH (n - 1)%nat rest Hv) as [H1 H2]; [lia|]. split; [done|]. by rewrite H2.
Qed.

Lemma TrimSuffix_app s t : TrimSuffix (s ++ t) t = s.
Proof.
  unfold TrimSuffix. rewrite length_app. replace (length s + length t - length t)%nat with (length s) by lia.
  rewrite take_app_length, drop_app_length, !bool_decide_eq_true_2 by (done || lia). done.
Qed.

(** The values a schema's fields can hold. *)
Definition value_ok (t : Type_) (v : keyValue) : Prop :=
  match v with
  | KV_String s => isValidUTF8 s = true /\ match t with Type_String esc => isValidUTF8 esc = true | _ => True end
  | KV_Int64 n => is_int64 n
  | KV_Timestamp us => minTimestampMicros <= us <= maxTimestampMicros
  | _ => True
  end.

Lemma decodeInt64_encode ordered n : is_int64 n -> decodeInt64 ordered (encodeInt64 ordered n) = Ret n.
Proof.
  intros Hn. unfold decodeInt64, encodeInt64. destruct ordered.
  - pose proof (ordered_decode n [] Hn) as Hd. rewrite app_nil_r in Hd. rewrite Hd. cbn [mbind outcome_bind].
    by rewrite Nat.eqb_refl.
  - rewrite length_be64. cbn [Nat.eqb negb]. by rewrite be64_roundtrip, wrap64_id.
Qed.

Lemma timestamp_int64 us : minTimestampMicros <= us <= maxTimestampMicros -> is_int64 us.
Proof. unfold minTimestampMicros, maxTimestampMicros. unfold_words. lia. Qed.

Lemma allBytesEqual_app a b c : allBytesEqual (a ++ b) c = allBytesEqual a c && allBytesEqual b c.
Proof. apply forallb_app. Qed.

Lemma decode_bytes escape b :
  decodeKeyField (Type_Bytes escape) (if escape && allBytesEqual b 0 then b ++ [0] else b) = Ret (KV_Bytes b).
Proof.
  unfold decodeKeyField. destruct escape; [|done]. cbn [andb]. destruct (allBytesEqual b 0) eqn:E.
  - rewrite allBytesEqual_app, E, length_app. cbn. rewrite Nat.add_1_r. cbn. by rewrite Nat.sub_0_r, take_app_length.
  - rewrite E. by destruct b.
Qed.

Lemma decode_string esc s :
  isValidUTF8 s = true -> isValidUTF8 esc = true ->
  decodeKeyField (Type_String esc) (match esc with [] => s | _ => if trimsToEmpty s esc then s ++ esc else s end) = Ret (KV_String s).
Proof.
  intros Hs He. unfold decodeKeyField. destruct esc as [|c esc]; [by rewrite Hs|].
  destruct (trimsToEmpty s (c :: esc)) eqn:Et.
  - destruct (validFrom_app s 0 (c :: esc) Hs ltac:(lia)) as [Hv Hr].
    assert (isValidUTF8 (s ++ c :: esc) = true) as -> by (unfold isValidUTF8; by rewrite Hv).
    assert (trimsToEmpty (s ++ c :: esc) (c :: esc) = true) as ->.
    { unfold trimsToEmpty in *. rewrite Hr, forallb_app, Et. cbn [andb]. apply forallb_forall. intros r Hin.
      apply existsb_exists. exists r. split; [done|]. apply Z.eqb_refl. }
    rewrite TrimSuffix_app. by destruct s.
  - rewrite Hs, Et. by destruct s.
Qed.

(** A key field is read back, and its width is the one announced. *)
Lemma field_roundtrip t v b :
  encodeKeyField t v = Ret b -> value_ok t v ->
  decodeKeyField t b = Ret v /\
  (0 < fixedKeyWidth t -> length b = Z.to_nat (fixedKeyWidth t)) /\
  (fixedKeyWidth t < 0 -> forall rest, exists n, decodeOrderedInt64 (b ++ rest) = Ret (n, length b)).
Proof.
  intros E Hv. destruct t as [|escape|esc|ordered|ordered| |input agg]; try done.
  - destruct v as [|b'| | |]; try done; cbn in E.
    + destruct escape; [|done]. simplify_eq. done.
    + simplify_eq. split; [apply decode_bytes|done].
  - destruct v as [| |s| |]; try done; cbn in E.
    + destruct esc; [done|]. simplify_eq. done.
    + simplify_eq. destruct Hv. split; [by apply decode_string|done].
  - destruct v as [| | |n|]; try done. cbn in E. simplify_eq. cbn in Hv. split_and!.
    + cbn. by rewrite decodeInt64_encode.
    + destruct ordered; [cbn; lia|]. intros _. apply length_be64.
    + destruct ordered; [|cbn; lia]. intros _ rest. exists n. by apply ordered_decode.
  - destruct v as [| | | |us]; try done. cbn in E. simplify_eq. cbn in Hv. apply timestamp_int64 in Hv as Hi. split_and!.
    + cbn. rewrite decodeInt64_encode by done. cbn. unfold checkTimestamp.
      destruct (Z.ltb_spec us minTimestampMicros); [lia|]. destruct (Z.ltb_spec maxTimestampMicros us); [lia|]. done.
    + destruct ordered; [cbn; lia|]. intros _. apply length_be64.
    + destruct ordered; [|cbn; lia]. intros _ rest. exists us. by apply ordered_decode.
Qed.

(** ** Delimiters *)

(** No proper end of the delimiter is also a beginning of it. *)
Definition unbordered (d : bytes) : Prop :=
  forall e s u, e <> [] -> s <> [] -> d = e ++ s -> d = s ++ u -> False.

Lemma unbordered_single c : unbordered [c].
Proof. intros [|x [|y e]] [|z s] u He Hs H1 _; try done; by destruct e. Qed.

Lemma Contains_cons c s d : Contains (c :: s) d = HasPrefix (c :: s) d || Contains s d.
Proof.
  unfold Contains. cbn [Index]. destruct (HasPrefix (c :: s) d); cbn [orb]; [by apply bool_decide_eq_true_2; eexists|].
  apply bool_decide_ext. rewrite fmap_is_Some. done.
Qed.

Lemma Index_field d e rest :
  unbordered d -> Contains e d = false -> Index (e ++ d ++ rest) d = Some (length e).
Proof.
  intros Hd. induction e as [|c e IH]; intros Hc; cbn [app length].
  { assert (HasPrefix (d ++ rest) d = true) as Hp by (apply HasPrefix_spec; eauto). destruct (d ++ rest); cbn [Index]; by rewrite Hp. }
  rewrite Contains_cons in Hc. apply orb_false_iff in Hc as [Hp Hc].
  cbn [Index]. rewrite (IH Hc). destruct (HasPrefix (c :: e ++ d ++ rest) d) eqn:Hpre; [|done]. exfalso.
  apply HasPrefix_spec in Hpre as [t E]. rewrite app_comm_cons in E. destruct (app_eq_app _ _ _ _ E) as (s & [[E1 E2]|[E1 E2]]).
  - (* the occurrence lies inside the field *)
    assert (HasPrefix (c :: e) d = true) as Hf by (apply HasPrefix_spec; exists s; done). congruence.
  - (* it overlaps the delimiter *)
    destruct s as [|x s].
    { rewrite app_nil_r in E1. assert (HasPrefix (c :: e) d = true) as Hf by (apply HasPrefix_spec; exists []; by rewrite app_nil_r). congruence. }
    destruct (app_eq_app _ _ _ _ E2) as (u & [[E3 E4]|[E3 E4]]).
    + by apply (Hd (c :: e) (x :: s) u).
    + apply (f_equal length) in E1, E3. rewrite length_app in E1, E3. cbn in *. lia.
Qed.

(** Reading a field takes exactly its bytes. *)
Lemma takeField_ok t v e d (is_last : bool) (tl : bytes) :
  encodeKeyField t v = Ret e -> value_ok t v -> unbordered d ->
  (fixedKeyWidth t =? 0) && Contains e d = false ->
  (if is_last then tl = [] else exists rest, tl = d ++ rest) ->
  takeField t is_last (e ++ tl) d = Ret (e, tl).
Proof.
  intros E Hv Hd Hc Htl. destruct (field_roundtrip t v e E Hv) as (_ & Hfix & Hself). unfold takeField.
  destruct (Z.ltb_spec 0 (fixedKeyWidth t)) as [Hpos|Hnpos].
  { specialize (Hfix Hpos). destruct (Nat.ltb_spec (length (e ++ tl)) (Z.to_nat (fixedKeyWidth t))) as [Hlt|_].
    { rewrite length_app in Hlt. lia. }
    by rewrite <- Hfix, take_app_length, drop_app_length. }
  destruct (Z.ltb_spec (fixedKeyWidth t) 0) as [Hneg|Hnneg].
  { destruct (Hself Hneg tl) as [n ->]. cbn. by rewrite take_app_length, drop_app_length. }
  rewrite (proj2 (Z.eqb_eq _ _)) in Hc by lia. cbn [andb] in Hc. destruct is_last.
  - subst tl. rewrite app_nil_r, Hc. done.
  - destruct Htl as [rest ->]. rewrite Index_field by done. by rewrite take_app_length, drop_app_length.
Qed.

Lemma decodeDelimited_join d fields : forall vals encs (first : bool),
  unbordered d -> encodeFields fields vals = Ret encs -> Forall2 (fun f v => value_ok (FieldType f) v) fields vals ->
  delimiterInField fields encs d = false -> fields <> [] ->
  decodeDelimited d first fields ((if first then [] else d) ++ joinBytes encs d) = Ret (vals, []).
Proof.
  induction fields as [|f fields IH]; intros vals encs first Hd E Hv Hc Hne; [done|].
  inversion Hv as [|? v ? vs Hv1 Hvs]; subst. cbn [encodeFields] in E.
  destruct (encodeKeyField (FieldType f) v) as [e| |] eqn:Ee; try done. cbn [mbind outcome_bind] in E.
  destruct (encodeFields fields vs) as [es| |] eqn:Ees; try done. cbn [mbind outcome_bind] in E. injection E as <-.
  cbn [delimiterInField] in Hc. apply orb_false_iff in Hc as [Hc1 Hc2].
  destruct (field_roundtrip _ _ _ Ee Hv1) as (Hdec & _ & _). cbn [decodeDelimited].
  assert ((if first then Ret ((if first then [] else d) ++ joinBytes (e :: es) d)
    else if HasPrefix ((if first then [] else d) ++ joinBytes (e :: es) d) d
         then Ret (drop (length d) ((if first then [] else d) ++ joinBytes (e :: es) d)) else Err InvalidArgument)
    = Ret (joinBytes (e :: es) d)) as ->.
  { destruct first; [done|]. assert (HasPrefix (d ++ joinBytes (e :: es) d) d = true) as -> by (apply HasPrefix_spec; eauto).
    by rewrite drop_app_length. }
  cbn [mbind outcome_bind]. destruct fields as [|f' fields].
  - cbn in Ees. simplify_eq. inversion Hvs; subst. cbn [joinBytes].
    rewrite <- (app_nil_r e). rewrite (takeField_ok _ v) by done. cbn [mbind outcome_bind]. rewrite Hdec. done.
  - assert (exists e' es', es = e' :: es') as (e' & es' & ->).
    { inversion Hvs; subst. cbn [encodeFields] in Ees. inv_outcome. eauto. }
    change (joinBytes (e :: e' :: es') d) with (e ++ d ++ joinBytes (e' :: es') d).
    rewrite (takeField_ok _ v) by (try done; by eexists). cbn [mbind outcome_bind]. rewrite Hdec. cbn [invalid mbind outcome_bind].
    specialize (IH vs (e' :: es') false Hd Ees Hvs Hc2 ltac:(done)). cbn iota in IH. by rewrite IH.
Qed.

Lemma decodeFields_encode fields : forall vals encs,
  encodeFields fields vals = Ret encs -> Forall2 (fun f v => value_ok (FieldType f) v) fields vals ->
  decodeFields fields encs = Ret vals /\ length encs = length fields.
Proof.
  induction fields as [|f fields IH]; intros vals encs E Hv; inversion Hv as [|? v ? vs Hv1 Hvs]; subst; cbn [encodeFields] in E.
  { by simplify_eq. }
  destruct (encodeKeyField (FieldType f) v) as [e| |] eqn:Ee; try done. cbn [mbind outcome_bind] in E.
  destruct (encodeFields fields vs) as [es| |] eqn:Ees; try done. cbn [mbind outcome_bind] in E. injection E as <-.
  destruct (field_roundtrip _ _ _ Ee Hv1) as (Hdec & _ & _). destruct (IH _ _ Ees Hvs) as [H1 H2].
  cbn [decodeFields length]. rewrite Hdec. cbn [invalid mbind outcome_bind]. rewrite H1. split; [done|lia].
Qed.

(** ** Properties *)

(** Two integer fields and a string field with null escapes. *)
Module SampleKey.
Definition fields : list Type_Struct_Field :=
  [mkField [97] (Type_Int64 true); mkField [98] (Type_String [45]); mkField [99] (Type_Timestamp false)].
Definition vals : list keyValue := [KV_Int64 (-300); KV_String [45; 45]; KV_Timestamp 1700000000000000].
Definition delimited : Type_Struct := mkStruct fields (Encoding_DelimitedBytes [35]).
Definition ordered : Type_Struct := mkStruct fields Encoding_OrderedCodeBytes.
End SampleKey.

(** C15: A row key encoded by a schema decodes to the same values: for singleton,
    ordered-code and delimited encodings alike, null escapes, ordered-code and
    big-endian integers included, with any delimiter none of whose proper ends
    is also its beginning (every one-byte delimiter is such). *)
Theorem key_roundtrip schema vals key :
  keySchemaTypes (Some schema) = Ret tt -> Fields schema <> [] ->
  match Encoding schema with Encoding_DelimitedBytes d => unbordered d | _ => True end ->
  Forall2 (fun f v => value_ok (FieldType f) v) (Fields schema) vals ->
  encodeKeyInternal schema vals = Ret key -> decodeKeyInternal schema key = Ret vals.
Proof.
  intros Hs Hne Hd Hv E. unfold encodeKeyInternal in E. destruct (encodeFields (Fields schema) vals) as [encs| |] eqn:Ee; try done.
  cbn [mbind outcome_bind] in E. destruct (decodeFields_encode _ _ _ Ee Hv) as [Hdec Hl].
  unfold keySchemaTypes in Hs. destruct (foldM _ tt (Fields schema)); try done. cbn [mbind outcome_bind] in Hs.
  unfold decodeKeyInternal. destruct (Encoding schema) as [| |d|]; try done.
  - destruct (Fields schema) as [|f [|f' fs]]; try done. inversion Hv as [|? v ? vs Hv1 Hvs]; subst. inversion Hvs; subst.
    cbn [encodeFields] in Ee. destruct (encodeKeyField (FieldType f) v) as [e| |] eqn:Ef; try done.
    cbn in Ee. simplify_eq. destruct (field_roundtrip _ _ _ Ef Hv1) as (-> & _). done.
  - destruct encs as [|e es]; [destruct (Fields schema); [done|cbn in Hl; lia]|].
    destruct (delimiterInField (Fields schema) (e :: es) d) eqn:Ec; [done|].
    assert (key = joinBytes (e :: es) d) as -> by congruence.
    pose proof (decodeDelimited_join d (Fields schema) vals (e :: es) true Hd Ee Hv Ec Hne) as Hj.
    cbn [app] in Hj. by rewrite Hj.
  - simplify_eq. rewrite <- Hl, split_join by (destruct encs; [destruct (Fields schema)|]; done). done.
Qed.

Lemma key_roundtrip_witness :
  exists key, encodeKeyInternal SampleKey.delimited SampleKey.vals = Ret key /\
    decodeKeyInternal SampleKey.delimited key = Ret SampleKey.vals.
Proof.
  eexists. split; [vm_compute; reflexivity|]. apply key_roundtrip.
  - reflexivity.
  - discriminate.
  - apply unbordered_single.
  - repeat constructor; vm_compute; intuition discriminate.
  - vm_compute. reflexivity.
Defined.

(** The ordered-code integer encoding is order preserving and prefix free:
    the code of a smaller integer compares below the code of a larger one
    whatever bytes follow each; and the decoder reads each code back with its
    length, whatever follows. *)
Theorem ordered_int64_order v w r s :
  is_int64 v -> is_int64 w ->
  bytes_compare (appendOrderedInt64 [] v ++ r) (appendOrderedInt64 [] w ++ s) =
    (match v ?= w with Eq => bytes_compare r s | c => c end) /\
  decodeOrderedInt64 (appendOrderedInt64 [] v ++ r) = Ret (v, length (appendOrderedInt64 [] v)).
Proof.
  intros Hv Hw. split; [|by apply ordered_decode]. destruct (Z.compare_spec v w) as [->|Hlt|Hgt].
  - apply compare_app.
  - by apply differ_compare, ordered_differ.
  - rewrite bytes_compare_antisym. by rewrite (differ_compare _ _ s r (ordered_differ w v Hw Hv Hgt)).
Qed.

Lemma ordered_int64_order_witness :
  bytes_compare (appendOrderedInt64 [] (-9223372036854775808) ++ [1]) (appendOrderedInt64 [] 64 ++ []) = Lt.
Proof. apply (ordered_int64_order (-9223372036854775808) 64 [1] []); vm_compute; split; discriminate. Defined.

(** C16: Ordered-code keys sort as their field tuples do, field by field, and
    splitting a joined key gives the fields back. *)
Theorem ordered_code_key_order encs1 encs2 :
  Forall all_bytes encs1 -> Forall all_bytes encs2 -> length encs1 = length encs2 -> encs1 <> [] ->
  bytes_compare (orderedCodeJoin encs1) (orderedCodeJoin encs2) = fields_compare encs1 encs2 /\
  orderedCodeSplit (orderedCodeJoin encs1) (length encs1) = Ret encs1.
Proof.
  intros H1 H2 Hl Hne. split; [|by apply split_join].
  assert (forall a b, length a = length b -> fields_compare b a = CompOpp (fields_compare a b)) as Hanti.
  { induction a as [|x a IH]; intros [|y b] Hab; cbn in *; try done.
    rewrite (bytes_compare_antisym x y). destruct (bytes_compare x y) eqn:E; cbn; [apply IH; lia|done|done]. }
  assert (forall a b, length a = length b -> fields_compare a b = Eq -> a = b) as Heq.
  { induction a as [|x a IH]; intros [|y b] Hab E; cbn in *; try done.
    destruct (bytes_compare x y) eqn:Ex; try done. apply bytes_compare_eq in Ex as ->. f_equal. apply IH; [lia|done]. }
  destruct (fields_compare encs1 encs2) eqn:E.
  - rewrite (Heq _ _ Hl E). apply bytes_compare_refl.
  - by apply join_compare.
  - rewrite bytes_compare_antisym, join_compare; [done|done|done|lia|]. rewrite Hanti by lia. by rewrite E.
Qed.

Lemma ordered_code_key_order_witness :
  bytes_compare (orderedCodeJoin [[]; [0; 7]]) (orderedCodeJoin [[]; [0; 8]]) = Lt /\
  orderedCodeSplit (orderedCodeJoin [[]; [0; 7]]) 2 = Ret [[]; [0; 7]].
Proof. apply (ordered_code_key_order [[]; [0; 7]] [[]; [0; 8]]); [repeat constructor; lia|repeat constructor; lia|reflexivity|discriminate]. Defined.

(** A delimiter that overlaps itself breaks the round trip: with the accepted
    delimiter [aa], the fields [xa] and [y] encode although neither contains the
    delimiter, and the key decodes without error to other values. *)
Theorem delimiter_overlap :
  let schema := mkStruct [mkField [97] (Type_String []); mkField [98] (Type_String [])] (Encoding_DelimitedBytes (str "aa")) in
  let vals := [KV_String (str "xa"); KV_String (str "y")] in
  keySchemaTypes (Some schema) = Ret tt /\
  exists key, encodeKeyInternal schema vals = Ret key /\
    decodeKeyInternal schema key = Ret [KV_String (str "x"); KV_String (str "ay")].
Proof. cbn zeta. split; [reflexivity|]. eexists. split; vm_compute; reflexivity. Qed.
