(* ===== verification/TableAdmin.v ===== *)
(** * Table administration

    [table_admin.go] with [newTable] of [inmem.go], the table store of
    [sql_tables.go] and the parts of [operations.go], [sql_iam.go] and
    [sql_proto_store.go] its handlers call: validation, CreateTable,
    ModifyColumnFamilies, DropRowRange, DeleteTable, UndeleteTable and the purge
    of expired tombstones. *)

From S2P Require Import Prelude Proto Rows Gc Hll Mutations Filters Server Store Tokens Targets WritePath.
From stdpp Require Import base list gmap sorting.
From Stdlib Require Import ZArith Lia.

#[local] Open Scope Z_scope.

(** ** Validation *)

Definition idChar (c : Z) : bool :=
  ((97 <=? c) && (c <=? 122)) || ((65 <=? c) && (c <=? 90)) || ((48 <=? c) && (c <=? 57)) ||
  (c =? 45) || (c =? 95) || (c =? 46).

(** [tableIDPattern] and [familyIDPattern]. *)
Definition tableIDPattern (id : bytes) : bool :=
  match id with
  | [] => false
  | c :: rest => idChar c && negb (c =? 45) && negb (c =? 46) && (length rest <=? 49)%nat && forallb idChar rest
  end.
Definition familyIDPattern (id : bytes) : bool :=
  (1 <=? length id)%nat && (length id <=? 64)%nat && forallb idChar id.


(** The [walk] of [validateGCRule]. *)
Fixpoint walkGCRule (r : GcRule) : outcome unit :=
  match r with
  | GcRule_Unset => Ret tt
  | GcRule_MaxAge ns => if ns <? 1000000 then Err InvalidArgument else Ret tt
  | GcRule_MaxNumVersions n => if n <? 1 then Err InvalidArgument else Ret tt
  | GcRule_Union subs | GcRule_Intersection subs => foldM (fun _ sub => walkGCRule sub) tt subs
  end.

Definition validateValueType (t : option Type_) : outcome unit :=
  match t with
  | None | Some Type_Unset => Ret tt
  | Some (Type_Aggregate input agg) =>
      match agg with
      | Aggregator_Sum | Aggregator_Min | Aggregator_Max =>
          match input with Type_Int64 _ => Ret tt | _ => Err InvalidArgument end
      | Aggregator_HllppUniqueCount => Ret tt
      | Aggregator_Unset => Err InvalidArgument
      end
  | Some _ => Err InvalidArgument
  end.

Definition validateRowKeySchema (schema : option Type_Struct) (families : gset bytes) : outcome unit :=
  match schema with
  | None => Ret tt
  | Some schema =>
      if Nat.eqb (length (Fields schema)) 0 then Err InvalidArgument
      else
        _ ← foldM (fun (seen : gset bytes) f =>
          let name := FieldName f in
          if Nat.eqb (length name) 0 then Err InvalidArgument
          else if bool_decide (name = str "_key") || bool_decide (name = str "_timestamp") ||
                  bool_decide (name ∈ families) then Err InvalidArgument
          else if bool_decide (name ∈ seen) then Err InvalidArgument
          else if bool_decide (FieldType f = Type_Unset) then Err InvalidArgument
          else Ret ({[ name ]} ∪ seen)) ∅ (Fields schema);
        Ret tt
  end.

(** Retention between one and seven days, in nanoseconds. *)
Definition minChangeStreamRetention : Z := 24 * 3600 * 1000000000.
Definition maxChangeStreamRetention : Z := 7 * 24 * 3600 * 1000000000.

Definition validateChangeStreamConfig (cfg : option ChangeStreamConfig) : outcome unit :=
  match cfg with
  | None => Ret tt
  | Some cfg =>
      match RetentionPeriod cfg with
      | None => Ret tt
      | Some d => if (d <? minChangeStreamRetention) || (maxChangeStreamRetention <? d)
                  then Err InvalidArgument else Ret tt
      end
  end.

(** ** Prefix ranges *)

(** [prefixRange]: the shortest upper bound of the keys with a prefix, found by
    incrementing the last byte below [0xff]. *)
Fixpoint prefixEnd (p : bytes) : option bytes :=
  match p with
  | [] => None
  | c :: p' =>
      match prefixEnd p' with
      | Some e => Some (c :: e)
      | None => if c <? 255 then Some [c + 1] else None
      end
  end.

Definition prefixRange (p : bytes) : keyRange := mkKeyRange p (default [] (prefixEnd p)).

(** ** SQL [LIKE] *)

(** [%] matches any sequence and [_] any one character; characters compare
    through the engine's case folding. *)
Section like.
Context (fold_case : Z -> Z).
Fixpoint like (pat s : bytes) : bool :=
  match pat with
  | [] => match s with [] => true | _ => false end
  | c :: pat' =>
      if c =? 37 then
        (fix any (s : bytes) : bool := like pat' s || match s with [] => false | _ :: s' => any s' end) s
      else match s with
      | [] => false
      | x :: s' => ((c =? 95) || (fold_case c =? fold_case x)) && like pat' s'
      end
  end.
End like.

Definition likePrefix (s : bytes) : bytes := ((fun c => if c =? 37 then 95 else c) <$> s) ++ [37].

(** ** Updates of a table *)

Definition set_t_storageId (t : table) (id : bytes) : table :=
  mkTable (t_parent t) (t_tableId t) id (t_counter t) (t_families t) (t_backupPolicy t) (t_deletionProtection t)
    (t_changeStream t) (t_rowKeySchema t) (t_tieredStorage t) (t_granularity t) (t_restoreInfo t)
    (t_initialSplits t) (t_createTime t) (t_deleteTime t).
Definition set_t_deleteTime (t : table) (dt : option Z) : table :=
  mkTable (t_parent t) (t_tableId t) (t_storageId t) (t_counter t) (t_families t) (t_backupPolicy t)
    (t_deletionProtection t) (t_changeStream t) (t_rowKeySchema t) (t_tieredStorage t) (t_granularity t)
    (t_restoreInfo t) (t_initialSplits t) (t_createTime t) dt.
Definition set_t_deletionProtection (t : table) (b : bool) : table :=
  mkTable (t_parent t) (t_tableId t) (t_storageId t) (t_counter t) (t_families t) (t_backupPolicy t) b
    (t_changeStream t) (t_rowKeySchema t) (t_tieredStorage t) (t_granularity t) (t_restoreInfo t)
    (t_initialSplits t) (t_createTime t) (t_deleteTime t).
Definition set_t_families (t : table) (fams : gmap bytes columnFamily) (counter : Z) : table :=
  mkTable (t_parent t) (t_tableId t) (t_storageId t) counter fams (t_backupPolicy t) (t_deletionProtection t)
    (t_changeStream t) (t_rowKeySchema t) (t_tieredStorage t) (t_granularity t) (t_restoreInfo t)
    (t_initialSplits t) (t_createTime t) (t_deleteTime t).

(** A [*table] held by one of the server's maps. *)
Inductive tableRef : Type := Ref_Table (name : bytes) | Ref_Deleted (name : bytes).

Definition deref (s : server) (ref : tableRef) : option table :=
  match ref with
  | Ref_Table name => s_tables s !! name
  | Ref_Deleted name => s_deletedTables s !! name
  end.

Definition assigned (s : server) (ref : tableRef) (t : table) : server :=
  match ref with
  | Ref_Table name => set_tables s (<[name := t]> (s_tables s))
  | Ref_Deleted name => set_deletedTables s (<[name := t]> (s_deletedTables s))
  end.

(** ** Requests *)

Record CreateTableRequest : Type := mkCreateTable {
  ct_Parent : bytes; ct_TableId : bytes;
  ct_ColumnFamilies : gmap bytes ColumnFamily;
  ct_BackupPolicy : option AutomatedBackupPolicy; ct_DeletionProtection : bool;
  ct_ChangeStream : option ChangeStreamConfig; ct_RowKeySchema : option Type_Struct;
  ct_TieredStorage : option bytes; ct_Granularity : Table_TimestampGranularity;
  ct_InitialSplits : list bytes }.

Inductive Modification : Type :=
| Mod_Create (cf : ColumnFamily)
| Mod_Update (cf : ColumnFamily) (paths : list bytes)
| Mod_Drop (b : bool)
| Mod_Unset.

Record ModifyColumnFamiliesRequest : Type := mkModifyFamilies {
  mf_Name : bytes; mf_Modifications : list (bytes * Modification) }.

Inductive DropTarget : Type := Drop_Unset | Drop_All (b : bool) | Drop_Prefix (p : bytes).
Record DropRowRangeRequest : Type := mkDropRowRange { dr_Name : bytes; dr_Target : DropTarget }.

Definition undeleteWindow : Z := 7 * 24 * 3600 * 1000000000.

Section admin.
Context {blob : Type} `{!Gob blob} `{!Env}.
(** [proto.Size] of a GC rule, the engine's case folding for [LIKE], and
    [isStrictAdmin()]. *)
Context (proto_Size : GcRule -> Z) (fold_case : Z -> Z) (strictAdmin : bool).

Definition validateGCRule (rule : option GcRule) : outcome unit :=
  match rule with
  | None => Ret tt
  | Some r => if 500 <? proto_Size r then Err InvalidArgument else walkGCRule r
  end.

Definition validateFamily (id : bytes) (cf : ColumnFamily) : outcome unit :=
  if negb (familyIDPattern id) then Err InvalidArgument
  else _ ← validateGCRule (cfm_GcRule cf); validateValueType (cfm_ValueType cf).

(** ** The stores *)

Definition SqlTables_Save (t : table) : M blob unit :=
  call (fun d => (Ret tt, set_tables_t d (<[(t_parent t, t_storageId t) := t]> (tables_t d)))).

Definition SqlTables_Delete (t : table) : M blob unit :=
  call (fun d => (Ret tt, set_tables_t d (delete (t_parent t, t_storageId t) (tables_t d)))).

(** [UPDATE rows_t SET table_id = ...]: a row that exists already under the
    new id violates the primary key. *)
Definition moveRows (p old new : bytes) (d : database blob) : outcome unit * database blob :=
  if decide (old = new) then (Ret tt, d)
  else
    let src := selectRows (mkSqlRows p old) d (mkKeyRange [] []) in
    if existsb (fun '(k, _) => bool_decide (is_Some (rows_t d !! (p, new, k)))) src then (Err Unknown, d)
    else (Ret tt, set_rows_t d
      (foldl (fun m '(k, b) => <[(p, new, k) := b]> (delete (p, old, k) m)) (rows_t d) src)).

Definition readTable (ref : tableRef) : M blob table :=
  s ← getServer; match deref s ref with Some t => mret t | None => lift Panic end.
Definition assign (ref : tableRef) (t : table) : M blob unit :=
  s ← getServer; putServer (assigned s ref t).

(** [SqlTables.Rename] changes the table it is given as it goes. *)
Definition SqlTables_Rename (ref : tableRef) (newStorageID : bytes) : M blob unit :=
  t ← readTable ref;
  _ ← call (moveRows (t_parent t) (t_storageId t) newStorageID);
  _ ← SqlTables_Delete t;
  let t := set_t_storageId t newStorageID in
  _ ← assign ref t;
  SqlTables_Save t.

Definition purgeTable (tableName : bytes) : M blob unit :=
  call (fun d => (Ret tt, set_change_stream_t d
    (filter (fun r => cr_table r <> tableName) (change_stream_t d)) (change_stream_seq d))).

(** [SqlIAMPolicies.deletePrefix]. *)
Definition iam_deletePrefix (resource : bytes) : M blob unit :=
  _ ← call (fun d => (Ret tt, set_iam_policies_t d (delete resource (iam_policies_t d))));
  call (fun d => (Ret tt, set_iam_policies_t d
    (filter (fun '(r, _) => like fold_case (likePrefix (resource ++ str "/")) r = false) (iam_policies_t d)))).

(** [listPrefix], ordered by name. *)
Definition listPrefix {T : Type} (proj : database blob -> gmap bytes T) (prefix : bytes) : M blob (list (bytes * T)) :=
  call (fun d => (Ret (isort (fun a b => bytes_leb a.1 b.1)
    (filter (fun '(n, _) => HasPrefix n prefix = true) (map_to_list (proj d)))), d)).

Definition av_remove (name : bytes) : M blob unit :=
  call (fun d => (Ret tt, set_authorized_views_t d (delete name (authorized_views_t d)))).
Definition av_put (av : AuthorizedView) : M blob unit :=
  call (fun d => (Ret tt, set_authorized_views_t d (<[av_Name av := av]> (authorized_views_t d)))).
Definition sb_remove (name : bytes) : M blob unit :=
  call (fun d => (Ret tt, set_schema_bundles_t d (delete name (schema_bundles_t d)))).
Definition sb_put (sb : SchemaBundle) : M blob unit :=
  call (fun d => (Ret tt, set_schema_bundles_t d (<[sb_Name sb := sb]> (schema_bundles_t d)))).

(** [to + strings.TrimPrefix(old, from)]. *)
Definition rebase (from to old : bytes) : bytes := to ++ (if HasPrefix old from then drop (length from) old else old).

Definition moveTableChildren (from to : bytes) : M blob unit :=
  views ← listPrefix authorized_views_t (from ++ str "/authorizedViews/");
  _ ← forM (fun _ '(_, av) =>
    let old := av_Name av in
    _ ← av_remove old;
    av_put (mkAuthorizedView (rebase from to old) (av_SubsetView av) (av_Etag av) (av_DeletionProtection av))) tt views;
  bundles ← listPrefix schema_bundles_t (from ++ str "/schemaBundles/");
  forM (fun _ '(_, sb) =>
    let old := sb_Name sb in
    _ ← sb_remove old;
    sb_put (mkSchemaBundle (rebase from to old) (sb_Etag sb) (sb_Type sb))) tt bundles.

(** [operationsServer.complete]: registers a finished operation. *)
Definition ops_complete (resource : bytes) : M blob unit :=
  s ← getServer;
  let seq := s_opSeq s + 1 in
  _ ← putServer (set_opSeq s seq);
  mapErr (fun _ => Internal) (call (fun d => (Ret tt, set_operations_t d
    ({[ str "operations/" ++ resource ++ str "/locations/local/operations/" ++ FormatInt seq ]} ∪ operations_t d)))).

(** ** CreateTable *)

Definition newTable (req : CreateTableRequest) (now : Z) : table :=
  let ids := sort_strings (map_keys (ct_ColumnFamilies req)) in
  let name := ct_Parent req ++ str "/tables/" ++ ct_TableId req in
  let '(fams, c) := foldl (fun '(fams, c) id =>
    match ct_ColumnFamilies req !! id with
    | None => (fams, c)
    | Some cf => (<[id := mkColumnFamily (name ++ str "/columnFamilies/" ++ id) c (cfm_GcRule cf) (cfm_ValueType cf)]> fams, c + 1)
    end) (∅ : gmap bytes columnFamily, 0) ids in
  mkTable (ct_Parent req) (ct_TableId req) (ct_TableId req) c fams (ct_BackupPolicy req) (ct_DeletionProtection req)
    (ct_ChangeStream req) (ct_RowKeySchema req) (ct_TieredStorage req)
    (match ct_Granularity req with TIMESTAMP_GRANULARITY_UNSPECIFIED => MILLIS | g => g end)
    None (sort_strings (ct_InitialSplits req)) now None.

Definition localRequireInstance (parent : bytes) : M blob unit :=
  if negb strictAdmin then mret tt
  else s ← getServer; if bool_decide (is_Some (s_instances s !! parent)) then mret tt else fail NotFound.

Definition CreateTable (req : CreateTableRequest) : M blob table :=
  if Nat.eqb (length (ct_Parent req)) 0 then fail InvalidArgument
  else if negb (tableIDPattern (ct_TableId req)) then fail InvalidArgument
  else
    _ ← localRequireInstance (ct_Parent req);
    _ ← lift (foldM (fun _ '(id, cf) => validateFamily id cf) tt (map_to_list (ct_ColumnFamilies req)));
    _ ← lift (validateChangeStreamConfig (ct_ChangeStream req));
    _ ← lift (validateRowKeySchema (ct_RowKeySchema req) (dom (ct_ColumnFamilies req)));
    if existsb (fun k => Nat.eqb (length k) 0) (ct_InitialSplits req) then fail InvalidArgument
    else
      let name := ct_Parent req ++ str "/tables/" ++ ct_TableId req in
      s ← getServer;
      match s_tables s !! name with
      | Some _ => fail AlreadyExists
      | None =>
          now ← timeNow;
          let tbl := newTable req now in
          _ ← mapErr storageErr (SqlTables_Save tbl);
          s ← getServer;
          _ ← putServer (set_tables s (<[name := tbl]> (s_tables s)));
          mret tbl
      end.

(** ** DeleteTable and UndeleteTable *)

(** [checkTableDeletableLocked]. *)
Definition checkTableDeletable (tbl : table) : M blob unit :=
  if t_deletionProtection tbl then fail FailedPrecondition
  else
    views ← mapErr storageErr (listPrefix authorized_views_t (table_name tbl ++ str "/authorizedViews/"));
    if existsb (fun '(_, av) => av_DeletionProtection av) views then fail FailedPrecondition
    else
      s ← getServer;
      if existsb (fun mv => bool_decide (mv_source mv = table_name tbl)) (map_vals (s_mvs s))
      then fail FailedPrecondition else mret tt.

(** The transaction of DeleteTable; [ref] is where the table is held. *)
Definition deleteTx (tbl : table) (ref : tableRef) (deleteTime : Z) : M blob unit :=
  let tombstoneID := t_tableId tbl ++ str "@deleted@" ++ FormatInt (deleteTime / 1000) in
  _ ← assign ref (set_t_deleteTime tbl (Some deleteTime));
  _ ← SqlTables_Rename ref tombstoneID;
  _ ← purgeTable (table_name tbl);
  tbl ← readTable ref;
  _ ← moveTableChildren (table_name tbl) (storageName tbl);
  iam_deletePrefix (table_name tbl).

Definition DeleteTable (name : bytes) : M blob unit :=
  s ← getServer;
  match s_tables s !! name with
  | None => fail NotFound
  | Some tbl =>
      _ ← checkTableDeletable tbl;
      deleteTime ← timeNow;
      let ref := Ref_Table name in
      res ← catch (withTx (deleteTx tbl ref deleteTime));
      match res with
      | inr _ =>
          tbl ← readTable ref;
          _ ← assign ref (set_t_storageId (set_t_deleteTime tbl None) (t_tableId tbl));
          fail Internal
      | inl _ =>
          tbl ← readTable ref;
          s ← getServer;
          putServer (set_deletedTables (set_tables s (delete name (s_tables s)))
            (<[storageName tbl := tbl]> (s_deletedTables s)))
      end
  end.

(** The tombstone of [name] deleted last, with its key. *)
Definition latestTombstone (s : server) (name : bytes) : option (bytes * table) :=
  foldl (fun latest '(k, t) =>
    if bool_decide (table_name t = name) &&
       match latest with None => true | Some (_, l) => default 0 (t_deleteTime l) <? default 0 (t_deleteTime t) end
    then Some (k, t) else latest) None (map_to_list (s_deletedTables s)).

Definition UndeleteTable (name : bytes) : M blob unit :=
  s ← getServer;
  match s_tables s !! name with
  | Some _ => fail AlreadyExists
  | None =>
      match latestTombstone s name with
      | None => fail NotFound
      | Some (key, latest) =>
          now ← timeNow;
          if undeleteWindow <? now - default 0 (t_deleteTime latest) then fail NotFound
          else
            let ref := Ref_Deleted key in
            let tombstoneName := storageName latest in
            _ ← assign ref (set_t_deletionProtection (set_t_deleteTime latest None) true);
            res ← catch (withTx (
              _ ← moveTableChildren tombstoneName (table_name latest);
              SqlTables_Rename ref (t_tableId latest)));
            cur ← readTable ref;
            match res with
            | inr _ =>
                _ ← assign ref (set_t_deletionProtection (set_t_deleteTime cur (t_deleteTime latest))
                      (t_deletionProtection latest));
                fail Internal
            | inl _ =>
                s ← getServer;
                _ ← putServer (set_tables (set_deletedTables s (delete tombstoneName (s_deletedTables s)))
                      (<[table_name cur := cur]> (s_tables s)));
                ops_complete (table_name cur)
            end
      end
  end.

Definition purgeTableStorage (t : table) : M blob unit :=
  withTx (_ ← SqlRows_clear (table_rows t); SqlTables_Delete t).

Definition purgeExpiredTombstones : M blob unit :=
  s ← getServer;
  forM (fun _ '(name, t) =>
    now ← timeNow;
    if now - default 0 (t_deleteTime t) <=? undeleteWindow then mret tt
    else
      _ ← purgeTableStorage t;
      names ← listPrefix authorized_views_t (name ++ str "/authorizedViews/");
      _ ← forM (fun _ '(n, _) => av_remove n) tt names;
      names ← listPrefix schema_bundles_t (name ++ str "/schemaBundles/");
      _ ← forM (fun _ '(n, _) => sb_remove n) tt names;
      s ← getServer;
      putServer (set_deletedTables s (delete name (s_deletedTables s)))) tt (map_to_list (s_deletedTables s)).
End admin.
