(* ===== verification/TableOps.v ===== *)
(** * Schema changes and bulk deletion

    ModifyColumnFamilies and DropRowRange of [table_admin.go]: the two admin
    handlers that rewrite a live table's rows. *)

From S2P Require Import Prelude Proto Rows Gc Hll Mutations Filters Server Store Tokens Targets WritePath Chunks ReadPath TableAdmin.
From stdpp Require Import base list gmap sorting.
From Stdlib Require Import ZArith Lia.

#[local] Open Scope Z_scope.

(** ** ModifyColumnFamilies *)

(** What the loop over the modifications builds. *)
Record modifyState : Type := mkModify {
  md_next : gmap bytes columnFamily; md_counter : Z; md_dropped : list bytes }.

(** The paths an update without a mask stands for. *)
Definition updatePaths (cf : ColumnFamily) (paths : list bytes) : list bytes :=
  match paths with
  | [] => str "gc_rule" :: match cfm_ValueType cf with Some _ => [str "value_type"] | None => [] end
  | _ => paths
  end.

Definition updateFamily (cf : ColumnFamily) (cur : columnFamily) (path : bytes) : outcome columnFamily :=
  if bool_decide (path = str "gc_rule")
  then Ret (mkColumnFamily (cf_Name cur) (cf_Order cur) (cfm_GcRule cf) (cf_ValueType cur))
  else if bool_decide (path = str "value_type") then
    if bool_decide (cf_ValueType cur = cfm_ValueType cf) then Ret cur else Err InvalidArgument
  else Err InvalidArgument.

(** The rows that lose a family, without it. *)
Definition withoutFamilies (fams : list bytes) (r : row) : row :=
  set_families r (foldl (fun m f => delete f m) (families r) fams).

Section ops.
Context {blob : Type} `{!Gob blob} `{!Env}.
Context (proto_Size : GcRule -> Z).

(** One modification. *)
Definition modifyFamily (tableName : bytes) (st : modifyState) (m : bytes * Modification) : outcome modifyState :=
  let '(id, mod_) := m in
  match mod_ with
  | Mod_Create cf =>
      _ ← validateFamily proto_Size id cf;
      match md_next st !! id with
      | Some _ => Err AlreadyExists
      | None =>
          let new := mkColumnFamily (tableName ++ str "/columnFamilies/" ++ id) (md_counter st) (cfm_GcRule cf) (cfm_ValueType cf) in
          Ret (mkModify (<[id := new]> (md_next st)) (md_counter st + 1) (md_dropped st))
      end
  | Mod_Update cf paths =>
      match md_next st !! id with
      | None => Err NotFound
      | Some cur =>
          _ ← validateGCRule proto_Size (cfm_GcRule cf);
          cur ← foldM (updateFamily cf) cur (updatePaths cf paths);
          Ret (mkModify (<[id := cur]> (md_next st)) (md_counter st) (md_dropped st))
      end
  | Mod_Drop b =>
      if negb b then Err InvalidArgument
      else match md_next st !! id with
      | None => Err NotFound
      | Some _ => Ret (mkModify (delete id (md_next st)) (md_counter st) (md_dropped st ++ [id]))
      end
  | Mod_Unset => Err InvalidArgument
  end.

(** [dropFamilyData]. *)
Definition dropFamilyData (t : SqlRows) (fams : list bytes) : M blob unit :=
  changed ← SqlRows_scan t (mkKeyRange [] []) false (fun changed r =>
    let touched := existsb (fun f => bool_decide (is_Some (families r !! f))) fams in
    mret (if touched then changed ++ [withoutFamilies fams r] else changed, true)) [];
  forM (fun _ r => SqlRows_save t r) tt changed.

Definition ModifyColumnFamilies (req : ModifyColumnFamiliesRequest) : M blob table :=
  s ← getServer;
  tbl ← lift (localRequireTable s (mf_Name req));
  match mf_Modifications req with
  | [] => fail InvalidArgument
  | mods =>
      st ← lift (foldM (modifyFamily (mf_Name req)) (mkModify (t_families tbl) (t_counter tbl) []) mods);
      _ ← lift (match t_rowKeySchema tbl with
                | Some schema => validateRowKeySchema (Some schema) (dom (md_next st))
                | None => Ret tt
                end);
      let candidate := set_t_families tbl (md_next st) (md_counter st) in
      _ ← mapErr (fun _ => Internal) (withTx (
        _ ← SqlTables_Save candidate;
        match md_dropped st with
        | [] => mret tt
        | dropped => dropFamilyData (table_rows tbl) dropped
        end));
      s ← getServer;
      _ ← putServer (set_tables s (<[mf_Name req := candidate]> (s_tables s)));
      mret candidate
  end.

(** ** DropRowRange *)

(** The commit of a dropped row: one family deletion per family. *)
Definition dropCommit (r : row) : rowCommit :=
  mkCommit (key r) (Some r) (newRow (key r))
    ((fun fam => mut (Mutation_DeleteFromFamily (Name fam))) <$> sortedFamilies r) [].

Definition DropRowRange (req : DropRowRangeRequest) : M blob unit :=
  s ← getServer;
  tbl ← lift (localRequireTable s (dr_Name req));
  rng ← lift (match dr_Target req with
              | Drop_All b => if negb b then Err InvalidArgument else Ret (mkKeyRange [] [])
              | Drop_Prefix p => if Nat.eqb (length p) 0 then Err InvalidArgument else Ret (prefixRange p)
              | Drop_Unset => Err InvalidArgument
              end);
  deleted ← mapErr (fun _ => Internal) (withTx (
    deleted ← SqlRows_scan (table_rows tbl) rng false (fun out r => mret (out ++ [dropCommit r], true)) [];
    _ ← (match dr_Target req with
         | Drop_All _ => SqlRows_clear (table_rows tbl)
         | _ => forM (fun _ c => SqlRows_remove (table_rows tbl) (rc_key c)) tt deleted
         end);
    if negb (changeStreamEnabled tbl) then mret deleted
    else
      commitMicros ← nowMicro;
      _ ← forM (fun _ c => changeLog_append (table_name tbl) (rc_key c) USER commitMicros (rc_userChanges c)) tt deleted;
      mret deleted));
  afterCommit tbl deleted.
End ops.

(** ** Prefix ranges *)

Lemma prefixEnd_None p : prefixEnd p = None -> Forall (fun c => 255 <= c) p.
Proof.
  induction p as [|c p IH]; cbn; [constructor|]. destruct (prefixEnd p); [done|].
  destruct (Z.ltb_spec c 255); [done|]. intros _. constructor; auto.
Qed.

Lemma prefixEnd_nonempty p e : prefixEnd p = Some e -> e <> [].
Proof. destruct p as [|c p]; cbn; [done|]. destruct (prefixEnd p); [by intros [= <-]|]. destruct (c <? 255); [by intros [= <-]|done]. Qed.

(** Keys with the prefix are those from the prefix to its end. *)
Lemma prefixEnd_spec p : forall k, all_bytes p -> all_bytes k ->
  HasPrefix k p = true <->
  bytes_leb p k = true /\ match prefixEnd p with Some e => bytes_ltb k e = true | None => True end.
Proof.
  induction p as [|c p IH]; intros k Hp Hk; [cbn; by rewrite bytes_leb_nil_l|].
  apply Forall_cons in Hp as [[Hc0 Hc1] Hp]. destruct k as [|d k]; [cbn; split; [done|by intros [? _]]|].
  apply Forall_cons in Hk as [[Hd0 Hd1] Hk]. cbn [HasPrefix prefixEnd]. rewrite andb_true_iff, Z.eqb_eq, (IH k Hp Hk).
  unfold bytes_leb, bytes_ltb in *. cbn [bytes_compare].
  destruct (prefixEnd p) as [e|] eqn:Ee.
  - cbn [bytes_compare]. destruct (Z.compare_spec c d) as [<-|Hlt|Hgt].
    + rewrite Z.compare_refl. tauto.
    + rewrite (proj2 (Z.compare_gt_iff d c)) by lia. split; [intros [? _]; lia|by intros [_ ?]].
    + split; [intros [? _]; lia|by intros [? _]].
  - destruct (Z.ltb_spec c 255) as [Hc|Hc]; cbn [bytes_compare].
    + destruct (Z.compare_spec c d) as [<-|Hlt|Hgt].
      * rewrite (proj2 (Z.compare_lt_iff c (c + 1))) by lia. tauto.
      * split; [intros [? _]; lia|]. intros [_ H]. destruct (Z.compare_spec d (c + 1)) as [->|?|?]; [|lia|done].
        by destruct k.
      * split; [intros [? _]; lia|by intros [? _]].
    + assert (c = 255) as -> by lia. destruct (Z.compare_spec 255 d) as [<-|Hlt|Hgt]; [tauto|lia|].
      split; [intros [? _]; lia|by intros [? _]].
Qed.

Lemma contains_prefixRange p k :
  all_bytes p -> all_bytes k -> contains (prefixRange p) k = HasPrefix k p.
Proof.
  intros Hp Hk. apply eq_bool_prop_intro. rewrite !Is_true_true, contains_spec, (prefixEnd_spec p k Hp Hk). unfold prefixRange. cbn.
  destruct (prefixEnd p) as [e|] eqn:Ee; cbn; [|tauto]. apply prefixEnd_nonempty in Ee. tauto.
Qed.

(** ** Loops over rows *)

Section rows.
Context {blob : Type} `{!Gob blob} `{!Env}.
Implicit Types (w : world blob) (d : database blob) (t : SqlRows).

Lemma remove_Ret t k w w' :
  SqlRows_remove t k w = (Ret tt, w') ->
  row_updated (w_db w) (w_db w') t k None /\ rows_only (w_db w) (w_db w') /\ w_srv w' = w_srv w /\
  (db_ok (w_db w) -> db_ok (w_db w')).
Proof.
  intros E. assert (SqlRows_save t (newRow k) w = (Ret tt, w')) as E' by exact E.
  apply save_Ret in E' as (Hup & Hro & Hs & Hok). split; [exact Hup|]. split; [done|]. split; [done|].
  intros Hd. apply Hok; [done|]. intros n f. cbn. by rewrite lookup_empty.
Qed.

Lemma rows_only_trans d1 d2 d3 : rows_only d1 d2 -> rows_only d2 d3 -> rows_only d1 d3.
Proof. unfold rows_only. intros H1 H2. intuition congruence. Qed.
Lemma rows_only_refl d : rows_only d d.
Proof. done. Qed.

(** [d'] is [d] with the rows of [t] under [keys] replaced by [v]. *)
Definition rows_updated d d' t (keys : list bytes) (v : bytes -> option row) : Prop :=
  forall t' k, row_at d' t' k = if decide (t' = t /\ k ∈ keys) then v k else row_at d t' k.

Lemma rows_updated_step d d1 d2 t k keys (v : bytes -> option row) :
  k ∉ keys -> row_updated d d1 t k (v k) -> rows_updated d1 d2 t keys v -> rows_updated d d2 t (k :: keys) v.
Proof.
  intros Hk H1 H2 t' k'. rewrite H2. destruct (decide (t' = t /\ k' ∈ keys)) as [[-> Hin]|Hn].
  - rewrite decide_True; [done|]. split; [done|by right].
  - rewrite H1. destruct (decide (t' = t /\ k' = k)) as [[-> ->]|Hn'].
    + rewrite decide_True; [done|]. split; [done|left].
    + rewrite decide_False; [done|]. intros [-> [->|?]%elem_of_cons]; tauto.
Qed.

(** A loop of row writes under distinct keys. *)
Lemma loop_updates {A : Type} (f : A -> M blob unit) (kf : A -> bytes) (v : bytes -> option row) t l : forall w w',
  NoDup (kf <$> l) ->
  (forall a w w', a ∈ l -> db_ok (w_db w) -> f a w = (Ret tt, w') ->
    row_updated (w_db w) (w_db w') t (kf a) (v (kf a)) /\ rows_only (w_db w) (w_db w') /\ w_srv w' = w_srv w /\ db_ok (w_db w')) ->
  db_ok (w_db w) -> forM (fun _ a => f a) tt l w = (Ret tt, w') ->
  rows_updated (w_db w) (w_db w') t (kf <$> l) v /\ rows_only (w_db w) (w_db w') /\ w_srv w' = w_srv w /\ db_ok (w_db w').
Proof.
  induction l as [|a l IH]; intros w w' Hnd Hf Hd E; cbn in E.
  { apply ret_Ret in E as [_ ->]. split_and!; try done. intros t' k. rewrite decide_False; [done|]. intros [_ ?]. set_solver. }
  apply NoDup_cons in Hnd as [Hni Hnd]. apply bind_Ret in E as ([] & w1 & E1 & E2).
  destruct (Hf a w w1 ltac:(left) Hd E1) as (Hu & Hr & Hs & Hd1).
  destruct (IH w1 w' Hnd) as (Hu' & Hr' & Hs' & Hd'); [|done|done|].
  { intros b wa wb Hin. apply Hf. by right. }
  split_and!; [by eapply rows_updated_step|by eapply rows_only_trans|congruence|done].
Qed.

Lemma clear_stored t d t' k :
  stored_at (set_rows_t d (filter (fun '((p, i, _), _) => ~ (p = sr_parent t /\ i = sr_tableId t)) (rows_t d))) t' k =
  if decide (t' = t) then None else stored_at d t' k.
Proof.
  unfold stored_at. cbn [rows_t set_rows_t]. rewrite map_lookup_filter. destruct t as [p i], t' as [p' i']. cbn.
  destruct (rows_t d !! (p', i', k)) as [b|]; cbn; [|by case_decide].
  case_decide as Hd.
  - injection Hd as -> ->. rewrite option_guard_False; [done|tauto].
  - rewrite option_guard_True; [done|]. intros [-> ->]. done.
Qed.

Lemma clear_Ret t w w' :
  SqlRows_clear t w = (Ret tt, w') ->
  (forall t' k, row_at (w_db w') t' k = if decide (t' = t) then None else row_at (w_db w) t' k) /\
  rows_only (w_db w) (w_db w') /\ w_srv w' = w_srv w /\ (db_ok (w_db w) -> db_ok (w_db w')).
Proof.
  unfold SqlRows_clear. intros (d & [= <-] & ->)%call_Ret. cbn [w_db w_srv]. split_and!; try done.
  - intros t' k. unfold row_at. rewrite clear_stored. by case_decide.
  - intros Hok t' k b. unfold row_at. rewrite clear_stored. case_decide; [done|]. apply Hok.
Qed.

(** ** Dropping families *)

Lemma lookup_deletes (fams : list bytes) (m : gmap bytes family) f :
  foldl (fun m f => delete f m) m fams !! f = if decide (f ∈ fams) then None else m !! f.
Proof.
  revert m. induction fams as [|g fams IH]; intros m; cbn [foldl]; [rewrite decide_False; [done|set_solver]|].
  rewrite IH. destruct (decide (f ∈ fams)) as [Hin|Hn]; [rewrite decide_True; [done|by right]|].
  destruct (decide (f = g)) as [->|Hne]; [rewrite decide_True by left; apply lookup_delete_eq|].
  rewrite decide_False; [by apply lookup_delete_ne|]. set_solver.
Qed.

Lemma withoutFamilies_stored fams r : stored_row r -> stored_row (withoutFamilies fams r).
Proof. intros Hr n f. cbn. rewrite lookup_deletes. case_decide; [done|]. apply Hr. Qed.

Lemma withoutFamilies_id fams r :
  existsb (fun f => bool_decide (is_Some (families r !! f))) fams = false -> withoutFamilies fams r = r.
Proof.
  intros E. unfold withoutFamilies. destruct r as [k m]. cbn in *. unfold set_families. cbn. f_equal.
  apply map_eq. intros f. rewrite lookup_deletes. case_decide as Hin; [|done]. symmetry. apply eq_None_not_Some.
  intros Hs. enough (existsb (fun f => bool_decide (is_Some (m !! f))) fams = true) by congruence.
  apply existsb_exists. exists f. split; [by apply list_elem_of_In|]. by apply bool_decide_eq_true.
Qed.

Lemma cells_at_withoutFamilies fams r fam col :
  cells_at (withoutFamilies fams r) fam col = if decide (fam ∈ fams) then [] else cells_at r fam col.
Proof. unfold cells_at. cbn. rewrite lookup_deletes. by case_decide. Qed.

Lemma foldl_filter_map {A B : Type} (p : A -> bool) (g : A -> B) l : forall acc,
  foldl (fun acc a => if p a then acc ++ [g a] else acc) acc l = acc ++ (g <$> filter (fun a => p a = true) l).
Proof.
  induction l as [|a l IH]; intros acc; cbn [foldl]; [by rewrite app_nil_r|]. rewrite IH, filter_cons.
  destruct (p a); [rewrite decide_True by done; by rewrite <- app_assoc|]. by rewrite decide_False.
Qed.

Lemma dropFamilyData_Ret t fams w w' :
  db_ok (w_db w) -> dropFamilyData t fams w = (Ret tt, w') ->
  (forall t' k, row_at (w_db w') t' k =
    if decide (t' = t) then row_at (w_db w) t k ≫= fun r => stored_form (withoutFamilies fams r) else row_at (w_db w) t' k) /\
  rows_only (w_db w) (w_db w') /\ w_srv w' = w_srv w /\ db_ok (w_db w').
Proof.
  intros Hd. unfold dropFamilyData, SqlRows_scan. intros E. apply bind_Ret in E as (changed & w1 & E1 & E2).
  apply bind_Ret in E1 as (rows & w0 & Es & Ev). apply scanRows_Ret in Es as (Hd0 & Hs0 & Hx & Ho).
  set (touched := fun r => existsb (fun f => bool_decide (is_Some (families r !! f))) fams) in *.
  assert (visitRows (blob := blob) (fun changed r => mret (if touched r then changed ++ [withoutFamilies fams r] else changed, true)) [] rows w0
    = (Ret changed, w1)) as Ev' by exact Ev.
  rewrite visitRows_pure, foldl_filter_map in Ev'. cbn [app] in Ev'. injection Ev' as <- <-. clear Ev.
  set (sel := filter (fun r => touched r = true) rows) in *.
  assert (forall r, r ∈ sel -> row_at (w_db w) t (key r) = Some r /\ touched r = true) as Hsel.
  { intros r [Ht Hin]%list_elem_of_filter. apply Hx in Hin as [? _]. done. }
  assert (NoDup (key <$> (withoutFamilies fams <$> sel))) as Hnd.
  { rewrite <- list_fmap_compose. change (NoDup (key <$> sel)). eapply sublist_NoDup.
    2:{ apply fmap_sublist. unfold sel. apply sublist_filter. }
    unfold key_order in Ho. clear -Ho. induction Ho as [|k l Hl IH Hk]; constructor; [|done].
    intros Hin. rewrite list.Forall_forall in Hk. specialize (Hk _ Hin). unfold key_before in Hk. by rewrite bytes_ltb_irrefl in Hk. }
  rewrite <- Hd0 in Hd, Hx, Hsel.
  destruct (loop_updates (SqlRows_save t) key (fun k => row_at (w_db w0) t k ≫= fun r => stored_form (withoutFamilies fams r)) t
    (withoutFamilies fams <$> sel) w0 w' Hnd) as (Hu & Hr & Hs & Hd'); [|done|done|].
  { intros a wa wb Hin Hda Ea. apply list_elem_of_fmap in Hin as (r & -> & Hin). apply Hsel in Hin as [Hat _].
    destruct (db_ok_row _ _ _ _ Hd Hat) as (Hst & _ & _).
    apply save_Ret in Ea as (Hup & Hro & Hsv & Hok). split_and!; [|done|done|apply Hok; [done|by apply withoutFamilies_stored]].
    change (key (withoutFamilies fams r)) with (key r) in *. rewrite Hat. exact Hup. }
  rewrite Hd0 in *. split_and!; [|done|congruence|done]. intros t' k. rewrite Hu.
  destruct (decide (t' = t)) as [->|Hne]; [|rewrite decide_False; [done|tauto]].
  case_decide as Hin; [done|]. destruct (row_at (w_db w) t k) as [r|] eqn:Er; [|done]. cbn.
  pose proof (key_row_at _ _ _ _ Er) as Hk. destruct (db_ok_row _ _ _ _ Hd Er) as (_ & _ & Hne).
  assert (touched r = false) as Ht.
  { apply not_true_is_false. intros Ht. apply Hin. split; [done|]. apply list_elem_of_fmap. exists (withoutFamilies fams r).
    split; [by cbn|]. apply list_elem_of_fmap_2, list_elem_of_filter. split; [done|]. apply Hx. rewrite Hk. split; [done|].
    unfold contains. cbn. by rewrite bytes_leb_nil_l. }
  rewrite withoutFamilies_id by done. unfold stored_form. by rewrite Hne.
Qed.
End rows.

(** ** The families of a table *)

(** Creation orders are distinct and below the counter. *)
Definition orders_ok (fams : gmap bytes columnFamily) (counter : Z) : Prop :=
  map_Forall (fun _ cf => 0 <= cf_Order cf < counter) fams /\
  forall a b ca cb, fams !! a = Some ca -> fams !! b = Some cb -> cf_Order ca = cf_Order cb -> a = b.

Lemma orders_ok_same fams counter id cur cf :
  orders_ok fams counter -> fams !! id = Some cur -> cf_Order cf = cf_Order cur -> orders_ok (<[id := cf]> fams) counter.
Proof.
  intros [Hb Hi] Hid Ho. split.
  - apply map_Forall_insert_2; [|done]. rewrite Ho. by eapply Hb.
  - intros a b ca cb Ha Hb' E. apply lookup_insert_Some in Ha as [[<- <-]|[Hna Ha]], Hb' as [[<- <-]|[Hnb Hb']]; try done.
    + apply (Hi id b cur cb); congruence.
    + apply (Hi a id ca cur); congruence.
    + by apply (Hi a b ca cb).
Qed.

Lemma orders_ok_new fams counter id cf :
  orders_ok fams counter -> 0 <= counter -> cf_Order cf = counter -> orders_ok (<[id := cf]> fams) (counter + 1).
Proof.
  intros [Hb Hi] Hc Ho. split.
  - apply map_Forall_insert_2; [lia|]. eapply map_Forall_impl; [exact Hb|]. intros. cbn in *. lia.
  - intros a b ca cb Ha Hb' E. apply lookup_insert_Some in Ha as [[<- <-]|[Hna Ha]], Hb' as [[<- <-]|[Hnb Hb']]; try done.
    + apply Hb in Hb'. cbn in Hb'. lia.
    + apply Hb in Ha. cbn in Ha. lia.
    + by apply (Hi a b ca cb).
Qed.

Lemma orders_ok_delete fams counter id : orders_ok fams counter -> orders_ok (delete id fams) counter.
Proof.
  intros [Hb Hi]. split; [by apply map_Forall_delete|].
  intros a b ca cb Ha Hb' E. apply lookup_delete_Some in Ha as [_ Ha], Hb' as [_ Hb']. by apply (Hi a b ca cb).
Qed.

Lemma updateFamily_order cf paths cur cur' : foldM (updateFamily cf) cur paths = Ret cur' -> cf_Order cur' = cf_Order cur.
Proof.
  apply (foldM_inv (fun c => cf_Order c = cf_Order cur)); [|done]. intros b p b' _ Hb. unfold updateFamily.
  repeat case_bool_decide; intros E; simplify_eq; done.
Qed.

Definition modify_ok (st : modifyState) : Prop := orders_ok (md_next st) (md_counter st) /\ 0 <= md_counter st.

Lemma modifyFamily_ok proto_Size tn st m st' : modifyFamily proto_Size tn st m = Ret st' -> modify_ok st -> modify_ok st'.
Proof.
  unfold modifyFamily, modify_ok. intros E [Ho Hc]. destruct m as [id [cf|cf paths|b|]]; [| | |done].
  - destruct (validateFamily proto_Size id cf); try done. cbn in E. destruct (md_next st !! id) eqn:Eid; [done|].
    simplify_eq. cbn. split; [by apply orders_ok_new|lia].
  - destruct (md_next st !! id) as [cur|] eqn:Eid; [|done]. destruct (validateGCRule proto_Size (cfm_GcRule cf)); try done.
    cbn [mbind outcome_bind] in E. destruct (foldM (updateFamily cf) cur _) as [cur'| |] eqn:Eu; try done. cbn in E.
    apply updateFamily_order in Eu. simplify_eq. cbn. split; [by eapply orders_ok_same|done].
  - destruct b; [|done]. cbn in E. destruct (md_next st !! id); [|done]. simplify_eq. cbn. split; [by apply orders_ok_delete|done].
Qed.

(** ** Properties *)

Section effects.
Context {blob : Type} `{!Gob blob} `{!Env}.
Implicit Types (w : world blob) (d : database blob).

Lemma row_at_rows d d' : rows_t d' = rows_t d -> forall t k, row_at d' t k = row_at d t k.
Proof. intros E t k. unfold row_at, stored_at. by rewrite E. Qed.

Lemma db_ok_rows d d' : rows_t d' = rows_t d -> db_ok d -> db_ok d'.
Proof. intros E Hd t k b Hb. rewrite (row_at_rows d d' E). unfold stored_at in *. rewrite E in Hb. by apply Hd in Hb. Qed.

Lemma Save_Ret t w w' :
  SqlTables_Save (blob := blob) t w = (Ret tt, w') ->
  w_db w' = set_tables_t (w_db w) (<[(t_parent t, t_storageId t) := t]> (tables_t (w_db w))) /\ w_srv w' = w_srv w.
Proof. unfold SqlTables_Save. intros (d & [= <-] & ->)%call_Ret. done. Qed.

Lemma withoutFamilies_nil r : withoutFamilies [] r = r.
Proof. by destruct r. Qed.
(** A loop of change records. *)
Lemma loop_appends tn micros (cs : list rowCommit) : forall w w',
  forM (fun _ c => changeLog_append (blob := blob) tn (rc_key c) USER micros (rc_userChanges c)) tt cs w = (Ret tt, w') ->
  let seq := change_stream_seq (w_db w) in
  change_stream_t (w_db w') = change_stream_t (w_db w) ++
    imap (fun i c => mkChangeRecord (seq + 1 + Z.of_nat i) tn (rc_key c) USER micros (rc_userChanges c)) cs /\
  rows_t (w_db w') = rows_t (w_db w) /\ w_srv w' = w_srv w.
Proof.
  induction cs as [|c cs IH]; intros w w' E; cbn in E; cbn zeta.
  { apply ret_Ret in E as [_ ->]. cbn. by rewrite app_nil_r. }
  apply bind_Ret in E as ([] & w1 & E1 & E2). apply changeLog_append_Ret in E1 as [Hd Hs].
  apply IH in E2 as (Hc & Hr & Hs'). rewrite Hd in Hc, Hr. cbn [change_stream_t change_stream_seq rows_t set_change_stream_t] in *.
  split_and!; [|congruence|congruence]. rewrite Hc, <- app_assoc. cbn [app imap]. do 2 f_equal.
  - by rewrite Z.add_0_r.
  - apply imap_ext. intros i c' _. cbn. f_equal. lia.
Qed.

(** The rows a request drops. *)
Definition drops (target : DropTarget) (k : bytes) : bool :=
  match target with Drop_Prefix p => HasPrefix k p | _ => true end.
Definition dropped_range (target : DropTarget) : keyRange :=
  match target with Drop_Prefix p => prefixRange p | _ => mkKeyRange [] [] end.

Lemma drop_rows_Ret tbl target deleted rows w w' :
  db_ok (w_db w) -> deleted = dropCommit <$> rows ->
  exactly (w_db w) (table_rows tbl) (fun k => contains (dropped_range target) k = true) false rows ->
  (match target with
   | Drop_All _ => SqlRows_clear (table_rows tbl)
   | _ => forM (fun _ c => SqlRows_remove (table_rows tbl) (rc_key c)) tt deleted
   end) w = (Ret tt, w') ->
  (forall t k, row_at (w_db w') t k =
    if decide (t = table_rows tbl /\ contains (dropped_range target) k = true) then None else row_at (w_db w) t k) /\
  rows_only (w_db w) (w_db w') /\ w_srv w' = w_srv w /\ db_ok (w_db w').
Proof.
  intros Hd -> [Hx Ho] E.
  assert (forall w', forM (fun _ c => SqlRows_remove (table_rows tbl) (rc_key c)) tt (dropCommit <$> rows) w = (Ret tt, w') ->
    (forall t k, row_at (w_db w') t k =
      if decide (t = table_rows tbl /\ contains (dropped_range target) k = true) then None else row_at (w_db w) t k) /\
    rows_only (w_db w) (w_db w') /\ w_srv w' = w_srv w /\ db_ok (w_db w')) as Hloop.
  { intros w2 E2. destruct (loop_updates (fun c => SqlRows_remove (table_rows tbl) (rc_key c)) rc_key (fun _ => None) (table_rows tbl)
      (dropCommit <$> rows) w w2) as (Hu & Hr & Hs & Hd2); try done.
    - rewrite <- list_fmap_compose. change (NoDup (key <$> rows)). unfold key_order in Ho. clear -Ho.
      induction Ho as [|k l Hl IH Hk]; constructor; [|done]. intros Hin. rewrite list.Forall_forall in Hk.
      specialize (Hk _ Hin). unfold key_before in Hk. by rewrite bytes_ltb_irrefl in Hk.
    - intros c wa wb _ Hda Ea. apply remove_Ret in Ea as (Hu & Hr & Hs & Hok). auto.
    - split_and!; try done. intros t k. rewrite Hu. rewrite <- list_fmap_compose. change (rc_key ∘ dropCommit) with key.
      destruct (decide (t = table_rows tbl)) as [->|Hne]; [|rewrite !decide_False; tauto].
      destruct (decide (k ∈ key <$> rows)) as [Hin|Hn].
      + rewrite decide_True by done. rewrite decide_True; [done|]. split; [done|].
        apply list_elem_of_fmap in Hin as (r & -> & Hin). by apply Hx in Hin as [_ ?].
      + rewrite decide_False by tauto. case_decide as Hc; [|done]. destruct Hc as [_ Hc].
        destruct (row_at (w_db w) (table_rows tbl) k) as [r|] eqn:Er; [|done]. exfalso. apply Hn.
        pose proof (key_row_at _ _ _ _ Er) as <-. apply list_elem_of_fmap_2. by apply Hx. }
  destruct target as [|b|p]; [by apply Hloop| |by apply Hloop].
  apply clear_Ret in E as (Hr & Hro & Hs & Hok). split_and!; auto. intros t k. rewrite Hr.
  unfold dropped_range, contains. cbn. rewrite bytes_leb_nil_l. cbn.
  destruct (decide (t = table_rows tbl)); [rewrite decide_True by done|rewrite decide_False by tauto]; done.
Qed.
End effects.

(** ** Atomicity *)

Section atomicity.
Context {blob : Type} `{!Gob blob} `{!Env}.

Lemma atomic_call1 {A : Type} (f : database blob -> outcome A * database blob) :
  (forall d, match f d with (Ret _, _) => True | (_, d') => d' = d end) -> atomic (call f).
Proof.
  intros Hf w. unfold call. destruct (driver _); [done|]. specialize (Hf (w_db w)). destruct (f (w_db w)) as [[] d]; done.
Qed.

Lemma readonly_localRequireInstance strict parent : readonly (blob := blob) (localRequireInstance strict parent).
Proof. unfold localRequireInstance. destruct strict; [|done]. apply readonly_bind; [done|]. intros s. by case_bool_decide. Qed.

Lemma readonly_checkTableDeletable tbl : readonly (blob := blob) (checkTableDeletable tbl).
Proof.
  unfold checkTableDeletable. destruct (t_deletionProtection tbl); [done|]. apply readonly_bind.
  { apply readonly_mapErr. by apply readonly_call. }
  intros views. destruct (existsb _ views); [done|]. apply readonly_bind; [done|]. intros s. by destruct (existsb _ _).
Qed.

(** [m] leaves a table in the map that holds it. *)
Definition holds {A : Type} (ref : tableRef) (m : M blob A) : Prop :=
  forall w, is_Some (deref (w_srv w) ref) -> is_Some (deref (w_srv (m w).2) ref).

Lemma holds_srv {A : Type} ref (m : M blob A) : (forall w, w_srv (m w).2 = w_srv w) -> holds ref m.
Proof. intros Hm w Hw. by rewrite Hm. Qed.
Lemma holds_call {A : Type} ref (f : database blob -> outcome A * database blob) : holds ref (call f).
Proof. apply holds_srv. intros w. unfold call. destruct (driver _); [done|]. by destruct (f (w_db w)). Qed.
Lemma holds_bind {A B : Type} ref (m : M blob A) (f : A -> M blob B) :
  holds ref m -> (forall a, holds ref (f a)) -> holds ref (m ≫= f).
Proof. intros Hm Hf w Hw. specialize (Hm w Hw). rewrite bind_run. destruct (m w) as [[a| |] w1]; [by apply Hf|done|done]. Qed.
Lemma holds_assign ref t : holds ref (assign (blob := blob) ref t).
Proof. intros w _. unfold assign. rewrite bind_run. cbn. destruct ref; cbn; rewrite lookup_insert_eq; eauto. Qed.
Lemma holds_readTable ref : holds ref (readTable (blob := blob) ref).
Proof. apply holds_srv. intros w. unfold readTable. rewrite bind_run. cbn. by destruct (deref _ _). Qed.
Lemma holds_forM {A B : Type} ref (f : B -> A -> M blob B) l : (forall b a, holds ref (f b a)) -> forall b, holds ref (forM f b l).
Proof. intros Hf. induction l as [|a l IH]; intros b; cbn; [by apply holds_srv|]. by apply holds_bind. Qed.
Lemma holds_withTx {A : Type} ref (m : M blob A) : holds ref m -> holds ref (withTx m).
Proof.
  intros Hm w Hw. unfold withTx. pose proof (holds_call ref (fun d => (Ret tt, d)) w Hw) as H0.
  destruct (call _ w) as [[[]| |] w0]; [|done|done]. cbn in H0. specialize (Hm w0 H0).
  destruct (m w0) as [[a| |] w1]; [|done|done]. cbn in Hm. pose proof (holds_call ref (fun d => (Ret tt, d)) w1 Hm) as H1.
  by destruct (call _ w1) as [[[]| |] w2].
Qed.

Lemma holds_Rename ref id : holds ref (SqlTables_Rename (blob := blob) ref id).
Proof.
  unfold SqlTables_Rename. apply holds_bind; [apply holds_readTable|]. intros t.
  apply holds_bind; [apply holds_call|]. intros _. apply holds_bind; [apply holds_call|]. intros _.
  apply holds_bind; [apply holds_assign|]. intros _. apply holds_call.
Qed.

Lemma holds_moveTableChildren ref from to : holds ref (moveTableChildren (blob := blob) from to).
Proof.
  unfold moveTableChildren. apply holds_bind; [apply holds_call|]. intros views. apply holds_bind.
  { apply holds_forM. intros [] [n av]. apply holds_bind; [apply holds_call|]. intros _. apply holds_call. }
  intros _. apply holds_bind; [apply holds_call|]. intros bundles.
  apply holds_forM. intros [] [n sb]. apply holds_bind; [apply holds_call|]. intros _. apply holds_call.
Qed.

Lemma holds_deleteTx fold_case tbl ref dt : holds ref (deleteTx fold_case tbl ref dt).
Proof.
  unfold deleteTx. apply holds_bind; [apply holds_assign|]. intros _. apply holds_bind; [apply holds_Rename|]. intros _.
  apply holds_bind; [apply holds_call|]. intros _. apply holds_bind; [apply holds_readTable|]. intros t.
  apply holds_bind; [apply holds_moveTableChildren|]. intros _. apply holds_bind; [apply holds_call|]. intros _. apply holds_call.
Qed.

Lemma srv_checkTableDeletable tbl w : w_srv (checkTableDeletable (blob := blob) tbl w).2 = w_srv w.
Proof.
  unfold checkTableDeletable. destruct (t_deletionProtection tbl); [done|]. rewrite bind_run. unfold mapErr, listPrefix, call.
  destruct (driver _); [done|]. cbn. destruct (existsb _ _); [done|]. rewrite bind_run. cbn. by destruct (existsb _ _).
Qed.

Lemma readTable_holds ref w : is_Some (deref (w_srv w) ref) -> exists t, readTable (blob := blob) ref w = (Ret t, w) /\ deref (w_srv w) ref = Some t.
Proof. intros [t Ht]. exists t. unfold readTable. rewrite bind_run. cbn. by rewrite Ht. Qed.

Lemma atomic_DeleteTable fold_case name : atomic (blob := blob) (DeleteTable fold_case name).
Proof.
  intros w. unfold DeleteTable. rewrite bind_run. cbn [getServer]. destruct (s_tables (w_srv w) !! name) as [tbl|] eqn:En; [|done].
  rewrite bind_run. pose proof (readonly_checkTableDeletable tbl w) as Hro. pose proof (srv_checkTableDeletable tbl w) as Hsrv.
  destruct (checkTableDeletable tbl w) as [[[]| |] w1]; [|done|done]. cbn in Hro, Hsrv. rewrite bind_run. cbn [timeNow].
  set (w2 := mkWorld _ _ _ _ _). set (dt := clock _).
  assert (is_Some (deref (w_srv w2) (Ref_Table name))) as Hw2 by (cbn; rewrite Hsrv, En; eauto).
  pose proof (atomic_withTx (deleteTx fold_case tbl (Ref_Table name) dt) w2) as Hat.
  pose proof (holds_withTx _ _ (holds_deleteTx fold_case tbl (Ref_Table name) dt) w2 Hw2) as Hh.
  rewrite bind_run. unfold catch. destruct (withTx _ w2) as [[[]| |] w3]; cbn in Hat, Hh.
  - rewrite bind_run. destruct (readTable_holds (Ref_Table name) w3 Hh) as (t & -> & _). done.
  - rewrite bind_run. destruct (readTable_holds (Ref_Table name) w3 Hh) as (t & -> & _). rewrite bind_run. unfold assign.
    rewrite bind_run. cbn. by rewrite Hat.
  - by rewrite Hat.
Qed.

Lemma admin_atomic proto_Size fold_case strict :
  (forall req, atomic (blob := blob) (CreateTable proto_Size strict req)) /\
  (forall req, atomic (blob := blob) (ModifyColumnFamilies proto_Size req)) /\
  (forall req, atomic (blob := blob) (DropRowRange req)) /\
  (forall name, atomic (blob := blob) (DeleteTable fold_case name)).
Proof.
  split_and!.
  - intros req. unfold CreateTable. destruct (Nat.eqb _ 0); [done|]. destruct (negb _); [done|].
    apply atomic_bind; [apply readonly_localRequireInstance|]. intros _.
    do 3 (apply atomic_bind; [done|]; intros _). destruct (existsb _ _); [done|].
    apply atomic_bind; [done|]. intros s. destruct (s_tables s !! _); [done|]. apply atomic_bind; [done|]. intros now.
    apply atomic_then; [by apply atomic_mapErr, atomic_call1|]. intros [] w. by eexists.
  - intros req. unfold ModifyColumnFamilies. do 2 (apply atomic_bind; [done|]; intros ?).
    destruct (mf_Modifications req); [done|]. do 2 (apply atomic_bind; [done|]; intros ?).
    apply atomic_then; [apply atomic_mapErr, atomic_withTx|]. intros [] w. by eexists.
  - intros req. unfold DropRowRange. do 3 (apply atomic_bind; [done|]; intros ?).
    apply atomic_then; [apply atomic_mapErr, atomic_withTx|]. intros deleted w. unfold afterCommit. destruct deleted; by eexists.
  - apply atomic_DeleteTable.
Qed.
End atomicity.

(** A successful ModifyColumnFamilies installs the families its modifications
    build, in memory and in the table store together, and deletes the data of
    every dropped family: each stored row of the table is left without those
    families, or removed when nothing else is in it, so that a family
    re-created under the same name starts empty; no other table's rows change.
    Creation orders stay distinct and below the counter. *)
Theorem ModifyColumnFamilies_effect {blob : Type} `{!Gob blob} `{!Env} proto_Size req (w : world blob) tbl' w' :
  db_ok (w_db w) -> ModifyColumnFamilies proto_Size req w = (Ret tbl', w') ->
  exists tbl st, s_tables (w_srv w) !! mf_Name req = Some tbl /\
    foldM (modifyFamily proto_Size (mf_Name req)) (mkModify (t_families tbl) (t_counter tbl) []) (mf_Modifications req) = Ret st /\
    tbl' = set_t_families tbl (md_next st) (md_counter st) /\
    s_tables (w_srv w') = <[mf_Name req := tbl']> (s_tables (w_srv w)) /\
    tables_t (w_db w') = <[(t_parent tbl, t_storageId tbl) := tbl']> (tables_t (w_db w)) /\
    (forall t k, row_at (w_db w') t k =
      if decide (t = table_rows tbl) then row_at (w_db w) t k ≫= fun r => stored_form (withoutFamilies (md_dropped st) r)
      else row_at (w_db w) t k) /\
    (forall r fam col, fam ∈ md_dropped st -> cells_at (withoutFamilies (md_dropped st) r) fam col = []) /\
    db_ok (w_db w') /\
    (orders_ok (t_families tbl) (t_counter tbl) -> 0 <= t_counter tbl -> orders_ok (t_families tbl') (t_counter tbl')).
Proof.
  intros Hd E. unfold ModifyColumnFamilies in E. apply bind_Ret in E as (s & w0 & [= <- <-] & E).
  apply bind_Ret in E as (tbl & w1 & [Et ->]%lift_Ret & E). unfold localRequireTable in Et.
  destruct (s_tables (w_srv w) !! mf_Name req) as [tbl0|] eqn:Ename; [|done]. injection Et as ->.
  destruct (mf_Modifications req) as [|m mods]; [done|].
  apply bind_Ret in E as (st & w1 & [Est ->]%lift_Ret & E). apply bind_Ret in E as ([] & w1 & [_ ->]%lift_Ret & E).
  apply bind_Ret in E as ([] & w1 & Etx%mapErr_Ret & E). apply withTx_Ret in Etx as (wa & wb & Hda & Hsa & Ebody & Hdb & Hsb).
  apply bind_Ret in E as (s' & w2 & [= <- <-] & E). apply bind_Ret in E as ([] & w2 & [= <-] & [<- ->]%ret_Ret).
  apply bind_Ret in Ebody as ([] & wc & Esave & Edrop). apply Save_Ret in Esave as [Hsave Hsc].
  assert (rows_t (w_db wc) = rows_t (w_db w)) as Hrows by (rewrite Hsave; cbn; congruence).
  assert (db_ok (w_db wc)) as Hdc by (by apply (db_ok_rows (w_db w))).
  assert ((forall t k, row_at (w_db wb) t k = if decide (t = table_rows tbl)
      then row_at (w_db w) t k ≫= fun r => stored_form (withoutFamilies (md_dropped st) r) else row_at (w_db w) t k) /\
    tables_t (w_db wb) = tables_t (w_db wc) /\ w_srv wb = w_srv wc /\ db_ok (w_db wb)) as (Hr & Htab & Hsrv & Hdwb).
  { destruct (md_dropped st) as [|f fs].
    - apply ret_Ret in Edrop as [_ ->]. split_and!; try done. intros t k. rewrite (row_at_rows _ _ Hrows).
      case_decide; [|done]. destruct (row_at (w_db w) t k) as [r|] eqn:Er; [|done]. cbn. rewrite withoutFamilies_nil.
      destruct (db_ok_row _ _ _ _ Hd Er) as (_ & _ & He). unfold stored_form. by rewrite He.
    - apply dropFamilyData_Ret in Edrop as (Hr & (Ht & _) & Hs & Hok); [|done]. split_and!; try done.
      intros t k. rewrite Hr, !(row_at_rows _ _ Hrows). case_decide; [by subst|done]. }
  exists tbl, st. cbn [w_srv w_db set_srv]. rewrite Hdb. split_and!; try done.
  - cbn. congruence.
  - rewrite Htab, Hsave. cbn. congruence.
  - intros r fam col Hin. rewrite cells_at_withoutFamilies. by rewrite decide_True.
  - intros Ho Hc. cbn. refine (proj1 (foldM_inv modify_ok _ _ _ _ _ _ Est)); [|by split].
    intros b a b' _ Hb Hm. by eapply modifyFamily_ok.
Qed.

Lemma ModifyColumnFamilies_effect_witness :
  exists tbl' w', ModifyColumnFamilies (H := SampleWorld.working) (fun _ => 0)
      (mkModifyFamilies (table_name SampleWorld.tbl) [([97], Mod_Drop true)]) SampleWorld.world0 = (Ret tbl', w') /\
    db_ok (w_db w').
Proof.
  eexists _, _. split; [apply run_Ret; vm_compute; reflexivity|].
  edestruct (ModifyColumnFamilies_effect (H := SampleWorld.working) (fun _ => 0)
    (mkModifyFamilies (table_name SampleWorld.tbl) [([97], Mod_Drop true)]) SampleWorld.world0)
    as (tbl & st & _ & _ & _ & _ & _ & _ & _ & Hok & _).
  - apply SampleWorld.db0_ok.
  - apply run_Ret. vm_compute. reflexivity.
  - exact Hok.
Defined.

(** C35: A successful DropRowRange removes exactly the rows it names, all of the
    table's rows or those whose key has the prefix, and no row of any other
    table; when the table has a change stream it appends one record per removed
    row, in key order, that deletes each of the row's families. *)
Theorem DropRowRange_effect {blob : Type} `{!Gob blob} `{!Env} req (w : world blob) w' :
  db_ok (w_db w) -> match dr_Target req with Drop_Prefix p => all_bytes p | _ => True end ->
  DropRowRange req w = (Ret tt, w') ->
  exists tbl rows micros, s_tables (w_srv w) !! dr_Name req = Some tbl /\
    (forall t k, all_bytes k -> row_at (w_db w') t k =
      if decide (t = table_rows tbl /\ drops (dr_Target req) k = true)
      then None else row_at (w_db w) t k) /\
    exactly (w_db w) (table_rows tbl) (fun k => contains (dropped_range (dr_Target req)) k = true) false rows /\
    change_stream_t (w_db w') = change_stream_t (w_db w) ++
      (if changeStreamEnabled tbl then
         imap (fun i r => mkChangeRecord (change_stream_seq (w_db w) + 1 + Z.of_nat i) (table_name tbl) (key r) USER micros
           ((fun fam => mut (Mutation_DeleteFromFamily (Name fam))) <$> sortedFamilies r)) rows
       else []) /\
    db_ok (w_db w').
Proof.
  intros Hd Hp E. unfold DropRowRange in E. apply bind_Ret in E as (s & w0 & [= <- <-] & E).
  apply bind_Ret in E as (tbl & w1 & [Et ->]%lift_Ret & E). unfold localRequireTable in Et.
  destruct (s_tables (w_srv w) !! dr_Name req) as [tbl0|] eqn:Ename; [|done]. injection Et as ->.
  apply bind_Ret in E as (rng & w1 & [Erng ->]%lift_Ret & E).
  assert (rng = dropped_range (dr_Target req)) as ->.
  { destruct (dr_Target req) as [|b|p]; [done| |]; cbn in *; [destruct b|destruct (Nat.eqb (length p) 0)]; simplify_eq/=; done. }
  apply bind_Ret in E as (deleted & w1 & Etx%mapErr_Ret & E). apply withTx_Ret in Etx as (wa & wb & Hda & Hsa & Ebody & Hdb & Hsb).
  assert (w_db w' = w_db w1) as Hw'.
  { unfold afterCommit in E. destruct deleted; [by apply ret_Ret in E as [_ ->]|].
    apply bind_Ret in E as (s' & w2 & [= <- <-] & [= <-]). done. }
  apply bind_Ret in Ebody as (del & wc & Escan & Ebody). unfold SqlRows_scan in Escan.
  apply bind_Ret in Escan as (rows & wd & Es & Ev). apply scanRows_Ret in Es as (Hdd & Hsd & Hx).
  assert (del = dropCommit <$> rows /\ wc = wd) as [-> ->].
  { rewrite (visitRows_pure (fun out r => out ++ [dropCommit r])) in Ev. injection Ev as <- <-. split; [|done].
    enough (forall acc, foldl (fun out r => out ++ [dropCommit r]) acc rows = acc ++ (dropCommit <$> rows)) as Hf by apply (Hf []).
    clear. induction rows as [|r rows IH]; intros acc; cbn; [by rewrite app_nil_r|]. rewrite IH, <- app_assoc. done. }
  apply bind_Ret in Ebody as ([] & we & Erem & Ebody). rewrite Hda in Hx, Hdd.
  destruct (drop_rows_Ret tbl (dr_Target req) (dropCommit <$> rows) rows wd we) as (Hr & Hro & Hs & Hok); try done.
  { by rewrite Hdd. }
  { by rewrite Hdd. }
  assert (exists micros, change_stream_t (w_db wb) = change_stream_t (w_db we) ++ (if changeStreamEnabled tbl then
      imap (fun i c => mkChangeRecord (change_stream_seq (w_db we) + 1 + Z.of_nat i) (table_name tbl) (rc_key c) USER micros (rc_userChanges c))
        (dropCommit <$> rows) else []) /\ rows_t (w_db wb) = rows_t (w_db we)) as (micros & Hc & Hrt).
  { destruct (changeStreamEnabled tbl); cbn [negb] in Ebody.
    - apply bind_Ret in Ebody as (micros & wf & Em & Ebody). unfold nowMicro in Em. inv_M. unfold timeNow in *. simplify_eq/=.
      match goal with H : forM _ _ _ _ = (Ret ?u, _) |- _ => destruct u; apply loop_appends in H as (Hc & Hrt & _) end. eauto.
    - apply ret_Ret in Ebody as [_ ->]. exists 0. by rewrite app_nil_r. }
  destruct Hro as (_ & Hcs & Hseq & _). rewrite Hdd in *.
  exists tbl, rows, micros. rewrite Hw', Hdb. split_and!; try done.
  - intros t k Hb. rewrite (row_at_rows _ _ Hrt), Hr. destruct (dr_Target req) as [|b|p]; [done| |].
    + unfold dropped_range, contains. cbn. rewrite bytes_leb_nil_l. done.
    + unfold dropped_range. by rewrite contains_prefixRange.
  - rewrite Hc, Hcs, Hseq. f_equal. destruct (changeStreamEnabled tbl); [|done]. rewrite imap_fmap. done.
  - by apply (db_ok_rows (w_db we)).
Qed.

Lemma DropRowRange_effect_witness :
  exists w', DropRowRange (H := SampleWorld.working)
      (mkDropRowRange (table_name SampleWorld.tbl) (Drop_Prefix [107])) SampleWorld.world0 = (Ret tt, w') /\ db_ok (w_db w').
Proof.
  eexists. split; [apply run_Ret; vm_compute; reflexivity|].
  edestruct (DropRowRange_effect (H := SampleWorld.working)
    (mkDropRowRange (table_name SampleWorld.tbl) (Drop_Prefix [107])) SampleWorld.world0)
    as (tbl & rows & micros & _ & _ & _ & _ & Hok).
  - apply SampleWorld.db0_ok.
  - repeat constructor; lia.
  - apply run_Ret. vm_compute. reflexivity.
  - exact Hok.
Defined.

(** C36: The admin handlers write all or nothing: whatever driver call fails,
    CreateTable, ModifyColumnFamilies, DropRowRange and DeleteTable return an
    error only with the database exactly as before. *)
Theorem admin_handlers_atomic {blob : Type} `{!Gob blob} `{!Env} proto_Size fold_case strict :
  (forall req, atomic (blob := blob) (CreateTable proto_Size strict req)) /\
  (forall req, atomic (blob := blob) (ModifyColumnFamilies proto_Size req)) /\
  (forall req, atomic (blob := blob) (DropRowRange req)) /\
  (forall name, atomic (blob := blob) (DeleteTable fold_case name)).
Proof. apply admin_atomic. Qed.
