(* ===== verification/Tombstones.v ===== *)
(** * Deleting and undeleting tables

    The effects of DeleteTable and UndeleteTable on rows, tables and
    idempotency tokens: the round trip, and two ways data is lost around it. *)

From S2P Require Import Prelude Proto Rows Gc Hll Mutations Filters Server Store Tokens Targets WritePath Chunks ReadPath TableAdmin TableOps.
From stdpp Require Import base list gmap sorting.
From Stdlib Require Import ZArith Lia.

#[local] Open Scope Z_scope.

Section tombstones.
Context {blob : Type} `{!Gob blob} `{!Env}.
Implicit Types (w : world blob) (d : database blob).

(** ** Moving rows *)

Lemma move_fold (p old new : bytes) (l : list (bytes * blob)) : old <> new -> NoDup l.*1 -> forall (m : gmap (bytes * bytes * bytes) blob) p' i k,
  foldl (fun m '(k, b) => <[(p, new, k) := b]> (delete (p, old, k) m)) m l !! (p', i, k) =
  if decide (p' = p /\ i = old /\ k ∈ l.*1) then None
  else if decide (p' = p /\ i = new /\ k ∈ l.*1) then (list_to_map l : gmap bytes blob) !! k
  else m !! (p', i, k).
Proof.
  intros Hne Hnd. induction l as [|[k0 b0] l IH]; intros m p' i k; cbn [foldl].
  { rewrite !decide_False by set_solver. done. }
  cbn in Hnd. apply NoDup_cons in Hnd as [Hni Hnd]. rewrite (IH Hnd). cbn [fmap list_fmap fst].
  destruct (decide (k = k0)) as [->|Hk].
  - rewrite (decide_False (P := p' = p /\ i = old /\ k0 ∈ l.*1)) by tauto.
    rewrite (decide_False (P := p' = p /\ i = new /\ k0 ∈ l.*1)) by tauto.
    destruct (decide (p' = p /\ i = old)) as [[-> ->]|Hn1].
    { rewrite decide_True by (split_and!; [done|done|left]). rewrite lookup_insert_ne by congruence. apply lookup_delete_eq. }
    rewrite decide_False by tauto. destruct (decide (p' = p /\ i = new)) as [[-> ->]|Hn2].
    { rewrite decide_True by (split_and!; [done|done|left]). rewrite lookup_insert_eq. cbn. by rewrite lookup_insert_eq. }
    rewrite decide_False by tauto. rewrite lookup_insert_ne by (intros [= -> -> ]; tauto).
    apply lookup_delete_ne. intros [= -> ->]. tauto.
  - assert (k ∈ k0 :: l.*1 <-> k ∈ l.*1) as Hiff by set_solver.
    assert (forall j, p' = p /\ i = j /\ k ∈ k0 :: l.*1 <-> p' = p /\ i = j /\ k ∈ l.*1) as Hiff' by (intros j; tauto).
    rewrite (decide_ext _ _ _ _ (Hiff' old)), (decide_ext _ _ _ _ (Hiff' new)).
    case_decide; [done|]. case_decide; [cbn; by rewrite lookup_insert_ne|].
    rewrite lookup_insert_ne, lookup_delete_ne by congruence. done.
Qed.

(** The rows of one storage id appear under another. *)
Definition rows_moved d d' (p old new : bytes) : Prop :=
  forall t k, stored_at d' t k =
    if decide (t = mkSqlRows p old) then None
    else if decide (t = mkSqlRows p new) then
      match stored_at d (mkSqlRows p old) k with Some b => Some b | None => stored_at d t k end
    else stored_at d t k.

Lemma moveRows_Ret p old new d d' :
  old <> new -> moveRows p old new d = (Ret tt, d') ->
  rows_moved d d' p old new /\ tables_t d' = tables_t d /\ idempotency_t d' = idempotency_t d.
Proof.
  intros Hne. unfold moveRows. rewrite decide_False by done. destruct (existsb _ _); [done|]. intros [= <-]. split_and!; try done.
  set (src := selectRows (mkSqlRows p old) d (mkKeyRange [] [])).
  pose proof (selectRows_keys_NoDup (mkSqlRows p old) d (mkKeyRange [] [])) as Hnd. fold src in Hnd.
  assert (forall k, (list_to_map src : gmap bytes blob) !! k = stored_at d (mkSqlRows p old) k) as Hmap by (intros k; apply selectRows_all).
  assert (forall k, k ∈ src.*1 <-> is_Some (stored_at d (mkSqlRows p old) k)) as Hin by (intros k; apply selectRows_all_keys).
  intros [p' i] k. unfold stored_at at 1. cbn [rows_t set_rows_t sr_parent sr_tableId]. rewrite move_fold, Hmap by done.
  destruct (decide (mkSqlRows p' i = mkSqlRows p old)) as [[= -> ->]|Hn1].
  { case_decide as Hd; [done|]. rewrite decide_False by naive_solver. apply eq_None_not_Some. intros Hs.
    apply Hd. split_and!; [done|done|]. by apply Hin. }
  rewrite decide_False by (intros (-> & -> & _); done).
  destruct (decide (mkSqlRows p' i = mkSqlRows p new)) as [[= -> ->]|Hn2].
  - destruct (stored_at d (mkSqlRows p old) k) as [b|] eqn:Eb.
    + rewrite decide_True; [done|]. split_and!; [done|done|]. apply Hin. by rewrite Eb.
    + rewrite decide_False; [done|]. intros (_ & _ & Hi%Hin). rewrite Eb in Hi. by destruct Hi.
  - rewrite decide_False; [done|]. intros (-> & -> & _). done.
Qed.

(** ** What the other statements leave alone *)

Definition tables_same w w' : Prop :=
  rows_t (w_db w') = rows_t (w_db w) /\ tables_t (w_db w') = tables_t (w_db w) /\
  idempotency_t (w_db w') = idempotency_t (w_db w) /\ w_srv w' = w_srv w.

Definition aside {A : Type} (m : M blob A) : Prop := forall w, tables_same w (m w).2.

Lemma tables_same_trans w1 w2 w3 : tables_same w1 w2 -> tables_same w2 w3 -> tables_same w1 w3.
Proof. unfold tables_same. intros H1 H2. intuition congruence. Qed.

Lemma aside_call {A : Type} (f : database blob -> outcome A * database blob) :
  (forall d, rows_t (f d).2 = rows_t d /\ tables_t (f d).2 = tables_t d /\ idempotency_t (f d).2 = idempotency_t d) -> aside (call f).
Proof.
  intros Hf w. unfold call. destruct (driver _); [done|]. specialize (Hf (w_db w)). destruct (f (w_db w)) as [r d]. cbn in *.
  unfold tables_same. cbn. tauto.
Qed.
Lemma aside_bind {A B : Type} (m : M blob A) (f : A -> M blob B) : aside m -> (forall a, aside (f a)) -> aside (m ≫= f).
Proof.
  intros Hm Hf w. specialize (Hm w). rewrite bind_run. destruct (m w) as [[a| |] w1]; [|done|done].
  eapply tables_same_trans; [exact Hm|]. apply Hf.
Qed.
Lemma aside_forM {A B : Type} (f : B -> A -> M blob B) l : (forall b a, aside (f b a)) -> forall b, aside (forM f b l).
Proof. intros Hf. induction l as [|a l IH]; intros b; cbn; [done|]. by apply aside_bind. Qed.

Lemma aside_moveTableChildren from to : aside (moveTableChildren (blob := blob) from to).
Proof.
  unfold moveTableChildren. apply aside_bind; [by apply aside_call|]. intros views. apply aside_bind.
  { apply aside_forM. intros [] [n av]. apply aside_bind; [by apply aside_call|]. intros _. by apply aside_call. }
  intros _. apply aside_bind; [by apply aside_call|]. intros bundles.
  apply aside_forM. intros [] [n sb]. apply aside_bind; [by apply aside_call|]. intros _. by apply aside_call.
Qed.
Lemma aside_purgeTable tn : aside (purgeTable (blob := blob) tn).
Proof. by apply aside_call. Qed.
Lemma aside_iam fold_case r : aside (iam_deletePrefix (blob := blob) fold_case r).
Proof. apply aside_bind; [by apply aside_call|]. intros _. by apply aside_call. Qed.

Lemma aside_Ret {A : Type} (m : M blob A) a w w' : aside m -> m w = (Ret a, w') -> tables_same w w'.
Proof. intros Hm E. specialize (Hm w). by rewrite E in Hm. Qed.

(** ** Rename *)

Lemma Rename_Ret ref newID w w' tbl :
  SqlTables_Rename (blob := blob) ref newID w = (Ret tt, w') -> deref (w_srv w) ref = Some tbl -> t_storageId tbl <> newID ->
  rows_moved (w_db w) (w_db w') (t_parent tbl) (t_storageId tbl) newID /\
  idempotency_t (w_db w') = idempotency_t (w_db w) /\ w_srv w' = assigned (w_srv w) ref (set_t_storageId tbl newID) /\
  tables_t (w_db w') = <[(t_parent tbl, newID) := set_t_storageId tbl newID]>
    (delete (t_parent tbl, t_storageId tbl) (tables_t (w_db w))).
Proof.
  unfold SqlTables_Rename. intros E Hd Hne. apply bind_Ret in E as (t & w0 & Er & E).
  assert (t = tbl /\ w0 = w) as [-> ->].
  { unfold readTable in Er. apply bind_Ret in Er as (s & w1 & [= <- <-] & Er). rewrite Hd in Er. by apply ret_Ret in Er as [-> ->]. }
  apply bind_Ret in E as ([] & w1 & (d1 & E1 & ->)%call_Ret & E). apply moveRows_Ret in E1 as (Hm & Ht & Hi); [|done].
  apply bind_Ret in E as ([] & w2 & (d2 & [= <-] & ->)%call_Ret & E).
  apply bind_Ret in E as ([] & w3 & Ea & E). unfold assign in Ea. apply bind_Ret in Ea as (s & w4 & [= <- <-] & [= <-]).
  apply Save_Ret in E as [Hs Hsrv]. rewrite Hsrv, Hs. cbn. rewrite Ht. split_and!; done.
Qed.

(** ** DeleteTable *)

Definition tombstoneID (tbl : table) (dt : Z) : bytes := t_tableId tbl ++ str "@deleted@" ++ FormatInt (dt / 1000).

(** What a deleted table becomes. *)
Definition tombstone (tbl : table) (dt : Z) : table :=
  set_t_storageId (set_t_deleteTime tbl (Some dt)) (tombstoneID tbl dt).

Lemma tombstoneID_ne tbl dt : tombstoneID tbl dt <> t_tableId tbl.
Proof. intros Eq%(f_equal length). unfold tombstoneID in Eq. rewrite !length_app in Eq. cbn in Eq. lia. Qed.

Lemma readTable_Ret ref w tbl (t : table) w' :
  deref (w_srv w) ref = Some tbl -> readTable (blob := blob) ref w = (Ret t, w') -> t = tbl /\ w' = w.
Proof.
  unfold readTable. intros Hd E. apply bind_Ret in E as (s & w1 & [= <- <-] & E). rewrite Hd in E. by apply ret_Ret in E as [-> ->].
Qed.
Lemma deref_assigned s ref (t : table) : deref (assigned s ref t) ref = Some t.
Proof. destruct ref; cbn; apply lookup_insert_eq. Qed.
Lemma assigned_twice s ref (t t' : table) : assigned (assigned s ref t) ref t' = assigned s ref t'.
Proof. destruct ref; unfold assigned, set_tables, set_deletedTables; cbn; by rewrite insert_insert_eq. Qed.

Lemma deleteTx_Ret fold_case tbl ref dt w w' :
  t_storageId tbl = t_tableId tbl -> deleteTx (blob := blob) fold_case tbl ref dt w = (Ret tt, w') ->
  rows_moved (w_db w) (w_db w') (t_parent tbl) (t_tableId tbl) (tombstoneID tbl dt) /\
  idempotency_t (w_db w') = idempotency_t (w_db w) /\ w_srv w' = assigned (w_srv w) ref (tombstone tbl dt) /\
  tables_t (w_db w') = <[(t_parent tbl, tombstoneID tbl dt) := tombstone tbl dt]>
    (delete (t_parent tbl, t_tableId tbl) (tables_t (w_db w))).
Proof.
  intros Hid E. unfold deleteTx in E. apply bind_Ret in E as ([] & w1 & Ea & E).
  unfold assign in Ea. apply bind_Ret in Ea as (s & w0 & [= <- <-] & [= <-]).
  apply bind_Ret in E as ([] & w2 & Er & E). eapply Rename_Ret in Er as (Hm & Hi & Hs & Htt).
  2: { cbn. apply deref_assigned. } 2: { cbn. rewrite Hid. intros Eq. symmetry in Eq. by apply tombstoneID_ne in Eq. }
  apply bind_Ret in E as ([] & w3 & Ep%(aside_Ret _ _ _ _ (aside_purgeTable _)) & E).
  destruct Ep as (Hr3 & Ht3 & Hi3 & Hs3). cbn [w_srv set_srv] in Hs. rewrite assigned_twice in Hs.
  apply bind_Ret in E as (t & w4 & Er & E). apply (readTable_Ret _ _ (tombstone tbl dt)) in Er as [-> ->].
  2: { rewrite Hs3, Hs. apply deref_assigned. }
  apply bind_Ret in E as ([] & w5 & Ec%(aside_Ret _ _ _ _ (aside_moveTableChildren _ _)) & Eiam%(aside_Ret _ _ _ _ (aside_iam _ _))).
  destruct Ec as (Hr5 & Ht5 & Hi5 & Hs5), Eiam as (Hr6 & Ht6 & Hi6 & Hs6).
  cbn [w_db set_srv t_parent t_storageId set_t_deleteTime] in Hm, Hi, Htt. rewrite Hid in Hm, Htt. split_and!.
  - intros t k. etransitivity; [|apply Hm]. unfold stored_at. congruence.
  - congruence.
  - rewrite Hs6, Hs5, Hs3, Hs. done.
  - rewrite Ht6, Ht5, Ht3, Htt. done.
Qed.

Lemma checkTableDeletable_Ret tbl w u w' :
  checkTableDeletable (blob := blob) tbl w = (Ret u, w') ->
  w_db w' = w_db w /\ w_srv w' = w_srv w /\ w_ticks w' = w_ticks w.
Proof.
  unfold checkTableDeletable. destruct (t_deletionProtection tbl); [done|]. intros E.
  apply bind_Ret in E as (views & w1 & (d & [= <- <-] & ->)%mapErr_Ret%call_Ret & E).
  destruct (existsb _ _); [done|]. apply bind_Ret in E as (s & w2 & [= <- <-] & E).
  destruct (existsb _ _); [done|]. by apply ret_Ret in E as [_ ->].
Qed.

(** A table's rows go to its tombstone, which the server then holds. *)
Lemma DeleteTable_Ret fold_case name w w' tbl :
  s_tables (w_srv w) !! name = Some tbl -> t_storageId tbl = t_tableId tbl ->
  DeleteTable (blob := blob) fold_case name w = (Ret tt, w') ->
  let dt := clock (w_ticks w) in
  rows_moved (w_db w) (w_db w') (t_parent tbl) (t_tableId tbl) (tombstoneID tbl dt) /\
  idempotency_t (w_db w') = idempotency_t (w_db w) /\
  w_srv w' = set_deletedTables (set_tables (w_srv w) (delete name (s_tables (w_srv w))))
    (<[storageName (tombstone tbl dt) := tombstone tbl dt]> (s_deletedTables (w_srv w))) /\
  tables_t (w_db w') = <[(t_parent tbl, tombstoneID tbl dt) := tombstone tbl dt]>
    (delete (t_parent tbl, t_tableId tbl) (tables_t (w_db w))).
Proof.
  intros Hn Hid E. unfold DeleteTable in E. apply bind_Ret in E as (s & w0 & [= <- <-] & E). rewrite Hn in E.
  apply bind_Ret in E as ([] & w1 & (Hd1 & Hs1 & Ht1)%checkTableDeletable_Ret & E).
  apply bind_Ret in E as (dt & w2 & Et & E). unfold timeNow in Et. injection Et as <- <-. rewrite Ht1 in E.
  apply bind_Ret in E as (res & w3 & Ec & E). unfold catch in Ec.
  destruct (withTx _ _) as [[[]|c|] w4] eqn:Etx; [injection Ec as <- <-|injection Ec as <- <-|done].
  - apply withTx_Ret in Etx as (wa & wb & Hda & Hsa & Etx & Hdb & Hsb). apply deleteTx_Ret in Etx as (Hm & Hi & Hs & Htt); [|done].
    cbn [w_db w_srv] in Hda, Hsa. rewrite Hsa, Hs1 in Hs.
    apply bind_Ret in E as (t & w5 & Er & E). apply (readTable_Ret _ _ (tombstone tbl (clock (w_ticks w)))) in Er as [-> ->].
    2: { rewrite Hsb, Hs. apply deref_assigned. }
    apply bind_Ret in E as (s & w6 & [= <- <-] & [= <-]). cbn [w_db w_srv set_srv]. rewrite Hsb, Hs, Hdb. split_and!.
    + intros t k. rewrite (Hm t k). unfold stored_at. by rewrite Hda, Hd1.
    + by rewrite Hi, Hda, Hd1.
    + cbn. unfold set_deletedTables, set_tables. cbn. by rewrite delete_insert_eq.
    + by rewrite Htt, Hda, Hd1.
  - exfalso. apply bind_Ret in E as (t & w5 & _ & E). by apply bind_Ret in E as (u & w6 & _ & E).
Qed.

(** ** UndeleteTable *)

(** The tombstone found, when only one has the name. *)
Lemma latestTombstone_unique s name (k : bytes) (t : table) :
  s_deletedTables s !! k = Some t -> table_name t = name ->
  (forall k' (t' : table), s_deletedTables s !! k' = Some t' -> table_name t' = name -> k' = k) ->
  latestTombstone s name = Some (k, t).
Proof.
  intros Hk Hn Hu. unfold latestTombstone.
  assert (forall x, x ∈ map_to_list (s_deletedTables s) -> table_name x.2 = name -> x = (k, t)) as Hall.
  { intros [k' t'] Hin%elem_of_map_to_list Hn'. cbn in Hn'. rewrite (Hu k' t') in * by done. by simplify_eq. }
  assert ((k, t) ∈ map_to_list (s_deletedTables s)) as Hin by (by apply elem_of_map_to_list).
  revert Hall Hin. generalize (map_to_list (s_deletedTables s)). intros l Hall.
  assert (forall l', (forall x, x ∈ l' -> table_name x.2 = name -> x = (k, t)) ->
    forall acc, (acc = Some (k, t) \/ acc = None /\ (k, t) ∈ l') -> foldl (fun latest '(k, t) =>
      if bool_decide (table_name t = name) &&
         match latest with None => true | Some (_, l) => default 0 (t_deleteTime l) <? default 0 (t_deleteTime t) end
      then Some (k, t) else latest) acc l' = Some (k, t)) as Hgen.
  { induction l' as [|[k' t'] l' IH]; intros Hl acc Ha; cbn [foldl].
    { destruct Ha as [->|[_ Hn']]; [done|by apply elem_of_nil in Hn']. }
    apply IH; [intros x Hx; apply Hl; by right|]. case_bool_decide as Hb; cbn [andb].
    - specialize (Hl (k', t')). cbn in Hl. rewrite Hl in * by (done || left). injection (Hl ltac:(left) Hb) as -> ->.
      destruct Ha as [->|[-> _]]; [left; by case_match|by left].
    - destruct Ha as [->|[-> Hi]]; [by left|]. right. split; [done|]. apply elem_of_cons in Hi as [[= <- <-]|]; done. }
  intros Hin. apply Hgen; auto.
Qed.

(** With a driver that does not fail, a request whose statements succeed
    returns. *)
Definition total {A : Type} (m : M blob A) : Prop := forall w, exists a w', m w = (Ret a, w').

Lemma total_bind {A B : Type} (m : M blob A) (f : A -> M blob B) : total m -> (forall a, total (f a)) -> total (m ≫= f).
Proof. intros Hm Hf w. destruct (Hm w) as (a & w1 & E). rewrite bind_run, E. apply Hf. Qed.
Lemma total_forM {A B : Type} (f : B -> A -> M blob B) l : (forall b a, total (f b a)) -> forall b, total (forM f b l).
Proof. intros Hf. induction l as [|a l IH]; intros b; cbn; [intros w; by eexists _, _|]. by apply total_bind. Qed.

Section working.
Context (Hdriver : forall n, driver n = None).

Lemma run_call {A : Type} (f : database blob -> outcome A * database blob) w a d :
  f (w_db w) = (Ret a, d) -> call f w = (Ret a, mkWorld d (w_srv w) (S (w_calls w)) (w_ticks w) (w_draws w)).
Proof. intros E. unfold call. by rewrite Hdriver, E. Qed.
Lemma total_call {A : Type} (f : database blob -> outcome A * database blob) :
  (forall d, exists a d', f d = (Ret a, d')) -> total (call f).
Proof. intros Hf w. destruct (Hf (w_db w)) as (a & d & E). rewrite (run_call _ _ _ _ E). by eexists _, _. Qed.

Lemma total_moveTableChildren from to : total (moveTableChildren (blob := blob) from to).
Proof.
  assert (forall (A : Type) (f : database blob -> A * database blob), total (call (fun d => (Ret (f d).1, (f d).2)))) as Hc.
  { intros A f. apply total_call. intros d. by eexists _, _. }
  unfold moveTableChildren. apply total_bind; [apply total_call; eauto|]. intros views. apply total_bind.
  { apply total_forM. intros [] [n av]. apply total_bind; [apply total_call; eauto|]. intros _. apply total_call; eauto. }
  intros _. apply total_bind; [apply total_call; eauto|]. intros bundles.
  apply total_forM. intros [] [n sb]. apply total_bind; [apply total_call; eauto|]. intros _. apply total_call; eauto.
Qed.

Lemma run_Rename ref newID w tbl :
  deref (w_srv w) ref = Some tbl -> (forall k, stored_at (w_db w) (mkSqlRows (t_parent tbl) newID) k = None) ->
  exists w', SqlTables_Rename (blob := blob) ref newID w = (Ret tt, w').
Proof.
  intros Hd Hrows. unfold SqlTables_Rename, readTable. rewrite !bind_run. cbn. rewrite Hd. cbn.
  assert (exists d, moveRows (t_parent tbl) (t_storageId tbl) newID (w_db w) = (Ret tt, d)) as [d Ed].
  { unfold moveRows. destruct (decide _); [by eexists|]. destruct (existsb _ _) eqn:Ex; [|by eexists].
    apply existsb_exists in Ex as ([k b] & _ & Hb%bool_decide_eq_true). specialize (Hrows k).
    unfold stored_at in Hrows. cbn in Hrows. rewrite Hrows in Hb. by destruct Hb. }
  rewrite bind_run, (run_call _ _ _ _ Ed), bind_run. unfold SqlTables_Delete. erewrite run_call by done.
  unfold assign. rewrite !bind_run. cbn. unfold SqlTables_Save. erewrite run_call by done. by eexists.
Qed.

Definition restored (t : table) : table :=
  set_t_storageId (set_t_deletionProtection (set_t_deleteTime t None) true) (t_tableId t).

Lemma UndeleteTable_works name w (k : bytes) (t : table) :
  s_tables (w_srv w) !! name = None -> latestTombstone (w_srv w) name = Some (k, t) ->
  s_deletedTables (w_srv w) !! k = Some t -> clock (w_ticks w) - default 0 (t_deleteTime t) <= undeleteWindow ->
  t_storageId t <> t_tableId t -> (forall key, stored_at (w_db w) (mkSqlRows (t_parent t) (t_tableId t)) key = None) ->
  exists w', UndeleteTable (blob := blob) name w = (Ret tt, w') /\
    rows_moved (w_db w) (w_db w') (t_parent t) (t_storageId t) (t_tableId t) /\
    idempotency_t (w_db w') = idempotency_t (w_db w) /\
    s_tables (w_srv w') = <[table_name t := restored t]> (s_tables (w_srv w)) /\
    s_deletedTables (w_srv w') = delete (storageName t) (<[k := restored t]> (s_deletedTables (w_srv w))) /\
    tables_t (w_db w') = <[(t_parent t, t_tableId t) := restored t]> (delete (t_parent t, t_storageId t) (tables_t (w_db w))).
Proof.
  intros Hn Hl Hk Ht Hid Hrows. unfold UndeleteTable. rewrite bind_run. cbn [getServer]. rewrite Hn, Hl, bind_run. unfold timeNow.
  cbn [w_ticks]. rewrite (proj2 (Z.ltb_ge _ _)) by done. unfold assign. rewrite !bind_run. cbn [getServer putServer].
  rewrite bind_run. unfold catch, withTx. erewrite run_call by done. cbn [set_srv w_db w_srv w_calls w_ticks w_draws].
  set (s1 := assigned _ _ _). set (w1 := mkWorld _ s1 _ _ _).
  destruct (total_moveTableChildren (storageName t) (table_name t) w1) as ([] & w2 & E2). rewrite bind_run, E2.
  pose proof (aside_Ret _ _ _ _ (aside_moveTableChildren _ _) E2) as (Hr2 & Ht2 & Hi2 & Hs2).
  assert (deref (w_srv w2) (Ref_Deleted k) = Some (set_t_deletionProtection (set_t_deleteTime t None) true)) as Hd2.
  { rewrite Hs2. apply deref_assigned. }
  destruct (run_Rename (Ref_Deleted k) (t_tableId t) w2 _ Hd2) as (w3 & E3).
  { intros key. rewrite <- (Hrows key). unfold stored_at. by rewrite Hr2. }
  rewrite E3. apply (Rename_Ret _ _ _ _ _) with (2 := Hd2) in E3 as (Hm & Hi3 & Hs3 & Ht3); [|done].
  erewrite run_call by done. rewrite bind_run. unfold readTable at 1. rewrite bind_run. cbn [getServer w_srv].
  rewrite Hs3, deref_assigned. cbn [mret M_ret]. rewrite !bind_run. cbn [getServer putServer w_srv]. rewrite bind_run. cbn [putServer].
  unfold ops_complete. repeat (rewrite bind_run; cbn [getServer putServer]). unfold mapErr. erewrite run_call by done.
  eexists. split; [reflexivity|]. cbn [w_db w_srv set_srv]. split_and!.
  - intros t' key. etransitivity; [apply Hm|]. unfold stored_at. rewrite Hr2. done.
  - cbn. by rewrite Hi3, Hi2.
  - rewrite Hs2. done.
  - rewrite Hs2. cbn. by rewrite insert_insert_eq.
  - cbn. rewrite Ht3, Ht2. done.
Qed.
End working.
End tombstones.

(** C17: Deleting a table and undeleting it within the window gives its rows and its definition
    back.  Right after DeleteTable the name is free and no row is stored under the table's
    id; UndeleteTable then succeeds, and every row of every table is stored where it was,
    the table is as it was but for deletion protection, which is on, and the tombstones
    are those from before.  IAM policies and change records, which DeleteTable purges, are
    not given back.  The hypotheses say that no call of the driver fails, that the table is
    stored under its own name and id, that no earlier tombstone has its name, and that the
    id of the new tombstone is unused. *)
Theorem delete_undelete_roundtrip {blob : Type} `{!Gob blob} `{!Env} fold_case name (w w1 : world blob) tbl :
  (forall n, driver n = None) ->
  s_tables (w_srv w) !! name = Some tbl -> table_name tbl = name ->
  t_storageId tbl = t_tableId tbl -> t_deleteTime tbl = None ->
  (forall k t, s_deletedTables (w_srv w) !! k = Some t -> table_name t <> name) ->
  s_deletedTables (w_srv w) !! storageName (tombstone tbl (clock (w_ticks w))) = None ->
  (forall k, stored_at (w_db w) (mkSqlRows (t_parent tbl) (tombstoneID tbl (clock (w_ticks w)))) k = None) ->
  DeleteTable fold_case name w = (Ret tt, w1) ->
  clock (w_ticks w1) - clock (w_ticks w) <= undeleteWindow ->
  s_tables (w_srv w1) !! name = None /\ (forall k, stored_at (w_db w1) (table_rows tbl) k = None) /\
  exists w2, UndeleteTable name w1 = (Ret tt, w2) /\
    (forall t k, stored_at (w_db w2) t k = stored_at (w_db w) t k) /\
    s_tables (w_srv w2) = <[name := set_t_deletionProtection tbl true]> (s_tables (w_srv w)) /\
    s_deletedTables (w_srv w2) = s_deletedTables (w_srv w).
Proof.
  intros Hdrv Hn Htn Hid Hdt Hother Hfree Hrows E Hwin.
  destruct (DeleteTable_Ret _ _ _ _ _ Hn Hid E) as (Hm & _ & Hs & _).
  set (dt := clock (w_ticks w)) in *. set (tomb := tombstone tbl dt) in *.
  assert (forall k, stored_at (w_db w1) (mkSqlRows (t_parent tbl) (t_tableId tbl)) k = None) as Hempty.
  { intros k. rewrite Hm. by rewrite decide_True. }
  split_and!.
  { rewrite Hs. cbn. apply lookup_delete_eq. }
  { intros k. rewrite <- (Hempty k). unfold table_rows. by rewrite Hid. }
  destruct (UndeleteTable_works Hdrv name w1 (storageName tomb) tomb) as (w2 & E2 & Hm2 & _ & Ht2 & Hd2 & _).
  - rewrite Hs. cbn. apply lookup_delete_eq.
  - apply latestTombstone_unique; [rewrite Hs; apply lookup_insert_eq|done|].
    intros k' t' Hk' Hn'. rewrite Hs in Hk'. cbn [s_deletedTables set_deletedTables set_tables] in Hk'. destruct (decide (k' = storageName tomb)) as [|Hne]; [done|].
    rewrite lookup_insert_ne in Hk' by done. by apply Hother in Hk'.
  - rewrite Hs. apply lookup_insert_eq.
  - done.
  - exact (tombstoneID_ne tbl dt).
  - exact Hempty.
  - exists w2. split; [exact E2|]. split_and!.
    + intros t k. rewrite Hm2. change (t_parent tomb) with (t_parent tbl). change (t_tableId tomb) with (t_tableId tbl).
      change (t_storageId tomb) with (tombstoneID tbl dt). case_decide as H1; [subst; by rewrite Hrows|]. case_decide as H2.
      * subst. rewrite Hempty, Hm. rewrite decide_False, decide_True by (done || by intros [= ?%tombstoneID_ne]).
        destruct (stored_at (w_db w) _ k) eqn:E0; [done|]. by rewrite Hrows.
      * rewrite Hm, !decide_False by done. done.
    + rewrite Ht2, Hs. change (table_name tomb) with (table_name tbl). rewrite Htn. cbn [s_tables set_deletedTables set_tables].
      rewrite insert_delete_eq. f_equal. destruct tbl. unfold restored, tomb, tombstone. cbn in *. by subst.
    + rewrite Hd2, Hs. cbn [s_deletedTables set_deletedTables set_tables]. rewrite insert_insert_eq. by apply delete_insert_id.
Qed.

Lemma delete_undelete_roundtrip_witness :
  exists w1 w2, DeleteTable (H := SampleWorld.working) (fun c => c) (table_name SampleWorld.tbl) SampleWorld.world0 = (Ret tt, w1) /\
    UndeleteTable (H := SampleWorld.working) (table_name SampleWorld.tbl) w1 = (Ret tt, w2) /\
    stored_at (w_db w2) (table_rows SampleWorld.tbl) [107] = Some (families Sample.row1).
Proof.
  destruct (delete_undelete_roundtrip (H := SampleWorld.working) (fun c => c) (table_name SampleWorld.tbl) SampleWorld.world0
    (DeleteTable (H := SampleWorld.working) (fun c => c) (table_name SampleWorld.tbl) SampleWorld.world0).2 SampleWorld.tbl)
    as (_ & _ & w2 & E2 & Hr & _).
  - done.
  - vm_compute. reflexivity.
  - done.
  - done.
  - done.
  - intros k t Hk. cbn in Hk. by rewrite lookup_empty in Hk.
  - apply lookup_empty.
  - intros k. apply lookup_singleton_None. intros [=].
  - apply run_Ret. vm_compute. reflexivity.
  - vm_compute. discriminate.
  - eexists _, w2. split; [apply run_Ret; vm_compute; reflexivity|]. split; [exact E2|]. rewrite Hr. vm_compute. reflexivity.
Defined.

(** ** What the handlers do not undo *)

Lemma run_fst {A B : Type} (p : outcome A * B) r : p.1 = r -> p = (r, p.2).
Proof. destruct p. cbn. by intros ->. Qed.

Module TombstoneRuns.
Definition name : bytes := table_name SampleWorld.tbl.
(** The eighteenth driver call, the commit of the first UndeleteTable, fails. *)
Definition commitFails : Env :=
  mkEnv (fun n => if (n =? 17)%nat then Some F_Other else None) SampleWorld.seconds (fun _ => F_Fin 1 2).
Definition create : CreateTableRequest :=
  mkCreateTable SampleWorld.parent [116]
    {[ [97] := mkCF None None; [98] := mkCF None (Some (Type_Aggregate (Type_Int64 false) Aggregator_Sum)) ]}
    None false None None None MILLIS [].
(** The sample mutation under another token. *)
Definition freshToken : MutateRowRequest :=
  mkMutateRow name [] [] [107] SampleTable.muts (Some (mkIdempotency (str "token-02") None)).
(** A policy on a view of the table [axb], and one on a view of [a_b]. *)
Definition policies : gmap bytes Policy :=
  {[ SampleWorld.parent ++ str "/tables/axb/authorizedViews/v" := mkPolicy 1 [[1]] [] [];
     SampleWorld.parent ++ str "/tables/a_b/authorizedViews/v" := mkPolicy 1 [[2]] [] [] ]}.
Definition withPolicies : world (gmap bytes family) :=
  set_db SampleWorld.world0 (set_iam_policies_t SampleWorld.db0 policies).
(** Deleting the table, undeleting it with the failing commit, and again. *)
Definition del := DeleteTable (H := commitFails) (fun c => c) name SampleWorld.world0.
Definition undel1 := UndeleteTable (H := commitFails) name del.2.
Definition undel2 := UndeleteTable (H := commitFails) name undel1.2.
(** Writing a row, deleting the table, creating it anew, and writing again. *)
Definition write := MutateRow (H := SampleWorld.working) SampleWorld.req SampleWorld.world0.
Definition drop := DeleteTable (H := SampleWorld.working) (fun c => c) name write.2.
Definition recreate := CreateTable (H := SampleWorld.working) (fun _ => 0) false create drop.2.
Definition rewrite1 := MutateRow (H := SampleWorld.working) SampleWorld.req recreate.2.
Definition rewrite2 := MutateRow (H := SampleWorld.working) freshToken recreate.2.
Definition created : table := newTable create (SampleWorld.seconds (w_ticks drop.2)).
End TombstoneRuns.

(** UndeleteTable does not restore the storage id of a tombstone whose
    transaction failed: after a failed commit, the retry reports success and
    the table is live again, but its row is still stored under the tombstone's
    id, where no request reaches it. *)
Theorem undelete_retry_strands_rows :
  exists w1 w2 w3 tbl,
    DeleteTable (H := TombstoneRuns.commitFails) (fun c => c) TombstoneRuns.name SampleWorld.world0 = (Ret tt, w1) /\
    UndeleteTable (H := TombstoneRuns.commitFails) TombstoneRuns.name w1 = (Err Internal, w2) /\
    UndeleteTable (H := TombstoneRuns.commitFails) TombstoneRuns.name w2 = (Ret tt, w3) /\
    s_tables (w_srv w3) !! TombstoneRuns.name = Some tbl /\
    table_rows tbl = table_rows SampleWorld.tbl /\
    stored_at (w_db SampleWorld.world0) (table_rows tbl) [107] = Some (families Sample.row1) /\
    stored_at (w_db w3) (table_rows tbl) [107] = None /\
    stored_at (w_db w3) (mkSqlRows SampleWorld.parent (tombstoneID tbl (SampleWorld.seconds 0))) [107] = Some (families Sample.row1).
Proof.
  exists TombstoneRuns.del.2, TombstoneRuns.undel1.2, TombstoneRuns.undel2.2, (set_t_deletionProtection SampleWorld.tbl true).
  split; [refine (run_fst TombstoneRuns.del _ _); vm_compute; reflexivity|].
  split; [refine (run_fst TombstoneRuns.undel1 _ _); vm_compute; reflexivity|].
  split; [refine (run_fst TombstoneRuns.undel2 _ _); vm_compute; reflexivity|].
  split_and!; vm_compute; reflexivity.
Qed.

(** Idempotency tokens outlive their table: the token of a mutation of a
    deleted table still counts as seen on a new table of the same name, so the
    same request there reports success without writing its row. *)
Theorem tokens_outlive_table :
  exists w1 w2 tbl w3 w4 w5,
    MutateRow (H := SampleWorld.working) SampleWorld.req SampleWorld.world0 = (Ret tt, w1) /\
    DeleteTable (H := SampleWorld.working) (fun c => c) TombstoneRuns.name w1 = (Ret tt, w2) /\
    CreateTable (H := SampleWorld.working) (fun _ => 0) false TombstoneRuns.create w2 = (Ret tbl, w3) /\
    MutateRow (H := SampleWorld.working) SampleWorld.req w3 = (Ret tt, w4) /\
    MutateRow (H := SampleWorld.working) TombstoneRuns.freshToken w3 = (Ret tt, w5) /\
    stored_at (w_db w4) (table_rows tbl) [107] = None /\
    bool_decide (is_Some (stored_at (w_db w5) (table_rows tbl) [107])) = true.
Proof.
  exists TombstoneRuns.write.2, TombstoneRuns.drop.2, TombstoneRuns.created, TombstoneRuns.recreate.2,
    TombstoneRuns.rewrite1.2, TombstoneRuns.rewrite2.2.
  split; [refine (run_fst TombstoneRuns.write _ _); vm_compute; reflexivity|].
  split; [refine (run_fst TombstoneRuns.drop _ _); vm_compute; reflexivity|].
  split; [refine (run_fst TombstoneRuns.recreate _ _); vm_compute; reflexivity|].
  split; [refine (run_fst TombstoneRuns.rewrite1 _ _); vm_compute; reflexivity|].
  split; [refine (run_fst TombstoneRuns.rewrite2 _ _); vm_compute; reflexivity|].
  split; vm_compute; reflexivity.
Qed.

Lemma like_app fold_case (p q s : bytes) : 37 ∉ p -> like fold_case (p ++ q) (p ++ s) = like fold_case q s.
Proof.
  induction p as [|c p IH]; intros Hp; [done|]. apply not_elem_of_cons in Hp as [Hc Hp]. cbn.
  rewrite (proj2 (Z.eqb_neq _ _)) by done. rewrite Z.eqb_refl, orb_true_r. by apply IH.
Qed.

(** Deleting the policies of a table's children goes by a LIKE pattern whose
    underscores match any character and which is not re-checked: whatever the
    engine's case folding, removing the policies of the table [a_b] also removes
    that of a view of the table [axb]. *)
Theorem policies_deleted_by_pattern fold_case :
  exists w', iam_deletePrefix (H := SampleWorld.working) fold_case (SampleWorld.parent ++ str "/tables/a_b") TombstoneRuns.withPolicies = (Ret tt, w') /\
    iam_policies_t (w_db TombstoneRuns.withPolicies) !! (SampleWorld.parent ++ str "/tables/axb/authorizedViews/v") = Some (mkPolicy 1 [[1]] [] []) /\
    iam_policies_t (w_db w') !! (SampleWorld.parent ++ str "/tables/axb/authorizedViews/v") = None.
Proof.
  eexists. split; [reflexivity|]. split; [by vm_compute|]. cbn [w_db iam_policies_t set_iam_policies_t set_db].
  apply map_lookup_filter_None. right. intros p _. apply not_false_iff_true.
  change (likePrefix ((SampleWorld.parent ++ str "/tables/a_b") ++ str "/"))
    with ((SampleWorld.parent ++ str "/tables/a") ++ 95 :: (str "b/") ++ [37]).
  change (SampleWorld.parent ++ str "/tables/axb/authorizedViews/v")
    with ((SampleWorld.parent ++ str "/tables/a") ++ 120 :: (str "b/") ++ str "authorizedViews/v").
  rewrite like_app by (vm_compute; set_solver). cbn [like]. rewrite (proj2 (Z.eqb_neq 95 37)) by done.
  rewrite Z.eqb_refl. cbn [orb andb]. rewrite like_app by (vm_compute; set_solver). reflexivity.
Qed.
