(* ===== verification/TableUpdate.v ===== *)
(** * Updating and reading tables

    The rest of [table_admin.go]: [UpdateTable] with its field masks, the views of
    a table ([GetTable], [ListTables]) with [schemaProtoNoLock] of [inmem.go], and
    consistency tokens.  An operation's metadata and the response stored with it
    are not kept; the handlers return the response. *)

From S2P Require Import Prelude Proto Rows Gc Hll Mutations Filters Server Store Tokens Targets WritePath TableAdmin TableOps Tombstones.
From stdpp Require Import base list gmap sorting.
From Stdlib Require Import ZArith Lia.

#[local] Open Scope Z_scope.

#[global] Instance StructEncoding_eq_dec : EqDecision StructEncoding.
Proof. solve_decision. Defined.
#[global] Instance Type_Struct_Field_eq_dec : EqDecision Type_Struct_Field.
Proof. solve_decision. Defined.
#[global] Instance Type_Struct_eq_dec : EqDecision Type_Struct.
Proof. solve_decision. Defined.

(** ** Views of a table *)

(** A replica's state is always READY; [cs_encryption] says whether the default
    encryption is reported. *)
Record ClusterState : Type := mkClusterState { cs_encryption : bool }.

(** The [Table] message of a response. *)
Record Table_ : Type := mkTable_ {
  tb_Name : bytes;
  tb_ColumnFamilies : gmap bytes ColumnFamily;
  tb_Granularity : Table_TimestampGranularity;
  tb_DeletionProtection : bool;
  tb_ChangeStreamConfig : option ChangeStreamConfig;
  tb_RowKeySchema : option Type_Struct;
  tb_RestoreInfo : option BackupInfo;
  tb_BackupPolicy : option AutomatedBackupPolicy;
  tb_EffectivePolicy : option AutomatedBackupPolicy;
  tb_TieredStorage : option bytes;
  tb_ClusterStates : gmap bytes ClusterState }.

Inductive Table_View : Type := VIEW_UNSPECIFIED | NAME_ONLY | SCHEMA_VIEW | REPLICATION_VIEW | ENCRYPTION_VIEW | FULL.

Definition day : Z := 24 * 3600 * 1000000000.

Definition effectiveBackupPolicy (p : AutomatedBackupPolicy) : AutomatedBackupPolicy :=
  mkBackupPolicy (Some (default (7 * day) (bp_RetentionPeriod p))) (Some (default day (bp_Frequency p)))
    (bp_Locations p) (bp_KeepHotDuration p) (bp_Disabled p).

Definition schemaProtoNoLock (t : table) : Table_ :=
  mkTable_ (table_name t) ((fun cf => mkCF (cf_GCRule cf) (cf_ValueType cf)) <$> t_families t)
    (match t_granularity t with TIMESTAMP_GRANULARITY_UNSPECIFIED => MILLIS | g => g end)
    (t_deletionProtection t) (t_changeStream t) (t_rowKeySchema t) (t_restoreInfo t) (t_backupPolicy t)
    (effectiveBackupPolicy <$> t_backupPolicy t) (t_tieredStorage t) ∅.

(** A message with the name alone. *)
Definition named_table (name : bytes) : Table_ :=
  mkTable_ name ∅ TIMESTAMP_GRANULARITY_UNSPECIFIED false None None None None None None ∅.
Definition with_states (pb : Table_) (states : gmap bytes ClusterState) : Table_ :=
  mkTable_ (tb_Name pb) (tb_ColumnFamilies pb) (tb_Granularity pb) (tb_DeletionProtection pb) (tb_ChangeStreamConfig pb)
    (tb_RowKeySchema pb) (tb_RestoreInfo pb) (tb_BackupPolicy pb) (tb_EffectivePolicy pb) (tb_TieredStorage pb) states.

(** One READY replica per cluster of the table's instance. *)
Definition clusterStatesLocked (s : server) (t : table) (withEncryption : bool) : gmap bytes ClusterState :=
  let prefix := t_parent t ++ str "/clusters/" in
  let ids := drop (length prefix) <$> filter (fun name => HasPrefix name prefix = true) (map_keys (s_clusters s)) in
  list_to_map ((fun id => (id, mkClusterState withEncryption)) <$> match ids with [] => [str "local-cluster"] | _ => ids end).

Definition tableView (s : server) (t : table) (view : Table_View) : Table_ :=
  match view with
  | NAME_ONLY => named_table (table_name t)
  | REPLICATION_VIEW => with_states (named_table (table_name t)) (clusterStatesLocked s t false)
  | ENCRYPTION_VIEW => with_states (named_table (table_name t)) (clusterStatesLocked s t true)
  | FULL => with_states (schemaProtoNoLock t) (clusterStatesLocked s t true)
  | _ => schemaProtoNoLock t
  end.

Definition GetTable (s : server) (name : bytes) (view : Table_View) : outcome Table_ :=
  let view := match view with VIEW_UNSPECIFIED => SCHEMA_VIEW | v => v end in
  match s_tables s !! name with None => Err NotFound | Some t => Ret (tableView s t view) end.

(** ** [UpdateTable] *)

(** The fields of the request's [Table] a mask can name. *)
Record TableFields : Type := mkTableFields {
  tf_Name : bytes;
  tf_DeletionProtection : bool;
  tf_ChangeStreamConfig : option ChangeStreamConfig;
  tf_RowKeySchema : option Type_Struct;
  tf_BackupPolicy : option AutomatedBackupPolicy;
  tf_TieredStorage : option bytes }.
Record UpdateTableRequest : Type := mkUpdateTable {
  ut_Table : option TableFields; ut_Paths : list bytes; ut_IgnoreWarnings : bool }.

Definition updatablePaths : list bytes :=
  [str "change_stream_config"; str "change_stream_config.retention_period"; str "deletion_protection"; str "row_key_schema";
   str "automated_backup_policy"; str "automated_backup_policy.retention_period"; str "automated_backup_policy.frequency";
   str "automated_backup_policy.locations"; str "automated_backup_policy.keep_hot_duration"; str "automated_backup_policy.disabled";
   str "tiered_storage_config"].

Definition checkUpdatePath (path : bytes) : outcome unit :=
  if bool_decide (path ∈ updatablePaths) then Ret tt
  else if bool_decide (path = str "column_families") then Err Unimplemented
  else Err InvalidArgument.

(** [&Table_AutomatedBackupPolicy{}], which a nil policy reads as. *)
Definition no_policy : AutomatedBackupPolicy := mkBackupPolicy None None [] None false.

Definition mergeBackupPolicy (cur update : option AutomatedBackupPolicy) (path : bytes) : option AutomatedBackupPolicy :=
  if bool_decide (path = str "automated_backup_policy") then update
  else
    let out := default no_policy cur in
    let u := default no_policy update in
    Some (
      if bool_decide (path = str "automated_backup_policy.retention_period") then
        mkBackupPolicy (bp_RetentionPeriod u) (bp_Frequency out) (bp_Locations out) (bp_KeepHotDuration out) (bp_Disabled out)
      else if bool_decide (path = str "automated_backup_policy.frequency") then
        mkBackupPolicy (bp_RetentionPeriod out) (bp_Frequency u) (bp_Locations out) (bp_KeepHotDuration out) (bp_Disabled out)
      else if bool_decide (path = str "automated_backup_policy.locations") then
        mkBackupPolicy (bp_RetentionPeriod out) (bp_Frequency out) (bp_Locations u) (bp_KeepHotDuration out) (bp_Disabled out)
      else if bool_decide (path = str "automated_backup_policy.keep_hot_duration") then
        mkBackupPolicy (bp_RetentionPeriod out) (bp_Frequency out) (bp_Locations out) (bp_KeepHotDuration u) (bp_Disabled out)
      else if bool_decide (path = str "automated_backup_policy.disabled") then
        mkBackupPolicy (bp_RetentionPeriod out) (bp_Frequency out) (bp_Locations out) (bp_KeepHotDuration out) (bp_Disabled u)
      else out).

(** The five fields an update can change. *)
Definition set_meta (t : table) (policy : option AutomatedBackupPolicy) (protection : bool)
    (stream : option ChangeStreamConfig) (schema : option Type_Struct) (tiered : option bytes) : table :=
  mkTable (t_parent t) (t_tableId t) (t_storageId t) (t_counter t) (t_families t) policy protection stream schema tiered
    (t_granularity t) (t_restoreInfo t) (t_initialSplits t) (t_createTime t) (t_deleteTime t).

(** [if cfg == nil || cfg.GetRetentionPeriod() == nil]. *)
Definition streamConfig (cfg : option ChangeStreamConfig) : option ChangeStreamConfig :=
  cfg ≫= fun c => match RetentionPeriod c with None => None | Some _ => Some c end.

(** One path of the mask, applied to the candidate [next] of [tbl]. *)
Definition updateTablePath (fields : TableFields) (ignoreWarnings : bool) (tbl next : table) (path : bytes) : outcome table :=
  let policy := t_backupPolicy next in let protection := t_deletionProtection next in
  let stream := t_changeStream next in let schema := t_rowKeySchema next in let tiered := t_tieredStorage next in
  if bool_decide (path = str "deletion_protection") then
    Ret (set_meta next policy (tf_DeletionProtection fields) stream schema tiered)
  else if bool_decide (path = str "change_stream_config") || bool_decide (path = str "change_stream_config.retention_period") then
    let cfg := tf_ChangeStreamConfig fields in
    _ ← validateChangeStreamConfig cfg;
    Ret (set_meta next policy protection (streamConfig cfg) schema tiered)
  else if bool_decide (path = str "row_key_schema") then
    let schema := tf_RowKeySchema fields in
    _ ← match schema, t_rowKeySchema tbl with
        | None, Some _ => if ignoreWarnings then Ret tt else Err InvalidArgument
        | Some s, Some old => if bool_decide (s = old) then Ret tt else Err InvalidArgument
        | _, None => Ret tt
        end;
    _ ← validateRowKeySchema schema (dom (t_families tbl));
    Ret (set_meta next policy protection stream schema tiered)
  else if HasPrefix path (str "automated_backup_policy") then
    Ret (set_meta next (mergeBackupPolicy policy (tf_BackupPolicy fields) path) protection stream schema tiered)
  else if bool_decide (path = str "tiered_storage_config") then
    Ret (set_meta next policy protection stream schema (tf_TieredStorage fields))
  else Ret next.

(** The candidate metadata of an update. *)
Definition candidate (fields : TableFields) (ignoreWarnings : bool) (tbl : table) (paths : list bytes) : outcome table :=
  foldM (updateTablePath fields ignoreWarnings tbl) tbl paths.

Section handlers.
Context {blob : Type} `{!Gob blob} `{!Env} (strictAdmin : bool).

Definition ListTables (parent : bytes) (view : Table_View) (pageSize : Z) (pageToken : bytes) : M blob (list Table_ * bytes) :=
  if Nat.eqb (length parent) 0 then fail InvalidArgument
  else
    _ ← localRequireInstance strictAdmin parent;
    let view := match view with VIEW_UNSPECIFIED => NAME_ONLY | v => v end in
    let prefix := parent ++ str "/tables/" in
    s ← getServer;
    let tables := (fun '(_, t) => tableView s t view) <$> filter (fun '(name, _) => HasPrefix name prefix = true) (map_to_list (s_tables s)) in
    lift (paginate tb_Name tables pageSize pageToken).

Definition UpdateTable (req : UpdateTableRequest) : M blob Table_ :=
  match ut_Paths req, ut_Table req with
  | [], _ => fail InvalidArgument
  | _, None => fail InvalidArgument
  | paths, Some fields =>
      _ ← lift (foldM (fun _ => checkUpdatePath) tt paths);
      s ← getServer;
      tbl ← lift (localRequireTable s (tf_Name fields));
      next ← lift (candidate fields (ut_IgnoreWarnings req) tbl paths);
      _ ← mapErr storageErr (SqlTables_Save next);
      let disabledStream := changeStreamEnabled tbl && negb (changeStreamEnabled next) in
      let tbl := set_meta tbl (t_backupPolicy next) (t_deletionProtection next) (t_changeStream next)
                   (t_rowKeySchema next) (t_tieredStorage next) in
      _ ← assign (Ref_Table (tf_Name fields)) tbl;
      _ ← (if disabledStream then mapErr storageErr (purgeTable (table_name tbl)) else mret tt);
      s ← getServer;
      let resp := tableView s tbl SCHEMA_VIEW in
      _ ← ops_complete (table_name tbl);
      mret resp
  end.

(** ** Consistency tokens *)

(** [strings.Split(s, "|")]. *)
Fixpoint splitBar (cur s : bytes) : list bytes :=
  match s with
  | [] => [cur]
  | c :: s' => if c =? 124 then cur :: splitBar [] s' else splitBar (cur ++ [c]) s'
  end.

Definition GenerateConsistencyToken (name : bytes) : M blob bytes :=
  s ← getServer;
  _ ← lift (localRequireTable s name);
  now ← nowMicro;
  mret (EncodeToString (str "ct1|" ++ name ++ str "|" ++ FormatInt now)).

Definition CheckConsistency (name token : bytes) : M blob bool :=
  s ← getServer;
  _ ← lift (localRequireTable s name);
  match splitBar [] <$> DecodeString token with
  | Some [version; table; _] => if bool_decide (version = str "ct1") && bool_decide (table = name) then mret true else fail InvalidArgument
  | _ => fail InvalidArgument
  end.
End handlers.

(** ** Masks *)

(** A field that every write sets to the same value has that value after a list
    of writes that contains one, and is unchanged otherwise. *)
Lemma foldM_write {A B C : Type} (f : B -> A -> outcome B) (proj : B -> C) (p : A -> bool) (v : C) l :
  (forall b a b', f b a = Ret b' -> proj b' = if p a then v else proj b) ->
  forall b b', foldM f b l = Ret b' -> proj b' = if existsb p l then v else proj b.
Proof.
  intros Hf. induction l as [|a l IH]; intros b b' E; [by injection E as <-|]. cbn [foldM] in E.
  destruct (f b a) as [b1| |] eqn:Ea; try done. cbn [mbind outcome_bind] in E. rewrite (IH b1 b' E), (Hf _ _ _ Ea). cbn [existsb].
  by destruct (p a), (existsb p l).
Qed.

Section masks.
Context (fields : TableFields) (ignore : bool) (tbl : table).

Definition is_path (names : list bytes) (path : bytes) : bool := bool_decide (path ∈ names).

(** The paths that write a field of the policy: its own, and the policy's. *)
Definition policy_path (name : bytes) : bytes -> bool := is_path [str "automated_backup_policy"; name].

(** The policy a request carries, as a nil-safe getter reads it. *)
Definition given_policy : AutomatedBackupPolicy := default no_policy (tf_BackupPolicy fields).

(** Case analysis on the path that is compared. *)
Ltac split_path path :=
  match goal with
  | |- context [bool_decide (path = ?s)] =>
      destruct (decide (path = s)) as [->|?Hne];
      [rewrite ?(bool_decide_eq_true_2 (s = s)) by done; rewrite ?bool_decide_eq_false_2 by done
      |rewrite ?(bool_decide_eq_false_2 (path = s)) by done]
  end.

Lemma is_path_in names path : path ∈ names -> is_path names path = true.
Proof. apply bool_decide_eq_true_2. Qed.
Lemma is_path_out names path : path ∉ names -> is_path names path = false.
Proof. apply bool_decide_eq_false_2. Qed.

Lemma updateTablePath_Ret next path next' : updateTablePath fields ignore tbl next path = Ret next' ->
  next' = set_meta next
    (if HasPrefix path (str "automated_backup_policy") then mergeBackupPolicy (t_backupPolicy next) (tf_BackupPolicy fields) path else t_backupPolicy next)
    (if is_path [str "deletion_protection"] path then tf_DeletionProtection fields else t_deletionProtection next)
    (if is_path [str "change_stream_config"; str "change_stream_config.retention_period"] path then streamConfig (tf_ChangeStreamConfig fields) else t_changeStream next)
    (if is_path [str "row_key_schema"] path then tf_RowKeySchema fields else t_rowKeySchema next)
    (if is_path [str "tiered_storage_config"] path then tf_TieredStorage fields else t_tieredStorage next).
Proof.
  unfold updateTablePath. destruct (decide (path ∈ [str "deletion_protection"; str "change_stream_config"; str "change_stream_config.retention_period"; str "row_key_schema"; str "tiered_storage_config"])) as [Hin|Hout].
  - rewrite !elem_of_cons, elem_of_nil in Hin. destruct Hin as [->|[->|[->|[->|[->|[]]]]]]; cbn -[validateChangeStreamConfig validateRowKeySchema streamConfig set_meta].
    + by intros [= <-].
    + destruct (validateChangeStreamConfig _); [by intros [= <-]|done|done].
    + destruct (validateChangeStreamConfig _); [by intros [= <-]|done|done].
    + intros E. destruct (match tf_RowKeySchema fields with Some _ => _ | None => _ end); [|done|done]. cbn [mbind outcome_bind] in E.
      destruct (validateRowKeySchema _ _); [by injection E as <-|done|done].
    + by intros [= <-].
  - rewrite !not_elem_of_cons in Hout. destruct Hout as (H1 & H2 & H3 & H4 & H5 & _). rewrite !(bool_decide_eq_false_2 (path = _)) by done. cbn [orb].
    rewrite !is_path_out by (rewrite !elem_of_cons, elem_of_nil; naive_solver). destruct (HasPrefix _ _); intros [= <-]; [done|by destruct next].
Qed.

Lemma updateTablePath_policy next path next' : updateTablePath fields ignore tbl next path = Ret next' ->
  let out := default no_policy (t_backupPolicy next) in
  let pick {C : Type} (name : bytes) (get : AutomatedBackupPolicy -> C) := if policy_path name path then get given_policy else get out in
  default no_policy (t_backupPolicy next') =
    mkBackupPolicy (pick (str "automated_backup_policy.retention_period") bp_RetentionPeriod)
      (pick (str "automated_backup_policy.frequency") bp_Frequency) (pick (str "automated_backup_policy.locations") bp_Locations)
      (pick (str "automated_backup_policy.keep_hot_duration") bp_KeepHotDuration) (pick (str "automated_backup_policy.disabled") bp_Disabled).
Proof.
  intros ->%updateTablePath_Ret. cbn [t_backupPolicy set_meta]. unfold given_policy.
  destruct (decide (path ∈ [str "automated_backup_policy"; str "automated_backup_policy.retention_period"; str "automated_backup_policy.frequency";
    str "automated_backup_policy.locations"; str "automated_backup_policy.keep_hot_duration"; str "automated_backup_policy.disabled"])) as [Hin|Hout].
  - rewrite !elem_of_cons, elem_of_nil in Hin. destruct Hin as [->|[->|[->|[->|[->|[->|[]]]]]]]; cbn -[default no_policy]; [|done..].
    by destruct (tf_BackupPolicy fields) as [[]|].
  - rewrite !not_elem_of_cons in Hout. destruct Hout as (H1 & H2 & H3 & H4 & H5 & H6 & _). unfold policy_path.
    rewrite !is_path_out by (rewrite !elem_of_cons, elem_of_nil; naive_solver). unfold mergeBackupPolicy. rewrite !(bool_decide_eq_false_2 (path = _)) by done.
    destruct (HasPrefix _ _); cbn; by destruct (default no_policy (t_backupPolicy next)).
Qed.

(** [new] when a path of the mask is among [names], else [old]. *)
Definition written {C : Type} (paths names : list bytes) (new old : C) : C := if existsb (is_path names) paths then new else old.

(** What a mask means: each field it names, under any of its paths, has the
    value of the request, whatever the order, and every other field that of the
    table. *)
Definition masked (paths : list bytes) (next : table) : Prop :=
  next = set_meta tbl (t_backupPolicy next)
    (written paths [str "deletion_protection"] (tf_DeletionProtection fields) (t_deletionProtection tbl))
    (written paths [str "change_stream_config"; str "change_stream_config.retention_period"] (streamConfig (tf_ChangeStreamConfig fields)) (t_changeStream tbl))
    (written paths [str "row_key_schema"] (tf_RowKeySchema fields) (t_rowKeySchema tbl))
    (written paths [str "tiered_storage_config"] (tf_TieredStorage fields) (t_tieredStorage tbl)) /\
  (let old := default no_policy (t_backupPolicy tbl) in
   let pick {C : Type} (name : bytes) (get : AutomatedBackupPolicy -> C) := written paths [str "automated_backup_policy"; name] (get given_policy) (get old) in
   default no_policy (t_backupPolicy next) =
     mkBackupPolicy (pick (str "automated_backup_policy.retention_period") bp_RetentionPeriod)
       (pick (str "automated_backup_policy.frequency") bp_Frequency) (pick (str "automated_backup_policy.locations") bp_Locations)
       (pick (str "automated_backup_policy.keep_hot_duration") bp_KeepHotDuration) (pick (str "automated_backup_policy.disabled") bp_Disabled)).

Lemma candidate_masked paths next : candidate fields ignore tbl paths = Ret next -> masked paths next.
Proof.
  intros E.
  assert (forall (C : Type) (proj : table -> C) (p : bytes -> bool) (v : C),
    (forall b a b', updateTablePath fields ignore tbl b a = Ret b' -> proj b' = if p a then v else proj b) ->
    proj next = if existsb p paths then v else proj tbl) as Hw.
  { intros C proj p v Hp. exact (foldM_write _ proj p v paths Hp tbl next E). }
  split.
  - unfold written.
    rewrite <- (Hw _ t_deletionProtection _ _ ltac:(intros b a b' ->%updateTablePath_Ret; reflexivity)).
    rewrite <- (Hw _ t_changeStream _ _ ltac:(intros b a b' ->%updateTablePath_Ret; reflexivity)).
    rewrite <- (Hw _ t_rowKeySchema _ _ ltac:(intros b a b' ->%updateTablePath_Ret; reflexivity)).
    rewrite <- (Hw _ t_tieredStorage _ _ ltac:(intros b a b' ->%updateTablePath_Ret; reflexivity)).
    refine (foldM_inv (fun n => n = set_meta tbl (t_backupPolicy n) (t_deletionProtection n) (t_changeStream n) (t_rowKeySchema n) (t_tieredStorage n)) _ _ _ _ _ _ E);
      [|by destruct tbl].
    intros b a b' _ Hb ->%updateTablePath_Ret. rewrite Hb. reflexivity.
  - assert (forall (C : Type) (get : AutomatedBackupPolicy -> C) (name : bytes),
      (forall next path next', updateTablePath fields ignore tbl next path = Ret next' ->
        get (default no_policy (t_backupPolicy next')) = if policy_path name path then get given_policy else get (default no_policy (t_backupPolicy next))) ->
      get (default no_policy (t_backupPolicy next)) = written paths [str "automated_backup_policy"; name] (get given_policy) (get (default no_policy (t_backupPolicy tbl)))) as Hf.
    { intros C get name Hg. exact (Hw C (fun n => get (default no_policy (t_backupPolicy n))) _ _ Hg). }
    cbv beta zeta.
    rewrite <- (Hf _ bp_RetentionPeriod (str "automated_backup_policy.retention_period") ltac:(intros b a b' Hu%updateTablePath_policy; rewrite Hu; reflexivity)).
    rewrite <- (Hf _ bp_Frequency (str "automated_backup_policy.frequency") ltac:(intros b a b' Hu%updateTablePath_policy; rewrite Hu; reflexivity)).
    rewrite <- (Hf _ bp_Locations (str "automated_backup_policy.locations") ltac:(intros b a b' Hu%updateTablePath_policy; rewrite Hu; reflexivity)).
    rewrite <- (Hf _ bp_KeepHotDuration (str "automated_backup_policy.keep_hot_duration") ltac:(intros b a b' Hu%updateTablePath_policy; rewrite Hu; reflexivity)).
    rewrite <- (Hf _ bp_Disabled (str "automated_backup_policy.disabled") ltac:(intros b a b' Hu%updateTablePath_policy; rewrite Hu; reflexivity)).
    by destruct (default no_policy (t_backupPolicy next)).
Qed.

(** A row-key schema is never replaced by another one in one step. *)
Lemma candidate_schema paths next old : candidate fields ignore tbl paths = Ret next -> t_rowKeySchema tbl = Some old ->
  t_rowKeySchema next = Some old \/ (t_rowKeySchema next = None /\ ignore = true).
Proof.
  intros E Ho. refine (foldM_inv (fun n => t_rowKeySchema n = Some old \/ (t_rowKeySchema n = None /\ ignore = true)) _ _ _ _ _ _ E); [|by left].
  intros b path b' _ Hb Hu. pose proof (updateTablePath_Ret _ _ _ Hu) as Eb. destruct (decide (path ∈ [str "row_key_schema"])) as [Hin|Hout].
  - apply list_elem_of_singleton in Hin as ->. unfold updateTablePath in Hu. rewrite (bool_decide_eq_true_2 (str "row_key_schema" = str "row_key_schema")) in Hu by done.
    rewrite !(bool_decide_eq_false_2 (str "row_key_schema" = _)) in Hu by done. cbn [orb] in Hu. rewrite Ho in Hu. rewrite Eb. cbn.
    destruct (tf_RowKeySchema fields) as [s|]; [destruct (decide (s = old)) as [->|Hne]; [by left|by rewrite bool_decide_eq_false_2 in Hu by done]|].
    destruct ignore; [by right|done].
  - rewrite Eb. cbn [t_rowKeySchema set_meta]. by rewrite is_path_out.
Qed.
End masks.

(** ** What an update does *)

Section effect.
Context {blob : Type} `{!Gob blob} `{!Env}.

(** The fields an update does not write are those of the table. *)
Lemma masked_adopt fields paths tbl next : masked fields tbl paths next ->
  set_meta tbl (t_backupPolicy next) (t_deletionProtection next) (t_changeStream next) (t_rowKeySchema next) (t_tieredStorage next) = next.
Proof. intros [E _]. rewrite E at 6. rewrite E at 2 3 4 5. reflexivity. Qed.

Lemma masked_names fields paths tbl next : masked fields tbl paths next ->
  table_name next = table_name tbl /\ t_parent next = t_parent tbl /\ t_storageId next = t_storageId tbl.
Proof. intros [E _]. rewrite E. done. Qed.

(** The change records that are left. *)
Definition after_update (tbl next : table) (l : list changeRecord) : list changeRecord :=
  if changeStreamEnabled tbl && negb (changeStreamEnabled next) then filter (fun r => cr_table r <> table_name tbl) l else l.


Lemma checkUpdatePath_safe path : checkUpdatePath path <> Panic.
Proof. unfold checkUpdatePath. by repeat case_match. Qed.
Lemma validateRowKeySchema_safe schema fams : validateRowKeySchema schema fams <> Panic.
Proof.
  unfold validateRowKeySchema. destruct schema as [s|]; [|done]. case_match; [done|]. intros E.
  destruct (foldM _ _ _) eqn:Ef; [done|done|]. apply foldM_safe in Ef; [done|]. intros b a. by repeat case_match.
Qed.
Lemma updateTablePath_safe fields ignore tbl next path : updateTablePath fields ignore tbl next path <> Panic.
Proof.
  unfold updateTablePath. case_match; [done|]. case_match.
  { unfold validateChangeStreamConfig. repeat case_match; done. }
  case_match.
  { pose proof (validateRowKeySchema_safe (tf_RowKeySchema fields) (dom (t_families tbl))).
    destruct (validateRowKeySchema _ _); [| |done]; repeat case_match; done. }
  by repeat case_match.
Qed.

(** The handler on a table it finds, before the first statement. *)
Definition validated (req : UpdateTableRequest) (fields : TableFields) (tbl : table) : outcome table :=
  _ ← foldM (fun _ => checkUpdatePath) tt (ut_Paths req); candidate fields (ut_IgnoreWarnings req) tbl (ut_Paths req).

(** The handler after it. *)
Definition committed (fields : TableFields) (tbl next : table) : M blob Table_ :=
  _ ← mapErr storageErr (SqlTables_Save next);
  _ ← assign (Ref_Table (tf_Name fields)) next;
  _ ← (if changeStreamEnabled tbl && negb (changeStreamEnabled next) then mapErr storageErr (purgeTable (table_name tbl)) else mret tt);
  s ← getServer;
  _ ← ops_complete (table_name tbl);
  mret (schemaProtoNoLock next).

Lemma UpdateTable_run req fields tbl w :
  ut_Table req = Some fields -> ut_Paths req <> [] -> s_tables (w_srv w) !! tf_Name fields = Some tbl ->
  UpdateTable req w =
    match validated req fields tbl with
    | Ret next => committed fields tbl next w
    | Err c => (Err c, w)
    | Panic => (Panic, w)
    end.
Proof.
  intros Ef Hp Ht. unfold UpdateTable, validated. rewrite Ef. destruct (ut_Paths req) as [|p ps] eqn:Ep; [done|]. rewrite bind_run. unfold lift at 1.
  destruct (foldM _ _ _) as [[]| |]; [|done|done]. rewrite bind_run. cbn [getServer mbind outcome_bind]. rewrite bind_run. unfold lift at 1, localRequireTable. rewrite Ht.
  rewrite bind_run. unfold lift at 1. destruct (candidate _ _ _ _) as [next| |] eqn:Ec; [|done|done].
  apply candidate_masked in Ec. unfold committed. rewrite (masked_adopt _ _ _ _ Ec). destruct (masked_names _ _ _ _ Ec) as [-> _]. done.
Qed.

Lemma validated_Ret req fields tbl next : validated req fields tbl = Ret next ->
  masked fields tbl (ut_Paths req) next /\
  (forall old, t_rowKeySchema tbl = Some old -> t_rowKeySchema next = Some old \/ (t_rowKeySchema next = None /\ ut_IgnoreWarnings req = true)).
Proof.
  unfold validated. destruct (foldM _ _ _) as [[]| |]; [|done|done]. intros E. split; [by eapply candidate_masked|]. intros old. by eapply candidate_schema.
Qed.
Lemma validated_safe req fields tbl : validated req fields tbl <> Panic.
Proof.
  unfold validated. pose proof (foldM_safe (fun _ => checkUpdatePath) (ut_Paths req) ltac:(intros; apply checkUpdatePath_safe) tt).
  destruct (foldM _ _ _); [|done|done]. apply foldM_safe. intros. apply updateTablePath_safe.
Qed.

(** Registering an operation touches the registry alone. *)
Lemma ops_complete_run resource w : (forall n, driver n = None) ->
  exists w', ops_complete (blob := blob) resource w = (Ret tt, w') /\
    s_tables (w_srv w') = s_tables (w_srv w) /\ s_deletedTables (w_srv w') = s_deletedTables (w_srv w) /\
    tables_t (w_db w') = tables_t (w_db w) /\ change_stream_t (w_db w') = change_stream_t (w_db w) /\ rows_t (w_db w') = rows_t (w_db w).
Proof.
  intros Hd. unfold ops_complete. rewrite bind_run. cbn [getServer]. rewrite bind_run. cbn [putServer]. unfold mapErr. erewrite (run_call Hd) by reflexivity.
  eexists. split; [reflexivity|]. done.
Qed.

(** What a committed update has done. *)
Lemma committed_run fields tbl next w : (forall n, driver n = None) ->
  exists w', committed fields tbl next w = (Ret (schemaProtoNoLock next), w') /\
    s_tables (w_srv w') = <[tf_Name fields := next]> (s_tables (w_srv w)) /\
    s_deletedTables (w_srv w') = s_deletedTables (w_srv w) /\
    tables_t (w_db w') = <[(t_parent next, t_storageId next) := next]> (tables_t (w_db w)) /\
    change_stream_t (w_db w') = after_update tbl next (change_stream_t (w_db w)) /\
    rows_t (w_db w') = rows_t (w_db w).
Proof.
  intros Hd. unfold committed, after_update. rewrite bind_run. unfold mapErr at 1, SqlTables_Save, call. rewrite Hd. cbn [fst snd].
  rewrite bind_run. unfold assign. rewrite bind_run. cbn [getServer putServer]. rewrite bind_run.
  destruct (changeStreamEnabled tbl && negb (changeStreamEnabled next)).
  - unfold mapErr at 1, purgeTable. erewrite (run_call Hd) by reflexivity. rewrite bind_run. cbn [getServer]. rewrite bind_run.
    match goal with |- context [ops_complete ?r ?w1] => destruct (ops_complete_run r w1 Hd) as (w' & -> & E1 & E2 & E3 & E4 & E5) end.
    exists w'. split; [reflexivity|]. rewrite E1, E2, E3, E4, E5. done.
  - cbn [mret M_ret]. rewrite bind_run. cbn [getServer]. rewrite bind_run.
    match goal with |- context [ops_complete ?r ?w1] => destruct (ops_complete_run r w1 Hd) as (w' & -> & E1 & E2 & E3 & E4 & E5) end.
    exists w'. split; [reflexivity|]. rewrite E1, E2, E3, E4, E5. done.
Qed.
End effect.

(** C10: When no call of the driver fails, [UpdateTable] does what its mask says: every named
    field takes the value of the request, in any order of the paths, and no other field of
    the table, no other table and no row changes; memory and database agree; a row-key
    schema is kept, or removed with [ignore_warnings], but never replaced; the change
    records of the table go exactly when its stream is switched off.  (When the purge of
    the records fails they stay: [purge_not_retried].)  A mask or a value that does not
    validate is refused before anything is written. *)
Theorem UpdateTable_effect {blob : Type} `{!Gob blob} `{!Env} req fields tbl (w : world blob) :
  (forall n, driver n = None) -> ut_Table req = Some fields -> ut_Paths req <> [] -> s_tables (w_srv w) !! tf_Name fields = Some tbl ->
  match validated req fields tbl with
  | Ret next =>
      (exists w', UpdateTable req w = (Ret (schemaProtoNoLock next), w') /\
         s_tables (w_srv w') = <[tf_Name fields := next]> (s_tables (w_srv w)) /\
         s_deletedTables (w_srv w') = s_deletedTables (w_srv w) /\
         tables_t (w_db w') = <[(t_parent next, t_storageId next) := next]> (tables_t (w_db w)) /\
         change_stream_t (w_db w') = after_update tbl next (change_stream_t (w_db w)) /\
         rows_t (w_db w') = rows_t (w_db w)) /\
      masked fields tbl (ut_Paths req) next /\
      (forall old, t_rowKeySchema tbl = Some old -> t_rowKeySchema next = Some old \/ (t_rowKeySchema next = None /\ ut_IgnoreWarnings req = true))
  | Err c => UpdateTable req w = (Err c, w)
  | Panic => False
  end.
Proof.
  intros Hd Ef Hp Ht. pose proof (validated_safe req fields tbl) as Hs. pose proof (validated_Ret req fields tbl) as Hv.
  rewrite (UpdateTable_run _ _ _ _ Ef Hp Ht). destruct (validated req fields tbl) as [next| |]; [|done|done].
  split; [by apply committed_run|by apply Hv].
Qed.

(** A table with a stream and two records; the update switches the stream off
    and turns the protection on. *)
Module SampleUpdate.
Definition tbl : table := SampleWorld.tbl.
Definition fields : TableFields := mkTableFields (table_name tbl) true None None (Some (mkBackupPolicy (Some 5) None [] None false)) None.
Definition req : UpdateTableRequest :=
  mkUpdateTable (Some fields) [str "deletion_protection"; str "change_stream_config"; str "automated_backup_policy.retention_period"] false.
Definition updated : table := default tbl (match validated req fields tbl with Ret t => Some t | _ => None end).
End SampleUpdate.

Lemma UpdateTable_effect_witness :
  exists w', UpdateTable (H := SampleWorld.working) SampleUpdate.req SampleWorld.world0 = (Ret (schemaProtoNoLock SampleUpdate.updated), w') /\
    t_deletionProtection SampleUpdate.updated = true /\ t_changeStream SampleUpdate.updated = None /\
    t_backupPolicy SampleUpdate.updated = Some (mkBackupPolicy (Some 5) None [] None false).
Proof.
  pose proof (UpdateTable_effect (H := SampleWorld.working) SampleUpdate.req SampleUpdate.fields SampleUpdate.tbl SampleWorld.world0
    ltac:(done) ltac:(done) ltac:(done) ltac:(apply lookup_singleton_eq)) as Hu.
  assert (validated SampleUpdate.req SampleUpdate.fields SampleUpdate.tbl = Ret SampleUpdate.updated) as E by (vm_compute; reflexivity).
  rewrite E in Hu. destruct Hu as ((w' & Ew & _) & _). exists w'. split; [exact Ew|]. split_and!; vm_compute; reflexivity.
Defined.

(** ** Consistency tokens *)

Lemma splitBar_app s : 124 ∉ s -> forall cur t, splitBar cur (s ++ 124 :: t) = (cur ++ s) :: splitBar [] t.
Proof.
  induction s as [|c s IH]; intros Hs cur t; cbn; [by rewrite app_nil_r|]. apply not_elem_of_cons in Hs as [Hc Hs].
  rewrite (proj2 (Z.eqb_neq _ _)) by lia. rewrite IH by done. by rewrite <- app_assoc.
Qed.
Lemma splitBar_last s : 124 ∉ s -> forall cur, splitBar cur s = [cur ++ s].
Proof.
  induction s as [|c s IH]; intros Hs cur; cbn; [by rewrite app_nil_r|]. apply not_elem_of_cons in Hs as [Hc Hs].
  rewrite (proj2 (Z.eqb_neq _ _)) by lia. rewrite IH by done. by rewrite <- app_assoc.
Qed.
Lemma FormatInt_chars n : Forall (fun c => c = 45 \/ 48 <= c <= 57) (FormatInt n).
Proof.
  assert (forall m, Forall (fun c => c = 45 \/ 48 <= c <= 57) (digits 20 m [])) as Hd.
  { intros m. eapply Forall_impl; [apply digits_all; constructor|]. intros c Hc. by right. }
  unfold FormatInt. case_match; [|apply Hd]. constructor; [by left|apply Hd].
Qed.

(** A token is valid for the table it was issued for, and for no other. *)
Theorem consistency_token_valid {blob : Type} `{!Gob blob} `{!Env} name (w w1 : world blob) token :
  all_bytes name -> 124 ∉ name -> GenerateConsistencyToken name w = (Ret token, w1) ->
  forall (w2 : world blob) name2, is_Some (s_tables (w_srv w2) !! name2) ->
    CheckConsistency name2 token w2 = if decide (name2 = name) then (Ret true, w2) else (Err InvalidArgument, w2).
Proof.
  intros Hb Hn E w2 name2 [t2 Ht]. unfold GenerateConsistencyToken in E. rewrite bind_run in E. cbn [getServer] in E. rewrite bind_run in E. unfold lift, localRequireTable in E.
  destruct (s_tables (w_srv w) !! name); [|done]. rewrite bind_run in E. unfold nowMicro in E. rewrite bind_run in E. unfold timeNow in E. cbn [mret M_ret] in E.
  apply ret_Ret in E as [<- _].
  unfold CheckConsistency. rewrite bind_run. cbn [getServer]. rewrite bind_run. unfold lift, localRequireTable. rewrite Ht.
  pose proof (FormatInt_chars (clock (w_ticks w) / 1000)) as Hf. set (now := FormatInt _) in *.
  assert (124 ∉ now) as Hnow by (intros Hin; rewrite list.Forall_forall in Hf; apply Hf in Hin; lia).
  rewrite decode_EncodeToString.
  - cbn [fmap option_fmap option_map]. change (str "ct1|" ++ name ++ str "|" ++ now) with (str "ct1" ++ 124 :: (name ++ 124 :: now)).
    rewrite splitBar_app by (vm_compute; set_solver). rewrite splitBar_app by done. rewrite splitBar_last by done. cbn [app]. rewrite bool_decide_eq_true_2 by done.
    cbn [andb]. destruct (decide (name2 = name)) as [->|Hne]; [by rewrite bool_decide_eq_true_2|by rewrite bool_decide_eq_false_2 by congruence].
  - unfold all_bytes in *. rewrite !Forall_app. split; [vm_compute; repeat constructor; done|]. split; [done|]. split; [vm_compute; repeat constructor; done|].
    apply FormatInt_bytes.
Qed.

(** ** A purge that fails *)

Module UpdateRuns.
(** The second driver call, the purge of the change records, fails. *)
Definition purgeFails : Env :=
  mkEnv (fun n => if (n =? 1)%nat then Some F_Other else None) SampleWorld.seconds (fun _ => F_Fin 1 2).
Definition record1 : changeRecord := mkChangeRecord 1 (table_name SampleWorld.tbl) [107] USER 1000000 [].
Definition withRecord : world (gmap bytes family) :=
  set_db SampleWorld.world0 (set_change_stream_t SampleWorld.db0 [record1] 1).
Definition update (cfg : option ChangeStreamConfig) : UpdateTableRequest :=
  mkUpdateTable (Some (mkTableFields (table_name SampleWorld.tbl) false cfg None None None)) [str "change_stream_config"] false.
Definition disable := UpdateTable (H := purgeFails) (update None) withRecord.
Definition again := UpdateTable (H := purgeFails) (update None) disable.2.
Definition enable := UpdateTable (H := purgeFails) (update (t_changeStream SampleWorld.tbl)) again.2.
End UpdateRuns.

(** The purge that follows the switching off of a stream is not part of the
    update, and no later update makes up for it: when it fails, switching the
    stream off again succeeds without purging, and once the stream is on again
    the records from before are readable. *)
Theorem purge_not_retried :
  (exists c, UpdateRuns.disable.1 = Err c) /\ (exists t, UpdateRuns.again.1 = Ret t) /\ (exists t, UpdateRuns.enable.1 = Ret t) /\
  from_option changeStreamEnabled false (s_tables (w_srv UpdateRuns.again.2) !! table_name SampleWorld.tbl) = false /\
  from_option changeStreamEnabled false (s_tables (w_srv UpdateRuns.enable.2) !! table_name SampleWorld.tbl) = true /\
  change_stream_t (w_db UpdateRuns.enable.2) = [UpdateRuns.record1].
Proof.
  split_and!; [| | |vm_compute; reflexivity..]; eexists; vm_compute; reflexivity.
Qed.
