(* ===== verification/ChangeStream.v ===== *)
(** * Change streams

    The change log of [localcloud_change_stream.go] and its readers: where a
    stream starts, the polling loop of ReadChangeStream as one function per
    pass, and a reader running between the requests that write the log.

    The log is written by the handlers of WritePath.v and TableOps.v.  A pass of
    the loop reads the log once; any number of other requests may run between
    two passes, which is the step relation [step]. *)

From S2P Require Import Prelude Proto Rows Gc Hll Mutations Filters Server Store Tokens Targets WritePath Chunks ReadPath TableAdmin TableOps.
From stdpp Require Import base list gmap sorting.
From Stdlib Require Import ZArith Lia.

#[local] Open Scope Z_scope.

(** ** Messages *)

(** [StreamPartition], whose row range may be missing. *)
Record StreamPartition : Type := mkPartition { sp_RowRange : option RowRange }.
Definition fullStreamPartition : StreamPartition := mkPartition (Some (mkRowRange Start_Unset End_Unset)).

Record StreamContinuationToken : Type := mkToken { tok_Partition : option StreamPartition; tok_Token : bytes }.

(** Times in nanoseconds. *)
Record ReadChangeStreamRequest : Type := mkReadChangeStream {
  cs_TableName : bytes; cs_AppProfileId : bytes;
  cs_Partition : option StreamPartition; cs_Tokens : list StreamContinuationToken;
  cs_StartTime : option Z; cs_EndTime : option Z; cs_Heartbeat : option Z }.

Inductive StreamRecord : Type :=
| Record_DataChange (ty : ChangeType) (sourceClusterId rowKey : bytes) (commitMicros : Z)
    (chunks : list Mutation) (token : bytes) (lowWatermark : Z)
| Record_Heartbeat (partition : StreamPartition) (token : bytes) (lowWatermark : Z)
| Record_CloseStream (status : Z).

Definition changeRecordResponse (rec : changeRecord) (clusterID : bytes) (watermark : Z) : StreamRecord :=
  Record_DataChange (cr_type rec) (match cr_type rec with USER => clusterID | _ => [] end) (cr_rowKey rec)
    (cr_commitMicros rec) (cr_mutations rec) (encodeChangeStreamToken (cr_id rec)) watermark.

Definition heartbeatResponse (partition : StreamPartition) (afterID watermark : Z) : StreamRecord :=
  Record_Heartbeat partition (encodeChangeStreamToken afterID) watermark.

(** [sendCloseStream] sends status OK. *)
Definition closeStream : StreamRecord := Record_CloseStream 0.

Definition partitionRange (p : StreamPartition) : keyRange :=
  match sp_RowRange p with
  | None => mkKeyRange [] []
  | Some rr =>
      mkKeyRange (match rr_start rr with Start_Closed b => b | Start_Open b => b ++ [0] | Start_Unset => [] end)
                 (match rr_end rr with End_Closed b => b ++ [0] | End_Open b => b | End_Unset => [] end)
  end.

(** The instance's first cluster. *)
Definition sourceClusterID (s : server) (instance : bytes) : bytes :=
  let prefix := instance ++ str "/clusters/" in
  let best := foldl (fun best '(name, _) =>
    if HasPrefix name prefix then
      let id := drop (length prefix) name in
      if bool_decide (best = []) || bytes_ltb id best then id else best
    else best) [] (map_to_list (s_clusters s)) in
  match best with [] => str "local-cluster" | _ => best end.

Definition defaultHeartbeat : Z := 5 * 1000000000.
Definition changeStreamBatchSize : nat := 500.

(** [time.Time{}], year 1, and truncation to microseconds. *)
Definition zeroTime : Z := -62135596800 * 1000000000.
Definition truncateMicros (t : Z) : Z := t / 1000 * 1000.

(** ** The log *)

Definition byId (a b : changeRecord) : bool := cr_id a <=? cr_id b.

(** [COALESCE(MAX(id), 0)]. *)
Definition maxOf (ids : list Z) : Z := match ids with [] => 0 | i :: ids => foldl Z.max i ids end.

Section stream.
Context {blob : Type} `{!Gob blob} `{!Env}.

Definition listAfter (tableName : bytes) (afterID : Z) (limit : nat) : M blob (list changeRecord) :=
  call (fun d => (Ret (take limit (isort byId
    (filter (fun r => cr_table r = tableName /\ afterID < cr_id r) (change_stream_t d)))), d)).

Definition lastIDBefore (tableName : bytes) (commitMicros : Z) : M blob Z :=
  call (fun d => (Ret (maxOf (cr_id <$>
    filter (fun r => cr_table r = tableName /\ cr_commitMicros r < commitMicros) (change_stream_t d))), d)).

Definition maxID (tableName : bytes) : M blob Z :=
  call (fun d => (Ret (maxOf (cr_id <$> filter (fun r => cr_table r = tableName) (change_stream_t d))), d)).

Definition purgeBefore (tableName : bytes) (commitMicros : Z) : M blob unit :=
  call (fun d => (Ret tt, set_change_stream_t d
    (filter (fun r => ~ (cr_table r = tableName /\ cr_commitMicros r < commitMicros)) (change_stream_t d)) (change_stream_seq d))).

(** Time minus retention, in microseconds. *)
Definition purgeExpiredChangeRecords : M blob unit :=
  s ← getServer;
  forM (fun _ '(_, t) =>
    let retention := changeStreamRetention t in
    if retention =? 0 then mret tt
    else now ← timeNow; purgeBefore (table_name t) ((now - retention) / 1000)) tt (map_to_list (s_tables s)).

(** ** Where a stream starts *)

Definition changeStreamTable (tableName appProfileID : bytes) : M blob table :=
  s ← getServer;
  tbl ← lift (localRequireTable s tableName);
  profile ← lift (resolveAppProfile s (tableInstance tableName) appProfileID);
  let routed := match profile with None => true | Some p => bool_decide (is_Some (ap_SingleCluster p)) end in
  if negb routed then fail FailedPrecondition
  else if negb (changeStreamEnabled tbl) then fail FailedPrecondition else mret tbl.

Definition GenerateInitialChangeStreamPartitions (tableName appProfileID : bytes) : M blob (list StreamPartition) :=
  _ ← changeStreamTable tableName appProfileID; mret [fullStreamPartition].

(** The loop over the continuation tokens: the earliest position, and the
    partition of the last token. *)
Definition tokensStart (tokens : list StreamContinuationToken) : outcome (option Z * option StreamPartition) :=
  foldM (fun '(afterID, _) token =>
    id ← decodeChangeStreamToken (tok_Token token);
    Ret (Some (match afterID with None => id | Some a => if id <? a then id else a end), tok_Partition token))
    (None, None) tokens.

Definition changeStreamStart (tbl : table) (req : ReadChangeStreamRequest) : M blob (StreamPartition * Z) :=
  match cs_Tokens req with
  | _ :: _ =>
      '(afterID, tokenPartition) ← lift (tokensStart (cs_Tokens req));
      partition ← lift (match cs_Partition req, tokenPartition with
        | None, _ => Ret tokenPartition
        | Some p, Some tp =>
            if bool_decide (sp_RowRange p = sp_RowRange tp) then Ret (Some p) else Err InvalidArgument
        | Some p, None => Ret (Some p)
        end);
      mret (default fullStreamPartition partition, default 0 afterID)
  | [] =>
      let partition := default fullStreamPartition (cs_Partition req) in
      match cs_StartTime req with
      | None => id ← mapErr (fun _ => Internal) (maxID (cs_TableName req)); mret (partition, id)
      | Some startTime =>
          now ← timeNow;
          if now <? startTime then fail InvalidArgument
          else if startTime <? now - changeStreamRetention tbl then fail InvalidArgument
          else id ← mapErr (fun _ => Internal) (lastIDBefore (cs_TableName req) (startTime / 1000)); mret (partition, id)
      end
  end.

(** ** The polling loop *)

(** What ReadChangeStream fixes before its loop. *)
Record streamParams : Type := mkParams {
  pm_table : bytes; pm_partition : StreamPartition; pm_endTime : option Z;
  pm_heartbeat : Z; pm_clusterID : bytes }.

(** Its loop variables. *)
Record reader : Type := mkReader { rd_nextAfterID : Z; rd_lastHeartbeat : Z }.

(** The loop over the records of a pass: what is sent, the position reached,
    and whether the stream was closed. *)
Fixpoint deliver (p : streamParams) (watermark : Z) (records : list changeRecord) (next : Z) : list StreamRecord * Z * bool :=
  match records with
  | [] => ([], next, false)
  | rec :: records' =>
      if match pm_endTime p with Some e => e <? cr_commitMicros rec * 1000 | None => false end
      then ([closeStream], next, true)
      else
        let '(out, next', closed) := deliver p watermark records' (cr_id rec) in
        if negb (contains (partitionRange (pm_partition p)) (cr_rowKey rec)) then (out, next', closed)
        else (changeRecordResponse rec (pm_clusterID p) watermark :: out, next', closed)
  end.

(** One pass of the loop: what it sends, the loop variables, and whether the
    loop goes on. *)
Definition poll (p : streamParams) (st : reader) : M blob (list StreamRecord * reader * bool) :=
  watermark ← timeNow;
  records ← mapErr (fun _ => Internal) (listAfter (pm_table p) (rd_nextAfterID st) changeStreamBatchSize);
  let '(out, next, closed) := deliver p watermark records (rd_nextAfterID st) in
  let st := mkReader next (rd_lastHeartbeat st) in
  if closed then mret (out, st, false)
  else if Nat.eqb (length records) changeStreamBatchSize then mret (out, st, true)
  else if match pm_endTime p with Some e => e <? truncateMicros watermark | None => false end
  then mret (out ++ [closeStream], st, false)
  else
    now ← timeNow;
    if pm_heartbeat p <=? now - rd_lastHeartbeat st then
      last ← timeNow;
      mret (out ++ [heartbeatResponse (pm_partition p) next watermark], mkReader next last, true)
    else mret (out, st, true).

(** The loop, for at most [fuel] passes and with no other request between
    them; [None] when it still goes on. *)
Fixpoint pollLoop (fuel : nat) (p : streamParams) (st : reader) (sent : list StreamRecord)
    : M blob (option (list StreamRecord)) :=
  match fuel with
  | O => mret None
  | S fuel =>
      '(out, st', more) ← poll p st;
      if (more : bool) then pollLoop fuel p st' (sent ++ out) else mret (Some (sent ++ out))
  end.

(** What runs before the loop. *)
Definition openStream (req : ReadChangeStreamRequest) : M blob (streamParams * reader) :=
  tbl ← changeStreamTable (cs_TableName req) (cs_AppProfileId req);
  '(partition, nextAfterID) ← changeStreamStart tbl req;
  heartbeat ← lift (match cs_Heartbeat req with
                    | Some d => if d <=? 0 then Err InvalidArgument else Ret d
                    | None => Ret defaultHeartbeat
                    end);
  let endTime := match cs_EndTime req with
                 | Some et => if truncateMicros et =? zeroTime then None else Some (truncateMicros et)
                 | None => None
                 end in
  s ← getServer;
  let clusterID := sourceClusterID s (tableInstance (cs_TableName req)) in
  last ← timeNow;
  mret (mkParams (cs_TableName req) partition endTime heartbeat clusterID, mkReader nextAfterID last).

Definition ReadChangeStream (fuel : nat) (req : ReadChangeStreamRequest) : M blob (option (list StreamRecord)) :=
  '(p, st) ← openStream req; pollLoop fuel p st [].
End stream.

(** ** The log under writes *)

(** Ids increase along the log and none is above the last one assigned. *)
Definition log_ok {blob : Type} (d : database blob) : Prop :=
  StronglySorted (fun a b => cr_id a < cr_id b) (change_stream_t d) /\
  Forall (fun r => 0 < cr_id r <= change_stream_seq d) (change_stream_t d) /\ 0 <= change_stream_seq d.

(** What requests do to the log: they drop records and append records with
    new ids. *)
Definition log_step {blob : Type} (d d' : database blob) : Prop :=
  exists kept new, change_stream_t d' = kept ++ new /\ kept `sublist_of` change_stream_t d /\
    StronglySorted (fun a b => cr_id a < cr_id b) new /\
    Forall (fun r => change_stream_seq d < cr_id r <= change_stream_seq d') new /\
    change_stream_seq d <= change_stream_seq d'.

Section log.
Context {blob : Type} `{!Gob blob} `{!Env}.
Implicit Types (w : world blob) (d : database blob).

Lemma sublist_Forall {A : Type} (P : A -> Prop) (l k : list A) : l `sublist_of` k -> Forall P k -> Forall P l.
Proof. intros Hs Hk. rewrite list.Forall_forall in *. intros x Hx. apply Hk. by eapply elem_of_sublist. Qed.

Lemma log_step_refl d d' : change_stream_t d' = change_stream_t d -> change_stream_seq d' = change_stream_seq d -> log_step d d'.
Proof. intros El Es. exists (change_stream_t d), []. rewrite El, Es, app_nil_r. split_and!; [done|done|constructor|constructor|lia]. Qed.

Lemma log_step_trans d1 d2 d3 : log_step d1 d2 -> log_step d2 d3 -> log_step d1 d3.
Proof.
  intros (k1 & n1 & E1 & S1 & O1 & B1 & L1) (k2 & n2 & E2 & S2 & O2 & B2 & L2). rewrite E1 in S2.
  apply sublist_app_r in S2 as (ka & kb & -> & Sa & Sb). exists ka, (kb ++ n2). rewrite E2, <- app_assoc.
  split_and!; [done|by etrans| | |lia].
  - apply StronglySorted_app. split_and!; [|by eapply StronglySorted_sublist|done].
    intros a b Ha Hb. rewrite list.Forall_forall in B2. apply B2 in Hb.
    pose proof (sublist_Forall _ _ _ Sb B1) as B1'. rewrite list.Forall_forall in B1'. apply B1' in Ha. lia.
  - apply Forall_app. split.
    + eapply Forall_impl; [exact (sublist_Forall _ _ _ Sb B1)|]. cbn. lia.
    + eapply Forall_impl; [exact B2|]. cbn. lia.
Qed.

Lemma log_step_ok d d' : log_ok d -> log_step d d' -> log_ok d'.
Proof.
  intros (Hs & Hb & H0) (k & n & E & S & O & B & L). unfold log_ok. rewrite E. pose proof (sublist_Forall _ _ _ S Hb) as Hbk.
  split_and!; [| |lia].
  - apply StronglySorted_app. split_and!; [|by eapply StronglySorted_sublist|done].
    intros a b Ha Hb'. rewrite list.Forall_forall in Hbk, B. apply Hbk in Ha. apply B in Hb'. lia.
  - apply Forall_app. split; eapply Forall_impl; [exact Hbk| |exact B|]; cbn; lia.
Qed.

(** Requests all of whose statements keep to that. *)
Definition logs {A : Type} (m : M blob A) : Prop := forall w, log_step (w_db w) (w_db (m w).2).

Lemma logs_readonly {A : Type} (m : M blob A) : readonly m -> logs m.
Proof. intros Hm w. specialize (Hm w). apply log_step_refl; by rewrite Hm. Qed.
Lemma logs_bind {A B : Type} (m : M blob A) (f : A -> M blob B) : logs m -> (forall a, logs (f a)) -> logs (m ≫= f).
Proof.
  intros Hm Hf w. specialize (Hm w). rewrite bind_run. destruct (m w) as [[a| |] w1]; [|done|done].
  eapply log_step_trans; [exact Hm|]. apply Hf.
Qed.
Lemma logs_forM {A B : Type} (f : B -> A -> M blob B) l : (forall b a, logs (f b a)) -> forall b, logs (forM f b l).
Proof. intros Hf. induction l as [|a l IH]; intros b; cbn; [by apply logs_readonly|]. by apply logs_bind. Qed.
Lemma logs_mapErr {A : Type} f (m : M blob A) : logs m -> logs (mapErr f m).
Proof. intros Hm w. specialize (Hm w). unfold mapErr. by destruct (m w). Qed.
Lemma logs_call {A : Type} (f : database blob -> outcome A * database blob) : (forall d, log_step d (f d).2) -> logs (call f).
Proof.
  intros Hf w. unfold call. destruct (driver _); [by apply log_step_refl|]. specialize (Hf (w_db w)). by destruct (f (w_db w)).
Qed.
Lemma logs_withTx {A : Type} (fn : M blob A) : logs fn -> logs (withTx fn).
Proof.
  intros Hf w. unfold withTx. pose proof (readonly_call (blob := blob) (fun d => (Ret tt, d)) (fun _ => eq_refl)) as Hc.
  pose proof (Hc w) as H0. destruct (call _ w) as [[[]| |] w0]; cbn in H0 |- *; try (apply log_step_refl; by rewrite H0).
  specialize (Hf w0). rewrite H0 in Hf. destruct (fn w0) as [[a| |] w1]; cbn in *; try by apply log_step_refl.
  pose proof (Hc w1) as H1. destruct (call _ w1) as [[[]| |] w2]; cbn in *; try by apply log_step_refl. by rewrite H1.
Qed.

Lemma logs_append tn k ty micros ms : logs (changeLog_append (blob := blob) tn k ty micros ms).
Proof.
  apply logs_call. intros d. cbn. eexists (change_stream_t d), [_]. split; [done|]. split_and!; [done| | |cbn; lia].
  - by repeat constructor.
  - constructor; [cbn; lia|constructor].
Qed.
Lemma logs_filter_log (P : changeRecord -> Prop) `{!forall r, Decision (P r)} :
  logs (call (fun d => (Ret tt, set_change_stream_t d (filter P (change_stream_t d)) (change_stream_seq d)))).
Proof.
  apply logs_call. intros d. exists (filter P (change_stream_t d)), []. cbn. rewrite app_nil_r.
  split_and!; [done|apply sublist_filter|constructor|constructor|lia].
Qed.
Lemma logs_aside {A : Type} (f : database blob -> outcome A * database blob) :
  (forall d, change_stream_t (f d).2 = change_stream_t d /\ change_stream_seq (f d).2 = change_stream_seq d) -> logs (call f).
Proof. intros Hf. apply logs_call. intros d. apply log_step_refl; apply Hf. Qed.
Lemma logs_save t r : logs (SqlRows_save (blob := blob) t r).
Proof.
  unfold SqlRows_save, SqlRows_remove. case_match; [by apply logs_aside|]. case_match; [by apply logs_aside|by apply logs_readonly].
Qed.
End log.
#[export] Hint Resolve logs_append logs_save : lbt.

(** ** The handlers that write the log *)

Section handlers.
Context {blob : Type} `{!Gob blob} `{!Env} {regexp : Type}.
Context (Compile : bytes -> option regexp) (MatchString : regexp -> bytes -> bool).

Lemma logs_catch {A : Type} (m : M blob A) : logs m -> logs (catch m).
Proof. intros Hm w. specialize (Hm w). unfold catch. by destruct (m w). Qed.
Lemma logs_afterCommit tbl cs : logs (blob := blob) (afterCommit tbl cs).
Proof. apply logs_readonly. intros w. by destruct cs. Qed.
Lemma logs_recordIdempotency tn k idem : logs (blob := blob) (recordIdempotency tn k idem).
Proof. unfold recordIdempotency. case_match; [by apply logs_readonly|]. apply logs_bind; [apply logs_readonly; eauto with lbt|]. intros. by apply logs_aside. Qed.
Lemma logs_writeCommit tbl micros c : logs (writeCommit (blob := blob) tbl micros c).
Proof.
  unfold writeCommit. apply logs_bind; [apply logs_save|]. intros _. case_match; [by apply logs_readonly|].
  apply logs_bind; [case_match; [by apply logs_readonly|apply logs_append]|]. intros _.
  case_match; [by apply logs_readonly|apply logs_append].
Qed.
Lemma logs_persistWith tbl commits extra : logs extra -> logs (persistWith (blob := blob) tbl commits extra).
Proof.
  intros He. unfold persistWith. case_match; [by apply logs_readonly|]. apply logs_bind; [apply logs_readonly; eauto with lbt|].
  intros micros. apply logs_mapErr, logs_withTx, logs_bind; [|done]. apply logs_forM. intros. apply logs_writeCommit.
Qed.

#[local] Hint Resolve readonly_validateIdempotency readonly_idempotencySeen readonly_gcNow readonly_newTimestampNow
  readonly_stage readonly_mutateWith readonly_checkAndMutate readonly_readModifyWrite readonly_batchEntry
  readonly_resolveWriteTarget readonly_getServer readonly_filterRowNow : lbt.

Ltac solve_logs := repeat first
  [ solve [apply logs_readonly; eauto with lbt]
  | apply logs_afterCommit | apply logs_recordIdempotency | apply logs_append | apply logs_save
  | apply logs_persistWith | apply logs_catch | apply logs_forM; intros
  | apply logs_mapErr | apply logs_withTx | apply logs_bind; [|intros ?] | case_match ].

Lemma write_handlers_log :
  (forall req, logs (blob := blob) (MutateRow req)) /\ (forall req, logs (blob := blob) (MutateRows req)) /\
  (forall req, logs (blob := blob) (CheckAndMutateRow Compile MatchString req)) /\
  (forall req, logs (blob := blob) (ReadModifyWriteRow req)) /\
  (forall req, logs (blob := blob) (DropRowRange req)) /\ logs (blob := blob) purgeExpiredChangeRecords.
Proof.
  split_and!.
  - intros req. unfold MutateRow. solve_logs.
  - intros req. unfold MutateRows. solve_logs.
  - intros req. unfold CheckAndMutateRow, persist. solve_logs.
  - intros req. unfold ReadModifyWriteRow, persist. solve_logs.
  - intros req. unfold DropRowRange, SqlRows_scan, SqlRows_clear, SqlRows_remove. solve_logs; try by apply logs_aside.
    apply logs_readonly, readonly_visitRows. done.
  - unfold purgeExpiredChangeRecords. solve_logs. apply logs_filter_log.
Qed.
End handlers.

(** ** What a pass delivers *)

Section delivery.
Context (p : streamParams).

(** The records before the first one past the end time. *)
Definition past_end (r : changeRecord) : bool :=
  match pm_endTime p with Some e => e <? cr_commitMicros r * 1000 | None => false end.
Fixpoint until_end (l : list changeRecord) : list changeRecord :=
  match l with [] => [] | r :: l' => if past_end r then [] else r :: until_end l' end.

Definition in_partition (r : changeRecord) : Prop := contains (partitionRange (pm_partition p)) (cr_rowKey r) = true.
#[local] Instance in_partition_dec r : Decision (in_partition r).
Proof. unfold in_partition. apply _. Defined.

Definition last_id (next : Z) (l : list changeRecord) : Z := foldl (fun _ r => cr_id r) next l.

Lemma deliver_spec watermark records : forall next,
  deliver p watermark records next =
    (((fun r => changeRecordResponse r (pm_clusterID p) watermark) <$> filter in_partition (until_end records)) ++
       (if existsb past_end records then [closeStream] else []),
     last_id next (until_end records), existsb past_end records).
Proof.
  induction records as [|r records IH]; intros next; [done|]. cbn [deliver existsb until_end].
  fold (past_end r). destruct (past_end r); [done|]. rewrite IH. cbn [last_id foldl orb].
  rewrite filter_cons. unfold in_partition at 2. destruct (contains _ _) eqn:E; cbn [negb].
  - by rewrite decide_True.
  - by rewrite decide_False by congruence.
Qed.

Lemma until_end_prefix l : exists rest, l = until_end l ++ rest /\ (existsb past_end l = false -> rest = []).
Proof.
  induction l as [|r l (rest & E & Hr)]; [by exists []|]. cbn. destruct (past_end r); cbn; [by eexists|].
  exists rest. rewrite <- E. auto.
Qed.

Lemma last_id_snoc next l r : last_id next (l ++ [r]) = cr_id r.
Proof. unfold last_id. by rewrite foldl_app. Qed.

Lemma last_id_cases next l : l = [] /\ last_id next l = next \/ exists l' r, l = l' ++ [r] /\ last_id next l = cr_id r.
Proof.
  destruct l as [|r l] using rev_ind; [by left|]. right. exists l, r. by rewrite last_id_snoc.
Qed.

(** The records of the table after a position, in order. *)
Definition after {blob : Type} (d : database blob) (id : Z) : list changeRecord :=
  filter (fun r => cr_table r = pm_table p /\ id < cr_id r) (change_stream_t d).

Lemma after_sorted {blob : Type} (d : database blob) id :
  log_ok d -> StronglySorted (fun a b => cr_id a < cr_id b) (after d id).
Proof. intros (Hs & _). eapply StronglySorted_sublist; [apply sublist_filter|exact Hs]. Qed.

Lemma isort_after {blob : Type} (d : database blob) id : log_ok d -> isort byId (after d id) = after d id.
Proof.
  intros Hok. apply isort_id. pose proof (after_sorted d id Hok) as Hs. revert Hs. generalize (after d id).
  induction 1 as [|r l Hl IH Hr]; constructor; [done|]. eapply Forall_impl; [exact Hr|]. cbn. unfold byId. intros. apply Z.leb_le. lia.
Qed.

Lemma elem_of_after {blob : Type} (d : database blob) id r :
  r ∈ after d id <-> r ∈ change_stream_t d /\ cr_table r = pm_table p /\ id < cr_id r.
Proof. unfold after. rewrite list_elem_of_filter. tauto. Qed.

(** The position reached by delivering a prefix of the records after [id]
    separates it from the rest. *)
Lemma prefix_position {blob : Type} (d : database blob) id l1 l2 :
  log_ok d -> after d id = l1 ++ l2 ->
  id <= last_id id l1 /\ Forall (fun r => id < cr_id r <= last_id id l1) l1 /\ Forall (fun r => last_id id l1 < cr_id r) l2 /\
  (id <= change_stream_seq d -> last_id id l1 <= change_stream_seq d).
Proof.
  intros Hok E. pose proof (after_sorted d id Hok) as Hs. rewrite E in Hs. apply StronglySorted_app in Hs as (Hlt & Hs1 & _).
  assert (forall r, r ∈ l1 ++ l2 -> id < cr_id r <= change_stream_seq d) as Hin.
  { intros r Hr. rewrite <- E in Hr. apply elem_of_after in Hr as (Hr & _ & ?). destruct Hok as (_ & Hb & _).
    rewrite list.Forall_forall in Hb. apply Hb in Hr. lia. }
  destruct (last_id_cases id l1) as [[-> Hl]|(l' & r & -> & Hl)]; rewrite Hl.
  - split_and!; [lia|constructor| |done]. apply list.Forall_forall. intros r Hr. apply Hin. set_solver.
  - apply StronglySorted_app in Hs1 as (Hlt' & _ & _). split_and!.
    + specialize (Hin r). assert (r ∈ (l' ++ [r]) ++ l2) as Hx by set_solver. apply Hin in Hx. lia.
    + apply list.Forall_forall. intros r' Hr'. split; [apply Hin; set_solver|]. apply elem_of_app in Hr' as [Hr'|Hr'].
      2: { apply list_elem_of_singleton in Hr' as ->. lia. }
      specialize (Hlt' r' r Hr' ltac:(set_solver)). lia.
    + apply list.Forall_forall. intros r' Hr'. apply Hlt; set_solver.
    + intros _. apply Hin. set_solver.
Qed.
End delivery.
#[export] Existing Instance in_partition_dec.

(** ** A reader among writers *)

Definition is_data (r : StreamRecord) : bool := match r with Record_DataChange _ _ _ _ _ _ _ => true | _ => false end.

Section reader.
Context {blob : Type} `{!Gob blob} `{!Env} (p : streamParams).

(** A running stream: the state of the server, the loop variables, whether the
    loop runs, and what was sent. *)
Record streaming : Type := mkStreaming {
  st_world : world blob; st_reader : reader; st_open : bool; st_sent : list StreamRecord }.

(** The reader polls, fails or is stopped by the client or a shutdown, and other
    requests run in between. *)
Inductive step : streaming -> streaming -> Prop :=
| step_poll w st sent out st' more w' :
    poll p st w = (Ret (out, st', more), w') ->
    step (mkStreaming w st true sent) (mkStreaming w' st' more (sent ++ out))
| step_fail w st sent c w' :
    poll p st w = (Err c, w') -> step (mkStreaming w st true sent) (mkStreaming w' st false sent)
| step_stop w st sent : step (mkStreaming w st true sent) (mkStreaming w st false sent)
| step_other w w' st o sent :
    log_step (w_db w) (w_db w') -> step (mkStreaming w st o sent) (mkStreaming w' st o sent).

(** [recs] are the records whose data changes were sent. *)
Definition sent_records (sent : list StreamRecord) (recs : list changeRecord) : Prop :=
  Forall2 (fun resp r => exists watermark, resp = changeRecordResponse r (pm_clusterID p) watermark)
    (filter (fun r => is_data r = true) sent) recs.

(** The records sent are, in order, those of the table and partition between
    the start and the current position; none still in the log is missing. *)
Definition delivered_ok (start : Z) (c : streaming) : Prop :=
  let d := w_db (st_world c) in let next := rd_nextAfterID (st_reader c) in
  log_ok d /\ start <= next <= change_stream_seq d /\
  exists recs, sent_records (st_sent c) recs /\
    StronglySorted (fun a b => cr_id a < cr_id b) recs /\
    Forall (fun r => start < cr_id r <= next /\ cr_table r = pm_table p /\ in_partition p r) recs /\
    (forall r, r ∈ change_stream_t d -> cr_table r = pm_table p -> in_partition p r -> start < cr_id r <= next -> r ∈ recs).

Lemma poll_Ret st (w : world blob) out st' more w' :
  log_ok (w_db w) -> poll p st w = (Ret (out, st', more), w') ->
  let batch := take changeStreamBatchSize (after p (w_db w) (rd_nextAfterID st)) in
  exists watermark tail, w_db w' = w_db w /\
    rd_nextAfterID st' = last_id (rd_nextAfterID st) (until_end p batch) /\
    out = ((fun r => changeRecordResponse r (pm_clusterID p) watermark) <$> filter (in_partition p) (until_end p batch)) ++ tail /\
    Forall (fun r => is_data r = false) tail.
Proof.
  intros Hok E. unfold poll in E. apply bind_Ret in E as (watermark & w1 & [= <- <-] & E).
  apply bind_Ret in E as (records & w2 & (d & [= <- <-] & ->)%mapErr_Ret%call_Ret & E). cbn [w_db] in E.
  fold (after p (w_db w) (rd_nextAfterID st)) in E. rewrite isort_after in E by done.
  set (batch := take _ _) in *. rewrite deliver_spec in E. set (watermark := clock (w_ticks w)) in *.
  exists watermark. destruct (existsb (past_end p) batch) eqn:Ex.
  { apply ret_Ret in E as [E ->]. simplify_eq. exists [closeStream]. split_and!; [done|done|done|by repeat constructor]. }
  rewrite app_nil_r in E. destruct (Nat.eqb _ _).
  { apply ret_Ret in E as [E ->]. simplify_eq. exists []. rewrite app_nil_r. split_and!; [done|done|done|constructor]. }
  destruct (match pm_endTime p with Some _ => _ | None => _ end).
  { apply ret_Ret in E as [E ->]. simplify_eq. exists [closeStream]. split_and!; [done|done|done|by repeat constructor]. }
  apply bind_Ret in E as (now & w3 & [= <- <-] & E). destruct (_ <=? _).
  - apply bind_Ret in E as (last & w4 & [= <- <-] & E). apply ret_Ret in E as [E ->]. simplify_eq.
    eexists [_]. split_and!; [done|done|done|by repeat constructor].
  - apply ret_Ret in E as [E ->]. simplify_eq. exists []. rewrite app_nil_r. split_and!; [done|done|done|constructor].
Qed.

Lemma poll_db st (w : world blob) : w_db (poll p st w).2 = w_db w.
Proof.
  enough (readonly (poll p st)) as Hr by apply Hr. unfold poll. apply readonly_bind; [done|]. intros wm.
  apply readonly_bind; [by apply readonly_mapErr, readonly_call|]. intros recs. destruct (deliver _ _ _ _) as [[out next] closed].
  repeat case_match; try done; (apply readonly_bind; [done|]; intros now; case_match; [by apply readonly_bind|done]).
Qed.

Lemma sent_records_app sent recs out recs' :
  sent_records sent recs -> sent_records out recs' -> sent_records (sent ++ out) (recs ++ recs').
Proof. unfold sent_records. rewrite filter_app. apply Forall2_app. Qed.

Lemma sent_records_batch watermark recs tail :
  Forall (fun r => is_data r = false) tail ->
  sent_records (((fun r => changeRecordResponse r (pm_clusterID p) watermark) <$> recs) ++ tail) recs.
Proof.
  intros Ht. unfold sent_records. rewrite filter_app, (filter_none _ tail), app_nil_r, filter_all.
  - rewrite Forall2_fmap_l. induction recs; constructor; eauto.
  - apply list.Forall_forall. intros x (r & -> & _)%list_elem_of_fmap. done.
  - eapply Forall_impl; [exact Ht|]. cbn. congruence.
Qed.

Lemma delivered_step start c c' : delivered_ok start c -> step c c' -> delivered_ok start c'.
Proof.
  intros (Hok & Hn & recs & Hsent & Hsort & Hall & Hcomp). destruct 1 as [w st sent out st' more w' E|w st sent cd w' E|w st sent|w w' st o sent Hl];
    cbn in Hok, Hn, Hsent, Hcomp, Hall.
  - apply poll_Ret in E as (watermark & tail & Ew & En & -> & Ht); [|done].
    set (next := rd_nextAfterID st) in *. set (batch := take _ _) in *.
    destruct (until_end_prefix p batch) as (rest & Eb & _).
    assert (after p (w_db w) next = until_end p batch ++ (rest ++ drop changeStreamBatchSize (after p (w_db w) next))) as Ea.
    { rewrite app_assoc, <- Eb. unfold batch. by rewrite take_drop. }
    destruct (prefix_position p _ _ _ _ Hok Ea) as (Hle & Hin & Hout & Hseq). rewrite <- En in Hle, Hin, Hout, Hseq.
    unfold delivered_ok. cbn [st_world st_reader st_sent]. rewrite Ew. split; [done|]. split; [lia|].
    exists (recs ++ filter (in_partition p) (until_end p batch)). split_and!.
    + apply sent_records_app; [done|by apply sent_records_batch].
    + apply StronglySorted_app. split_and!; [|done|].
      * intros a b Ha Hb. rewrite list.Forall_forall in Hall, Hin. apply Hall in Ha. apply list_elem_of_filter in Hb as [_ Hb]. apply Hin in Hb. lia.
      * eapply StronglySorted_sublist; [apply sublist_filter|]. pose proof (after_sorted p (w_db w) next Hok) as Hs.
        rewrite Ea in Hs. by apply StronglySorted_app in Hs as (_ & Hs & _).
    + apply Forall_app. split; [eapply Forall_impl; [exact Hall|]; cbn; intros r (? & ? & ?); split_and!; done || lia|].
      apply list.Forall_forall. intros r [Hp Hr]%list_elem_of_filter. rewrite list.Forall_forall in Hin. pose proof (Hin _ Hr).
      assert (r ∈ after p (w_db w) next) as Hra by (rewrite Ea; set_solver). apply elem_of_after in Hra as (_ & ? & ?). split_and!; done || lia.
    + intros r Hr Htab Hp Hid. destruct (decide (cr_id r <= next)) as [Hle'|Hgt]; [apply elem_of_app; left; apply Hcomp; done || lia|].
      apply elem_of_app. right. apply list_elem_of_filter. split; [done|].
      assert (r ∈ after p (w_db w) next) as Hra by (apply elem_of_after; split_and!; done || lia). rewrite Ea in Hra.
      apply elem_of_app in Hra as [?|Hra]; [done|]. rewrite list.Forall_forall in Hout. apply Hout in Hra. lia.
  - pose proof (poll_db st w) as Ew. rewrite E in Ew. cbn in Ew. unfold delivered_ok. cbn. rewrite Ew. eauto 10.
  - unfold delivered_ok. cbn. eauto 10.
  - pose proof Hl as (kept & new & El & Hsub & _ & Hnew & Hseq). unfold delivered_ok. cbn.
    split; [by eapply log_step_ok|]. split; [lia|]. exists recs. split_and!; [done|done|done|].
    intros r Hr Htab Hp Hid. rewrite El in Hr. apply elem_of_app in Hr as [Hr|Hr].
    + apply Hcomp; [by eapply elem_of_sublist|done|done|done].
    + rewrite list.Forall_forall in Hnew. apply Hnew in Hr. lia.
Qed.
End reader.

(** ** Reading to an end time *)

Section drain.
Context {blob : Type} `{!Gob blob} `{!Env} (p : streamParams).
Implicit Types (w : world blob).

Lemma after_last (d : database blob) id l1 l2 : log_ok d -> after p d id = l1 ++ l2 -> after p d (last_id id l1) = l2.
Proof.
  intros Hok E. destruct (prefix_position p d id l1 l2 Hok E) as (Hle & H1 & H2 & _).
  transitivity (filter (fun r => last_id id l1 < cr_id r) (after p d id)).
  { unfold after. rewrite list_filter_filter. apply list_filter_iff. intros r. split; [|tauto]. intros [? ?]. split_and!; done || lia. }
  rewrite E, filter_app, (filter_all _ l2) by done. rewrite filter_none; [done|]. eapply Forall_impl; [exact H1|]. cbn. lia.
Qed.

Lemma until_end_app l1 l2 :
  until_end p (l1 ++ l2) = if existsb (past_end p) l1 then until_end p l1 else l1 ++ until_end p l2.
Proof. induction l1 as [|r l1 IH]; [done|]. cbn. destruct (past_end p r); [done|]. cbn. rewrite IH. by destruct (existsb _ _). Qed.
Lemma until_end_all l : existsb (past_end p) l = false -> until_end p l = l.
Proof. intros E. pose proof (until_end_app l []) as Ha. rewrite !app_nil_r, E in Ha. done. Qed.

Context (Hdriver : forall n, driver n = None).

(** A pass after the end time: it closes the stream, or goes on after a full
    batch. *)
Lemma run_poll st w e :
  log_ok (w_db w) -> pm_endTime p = Some e -> e < truncateMicros (clock (w_ticks w)) ->
  let batch := take changeStreamBatchSize (after p (w_db w) (rd_nextAfterID st)) in
  let resp := fmap (fun r => changeRecordResponse r (pm_clusterID p) (clock (w_ticks w))) in
  let st' := mkReader (last_id (rd_nextAfterID st) (until_end p batch)) (rd_lastHeartbeat st) in
  let w1 := mkWorld (w_db w) (w_srv w) (S (w_calls w)) (S (w_ticks w)) (w_draws w) in
  poll p st w = (Ret (if existsb (past_end p) batch || negb (Nat.eqb (length batch) changeStreamBatchSize)
    then (resp (filter (in_partition p) (until_end p batch)) ++ [closeStream], st', false)
    else (resp (filter (in_partition p) batch), st', true)), w1).
Proof.
  intros Hok He Hw. cbv zeta. unfold poll. rewrite bind_run. unfold timeNow at 1. rewrite bind_run. unfold mapErr, listAfter, call.
  cbn [w_calls w_db]. rewrite Hdriver. fold (after p (w_db w) (rd_nextAfterID st)). rewrite isort_after by done.
  set (batch := take _ _). rewrite deliver_spec. destruct (existsb (past_end p) batch) eqn:Ex; [done|].
  cbn [orb]. rewrite app_nil_r. rewrite (until_end_all batch Ex). destruct (Nat.eqb (length batch) _); [done|]. cbn [negb].
  rewrite He, (proj2 (Z.ltb_lt _ _)) by done. done.
Qed.

Lemma pollLoop_drains e : pm_endTime p = Some e -> forall fuel st sent w,
  log_ok (w_db w) -> (forall n, (w_ticks w <= n)%nat -> e < truncateMicros (clock n)) ->
  (length (after p (w_db w) (rd_nextAfterID st)) < fuel)%nat ->
  exists out w', pollLoop fuel p st sent w = (Ret (Some (sent ++ out ++ [closeStream])), w') /\
    Forall (fun r => is_data r = true) out /\
    sent_records p out (filter (in_partition p) (until_end p (after p (w_db w) (rd_nextAfterID st)))).
Proof.
  intros He. induction fuel as [|fuel IH]; intros st sent w Hok Hck Hf; [lia|]. cbn [pollLoop]. rewrite bind_run.
  rewrite (run_poll st w e Hok He (Hck _ (le_n _))). set (A := after p (w_db w) (rd_nextAfterID st)) in *.
  set (batch := take changeStreamBatchSize A). set (resp := fun r => changeRecordResponse r (pm_clusterID p) (clock (w_ticks w))).
  assert (forall l, Forall (fun r => is_data r = true) (resp <$> l)) as Hdata.
  { intros l. apply list.Forall_forall. intros x (r & -> & _)%list_elem_of_fmap. done. }
  assert (forall l, sent_records p (resp <$> l) l) as Hsent.
  { intros l. rewrite <- (app_nil_r (resp <$> l)). by apply sent_records_batch. }
  assert (A = batch ++ drop changeStreamBatchSize A) as EA by (unfold batch; by rewrite take_drop).
  destruct (existsb (past_end p) batch || _) eqn:Eb.
  - eexists (resp <$> _), _. split; [reflexivity|]. split; [apply Hdata|].
    assert (until_end p batch = until_end p A) as ->; [|apply Hsent].
    destruct (existsb (past_end p) batch) eqn:Ex; [rewrite EA, until_end_app, Ex; done|].
    cbn in Eb. apply negb_true_iff, Nat.eqb_neq in Eb. rewrite EA, until_end_app, Ex, (until_end_all batch Ex).
    rewrite (drop_ge A); [by rewrite app_nil_r|].
    unfold batch in Eb. rewrite length_take in Eb. unfold changeStreamBatchSize in *. lia.
  - apply orb_false_iff in Eb as [Ex Eb]. apply negb_false_iff, Nat.eqb_eq in Eb. rewrite (until_end_all batch Ex).
    set (w1 := mkWorld _ _ _ _ _). set (st' := mkReader _ _).
    assert (after p (w_db w1) (rd_nextAfterID st') = drop changeStreamBatchSize A) as Ea' by (by apply after_last).
    destruct (IH st' (sent ++ (resp <$> filter (in_partition p) batch)) w1) as (out & w' & E & Hd & Hs).
    + done.
    + intros n Hn. apply Hck. cbn in Hn. lia.
    + rewrite Ea', length_drop. assert (500 <= length A)%nat as H500; [|unfold changeStreamBatchSize; lia].
      unfold batch in Eb. rewrite length_take in Eb. unfold changeStreamBatchSize in Eb. lia.
    + exists ((resp <$> filter (in_partition p) batch) ++ out), w'. rewrite Ea' in Hs. split_and!.
      * rewrite E. by rewrite <- !app_assoc.
      * apply Forall_app. split; [apply Hdata|done].
      * rewrite EA, until_end_app, Ex, filter_app. apply sent_records_app; [apply Hsent|done].
Qed.
End drain.

Module SampleStream.
(** One row written with a change record, and a stream over the table. *)
Definition written := MutateRow (H := SampleWorld.working) SampleWorld.req SampleWorld.world0.
Definition untokened : MutateRowRequest := mkMutateRow (table_name SampleWorld.tbl) [] [] [107] SampleTable.muts None.
Definition again := MutateRow (H := SampleWorld.working) untokened written.2.
Definition req (token : bytes) (endTime : Z) : ReadChangeStreamRequest :=
  mkReadChangeStream (table_name SampleWorld.tbl) [] None [mkToken None token] None (Some endTime) None.
Definition params : streamParams :=
  mkParams (table_name SampleWorld.tbl) fullStreamPartition None defaultHeartbeat (str "local-cluster").
Definition params_end : streamParams :=
  mkParams (table_name SampleWorld.tbl) fullStreamPartition (Some 5500000000) defaultHeartbeat (str "local-cluster").
Definition polled := poll (H := SampleWorld.working) params (mkReader 0 0) written.2.
(** A commit takes its timestamp, the reader polls, the commit is written. *)
Definition commit : rowCommit := mkCommit [107] None Sample.row1 SampleTable.muts [].
Definition write (micros : Z) : M (gmap bytes family) unit :=
  mapErr storageErr (withTx (H := SampleWorld.working)
    (_ ← writeCommits (H := SampleWorld.working) SampleWorld.tbl [commit] micros; mret tt)).
Definition stamp := nowMicro (H := SampleWorld.working) SampleWorld.world0.
Definition beat := poll (H := SampleWorld.working) params (mkReader 0 (-10000000000)) stamp.2.
Definition stored := write 1000000 beat.2.

Lemma log0_ok : log_ok (w_db SampleWorld.world0).
Proof. split; [constructor|]. split; [constructor|]. cbn. lia. Qed.
Lemma written_log : log_step (w_db SampleWorld.world0) (w_db written.2).
Proof. exact (proj1 (write_handlers_log (H := SampleWorld.working) (fun _ => None) (fun (_ : unit) _ => false)) SampleWorld.req SampleWorld.world0). Qed.
Lemma again_log : log_step (w_db written.2) (w_db again.2).
Proof. exact (proj1 (write_handlers_log (H := SampleWorld.working) (fun _ => None) (fun (_ : unit) _ => false)) untokened written.2). Qed.
End SampleStream.

(** C3: A change stream delivers every change exactly once and in order.
    However its passes interleave with other requests, and whether it polls,
    fails or is stopped, the data changes sent so far are those of a strictly
    increasing sequence of log records of the table and partition after the
    start, and every such record still in the log up to the position reached is
    among them.  The data-write handlers, DropRowRange and the purge of expired
    records are such other requests. *)
Theorem stream_exactly_once {blob : Type} `{!Gob blob} `{!Env} {regexp : Type}
    (Compile : bytes -> option regexp) (MatchString : regexp -> bytes -> bool) p (w : world blob) st c :
  log_ok (w_db w) -> rd_nextAfterID st <= change_stream_seq (w_db w) ->
  rtc (step p) (mkStreaming w st true []) c ->
  delivered_ok p (rd_nextAfterID st) c /\
  (forall req, logs (blob := blob) (MutateRow req)) /\ (forall req, logs (blob := blob) (MutateRows req)) /\
  (forall req, logs (blob := blob) (CheckAndMutateRow Compile MatchString req)) /\
  (forall req, logs (blob := blob) (ReadModifyWriteRow req)) /\
  (forall req, logs (blob := blob) (DropRowRange req)) /\ logs (blob := blob) purgeExpiredChangeRecords.
Proof.
  intros Hok Hseq Hr. split; [|apply write_handlers_log].
  assert (delivered_ok p (rd_nextAfterID st) (mkStreaming w st true [])) as H0.
  { split; [done|]. split; [cbn; lia|]. exists []. split_and!; [constructor|constructor|constructor|]. cbn. intros. lia. }
  revert H0. generalize (rd_nextAfterID st). clear Hok Hseq. intros start. induction Hr as [|c1 c2 c3 Hs _ IH]; intros H0; [done|].
  apply IH. by eapply delivered_step.
Qed.

(** A write, a pass of the reader, another write. *)
Lemma stream_exactly_once_witness :
  delivered_ok SampleStream.params 0 (mkStreaming SampleStream.again.2 (mkReader 0 0) true []) /\
  exists out st w, SampleStream.polled = (Ret (out, st, true), w) /\ length (filter (fun r => is_data r = true) out) = 1%nat /\
    delivered_ok SampleStream.params 0 (mkStreaming w st true out).
Proof.
  split.
  - eapply (stream_exactly_once (H := SampleWorld.working) (fun _ => None) (fun (_ : unit) _ => false) _ SampleWorld.world0 (mkReader 0 0)).
    + apply SampleStream.log0_ok.
    + cbn. lia.
    + eapply rtc_l; [apply step_other, SampleStream.written_log|]. apply rtc_once, step_other, SampleStream.again_log.
  - assert (exists out st, SampleStream.polled.1 = Ret (out, st, true) /\ length (filter (fun r => is_data r = true) out) = 1%nat)
      as (out & st & E1 & Elen) by (eexists _, _; split; [vm_compute; reflexivity|vm_compute; reflexivity]).
    exists out, st, SampleStream.polled.2. assert (SampleStream.polled = (Ret (out, st, true), SampleStream.polled.2)) as E
      by (by apply run_Ret). split; [done|]. split; [done|].
    eapply (stream_exactly_once (H := SampleWorld.working) (fun _ => None) (fun (_ : unit) _ => false) _ SampleWorld.world0 (mkReader 0 0)).
    + apply SampleStream.log0_ok.
    + cbn. lia.
    + eapply rtc_l; [apply step_other, SampleStream.written_log|]. apply rtc_once. by apply (step_poll _ _ _ []).
Defined.

(** C13: A stream with an end time terminates, and continues exactly where
    its token says.  Opened with the continuation token of a record (of id
    [id]), and with the clock past the end time and a working driver, the loop
    ends within one pass more than the log has records: it has sent, in order,
    the changes of the partition after that record up to the first one past the
    end time, and then closed the stream. *)
Theorem ReadChangeStream_resumes {blob : Type} `{!Gob blob} `{!Env} req tp id (w w1 : world blob) p st e :
  (forall n, driver n = None) -> log_ok (w_db w) -> 0 <= id -> is_int64 id ->
  cs_Tokens req = [mkToken tp (encodeChangeStreamToken id)] ->
  openStream req w = (Ret (p, st), w1) -> pm_endTime p = Some e ->
  (forall n, (w_ticks w1 <= n)%nat -> e < truncateMicros (clock n)) ->
  exists out w', ReadChangeStream (S (length (change_stream_t (w_db w)))) req w = (Ret (Some (out ++ [closeStream])), w') /\
    Forall (fun r => is_data r = true) out /\
    sent_records p out (filter (in_partition p) (until_end p (after p (w_db w) id))).
Proof.
  intros Hdrv Hok Hid Hi Htok Eo He Hck. unfold ReadChangeStream. rewrite bind_run, Eo.
  assert (w_db w1 = w_db w /\ rd_nextAfterID st = id) as [Hdb Hst].
  { unfold openStream in Eo. apply bind_Ret in Eo as (tbl & w2 & Et & Eo).
    assert (w_db w2 = w_db w) as Hw2.
    { enough (readonly (changeStreamTable (blob := blob) (cs_TableName req) (cs_AppProfileId req))) as Hr.
      { specialize (Hr w). by rewrite Et in Hr. }
      unfold changeStreamTable. repeat (apply readonly_bind; [done|]; intros ?). repeat case_match; done. }
    apply bind_Ret in Eo as ([part next] & w3 & Es & Eo). unfold changeStreamStart in Es. rewrite Htok in Es.
    apply bind_Ret in Es as ([aid tpart] & w4 & [Ets ->]%lift_Ret & Es). unfold tokensStart in Ets. cbn [foldM tok_Token tok_Partition] in Ets.
    rewrite decode_encode_token in Ets by done. cbn [mbind outcome_bind] in Ets. injection Ets as <- <-.
    apply bind_Ret in Es as (part' & w5 & [_ ->]%lift_Ret & [[= <- <-] ->]%ret_Ret).
    apply bind_Ret in Eo as (hb & w6 & [_ ->]%lift_Ret & Eo). apply bind_Ret in Eo as (s & w7 & [= <- <-] & Eo).
    apply bind_Ret in Eo as (last & w8 & [= <- <-] & [[= _ <-] ->]%ret_Ret). done. }
  destruct (pollLoop_drains p Hdrv e He (S (length (change_stream_t (w_db w)))) st [] w1) as (out & w' & E & Hd & Hs).
  - by rewrite Hdb.
  - done.
  - rewrite Hdb. unfold after. pose proof (length_filter (fun r => cr_table r = pm_table p /\ rd_nextAfterID st < cr_id r) (change_stream_t (w_db w))). lia.
  - exists out, w'. rewrite E. rewrite Hdb, Hst in Hs. done.
Qed.

Lemma ReadChangeStream_resumes_witness :
  exists out w' r, ReadChangeStream (H := SampleWorld.working) 3 (SampleStream.req (encodeChangeStreamToken 1) 5500000000) SampleStream.again.2 =
    (Ret (Some (out ++ [closeStream])), w') /\
    sent_records SampleStream.params_end out [r] /\
    cr_id r = 2.
Proof.
  assert (exists p st, (openStream (H := SampleWorld.working) (SampleStream.req (encodeChangeStreamToken 1) 5500000000) SampleStream.again.2).1 = Ret (p, st) /\
    p = SampleStream.params_end) as (p & st & Eo & Ep)
    by (eexists _, _; split; vm_compute; reflexivity).
  destruct (ReadChangeStream_resumes (H := SampleWorld.working) (SampleStream.req (encodeChangeStreamToken 1) 5500000000) None 1
    SampleStream.again.2 (openStream (H := SampleWorld.working) (SampleStream.req (encodeChangeStreamToken 1) 5500000000) SampleStream.again.2).2 p st 5500000000)
    as (out & w' & E & _ & Hs).
  - done.
  - eapply log_step_ok; [eapply log_step_ok; [apply SampleStream.log0_ok|apply SampleStream.written_log]|apply SampleStream.again_log].
  - lia.
  - unfold_words. lia.
  - reflexivity.
  - by apply run_Ret.
  - by rewrite Ep.
  - intros n Hn. assert (w_ticks (openStream (H := SampleWorld.working) (SampleStream.req (encodeChangeStreamToken 1) 5500000000) SampleStream.again.2).2 = 6%nat)
      as Et by (vm_compute; reflexivity). rewrite Et in Hn. cbn. unfold truncateMicros, SampleWorld.seconds.
    Z.to_euclidean_division_equations. lia.
  - rewrite Ep in Hs. assert (exists r, filter (in_partition SampleStream.params_end)
      (until_end SampleStream.params_end
        (after SampleStream.params_end (w_db SampleStream.again.2) 1)) = [r]
      /\ cr_id r = 2) as (r & Er & Hr) by (eexists; split; vm_compute; reflexivity).
    rewrite Er in Hs. exists out, w', r. assert (length (change_stream_t (w_db SampleStream.again.2)) = 2%nat) as El by (vm_compute; reflexivity).
    rewrite El in E. split; [exact E|]. split; [exact Hs|exact Hr].
Defined.

(** The low watermark of a heartbeat can pass a change that was not
    delivered.  A commit takes its timestamp before its transaction runs; a pass
    of the reader in between finds no record and sends a heartbeat whose
    watermark is later than that timestamp, and the record then enters the log
    after the heartbeat's position. *)
Theorem low_watermark_passes_commit :
  persistWith (H := SampleWorld.working) SampleWorld.tbl [SampleStream.commit] (mret tt) =
    (nowMicro (H := SampleWorld.working) ≫= SampleStream.write) /\
  exists micros w0 watermark st w1 w2 rec,
    nowMicro (H := SampleWorld.working) SampleWorld.world0 = (Ret micros, w0) /\
    poll (H := SampleWorld.working) SampleStream.params (mkReader 0 (-10000000000)) w0 =
      (Ret ([heartbeatResponse fullStreamPartition 0 watermark], st, true), w1) /\
    SampleStream.write micros w1 = (Ret tt, w2) /\
    change_stream_t (w_db w2) = [rec] /\ rd_nextAfterID st < cr_id rec /\ cr_commitMicros rec * 1000 < watermark.
Proof.
  split; [reflexivity|].
  exists 1000000, SampleStream.stamp.2, 2000000000, (mkReader 0 4000000000), SampleStream.beat.2, SampleStream.stored.2.
  eexists. split; [refine (run_Ret SampleStream.stamp _ _); vm_compute; reflexivity|].
  split; [refine (run_Ret SampleStream.beat _ _); vm_compute; reflexivity|].
  split; [refine (run_Ret SampleStream.stored _ _); vm_compute; reflexivity|].
  split; [vm_compute; reflexivity|]. split; vm_compute; reflexivity.
Qed.
