(* ===== verification/Metadata.v ===== *)
(** * Table metadata and restart

    The persisted form of a table ([sql_tables.go]) and the loading of tables at
    start-up ([inmem.go]).  [tables_t] holds tables; here they pass through
    [encodeMetadata] and [decodeMetadata] as the record that is written, so that
    what a restart changes is explicit.  Protobuf and gob carry the record
    itself unchanged, which is what they document; the legacy encoding of
    earlier versions is not modelled. *)

From S2P Require Import Prelude Proto Rows Gc Hll Mutations Filters Server Store Tokens Targets WritePath Chunks ReadPath TableAdmin TableOps Tombstones.
From stdpp Require Import base list gmap sorting.
From Stdlib Require Import ZArith Lia.

#[local] Open Scope Z_scope.

(** The record of a table. *)
Definition encodeMetadata (t : table) : tableRecord :=
  mkTableRecord ((fun cf => mkCF (cf_GCRule cf) (cf_ValueType cf)) <$> t_families t)
    (match t_granularity t with TIMESTAMP_GRANULARITY_UNSPECIFIED => MILLIS | g => g end)
    (t_deletionProtection t) (t_changeStream t) (t_rowKeySchema t) (t_restoreInfo t) (t_backupPolicy t) (t_tieredStorage t)
    (cf_Order <$> t_families t) (t_counter t) (t_initialSplits t)
    (t_createTime t / 1000) (match t_deleteTime t with Some dt => dt / 1000 | None => 0 end) (t_tableId t).

(** The families of a record, named after the table. *)
Definition decodeFamilies (name : bytes) (rec : tableRecord) : gmap bytes columnFamily :=
  map_imap (fun id cf => Some (mkColumnFamily (name ++ str "/columnFamilies/" ++ id)
    (default 0 (tr_FamilyOrder rec !! id)) (cfm_GcRule cf) (cfm_ValueType cf))) (tr_ColumnFamilies rec).

(** [decodeMetadata] fills in a table that has its parent and ids. *)
Definition decodeMetadata (t : table) (rec : tableRecord) : table :=
  let id := match tr_TableID rec with [] => t_tableId t | id => id end in
  let name := t_parent t ++ str "/tables/" ++ id in
  mkTable (t_parent t) id (t_storageId t) (tr_Counter rec) (decodeFamilies name rec) (tr_BackupPolicy rec)
    (tr_DeletionProtection rec) (tr_ChangeStream rec) (tr_RowKeySchema rec) (tr_TieredStorage rec) (tr_Granularity rec)
    (tr_RestoreInfo rec) (tr_InitialSplits rec)
    (if 0 <? tr_CreateMicros rec then tr_CreateMicros rec * 1000 else t_createTime t)
    (if 0 <? tr_DeleteMicros rec then Some (tr_DeleteMicros rec * 1000) else t_deleteTime t).

(** [&table{parent: ..., tableId: ..., storageId: ...}]. *)
Definition bareTable (parent tableId storageId : bytes) : table :=
  mkTable parent tableId storageId 0 ∅ None false None None None TIMESTAMP_GRANULARITY_UNSPECIFIED None [] 0 None.

(** [GetAll], and [loadTables] of a server that starts. *)
Definition GetAll {blob : Type} (d : database blob) : list table :=
  (fun '((parent, id), t) => decodeMetadata (bareTable parent id id) (encodeMetadata t)) <$> map_to_list (tables_t d).

Definition loadTables {blob : Type} (s : server) (d : database blob) : server :=
  foldl (fun s t =>
    if deleted t then set_deletedTables s (<[storageName t := t]> (s_deletedTables s))
    else set_tables s (<[table_name t := t]> (s_tables s))) s (GetAll d).

(** ** The round trip *)

(** A table the server can hold: its families carry its name, its granularity is
    set, its times are after 1970, and its ids have no slash. *)
Definition table_ok (t : table) : Prop :=
  (forall id cf, t_families t !! id = Some cf -> cf_Name cf = table_name t ++ str "/columnFamilies/" ++ id) /\
  t_granularity t <> TIMESTAMP_GRANULARITY_UNSPECIFIED /\
  1000 <= t_createTime t /\ from_option (fun dt => 1000 <= dt) True (t_deleteTime t) /\
  t_tableId t <> [] /\ 47 ∉ t_tableId t /\ 47 ∉ t_storageId t.

(** What is left of a time. *)
Definition micros (t : Z) : Z := t / 1000 * 1000.

(** A table as it comes back: its times lose their nanoseconds. *)
Definition reloaded (t : table) : table :=
  mkTable (t_parent t) (t_tableId t) (t_storageId t) (t_counter t) (t_families t) (t_backupPolicy t)
    (t_deletionProtection t) (t_changeStream t) (t_rowKeySchema t) (t_tieredStorage t) (t_granularity t)
    (t_restoreInfo t) (t_initialSplits t) (micros (t_createTime t)) (micros <$> t_deleteTime t).

Lemma decode_encode_metadata t id :
  table_ok t -> decodeMetadata (bareTable (t_parent t) id (t_storageId t)) (encodeMetadata t) = reloaded t.
Proof.
  intros (Hf & Hg & Hc & Hd & Hid & _). unfold decodeMetadata, encodeMetadata, reloaded.
  cbn [tr_TableID tr_Counter tr_BackupPolicy tr_DeletionProtection tr_ChangeStream tr_RowKeySchema tr_TieredStorage
    tr_Granularity tr_RestoreInfo tr_InitialSplits tr_CreateMicros tr_DeleteMicros t_parent t_storageId t_tableId t_createTime t_deleteTime bareTable].
  destruct (t_tableId t) as [|c rest] eqn:Eid; [done|]. rewrite <- Eid in *.
  assert (match t_granularity t with TIMESTAMP_GRANULARITY_UNSPECIFIED => MILLIS | g => g end = t_granularity t) as -> by (by destruct (t_granularity t)).
  assert (0 < t_createTime t / 1000) as Hc' by (apply Z.div_str_pos; lia). rewrite (proj2 (Z.ltb_lt _ _)) by done. f_equal.
  - apply map_eq. intros i. unfold decodeFamilies. rewrite map_lookup_imap. cbn [tr_ColumnFamilies tr_FamilyOrder]. rewrite !lookup_fmap.
    destruct (t_families t !! i) as [cf|] eqn:E; [|done]. cbn. f_equal. apply Hf in E. destruct cf. cbn in *. by rewrite E.
  - destruct (t_deleteTime t) as [dt|]; [|done]. cbn in Hd |- *.
    assert (0 < dt / 1000) by (apply Z.div_str_pos; lia). by rewrite (proj2 (Z.ltb_lt _ _)).
Qed.

Lemma names_inj (p1 i1 p2 i2 : bytes) : 47 ∉ i1 -> 47 ∉ i2 ->
  p1 ++ str "/tables/" ++ i1 = p2 ++ str "/tables/" ++ i2 -> p1 = p2 /\ i1 = i2.
Proof.
  assert (forall (i1 i2 q1 q2 : bytes), 47 ∉ i1 -> 47 ∉ i2 -> q1 ++ 47 :: i1 = q2 ++ 47 :: i2 -> q1 = q2 /\ i1 = i2) as Hs.
  { intros j1 j2 q1. induction q1 as [|c q1 IH]; intros q2 H1 H2 E; destruct q2 as [|c2 q2]; cbn in E; simplify_eq; [done| | |].
    - destruct H1. set_solver.
    - destruct H2. set_solver.
    - destruct (IH q2 H1 H2) as [-> ->]; done. }
  intros H1 H2 E. change (str "/tables/") with (str "/tables" ++ [47]) in E. rewrite <- !app_assoc, !app_assoc in E. cbn [app] in E.
  rewrite <- !app_assoc in E. cbn [app] in E. rewrite !app_assoc in E.
  apply Hs in E as [E ->]; [|done|done]. split; [|done]. by apply (inj (fun l => l ++ str "/tables")) in E.
Qed.
