(* ===== verification/Restart.v ===== *)
(** * What a restart finds

    The server keeps its tables in memory and in [tables_t].  [synced] says that
    the two agree; here it is preserved by the handlers that change tables, and a
    server that starts from the database of a synced one has the same tables and
    tombstones. *)

From S2P Require Import Prelude Proto Rows Gc Hll Mutations Filters Server Store Tokens Targets WritePath Chunks ReadPath TableAdmin TableOps Tombstones TableUpdate Metadata.
From stdpp Require Import base list gmap sorting.
From Stdlib Require Import ZArith Lia.

#[local] Open Scope Z_scope.

(** Live tables are stored under their own id, tombstones under one with an
    [@], which no table id contains. *)
Definition live_ok (t : table) : Prop :=
  table_ok t /\ t_deleteTime t = None /\ t_storageId t = t_tableId t /\ 64 ∉ t_tableId t.
Definition tomb_ok (t : table) : Prop :=
  table_ok t /\ is_Some (t_deleteTime t) /\ 64 ∈ t_storageId t /\ 64 ∉ t_tableId t.

Definition table_key (t : table) : bytes * bytes := (t_parent t, t_storageId t).

Definition synced {blob : Type} (s : server) (d : database blob) : Prop :=
  (forall name t, s_tables s !! name = Some t -> name = table_name t /\ live_ok t /\ tables_t d !! table_key t = Some t) /\
  (forall k t, s_deletedTables s !! k = Some t -> k = storageName t /\ tomb_ok t /\ tables_t d !! table_key t = Some t) /\
  (forall key t, tables_t d !! key = Some t -> key = table_key t /\
     if deleted t then s_deletedTables s !! storageName t = Some t else s_tables s !! table_name t = Some t).

Lemma table_name_key t1 t2 : live_ok t1 -> live_ok t2 -> table_name t1 = table_name t2 -> table_key t1 = table_key t2.
Proof.
  intros ((_ & _ & _ & _ & _ & Hi1 & _) & _ & Hs1 & _) ((_ & _ & _ & _ & _ & Hi2 & _) & _ & Hs2 & _) E.
  apply names_inj in E as [Ep Ei]; [|done|done]. unfold table_key. congruence.
Qed.
Lemma storageName_key t1 t2 : table_ok t1 -> table_ok t2 -> storageName t1 = storageName t2 -> table_key t1 = table_key t2.
Proof.
  intros (_ & _ & _ & _ & _ & _ & Hi1) (_ & _ & _ & _ & _ & _ & Hi2) E. apply names_inj in E as [Ep Ei]; [|done|done].
  unfold table_key. congruence.
Qed.
Lemma key_table_name t1 t2 : live_ok t1 -> live_ok t2 -> table_key t1 = table_key t2 -> table_name t1 = table_name t2.
Proof. intros (_ & _ & Hs1 & _) (_ & _ & Hs2 & _) [= Ep Ei]. unfold table_name. congruence. Qed.
Lemma live_tomb_key t1 t2 : live_ok t1 -> tomb_ok t2 -> table_key t1 <> table_key t2.
Proof. intros (_ & _ & Hs & Hn) (_ & _ & Hin & _) [= _ Ei]. apply Hn. by rewrite <- Hs, Ei. Qed.
Lemma deleted_live t : live_ok t -> deleted t = false.
Proof. intros (_ & Hd & _). unfold deleted. by rewrite Hd. Qed.
Lemma deleted_tomb t : tomb_ok t -> deleted t = true.
Proof. intros (_ & Hd & _). unfold deleted. by rewrite bool_decide_eq_true_2. Qed.

Section synced.
Context {blob : Type}.
Implicit Types (d : database blob) (s : server) (t : table).

Lemma synced_stored s d key t : synced s d -> tables_t d !! key = Some t ->
  key = table_key t /\ (live_ok t /\ s_tables s !! table_name t = Some t \/ tomb_ok t /\ s_deletedTables s !! storageName t = Some t).
Proof.
  intros (H1 & H2 & H3) E. apply H3 in E as [-> E]. split; [done|]. destruct (deleted t).
  - right. split; [|done]. by apply H2 in E as (_ & ? & _).
  - left. split; [|done]. by apply H1 in E as (_ & ? & _).
Qed.

(** Storing a live table, new or changed. *)
Lemma synced_put s d t d' : synced s d -> live_ok t -> tables_t d' = <[table_key t := t]> (tables_t d) ->
  synced (set_tables s (<[table_name t := t]> (s_tables s))) d'.
Proof.
  intros Hs Hok Ed. pose proof Hs as (H1 & H2 & H3). unfold synced. rewrite Ed. cbn. split_and!.
  - intros name t' E. destruct (decide (name = table_name t)) as [->|Hne].
    + rewrite lookup_insert_eq in E. simplify_eq. rewrite lookup_insert_eq. done.
    + rewrite lookup_insert_ne in E by done. apply H1 in E as (-> & Hok' & E). split; [done|]. split; [done|].
      rewrite lookup_insert_ne; [done|]. intros Ek. apply Hne. symmetry. by apply key_table_name.
  - intros k t' E. apply H2 in E as (-> & Hok' & E). split; [done|]. split; [done|]. rewrite lookup_insert_ne; [done|]. by apply live_tomb_key.
  - intros key t' E. destruct (decide (key = table_key t)) as [->|Hne].
    + rewrite lookup_insert_eq in E. simplify_eq. rewrite deleted_live by done. by rewrite lookup_insert_eq.
    + rewrite lookup_insert_ne in E by done. destruct (synced_stored _ _ _ _ Hs E) as [-> [[Hok' E']|[Hok' E']]]; (split; [done|]).
      * rewrite deleted_live by done. rewrite lookup_insert_ne; [done|]. intros En. apply Hne. symmetry. by apply table_name_key.
      * by rewrite deleted_tomb.
Qed.

(** A live table becomes a tombstone. *)
Lemma synced_bury s d t t' d' : synced s d -> s_tables s !! table_name t = Some t -> tomb_ok t' ->
  tables_t d !! table_key t' = None -> tables_t d' = <[table_key t' := t']> (delete (table_key t) (tables_t d)) ->
  synced (set_deletedTables (set_tables s (delete (table_name t) (s_tables s))) (<[storageName t' := t']> (s_deletedTables s))) d'.
Proof.
  intros Hs Ht Hok Hfresh Ed. pose proof Hs as (H1 & H2 & H3). pose proof (H1 _ _ Ht) as (_ & Hlive & Est).
  unfold synced. rewrite Ed. cbn. split_and!.
  - intros name t2 E. apply lookup_delete_Some in E as [Hne E]. apply H1 in E as (-> & Hok2 & E). split; [done|]. split; [done|].
    rewrite lookup_insert_ne by (intros Ek; rewrite Ek in Hfresh; congruence). rewrite lookup_delete_ne; [done|]. intros Ek. apply Hne. by apply key_table_name.
  - intros k t2 E. destruct (decide (k = storageName t')) as [->|Hne].
    + rewrite lookup_insert_eq in E. simplify_eq. by rewrite lookup_insert_eq.
    + rewrite lookup_insert_ne in E by done. apply H2 in E as (-> & Hok2 & E). split; [done|]. split; [done|].
      rewrite lookup_insert_ne by (intros Ek; rewrite Ek in Hfresh; congruence). rewrite lookup_delete_ne; [done|]. by apply live_tomb_key.
  - intros key t2 E. destruct (decide (key = table_key t')) as [->|Hne].
    + rewrite lookup_insert_eq in E. simplify_eq. rewrite deleted_tomb by done. by rewrite lookup_insert_eq.
    + rewrite lookup_insert_ne in E by done. apply lookup_delete_Some in E as [Hne2 E].
      destruct (synced_stored _ _ _ _ Hs E) as [-> [[Hok' E']|[Hok' E']]]; (split; [done|]).
      * rewrite deleted_live by done. rewrite lookup_delete_ne; [done|]. intros En. apply Hne2. by apply table_name_key.
      * rewrite deleted_tomb by done. rewrite lookup_insert_ne; [done|]. intros En. apply Hne. symmetry.
        apply storageName_key; [apply Hok|apply Hok'|done].
Qed.

(** A tombstone becomes a live table. *)
Lemma synced_revive s d t t' d' : synced s d -> s_deletedTables s !! storageName t = Some t -> s_tables s !! table_name t' = None ->
  live_ok t' -> tables_t d' = <[table_key t' := t']> (delete (table_key t) (tables_t d)) ->
  synced (set_tables (set_deletedTables s (delete (storageName t) (s_deletedTables s))) (<[table_name t' := t']> (s_tables s))) d'.
Proof.
  intros Hs Ht Hnone Hok Ed. pose proof Hs as (H1 & H2 & H3). pose proof (H2 _ _ Ht) as (_ & Htomb & Est).
  assert (forall key t2, tables_t d !! key = Some t2 -> key <> table_key t') as Hfresh.
  { intros key t2 E ->. destruct (synced_stored _ _ _ _ Hs E) as [Ek [[Hok' E']|[Hok' E']]].
    - rewrite (key_table_name t' t2 Hok Hok' Ek) in Hnone. congruence.
    - by apply (live_tomb_key t' t2) in Hok. }
  unfold synced. rewrite Ed. cbn. split_and!.
  - intros name t2 E. destruct (decide (name = table_name t')) as [->|Hne].
    + rewrite lookup_insert_eq in E. simplify_eq. by rewrite lookup_insert_eq.
    + rewrite lookup_insert_ne in E by done. apply H1 in E as (-> & Hok2 & E). split; [done|]. split; [done|].
      rewrite lookup_insert_ne by (intros Ek; by apply (Hfresh _ _ E)). rewrite lookup_delete_ne; [done|]. intros Ek. by apply (live_tomb_key t2 t).
  - intros k t2 E. apply lookup_delete_Some in E as [Hne E]. apply H2 in E as (-> & Hok2 & E). split; [done|]. split; [done|].
    rewrite lookup_insert_ne by (intros Ek; by apply (Hfresh _ _ E)). rewrite lookup_delete_ne; [done|]. intros Ek. apply Hne.
    unfold storageName, table_key in *. congruence.
  - intros key t2 E. destruct (decide (key = table_key t')) as [->|Hne].
    + rewrite lookup_insert_eq in E. simplify_eq. rewrite deleted_live by done. by rewrite lookup_insert_eq.
    + rewrite lookup_insert_ne in E by done. apply lookup_delete_Some in E as [Hne2 E].
      destruct (synced_stored _ _ _ _ Hs E) as [-> [[Hok' E']|[Hok' E']]]; (split; [done|]).
      * rewrite deleted_live by done. rewrite lookup_insert_ne; [done|]. intros En. rewrite En in Hnone. congruence.
      * rewrite deleted_tomb by done. rewrite lookup_delete_ne; [done|]. intros En. apply Hne2.
        apply storageName_key; [apply Htomb|apply Hok'|done].
Qed.

(** ** Starting up *)

Lemma insert_fold (P : table -> bool) (key : table -> bytes) (l : list table) :
  (forall t1 t2, t1 ∈ l -> t2 ∈ l -> P t1 = true -> P t2 = true -> key t1 = key t2 -> t1 = t2) ->
  forall (m : gmap bytes table) n t,
  foldl (fun m t => if P t then <[key t := t]> m else m) m l !! n = Some t <->
  (t ∈ l /\ P t = true /\ key t = n) \/ (m !! n = Some t /\ forall t', t' ∈ l -> P t' = true -> key t' <> n).
Proof.
  induction l as [|x l IH]; intros Hu m n t; cbn [foldl].
  { split; [intros E; right; split; [done|]; set_solver|intros [(? & _)|[? _]]; [set_solver|done]]. }
  rewrite IH by (intros t1 t2 H1 H2; apply Hu; by right). split.
  - intros [(Hin & HP & Hk)|[Hm Hall]]; [left; split; [by right|done]|]. destruct (P x) eqn:EP.
    + destruct (decide (key x = n)) as [Hk|Hk].
      * rewrite Hk, lookup_insert_eq in Hm. simplify_eq. left. split; [left|done].
      * rewrite lookup_insert_ne in Hm by done. right. split; [done|]. intros t' [->|Hin]%elem_of_cons; auto.
    + right. split; [done|]. intros t' [->|Hin]%elem_of_cons; [congruence|auto].
  - intros [(Hin & HP & Hk)|[Hm Hall]].
    + destruct (decide (Exists (fun t' => P t' = true /\ key t' = n) l)) as [Hl|Hl].
      * apply list.Exists_exists in Hl as (t' & Hin' & HP' & Hk'). left. rewrite (Hu t t') by (done || by right || congruence). done.
      * right. rewrite list.Exists_exists in Hl. apply elem_of_cons in Hin as [->|Hin]; [|by destruct Hl; eauto]. rewrite HP, Hk, lookup_insert_eq.
        split; [done|]. intros t' Hin' HP' Hk'. apply Hl. eauto.
    + right. split; [|intros t' Hin; apply Hall; by right]. destruct (P x) eqn:EP; [|done]. rewrite lookup_insert_ne; [done|].
      apply Hall; [left|done].
Qed.

Lemma load_fold (l : list table) : forall s,
  let s' := foldl (fun s t => if deleted t then set_deletedTables s (<[storageName t := t]> (s_deletedTables s))
    else set_tables s (<[table_name t := t]> (s_tables s))) s l in
  s_tables s' = foldl (fun m t => if negb (deleted t) then <[table_name t := t]> m else m) (s_tables s) l /\
  s_deletedTables s' = foldl (fun m t => if deleted t then <[storageName t := t]> m else m) (s_deletedTables s) l.
Proof.
  induction l as [|x l IH]; intros s; [done|]. cbn [foldl]. destruct (deleted x).
  - exact (IH (set_deletedTables s (<[storageName x := x]> (s_deletedTables s)))).
  - exact (IH (set_tables s (<[table_name x := x]> (s_tables s)))).
Qed.

Lemma elem_of_GetAll s d x : synced s d -> x ∈ GetAll d <-> exists t, tables_t d !! table_key t = Some t /\ x = reloaded t.
Proof.
  intros Hs. unfold GetAll. rewrite list_elem_of_fmap. split.
  - intros ([[p id] t] & -> & Hin%elem_of_map_to_list). exists t. destruct (synced_stored _ _ _ _ Hs Hin) as [Ek Hok].
    rewrite <- Ek. split; [done|]. injection Ek as -> ->. apply decode_encode_metadata. by destruct Hok as [[[? _] _]|[[? _] _]].
  - intros (t & E & ->). exists (table_key t, t). split; [|by apply elem_of_map_to_list]. cbn. symmetry. apply decode_encode_metadata.
    destruct (synced_stored _ _ _ _ Hs E) as [_ Hok]. by destruct Hok as [[[? _] _]|[[? _] _]].
Qed.

Lemma deleted_reloaded t : deleted (reloaded t) = deleted t.
Proof. unfold deleted, reloaded. cbn. by destruct (t_deleteTime t). Qed.

Lemma loadTables_synced s s0 d : synced s d -> s_tables s0 = ∅ -> s_deletedTables s0 = ∅ ->
  s_tables (loadTables s0 d) = reloaded <$> s_tables s /\ s_deletedTables (loadTables s0 d) = reloaded <$> s_deletedTables s.
Proof.
  intros Hs E1 E2. unfold loadTables. destruct (load_fold (GetAll d) s0) as [-> ->]. rewrite E1, E2. pose proof Hs as (H1 & H2 & H3).
  split; apply map_eq; intros n; apply option_eq; intros x.
  - rewrite insert_fold.
    + rewrite lookup_empty, lookup_fmap, fmap_Some. split.
      * intros [(Hin & Hd & Hk)|[? _]]; [|done]. apply (elem_of_GetAll s) in Hin as (t & Et & ->); [|done].
        rewrite deleted_reloaded in Hd. apply negb_true_iff in Hd. exists t. split; [|done]. apply H3 in Et as [_ Et]. rewrite Hd in Et. subst n. done.
      * intros (t & Et & ->). apply H1 in Et as (-> & Hok & Et). left. split; [apply (elem_of_GetAll s); eauto|].
        rewrite deleted_reloaded, deleted_live by done. done.
    + intros t1 t2 Hi1 Hi2 Hd1 Hd2 Hk. apply (elem_of_GetAll s) in Hi1 as (x1 & Hx1 & ->), Hi2 as (x2 & Hx2 & ->); [|done|done].
      rewrite deleted_reloaded in Hd1, Hd2. apply negb_true_iff in Hd1, Hd2. apply H3 in Hx1 as [_ Hx1], Hx2 as [_ Hx2].
      rewrite Hd1 in Hx1. rewrite Hd2 in Hx2. change (table_name x1 = table_name x2) in Hk. congruence.
  - rewrite insert_fold.
    + rewrite lookup_empty, lookup_fmap, fmap_Some. split.
      * intros [(Hin & Hd & Hk)|[? _]]; [|done]. apply (elem_of_GetAll s) in Hin as (t & Et & ->); [|done].
        rewrite deleted_reloaded in Hd. exists t. split; [|done]. apply H3 in Et as [_ Et]. rewrite Hd in Et. subst n. done.
      * intros (t & Et & ->). apply H2 in Et as (-> & Hok & Et). left. split; [apply (elem_of_GetAll s); eauto|].
        rewrite deleted_reloaded, deleted_tomb by done. done.
    + intros t1 t2 Hi1 Hi2 Hd1 Hd2 Hk. apply (elem_of_GetAll s) in Hi1 as (x1 & Hx1 & ->), Hi2 as (x2 & Hx2 & ->); [|done|done].
      rewrite deleted_reloaded in Hd1, Hd2. apply H3 in Hx1 as [_ Hx1], Hx2 as [_ Hx2].
      rewrite Hd1 in Hx1. rewrite Hd2 in Hx2. change (storageName x1 = storageName x2) in Hk. congruence.
Qed.
End synced.

(** ** The handlers *)

(** A request that leaves tables alone, in memory and in the database. *)
Definition aside_tables {blob A : Type} (m : M blob A) : Prop :=
  forall w, tables_t (w_db (m w).2) = tables_t (w_db w) /\ w_srv (m w).2 = w_srv w.

(** A request after which the two still agree. *)
Definition synced_after {blob A : Type} (r : outcome A * world blob) : Prop := synced (w_srv r.2) (w_db r.2).
Definition keeps {blob A : Type} (m : M blob A) : Prop :=
  forall w, synced (w_srv w) (w_db w) -> synced_after (m w).

Section handlers.
Context {blob : Type} `{!Gob blob} `{!Env}.
Implicit Types (w : world blob).

Lemma synced_tables s (d d' : database blob) : tables_t d' = tables_t d -> synced s d -> synced s d'.
Proof. intros E. unfold synced. by rewrite E. Qed.

Lemma keeps_aside {A : Type} (m : M blob A) : aside_tables m -> keeps m.
Proof. intros Hm w Hs. destruct (Hm w) as [Et Es]. unfold synced_after. rewrite Es. by eapply synced_tables. Qed.
Lemma synced_bind {A B : Type} (m : M blob A) (f : A -> M blob B) : keeps m -> (forall a, keeps (f a)) -> keeps (m ≫= f).
Proof. intros Hm Hf w Hs. specialize (Hm w Hs). rewrite bind_run. destruct (m w) as [[a| |] w1]; [by apply Hf|done|done]. Qed.

Lemma aside_tables_bind {A B : Type} (m : M blob A) (f : A -> M blob B) :
  aside_tables m -> (forall a, aside_tables (f a)) -> aside_tables (m ≫= f).
Proof.
  intros Hm Hf w. destruct (Hm w) as [Et Es]. rewrite bind_run. destruct (m w) as [[a| |] w1]; [|done|done].
  cbn in Et, Es. destruct (Hf a w1) as [Et' Es']. split; congruence.
Qed.
Lemma aside_tables_call {A : Type} (f : database blob -> outcome A * database blob) :
  (forall d, tables_t (f d).2 = tables_t d) -> aside_tables (call f).
Proof. intros Hf w. unfold call. destruct (driver _); [done|]. specialize (Hf (w_db w)). by destruct (f (w_db w)). Qed.
Lemma aside_tables_forM {A B : Type} (f : B -> A -> M blob B) l : (forall b a, aside_tables (f b a)) -> forall b, aside_tables (forM f b l).
Proof. intros Hf. induction l as [|a l IH]; intros b; cbn; [done|]. by apply aside_tables_bind. Qed.
Lemma aside_tables_mapErr {A : Type} f (m : M blob A) : aside_tables m -> aside_tables (mapErr f m).
Proof. intros Hm w. specialize (Hm w). unfold mapErr. by destruct (m w). Qed.
Lemma aside_tables_save t r : aside_tables (SqlRows_save (blob := blob) t r).
Proof. unfold SqlRows_save, SqlRows_remove. case_match; [by apply aside_tables_call|]. case_match; [by apply aside_tables_call|done]. Qed.
Lemma aside_tables_visit {S : Type} (fn : S -> row -> M blob (S * bool)) l :
  (forall s r, aside_tables (fn s r)) -> forall s, aside_tables (visitRows fn s l).
Proof.
  intros Hf. induction l as [|r l IH]; intros s; cbn; [done|]. apply aside_tables_bind; [done|]. intros [s' []]; [apply IH|done].
Qed.
Lemma aside_tables_dropFamilyData t fams : aside_tables (dropFamilyData (blob := blob) t fams).
Proof.
  unfold dropFamilyData, SqlRows_scan, scanRows. apply aside_tables_bind.
  - apply aside_tables_bind; [case_match; [done|by apply aside_tables_call]|]. intros rows. by apply aside_tables_visit.
  - intros rows. apply aside_tables_forM. intros. apply aside_tables_save.
Qed.
Lemma aside_tables_checkTableDeletable t : aside_tables (checkTableDeletable (blob := blob) t).
Proof.
  unfold checkTableDeletable. case_match; [done|]. apply aside_tables_bind; [by apply aside_tables_mapErr, aside_tables_call|].
  intros views. case_match; [done|]. apply aside_tables_bind; [done|]. intros s. by case_match.
Qed.

(** A transaction that stores a table and then leaves tables alone. *)
Lemma withTx_Save t (m : M blob unit) w : aside_tables m ->
  let r := withTx (_ ← SqlTables_Save t; m) w in
  w_srv r.2 = w_srv w /\
  (r.1 = Ret tt /\ tables_t (w_db r.2) = <[table_key t := t]> (tables_t (w_db w)) \/ r.1 <> Ret tt /\ w_db r.2 = w_db w).
Proof.
  intros Hm. unfold withTx, SqlTables_Save, call. destruct (driver _) as [f|]; cbn; [split; [done|right; split; [discriminate|reflexivity]]|].
  rewrite bind_run. destruct (driver _) as [f|]; cbn; [split; [done|right; split; [discriminate|reflexivity]]|].
  set (w1 := set_db _ (set_tables_t _ _)). destruct (Hm w1) as [Et Es].
  destruct (m w1) as [[[]| |] w2]; cbn in Et, Es |- *; [|split; [exact Es|right; split; [discriminate|reflexivity]]..].
  destruct (driver _) as [f|]; cbn; (split; [exact Es|]); [right; split; [discriminate|reflexivity]|left]. split; [done|exact Et].
Qed.

(** *** CreateTable *)

Lemma idChar_ne c : idChar c = true -> c <> 47 /\ c <> 64.
Proof. unfold idChar. intros E. split; intros ->; done. Qed.
Lemma tableIDPattern_ok id : tableIDPattern id = true -> id <> [] /\ 47 ∉ id /\ 64 ∉ id.
Proof.
  unfold tableIDPattern. destruct id as [|c rest]; [done|]. rewrite !andb_true_iff. intros [[[[Hc _] _] _] Hr]. split; [done|].
  apply idChar_ne in Hc. rewrite forallb_forall in Hr.
  assert (forall x, x ∈ rest -> x <> 47 /\ x <> 64) as Hx by (intros x Hx; apply idChar_ne, Hr; by apply list_elem_of_In).
  split; intros [Heq|Hin]%elem_of_cons; [lia| |lia| ]; apply Hx in Hin; lia.
Qed.

Lemma newTable_ok req now : tableIDPattern (ct_TableId req) = true -> 1000 <= now ->
  live_ok (newTable req now) /\ table_name (newTable req now) = ct_Parent req ++ str "/tables/" ++ ct_TableId req.
Proof.
  intros (Hne & Hs & Ha)%tableIDPattern_ok Hnow. unfold newTable.
  set (step := fun '(fams, c) id =>
    match ct_ColumnFamilies req !! id with
    | None => (fams, c)
    | Some cf => (<[id := mkColumnFamily ((ct_Parent req ++ str "/tables/" ++ ct_TableId req) ++ str "/columnFamilies/" ++ id) c (cfm_GcRule cf) (cfm_ValueType cf)]> fams, c + 1)
    end).
  assert (forall ids st, (forall id cf, st.1 !! id = Some cf -> cf_Name cf = (ct_Parent req ++ str "/tables/" ++ ct_TableId req) ++ str "/columnFamilies/" ++ id) ->
    forall id cf, (foldl step st ids).1 !! id = Some cf -> cf_Name cf = (ct_Parent req ++ str "/tables/" ++ ct_TableId req) ++ str "/columnFamilies/" ++ id) as Hstep.
  { induction ids as [|i ids IH]; intros [fams c] Hst; [exact Hst|]. cbn [foldl]. apply IH. unfold step. destruct (ct_ColumnFamilies req !! i) as [cf0|]; [|exact Hst].
    cbn [fst] in *. intros id cf. destruct (decide (i = id)) as [->|Hi]; [rewrite lookup_insert_eq; by intros [= <-]|rewrite lookup_insert_ne by done; apply Hst]. }
  specialize (Hstep (sort_strings (map_keys (ct_ColumnFamilies req))) (∅, 0)).
  destruct (foldl step (∅, 0) _) as [fams c]. cbn [fst] in Hstep. split; [|done]. split; [|done].
  split_and!; try done; [|by destruct (ct_Granularity req)]. intros id cf E. apply Hstep in E; [done|]. intros ? ? E'. by rewrite lookup_empty in E'.
Qed.

Lemma keeps_CreateTable proto_Size strict req : (forall n, 1000 <= clock n) -> keeps (CreateTable (blob := blob) proto_Size strict req).
Proof.
  intros Hck. unfold CreateTable. case_match; [by apply keeps_aside|]. destruct (tableIDPattern _) eqn:Eid; cbn [negb]; [|by apply keeps_aside].
  apply synced_bind. { apply keeps_aside. unfold localRequireInstance. case_match; [done|]. apply aside_tables_bind; [done|]. intros s. by case_match. }
  intros _. do 3 (apply synced_bind; [by apply keeps_aside|]; intros _). case_match; [by apply keeps_aside|].
  intros w Hs. rewrite bind_run. cbn [getServer]. destruct (s_tables (w_srv w) !! _) eqn:En; [done|]. rewrite bind_run. unfold timeNow.
  destruct (newTable_ok req (clock (w_ticks w)) Eid (Hck _)) as [Hok Ename]. set (tbl := newTable req _) in *.
  rewrite <- Ename. rewrite bind_run. unfold mapErr, SqlTables_Save, call. cbn [w_calls w_db w_srv]. destruct (driver _) as [f|]; [done|].
  unfold synced_after. cbn -[table_name tbl]. by eapply synced_put.
Qed.

(** *** ModifyColumnFamilies *)

Definition named (name : bytes) (fams : gmap bytes columnFamily) : Prop :=
  forall id cf, fams !! id = Some cf -> cf_Name cf = name ++ str "/columnFamilies/" ++ id.

Lemma updateFamily_name cf paths cur cur' : foldM (updateFamily cf) cur paths = Ret cur' -> cf_Name cur' = cf_Name cur.
Proof.
  intros E. apply (foldM_inv (fun c => cf_Name c = cf_Name cur)) in E; [done| |done]. intros b a b' _ Hb Hu. unfold updateFamily in Hu.
  repeat case_match; simplify_eq; done.
Qed.

Lemma modifyFamily_named proto_Size name st m st' : modifyFamily proto_Size name st m = Ret st' -> named name (md_next st) -> named name (md_next st').
Proof.
  unfold modifyFamily. intros E Hn. destruct m as [id [cf|cf paths|b|]]; [| | |done].
  - destruct (validateFamily proto_Size id cf); try done. cbn [mbind outcome_bind] in E. destruct (md_next st !! id); [done|]. simplify_eq. cbn [md_next].
    intros i x. destruct (decide (id = i)) as [->|Hi]; [rewrite lookup_insert_eq; by intros [= <-]|rewrite lookup_insert_ne by done; apply Hn].
  - destruct (md_next st !! id) as [cur|] eqn:Ec; [|done]. destruct (validateGCRule proto_Size (cfm_GcRule cf)); try done. cbn [mbind outcome_bind] in E.
    destruct (foldM _ _ _) as [cur'| |] eqn:Eu; try done. cbn [mbind outcome_bind] in E. simplify_eq. cbn [md_next]. apply updateFamily_name in Eu.
    intros i x. destruct (decide (id = i)) as [->|Hi]; [rewrite lookup_insert_eq; intros [= <-]; rewrite Eu; by apply Hn|rewrite lookup_insert_ne by done; apply Hn].
  - destruct b; [|done]. cbn in E. destruct (md_next st !! id); [|done]. simplify_eq. cbn [md_next]. intros i x [_ Hi]%lookup_delete_Some. by apply Hn.
Qed.

Lemma keeps_ModifyColumnFamilies proto_Size req : keeps (ModifyColumnFamilies (blob := blob) proto_Size req).
Proof.
  intros w Hs. unfold ModifyColumnFamilies. rewrite bind_run. cbn [getServer]. rewrite bind_run. unfold lift at 1, localRequireTable.
  destruct (s_tables (w_srv w) !! mf_Name req) as [tbl|] eqn:En; [|exact Hs]. pose proof Hs as (H1 & _ & _). destruct (H1 _ _ En) as (Ename & Hok & _).
  destruct (mf_Modifications req) as [|m mods] eqn:Em; [exact Hs|]. rewrite <- Em. rewrite bind_run. unfold lift at 1.
  destruct (foldM _ _ _) as [st| |] eqn:Ef; [|exact Hs|exact Hs]. rewrite bind_run. unfold lift at 1. destruct (match t_rowKeySchema tbl with Some _ => _ | None => _ end); [|exact Hs|exact Hs].
  assert (live_ok (set_t_families tbl (md_next st) (md_counter st))) as Hok'.
  { destruct Hok as ((Hf & Hrest) & Hd & Hid & Ha). split; [|done]. split; [|done]. rewrite Ename in Ef.
    refine (foldM_inv (fun st => named (table_name tbl) (md_next st)) _ _ _ _ _ _ Ef); [|exact Hf]. intros b x b' _ Hb Hm. by eapply modifyFamily_named. }
  set (cand := set_t_families _ _ _) in *. rewrite bind_run. unfold mapErr.
  edestruct (withTx_Save cand (match md_dropped st with [] => mret tt | _ => dropFamilyData (table_rows tbl) (md_dropped st) end) w) as [Esrv Hout].
  { destruct (md_dropped st); [done|apply aside_tables_dropFamilyData]. }
  assert ((match md_dropped st with [] => mret tt | dropped => dropFamilyData (table_rows tbl) dropped end : M blob unit) =
    match md_dropped st with [] => mret tt | _ => dropFamilyData (table_rows tbl) (md_dropped st) end) as -> by (by destruct (md_dropped st)).
  destruct (withTx _ w) as [r w1]. cbn [fst snd] in Esrv, Hout. destruct Hout as [[-> Et]|[Hne Ed]].
  - rewrite bind_run. cbn [getServer]. rewrite bind_run. cbn [putServer]. unfold mret, M_ret, synced_after. cbn [snd w_srv set_srv w_db]. rewrite Esrv.
    assert (mf_Name req = table_name cand) as -> by done. by eapply synced_put.
  - destruct r as [[]| |]; [done| |]; unfold synced_after; cbn [snd]; rewrite Esrv, Ed; done.
Qed.

(** *** UpdateTable *)

Lemma synced_ext s s' (d : database blob) : s_tables s' = s_tables s -> s_deletedTables s' = s_deletedTables s -> synced s d -> synced s' d.
Proof. unfold synced. by intros -> ->. Qed.

Lemma keeps_ops_complete resource : keeps (ops_complete (blob := blob) resource).
Proof.
  unfold ops_complete. intros w Hs. rewrite bind_run. cbn [getServer]. rewrite bind_run. cbn [putServer].
  apply (keeps_aside _ (aside_tables_mapErr _ _ (aside_tables_call (fun d => (Ret tt, set_operations_t d _)) ltac:(done)))).
  by eapply synced_ext; [..|exact Hs].
Qed.

Lemma masked_live fields paths tbl next : masked fields tbl paths next -> live_ok tbl -> live_ok next.
Proof. intros [-> _] Hok. exact Hok. Qed.

Lemma keeps_UpdateTable req : keeps (UpdateTable (blob := blob) req).
Proof.
  intros w Hs. destruct (ut_Paths req) as [|p ps] eqn:Ep; [unfold UpdateTable; by rewrite Ep|].
  destruct (ut_Table req) as [fields|] eqn:Ef; [|unfold UpdateTable; by rewrite Ep, Ef].
  destruct (s_tables (w_srv w) !! tf_Name fields) as [tbl|] eqn:En.
  2: { unfold UpdateTable. rewrite Ep, Ef, bind_run. unfold lift at 1. destruct (foldM _ _ _); [|exact Hs..]. rewrite bind_run. cbn [getServer].
       rewrite bind_run. unfold lift, localRequireTable. by rewrite En. }
  rewrite (UpdateTable_run _ _ _ _ Ef) by (done || by rewrite Ep). destruct (validated req fields tbl) as [next| |] eqn:Ev; [|exact Hs..].
  apply validated_Ret in Ev as [Hm _]. pose proof Hs as (H1 & _ & _). destruct (H1 _ _ En) as (Ename & Hok & _). apply (masked_live _ _ _ _ Hm) in Hok.
  destruct (masked_names _ _ _ _ Hm) as [En' _]. unfold committed. rewrite bind_run. unfold mapErr at 1, SqlTables_Save, call. destruct (driver _) as [flt|]; [exact Hs|].
  rewrite bind_run. unfold assign. rewrite bind_run. cbn [getServer putServer].
  match goal with |- synced_after (?m ?w1) => enough (keeps m) as Hk end.
  - apply Hk. cbn [set_db set_srv w_srv w_db assigned]. rewrite Ename, <- En'. by eapply synced_put.
  - apply synced_bind; [apply keeps_aside; case_match; [by apply aside_tables_mapErr, aside_tables_call|done]|]. intros _.
    apply synced_bind; [by apply keeps_aside|]. intros s. apply synced_bind; [apply keeps_ops_complete|]. intros _. by apply keeps_aside.
Qed.

(** *** DeleteTable *)

(** What DeleteTable restores after a failure. *)
Definition undone (t : table) : table := set_t_storageId (set_t_deleteTime t None) (t_tableId t).

(** While it runs, the server differs from [s0] in at most those two fields of
    the table. *)
Definition tracked (s0 : server) (name : bytes) (tbl : table) (s : server) : Prop :=
  exists t, s = set_tables s0 (<[name := t]> (s_tables s0)) /\ undone t = tbl.

Section tracking.
Context (s0 : server) (name : bytes) (tbl : table).

(** [m] keeps to that, does not panic, and its result satisfies [Q]. *)
Definition tracks {A : Type} (m : M blob A) (Q : A -> Prop) : Prop :=
  forall w, tracked s0 name tbl (w_srv w) -> tracked s0 name tbl (w_srv (m w).2) /\
    match (m w).1 with Ret a => Q a | Err _ => True | Panic => False end.

Lemma tracks_bind {A B : Type} (m : M blob A) (f : A -> M blob B) (Q : A -> Prop) (R : B -> Prop) :
  tracks m Q -> (forall a, Q a -> tracks (f a) R) -> tracks (m ≫= f) R.
Proof. intros Hm Hf w Hw. destruct (Hm w Hw) as [Ht Hq]. rewrite bind_run. destruct (m w) as [[a| |] w1]; [by apply Hf|done|done]. Qed.
Lemma tracks_call {A : Type} (f : database blob -> outcome A * database blob) :
  (forall d, (f d).1 <> Panic) -> tracks (call f) (fun _ => True).
Proof.
  intros Hf w Hw. unfold call. destruct (driver _); [done|]. specialize (Hf (w_db w)). destruct (f (w_db w)) as [[a| |] d]; done.
Qed.
Lemma tracks_forM {A B : Type} (f : B -> A -> M blob B) l : (forall b a, tracks (f b a) (fun _ => True)) -> forall b, tracks (forM f b l) (fun _ => True).
Proof. intros Hf. induction l as [|a l IH]; intros b; cbn; [by intros w Hw|]. by apply tracks_bind with (Q := fun _ => True). Qed.
Lemma tracks_read : tracks (readTable (Ref_Table name)) (fun t => undone t = tbl).
Proof.
  intros w (t & E & Hu). unfold readTable. rewrite bind_run. cbn [getServer]. rewrite E. cbn. rewrite lookup_insert_eq. cbn. split; [|done].
  exists t. by rewrite E.
Qed.
Lemma tracks_assign t : undone t = tbl -> tracks (assign (Ref_Table name) t) (fun _ => True).
Proof.
  intros Hu w (t0 & E & _). unfold assign. rewrite bind_run. cbn. split; [|done]. exists t. split; [|done]. rewrite E. unfold set_tables. cbn. by rewrite insert_insert_eq.
Qed.
Lemma tracks_moveTableChildren from to : tracks (moveTableChildren from to) (fun _ => True).
Proof.
  unfold moveTableChildren. apply tracks_bind with (Q := fun _ => True); [by apply tracks_call|]. intros views _.
  apply tracks_bind with (Q := fun _ => True).
  { apply tracks_forM. intros [] [n av]. apply tracks_bind with (Q := fun _ => True); [by apply tracks_call|]. intros _ _. by apply tracks_call. }
  intros _ _. apply tracks_bind with (Q := fun _ => True); [by apply tracks_call|]. intros bundles _.
  apply tracks_forM. intros [] [n sb]. apply tracks_bind with (Q := fun _ => True); [by apply tracks_call|]. intros _ _. by apply tracks_call.
Qed.
Lemma tracks_deleteTx fold_case dt : undone tbl = tbl -> tracks (deleteTx fold_case tbl (Ref_Table name) dt) (fun _ => True).
Proof.
  intros Hu. unfold deleteTx, SqlTables_Rename. apply tracks_bind with (Q := fun _ => True); [by apply tracks_assign|]. intros _ _.
  apply tracks_bind with (Q := fun _ => True).
  { apply tracks_bind with (Q := fun t => undone t = tbl); [apply tracks_read|]. intros t Ht.
    apply tracks_bind with (Q := fun _ => True); [apply tracks_call; intros d; unfold moveRows; repeat case_match; done|]. intros _ _.
    apply tracks_bind with (Q := fun _ => True); [by apply tracks_call|]. intros _ _.
    apply tracks_bind with (Q := fun _ => True); [by apply tracks_assign|]. intros _ _. by apply tracks_call. }
  intros _ _. apply tracks_bind with (Q := fun _ => True); [by apply tracks_call|]. intros _ _.
  apply tracks_bind with (Q := fun t => undone t = tbl); [apply tracks_read|]. intros t _.
  apply tracks_bind with (Q := fun _ => True); [apply tracks_moveTableChildren|]. intros _ _.
  apply tracks_bind with (Q := fun _ => True); [by apply tracks_call|]. intros _ _. by apply tracks_call.
Qed.
Lemma tracks_withTx {A : Type} (m : M blob A) Q : tracks m Q -> tracks (withTx m) Q.
Proof.
  intros Hm w Hw. unfold withTx. destruct (tracks_call (fun d => (Ret tt, d)) ltac:(done) w Hw) as [H0 H0'].
  destruct (call _ w) as [[[]| |] w0]; [|done|done]. destruct (Hm w0 H0) as [H1 H1']. destruct (m w0) as [[a| |] w1]; [|done|done].
  destruct (tracks_call (fun d => (Ret tt, d)) ltac:(done) w1 H1) as [H2 H2']. by destruct (call _ w1) as [[[]| |] w2].
Qed.
End tracking.

Lemma tombstone_ok t dt : live_ok t -> 1000 <= dt -> tomb_ok (tombstone t dt).
Proof.
  intros ((Hf & Hg & Hc & _ & Hne & Hs & _) & _ & _ & Ha) Hdt. unfold tombstone, tombstoneID. split.
  - split_and!; try done. cbn [t_storageId set_t_storageId]. rewrite !not_elem_of_app. split; [done|]. split; [vm_compute; set_solver|].
    unfold FormatInt. assert (forall n, 47 ∉ digits 20 n []) as Hd.
    { intros n Hin. pose proof (digits_all 20 n [] ltac:(constructor)) as Hall. rewrite list.Forall_forall in Hall. apply Hall in Hin. lia. }
    case_match; [|apply Hd]. rewrite not_elem_of_cons. split; [done|apply Hd].
  - split; [by eexists|]. split; [|done]. cbn [t_storageId set_t_storageId]. rewrite !elem_of_app. right. left. vm_compute. left.
Qed.

Lemma keeps_DeleteTable fold_case name w : synced (w_srv w) (w_db w) -> (forall n, 1000 <= clock n) ->
  (forall t, s_tables (w_srv w) !! name = Some t -> tables_t (w_db w) !! (t_parent t, tombstoneID t (clock (w_ticks w))) = None) ->
  synced_after (DeleteTable (blob := blob) fold_case name w).
Proof.
  intros Hs Hck Hfresh. destruct (DeleteTable fold_case name w) as [[[]|c|] w'] eqn:E.
  - destruct (s_tables (w_srv w) !! name) as [tbl|] eqn:En.
    2: { unfold DeleteTable in E. rewrite bind_run in E. cbn [getServer] in E. by rewrite En in E. }
    pose proof Hs as (H1 & _ & _). destruct (H1 _ _ En) as (-> & Hok & _). pose proof Hok as (_ & _ & Hid & _).
    destruct (DeleteTable_Ret _ _ _ _ _ En Hid E) as (_ & _ & Esrv & Et). unfold synced_after. cbn [snd]. rewrite Esrv.
    eapply synced_bury; [exact Hs|exact En|by apply tombstone_ok|by apply (Hfresh tbl)|]. rewrite Et. unfold table_key. by rewrite Hid.
  - pose proof (atomic_DeleteTable fold_case name w) as Hat. rewrite E in Hat. unfold synced_after. cbn [snd]. rewrite Hat.
    enough (w_srv w' = w_srv w) as -> by done. revert E. unfold DeleteTable. rewrite bind_run. cbn [getServer].
    destruct (s_tables (w_srv w) !! name) as [tbl|] eqn:En; [|by intros [= _ <-]]. rewrite bind_run.
    destruct (aside_tables_checkTableDeletable tbl w) as [_ Es1]. destruct (checkTableDeletable tbl w) as [[[]| |] w1]; cbn [snd] in Es1; [|by intros [= _ <-]|done].
    rewrite bind_run. unfold timeNow. rewrite bind_run. unfold catch. set (w2 := mkWorld _ _ _ _ _).
    pose proof Hs as (H1 & _ & _). destruct (H1 _ _ En) as (Ename & (_ & Hd & Hid & _) & _).
    assert (undone tbl = tbl) as Hu by (destruct tbl; unfold undone; cbn in *; by subst).
    destruct (tracks_withTx (w_srv w) name tbl _ _ (tracks_deleteTx (w_srv w) name tbl fold_case (clock (w_ticks w1)) Hu) w2) as [(t & Et & Htu) Hp].
    { exists tbl. split; [|done]. cbn. rewrite Es1. destruct (w_srv w). unfold set_tables. cbn in *. by rewrite insert_id. }
    destruct (withTx _ w2) as [[[]| |] w3]; cbn [fst snd] in Et, Hp; [| |done].
    + rewrite bind_run. unfold readTable. rewrite bind_run. cbn [getServer]. rewrite Et. cbn [deref s_tables set_tables]. rewrite lookup_insert_eq. done.
    + rewrite bind_run. unfold readTable. rewrite bind_run. cbn [getServer]. rewrite Et. cbn [deref s_tables set_tables]. rewrite lookup_insert_eq.
      cbn [mret M_ret]. rewrite bind_run. unfold assign. rewrite bind_run. cbn [getServer putServer]. fold (undone t). rewrite Htu, Et. intros [= _ <-]. cbn.
      destruct (w_srv w). unfold set_tables. cbn in *. by rewrite insert_insert_eq, insert_id.
  - exfalso. revert E. unfold DeleteTable. rewrite bind_run. cbn [getServer].
    destruct (s_tables (w_srv w) !! name) as [tbl|] eqn:En; [|done]. rewrite bind_run.
    destruct (aside_tables_checkTableDeletable tbl w) as [_ Es1].
    assert ((checkTableDeletable tbl w).1 <> Panic) as Hnp.
    { unfold checkTableDeletable. case_match; [done|]. rewrite bind_run. unfold mapErr, listPrefix, call. destruct (driver _); [done|]. cbn. case_match; [done|].
      rewrite bind_run. cbn. by case_match. }
    destruct (checkTableDeletable tbl w) as [[[]| |] w1]; cbn [fst snd] in Es1, Hnp; [|done|done].
    rewrite bind_run. unfold timeNow. rewrite bind_run. unfold catch. set (w2 := mkWorld _ _ _ _ _).
    pose proof Hs as (H1 & _ & _). destruct (H1 _ _ En) as (Ename & (_ & Hd & Hid & _) & _).
    assert (undone tbl = tbl) as Hu by (destruct tbl; unfold undone; cbn in *; by subst).
    destruct (tracks_withTx (w_srv w) name tbl _ _ (tracks_deleteTx (w_srv w) name tbl fold_case (clock (w_ticks w1)) Hu) w2) as [(t & Et & Htu) Hp].
    { exists tbl. split; [|done]. cbn. rewrite Es1. destruct (w_srv w). unfold set_tables. cbn in *. by rewrite insert_id. }
    destruct (withTx _ w2) as [[[]| |] w3]; cbn [fst snd] in Et, Hp; [| |done];
      rewrite bind_run; unfold readTable; rewrite bind_run; cbn [getServer]; rewrite Et; cbn [deref s_tables set_tables]; by rewrite lookup_insert_eq.
Qed.

(** The tombstone that is brought back is one of the server's. *)
Lemma latestTombstone_Some s name k t : latestTombstone s name = Some (k, t) ->
  s_deletedTables s !! k = Some t /\ table_name t = name.
Proof.
  unfold latestTombstone.
  enough (forall l acc, (forall k t, acc = Some (k, t) -> s_deletedTables s !! k = Some t /\ table_name t = name) ->
    (forall k t, (k, t) ∈ l -> s_deletedTables s !! k = Some t) ->
    foldl (fun (latest : option (bytes * table)) '(k, t) =>
      if bool_decide (table_name t = name) && match latest with None => true | Some (_, l) => default 0 (t_deleteTime l) <? default 0 (t_deleteTime t) end
      then Some (k, t) else latest) acc l = Some (k, t) -> s_deletedTables s !! k = Some t /\ table_name t = name) as Hgen.
  { apply Hgen; [done|]. intros k' t'. by rewrite elem_of_map_to_list. }
  intros l. induction l as [|[k1 t1] l IH]; intros acc Hacc Hl; cbn; [apply Hacc|]. apply IH.
  - intros k2 t2. case_bool_decide as Hn; cbn [andb]; [|apply Hacc]. case_match; [|apply Hacc]. intros [= <- <-]. split; [|done].
    apply Hl. apply list_elem_of_here.
  - intros k2 t2 Hin. apply Hl. by apply list_elem_of_further.
Qed.

Lemma restored_ok t : tomb_ok t -> live_ok (restored t).
Proof. intros ((Hf & Hg & Hc & _ & Hne & Hs & _) & _ & _ & Ha). by split_and!. Qed.

(** An undelete within the window, with a driver that answers, brings the table
    back in step with the database. *)
Lemma keeps_UndeleteTable name w k t : (forall n, driver n = None) -> synced (w_srv w) (w_db w) ->
  s_tables (w_srv w) !! name = None -> latestTombstone (w_srv w) name = Some (k, t) ->
  clock (w_ticks w) - default 0 (t_deleteTime t) <= undeleteWindow ->
  (forall key, stored_at (w_db w) (mkSqlRows (t_parent t) (t_tableId t)) key = None) ->
  exists w', UndeleteTable (blob := blob) name w = (Ret tt, w') /\ synced (w_srv w') (w_db w') /\ s_tables (w_srv w') !! name = Some (restored t).
Proof.
  intros Hdrv Hs Hn Hl Hwin Hrows. destruct (latestTombstone_Some _ _ _ _ Hl) as [Hk Ename].
  pose proof Hs as (_ & H2 & _). destruct (H2 _ _ Hk) as (-> & Hok & Est). pose proof Hok as (_ & _ & Hin & Hni).
  assert (t_storageId t <> t_tableId t) as Hne by (intros E; by rewrite E in Hin).
  destruct (UndeleteTable_works Hdrv name w _ t Hn Hl Hk Hwin Hne Hrows) as (w' & E & _ & _ & Et & Ed & Edb).
  exists w'. split; [done|]. rewrite Et, Ename. split; [|apply lookup_insert_eq].
  eapply synced_ext; [| |eapply (synced_revive _ _ t (restored t)); [exact Hs|exact Hk| |by apply restored_ok|]].
  - by rewrite Et.
  - rewrite Ed. cbn. apply delete_insert_eq.
  - change (table_name (restored t)) with (table_name t). by rewrite Ename.
  - exact Edb.
Qed.
End handlers.

(** C4: A restart loses nothing: as long as memory and database agree on the tables,
    a server that loads the database has exactly the tables and the tombstones
    of the running one, with their times cut to microseconds.  [CreateTable],
    [UpdateTable], [ModifyColumnFamilies] and [DeleteTable] keep the two in agreement whatever
    the request and whatever statement of the driver fails (a deletion needs an
    unused tombstone id), and [UndeleteTable] does when the driver answers. *)
Theorem restart_consistent {blob : Type} `{!Gob blob} `{!Env} (w : world blob) :
  synced (w_srv w) (w_db w) -> (forall n, 1000 <= clock n) ->
  (forall s0, s_tables s0 = ∅ -> s_deletedTables s0 = ∅ ->
     s_tables (loadTables s0 (w_db w)) = reloaded <$> s_tables (w_srv w) /\
     s_deletedTables (loadTables s0 (w_db w)) = reloaded <$> s_deletedTables (w_srv w)) /\
  (forall proto_Size strict req, synced_after (CreateTable proto_Size strict req w)) /\
  (forall req, synced_after (UpdateTable req w)) /\
  (forall proto_Size req, synced_after (ModifyColumnFamilies proto_Size req w)) /\
  (forall fold_case name,
     (forall t, s_tables (w_srv w) !! name = Some t -> tables_t (w_db w) !! (t_parent t, tombstoneID t (clock (w_ticks w))) = None) ->
     synced_after (DeleteTable fold_case name w)) /\
  (forall name k t, (forall n, driver n = None) -> s_tables (w_srv w) !! name = None -> latestTombstone (w_srv w) name = Some (k, t) ->
     clock (w_ticks w) - default 0 (t_deleteTime t) <= undeleteWindow ->
     (forall key, stored_at (w_db w) (mkSqlRows (t_parent t) (t_tableId t)) key = None) ->
     exists w', UndeleteTable name w = (Ret tt, w') /\ synced (w_srv w') (w_db w') /\ s_tables (w_srv w') !! name = Some (restored t)).
Proof.
  intros Hs Hck. split_and!.
  - intros s0 E1 E2. by apply loadTables_synced.
  - intros proto_Size strict req. by apply keeps_CreateTable.
  - intros req. by apply keeps_UpdateTable.
  - intros proto_Size req. by apply keeps_ModifyColumnFamilies.
  - intros fold_case name Hfresh. by apply keeps_DeleteTable.
  - intros name k t Hdrv Hn Hl Hwin Hrows. by apply (keeps_UndeleteTable name w k t).
Qed.

(** A table created in an empty server, deleted and brought back; the server
    then restarts. *)
Module SampleRestart.
Definition tbl : table :=
  mkTable SampleWorld.parent [116] [116] 0 ∅ None false None None None MILLIS None [] 1000000000 None.
Definition world0 : world (gmap bytes family) :=
  mkWorld (set_tables_t (mkDatabase ∅ ∅ [] 0 ∅ ∅ ∅ ∅ ∅ no_metadata) {[ (SampleWorld.parent, [116]) := tbl ]})
    (mkServer ∅ ∅ ∅ {[ table_name tbl := tbl ]} ∅ ∅ 0) 0 0 0.
End SampleRestart.

Lemma restart_consistent_witness :
  s_tables (loadTables (mkServer ∅ ∅ ∅ ∅ ∅ ∅ 0) (w_db SampleRestart.world0)) = reloaded <$> s_tables (w_srv SampleRestart.world0) /\
  synced_after (DeleteTable (H := SampleWorld.failing) (fun c => c) (table_name SampleRestart.tbl) SampleRestart.world0).
Proof.
  destruct (restart_consistent (H := SampleWorld.failing) SampleRestart.world0) as (Hl & _ & _ & _ & Hd & _).
  - assert (live_ok SampleRestart.tbl) as Hok.
    { split_and!; try done; try (apply (bool_decide_unpack _); by vm_compute). }
    unfold synced, SampleRestart.world0. cbn [w_srv w_db s_tables s_deletedTables tables_t set_tables_t]. split_and!.
    + intros name t E. apply lookup_singleton_Some in E as [<- <-]. split; [done|]. split; [done|]. apply lookup_singleton_eq.
    + intros k t E. by rewrite lookup_empty in E.
    + intros key t E. apply lookup_singleton_Some in E as [<- <-]. split; [done|]. apply lookup_singleton_eq.
  - intros n. unfold clock. cbn. unfold SampleWorld.seconds. lia.
  - split; [apply Hl; reflexivity|]. apply Hd. intros t E. unfold SampleRestart.world0 in E. cbn [w_srv s_tables] in E.
    apply lookup_singleton_Some in E as [_ <-]. vm_compute. reflexivity.
Defined.
