(* ===== verification/Backups.v ===== *)
(** * Backups

    [localcloud_backups.go]: creating, copying, updating and deleting backups,
    restoring a table from one, and the purge of expired ones.  A backup is a
    descriptor in [backups_t], a manifest in [backup_manifests_t] and a copy of
    the rows in [rows_t] under the backup's name. *)

From S2P Require Import Prelude Proto Rows Gc Hll Mutations Filters Server Store Tokens Targets WritePath Chunks ReadPath TableAdmin TableOps Tombstones Metadata.
From stdpp Require Import base list gmap sorting.
From Stdlib Require Import ZArith Lia.

#[local] Open Scope Z_scope.

Definition hour : Z := 3600 * 1000000000.
Definition minBackupRetention : Z := 6 * hour.
Definition maxBackupRetention : Z := 90 * 24 * hour.
Definition maxBackupRetentionPlus : Z := 365 * 24 * hour.
Definition maxCopyBackupRetention : Z := 30 * 24 * hour.
Definition minCopySourceRemaining : Z := 24 * hour.
Definition minHotToStandardDelay : Z := 24 * hour.
Definition maxStandardBackupsPerTbl : Z := 150.
Definition maxHotBackupsPerTbl : Z := 10.
Definition backupSnapshotStorageID : bytes := str "__backup__".

Definition snapshotRows (name : bytes) : SqlRows := mkSqlRows name backupSnapshotStorageID.

Definition parentInstanceFromChild (name marker : bytes) : bytes :=
  match LastIndex name marker with None => name | Some idx => take idx name end.

Definition backupInfo (b : Backup) : BackupInfo :=
  mkBackupInfo (bk_Name b) (bk_StartTime b) (bk_EndTime b) (bk_SourceTable b) (bk_SourceBackup b).

Definition validateBackupTimes (created : Z) (b : Backup) (maxRetention : Z) : outcome unit :=
  match bk_ExpireTime b with
  | None => Err InvalidArgument
  | Some expire =>
      if (expire <? created + minBackupRetention) || (created + maxRetention <? expire) then Err InvalidArgument
      else match bk_Type b with
      | BACKUP_TYPE_UNSPECIFIED | STANDARD =>
          match bk_HotToStandardTime b with Some _ => Err InvalidArgument | None => Ret tt end
      | HOT =>
          match bk_HotToStandardTime b with
          | Some h => if h <? created + minHotToStandardDelay then Err InvalidArgument else Ret tt
          | None => Ret tt
          end
      | BACKUP_TYPE_OTHER _ => Err InvalidArgument
      end
  end.

Definition maxBackupRetentionLocked (s : server) (instance : bytes) : Z :=
  match s_instances s !! instance with
  | Some inst => match in_Edition inst with ENTERPRISE_PLUS => maxBackupRetentionPlus | _ => maxBackupRetention end
  | None => maxBackupRetention
  end.

(** [next] of UpdateBackup after one path of the mask. *)
Definition updatePath (b next : Backup) (path : bytes) : outcome Backup :=
  if bool_decide (path = str "expire_time") then
    Ret (mkBackup (bk_Name next) (bk_SourceTable next) (bk_SourceBackup next) (bk_ExpireTime b) (bk_StartTime next)
      (bk_EndTime next) (bk_SizeBytes next) (bk_State next) (bk_Type next) (bk_HotToStandardTime next))
  else if bool_decide (path = str "hot_to_standard_time") then
    Ret (mkBackup (bk_Name next) (bk_SourceTable next) (bk_SourceBackup next) (bk_ExpireTime next) (bk_StartTime next)
      (bk_EndTime next) (bk_SizeBytes next) (bk_State next) (bk_Type next) (bk_HotToStandardTime b))
  else Err InvalidArgument.

(** The table RestoreTable builds from a manifest. *)
Definition restoredTable (parent tableId : bytes) (manifest : tableRecord) (backup : Backup) (now : Z) : table :=
  let t := decodeMetadata (bareTable parent tableId tableId) manifest in
  let tableName := parent ++ str "/tables/" ++ tableId in
  mkTable (t_parent t) tableId tableId (t_counter t)
    (map_imap (fun id cf => Some (mkColumnFamily (tableName ++ str "/columnFamilies/" ++ id) (cf_Order cf) None (cf_ValueType cf)))
      (t_families t))
    None false None (t_rowKeySchema t) (t_tieredStorage t) (t_granularity t) (Some (backupInfo backup)) (t_initialSplits t)
    now None.

Record CreateBackupRequest : Type := mkCreateBackup { cb_Parent : bytes; cb_BackupId : bytes; cb_Backup : option Backup }.
Record CopyBackupRequest : Type := mkCopyBackup {
  cp_Parent : bytes; cp_BackupId : bytes; cp_SourceBackup : bytes; cp_ExpireTime : option Z }.
Record RestoreTableRequest : Type := mkRestoreTable { rt_Parent : bytes; rt_TableId : bytes; rt_Backup : bytes }.

Section backups.
Context {blob : Type} `{!Gob blob} `{!Env}.
Context (fold_case : Z -> Z) (strictAdmin : bool).

(** ** The store *)

Definition metaCall {A : Type} (f : metadata -> outcome A * metadata) : M blob A :=
  call (fun d => let '(r, md) := f (meta_t d) in (r, set_meta_t d md)).

Definition backups_get (name : bytes) : M blob (option Backup) := metaCall (fun md => (Ret (backups_t md !! name), md)).
Definition backups_put (name : bytes) (b : Backup) : M blob unit :=
  metaCall (fun md => (Ret tt, set_backups_t md (<[name := b]> (backups_t md)))).
Definition putManifest (name : bytes) (rec : tableRecord) : M blob unit :=
  metaCall (fun md => (Ret tt, set_backup_manifests_t md (<[name := rec]> (backup_manifests_t md)))).
(** No row is [sql.ErrNoRows], an error of code [Unknown]. *)
Definition manifest (name : bytes) : M blob tableRecord :=
  metaCall (fun md => (match backup_manifests_t md !! name with Some rec => Ret rec | None => Err Unknown end, md)).
Definition backups_purge (name : bytes) : M blob unit :=
  _ ← SqlRows_clear (snapshotRows name);
  _ ← metaCall (fun md => (Ret tt, set_backup_manifests_t md (delete name (backup_manifests_t md))));
  metaCall (fun md => (Ret tt, set_backups_t md (delete name (backups_t md)))).

(** ** Checks *)

Definition requireClusterLocked (s : server) (cluster : bytes) : outcome unit :=
  let instance := parentInstanceFromChild cluster (str "/clusters/") in
  match s_instances s !! instance with
  | None => if strictAdmin then Err NotFound else Ret tt
  | Some _ => match s_clusters s !! cluster with None => Err NotFound | Some _ => Ret tt end
  end.

Definition checkBackupQuotaLocked (cluster : bytes) (b : Backup) : M blob unit :=
  existing ← mapErr storageErr (listPrefix (fun d => backups_t (meta_t d)) (cluster ++ str "/backups/"));
  let '(standard, hot) := foldl (fun '(standard, hot) '(_, e) =>
    if negb (bool_decide (bk_SourceTable e = bk_SourceTable b)) then (standard, hot)
    else match bk_Type e with HOT => (standard, hot + 1) | _ => (standard + 1, hot) end) (0, 0) existing in
  match bk_Type b with
  | HOT => if maxHotBackupsPerTbl <=? hot then fail ResourceExhausted else mret tt
  | _ => if maxStandardBackupsPerTbl <=? standard then fail ResourceExhausted else mret tt
  end.

(** [liveBackup] and GetBackup. *)
Definition liveBackup (name : bytes) : M blob Backup :=
  o ← mapErr storageErr (backups_get name);
  match o with
  | None => fail NotFound
  | Some b =>
      match bk_ExpireTime b with
      | None => mret b
      | Some expire => now ← timeNow; if expire <? now then fail NotFound else mret b
      end
  end.

(** [if _, exists, err := get(name); ... AlreadyExists]. *)
Definition requireNoBackup (name : bytes) : M blob unit :=
  o ← mapErr storageErr (backups_get name);
  match o with Some _ => fail AlreadyExists | None => mret tt end.

(** ** CreateBackup *)

Definition createBackupTx (name : bytes) (src : table) (rec : tableRecord) (backup : Backup) (start : Z) : M blob Backup :=
  _ ← SqlRows_clear (snapshotRows name);
  _ ← SqlRows_copyTo (table_rows src) (snapshotRows name);
  size ← SqlRows_scan (snapshotRows name) (mkKeyRange [] []) false (fun n r => mret (wrap64 (n + Rows.size r), true)) 0;
  _ ← putManifest name rec;
  endTime ← timeNow;
  let backup := mkBackup name (bk_SourceTable backup) [] (bk_ExpireTime backup) start endTime size READY
    (bk_Type backup) (bk_HotToStandardTime backup) in
  _ ← backups_put name backup;
  mret backup.

Definition CreateBackup (req : CreateBackupRequest) : M blob Backup :=
  start ← timeNow;
  if Nat.eqb (length (cb_Parent req)) 0 || negb (tableIDPattern (cb_BackupId req)) then fail InvalidArgument
  else match cb_Backup req with
  | None => fail InvalidArgument
  | Some backup =>
      if Nat.eqb (length (bk_SourceTable backup)) 0 then fail InvalidArgument
      else
        let name := cb_Parent req ++ str "/backups/" ++ cb_BackupId req in
        let backup := match bk_Type backup with
          | BACKUP_TYPE_UNSPECIFIED => mkBackup (bk_Name backup) (bk_SourceTable backup) (bk_SourceBackup backup) (bk_ExpireTime backup)
              (bk_StartTime backup) (bk_EndTime backup) (bk_SizeBytes backup) (bk_State backup) STANDARD (bk_HotToStandardTime backup)
          | _ => backup
          end in
        s ← getServer;
        _ ← lift (requireClusterLocked s (cb_Parent req));
        if match s_clusters s !! cb_Parent req, bk_Type backup with
           | Some c, HOT => match cl_StorageType c with HDD => true | _ => false end
           | _, _ => false
           end then fail InvalidArgument
        else if negb (bool_decide (tableInstance (bk_SourceTable backup) = tableInstance (cb_Parent req))) then fail InvalidArgument
        else match s_tables s !! bk_SourceTable backup with
        | None => fail NotFound
        | Some src =>
            _ ← lift (validateBackupTimes start backup (maxBackupRetentionLocked s (tableInstance (cb_Parent req))));
            _ ← requireNoBackup name;
            _ ← checkBackupQuotaLocked (cb_Parent req) backup;
            backup ← mapErr (fun _ => Internal) (withTx (createBackupTx name src (encodeMetadata src) backup start));
            _ ← ops_complete name;
            mret backup
        end
  end.

(** ** UpdateBackup and DeleteBackup *)

Definition UpdateBackup (b : Backup) (paths : list bytes) : M blob Backup :=
  if Nat.eqb (length (bk_Name b)) 0 then fail InvalidArgument
  else if Nat.eqb (length paths) 0 then fail InvalidArgument
  else
    cur ← liveBackup (bk_Name b);
    next ← lift (foldM (updatePath b) cur paths);
    s ← getServer;
    let maxRetention := match bk_SourceBackup next with
      | [] => maxBackupRetentionLocked s (tableInstance (bk_Name next))
      | _ => maxCopyBackupRetention
      end in
    _ ← lift (validateBackupTimes (bk_StartTime cur) next maxRetention);
    _ ← mapErr storageErr (backups_put (bk_Name next) next);
    mret next.

Definition DeleteBackup (name : bytes) : M blob unit :=
  o ← mapErr storageErr (backups_get name);
  match o with
  | None => fail NotFound
  | Some _ => mapErr storageErr (withTx (_ ← backups_purge name; iam_deletePrefix fold_case name))
  end.

(** ** CopyBackup *)

Definition copyBackupTx (name : bytes) (source : Backup) (req : CopyBackupRequest) (start : Z) : M blob Backup :=
  rec ← manifest (cp_SourceBackup req);
  _ ← SqlRows_clear (snapshotRows name);
  _ ← SqlRows_copyTo (snapshotRows (cp_SourceBackup req)) (snapshotRows name);
  _ ← putManifest name rec;
  endTime ← timeNow;
  let copied := mkBackup name (bk_SourceTable source) (cp_SourceBackup req) (cp_ExpireTime req) start endTime
    (bk_SizeBytes source) READY STANDARD None in
  _ ← backups_put name copied;
  mret copied.

Definition CopyBackup (req : CopyBackupRequest) : M blob Backup :=
  start ← timeNow;
  if Nat.eqb (length (cp_Parent req)) 0 || negb (tableIDPattern (cp_BackupId req)) || Nat.eqb (length (cp_SourceBackup req)) 0
  then fail InvalidArgument
  else
    let name := cp_Parent req ++ str "/backups/" ++ cp_BackupId req in
    s ← getServer;
    _ ← lift (requireClusterLocked s (cp_Parent req));
    source ← liveBackup (cp_SourceBackup req);
    if negb (match bk_State source with READY => true | _ => false end) then fail FailedPrecondition
    else if negb (Nat.eqb (length (bk_SourceBackup source)) 0) then fail FailedPrecondition
    else if match bk_ExpireTime source with Some e => e <? start + minCopySourceRemaining | None => false end then fail FailedPrecondition
    else
      _ ← requireNoBackup name;
      match cp_ExpireTime req with
      | None => fail InvalidArgument
      | Some expire =>
          if (expire <? start + minBackupRetention) || (start + maxCopyBackupRetention <? expire) then fail InvalidArgument
          else
            copied ← mapErr (fun _ => Internal) (withTx (copyBackupTx name source req start));
            _ ← timeNow;
            _ ← ops_complete name;
            mret copied
      end.

(** ** RestoreTable *)

Definition restoreTx (req : RestoreTableRequest) (backup : Backup) : M blob table :=
  rec ← manifest (rt_Backup req);
  now ← timeNow;
  let restored := restoredTable (rt_Parent req) (rt_TableId req) rec backup now in
  _ ← SqlRows_clear (table_rows restored);
  _ ← SqlRows_copyTo (snapshotRows (rt_Backup req)) (table_rows restored);
  _ ← SqlTables_Save restored;
  mret restored.

Definition RestoreTable (req : RestoreTableRequest) : M blob table :=
  start ← timeNow;
  if Nat.eqb (length (rt_Parent req)) 0 || negb (tableIDPattern (rt_TableId req)) then fail InvalidArgument
  else if Nat.eqb (length (rt_Backup req)) 0 then fail InvalidArgument
  else
    _ ← localRequireInstance strictAdmin (rt_Parent req);
    let tableName := rt_Parent req ++ str "/tables/" ++ rt_TableId req in
    backup ← liveBackup (rt_Backup req);
    if negb (match bk_State backup with READY => true | _ => false end) then fail FailedPrecondition
    else
      s ← getServer;
      match s_tables s !! tableName with
      | Some _ => fail AlreadyExists
      | None =>
          restored ← mapErr (fun _ => Internal) (withTx (restoreTx req backup));
          s ← getServer;
          _ ← putServer (set_tables s (<[tableName := restored]> (s_tables s)));
          _ ← timeNow;
          _ ← ops_complete tableName;
          _ ← timeNow;
          _ ← ops_complete tableName;
          mret restored
      end.

(** ** Expiry *)

Definition purgeExpiredBackups : M blob unit :=
  all ← listPrefix (fun d => backups_t (meta_t d)) [];
  forM (fun _ '(_, b) =>
    match bk_ExpireTime b with
    | None => mret tt
    | Some expire => now ← timeNow; if now <? expire then mret tt else withTx (backups_purge (bk_Name b))
    end) tt all.

Definition backupsUnder (prefix : bytes) : M blob (list Backup) :=
  all ← listPrefix (fun d => backups_t (meta_t d)) prefix;
  live ← forM (fun live '(_, b) =>
    match bk_ExpireTime b with
    | None => mret (live ++ [b])
    | Some expire => now ← timeNow; mret (if now <? expire then live ++ [b] else live)
    end) [] all;
  mret live.
End backups.

(** ** What the statements do *)

Section effects.
Context {blob : Type} `{!Gob blob} `{!Env}.
Implicit Types (w : world blob) (d : database blob).

Lemma copy_fold (p i : bytes) (l : list (bytes * blob)) : NoDup l.*1 -> forall (m : gmap (bytes * bytes * bytes) blob) p' i' k,
  foldl (fun m '(k, b) => <[(p, i, k) := b]> m) m l !! (p', i', k) =
  if decide (p' = p /\ i' = i /\ k ∈ l.*1) then (list_to_map l : gmap bytes blob) !! k else m !! (p', i', k).
Proof.
  induction l as [|[k0 b0] l IH]; intros Hnd m p' i' k; cbn [foldl].
  { rewrite decide_False by set_solver. done. }
  cbn in Hnd. apply NoDup_cons in Hnd as [Hni Hnd]. rewrite (IH Hnd). cbn [fmap list_fmap fst list_to_map].
  destruct (decide (k = k0)) as [->|Hk].
  - rewrite decide_False by tauto. cbn. rewrite lookup_insert_eq. case_decide as Hd.
    + destruct Hd as (-> & -> & _). apply lookup_insert_eq.
    + apply lookup_insert_ne. intros [= -> ->]. apply Hd. split_and!; [done|done|left].
  - cbn. rewrite lookup_insert_ne by congruence. rewrite lookup_insert_ne by congruence.
    rewrite (decide_ext (p' = p /\ i' = i /\ k ∈ l.*1) (p' = p /\ i' = i /\ k ∈ k0 :: l.*1)); [done|]. set_solver.
Qed.

(** [dst] receives the rows of [src]. *)
Definition rows_copied d d' (src dst : SqlRows) : Prop :=
  forall t k, stored_at d' t k = if decide (t = dst) then stored_at d src k else stored_at d t k.

(** Clearing a table and copying another into it. *)
Lemma clear_copy_Ret src dst w w1 w2 :
  SqlRows_clear dst w = (Ret tt, w1) -> SqlRows_copyTo src dst w1 = (Ret tt, w2) ->
  (src <> dst -> rows_copied (w_db w) (w_db w2) src dst) /\ rows_only (w_db w) (w_db w2) /\ w_srv w2 = w_srv w /\ w_ticks w2 = w_ticks w.
Proof.
  unfold SqlRows_clear, SqlRows_copyTo. intros (d1 & [= <-] & ->)%call_Ret (d2 & E & ->)%call_Ret. cbn [w_db w_srv] in *.
  destruct (existsb _ _); [done|]. injection E as <-. split_and!; try done. intros Hne t k.
  pose proof (clear_stored dst (w_db w)) as Hc. pose proof (Hc t k) as Hk. unfold stored_at at 1 in Hk. cbn [rows_t set_rows_t] in Hk.
  unfold stored_at at 1. cbn [rows_t set_rows_t]. rewrite copy_fold by apply selectRows_keys_NoDup.
  rewrite selectRows_all, Hc, (decide_False (P := src = dst)), Hk by done. destruct (decide (t = dst)) as [->|Hn].
  - case_decide as Hd; [done|]. symmetry. apply eq_None_not_Some. intros Hs. apply Hd. split_and!; [done|done|].
    apply selectRows_all_keys. by rewrite Hc, decide_False.
  - rewrite decide_False; [done|]. intros (Ep & Ei & _). destruct t, dst. cbn in *. congruence.
Qed.

Lemma metaCall_Ret {A : Type} (f : metadata -> outcome A * metadata) a w w' :
  metaCall f w = (Ret a, w') -> exists md, f (meta_t (w_db w)) = (Ret a, md) /\
    w' = mkWorld (set_meta_t (w_db w) md) (w_srv w) (S (w_calls w)) (w_ticks w) (w_draws w).
Proof.
  intros (d & E & ->)%call_Ret. destruct (f _) as [r md]. injection E as -> <-. by exists md.
Qed.

(** [d'] differs from [d] in the rows, [meta_t] and operations only. *)
Definition purge_effect d d' (name : bytes) : Prop :=
  (forall t k, stored_at d' t k = if decide (t = snapshotRows name) then None else stored_at d t k) /\
  meta_t d' = set_backups_t (set_backup_manifests_t (meta_t d) (delete name (backup_manifests_t (meta_t d)))) (delete name (backups_t (meta_t d))) /\
  iam_policies_t d' = iam_policies_t d /\ tables_t d' = tables_t d.

Lemma backups_purge_Ret name w w' : backups_purge name w = (Ret tt, w') ->
  purge_effect (w_db w) (w_db w') name /\ w_srv w' = w_srv w.
Proof.
  unfold backups_purge. intros ([] & w1 & E1 & ([] & w2 & E2 & E3)%bind_Ret)%bind_Ret.
  unfold SqlRows_clear in E1. apply call_Ret in E1 as (d & [= <-] & ->).
  apply metaCall_Ret in E2 as (md & [= <-] & ->), E3 as (md' & [= <-] & ->). cbn. split; [|done]. split_and!; try done.
  intros t k. exact (clear_stored (snapshotRows name) (w_db w) t k).
Qed.

Lemma visit_sum (l : list row) : forall (n : Z) w m w', visitRows (fun n r => mret (wrap64 (n + Rows.size r), true)) n l w = (Ret m, w') -> w' = w.
Proof.
  induction l as [|r l IH]; intros n w m w'; cbn; [by intros [_ ->]%ret_Ret|].
  intros ([n' more] & w1 & [[= <- <-] ->]%ret_Ret & E)%bind_Ret. by apply IH in E.
Qed.
Lemma scan_sum t w m w' : SqlRows_scan t (mkKeyRange [] []) false (fun n r => mret (wrap64 (n + Rows.size r), true)) 0 w = (Ret m, w') ->
  w_db w' = w_db w /\ w_srv w' = w_srv w.
Proof.
  unfold SqlRows_scan, scanRows. cbn [kr_empty]. intros (l & w1 & (d & [= _ <-] & ->)%call_Ret & ->%visit_sum)%bind_Ret. done.
Qed.

(** A backup is stored with its rows and its manifest. *)
Definition backup_stored d d' (src : SqlRows) (rec : tableRecord) (b : Backup) : Prop :=
  (src <> snapshotRows (bk_Name b) -> rows_copied d d' src (snapshotRows (bk_Name b))) /\
  meta_t d' = set_backups_t (set_backup_manifests_t (meta_t d) (<[bk_Name b := rec]> (backup_manifests_t (meta_t d))))
    (<[bk_Name b := b]> (backups_t (meta_t d))) /\
  tables_t d' = tables_t d.

Lemma createBackupTx_Ret name src rec backup start w b w' :
  createBackupTx name src rec backup start w = (Ret b, w') ->
  backup_stored (w_db w) (w_db w') (table_rows src) rec b /\ w_srv w' = w_srv w /\
  exists endTime size, b = mkBackup name (bk_SourceTable backup) [] (bk_ExpireTime backup) start endTime size READY (bk_Type backup) (bk_HotToStandardTime backup).
Proof.
  unfold createBackupTx. intros ([] & w1 & E1 & ([] & w2 & E2 & (size & w3 & E3 & ([] & w4 & E4 & (et & w5 & E5 & ([] & w6 & E6 & [<- ->]%ret_Ret)%bind_Ret)%bind_Ret)%bind_Ret)%bind_Ret)%bind_Ret)%bind_Ret.
  destruct (clear_copy_Ret _ _ _ _ _ E1 E2) as (Hc & (Ht & _ & _ & _ & _ & _ & _ & _ & Hm) & Hs & _).
  apply scan_sum in E3 as [Hd3 Hs3]. apply metaCall_Ret in E4 as (md & [= <-] & ->). injection E5 as <- <-.
  apply metaCall_Ret in E6 as (md & [= <-] & ->). cbn. rewrite Hd3, Hs3, Hs. split_and!; [|done|by eexists _, _].
  split_and!; cbn; [|by rewrite Hm|done]. intros Hne t k. exact (Hc Hne t k).
Qed.

Lemma copyBackupTx_Ret name source req start w b w' :
  copyBackupTx name source req start w = (Ret b, w') ->
  exists rec endTime, backup_manifests_t (meta_t (w_db w)) !! cp_SourceBackup req = Some rec /\
    backup_stored (w_db w) (w_db w') (snapshotRows (cp_SourceBackup req)) rec b /\ w_srv w' = w_srv w /\
    b = mkBackup name (bk_SourceTable source) (cp_SourceBackup req) (cp_ExpireTime req) start endTime (bk_SizeBytes source) READY STANDARD None.
Proof.
  unfold copyBackupTx. intros (rec & w0 & E0 & ([] & w1 & E1 & ([] & w2 & E2 & ([] & w4 & E4 & (et & w5 & E5 & ([] & w6 & E6 & [<- ->]%ret_Ret)%bind_Ret)%bind_Ret)%bind_Ret)%bind_Ret)%bind_Ret)%bind_Ret.
  apply metaCall_Ret in E0 as (md0 & E0 & ->). case_match eqn:Em; [|done]. injection E0 as -> <-.
  destruct (clear_copy_Ret _ _ _ _ _ E1 E2) as (Hc & (Ht & _ & _ & _ & _ & _ & _ & _ & Hm) & Hs & _).
  apply metaCall_Ret in E4 as (md & [= <-] & ->). injection E5 as <- <-. apply metaCall_Ret in E6 as (md & [= <-] & ->). cbn in *.
  exists rec. eexists. split; [done|]. split; [|done]. split_and!; cbn; [|by rewrite Hm|done]. intros Hne t k. exact (Hc Hne t k).
Qed.

Lemma restoreTx_Ret req backup w t w' :
  restoreTx req backup w = (Ret t, w') ->
  exists rec, backup_manifests_t (meta_t (w_db w)) !! rt_Backup req = Some rec /\
    t = restoredTable (rt_Parent req) (rt_TableId req) rec backup (clock (w_ticks w)) /\
    (snapshotRows (rt_Backup req) <> table_rows t -> rows_copied (w_db w) (w_db w') (snapshotRows (rt_Backup req)) (table_rows t)) /\
    meta_t (w_db w') = meta_t (w_db w) /\ w_srv w' = w_srv w /\
    tables_t (w_db w') = <[(rt_Parent req, rt_TableId req) := t]> (tables_t (w_db w)).
Proof.
  unfold restoreTx. intros (rec & w0 & E0 & (now & w1 & [= <- <-] & ([] & w2 & E2 & ([] & w4 & E4 & ([] & w5 & E5 & [<- ->]%ret_Ret)%bind_Ret)%bind_Ret)%bind_Ret)%bind_Ret)%bind_Ret.
  apply metaCall_Ret in E0 as (md0 & E0 & ->). case_match eqn:Em; [|done]. injection E0 as -> <-. cbn [w_ticks] in *.
  destruct (clear_copy_Ret _ _ _ _ _ E2 E4) as (Hc & (Ht & _ & _ & _ & _ & _ & _ & _ & Hm) & Hs & _).
  unfold SqlTables_Save in E5. apply call_Ret in E5 as (d & [= <-] & ->). cbn in *. exists rec. rewrite Ht. split_and!; try done.
Qed.
End effects.

(** ** The invariant of the stored backups *)

Definition expiry_bound (b : Backup) : Z :=
  match bk_SourceBackup b with [] => maxBackupRetentionPlus | _ => maxCopyBackupRetention end.

(** A finished backup: its expiry lies between six hours and the longest
    retention after its start, and a time to turn standard is at least a day
    after the start and only on a hot one. *)
Definition backup_ok (b : Backup) : Prop :=
  bk_State b = READY /\
  (bk_Type b = STANDARD /\ bk_HotToStandardTime b = None \/
   bk_Type b = HOT /\ from_option (fun h => bk_StartTime b + minHotToStandardDelay <= h) True (bk_HotToStandardTime b)) /\
  exists e, bk_ExpireTime b = Some e /\ bk_StartTime b + minBackupRetention <= e <= bk_StartTime b + expiry_bound b.

Definition backups_ok (md : metadata) : Prop :=
  forall name b, backups_t md !! name = Some b ->
    bk_Name b = name /\ backup_ok b /\ is_Some (backup_manifests_t md !! name).

Lemma maxBackupRetentionLocked_le s i : maxBackupRetentionLocked s i <= maxBackupRetentionPlus.
Proof. unfold maxBackupRetentionLocked. repeat case_match; unfold maxBackupRetention, maxBackupRetentionPlus, hour; lia. Qed.

(** What [validateBackupTimes] accepts. *)
Lemma validateBackupTimes_ok b maxRetention : maxRetention <= expiry_bound b -> bk_State b = READY ->
  bk_Type b <> BACKUP_TYPE_UNSPECIFIED -> validateBackupTimes (bk_StartTime b) b maxRetention = Ret tt -> backup_ok b.
Proof.
  intros Hm Hs Ht. unfold validateBackupTimes, backup_ok. destruct (bk_ExpireTime b) as [e|]; [|done].
  destruct (_ || _) eqn:E; [done|]. apply orb_false_iff in E as [E1 E2]. apply Z.ltb_ge in E1, E2.
  intros E. split; [done|]. split; [|exists e; split; [done|lia]].
  destruct (bk_Type b); [done| |right|done]; [left; by destruct (bk_HotToStandardTime b)|]. split; [done|].
  destruct (bk_HotToStandardTime b) as [h|]; cbn; [|done]. destruct (h <? _) eqn:Eh; [done|]. by apply Z.ltb_ge in Eh.
Qed.

Lemma backups_ok_put md name rec b : backups_ok md -> bk_Name b = name -> backup_ok b ->
  backups_ok (set_backups_t (set_backup_manifests_t md (<[name := rec]> (backup_manifests_t md))) (<[name := b]> (backups_t md))).
Proof.
  intros H Hn Hb n b'. cbn. intros [[<- <-]|[Hne Hl]]%lookup_insert_Some.
  - split_and!; [done|done|]. rewrite lookup_insert_eq. done.
  - rewrite lookup_insert_ne by done. by apply H.
Qed.
Lemma backups_ok_delete md name : backups_ok md ->
  backups_ok (set_backups_t (set_backup_manifests_t md (delete name (backup_manifests_t md))) (delete name (backups_t md))).
Proof.
  intros H n b. cbn. intros [Hne Hl]%lookup_delete_Some. rewrite lookup_delete_ne by done. by apply H.
Qed.

Section invariant.
Context {blob : Type} `{!Gob blob} `{!Env}.
Implicit Types (w : world blob).

(** [m] keeps the invariant, whatever its outcome. *)
Definition kept {A : Type} (m : M blob A) : Prop :=
  forall w, backups_ok (meta_t (w_db w)) -> backups_ok (meta_t (w_db (m w).2)).

Lemma kept_readonly {A : Type} (m : M blob A) : readonly m -> kept m.
Proof. intros Hm w. by rewrite Hm. Qed.
Lemma kept_bind {A B : Type} (m : M blob A) (f : A -> M blob B) : kept m -> (forall a, kept (f a)) -> kept (m ≫= f).
Proof. intros Hm Hf w Hw. rewrite bind_run. specialize (Hm w Hw). destruct (m w) as [[a| |] w1]; [by apply Hf|done|done]. Qed.
(** The rest of a computation may rely on the result of a check. *)
Lemma kept_check {A B : Type} (m : M blob A) (f : A -> M blob B) (P : A -> Prop) : readonly m ->
  (forall a w w', backups_ok (meta_t (w_db w)) -> m w = (Ret a, w') -> P a) -> (forall a, P a -> kept (f a)) -> kept (m ≫= f).
Proof.
  intros Hm HP Hf w Hw. rewrite bind_run. pose proof (Hm w) as Hw1. destruct (m w) as [[a| |] w1] eqn:E; cbn [snd] in Hw1; [|cbn; by rewrite Hw1..].
  apply (Hf a); [by eapply HP|by rewrite Hw1].
Qed.
Lemma kept_lift {A B : Type} (r : outcome A) (f : A -> M blob B) : (forall a, r = Ret a -> kept (f a)) -> kept (lift r ≫= f).
Proof. intros Hf. apply (kept_check _ _ (fun a => r = Ret a)); [done| |done]. by intros a w w' _ [? _]%lift_Ret. Qed.
Lemma kept_mapErr {A : Type} f (m : M blob A) : kept m -> kept (mapErr f m).
Proof. intros Hm w Hw. specialize (Hm w Hw). unfold mapErr. by destruct (m w) as [[]]. Qed.
Lemma kept_fail {A : Type} c : kept (fail c : M blob A).
Proof. by intros w. Qed.
Lemma kept_withTx {A : Type} (m : M blob A) :
  (forall w a w', backups_ok (meta_t (w_db w)) -> m w = (Ret a, w') -> backups_ok (meta_t (w_db w'))) -> kept (withTx m).
Proof.
  intros Hm w Hw. pose proof (atomic_withTx m w) as Ha. destruct (withTx m w) as [[a| |] w'] eqn:E; cbn; [|by rewrite Ha..].
  apply withTx_Ret in E as (w0 & w1 & Hd0 & _ & E & Hd & _). rewrite Hd. eapply Hm; [|exact E]. by rewrite Hd0.
Qed.
Lemma kept_ops r : kept (ops_complete (blob := blob) r).
Proof.
  intros w Hw. unfold ops_complete. rewrite bind_run. cbn [getServer]. rewrite bind_run. cbn [putServer].
  unfold mapErr, call. cbn [w_calls set_srv]. by destruct (driver _).
Qed.
Lemma kept_forM {A B : Type} (f : B -> A -> M blob B) l : (forall b a, kept (f b a)) -> forall b, kept (forM f b l).
Proof. intros Hf. induction l as [|a l IH]; intros b; cbn; [by apply kept_readonly|]. by apply kept_bind. Qed.

Lemma readonly_metaCall {A : Type} (f : metadata -> outcome A * metadata) : (forall md, (f md).2 = md) -> readonly (blob := blob) (metaCall f).
Proof.
  intros Hf. apply readonly_call. intros d. specialize (Hf (meta_t d)). destruct (f (meta_t d)). cbn in *. subst. by destruct d.
Qed.
Lemma readonly_backups_get name : readonly (blob := blob) (backups_get name).
Proof. by apply readonly_metaCall. Qed.
Lemma readonly_requireNoBackup name : readonly (blob := blob) (requireNoBackup name).
Proof.
  unfold requireNoBackup. apply readonly_bind; [apply readonly_mapErr, readonly_backups_get|]. by intros [].
Qed.
Lemma readonly_liveBackup name : readonly (blob := blob) (liveBackup name).
Proof.
  unfold liveBackup. apply readonly_bind; [apply readonly_mapErr, readonly_backups_get|]. intros [b|]; [|done].
  case_match; [|done]. apply readonly_bind; [done|]. intros now. by case_match.
Qed.
Lemma readonly_quota c b : readonly (blob := blob) (checkBackupQuotaLocked c b).
Proof.
  unfold checkBackupQuotaLocked. apply readonly_bind; [by apply readonly_mapErr, readonly_call|]. intros l.
  destruct (foldl _ _ _). destruct (bk_Type b); by case_match.
Qed.

Lemma liveBackup_Ret name w b w' : liveBackup name w = (Ret b, w') -> backups_t (meta_t (w_db w)) !! name = Some b.
Proof.
  unfold liveBackup. intros (o & w1 & E1%mapErr_Ret & E2)%bind_Ret. apply metaCall_Ret in E1 as (md & [= <- <-] & ->).
  destruct (backups_t _ !! name) as [b'|]; [|done]. destruct (bk_ExpireTime b') as [e|]; [|by apply ret_Ret in E2 as [-> _]].
  apply bind_Ret in E2 as (now & w2 & _ & E2). case_match; [done|]. by apply ret_Ret in E2 as [-> _].
Qed.

(** A check that ends in an error. *)
Ltac kept_if := match goal with |- kept (if ?b then _ else _) => destruct b eqn:?; [apply kept_fail|] end.

Lemma kept_CreateBackup strict req : kept (CreateBackup (blob := blob) strict req).
Proof.
  unfold CreateBackup. apply kept_bind; [by apply kept_readonly|]. intros start. kept_if.
  destruct (cb_Backup req) as [b0|]; [|apply kept_fail]. kept_if. set (b := match bk_Type b0 with BACKUP_TYPE_UNSPECIFIED => _ | _ => _ end).
  assert (bk_Type b <> BACKUP_TYPE_UNSPECIFIED) as Ht by (unfold b; by destruct (bk_Type b0) eqn:E; rewrite ?E).
  apply kept_bind; [by apply kept_readonly|]. intros s. apply kept_lift. intros _ _. kept_if.
  kept_if. destruct (s_tables s !! _) as [src|]; [|apply kept_fail]. apply kept_lift. intros [] Hv.
  apply kept_bind; [by apply kept_readonly, readonly_requireNoBackup|]. intros _.
  apply kept_bind; [by apply kept_readonly, readonly_quota|]. intros _. apply kept_bind; [|intros b'; apply kept_bind; [apply kept_ops|by intros [] w]].
  apply kept_mapErr, kept_withTx. intros w b' w' Hw ((_ & -> & _) & _ & et & size & ->)%createBackupTx_Ret.
  apply backups_ok_put; [done|done|].
  apply (validateBackupTimes_ok _ (maxBackupRetentionLocked s (tableInstance (cb_Parent req)))); [|done|done|done].
  apply maxBackupRetentionLocked_le.
Qed.

Lemma kept_CopyBackup strict req : kept (CopyBackup (blob := blob) strict req).
Proof.
  unfold CopyBackup. apply kept_bind; [by apply kept_readonly|]. intros start. kept_if.
  apply kept_bind; [by apply kept_readonly|]. intros s. apply kept_lift. intros _ _.
  apply kept_bind; [by apply kept_readonly, readonly_liveBackup|]. intros source. do 3 kept_if.
  apply kept_bind; [by apply kept_readonly, readonly_requireNoBackup|]. intros _. destruct (cp_ExpireTime req) as [e|] eqn:Ee; [|apply kept_fail].
  destruct (_ <? start + minBackupRetention) eqn:E1; [apply kept_fail|]. destruct (_ <? e) eqn:E2; [apply kept_fail|]. cbn [orb]. apply Z.ltb_ge in E1, E2.
  apply kept_bind; [|intros b'; apply kept_bind; [by apply kept_readonly|]; intros _; apply kept_bind; [apply kept_ops|by intros [] w]].
  apply kept_mapErr, kept_withTx. intros w b' w' Hw (rec & et & _ & (_ & -> & _) & _ & ->)%copyBackupTx_Ret.
  apply backups_ok_put; [done|done|]. split; [done|]. split; [by left|]. exists e. split; [done|]. cbn. unfold expiry_bound.
  cbn [bk_SourceBackup]. destruct (cp_SourceBackup req); unfold maxBackupRetentionPlus, maxCopyBackupRetention, hour in *; lia.
Qed.

Lemma updatePath_frame b next path next' : updatePath b next path = Ret next' ->
  bk_Name next' = bk_Name next /\ bk_SourceBackup next' = bk_SourceBackup next /\ bk_StartTime next' = bk_StartTime next /\
  bk_State next' = bk_State next /\ bk_Type next' = bk_Type next.
Proof. unfold updatePath. repeat case_bool_decide; intros E; by simplify_eq. Qed.
Lemma updatePaths_frame b paths : forall next next', foldM (updatePath b) next paths = Ret next' ->
  bk_Name next' = bk_Name next /\ bk_SourceBackup next' = bk_SourceBackup next /\ bk_StartTime next' = bk_StartTime next /\
  bk_State next' = bk_State next /\ bk_Type next' = bk_Type next.
Proof.
  induction paths as [|p paths IH]; intros next next'; cbn; [by intros [= ->]|]. destruct (updatePath b next p) as [n1| |] eqn:E; cbn; [|done|done].
  intros (-> & -> & -> & -> & ->)%IH. by apply updatePath_frame in E.
Qed.

Lemma kept_UpdateBackup b paths : kept (UpdateBackup (blob := blob) b paths).
Proof.
  unfold UpdateBackup. kept_if. kept_if.
  intros w Hw. rewrite bind_run. pose proof (readonly_liveBackup (bk_Name b) w) as Hw1.
  destruct (liveBackup (bk_Name b) w) as [[cur| |] w1] eqn:El; cbn [snd] in Hw1; [|cbn; by rewrite Hw1..].
  apply liveBackup_Ret in El. destruct (Hw _ _ El) as (Hn & (Hst & Hty & _) & [rec Hrec]). rewrite <- Hw1 in Hw, Hrec. clear Hw1 El.
  revert w1 Hw Hrec. clear w. intros w Hw Hrec. rewrite bind_run. unfold lift at 1. destruct (foldM _ _ _) as [next| |] eqn:Ef; [|done|done].
  apply updatePaths_frame in Ef as (En & Es & Et & Est & Ety). rewrite bind_run. cbn [getServer]. rewrite bind_run. unfold lift at 1.
  destruct (validateBackupTimes _ _ _) as [[]| |] eqn:Ev; [|done|done]. rewrite bind_run. unfold mapErr, backups_put, metaCall, call.
  destruct (driver _); cbn; [done|]. intros n b'. cbn. intros [[<- <-]|[Hne Hl]]%lookup_insert_Some; [|by apply Hw].
  rewrite En, Hn. split_and!; [done| |done]. rewrite <- Et in Ev. eapply validateBackupTimes_ok; [|congruence| |exact Ev].
  - unfold expiry_bound. destruct (bk_SourceBackup next); [apply maxBackupRetentionLocked_le|done].
  - rewrite Ety. destruct Hty as [[-> _]|[-> _]]; done.
Qed.

Lemma backups_ok_purge name w w' : backups_ok (meta_t (w_db w)) -> backups_purge name w = (Ret tt, w') -> backups_ok (meta_t (w_db w')).
Proof. intros Hw [(_ & -> & _) _]%backups_purge_Ret. by apply backups_ok_delete. Qed.

Lemma kept_DeleteBackup fold_case name : kept (DeleteBackup (blob := blob) fold_case name).
Proof.
  unfold DeleteBackup. apply kept_bind; [by apply kept_readonly, readonly_mapErr, readonly_backups_get|]. intros [b|]; [|apply kept_fail].
  apply kept_mapErr, kept_withTx. intros w [] w' Hw ([] & w1 & E1 & E2)%bind_Ret. apply backups_ok_purge in E1; [|done].
  unfold iam_deletePrefix in E2. apply bind_Ret in E2 as ([] & w2 & (d & [= <-] & ->)%call_Ret & (d' & [= <-] & ->)%call_Ret). done.
Qed.

Lemma kept_purgeExpiredBackups : kept (purgeExpiredBackups (blob := blob)).
Proof.
  unfold purgeExpiredBackups. apply kept_bind; [by apply kept_readonly, readonly_call|]. intros l. apply kept_forM. intros [] [n b].
  case_match; [|by apply kept_readonly]. apply kept_bind; [by apply kept_readonly|]. intros now. case_match; [by apply kept_readonly|].
  apply kept_withTx. intros w [] w'. apply backups_ok_purge.
Qed.

Lemma kept_RestoreTable strict req : kept (RestoreTable (blob := blob) strict req).
Proof.
  unfold RestoreTable. apply kept_bind; [by apply kept_readonly|]. intros start. do 2 kept_if.
  apply kept_bind. { unfold localRequireInstance. case_match; [by apply kept_readonly|]. apply kept_bind; [by apply kept_readonly|]. intros s. by case_match; apply kept_readonly. }
  intros _. apply kept_bind; [by apply kept_readonly, readonly_liveBackup|]. intros backup. kept_if.
  apply kept_bind; [by apply kept_readonly|]. intros s. destruct (s_tables s !! _); [apply kept_fail|].
  apply kept_bind; [|intros t; repeat (apply kept_bind; [first [by apply kept_readonly|by apply kept_ops]|]; intros ?); by apply kept_readonly].
  apply kept_mapErr, kept_withTx. by intros w t w' Hw (rec & _ & _ & _ & -> & _)%restoreTx_Ret.
Qed.
End invariant.

(** ** From a backup to a restored table *)

Section roundtrip.
Context {blob : Type} `{!Gob blob} `{!Env}.
Implicit Types (w : world blob) (d : database blob).

Lemma ops_complete_Ret r w w' : ops_complete (blob := blob) r w = (Ret tt, w') ->
  rows_t (w_db w') = rows_t (w_db w) /\ tables_t (w_db w') = tables_t (w_db w) /\ meta_t (w_db w') = meta_t (w_db w) /\
  w_srv w' = set_opSeq (w_srv w) (s_opSeq (w_srv w) + 1) /\ w_ticks w' = w_ticks w.
Proof.
  unfold ops_complete. intros (s & w1 & [= <- <-] & ([] & w2 & [= <-] & (d & [= <-] & ->)%mapErr_Ret%call_Ret)%bind_Ret)%bind_Ret. done.
Qed.

Lemma CreateBackup_Ret strict req w b w1 : CreateBackup (blob := blob) strict req w = (Ret b, w1) ->
  exists src e, s_tables (w_srv w) !! bk_SourceTable b = Some src /\
    backup_stored (w_db w) (w_db w1) (table_rows src) (encodeMetadata src) b /\
    w_srv w1 = set_opSeq (w_srv w) (s_opSeq (w_srv w) + 1) /\ bk_State b = READY /\ bk_ExpireTime b = Some e /\ bk_Name b <> [].
Proof.
  unfold CreateBackup. intros (start & w2 & [= <- <-] & E)%bind_Ret. destruct (_ || _); [done|].
  destruct (cb_Backup req) as [b0|]; [|done]. destruct (Nat.eqb _ _); [done|]. revert E. set (b1 := match bk_Type b0 with BACKUP_TYPE_UNSPECIFIED => _ | _ => _ end).
  clearbody b1. intros (s & w3 & [= <- <-] & ([] & w4 & [_ ->]%lift_Ret & E)%bind_Ret)%bind_Ret.
  match type of E with (if ?c then _ else _) _ = _ => destruct c; [done|] end.
  match type of E with (if ?c then _ else _) _ = _ => destruct c; [done|] end. cbn [w_srv] in E.
  destruct (s_tables (w_srv w) !! bk_SourceTable b1) as [src|] eqn:Es; [|done].
  apply bind_Ret in E as ([] & w5 & [Hv ->]%lift_Ret & E).
  apply bind_Ret in E as ([] & w6 & E6 & E). apply bind_Ret in E as ([] & w7 & E7 & E). apply bind_Ret in E as (b' & w8 & E8%mapErr_Ret & E).
  apply bind_Ret in E as ([] & w9 & E9 & [-> ->]%ret_Ret).
  assert (w_db w6 = w_db w /\ w_srv w6 = w_srv w) as [Hd6 Hs6].
  { split; [pose proof (readonly_requireNoBackup (cb_Parent req ++ str "/backups/" ++ cb_BackupId req) (mkWorld (w_db w) (w_srv w) (w_calls w) (S (w_ticks w)) (w_draws w))) as Hr; rewrite E6 in Hr; exact Hr|].
    unfold requireNoBackup in E6. apply bind_Ret in E6 as (o & wa & Ea%mapErr_Ret & E6). apply metaCall_Ret in Ea as (md & [= <- <-] & ->).
    case_match; [done|]. by apply ret_Ret in E6 as [_ ->]. }
  assert (w_db w7 = w_db w6 /\ w_srv w7 = w_srv w6) as [Hd7 Hs7].
  { split; [pose proof (readonly_quota (cb_Parent req) b1 w6) as Hr; rewrite E7 in Hr; exact Hr|].
    unfold checkBackupQuotaLocked in E7. apply bind_Ret in E7 as (o & wa & (d & [= _ <-] & ->)%mapErr_Ret%call_Ret & E7).
    destruct (foldl _ _ _). destruct (bk_Type b1); case_match; try done; by apply ret_Ret in E7 as [_ ->]. }
  apply withTx_Ret in E8 as (wa & wb & Hda & Hsa & E8 & Hdb & Hsb).
  apply createBackupTx_Ret in E8 as ((Hc & Hm & Ht) & Hs8 & et & size & ->).
  apply ops_complete_Ret in E9 as (Hr9 & Ht9 & Hm9 & Hs9 & _).
  assert (exists e, bk_ExpireTime b1 = Some e) as [e He] by (unfold validateBackupTimes in Hv; destruct (bk_ExpireTime b1); [by eexists|done]).
  exists src, e. split; [done|]. split; [|split_and!; [|done|done|by intros [_ ?]%app_eq_nil]].
  - rewrite <- Hd6, <- Hd7, <- Hda. split_and!.
    + intros Hne t k. rewrite <- (Hc Hne t k). unfold stored_at. by rewrite Hr9, Hdb.
    + by rewrite Hm9, Hdb.
    + by rewrite Ht9, Hdb.
  - rewrite Hs9, Hsb, Hs8, Hsa, Hs7, Hs6. done.
Qed.

(** The part of the database that belongs to a backup. *)
Definition same_backup d d' (name : bytes) : Prop :=
  backups_t (meta_t d') !! name = backups_t (meta_t d) !! name /\
  backup_manifests_t (meta_t d') !! name = backup_manifests_t (meta_t d) !! name /\
  (forall k, stored_at d' (snapshotRows name) k = stored_at d (snapshotRows name) k).

Lemma same_backup_delete d p i k name : mkSqlRows p i <> snapshotRows name ->
  same_backup d (set_rows_t d (delete (p, i, k) (rows_t d))) name.
Proof. intros Hne. split_and!; [done|done|]. intros k'. apply lookup_delete_ne. intros [= -> -> _]. by apply Hne. Qed.

Lemma clear_empties t w w' k : SqlRows_clear t w = (Ret tt, w') -> stored_at (w_db w') t k = None.
Proof. unfold SqlRows_clear. intros (d & [= <-] & ->)%call_Ret. cbn [w_db]. rewrite clear_stored. by rewrite decide_True. Qed.
Lemma run_clear (Hdrv : forall n, driver n = None) t w : exists w', SqlRows_clear t w = (Ret tt, w') /\ w_ticks w' = w_ticks w.
Proof. unfold SqlRows_clear. erewrite run_call by done. by eexists. Qed.
Lemma run_copyTo (Hdrv : forall n, driver n = None) src dst w : (forall k, stored_at (w_db w) dst k = None) ->
  exists w', SqlRows_copyTo src dst w = (Ret tt, w') /\ w_ticks w' = w_ticks w.
Proof.
  intros Hn. unfold SqlRows_copyTo, call. rewrite Hdrv. destruct (existsb _ _) eqn:Ex; [|by eexists].
  apply existsb_exists in Ex as ([k b] & _ & Hb). apply bool_decide_eq_true in Hb. specialize (Hn k). unfold stored_at in Hn.
  rewrite Hn in Hb. by destruct Hb.
Qed.

(** The transaction of RestoreTable succeeds. *)
Lemma run_restoreTx (Hdrv : forall n, driver n = None) req backup rec w :
  backup_manifests_t (meta_t (w_db w)) !! rt_Backup req = Some rec ->
  exists w', withTx (restoreTx req backup) w = (Ret (restoredTable (rt_Parent req) (rt_TableId req) rec backup (clock (w_ticks w))), w').
Proof.
  intros Hrec. unfold withTx. erewrite run_call by done. unfold restoreTx. rewrite bind_run. unfold manifest, metaCall.
  unfold call at 1. rewrite Hdrv. cbn [w_db w_srv w_calls w_ticks w_draws]. rewrite Hrec. cbn [set_db w_db w_srv w_calls w_ticks w_draws].
  rewrite bind_run. unfold timeNow. cbn [w_db w_srv w_calls w_ticks w_draws]. set (t := restoredTable _ _ _ _ _). set (w1 := mkWorld _ _ _ _ _).
  destruct (run_clear Hdrv (table_rows t) w1) as (w2 & E2 & _). rewrite bind_run, E2.
  destruct (run_copyTo Hdrv (snapshotRows (rt_Backup req)) (table_rows t) w2) as (w3 & E3 & _).
  { intros k. by apply (clear_empties _ w1). }
  rewrite bind_run, E3, bind_run. unfold SqlTables_Save. erewrite run_call by done. cbn [mret M_ret]. erewrite run_call by done. by eexists.
Qed.

End roundtrip.

(** The schema a restored table takes over: everything but the garbage
    collection, backup policy, change stream and protection of the source. *)
Definition restored_from (src t : table) (b : Backup) : Prop :=
  t_families t = map_imap (fun id cf => Some (mkColumnFamily (table_name t ++ str "/columnFamilies/" ++ id) (cf_Order cf) None (cf_ValueType cf)))
    (t_families src) /\
  t_counter t = t_counter src /\ t_rowKeySchema t = t_rowKeySchema src /\ t_tieredStorage t = t_tieredStorage src /\
  t_granularity t = t_granularity src /\ t_initialSplits t = t_initialSplits src /\
  t_backupPolicy t = None /\ t_deletionProtection t = false /\ t_changeStream t = None /\ t_deleteTime t = None /\
  t_restoreInfo t = Some (backupInfo b).

Lemma restoredTable_from src parent id b now : t_granularity src <> TIMESTAMP_GRANULARITY_UNSPECIFIED ->
  restored_from src (restoredTable parent id (encodeMetadata src) b now) b.
Proof.
  intros Hg. unfold restored_from, restoredTable. cbn [decodeMetadata bareTable t_families t_counter t_rowKeySchema t_tieredStorage t_granularity
    t_initialSplits t_backupPolicy t_deletionProtection t_changeStream t_deleteTime t_restoreInfo t_parent t_tableId encodeMetadata tr_Granularity
    tr_Counter tr_RowKeySchema tr_TieredStorage tr_InitialSplits]. split_and!; try done; [|by destruct (t_granularity src)].
  unfold table_name. cbn [t_parent t_tableId].
  apply map_eq. intros i. rewrite !map_lookup_imap. unfold decodeFamilies, encodeMetadata. rewrite map_lookup_imap. cbn [tr_ColumnFamilies tr_FamilyOrder].
  rewrite !lookup_fmap. by destruct (t_families src !! i).
Qed.

(** C5: Restoring a backup gives back the table as it was when the backup was
    made.  Whatever happened since to anything but the backup itself, a restore
    with a working driver before the backup expires creates a table with exactly
    the rows the source had and the source's schema, without its policies, and
    leaves the rows of all other tables alone.  (A table stored under the
    reserved id of the backup's own snapshot is excluded.) *)
Theorem backup_restore_roundtrip {blob : Type} `{!Gob blob} `{!Env} strict creq rreq (w w1 w2 : world blob) b src :
  (forall n, driver n = None) ->
  CreateBackup strict creq w = (Ret b, w1) -> s_tables (w_srv w) !! bk_SourceTable b = Some src ->
  t_granularity src <> TIMESTAMP_GRANULARITY_UNSPECIFIED -> table_rows src <> snapshotRows (bk_Name b) ->
  same_backup (w_db w1) (w_db w2) (bk_Name b) ->
  rt_Backup rreq = bk_Name b -> rt_Parent rreq <> [] -> tableIDPattern (rt_TableId rreq) = true ->
  mkSqlRows (rt_Parent rreq) (rt_TableId rreq) <> snapshotRows (bk_Name b) ->
  (strict = true -> is_Some (s_instances (w_srv w2) !! rt_Parent rreq)) ->
  s_tables (w_srv w2) !! (rt_Parent rreq ++ str "/tables/" ++ rt_TableId rreq) = None ->
  (forall n, from_option (fun e => clock n <= e) True (bk_ExpireTime b)) ->
  exists t w3, RestoreTable strict rreq w2 = (Ret t, w3) /\
    s_tables (w_srv w3) = <[table_name t := t]> (s_tables (w_srv w2)) /\
    tables_t (w_db w3) = <[(rt_Parent rreq, rt_TableId rreq) := t]> (tables_t (w_db w2)) /\
    (forall k, stored_at (w_db w3) (table_rows t) k = stored_at (w_db w) (table_rows src) k) /\
    (forall t' k, t' <> table_rows t -> stored_at (w_db w3) t' k = stored_at (w_db w2) t' k) /\
    restored_from src t b.
Proof.
  intros Hdrv Ec Hsrc Hg Hne (Hb & Hm & Hr) Ebk Hp Hid Hne2 Hinst Hnt Hexp.
  destruct (CreateBackup_Ret _ _ _ _ _ Ec) as (src' & e & Hsrc' & (Hc & Hmeta & _) & _ & Hst & He & Hnm). simplify_eq.
  rewrite Hmeta in Hb, Hm. cbn [backups_t backup_manifests_t set_backups_t set_backup_manifests_t] in Hb, Hm. rewrite lookup_insert_eq in Hb. rewrite lookup_insert_eq in Hm. rewrite <- Ebk in *.
  unfold RestoreTable. rewrite bind_run. cbn [timeNow]. rewrite (proj2 (Nat.eqb_neq _ _)) by (by destruct (rt_Parent rreq)). rewrite Hid. cbn [negb orb].
  rewrite (proj2 (Nat.eqb_neq _ _)) by (by destruct (rt_Backup rreq)). rewrite bind_run. cbn [w_db w_srv w_calls w_ticks w_draws].
  set (wa := mkWorld (w_db w2) _ _ _ _). assert (localRequireInstance strict (rt_Parent rreq) wa = (Ret tt, wa)) as ->.
  { unfold localRequireInstance. destruct strict; cbn [negb]; [|done]. rewrite bind_run. cbn [getServer wa w_srv]. rewrite bool_decide_eq_true_2 by auto. done. }
  rewrite bind_run. unfold liveBackup at 1. rewrite bind_run. unfold mapErr at 1, backups_get, metaCall, call. rewrite Hdrv. cbn [wa w_db]. rewrite Hb. cbn [set_db].
  rewrite He, bind_run. cbn [timeNow w_ticks]. specialize (Hexp (S (w_ticks w2))) as Hx. rewrite He in Hx. cbn in Hx.
  rewrite (proj2 (Z.ltb_ge _ _)) by done. cbn [mret M_ret]. rewrite Hst. cbn [negb]. rewrite bind_run. cbn [getServer wa set_db w_srv]. rewrite Hnt, bind_run. unfold mapErr at 1.
  match goal with |- context [withTx (restoreTx rreq b) ?w0] => set (wb := w0) end.
  assert (backup_manifests_t (meta_t (w_db wb)) !! rt_Backup rreq = Some (encodeMetadata src)) as Hrec by exact Hm.
  destruct (run_restoreTx Hdrv rreq b _ wb Hrec) as (wc & Ex). rewrite Ex. set (t := restoredTable _ _ _ _ _) in *.
  apply withTx_Ret in Ex as (wd & we & Hdd & Hsd & Ex & Hdc & Hsc).
  apply restoreTx_Ret in Ex as (rec & Erec & Et & Hcopy & _ & Hse & Htt).
  rewrite bind_run. cbn [getServer]. rewrite bind_run. cbn [putServer].
  rewrite bind_run. cbn [timeNow]. rewrite bind_run.
  unfold ops_complete at 1. repeat (rewrite bind_run; cbn [getServer putServer]). unfold mapErr at 1, call at 1. rewrite Hdrv.
  rewrite bind_run. cbn [timeNow]. rewrite bind_run. unfold ops_complete at 1. repeat (rewrite bind_run; cbn [getServer putServer]).
  unfold mapErr at 1, call at 1. rewrite Hdrv. cbn [mret M_ret].
  eexists _, _. split; [reflexivity|]. cbn [w_srv w_db set_srv set_db set_opSeq set_tables s_tables tables_t set_operations_t rows_t].
  assert (w_srv wc = w_srv w2) as -> by (by rewrite Hsc, Hse, Hsd).
  assert (forall t' k, stored_at (w_db wc) t' k = if decide (t' = table_rows t) then stored_at (w_db w2) (snapshotRows (rt_Backup rreq)) k else stored_at (w_db w2) t' k) as Hrows.
  { intros t' k. rewrite Hdc. change (table_rows t) with (mkSqlRows (rt_Parent rreq) (rt_TableId rreq)). rewrite Et in Hcopy.
    rewrite (Hcopy (not_eq_sym Hne2) t' k), Hdd. done. }
  split_and!; [done| | | |by apply restoredTable_from].
  - by rewrite Hdc, Htt, Hdd.
  - intros k. change (stored_at (w_db wc) (table_rows t) k = stored_at (w_db w) (table_rows src) k). rewrite Hrows, decide_True by done.
    rewrite Hr, (Hc Hne), decide_True by done. done.
  - intros t' k Hn. change (stored_at (w_db wc) t' k = stored_at (w_db w2) t' k). rewrite Hrows, decide_False by done. done.
Qed.

(** A backup, a restore to another table after the row was lost. *)
Module SampleBackup.
Definition cluster : bytes := SampleWorld.parent ++ str "/clusters/c".
Definition creq : CreateBackupRequest :=
  mkCreateBackup cluster [98] (Some (mkBackup [] (table_name SampleWorld.tbl) [] (Some (9 * hour)) 0 0 0 BACKUP_STATE_UNSPECIFIED BACKUP_TYPE_UNSPECIFIED None)).
Definition stopped : Env := mkEnv (fun _ => None) (fun _ => hour) (fun _ => F_Fin 1 2).
Definition created := CreateBackup (H := stopped) false creq SampleWorld.world0.
Definition lost : world (gmap bytes family) :=
  set_db created.2 (set_rows_t (w_db created.2) (delete (SampleWorld.parent, [116], [107]) (rows_t (w_db created.2)))).
Definition backup : Backup :=
  mkBackup (cluster ++ str "/backups/b") (table_name SampleWorld.tbl) [] (Some (9 * hour)) hour hour (Rows.size Sample.row1) READY STANDARD None.
Definition rreq : RestoreTableRequest := mkRestoreTable SampleWorld.parent [117] (bk_Name backup).
Lemma created_Ret : CreateBackup (H := stopped) false creq SampleWorld.world0 = (Ret backup, created.2).
Proof. refine (run_Ret created _ _). vm_compute. reflexivity. Qed.
End SampleBackup.

Lemma backup_restore_roundtrip_witness :
  stored_at (w_db SampleBackup.lost) (table_rows SampleWorld.tbl) [107] = None /\
  exists t w3, RestoreTable (H := SampleBackup.stopped) false SampleBackup.rreq SampleBackup.lost = (Ret t, w3) /\
    stored_at (w_db w3) (table_rows t) [107] = Some (families Sample.row1).
Proof.
  split; [apply lookup_delete_eq|].
  destruct (backup_restore_roundtrip (H := SampleBackup.stopped) false SampleBackup.creq SampleBackup.rreq SampleWorld.world0
    SampleBackup.created.2 SampleBackup.lost SampleBackup.backup SampleWorld.tbl) as (t & w3 & E & _ & _ & Hr & _).
  - done.
  - exact SampleBackup.created_Ret.
  - vm_compute. reflexivity.
  - done.
  - intros [=].
  - apply (same_backup_delete (w_db SampleBackup.created.2)). intros [=].
  - done.
  - done.
  - vm_compute. reflexivity.
  - intros [=].
  - intros [=].
  - vm_compute. reflexivity.
  - intros n. vm_compute. discriminate.
  - exists t, w3. split; [exact E|]. rewrite Hr. vm_compute. reflexivity.
Defined.

(** C40: The backup operations keep the invariant of the stored backups, whatever
    the request, whatever fails and whatever they return: a stored backup is
    ready, has its manifest, expires between six hours and the longest
    retention after its start (thirty days for a copy), and carries a time to
    turn standard only when it is hot. *)
Theorem backups_invariant {blob : Type} `{!Gob blob} `{!Env} (fold_case : Z -> Z) (strict : bool) :
  (forall req, kept (blob := blob) (CreateBackup strict req)) /\ (forall req, kept (blob := blob) (CopyBackup strict req)) /\
  (forall b paths, kept (blob := blob) (UpdateBackup b paths)) /\ (forall name, kept (blob := blob) (DeleteBackup fold_case name)) /\
  (forall req, kept (blob := blob) (RestoreTable strict req)) /\ kept (blob := blob) purgeExpiredBackups.
Proof.
  split_and!; [apply kept_CreateBackup|apply kept_CopyBackup|apply kept_UpdateBackup|apply kept_DeleteBackup|apply kept_RestoreTable|apply kept_purgeExpiredBackups].
Qed.

(** ** The purge of expired backups *)

Section purge.
Context {blob : Type} `{!Gob blob} `{!Env}.
Implicit Types (w : world blob) (d : database blob).

Definition gone d (name : bytes) : Prop :=
  backups_t (meta_t d) !! name = None /\ backup_manifests_t (meta_t d) !! name = None /\ forall k, stored_at d (snapshotRows name) k = None.

Lemma same_backup_refl d name : same_backup d d name.
Proof. done. Qed.
Lemma same_backup_trans d1 d2 d3 name : same_backup d1 d2 name -> same_backup d2 d3 name -> same_backup d1 d3 name.
Proof. intros (A1 & A2 & A3) (B1 & B2 & B3). split_and!; [by etrans|by etrans|]. intros k. by rewrite B3. Qed.
Lemma gone_same d d' name : gone d name -> same_backup d d' name -> gone d' name.
Proof. intros (A1 & A2 & A3) (B1 & B2 & B3). split_and!; [by rewrite B1|by rewrite B2|]. intros k. by rewrite B3. Qed.

Lemma purge_gone d d' name : purge_effect d d' name -> gone d' name.
Proof. intros (Hr & Hm & _). unfold gone. rewrite Hm. cbn. rewrite !lookup_delete_eq. split_and!; [done|done|]. intros k. by rewrite Hr, decide_True. Qed.
Lemma purge_other d d' n name : purge_effect d d' n -> name <> n -> same_backup d d' name.
Proof.
  intros (Hr & Hm & _) Hne. unfold same_backup. rewrite Hm. cbn. rewrite !lookup_delete_ne by done. split_and!; [done|done|].
  intros k. rewrite Hr, decide_False; [done|]. by intros [= ?].
Qed.

Definition purgeOne (b : Backup) : M blob unit :=
  match bk_ExpireTime b with
  | None => mret tt
  | Some expire => now ← timeNow; if now <? expire then mret tt else withTx (backups_purge (bk_Name b))
  end.

Lemma purgeOne_Ret b w w' : purgeOne b w = (Ret tt, w') ->
  w_srv w' = w_srv w /\
  (w_db w' = w_db w /\ from_option (fun e => exists n, clock n < e) True (bk_ExpireTime b) \/
   purge_effect (w_db w) (w_db w') (bk_Name b) /\ exists e n, bk_ExpireTime b = Some e /\ e <= clock n).
Proof.
  unfold purgeOne. destruct (bk_ExpireTime b) as [e|]; [|intros [_ ->]%ret_Ret; split; [done|by left]].
  intros (now & w1 & [= <- <-] & E)%bind_Ret. destruct (_ <? _) eqn:El.
  - apply ret_Ret in E as [_ ->]. split; [done|]. left. split; [done|]. cbn. apply Z.ltb_lt in El. by eexists.
  - apply withTx_Ret in E as (wa & wb & Hda & Hsa & (Hp & Hs)%backups_purge_Ret & Hdb & Hsb). rewrite Hda in Hp. cbn [w_db w_srv] in *.
    split; [congruence|]. right. rewrite Hdb. split; [done|]. apply Z.ltb_ge in El. eauto.
Qed.

(** What is left of each backup after the loop. *)
Lemma purge_loop (l : list (bytes * Backup)) : forall w w',
  (forall n b, (n, b) ∈ l -> bk_Name b = n) -> NoDup l.*1 -> forM (fun _ '(_, b) => purgeOne b) tt l w = (Ret tt, w') ->
  iam_policies_t (w_db w') = iam_policies_t (w_db w) /\ tables_t (w_db w') = tables_t (w_db w) /\ w_srv w' = w_srv w /\
  (forall t k, (forall n, n ∈ l.*1 -> t <> snapshotRows n) -> stored_at (w_db w') t k = stored_at (w_db w) t k) /\
  (forall name, name ∉ l.*1 -> same_backup (w_db w) (w_db w') name) /\
  (forall name b, (name, b) ∈ l ->
     same_backup (w_db w) (w_db w') name /\ from_option (fun e => exists n, clock n < e) True (bk_ExpireTime b) \/
     gone (w_db w') name /\ exists e n, bk_ExpireTime b = Some e /\ e <= clock n).
Proof.
  induction l as [|[n b] l IH]; intros w w' Hn Hnd E; cbn in E.
  { apply ret_Ret in E as [_ ->]. split_and!; try done. by intros name b ?%elem_of_nil. }
  cbn in Hnd. apply NoDup_cons in Hnd as [Hni Hnd]. apply bind_Ret in E as ([] & w1 & E1 & E2).
  apply purgeOne_Ret in E1 as [Hs1 E1]. rewrite (Hn n b) in E1 by left.
  destruct (IH w1 w') as (Hi & Ht & Hs & Hr & Hsame & Hin); [intros n' b' Hl; apply Hn; by right|done|done|].
  assert (iam_policies_t (w_db w1) = iam_policies_t (w_db w) /\ tables_t (w_db w1) = tables_t (w_db w)) as [Hi1 Ht1].
  { destruct E1 as [[-> _]|[(_ & _ & ? & ?) _]]; done. }
  assert (forall name, name <> n -> same_backup (w_db w) (w_db w1) name) as Hother.
  { intros name Hne. destruct E1 as [[-> _]|[Hp _]]; [done|by eapply purge_other]. }
  split_and!; [congruence|congruence|congruence| | |].
  - intros t k Hk. rewrite Hr by (intros m Hm; apply Hk; by right). destruct E1 as [[-> _]|[(Hp & _) _]]; [done|].
    rewrite Hp, decide_False; [done|]. apply Hk. left.
  - intros name [Hne Hnl]%not_elem_of_cons. eapply same_backup_trans; [by apply Hother|by apply Hsame].
  - intros name b' [[= -> ->]|Hl]%elem_of_cons.
    + destruct E1 as [[Hw Hx]|[Hp Hx]].
      * left. rewrite <- Hw. split; [by apply Hsame|done].
      * right. split; [|done]. eapply gone_same; [by eapply purge_gone|by apply Hsame].
    + assert (name <> n) as Hne by (intros ->; apply Hni, list_elem_of_fmap; by exists (n, b')).
      destruct (Hin _ _ Hl) as [[Hb Hx]|[Hb Hx]]; [left|by right]. split; [|done]. eapply same_backup_trans; [by apply Hother|done].
Qed.
End purge.

(** The purge removes a backup with everything that belongs to it, or leaves
    it alone: a backup not yet expired keeps its descriptor, manifest and rows,
    one that has expired loses all three, and no other row, table or policy is
    touched. *)
Theorem purgeExpiredBackups_effect {blob : Type} `{!Gob blob} `{!Env} (w w' : world blob) :
  backups_ok (meta_t (w_db w)) -> purgeExpiredBackups w = (Ret tt, w') ->
  (forall name b e, backups_t (meta_t (w_db w)) !! name = Some b -> bk_ExpireTime b = Some e ->
     ((forall n, clock n < e) -> same_backup (w_db w) (w_db w') name) /\ ((forall n, e <= clock n) -> gone (w_db w') name)) /\
  (forall t k, (forall name, is_Some (backups_t (meta_t (w_db w)) !! name) -> t <> snapshotRows name) -> stored_at (w_db w') t k = stored_at (w_db w) t k) /\
  tables_t (w_db w') = tables_t (w_db w) /\ iam_policies_t (w_db w') = iam_policies_t (w_db w) /\ w_srv w' = w_srv w.
Proof.
  intros Hok (l & w1 & (d & [= <- <-] & ->)%call_Ret & E)%bind_Ret. set (l := isort _ _) in E.
  assert (forall n b, (n, b) ∈ l <-> backups_t (meta_t (w_db w)) !! n = Some b) as Hl.
  { intros n b. unfold l. rewrite elem_of_isort, list_elem_of_filter, elem_of_map_to_list. cbn. split; [tauto|]. intros Hb. split; [by destruct n|done]. }
  apply purge_loop in E as (Hi & Ht & Hs & Hr & Hsame & Hin).
  - split_and!; try done.
    + intros name b e Hb He. apply Hl in Hb. destruct (Hin _ _ Hb) as [[Hsb Hx]|[Hg (e' & n & E' & Hx)]]; rewrite ?He in *; cbn in *.
      * split; [done|]. intros Hc. destruct Hx as [n Hn]. specialize (Hc n). lia.
      * split; [|done]. intros Hc. injection E' as <-. specialize (Hc n). lia.
    + intros t k Hk. apply Hr. intros n ([n' b] & -> & Hnl)%list_elem_of_fmap. apply Hk. apply Hl in Hnl. by eexists.
  - intros n b Hb%Hl. by apply Hok in Hb as [? _].
  - unfold l. rewrite isort_perm. eapply NoDup_fmap_fst; [|apply NoDup_filter, NoDup_map_to_list].
    intros n b1 b2 [_ H1]%list_elem_of_filter [_ H2]%list_elem_of_filter. apply elem_of_map_to_list in H1, H2. congruence.
Qed.

Lemma purgeExpiredBackups_effect_witness :
  gone (w_db (purgeExpiredBackups (H := mkEnv (fun _ => None) (fun _ => 10 * hour) (fun _ => F_Fin 1 2)) SampleBackup.created.2).2)
    (bk_Name SampleBackup.backup) /\
  same_backup (w_db SampleBackup.created.2) (w_db (purgeExpiredBackups (H := SampleBackup.stopped) SampleBackup.created.2).2) (bk_Name SampleBackup.backup).
Proof.
  assert (backups_ok (meta_t (w_db SampleBackup.created.2))) as Hok.
  { apply (kept_CreateBackup (H := SampleBackup.stopped) false SampleBackup.creq). intros n b Hb. change ((∅ : gmap bytes Backup) !! n = Some b) in Hb; by rewrite lookup_empty in Hb. }
  assert (backups_t (meta_t (w_db SampleBackup.created.2)) !! bk_Name SampleBackup.backup = Some SampleBackup.backup) as Hb by (vm_compute; reflexivity).
  split.
  - refine (proj2 (proj1 (purgeExpiredBackups_effect (H := mkEnv (fun _ => None) (fun _ => 10 * hour) (fun _ => F_Fin 1 2)) SampleBackup.created.2 _ Hok _)
      _ _ _ Hb eq_refl) _); [apply run_Ret; vm_compute; reflexivity|]. intros n. vm_compute. discriminate.
  - refine (proj1 (proj1 (purgeExpiredBackups_effect (H := SampleBackup.stopped) SampleBackup.created.2 _ Hok _)
      _ _ _ Hb eq_refl) _); [apply run_Ret; vm_compute; reflexivity|]. intros n. vm_compute. reflexivity.
Defined.
