(* ===== verification/Instances.v ===== *)
(** * Instance administration

    [localcloud_instance_admin.go] and [sql_admin_metadata.go]: instances,
    clusters and app profiles, in memory and in their tables.  The handlers save
    one record at a time and then change memory; only DeleteInstance runs a
    transaction.  Fields the sources never read ([State], encryption) are left
    out of the messages. *)

From S2P Require Import Prelude Proto Rows Gc Hll Mutations Filters Server Store Tokens Targets WritePath Chunks ReadPath TableAdmin TableOps Tombstones Metadata Backups.
From stdpp Require Import base list gmap sorting.
From Stdlib Require Import ZArith Lia.

#[local] Open Scope Z_scope.

(** ** Names *)

Definition lowerChar (c : Z) : bool := (97 <=? c) && (c <=? 122).
Definition lowerNum (c : Z) : bool := lowerChar c || ((48 <=? c) && (c <=? 57)).
Definition lowerNumDash (c : Z) : bool := lowerNum c || (c =? 45).

(** [^first middle* last$] for classes of characters. *)
Definition bracketed (first middle last : Z -> bool) (s : bytes) : bool :=
  match s with
  | [] | [_] => false
  | c :: rest => first c && forallb middle (removelast rest) && last (List.last rest 0)
  end.

Definition instanceIDPattern (id : bytes) : bool :=
  bracketed lowerChar lowerNumDash lowerNum id && (6 <=? length id)%nat && (length id <=? 33)%nat.
Definition clusterIDPattern (id : bytes) : bool :=
  bracketed lowerChar lowerNumDash lowerNum id && (6 <=? length id)%nat && (length id <=? 30)%nat.
Definition appProfileIDRegexp (id : bytes) : bool :=
  match id with [] => false | c :: rest => idChar c && negb (c =? 45) && negb (c =? 46) && forallb idChar rest end.

(** The part of a string before the first [/], and the rest from it on. *)
Fixpoint cutSlash (s : bytes) : bytes * bytes :=
  match s with
  | [] => ([], [])
  | c :: s' => if c =? 47 then ([], s) else let '(a, b) := cutSlash s' in (c :: a, b)
  end.

(** [regInstanceName]: no class of the pattern contains a slash. *)
Definition regInstanceName (name : bytes) : bool :=
  HasPrefix name (str "projects/") &&
  let '(project, rest) := cutSlash (drop 9 name) in
  bracketed lowerNum (fun c => lowerNumDash c || (c =? 46) || (c =? 58)) lowerNum project &&
  HasPrefix rest (str "/instances/") && bracketed lowerChar lowerNumDash lowerNum (drop 11 rest).

Definition instanceProject (instanceName : bytes) : bytes := parentInstanceFromChild instanceName (str "/instances/").

(** [strings.TrimPrefix]. *)
Definition TrimPrefix (s p : bytes) : bytes := if HasPrefix s p then drop (length p) s else s.

Definition mvStoragePrefix : bytes := str "__mv__/".

(** ** Requests and records *)

Record CreateInstanceRequest : Type := mkCreateInstance {
  ci_Parent : bytes; ci_InstanceId : bytes; ci_Instance : option Instance; ci_Clusters : gmap bytes Cluster }.

Definition validateInstanceDisplayName (name : bytes) : outcome unit :=
  if (length name <? 4)%nat || (30 <? length name)%nat then Err InvalidArgument else Ret tt.

Definition newCluster (instance id : bytes) (inp : option Cluster) : outcome Cluster :=
  if negb (clusterIDPattern id) then Err InvalidArgument
  else
    let c := default (mkCluster [] [] 0 STORAGE_TYPE_UNSPECIFIED None 0) inp in
    let location := match cl_Location c with [] => instanceProject instance ++ str "/locations/local" | l => l end in
    if cl_ServeNodes c <? 0 then Err InvalidArgument
    else Ret (mkCluster (instance ++ str "/clusters/" ++ id) location (cl_ServeNodes c)
      (match cl_StorageType c with STORAGE_TYPE_UNSPECIFIED => SSD | ty => ty end) (cl_Config c) (cl_NodeScalingFactor c)).

(** The instance CreateInstance stores. *)
Definition newInstance (name : bytes) (req : CreateInstanceRequest) (start : Z) : Instance :=
  let inst := default (mkInstance [] [] TYPE_UNSPECIFIED EDITION_UNSPECIFIED ∅ 0) (ci_Instance req) in
  mkInstance name (match in_DisplayName inst with [] => ci_InstanceId req | n => n end)
    (match in_Type inst with TYPE_UNSPECIFIED => PRODUCTION | ty => ty end)
    (match in_Edition inst with EDITION_UNSPECIFIED => ENTERPRISE | e => e end) (in_Labels inst) start.

Definition setDefaultIsolation (p : AppProfile) : AppProfile :=
  match ap_Isolation p with
  | Isolation_Unset => mkAppProfile (ap_Name p) (ap_Description p) (ap_Etag p) (ap_Routing p) (Isolation_Standard 3)
  | _ => p
  end.

Definition checkEtag (requested current : bytes) : outcome unit :=
  match requested with [] => Ret tt | _ => if bool_decide (requested = current) then Ret tt else Err Aborted end.

Definition validateRoutingLocked (s : server) (instance : bytes) (p : AppProfile) : outcome unit :=
  let clusterExists (id : bytes) := bool_decide (is_Some (s_clusters s !! (instance ++ str "/clusters/" ++ id))) in
  match ap_Routing p with
  | Routing_Single id _ => if Nat.eqb (length id) 0 || negb (clusterExists id) then Err InvalidArgument else Ret tt
  | Routing_Any ids => if forallb clusterExists ids then Ret tt else Err InvalidArgument
  | Routing_Unset => Err InvalidArgument
  end.

(** [next] after one path of an update mask. *)
Definition updateInstancePath (stored inst next : Instance) (path : bytes) : outcome Instance :=
  if bool_decide (path = str "display_name") then
    _ ← validateInstanceDisplayName (in_DisplayName inst);
    Ret (mkInstance (in_Name next) (in_DisplayName inst) (in_Type next) (in_Edition next) (in_Labels next) (in_CreateTime next))
  else if bool_decide (path = str "type") then
    match in_Type stored, in_Type inst with
    | PRODUCTION, DEVELOPMENT => Err InvalidArgument
    | _, ty => Ret (mkInstance (in_Name next) (in_DisplayName next) ty (in_Edition next) (in_Labels next) (in_CreateTime next))
    end
  else if bool_decide (path = str "labels") then
    Ret (mkInstance (in_Name next) (in_DisplayName next) (in_Type next) (in_Edition next) (in_Labels inst) (in_CreateTime next))
  else if bool_decide (path = str "edition") then
    Ret (mkInstance (in_Name next) (in_DisplayName next) (in_Type next) (in_Edition inst) (in_Labels next) (in_CreateTime next))
  else Err InvalidArgument.

Definition updateClusterPath (cluster next : Cluster) (path : bytes) : outcome Cluster :=
  if bool_decide (path = str "serve_nodes") then
    Ret (mkCluster (cl_Name next) (cl_Location next) (cl_ServeNodes cluster) (cl_StorageType next) (cl_Config next) (cl_NodeScalingFactor next))
  else if bool_decide (path = str "cluster_config") || HasPrefix path (str "cluster_config.cluster_autoscaling_config") then
    Ret (mkCluster (cl_Name next) (cl_Location next) (cl_ServeNodes next) (cl_StorageType next) (cl_Config cluster) (cl_NodeScalingFactor next))
  else if bool_decide (path = str "node_scaling_factor") then
    Ret (mkCluster (cl_Name next) (cl_Location next) (cl_ServeNodes next) (cl_StorageType next) (cl_Config next) (cl_NodeScalingFactor cluster))
  else Err InvalidArgument.

Definition updateProfilePath (src next : AppProfile) (path : bytes) : outcome AppProfile :=
  if bool_decide (path = str "description") then
    Ret (mkAppProfile (ap_Name next) (ap_Description src) (ap_Etag next) (ap_Routing next) (ap_Isolation next))
  else if bool_decide (path ∈ [str "multi_cluster_routing_use_any"; str "single_cluster_routing"]) then
    Ret (mkAppProfile (ap_Name next) (ap_Description next) (ap_Etag next) (ap_Routing src) (ap_Isolation next))
  else if bool_decide (path ∈ [str "standard_isolation"; str "data_boost_isolation_read_only"; str "priority"; str "standard_isolation.priority"]) then
    Ret (mkAppProfile (ap_Name next) (ap_Description next) (ap_Etag next) (ap_Routing next) (ap_Isolation src))
  else Err InvalidArgument.

Section instances.
Context {blob : Type} `{!Gob blob} `{!Env}.
(** The digest of a message's deterministic encoding, and the engine's case
    folding for [LIKE]. *)
Context (digest : AppProfile -> bytes) (fold_case : Z -> Z).

Definition contentEtag (p : AppProfile) : bytes :=
  digest (mkAppProfile (ap_Name p) (ap_Description p) [] (ap_Routing p) (ap_Isolation p)).
Definition withEtag (p : AppProfile) : AppProfile :=
  mkAppProfile (ap_Name p) (ap_Description p) (contentEtag p) (ap_Routing p) (ap_Isolation p).

(** ** The stores *)

Definition SaveInstance (inst : Instance) : M blob unit :=
  metaCall (fun md => (Ret tt, set_instances_t md (<[in_Name inst := inst]> (instances_t md)))).
Definition SaveCluster (parent : bytes) (c : Cluster) : M blob unit :=
  metaCall (fun md => (Ret tt, set_clusters_t md (<[cl_Name c := (parent, c)]> (clusters_t md)))).
Definition SaveAppProfile (parent : bytes) (p : AppProfile) : M blob unit :=
  metaCall (fun md => (Ret tt, set_app_profiles_t md (<[ap_Name p := (parent, p)]> (app_profiles_t md)))).
Definition admin_DeleteCluster (name : bytes) : M blob unit :=
  metaCall (fun md => (Ret tt, set_clusters_t md (delete name (clusters_t md)))).
Definition admin_DeleteAppProfile (name : bytes) : M blob unit :=
  metaCall (fun md => (Ret tt, set_app_profiles_t md (delete name (app_profiles_t md)))).
Definition deleteInstanceTx (name : bytes) : M blob unit :=
  _ ← metaCall (fun md => (Ret tt, set_instances_t md (delete name (instances_t md))));
  _ ← metaCall (fun md => (Ret tt, set_clusters_t md (filter (fun '(_, (parent, _)) => parent <> name) (clusters_t md))));
  metaCall (fun md => (Ret tt, set_app_profiles_t md (filter (fun '(_, (parent, _)) => parent <> name) (app_profiles_t md)))).

(** [loadAll] gives what it read when the query fails: nothing. *)
Definition loadAll {T : Type} (proj : metadata -> list T) : M blob (list T) :=
  r ← catch (metaCall (fun md => (Ret (proj md), md)));
  mret (match r with inl l => l | inr _ => [] end).

Definition LoadAdminMetadata : M blob unit :=
  insts ← loadAll (fun md => map_vals (instances_t md));
  s ← getServer;
  _ ← putServer (set_instances s (foldl (fun m i => <[in_Name i := i]> m) (s_instances s) insts));
  cs ← loadAll (fun md => snd <$> map_vals (clusters_t md));
  s ← getServer;
  _ ← putServer (set_clusters s (foldl (fun m c => <[cl_Name c := c]> m) (s_clusters s) cs));
  ps ← loadAll (fun md => snd <$> map_vals (app_profiles_t md));
  s ← getServer;
  putServer (set_appProfiles s (foldl (fun m p => <[ap_Name p := p]> m) (s_appProfiles s) ps)).

(** ** Instances *)

(** Save a record and put it in memory. *)
Definition storeInstance (inst : Instance) : M blob unit :=
  _ ← mapErr storageErr (SaveInstance inst);
  s ← getServer; putServer (set_instances s (<[in_Name inst := inst]> (s_instances s))).
Definition storeCluster (parent : bytes) (c : Cluster) : M blob unit :=
  _ ← mapErr storageErr (SaveCluster parent c);
  s ← getServer; putServer (set_clusters s (<[cl_Name c := c]> (s_clusters s))).
Definition storeAppProfile (parent : bytes) (p : AppProfile) : M blob unit :=
  _ ← mapErr storageErr (SaveAppProfile parent p);
  s ← getServer; putServer (set_appProfiles s (<[ap_Name p := p]> (s_appProfiles s))).

Definition ensureDefaultAppProfileLocked (instance : bytes) : M blob unit :=
  let name := instance ++ str "/appProfiles/default" in
  s ← getServer;
  match s_appProfiles s !! name with
  | Some _ => mret tt
  | None =>
      let prefix := instance ++ str "/clusters/" in
      let clusterIDs := sort_strings ((fun c => TrimPrefix c prefix) <$> filter (fun c => HasPrefix c prefix = true) (map_keys (s_clusters s))) in
      let clusterID := match clusterIDs with id :: _ => id | [] => str "local-cluster" end in
      let p := mkAppProfile name (str "Default app profile") [] (Routing_Single clusterID true) Isolation_Unset in
      storeAppProfile instance (withEtag (setDefaultIsolation p))
  end.

Definition CreateInstance (req : CreateInstanceRequest) : M blob Instance :=
  start ← timeNow;
  if negb (HasPrefix (ci_Parent req) (str "projects/")) then fail InvalidArgument
  else if negb (instanceIDPattern (ci_InstanceId req)) then fail InvalidArgument
  else if bool_decide (ci_Clusters req = ∅) then fail InvalidArgument
  else
    _ ← lift (match in_DisplayName <$> ci_Instance req with
        | None | Some [] => Ret tt
        | Some n => validateInstanceDisplayName n
        end);
    let name := ci_Parent req ++ str "/instances/" ++ ci_InstanceId req in
    clusters ← lift (collectM (fun id => newCluster name id (ci_Clusters req !! id)) (sort_strings (map_keys (ci_Clusters req))));
    s ← getServer;
    match s_instances s !! name with
    | Some _ => fail AlreadyExists
    | None =>
        let inst := newInstance name req start in
        _ ← storeInstance inst;
        _ ← forM (fun _ c => storeCluster name c) tt clusters;
        _ ← ensureDefaultAppProfileLocked name;
        _ ← timeNow;
        _ ← ops_complete name;
        mret inst
    end.

Definition UpdateInstance (req : Instance) : M blob Instance :=
  if Nat.eqb (length (in_Name req)) 0 then fail InvalidArgument
  else
    _ ← lift (validateInstanceDisplayName (in_DisplayName req));
    s ← getServer;
    match s_instances s !! in_Name req with
    | None => fail NotFound
    | Some stored =>
        ty ← lift (match in_Type req, in_Type stored with
          | TYPE_UNSPECIFIED, ty => Ret ty
          | DEVELOPMENT, PRODUCTION => Err InvalidArgument
          | ty, _ => Ret ty
          end);
        let next := mkInstance (in_Name stored) (in_DisplayName req) ty (in_Edition stored) (in_Labels stored) (in_CreateTime stored) in
        _ ← mapErr storageErr (SaveInstance next);
        s ← getServer;
        _ ← putServer (set_instances s (<[in_Name req := next]> (s_instances s)));
        mret next
    end.

Definition PartialUpdateInstance (inst : Instance) (paths : list bytes) : M blob Instance :=
  _ ← timeNow;
  if Nat.eqb (length (in_Name inst)) 0 then fail InvalidArgument
  else if Nat.eqb (length paths) 0 then fail InvalidArgument
  else
    s ← getServer;
    match s_instances s !! in_Name inst with
    | None => fail NotFound
    | Some stored =>
        next ← lift (foldM (updateInstancePath stored inst) stored paths);
        _ ← mapErr storageErr (SaveInstance next);
        s ← getServer;
        _ ← putServer (set_instances s (<[in_Name inst := next]> (s_instances s)));
        _ ← timeNow;
        _ ← ops_complete (in_Name inst);
        mret next
    end.

(** [removePrefix] on the views, bundles and logical views. *)
Definition removeNames (proj : database blob -> list bytes) (remove : bytes -> M blob unit) (prefix : bytes) : M blob unit :=
  names ← call (fun d => (Ret (filter (fun n => HasPrefix n prefix = true) (proj d)), d));
  forM (fun _ n => remove n) tt names.
Definition lv_remove (name : bytes) : M blob unit :=
  metaCall (fun md => (Ret tt, set_logical_views_t md (delete name (logical_views_t md)))).

(** The rows of a view's storage; the view's own record is in a table that is
    not modelled. *)
Definition dropMaterializedViewStorage (name : bytes) : M blob unit :=
  let instance := parentInstanceFromChild name (str "/materializedViews/") in
  let id := match LastIndex name (str "/") with Some i => drop (S i) name | None => name end in
  _ ← SqlRows_clear (mkSqlRows instance (mvStoragePrefix ++ id));
  call (fun d => (Ret tt, d)).

(** What the transaction of DeleteInstance deletes besides the admin records. *)
Definition clearInstance (s : server) (name : bytes) : M blob unit :=
  _ ← forM (fun _ '(tableName, tbl) =>
    if negb (HasPrefix tableName (name ++ str "/tables/")) then mret tt
    else
      _ ← SqlRows_clear (table_rows tbl);
      _ ← SqlTables_Delete tbl;
      purgeTable tableName) tt (map_to_list (s_tables s));
  _ ← forM (fun _ t =>
    if HasPrefix (table_name t) (name ++ str "/tables/") then
      _ ← SqlRows_clear (table_rows t); SqlTables_Delete t
    else mret tt) tt (map_vals (s_deletedTables s));
  _ ← removeNames (fun d => map_keys (authorized_views_t d)) av_remove (name ++ str "/");
  _ ← removeNames (fun d => map_keys (schema_bundles_t d)) sb_remove (name ++ str "/");
  _ ← removeNames (fun d => map_keys (logical_views_t (meta_t d))) lv_remove (name ++ str "/");
  _ ← forM (fun _ mvName => if HasPrefix mvName (name ++ str "/") then dropMaterializedViewStorage mvName else mret tt) tt
    (map_keys (s_mvs s));
  iam_deletePrefix fold_case name.

Definition forgetInstance (s : server) (name : bytes) : server :=
  mkServer (delete name (s_instances s))
    (filter (fun '(n, _) => HasPrefix n (name ++ str "/clusters/") = false) (s_clusters s))
    (filter (fun '(n, _) => HasPrefix n (name ++ str "/appProfiles/") = false) (s_appProfiles s))
    (filter (fun '(n, _) => HasPrefix n (name ++ str "/tables/") = false) (s_tables s))
    (filter (fun '(_, t) => HasPrefix (table_name t) (name ++ str "/tables/") = false) (s_deletedTables s))
    (filter (fun '(n, _) => HasPrefix n (name ++ str "/") = false) (s_mvs s)) (s_opSeq s).

Definition DeleteInstance (name : bytes) : M blob unit :=
  if negb (regInstanceName name) then fail InvalidArgument
  else
    s ← getServer;
    match s_instances s !! name with
    | None => fail NotFound
    | Some _ =>
        _ ← forM (fun _ '(tableName, tbl) =>
          if negb (HasPrefix tableName (name ++ str "/tables/")) then mret tt
          else mapErr (fun _ => FailedPrecondition) (checkTableDeletable tbl)) tt (map_to_list (s_tables s));
        backups ← mapErr storageErr (backupsUnder (name ++ str "/clusters/"));
        match backups with
        | _ :: _ => fail FailedPrecondition
        | [] =>
            views ← mapErr storageErr (listPrefix (fun d => logical_views_t (meta_t d)) (name ++ str "/logicalViews/"));
            if existsb (fun '(_, lv) => lv_DeletionProtection lv) views then fail FailedPrecondition
            else if existsb (fun '(n, mv) => HasPrefix n (name ++ str "/") && mv_DeletionProtection mv) (map_to_list (s_mvs s))
            then fail FailedPrecondition
            else
              _ ← mapErr storageErr (withTx (_ ← clearInstance s name; deleteInstanceTx name));
              s ← getServer;
              putServer (forgetInstance s name)
        end
    end.

(** ** Clusters *)

Definition CreateCluster (parent clusterId : bytes) (inp : option Cluster) : M blob Cluster :=
  _ ← timeNow;
  if Nat.eqb (length parent) 0 then fail InvalidArgument
  else
    c ← lift (newCluster parent clusterId inp);
    s ← getServer;
    match s_instances s !! parent with
    | None => fail NotFound
    | Some _ =>
        match s_clusters s !! cl_Name c with
        | Some _ => fail AlreadyExists
        | None =>
            _ ← storeCluster parent c;
            _ ← timeNow;
            _ ← ops_complete (cl_Name c);
            mret c
        end
    end.

Definition UpdateCluster (req : Cluster) : M blob Cluster :=
  _ ← timeNow;
  if Nat.eqb (length (cl_Name req)) 0 then fail InvalidArgument
  else if cl_ServeNodes req <? 0 then fail InvalidArgument
  else
    s ← getServer;
    match s_clusters s !! cl_Name req with
    | None => fail NotFound
    | Some stored =>
        let next := mkCluster (cl_Name stored) (cl_Location stored) (cl_ServeNodes req) (cl_StorageType stored) (cl_Config stored) (cl_NodeScalingFactor stored) in
        _ ← storeCluster (parentInstanceFromChild (cl_Name next) (str "/clusters/")) next;
        _ ← timeNow;
        _ ← ops_complete (cl_Name next);
        mret next
    end.

Definition PartialUpdateCluster (cluster : Cluster) (paths : list bytes) : M blob Cluster :=
  _ ← timeNow;
  if Nat.eqb (length (cl_Name cluster)) 0 then fail InvalidArgument
  else if Nat.eqb (length paths) 0 then fail InvalidArgument
  else
    s ← getServer;
    match s_clusters s !! cl_Name cluster with
    | None => fail NotFound
    | Some stored =>
        next ← lift (foldM (updateClusterPath cluster) stored paths);
        _ ← storeCluster (parentInstanceFromChild (cl_Name next) (str "/clusters/")) next;
        _ ← timeNow;
        _ ← ops_complete (cl_Name next);
        mret next
    end.

Definition DeleteCluster (name : bytes) : M blob unit :=
  s ← getServer;
  match s_clusters s !! name with
  | None => fail NotFound
  | Some _ =>
      let instance := parentInstanceFromChild name (str "/clusters/") in
      let remaining := length (filter (fun n => HasPrefix n (instance ++ str "/clusters/") = true) (map_keys (s_clusters s))) in
      if (remaining <=? 1)%nat then fail FailedPrecondition
      else
        backups ← mapErr storageErr (backupsUnder (name ++ str "/backups/"));
        match backups with
        | _ :: _ => fail FailedPrecondition
        | [] =>
            let clusterID := TrimPrefix name (instance ++ str "/clusters/") in
            if existsb (fun p =>
                 (bool_decide (match ap_Routing p with Routing_Single id _ => id | _ => [] end = clusterID) ||
                  existsb (fun id => bool_decide (id = clusterID)) (match ap_Routing p with Routing_Any ids => ids | _ => [] end)) &&
                 HasPrefix (ap_Name p) (instance ++ str "/")) (map_vals (s_appProfiles s))
            then fail FailedPrecondition
            else
              _ ← mapErr storageErr (admin_DeleteCluster name);
              s ← getServer;
              putServer (set_clusters s (delete name (s_clusters s)))
        end
  end.

(** ** App profiles *)

Definition CreateAppProfile (parent id : bytes) (inp : option AppProfile) : M blob AppProfile :=
  if Nat.eqb (length parent) 0 || negb (appProfileIDRegexp id) then fail InvalidArgument
  else
    let name := parent ++ str "/appProfiles/" ++ id in
    s ← getServer;
    match s_instances s !! parent with
    | None => fail NotFound
    | Some _ =>
        match s_appProfiles s !! name with
        | Some _ => fail AlreadyExists
        | None =>
            let p := default (mkAppProfile [] [] [] Routing_Unset Isolation_Unset) inp in
            let p := mkAppProfile name (ap_Description p) (ap_Etag p) (ap_Routing p) (ap_Isolation p) in
            _ ← lift (validateRoutingLocked s parent p);
            let p := withEtag (setDefaultIsolation p) in
            _ ← storeAppProfile parent p;
            mret p
        end
    end.

Definition UpdateAppProfile (update : AppProfile) (paths : list bytes) : M blob AppProfile :=
  if Nat.eqb (length (ap_Name update)) 0 then fail InvalidArgument
  else if Nat.eqb (length paths) 0 then fail InvalidArgument
  else
    s ← getServer;
    match s_appProfiles s !! ap_Name update with
    | None => fail NotFound
    | Some cur =>
        _ ← lift (checkEtag (ap_Etag update) (ap_Etag cur));
        next ← lift (foldM (updateProfilePath update) cur paths);
        let instance := parentInstanceFromChild (ap_Name next) (str "/appProfiles/") in
        _ ← lift (validateRoutingLocked s instance next);
        let next := withEtag (setDefaultIsolation next) in
        _ ← storeAppProfile instance next;
        _ ← ops_complete (ap_Name next);
        mret next
    end.

Definition DeleteAppProfile (name : bytes) : M blob unit :=
  s ← getServer;
  match s_appProfiles s !! name with
  | None => fail NotFound
  | Some _ =>
      _ ← mapErr storageErr (admin_DeleteAppProfile name);
      s ← getServer;
      putServer (set_appProfiles s (delete name (s_appProfiles s)))
  end.
End instances.

(** ** Names and their parents *)

Definition slashes (s : bytes) : nat := length (filter (fun c => c = 47) s).

Lemma slashes_app a b : slashes (a ++ b) = (slashes a + slashes b)%nat.
Proof. unfold slashes. by rewrite filter_app, length_app. Qed.
Lemma slashes_none s : 47 ∉ s -> slashes s = 0%nat.
Proof. intros Hs. unfold slashes. induction s as [|c s IH]; [done|]. apply not_elem_of_cons in Hs as [Hc Hs]. rewrite filter_cons_False by congruence. by apply IH. Qed.

(** Two names that continue with a slash after as many slashes agree. *)
Lemma slash_split a : forall b u v, slashes a = slashes b -> a ++ 47 :: u = b ++ 47 :: v -> a = b /\ u = v.
Proof.
  induction a as [|c a IH]; intros [|d b] u v Hs E; cbn in E.
  - by injection E as ->.
  - injection E as <- _. unfold slashes in Hs. rewrite filter_cons_True in Hs by done. cbn in Hs. lia.
  - injection E as -> _. unfold slashes in Hs. rewrite filter_cons_True in Hs by done. cbn in Hs. lia.
  - injection E as -> E. apply IH in E as [-> ->]; [done|]. unfold slashes in *. rewrite !filter_cons in Hs. case_decide; cbn in Hs; lia.
Qed.
Lemma child_split (a b u v m : bytes) : slashes a = slashes b -> a ++ (47 :: m) ++ u = b ++ (47 :: m) ++ v -> a = b /\ u = v.
Proof. intros Hs E. cbn in E. apply slash_split in E as [-> E]; [|done]. split; [done|]. by eapply app_inv_head. Qed.

Lemma LastIndex_app a t sub i : LastIndex t sub = Some i -> LastIndex (a ++ t) sub = Some (length a + i)%nat.
Proof. intros E. induction a as [|c a IH]; cbn; [done|]. by rewrite IH. Qed.
Lemma LastIndex_none s sub : (forall a b, s = a ++ sub ++ b -> False) -> LastIndex s sub = None.
Proof.
  intros Hs. assert (forall s', (exists p, s = p ++ s') -> HasPrefix s' sub = false) as Hp.
  { intros s' [p ->]. destruct (HasPrefix s' sub) eqn:E; [|done]. apply HasPrefix_spec in E as [rest ->]. by destruct (Hs p rest). }
  assert (forall s', (exists p, s = p ++ s') -> LastIndex s' sub = None) as Hl; [|apply Hl; by exists []].
  induction s' as [|c s' IH]; intros [p Ep]; cbn; [rewrite (Hp []) by eauto; done|].
  rewrite IH by (exists (p ++ [c]); by rewrite <- app_assoc). rewrite (Hp (c :: s')) by eauto. done.
Qed.

(** The parent of a child is what precedes its marker when the id has no slash. *)
Lemma parentInstanceFromChild_app par m id : 47 ∉ id -> parentInstanceFromChild (par ++ (47 :: m ++ [47]) ++ id) (47 :: m ++ [47]) = par.
Proof.
  intros Hid. unfold parentInstanceFromChild. erewrite LastIndex_app with (i := 0%nat).
  - by rewrite Nat.add_0_r, take_app_length.
  - cbn [app LastIndex]. rewrite LastIndex_none.
    + assert (HasPrefix ((47 :: m ++ [47]) ++ id) (47 :: m ++ [47]) = true) as Hp by (apply HasPrefix_spec; by eexists).
      cbn [app] in Hp. by rewrite Hp.
    + intros a b E. apply (f_equal (fun l => l !! (length a + length m + 1)%nat)) in E.
      assert ((a ++ (47 :: m ++ [47]) ++ b) !! (length a + length m + 1)%nat = Some 47) as E2.
      { replace (a ++ (47 :: m ++ [47]) ++ b) with ((a ++ 47 :: m) ++ 47 :: b) by (by rewrite <- !app_assoc; cbn; rewrite <- app_assoc).
        apply list_lookup_middle. rewrite length_app. cbn. lia. }
      rewrite E2 in E. rewrite <- app_assoc, lookup_app_r in E by lia. apply Hid.
      destruct (length a + length m + 1 - length m)%nat eqn:Ei; [lia|]. cbn in E. by apply list_elem_of_lookup_2 in E.
Qed.

Lemma TrimPrefix_app p s : TrimPrefix (p ++ s) p = s.
Proof. unfold TrimPrefix. rewrite (proj2 (HasPrefix_spec _ _)) by (by eexists). apply drop_app_length. Qed.

Lemma bracketed_all f m l (s : bytes) (P : Z -> Prop) : bracketed f m l s = true ->
  (forall c, f c = true -> P c) -> (forall c, m c = true -> P c) -> (forall c, l c = true -> P c) -> Forall P s.
Proof.
  destruct s as [|c [|d s]]; [done|done|]. cbn [bracketed]. rewrite !andb_true_iff. intros [[Hf Hm] Hl] H1 H2 H3. constructor; [auto|].
  rewrite (app_removelast_last 0 (l := d :: s)) by done. apply Forall_app. split; [|constructor; [auto|constructor]].
  apply list.Forall_forall. intros x Hx. apply H2. rewrite forallb_forall in Hm. by apply Hm, list_elem_of_In.
Qed.
Lemma pattern_no_slash f m l (s : bytes) : bracketed f m l s = true -> f 47 = false -> m 47 = false -> l 47 = false -> 47 ∉ s.
Proof.
  intros Hb H1 H2 H3 Hin. pose proof (bracketed_all f m l s (fun c => c <> 47) Hb) as Hall. rewrite list.Forall_forall in Hall.
  by apply (Hall ltac:(congruence) ltac:(congruence) ltac:(congruence) 47).
Qed.
Lemma clusterIDPattern_slash id : clusterIDPattern id = true -> 47 ∉ id.
Proof. unfold clusterIDPattern. rewrite !andb_true_iff. intros [[Hb _] _]. by eapply pattern_no_slash. Qed.
Lemma instanceIDPattern_slash id : instanceIDPattern id = true -> 47 ∉ id.
Proof. unfold instanceIDPattern. rewrite !andb_true_iff. intros [[Hb _] _]. by eapply pattern_no_slash. Qed.
Lemma appProfileID_slash id : appProfileIDRegexp id = true -> 47 ∉ id.
Proof.
  destruct id as [|c id]; [done|]. cbn. rewrite !andb_true_iff, forallb_forall. intros [[[Hc _] _] Hall] [<-|Hin]%elem_of_cons; [done|].
  apply list_elem_of_In in Hin. by apply Hall in Hin.
Qed.

(** ** The invariant of the admin metadata *)

(** The clusters a profile of instance [par] routes to exist. *)
Definition routed (md : metadata) (par : bytes) (p : AppProfile) : Prop :=
  let exists_ id := is_Some (clusters_t md !! (par ++ str "/clusters/" ++ id)) in
  match ap_Routing p with
  | Routing_Unset => False
  | Routing_Single id _ => exists_ id
  | Routing_Any ids => Forall exists_ ids
  end.

(** A name [parent/kind/id]; an instance name has three slashes. *)
Definition child_of (kind par n : bytes) : Prop :=
  slashes par = 3%nat /\ exists id, n = par ++ kind ++ id /\ 47 ∉ id.

(** Memory and tables agree, records are under their own names, and every app
    profile routes to clusters that exist. *)
Definition admin_ok (s : server) (md : metadata) : Prop :=
  s_instances s = instances_t md /\ s_clusters s = snd <$> clusters_t md /\ s_appProfiles s = snd <$> app_profiles_t md /\
  (forall n i, instances_t md !! n = Some i -> in_Name i = n /\ slashes n = 3%nat) /\
  (forall n par c, clusters_t md !! n = Some (par, c) -> cl_Name c = n /\ child_of (str "/clusters/") par n) /\
  (forall n par p, app_profiles_t md !! n = Some (par, p) ->
     ap_Name p = n /\ child_of (str "/appProfiles/") par n /\ routed md par p).

Lemma child_parent kind par n : child_of (47 :: kind ++ [47]) par n -> parentInstanceFromChild n (47 :: kind ++ [47]) = par.
Proof. intros (_ & id & -> & Hid). by apply parentInstanceFromChild_app. Qed.
Lemma cluster_parent par n : child_of (str "/clusters/") par n -> parentInstanceFromChild n (str "/clusters/") = par.
Proof. exact (child_parent (str "clusters") par n). Qed.
Lemma profile_parent par n : child_of (str "/appProfiles/") par n -> parentInstanceFromChild n (str "/appProfiles/") = par.
Proof. exact (child_parent (str "appProfiles") par n). Qed.
Lemma child_prefix kind par n name : child_of (47 :: kind) par n -> slashes name = 3%nat ->
  HasPrefix n (name ++ 47 :: kind) = true <-> par = name.
Proof.
  intros (Hp & id & -> & _) Hn. rewrite HasPrefix_spec. split.
  - intros [rest E]. rewrite <- app_assoc in E. apply child_split in E as [-> _]; [done|by rewrite Hp, Hn].
  - intros ->. exists id. by rewrite <- app_assoc.
Qed.

Lemma validateRouting_ok s md par p : s_clusters s = snd <$> clusters_t md -> validateRoutingLocked s par p = Ret tt -> routed md par p.
Proof.
  intros Es. assert (forall id, bool_decide (is_Some (s_clusters s !! (par ++ str "/clusters/" ++ id))) = true -> is_Some (clusters_t md !! (par ++ str "/clusters/" ++ id))) as Hx.
  { intros id. rewrite bool_decide_eq_true, Es, lookup_fmap, fmap_is_Some. done. }
  unfold validateRoutingLocked, routed. destruct (ap_Routing p) as [|id allow|ids]; [done| |].
  - destruct (_ || _) eqn:E; [done|]. apply orb_false_iff in E as [_ E%negb_false_iff]. intros _. by apply Hx.
  - destruct (forallb _ _) eqn:E; [|done]. intros _. apply list.Forall_forall. intros id Hid. rewrite forallb_forall in E. apply Hx, E. by apply list_elem_of_In.
Qed.

Section invariant.
Context {blob : Type} `{!Gob blob} `{!Env} (digest : AppProfile -> bytes) (fold_case : Z -> Z).
Implicit Types (w : world blob).

Definition adm w : Prop := admin_ok (w_srv w) (meta_t (w_db w)).
Definition adm_at {A : Type} (m : M blob A) w : Prop := adm w -> adm (m w).2.

(** [m] leaves the admin records alone. *)
Definition off_admin {A : Type} (m : M blob A) : Prop := forall w,
  s_instances (w_srv (m w).2) = s_instances (w_srv w) /\ s_clusters (w_srv (m w).2) = s_clusters (w_srv w) /\
  s_appProfiles (w_srv (m w).2) = s_appProfiles (w_srv w) /\
  instances_t (meta_t (w_db (m w).2)) = instances_t (meta_t (w_db w)) /\
  clusters_t (meta_t (w_db (m w).2)) = clusters_t (meta_t (w_db w)) /\
  app_profiles_t (meta_t (w_db (m w).2)) = app_profiles_t (meta_t (w_db w)).

Lemma admin_ok_same s s' md md' : s_instances s' = s_instances s -> s_clusters s' = s_clusters s -> s_appProfiles s' = s_appProfiles s ->
  instances_t md' = instances_t md -> clusters_t md' = clusters_t md -> app_profiles_t md' = app_profiles_t md ->
  admin_ok s md -> admin_ok s' md'.
Proof. unfold admin_ok, routed. by intros -> -> -> -> -> ->. Qed.
Lemma adm_off {A : Type} (m : M blob A) w : off_admin m -> adm_at m w.
Proof. intros Hm Hw. destruct (Hm w) as (? & ? & ? & ? & ? & ?). by eapply admin_ok_same. Qed.
Lemma adm_bind {A B : Type} (m : M blob A) (f : A -> M blob B) w :
  adm_at m w -> (forall a w', m w = (Ret a, w') -> adm_at (f a) w') -> adm_at (m ≫= f) w.
Proof. intros Hm Hf Hw. rewrite bind_run. specialize (Hm Hw). destruct (m w) as [[a| |] w1]; [by eapply Hf|done|done]. Qed.
Lemma adm_lift {A B : Type} (r : outcome A) (f : A -> M blob B) w : (forall a, r = Ret a -> adm_at (f a) w) -> adm_at (lift r ≫= f) w.
Proof. intros Hf. unfold adm_at. rewrite bind_run. unfold lift. destruct r as [a| |]; [by apply Hf|done|done]. Qed.
Lemma adm_get {B : Type} (f : server -> M blob B) w : adm_at (f (w_srv w)) w -> adm_at (getServer ≫= f) w.
Proof. done. Qed.

Lemma off_bind {A B : Type} (m : M blob A) (f : A -> M blob B) : off_admin m -> (forall a, off_admin (f a)) -> off_admin (m ≫= f).
Proof.
  intros Hm Hf w. specialize (Hm w). rewrite bind_run. destruct (m w) as [[a| |] w1]; [|done|done]. specialize (Hf a w1).
  cbn [snd] in Hm. intuition congruence.
Qed.
Lemma off_ret {A : Type} (a : A) : off_admin (mret a : M blob A).
Proof. done. Qed.
Lemma off_mapErr {A : Type} f (m : M blob A) : off_admin m -> off_admin (mapErr f m).
Proof. intros Hm w. specialize (Hm w). unfold mapErr. by destruct (m w) as [[]]. Qed.
Lemma off_call {A : Type} (f : database blob -> outcome A * database blob) :
  (forall d, instances_t (meta_t (f d).2) = instances_t (meta_t d) /\ clusters_t (meta_t (f d).2) = clusters_t (meta_t d) /\
     app_profiles_t (meta_t (f d).2) = app_profiles_t (meta_t d)) -> off_admin (call f).
Proof. intros Hf w. unfold call. destruct (driver _); [done|]. specialize (Hf (w_db w)). destruct (f (w_db w)). cbn in *. intuition. Qed.
Lemma off_forM {A B : Type} (f : B -> A -> M blob B) l : (forall b a, off_admin (f b a)) -> forall b, off_admin (forM f b l).
Proof. intros Hf. induction l as [|a l IH]; intros b; cbn; [done|]. by apply off_bind. Qed.
Lemma off_ops r : off_admin (ops_complete (blob := blob) r).
Proof. intros w. unfold ops_complete. rewrite bind_run. cbn [getServer]. rewrite bind_run. cbn [putServer]. unfold mapErr, call. cbn [w_calls set_srv]. by destruct (driver _). Qed.
Lemma off_backupsUnder p : off_admin (backupsUnder (blob := blob) p).
Proof.
  unfold backupsUnder. apply off_bind; [by apply off_call|]. intros l. apply off_bind; [|done]. apply off_forM. intros b [n a].
  case_match; [|done]. by apply off_bind.
Qed.

(** *** Storing records *)

Lemma adm_save {B : Type} (upd : metadata -> metadata) (g : server -> server) (k : M blob B) w :
  (adm w -> admin_ok (g (w_srv w)) (upd (meta_t (w_db w)))) -> (forall w', adm_at k w') ->
  adm_at (_ ← mapErr storageErr (metaCall (fun md => (Ret tt, upd md))); s ← getServer; _ ← putServer (g s); k) w.
Proof.
  intros Hf Hk Hw. rewrite bind_run. unfold mapErr, metaCall, call. destruct (driver _); [done|].
  cbn [set_db w_db w_srv w_calls w_ticks w_draws]. rewrite bind_run. cbn [getServer]. rewrite bind_run. cbn [putServer]. by apply Hk, Hf.
Qed.
Lemma adm_store (upd : metadata -> metadata) (g : server -> server) w :
  (adm w -> admin_ok (g (w_srv w)) (upd (meta_t (w_db w)))) ->
  adm_at (_ ← mapErr storageErr (metaCall (fun md => (Ret tt, upd md))); s ← getServer; putServer (g s)) w.
Proof.
  intros Hf Hw. rewrite bind_run. unfold mapErr, metaCall, call. destruct (driver _); [done|]. by apply Hf.
Qed.

Lemma admin_ok_instance s md i key : admin_ok s md -> in_Name i = key -> slashes key = 3%nat ->
  admin_ok (set_instances s (<[key := i]> (s_instances s))) (set_instances_t md (<[in_Name i := i]> (instances_t md))).
Proof.
  intros (E1 & E2 & E3 & H1 & H2 & H3) <- Hsl. unfold admin_ok. cbn. split_and!; [by rewrite E1|done|done| |done|done].
  intros n j [[<- <-]|[_ Hj]]%lookup_insert_Some; [done|by apply H1].
Qed.
Lemma admin_ok_cluster s md par c : admin_ok s md -> child_of (str "/clusters/") par (cl_Name c) ->
  admin_ok (set_clusters s (<[cl_Name c := c]> (s_clusters s))) (set_clusters_t md (<[cl_Name c := (par, c)]> (clusters_t md))).
Proof.
  intros (E1 & E2 & E3 & H1 & H2 & H3) Hc. unfold admin_ok. cbn. split_and!; [done|by rewrite E2, fmap_insert|done|done| |].
  - intros n par' c' [[<- [= <- <-]]|[_ Hj]]%lookup_insert_Some; [done|by apply H2].
  - intros n par' p Hp. apply H3 in Hp as (Hn & Hch & Hr). split_and!; [done|done|]. unfold routed in *.
    assert (forall id, is_Some (clusters_t md !! (par' ++ str "/clusters/" ++ id)) ->
      is_Some (<[cl_Name c := (par, c)]> (clusters_t md) !! (par' ++ str "/clusters/" ++ id))) as Hx.
    { intros id Hid. apply lookup_insert_is_Some'. by right. }
    cbn. destruct (ap_Routing p); [done|by apply Hx|]. eapply Forall_impl; [exact Hr|]. exact Hx.
Qed.
Lemma admin_ok_profile s md par p : admin_ok s md -> child_of (str "/appProfiles/") par (ap_Name p) -> routed md par p ->
  admin_ok (set_appProfiles s (<[ap_Name p := p]> (s_appProfiles s))) (set_app_profiles_t md (<[ap_Name p := (par, p)]> (app_profiles_t md))).
Proof.
  intros (E1 & E2 & E3 & H1 & H2 & H3) Hc Hr. unfold admin_ok. cbn. split_and!; [done|done|by rewrite E3, fmap_insert|done|done|].
  intros n par' p' [[<- [= <- <-]]|[_ Hj]]%lookup_insert_Some; [done|by apply H3].
Qed.

Lemma adm_storeInstance i w : slashes (in_Name i) = 3%nat -> adm_at (storeInstance i) w.
Proof. intros Hi. apply adm_store. intros Hw. by apply admin_ok_instance. Qed.
Lemma adm_storeCluster par c w : (adm w -> child_of (str "/clusters/") par (cl_Name c)) -> adm_at (storeCluster par c) w.
Proof. intros Hc. apply adm_store. intros Hw. apply admin_ok_cluster; auto. Qed.
Lemma adm_storeAppProfile par p w : (adm w -> child_of (str "/appProfiles/") par (ap_Name p) /\ routed (meta_t (w_db w)) par p) -> adm_at (storeAppProfile par p) w.
Proof. intros Hc. apply adm_store. intros Hw. apply admin_ok_profile; [done|apply (proj1 (Hc Hw))|apply (proj2 (Hc Hw))]. Qed.

(** What follows a store never touches the admin records. *)
Lemma adm_finish {A : Type} r (a : A) w : adm_at (_ ← timeNow; _ ← ops_complete r; mret a) w.
Proof. apply adm_off, off_bind; [done|]. intros _. apply off_bind; [apply off_ops|done]. Qed.

(** *** The handlers *)

Ltac adm_if := match goal with |- adm_at (if ?b then _ else _) _ => destruct b eqn:?; [by apply adm_off|] end.

Lemma cluster_stored s md n c : admin_ok s md -> s_clusters s !! n = Some c -> cl_Name c = n /\ exists par, clusters_t md !! n = Some (par, c) /\ child_of (str "/clusters/") par n.
Proof.
  intros (_ & E & _ & _ & H2 & _) Hc. rewrite E, lookup_fmap in Hc. apply fmap_Some in Hc as ([par c'] & Hc & ->).
  destruct (H2 _ _ _ Hc) as [Hn Hch]. split; [done|]. by exists par.
Qed.
Lemma profile_stored s md n p : admin_ok s md -> s_appProfiles s !! n = Some p ->
  ap_Name p = n /\ exists par, child_of (str "/appProfiles/") par n /\ routed md par p.
Proof.
  intros (_ & _ & E & _ & _ & H3) Hc. rewrite E, lookup_fmap in Hc. apply fmap_Some in Hc as ([par p'] & Hc & ->).
  destruct (H3 _ _ _ Hc) as (Hn & Hch & Hr). split; [done|]. by exists par.
Qed.

Lemma newCluster_Ret instance id inp c : newCluster instance id inp = Ret c -> cl_Name c = instance ++ str "/clusters/" ++ id /\ 47 ∉ id /\ 0 <= cl_ServeNodes c.
Proof.
  unfold newCluster. destruct (clusterIDPattern id) eqn:E; [|done]. cbn [negb]. destruct (_ <? 0) eqn:El; [done|]. intros [= <-].
  split; [done|]. split; [by apply clusterIDPattern_slash|]. cbn. by apply Z.ltb_ge in El.
Qed.

Lemma adm_CreateCluster parent id inp w : adm_at (CreateCluster parent id inp) w.
Proof.
  unfold CreateCluster. apply adm_bind; [by apply adm_off|]. intros _ w1 _. adm_if. apply adm_lift. intros c (En & Hid & _)%newCluster_Ret.
  apply adm_get. destruct (s_instances _ !! parent) as [i|] eqn:Ei; [|by apply adm_off]. destruct (s_clusters _ !! _); [by apply adm_off|].
  apply adm_bind; [|intros _ w2 _; apply adm_finish]. apply adm_storeCluster. intros (E1 & _ & _ & H1 & _). rewrite E1 in Ei.
  split; [by apply H1 in Ei as [_ ?]|]. by exists id.
Qed.
Lemma adm_UpdateCluster req w : adm_at (UpdateCluster req) w.
Proof.
  unfold UpdateCluster. apply adm_bind; [by apply adm_off|]. intros _ w1 _. do 2 adm_if. apply adm_get.
  destruct (s_clusters _ !! _) as [c|] eqn:Ec; [|by apply adm_off]. apply adm_bind; [|intros _ w2 _; apply adm_finish].
  apply adm_storeCluster. intros Hw. destruct (cluster_stored _ _ _ _ Hw Ec) as (Hn & par & _ & Hch). cbn. rewrite Hn. by rewrite (cluster_parent par).
Qed.
Lemma updateClusterPaths_name cl paths : forall c c', foldM (updateClusterPath cl) c paths = Ret c' -> cl_Name c' = cl_Name c.
Proof.
  intros c c'. apply (foldM_inv (fun x => cl_Name x = cl_Name c)); [|done]. intros b path b' _ Hb. unfold updateClusterPath. repeat case_match; intros E; by simplify_eq.
Qed.
Lemma adm_PartialUpdateCluster cl paths w : adm_at (PartialUpdateCluster cl paths) w.
Proof.
  unfold PartialUpdateCluster. apply adm_bind; [by apply adm_off|]. intros _ w1 _. do 2 adm_if. apply adm_get.
  destruct (s_clusters _ !! _) as [c|] eqn:Ec; [|by apply adm_off]. apply adm_lift. intros next Hn%updateClusterPaths_name.
  apply adm_bind; [|intros _ w2 _; apply adm_finish].
  apply adm_storeCluster. intros Hw. destruct (cluster_stored _ _ _ _ Hw Ec) as (Hn' & par & _ & Hch). rewrite Hn, Hn'. by rewrite (cluster_parent par).
Qed.

Lemma adm_UpdateInstance req w : adm_at (UpdateInstance req) w.
Proof.
  unfold UpdateInstance. adm_if. apply adm_lift. intros _ _. apply adm_get. destruct (s_instances _ !! _) as [i|] eqn:Ei; [|by apply adm_off].
  apply adm_lift. intros ty _. set (next := mkInstance _ _ _ _ _ _).
  apply (adm_save (fun md => set_instances_t md (<[in_Name next := next]> (instances_t md))) (fun s => set_instances s (<[in_Name req := next]> (s_instances s)))); [|by intros w'; apply adm_off].
  intros Hw. pose proof Hw as (E1 & _ & _ & H1 & _). rewrite E1 in Ei. destruct (H1 _ _ Ei) as [Hn Hs]. by apply admin_ok_instance.
Qed.
Lemma updateInstancePaths_name st inst paths : forall i i', foldM (updateInstancePath st inst) i paths = Ret i' -> in_Name i' = in_Name i.
Proof.
  intros i i'. apply (foldM_inv (fun x => in_Name x = in_Name i)); [|done]. intros b path b' _ Hb. unfold updateInstancePath.
  destruct (validateInstanceDisplayName _); cbn; repeat case_match; intros E; by simplify_eq.
Qed.
Lemma adm_PartialUpdateInstance inst paths w : adm_at (PartialUpdateInstance inst paths) w.
Proof.
  unfold PartialUpdateInstance. apply adm_bind; [by apply adm_off|]. intros _ w1 _. do 2 adm_if. apply adm_get.
  destruct (s_instances _ !! _) as [i|] eqn:Ei; [|by apply adm_off]. apply adm_lift. intros next Hn%updateInstancePaths_name.
  apply (adm_save (fun md => set_instances_t md (<[in_Name next := next]> (instances_t md))) (fun s => set_instances s (<[in_Name inst := next]> (s_instances s)))); [|intros w'; apply adm_finish].
  intros Hw. pose proof Hw as (E1 & _ & _ & H1 & _). rewrite E1 in Ei. destruct (H1 _ _ Ei) as [Hn' Hs]. apply admin_ok_instance; [done|congruence|done].
Qed.

Lemma adm_CreateAppProfile parent id inp w : adm_at (CreateAppProfile digest parent id inp) w.
Proof.
  unfold CreateAppProfile. destruct (Nat.eqb _ _); [by apply adm_off|]. destruct (appProfileIDRegexp id) eqn:Eid; [|by apply adm_off]. cbn [negb orb].
  apply adm_get. destruct (s_instances _ !! parent) as [i|] eqn:Ei; [|by apply adm_off]. destruct (s_appProfiles _ !! _); [by apply adm_off|].
  apply adm_lift. intros [] Hv. apply adm_bind; [|by intros _ w2 _; apply adm_off]. apply adm_storeAppProfile. intros Hw.
  pose proof Hw as (E1 & E2 & _ & H1 & _). rewrite E1 in Ei. eapply validateRouting_ok in Hv; [|exact E2]. cbn in Hv.
  unfold setDefaultIsolation. cbn [ap_Isolation]. destruct (ap_Isolation _); cbn; (split; [split; [by apply H1 in Ei as [_ ?]|exists id; split; [done|by apply appProfileID_slash]]|exact Hv]).
Qed.
Lemma updateProfilePaths_name src paths : forall p p', foldM (updateProfilePath src) p paths = Ret p' -> ap_Name p' = ap_Name p.
Proof.
  intros p p'. apply (foldM_inv (fun x => ap_Name x = ap_Name p)); [|done]. intros b path b' _ Hb. unfold updateProfilePath. repeat case_match; intros E; by simplify_eq.
Qed.
Lemma adm_UpdateAppProfile update paths w : adm_at (UpdateAppProfile digest update paths) w.
Proof.
  unfold UpdateAppProfile. do 2 adm_if. apply adm_get. destruct (s_appProfiles _ !! _) as [cur|] eqn:Ec; [|by apply adm_off].
  apply adm_lift. intros _ _. apply adm_lift. intros next Hn%updateProfilePaths_name. apply adm_lift. intros [] Hv.
  apply adm_bind; [|intros _ w2 _; apply adm_off, off_bind; [apply off_ops|done]]. apply adm_storeAppProfile. intros Hw.
  destruct (profile_stored _ _ _ _ Hw Ec) as (Hn' & par & Hch & _). pose proof Hw as (_ & E2 & _). eapply validateRouting_ok in Hv; [|exact E2].
  rewrite Hn, Hn', (profile_parent par) in * by done. assert (ap_Name (setDefaultIsolation next) = ap_Name update /\ ap_Routing (setDefaultIsolation next) = ap_Routing next) as [Hx Hy].
  { unfold setDefaultIsolation. destruct (ap_Isolation next); cbn; by rewrite Hn. }
  split; [cbn; by rewrite Hx|]. unfold routed in *. cbn. by rewrite Hy.
Qed.

Lemma adm_DeleteAppProfile name w : adm_at (DeleteAppProfile name) w.
Proof.
  unfold DeleteAppProfile. apply adm_get. destruct (s_appProfiles _ !! _) as [cur|] eqn:Ec; [|by apply adm_off].
  apply (adm_store (fun md => set_app_profiles_t md (delete name (app_profiles_t md))) (fun s => set_appProfiles s (delete name (s_appProfiles s)))).
  intros (E1 & E2 & E3 & H1 & H2 & H3). unfold admin_ok. cbn. split_and!; [done|done|by rewrite E3, fmap_delete|done|done|].
  intros n par p [_ Hp]%lookup_delete_Some. by apply H3.
Qed.

(** No app profile routes to the cluster DeleteCluster removes. *)
Lemma adm_DeleteCluster name w : adm_at (DeleteCluster name) w.
Proof.
  unfold DeleteCluster. apply adm_get. destruct (s_clusters _ !! name) as [c|] eqn:Ec; [|by apply adm_off]. adm_if.
  apply adm_bind; [by apply adm_off, off_mapErr, off_backupsUnder|]. intros [|b bs] w1 Eb; [|by apply adm_off].
  assert (adm w1 -> s_clusters (w_srv w1) = s_clusters (w_srv w) /\ s_appProfiles (w_srv w1) = s_appProfiles (w_srv w)) as Hsame.
  { intros _. pose proof (off_mapErr storageErr _ (off_backupsUnder (name ++ str "/backups/")) w) as Ho. rewrite Eb in Ho. cbn in Ho. tauto. }
  destruct (existsb _ _) eqn:Ex; [by apply adm_off|].
  apply (adm_store (fun md => set_clusters_t md (delete name (clusters_t md))) (fun s => set_clusters s (delete name (s_clusters s)))).
  intros Hw. destruct (Hsame Hw) as [Es Ep]. rewrite <- Es in Ec. rewrite <- Ep in Ex. destruct (cluster_stored _ _ _ _ Hw Ec) as (_ & par & Hcl & Hch).
  rewrite (cluster_parent par) in Ex by done. pose proof Hch as (Hsl & id & -> & Hid). rewrite app_assoc, TrimPrefix_app in Ex.
  pose proof Hw as (E1 & E2 & E3 & H1 & H2 & H3). unfold admin_ok. cbn. split_and!; [done|by rewrite E2, fmap_delete|done|done| |].
  - intros n par' c' [_ Hc]%lookup_delete_Some. by apply H2.
  - intros n par' p Hp. destruct (H3 _ _ _ Hp) as (Hn & Hch' & Hr). split_and!; [done|done|].
    assert (forall rid, rid ∈ match ap_Routing p with Routing_Single i _ => [i] | Routing_Any ids => ids | _ => [] end ->
      par' ++ str "/clusters/" ++ rid <> par ++ str "/clusters/" ++ id) as Hne.
    { intros rid Hin E. destruct Hch' as (Hsl' & pid & Hpn & _). apply (child_split _ _ _ _ (str "clusters/")) in E as [-> ->]; [|congruence].
      assert (p ∈ map_vals (s_appProfiles (w_srv w1))) as Hpin by (apply elem_of_map_vals; exists n; by rewrite E3, lookup_fmap, Hp).
      apply Bool.not_true_iff_false in Ex. apply Ex, existsb_exists. exists p. split; [by apply list_elem_of_In|].
      rewrite andb_true_iff, orb_true_iff, bool_decide_eq_true. split.
      - destruct (ap_Routing p) as [|i allow|ids]; [by apply elem_of_nil in Hin|left; by apply list_elem_of_singleton in Hin|].
        right. apply existsb_exists. exists id. split; [by apply list_elem_of_In|by apply bool_decide_eq_true].
      - apply HasPrefix_spec. exists (str "appProfiles/" ++ pid). rewrite Hn, Hpn. by rewrite <- app_assoc. }
    unfold routed in *. cbn. destruct (ap_Routing p) as [|i allow|ids]; [done| |].
    + rewrite lookup_delete_ne; [done|]. apply not_eq_sym, Hne. by apply list_elem_of_singleton.
    + rewrite list.Forall_forall in *. intros rid Hin. rewrite lookup_delete_ne; [by apply Hr|]. by apply not_eq_sym, Hne.
Qed.

(** The default profile routes to a cluster when the instance has one. *)
Lemma adm_ensureDefault instance w : slashes instance = 3%nat ->
  (exists id, is_Some (s_clusters (w_srv w) !! (instance ++ str "/clusters/" ++ id))) -> adm_at (ensureDefaultAppProfileLocked digest instance) w.
Proof.
  intros Hsl (id & c & Hc). unfold ensureDefaultAppProfileLocked. apply adm_get. destruct (s_appProfiles _ !! _); [by apply adm_off|].
  set (ids := sort_strings _). apply adm_storeAppProfile. intros Hw. split.
  { cbn. split; [done|]. exists (str "default"). split; [done|]. apply (bool_decide_unpack _). by vm_compute. }
  assert (forall i, i ∈ ids <-> is_Some (s_clusters (w_srv w) !! (instance ++ str "/clusters/" ++ i))) as Hids.
  { intros i. unfold ids. rewrite elem_of_sort_strings, list_elem_of_fmap. split.
    - intros (n & -> & [Hp Hn]%list_elem_of_filter). apply HasPrefix_spec in Hp as [rest ->]. rewrite TrimPrefix_app. rewrite elem_of_map_keys in Hn. by rewrite app_assoc.
    - intros Hi. exists (instance ++ str "/clusters/" ++ i). rewrite app_assoc, TrimPrefix_app. split; [done|]. apply list_elem_of_filter.
      split; [apply HasPrefix_spec; by eexists|]. apply elem_of_map_keys. by rewrite <- app_assoc. }
  pose proof Hw as (_ & E2 & _). unfold routed. cbn. destruct ids as [|i0 ids'].
  - exfalso. assert (id ∈ []) as Habs by (apply Hids; by eexists). by apply elem_of_nil in Habs.
  - assert (i0 ∈ i0 :: ids') as Hi by left. apply Hids in Hi. by rewrite E2, lookup_fmap, fmap_is_Some in Hi.
Qed.

Lemma storeCluster_Ret par c w w' : storeCluster (blob := blob) par c w = (Ret tt, w') -> s_clusters (w_srv w') = <[cl_Name c := c]> (s_clusters (w_srv w)).
Proof.
  unfold storeCluster. intros ([] & w1 & E1%mapErr_Ret & (s & w2 & [= <- <-] & [= <-])%bind_Ret)%bind_Ret. apply metaCall_Ret in E1 as (md & _ & ->). done.
Qed.
Lemma storeClusters_Ret par l : forall w w', forM (fun _ c => storeCluster (blob := blob) par c) tt l w = (Ret tt, w') ->
  forall n, is_Some (s_clusters (w_srv w') !! n) <-> n ∈ cl_Name <$> l \/ is_Some (s_clusters (w_srv w) !! n).
Proof.
  induction l as [|c l IH]; intros w w'; cbn; [intros [_ ->]%ret_Ret n; set_solver|]. intros ([] & w1 & E1 & E2)%bind_Ret n.
  rewrite (IH _ _ E2), (storeCluster_Ret _ _ _ _ E1), lookup_insert_is_Some'. set_solver.
Qed.
Lemma adm_storeClusters par l : Forall (fun c => child_of (str "/clusters/") par (cl_Name c)) l ->
  forall w, adm_at (forM (fun _ c => storeCluster (blob := blob) par c) tt l) w.
Proof.
  induction l as [|c l IH]; intros Hl w; cbn; [by apply adm_off|]. apply Forall_cons in Hl as [Hc Hl].
  apply adm_bind; [by apply adm_storeCluster|]. intros [] w1 _. by apply IH.
Qed.

Lemma newClusters_Ret (name : bytes) (req : gmap bytes Cluster) ids cs : collectM (fun id => newCluster name id (req !! id)) ids = Ret cs -> slashes name = 3%nat ->
  Forall (fun c => child_of (str "/clusters/") name (cl_Name c)) cs /\ cl_Name <$> cs = (fun id => name ++ str "/clusters/" ++ id) <$> ids.
Proof.
  revert cs. induction ids as [|id ids IH]; intros cs E Hsl; cbn in E; [injection E as <-; by split|].
  destruct (newCluster name id _) as [c| |] eqn:Ec; cbn in E; [|done|done]. destruct (collectM _ ids) as [cs'| |]; cbn in E; [|done|done]. injection E as <-.
  destruct (IH _ eq_refl Hsl) as [H1 H2]. apply newCluster_Ret in Ec as (En & Hid & _). split.
  - constructor; [|done]. split; [done|]. by exists id.
  - rewrite !fmap_cons, En. by rewrite <- H2.
Qed.

Lemma adm_CreateInstance req w : slashes (ci_Parent req) = 1%nat -> adm_at (CreateInstance digest req) w.
Proof.
  intros Hp. unfold CreateInstance. apply adm_bind; [by apply adm_off|]. intros start w1 _. adm_if.
  destruct (instanceIDPattern _) eqn:Eid; [|by apply adm_off]. cbn [negb]. destruct (bool_decide _) eqn:Ene; [by apply adm_off|]. apply bool_decide_eq_false in Ene.
  apply adm_lift. intros _ _. set (name := ci_Parent req ++ str "/instances/" ++ ci_InstanceId req).
  assert (slashes name = 3%nat) as Hsl.
  { unfold name. rewrite !slashes_app, Hp, (slashes_none (ci_InstanceId req)) by (by apply instanceIDPattern_slash). by vm_compute. }
  apply adm_lift. intros cs Hcs. apply (newClusters_Ret name) in Hcs as [Hcs Hnames]; [|done]. apply adm_get. destruct (s_instances _ !! name); [by apply adm_off|].
  apply adm_bind; [by apply adm_storeInstance|]. intros [] w2 _. apply adm_bind; [by apply adm_storeClusters|]. intros [] w3 E3.
  apply adm_bind; [|intros [] w4 _; apply adm_finish]. apply adm_ensureDefault; [done|].
  apply map_choose in Ene as (id & c & Hc). exists id. apply (storeClusters_Ret _ _ _ _ E3). left. rewrite Hnames, list_elem_of_fmap. exists id. split; [done|].
  apply elem_of_sort_strings, elem_of_map_keys. by eexists.
Qed.

Lemma off_clearInstance s name : off_admin (clearInstance (blob := blob) fold_case s name).
Proof.
  assert (forall proj remove p, (forall n, off_admin (remove n)) -> off_admin (removeNames (blob := blob) proj remove p)) as Hrm.
  { intros proj remove p Hr. unfold removeNames. apply off_bind; [by apply off_call|]. intros l. apply off_forM. intros [] n. apply Hr. }
  apply off_bind. { apply off_forM. intros [] [n t]. case_match; [done|]. apply off_bind; [by apply off_call|]. intros _. apply off_bind; [by apply off_call|]. intros _. by apply off_call. }
  intros _. apply off_bind. { apply off_forM. intros [] t. case_match; [|done]. apply off_bind; [by apply off_call|]. intros _. by apply off_call. }
  intros _. apply off_bind; [apply Hrm; intros n; by apply off_call|]. intros _. apply off_bind; [apply Hrm; intros n; by apply off_call|].
  intros _. apply off_bind; [apply Hrm; intros n; by apply off_call|].
  intros _. apply off_bind. { apply off_forM. intros [] n. case_match; [|done]. apply off_bind; [by apply off_call|]. intros _. by apply off_call. }
  intros _. apply off_bind; [by apply off_call|]. intros _. by apply off_call.
Qed.

(** The maps of admin records in memory. *)
Definition mem_same w w' : Prop :=
  s_instances (w_srv w') = s_instances (w_srv w) /\ s_clusters (w_srv w') = s_clusters (w_srv w) /\ s_appProfiles (w_srv w') = s_appProfiles (w_srv w).
Lemma srv_call {A : Type} (f : database blob -> outcome A * database blob) w : w_srv (call f w).2 = w_srv w.
Proof. unfold call. destruct (driver _); [done|]. by destruct (f _). Qed.
Lemma mem_withTx {A : Type} (m : M blob A) : (forall w, mem_same w (m w).2) -> forall w, mem_same w (withTx m w).2.
Proof.
  intros Hm w. unfold withTx. pose proof (srv_call (fun d => (Ret tt, d)) w) as H0. destruct (call _ w) as [[[]| |] w0]; cbn [snd] in H0; unfold mem_same; [|cbn; by rewrite H0..].
  specialize (Hm w0). unfold mem_same in Hm. rewrite H0 in Hm. destruct (m w0) as [[a| |] w1]; cbn [snd] in Hm; [|done|done].
  pose proof (srv_call (fun d => (Ret tt, d)) w1) as H1. destruct (call _ w1) as [[[]| |] w2]; cbn [snd] in H1; cbn; by rewrite H1.
Qed.
Lemma srv_deleteInstanceTx name w : w_srv (deleteInstanceTx (blob := blob) name w).2 = w_srv w.
Proof.
  unfold deleteInstanceTx, metaCall. rewrite bind_run. match goal with |- context [call ?f w] => pose proof (srv_call f w) as H1; destruct (call f w) as [[[]| |] w1] end; [|done|done].
  rewrite bind_run. match goal with |- context [call ?f w1] => pose proof (srv_call f w1) as H2; destruct (call f w1) as [[[]| |] w2] end; cbn [snd] in *; [|congruence|congruence].
  rewrite srv_call. congruence.
Qed.

Lemma deleteInstanceTx_Ret name w w' : deleteInstanceTx (blob := blob) name w = (Ret tt, w') -> w_srv w' = w_srv w /\
  instances_t (meta_t (w_db w')) = delete name (instances_t (meta_t (w_db w))) /\
  clusters_t (meta_t (w_db w')) = filter (fun '(_, (parent, _)) => parent <> name) (clusters_t (meta_t (w_db w))) /\
  app_profiles_t (meta_t (w_db w')) = filter (fun '(_, (parent, _)) => parent <> name) (app_profiles_t (meta_t (w_db w))).
Proof.
  unfold deleteInstanceTx. intros ([] & w1 & E1 & ([] & w2 & E2 & E3)%bind_Ret)%bind_Ret.
  apply metaCall_Ret in E1 as (? & [= <-] & ->), E2 as (? & [= <-] & ->), E3 as (? & [= <-] & ->). done.
Qed.

(** Deleting by parent in the tables and by prefix in memory is the same. *)
Lemma filter_children {T : Type} (kind : bytes) (m : gmap bytes (bytes * T)) (ms : gmap bytes T) name : slashes name = 3%nat -> ms = snd <$> m ->
  (forall n par x, m !! n = Some (par, x) -> child_of (47 :: kind) par n) ->
  filter (fun '(n, _) => HasPrefix n (name ++ 47 :: kind) = false) ms = snd <$> filter (fun '(_, (parent, _)) => parent <> name) m.
Proof.
  intros Hsl -> Hm. apply map_eq. intros n. rewrite map_lookup_filter, lookup_fmap, lookup_fmap, map_lookup_filter.
  destruct (m !! n) as [[par x]|] eqn:E; cbn; [|done]. pose proof (child_prefix kind par n name (Hm _ _ _ E) Hsl) as Hp.
  destruct (decide (par = name)) as [->|Hne].
  - rewrite option_guard_False, option_guard_False by (try tauto; by rewrite (proj2 Hp)). done.
  - rewrite option_guard_True, option_guard_True by (try tauto; apply Bool.not_true_iff_false; tauto). done.
Qed.

Lemma admin_ok_delete s s' md md' name : admin_ok s md -> slashes name = 3%nat ->
  s_instances s' = delete name (s_instances s) ->
  s_clusters s' = filter (fun '(n, _) => HasPrefix n (name ++ str "/clusters/") = false) (s_clusters s) ->
  s_appProfiles s' = filter (fun '(n, _) => HasPrefix n (name ++ str "/appProfiles/") = false) (s_appProfiles s) ->
  instances_t md' = delete name (instances_t md) ->
  clusters_t md' = filter (fun '(_, (parent, _)) => parent <> name) (clusters_t md) ->
  app_profiles_t md' = filter (fun '(_, (parent, _)) => parent <> name) (app_profiles_t md) -> admin_ok s' md'.
Proof.
  intros (E1 & E2 & E3 & H1 & H2 & H3) Hsl F1 F2 F3 G1 G2 G3. unfold admin_ok. rewrite F1, F2, F3, G1, G2, G3. split_and!.
  - by rewrite E1.
  - apply (filter_children (str "clusters/")); [done|done|]. intros n par x Hx. by apply H2 in Hx as [_ ?].
  - apply (filter_children (str "appProfiles/")); [done|done|]. intros n par x Hx. by apply H3 in Hx as (_ & ? & _).
  - intros n i [_ Hi]%lookup_delete_Some. by apply H1.
  - intros n par c [Hc _]%map_lookup_filter_Some. by apply H2.
  - intros n par p [Hp Hne]%map_lookup_filter_Some. destruct (H3 _ _ _ Hp) as (Hn & Hch & Hr). split_and!; [done|done|].
    assert (forall id, is_Some (clusters_t md !! (par ++ str "/clusters/" ++ id)) -> is_Some (clusters_t md' !! (par ++ str "/clusters/" ++ id))) as Hx.
    { intros id [[par2 c] Hc]. exists (par2, c). rewrite G2. apply map_lookup_filter_Some. split; [done|].
      apply H2 in Hc as (_ & Hsl2 & id2 & E & _). apply (child_split _ _ _ _ (str "clusters/")) in E as [<- _]; [done|]. destruct Hch as [-> _]. done. }
    unfold routed in *. destruct (ap_Routing p); [done|by apply Hx|]. eapply Forall_impl; [exact Hr|]. exact Hx.
Qed.

Lemma adm_DeleteInstance name w : adm_at (DeleteInstance fold_case name) w.
Proof.
  unfold DeleteInstance. adm_if. apply adm_get. destruct (s_instances _ !! name) as [i|] eqn:Ei; [|by apply adm_off].
  assert (adm w -> slashes name = 3%nat) as Hsl by (intros (E1 & _ & _ & H1 & _); rewrite E1 in Ei; by apply H1 in Ei as [_ ?]).
  intros Hw0. specialize (Hsl Hw0). revert w Hw0 Ei. enough (forall w0 w : world blob, adm_at (_ ← forM (fun _ '(tableName, tbl) =>
      if negb (HasPrefix tableName (name ++ str "/tables/")) then mret tt
      else mapErr (fun _ => FailedPrecondition) (checkTableDeletable tbl)) tt (map_to_list (s_tables (w_srv w0)));
    backups ← mapErr storageErr (backupsUnder (name ++ str "/clusters/"));
    match backups with
    | _ :: _ => fail FailedPrecondition
    | [] =>
        views ← mapErr storageErr (listPrefix (fun d => logical_views_t (meta_t d)) (name ++ str "/logicalViews/"));
        if existsb (fun '(_, lv) => lv_DeletionProtection lv) views then fail FailedPrecondition
        else if existsb (fun '(n, mv) => HasPrefix n (name ++ str "/") && mv_DeletionProtection mv) (map_to_list (s_mvs (w_srv w0)))
        then fail FailedPrecondition
        else _ ← mapErr storageErr (withTx (_ ← clearInstance fold_case (w_srv w0) name; deleteInstanceTx name));
          s ← getServer; putServer (forgetInstance s name)
    end) w) as Hgen by (intros w Hw _; by apply (Hgen w w)).
  intros w0 w. apply adm_bind.
  { apply adm_off, off_forM. intros [] [n t]. case_match; [done|]. apply off_mapErr. unfold checkTableDeletable. case_match; [done|].
    apply off_bind; [by apply off_mapErr, off_call|]. intros l. case_match; [done|]. apply off_bind; [done|]. intros s. by case_match. }
  intros [] w1 _. apply adm_bind; [by apply adm_off, off_mapErr, off_backupsUnder|]. intros [|b bs] w2 _; [|by apply adm_off].
  apply adm_bind; [by apply adm_off, off_mapErr, off_call|]. intros views w3 _. do 2 adm_if. intros Hw. rewrite bind_run.
  pose proof (atomic_mapErr storageErr _ (atomic_withTx (_ ← clearInstance fold_case (w_srv w0) name; deleteInstanceTx name)) w3) as Hat.
  assert (mem_same w3 (mapErr storageErr (withTx (_ ← clearInstance fold_case (w_srv w0) name; deleteInstanceTx name)) w3).2) as Hmem.
  { unfold mapErr. match goal with |- context [withTx ?m w3] => assert (mem_same w3 (withTx m w3).2) as Hmem; [apply mem_withTx|by destruct (withTx m w3) as [[]]] end.
    intros wx. rewrite bind_run. pose proof (off_clearInstance (w_srv w0) name wx) as (O1 & O2 & O3 & _).
    destruct (clearInstance _ _ _ wx) as [[[]| |] wy]; cbn [snd] in *; [|done|done]. unfold mem_same. rewrite (srv_deleteInstanceTx name wy). done. }
  destruct (mapErr _ _ w3) as [[[]| |] w4] eqn:E4; [|destruct Hmem as (M1 & M2 & M3); cbn in *; eapply admin_ok_same; [..|exact Hw]; by rewrite ?Hat..].
  apply mapErr_Ret, withTx_Ret in E4 as (wa & wb & Hda & Hsa & ([] & wc & Ec & Ed)%bind_Ret & Hdb & Hsb).
  pose proof (off_clearInstance (w_srv w0) name wa) as Ho. rewrite Ec in Ho. cbn [snd] in Ho. destruct Ho as (O1 & O2 & O3 & O4 & O5 & O6).
  apply deleteInstanceTx_Ret in Ed as (Es & D1 & D2 & D3). rewrite bind_run. cbn [getServer putServer snd].
  eapply (admin_ok_delete (w_srv w3) _ (meta_t (w_db w3)) _ name); [exact Hw|done|..]; unfold forgetInstance; cbn; congruence.
Qed.
End invariant.

(** ** Loading the records at start-up *)

Section load.
Context {blob : Type} `{!Gob blob} `{!Env}.
Implicit Types (w : world blob).

Lemma fold_by_name {T : Type} (nm : T -> bytes) (m : gmap bytes T) (l : list T) : (forall x, x ∈ l -> m !! nm x = Some x) ->
  forall (acc : gmap bytes T) n, foldl (fun a x => <[nm x := x]> a) acc l !! n = if decide (n ∈ nm <$> l) then m !! n else acc !! n.
Proof.
  induction l as [|x l IH]; intros Hl acc n; cbn; [rewrite decide_False; [done|by apply not_elem_of_nil]|].
  rewrite IH by (intros y Hy; apply Hl; by right). destruct (decide (n ∈ nm <$> l)) as [Hin|Hni].
  - rewrite decide_True by (by right). done.
  - destruct (decide (nm x = n)) as [<-|Hne].
    + rewrite decide_True by left. rewrite lookup_insert_eq. symmetry. apply Hl. left.
    + rewrite lookup_insert_ne by done. rewrite decide_False; [done|]. intros [?|?]%elem_of_cons; [by apply Hne|done].
Qed.
Lemma fold_all {T : Type} (nm : T -> bytes) (m : gmap bytes T) (l : list T) : (forall n x, m !! n = Some x -> nm x = n) ->
  (forall x, x ∈ l <-> exists n, m !! n = Some x) -> foldl (fun a x => <[nm x := x]> a) ∅ l = m.
Proof.
  intros Hm Hl. apply map_eq. intros k. rewrite (fold_by_name nm m).
  - destruct (decide _) as [_|Hni]; [done|]. rewrite lookup_empty. symmetry. apply eq_None_not_Some. intros [x Hx]. apply Hni, list_elem_of_fmap.
    exists x. split; [symmetry; by apply Hm|]. apply Hl. by exists k.
  - intros x [n Hx]%Hl. rewrite (Hm _ _ Hx). done.
Qed.

Lemma run_loadAll {T : Type} (Hdrv : forall n, driver n = None) (proj : metadata -> list T) w :
  exists w', loadAll proj w = (Ret (proj (meta_t (w_db w))), w') /\ w_db w' = set_meta_t (w_db w) (meta_t (w_db w)) /\ w_srv w' = w_srv w.
Proof. unfold loadAll. rewrite bind_run. unfold catch, metaCall, call. rewrite Hdrv. cbn. by eexists. Qed.

(** A server that starts with empty maps ends up with the maps of the one that
    wrote the database. *)
Lemma LoadAdminMetadata_ok (Hdrv : forall n, driver n = None) s w : admin_ok s (meta_t (w_db w)) ->
  s_instances (w_srv w) = ∅ -> s_clusters (w_srv w) = ∅ -> s_appProfiles (w_srv w) = ∅ ->
  exists w', LoadAdminMetadata w = (Ret tt, w') /\ s_instances (w_srv w') = s_instances s /\
    s_clusters (w_srv w') = s_clusters s /\ s_appProfiles (w_srv w') = s_appProfiles s.
Proof.
  intros (E1 & E2 & E3 & H1 & H2 & H3) F1 F2 F3. unfold LoadAdminMetadata. rewrite bind_run.
  destruct (run_loadAll Hdrv (fun md => map_vals (instances_t md)) w) as (w1 & -> & D1 & S1). rewrite bind_run. cbn [getServer]. rewrite bind_run. cbn [putServer].
  rewrite bind_run. match goal with |- context [loadAll _ ?wx] => set (wa := wx) end.
  destruct (run_loadAll Hdrv (fun md => snd <$> map_vals (clusters_t md)) wa) as (w2 & -> & D2 & S2). rewrite bind_run. cbn [getServer]. rewrite bind_run. cbn [putServer].
  rewrite bind_run. match goal with |- context [loadAll _ ?wx] => set (wb := wx) end.
  destruct (run_loadAll Hdrv (fun md => snd <$> map_vals (app_profiles_t md)) wb) as (w3 & -> & D3 & S3). rewrite bind_run. cbn [getServer putServer].
  eexists. split; [reflexivity|].
  assert (meta_t (w_db wa) = meta_t (w_db w)) as Ma by (unfold wa; cbn; by rewrite D1).
  assert (meta_t (w_db wb) = meta_t (w_db w)) as Mb by (unfold wb; cbn; rewrite D2; exact Ma).
  rewrite Mb, S3. unfold wb. cbn [w_srv set_srv set_instances set_clusters set_appProfiles s_instances s_clusters s_appProfiles]. rewrite S2, Ma.
  unfold wa. cbn [w_srv set_srv set_instances set_clusters set_appProfiles s_instances s_clusters s_appProfiles]. rewrite S1, F1, F2, F3. split_and!.
  - rewrite E1. apply fold_all; [intros n x Hx; by apply H1 in Hx as [? _]|]. intros x. apply elem_of_map_vals.
  - rewrite E2. apply fold_all.
    + intros n c. rewrite lookup_fmap, fmap_Some. intros ([par c'] & Hc & ->). by apply H2 in Hc as [? _].
    + intros c. rewrite list_elem_of_fmap. setoid_rewrite elem_of_map_vals. setoid_rewrite lookup_fmap. setoid_rewrite fmap_Some. naive_solver.
  - rewrite E3. apply fold_all.
    + intros n p. rewrite lookup_fmap, fmap_Some. intros ([par p'] & Hp & ->). by apply H3 in Hp as [? _].
    + intros p. rewrite list_elem_of_fmap. setoid_rewrite elem_of_map_vals. setoid_rewrite lookup_fmap. setoid_rewrite fmap_Some. naive_solver.
Qed.
End load.

(** C8: Every admin handler keeps the admin metadata consistent, on success and
    on every failure: memory and database hold the same instances, clusters and
    app profiles, each under its own name, and every app profile routes to
    clusters that exist (a cluster in use cannot be deleted, and an instance
    goes with all its clusters and profiles).  So a restart with a working
    driver finds the same records.  CreateInstance is used with a parent
    [projects/{project}]. *)
Theorem admin_metadata_consistent {blob : Type} `{!Gob blob} `{!Env} (digest : AppProfile -> bytes) (fold_case : Z -> Z) (w : world blob) :
  adm w ->
  (forall req, slashes (ci_Parent req) = 1%nat -> adm (CreateInstance digest req w).2) /\
  (forall req, adm (UpdateInstance req w).2) /\ (forall inst paths, adm (PartialUpdateInstance inst paths w).2) /\
  (forall name, adm (DeleteInstance fold_case name w).2) /\
  (forall parent id inp, adm (CreateCluster parent id inp w).2) /\ (forall req, adm (UpdateCluster req w).2) /\
  (forall c paths, adm (PartialUpdateCluster c paths w).2) /\ (forall name, adm (DeleteCluster name w).2) /\
  (forall parent id inp, adm (CreateAppProfile digest parent id inp w).2) /\
  (forall p paths, adm (UpdateAppProfile digest p paths w).2) /\ (forall name, adm (DeleteAppProfile name w).2) /\
  (forall w0 : world blob, (forall n, driver n = None) -> meta_t (w_db w0) = meta_t (w_db w) ->
     s_instances (w_srv w0) = ∅ -> s_clusters (w_srv w0) = ∅ -> s_appProfiles (w_srv w0) = ∅ ->
     exists w', LoadAdminMetadata w0 = (Ret tt, w') /\ s_instances (w_srv w') = s_instances (w_srv w) /\
       s_clusters (w_srv w') = s_clusters (w_srv w) /\ s_appProfiles (w_srv w') = s_appProfiles (w_srv w)).
Proof.
  intros Hw. split_and!; intros.
  - by apply adm_CreateInstance.
  - by apply adm_UpdateInstance.
  - by apply adm_PartialUpdateInstance.
  - by apply adm_DeleteInstance.
  - by apply adm_CreateCluster.
  - by apply adm_UpdateCluster.
  - by apply adm_PartialUpdateCluster.
  - by apply adm_DeleteCluster.
  - by apply adm_CreateAppProfile.
  - by apply adm_UpdateAppProfile.
  - by apply adm_DeleteAppProfile.
  - apply LoadAdminMetadata_ok; [done| |done|done|done]. by match goal with E : meta_t _ = _ |- _ => rewrite E end.
Qed.

Module SampleAdmin.
Definition digest (p : AppProfile) : bytes := ap_Name p.
Definition server0 : server := mkServer ∅ ∅ ∅ ∅ ∅ ∅ 0.
Definition world0 : world (gmap bytes family) := mkWorld (mkDatabase ∅ ∅ [] 0 ∅ ∅ ∅ ∅ ∅ no_metadata) server0 0 0 0.
Definition req : CreateInstanceRequest :=
  mkCreateInstance (str "projects/p") (str "instance") None {[ str "cluster-1" := mkCluster [] [] 1 STORAGE_TYPE_UNSPECIFIED None 0;
    str "cluster-2" := mkCluster [] [] 1 STORAGE_TYPE_UNSPECIFIED None 0 ]}.
Definition name : bytes := str "projects/p/instances/instance".
(** The second driver call, the first cluster's, fails. *)
Definition failing : Env := mkEnv (fun n => if (n =? 1)%nat then Some F_Other else None) SampleWorld.seconds (fun _ => F_Fin 1 2).
Definition created := CreateInstance (H := SampleWorld.working) digest req world0.
Definition half := CreateInstance (H := failing) digest req world0.
Definition retried := CreateInstance (H := SampleWorld.working) digest req half.2.
Lemma ok0 : adm world0.
Proof. unfold adm, admin_ok, world0. cbn. rewrite !fmap_empty. split_and!; [done|done|done|..]; intros *; by rewrite lookup_empty. Qed.
End SampleAdmin.

Lemma admin_metadata_consistent_witness :
  adm SampleAdmin.created.2 /\ map_keys (s_clusters (w_srv SampleAdmin.created.2)) <> [] /\
  adm (DeleteCluster (H := SampleWorld.working) (SampleAdmin.name ++ str "/clusters/cluster-1") SampleAdmin.created.2).2.
Proof.
  assert (adm SampleAdmin.created.2) as Hok.
  { unfold SampleAdmin.created. refine (proj1 (admin_metadata_consistent (H := SampleWorld.working) SampleAdmin.digest (fun c => c) SampleAdmin.world0 SampleAdmin.ok0) SampleAdmin.req _).
    vm_compute. reflexivity. }
  split; [exact Hok|]. split; [vm_compute; discriminate|].
  destruct (admin_metadata_consistent (H := SampleWorld.working) SampleAdmin.digest (fun c => c) SampleAdmin.created.2 Hok) as (_ & _ & _ & _ & _ & _ & _ & Hd & _).
  exact (Hd (SampleAdmin.name ++ str "/clusters/cluster-1")).
Defined.

(** CreateInstance is not atomic: when the statement that stores the first
    cluster fails, the instance stays behind without clusters and without an app
    profile, and the same request then fails because the instance exists. *)
Theorem CreateInstance_half_done :
  SampleAdmin.half.1 = Err Internal /\
  is_Some (s_instances (w_srv SampleAdmin.half.2) !! SampleAdmin.name) /\ s_clusters (w_srv SampleAdmin.half.2) = ∅ /\
  s_appProfiles (w_srv SampleAdmin.half.2) = ∅ /\ SampleAdmin.retried.1 = Err AlreadyExists.
Proof. split_and!; [vm_compute; reflexivity|vm_compute; eauto|vm_compute; reflexivity..]. Qed.

(** PartialUpdateInstance takes a [PRODUCTION] instance to [DEVELOPMENT] in two
    steps: an update to [TYPE_UNSPECIFIED] is accepted, and from there any. *)
Theorem production_to_development (i : Instance) :
  in_Type i = PRODUCTION ->
  exists i1 i2,
    updateInstancePath i (mkInstance (in_Name i) [] TYPE_UNSPECIFIED EDITION_UNSPECIFIED ∅ 0) i (str "type") = Ret i1 /\
    updateInstancePath i1 (mkInstance (in_Name i) [] DEVELOPMENT EDITION_UNSPECIFIED ∅ 0) i1 (str "type") = Ret i2 /\ in_Type i2 = DEVELOPMENT /\
    updateInstancePath i (mkInstance (in_Name i) [] DEVELOPMENT EDITION_UNSPECIFIED ∅ 0) i (str "type") = Err InvalidArgument.
Proof. intros E. unfold updateInstancePath. cbn. rewrite E. by eexists _, _. Qed.

(** A negative node count is rejected when a cluster is created or updated but
    accepted by PartialUpdateCluster. *)
Theorem negative_serve_nodes (c : Cluster) : updateClusterPath (mkCluster (cl_Name c) [] (-1) STORAGE_TYPE_UNSPECIFIED None 0) c (str "serve_nodes") =
  Ret (mkCluster (cl_Name c) (cl_Location c) (-1) (cl_StorageType c) (cl_Config c) (cl_NodeScalingFactor c)) /\
  (forall (w : world (gmap bytes family)) c', cl_Name c' <> [] -> cl_ServeNodes c' = -1 ->
    (UpdateCluster (H := SampleWorld.working) c' w).1 = Err InvalidArgument) /\
  (forall instance id c', newCluster instance id (Some c') <> Ret c \/ 0 <= cl_ServeNodes c).
Proof.
  split; [reflexivity|]. split.
  - intros w c' Hn E. unfold UpdateCluster. rewrite bind_run. cbn [timeNow]. rewrite (proj2 (Nat.eqb_neq _ _)) by (by destruct (cl_Name c')). by rewrite E.
  - intros instance id c'. destruct (decide (0 <= cl_ServeNodes c)) as [?|Hn]; [by right|left]. intros (_ & _ & ?)%newCluster_Ret. done.
Qed.
