(* ===== verification/Lexer.v ===== *)
(** * The SQL lexer and the literals it reads back

    [internal/gsql/lexer.go], the literal printers of [cast.go] and
    [parseIntLiteral] of [parser.go].  The lexer's position is the rest of the
    source it has not read; the position a token records is the number of bytes
    before it.  Error texts are not modelled. *)

From S2P Require Import Prelude Proto Rows Mutations Server Tokens KeySchema.
From stdpp Require Import base list sorting.
From Stdlib Require Import ZArith Lia.

#[local] Open Scope Z_scope.

Inductive tokKind : Type := tEOF | tIdent | tQIdent | tString | tBytes | tInt | tFloat | tParam | tHint | tOp.
Record token : Type := mkTok { tk_kind : tokKind; tk_text : bytes; tk_str : bytes; tk_b : bytes; tk_pos : nat }.

Definition isIdentStart (c : Z) : bool := (c =? 95) || ((97 <=? c) && (c <=? 122)) || ((65 <=? c) && (c <=? 90)).
Definition isDigit (c : Z) : bool := (48 <=? c) && (c <=? 57).
Definition isIdentChar (c : Z) : bool := isIdentStart c || isDigit c.
Definition isHex (c : Z) : bool := isDigit c || ((97 <=? c) && (c <=? 102)) || ((65 <=? c) && (c <=? 70)).

(** The value of a hexadecimal digit. *)
Definition hexValue (c : Z) : Z := if isDigit c then c - 48 else if 97 <=? c then c - 87 else c - 55.
Definition hexNumber (s : bytes) : Z := foldl (fun v c => v * 16 + hexValue c) 0 s.

(** The loop [for pos < len(src) && p(src[pos])]: what it passes and what is left. *)
Fixpoint span (p : Z -> bool) (s : bytes) : bytes * bytes :=
  match s with
  | c :: s' => if p c then let '(a, b) := span p s' in (c :: a, b) else ([], s)
  | [] => ([], [])
  end.

(** [utf8.AppendRune]. *)
Definition encodeRune (r : Z) : bytes :=
  if r <? 0 then [239; 191; 189]
  else if r <? 128 then [r]
  else if r <? 2048 then [192 + r / 64; 128 + r mod 64]
  else if ((55296 <=? r) && (r <=? 57343)) || (1114111 <? r) then [239; 191; 189]
  else if r <? 65536 then [224 + r / 4096; 128 + r / 64 mod 64; 128 + r mod 64]
  else [240 + r / 262144; 128 + r / 4096 mod 64; 128 + r / 64 mod 64; 128 + r mod 64].

(** What follows the first [*/], if there is one. *)
Fixpoint afterComment (s : bytes) : option bytes :=
  match s with
  | 42 :: ((47 :: rest) as s') => Some rest
  | _ :: s' => afterComment s'
  | [] => None
  end.

Definition isSpace (c : Z) : bool := (c =? 32) || ((9 <=? c) && (c <=? 13)).

(** [skipSpaceAndComments]; every turn passes a byte at least.  Out of fuel, here and in
    the other loops, is a panic. *)
Fixpoint skipSpaceAndComments (fuel : nat) (rest : bytes) : outcome bytes :=
  match fuel, rest with
  | O, _ => Panic
  | _, [] => Ret []
  | S fuel', c :: rest' =>
      if isSpace c then skipSpaceAndComments fuel' rest'
      else if (c =? 35) || HasPrefix rest (str "--") then skipSpaceAndComments fuel' (span (fun c => negb (c =? 10)) rest).2
      else if HasPrefix rest (str "/*") then
        match afterComment (drop 2 rest) with
        | None => Err InvalidArgument
        | Some rest'' => skipSpaceAndComments fuel' rest''
        end
      else Ret rest
  end.

Definition multiCharOps : list bytes :=
  [str "=>"; str "<="; str ">="; str "<>"; str "!="; str "||"; str "<<"; str ">>"; str "->"].
Definition singleCharOps : bytes := str "+-*/%=<>()[],.;~&|^:{}?!".

(** [unescape] at a backslash: the decoded text and what follows. *)
Definition unescape (rest : bytes) : outcome (bytes * bytes) :=
  match rest with
  | _ :: c :: t =>
      if c =? 97 then Ret ([7], t) else if c =? 98 then Ret ([8], t) else if c =? 102 then Ret ([12], t)
      else if c =? 110 then Ret ([10], t) else if c =? 114 then Ret ([13], t) else if c =? 116 then Ret ([9], t)
      else if c =? 118 then Ret ([11], t)
      else if (c =? 92) || (c =? 63) || (c =? 34) || (c =? 39) || (c =? 96) then Ret ([c], t)
      else if (c =? 120) || (c =? 88) then
        match t with
        | h1 :: h2 :: t' => if isHex h1 && isHex h2 then Ret ([hexNumber [h1; h2]], t') else Err InvalidArgument
        | _ => Err InvalidArgument
        end
      else if (c =? 117) || (c =? 85) then
        let n := if c =? 85 then 8%nat else 4%nat in
        let ds := take n t in
        if (length t <? n)%nat then Err InvalidArgument
        else
          let v := hexNumber ds in
          if negb (forallb isHex ds) || (1114111 <? v) || ((55296 <=? v) && (v <=? 57343)) then Err InvalidArgument
          else Ret (encodeRune v, drop n t)
      else if (48 <=? c) && (c <=? 55) then
        match t with
        | o1 :: o2 :: t' =>
            let v := (c - 48) * 64 + (o1 - 48) * 8 + (o2 - 48) in
            if (48 <=? o1) && (o1 <=? 55) && (48 <=? o2) && (o2 <=? 55) && (v <=? 255) then Ret ([v], t') else Err InvalidArgument
        | _ => Err InvalidArgument
        end
      else Err InvalidArgument
  | _ => Err InvalidArgument
  end.

(** The loop of [lexBackquoted] after the opening quote. *)
Fixpoint backquotedLoop (fuel : nat) (rest acc : bytes) : outcome (bytes * bytes) :=
  match fuel, rest with
  | O, _ => Panic
  | _, [] => Err InvalidArgument
  | S fuel', c :: rest' =>
      if c =? 96 then Ret (acc, rest')
      else if c =? 92 then '(r, rest'') ← unescape rest; backquotedLoop fuel' rest'' (acc ++ r)
      else backquotedLoop fuel' rest' (acc ++ [c])
  end.

(** The text of a token: what was read between two positions. *)
Definition slice (from to : bytes) : bytes := take (length from - length to) from.

Definition lexBackquoted (pos : nat) (rest : bytes) : outcome (token * bytes) :=
  '(s, rest') ← backquotedLoop (S (length rest)) (drop 1 rest) [];
  match s with
  | [] => Err InvalidArgument
  | _ => Ret (mkTok tQIdent (slice rest rest') s [] pos, rest')
  end.

(** The loop of [lexQuoted] after the opening quotes. *)
Fixpoint quotedLoop (fuel : nat) (raw triple : bool) (q : Z) (rest acc : bytes) : outcome (bytes * bytes) :=
  match fuel, rest with
  | O, _ => Panic
  | _, [] => Err InvalidArgument
  | S fuel', c :: rest' =>
      if triple && HasPrefix rest [q; q; q] then Ret (acc, drop 3 rest)
      else if negb triple && (c =? q) then Ret (acc, rest')
      else if negb triple && (c =? 10) then Err InvalidArgument
      else if c =? 92 then
        if raw then
          match rest' with
          | d :: rest'' => quotedLoop fuel' raw triple q rest'' (acc ++ [c; d])
          | [] => Err InvalidArgument
          end
        else '(r, rest'') ← unescape rest; quotedLoop fuel' raw triple q rest'' (acc ++ r)
      else quotedLoop fuel' raw triple q rest' (acc ++ [c])
  end.

Definition lexQuoted (raw isBytes : bool) (rest : bytes) : outcome (bytes * bytes) :=
  match rest with
  | [] => Panic
  | q :: rest' =>
      let triple := HasPrefix rest [q; q; q] in
      '(s, rest'') ← quotedLoop (S (length rest)) raw triple q (if triple then drop 3 rest else rest') [];
      if negb isBytes && negb (isValidUTF8 s) then Err InvalidArgument else Ret (s, rest'')
  end.

(** The exponent of a number, when there is one. *)
Definition lexExponent (rest : bytes) : option bytes :=
  match rest with
  | e :: t =>
      if (e =? 101) || (e =? 69) then
        let t := match t with c :: t' => if (c =? 43) || (c =? 45) then t' else t | [] => t end in
        match t with d :: _ => if isDigit d then Some (span isDigit t).2 else None | [] => None end
      else None
  | [] => None
  end.

Definition identFollows (rest : bytes) : bool := match rest with c :: _ => isIdentChar c | [] => false end.

Definition lexNumber (pos : nat) (rest : bytes) : outcome (token * bytes) :=
  if match rest with 48 :: x :: _ => (x =? 120) || (x =? 88) | _ => false end then
    let '(digits, rest') := span isHex (drop 2 rest) in
    match digits with
    | [] => Err InvalidArgument
    | _ => if identFollows rest' then Err InvalidArgument else Ret (mkTok tInt (slice rest rest') [] [] pos, rest')
    end
  else
    let rest1 := (span isDigit rest).2 in
    let '(isFloat, rest2) := match rest1 with 46 :: t => (true, (span isDigit t).2) | _ => (false, rest1) end in
    let '(isFloat, rest3) := match lexExponent rest2 with Some r => (true, r) | None => (isFloat, rest2) end in
    if identFollows rest3 then Err InvalidArgument
    else Ret (mkTok (if isFloat : bool then tFloat else tInt) (slice rest rest3) [] [] pos, rest3).

(** The r and b prefixes of a literal: whether it is raw and of bytes, and the
    literal itself, when a quote follows. *)
Definition literalPrefix (rest : bytes) : option (bool * bool * bytes) :=
  let lower c := if (65 <=? c) && (c <=? 90) then c + 32 else c in
  match rest with
  | c :: t =>
      if (lower c =? 114) || (lower c =? 98) then
        let '(raw, isBytes, j) := match t with
          | d :: t' => if ((lower c =? 114) && (lower d =? 98)) || ((lower c =? 98) && (lower d =? 114)) then (true, true, t')
                       else if lower c =? 114 then (true, false, t) else (false, true, t)
          | [] => if lower c =? 114 then (true, false, t) else (false, true, t)
          end in
        match j with q :: _ => if (q =? 39) || (q =? 34) then Some (raw, isBytes, j) else None | [] => None end
      else None
  | [] => None
  end.

Definition lexParam (pos : nat) (rest : bytes) : outcome (token * bytes) :=
  match drop 1 rest with
  | 123 :: t => Ret (mkTok tHint (str "@{") [] [] pos, t)
  | 96 :: _ => '(t, rest') ← lexBackquoted (S pos) (drop 1 rest); Ret (mkTok tParam (64 :: tk_str t) (tk_str t) [] pos, rest')
  | c :: _ =>
      if negb (isIdentStart c) then Err InvalidArgument
      else let '(id, rest') := span isIdentChar (drop 1 rest) in Ret (mkTok tParam (slice rest rest') id [] pos, rest')
  | [] => Err InvalidArgument
  end.

(** [next] from the position [pos]: the token and what follows it. *)
Definition next (len : nat) (rest0 : bytes) : outcome (token * bytes) :=
  rest ← skipSpaceAndComments (S (length rest0)) rest0;
  let pos := (len - length rest)%nat in
  match rest with
  | [] => Ret (mkTok tEOF [] [] [] pos, [])
  | c :: t =>
      match literalPrefix rest with
      | Some (raw, isBytes, j) =>
          '(s, rest') ← lexQuoted raw isBytes j;
          Ret (if isBytes then mkTok tBytes [] [] s pos else mkTok tString [] s [] pos, rest')
      | None =>
          if (c =? 39) || (c =? 34) then '(s, rest') ← lexQuoted false false rest; Ret (mkTok tString [] s [] pos, rest')
          else if c =? 96 then lexBackquoted pos rest
          else if isIdentStart c || ((c =? 36) && identFollows t) then
            let rest' := (span isIdentChar t).2 in
            let text := slice rest rest' in Ret (mkTok tIdent text text [] pos, rest')
          else if isDigit c || ((c =? 46) && match t with d :: _ => isDigit d | [] => false end) then lexNumber pos rest
          else if c =? 64 then lexParam pos rest
          else match find (fun op => HasPrefix rest op) multiCharOps with
          | Some op => Ret (mkTok tOp op [] [] pos, drop (length op) rest)
          | None => if existsb (Z.eqb c) singleCharOps then Ret (mkTok tOp [c] [] [] pos, t) else Err InvalidArgument
          end
      end
  end.

(** The loop of [lex]; every token but the last takes a byte at least. *)
Fixpoint lexLoop (fuel : nat) (len : nat) (rest : bytes) : outcome (list token) :=
  match fuel with
  | O => Panic
  | S fuel' =>
      '(tok, rest') ← next len rest;
      match tk_kind tok with
      | tEOF => Ret [tok]
      | _ => toks ← lexLoop fuel' len rest'; Ret (tok :: toks)
      end
  end.
Definition lex (src : bytes) : outcome (list token) := lexLoop (S (length src)) (length src) src.

(** ** Literals *)

(** [strconv.FormatInt(c, 16)] padded to two digits. *)
Definition hexDigit (n : Z) : Z := if n <? 10 then 48 + n else 87 + n.
Definition hexEscape (c : Z) : bytes := [92; 120; hexDigit (c / 16); hexDigit (c mod 16)].

Definition quoteRune (r : Z) : bytes :=
  if r =? 34 then [92; 34] else if r =? 92 then [92; 92] else if r =? 10 then [92; 110]
  else if r =? 13 then [92; 114] else if r =? 9 then [92; 116]
  else if r <? 32 then hexEscape r else encodeRune r.
Definition quoteSQLString (s : bytes) : bytes := [34] ++ (runes 0 s ≫= quoteRune) ++ [34].

Definition quoteByte (c : Z) : bytes :=
  if c =? 34 then [92; 34] else if c =? 92 then [92; 92]
  else if (32 <=? c) && (c <? 127) then [c] else hexEscape c.
Definition quoteSQLBytes (b : bytes) : bytes := [98; 34] ++ (b ≫= quoteByte) ++ [34].

(** [strconv.ParseUint] in base 10 or 16: digits only, at most 64 bits. *)
Definition ParseUint (base : Z) (s : bytes) : option Z :=
  match s with
  | [] => None
  | _ =>
      if forallb (if base =? 16 then isHex else isDigit) s then
        let u := foldl (fun v c => v * base + hexValue c) 0 s in if u <? 2 ^ 64 then Some u else None
      else None
  end.

Definition parseIntLiteral (text : bytes) : outcome Z :=
  let neg := HasPrefix text (str "-") in
  let s := if neg then drop 1 text else text in
  let u := if HasPrefix s (str "0x") || HasPrefix s (str "0X") then ParseUint 16 (drop 2 s) else ParseUint 10 s in
  match u with
  | None => Err InvalidArgument
  | Some u =>
      if neg then if 2 ^ 63 <? u then Err InvalidArgument else Ret (- u)
      else if 2 ^ 63 - 1 <? u then Err InvalidArgument else Ret u
  end.

Example lex_sample : fst <$> (match lex (str "SELECT `a b`, r'x' FROM t -- c") with Ret l => (fun t => (tk_kind t, tk_pos t)) <$> l | _ => [] end) =
  [tIdent; tQIdent; tOp; tString; tIdent; tIdent; tEOF].
Proof. reflexivity. Qed.

(** ** The lexer reads every input to its end *)

Lemma span_app p s : (span p s).1 ++ (span p s).2 = s.
Proof. induction s as [|c s IH]; cbn; [done|]. destruct (p c); [|done]. destruct (span p s). cbn in *. by rewrite IH. Qed.
Lemma span_len p s : (length (span p s).2 <= length s)%nat.
Proof. pose proof (span_app p s) as E. rewrite <- E at 2. rewrite length_app. lia. Qed.
Lemma span_len_lt p c s : p c = true -> (length (span p (c :: s)).2 < length (c :: s))%nat.
Proof. intros Hc. cbn. rewrite Hc. pose proof (span_len p s). destruct (span p s). cbn in *. lia. Qed.

Lemma afterComment_len s r : afterComment s = Some r -> (length r < length s)%nat.
Proof.
  induction s as [|c s IH]; [done|]. intros E. enough (Some r = afterComment s \/ exists t, s = 47 :: t /\ r = t) as [E'|(t & -> & ->)].
  - symmetry in E'. apply IH in E'. cbn. lia.
  - cbn. lia.
  - cbn in E. repeat case_match; simplify_eq; eauto.
Qed.

(** A step of the lexer: it never gives up, and it leaves a shorter rest. *)
Definition shortens {A : Type} (r : outcome (A * bytes)) (n : nat) : Prop :=
  match r with Ret (_, rest) => (length rest < n)%nat | Err _ => True | Panic => False end.

Lemma shortens_bind {A B : Type} (m : outcome (A * bytes)) (f : A * bytes -> outcome (B * bytes)) n k :
  shortens m n -> (forall a rest, (length rest < n)%nat -> shortens (f (a, rest)) k) -> shortens (m ≫= f) k.
Proof. intros Hm Hf. destruct m as [[a rest]| |]; cbn in *; [by apply Hf|done|done]. Qed.
Lemma shortens_weaken {A : Type} (r : outcome (A * bytes)) n k : shortens r n -> (n <= k)%nat -> shortens r k.
Proof. destruct r as [[a rest]| |]; cbn; [lia|done|done]. Qed.

Lemma comment_start c rest : (c =? 35) || HasPrefix (c :: rest) (str "--") = true -> c = 35 \/ c = 45.
Proof. intros [E%Z.eqb_eq|E]%orb_true_iff; [by left|]. cbn in E. apply andb_true_iff in E as [E _]. right. by apply Z.eqb_eq in E. Qed.
Lemma skip_len fuel : forall rest, (length rest < fuel)%nat -> match skipSpaceAndComments fuel rest with
  | Ret r => (length r <= length rest)%nat | Err _ => True | Panic => False end.
Proof.
  induction fuel as [|fuel IH]; intros [|c rest] Hf; cbn [skipSpaceAndComments]; [cbn in Hf; lia|cbn in Hf; lia|cbn; lia|]. cbn in Hf.
  assert (forall r, (length r < length (c :: rest))%nat -> match skipSpaceAndComments fuel r with
    | Ret r' => (length r' <= length (c :: rest))%nat | Err _ => True | Panic => False end) as Hgo.
  { intros r Hr. cbn in Hr. specialize (IH r ltac:(lia)). destruct (skipSpaceAndComments fuel r); [cbn; lia|done|done]. }
  destruct (isSpace c); [apply Hgo; cbn; lia|]. destruct (_ || _) eqn:Ec; [apply Hgo, span_len_lt; by apply comment_start in Ec as [-> | ->]|]. clear Ec. destruct (HasPrefix _ _); [|cbn; lia].
  destruct (afterComment _) as [r|] eqn:E; [|done]. apply afterComment_len in E. rewrite length_drop in E. apply Hgo. lia.
Qed.
(** The rest starts with no space when the fuel was enough. *)
Lemma unescape_shortens rest : shortens (unescape rest) (length rest).
Proof.
  unfold unescape. destruct rest as [|b [|c t]]; [done|done|].
  repeat match goal with |- shortens (if ?b then Ret _ else _) _ => destruct b; [cbn; lia|] end.
  destruct (_ || _). { destruct t as [|h1 [|h2 t]]; [done|done|]. case_match; cbn; [lia|done]. }
  destruct (_ || _).
  { cbv zeta. set (n := if c =? 85 then 8%nat else 4%nat). destruct (length t <? n)%nat eqn:En; [done|]. destruct (_ || _); [done|]. cbn. rewrite length_drop. lia. }
  destruct (_ && _); [|done]. destruct t as [|o1 [|o2 t]]; [done|done|]. cbv zeta. case_match; cbn; [lia|done].
Qed.

Lemma backquotedLoop_shortens fuel : forall rest acc n, (length rest <= n)%nat -> (length rest < fuel)%nat -> shortens (backquotedLoop fuel rest acc) (S n).
Proof.
  induction fuel as [|fuel IH]; intros [|c rest] acc n Hn Hf; cbn [backquotedLoop]; cbn in Hn, Hf; try lia; try done. destruct (c =? 96); [cbn; lia|].
  destruct (c =? 92); [|apply IH; lia]. eapply shortens_bind; [apply unescape_shortens|]. intros r rest' Hr. cbn in Hr. apply IH; lia.
Qed.
Lemma lexBackquoted_shortens pos c rest : shortens (lexBackquoted pos (c :: rest)) (length (c :: rest)).
Proof.
  unfold lexBackquoted. eapply shortens_bind; [apply backquotedLoop_shortens with (n := length rest); cbn; rewrite drop_0; lia|].
  intros s rest' Hr. destruct s; [done|]. cbn. lia.
Qed.
Lemma quotedLoop_shortens fuel raw triple q : forall rest acc n, (length rest <= n)%nat -> (length rest < fuel)%nat -> shortens (quotedLoop fuel raw triple q rest acc) (S n).
Proof.
  induction fuel as [|fuel IH]; intros [|c rest] acc n Hn Hf; cbn [quotedLoop]; cbn in Hn, Hf; try lia; try done. destruct (_ && _); [unfold shortens; rewrite length_drop; cbn; lia|].
  destruct (_ && _); [cbn; lia|]. destruct (_ && _); [done|]. destruct (c =? 92); [|apply IH; lia]. destruct raw.
  - destruct rest as [|d rest]; [done|]. cbn in Hn, Hf. apply IH; lia.
  - eapply shortens_bind; [apply unescape_shortens|]. intros r rest' Hr. cbn in Hr. apply IH; lia.
Qed.
Lemma lexQuoted_shortens raw isBytes q rest : shortens (lexQuoted raw isBytes (q :: rest)) (length (q :: rest)).
Proof.
  unfold lexQuoted. eapply shortens_bind; [apply quotedLoop_shortens with (n := length rest); case_match; rewrite ?length_drop; cbn; lia|].
  intros s rest' Hr. destruct (_ && _); [done|]. cbn. lia.
Qed.
Lemma lexExponent_len rest r : lexExponent rest = Some r -> (length r < length rest)%nat.
Proof.
  unfold lexExponent. destruct rest as [|e t]; [done|]. destruct (_ || _); [|done]. set (t' := match t with [] => _ | _ => _ end).
  assert (length t' <= length t)%nat as Ht by (unfold t'; destruct t as [|c t]; [done|]; case_match; cbn; lia).
  destruct t' as [|d t'']; [done|]. destruct (isDigit d); [|done]. intros [= <-]. pose proof (span_len isDigit (d :: t'')). cbn in *. lia.
Qed.
Lemma lexNumber_shortens pos c rest : (isDigit c = true \/ c = 46) -> shortens (lexNumber pos (c :: rest)) (length (c :: rest)).
Proof.
  intros Hc. unfold lexNumber. match goal with |- shortens (if ?b then _ else _) _ => set (hex := b) end.
  destruct hex eqn:Eh.
  - pose proof (span_len isHex (drop 2 (c :: rest))) as Hl. destruct (span isHex _) as [ds r]. rewrite length_drop in Hl. cbn in Hl. destruct ds; [done|].
    destruct (identFollows r); [done|]. cbn. assert (rest <> []) by (intros ->; unfold hex in Eh; clear -Eh; repeat (case_match; try done)). destruct rest; [done|]. cbn in *. lia.
  - set (rest1 := (span isDigit (c :: rest)).2). assert (exists f r2, match rest1 with 46 :: t => (true, (span isDigit t).2) | _ => (false, rest1) end = (f, r2) /\ (length r2 < length (c :: rest))%nat) as (f & r2 & -> & H2).
    { assert (length rest1 <= length (c :: rest))%nat as H1 by apply span_len.
      assert (forall t, rest1 = 46 :: t -> (length (span isDigit t).2 < length (c :: rest))%nat) as Hp.
      { intros t E. pose proof (span_len isDigit t). rewrite E in H1. cbn in *. lia. }
      assert ((forall t, rest1 <> 46 :: t) -> (length rest1 < length (c :: rest))%nat) as Hn.
      { intros Hn. destruct Hc as [Hc| ->]; [by apply span_len_lt|]. by destruct (Hn rest). }
      clearbody rest1. destruct rest1 as [|x t]; [eexists _, _; split; [done|by apply Hn]|].
      destruct (decide (x = 46)) as [->|Hx]; [eexists _, _; split; [done|by apply Hp]|].
      exists false, (x :: t). split; [|apply Hn; congruence]. clear -Hx. repeat (case_match; try done). }
    destruct (lexExponent r2) as [r|] eqn:Ee; [apply lexExponent_len in Ee|]; destruct (identFollows _); cbn in *; try done; lia.
Qed.
Lemma literalPrefix_len rest raw isBytes j : literalPrefix rest = Some (raw, isBytes, j) -> exists q j', j = q :: j' /\ (length j < length rest)%nat.
Proof.
  unfold literalPrefix. destruct rest as [|c t]; [done|]. destruct (_ || _); [|done].
  assert (forall (o : bool * bool * bytes) k, (length o.2 <= k)%nat -> (let '(raw, isBytes, j) := o in match j with q :: _ => if (q =? 39) || (q =? 34) then Some (raw, isBytes, j) else None | [] => None end) = Some (raw, isBytes, j) ->
    exists q j', j = q :: j' /\ (length j <= k)%nat) as Hgen.
  { intros [[r b] l] k Hk. destruct l as [|q l]; [done|]. destruct (_ || _); [|done]. intros [= <- <- <-]. eauto. }
  intros E. apply Hgen with (k := length t) in E as (q & j' & -> & Hl).
  - exists q, j'. split; [done|]. cbn in *. lia.
  - destruct t as [|d t']; [destruct (_ =? 114); cbn; lia|]. destruct (_ || _); [cbn; lia|]. destruct (_ =? 114); cbn; lia.
Qed.
Lemma lexParam_shortens pos rest : shortens (lexParam pos (64 :: rest)) (length (64 :: rest)).
Proof.
  unfold lexParam. cbn [drop]. rewrite drop_0. destruct rest as [|c rest]; [done|].
  assert (shortens (if negb (isIdentStart c) then Err InvalidArgument
    else let '(id, rest') := span isIdentChar (c :: rest) in Ret (mkTok tParam (slice (64 :: c :: rest) rest') id [] pos, rest')) (length (64 :: c :: rest))) as Hid.
  { destruct (negb _); [done|]. pose proof (span_len isIdentChar (c :: rest)) as Hl. destruct (span isIdentChar (c :: rest)). cbn in *. lia. }
  destruct (decide (c = 123)) as [->|H1]; [cbn; lia|]. destruct (decide (c = 96)) as [->|H2].
  - eapply shortens_bind; [apply lexBackquoted_shortens|]. intros t rest' Hl. cbn in *. lia.
  - repeat (case_match; try done).
Qed.
Lemma multiCharOps_len op : op ∈ multiCharOps -> length op = 2%nat.
Proof. assert (Forall (fun op => length op = 2%nat) multiCharOps) as Hf by (by repeat constructor). rewrite list.Forall_forall in Hf. apply Hf. Qed.

(** A token starts after what was read before and ends before what is left. *)
Lemma next_ok len rest : (length rest <= len)%nat ->
  match next len rest with
  | Ret (tok, rest') =>
      (len - length rest <= tk_pos tok)%nat /\
      (tk_kind tok = tEOF \/ tk_kind tok <> tEOF /\ (tk_pos tok < len - length rest')%nat /\ (length rest' < length rest)%nat)
  | Err _ => True
  | Panic => False
  end.
Proof.
  intros Hlen. unfold next. pose proof (skip_len (S (length rest)) rest (Nat.lt_succ_diag_r _)) as Hs. destruct (skipSpaceAndComments (S (length rest)) rest) as [r| |]; [|done|done]. cbn [mbind outcome_bind].
  destruct r as [|c t]; [cbn in *; split; [lia|by left]|].
  enough (forall m : outcome (token * bytes), shortens m (length (c :: t)) -> (forall tok rest', m = Ret (tok, rest') -> tk_kind tok <> tEOF /\ tk_pos tok = (len - length (c :: t))%nat) ->
    match m with
    | Ret (tok, rest') => (len - length rest <= tk_pos tok)%nat /\ (tk_kind tok = tEOF \/ tk_kind tok <> tEOF /\ (tk_pos tok < len - length rest')%nat /\ (length rest' < length rest)%nat)
    | Err _ => True | Panic => False end) as Hgo.
  2: { intros [[tok rest']| |] Hm Ht; [|done|done]. destruct (Ht _ _ eq_refl) as [Hk Hp]. cbn in Hm. rewrite Hp. split; [cbn in *; lia|]. right. split; [done|]. cbn in *. lia. }
  destruct (literalPrefix (c :: t)) as [[[raw isBytes] j]|] eqn:El.
  { apply literalPrefix_len in El as (q & j' & -> & Hj). apply Hgo.
    - eapply shortens_bind; [apply lexQuoted_shortens|]. intros s rest' Hl. cbn in *. lia.
    - intros tok rest' E. destruct (lexQuoted _ _ _) as [[s rest'']| |]; cbn in E; [|done|done]. injection E as <- _. by destruct isBytes. }
  destruct (_ || _).
  { apply Hgo.
    - eapply shortens_bind; [apply lexQuoted_shortens|]. intros s rest' Hl. cbn in *. lia.
    - intros tok rest' E. destruct (lexQuoted _ _ _) as [[s rest'']| |]; cbn in E; [|done|done]. by injection E as <- _. }
  destruct (c =? 96).
  { apply Hgo; [apply lexBackquoted_shortens|]. intros tok rest' E. unfold lexBackquoted in E. destruct (backquotedLoop _ _ _) as [[s rest'']| |]; cbn in E; [|done|done].
    destruct s; [done|]. by injection E as <- _. }
  destruct (isIdentStart c || _).
  { refine (Hgo (Ret (_, _)) _ _); [pose proof (span_len isIdentChar t); cbn; lia|]. intros tok rest' E. by injection E as <- _. }
  destruct (isDigit c || _) eqn:Ed.
  { apply Hgo.
    - apply lexNumber_shortens. apply orb_true_iff in Ed as [?|Ed]; [by left|]. apply andb_true_iff in Ed as [Ed _]. right. by apply Z.eqb_eq.
    - intros tok rest' E. unfold lexNumber in E. repeat (case_match; try done); by simplify_eq. }
  destruct (c =? 64) eqn:Ea.
  { apply Z.eqb_eq in Ea as ->. apply Hgo; [apply lexParam_shortens|]. intros tok rest' E. unfold lexParam in E.
    destruct (lexBackquoted _ _) as [[bt rest'']| |]; cbn [mbind outcome_bind] in E; repeat (case_match; try done); by simplify_eq. }
  destruct (find _ _) as [op|] eqn:Ef.
  - apply find_some in Ef as [Hin _]. apply list_elem_of_In, multiCharOps_len in Hin. refine (Hgo (Ret (_, _)) _ _); [|intros tok rest' E; by injection E as <- _].
    cbn. rewrite length_drop, Hin. cbn. lia.
  - destruct (existsb _ _); [|done]. refine (Hgo (Ret (_, _)) _ _); [cbn; lia|]. intros tok rest' E. by injection E as <- _.
Qed.

(** What [lex] returns: tokens at increasing positions inside the source, then
    the end token. *)
Definition lexed (lo len : nat) (toks : list token) : Prop :=
  exists ts eof, toks = ts ++ [eof] /\ tk_kind eof = tEOF /\ Forall (fun t => tk_kind t <> tEOF /\ (tk_pos t < len)%nat) ts /\
    StronglySorted (fun a b => (tk_pos a < tk_pos b)%nat) toks /\ Forall (fun t => (lo <= tk_pos t)%nat) toks.

Lemma lexLoop_ok len : forall fuel rest, (length rest < fuel)%nat -> (length rest <= len)%nat ->
  match lexLoop fuel len rest with Ret toks => lexed (len - length rest) len toks | Err _ => True | Panic => False end.
Proof.
  induction fuel as [|fuel IH]; intros rest Hf Hl; [lia|]. cbn [lexLoop]. pose proof (next_ok len rest Hl) as Hn.
  destruct (next len rest) as [[tok rest']| |]; [|done|done]. cbn [mbind outcome_bind]. destruct Hn as [Hlo [Hk|(Hk & Hp & Hr)]].
  - rewrite Hk. exists [], tok. split_and!; [done|done|constructor|repeat constructor|repeat constructor; lia].
  - specialize (IH rest' ltac:(lia) ltac:(lia)). destruct (lexLoop fuel len rest') as [toks| |]; [| |done].
    + assert (lexed (len - length rest) len (tok :: toks)) as Hx; [|by destruct (tk_kind tok)].
      destruct IH as (ts & eof & -> & He & Hts & Hso & Hlo'). exists (tok :: ts), eof. split_and!; [done|done| | |].
      * constructor; [split; [done|lia]|done].
      * constructor; [done|]. eapply Forall_impl; [exact Hlo'|]. cbn. intros t Ht. lia.
      * constructor; [lia|]. eapply Forall_impl; [exact Hlo'|]. cbn. intros t Ht. lia.
    + by destruct (tk_kind tok).
Qed.

(** ** Printed literals are read back *)

(** Decoding a rune and encoding it again gives its bytes. *)
Lemma land_low x : Z.land x 31 = x mod 32 /\ Z.land x 15 = x mod 16 /\ Z.land x 7 = x mod 8 /\ Z.land x 63 = x mod 64.
Proof.
  change 31 with (Z.ones 5). change 15 with (Z.ones 4). change 7 with (Z.ones 3). change 63 with (Z.ones 6). rewrite !Z.land_ones by lia. done.
Qed.
Lemma cont_byte b : 128 <= b <= 191 -> Z.land b 63 = b - 128.
Proof. intros Hb. rewrite (proj2 (proj2 (proj2 (land_low b)))). Z.to_euclidean_division_equations. lia. Qed.

Lemma encodeRune_2 x y : 2 <= x < 32 -> 0 <= y < 64 -> encodeRune (x * 64 + y) = [192 + x; 128 + y].
Proof.
  intros Hx Hy. unfold encodeRune. rewrite (proj2 (Z.ltb_ge _ _)), (proj2 (Z.ltb_ge _ _)), (proj2 (Z.ltb_lt _ _)) by lia.
  f_equal; [|f_equal]; Z.to_euclidean_division_equations; lia.
Qed.
Lemma encodeRune_3 x y z : 0 <= x < 16 -> 0 <= y < 64 -> 0 <= z < 64 -> 32 <= x * 64 + y -> (x * 64 + y < 864 \/ 896 <= x * 64 + y) ->
  encodeRune (x * 4096 + y * 64 + z) = [224 + x; 128 + y; 128 + z].
Proof.
  intros Hx Hy Hz Hlo Hs. unfold encodeRune. rewrite !(proj2 (Z.ltb_ge _ _)) by lia.
  replace ((55296 <=? _) && _) with false; [cbn [orb]|symmetry; apply andb_false_iff; rewrite !Z.leb_gt; lia]. rewrite (proj2 (Z.ltb_lt _ _)) by lia.
  f_equal; [|f_equal; [|f_equal]]; Z.to_euclidean_division_equations; lia.
Qed.
Lemma encodeRune_4 x y z u : 0 <= x < 5 -> 0 <= y < 64 -> 0 <= z < 64 -> 0 <= u < 64 -> 16 <= x * 64 + y < 272 ->
  encodeRune (x * 262144 + y * 4096 + z * 64 + u) = [240 + x; 128 + y; 128 + z; 128 + u].
Proof.
  intros Hx Hy Hz Hu Hlo. unfold encodeRune. rewrite !(proj2 (Z.ltb_ge _ _)) by lia.
  replace ((55296 <=? _) && _) with false; [cbn [orb]|symmetry; apply andb_false_iff; rewrite !Z.leb_gt; lia].
  f_equal; [|f_equal; [|f_equal; [|f_equal]]]; Z.to_euclidean_division_equations; lia.
Qed.

Lemma rune_at_encode b r n : rune_at b = Some (r, n) ->
  (1 <= n <= length b)%nat /\ 0 <= r /\ encodeRune r = take n b /\ (r < 128 /\ take n b = [r] \/ 128 <= r /\ Forall (fun c => 128 <= c) (take n b)).
Proof.
  destruct b as [|b0 t]; [done|]. unfold rune_at, KeySchema.between. destruct (_ && _) eqn:E0; rewrite ?andb_true_iff, ?andb_false_iff, ?Z.leb_le, ?Z.leb_gt in E0.
  { intros [= <- <-]. unfold encodeRune. rewrite (proj2 (Z.ltb_ge _ _)), (proj2 (Z.ltb_lt _ _)) by lia. cbn. split_and!; [lia|lia|lia|done|left; by split; [lia|]]. }
  destruct t as [|b1 t]; [done|]. destruct (_ && _) eqn:E1; rewrite ?andb_true_iff, ?andb_false_iff, ?Z.leb_le, ?Z.leb_gt in E1.
  { destruct (_ && _) eqn:E2; [|done]. intros [= <- <-]. rewrite andb_true_iff, !Z.leb_le in E2.
    assert (Z.land b0 31 = b0 - 192) as -> by (rewrite (proj1 (land_low b0)); Z.to_euclidean_division_equations; lia). rewrite cont_byte by lia.
    rewrite encodeRune_2 by lia. cbn. split_and!; [lia|lia|lia|f_equal; [lia|f_equal; lia]|right; split; [lia|repeat constructor; lia]]. }
  destruct t as [|b2 t]; [done|]. destruct (_ && _) eqn:E2; rewrite ?andb_true_iff, ?andb_false_iff, ?Z.leb_le, ?Z.leb_gt in E2.
  { destruct (_ && _) eqn:E3; [|done]. intros [= <- <-]. rewrite !andb_true_iff, !Z.leb_le in E3.
    assert (Z.land b0 15 = b0 - 224) as -> by (rewrite (proj1 (proj2 (land_low b0))); Z.to_euclidean_division_equations; lia).
    assert (128 <= b1 <= 191 /\ (b0 = 224 -> 160 <= b1) /\ (b0 = 237 -> b1 <= 159)) as (H1 & H2 & H3).
    { destruct (b0 =? 224) eqn:Ea; destruct (b0 =? 237) eqn:Eb; rewrite ?Z.eqb_eq, ?Z.eqb_neq in *; lia. }
    rewrite !cont_byte, encodeRune_3 by lia. cbn. split_and!; [lia|lia|lia|f_equal; [lia|f_equal; [lia|f_equal; lia]]|right; split; [lia|repeat constructor; lia]]. }
  destruct t as [|b3 t]; [done|]. destruct (_ && _) eqn:E3; [|done]. intros [= <- <-]. rewrite !andb_true_iff, !Z.leb_le in E3.
  assert (Z.land b0 7 = b0 - 240) as -> by (rewrite (proj1 (proj2 (proj2 (land_low b0)))); Z.to_euclidean_division_equations; lia).
  assert (128 <= b1 <= 191 /\ (b0 = 240 -> 144 <= b1) /\ (b0 = 244 -> b1 <= 143)) as (H1 & H2 & H3).
  { destruct (b0 =? 240) eqn:Ea; destruct (b0 =? 244) eqn:Eb; rewrite ?Z.eqb_eq, ?Z.eqb_neq in *; lia. }
  rewrite !cont_byte, encodeRune_4 by lia. cbn. split_and!; [lia|lia|lia|f_equal; [lia|f_equal; [lia|f_equal; [lia|f_equal; lia]]]|right; split; [lia|repeat constructor; lia]].
Qed.

Lemma runes_skip n b : runes n b = runes 0 (drop n b).
Proof. revert b. induction n as [|n IH]; intros [|c b]; cbn [runes drop]; try done. Qed.
Lemma validFrom_skip n b : validFrom n b = validFrom 0 (drop n b).
Proof. revert b. induction n as [|n IH]; intros [|c b]; cbn [validFrom drop]; try done. Qed.
Lemma valid_cons b : b <> [] -> isValidUTF8 b = true -> exists r n, rune_at b = Some (r, n) /\ runes 0 b = r :: runes 0 (drop n b) /\ isValidUTF8 (drop n b) = true.
Proof.
  destruct b as [|c b]; [done|]. intros _. unfold isValidUTF8. cbn [validFrom runes]. destruct (rune_at (c :: b)) as [[r n]|] eqn:E; [|done].
  intros Hv. exists r, n. apply rune_at_encode in E as (Hn & _). destruct n as [|n]; [lia|]. replace (S n - 1)%nat with n in * by lia.
  rewrite validFrom_skip in Hv. split_and!; [done|by rewrite runes_skip|done].
Qed.

(** A byte the literal loop takes as it is. *)
Lemma quotedLoop_plain fuel l : Forall (fun c => c <> 34 /\ c <> 92 /\ c <> 10) l -> forall rest acc, (length (l ++ rest) <= fuel)%nat ->
  quotedLoop fuel false false 34 (l ++ rest) acc = quotedLoop (fuel - length l) false false 34 rest (acc ++ l).
Proof.
  revert fuel. induction l as [|c l IH]; intros fuel Hl rest acc Hf; [by rewrite app_nil_r, Nat.sub_0_r|].
  apply Forall_cons in Hl as [(H1 & H2 & H3) Hl]. destruct fuel as [|fuel]; [cbn in Hf; lia|]. cbn [app quotedLoop negb andb].
  rewrite !(proj2 (Z.eqb_neq _ _)) by done. rewrite IH by (done || cbn in Hf; lia). by rewrite <- app_assoc.
Qed.
(** An escape. *)
Lemma quotedLoop_escape fuel e rest r acc : unescape (92 :: e ++ rest) = Ret (r, rest) ->
  quotedLoop (S fuel) false false 34 (92 :: e ++ rest) acc = quotedLoop fuel false false 34 rest (acc ++ r).
Proof. intros E. cbn [quotedLoop negb andb]. by rewrite E. Qed.

Lemma hexDigit_ok n : 0 <= n < 16 -> isHex (hexDigit n) = true /\ hexValue (hexDigit n) = n.
Proof.
  intros Hn. unfold hexDigit, hexValue, isHex, isDigit. destruct (n <? 10) eqn:E; [apply Z.ltb_lt in E|apply Z.ltb_ge in E].
  - rewrite !(proj2 (Z.leb_le _ _)) by lia. split; [done|]. cbn. lia.
  - rewrite (proj2 (Z.leb_gt (87 + n) 57)), !(proj2 (Z.leb_le _ _)) by lia. rewrite andb_false_r. split; [done|lia].
Qed.
Lemma hexEscape_ok c rest : 0 <= c < 256 -> unescape (hexEscape c ++ rest) = Ret ([c], rest).
Proof.
  intros Hc. unfold hexEscape, unescape. cbn [app].
  destruct (hexDigit_ok (c / 16)) as [H1 H2]; [split; [apply Z.div_pos; lia|apply Z.div_lt_upper_bound; lia]|].
  destruct (hexDigit_ok (c mod 16)) as [H3 H4]; [apply Z.mod_pos_bound; lia|].
  change (120 =? 97) with false. cbn [Z.eqb Pos.eqb orb]. rewrite H1, H3. cbn [andb]. unfold hexNumber. cbn [foldl]. rewrite H2, H4.
  do 2 f_equal. f_equal. Z.to_euclidean_division_equations. lia.
Qed.

(** One rune of a string literal. *)
Lemma quoteRune_step r fuel rest acc : 0 <= r -> (r < 128 /\ encodeRune r = [r] \/ 128 <= r /\ Forall (fun c => 128 <= c) (encodeRune r)) ->
  (length (quoteRune r ++ rest) <= fuel)%nat ->
  exists fuel', (length rest <= fuel')%nat /\
    quotedLoop fuel false false 34 (quoteRune r ++ rest) acc = quotedLoop fuel' false false 34 rest (acc ++ encodeRune r).
Proof.
  intros Hr Henc. assert (forall e, quoteRune r = 92 :: e -> unescape (92 :: e ++ rest) = Ret (encodeRune r, rest) -> (length (quoteRune r ++ rest) <= fuel)%nat ->
    exists fuel', (length rest <= fuel')%nat /\ quotedLoop fuel false false 34 (quoteRune r ++ rest) acc = quotedLoop fuel' false false 34 rest (acc ++ encodeRune r)) as Hesc.
  { intros e -> He Hf. destruct fuel as [|fuel]; [cbn in Hf; lia|]. exists fuel. split; [cbn in Hf; rewrite length_app in Hf; lia|]. by apply quotedLoop_escape. }
  unfold quoteRune in *. destruct (r =? 34) eqn:E1; [apply Z.eqb_eq in E1 as ->; by apply (Hesc [34])|].
  destruct (r =? 92) eqn:E2; [apply Z.eqb_eq in E2 as ->; by apply (Hesc [92])|]. destruct (r =? 10) eqn:E3; [apply Z.eqb_eq in E3 as ->; by apply (Hesc [110])|].
  destruct (r =? 13) eqn:E4; [apply Z.eqb_eq in E4 as ->; by apply (Hesc [114])|]. destruct (r =? 9) eqn:E5; [apply Z.eqb_eq in E5 as ->; by apply (Hesc [116])|].
  apply Z.eqb_neq in E1, E2, E3. destruct (r <? 32) eqn:E6.
  - apply Z.ltb_lt in E6. apply (Hesc [120; hexDigit (r / 16); hexDigit (r mod 16)]); [done|].
    destruct Henc as [[_ ->]|[? _]]; [|lia]. apply hexEscape_ok. lia.
  - apply Z.ltb_ge in E6. intros Hf. rewrite length_app in Hf. exists (fuel - length (encodeRune r))%nat. split; [lia|].
    apply quotedLoop_plain; [|rewrite length_app; lia]. destruct Henc as [[_ ->]|[_ Hall]]; [by repeat constructor|].
    eapply Forall_impl; [exact Hall|]. cbn. lia.
Qed.

Lemma quoteString_loop k : forall s fuel rest acc, (length s <= k)%nat -> isValidUTF8 s = true ->
  (length ((runes 0 s ≫= quoteRune) ++ 34%Z :: rest) <= fuel)%nat ->
  quotedLoop fuel false false 34 ((runes 0 s ≫= quoteRune) ++ 34 :: rest) acc = Ret (acc ++ s, rest).
Proof.
  induction k as [|k IH]; intros s fuel rest acc Hk Hv Hf.
  { destruct s; [|cbn in Hk; lia]. cbn in *. destruct fuel as [|fuel]; [lia|]. cbn. by rewrite app_nil_r. }
  destruct (decide (s = [])) as [->|Hne]. { cbn in *. destruct fuel as [|fuel]; [lia|]. cbn. by rewrite app_nil_r. }
  destruct (valid_cons s Hne Hv) as (r & n & Er & Erun & Hv'). rewrite Erun in *. apply rune_at_encode in Er as (Hn & Hr & Henc & Hb).
  cbn [mbind list_bind] in *. rewrite <- app_assoc in *. change (list_bind ?A ?B ?f ?l) with (l ≫= f) in *.
  destruct (quoteRune_step r fuel ((runes 0 (drop n s) ≫= quoteRune) ++ 34 :: rest) acc) as (fuel' & Hf' & E); [done| |done|].
  { rewrite Henc. exact Hb. }
  rewrite E, IH; [|rewrite length_drop; lia|done|done]. rewrite Henc, <- app_assoc, take_drop. done.
Qed.

Lemma quoteByte_loop b : all_bytes b -> forall fuel rest acc, (length ((b ≫= quoteByte) ++ 34%Z :: rest) <= fuel)%nat ->
  quotedLoop fuel false false 34 ((b ≫= quoteByte) ++ 34 :: rest) acc = Ret (acc ++ b, rest).
Proof.
  induction b as [|c b IH]; intros Hb fuel rest acc Hf.
  { cbn in *. destruct fuel as [|fuel]; [lia|]. cbn. by rewrite app_nil_r. }
  apply Forall_cons in Hb as [Hc Hb]. unfold is_byte in Hc. cbn [mbind list_bind] in *. rewrite <- app_assoc in *. change (list_bind ?A ?B ?f ?l) with (l ≫= f) in *.
  set (tail := (b ≫= quoteByte) ++ 34 :: rest) in *. destruct fuel as [|fuel]; [rewrite length_app in Hf; unfold tail in Hf; rewrite length_app in Hf; cbn in Hf; lia|].
  enough (exists fuel', (length tail <= fuel')%nat /\ quotedLoop (S fuel) false false 34 (quoteByte c ++ tail) acc = quotedLoop fuel' false false 34 tail (acc ++ [c])) as (fuel' & Hf' & ->).
  { unfold tail in *. rewrite IH by done. by rewrite <- app_assoc. }
  assert (forall e, quoteByte c = 92 :: e -> unescape (92 :: e ++ tail) = Ret ([c], tail) -> exists fuel', (length tail <= fuel')%nat /\
    quotedLoop (S fuel) false false 34 (quoteByte c ++ tail) acc = quotedLoop fuel' false false 34 tail (acc ++ [c])) as Hesc.
  { intros e Ee He. rewrite Ee in *. exists fuel. split; [cbn in Hf; rewrite length_app in Hf; lia|]. by apply quotedLoop_escape. }
  unfold quoteByte in *. destruct (c =? 34) eqn:E1; [apply Z.eqb_eq in E1 as ->; by apply (Hesc [34])|].
  destruct (c =? 92) eqn:E2; [apply Z.eqb_eq in E2 as ->; by apply (Hesc [92])|]. apply Z.eqb_neq in E1, E2.
  destruct (_ && _) eqn:E3.
  - apply andb_true_iff in E3 as [E3 _]. apply Z.leb_le in E3. exists fuel. split; [cbn in Hf; lia|].
    rewrite quotedLoop_plain; [|constructor; [lia|constructor]|done]. cbn [length]. by rewrite Nat.sub_succ, Nat.sub_0_r.
  - apply (Hesc [120; hexDigit (c / 16); hexDigit (c mod 16)]); [done|]. by apply hexEscape_ok.
Qed.

(** No printed literal starts like a triple-quoted one. *)
Lemma quoteRune_head r : exists c t, quoteRune r = c :: t /\ c <> 34.
Proof.
  unfold quoteRune, hexEscape. repeat (case_match; [by eexists _, _|]). rewrite Z.eqb_neq, Z.ltb_ge in *. unfold encodeRune.
  rewrite (proj2 (Z.ltb_ge r 0)) by lia. destruct (r <? 128); [by eexists _, _|]. destruct (r <? 2048) eqn:E.
  { eexists _, _. split; [done|]. assert (0 <= r / 64) by (apply Z.div_pos; lia). lia. }
  destruct (_ || _); [by eexists _, _|]. assert (0 <= r / 4096 /\ 0 <= r / 262144) as [? ?] by (split; apply Z.div_pos; lia).
  case_match; eexists _, _; (split; [done|lia]).
Qed.
Lemma quoteByte_head c : 0 <= c < 256 -> exists d t, quoteByte c = d :: t /\ d <> 34.
Proof.
  intros Hc. unfold quoteByte, hexEscape. destruct (c =? 34) eqn:E; [by eexists _, _|]. apply Z.eqb_neq in E. repeat (case_match; [by eexists _, _|]). by eexists _, _.
Qed.
Lemma not_triple (body : bytes) rest : (forall c t, body = c :: t -> c <> 34) -> (body = [] -> rest = [34]) ->
  HasPrefix (34 :: body ++ rest) [34; 34; 34] = false.
Proof.
  intros Hb Hr. destruct body as [|c t]; [by rewrite Hr|]. specialize (Hb c t eq_refl). cbn [HasPrefix app]. rewrite (proj2 (Z.eqb_neq 34 c)) by congruence. by rewrite andb_false_r.
Qed.

Lemma lexQuoted_string s : isValidUTF8 s = true -> lexQuoted false false (quoteSQLString s) = Ret (s, []).
Proof.
  intros Hv. unfold lexQuoted, quoteSQLString. cbn [app]. rewrite not_triple.
  - rewrite (quoteString_loop (length s)) by (done || cbn; lia). cbn [app mbind outcome_bind]. by rewrite Hv.
  - intros c t E. destruct (runes 0 s) as [|r l]; [done|]. destruct (quoteRune_head r) as (c' & t' & Er & Hc). cbn [mbind list_bind] in E. rewrite Er in E.
    by injection E as <- _.
  - done.
Qed.
Lemma lexQuoted_bytes b : all_bytes b -> lexQuoted false true (34 :: (b ≫= quoteByte) ++ [34]) = Ret (b, []).
Proof.
  intros Hb. unfold lexQuoted. rewrite not_triple.
  - rewrite quoteByte_loop by (done || cbn; lia). done.
  - intros c t E. destruct b as [|x b]; [done|]. apply Forall_cons in Hb as [Hx _]. destruct (quoteByte_head x Hx) as (c' & t' & Er & Hc).
    cbn [mbind list_bind] in E. rewrite Er in E. by injection E as <- _.
  - done.
Qed.

(** Reading one token that ends the source. *)
Lemma lex_single src tok : src <> [] -> tk_kind tok <> tEOF -> next (length src) src = Ret (tok, []) ->
  lex src = Ret [tok; mkTok tEOF [] [] [] (length src)].
Proof.
  intros Hne Hk E. unfold lex. destruct (length src) as [|n] eqn:El; [by destruct src|]. cbn [lexLoop]. rewrite E. cbn [mbind outcome_bind].
  assert (next (S n) [] = Ret (mkTok tEOF [] [] [] (S n), [])) as -> by (cbn; done). cbn. by destruct (tk_kind tok).
Qed.

Lemma digits_value s : Forall (fun c => 48 <= c <= 57) s -> forall a, foldl parseDigit (Some a) s = Some (foldl (fun v c => v * 10 + hexValue c) a s).
Proof.
  induction s as [|c s IH]; intros Hs a; [done|]. apply Forall_cons in Hs as [Hc Hs]. cbn [foldl]. unfold parseDigit at 2, hexValue at 2, isDigit. cbn.
  rewrite !(proj2 (Z.leb_le _ _)) by lia. cbn. by apply IH.
Qed.
Lemma ParseUint_value ds n : ds <> [] -> Forall (fun c => 48 <= c <= 57) ds -> foldl parseDigit (Some 0) ds = Some n -> n < two64 -> ParseUint 10 ds = Some n.
Proof.
  intros Hne Hd Hp Hn. rewrite digits_value in Hp by done. unfold ParseUint. destruct ds as [|c s]; [done|]. cbn [Z.eqb]. replace (forallb _ _) with true.
  - apply (inj Some) in Hp. rewrite Hp. rewrite (proj2 (Z.ltb_lt _ _)) by (unfold two64 in *; lia). done.
  - symmetry. apply forallb_forall. intros x Hx%list_elem_of_In. rewrite list.Forall_forall in Hd. apply Hd in Hx. change (isDigit x = true). unfold isDigit. rewrite !(proj2 (Z.leb_le _ _)) by lia. done.
Qed.
Lemma ParseUint_digits n : 0 <= n <= two63 -> ParseUint 10 (digits 20 n []) = Some n /\ (forall p, HasPrefix (digits 20 n []) [48; p] = true -> 48 <= p <= 57).
Proof.
  intros Hn. pose proof (digits_all 20 n [] ltac:(constructor)) as Hd. unfold two63 in Hn. pose proof (digits_parse 20 n [] ltac:(cbn; lia)) as Hp.
  destruct (digits_cons 19 n []) as (c & s & E). revert Hd Hp E. generalize (digits 20 n []). intros ds Hd Hp E. split.
  - apply ParseUint_value; [by rewrite E|done|exact Hp|unfold two64; lia].
  - intros p Hpre%HasPrefix_spec. destruct Hpre as [rest ->]. cbn in Hd. by apply Forall_cons in Hd as [_ [? _]%Forall_cons].
Qed.
Lemma parseIntLiteral_FormatInt n : is_int64 n -> parseIntLiteral (FormatInt n) = Ret n.
Proof.
  intros Hn. unfold_words. unfold parseIntLiteral, FormatInt. destruct (n <? 0) eqn:En.
  - apply Z.ltb_lt in En. cbn [HasPrefix str]. change (HasPrefix (45 :: digits 20 (- n) []) (str "-")) with true. cbn [drop]. rewrite drop_0.
    destruct (ParseUint_digits (- n)) as [Hu Hx]; [unfold two63; lia|].
    destruct (HasPrefix (digits 20 (- n) []) (str "0x")) eqn:E1; [apply (Hx 120) in E1; lia|]. destruct (HasPrefix (digits 20 (- n) []) (str "0X")) eqn:E2; [apply (Hx 88) in E2; lia|].
    cbn [orb]. rewrite Hu, (proj2 (Z.ltb_ge _ _)) by lia. f_equal. lia.
  - apply Z.ltb_ge in En. destruct (ParseUint_digits n) as [Hu Hx]; [unfold two63; lia|].
    assert (HasPrefix (digits 20 n []) (str "-") = false) as ->.
    { destruct (HasPrefix _ _) eqn:E; [|done]. apply HasPrefix_spec in E as [rest E]. pose proof (digits_all 20 n [] ltac:(constructor)) as Hd. rewrite E in Hd.
      cbn in Hd. apply Forall_cons in Hd as [? _]. lia. }
    destruct (HasPrefix (digits 20 n []) (str "0x")) eqn:E1; [apply (Hx 120) in E1; lia|]. destruct (HasPrefix (digits 20 n []) (str "0X")) eqn:E2; [apply (Hx 88) in E2; lia|].
    cbn [orb]. rewrite Hu, (proj2 (Z.ltb_ge _ _)) by lia. done.
Qed.

(** C21: The lexer terminates on every input: it returns tokens at strictly
    increasing positions inside the source followed by the end token, or a
    syntax error; it never runs past the input.  A loop that had not ended when its
    turns are as many as the bytes of the input would be a panic, which the theorem
    rules out for the loop over tokens and for those inside spaces, comments, quoted
    and back-quoted text. *)
Theorem lex_total src :
  match lex src with Ret toks => lexed 0 (length src) toks | Err _ => True | Panic => False end.
Proof.
  pose proof (lexLoop_ok (length src) (S (length src)) src ltac:(lia) ltac:(lia)) as H. unfold lex.
  destruct (lexLoop _ _ _); [|done|done]. by rewrite Nat.sub_diag in H.
Qed.

(** C20: The literals the engine prints read back as the same values: a valid
    string as one string token, any bytes as one bytes token, and an int64 as
    itself. *)
Theorem literal_roundtrip :
  (forall s, isValidUTF8 s = true ->
     lex (quoteSQLString s) = Ret [mkTok tString [] s [] 0; mkTok tEOF [] [] [] (length (quoteSQLString s))]) /\
  (forall b, all_bytes b ->
     lex (quoteSQLBytes b) = Ret [mkTok tBytes [] [] b 0; mkTok tEOF [] [] [] (length (quoteSQLBytes b))]) /\
  (forall n, is_int64 n -> parseIntLiteral (FormatInt n) = Ret n).
Proof.
  split_and!; [| |apply parseIntLiteral_FormatInt].
  - intros s Hv. apply lex_single; [done|done|]. unfold next. set (src := quoteSQLString s).
    assert (skipSpaceAndComments (S (length src)) src = Ret src) as -> by done. cbn [mbind outcome_bind]. rewrite Nat.sub_diag.
    assert (literalPrefix src = None) as El by done. pose proof (lexQuoted_string s Hv) as E. fold src in E.
    change src with (34 :: (runes 0 s ≫= quoteRune) ++ [34]) at 1. cbv beta iota. change (34 :: (runes 0 s ≫= quoteRune) ++ [34]) with src.
    rewrite El. change ((34 =? 39) || (34 =? 34)) with true. cbv iota. rewrite E. done.
  - intros b Hb. apply lex_single; [done|done|]. unfold next. set (src := quoteSQLBytes b).
    assert (skipSpaceAndComments (S (length src)) src = Ret src) as -> by done. cbn [mbind outcome_bind]. rewrite Nat.sub_diag.
    change src with (98 :: 34 :: (b ≫= quoteByte) ++ [34]) at 1. cbv beta iota. change (98 :: 34 :: (b ≫= quoteByte) ++ [34]) with src.
    assert (literalPrefix src = Some (false, true, 34 :: (b ≫= quoteByte) ++ [34])) as -> by done. rewrite lexQuoted_bytes by done. done.
Qed.
