(* ===== verification/Views.v ===== *)
(** * Views, schema bundles and IAM policies

    The administration of authorized views ([localcloud_authorized_views.go]),
    logical views ([localcloud_logical_views.go]) and schema bundles
    ([localcloud_schema_bundles.go]), and IAM policies ([sql_iam.go]).  All four
    carry an etag, a digest of their content, that a client can send back to make
    an update conditional.  The digest, the query engine's verdict on a view's
    query and the descriptor and JSON libraries that read schema bundles are
    parameters. *)

From S2P Require Import Prelude Proto Rows Gc Hll Mutations Filters Server Store Tokens Targets WritePath KeyCodec KeySchema TableAdmin TableOps Tombstones TableUpdate Metadata Backups Instances.
From stdpp Require Import base list gmap sorting.
From Stdlib Require Import ZArith Lia.

#[local] Open Scope Z_scope.

(** ** Etags *)

(** A message with an etag field. *)
Class Etagged (T : Type) : Type := {
  etag_of : T -> bytes;
  with_etag : bytes -> T -> T;
  etag_with : forall e m, etag_of (with_etag e m) = e;
  with_with : forall e1 e2 m, with_etag e1 (with_etag e2 m) = with_etag e1 m }.

#[export] Program Instance AuthorizedView_Etagged : Etagged AuthorizedView := {|
  etag_of := av_Etag;
  with_etag e av := mkAuthorizedView (av_Name av) (av_SubsetView av) e (av_DeletionProtection av) |}.
Solve All Obligations with done.
#[export] Program Instance LogicalView_Etagged : Etagged LogicalView := {|
  etag_of := lv_Etag;
  with_etag e lv := mkLogicalView (lv_Name lv) (lv_Query lv) e (lv_DeletionProtection lv) |}.
Solve All Obligations with done.
#[export] Program Instance SchemaBundle_Etagged : Etagged SchemaBundle := {|
  etag_of := sb_Etag;
  with_etag e sb := mkSchemaBundle (sb_Name sb) e (sb_Type sb) |}.
Solve All Obligations with done.
#[export] Program Instance Policy_Etagged : Etagged Policy := {|
  etag_of := po_Etag;
  with_etag e p := mkPolicy (po_Version p) (po_Bindings p) (po_AuditConfigs p) e |}.
Solve All Obligations with done.

(** [proto.Marshal], SHA-256 and base64 of each message. *)
Class Digests : Type := mkDigests {
  digest_av : AuthorizedView -> bytes; digest_lv : LogicalView -> bytes;
  digest_sb : SchemaBundle -> bytes; digest_policy : Policy -> bytes }.

(** [contentEtag]: the digest of the message without its etag. *)
Definition contentEtagOf {T : Type} `{!Etagged T} (digest : T -> bytes) (m : T) : bytes := digest (with_etag [] m).
Definition sealed {T : Type} `{!Etagged T} (digest : T -> bytes) (m : T) : T := with_etag (contentEtagOf digest m) m.

(** ** Validation *)

Definition maxAuthorizedViewQualifierPrefixes : nat := 10.

(** A family subset of a view, and the qualifier prefixes seen so far. *)
Definition subsetPrefixes (prefixes : gset bytes) (sub : bytes * FamilySubsets) : outcome (gset bytes) :=
  let '(fam, fs) := sub in
  if negb (familyIDPattern fam) then Err InvalidArgument
  else Ret (list_to_set ((fun p => fam ++ [0] ++ p) <$> QualifierPrefixes fs) ∪ prefixes).

Definition validateSubsetView (av : AuthorizedView) : outcome unit :=
  match av_SubsetView av with
  | None => Ret tt
  | Some sv =>
      prefixes ← foldM subsetPrefixes ∅ (map_to_list (sv_FamilySubsets sv));
      if (maxAuthorizedViewQualifierPrefixes <? size prefixes)%nat then Err InvalidArgument else Ret tt
  end.

Inductive ResponseView : Type := RESPONSE_VIEW_UNSPECIFIED | AV_NAME_ONLY | AV_BASIC | AV_FULL.

Definition authorizedViewResponse (av : AuthorizedView) (view : ResponseView) : AuthorizedView :=
  match view with
  | AV_NAME_ONLY => mkAuthorizedView (av_Name av) None [] false
  | AV_BASIC => mkAuthorizedView (av_Name av) None (av_Etag av) (av_DeletionProtection av)
  | _ => av
  end.

(** One path of an update mask of an authorized view. *)
Definition updateViewPath (av next : AuthorizedView) (path : bytes) : outcome AuthorizedView :=
  if bool_decide (path = str "deletion_protection") then
    Ret (mkAuthorizedView (av_Name next) (av_SubsetView next) (av_Etag next) (av_DeletionProtection av))
  else if bool_decide (path = str "subset_view") then
    Ret (mkAuthorizedView (av_Name next) (av_SubsetView av) (av_Etag next) (av_DeletionProtection next))
  else if bool_decide (path = str "*") then
    Ret (mkAuthorizedView (av_Name next) (av_SubsetView av) (av_Etag next) (av_DeletionProtection av))
  else Err InvalidArgument.

(** The paths an empty mask stands for. *)
Definition viewPaths (av : AuthorizedView) (paths : list bytes) : list bytes :=
  match paths with
  | [] => (if bool_decide (is_Some (av_SubsetView av)) then [str "subset_view"] else []) ++
          (if av_DeletionProtection av then [str "deletion_protection"] else [])
  | _ => paths
  end.

Definition updateLogicalViewPath (lv next : LogicalView) (path : bytes) : outcome LogicalView :=
  if bool_decide (path = str "query") then
    match lv_Query lv with
    | [] => Err InvalidArgument
    | q => Ret (mkLogicalView (lv_Name next) q (lv_Etag next) (lv_DeletionProtection next))
    end
  else if bool_decide (path = str "deletion_protection") then
    Ret (mkLogicalView (lv_Name next) (lv_Query next) (lv_Etag next) (lv_DeletionProtection lv))
  else Err InvalidArgument.

(** One path of an update mask of a policy, merged into the current one. *)
Definition updatePolicyPath (next merged : Policy) (path : bytes) : outcome Policy :=
  if bool_decide (path = str "bindings") then
    Ret (mkPolicy (po_Version merged) (po_Bindings next) (po_AuditConfigs merged) (po_Etag merged))
  else if bool_decide (path = str "etag") then Ret merged
  else if bool_decide (path = str "version") then
    Ret (mkPolicy (po_Version next) (po_Bindings merged) (po_AuditConfigs merged) (po_Etag merged))
  else if bool_decide (path = str "audit_configs") then
    Ret (mkPolicy (po_Version merged) (po_Bindings merged) (po_AuditConfigs next) (po_Etag merged))
  else Err InvalidArgument.

(** *** Schema bundles *)

Definition maxSchemaBundlesPerTable : nat := 10.
Definition maxSchemaBundleBytes : Z := 4 * 2 ^ 20.

(** The message types of a file descriptor, with their nested types. *)
Inductive DescriptorProto : Type := mkDescriptor (name : bytes) (nested : list DescriptorProto).
Record FileDescriptorProto : Type := mkFileDescriptor { fd_Package : bytes; fd_MessageType : list DescriptorProto }.

(** A decoded JSON value, as far as an Avro schema is concerned: an object with
    its name and namespace, an array or string, or anything else. *)
Inductive AvroValue : Type := Avro_Object (name namespace : bytes) | Avro_Other | Avro_Invalid.

(** The libraries that read schema bundles: the size of a message, the parser
    of a descriptor set with its verdict, and the JSON parser. *)
Class SchemaReader : Type := mkSchemaReader {
  bundleSize : SchemaBundle -> Z;
  unmarshalSet : bytes -> option (list FileDescriptorProto);
  validateFileDescriptorSet : list FileDescriptorProto -> bool;
  unmarshalAvro : bytes -> option AvroValue }.

(** [strings.TrimPrefix(name, ".")]. *)
Definition trimDot (name : bytes) : bytes := match name with c :: rest => if c =? 46 then rest else name | [] => [] end.

(** The [walk] of [schemaBundleMessages]. *)
Fixpoint walkMessages (prefix : bytes) (m : DescriptorProto) : list bytes :=
  match m with
  | mkDescriptor n nested =>
      let name := prefix ++ str "." ++ n in
      trimDot name :: mjoin (walkMessages name <$> nested)
  end.

Definition avroName `{!SchemaReader} (js : bytes) : outcome (list bytes) :=
  match unmarshalAvro js with
  | None | Some Avro_Invalid => Err InvalidArgument
  | Some Avro_Other => Ret []
  | Some (Avro_Object name namespace) => Ret match name with [] => [] | _ => [trimDot (namespace ++ str "." ++ name)] end
  end.

Definition schemaBundleMessages `{!SchemaReader} (sb : SchemaBundle) : outcome (gset bytes) :=
  if maxSchemaBundleBytes <? bundleSize sb then Err InvalidArgument
  else match sb_Type sb with
  | Bundle_ProtoSchema raw =>
      match raw with
      | [] => Err InvalidArgument
      | _ =>
          match unmarshalSet raw with
          | None | Some [] => Err InvalidArgument
          | Some files =>
              if negb (validateFileDescriptorSet files) then Err InvalidArgument
              else Ret (list_to_set (mjoin ((fun f => mjoin (walkMessages (fd_Package f) <$> fd_MessageType f)) <$> files)))
          end
      end
  | Bundle_AvroSchema schemas =>
      match schemas with
      | [] => Err InvalidArgument
      | _ => names ← collectM avroName schemas; Ret (list_to_set (mjoin names))
      end
  | Bundle_Unset => Err InvalidArgument
  end.

Definition isProto (sb : SchemaBundle) : bool := match sb_Type sb with Bundle_ProtoSchema _ => true | _ => false end.

Definition checkBundlePath (path : bytes) : outcome unit :=
  if bool_decide (path ∈ [str "proto_schema"; str "proto_schema.proto_descriptors"; str "avro_schema"; str "avro_schema.json_schemas"])
  then Ret tt else Err InvalidArgument.

Section views.
Context {blob : Type} `{!Gob blob} `{!Env} `{!Digests} `{!SchemaReader}.
(** The engine's case folding for [LIKE], [isStrictAdmin()], and
    [validateViewQuery], the query engine's verdict on a query in an instance. *)
Context (fold_case : Z -> Z) (strictAdmin : bool) (validateViewQuery : world blob -> bytes -> bytes -> outcome unit).

(** ** The stores *)

(** [protoStore.get] and [protoStore.put]. *)
Definition store_get {T : Type} (proj : database blob -> gmap bytes T) (name : bytes) : M blob (option T) :=
  call (fun d => (Ret (proj d !! name), d)).
Definition logical_views (d : database blob) : gmap bytes LogicalView := logical_views_t (meta_t d).
Definition lv_put (name : bytes) (lv : LogicalView) : M blob unit :=
  metaCall (fun md => (Ret tt, set_logical_views_t md (<[name := lv]> (logical_views_t md)))).
Definition iam_get (resource : bytes) : M blob (option Policy) := store_get iam_policies_t resource.
Definition iam_put (resource : bytes) (p : Policy) : M blob unit :=
  call (fun d => (Ret tt, set_iam_policies_t d (<[resource := p]> (iam_policies_t d)))).

(** ** Authorized views *)

Definition CreateAuthorizedView (parent viewId : bytes) (view : option AuthorizedView) : M blob AuthorizedView :=
  if Nat.eqb (length parent) 0 || negb (tableIDPattern viewId) then fail InvalidArgument
  else
    s ← getServer;
    _ ← lift (localRequireTable s parent);
    let av := default (mkAuthorizedView [] None [] false) view in
    _ ← lift (validateSubsetView av);
    let name := parent ++ str "/authorizedViews/" ++ viewId in
    let av := mkAuthorizedView name (av_SubsetView av) (av_Etag av) (av_DeletionProtection av) in
    cur ← mapErr storageErr (avBackend_Get name);
    match cur with
    | Some _ => fail AlreadyExists
    | None =>
        let av := sealed digest_av av in
        _ ← mapErr storageErr (av_put av);
        _ ← ops_complete parent;
        mret av
    end.

Definition GetAuthorizedView (name : bytes) (view : ResponseView) : M blob AuthorizedView :=
  av ← mapErr storageErr (avBackend_Get name);
  match av with
  | None => fail NotFound
  | Some av => mret (authorizedViewResponse av (match view with RESPONSE_VIEW_UNSPECIFIED => AV_BASIC | v => v end))
  end.

Definition ListAuthorizedViews (parent : bytes) (view : ResponseView) (pageSize : Z) (pageToken : bytes) : M blob (list AuthorizedView * bytes) :=
  s ← getServer;
  _ ← lift (localRequireTable s parent);
  views ← mapErr storageErr (listPrefix authorized_views_t (parent ++ str "/authorizedViews/"));
  let view := match view with RESPONSE_VIEW_UNSPECIFIED => AV_NAME_ONLY | v => v end in
  '(page, next) ← lift (paginate av_Name views.*2 pageSize pageToken);
  mret ((fun av => authorizedViewResponse av view) <$> page, next).

Definition UpdateAuthorizedView (view : option AuthorizedView) (paths : list bytes) : M blob AuthorizedView :=
  match view with
  | None => fail InvalidArgument
  | Some av =>
      if Nat.eqb (length (av_Name av)) 0 then fail InvalidArgument
      else
        existing ← mapErr storageErr (avBackend_Get (av_Name av));
        match existing with
        | None => fail NotFound
        | Some existing =>
            _ ← lift (checkEtag (av_Etag av) (av_Etag existing));
            next ← lift (foldM (updateViewPath av) existing (viewPaths av paths));
            _ ← lift (validateSubsetView next);
            let next := sealed digest_av next in
            _ ← mapErr storageErr (av_put next);
            _ ← ops_complete (av_Name next);
            mret next
        end
  end.

Definition DeleteAuthorizedView (name etag : bytes) : M blob unit :=
  av ← mapErr storageErr (avBackend_Get name);
  match av with
  | None => fail NotFound
  | Some av =>
      _ ← lift (checkEtag etag (av_Etag av));
      if av_DeletionProtection av then fail FailedPrecondition
      else
        _ ← mapErr storageErr (av_remove name);
        mapErr storageErr (iam_deletePrefix fold_case name)
  end.

(** ** Logical views *)

Definition CreateLogicalView (parent viewId : bytes) (view : option LogicalView) : M blob LogicalView :=
  if Nat.eqb (length parent) 0 || negb (tableIDPattern viewId) then fail InvalidArgument
  else
    _ ← localRequireInstance strictAdmin parent;
    let lv := default (mkLogicalView [] [] [] false) view in
    if Nat.eqb (length (lv_Query lv)) 0 then fail InvalidArgument
    else
      _ ← (fun w => (validateViewQuery w parent (lv_Query lv), w));
      let name := parent ++ str "/logicalViews/" ++ viewId in
      let lv := mkLogicalView name (lv_Query lv) (lv_Etag lv) (lv_DeletionProtection lv) in
      cur ← mapErr storageErr (store_get logical_views name);
      match cur with
      | Some _ => fail AlreadyExists
      | None =>
          let lv := sealed digest_lv lv in
          _ ← mapErr storageErr (lv_put name lv);
          _ ← ops_complete name;
          mret lv
      end.

(** [UpdateLogicalView] releases the server's lock while the query engine looks
    at the new query: up to there, and from there on. *)
Definition prepareLogicalView (view : option LogicalView) (paths : list bytes) : M blob LogicalView :=
  match view with
  | None => fail InvalidArgument
  | Some lv =>
      if Nat.eqb (length (lv_Name lv)) 0 then fail InvalidArgument
      else
        cur ← mapErr storageErr (store_get logical_views (lv_Name lv));
        match cur with
        | None => fail NotFound
        | Some cur =>
            _ ← lift (checkEtag (lv_Etag lv) (lv_Etag cur));
            let paths := match paths with [] => [str "query"; str "deletion_protection"] | _ => paths end in
            lift (foldM (updateLogicalViewPath lv) cur paths)
        end
  end.
Definition commitLogicalView (next : LogicalView) : M blob LogicalView :=
  let next := sealed digest_lv next in
  _ ← mapErr storageErr (lv_put (lv_Name next) next);
  _ ← ops_complete (lv_Name next);
  mret next.
Definition UpdateLogicalView (view : option LogicalView) (paths : list bytes) : M blob LogicalView :=
  next ← prepareLogicalView view paths;
  _ ← (fun w => (validateViewQuery w (tableInstance (lv_Name next)) (lv_Query next), w));
  commitLogicalView next.

Definition DeleteLogicalView (name etag : bytes) : M blob unit :=
  lv ← mapErr storageErr (store_get logical_views name);
  match lv with
  | None => fail NotFound
  | Some lv =>
      _ ← lift (checkEtag etag (lv_Etag lv));
      if lv_DeletionProtection lv then fail FailedPrecondition
      else
        _ ← mapErr storageErr (lv_remove name);
        mapErr storageErr (iam_deletePrefix fold_case name)
  end.

Definition GetLogicalView (name : bytes) : M blob LogicalView :=
  lv ← mapErr storageErr (store_get logical_views name);
  match lv with None => fail NotFound | Some lv => mret lv end.
Definition ListLogicalViews (parent : bytes) (pageSize : Z) (pageToken : bytes) : M blob (list LogicalView * bytes) :=
  if Nat.eqb (length parent) 0 then fail InvalidArgument
  else
    views ← mapErr storageErr (listPrefix logical_views (parent ++ str "/logicalViews/"));
    lift (paginate lv_Name views.*2 pageSize pageToken).

(** ** Schema bundles *)

Definition GetSchemaBundle (name : bytes) : M blob SchemaBundle :=
  sb ← mapErr storageErr (store_get schema_bundles_t name);
  match sb with None => fail NotFound | Some sb => mret sb end.
Definition ListSchemaBundles (parent : bytes) (pageSize : Z) (pageToken : bytes) : M blob (list SchemaBundle * bytes) :=
  s ← getServer;
  _ ← lift (localRequireTable s parent);
  bundles ← mapErr storageErr (listPrefix schema_bundles_t (parent ++ str "/schemaBundles/"));
  lift (paginate sb_Name bundles.*2 pageSize pageToken).

Definition CreateSchemaBundle (parent bundleId : bytes) (bundle : option SchemaBundle) : M blob SchemaBundle :=
  if negb (tableIDPattern bundleId) then fail InvalidArgument
  else
    s ← getServer;
    _ ← lift (localRequireTable s parent);
    let sb := default (mkSchemaBundle [] [] Bundle_Unset) bundle in
    _ ← lift (schemaBundleMessages sb);
    let name := parent ++ str "/schemaBundles/" ++ bundleId in
    let sb := mkSchemaBundle name (sb_Etag sb) (sb_Type sb) in
    cur ← mapErr storageErr (store_get schema_bundles_t name);
    match cur with
    | Some _ => fail AlreadyExists
    | None =>
        existing ← mapErr storageErr (listPrefix schema_bundles_t (parent ++ str "/schemaBundles/"));
        if (maxSchemaBundlesPerTable <=? length existing)%nat then fail ResourceExhausted
        else
          let sb := sealed digest_sb sb in
          _ ← mapErr storageErr (sb_put sb);
          _ ← ops_complete name;
          mret sb
    end.

Definition UpdateSchemaBundle (bundle : option SchemaBundle) (paths : list bytes) (ignoreWarnings : bool) : M blob SchemaBundle :=
  match bundle with
  | None => fail InvalidArgument
  | Some update =>
      if Nat.eqb (length (sb_Name update)) 0 then fail InvalidArgument
      else
        cur ← mapErr storageErr (store_get schema_bundles_t (sb_Name update));
        match cur with
        | None => fail NotFound
        | Some cur =>
            _ ← lift (checkEtag (sb_Etag update) (sb_Etag cur));
            _ ← lift (foldM (fun _ => checkBundlePath) tt paths);
            if xorb (isProto cur) (isProto update) then fail InvalidArgument
            else
              newMsgs ← lift (schemaBundleMessages update);
              let oldMsgs := match schemaBundleMessages cur with Ret m => m | _ => ∅ end in
              if negb ignoreWarnings && negb (bool_decide (oldMsgs ⊆ newMsgs)) then fail FailedPrecondition
              else
                let next := sealed digest_sb update in
                _ ← mapErr storageErr (sb_put next);
                _ ← ops_complete (sb_Name next);
                mret next
        end
  end.

Definition DeleteSchemaBundle (name etag : bytes) : M blob unit :=
  cur ← mapErr storageErr (store_get schema_bundles_t name);
  match cur with
  | None => fail NotFound
  | Some cur =>
      _ ← lift (checkEtag etag (sb_Etag cur));
      _ ← mapErr storageErr (sb_remove name);
      mapErr storageErr (iam_deletePrefix fold_case name)
  end.

(** ** IAM policies *)

Definition iamResourceExists (resource : bytes) : M blob bool :=
  let exists_in {T : Type} (proj : database blob -> gmap bytes T) : M blob bool :=
    r ← store_get proj resource; mret (bool_decide (is_Some r)) in
  if Contains resource (str "/authorizedViews/") then exists_in authorized_views_t
  else if Contains resource (str "/schemaBundles/") then exists_in schema_bundles_t
  else if Contains resource (str "/backups/") then exists_in (fun d => backups_t (meta_t d))
  else if Contains resource (str "/logicalViews/") then exists_in logical_views
  else
    s ← getServer;
    if Contains resource (str "/materializedViews/") then mret (bool_decide (is_Some (s_mvs s !! resource)))
    else if Contains resource (str "/tables/") then mret (bool_decide (is_Some (s_tables s !! resource)))
    else if Contains resource (str "/instances/") then mret (bool_decide (is_Some (s_instances s !! resource)) || negb strictAdmin)
    else mret false.

Definition requireIAMResource (resource : bytes) : M blob unit :=
  if Nat.eqb (length resource) 0 then fail InvalidArgument
  else
    ok ← mapErr storageErr (iamResourceExists resource);
    if (ok : bool) then mret tt else fail NotFound.

(** The policy of a resource that has none. *)
Definition emptyPolicy : Policy := sealed digest_policy (mkPolicy 1 [] [] []).

Definition getIamPolicy (resource : bytes) : M blob Policy :=
  _ ← requireIAMResource resource;
  p ← mapErr storageErr (iam_get resource);
  mret (default emptyPolicy p).

Definition setIamPolicy (resource : bytes) (policy : option Policy) (paths : list bytes) : M blob Policy :=
  _ ← requireIAMResource resource;
  match policy with
  | None => fail InvalidArgument
  | Some policy =>
      p ← mapErr storageErr (iam_get resource);
      let cur := default emptyPolicy p in
      _ ← lift (checkEtag (po_Etag policy) (po_Etag cur));
      next ← match paths with
             | [] => mret policy
             | _ => lift (foldM (updatePolicyPath policy) cur paths)
             end;
      let next := sealed digest_policy next in
      _ ← mapErr storageErr (iam_put resource next);
      mret next
  end.

Definition testIamPermissions (resource : bytes) (permissions : list bytes) : M blob (list bytes) :=
  _ ← requireIAMResource resource;
  mret permissions.
End views.

(** ** Conditional updates *)

Section guards.
Context {blob : Type} `{!Gob blob} `{!Env} `{!Digests} `{!SchemaReader}.
Context (fold_case : Z -> Z) (strictAdmin : bool) (validateViewQuery : world blob -> bytes -> bytes -> outcome unit).
Implicit Types (w : world blob).

(** A request refused for its etag changes nothing. *)
Definition refused {A : Type} (m : M blob A) (w : world blob) : Prop :=
  exists w', m w = (Err Aborted, w') /\ w_db w' = w_db w /\ w_srv w' = w_srv w.

Lemma sealed_etag {T : Type} `{!Etagged T} (digest : T -> bytes) m :
  etag_of (sealed digest m) = contentEtagOf digest (sealed digest m).
Proof. unfold sealed, contentEtagOf. by rewrite etag_with, with_with. Qed.

Lemma checkEtag_stale e cur : e <> [] -> e <> cur -> checkEtag e cur = Err Aborted.
Proof. intros Hne Hc. unfold checkEtag. destruct e; [done|]. by rewrite bool_decide_eq_false_2. Qed.
Lemma checkEtag_Ret e cur u : checkEtag e cur = Ret u -> e = [] \/ e = cur.
Proof. unfold checkEtag. destruct e; [by left|]. case_bool_decide; [by right|done]. Qed.

(** Registering an operation touches the registry alone. *)
Lemma ops_complete_db r w w' : ops_complete (blob := blob) r w = (Ret tt, w') -> exists m, w_db w' = set_operations_t (w_db w) m.
Proof.
  unfold ops_complete. intros (s & w1 & [= <- <-] & ([] & w2 & [= <-] & (d & [= <-] & ->)%mapErr_Ret%call_Ret)%bind_Ret)%bind_Ret. by eexists.
Qed.

(** *** The updates *)

Lemma updateViewPath_name av next paths next' : foldM (updateViewPath av) next paths = Ret next' -> av_Name next' = av_Name next.
Proof.
  intros E. apply (foldM_inv (fun v => av_Name v = av_Name next)) in E; [done| |done]. intros b a b' _ Hb Hu. unfold updateViewPath in Hu.
  repeat case_match; simplify_eq; done.
Qed.

Lemma UpdateAuthorizedView_Ret av paths w next w' : UpdateAuthorizedView (Some av) paths w = (Ret next, w') ->
  exists cur, authorized_views_t (w_db w) !! av_Name av = Some cur /\ (av_Etag av = [] \/ av_Etag av = av_Etag cur) /\
    av_Name next = av_Name cur /\ av_Etag next = contentEtagOf digest_av next /\ validateSubsetView next = Ret tt /\
    authorized_views_t (w_db w') = <[av_Name next := next]> (authorized_views_t (w_db w)).
Proof.
  unfold UpdateAuthorizedView, avBackend_Get, av_put. case_match; [done|]. intros E. apply bind_Ret in E as (cur & w1 & (d & [= <- <-] & ->)%mapErr_Ret%call_Ret & E).
  destruct (authorized_views_t (w_db w) !! av_Name av) as [cur|] eqn:Ec; [|done]. exists cur. split; [done|].
  apply bind_Ret in E as (u & w2 & [He ->]%lift_Ret & E). apply checkEtag_Ret in He. split; [done|].
  apply bind_Ret in E as (n & w3 & [Hn ->]%lift_Ret & E). apply bind_Ret in E as ([] & w4 & [Hv ->]%lift_Ret & E).
  apply bind_Ret in E as ([] & w5 & (d & [= <-] & ->)%mapErr_Ret%call_Ret & E). apply bind_Ret in E as ([] & w6 & [m Ho]%ops_complete_db & [<- ->]%ret_Ret).
  split; [by apply updateViewPath_name in Hn|]. split; [exact (sealed_etag digest_av n)|]. split; [done|]. rewrite Ho. done.
Qed.

Lemma UpdateSchemaBundle_Ret sb paths ignore w next w' : UpdateSchemaBundle (Some sb) paths ignore w = (Ret next, w') ->
  exists cur newMsgs, schema_bundles_t (w_db w) !! sb_Name sb = Some cur /\ (sb_Etag sb = [] \/ sb_Etag sb = sb_Etag cur) /\
    next = sealed digest_sb sb /\ isProto next = isProto cur /\ schemaBundleMessages sb = Ret newMsgs /\
    (ignore = false -> forall oldMsgs, schemaBundleMessages cur = Ret oldMsgs -> oldMsgs ⊆ newMsgs) /\
    schema_bundles_t (w_db w') = <[sb_Name sb := next]> (schema_bundles_t (w_db w)).
Proof.
  unfold UpdateSchemaBundle, store_get, sb_put. case_match; [done|]. intros E. apply bind_Ret in E as (cur & w1 & (d & [= <- <-] & ->)%mapErr_Ret%call_Ret & E).
  destruct (schema_bundles_t (w_db w) !! sb_Name sb) as [cur|] eqn:Ec; [|done].
  apply bind_Ret in E as (u & w2 & [He ->]%lift_Ret & E). apply checkEtag_Ret in He. apply bind_Ret in E as (u2 & w3 & [_ ->]%lift_Ret & E).
  destruct (xorb (isProto cur) (isProto sb)) eqn:Ex; [done|]. apply bind_Ret in E as (newMsgs & w4 & [Hm ->]%lift_Ret & E).
  destruct (negb ignore && _) eqn:Ei; [done|]. apply bind_Ret in E as ([] & w5 & (d & [= <-] & ->)%mapErr_Ret%call_Ret & E).
  apply bind_Ret in E as ([] & w6 & [m Ho]%ops_complete_db & [<- ->]%ret_Ret).
  exists cur, newMsgs. split; [done|]. split; [done|]. split; [done|]. split; [by destruct (isProto cur) eqn:?, (isProto sb) eqn:?|]. split; [done|]. split.
  - intros -> oldMsgs Eo. rewrite Eo in Ei. cbn in Ei. apply negb_false_iff, bool_decide_eq_true in Ei. done.
  - rewrite Ho. done.
Qed.

Section working.
Context (Hd : forall n, driver n = None).

(** A read, when the driver answers. *)
Definition next_call (w : world blob) : world blob := mkWorld (w_db w) (w_srv w) (S (w_calls w)) (w_ticks w) (w_draws w).
Lemma store_get_run {T : Type} (proj : database blob -> gmap bytes T) name w : store_get proj name w = (Ret (proj (w_db w) !! name), next_call w).
Proof. unfold store_get. by erewrite (run_call Hd) by reflexivity. Qed.

Lemma UpdateAuthorizedView_stale av paths w cur : authorized_views_t (w_db w) !! av_Name av = Some cur -> av_Name av <> [] ->
  av_Etag av <> [] -> av_Etag av <> av_Etag cur -> refused (UpdateAuthorizedView (Some av) paths) w.
Proof.
  intros Ec Hn Hne He. unfold refused, UpdateAuthorizedView. destruct (av_Name av) as [|c n] eqn:En; [done|]. cbn [length Nat.eqb].
  rewrite bind_run. unfold mapErr, avBackend_Get. erewrite (run_call Hd) by reflexivity. rewrite Ec, bind_run. unfold lift. rewrite checkEtag_stale by done.
  by eexists.
Qed.
Lemma UpdateSchemaBundle_stale sb paths ignore w cur : schema_bundles_t (w_db w) !! sb_Name sb = Some cur -> sb_Name sb <> [] ->
  sb_Etag sb <> [] -> sb_Etag sb <> sb_Etag cur -> refused (UpdateSchemaBundle (Some sb) paths ignore) w.
Proof.
  intros Ec Hn Hne He. unfold refused, UpdateSchemaBundle. destruct (sb_Name sb) as [|c n] eqn:En; [done|]. cbn [length Nat.eqb].
  rewrite bind_run. unfold mapErr. rewrite store_get_run, Ec, bind_run. unfold lift. rewrite checkEtag_stale by done. by eexists.
Qed.

(** *** Policies *)

(** Whether a resource exists, from the stores and the server's maps. *)
Definition resource_exists (d : database blob) (s : server) (resource : bytes) : bool :=
  if Contains resource (str "/authorizedViews/") then bool_decide (is_Some (authorized_views_t d !! resource))
  else if Contains resource (str "/schemaBundles/") then bool_decide (is_Some (schema_bundles_t d !! resource))
  else if Contains resource (str "/backups/") then bool_decide (is_Some (backups_t (meta_t d) !! resource))
  else if Contains resource (str "/logicalViews/") then bool_decide (is_Some (logical_views d !! resource))
  else if Contains resource (str "/materializedViews/") then bool_decide (is_Some (s_mvs s !! resource))
  else if Contains resource (str "/tables/") then bool_decide (is_Some (s_tables s !! resource))
  else if Contains resource (str "/instances/") then bool_decide (is_Some (s_instances s !! resource)) || negb strictAdmin
  else false.

Lemma iamResourceExists_run resource w : exists w', iamResourceExists strictAdmin resource w = (Ret (resource_exists (w_db w) (w_srv w) resource), w') /\
  w_db w' = w_db w /\ w_srv w' = w_srv w.
Proof.
  unfold iamResourceExists, resource_exists.
  repeat match goal with |- context [if Contains resource ?p then _ else _] => destruct (Contains resource p) end;
    rewrite bind_run; rewrite ?store_get_run; cbn [getServer]; by eexists.
Qed.
Lemma requireIAMResource_run resource w : resource <> [] -> exists w',
  requireIAMResource strictAdmin resource w = (if resource_exists (w_db w) (w_srv w) resource then Ret tt else Err NotFound, w') /\
  w_db w' = w_db w /\ w_srv w' = w_srv w.
Proof.
  intros Hr. unfold requireIAMResource. destruct resource as [|c r]; [done|]. cbn [length Nat.eqb]. rewrite bind_run. unfold mapErr.
  destruct (iamResourceExists_run (c :: r) w) as (w' & -> & E1 & E2). exists w'. split; [|done]. by destruct (resource_exists _ _ _).
Qed.

Lemma setIamPolicy_Ret resource p paths w next w' : setIamPolicy strictAdmin resource (Some p) paths w = (Ret next, w') ->
  resource <> [] /\ resource_exists (w_db w) (w_srv w) resource = true /\
  (let cur := default emptyPolicy (iam_policies_t (w_db w) !! resource) in po_Etag p = [] \/ po_Etag p = po_Etag cur) /\
  po_Etag next = contentEtagOf digest_policy next /\ w_srv w' = w_srv w /\
  w_db w' = set_iam_policies_t (w_db w) (<[resource := next]> (iam_policies_t (w_db w))).
Proof.
  unfold setIamPolicy. intros E. destruct (decide (resource = [])) as [->|Hr]; [done|]. split; [done|].
  destruct (requireIAMResource_run resource w Hr) as (w1 & E1 & Ed & Es). rewrite bind_run, E1 in E. destruct (resource_exists _ _ _); [|done]. split; [done|].
  unfold iam_get, iam_put in E. apply bind_Ret in E as (cur & w2 & (d & [= <- <-] & ->)%mapErr_Ret%call_Ret & E). rewrite <- Ed.
  apply bind_Ret in E as (u & w3 & [He ->]%lift_Ret & E). apply checkEtag_Ret in He. split; [done|]. apply bind_Ret in E as (n & w4 & Hn & E).
  assert (w4 = next_call w1) as -> by (destruct paths; [by apply ret_Ret in Hn as [_ ->]|by apply lift_Ret in Hn as [_ ->]]).
  apply bind_Ret in E as ([] & w5 & (d & [= <-] & ->)%mapErr_Ret%call_Ret & [<- ->]%ret_Ret). split; [exact (sealed_etag digest_policy n)|]. done.
Qed.
Lemma setIamPolicy_stale resource p paths w : resource <> [] -> resource_exists (w_db w) (w_srv w) resource = true -> po_Etag p <> [] ->
  po_Etag p <> po_Etag (default emptyPolicy (iam_policies_t (w_db w) !! resource)) -> refused (setIamPolicy strictAdmin resource (Some p) paths) w.
Proof.
  intros Hr Hx Hne He. unfold refused, setIamPolicy. destruct (requireIAMResource_run resource w Hr) as (w1 & E1 & Ed & Es).
  rewrite bind_run, E1, Hx. rewrite bind_run. unfold mapErr, iam_get. rewrite store_get_run, Ed, bind_run. unfold lift. rewrite checkEtag_stale by done.
  eexists. split; [done|]. split; [exact Ed|exact Es].
Qed.
End working.
End guards.

(** C11: Updates are conditional on the etag a client read: an update is accepted only without
    an etag or with the current one; it stores the digest of the new content as the etag;
    and from then on every update with another, non-empty etag is refused with ABORTED and
    changes nothing.  So a client whose etag an update has replaced is refused; the digest
    is a parameter, and nothing is said about an update that leaves the etag as it was
    (the same content, or contents with one digest).  This holds for authorized views,
    schema bundles and IAM policies, when no call of the driver fails and every view is
    stored under its own name. *)
Theorem conditional_updates {blob : Type} `{!Gob blob} `{!Env} `{!Digests} `{!SchemaReader} strictAdmin (w : world blob) :
  (forall n, driver n = None) -> (forall n av, authorized_views_t (w_db w) !! n = Some av -> av_Name av = n) ->
  (forall av paths next w1, UpdateAuthorizedView (Some av) paths w = (Ret next, w1) ->
     (exists cur, authorized_views_t (w_db w) !! av_Name av = Some cur /\ (av_Etag av = [] \/ av_Etag av = av_Etag cur)) /\
     authorized_views_t (w_db w1) = <[av_Name av := next]> (authorized_views_t (w_db w)) /\ av_Etag next = contentEtagOf digest_av next /\
     forall av2 paths2, av_Name av2 = av_Name av -> av_Etag av2 <> [] -> av_Etag av2 <> av_Etag next ->
       refused (UpdateAuthorizedView (Some av2) paths2) w1) /\
  (forall sb paths ignore next w1, UpdateSchemaBundle (Some sb) paths ignore w = (Ret next, w1) ->
     (exists cur, schema_bundles_t (w_db w) !! sb_Name sb = Some cur /\ (sb_Etag sb = [] \/ sb_Etag sb = sb_Etag cur)) /\
     schema_bundles_t (w_db w1) = <[sb_Name sb := next]> (schema_bundles_t (w_db w)) /\ sb_Etag next = contentEtagOf digest_sb next /\
     forall sb2 paths2 ignore2, sb_Name sb2 = sb_Name sb -> sb_Etag sb2 <> [] -> sb_Etag sb2 <> sb_Etag next ->
       refused (UpdateSchemaBundle (Some sb2) paths2 ignore2) w1) /\
  (forall resource p paths next w1, setIamPolicy strictAdmin resource (Some p) paths w = (Ret next, w1) ->
     (po_Etag p = [] \/ po_Etag p = po_Etag (default emptyPolicy (iam_policies_t (w_db w) !! resource))) /\
     w_db w1 = set_iam_policies_t (w_db w) (<[resource := next]> (iam_policies_t (w_db w))) /\ po_Etag next = contentEtagOf digest_policy next /\
     forall p2 paths2, po_Etag p2 <> [] -> po_Etag p2 <> po_Etag next -> refused (setIamPolicy strictAdmin resource (Some p2) paths2) w1).
Proof.
  intros Hd Hnamed. split_and!.
  - intros av paths next w1 Hu. assert (av_Name av <> []) as Hne by (intros E; unfold UpdateAuthorizedView in Hu; by rewrite E in Hu).
    apply UpdateAuthorizedView_Ret in Hu as (cur & Hc & Hok & Hn & He & _ & Hs). rewrite (Hnamed _ _ Hc) in Hn. rewrite Hn in Hs.
    split; [by exists cur|]. split; [done|]. split; [done|]. intros av2 paths2 En Hx1 Hx2.
    eapply (UpdateAuthorizedView_stale Hd); [rewrite En, Hs; apply lookup_insert_eq|by rewrite En|done|done].
  - intros sb paths ignore next w1 Hu. assert (sb_Name sb <> []) as Hne by (intros E; unfold UpdateSchemaBundle in Hu; by rewrite E in Hu).
    apply UpdateSchemaBundle_Ret in Hu as (cur & msgs & Hc & Hok & -> & _ & _ & _ & Hs).
    split; [by exists cur|]. split; [done|]. split; [exact (sealed_etag digest_sb sb)|]. intros sb2 paths2 ignore2 En Hx1 Hx2.
    eapply (UpdateSchemaBundle_stale Hd); [rewrite En, Hs; apply lookup_insert_eq|by rewrite En|done|done].
  - intros resource p paths next w1 Hu. apply (setIamPolicy_Ret _ Hd) in Hu as (Hr & Hx & Hok & He & Es & Ed).
    split; [done|]. split; [done|]. split; [done|]. intros p2 paths2 Hx1 Hx2.
    apply (setIamPolicy_stale _ Hd); [done|by rewrite Es, Ed|done|rewrite Ed; cbn [iam_policies_t set_iam_policies_t]; by rewrite lookup_insert_eq].
Qed.

(** ** Deleting a view deletes its policies *)

Lemma Contains_middle (a sub b : bytes) : sub <> [] -> Contains (a ++ sub ++ b) sub = true.
Proof.
  intros Hs. induction a as [|c a IH]; cbn [app].
  - destruct sub as [|c sub]; [done|]. cbn [app]. rewrite Contains_cons.
    assert (HasPrefix (c :: sub ++ b) (c :: sub) = true) as -> by (apply HasPrefix_spec; by exists b). done.
  - rewrite Contains_cons, IH. apply orb_true_r.
Qed.

Section deletion.
Context {blob : Type} `{!Gob blob} `{!Env} `{!Digests} `{!SchemaReader}.
Context (fold_case : Z -> Z) (strictAdmin : bool).
Implicit Types (w : world blob).

Lemma DeleteAuthorizedView_Ret name etag w w' : DeleteAuthorizedView fold_case name etag w = (Ret tt, w') ->
  exists av, authorized_views_t (w_db w) !! name = Some av /\ (etag = [] \/ etag = av_Etag av) /\ av_DeletionProtection av = false /\
    authorized_views_t (w_db w') = delete name (authorized_views_t (w_db w)) /\
    iam_policies_t (w_db w') = filter (fun '(r, _) => like fold_case (likePrefix (name ++ str "/")) r = false) (delete name (iam_policies_t (w_db w))) /\
    w_srv w' = w_srv w.
Proof.
  unfold DeleteAuthorizedView, avBackend_Get, av_remove, iam_deletePrefix. intros E.
  apply bind_Ret in E as (cur & w1 & (d & [= <- <-] & ->)%mapErr_Ret%call_Ret & E). destruct (authorized_views_t (w_db w) !! name) as [av|] eqn:Ec; [|done].
  exists av. split; [done|]. apply bind_Ret in E as (u & w2 & [He ->]%lift_Ret & E). apply checkEtag_Ret in He. split; [done|].
  destruct (av_DeletionProtection av) eqn:Ep; [done|]. split; [done|]. apply bind_Ret in E as ([] & w3 & (d & [= <-] & ->)%mapErr_Ret%call_Ret & E).
  apply mapErr_Ret in E. apply bind_Ret in E as ([] & w4 & (d & [= <-] & ->)%call_Ret & (d & [= <-] & ->)%call_Ret). done.
Qed.

Lemma CreateAuthorizedView_Ret parent viewId view w av w' : CreateAuthorizedView parent viewId view w = (Ret av, w') ->
  let name := parent ++ str "/authorizedViews/" ++ viewId in
  av_Name av = name /\ av_Etag av = contentEtagOf digest_av av /\ authorized_views_t (w_db w) !! name = None /\
  is_Some (s_tables (w_srv w) !! parent) /\ iam_policies_t (w_db w') = iam_policies_t (w_db w) /\
  authorized_views_t (w_db w') = <[name := av]> (authorized_views_t (w_db w)).
Proof.
  unfold CreateAuthorizedView, avBackend_Get, av_put. case_match; [done|]. intros E. apply bind_Ret in E as (s & w1 & [= <- <-] & E).
  apply bind_Ret in E as (t & w2 & [Ht ->]%lift_Ret & E). apply bind_Ret in E as (u & w3 & [Hv ->]%lift_Ret & E).
  apply bind_Ret in E as (cur & w4 & (d & [= <- <-] & ->)%mapErr_Ret%call_Ret & E). destruct (authorized_views_t (w_db w) !! _) as [cur|] eqn:Ec; [done|].
  apply bind_Ret in E as ([] & w5 & (d & [= <-] & ->)%mapErr_Ret%call_Ret & E). apply bind_Ret in E as ([] & w6 & [m Ho]%ops_complete_db & [<- ->]%ret_Ret).
  split; [done|]. split; [exact (sealed_etag digest_av _)|]. split; [done|]. split; [|by rewrite Ho]. unfold localRequireTable in Ht.
  destruct (s_tables (w_srv w) !! parent); [done|done].
Qed.
End deletion.

(** A view that is deleted and created again has no policy: deleting it, with
    the right etag and without protection, removes it and its policy, and the
    policy read after re-creation is the empty one. *)
Theorem recreated_view_starts_empty {blob : Type} `{!Gob blob} `{!Env} `{!Digests} `{!SchemaReader} fold_case strictAdmin
    (w w1 w2 : world blob) parent viewId view etag av :
  (forall n, driver n = None) ->
  DeleteAuthorizedView fold_case (parent ++ str "/authorizedViews/" ++ viewId) etag w = (Ret tt, w1) ->
  CreateAuthorizedView parent viewId view w1 = (Ret av, w2) ->
  exists w3, getIamPolicy strictAdmin (av_Name av) w2 = (Ret emptyPolicy, w3).
Proof.
  intros Hd Hdel Hcr. apply DeleteAuthorizedView_Ret in Hdel as (old & _ & _ & _ & _ & Hi & _).
  apply CreateAuthorizedView_Ret in Hcr as (Hn & _ & _ & _ & Hi2 & Ha). set (name := parent ++ _) in *. rewrite Hn.
  pose proof (Contains_middle parent (str "/authorizedViews/") viewId ltac:(done)) as Hc. fold name in Hc.
  assert (name <> []) as Hne by (unfold name; by destruct parent). unfold getIamPolicy.
  destruct (requireIAMResource_run strictAdmin Hd name w2 Hne) as (w3 & E3 & Ed & Es). rewrite bind_run, E3.
  assert (resource_exists strictAdmin (w_db w2) (w_srv w2) name = true) as ->.
  { unfold resource_exists. rewrite Hc, Ha, lookup_insert_eq. done. }
  rewrite bind_run. unfold mapErr, iam_get. rewrite (store_get_run Hd), Ed, Hi2, Hi.
  assert (filter (fun '(r, _) => like fold_case (likePrefix (name ++ str "/")) r = false) (delete name (iam_policies_t (w_db w))) !! name = None) as ->.
  { apply map_lookup_filter_None. left. apply lookup_delete_eq. }
  by eexists.
Qed.

(** ** Schema bundles stay compatible and few *)

(** The bundles of a table. *)
Definition bundles_of {blob : Type} (d : database blob) (parent : bytes) : list (bytes * SchemaBundle) :=
  filter (fun '(n, _) => HasPrefix n (parent ++ str "/schemaBundles/") = true) (map_to_list (schema_bundles_t d)).

Section bundles.
Context {blob : Type} `{!Gob blob} `{!Env} `{!Digests} `{!SchemaReader}.
Implicit Types (w : world blob).

Lemma bundles_insert_new (d d' : database blob) parent name sb : schema_bundles_t d !! name = None ->
  schema_bundles_t d' = <[name := sb]> (schema_bundles_t d) -> HasPrefix name (parent ++ str "/schemaBundles/") = true ->
  length (bundles_of d' parent) = S (length (bundles_of d parent)).
Proof.
  intros Hn E Hp. unfold bundles_of. rewrite E. rewrite (map_to_list_insert _ _ _ Hn). rewrite filter_cons_True by done. done.
Qed.
Lemma bundles_insert_old (d d' : database blob) parent name sb old : schema_bundles_t d !! name = Some old ->
  schema_bundles_t d' = <[name := sb]> (schema_bundles_t d) -> length (bundles_of d' parent) = length (bundles_of d parent).
Proof.
  intros Ho E. unfold bundles_of. rewrite E. rewrite <- (insert_delete_eq (schema_bundles_t d)).
  rewrite (map_to_list_insert (delete name (schema_bundles_t d)) name sb) by apply lookup_delete_eq.
  rewrite <- (insert_delete_id (schema_bundles_t d) name old) at 2 by done.
  rewrite (map_to_list_insert (delete name (schema_bundles_t d)) name old) by apply lookup_delete_eq.
  rewrite !filter_cons. by destruct (decide (HasPrefix name (parent ++ str "/schemaBundles/") = true)).
Qed.

Lemma CreateSchemaBundle_Ret parent bundleId bundle w sb w' : CreateSchemaBundle parent bundleId bundle w = (Ret sb, w') ->
  let name := parent ++ str "/schemaBundles/" ++ bundleId in
  sb_Name sb = name /\ schema_bundles_t (w_db w) !! name = None /\ (length (bundles_of (w_db w) parent) < maxSchemaBundlesPerTable)%nat /\
  is_Some (s_tables (w_srv w) !! parent) /\ (exists msgs, schemaBundleMessages (default (mkSchemaBundle [] [] Bundle_Unset) bundle) = Ret msgs) /\
  schema_bundles_t (w_db w') = <[name := sb]> (schema_bundles_t (w_db w)).
Proof.
  unfold CreateSchemaBundle, store_get, listPrefix, sb_put. case_match; [done|]. intros E. apply bind_Ret in E as (s & w1 & [= <- <-] & E).
  apply bind_Ret in E as (t & w2 & [Ht ->]%lift_Ret & E). apply bind_Ret in E as (msgs & w3 & [Hv ->]%lift_Ret & E).
  apply bind_Ret in E as (cur & w4 & (d & [= <- <-] & ->)%mapErr_Ret%call_Ret & E). destruct (schema_bundles_t (w_db w) !! _) as [cur|] eqn:Ec; [done|].
  apply bind_Ret in E as (existing & w5 & (d & [= <- <-] & ->)%mapErr_Ret%call_Ret & E).
  destruct (maxSchemaBundlesPerTable <=? length (isort _ _))%nat eqn:El; [done|]. apply bind_Ret in E as ([] & w6 & (d & [= <-] & ->)%mapErr_Ret%call_Ret & E).
  apply bind_Ret in E as ([] & w7 & [m Ho]%ops_complete_db & [<- ->]%ret_Ret). split; [done|]. split; [done|]. split.
  { apply Nat.leb_gt in El. by rewrite length_isort in El. }
  split; [unfold localRequireTable in Ht; by destruct (s_tables (w_srv w) !! parent)|]. split; [by exists msgs|]. by rewrite Ho.
Qed.
End bundles.

(** A table has at most ten schema bundles, and without [ignore_warnings] an
    update never removes a message of the bundle that is stored, nor turns
    descriptors into Avro schemas or back. *)
Theorem schema_bundles_compatible {blob : Type} `{!Gob blob} `{!Env} `{!Digests} `{!SchemaReader} (w : world blob) :
  (forall parent bundleId bundle sb w', CreateSchemaBundle parent bundleId bundle w = (Ret sb, w') ->
     sb_Name sb = parent ++ str "/schemaBundles/" ++ bundleId /\ schema_bundles_t (w_db w) !! sb_Name sb = None /\
     schema_bundles_t (w_db w') !! sb_Name sb = Some sb /\ (length (bundles_of (w_db w') parent) <= maxSchemaBundlesPerTable)%nat) /\
  (forall sb paths next w', UpdateSchemaBundle (Some sb) paths false w = (Ret next, w') ->
     exists cur newMsgs, schema_bundles_t (w_db w) !! sb_Name sb = Some cur /\ schema_bundles_t (w_db w') !! sb_Name sb = Some next /\
       schemaBundleMessages sb = Ret newMsgs /\ (forall oldMsgs, schemaBundleMessages cur = Ret oldMsgs -> oldMsgs ⊆ newMsgs) /\
       isProto next = isProto cur /\ forall parent, length (bundles_of (w_db w') parent) = length (bundles_of (w_db w) parent)).
Proof.
  split.
  - intros parent bundleId bundle sb w' (Hn & Hnone & Hlen & _ & _ & Hs)%CreateSchemaBundle_Ret. rewrite Hn. split; [done|]. split; [done|].
    split; [rewrite Hs; apply lookup_insert_eq|].
    rewrite (bundles_insert_new (w_db w) (w_db w') parent _ sb Hnone Hs) by (apply HasPrefix_spec; exists bundleId; by rewrite <- app_assoc). lia.
  - intros sb paths next w' (cur & newMsgs & Hc & _ & -> & Hp & Hm & Ho & Hs)%UpdateSchemaBundle_Ret. exists cur, newMsgs.
    split; [done|]. split; [rewrite Hs; apply lookup_insert_eq|]. split; [done|]. split; [by apply Ho|]. split; [done|].
    intros parent. by eapply bundles_insert_old.
Qed.

(** ** Where the guards do not hold *)

Module ViewRuns.
(** Any digest serves; this one writes the content out. *)
Definition digests : Digests := mkDigests (fun av => [0] ++ av_Name av) (fun lv => [1] ++ lv_Query lv)
  (fun sb => [2] ++ sb_Name sb) (fun p => [3] ++ mjoin (po_Bindings p)).
Definition tableName : bytes := table_name SampleWorld.tbl.
Definition viewName : bytes := tableName ++ str "/authorizedViews/v".
Definition view : AuthorizedView := mkAuthorizedView viewName None [7] false.
Definition policy : Policy := mkPolicy 1 [str "owner"] [] [8].
Definition withView : world (gmap bytes family) :=
  set_db SampleWorld.world0 (set_iam_policies_t (set_authorized_views_t SampleWorld.db0 {[ viewName := view ]}) {[ viewName := policy ]}).
(** The third driver call, the deletion of the policies, fails. *)
Definition policiesFail : Env :=
  mkEnv (fun n => if (n =? 2)%nat then Some F_Other else None) SampleWorld.seconds (fun _ => F_Fin 1 2).
Definition del := DeleteAuthorizedView (H := policiesFail) (fun c => c) viewName [] withView.
Definition del2 := DeleteAuthorizedView (H := policiesFail) (fun c => c) viewName [] del.2.
Definition create := CreateAuthorizedView (H := policiesFail) (H0 := digests) tableName (str "v") None del2.2.
Definition read := getIamPolicy (H := policiesFail) (H0 := digests) false viewName create.2.

(** A logical view that two clients have read, and the update of each. *)
Definition lvName : bytes := SampleWorld.parent ++ str "/logicalViews/v".
Definition lv : LogicalView := mkLogicalView lvName (str "SELECT 1") [9] false.
Definition withLogicalView : world (gmap bytes family) :=
  set_db SampleWorld.world0 (set_meta_t SampleWorld.db0 (set_logical_views_t no_metadata {[ lvName := lv ]})).
Definition updateA : LogicalView := mkLogicalView lvName (str "SELECT 2") [9] false.
Definition updateB : LogicalView := mkLogicalView lvName (str "SELECT 3") [9] false.
Definition prepareA := prepareLogicalView (H := SampleWorld.working) (Some updateA) [str "query"] withLogicalView.
Definition runB := UpdateLogicalView (H := SampleWorld.working) (H0 := digests) (fun _ _ _ => Ret tt) (Some updateB) [str "query"] prepareA.2.
Definition candidateA : LogicalView := match prepareA.1 with Ret lv => lv | _ => lv end.
Definition commitA := commitLogicalView (H := SampleWorld.working) (H0 := digests) candidateA runB.2.
(** A deletion in between. *)
Definition runD := DeleteLogicalView (H := SampleWorld.working) (fun c => c) lvName [9] prepareA.2.
Definition commitA2 := commitLogicalView (H := SampleWorld.working) (H0 := digests) candidateA runD.2.
End ViewRuns.

(** A view and its policy are deleted by separate statements: when the second
    one fails, the view is gone, a retry reports that it does not exist, and the
    view that is created in its place has the policy of the old one. *)
Theorem policy_outlives_view :
  (exists c, ViewRuns.del.1 = Err c) /\ ViewRuns.del2.1 = Err NotFound /\ (exists av, ViewRuns.create.1 = Ret av) /\
  ViewRuns.read.1 = Ret ViewRuns.policy.
Proof. split_and!; [eexists| |eexists|]; vm_compute; reflexivity. Qed.

(** The update of a logical view lets go of the server's lock between the check
    of the etag and the write: another client's update with the same etag is
    accepted in between and then overwritten, and a view that is deleted in
    between comes back. *)
Theorem logical_view_lost_update :
  (exists lv, ViewRuns.prepareA.1 = Ret lv) /\
  (exists lv, ViewRuns.runB.1 = Ret lv /\ lv_Query lv = str "SELECT 3") /\
  (exists lv, ViewRuns.commitA.1 = Ret lv /\ logical_views (w_db ViewRuns.commitA.2) !! ViewRuns.lvName = Some lv /\ lv_Query lv = str "SELECT 2") /\
  ViewRuns.runD.1 = Ret tt /\ logical_views (w_db ViewRuns.runD.2) !! ViewRuns.lvName = None /\
  (exists lv, ViewRuns.commitA2.1 = Ret lv /\ logical_views (w_db ViewRuns.commitA2.2) !! ViewRuns.lvName = Some lv).
Proof.
  split; [eexists; vm_compute; reflexivity|].
  split; [eexists; split; [vm_compute; reflexivity|vm_compute; reflexivity]|].
  split; [eexists; split; [vm_compute; reflexivity|split; vm_compute; reflexivity]|].
  split; [vm_compute; reflexivity|]. split; [vm_compute; reflexivity|].
  eexists; split; vm_compute; reflexivity.
Qed.

(** Two clients that have read the policy of the sample view. *)
Module SamplePolicies.
Definition first : Policy := mkPolicy 1 [str "reader"] [] [8].
Definition second : Policy := mkPolicy 1 [str "writer"] [] [8].
Definition run := setIamPolicy (H := SampleWorld.working) (H0 := ViewRuns.digests) false ViewRuns.viewName (Some first) [] ViewRuns.withView.
Definition stored : Policy := mkPolicy 1 [str "reader"] [] ([3] ++ str "reader").
Definition reader : SchemaReader := mkSchemaReader (fun _ => 0) (fun _ => None) (fun _ => true) (fun _ => None).
End SamplePolicies.

Lemma conditional_updates_witness :
  SamplePolicies.run.1 = Ret SamplePolicies.stored /\
  refused (setIamPolicy (H := SampleWorld.working) (H0 := ViewRuns.digests) false ViewRuns.viewName (Some SamplePolicies.second) []) SamplePolicies.run.2.
Proof.
  assert (SamplePolicies.run.1 = Ret SamplePolicies.stored) as E by (vm_compute; reflexivity). split; [exact E|].
  destruct (conditional_updates (H := SampleWorld.working) (H0 := ViewRuns.digests) (H1 := SamplePolicies.reader) false ViewRuns.withView) as (_ & _ & Hp).
  - done.
  - intros n av Hav. unfold ViewRuns.withView in Hav. cbn [w_db set_db authorized_views_t set_iam_policies_t set_authorized_views_t] in Hav.
    apply lookup_singleton_Some in Hav as [<- <-]. reflexivity.
  - destruct (Hp ViewRuns.viewName SamplePolicies.first [] SamplePolicies.stored SamplePolicies.run.2) as (_ & _ & _ & Href).
    + exact (run_Ret SamplePolicies.run _ E).
    + apply Href; vm_compute; discriminate.
Defined.
