(* ===== verification/Operations.v ===== *)
(** * The registry of long-running operations

    The handlers of [operations.go].  Local work completes before an operation is
    registered, so every stored operation is done; the registry is the set of
    their names, and their metadata and results are not modelled. *)

From S2P Require Import Prelude Proto Rows Gc Hll Mutations Filters Server Store Tokens Targets WritePath KeyCodec KeySchema TableAdmin TableOps Tombstones TableUpdate.
From stdpp Require Import base list gmap sorting.
From Stdlib Require Import ZArith Lia.

#[local] Open Scope Z_scope.

(** ** The filter *)

(** [unicode.IsSpace], and [\s] of a regular expression. *)
Definition isSpaceRune (r : Z) : bool :=
  ((9 <=? r) && (r <=? 13)) || (r =? 32) || (r =? 133) || (r =? 160) || (r =? 5760) ||
  ((8192 <=? r) && (r <=? 8202)) || (r =? 8232) || (r =? 8233) || (r =? 8239) || (r =? 8287) || (r =? 12288).
Definition perlSpace (r : Z) : bool := (r =? 9) || (r =? 10) || (r =? 12) || (r =? 13) || (r =? 32).

Fixpoint dropWhile (p : Z -> bool) (s : list Z) : list Z :=
  match s with [] => [] | c :: s' => if p c then dropWhile p s' else s end.

(** [strings.TrimSpace], on runes. *)
Definition TrimSpace (s : list Z) : list Z := rev (dropWhile isSpaceRune (rev (dropWhile isSpaceRune s))).

(** [operationDoneFilter]: [^\s*done\s*=\s*(true|false)\s*$]. *)
Definition after (lit : bytes) (s : list Z) : option (list Z) := if HasPrefix s lit then Some (drop (length lit) s) else None.
Definition operationDoneFilter (f : list Z) : option bool :=
  s ← after (str "done") (dropWhile perlSpace f);
  s ← after (str "=") (dropWhile perlSpace s);
  let s := dropWhile perlSpace s in
  let verdict (lit : bytes) (b : bool) := rest ← after lit s; match dropWhile perlSpace rest with [] => Some b | _ => None end in
  match verdict (str "true") true with Some b => Some b | None => verdict (str "false") false end.

(** ** The handlers *)

(** [strings.TrimSuffix]. *)
Definition TrimSuffix (s suf : bytes) : bytes :=
  if bool_decide (drop (length s - length suf) s = suf) then take (length s - length suf) s else s.

Record ListOperationsRequest : Type := mkListOperations {
  lo_Name : bytes; lo_Filter : bytes; lo_PageSize : Z; lo_PageToken : bytes; lo_ReturnPartialSuccess : bool }.

Section operations.
Context {blob : Type} `{!Env} (fold_case : Z -> Z).

(** [load]: an operation by its name. *)
Definition ops_load (name : bytes) : M blob bytes :=
  found ← mapErr (fun _ => Internal) (call (fun d => (Ret (bool_decide (name ∈ operations_t d)), d)));
  if (found : bool) then mret name else fail NotFound.

Definition GetOperation (name : bytes) : M blob bytes :=
  match name with [] => fail InvalidArgument | _ => ops_load name end.
Definition WaitOperation (name : bytes) : M blob bytes :=
  match name with [] => fail InvalidArgument | _ => ops_load name end.
Definition DeleteOperation (name : bytes) : M blob unit :=
  _ ← ops_load name;
  mapErr (fun _ => Internal) (call (fun d => (Ret tt, set_operations_t d (operations_t d ∖ {[ name ]})))).
Definition CancelOperation (name : bytes) : M blob unit :=
  _ ← ops_load name; mret tt.

(** The names a query returns, in their order. *)
Definition selectOperations (pattern : bytes) (d : database blob) : list bytes :=
  isort bytes_leb (filter (fun n => like fold_case pattern n = true) (elements (operations_t d))).

(** The prefix a request lists. *)
Definition operationsPrefix (name : bytes) : bytes :=
  let prefix := TrimSuffix name (str "/operations") in
  if HasPrefix prefix (str "operations/") then prefix else str "operations/" ++ prefix.

Definition ListOperations (req : ListOperationsRequest) : M blob (list bytes * bytes) :=
  match TrimSuffix (lo_Name req) (str "/operations") with
  | [] => fail InvalidArgument
  | _ =>
      let prefix := operationsPrefix (lo_Name req) in
      if lo_ReturnPartialSuccess req then fail Unimplemented
      else
        let f := TrimSpace (runes 0 (lo_Filter req)) in
        wantDone ← lift (match f with
                         | [] => Ret None
                         | _ => match operationDoneFilter f with Some b => Ret (Some b) | None => Err InvalidArgument end
                         end);
        names ← mapErr (fun _ => Internal) (call (fun d => (Ret (selectOperations (likePrefix (prefix ++ str "/")) d), d)));
        let ops := filter (fun n => HasPrefix n (prefix ++ str "/") = true) names in
        let ops := match wantDone with Some false => [] | _ => ops end in
        lift (paginate (fun n => n) ops (lo_PageSize req) (lo_PageToken req))
  end.

(** ** Listing *)

(** A [%] at the end of a pattern matches whatever is left. *)
Lemma like_rest s : like fold_case [37] s = true.
Proof. cbn. induction s as [|x s IH]; [done|]. cbn. done. Qed.

(** Every name with the prefix matches the pattern made from it. *)
Lemma likePrefix_complete p s : HasPrefix s p = true -> like fold_case (likePrefix p) s = true.
Proof.
  unfold likePrefix. revert s. induction p as [|c p IH]; intros s Hp; [apply like_rest|].
  destruct s as [|x s]; [done|]. cbn in Hp. apply andb_true_iff in Hp as [->%Z.eqb_eq Hp]. cbn [fmap list_fmap app]. destruct (x =? 37) eqn:Ex.
  - cbn. by apply IH.
  - cbn [like]. rewrite Ex, Z.eqb_refl, orb_true_r. cbn. by apply IH.
Qed.

Lemma elem_of_listed prefix d n :
  n ∈ filter (fun n => HasPrefix n prefix = true) (selectOperations (likePrefix prefix) d) <-> n ∈ operations_t d /\ HasPrefix n prefix = true.
Proof.
  rewrite list_elem_of_filter. unfold selectOperations. rewrite elem_of_isort, list_elem_of_filter, elem_of_elements. split; [naive_solver|].
  intros [Hn Hp]. split_and!; try done. by apply likePrefix_complete.
Qed.
End operations.

(** The pattern of a listing may match too much, but the names are compared
    again: a listing without a filter and in one page returns exactly the
    registered operations under the collection that was asked for. *)
Theorem ListOperations_exact {blob : Type} `{!Env} fold_case req (w : world blob) page next w' :
  ListOperations fold_case req w = (Ret (page, next), w') -> lo_Filter req = [] -> lo_PageSize req = 0 -> lo_PageToken req = [] ->
  next = [] /\ forall n, n ∈ page <-> n ∈ operations_t (w_db w) /\ HasPrefix n (operationsPrefix (lo_Name req) ++ str "/") = true.
Proof.
  intros E Hf Hs Ht. unfold ListOperations in E. destruct (TrimSuffix _ _); [done|]. destruct (lo_ReturnPartialSuccess req); [done|]. rewrite Hf, Hs, Ht in E.
  apply bind_Ret in E as (wd & w1 & [[= <-] ->]%lift_Ret & E). apply bind_Ret in E as (names & w2 & (d & [= <- <-] & ->)%mapErr_Ret%call_Ret & E).
  apply lift_Ret in E as [E ->]. unfold paginate in E. cbn [Z.ltb Z.compare mbind outcome_bind Z.eqb orb] in E. injection E as <- <-. split; [done|].
  intros n. rewrite drop_0, elem_of_isort. apply elem_of_listed.
Qed.

(** An operation can be read back under its name until it is deleted. *)
Theorem operations_registry {blob : Type} `{!Gob blob} `{!Env} (w w1 : world blob) resource :
  (forall n, driver n = None) -> ops_complete resource w = (Ret tt, w1) ->
  let name := str "operations/" ++ resource ++ str "/locations/local/operations/" ++ FormatInt (s_opSeq (w_srv w) + 1) in
  (exists w2, GetOperation name w1 = (Ret name, w2)) /\
  exists w2, DeleteOperation name w1 = (Ret tt, w2) /\ exists w3, GetOperation name w2 = (Err NotFound, w3).
Proof.
  intros Hd E name. unfold ops_complete in E.
  apply bind_Ret in E as (s & w0 & [= <- <-] & ([] & w2 & [= <-] & (d & [= <-] & ->)%mapErr_Ret%call_Ret)%bind_Ret).
  assert (forall w' : world blob, name ∈ operations_t (w_db w') -> ops_load name w' = (Ret name, mkWorld (w_db w') (w_srv w') (S (w_calls w')) (w_ticks w') (w_draws w'))) as Hl.
  { intros w' Hin. unfold ops_load. rewrite bind_run. unfold mapErr. erewrite (run_call Hd) by reflexivity. by rewrite bool_decide_eq_true_2. }
  assert (name ∈ {[ name ]} ∪ operations_t (w_db w)) as Hin by set_solver. split.
  - eexists. change (GetOperation name) with (ops_load (blob := blob) name). apply Hl. exact Hin.
  - unfold DeleteOperation. rewrite bind_run. rewrite Hl by exact Hin. unfold mapErr. erewrite (run_call Hd) by reflexivity. eexists. split; [reflexivity|].
    change (GetOperation name) with (ops_load (blob := blob) name). unfold ops_load. rewrite bind_run. unfold mapErr. erewrite (run_call Hd) by reflexivity.
    cbn [w_db operations_t set_operations_t]. rewrite bool_decide_eq_false_2 by set_solver. by eexists.
Qed.
