(* ===== verification/SqlValues.v ===== *)
(** * Types and values of the query engine

    [internal/gsql/types.go] and the first half of [values.go]: SQL types, the
    runtime representation of values, the order [compareValues] that sorting and
    MIN/MAX use, SQL equality with NULL, the keys [valueKey] by which GROUP BY and
    DISTINCT hash values, and maps.

    A [float64] is a [spec_float] of the Standard Library: NaNs carry no payload.
    A Go type assertion that fails panics, which is the outcome [Panic]. *)

From S2P Require Import Prelude Proto Rows Gc Hll Tokens.
From stdpp Require Import base list gmap sorting.
From Stdlib Require Import ZArith Lia.
From Stdlib Require Import Floats.SpecFloat.

#[local] Open Scope Z_scope.

(** ** Types *)

Inductive sqlType : Type :=
| TInvalid | TBool | TInt64 | TFloat32 | TFloat64 | TString | TBytes | TTimestamp | TDate
| TArray (elem : sqlType)
| TStruct (fields : list (bytes * sqlType))
| TMap (key val : sqlType).

Section sqlType_ind.
Context (P : sqlType -> Prop).
Context (HI : P TInvalid) (H0 : P TBool) (H1 : P TInt64) (H2 : P TFloat32) (H3 : P TFloat64) (H4 : P TString)
  (H5 : P TBytes) (H6 : P TTimestamp) (H7 : P TDate) (HA : forall e, P e -> P (TArray e))
  (HS : forall fs, Forall (fun f => P f.2) fs -> P (TStruct fs)) (HM : forall k v, P k -> P v -> P (TMap k v)).
Fixpoint sqlType_nested (t : sqlType) : P t :=
  match t with
  | TInvalid => HI | TBool => H0 | TInt64 => H1 | TFloat32 => H2 | TFloat64 => H3 | TString => H4
  | TBytes => H5 | TTimestamp => H6 | TDate => H7
  | TArray e => HA e (sqlType_nested e)
  | TStruct fs => HS fs ((fix go (fs : list (bytes * sqlType)) : Forall (fun f => P f.2) fs :=
      match fs with [] => Forall_nil_2 _ | f :: fs' => Forall_cons_2 _ f fs' (sqlType_nested f.2) (go fs') end) fs)
  | TMap k v => HM k v (sqlType_nested k) (sqlType_nested v)
  end.
End sqlType_ind.

(** [typesEqual]: field names do not matter. *)
Fixpoint typesEqual (a b : sqlType) : bool :=
  match a, b with
  | TInvalid, TInvalid | TBool, TBool | TInt64, TInt64 | TFloat32, TFloat32 | TFloat64, TFloat64 | TString, TString
  | TBytes, TBytes | TTimestamp, TTimestamp | TDate, TDate => true
  | TArray x, TArray y => typesEqual x y
  | TMap k v, TMap k' v' => typesEqual k k' && typesEqual v v'
  | TStruct fs, TStruct gs =>
      (fix go (fs gs : list (bytes * sqlType)) : bool :=
        match fs, gs with
        | [], [] => true
        | (_, f) :: fs', (_, g) :: gs' => typesEqual f g && go fs' gs'
        | _, _ => false
        end) fs gs
  | _, _ => false
  end.

Definition isNumeric (t : sqlType) : bool := match t with TInt64 | TFloat32 | TFloat64 => true | _ => false end.
Definition isFloat (t : sqlType) : bool := match t with TFloat32 | TFloat64 => true | _ => false end.

Fixpoint orderable (t : sqlType) : bool :=
  match t with TStruct _ | TMap _ _ => false | TArray e => orderable e | _ => true end.
Definition groupable (t : sqlType) : bool := match t with TArray _ | TStruct _ => false | _ => true end.
Fixpoint equalityComparable (t : sqlType) : bool :=
  match t with
  | TArray _ => false
  | TStruct fs => forallb (fun f => equalityComparable f.2) fs
  | TMap _ v => equalityComparable v
  | _ => true
  end.

(** ** Values *)

(** The entries of a map are kept as pairs, sorted by key. *)
Inductive value : Type :=
| VNull
| VBool (b : bool)
| VInt (n : Z)
| VFloat (f : spec_float)
| VString (s : bytes)
| VBytes (b : bytes)
| VTs (us : Z)
| VDate (days : Z)
| VArray (l : list value)
| VStruct (l : list value)
| VMap (l : list (value * value)).

Section value_ind.
Context (P : value -> Prop).
Context (H0 : P VNull) (H1 : forall b, P (VBool b)) (H2 : forall n, P (VInt n)) (H3 : forall f, P (VFloat f)) (H4 : forall s, P (VString s))
  (H5 : forall b, P (VBytes b)) (H6 : forall n, P (VTs n)) (H7 : forall n, P (VDate n))
  (HA : forall l, Forall P l -> P (VArray l)) (HS : forall l, Forall P l -> P (VStruct l))
  (HM : forall l, Forall (fun kv => P kv.1 /\ P kv.2) l -> P (VMap l)).
Fixpoint value_nested (v : value) : P v :=
  let many := fix go (l : list value) : Forall P l :=
    match l with [] => Forall_nil_2 _ | x :: l' => Forall_cons_2 _ x l' (value_nested x) (go l') end in
  match v with
  | VNull => H0 | VBool b => H1 b | VInt n => H2 n | VFloat f => H3 f | VString s => H4 s | VBytes b => H5 b
  | VTs n => H6 n | VDate n => H7 n
  | VArray l => HA l (many l)
  | VStruct l => HS l (many l)
  | VMap l => HM l ((fix go (l : list (value * value)) : Forall (fun kv => P kv.1 /\ P kv.2) l :=
      match l with
      | [] => Forall_nil_2 _
      | kv :: l' => Forall_cons_2 _ kv l' (conj (value_nested kv.1) (value_nested kv.2)) (go l')
      end) l)
  end.
End value_ind.

(** [float64(n)] of an integer. *)
Definition float_of_int (n : Z) : spec_float := binary_normalize 53 1024 n 0 false.
Definition IsNaN (f : spec_float) : bool := match f with S754_nan => true | _ => false end.
Definition IsInf (f : spec_float) : bool := match f with S754_infinity _ => true | _ => false end.

Definition cmpInt (a b : Z) : Z := if a <? b then -1 else if b <? a then 1 else 0.

Definition cmpFloat (a b : spec_float) : Z :=
  if IsNaN a && IsNaN b then 0 else if IsNaN a then -1 else if IsNaN b then 1
  else if SFltb a b then -1 else if SFltb b a then 1 else 0.

(** [strings.Compare] and [bytes.Compare]. *)
Definition cmpBytes (a b : bytes) : Z := if bytes_ltb a b then -1 else if bytes_ltb b a then 1 else 0.

(** [compareValues]; the loops over arrays, structs and maps end with the
    comparison of the lengths. *)
Fixpoint compareValues (a b : value) {struct a} : outcome Z :=
  let compareLists := fix go (x y : list value) : outcome Z :=
    match x, y with
    | e :: x', f :: y' => c ← compareValues e f; if c =? 0 then go x' y' else Ret c
    | _, _ => Ret (cmpInt (Z.of_nat (length x)) (Z.of_nat (length y)))
    end in
  match a, b with
  | VNull, VNull => Ret 0
  | VNull, _ => Ret (-1)
  | _, VNull => Ret 1
  | VBool x, VBool y => Ret (if eqb x y then 0 else if negb x then -1 else 1)
  | VInt x, VInt y => Ret (cmpInt x y)
  | VInt x, VFloat y => Ret (cmpFloat (float_of_int x) y)
  | VInt _, _ => Ret 0
  | VFloat x, VFloat y => Ret (cmpFloat x y)
  | VFloat x, VInt y => Ret (cmpFloat x (float_of_int y))
  | VFloat _, _ => Ret 0
  | VString x, VString y | VBytes x, VBytes y => Ret (cmpBytes x y)
  | VTs x, VTs y | VDate x, VDate y => Ret (cmpInt x y)
  | VArray x, VArray y | VStruct x, VStruct y => compareLists x y
  | VMap x, VMap y =>
      (fix go (x y : list (value * value)) : outcome Z :=
        match x, y with
        | (k, v) :: x', (k', v') :: y' =>
            c ← compareValues k k';
            if c =? 0 then d ← compareValues v v'; if d =? 0 then go x' y' else Ret d else Ret c
        | _, _ => Ret (cmpInt (Z.of_nat (length x)) (Z.of_nat (length y)))
        end) x y
  | _, _ => Panic
  end.

(** [sqlEquals]: [None] is NULL. *)
Fixpoint sqlEquals (a b : value) {struct a} : outcome (option bool) :=
  let allEqual := fix go (res : option bool) (x y : list value) : outcome (option bool) :=
    match x, y with
    | e :: x', f :: y' =>
        r ← sqlEquals e f;
        match r with Some false => Ret (Some false) | None => go None x' y' | Some true => go res x' y' end
    | _, _ => Ret res
    end in
  let byOrder := c ← compareValues a b; Ret (Some (c =? 0)) in
  match a, b with
  | VNull, _ | _, VNull => Ret None
  | VFloat x, VFloat y => Ret (Some (SFeqb x y))
  | VFloat x, VInt y => Ret (Some (SFeqb x (float_of_int y)))
  | VInt x, VFloat y => Ret (Some (SFeqb (float_of_int x) y))
  | VStruct x, VStruct y | VArray x, VArray y =>
      if Nat.eqb (length x) (length y) then allEqual (Some true) x y else Ret (Some false)
  | VStruct _, _ | VArray _, _ => Panic
  | VMap x, VMap y =>
      if negb (Nat.eqb (length x) (length y)) then Ret (Some false)
      else
        (fix go (res : option bool) (x y : list (value * value)) : outcome (option bool) :=
          match x, y with
          | (k, v) :: x', (k', v') :: y' =>
              c ← compareValues k k';
              if negb (c =? 0) then Ret (Some false)
              else
                r ← sqlEquals v v';
                match r with Some false => Ret (Some false) | None => go None x' y' | Some true => go res x' y' end
          | _, _ => Ret res
          end) (Some true) x y
  | VMap _, _ => Panic
  | _, _ => byOrder
  end.

(** ** Bits of floats *)

(** The IEEE 754 bits of a float with [mw] mantissa and [ew] exponent bits;
    [math.Float64bits] and [math.Float32bits].  A NaN is the one Go makes. *)
Definition float_bits (mw ew : Z) (nan : Z) (f : spec_float) : Z :=
  let sign (s : bool) := if s then 2 ^ (mw + ew) else 0 in
  let emin := 3 - 2 ^ (ew - 1) - (mw + 1) in
  match f with
  | S754_zero s => sign s
  | S754_infinity s => sign s + (2 ^ ew - 1) * 2 ^ mw
  | S754_nan => nan
  | S754_finite s m e => sign s + if Z.pos m <? 2 ^ mw then Z.pos m else (e - emin + 1) * 2 ^ mw + (Z.pos m - 2 ^ mw)
  end.
Definition bits_float (mw ew : Z) (u : Z) : spec_float :=
  let s := 2 ^ (mw + ew) <=? u in
  let ex := (u / 2 ^ mw) mod 2 ^ ew in
  let frac := u mod 2 ^ mw in
  let emin := 3 - 2 ^ (ew - 1) - (mw + 1) in
  if ex =? 2 ^ ew - 1 then if frac =? 0 then S754_infinity s else S754_nan
  else if ex =? 0 then match frac with Z.pos m => S754_finite s m emin | _ => S754_zero s end
  else match frac + 2 ^ mw with Z.pos m => S754_finite s m (ex - 1 + emin) | _ => S754_nan end.

Definition Float64bits : spec_float -> Z := float_bits 52 11 9221120237041090561.
Definition Float64frombits : Z -> spec_float := bits_float 52 11.
Definition Float32bits : spec_float -> Z := float_bits 23 8 2143289344.
Definition Float32frombits : Z -> spec_float := bits_float 23 8.

(** ** Grouping keys *)

(** [appendValueKey]; NaNs and zeros are made equal. *)
Fixpoint appendValueKey (buf : bytes) (v : value) : bytes :=
  match v with
  | VNull => buf ++ [78]
  | VBool b => buf ++ [98; if b then 1 else 0]
  | VInt n => buf ++ [105] ++ be64 n
  | VFloat f =>
      let f := match f with S754_nan => S754_nan | S754_zero _ => S754_zero false | f => f end in
      buf ++ [102] ++ be64 (Float64bits f)
  | VString s => AppendUvarint (buf ++ [115]) (Z.of_nat (length s)) ++ s
  | VBytes b => AppendUvarint (buf ++ [121]) (Z.of_nat (length b)) ++ b
  | VTs n => buf ++ [116] ++ be64 n
  | VDate n => buf ++ [100] ++ be_encode 4 (n mod 2 ^ 32)
  | VArray l => foldl appendValueKey (AppendUvarint (buf ++ [97]) (Z.of_nat (length l))) l
  | VStruct l => foldl appendValueKey (AppendUvarint (buf ++ [114]) (Z.of_nat (length l))) l
  | VMap l =>
      foldl (fun buf kv => appendValueKey (appendValueKey buf kv.1) kv.2)
        (AppendUvarint (buf ++ [109]) (Z.of_nat (length l))) l
  end.
Definition valueKey (v : value) : bytes := appendValueKey [] v.

(** ** Maps *)

(** [compareValues] on keys, which have one static type. *)
Definition cmpKeys (a b : value) : Z := match compareValues a b with Ret c => c | _ => 0 end.
Definition mapLess (a b : value * value) : bool := cmpKeys a.1 b.1 <? 0.

(** The deduplication of [newMap]: the last value of a key wins. *)
Fixpoint dedupKeys (last : value * value) (l : list (value * value)) : list (value * value) :=
  match l with
  | [] => [last]
  | kv :: l' => if cmpKeys kv.1 last.1 =? 0 then dedupKeys (last.1, kv.2) l' else last :: dedupKeys kv l'
  end.

Definition newMap (entries : list (value * value)) : value :=
  VMap match isort (fun a b => negb (mapLess b a)) entries with [] => [] | kv :: l => dedupKeys kv l end.

Definition mapLookup (m : list (value * value)) (k : value) : option value :=
  let i := sort_Search (length m) (fun i => match m !! i with Some kv => 0 <=? cmpKeys kv.1 k | None => false end) in
  match m !! i with Some kv => if cmpKeys kv.1 k =? 0 then Some kv.2 else None | None => None end.

(** ** Typed values *)

Definition is_int64b (n : Z) : bool := (-9223372036854775808 <=? n) && (n <=? 9223372036854775807).
Definition is_int32b (n : Z) : bool := (-2147483648 <=? n) && (n <=? 2147483647).
Definition bytesb (s : bytes) : bool := forallb (fun c => (0 <=? c) && (c <? 256)) s.
(** A length that fits a machine integer. *)
Definition lenb {A : Type} (l : list A) : bool := Z.of_nat (length l) <? 2 ^ 63.

(** Every value has the representation of its static type. *)
Fixpoint has_type (v : value) (t : sqlType) {struct v} : bool :=
  match v, t with
  | VNull, _ => true
  | VBool _, TBool => true
  | VInt n, TInt64 => is_int64b n
  | VFloat f, TFloat64 => valid_binary 53 1024 f
  | VFloat f, TFloat32 => valid_binary 53 1024 f
  | VString s, TString => bytesb s
  | VBytes b, TBytes => bytesb b
  | VTs n, TTimestamp => is_int64b n
  | VDate n, TDate => is_int32b n
  | VArray l, TArray e => forallb (fun x => has_type x e) l
  | VStruct l, TStruct fs =>
      (fix go (l : list value) (fs : list (bytes * sqlType)) : bool :=
        match l, fs with
        | [], [] => true
        | x :: l', f :: fs' => has_type x f.2 && go l' fs'
        | _, _ => false
        end) l fs
  | VMap l, TMap k w => forallb (fun kv => has_type kv.1 k && has_type kv.2 w) l
  | _, _ => false
  end.
(** Every length fits a machine integer. *)
Fixpoint sized (v : value) : bool :=
  match v with
  | VString s | VBytes s => lenb s
  | VArray l | VStruct l => lenb l && forallb sized l
  | VMap l => lenb l && forallb (fun kv => sized kv.1 && sized kv.2) l
  | _ => true
  end.

(** ** The order as a lexicographic one *)

(** A float as integers that compare as it does. *)
Definition float_okey (f : spec_float) : list Z :=
  match f with
  | S754_nan => [0]
  | S754_infinity true => [1]
  | S754_finite true m e => [2; - e; Z.neg m]
  | S754_zero _ => [3]
  | S754_finite false m e => [4; e; Z.pos m]
  | S754_infinity false => [5]
  end.

(** A value as integers that compare as it does, after anything that does. *)
Fixpoint okey (v : value) : list Z :=
  match v with
  | VNull => [0]
  | VBool b => [1; if b then 1 else 0]
  | VInt n | VTs n | VDate n => [1; n]
  | VFloat f => 1 :: float_okey f
  | VString s | VBytes s => 1 :: (Z.succ <$> s) ++ [0]
  | VArray l | VStruct l => 1 :: mjoin ((fun e => 1 :: okey e) <$> l) ++ [0]
  | VMap l => 1 :: mjoin ((fun kv => 1 :: okey kv.1 ++ okey kv.2) <$> l) ++ [0]
  end.

(** [c] decides, or what follows does. *)
Definition decided (c : Z) (rest : comparison) : comparison := if c =? 0 then rest else if c <? 0 then Lt else Gt.

(** [c] is the comparison of [a] and [b], whatever follows them. *)
Definition decides (c : Z) (a b : list Z) : Prop :=
  (c = -1 \/ c = 0 \/ c = 1) /\ forall r1 r2, bytes_compare (a ++ r1) (b ++ r2) = decided c (bytes_compare r1 r2).

Lemma bytes_compare_cons x y a b : bytes_compare (x :: a) (y :: b) = decided (cmpInt x y) (bytes_compare a b).
Proof.
  cbn. unfold decided, cmpInt. destruct (Z.compare_spec x y) as [->|H|H].
  - by rewrite Z.ltb_irrefl.
  - rewrite (proj2 (Z.ltb_lt _ _)) by done. done.
  - rewrite (proj2 (Z.ltb_ge _ _)), (proj2 (Z.ltb_lt _ _)) by lia. done.
Qed.

Lemma decided_decided c d rest : decided c (decided d rest) = decided (if c =? 0 then d else c) rest.
Proof. unfold decided. by destruct (c =? 0) eqn:E; rewrite ?E. Qed.

Lemma cmpInt_cases a b : cmpInt a b = -1 /\ a < b \/ cmpInt a b = 0 /\ a = b \/ cmpInt a b = 1 /\ b < a.
Proof.
  unfold cmpInt. destruct (Z.ltb_spec a b); [by left|]. destruct (Z.ltb_spec b a); [by right; right|]. right. left. split; [done|lia].
Qed.
Lemma cmpInt_refl a : cmpInt a a = 0.
Proof. unfold cmpInt. by rewrite Z.ltb_irrefl. Qed.

Lemma decides_cons x y : decides (cmpInt x y) [x] [y].
Proof. split; [destruct (cmpInt_cases x y); naive_solver|]. intros r1 r2. apply bytes_compare_cons. Qed.
Lemma decides_app c d a b a' b' : decides c a b -> decides d a' b' -> decides (if c =? 0 then d else c) (a ++ a') (b ++ b').
Proof.
  intros [Hc Ha] [Hd Hb]. split; [by destruct (c =? 0)|]. intros r1 r2. rewrite <- !app_assoc, Ha, Hb. apply decided_decided.
Qed.
Lemma decides_tag x c a b : decides c a b -> decides c (x :: a) (x :: b).
Proof. intros H. pose proof (decides_app 0 c [x] [x] a b) as Happ. cbn in Happ. apply Happ; [rewrite <- (cmpInt_refl x); apply decides_cons|done]. Qed.
Lemma decides_lt x y a b : x < y -> decides (-1) (x :: a) (y :: b).
Proof.
  intros H. split; [by left|]. intros r1 r2. cbn [app]. rewrite bytes_compare_cons. unfold cmpInt. by rewrite (proj2 (Z.ltb_lt _ _)).
Qed.
Lemma decides_gt x y a b : y < x -> decides 1 (x :: a) (y :: b).
Proof.
  intros H. split; [by right; right|]. intros r1 r2. cbn [app]. rewrite bytes_compare_cons. unfold cmpInt.
  by rewrite (proj2 (Z.ltb_ge _ _)), (proj2 (Z.ltb_lt _ _)) by lia.
Qed.

(** Two finite floats of the same sign: first the exponents, then the mantissas. *)
Lemma cmpFloat_finite s ma ea mb eb :
  cmpFloat (S754_finite s ma ea) (S754_finite s mb eb) =
  let flip (x : Z) := if s then - x else x in
  if cmpInt (flip ea) (flip eb) =? 0 then cmpInt (flip (Z.pos ma)) (flip (Z.pos mb)) else cmpInt (flip ea) (flip eb).
Proof.
  unfold cmpFloat, SFltb. cbn [IsNaN andb SFcompare].
  change (PosDef.Pos.compare_cont Eq ma mb) with (ma ?= mb)%positive. change (PosDef.Pos.compare_cont Eq mb ma) with (mb ?= ma)%positive.
  rewrite (Z.compare_antisym ea eb), (Pos.compare_antisym ma mb). unfold cmpInt.
  destruct (Z.compare_spec ea eb) as [->|He|He], (Pos.compare_spec ma mb) as [->|Hm|Hm], s; cbn [CompOpp];
    repeat match goal with |- context [?x <? ?y] => destruct (Z.ltb_spec x y); try lia end; done.
Qed.

Lemma decides_same a : decides 0 a a.
Proof. split; [by right; left|]. intros r1 r2. induction a as [|y a IH]; [done|]. cbn [app]. by rewrite bytes_compare_cons, cmpInt_refl. Qed.

Lemma cmpFloat_okey a b : decides (cmpFloat a b) (float_okey a) (float_okey b).
Proof.
  destruct a as [sa|[]| |[] ma ea], b as [sb|[]| |[] mb eb];
    try (apply (decides_lt _ _ [] []); lia); try (apply (decides_gt _ _ [] []); lia); try exact (decides_same _); try (cbn; apply decides_lt; lia); try (cbn; apply decides_gt; lia).
  - rewrite cmpFloat_finite. apply decides_tag. apply (decides_app _ _ [_] [_] [_] [_]); apply decides_cons.
  - rewrite cmpFloat_finite. apply decides_tag. apply (decides_app _ _ [_] [_] [_] [_]); apply decides_cons.
Qed.

Lemma cmpBytes_okey a b : bytesb a = true -> bytesb b = true -> decides (cmpBytes a b) ((Z.succ <$> a) ++ [0]) ((Z.succ <$> b) ++ [0]).
Proof.
  revert b. induction a as [|x a IH]; intros [|y b] Ha Hb; cbn in Ha, Hb |- *.
  - exact (decides_same [0]).
  - apply andb_true_iff in Hb as [Hy _]. apply decides_lt. lia.
  - apply andb_true_iff in Ha as [Hx _]. unfold cmpBytes, bytes_ltb. cbn. apply decides_gt. lia.
  - apply andb_true_iff in Ha as [Hx Ha], Hb as [Hy Hb]. specialize (IH b Ha Hb).
    assert (cmpBytes (x :: a) (y :: b) = if cmpInt x y =? 0 then cmpBytes a b else cmpInt x y) as ->.
    { unfold cmpBytes, bytes_ltb, cmpInt. cbn. rewrite (Z.compare_antisym x y). destruct (Z.compare_spec x y) as [->|H|H]; cbn.
      - by rewrite Z.ltb_irrefl.
      - rewrite (proj2 (Z.ltb_lt x y)) by done. done.
      - rewrite (proj2 (Z.ltb_ge x y)), (proj2 (Z.ltb_lt y x)) by lia. done. }
    assert (cmpInt x y = cmpInt (Z.succ x) (Z.succ y)) as ->.
    { unfold cmpInt. repeat match goal with |- context [?p <? ?q] => destruct (Z.ltb_spec p q); try lia end; done. }
    apply (decides_app _ _ [_] [_]); [apply decides_cons|done].
Qed.

(** The loops of [compareValues], named. *)
Fixpoint compareLists (x y : list value) : outcome Z :=
  match x, y with
  | e :: x', f :: y' => c ← compareValues e f; if c =? 0 then compareLists x' y' else Ret c
  | _, _ => Ret (cmpInt (Z.of_nat (length x)) (Z.of_nat (length y)))
  end.
Fixpoint compareEntries (x y : list (value * value)) : outcome Z :=
  match x, y with
  | (k, v) :: x', (k', v') :: y' =>
      c ← compareValues k k';
      if c =? 0 then d ← compareValues v v'; if d =? 0 then compareEntries x' y' else Ret d else Ret c
  | _, _ => Ret (cmpInt (Z.of_nat (length x)) (Z.of_nat (length y)))
  end.
Lemma compare_array x y : compareValues (VArray x) (VArray y) = compareLists x y.
Proof. reflexivity. Qed.
Lemma compare_struct x y : compareValues (VStruct x) (VStruct y) = compareLists x y.
Proof. reflexivity. Qed.
Lemma compare_map x y : compareValues (VMap x) (VMap y) = compareEntries x y.
Proof. reflexivity. Qed.

(** [a] and [b] compare, and their integers compare alike. *)
Definition agrees (a b : value) : Prop := exists c, compareValues a b = Ret c /\ decides c (okey a) (okey b).

Lemma agrees_lists x : forall y, Forall2 agrees (take (length y) x) (take (length x) y) ->
  exists c, compareLists x y = Ret c /\
    decides c (mjoin ((fun e => 1 :: okey e) <$> x) ++ [0]) (mjoin ((fun e => 1 :: okey e) <$> y) ++ [0]).
Proof.
  induction x as [|e x IH]; intros [|f y] H; cbn in H |- *.
  - exists 0. split; [done|exact (decides_same [0])].
  - exists (-1). split; [done|]. apply decides_lt. lia.
  - exists 1. split; [done|]. apply decides_gt. lia.
  - apply Forall2_cons in H as [(c & Ec & Hc) H]. rewrite Ec. cbn [mbind outcome_bind]. destruct (IH y H) as (d & Ed & Hd).
    exists (if c =? 0 then d else c). split; [by destruct (c =? 0)|]. rewrite <- !app_assoc. apply decides_tag. by apply decides_app.
Qed.
Lemma agrees_entries x : forall y, Forall2 (fun a b => agrees a.1 b.1 /\ agrees a.2 b.2) (take (length y) x) (take (length x) y) ->
  exists c, compareEntries x y = Ret c /\
    decides c (mjoin ((fun kv => 1 :: okey kv.1 ++ okey kv.2) <$> x) ++ [0]) (mjoin ((fun kv => 1 :: okey kv.1 ++ okey kv.2) <$> y) ++ [0]).
Proof.
  induction x as [|[k v] x IH]; intros [|[k' v'] y] H; cbn in H |- *.
  - exists 0. split; [done|exact (decides_same [0])].
  - exists (-1). split; [done|]. apply decides_lt. lia.
  - exists 1. split; [done|]. apply decides_gt. lia.
  - apply Forall2_cons in H as [[(c & Ec & Hc) (d & Ed & Hd)] H]. cbn in *. rewrite Ec. cbn [mbind outcome_bind]. destruct (IH y H) as (g & Eg & Hg).
    exists (if c =? 0 then if d =? 0 then g else d else c). split; [destruct (c =? 0); [rewrite Ed; cbn [mbind outcome_bind]; by destruct (d =? 0)|done]|].
    rewrite <- !app_assoc. apply decides_tag. apply decides_app; [done|]. by apply decides_app.
Qed.

Lemma Forall2_take {A : Type} (P : A -> Prop) (Q : A -> A -> Prop) (x : list A) : forall y,
  Forall (fun a => forall b, P b -> Q a b) x -> Forall P y -> Forall2 Q (take (length y) x) (take (length x) y).
Proof.
  induction x as [|a x IH]; intros [|b y] Hx Hy; cbn; [constructor..|]. apply Forall_cons in Hx as [Ha Hx], Hy as [Hb Hy].
  constructor; [by apply Ha|by apply IH].
Qed.

Lemma Forall2_all {A : Type} (P : A -> Prop) (Q : A -> A -> Prop) (x y : list A) : length x = length y ->
  Forall (fun a => forall b, P b -> Q a b) x -> Forall P y -> Forall2 Q x y.
Proof. intros E Hx Hy. pose proof (Forall2_take P Q x y Hx Hy) as H. by rewrite !take_ge in H by lia. Qed.

(** The fields of a struct, each of its own type. *)
Fixpoint fields_typed (l : list value) (fs : list (bytes * sqlType)) : bool :=
  match l, fs with
  | [], [] => true
  | x :: l', f :: fs' => has_type x f.2 && fields_typed l' fs'
  | _, _ => false
  end.
Lemma has_type_struct l fs : has_type (VStruct l) (TStruct fs) = fields_typed l fs.
Proof. reflexivity. Qed.

Lemma fields_agree l : Forall (fun a => forall b t, has_type a t = true -> has_type b t = true -> agrees a b) l ->
  forall l' fs, fields_typed l fs = true -> fields_typed l' fs = true -> Forall2 agrees l l'.
Proof.
  induction 1 as [|a l Ha Hl IH]; intros l' [|f fs] H1 H2; destruct l' as [|b l']; cbn in H1, H2; try done.
  apply andb_true_iff in H1 as [Ha1 H1], H2 as [Hb1 H2]. constructor; [by eapply Ha|by eapply IH].
Qed.

Lemma compare_agrees a : forall b t, has_type a t = true -> has_type b t = true -> agrees a b.
Proof.
  induction a as [|x|n|f|s|s|n|n|l IH|l IH|l IH] using value_nested; intros b t Ha Hb;
    destruct b as [|x'|n'|f'|s'|s'|n'|n'|l'|l'|l']; unfold agrees;
    try (exists 0; split; [done|exact (decides_same [0])]);
    try (exists (-1); split; [done|apply decides_lt; lia]); try (exists 1; split; [done|apply decides_gt; lia]);
    destruct t; try done.
  - exists (if eqb x x' then 0 else if negb x then -1 else 1). split; [done|]. cbn. apply decides_tag. destruct x, x'; cbn;
      [exact (decides_same [1])|apply decides_gt; lia|apply decides_lt; lia|exact (decides_same [0])].
  - eexists. split; [done|]. cbn. apply decides_tag, decides_cons.
  - eexists. split; [done|]. cbn. apply decides_tag, cmpFloat_okey.
  - eexists. split; [done|]. cbn. apply decides_tag, cmpFloat_okey.
  - eexists. split; [done|]. cbn. by apply decides_tag, cmpBytes_okey.
  - eexists. split; [done|]. cbn. by apply decides_tag, cmpBytes_okey.
  - eexists. split; [done|]. cbn. apply decides_tag, decides_cons.
  - eexists. split; [done|]. cbn. apply decides_tag, decides_cons.
  - rewrite compare_array. cbn in Ha, Hb.
    destruct (agrees_lists l l') as (c & -> & Hc); [|exists c; split; [done|by apply decides_tag]].
    apply (Forall2_take (fun b => has_type b t = true)); [|by rewrite list.Forall_forall; intros y Hy; rewrite forallb_forall in Hb; apply Hb, list_elem_of_In].
    rewrite list.Forall_forall in IH |- *. intros a Hin b Hb'. rewrite forallb_forall in Ha. eapply IH; [done| |done]. by apply Ha, list_elem_of_In.
  - rewrite compare_struct. rewrite has_type_struct in Ha, Hb.
    pose proof (fields_agree l IH l' fields Ha Hb) as Hf. destruct (agrees_lists l l') as (c & -> & Hc); [|exists c; split; [done|by apply decides_tag]].
    pose proof (Forall2_length _ _ _ Hf) as Hlen. by rewrite !take_ge by lia.
  - rewrite compare_map. cbn in Ha, Hb.
    destruct (agrees_entries l l') as (c & -> & Hc); [|exists c; split; [done|by apply decides_tag]].
    apply (Forall2_take (fun b => has_type b.1 t1 = true /\ has_type b.2 t2 = true)).
    + rewrite list.Forall_forall in IH |- *. intros [k v] Hin [k' v'] [Hk' Hv']. cbn in *. apply IH in Hin as Hi. destruct Hi as [Hk Hv]. cbn in Hk, Hv.
      rewrite forallb_forall in Ha. apply list_elem_of_In, Ha in Hin. cbn in Hin. apply andb_true_iff in Hin as [Ht1 Ht2].
      split; [by eapply Hk|by eapply Hv].
    + rewrite list.Forall_forall. intros kv Hin%list_elem_of_In. rewrite forallb_forall in Hb. apply Hb in Hin. by apply andb_true_iff in Hin.
Qed.

(** The order of a comparison. *)
Lemma decides_compare c a b : decides c a b -> bytes_compare a b = decided c Eq.
Proof. intros [_ H]. specialize (H [] []). by rewrite !app_nil_r in H. Qed.

(** ** The bits of a float determine it *)

Lemma digits2_pos_bound m : 2 ^ (Z.pos (digits2_pos m) - 1) <= Z.pos m < 2 ^ Z.pos (digits2_pos m).
Proof.
  induction m as [m IH|m IH|]; cbn [digits2_pos]; [| |done]; rewrite Pos2Z.inj_succ;
    replace (Z.succ (Z.pos (digits2_pos m)) - 1) with (Z.succ (Z.pos (digits2_pos m) - 1)) by lia; rewrite !Z.pow_succ_r by lia; lia.
Qed.

(** The bounds of a valid mantissa and exponent: subnormal, or normal. *)
Lemma bounded_cases mw ew m e : 1 <= mw -> 2 <= ew -> bounded (mw + 1) (2 ^ (ew - 1)) m e = true ->
  let emin := 3 - 2 ^ (ew - 1) - (mw + 1) in
  (Z.pos m < 2 ^ mw /\ e = emin) \/ (2 ^ mw <= Z.pos m < 2 * 2 ^ mw /\ emin <= e /\ e - emin + 1 <= 2 ^ ew - 2).
Proof.
  intros Hmw Hew Hb. unfold bounded, canonical_mantissa, fexp, SpecFloat.emin in Hb. apply andb_true_iff in Hb as [Hc He]. apply Z.eqb_eq in Hc. apply Z.leb_le in He.
  pose proof (digits2_pos_bound m) as [Hlo Hhi]. set (d := Z.pos (digits2_pos m)) in *. assert (0 < d) by (unfold d; lia).
  assert (2 ^ ew = 2 * 2 ^ (ew - 1)) as Epow by (rewrite <- Z.pow_succ_r by lia; f_equal; lia).
  change (IntDef.Z.max ?a ?b) with (Z.max a b) in Hc. cbv zeta. destruct (Z.lt_ge_cases (Z.pos m) (2 ^ mw)) as [Hm|Hm].
  - left. split; [done|]. assert (d - 1 < mw) by (apply (Z.pow_lt_mono_r_iff 2); lia). lia.
  - right. assert (mw < d) by (apply (Z.pow_lt_mono_r_iff 2); lia). assert (d = mw + 1) as Ed by lia. rewrite Ed in Hhi.
    replace (mw + 1) with (Z.succ mw) in Hhi by lia. rewrite Z.pow_succ_r in Hhi by lia. lia.
Qed.

Lemma bits_split mw ew s ex frac : 1 <= mw -> 2 <= ew -> 0 <= ex < 2 ^ ew -> 0 <= frac < 2 ^ mw -> s = 0 \/ s = 1 ->
  let u := s * 2 ^ (mw + ew) + ex * 2 ^ mw + frac in
  (2 ^ (mw + ew) <=? u) = (s =? 1) /\ (u / 2 ^ mw) mod 2 ^ ew = ex /\ u mod 2 ^ mw = frac.
Proof.
  intros Hmw Hew Hex Hfr Hs. cbv zeta. rewrite (Z.pow_add_r 2) by lia. set (P := 2 ^ mw) in *. set (E := 2 ^ ew) in *.
  assert (0 < P) by (apply Z.pow_pos_nonneg; lia). assert (0 < E) by (apply Z.pow_pos_nonneg; lia).
  assert (ex * P + frac < P * E) by nia. split_and!.
  - destruct Hs as [->| ->]; [apply Z.leb_gt|apply Z.leb_le]; lia.
  - replace (s * (P * E) + ex * P + frac) with (frac + (s * E + ex) * P) by ring. rewrite Z.div_add, Z.div_small, Z.add_0_l by lia.
    replace (s * E + ex) with (ex + s * E) by ring. rewrite Z.mod_add by lia. by apply Z.mod_small.
  - replace (s * (P * E) + ex * P + frac) with (frac + (s * E + ex) * P) by ring. rewrite Z.mod_add by lia. by apply Z.mod_small.
Qed.

Lemma sign_bits (s : bool) n : (if s then 2 ^ n else 0) = (if s then 1 else 0) * 2 ^ n.
Proof. by destruct s; rewrite ?Z.mul_1_l. Qed.

Lemma bits_roundtrip mw ew nan f : 1 <= mw -> 2 <= ew -> bits_float mw ew nan = S754_nan -> valid_binary (mw + 1) (2 ^ (ew - 1)) f = true ->
  bits_float mw ew (float_bits mw ew nan f) = f.
Proof.
  intros Hmw Hew Hnan Hv. assert (0 < 2 ^ mw) by (apply Z.pow_pos_nonneg; lia). assert (4 <= 2 ^ ew) by (change 4 with (2 ^ 2); apply Z.pow_le_mono_r; lia).
  destruct f as [s|s| |s m e]; cbn [float_bits]; [| |done|].
  - rewrite sign_bits. destruct (bits_split mw ew (if s then 1 else 0) 0 0) as (E1 & E2 & E3); [lia..|by destruct s; auto|].
    unfold bits_float. rewrite Z.mul_0_l, !Z.add_0_r in E1, E2, E3. rewrite E1, E2, E3. rewrite (proj2 (Z.eqb_neq _ _)) by lia. by destruct s.
  - rewrite sign_bits. destruct (bits_split mw ew (if s then 1 else 0) (2 ^ ew - 1) 0) as (E1 & E2 & E3); [lia..|by destruct s; auto|].
    unfold bits_float. rewrite !Z.add_0_r in E1, E2, E3. rewrite E1, E2, E3, Z.eqb_refl. by destruct s.
  - cbn in Hv. destruct (bounded_cases mw ew m e Hmw Hew Hv) as [[Hm He]|(Hm & He1 & He2)]; rewrite sign_bits.
    + rewrite (proj2 (Z.ltb_lt _ _)) by done. destruct (bits_split mw ew (if s then 1 else 0) 0 (Z.pos m)) as (E1 & E2 & E3); [lia..|by destruct s; auto|].
      rewrite Z.mul_0_l, Z.add_0_r in E1, E2, E3. unfold bits_float. rewrite E1, E2, E3, (proj2 (Z.eqb_neq _ _)) by lia. rewrite He. by destruct s.
    + rewrite (proj2 (Z.ltb_ge _ _)) by lia. set (emin := 3 - 2 ^ (ew - 1) - (mw + 1)) in *.
      destruct (bits_split mw ew (if s then 1 else 0) (e - emin + 1) (Z.pos m - 2 ^ mw)) as (E1 & E2 & E3); [lia..|by destruct s; auto|].
      rewrite <- Z.add_assoc in E1, E2, E3. unfold bits_float. fold emin. rewrite E1, E2, E3, !(proj2 (Z.eqb_neq _ _)) by lia.
      replace (Z.pos m - 2 ^ mw + 2 ^ mw) with (Z.pos m) by lia. f_equal; [by destruct s|lia].
Qed.

Lemma Float64_roundtrip f : valid_binary 53 1024 f = true -> Float64frombits (Float64bits f) = f.
Proof. intros Hv. by apply (bits_roundtrip 52 11). Qed.
Lemma Float32_roundtrip f : valid_binary 24 128 f = true -> Float32frombits (Float32bits f) = f.
Proof. intros Hv. by apply (bits_roundtrip 23 8). Qed.

Lemma float_bits_range mw ew nan f : 1 <= mw -> 2 <= ew -> 0 <= nan < 2 ^ (mw + ew + 1) -> valid_binary (mw + 1) (2 ^ (ew - 1)) f = true ->
  0 <= float_bits mw ew nan f < 2 ^ (mw + ew + 1).
Proof.
  intros Hmw Hew Hn Hv. assert (0 < 2 ^ mw) by (apply Z.pow_pos_nonneg; lia). assert (4 <= 2 ^ ew) by (change 4 with (2 ^ 2); apply Z.pow_le_mono_r; lia).
  assert (2 ^ (mw + ew + 1) = 2 * (2 ^ mw * 2 ^ ew)) as E1 by (rewrite !Z.pow_add_r by lia; lia). assert (2 ^ (mw + ew) = 2 ^ mw * 2 ^ ew) as E2 by (by rewrite Z.pow_add_r by lia).
  destruct f as [s|s| |s m e]; cbn [float_bits]; [| |done|]; rewrite ?E1, ?E2 in *.
  - destruct s; nia.
  - destruct s; nia.
  - cbn in Hv. destruct (bounded_cases mw ew m e Hmw Hew Hv) as [[Hm He]|(Hm & He1 & He2)].
    + rewrite (proj2 (Z.ltb_lt _ _)) by done. destruct s; nia.
    + rewrite (proj2 (Z.ltb_ge _ _)) by lia. destruct s; nia.
Qed.
Lemma Float64bits_range f : valid_binary 53 1024 f = true -> is_uint64 (Float64bits f).
Proof. intros Hv. pose proof (float_bits_range 52 11 9221120237041090561 f ltac:(lia) ltac:(lia) ltac:(cbn; lia) Hv) as H. unfold_words. exact H. Qed.

(** ** Grouping keys determine the value *)

Lemma appendValueKey_app v : forall buf, appendValueKey buf v = buf ++ valueKey v.
Proof.
  unfold valueKey. induction v as [|x|n|f|s|s|n|n|l IH|l IH|l IH] using value_nested; intros buf; cbn [appendValueKey]; try done;
    unfold AppendUvarint; rewrite <- ?app_assoc; try done; cbn [app].
  1,2: assert (forall b1 b2, foldl appendValueKey (b1 ++ b2) l = b1 ++ foldl appendValueKey b2 l) as H;
    [induction IH as [|e l He Hl IHl]; intros b1 b2; [done|]; cbn [foldl]; rewrite (He (b1 ++ b2)), (He b2), <- app_assoc; apply IHl|apply (H buf)].
  assert (forall b1 b2, foldl (fun buf kv => appendValueKey (appendValueKey buf kv.1) kv.2) (b1 ++ b2) l =
    b1 ++ foldl (fun buf kv => appendValueKey (appendValueKey buf kv.1) kv.2) b2 l) as H; [|apply (H buf)].
  induction IH as [|[k w] l [Hk Hw] Hl IHl]; intros b1 b2; [done|]. cbn [foldl fst snd] in *.
  rewrite (Hw (appendValueKey (b1 ++ b2) k)), (Hw (appendValueKey b2 k)), (Hk (b1 ++ b2)), (Hk b2), <- !app_assoc. apply IHl.
Qed.

Lemma foldl_keys l : forall buf, foldl appendValueKey buf l = buf ++ mjoin (valueKey <$> l).
Proof.
  induction l as [|e l IH]; intros buf; cbn [foldl]; [by rewrite app_nil_r|]. rewrite IH, appendValueKey_app. cbn. by rewrite app_assoc.
Qed.
Lemma foldl_entry_keys l : forall buf, foldl (fun buf kv => appendValueKey (appendValueKey buf kv.1) kv.2) buf l =
  buf ++ mjoin ((fun kv => valueKey kv.1 ++ valueKey kv.2) <$> l).
Proof.
  induction l as [|[k v] l IH]; intros buf; cbn [foldl]; [by rewrite app_nil_r|]. rewrite IH, !appendValueKey_app. cbn. by rewrite !app_assoc.
Qed.

Lemma valueKey_array l : valueKey (VArray l) = 97 :: uvarint_bytes 10 (Z.of_nat (length l)) ++ mjoin (valueKey <$> l).
Proof. unfold valueKey at 1. cbn [appendValueKey]. by rewrite foldl_keys. Qed.
Lemma valueKey_struct l : valueKey (VStruct l) = 114 :: uvarint_bytes 10 (Z.of_nat (length l)) ++ mjoin (valueKey <$> l).
Proof. unfold valueKey at 1. cbn [appendValueKey]. by rewrite foldl_keys. Qed.
Lemma valueKey_map l : valueKey (VMap l) = 109 :: uvarint_bytes 10 (Z.of_nat (length l)) ++ mjoin ((fun kv => valueKey kv.1 ++ valueKey kv.2) <$> l).
Proof. unfold valueKey at 1. cbn [appendValueKey]. by rewrite foldl_entry_keys. Qed.

(** Reading a key, the value is known up to the order, and the rest is left. *)
Definition same (a b : value) : Prop := compareValues a b = Ret 0.
Definition key_reads (a b : value) : Prop :=
  forall r1 r2, valueKey a ++ r1 = valueKey b ++ r2 <-> same a b /\ r1 = r2.

Lemma lenb_uint64 {A : Type} (l : list A) : lenb l = true -> is_uint64 (Z.of_nat (length l)).
Proof. unfold lenb. intros H%Z.ltb_lt. unfold_words. change (2 ^ 63) with 9223372036854775808 in H. lia. Qed.
Lemma uvarint_inj (x y : Z) r1 r2 : is_uint64 x -> is_uint64 y -> uvarint_bytes 10 x ++ r1 = uvarint_bytes 10 y ++ r2 -> x = y /\ r1 = r2.
Proof.
  intros Hx Hy E. apply (f_equal Uvarint) in E. rewrite !Uvarint_roundtrip in E by done. by simplify_eq.
Qed.
Lemma be_inj n x y r1 r2 : 0 <= x < 256 ^ Z.of_nat n -> 0 <= y < 256 ^ Z.of_nat n -> be_encode n x ++ r1 = be_encode n y ++ r2 -> x = y /\ r1 = r2.
Proof.
  intros Hx Hy E. apply app_inj_1 in E as [E ->]; [|by rewrite !length_be_encode]. split; [|done].
  apply (f_equal be_decode) in E. rewrite !be_decode_encode, !Z.mod_small in E by done. done.
Qed.

Lemma compareLists_zero x : forall y, compareLists x y = Ret 0 <-> Forall2 same x y.
Proof.
  induction x as [|e x IH]; intros [|f y]; cbn [compareLists].
  - split; [constructor|done].
  - split; [done|intros H; inversion H].
  - split; [done|intros H; inversion H].
  - rewrite Forall2_cons, <- IH. unfold same. destruct (compareValues e f) as [c| |]; cbn [mbind outcome_bind]; [|split; [done|by intros [? _]]..].
    destruct (Z.eqb_spec c 0) as [->|Hc]; split; [done|by intros [_ ?]|congruence|intros [? _]; congruence].
Qed.
Lemma compareEntries_zero x : forall y, compareEntries x y = Ret 0 <-> Forall2 (fun a b => same a.1 b.1 /\ same a.2 b.2) x y.
Proof.
  induction x as [|[k v] x IH]; intros [|[k' v'] y]; cbn [compareEntries].
  - split; [constructor|done].
  - split; [done|intros H; inversion H].
  - split; [done|intros H; inversion H].
  - rewrite Forall2_cons, <- IH. unfold same. cbn [fst snd].
    destruct (compareValues k k') as [c| |]; cbn [mbind outcome_bind]; [|split; [done|by intros [[? _] _]]..].
    destruct (Z.eqb_spec c 0) as [->|Hc]; [|split; [congruence|intros [[? _] _]; congruence]].
    destruct (compareValues v v') as [d| |]; cbn [mbind outcome_bind]; [|split; [done|by intros [[_ ?] _]]..].
    destruct (Z.eqb_spec d 0) as [->|Hd]; split; [done|by intros [_ ?]|congruence|intros [[_ ?] _]; congruence].
Qed.

Lemma keys_read_lists x y : Forall2 key_reads x y -> forall r1 r2,
  mjoin (valueKey <$> x) ++ r1 = mjoin (valueKey <$> y) ++ r2 <-> Forall2 same x y /\ r1 = r2.
Proof.
  induction 1 as [|a b x y Hab Hxy IH]; intros r1 r2; cbn [fmap list_fmap mjoin list_join app]; [split; [by split; [constructor|]|by intros [_ ->]]|].
  rewrite <- !app_assoc, Forall2_cons. unfold key_reads in Hab. rewrite Hab, IH. tauto.
Qed.
Lemma keys_read_entries x y : Forall2 (fun a b => key_reads a.1 b.1 /\ key_reads a.2 b.2) x y -> forall r1 r2,
  mjoin ((fun kv => valueKey kv.1 ++ valueKey kv.2) <$> x) ++ r1 = mjoin ((fun kv => valueKey kv.1 ++ valueKey kv.2) <$> y) ++ r2 <->
  Forall2 (fun a b => same a.1 b.1 /\ same a.2 b.2) x y /\ r1 = r2.
Proof.
  induction 1 as [|a b x y [H1 H2] Hxy IH]; intros r1 r2; cbn [fmap list_fmap mjoin list_join app]; [split; [by split; [constructor|]|by intros [_ ->]]|].
  rewrite <- !app_assoc, Forall2_cons. unfold key_reads in H1, H2. rewrite H1, H2, IH. tauto.
Qed.

(** A length, then elements that can be read. *)
Lemma counted_reads {A : Type} (x y : list A) (key : list A -> bytes) (R : A -> A -> Prop) r1 r2 : lenb x = true -> lenb y = true ->
  (length x = length y -> key x ++ r1 = key y ++ r2 <-> Forall2 R x y /\ r1 = r2) ->
  (uvarint_bytes 10 (Z.of_nat (length x)) ++ key x) ++ r1 = (uvarint_bytes 10 (Z.of_nat (length y)) ++ key y) ++ r2 <-> Forall2 R x y /\ r1 = r2.
Proof.
  intros Hx Hy Hk. rewrite <- !app_assoc. split.
  - intros E. apply uvarint_inj in E as [El E]; [|by apply lenb_uint64..]. apply Hk; [lia|done].
  - intros [HR ->]. pose proof (Forall2_length _ _ _ HR) as El. rewrite El. f_equal. by apply Hk.
Qed.

Lemma tagged_reads c (k1 k2 r1 r2 : bytes) (P : Prop) : (k1 ++ r1 = k2 ++ r2 <-> P) -> (c :: k1) ++ r1 = (c :: k2) ++ r2 <-> P.
Proof. intros H. cbn [app]. rewrite <- H. split; [by intros [= ->]|by intros ->]. Qed.

Lemma fields_read l : Forall (fun a => forall b t, has_type a t = true -> has_type b t = true -> sized a = true -> sized b = true -> key_reads a b) l ->
  forall l' fs, fields_typed l fs = true -> fields_typed l' fs = true -> forallb sized l = true -> forallb sized l' = true -> Forall2 key_reads l l'.
Proof.
  induction 1 as [|a l Ha Hl IH]; intros l' [|f fs] H1 H2; destruct l' as [|b l']; cbn in H1, H2 |- *; try done.
  apply andb_true_iff in H1 as [Ha1 H1], H2 as [Hb1 H2]. intros [Hs1 Hs2]%andb_prop [Hs1' Hs2']%andb_prop. constructor; [by eapply Ha|by eapply IH].
Qed.

Lemma cmpInt_zero a b : cmpInt a b = 0 <-> a = b.
Proof. destruct (cmpInt_cases a b) as [[-> ?]|[[-> ?]|[-> ?]]]; split; lia. Qed.
Lemma cmpBytes_zero a b : cmpBytes a b = 0 <-> a = b.
Proof.
  unfold cmpBytes, bytes_ltb. rewrite (bytes_compare_antisym a b). split.
  - destruct (bytes_compare a b) eqn:E; cbn; try done. by apply bytes_compare_eq in E.
  - intros ->. by rewrite bytes_compare_refl.
Qed.

(** The float a key is made of. *)
Definition key_float (f : spec_float) : spec_float := match f with S754_nan => S754_nan | S754_zero _ => S754_zero false | f => f end.
Lemma key_float_same f g : cmpFloat f g = 0 <-> key_float f = key_float g.
Proof.
  pose proof (cmpFloat_okey f g) as H. apply decides_compare in H. split.
  - intros E. rewrite E in H. apply bytes_compare_eq in H. destruct f as [|[]| |[]], g as [|[]| |[]]; cbn in *; congruence || done || (simplify_eq; f_equal; lia).
  - intros E. assert (float_okey f = float_okey g) as Eo by (destruct f as [|[]| |[]], g as [|[]| |[]]; cbn in *; congruence).
    rewrite Eo, bytes_compare_refl in H. unfold decided in H. destruct (Z.eqb_spec (cmpFloat f g) 0); [done|]. by destruct (cmpFloat f g <? 0).
Qed.
Lemma key_float_valid f : valid_binary 53 1024 f = true -> valid_binary 53 1024 (key_float f) = true.
Proof. by destruct f. Qed.
Lemma key_float_bits f g : valid_binary 53 1024 f = true -> valid_binary 53 1024 g = true ->
  Float64bits (key_float f) = Float64bits (key_float g) <-> cmpFloat f g = 0.
Proof.
  intros Hf Hg. rewrite key_float_same. split; [|by intros ->]. intros E. rewrite <- (Float64_roundtrip (key_float f)), <- (Float64_roundtrip (key_float g)) by (by apply key_float_valid).
  by rewrite E.
Qed.

Lemma be_reads n x y r1 r2 : 0 <= x < 256 ^ Z.of_nat n -> 0 <= y < 256 ^ Z.of_nat n -> be_encode n x ++ r1 = be_encode n y ++ r2 <-> x = y /\ r1 = r2.
Proof. intros Hx Hy. split; [by apply be_inj|by intros [-> ->]]. Qed.
Lemma be64_reads x y r1 r2 : is_int64b x = true -> is_int64b y = true -> be64 x ++ r1 = be64 y ++ r2 <-> cmpInt x y = 0 /\ r1 = r2.
Proof.
  intros Hx Hy. unfold be64. rewrite be_reads by apply to_u64_range. rewrite cmpInt_zero. unfold is_int64b in *.
  assert (to_u64 x = to_u64 y <-> x = y) as ->; [|done]. split; [|by intros ->]. intros E. apply (f_equal wrap64) in E. rewrite !wrap64_to_u64 in E.
  rewrite !wrap64_id in E by (unfold_words; lia). done.
Qed.

(** A string after its length. *)
Lemma string_reads (s s' r1 r2 : bytes) : lenb s = true -> lenb s' = true ->
  (uvarint_bytes 10 (Z.of_nat (length s)) ++ s) ++ r1 = (uvarint_bytes 10 (Z.of_nat (length s')) ++ s') ++ r2 <-> cmpBytes s s' = 0 /\ r1 = r2.
Proof.
  intros Hs Hs'. rewrite cmpBytes_zero, <- !app_assoc. split; [|by intros [-> ->]].
  intros E. apply uvarint_inj in E as [El E]; [|by apply lenb_uint64..]. apply app_inj_1 in E; [done|lia].
Qed.

Lemma same_iff {A : Type} (c d : A) : (Ret c = Ret d) <-> c = d.
Proof. split; [by intros [= ->]|by intros ->]. Qed.

Lemma key_reads_typed a : forall b t, has_type a t = true -> has_type b t = true -> sized a = true -> sized b = true -> key_reads a b.
Proof.
  induction a as [|x|n|f|s|s|n|n|l IH|l IH|l IH] using value_nested; intros b t Ha Hb Hsa Hsb;
    destruct b as [|x'|n'|f'|s'|s'|n'|n'|l'|l'|l']; intros r1 r2; unfold same;
    try (rewrite ?valueKey_array, ?valueKey_struct, ?valueKey_map; split; [by intros [=]|by intros [[=] _]]); [split; [by intros [= ->]|by intros [_ ->]]|..]; destruct t; try done.
  - destruct x, x'; (split; [by intros [= ->]|by intros [[=] ->]]).
  - cbn [compareValues]. rewrite same_iff. apply tagged_reads. by apply be64_reads.
  - cbn [compareValues]. rewrite same_iff. apply tagged_reads. fold (key_float f) (key_float f'). cbn in Ha, Hb. rewrite <- key_float_bits by done.
    unfold be64. rewrite be_reads by apply to_u64_range. rewrite !to_u64_id by (by apply Float64bits_range, key_float_valid). done.
  - cbn [compareValues]. rewrite same_iff. apply tagged_reads. fold (key_float f) (key_float f'). cbn in Ha, Hb. rewrite <- key_float_bits by done.
    unfold be64. rewrite be_reads by apply to_u64_range. rewrite !to_u64_id by (by apply Float64bits_range, key_float_valid). done.
  - cbn [compareValues]. rewrite same_iff. apply tagged_reads. by apply string_reads.
  - cbn [compareValues]. rewrite same_iff. apply tagged_reads. by apply string_reads.
  - cbn [compareValues]. rewrite same_iff. apply tagged_reads. by apply be64_reads.
  - cbn [compareValues]. rewrite same_iff. apply tagged_reads. cbn in Ha, Hb. unfold is_int32b in *. change (256 ^ Z.of_nat 4) with (2 ^ 32).
    rewrite be_reads by (apply Z.mod_pos_bound; lia). rewrite cmpInt_zero. assert (n mod 2 ^ 32 = n' mod 2 ^ 32 <-> n = n') as ->; [|done].
    split; [|by intros ->]. intros E. change (2 ^ 32) with 4294967296 in E. pose proof (Z.div_mod n 4294967296). pose proof (Z.div_mod n' 4294967296). lia.
  - cbn in Ha, Hb, Hsa, Hsb. apply andb_true_iff in Hsa as [Hl Hsa], Hsb as [Hl' Hsb]. rewrite compare_array, compareLists_zero, !valueKey_array. apply tagged_reads.
    apply (counted_reads l l' (fun l => mjoin (valueKey <$> l)) same); [done|done|]. intros El. apply keys_read_lists.
    apply (Forall2_all (fun b => has_type b t = true /\ sized b = true)); [done| |by rewrite list.Forall_forall; intros y Hy%list_elem_of_In; rewrite forallb_forall in Hb, Hsb; split; [apply Hb|apply Hsb]].
    rewrite list.Forall_forall in IH |- *. intros a Hin b [Hb' Hbs]. rewrite forallb_forall in Ha, Hsa. apply list_elem_of_In in Hin as Hin'. eapply IH; [done|by apply Ha|done|by apply Hsa|done].
  - rewrite has_type_struct in Ha, Hb. cbn in Hsa, Hsb. apply andb_true_iff in Hsa as [Hl Hsa], Hsb as [Hl' Hsb]. rewrite compare_struct, compareLists_zero, !valueKey_struct. apply tagged_reads.
    apply (counted_reads l l' (fun l => mjoin (valueKey <$> l)) same); [done|done|]. intros El. apply keys_read_lists. by eapply fields_read.
  - cbn in Ha, Hb, Hsa, Hsb. apply andb_true_iff in Hsa as [Hl Hsa], Hsb as [Hl' Hsb]. rewrite compare_map, compareEntries_zero, !valueKey_map. apply tagged_reads.
    apply (counted_reads l l' (fun l => mjoin ((fun kv => valueKey kv.1 ++ valueKey kv.2) <$> l)) (fun a b => same a.1 b.1 /\ same a.2 b.2)); [done|done|].
    intros El. apply keys_read_entries.
    apply (Forall2_all (fun b => (has_type b.1 t1 = true /\ has_type b.2 t2 = true) /\ sized b.1 && sized b.2 = true)); [done| |].
    + rewrite list.Forall_forall in IH |- *. intros [k v] Hin [k' v'] [[Hk' Hv'] [Hks' Hvs']%andb_prop]. cbn in *. apply IH in Hin as Hi. destruct Hi as [Hk Hv]. cbn in Hk, Hv.
      rewrite forallb_forall in Ha, Hsa. apply list_elem_of_In in Hin. apply Hsa in Hin as Hs. apply Ha in Hin. cbn in Hin, Hs. apply andb_true_iff in Hin as [Ht1 Ht2], Hs as [Hs1 Hs2].
      split; [by eapply Hk|by eapply Hv].
    + rewrite list.Forall_forall. intros kv Hin%list_elem_of_In. rewrite forallb_forall in Hb, Hsb. apply Hsb in Hin as Hs. apply Hb in Hin. split; [by apply andb_true_iff in Hin|done].
Qed.

(** ** Maps behave as maps *)

Lemma cmpKeys_okey a b t : has_type a t = true -> has_type b t = true -> cmpKeys a b = cmpBytes (okey a) (okey b).
Proof.
  intros Ha Hb. destruct (compare_agrees a b t Ha Hb) as (c & Ec & Hd). pose proof (decides_compare _ _ _ Hd) as E. destruct Hd as [Hc _].
  unfold cmpKeys. rewrite Ec. unfold cmpBytes, bytes_ltb. rewrite (bytes_compare_antisym (okey a) (okey b)), E. by destruct Hc as [->|[->| ->]].
Qed.

Section maps.
Context (t : sqlType).
Definition keyed (l : list (value * value)) : Prop := Forall (fun kv => has_type kv.1 t = true) l.
Definition leb_okey (a b : value * value) : bool := bytes_leb (okey a.1) (okey b.1).
Definition lt_okey (a b : value * value) : Prop := bytes_ltb (okey a.1) (okey b.1) = true.

Lemma isort_ext {A : Type} (leb1 leb2 : A -> A -> bool) (l : list A) : (forall x y, x ∈ l -> y ∈ l -> leb1 x y = leb2 x y) -> isort leb1 l = isort leb2 l.
Proof.
  assert (forall x l, (forall y, y ∈ l -> leb1 x y = leb2 x y) -> insert_sorted leb1 x l = insert_sorted leb2 x l) as Hi.
  { intros x m. induction m as [|y m IH]; intros Hm; [done|]. cbn. rewrite Hm by left. rewrite IH; [done|]. intros z Hz. apply Hm. by right. }
  induction l as [|x l IH]; intros H; [done|]. cbn [isort foldr]. fold (isort leb1 l) (isort leb2 l). rewrite IH by (intros; apply H; by right).
  apply Hi. intros y Hy%elem_of_isort. apply H; [left|by right].
Qed.

Lemma keyed_sort l : keyed l -> isort (fun a b => negb (mapLess b a)) l = isort leb_okey l.
Proof.
  intros Hl. unfold keyed in Hl; rewrite list.Forall_forall in Hl. apply isort_ext. intros x y Hx Hy. unfold mapLess, leb_okey.
  rewrite (cmpKeys_okey y.1 x.1 t) by (by apply Hl). unfold cmpBytes. rewrite bytes_leb_ltb.
  destruct (bytes_ltb (okey y.1) (okey x.1)); [done|]. by destruct (bytes_ltb (okey x.1) (okey y.1)).
Qed.

(** The entries of a key, and its last value. *)
Definition at_key (k : list Z) (l : list (value * value)) : list (value * value) := filter (fun kv => okey kv.1 = k) l.
Definition last_value (k : list Z) (l : list (value * value)) : option value := snd <$> last (at_key k l).

Lemma at_key_cons k kv l : at_key k (kv :: l) = if decide (okey kv.1 = k) then kv :: at_key k l else at_key k l.
Proof. unfold at_key. by rewrite filter_cons. Qed.

Lemma dedup_spec l : forall kv, keyed (kv :: l) -> StronglySorted (fun a b => leb_okey a b = true) (kv :: l) ->
  let m := dedupKeys kv l in
  keyed m /\ StronglySorted lt_okey m /\ (exists w m', m = (kv.1, w) :: m') /\ forall k, last_value k m = last_value k (kv :: l).
Proof.
  induction l as [|x l IH]; intros kv Hk Hs; cbn [dedupKeys].
  - split; [done|]. split; [by repeat constructor|]. split; [|done]. exists kv.2, []. by destruct kv.
  - apply Forall_cons in Hk as [Hkv Hk]. apply StronglySorted_inv in Hs as [Hs Hle]. pose proof (Forall_inv Hk) as Hx. cbn beta in Hx.
    rewrite (cmpKeys_okey x.1 kv.1 t) by done. destruct (Z.eqb_spec (cmpBytes (okey x.1) (okey kv.1)) 0) as [E|E].
    + apply cmpBytes_zero in E. destruct (IH (kv.1, x.2)) as (H1 & H2 & H3 & H4).
      * apply Forall_cons in Hk as [_ Hk]. by constructor.
      * apply StronglySorted_inv in Hs as [Hs Hx']. constructor; [done|]. eapply Forall_impl; [exact Hx'|]. intros y. unfold leb_okey. cbn. by rewrite E.
      * split; [done|]. split; [done|]. split; [done|]. intros k. rewrite H4. unfold last_value. rewrite !at_key_cons. cbn [fst]. rewrite E.
        destruct (decide (okey kv.1 = k)); [|done]. by destruct (at_key k l).
    + destruct (IH x Hk Hs) as (H1 & H2 & (w & m' & Em) & H4). split; [by constructor|]. split; [constructor; [done|]|].
      * apply Forall_cons in Hle as [Hle _]. assert (lt_okey kv x) as Hlt.
        { unfold leb_okey in Hle. unfold lt_okey. apply bytes_leb_cases in Hle as [?|Heq]; [done|]. destruct E. by apply cmpBytes_zero. }
        rewrite Em in H2 |- *. apply StronglySorted_inv in H2 as [_ H2]. constructor; [exact Hlt|]. eapply Forall_impl; [exact H2|].
        intros y Hy. unfold lt_okey in *. by eapply bytes_ltb_trans.
      * split; [exists kv.2, (dedupKeys x l); by destruct kv|]. intros k. unfold last_value in *. rewrite !(at_key_cons _ kv). destruct (decide (okey kv.1 = k)) as [Hkk|Hkk]; [|apply H4].
        specialize (H4 k). rewrite !last_cons. destruct (last (at_key k (dedupKeys x l))), (last (at_key k (x :: l))); cbn in *; congruence.
Qed.

Lemma sorted_split (k : list Z) m : StronglySorted lt_okey m ->
  exists m1 m2, m = m1 ++ m2 /\ Forall (fun kv => bytes_ltb (okey kv.1) k = true) m1 /\ Forall (fun kv => bytes_leb k (okey kv.1) = true) m2.
Proof.
  induction 1 as [|kv m Hm IH Hkv]; [by exists [], []|]. destruct (bytes_ltb (okey kv.1) k) eqn:E.
  - destruct IH as (m1 & m2 & -> & H1 & H2). exists (kv :: m1), m2. split; [done|]. split; [by constructor|done].
  - exists [], (kv :: m). split; [done|]. split; [constructor|]. assert (bytes_leb k (okey kv.1) = true) as Hk by (rewrite bytes_leb_ltb, E; done).
    constructor; [done|]. eapply Forall_impl; [exact Hkv|]. intros y Hy. unfold lt_okey in Hy. rewrite bytes_leb_cases. left. by eapply bytes_leb_ltb_trans.
Qed.

Lemma mapLookup_sorted m k : keyed m -> has_type k t = true -> StronglySorted lt_okey m -> mapLookup m k = last_value (okey k) m.
Proof.
  intros Hm Hk Hs. destruct (sorted_split (okey k) m Hs) as (m1 & m2 & -> & H1 & H2). unfold mapLookup.
  assert (forall i kv, (m1 ++ m2) !! i = Some kv -> cmpKeys kv.1 k = cmpBytes (okey kv.1) (okey k)) as Hc.
  { intros i kv Hi. apply (cmpKeys_okey _ _ t); [|done]. unfold keyed in Hm; rewrite list.Forall_forall in Hm. apply Hm. by eapply list_elem_of_lookup_2. }
  rewrite (sort_Search_spec _ _ (length m1)).
  - rewrite lookup_app_r, Nat.sub_diag by lia. unfold last_value, at_key. rewrite filter_app.
    assert (filter (fun kv => okey kv.1 = okey k) m1 = []) as ->.
    { apply elem_of_nil_inv. intros x [E Hx]%list_elem_of_filter. rewrite list.Forall_forall in H1. apply H1 in Hx. by rewrite E, bytes_ltb_irrefl in Hx. }
    cbn [app]. destruct m2 as [|kv m2]; [done|]. cbn [lookup list_lookup]. rewrite (Hc (length m1) kv) by (by rewrite lookup_app_r, Nat.sub_diag by lia).
    assert (StronglySorted lt_okey (kv :: m2)) as Hs2 by (by apply StronglySorted_app in Hs as (_ & _ & ?)).
    apply StronglySorted_inv in Hs2 as [_ Hs2]. apply Forall_cons in H2 as [Hle H2].
    assert (filter (fun kv => okey kv.1 = okey k) m2 = []) as Hm2.
    { apply elem_of_nil_inv. intros x [E Hx]%list_elem_of_filter. rewrite list.Forall_forall in Hs2. apply Hs2 in Hx. unfold lt_okey in Hx. rewrite E in Hx.
      pose proof (bytes_leb_ltb_trans _ _ _ Hle Hx) as Hbad. by rewrite bytes_ltb_irrefl in Hbad. }
    rewrite filter_cons, Hm2. destruct (Z.eqb_spec (cmpBytes (okey kv.1) (okey k)) 0) as [E|E]; rewrite cmpBytes_zero in E; by destruct (decide (okey kv.1 = okey k)).
  - rewrite length_app. lia.
  - intros i Hi. destruct (lookup_lt_is_Some_2 m1 i Hi) as [kv Ekv]. assert ((m1 ++ m2) !! i = Some kv) as E by (by apply lookup_app_l_Some).
    rewrite E, (Hc i kv E). rewrite list.Forall_forall in H1. specialize (H1 kv ltac:(by eapply list_elem_of_lookup_2)). unfold cmpBytes. by rewrite H1.
  - intros i Hi. rewrite length_app in Hi. destruct (lookup_lt_is_Some_2 m2 (i - length m1) ltac:(lia)) as [kv Ekv].
    assert ((m1 ++ m2) !! i = Some kv) as E by (by rewrite lookup_app_r by lia). rewrite E, (Hc i kv E).
    rewrite list.Forall_forall in H2. specialize (H2 kv ltac:(by eapply list_elem_of_lookup_2)). rewrite bytes_leb_ltb in H2. unfold cmpBytes.
    apply negb_true_iff in H2. rewrite H2. by destruct (bytes_ltb (okey k) (okey kv.1)).
Qed.
End maps.

(** C25: Values of one type are totally ordered, and grouping agrees with the
    order: [compareValues] never panics on them, answers -1, 0 or 1, is
    antisymmetric and transitive, and answers 0 exactly when the keys by which
    GROUP BY and DISTINCT compare values are equal, all lengths being machine
    integers. *)
Theorem values_ordered_and_grouped (t : sqlType) :
  (forall a b, has_type a t = true -> has_type b t = true ->
     exists c, compareValues a b = Ret c /\ (c = -1 \/ c = 0 \/ c = 1) /\ compareValues b a = Ret (- c) /\
       (sized a = true -> sized b = true -> c = 0 <-> valueKey a = valueKey b)) /\
  (forall a b d x y, has_type a t = true -> has_type b t = true -> has_type d t = true ->
     compareValues a b = Ret x -> compareValues b d = Ret y -> x <= 0 -> y <= 0 ->
     exists z, compareValues a d = Ret z /\ z <= 0 /\ (z = 0 -> x = 0 /\ y = 0)).
Proof.
  assert (forall a b, has_type a t = true -> has_type b t = true -> compareValues a b = Ret (cmpBytes (okey a) (okey b))) as Hcmp.
  { intros a b Ha Hb. destruct (compare_agrees a b t Ha Hb) as (c & Ec & _). pose proof (cmpKeys_okey a b t Ha Hb) as E. unfold cmpKeys in E. rewrite Ec in E. congruence. }
  split.
  - intros a b Ha Hb. rewrite (Hcmp a b), (Hcmp b a) by done. eexists. split; [done|]. split_and!.
    + unfold cmpBytes. repeat case_match; auto.
    + f_equal. unfold cmpBytes, bytes_ltb. rewrite (bytes_compare_antisym (okey a) (okey b)). by destruct (bytes_compare (okey a) (okey b)).
    + intros Hsa Hsb. pose proof (key_reads_typed a b t Ha Hb Hsa Hsb [] []) as Hk. rewrite !app_nil_r in Hk. unfold same in Hk. rewrite (Hcmp a b), same_iff in Hk by done. tauto.
  - intros a b d x y Ha Hb Hd. rewrite !Hcmp by done. intros [= <-] [= <-] Hx Hy. eexists. split; [done|].
    assert (forall p q, cmpBytes p q <= 0 <-> bytes_leb p q = true) as Hle.
    { intros p q. unfold cmpBytes. rewrite bytes_leb_ltb. destruct (bytes_ltb p q) eqn:E1; [|by destruct (bytes_ltb q p)].
      assert (bytes_ltb q p = false) as ->; [|done]. unfold bytes_ltb in *. rewrite (bytes_compare_antisym p q). by destruct (bytes_compare p q). }
    rewrite Hle in Hx, Hy. split; [apply Hle; by eapply bytes_leb_trans|]. rewrite !cmpBytes_zero. intros E. rewrite E in Hx.
    pose proof (bytes_leb_antisym _ _ Hx Hy). by split; congruence.
Qed.

(** A map is a map: a lookup returns the last value given for the key, or
    nothing when there is none. *)
Theorem newMap_lookup (t : sqlType) (entries : list (value * value)) (k : value) :
  keyed t entries -> has_type k t = true ->
  exists m, newMap entries = VMap m /\ StronglySorted lt_okey m /\ mapLookup m k = last_value (okey k) entries.
Proof.
  intros He Hk. unfold newMap. rewrite (keyed_sort t) by done. eexists. split; [done|].
  assert (forall x y, leb_okey x y = true \/ leb_okey y x = true) as Htot by (intros; apply bytes_leb_total).
  assert (forall x y z, leb_okey x y = true -> leb_okey y z = true -> leb_okey x z = true) as Htr by (intros x y z; apply bytes_leb_trans).
  pose proof (isort_sorted leb_okey Htot Htr entries) as Hs. pose proof (isort_stable leb_okey (fun kv => okey kv.1 = okey k) entries) as Hst.
  assert (keyed t (isort leb_okey entries)) as Hks by (unfold keyed in *; by rewrite isort_perm).
  destruct (isort leb_okey entries) as [|kv l].
  - split; [constructor|]. unfold last_value, at_key. rewrite <- Hst; [done|]. intros y z Hy Hz. unfold leb_okey. rewrite Hy, Hz. apply bytes_leb_refl.
  - destruct (dedup_spec t l kv Hks Hs) as (H1 & H2 & _ & H4). split; [done|]. rewrite (mapLookup_sorted t) by done. rewrite H4.
    unfold last_value, at_key. rewrite Hst; [done|]. intros y z Hy Hz. unfold leb_okey. rewrite Hy, Hz. apply bytes_leb_refl.
Qed.

(** Across types the order is not transitive: an integer is compared with a
    float after rounding, so two integers can both equal the same float. *)
Lemma mixed_order :
  compareValues (VInt 9007199254740993) (VFloat (float_of_int 9007199254740992)) = Ret 0 /\
  compareValues (VFloat (float_of_int 9007199254740992)) (VInt 9007199254740992) = Ret 0 /\
  compareValues (VInt 9007199254740993) (VInt 9007199254740992) = Ret 1.
Proof. by vm_compute. Qed.
