(* ===== verification/SqlFloat.v ===== *)
(** * Floating-point results are floating-point numbers

    The operations of [SpecFloat] that model Go's [float64] arithmetic round to a
    mantissa and an exponent of the format, for any format: [round_aux_valid].  The
    conversions between [float64] and [float32] are here too. *)

From S2P Require Import Prelude SqlValues.
From stdpp Require Import base list.
From Stdlib Require Import ZArith Lia.
From Stdlib Require Import Floats.SpecFloat.

#[local] Open Scope Z_scope.

Section digits.

Lemma Zdigits2_bound m : 0 < m -> 2 ^ (Zdigits2 m - 1) <= m < 2 ^ Zdigits2 m.
Proof. destruct m as [|p|p]; intros Hm; [lia| |lia]. apply digits2_pos_bound. Qed.
Lemma Zdigits2_pos m : 0 < m -> 0 < Zdigits2 m.
Proof. destruct m; cbn; lia. Qed.
Lemma Zdigits2_nonneg m : 0 <= Zdigits2 m.
Proof. destruct m; cbn; lia. Qed.
Lemma pow2_lt a b : 0 <= b -> 2 ^ a < 2 ^ b -> a < b.
Proof. intros Hb H. apply (Z.pow_lt_mono_r_iff 2); lia. Qed.
Lemma Zdigits2_mono m m' : 0 <= m <= m' -> Zdigits2 m <= Zdigits2 m'.
Proof.
  intros Hm. destruct (Z.eq_dec m 0) as [->|Hm0]; [apply Zdigits2_nonneg|].
  pose proof (Zdigits2_bound m ltac:(lia)). pose proof (Zdigits2_bound m' ltac:(lia)). pose proof (Zdigits2_nonneg m').
  assert (Zdigits2 m - 1 < Zdigits2 m') by (apply pow2_lt; lia). lia.
Qed.
Lemma Zdigits2_unique m d : 0 <= d -> 2 ^ (d - 1) <= m < 2 ^ d -> 0 < m -> Zdigits2 m = d.
Proof.
  intros Hd Hm H0. pose proof (Zdigits2_bound m H0). pose proof (Zdigits2_pos m H0).
  assert (Zdigits2 m - 1 < d) by (apply pow2_lt; lia). assert (d - 1 < Zdigits2 m) by (apply pow2_lt; lia). lia.
Qed.
Lemma Zdigits2_div m n : 0 < m -> 0 <= n -> 0 < m / 2 ^ n -> Zdigits2 (m / 2 ^ n) = Zdigits2 m - n.
Proof.
  intros Hm Hn Hq. pose proof (Zdigits2_bound m Hm) as [Hlo Hhi]. assert (0 < 2 ^ n) by (apply Z.pow_pos_nonneg; lia).
  assert (n < Zdigits2 m) as Hlt.
  { apply pow2_lt; [pose proof (Zdigits2_pos m Hm); lia|]. apply Z.le_lt_trans with m; [|done].
    pose proof (Z.mul_div_le m (2 ^ n)). nia. }
  apply Zdigits2_unique; [lia| |done]. split.
  - apply Z.div_le_lower_bound; [done|]. rewrite <- Z.pow_add_r by lia. by replace (n + (Zdigits2 m - n - 1)) with (Zdigits2 m - 1) by lia.
  - apply Z.div_lt_upper_bound; [done|]. rewrite <- Z.pow_add_r by lia. by replace (n + (Zdigits2 m - n)) with (Zdigits2 m) by lia.
Qed.
Lemma Zdigits2_div_zero m n : 0 <= m -> 0 <= n -> m / 2 ^ n = 0 -> Zdigits2 m <= n.
Proof.
  intros Hm Hn Hq. destruct (Z.eq_dec m 0) as [->|]; [done|]. assert (0 < 2 ^ n) by (apply Z.pow_pos_nonneg; lia).
  pose proof (Zdigits2_bound m ltac:(lia)). apply Z.div_small_iff in Hq; [|lia]. assert (Zdigits2 m - 1 < n); [|lia]. apply pow2_lt; lia.
Qed.
Lemma Zdigits2_mul_pow m k : 0 < m -> 0 <= k -> Zdigits2 (m * 2 ^ k) = Zdigits2 m + k.
Proof.
  intros Hm Hk. pose proof (Zdigits2_bound m Hm). pose proof (Zdigits2_pos m Hm). assert (0 < 2 ^ k) by (apply Z.pow_pos_nonneg; lia).
  apply Zdigits2_unique; [lia| |nia]. replace (Zdigits2 m + k - 1) with (Zdigits2 m - 1 + k) by lia. rewrite !Z.pow_add_r by lia. nia.
Qed.
Lemma Zdigits2_mul m n : 0 < m -> 0 < n -> Zdigits2 m + Zdigits2 n - 1 <= Zdigits2 (m * n).
Proof.
  intros Hm Hn. pose proof (Zdigits2_bound m Hm). pose proof (Zdigits2_bound n Hn). pose proof (Zdigits2_bound (m * n) ltac:(nia)).
  pose proof (Zdigits2_pos m Hm). pose proof (Zdigits2_pos n Hn).
  assert (2 ^ (Zdigits2 m - 1 + (Zdigits2 n - 1)) <= m * n) by (rewrite Z.pow_add_r by lia; nia).
  assert (Zdigits2 m - 1 + (Zdigits2 n - 1) < Zdigits2 (m * n)); [|lia]. apply pow2_lt; [apply Zdigits2_nonneg|lia].
Qed.

(** A shift by one, and by many, keeps the quotient. *)
Lemma shr_1_m mrs : 0 <= shr_m mrs -> shr_m (shr_1 mrs) = shr_m mrs / 2.
Proof.
  destruct mrs as [m r s]. cbn. intros Hm. destruct m as [|[p|p|]|p]; cbn; try done; try lia.
  - apply (Z.div_unique _ _ _ 1); lia.
  - apply (Z.div_unique _ _ _ 0); lia.
Qed.
Lemma iter_shr_m p : forall mrs, 0 <= shr_m mrs -> shr_m (iter_pos shr_1 p mrs) = shr_m mrs / 2 ^ Z.pos p.
Proof.
  assert (forall a b, 0 <= a -> 0 < b -> 0 <= a / b) as Hpos by (intros; by apply Z.div_pos).
  induction p as [p IH|p IH|]; intros mrs Hm; cbn [iter_pos].
  - assert (0 < 2 ^ Z.pos p) by (apply Z.pow_pos_nonneg; lia). pose proof (shr_1_m mrs Hm) as E. pose proof (Hpos (shr_m mrs) 2 Hm ltac:(lia)).
    rewrite IH; rewrite IH; rewrite ?E; try (by try apply Hpos). rewrite !Z.div_div by lia. f_equal.
    replace (Z.pos p~1) with (1 + (Z.pos p + Z.pos p)) by lia. rewrite !Z.pow_add_r by lia. lia.
  - assert (0 < 2 ^ Z.pos p) by (apply Z.pow_pos_nonneg; lia). rewrite IH; rewrite IH; try (by try apply Hpos). rewrite !Z.div_div by lia. f_equal.
    replace (Z.pos p~0) with (Z.pos p + Z.pos p) by lia. rewrite !Z.pow_add_r by lia. lia.
  - rewrite shr_1_m by done. done.
Qed.
Lemma shr_record_of_loc_m m l : shr_m (shr_record_of_loc m l) = m.
Proof. by destruct l as [|[]]. Qed.

End digits.

(** ** Rounding *)

Section format.
Context (prec emax : Z).
Context (Hprec : 0 < prec) (Hemin : emin prec emax <= 0).
Abbreviation fexp := (fexp prec emax).
Abbreviation emin := (emin prec emax).

Lemma fexp_mono a b : a <= b -> fexp a <= fexp b.
Proof. unfold SpecFloat.fexp. change (IntDef.Z.max ?x ?y) with (Z.max x y). lia. Qed.
Lemma fexp_max a : fexp a = Z.max (a - prec) emin.
Proof. done. Qed.

Lemma shr_fexp_spec m e l : 0 <= m -> e <= fexp (Zdigits2 m + e) ->
  shr_m (shr_fexp prec emax m e l).1 = m / 2 ^ (fexp (Zdigits2 m + e) - e) /\ (shr_fexp prec emax m e l).2 = fexp (Zdigits2 m + e).
Proof.
  intros Hm He. unfold shr_fexp, shr. change (IntDef.Z.add ?a ?b) with (Z.add a b). change (IntDef.Z.sub ?a ?b) with (Z.sub a b).
  destruct (fexp (Zdigits2 m + e) - e) as [|p|p] eqn:E; cbn [fst snd]; [|split|lia].
  - rewrite shr_record_of_loc_m, Z.pow_0_r, Z.div_1_r. split; [done|lia].
  - rewrite iter_shr_m; by rewrite shr_record_of_loc_m.
  - rewrite <- E. lia.
Qed.

(** A mantissa shifted to its exponent has the exponent of its digits. *)
Lemma shifted_canonical m e : 0 <= m -> e <= fexp (Zdigits2 m + e) ->
  let e' := fexp (Zdigits2 m + e) in let m' := m / 2 ^ (e' - e) in
  (0 < m' -> fexp (Zdigits2 m' + e') = e') /\ (m' = 0 -> e' = emin).
Proof.
  intros Hm He e' m'. assert (0 <= m') by (apply Z.div_pos; [done|apply Z.pow_pos_nonneg; lia]). split; intros Hm'.
  - assert (0 < m) by (destruct (Z.eq_dec m 0) as [->|]; [|lia]; subst m'; rewrite Z.div_0_l in Hm'; [lia|]; apply Z.pow_nonzero; lia).
    unfold m'. rewrite Zdigits2_div by (subst e' m'; lia). unfold e'. f_equal. lia.
  - apply Zdigits2_div_zero in Hm'; [|done|subst e'; lia]. unfold e' in *. rewrite fexp_max in *. lia.
Qed.

Lemma round_cases m l : round_nearest_even m l = m \/ round_nearest_even m l = m + 1.
Proof. destruct l as [|[]]; cbn; auto. destruct (Z.even m); auto. Qed.

(** Rounding yields a number of the format. *)
Lemma round_aux_valid sx mx ex lx : 0 <= mx -> ex <= fexp (Zdigits2 mx + ex) -> valid_binary prec emax (binary_round_aux prec emax sx mx ex lx) = true.
Proof.
  intros Hm He. unfold binary_round_aux. destruct (shr_fexp prec emax mx ex lx) as [mrs' e'] eqn:E1.
  destruct (shr_fexp_spec mx ex lx Hm He) as [Em Ee]. rewrite E1 in Em, Ee. cbn [fst snd] in Em, Ee.
  destruct (shifted_canonical mx ex Hm He) as [Hc Hz]. cbv zeta in Hc, Hz. rewrite <- Em, <- Ee in Hc, Hz.
  assert (0 <= shr_m mrs') as Hm' by (rewrite Em; apply Z.div_pos; [done|apply Z.pow_pos_nonneg; lia]).
  set (m1 := round_nearest_even (shr_m mrs') (loc_of_shr_record mrs')). assert (shr_m mrs' <= m1) as Hle by (destruct (round_cases (shr_m mrs') (loc_of_shr_record mrs')) as [E|E]; unfold m1; lia).
  assert (e' <= fexp (Zdigits2 m1 + e')) as He1.
  { destruct (Z.eq_dec (shr_m mrs') 0) as [E0|E0]; [rewrite (Hz E0), fexp_max; lia|].
    rewrite <- Hc at 1 by lia. apply fexp_mono. pose proof (Zdigits2_mono (shr_m mrs') m1 ltac:(lia)). lia. }
  destruct (shr_fexp prec emax m1 e' loc_Exact) as [mrs'' e''] eqn:E2.
  destruct (shr_fexp_spec m1 e' loc_Exact ltac:(lia) He1) as [Em2 Ee2]. rewrite E2 in Em2, Ee2. cbn [fst snd] in Em2, Ee2.
  destruct (shifted_canonical m1 e' ltac:(lia) He1) as [Hc2 _]. cbv zeta in Hc2. rewrite <- Em2, <- Ee2 in Hc2.
  destruct (shr_m mrs'') as [|p|p] eqn:Ep; [done| |done]. destruct (IntDef.Z.leb e'' (IntDef.Z.sub emax prec)) eqn:El; [|done].
  cbn [valid_binary]. unfold bounded, canonical_mantissa. rewrite El, andb_true_r. apply Z.eqb_eq. exact (Hc2 ltac:(lia)).
Qed.

Lemma iter_xO m d : Z.pos (Pos.iter xO m d) = Z.pos m * 2 ^ Z.pos d.
Proof.
  revert m. induction d as [|d IH] using Pos.peano_ind; intros m; [cbn; lia|]. rewrite Pos.iter_succ, Pos2Z.inj_succ, Z.pow_succ_r by lia.
  rewrite Pos2Z.inj_xO, IH. lia.
Qed.

(** The mantissa scaled up to the exponent of its digits, or left alone. *)
Lemma shl_align_spec mx ex e' : exists k, 0 <= k /\ k = Z.max 0 (ex - e') /\ Z.pos (shl_align mx ex e').1 = Z.pos mx * 2 ^ k /\ (shl_align mx ex e').2 = ex - k.
Proof.
  unfold shl_align. change (IntDef.Z.sub ?a ?b) with (Z.sub a b). destruct (e' - ex) as [|p|p] eqn:E; cbn [fst snd].
  - exists 0. split_and!; lia.
  - exists 0. split_and!; lia.
  - exists (Z.pos p). split_and!; try lia.  apply iter_xO.
Qed.

Lemma round_valid sx mx ex : valid_binary prec emax (binary_round prec emax sx mx ex) = true.
Proof.
  unfold binary_round. change (IntDef.Z.add ?a ?b) with (Z.add a b). set (e' := fexp (Z.pos (digits2_pos mx) + ex)).
  destruct (shl_align_spec mx ex e') as (k & Hk & Ek & E1 & E2). destruct (shl_align mx ex e') as [mz ez]. cbn [fst snd] in E1, E2.
  apply round_aux_valid; [lia|]. rewrite E1, Zdigits2_mul_pow, E2 by lia. cbn [Zdigits2].
  replace (Z.pos (digits2_pos mx) + k + (ex - k)) with (Z.pos (digits2_pos mx) + ex) by lia. fold e'. lia.
Qed.
Lemma normalize_valid m e s : valid_binary prec emax (binary_normalize prec emax m e s) = true.
Proof. destruct m; [done|apply round_valid|apply round_valid]. Qed.

Lemma SFadd_valid x y : valid_binary prec emax x = true -> valid_binary prec emax y = true -> valid_binary prec emax (SFadd prec emax x y) = true.
Proof. intros Hx Hy. destruct x as [[]|[]| |], y as [[]|[]| |]; try done; cbn; apply normalize_valid. Qed.
Lemma SFsub_valid x y : valid_binary prec emax x = true -> valid_binary prec emax y = true -> valid_binary prec emax (SFsub prec emax x y) = true.
Proof. intros Hx Hy. destruct x as [[]|[]| |], y as [[]|[]| |]; try done; cbn; apply normalize_valid. Qed.
Lemma SFopp_valid x : valid_binary prec emax x = true -> valid_binary prec emax (SFopp x) = true.
Proof. by destruct x. Qed.

Lemma bounded_exponent m e : bounded prec emax m e = true -> e = emin \/ Z.pos (digits2_pos m) = prec.
Proof.
  unfold bounded, canonical_mantissa. intros [Hc _]%andb_prop. apply Z.eqb_eq in Hc. change (IntDef.Z.add ?a ?b) with (Z.add a b) in Hc. rewrite fexp_max in Hc. lia.
Qed.
Lemma SFmul_valid x y : valid_binary prec emax x = true -> valid_binary prec emax y = true -> valid_binary prec emax (SFmul prec emax x y) = true.
Proof.
  intros Hx Hy. destruct x as [|[]| |sx mx ex], y as [|[]| |sy my ey]; try done. cbn [SFmul]. apply round_aux_valid; [lia|].
  change (Z.pos (PosDef.Pos.mul mx my)) with (Z.pos mx * Z.pos my). change (IntDef.Z.add ex ey) with (ex + ey).
  pose proof (Zdigits2_mul (Z.pos mx) (Z.pos my) ltac:(lia) ltac:(lia)) as Hd. cbn [Zdigits2] in Hd. rewrite fexp_max.
  apply bounded_exponent in Hx, Hy. lia.
Qed.

Lemma SFdiv_valid x y : valid_binary prec emax x = true -> valid_binary prec emax y = true -> valid_binary prec emax (SFdiv prec emax x y) = true.
Proof.
  intros Hx Hy. destruct x as [|[]| |sx mx ex], y as [|[]| |sy my ey]; try done. cbn [SFdiv]. unfold SFdiv_core_binary. cbn [Zdigits2].
  change (IntDef.Z.add ?a ?b) with (Z.add a b). change (IntDef.Z.sub ?a ?b) with (Z.sub a b). change (IntDef.Z.min ?a ?b) with (Z.min a b).
  set (d1 := Z.pos (digits2_pos mx)). set (d2 := Z.pos (digits2_pos my)). set (e' := Z.min (fexp (d1 + ex - (d2 + ey))) (ex - ey)). set (s := ex - ey - e').
  assert (0 <= s) as Hs by lia.
  assert (match s with 0 => Z.pos mx | Z.pos _ => IntDef.Z.shiftl (Z.pos mx) s | Z.neg _ => 0 end = Z.pos mx * 2 ^ s) as ->.
  { destruct s as [|p|p]; [lia| |lia]. change (IntDef.Z.shiftl (Z.pos mx) (Z.pos p)) with (Z.shiftl (Z.pos mx) (Z.pos p)). by rewrite Z.shiftl_mul_pow2. }
  change IntDef.Z.div_eucl with Z.div_eucl. destruct (Z.div_eucl (Z.pos mx * 2 ^ s) (Z.pos my)) as [q r] eqn:E.
  assert (q = Z.pos mx * 2 ^ s / Z.pos my) as Hq by (unfold Z.div; by rewrite E).
  assert (0 < 2 ^ s) by (apply Z.pow_pos_nonneg; lia).
  apply round_aux_valid; [rewrite Hq; apply Z.div_pos; nia|]. rewrite fexp_max.
  (* the quotient has at least the difference of the digits *)
  assert (d1 + s - d2 <= Zdigits2 q) as Hd.
  { pose proof (digits2_pos_bound mx). pose proof (digits2_pos_bound my). fold d1 d2 in H0, H1.
    assert (0 <= q) by (rewrite Hq; apply Z.div_pos; nia).
    assert (2 ^ (d1 + s - 1) <= Z.pos mx * 2 ^ s) by (replace (d1 + s - 1) with (d1 - 1 + s) by lia; rewrite Z.pow_add_r by (unfold d1; lia); nia).
    pose proof (Z.div_mod (Z.pos mx * 2 ^ s) (Z.pos my) ltac:(lia)) as Hdm. pose proof (Z.mod_pos_bound (Z.pos mx * 2 ^ s) (Z.pos my) ltac:(lia)). rewrite <- Hq in Hdm.
    assert (q < 2 ^ Zdigits2 q) by (destruct (Z.eq_dec q 0) as [->|]; [cbn; lia|apply Zdigits2_bound; lia]).
    assert (2 ^ (d1 + s - 1) < 2 ^ (Zdigits2 q + d2)) as Hlt; [|apply pow2_lt in Hlt; [lia|pose proof (Zdigits2_nonneg q); unfold d2; lia]].
    rewrite Z.pow_add_r by (apply Zdigits2_nonneg || (unfold d2; lia)). nia. }
  assert (e' <= Z.max (d1 + ex - (d2 + ey) - prec) emin) by (unfold e'; rewrite fexp_max; lia). lia.
Qed.

End format.

(** ** [float64] and [float32] *)

Abbreviation valid64 := (valid_binary 53 1024).
Definition float64_add := SFadd 53 1024.
Definition float64_sub := SFsub 53 1024.
Definition float64_mul := SFmul 53 1024.
Definition float64_div := SFdiv 53 1024.

(** [float32(f)] as a [float64]: rounded to 24 bits, then exactly again. *)
Definition float32_of (f : spec_float) : spec_float :=
  match f with
  | S754_finite s m e => match binary_round 24 128 s m e with S754_finite s m e => binary_round 53 1024 s m e | g => g end
  | g => g
  end.

Lemma float64_add_valid x y : valid64 x = true -> valid64 y = true -> valid64 (float64_add x y) = true.
Proof. by apply SFadd_valid. Qed.
Lemma float64_sub_valid x y : valid64 x = true -> valid64 y = true -> valid64 (float64_sub x y) = true.
Proof. by apply SFsub_valid. Qed.
Lemma float64_mul_valid x y : valid64 x = true -> valid64 y = true -> valid64 (float64_mul x y) = true.
Proof. by apply SFmul_valid. Qed.
Lemma float64_div_valid x y : valid64 x = true -> valid64 y = true -> valid64 (float64_div x y) = true.
Proof. by apply SFdiv_valid. Qed.
Lemma float_of_int_valid n : valid64 (float_of_int n) = true.
Proof. by apply normalize_valid. Qed.
Lemma float32_of_valid f : valid64 f = true -> valid64 (float32_of f) = true.
Proof. destruct f as [s|s| |s m e]; try done. intros _. cbn [float32_of]. destruct (binary_round 24 128 s m e); try done. by apply round_valid. Qed.
#[export] Hint Resolve float64_add_valid float64_sub_valid float64_mul_valid float64_div_valid float_of_int_valid float32_of_valid SFopp_valid : lbt.
