(* ===== verification/SqlArith.v ===== *)
(** * Checked arithmetic of the query engine

    The arithmetic helpers of [internal/gsql/ops.go] and the bodies of the unary,
    bitwise and shift operators: 64-bit integers with overflow detection, floats whose
    overflow is an error unless an operand was not finite, and byte strings as bit
    vectors. *)

From S2P Require Import Prelude Rows SqlValues SqlFloat.
From stdpp Require Import base list.
From Stdlib Require Import ZArith Lia.
From Stdlib Require Import Floats.SpecFloat.

#[local] Open Scope Z_scope.

(** ** Integers *)

Definition addInt64 (a b : Z) : outcome Z :=
  let c := wrap64 (a + b) in if Z.land (Z.lxor a c) (Z.lxor b c) <? 0 then Err OutOfRange else Ret c.
Definition subInt64 (a b : Z) : outcome Z :=
  let c := wrap64 (a - b) in if Z.land (Z.lxor a b) (Z.lxor a c) <? 0 then Err OutOfRange else Ret c.
(** [c / b] truncates and wraps around. *)
Definition mulInt64 (a b : Z) : outcome Z :=
  if (a =? 0) || (b =? 0) then Ret 0
  else
    let c := wrap64 (a * b) in
    if negb (wrap64 (Z.quot c b) =? a) || ((a =? -1) && (b =? int64_min)) || ((b =? -1) && (a =? int64_min)) then Err OutOfRange
    else Ret c.
Definition negInt64 (v : Z) : outcome Z := if v =? int64_min then Err OutOfRange else Ret (wrap64 (- v)).

(** ** Floats *)

Definition checkFloat (r : spec_float) (inputs : list spec_float) : outcome spec_float :=
  if IsInf r || IsNaN r then if existsb (fun x => IsInf x || IsNaN x) inputs then Ret r else Err OutOfRange
  else Ret r.

(** [math.Round]: half away from zero; [None] for what is not finite. *)
Definition math_Round (f : spec_float) : option Z :=
  match f with
  | S754_zero _ => Some 0
  | S754_finite s m e =>
      let n := if 0 <=? e then Z.pos m * 2 ^ e else (Z.pos m + 2 ^ (- e - 1)) / 2 ^ (- e) in Some (if s then - n else n)
  | _ => None
  end.
Definition floatToInt64 (f : spec_float) : outcome Z :=
  match math_Round f with
  | None => Err OutOfRange
  | Some r => if (r <? -9223372036854775808) || (9223372036854775808 <=? r) then Err OutOfRange else Ret r
  end.

(** ** Bits *)

(** The operators [&], [|] and [^]. *)
Inductive bitOp : Type := BitAnd | BitOr | BitXor.
Definition bitFn (op : bitOp) : Z -> Z -> Z := match op with BitAnd => Z.land | BitOr => Z.lor | BitXor => Z.lxor end.

Definition bitwiseBytes (op : bitOp) (x y : bytes) : outcome bytes :=
  if negb (Nat.eqb (length x) (length y)) then Err OutOfRange else Ret (zip_with (bitFn op) x y).
Definition bitnotBytes (x : bytes) : bytes := (fun c => Z.lxor c 255) <$> x.

Definition shiftInt (left : bool) (x n : Z) : outcome Z :=
  if n <? 0 then Err OutOfRange
  else if 64 <=? n then Ret 0
  else Ret (wrap64 (if left then Z.shiftl (to_u64 x) n mod two64 else Z.shiftr (to_u64 x) n)).

(** Bit [i] of a byte string, the highest of the first byte being bit 0. *)
Definition bitAt (x : bytes) (i : Z) : bool :=
  match x !! Z.to_nat (i / 8) with Some c => Z.testbit c (7 - i mod 8) | None => false end.
Definition shiftBytes (left : bool) (x : bytes) (n : Z) : outcome bytes :=
  if n <? 0 then Err OutOfRange
  else
    let total := Z.of_nat (length x) * 8 in
    let byte (j : nat) : Z :=
      foldl (fun acc k =>
        let bit := Z.of_nat j * 8 + k in
        let src := wrap64 (if left then bit + n else bit - n) in
        if (src <? 0) || (total <=? src) then acc else if bitAt x src then Z.lor acc (Z.shiftr 128 k) else acc) 0 [0; 1; 2; 3; 4; 5; 6; 7] in
    Ret (byte <$> seq 0 (length x)).

(** ** Overflow is detected exactly *)

Lemma wrap64_int64 z : is_int64 (wrap64 z).
Proof. unfold_words. pose proof (Z.mod_pos_bound (z + 9223372036854775808) 18446744073709551616). lia. Qed.
Lemma wrap64_cong z : exists k, wrap64 z = z + k * two64.
Proof.
  unfold_words. exists (- ((z + 9223372036854775808) / 18446744073709551616)).
  pose proof (Z.div_mod (z + 9223372036854775808) 18446744073709551616). lia.
Qed.
(** The sign test on the bits of the operands and the result. *)
Lemma sign_land a b : (Z.land a b <? 0) = (a <? 0) && (b <? 0).
Proof.
  destruct (Z.ltb_spec (Z.land a b) 0) as [H|H]; [apply Z.land_neg in H as [Ha Hb]|].
  - by rewrite !(proj2 (Z.ltb_lt _ _)) by done.
  - apply Z.land_nonneg in H. destruct H; [rewrite (proj2 (Z.ltb_ge a 0))|rewrite (proj2 (Z.ltb_ge b 0)), andb_false_r]; done.
Qed.
Lemma sign_lxor a b : (Z.lxor a b <? 0) = xorb (a <? 0) (b <? 0).
Proof.
  destruct (Z.ltb_spec (Z.lxor a b) 0) as [H|H].
  - destruct (Z.ltb_spec a 0), (Z.ltb_spec b 0); try done; exfalso; apply Z.lt_nge in H; apply H; apply Z.lxor_nonneg; lia.
  - apply Z.lxor_nonneg in H. destruct (Z.ltb_spec a 0), (Z.ltb_spec b 0); try done; lia.
Qed.

Definition exact64 (z : Z) : outcome Z := if bool_decide (is_int64 z) then Ret z else Err OutOfRange.

Lemma addInt64_exact a b : is_int64 a -> is_int64 b -> addInt64 a b = exact64 (a + b).
Proof.
  intros Ha Hb. unfold addInt64, exact64. rewrite sign_land, !sign_lxor. destruct (wrap64_cong (a + b)) as [k Hk]. pose proof (wrap64_int64 (a + b)) as Hw.
  case_bool_decide as Hr.
  - rewrite wrap64_id by done. unfold_words. destruct (Z.ltb_spec a 0), (Z.ltb_spec b 0), (Z.ltb_spec (a + b) 0); cbn; try done; lia.
  - unfold_words. rewrite Hk in *. destruct (Z.ltb_spec a 0), (Z.ltb_spec b 0), (Z.ltb_spec (a + b + k * 18446744073709551616) 0); cbn; try done; lia.
Qed.
Lemma subInt64_exact a b : is_int64 a -> is_int64 b -> subInt64 a b = exact64 (a - b).
Proof.
  intros Ha Hb. unfold subInt64, exact64. rewrite sign_land, !sign_lxor. destruct (wrap64_cong (a - b)) as [k Hk]. pose proof (wrap64_int64 (a - b)) as Hw.
  case_bool_decide as Hr.
  - rewrite wrap64_id by done. unfold_words. destruct (Z.ltb_spec a 0), (Z.ltb_spec b 0), (Z.ltb_spec (a - b) 0); cbn; try done; lia.
  - unfold_words. rewrite Hk in *. destruct (Z.ltb_spec a 0), (Z.ltb_spec b 0), (Z.ltb_spec (a - b + k * 18446744073709551616) 0); cbn; try done; lia.
Qed.
Lemma quot_bounds c b : b <> 0 -> Z.abs (Z.quot c b * b) <= Z.abs c /\ (0 <= c -> 0 <= Z.quot c b * b) /\ (c <= 0 -> Z.quot c b * b <= 0).
Proof.
  intros Hb. pose proof (Z.quot_rem c b Hb) as E. destruct (Z.le_ge_cases 0 c) as [Hc|Hc].
  - pose proof (Z.rem_nonneg c b Hb Hc). pose proof (Z.rem_bound_abs c b Hb).
    assert (0 <= Z.quot c b * b). { rewrite <- (Z.abs_eq c) by done. destruct (Z.le_ge_cases 0 b).
      - pose proof (Z.quot_pos (Z.abs c) b ltac:(lia) ltac:(lia)). nia.
      - rewrite <- (Z.opp_involutive b), Z.quot_opp_r by lia. pose proof (Z.quot_pos (Z.abs c) (- b) ltac:(lia) ltac:(lia)). nia. }
    lia.
  - pose proof (Z.rem_nonpos c b Hb ltac:(lia)).
    assert (Z.quot c b * b <= 0). { rewrite <- (Z.opp_involutive c), Z.quot_opp_l by lia. destruct (Z.le_ge_cases 0 b).
      - pose proof (Z.quot_pos (- c) b ltac:(lia) ltac:(lia)). nia.
      - rewrite <- (Z.opp_involutive b), Z.quot_opp_r by lia. pose proof (Z.quot_pos (- c) (- b) ltac:(lia) ltac:(lia)). nia. }
    lia.
Qed.
Lemma mulInt64_exact a b : is_int64 a -> is_int64 b -> mulInt64 a b = exact64 (a * b).
Proof.
  intros Ha Hb. unfold mulInt64, exact64. destruct (Z.eqb_spec a 0) as [->|Ha0]; [done|]. destruct (Z.eqb_spec b 0) as [->|Hb0]; [by rewrite Z.mul_0_r|].
  cbn [orb]. case_bool_decide as Hr.
  - rewrite (wrap64_id (a * b)) by done. rewrite Z.quot_mul, wrap64_id, Z.eqb_refl by done. cbn [negb orb].
    destruct ((a =? -1) && (b =? int64_min)) eqn:E1; [|destruct ((b =? -1) && (a =? int64_min)) eqn:E2; [|done]].
    + apply andb_prop in E1 as [->%Z.eqb_eq ->%Z.eqb_eq]. exfalso. clear -Hr. unfold_words. lia.
    + apply andb_prop in E2 as [->%Z.eqb_eq ->%Z.eqb_eq]. exfalso. clear -Hr. unfold_words. lia.
  - set (c := wrap64 (a * b)). destruct (wrap64_cong (a * b)) as [k Hk]. pose proof (wrap64_int64 (a * b)) as Hw. fold c in Hk, Hw.
    match goal with |- (if ?g then _ else _) = _ => enough (g = true) as -> by done end.
    destruct (Z.eqb_spec (wrap64 (Z.quot c b)) a) as [E|E]; [|done]. cbn [negb orb].
    assert (Z.quot c b = a \/ Z.quot c b = two63 /\ a = int64_min) as [Eq|[Eq Ea]].
    { destruct (decide (is_int64 (Z.quot c b))) as [Hq|Hq]; [left; by rewrite wrap64_id in E|]. right.
      pose proof (quot_bounds c b Hb0) as [Hq1 _]. assert (Z.quot c b = two63) as Eq by (unfold_words; nia). rewrite Eq in E |- *. by split. }
    + exfalso. pose proof (quot_bounds c b Hb0) as (Hq1 & Hq2 & Hq3). rewrite Eq in *. unfold_words. nia.
    + assert (b = -1) as ->; [|rewrite Ea; apply orb_true_r].
      pose proof (quot_bounds c b Hb0) as (Hq1 & Hq2 & Hq3). rewrite Eq in *. unfold_words. nia.
Qed.

Lemma negInt64_exact a : is_int64 a -> negInt64 a = exact64 (- a).
Proof.
  intros Ha. unfold negInt64, exact64. destruct (Z.eqb_spec a int64_min) as [->|Hne]; [done|]. rewrite bool_decide_eq_true_2 by (unfold_words; lia).
  by rewrite wrap64_id by (unfold_words; lia).
Qed.

(** C26: Integer addition, subtraction, multiplication and negation of the query engine
    return the mathematical result when it fits 64 bits and fail with OutOfRange
    otherwise: no wrapped-around result is ever returned. *)
Theorem int64_arith_exact (a b : Z) : is_int64 a -> is_int64 b ->
  addInt64 a b = exact64 (a + b) /\ subInt64 a b = exact64 (a - b) /\ mulInt64 a b = exact64 (a * b) /\ negInt64 a = exact64 (- a).
Proof.
  intros Ha Hb. split_and!; [by apply addInt64_exact|by apply subInt64_exact|by apply mulInt64_exact|by apply negInt64_exact].
Qed.
Lemma int64_arith_exact_witness : addInt64 int64_max 1 = Err OutOfRange /\ mulInt64 int64_min (-1) = Err OutOfRange.
Proof.
  split.
  - destruct (int64_arith_exact int64_max 1) as (-> & _); [by unfold_words|by unfold_words|reflexivity].
  - destruct (int64_arith_exact int64_min (-1)) as (_ & _ & -> & _); [by unfold_words|by unfold_words|reflexivity].
Defined.

(** ** Results have the width of their operands *)

Lemma is_int64b_spec n : is_int64b n = true <-> is_int64 n.
Proof. unfold is_int64b, is_int64, int64_min, int64_max. rewrite andb_true_iff, !Z.leb_le. done. Qed.
Lemma exact64_typed z r : exact64 z = Ret r -> is_int64 r.
Proof. unfold exact64. case_bool_decide; by intros [= <-]. Qed.
Lemma exact64_safe z : exact64 z <> Panic.
Proof. unfold exact64. by case_bool_decide. Qed.

Lemma checkFloat_valid r inputs f : valid64 r = true -> checkFloat r inputs = Ret f -> valid64 f = true.
Proof. unfold checkFloat. repeat case_match; by intros ? [= <-]. Qed.
Lemma floatToInt64_typed f n : floatToInt64 f = Ret n -> is_int64 n.
Proof.
  unfold floatToInt64. destruct (math_Round f) as [r|]; [|done]. destruct ((r <? _) || _) eqn:E; [done|]. intros [= <-].
  apply orb_false_iff in E as [E1%Z.ltb_ge E2%Z.leb_gt]. unfold_words. lia.
Qed.

Lemma bitFn_int64 op a b : is_int64 a -> is_int64 b -> is_int64 (bitFn op a b).
Proof.
  assert (forall z, is_int64 z <-> forall i, 63 <= i -> Z.testbit z i = Z.testbit z 63) as Hbits.
  { intros z. split.
    - intros Hz i Hi. unfold_words. destruct (Z.le_gt_cases 0 z) as [Hp|Hn].
      + rewrite !Z.bits_above_log2; try done; try lia; (destruct (Z.eq_dec z 0) as [->|]; [cbn; lia|apply Z.log2_lt_pow2; [lia|]]).
        * lia.
        * apply Z.lt_le_trans with (2 ^ 63); [lia|]. apply Z.pow_le_mono_r; lia.
      + assert (forall j, 63 <= j -> Z.testbit z j = true) as Hj; [|by rewrite !Hj by lia].
        intros j Hj. replace z with (- (- z - 1) - 1) by lia. replace (- (- z - 1) - 1) with (Z.lnot (- z - 1)) by (unfold Z.lnot; lia).
        rewrite Z.lnot_spec by lia. apply negb_true_iff. destruct (Z.eq_dec (- z - 1) 0) as [E|E]; [by rewrite E, Z.bits_0|].
        apply Z.bits_above_log2; [lia|]. apply Z.log2_lt_pow2; [lia|]. apply Z.lt_le_trans with (2 ^ 63); [lia|]. apply Z.pow_le_mono_r; lia.
    - intros Hz. destruct (Z.le_gt_cases 0 z) as [Hp|Hn].
      + assert (Z.testbit z 63 = false) as H63.
        { rewrite <- (Hz (Z.max 63 (Z.log2 z + 1))) by lia. apply Z.bits_above_log2; lia. }
        assert (z < 2 ^ 63); [|unfold_words; lia]. destruct (Z.eq_dec z 0) as [->|]; [done|]. apply Z.log2_lt_pow2; [lia|].
        apply Z.nle_gt. intros Hlog. pose proof (Z.bit_log2 z ltac:(lia)) as Hb. rewrite Hz, H63 in Hb by lia. done.
      + set (y := Z.lnot z). assert (0 <= y) by (unfold y, Z.lnot; lia).
        assert (forall i, 63 <= i -> Z.testbit y i = Z.testbit y 63) as Hy by (intros i Hi; unfold y; rewrite !Z.lnot_spec by lia; by rewrite Hz).
        assert (Z.testbit y 63 = false) as H63.
        { rewrite <- (Hy (Z.max 63 (Z.log2 y + 1))) by lia. apply Z.bits_above_log2; lia. }
        assert (y < 2 ^ 63); [|unfold y, Z.lnot in *; unfold_words; lia]. destruct (Z.eq_dec y 0) as [->|]; [done|]. apply Z.log2_lt_pow2; [lia|].
        apply Z.nle_gt. intros Hlog. pose proof (Z.bit_log2 y ltac:(lia)) as Hb. rewrite Hy, H63 in Hb by lia. done. }
  rewrite !Hbits. intros Ha Hb i Hi. destruct op; cbn [bitFn]; rewrite ?Z.land_spec, ?Z.lor_spec, ?Z.lxor_spec, Ha, Hb; done.
Qed.
