(* ===== verification/SqlTime.v ===== *)
(** * Dates and timestamps of the query engine

    The calendar, [checkDate], [checkTimestamp] and the text forms of DATE and
    TIMESTAMP values ([internal/gsql/values.go], [cast.go]) and the arithmetic on
    them ([funcs_time.go]).

    The [time] package is modelled by the proleptic Gregorian calendar: a [Time] is
    an instant in microseconds with a location; [civil_next] pins the calendar down.
    The time zone database is the parameter [TimeZones]. *)

From S2P Require Import Prelude Proto Rows Server Tokens KeySchema Lexer SqlValues.
From stdpp Require Import base list gmap sorting.
From Stdlib Require Import ZArith Lia.

#[local] Open Scope Z_scope.

(** ** The calendar *)

(** Days since 1970-01-01 of a day of the proleptic Gregorian calendar, the years
    counted from March; the day may lie outside its month. *)
Definition days_of_civil (y m d : Z) : Z :=
  let y' := if m <=? 2 then y - 1 else y in
  let yoe := y' mod 400 in
  let doy := (153 * ((m + 9) mod 12) + 2) / 5 + d - 1 in
  y' / 400 * 146097 + (yoe * 365 + yoe / 4 - yoe / 100 + doy) - 719468.

(** The day of an era of 400 years as its year from March and the day of it: cycles
    of 100, 4 and 1 years are cut off, the last of four being a day longer. *)
Definition year_of_doe (doe : Z) : Z * Z :=
  let c := Z.min 3 (doe / 36524) in
  let q := (doe - 36524 * c) / 1461 in
  let r := doe - 36524 * c - 1461 * q in
  let y := Z.min 3 (r / 365) in
  (100 * c + 4 * q + y, r - 365 * y).
(** The day of a year from March as its month, from March too, and its day. *)
Definition month_of_doy (doy : Z) : Z * Z := let mp := (5 * doy + 2) / 153 in (mp, doy - (153 * mp + 2) / 5 + 1).
Definition civil_of_doe (doe : Z) : Z * Z * Z :=
  let '(yoe, doy) := year_of_doe doe in
  let '(mp, d) := month_of_doy doy in
  if mp <? 10 then (yoe, mp + 3, d) else (yoe + 1, mp - 9, d).
Definition civil_of_days (n : Z) : Z * Z * Z :=
  let '(y, m, d) := civil_of_doe ((n + 719468) mod 146097) in (y + (n + 719468) / 146097 * 400, m, d).

(** ** Instants *)

(** The offsets of the named zones in seconds east of UTC, at an instant in Unix
    seconds; [time.LoadLocation] knows a name or not. *)
Class TimeZones : Type := {
  LoadLocation : bytes -> bool;
  zone_offset : bytes -> Z -> Z;
}.

Inductive Location : Type :=
| UTC
| FixedZone (off : Z)
| NamedZone (name : bytes).

#[global] Instance Location_eq_dec : EqDecision Location.
Proof. solve_decision. Defined.

Record Time : Type := mkTime { UnixMicro : Z; tm_loc : Location }.

Section times.
Context `{TimeZones}.

Definition offset_at (loc : Location) (sec : Z) : Z :=
  match loc with UTC => 0 | FixedZone off => off | NamedZone name => zone_offset name sec end.
Definition tm_In (t : Time) (loc : Location) : Time := mkTime (UnixMicro t) loc.
Definition tm_Unix (t : Time) : Z := UnixMicro t / 1000000.
(** [t.Zone()]: the offset. *)
Definition tm_Zone (t : Time) : Z := offset_at (tm_loc t) (tm_Unix t).
(** Seconds and days of the wall clock. *)
Definition wall (t : Time) : Z := tm_Unix t + tm_Zone t.
Definition wall_days (t : Time) : Z := wall t / 86400.
Definition tm_Date (t : Time) : Z * Z * Z := civil_of_days (wall_days t).
Definition tm_Year (t : Time) : Z := (tm_Date t).1.1.
Definition tm_Month (t : Time) : Z := (tm_Date t).1.2.
Definition tm_Day (t : Time) : Z := (tm_Date t).2.
Definition tm_Hour (t : Time) : Z := wall t mod 86400 / 3600.
Definition tm_Minute (t : Time) : Z := wall t mod 3600 / 60.
Definition tm_Second (t : Time) : Z := wall t mod 60.
(** Sunday is 0; 1970-01-01 was a Thursday. *)
Definition weekday_of (days : Z) : Z := (days + 4) mod 7.
Definition tm_Weekday (t : Time) : Z := weekday_of (wall_days t).
Definition yearDay_of (days : Z) : Z := days - days_of_civil (civil_of_days days).1.1 1 1 + 1.
Definition tm_YearDay (t : Time) : Z := yearDay_of (wall_days t).
(** [t.ISOWeek()]: the year and the week of the Thursday of the week. *)
Definition isoWeek_of (days : Z) : Z * Z :=
  let d := 4 - weekday_of days in
  let thursday := days + (if d =? 4 then -3 else d) in
  ((civil_of_days thursday).1.1, (yearDay_of thursday - 1) / 7 + 1).
Definition tm_ISOWeek (t : Time) : Z * Z := isoWeek_of (wall_days t).

(** [time.Date]: months outside 1..12 and days outside the month carry over; in a
    zone the offset of the instant that the zone's offset gives is taken. *)
Definition time_Date (y mo d h mi s us : Z) (loc : Location) : Time :=
  let m := mo - 1 in
  let naive := days_of_civil (y + m / 12) (m mod 12 + 1) d * 86400 + h * 3600 + mi * 60 + s in
  let o := offset_at loc naive in
  mkTime ((if o =? 0 then naive else naive - offset_at loc (naive - o)) * 1000000 + us) loc.

(** ** Ranges of values *)

Definition minDateDays : Z := -719162.
Definition maxDateDays : Z := 2932896.

Definition checkTimestamp (us : Z) : outcome Z :=
  if (us <? minTimestampMicros) || (maxTimestampMicros <? us) then Err OutOfRange else Ret us.
Definition checkDate (days : Z) : outcome Z :=
  if (days <? minDateDays) || (maxDateDays <? days) then Err OutOfRange else Ret days.

Definition floorDiv (a b : Z) : Z :=
  let q := Z.quot a b in
  if negb (Z.rem a b =? 0) && xorb (a <? 0) (b <? 0) then q - 1 else q.
Definition floorMod (a b : Z) : Z := a - floorDiv a b * b.

(** [tsVal.time], [dateVal.civil]. *)
Definition ts_time (ts : Z) : Time := mkTime ts UTC.
Definition civil (d : Z) : Z * Z * Z := tm_Date (mkTime (d * 86400 * 1000000) UTC).

Definition dateFromYMD (y m d : Z) : outcome Z := checkDate (floorDiv (tm_Unix (time_Date y m d 0 0 0 0 UTC)) 86400).
Definition dateFromTime (t : Time) : outcome Z := let '(y, m, d) := tm_Date t in dateFromYMD y m d.
(** The 0th of the next month is the last day of this one. *)
Definition daysIn (m y : Z) : Z := tm_Day (time_Date y (m + 1) 0 0 0 0 0 UTC).

(** ** Text *)

Fixpoint leftPad (fuel : nat) (s : bytes) (n : nat) : bytes :=
  match fuel with
  | O => s
  | S fuel => if Nat.ltb (length s) n then leftPad fuel (48 :: s) n else s
  end.
Definition padded (n : Z) (width : nat) : bytes := leftPad width (FormatInt n) width.

Definition formatDate (d : Z) : bytes :=
  let '(y, m, dd) := civil d in padded y 4 ++ str "-" ++ padded m 2 ++ str "-" ++ padded dd 2.

Definition formatOffset (t : Time) (full : bool) : bytes :=
  let off := tm_Zone t in
  let sign := if off <? 0 then str "-" else str "+" in
  let off := Z.abs off in
  let h := off / 3600 in
  let m := off mod 3600 / 60 in
  if full || negb (m =? 0) then sign ++ padded h 2 ++ str ":" ++ padded m 2 else sign ++ padded h 2.

(** [t.Format("2006-01-02 15:04:05")]. *)
Definition Format_seconds (t : Time) : bytes :=
  let '(y, m, d) := tm_Date t in
  padded y 4 ++ str "-" ++ padded m 2 ++ str "-" ++ padded d 2 ++ str " " ++
  padded (tm_Hour t) 2 ++ str ":" ++ padded (tm_Minute t) 2 ++ str ":" ++ padded (tm_Second t) 2.

Definition formatTimestamp (ts : Z) (loc : Location) : bytes :=
  let t := tm_In (ts_time ts) loc in
  let us := floorMod ts 1000000 in
  Format_seconds t ++
  (if us =? 0 then [] else if us mod 1000 =? 0 then str "." ++ padded (us / 1000) 3 else str "." ++ padded us 6) ++
  formatOffset t false.

(** The encodings of the white space of [strings.TrimSpace]. *)
Definition space_runes : list Z :=
  [9; 10; 11; 12; 13; 32; 133; 160; 5760; 8192; 8193; 8194; 8195; 8196; 8197; 8198; 8199; 8200; 8201; 8202; 8232; 8233; 8239; 8287; 12288].
Definition spaces : list bytes := encodeRune <$> space_runes.
Definition space_length (hasSpace : bytes -> bool) : nat :=
  match List.find hasSpace spaces with Some sp => length sp | None => 0 end.
Fixpoint trimLeft (fuel : nat) (s : bytes) : bytes :=
  match fuel with
  | O => s
  | S fuel => match space_length (HasPrefix s) with O => s | n => trimLeft fuel (drop n s) end
  end.
(** The same from the end: on the reversed string, with the encodings reversed. *)
Fixpoint trimRight (fuel : nat) (s : bytes) : bytes :=
  match fuel with
  | O => s
  | S fuel => match space_length (fun sp => HasPrefix s (rev sp)) with O => s | n => trimRight fuel (drop n s) end
  end.
Definition strings_TrimSpace (s : bytes) : bytes :=
  let s := trimLeft (length s) s in rev (trimRight (length s) (rev s)).

(** [scanInt]: the digits of [s], at most [hi] of them, and what follows; fewer
    than [lo] is a failure. *)
Definition scanInt (s : bytes) (lo hi : nat) : option (Z * bytes) :=
  let ds := (span isDigit (take hi s)).1 in
  if Nat.ltb (length ds) lo then None
  else Some (foldl (fun v c => v * 10 + (c - 48)) 0 ds, drop (length ds) s).

(** A number after the character [c]. *)
Definition scanAfter (c : Z) (s : bytes) (lo hi : nat) : option (Z * bytes) :=
  match s with c' :: s' => if c' =? c then scanInt s' lo hi else None | [] => None end.

Definition parseCivilDate (s : bytes) : option (Z * Z * Z * bytes) :=
  '(y, s) ← scanInt s 1 4;
  '(m, s) ← scanAfter 45 s 1 2;
  '(d, s) ← scanAfter 45 s 1 2;
  if (m <? 1) || (12 <? m) || (d <? 1) || (daysIn m y <? d) || (y <? 1) then None else Some (y, m, d, s).

Definition parseDateString (s : bytes) : outcome Z :=
  match parseCivilDate (strings_TrimSpace s) with
  | Some (y, m, d, []) => dateFromYMD y m d
  | _ => Err InvalidArgument
  end.

Definition parseOffsetZone (s : bytes) : outcome Location :=
  match s with
  | c :: s =>
      if negb ((c =? 45) || (c =? 43)) then Err OutOfRange
      else
        match scanInt s 1 2 with
        | None => Err OutOfRange
        | Some (h, s) =>
            let finish (m : Z) (s : bytes) :=
              match s with
              | [] => if (14 <? h) || (59 <? m) then Err OutOfRange
                      else Ret (FixedZone ((if c =? 45 then -1 else 1) * (h * 3600 + m * 60)))
              | _ => Err OutOfRange
              end in
            match s with
            | 58 :: s' => match scanInt s' 1 2 with Some (m, s) => finish m s | None => Err OutOfRange end
            | [c1; c2] => if isDigit c1 then match scanInt s 2 2 with Some (m, s) => finish m s | None => finish 0 s end else finish 0 s
            | _ => finish 0 s
            end
        end
  | [] => Panic
  end.

(** [strings.ToUpper] of the first bytes, which are ASCII when they matter. *)
Definition upperByte (c : Z) : Z := if (97 <=? c) && (c <=? 122) then c - 32 else c.
Definition loadZone (name : bytes) : outcome Location :=
  if bool_decide (name = str "UTC") || bool_decide (name = str "Etc/UTC") || bool_decide (name = str "utc") then Ret UTC
  else if HasPrefix name (str "+") || HasPrefix name (str "-") then parseOffsetZone name
  else
    match name with
    | a :: b :: c :: ((d :: _) as rest) =>
        if bool_decide (upperByte <$> [a; b; c] = str "UTC") && ((d =? 43) || (d =? 45)) then parseOffsetZone rest
        else if LoadLocation name then Ret (NamedZone name) else Err OutOfRange
    | _ => if LoadLocation name then Ret (NamedZone name) else Err OutOfRange
    end.

(** [civilToTime]: a skipped wall-clock time is read with the offset before the
    transition, an ambiguous one is the earlier instant. *)
Definition civilToTime (y mo d h mi s us : Z) (loc : Location) : Time :=
  if bool_decide (loc = UTC) then time_Date y mo d h mi s us loc
  else
    let naive := UnixMicro (time_Date y mo d h mi s us UTC) in
    let offsetAt (us : Z) := offset_at loc (us / 1000000) * 1000000 in
    let day := 86400 * 1000000 in
    let before := offsetAt (naive - day) in
    let after := offsetAt (naive + day) in
    let reads (c : Z) :=
      let w := mkTime c loc in
      bool_decide (tm_Date w = (y, mo, d)) && (tm_Hour w =? h) && (tm_Minute w =? mi) && (tm_Second w =? s) in
    let better (best : option Z) (off : Z) :=
      let c := naive - off in
      if reads c then match best with Some b => if c <? b then Some c else best | None => Some c end else best in
    match better (better None before) after with
    | Some c => mkTime c loc
    | None => if before =? after then time_Date y mo d h mi s us loc else mkTime (naive - before) loc
    end.

(** The optional clock time: hour, minute, second, microsecond and what follows. *)
Definition parseClock (s : bytes) : outcome (Z * Z * Z * Z * bytes) :=
  match s with
  | c :: ((c1 :: _) as s') =>
      if ((c =? 32) || (c =? 84) || (c =? 116)) && isDigit c1 then
        match scanInt s' 1 2 with
        | Some (h, ((58 :: _) as s)) =>
            match scanAfter 58 s 1 2 with
            | None => Err InvalidArgument
            | Some (mi, s) =>
                '(sec, us, s) ←
                  match s with
                  | 58 :: s =>
                      match scanInt s 1 2 with
                      | None => Err InvalidArgument
                      | Some (sec, 46 :: s) =>
                          let '(frac, s) := span isDigit s in
                          if Nat.eqb (length frac) 0 || Nat.ltb 9 (length frac) then Err InvalidArgument
                          else Ret (sec, foldl (fun v c => v * 10 + (c - 48)) 0 (take 6 (frac ++ str "000000")), s)
                      | Some (sec, s) => Ret (sec, 0, s)
                      end
                  | _ => Ret (0, 0, s)
                  end;
                if (23 <? h) || (59 <? mi) || (60 <? sec) then Err InvalidArgument else Ret (h, mi, sec, us, s)
            end
        | _ => Err InvalidArgument
        end
      else Ret (0, 0, 0, 0, s)
  | _ => Ret (0, 0, 0, 0, s)
  end.

(** The optional zone. *)
Definition parseZone (rest : bytes) (loc : Location) : outcome Location :=
  match rest with
  | [] => Ret loc
  | c :: rest' =>
      let trimmed := strings_TrimSpace rest in
      if bool_decide (trimmed = []) then Ret loc
      else if bool_decide (rest = str "Z") || bool_decide (rest = str "z") then Ret UTC
      else if (c =? 43) || (c =? 45) then parseOffsetZone rest
      else if c =? 32 then loadZone trimmed
      else Err InvalidArgument
  end.

Definition parseTimestampString (s : bytes) (loc : Location) : outcome Z :=
  match parseCivilDate (strings_TrimSpace s) with
  | None => Err InvalidArgument
  | Some (y, mo, d, s) =>
      '(h, mi, sec, us, rest) ← parseClock s;
      tz ← parseZone rest loc;
      let '(sec, leap) := if sec =? 60 then (59, 1) else (sec, 0) in
      checkTimestamp (UnixMicro (civilToTime y mo d h mi sec us tz) + leap * 1000000)
  end.

End times.

(** ** The calendar is the Gregorian one *)

(** Linear arithmetic with quotients and remainders by constants. *)
Ltac dlia := Z.to_euclidean_division_equations; lia.

Fixpoint all_from (p : Z -> bool) (n : nat) (z : Z) : bool :=
  match n with O => true | S n => p z && all_from p n (z + 1) end.
Lemma all_from_spec p n : forall z, all_from p n z = true -> forall i, z <= i < z + Z.of_nat n -> p i = true.
Proof.
  induction n as [|n IH]; intros z E i Hi; [lia|]. cbn in E. apply andb_prop in E as [E1 E2].
  destruct (decide (i = z)) as [->|]; [done|]. apply (IH (z + 1)); [done|lia].
Qed.

Definition leap (y : Z) : bool := (y mod 4 =? 0) && (negb (y mod 100 =? 0) || (y mod 400 =? 0)).
Definition monthLength (y m : Z) : Z :=
  if m =? 2 then if leap y then 29 else 28
  else if (m =? 4) || (m =? 6) || (m =? 9) || (m =? 11) then 30 else 31.
Definition next_day (c : Z * Z * Z) : Z * Z * Z :=
  let '(y, m, d) := c in
  if d <? monthLength y m then (y, m, d + 1) else if m <? 12 then (y, m + 1, 1) else (y + 1, 1, 1).
Definition valid_civil (c : Z * Z * Z) : bool :=
  let '(y, m, d) := c in (1 <=? m) && (m <=? 12) && (1 <=? d) && (d <=? monthLength y m).

Lemma leap_era y k : leap (y + k * 400) = leap y.
Proof.
  unfold leap. replace (y + k * 400) with (y + (k * 100) * 4) at 1 by lia. rewrite Z.mod_add by lia.
  replace (y + k * 400) with (y + (k * 4) * 100) at 1 by lia. rewrite Z.mod_add by lia. by rewrite Z.mod_add by lia.
Qed.
Lemma monthLength_era y k m : monthLength (y + k * 400) m = monthLength y m.
Proof. unfold monthLength. by rewrite leap_era. Qed.
Lemma days_of_civil_era y k m d : days_of_civil (y + k * 400) m d = days_of_civil y m d + k * 146097.
Proof.
  unfold days_of_civil. set (y' := if m <=? 2 then y - 1 else y).
  replace (if m <=? 2 then y + k * 400 - 1 else y + k * 400) with (y' + k * 400) by (subst y'; destruct (m <=? 2); lia).
  rewrite Z.mod_add, Z.div_add by lia. lia.
Qed.
Lemma days_of_civil_day y m d : days_of_civil y m d = days_of_civil y m 1 + (d - 1).
Proof. unfold days_of_civil. lia. Qed.

Lemma year_of_doe_spec doe yoe doy : 0 <= doe < 146097 -> year_of_doe doe = (yoe, doy) ->
  doe = yoe * 365 + yoe / 4 - yoe / 100 + doy /\ 0 <= yoe < 400 /\ 0 <= doy <= 365 /\ (doy = 365 -> leap (yoe + 1) = true).
Proof.
  intros Hd. unfold year_of_doe. set (c := Z.min 3 (doe / 36524)). set (q := (doe - 36524 * c) / 1461).
  set (r := doe - 36524 * c - 1461 * q). set (y := Z.min 3 (r / 365)). intros [= <- <-].
  assert (0 <= c <= 3) by (subst c; dlia). assert (0 <= doe - 36524 * c <= 36524) by (subst c; dlia).
  assert (0 <= q <= 24) by (subst q; dlia). assert (0 <= r <= 1460) by (subst r q; dlia). assert (0 <= y <= 3) by (subst y; dlia).
  assert ((100 * c + 4 * q + y) / 4 = 25 * c + q) as -> by (clear -H H1 H3; dlia). assert ((100 * c + 4 * q + y) / 100 = c) as -> by (clear -H H1 H3; dlia).
  split_and!; try lia.
  - subst y. dlia.
  - clearbody r. subst y. clear -H2. dlia.
  - intros E. assert (y = 3 /\ r = 1460) as [Hy Hr] by (clearbody r; subst y; clear -E H2; dlia).
    assert (doe - 36524 * c = 1461 * q + 1460) as Hq by lia. assert (q = 24 -> c = 3) as Hc by (subst c; dlia).
    unfold leap. rewrite Hy, andb_true_iff, orb_true_iff, negb_true_iff, !Z.eqb_eq, Z.eqb_neq. clear -Hc H H1. dlia.
Qed.

Definition month_dayb (doy : Z) : bool :=
  let '(mp, d) := month_of_doy doy in
  (0 <=? mp) && (mp <=? 11) && (1 <=? d) && (d <=? monthLength (if doy =? 365 then 4 else 1) (if mp <? 10 then mp + 3 else mp - 9)).
Lemma month_of_doy_spec doy mp d : 0 <= doy <= 365 -> month_of_doy doy = (mp, d) ->
  doy = (153 * mp + 2) / 5 + d - 1 /\ 0 <= mp <= 11 /\ 1 <= d <= monthLength (if doy =? 365 then 4 else 1) (if mp <? 10 then mp + 3 else mp - 9).
Proof.
  intros Hd E. assert (month_dayb doy = true) as Hb by (apply (all_from_spec month_dayb 366 0); [vm_compute; reflexivity|lia]).
  unfold month_dayb in Hb. rewrite E in Hb. rewrite !andb_true_iff, !Z.leb_le in Hb. unfold month_of_doy in E. simplify_eq. split_and!; lia.
Qed.

Lemma monthLength_leap y y' m : (leap y = true -> leap y' = true) -> monthLength y m <= monthLength y' m.
Proof. intros Hl. unfold monthLength. repeat case_match; try lia; naive_solver. Qed.

(** Every day has a date that exists, from which the day is computed back. *)
Lemma days_of_civil_of_days n y m d : civil_of_days n = (y, m, d) -> valid_civil (y, m, d) = true /\ days_of_civil y m d = n.
Proof.
  unfold civil_of_days, civil_of_doe. set (k := (n + 719468) / 146097). set (doe := (n + 719468) mod 146097).
  assert (0 <= doe < 146097) as Hd by (apply Z.mod_pos_bound; lia). assert (n + 719468 = k * 146097 + doe) as Hn by (pose proof (Z.div_mod (n + 719468) 146097); lia).
  destruct (year_of_doe doe) as [yoe doy] eqn:Ey. destruct (month_of_doy doy) as [mp d'] eqn:Em.
  destruct (year_of_doe_spec _ _ _ Hd Ey) as (H1 & H2 & H3 & H4). destruct (month_of_doy_spec _ _ _ H3 Em) as (H5 & H6 & H7).
  assert (d' <= monthLength (if mp <? 10 then yoe else yoe + 1) (if mp <? 10 then mp + 3 else mp - 9)) as Hlen.
  { destruct H7 as [_ H7]. etrans; [exact H7|]. destruct (doy =? 365) eqn:E365.
    - apply Z.eqb_eq in E365. rewrite E365 in Em. vm_compute in Em. injection Em as <- <-. apply monthLength_leap. intros _. by apply H4.
    - by apply monthLength_leap. }
  intros E. assert (m = (if mp <? 10 then mp + 3 else mp - 9) /\ d = d' /\ y = (if mp <? 10 then yoe else yoe + 1) + k * 400) as (-> & -> & ->).
  { destruct (mp <? 10); by injection E. }
  split.
  - unfold valid_civil. rewrite monthLength_era, !andb_true_iff, !Z.leb_le. split_and!; try lia; destruct (Z.ltb_spec mp 10); lia.
  - rewrite days_of_civil_era. unfold days_of_civil. rewrite (Z.mod_small _ 400), (Z.div_small _ 400);
      (destruct (Z.ltb_spec mp 10); [rewrite (proj2 (Z.leb_gt _ 2)) by lia|rewrite (proj2 (Z.leb_le _ 2)) by lia]); try lia.
    + replace ((mp + 3 + 9) mod 12) with mp by dlia. lia.
    + replace (yoe + 1 - 1) with yoe by lia. replace ((mp - 9 + 9) mod 12) with mp by dlia. lia.
Qed.

(** Dates that exist determine their day: the days of a month are consecutive and
    so are the months of an era. *)
Definition month_index (y m : Z) : Z := y * 12 + (m - 1).
Definition month_start (i : Z) : Z := days_of_civil (i / 12) (i mod 12 + 1) 1.
Definition month_follows (i : Z) : bool := month_start (i + 1) =? month_start i + monthLength (i / 12) (i mod 12 + 1).
Lemma month_start_next i : month_start (i + 1) = month_start i + monthLength (i / 12) (i mod 12 + 1).
Proof.
  assert (forall j, 0 <= j < 4800 -> month_follows j = true) as Hall.
  { intros j Hj. apply (all_from_spec month_follows 4800 0); [vm_compute; reflexivity|lia]. }
  assert (forall j k, month_start (j + k * 4800) = month_start j + k * 146097) as Hera.
  { intros j k. unfold month_start. replace (j + k * 4800) with (j + (k * 400) * 12) by lia.
    rewrite Z.div_add, Z.mod_add by lia. apply days_of_civil_era. }
  pose proof (Z.div_mod i 4800). pose proof (Z.mod_pos_bound i 4800). set (j := i mod 4800) in *. set (k := i / 4800) in *.
  replace i with (j + k * 4800) by lia. replace (j + k * 4800 + 1) with (j + 1 + k * 4800) by lia. rewrite !Hera.
  replace (j + k * 4800) with (j + (k * 400) * 12) by lia. rewrite Z.div_add, Z.mod_add, monthLength_era by lia.
  specialize (Hall j ltac:(lia)). unfold month_follows in Hall. apply Z.eqb_eq in Hall. lia.
Qed.
Lemma monthLength_bounds y m : 28 <= monthLength y m <= 31.
Proof. unfold monthLength. repeat case_match; lia. Qed.
Lemma month_start_mono i j : i < j -> month_start i + monthLength (i / 12) (i mod 12 + 1) <= month_start j.
Proof.
  intros Hij. replace j with (i + 1 + Z.of_nat (Z.to_nat (j - i - 1))) by lia. generalize (Z.to_nat (j - i - 1)) as n. clear j Hij.
  induction n as [|n IH]; [rewrite Z.add_0_r, month_start_next; lia|].
  replace (i + 1 + Z.of_nat (S n)) with (i + 1 + Z.of_nat n + 1) by lia. rewrite (month_start_next (i + 1 + Z.of_nat n)).
  pose proof (monthLength_bounds ((i + 1 + Z.of_nat n) / 12) ((i + 1 + Z.of_nat n) mod 12 + 1)). lia.
Qed.
Lemma days_of_civil_index y m d : 1 <= m <= 12 ->
  days_of_civil y m d = month_start (month_index y m) + (d - 1) /\ month_index y m / 12 = y /\ month_index y m mod 12 + 1 = m.
Proof.
  intros Hm. unfold month_start, month_index. rewrite (Z.add_comm (y * 12)), Z.div_add, Z.mod_add by lia.
  rewrite Z.div_small, Z.mod_small by lia. replace (m - 1 + 1) with m by lia. rewrite Z.add_0_l. split; [|lia]. apply days_of_civil_day.
Qed.
Lemma civil_of_days_of_civil y m d : valid_civil (y, m, d) = true -> civil_of_days (days_of_civil y m d) = (y, m, d).
Proof.
  intros Hv. destruct (civil_of_days (days_of_civil y m d)) as [[y' m'] d'] eqn:E.
  apply days_of_civil_of_days in E as [Hv' E]. unfold valid_civil in Hv, Hv'. rewrite !andb_true_iff, !Z.leb_le in Hv, Hv'.
  destruct (days_of_civil_index y m d) as (E1 & Ey & Em); [lia|]. destruct (days_of_civil_index y' m' d') as (E1' & Ey' & Em'); [lia|].
  destruct (Z.lt_trichotomy (month_index y m) (month_index y' m')) as [Hlt|[Heq|Hlt]].
  - apply month_start_mono in Hlt. rewrite Ey, Em in Hlt. lia.
  - rewrite Heq in *. assert (y = y') as -> by lia. assert (m = m') as -> by lia. f_equal. lia.
  - apply month_start_mono in Hlt. rewrite Ey', Em' in Hlt. lia.
Qed.

(** The next day follows by the rules of months and leap years. *)
Lemma civil_next n : civil_of_days (n + 1) = next_day (civil_of_days n).
Proof.
  destruct (civil_of_days n) as [[y m] d] eqn:E. apply days_of_civil_of_days in E as [Hv <-].
  unfold valid_civil in Hv. rewrite !andb_true_iff, !Z.leb_le in Hv. destruct (days_of_civil_index y m d) as (E1 & Ey & Em); [lia|].
  pose proof (month_start_next (month_index y m)) as Hn. rewrite Ey, Em in Hn.
  assert (forall y' m' d', valid_civil (y', m', d') = true -> days_of_civil y' m' d' = days_of_civil y m d + 1 -> civil_of_days (days_of_civil y m d + 1) = (y', m', d')) as Hc.
  { intros y' m' d' Hv' <-. by apply civil_of_days_of_civil. }
  unfold next_day. destruct (Z.ltb_spec d (monthLength y m)); [|destruct (Z.ltb_spec m 12)]; apply Hc; unfold valid_civil.
  - rewrite !andb_true_iff, !Z.leb_le. lia.
  - rewrite (days_of_civil_day y m d), (days_of_civil_day y m (d + 1)). lia.
  - rewrite !andb_true_iff, !Z.leb_le. pose proof (monthLength_bounds y (m + 1)). lia.
  - destruct (days_of_civil_index y (m + 1) 1) as (-> & _); [lia|]. unfold month_index in *. replace (y * 12 + (m + 1 - 1)) with (y * 12 + (m - 1) + 1) by lia. lia.
  - rewrite !andb_true_iff, !Z.leb_le. pose proof (monthLength_bounds (y + 1) 1). lia.
  - destruct (days_of_civil_index (y + 1) 1 1) as (-> & _); [lia|]. unfold month_index in *. replace ((y + 1) * 12 + (1 - 1)) with (y * 12 + (m - 1) + 1) by lia. lia.
Qed.
Lemma civil_epoch : civil_of_days 0 = (1970, 1, 1).
Proof. reflexivity. Qed.

(** ** Instants and their civil fields *)

Lemma floorDiv_div a b : 0 < b -> floorDiv a b = a / b.
Proof.
  intros Hb. unfold floorDiv. rewrite (proj2 (Z.ltb_ge b 0)), xorb_false_r by lia.
  destruct (Z.eqb_spec (Z.rem a b) 0), (Z.ltb_spec a 0); cbn [negb andb]; Z.to_euclidean_division_equations; nia.
Qed.
Lemma floorMod_mod a b : 0 < b -> floorMod a b = a mod b.
Proof. intros Hb. unfold floorMod. rewrite floorDiv_div by done. pose proof (Z.div_mod a b). lia. Qed.

Section times_facts.
Context `{TimeZones}.

Lemma civil_days d : civil d = civil_of_days d.
Proof. unfold civil, tm_Date, wall_days, wall, tm_Unix, tm_Zone. cbn. f_equal. dlia. Qed.

Lemma time_Date_UTC y mo d h mi s us : 1 <= mo <= 12 ->
  UnixMicro (time_Date y mo d h mi s us UTC) = (days_of_civil y mo d * 86400 + h * 3600 + mi * 60 + s) * 1000000 + us.
Proof.
  intros Hm. unfold time_Date. cbn. replace ((mo - 1) / 12) with 0 by dlia. replace ((mo - 1) mod 12 + 1) with mo by dlia. by rewrite Z.add_0_r.
Qed.

Lemma dateFromYMD_days y m d : 1 <= m <= 12 -> dateFromYMD y m d = checkDate (days_of_civil y m d).
Proof.
  intros Hm. unfold dateFromYMD, tm_Unix. rewrite time_Date_UTC, floorDiv_div by lia. f_equal.
  generalize (days_of_civil y m d). intros. dlia.
Qed.

Lemma daysIn_monthLength m y : 1 <= m <= 12 -> daysIn m y = monthLength y m.
Proof.
  intros Hm. unfold daysIn, tm_Day, tm_Date, wall_days, wall, tm_Unix, tm_Zone, time_Date. cbn.
  replace (m + 1 - 1) with m by lia. destruct (days_of_civil_index y m 1) as (E & Ey & Em); [done|].
  pose proof (month_start_next (month_index y m)) as Hn. rewrite Ey, Em in Hn.
  assert (days_of_civil (y + m / 12) (m mod 12 + 1) 0 = days_of_civil y m (monthLength y m)) as ->.
  { rewrite (days_of_civil_day _ _ 0), (days_of_civil_day y m (monthLength y m)), E.
    replace (days_of_civil (y + m / 12) (m mod 12 + 1) 1) with (month_start (month_index y m + 1)); [lia|].
    unfold month_start, month_index. f_equal; dlia. }
  match goal with |- context [civil_of_days ?x] => replace x with (days_of_civil y m (monthLength y m)) by dlia end.
  rewrite civil_of_days_of_civil; [done|]. unfold valid_civil. rewrite !andb_true_iff, !Z.leb_le. pose proof (monthLength_bounds y m). lia.
Qed.

(** The dates the engine supports are those of the years 1 to 9999. *)
Lemma supported_years n y m d : civil_of_days n = (y, m, d) -> minDateDays <= n <= maxDateDays <-> 1 <= y <= 9999.
Proof.
  intros E. apply days_of_civil_of_days in E as [Hv <-]. unfold valid_civil in Hv. rewrite !andb_true_iff, !Z.leb_le in Hv.
  destruct (days_of_civil_index y m d) as (E1 & Ey & Em); [lia|].
  assert (month_start 12 = minDateDays) as H1 by reflexivity. assert (month_start 120000 = maxDateDays + 1) as H2 by reflexivity.
  pose proof (month_start_next (month_index y m)) as Hn. rewrite Ey, Em in Hn.
  assert (forall i j, i <= j -> month_start i <= month_start j) as Hmono.
  { intros i j Hij. destruct (decide (i = j)) as [->|]; [done|]. assert (i < j) as Hlt by lia. apply month_start_mono in Hlt.
    pose proof (monthLength_bounds (i / 12) (i mod 12 + 1)). lia. }
  rewrite E1. unfold month_index in *. split; intros Hr.
  - split; apply Z.nlt_ge; intros Hlt.
    + pose proof (Hmono (y * 12 + (m - 1) + 1) 12 ltac:(lia)). lia.
    + pose proof (Hmono 120000 (y * 12 + (m - 1)) ltac:(lia)). lia.
  - pose proof (Hmono 12 (y * 12 + (m - 1)) ltac:(lia)). pose proof (Hmono (y * 12 + (m - 1) + 1) 120000 ltac:(lia)). lia.
Qed.

Lemma checkDate_ok n : minDateDays <= n <= maxDateDays -> checkDate n = Ret n.
Proof. intros Hn. unfold checkDate. by rewrite !(proj2 (Z.ltb_ge _ _)) by lia. Qed.
Lemma checkTimestamp_ok n : minTimestampMicros <= n <= maxTimestampMicros -> checkTimestamp n = Ret n.
Proof. intros Hn. unfold checkTimestamp. by rewrite !(proj2 (Z.ltb_ge _ _)) by lia. Qed.

(** ** Reading back what was printed *)

Definition all_digits (s : bytes) : Prop := Forall (fun c => 48 <= c <= 57) s.
Definition number (s : bytes) : Z := foldl (fun v c => v * 10 + (c - 48)) 0 s.

Lemma number_digits fuel : forall n acc, 0 <= n < 10 ^ Z.of_nat fuel -> foldl (fun v c => v * 10 + (c - 48)) 0 (digits fuel n acc) = foldl (fun v c => v * 10 + (c - 48)) n acc.
Proof.
  induction fuel as [|fuel IH]; intros n acc Hn; cbn [digits].
  { replace n with 0; [done|]. rewrite Z.pow_0_r in Hn. lia. }
  destruct (Z.eqb_spec (n / 10) 0) as [E|E].
  - cbn [foldl]. f_equal. dlia.
  - rewrite IH; [cbn [foldl]; f_equal; dlia|]. rewrite Nat2Z.inj_succ, Z.pow_succ_r in Hn by lia.
    split; [apply Z.div_pos; lia|]. apply Z.div_lt_upper_bound; lia.
Qed.
Lemma digits_length fuel : forall n acc w, 0 <= n < 10 ^ Z.of_nat w -> (0 < w)%nat -> (length (digits fuel n acc) <= w + length acc)%nat.
Proof.
  induction fuel as [|fuel IH]; intros n acc w Hn Hw; cbn [digits]; [lia|].
  destruct (Z.eqb_spec (n / 10) 0) as [E|E]; [cbn; lia|]. destruct w as [|[|w]]; [lia|..].
  { exfalso. apply E. apply Z.div_small. change (10 ^ Z.of_nat 1) with 10 in Hn. lia. }
  etrans; [apply (IH _ _ (S w))|cbn; lia]; [|lia]. rewrite (Nat2Z.inj_succ (S w)), Z.pow_succ_r in Hn by lia.
  split; [apply Z.div_pos; lia|]. apply Z.div_lt_upper_bound; lia.
Qed.

Lemma leftPad_spec w : forall fuel s, (length s <= w)%nat -> (w - length s <= fuel)%nat -> all_digits s ->
  length (leftPad fuel s w) = w /\ all_digits (leftPad fuel s w) /\ number (leftPad fuel s w) = number s.
Proof.
  intros fuel. induction fuel as [|fuel IH]; intros s H1 H2 H3; cbn [leftPad]; [split_and!; try done; lia|].
  destruct (Nat.ltb_spec (length s) w); [|split_and!; try done; lia].
  destruct (IH (48 :: s)) as (Ha & Hb & Hc); [cbn; lia|cbn; lia|constructor; [lia|done]|]. by split_and!.
Qed.

(** A number is printed with the given width and reads back. *)
Lemma padded_spec n w : 0 <= n < 10 ^ Z.of_nat w -> (0 < w <= 18)%nat ->
  length (padded n w) = w /\ all_digits (padded n w) /\ number (padded n w) = n.
Proof.
  intros Hn Hw. unfold padded, FormatInt. rewrite (proj2 (Z.ltb_ge n 0)) by lia.
  pose proof (digits_length 20 n [] w Hn ltac:(lia)) as Hl. change (length (@nil Z)) with 0%nat in Hl.
  assert (n < 10 ^ Z.of_nat 20). { eapply Z.lt_le_trans; [apply Hn|]. apply Z.pow_le_mono_r; lia. }
  destruct (leftPad_spec w w (digits 20 n [])) as (Ha & Hb & Hc); [lia|lia|apply digits_all; constructor|]. split_and!; [done|done|].
  rewrite Hc. unfold number. rewrite number_digits by lia. done.
Qed.

Lemma span_digits s rest : all_digits s -> match rest with c :: _ => isDigit c = false | [] => True end -> span isDigit (s ++ rest) = (s, rest).
Proof.
  induction 1 as [|c s Hc Hs IH]; intros Hr; cbn [app span].
  - destruct rest as [|c rest]; [done|]. by cbn; rewrite Hr.
  - cbn in Hc. assert (isDigit c = true) as -> by (unfold isDigit; by rewrite !(proj2 (Z.leb_le _ _)) by lia). by rewrite IH.
Qed.

Lemma scan_padded n w lo rest : 0 <= n < 10 ^ Z.of_nat w -> (0 < w <= 18)%nat -> (lo <= w)%nat -> scanInt (padded n w ++ rest) lo w = Some (n, rest).
Proof.
  intros Hn Hw Hlo. destruct (padded_spec n w Hn Hw) as (Hl & Hd & Hv). unfold scanInt.
  assert (take w (padded n w ++ rest) = padded n w ++ []) as -> by (rewrite app_nil_r; rewrite <- Hl at 1; apply take_app_length).
  rewrite span_digits by done. cbn [fst]. rewrite (proj2 (Nat.ltb_ge _ _)) by lia. rewrite drop_app_length. by rewrite <- Hv at 2.
Qed.

Lemma scan_after sep c n w lo rest : sep = [c] -> 0 <= n < 10 ^ Z.of_nat w -> (0 < w <= 18)%nat -> (lo <= w)%nat ->
  scanAfter c (sep ++ padded n w ++ rest) lo w = Some (n, rest).
Proof. intros -> Hn Hw Hlo. cbn [scanAfter app]. rewrite Z.eqb_refl. by apply scan_padded. Qed.

(** Text that starts and ends with a visible ASCII character is not trimmed. *)
Definition visible (c : Z) : bool := (33 <=? c) && (c <=? 126).
Lemma no_space c : visible c = true -> forall s, space_length (HasPrefix (c :: s)) = 0%nat /\ space_length (fun sp => HasPrefix (c :: s) (rev sp)) = 0%nat.
Proof.
  intros Hc s. assert (forallb (fun sp => match sp with c' :: _ => negb (visible c') | [] => false end) (spaces ++ (rev (A:=Z) <$> spaces)) = true) as Hsp by reflexivity.
  rewrite forallb_app, andb_true_iff in Hsp. destruct Hsp as [Hp Hr].
  assert (forall sp, match sp with c' :: _ => negb (visible c') | [] => false end = true -> HasPrefix (c :: s) sp = false) as Hno.
  { intros [|c' sp] Hsp; [done|]. cbn. destruct (Z.eqb_spec c' c) as [->|Hne]; [|done]. by rewrite Hc in Hsp. }
  assert (forall (f : bytes -> bool) l, forallb (fun sp => negb (f sp)) l = true -> List.find f l = None) as Hfind.
  { intros f l. induction l as [|x l IH]; [done|]. cbn. intros [Hx Hl]%andb_prop. destruct (f x); [done|]. by apply IH. }
  unfold space_length. rewrite !Hfind; [done|..].
  - rewrite forallb_forall in *. intros sp Hin. rewrite Hno; [done|]. apply Hr. apply in_map_iff. eauto.
  - rewrite forallb_forall in *. intros sp Hin. rewrite Hno; [done|]. by apply Hp.
Qed.
Lemma TrimSpace_visible c s c' s' : visible c = true -> visible c' = true -> c :: s = s' ++ [c'] -> strings_TrimSpace (c :: s) = c :: s.
Proof.
  intros Hc Hc' E. unfold strings_TrimSpace. cbn [length trimLeft]. rewrite (proj1 (no_space c Hc s)). cbn [length trimRight].
  assert (rev (c :: s) = c' :: rev s') as -> by (rewrite E, rev_app_distr; done). rewrite (proj2 (no_space c' Hc' _)).
  cbn [rev]. rewrite rev_involutive. by rewrite E.
Qed.

(** The date at the start of a text. *)
Lemma parseCivilDate_printed y m d rest : 1 <= y <= 9999 -> valid_civil (y, m, d) = true ->
  parseCivilDate (padded y 4 ++ str "-" ++ padded m 2 ++ str "-" ++ padded d 2 ++ rest) = Some (y, m, d, rest).
Proof.
  intros Hy Hv. unfold valid_civil in Hv. rewrite !andb_true_iff, !Z.leb_le in Hv. pose proof (monthLength_bounds y m).
  unfold parseCivilDate. rewrite scan_padded by (cbn; lia). cbn [mbind option_bind].
  rewrite scan_after by (done || cbn; lia). cbn [mbind option_bind]. rewrite scan_after by (done || cbn; lia). cbn [mbind option_bind].
  rewrite daysIn_monthLength by lia. by rewrite !(proj2 (Z.ltb_ge _ _)) by lia.
Qed.

Lemma visible_digit c : 48 <= c <= 57 -> visible c = true.
Proof. intros Hc. unfold visible. by rewrite !(proj2 (Z.leb_le _ _)) by lia. Qed.
Lemma all_digits_head s : s <> [] -> all_digits s -> exists c s', s = c :: s' /\ visible c = true.
Proof. intros Hs Hd. destruct Hd as [|c s' Hc Hs']; [done|]. eexists _, _. split; [done|]. by apply visible_digit. Qed.
Lemma all_digits_last s : s <> [] -> all_digits s -> exists s' c, s = s' ++ [c] /\ visible c = true.
Proof.
  intros Hs Hd. destruct (exists_last Hs) as (s' & c & ->). apply Forall_app in Hd as [_ Hd]. apply Forall_cons in Hd as [Hd _].
  exists s', c. split; [done|]. exact (visible_digit c Hd).
Qed.
Lemma ends_app (z : Z) (a b : bytes) : (exists pre, b = pre ++ [z]) -> exists pre, a ++ b = pre ++ [z].
Proof. intros (pre & ->). exists (a ++ pre). apply app_assoc. Qed.
(** A text between two numbers is not trimmed. *)
Lemma TrimSpace_numbers a b n w n' w' mid : a = padded n w -> b = padded n' w' -> 0 <= n < 10 ^ Z.of_nat w -> (0 < w <= 18)%nat ->
  0 <= n' < 10 ^ Z.of_nat w' -> (0 < w' <= 18)%nat -> strings_TrimSpace (a ++ mid ++ b) = a ++ mid ++ b.
Proof.
  intros -> -> Hn Hw Hn' Hw'. destruct (padded_spec n w) as (Hl & Hd & _); [done|done|]. destruct (padded_spec n' w') as (Hl' & Hd' & _); [done|done|].
  destruct (all_digits_head (padded n w)) as (c & s & E & Hc); [by intros E; rewrite E in Hl; cbn in Hl; lia|done|].
  destruct (all_digits_last (padded n' w')) as (s' & c' & E' & Hc'); [by intros E'; rewrite E' in Hl'; cbn in Hl'; lia|done|].
  rewrite E, E'. cbn [app]. apply (TrimSpace_visible c _ c' (c :: s ++ mid ++ s')); [done|done|]. cbn. by rewrite <- !app_assoc.
Qed.

(** A supported date reads back from its text. *)
Lemma date_text n : minDateDays <= n <= maxDateDays -> parseDateString (formatDate n) = Ret n.
Proof.
  intros Hn. unfold parseDateString, formatDate. rewrite civil_days. destruct (civil_of_days n) as [[y m] d] eqn:E.
  apply (supported_years _ _ _ _ E) in Hn as Hy. destruct (days_of_civil_of_days _ _ _ _ E) as [Hv Ed]. pose proof Hv as Hv'.
  unfold valid_civil in Hv. rewrite !andb_true_iff, !Z.leb_le in Hv. pose proof (monthLength_bounds y m).
  replace (padded y 4 ++ str "-" ++ padded m 2 ++ str "-" ++ padded d 2) with (padded y 4 ++ (str "-" ++ padded m 2 ++ str "-") ++ padded d 2) by by rewrite <- !app_assoc.
  erewrite TrimSpace_numbers; [|done|done|cbn; lia|lia|cbn; lia|lia]. rewrite <- !app_assoc.
  rewrite <- (app_nil_r (padded d 2)), parseCivilDate_printed by done. rewrite dateFromYMD_days, Ed by lia. by apply checkDate_ok.
Qed.

(** The fraction of a second as [formatTimestamp] prints it. *)
Definition fraction (us : Z) : bytes :=
  if us =? 0 then [] else if us mod 1000 =? 0 then str "." ++ padded (us / 1000) 3 else str "." ++ padded us 6.

Lemma number_app a b : number (a ++ b) = foldl (fun v c => v * 10 + (c - 48)) (number a) b.
Proof. unfold number. apply foldl_app. Qed.

Lemma padded_head n w : 0 <= n < 10 ^ Z.of_nat w -> (0 < w <= 18)%nat -> exists c s, padded n w = c :: s /\ isDigit c = true.
Proof.
  intros Hn Hw. destruct (padded_spec n w Hn Hw) as (Hl & Hd & _). destruct Hd as [|c s Hc Hs]; [cbn in Hl; lia|].
  eexists _, _. split; [done|]. unfold isDigit. by rewrite !(proj2 (Z.leb_le _ _)) by lia.
Qed.

Lemma parseClock_printed h mi sec us sep1 sep2 zone : 0 <= h < 24 -> 0 <= mi < 60 -> 0 <= sec < 60 -> 0 <= us < 1000000 ->
  sep1 = [32] -> sep2 = [58] -> match zone with c :: _ => isDigit c = false /\ c <> 46 | [] => True end ->
  parseClock (sep1 ++ padded h 2 ++ sep2 ++ padded mi 2 ++ sep2 ++ padded sec 2 ++ fraction us ++ zone) = Ret (h, mi, sec, us, zone).
Proof.
  intros Hh Hmi Hs Hus -> -> Hz. unfold parseClock. cbn [app].
  destruct (padded_head h 2) as (c & s & E & Hc); [cbn; lia|lia|]. rewrite E at 1. cbn [app]. rewrite Hc. cbn [Z.eqb Pos.eqb orb andb].
  rewrite scan_padded by (cbn; lia). cbn [scanAfter Z.eqb Pos.eqb]. rewrite scan_padded by (cbn; lia). rewrite scan_padded by (cbn; lia). unfold fraction. destruct (Z.eqb_spec us 0) as [->|Hu0].
  { destruct zone as [|z zone]; cbn [app].
    - cbn [mbind outcome_bind]. by rewrite !(proj2 (Z.ltb_ge _ _)) by lia.
    - assert (forall A (x y : A), match z with 46 => x | _ => y end = y) as Hm by (intros; repeat (case_match; try done); lia).
      rewrite Hm. cbn [mbind outcome_bind]. by rewrite !(proj2 (Z.ltb_ge _ _)) by lia. }
  assert (match zone with c :: _ => isDigit c = false | [] => True end) as Hz' by (destruct zone; [done|apply Hz]).
  assert (forall ds, all_digits ds -> (length ds = 3 \/ length ds = 6)%nat -> number (take 6 (ds ++ str "000000")) = us ->
    ('(sec, us, s) ← (let '(frac, s) := span isDigit (ds ++ zone) in
       if Nat.eqb (length frac) 0 || Nat.ltb 9 (length frac) then Err InvalidArgument
       else Ret (sec, number (take 6 (frac ++ str "000000")), s));
     if (23 <? h) || (59 <? mi) || (60 <? sec) then Err InvalidArgument else Ret (h, mi, sec, us, s)) = Ret (h, mi, sec, us, zone)) as Hfrac.
  { intros ds Hd Hl Hv. rewrite span_digits by done. cbn zeta beta iota. destruct Hl as [Hl|Hl]; rewrite Hl; cbn [Nat.eqb Nat.ltb Nat.leb orb];
      cbn [mbind outcome_bind]; rewrite Hv; by rewrite !(proj2 (Z.ltb_ge _ _)) by lia. }
  destruct (Z.eqb_spec (us mod 1000) 0) as [Hm|Hm].
  - destruct (padded_spec (us / 1000) 3) as (Hl & Hd & Hv); [cbn; dlia|lia|]. change (str ".") with [46]. cbn [app]. apply Hfrac; [done|by left|].
    assert (take 6 (padded (us / 1000) 3 ++ str "000000") = padded (us / 1000) 3 ++ [48; 48; 48]) as ->.
    { change (str "000000") with ([48; 48; 48] ++ [48; 48; 48]). rewrite app_assoc. apply take_app_length'. by rewrite length_app, Hl. }
    rewrite number_app, Hv. cbn [foldl]. dlia.
  - destruct (padded_spec us 6) as (Hl & Hd & Hv); [cbn; lia|lia|]. change (str ".") with [46]. cbn [app]. apply Hfrac; [done|by right|].
    by rewrite take_app_length' by done.
Qed.

(** The offset of a zone, in whole minutes, as [formatOffset] prints it. *)
Lemma parseZone_printed t loc' : tm_Zone t mod 60 = 0 -> - 53940 <= tm_Zone t <= 53940 -> parseZone (formatOffset t false) loc' = Ret (FixedZone (tm_Zone t)).
Proof.
  intros Hm Hr. unfold formatOffset. set (off := tm_Zone t) in *. cbn [orb].
  assert (0 <= Z.abs off / 3600 <= 14) as Hh by dlia. assert (0 <= Z.abs off mod 3600 / 60 <= 59) as Hmi by dlia.
  assert (Z.abs off = Z.abs off / 3600 * 3600 + Z.abs off mod 3600 / 60 * 60) as Habs by dlia.
  assert (off = (if off <? 0 then -1 else 1) * Z.abs off) as Hsgn by (destruct (Z.ltb_spec off 0); lia).
  set (h := Z.abs off / 3600) in *. set (m := Z.abs off mod 3600 / 60) in *. clearbody h m.
  assert (exists c, (if off <? 0 then str "-" else str "+") = [c] /\ visible c = true /\ (c = 43 \/ c = 45) /\ (if c =? 45 then -1 else 1) = (if off <? 0 then -1 else 1)) as (c & -> & Hc & Hc' & Hs).
  { destruct (off <? 0); [exists 45|exists 43]; split_and!; auto. }
  assert (forall rest, parseZone (c :: rest) loc' = if bool_decide (strings_TrimSpace (c :: rest) = []) then Ret loc' else if decide (rest = []) then parseZone [c] loc' else parseOffsetZone (c :: rest)) as Hpz.
  { intros rest. destruct Hc' as [-> | ->]; unfold parseZone; (case_bool_decide; [done|]); destruct rest as [|r rest]; try done;
      cbn [decide decide_rel]; by rewrite !bool_decide_eq_false_2 by done. }
  destruct (padded_head h 2) as (hc & hs & Eh & _); [cbn; lia|lia|]. destruct (Z.eqb_spec m 0) as [->|Hm0]; cbn [negb].
  - cbn [app]. rewrite Hpz. destruct (padded_spec h 2) as (Hl & Hd & _); [cbn; lia|lia|].
    destruct (all_digits_last (padded h 2)) as (s' & c' & E' & Hv'); [by rewrite Eh|done|].
    rewrite bool_decide_eq_false_2 by (rewrite (TrimSpace_visible c _ c' (c :: s')); [done|done|done|by rewrite E']).
    rewrite decide_False by (by rewrite Eh). unfold parseOffsetZone.
    rewrite (proj2 (negb_false_iff _)) by (destruct Hc' as [-> | ->]; done). rewrite <- (app_nil_r (padded h 2)), scan_padded by (cbn; lia).
    rewrite (proj2 (Z.ltb_ge _ _)) by lia. rewrite (proj2 (Z.ltb_ge _ _)) by lia. cbn [orb]. do 2 f_equal. rewrite Hs. lia.
  - cbn [app]. rewrite Hpz. destruct (padded_spec m 2) as (Hl & Hd & _); [cbn; lia|lia|].
    destruct (all_digits_last (padded m 2)) as (s' & c' & E' & Hv'); [by intros E; rewrite E in Hl|done|].
    rewrite bool_decide_eq_false_2 by (rewrite (TrimSpace_visible c _ c' (c :: padded h 2 ++ str ":" ++ s')); [done|done|done|by rewrite E', <- !app_comm_cons, <- !app_assoc]).
    rewrite decide_False by (by rewrite Eh). unfold parseOffsetZone.
    rewrite (proj2 (negb_false_iff _)) by (destruct Hc' as [-> | ->]; done). rewrite scan_padded by (cbn; lia).
    change (str ":") with [58]. cbn [app]. rewrite <- (app_nil_r (padded m 2)), scan_padded by (cbn; lia).
    rewrite (proj2 (Z.ltb_ge _ _)) by lia. rewrite (proj2 (Z.ltb_ge _ _)) by lia. cbn [orb]. do 2 f_equal. rewrite Hs. lia.
Qed.

(** In a zone of a fixed offset a wall-clock time is one instant. *)
Lemma civilToTime_fixed y mo d h mi sec us off : 1 <= mo <= 12 ->
  UnixMicro (civilToTime y mo d h mi sec us (FixedZone off)) = UnixMicro (time_Date y mo d h mi sec us UTC) - off * 1000000.
Proof.
  intros Hm. unfold civilToTime. rewrite bool_decide_eq_false_2 by done. cbv beta zeta. cbn [offset_at].
  match goal with |- context [if ?r then Some _ else None] => destruct r eqn:E end; cbn [UnixMicro].
  - by rewrite Z.ltb_irrefl.
  - rewrite Z.eqb_refl. rewrite time_Date_UTC by done. unfold time_Date. cbn [offset_at UnixMicro].
    replace ((mo - 1) / 12) with 0 by dlia. replace ((mo - 1) mod 12 + 1) with mo by dlia. rewrite Z.add_0_r.
    destruct (Z.eqb_spec off 0) as [->|]; lia.
Qed.

(** A timestamp printed in any zone whose offset is a whole number of minutes reads
    back, whatever the default zone of the reader. *)
Lemma timestamp_text ts loc loc' : minTimestampMicros <= ts <= maxTimestampMicros ->
  1 <= tm_Year (mkTime ts loc) <= 9999 -> tm_Zone (mkTime ts loc) mod 60 = 0 -> - 53940 <= tm_Zone (mkTime ts loc) <= 53940 ->
  parseTimestampString (formatTimestamp ts loc) loc' = Ret ts.
Proof.
  intros Hts Hy Hz Hr. unfold parseTimestampString, formatTimestamp, Format_seconds, ts_time, tm_In. cbn [UnixMicro].
  unfold tm_Year in Hy. rewrite floorMod_mod by lia. fold (fraction (ts mod 1000000)). set (t := mkTime ts loc) in *.
  destruct (tm_Date t) as [[y m] d] eqn:E. cbn [fst] in Hy. destruct (days_of_civil_of_days _ _ _ _ E) as [Hv Ed].
  assert (1 <= m <= 12) as Hm by (unfold valid_civil in Hv; rewrite !andb_true_iff, !Z.leb_le in Hv; lia).
  assert (0 <= tm_Hour t < 24 /\ 0 <= tm_Minute t < 60 /\ 0 <= tm_Second t < 60 /\
    wall t = wall_days t * 86400 + tm_Hour t * 3600 + tm_Minute t * 60 + tm_Second t) as (Hh & Hmi & Hse & Hw).
  { unfold tm_Hour, tm_Minute, tm_Second, wall_days. dlia. }
  assert (0 <= ts mod 1000000 < 1000000) as Hus by dlia.
  set (zone := formatOffset t false). assert (exists c s' c', zone = c :: s' ++ [c'] /\ visible c' = true /\ isDigit c = false /\ c <> 46) as (zc & zs & zc' & Ez & Hzv & Hzd & Hz46).
  { unfold zone, formatOffset. assert (0 <= Z.abs (tm_Zone t) / 3600 <= 14) by dlia. assert (0 <= Z.abs (tm_Zone t) mod 3600 / 60 <= 59) by dlia.
    destruct (padded_spec (Z.abs (tm_Zone t) / 3600) 2) as (Hl1 & Hd1 & _); [cbn; lia|lia|].
    destruct (padded_spec (Z.abs (tm_Zone t) mod 3600 / 60) 2) as (Hl2 & Hd2 & _); [cbn; lia|lia|].
    destruct (all_digits_last _ ltac:(by intros En; rewrite En in Hl1) Hd1) as (s1 & c1 & E1 & Hv1).
    destruct (all_digits_last _ ltac:(by intros En; rewrite En in Hl2) Hd2) as (s2 & c2 & E2 & Hv2).
    case_match; [exists (if tm_Zone t <? 0 then 45 else 43), (padded (Z.abs (tm_Zone t) / 3600) 2 ++ str ":" ++ s2), c2|exists (if tm_Zone t <? 0 then 45 else 43), s1, c1];
      rewrite ?E1, ?E2; destruct (tm_Zone t <? 0); split_and!; try done; by rewrite <- ?app_assoc. }
  rewrite <- !app_assoc.
  match goal with |- context [strings_TrimSpace ?x] => assert (strings_TrimSpace x = x) as -> end.
  { destruct (padded_head y 4) as (c & s' & Ey & _); [cbn; lia|lia|]. pose proof (proj1 (proj2 (padded_spec y 4 ltac:(cbn; lia) ltac:(lia)))) as Hyd.
    rewrite Ey in *. apply Forall_cons in Hyd as [Hyc _]. rewrite Ez. cbn [app].
    match goal with |- strings_TrimSpace (c :: ?x) = _ => assert (exists pre, c :: x = pre ++ [zc']) as (pre & Hpre) end.
    { apply (ends_app zc' [c]). do 12 apply ends_app. apply (ends_app zc' (zc :: zs)). by exists []. }
    by apply (TrimSpace_visible c _ zc' pre); [apply visible_digit| |]. }
  rewrite parseCivilDate_printed by done. rewrite (parseClock_printed _ _ _ _ (str " ") (str ":")) by (done || (rewrite Ez; done)). cbn [mbind outcome_bind].
  unfold zone. rewrite parseZone_printed by done. cbn [mbind outcome_bind]. rewrite (proj2 (Z.eqb_neq _ _)) by lia.
  rewrite civilToTime_fixed, time_Date_UTC, Ed by done. rewrite <- Hw. unfold wall, tm_Unix. cbn [UnixMicro].
  rewrite Z.mul_0_l, Z.add_0_r. match goal with |- checkTimestamp ?x = _ => replace x with ts by (subst t; cbn [UnixMicro]; dlia) end. by apply checkTimestamp_ok.
Qed.

End times_facts.
