(* ===== verification/SqlDates.v ===== *)
(** * Arithmetic on dates and timestamps

    The date and time helpers of [internal/gsql/funcs_time.go]: adding intervals,
    truncating to the start of a week, month, quarter, year or ISO year, differences,
    parts of a date, and the evaluation of LAST_DAY. *)

From S2P Require Import Prelude Rows SqlValues SqlArith Lexer SqlTime.
From stdpp Require Import base list.
From Stdlib Require Import ZArith Lia.

#[local] Open Scope Z_scope.

(** The names of date parts are those of the source; [WEEK] has its first day. *)
Record datePart : Type := mkDatePart { dp_name : bytes; dp_weekday : Z }.

Definition unitMicros (unit : bytes) : option Z :=
  if bool_decide (unit = str "MICROSECOND") then Some 1
  else if bool_decide (unit = str "MILLISECOND") then Some 1000
  else if bool_decide (unit = str "SECOND") then Some 1000000
  else if bool_decide (unit = str "MINUTE") then Some 60000000
  else if bool_decide (unit = str "HOUR") then Some 3600000000
  else if bool_decide (unit = str "DAY") then Some 86400000000
  else None.

(** [weekNumber] of [timefmt.go]: the days before the first [start] of the year are week 0. *)
Definition weekNumber (days start : Z) : Z :=
  let yday := yearDay_of days - 1 in
  let jan1 := weekday_of (days_of_civil (civil_of_days days).1.1 1 1) in
  let first := Z.rem (start - jan1 + 7) 7 in
  if yday <? first then 0 else Z.quot (yday - first) 7 + 1.

Section dates.
Context `{TimeZones}.

Definition addTimestamp (ts n : Z) (unit : bytes) : outcome Z :=
  match mulInt64 n (default 0 (unitMicros unit)) with
  | Ret d => match addInt64 ts d with Ret s => checkTimestamp s | _ => Err OutOfRange end
  | _ => Err OutOfRange
  end.

Definition checkDateI (d n : Z) : outcome Z := if (100000000 <? n) || (n <? -100000000) then Err OutOfRange else checkDate (d + n).

(** The months of MONTH, QUARTER and YEAR. *)
Definition monthsOf (part : bytes) : option Z :=
  if bool_decide (part = str "MONTH") then Some 1
  else if bool_decide (part = str "QUARTER") then Some 3
  else if bool_decide (part = str "YEAR") then Some 12
  else None.

Definition addDate (d n : Z) (part : bytes) : outcome Z :=
  if bool_decide (part = str "DAY") then checkDateI d n
  else if bool_decide (part = str "WEEK") then
    if (10000000 <? n) || (n <? -10000000) then Err OutOfRange else checkDateI d (n * 7)
  else
    match monthsOf part with
    | Some mult =>
        if (1000000 <? n) || (n <? -1000000) then Err OutOfRange
        else
          let '(y, m, day) := civil d in
          let total := y * 12 + (m - 1) + n * mult in
          let ny := floorDiv total 12 in
          let nm := floorMod total 12 + 1 in
          if (ny <? 1) || (9999 <? ny) then Err OutOfRange else dateFromYMD ny nm (Z.min day (daysIn nm ny))
    | None => Err OutOfRange
    end.

(** [r, _ := dateFromYMD(...)]: the error is dropped and the date is the zero date. *)
Definition orZero (r : outcome Z) : Z := match r with Ret d => d | _ => 0 end.

Definition isoYear (days : Z) : Z := (isoWeek_of days).1.
(** [jan4.AddDate(0, 0, -back)]. *)
Definition isoYearStart (iy : Z) : Z :=
  let jan4 := days_of_civil iy 1 4 in
  let back := Z.rem (weekday_of jan4 + 6) 7 in
  let '(y, m, d) := civil_of_days (jan4 - back) in orZero (dateFromYMD y m d).

Definition truncDate (d : Z) (dp : datePart) : Z :=
  let '(y, m, day) := civil d in
  let wd := weekday_of d in
  if bool_decide (dp_name dp = str "WEEK") then wrap32 (d - Z.rem (wd - dp_weekday dp + 7) 7)
  else if bool_decide (dp_name dp = str "ISOWEEK") then wrap32 (d - Z.rem (wd + 6) 7)
  else if bool_decide (dp_name dp = str "MONTH") then orZero (dateFromYMD y m 1)
  else if bool_decide (dp_name dp = str "QUARTER") then orZero (dateFromYMD y (Z.quot (m - 1) 3 * 3 + 1) 1)
  else if bool_decide (dp_name dp = str "YEAR") then orZero (dateFromYMD y 1 1)
  else if bool_decide (dp_name dp = str "ISOYEAR") then isoYearStart (isoYear d)
  else d.

Definition truncTimestamp (ts : Z) (dp : datePart) (loc : Location) : outcome Z :=
  let t := tm_In (ts_time ts) loc in
  match unitMicros (dp_name dp) with
  | Some u =>
      if bool_decide (dp_name dp = str "DAY") then
        d ← dateFromTime t;
        let '(y, m, day) := civil (truncDate d dp) in checkTimestamp (UnixMicro (civilToTime y m day 0 0 0 0 loc))
      else if bool_decide (dp_name dp = str "HOUR") || bool_decide (dp_name dp = str "MINUTE") then
        let sub := tm_Second t * 1000000 + UnixMicro t mod 1000000 in
        let sub := if bool_decide (dp_name dp = str "MINUTE") then sub else tm_Minute t * 60000000 + sub in
        checkTimestamp (ts - sub)
      else checkTimestamp (floorDiv ts u * u)
  | None =>
      d ← dateFromTime t;
      let '(y, m, day) := civil (truncDate d dp) in checkTimestamp (UnixMicro (civilToTime y m day 0 0 0 0 loc))
  end.

Definition dateDiff (a b : Z) (dp : datePart) : Z :=
  let '(ay, am, ad) := civil a in
  let '(by', bm, bd) := civil b in
  if bool_decide (dp_name dp = str "DAY") then a - b
  else if bool_decide (dp_name dp = str "WEEK") || bool_decide (dp_name dp = str "ISOWEEK") then Z.quot (truncDate a dp - truncDate b dp) 7
  else if bool_decide (dp_name dp = str "MONTH") then (ay * 12 + am) - (by' * 12 + bm)
  else if bool_decide (dp_name dp = str "QUARTER") then (ay * 4 + Z.quot (am - 1) 3) - (by' * 4 + Z.quot (bm - 1) 3)
  else if bool_decide (dp_name dp = str "YEAR") then ay - by'
  else if bool_decide (dp_name dp = str "ISOYEAR") then isoYear a - isoYear b
  else 0.

(** [extractPart]; [us] is the microsecond of the second.  NULL for another part. *)
Definition extractPart (t : Time) (us : Z) (dp : datePart) : option Z :=
  let p (s : bytes) := bool_decide (dp_name dp = s) in
  if p (str "MICROSECOND") then Some us
  else if p (str "MILLISECOND") then Some (Z.quot us 1000)
  else if p (str "SECOND") then Some (tm_Second t)
  else if p (str "MINUTE") then Some (tm_Minute t)
  else if p (str "HOUR") then Some (tm_Hour t)
  else if p (str "DAYOFWEEK") then Some (tm_Weekday t + 1)
  else if p (str "DAY") then Some (tm_Day t)
  else if p (str "DAYOFYEAR") then Some (tm_YearDay t)
  else if p (str "WEEK") then Some (weekNumber (wall_days t) (dp_weekday dp))
  else if p (str "ISOWEEK") then Some (tm_ISOWeek t).2
  else if p (str "MONTH") then Some (tm_Month t)
  else if p (str "QUARTER") then Some (Z.quot (tm_Month t - 1) 3 + 1)
  else if p (str "YEAR") then Some (tm_Year t)
  else if p (str "ISOYEAR") then Some (isoYear (wall_days t))
  else None.

Definition dateTime (d : Z) : Time := let '(y, m, day) := civil d in time_Date y m day 0 0 0 0 UTC.

(** The body of LAST_DAY. *)
Definition lastDay (d : Z) (dp : datePart) : outcome Z :=
  let start := truncDate d dp in
  if bool_decide (dp_name dp = str "WEEK") || bool_decide (dp_name dp = str "ISOWEEK") then checkDate (start + 6)
  else if bool_decide (dp_name dp = str "MONTH") then n ← addDate start 1 (str "MONTH"); Ret (n - 1)
  else if bool_decide (dp_name dp = str "QUARTER") then n ← addDate start 3 (str "MONTH"); Ret (n - 1)
  else if bool_decide (dp_name dp = str "YEAR") then let '(y, _, _) := civil start in dateFromYMD y 12 31
  else Ret (isoYearStart (isoYear (wall_days (dateTime start)) + 1) - 1).

(** ** Truncation *)

(** The parts that have a start. *)
Inductive truncPart : datePart -> Prop :=
| trunc_week w : 0 <= w <= 6 -> truncPart (mkDatePart (str "WEEK") w)
| trunc_isoweek w : truncPart (mkDatePart (str "ISOWEEK") w)
| trunc_month w : truncPart (mkDatePart (str "MONTH") w)
| trunc_quarter w : truncPart (mkDatePart (str "QUARTER") w)
| trunc_year w : truncPart (mkDatePart (str "YEAR") w)
| trunc_isoyear w : truncPart (mkDatePart (str "ISOYEAR") w).

Definition supported (d : Z) : Prop := minDateDays <= d <= maxDateDays.

(** The periods of a part, numbered: those of months, quarters and years by the
    month, those of weeks by the day of the week, those of ISO years by the year. *)
Definition period (dp : datePart) (d : Z) : Z :=
  let '(y, m, _) := civil_of_days d in
  if bool_decide (dp_name dp = str "WEEK") then (d + 4 - dp_weekday dp) / 7
  else if bool_decide (dp_name dp = str "ISOWEEK") then (d + 3) / 7
  else if bool_decide (dp_name dp = str "MONTH") then month_index y m
  else if bool_decide (dp_name dp = str "QUARTER") then month_index y m / 3
  else if bool_decide (dp_name dp = str "YEAR") then y
  else isoYear d.

Lemma civil_order a b ya ma da yb mb db : civil_of_days a = (ya, ma, da) -> civil_of_days b = (yb, mb, db) -> a <= b ->
  month_index ya ma <= month_index yb mb /\ ya <= yb.
Proof.
  intros Ea Eb Hab. destruct (days_of_civil_of_days _ _ _ _ Ea) as [Hva <-]. destruct (days_of_civil_of_days _ _ _ _ Eb) as [Hvb <-].
  unfold valid_civil in Hva, Hvb. rewrite !andb_true_iff, !Z.leb_le in Hva, Hvb.
  destruct (days_of_civil_index ya ma da) as (E1 & Ey & Em); [lia|]. destruct (days_of_civil_index yb mb db) as (E1' & Ey' & Em'); [lia|].
  assert (month_index ya ma <= month_index yb mb) as Hm.
  { apply Z.nlt_ge. intros Hlt. apply month_start_mono in Hlt. rewrite Ey', Em' in Hlt. lia. }
  split; [done|]. rewrite <- Ey, <- Ey'. by apply Z.div_le_mono.
Qed.

Lemma dateFromYMD_start y m : 1 <= m <= 12 -> supported (days_of_civil y m 1) -> orZero (dateFromYMD y m 1) = days_of_civil y m 1.
Proof. intros Hm Hs. rewrite dateFromYMD_days by done. unfold orZero. by rewrite checkDate_ok. Qed.

(** The first of an earlier or the same month of the same year is supported. *)
Lemma start_supported d y m day m0 : supported d -> civil_of_days d = (y, m, day) -> 1 <= m0 <= m ->
  supported (days_of_civil y m0 1) /\ civil_of_days (days_of_civil y m0 1) = (y, m0, 1) /\ days_of_civil y m0 1 <= d.
Proof.
  intros Hs E Hm0. destruct (days_of_civil_of_days _ _ _ _ E) as [Hv Ed]. unfold valid_civil in Hv. rewrite !andb_true_iff, !Z.leb_le in Hv.
  pose proof (monthLength_bounds y m0). assert (civil_of_days (days_of_civil y m0 1) = (y, m0, 1)) as E0.
  { apply civil_of_days_of_civil. unfold valid_civil. rewrite !andb_true_iff, !Z.leb_le. lia. }
  split_and!; [|done|].
  - apply (supported_years _ _ _ _ E0). by apply (supported_years _ _ _ _ E).
  - rewrite <- Ed. destruct (days_of_civil_index y m day) as (E1 & _); [lia|]. destruct (days_of_civil_index y m0 1) as (E2 & Ey & Em); [lia|].
    rewrite E1, E2. destruct (decide (m0 = m)) as [->|]; [lia|]. assert (month_index y m0 < month_index y m) as Hlt by (unfold month_index; lia).
    apply month_start_mono in Hlt. pose proof (monthLength_bounds (month_index y m0 / 12) (month_index y m0 mod 12 + 1)). lia.
Qed.

(** ISO years start on the Monday of the week of the 4th of January. *)
Definition monday (d : Z) : Z := d - (d + 3) mod 7.
Lemma isoYear_thursday d : isoYear d = (civil_of_days (monday d + 3)).1.1.
Proof.
  unfold isoYear, isoWeek_of, monday, weekday_of. cbn [fst]. do 3 f_equal. destruct (Z.eqb_spec (4 - (d + 4) mod 7) 4); dlia.
Qed.
Lemma isoYearStart_monday iy : supported (monday (days_of_civil iy 1 4)) -> isoYearStart iy = monday (days_of_civil iy 1 4).
Proof.
  intros Hs. unfold isoYearStart. replace (days_of_civil iy 1 4 - Z.rem (weekday_of (days_of_civil iy 1 4) + 6) 7) with (monday (days_of_civil iy 1 4)) by (unfold monday, weekday_of; dlia).
  destruct (civil_of_days (monday (days_of_civil iy 1 4))) as [[y m] d] eqn:E. destruct (days_of_civil_of_days _ _ _ _ E) as [Hv Ed].
  unfold valid_civil in Hv. rewrite !andb_true_iff, !Z.leb_le in Hv. rewrite dateFromYMD_days, Ed by lia. unfold orZero. by rewrite checkDate_ok.
Qed.
Lemma iso_start d : supported d -> isoYearStart (isoYear d) = monday (days_of_civil (isoYear d) 1 4) /\
  monday (days_of_civil (isoYear d) 1 4) <= d /\ isoYear (monday (days_of_civil (isoYear d) 1 4)) = isoYear d.
Proof.
  intros Hs. rewrite (isoYear_thursday d). destruct (civil_of_days (monday d + 3)) as [[y m] day] eqn:E. cbn [fst].
  destruct (days_of_civil_of_days _ _ _ _ E) as [Hv Ed]. unfold valid_civil in Hv. rewrite !andb_true_iff, !Z.leb_le in Hv.
  assert (civil_of_days (days_of_civil y 1 1) = (y, 1, 1)) as E1 by (apply civil_of_days_of_civil; done).
  assert (days_of_civil y 1 4 = days_of_civil y 1 1 + 3) as E4 by (rewrite (days_of_civil_day y 1 4); lia).
  assert (days_of_civil y 1 1 <= monday d + 3) as Hjan.
  { apply Z.nlt_ge. intros Hlt. assert (monday d + 3 <= days_of_civil y 1 1 - 1) as Hle by lia.
    destruct (civil_of_days (days_of_civil y 1 1 - 1)) as [[y0 m0] d0] eqn:E0. pose proof (civil_order _ _ _ _ _ _ _ _ E E0 Hle) as [_ Hy].
    pose proof (civil_next (days_of_civil y 1 1 - 1)) as Hn. rewrite E0 in Hn. replace (days_of_civil y 1 1 - 1 + 1) with (days_of_civil y 1 1) in Hn by lia. rewrite E1 in Hn.
    destruct (days_of_civil_of_days _ _ _ _ E0) as [Hv0 _]. unfold valid_civil in Hv0. rewrite !andb_true_iff, !Z.leb_le in Hv0.
    unfold next_day in Hn. destruct (d0 <? _) eqn:Hd0; [|destruct (m0 <? 12)]; simplify_eq; lia. }
  assert (monday (days_of_civil y 1 4) <= monday d) as Hle by (unfold monday in *; dlia). assert (monday d <= d) by (unfold monday; dlia).
  assert (supported (monday (days_of_civil y 1 4))) as Hsm.
  { split; [|unfold supported in Hs; lia]. assert (minDateDays <= days_of_civil y 1 1) as Hmin.
    { assert (minDateDays mod 7 = 4) by reflexivity. assert (minDateDays <= monday d) by (unfold supported, monday in *; dlia).
      assert (1 <= y) as Hy by (destruct (civil_of_days minDateDays) as [[ym mm] dm] eqn:Em; pose proof (civil_order minDateDays (monday d + 3) _ _ _ _ _ _ Em E ltac:(lia)) as [_ Hy]; vm_compute in Em; injection Em as <- _ _; lia).
      apply Z.nlt_ge. intros Hc. destruct (civil_of_days minDateDays) as [[ym mm] dm] eqn:Em.
      pose proof (civil_order _ _ _ _ _ _ _ _ E1 Em ltac:(lia)) as [_ Hy']. vm_compute in Em. injection Em as <- _ _.
      assert (y = 1) as -> by lia. vm_compute in Hc. done. }
    assert (minDateDays mod 7 = 4) by reflexivity. unfold monday. rewrite E4. dlia. }
  split_and!; [by apply isoYearStart_monday|lia|].
  rewrite isoYear_thursday. assert (days_of_civil y 1 1 <= monday (monday (days_of_civil y 1 4)) + 3 <= days_of_civil y 1 1 + 6) as Hr by (unfold monday; rewrite E4; dlia).
  set (th := monday (monday (days_of_civil y 1 4)) + 3) in *. replace th with (days_of_civil y 1 (1 + (th - days_of_civil y 1 1))) by (rewrite days_of_civil_day; lia).
  rewrite civil_of_days_of_civil; [done|]. unfold valid_civil. rewrite !andb_true_iff, !Z.leb_le. cbn [monthLength Z.eqb orb]. unfold monthLength. cbn. lia.
Qed.

(** The first of a month of the period is its earliest day. *)
Lemma month_start_floor d y m day m0 : supported d -> civil_of_days d = (y, m, day) -> 1 <= m0 <= m ->
  orZero (dateFromYMD y m0 1) <= d /\ civil_of_days (orZero (dateFromYMD y m0 1)) = (y, m0, 1) /\
  (forall d' m' day', supported d' -> civil_of_days d' = (y, m', day') -> m0 <= m' -> orZero (dateFromYMD y m0 1) <= d').
Proof.
  intros Hs E Hm0. destruct (start_supported d y m day m0 Hs E Hm0) as (H1 & H2 & H3).
  destruct (days_of_civil_of_days _ _ _ _ E) as [Hv _]. unfold valid_civil in Hv. rewrite !andb_true_iff, !Z.leb_le in Hv.
  rewrite dateFromYMD_start by (done || lia). split_and!; [done|done|]. intros d' m' day' Hs' E' Hm'. apply (start_supported d' y m' day' m0 Hs' E'). lia.
Qed.

(** Truncating a supported date yields the earliest day of the period it lies in. *)
Lemma truncDate_floor dp d : truncPart dp -> supported d ->
  truncDate d dp <= d /\ period dp (truncDate d dp) = period dp d /\ (forall d', supported d' -> period dp d' = period dp d -> truncDate d dp <= d').
Proof.
  intros Hp Hs. unfold truncDate, period. rewrite civil_days. destruct (civil_of_days d) as [[y m] day] eqn:E.
  destruct (days_of_civil_of_days _ _ _ _ E) as [Hv _]. unfold valid_civil in Hv. rewrite !andb_true_iff, !Z.leb_le in Hv.
  destruct Hp as [w Hw|w|w|w|w|w]; cbn [dp_name dp_weekday];
    repeat match goal with |- context [bool_decide (str ?a = str ?b)] => (rewrite (bool_decide_eq_true_2 (str a = str b)) by done) || (rewrite (bool_decide_eq_false_2 (str a = str b)) by done) end.
  - rewrite wrap32_id by (unfold weekday_of, supported, minDateDays, maxDateDays in *; dlia). unfold weekday_of. split_and!; [dlia| |intros d' _]; repeat case_match; dlia.
  - rewrite wrap32_id by (unfold weekday_of, supported, minDateDays, maxDateDays in *; dlia). unfold weekday_of. split_and!; [dlia| |intros d' _]; repeat case_match; dlia.
  - destruct (month_start_floor d y m day m Hs E ltac:(lia)) as (H1 & H2 & H3). rewrite H2. split_and!; [done|done|]. intros d' Hs'.
    destruct (civil_of_days d') as [[y' m'] day'] eqn:E'. destruct (days_of_civil_of_days _ _ _ _ E') as [Hv' _]. unfold valid_civil in Hv'. rewrite !andb_true_iff, !Z.leb_le in Hv'.
    unfold month_index. intros Em. assert (y' = y) as -> by lia. apply (H3 d' m' day'); [done|done|lia].
  - assert (1 <= Z.quot (m - 1) 3 * 3 + 1 <= m) as Hm0 by dlia. destruct (month_start_floor d y m day _ Hs E Hm0) as (H1 & H2 & H3). rewrite H2.
    unfold month_index. split_and!; [done|dlia|]. intros d' Hs'.
    destruct (civil_of_days d') as [[y' m'] day'] eqn:E'. destruct (days_of_civil_of_days _ _ _ _ E') as [Hv' _]. unfold valid_civil in Hv'. rewrite !andb_true_iff, !Z.leb_le in Hv'.
    intros Em. assert (y' = y) as -> by (clear -Em Hv Hv'; dlia). apply (H3 d' m' day'); [done|done|clear -Em Hv Hv'; dlia].
  - destruct (month_start_floor d y m day 1 Hs E ltac:(lia)) as (H1 & H2 & H3). rewrite H2. split_and!; [done|done|]. intros d' Hs'.
    destruct (civil_of_days d') as [[y' m'] day'] eqn:E'. destruct (days_of_civil_of_days _ _ _ _ E') as [Hv' _]. unfold valid_civil in Hv'. rewrite !andb_true_iff, !Z.leb_le in Hv'.
    intros ->. apply (H3 d' m' day'); [done|done|lia].
  - destruct (iso_start d Hs) as (H1 & H2 & H3). rewrite H1. split_and!; [done|by case_match; case_match|]. intros d' Hs'.
    destruct (civil_of_days d') as [[y' m'] day']. intros Ei. destruct (iso_start d' Hs') as (_ & H2' & _). by rewrite Ei in H2'.
Qed.

(** Adding months clamps the day to the target month. *)
Lemma addDate_months d n part k y m day : monthsOf part = Some k -> -1000000 <= n <= 1000000 -> civil_of_days d = (y, m, day) ->
  let total := month_index y m + n * k in
  addDate d n part = if (1 <=? total / 12) && (total / 12 <=? 9999)
    then Ret (days_of_civil (total / 12) (total mod 12 + 1) (Z.min day (monthLength (total / 12) (total mod 12 + 1)))) else Err OutOfRange.
Proof.
  intros Hk Hn E total. unfold addDate. assert (part <> str "DAY" /\ part <> str "WEEK") as [Hd Hw].
  { unfold monthsOf in Hk. split; intros ->; repeat (case_bool_decide; [done|]); done. }
  rewrite !bool_decide_eq_false_2 by done. rewrite Hk, !(proj2 (Z.ltb_ge _ _)) by lia. cbn [orb]. rewrite civil_days, E.
  change (y * 12 + (m - 1) + n * k) with total. rewrite floorDiv_div, floorMod_mod by lia.
  assert (1 <= total mod 12 + 1 <= 12) as Hm by dlia. destruct (Z.leb_spec 1 (total / 12)) as [H1|H1]; [|by rewrite (proj2 (Z.ltb_lt _ _)) by lia].
  rewrite (proj2 (Z.ltb_ge _ _)) by lia. cbn [orb andb]. destruct (Z.leb_spec (total / 12) 9999) as [H2|H2]; [|by rewrite (proj2 (Z.ltb_lt _ _)) by lia].
  rewrite (proj2 (Z.ltb_ge _ _)) by lia. rewrite daysIn_monthLength, dateFromYMD_days by done. apply checkDate_ok.
  destruct (days_of_civil_of_days _ _ _ _ E) as [Hv _]. unfold valid_civil in Hv. rewrite !andb_true_iff, !Z.leb_le in Hv.
  pose proof (monthLength_bounds (total / 12) (total mod 12 + 1)).
  eapply supported_years; [apply civil_of_days_of_civil; unfold valid_civil; rewrite !andb_true_iff, !Z.leb_le; lia|lia].
Qed.

(** ** Results outside the supported dates *)

(** The week of the first supported days starts before them: DATE_TRUNC returns a
    date that [checkDate] refuses. *)
Theorem truncDate_escapes : truncDate minDateDays (mkDatePart (str "WEEK") 0) = minDateDays - 1 /\ checkDate (minDateDays - 1) = Err OutOfRange.
Proof. split; reflexivity. Qed.
(** The last days of December 9999 and of its quarter are supported, but LAST_DAY
    computes them from the first of the next month, which is not. *)
Theorem lastDay_december_9999 : lastDay maxDateDays (mkDatePart (str "MONTH") 0) = Err OutOfRange /\
  lastDay maxDateDays (mkDatePart (str "QUARTER") 0) = Err OutOfRange /\ lastDay maxDateDays (mkDatePart (str "YEAR") 0) = Ret maxDateDays.
Proof. split_and!; reflexivity. Qed.
(** The last ISO year ends after the supported dates; the dropped error makes its
    last day 1969-12-31. *)
Theorem lastDay_isoyear_9999 : lastDay maxDateDays (mkDatePart (str "ISOYEAR") 0) = Ret (-1) /\ formatDate (-1) = str "1969-12-31".
Proof. split; reflexivity. Qed.

End dates.
