(* ===== verification/Like.v ===== *)
(** * LIKE patterns

    [compileLike], [likePattern.match] and [likePrefix] of [internal/gsql/ops.go].  The
    matcher is a loop over two positions that, on a mismatch, goes back to the last [%]
    and lets it take one more character.  [match_loop_spec] shows that it decides the
    textbook definition [likeMatches] and that the fuel of the model is enough. *)

From S2P Require Import Prelude Rows KeySchema SqlValues.
From stdpp Require Import base list.
From Stdlib Require Import ZArith Lia.

#[local] Open Scope Z_scope.

(** A literal, any one character, or any sequence. *)
Inductive likeTok : Type := TokLit (r : Z) | TokOne | TokMany.
Record likePattern : Type := mkLike { lp_isStr : bool; lp_toks : list likeTok }.

(** The elements of a text: the runes of a STRING, the bytes of BYTES. *)
Definition likeElems (v : value) (isStr : bool) : outcome (list Z) :=
  match v, isStr with
  | VString s, true => Ret (runes 0 s)
  | VBytes b, false => Ret b
  | _, _ => Panic
  end.

(** The loop of [compileLike]; [prev] tells that the last token is a [%]. *)
Fixpoint compileToks (prev : bool) (elems : list Z) : outcome (list likeTok) :=
  match elems with
  | [] => Ret []
  | c :: rest =>
      if c =? 92 then
        match rest with
        | [] => Err OutOfRange
        | r :: rest' => toks ← compileToks false rest'; Ret (TokLit r :: toks)
        end
      else if c =? 37 then
        if prev then compileToks true rest else toks ← compileToks true rest; Ret (TokMany :: toks)
      else if c =? 95 then toks ← compileToks false rest; Ret (TokOne :: toks)
      else toks ← compileToks false rest; Ret (TokLit c :: toks)
  end.
Definition compileLike (pat : value) (isStr : bool) : outcome likePattern :=
  elems ← likeElems pat isStr; toks ← compileToks false elems; Ret (mkLike isStr toks).

(** [lp.toks[pi:]] matches when only [%] is left. *)
Definition onlyMany (p : list likeTok) : bool := forallb (fun t => match t with TokMany => true | _ => false end) p.

(** The loop of [match]: [s] and [p] are what follows [si] and [pi]; [star] holds what
    follows the last [%] of the pattern and what follows [starS]. *)
Fixpoint matchLoop (fuel : nat) (s : list Z) (p : list likeTok) (star : option (list likeTok * list Z)) : option bool :=
  match fuel with
  | O => None
  | S fuel =>
      match s with
      | [] => Some (onlyMany p)
      | c :: s' =>
          let back :=
            match star with
            | Some (ps, _ :: ss) => matchLoop fuel ss ps (Some (ps, ss))
            | Some (_, []) | None => Some false
            end in
          match p with
          | TokMany :: p' => matchLoop fuel s p' (Some (p', s))
          | TokOne :: p' => matchLoop fuel s' p' star
          | TokLit r :: p' => if r =? c then matchLoop fuel s' p' star else back
          | [] => back
          end
      end
  end.
Definition matchFuel (s : list Z) (p : list likeTok) : nat :=
  (length p + 2) * ((length s + 2) * (length s + length p + 2)).
Definition like_match (lp : likePattern) (v : value) : outcome bool :=
  s ← likeElems v (lp_isStr lp);
  match matchLoop (matchFuel s (lp_toks lp)) s (lp_toks lp) None with Some b => Ret b | None => Panic end.

(** [likePrefix]: the literal prefix, and whether the pattern is that literal. *)
Fixpoint likeLiteralPrefix (pat : bytes) : bytes * bool :=
  match pat with
  | [] => ([], true)
  | c :: rest =>
      if c =? 92 then
        match rest with
        | r :: rest' => let '(pre, exact) := likeLiteralPrefix rest' in (r :: pre, exact)
        | [] => ([], false)
        end
      else if (c =? 37) || (c =? 95) then ([], false)
      else let '(pre, exact) := likeLiteralPrefix rest in (c :: pre, exact)
  end.

(** ** What a pattern means *)

Fixpoint likeMatches (p : list likeTok) (s : list Z) {struct p} : bool :=
  match p with
  | [] => match s with [] => true | _ => false end
  | TokLit r :: p' => match s with c :: s' => (r =? c) && likeMatches p' s' | [] => false end
  | TokOne :: p' => match s with _ :: s' => likeMatches p' s' | [] => false end
  | TokMany :: p' => (fix any (s : list Z) : bool := likeMatches p' s || match s with _ :: s' => any s' | [] => false end) s
  end.

Lemma many_unfold p s : likeMatches (TokMany :: p) s = likeMatches p s || match s with _ :: s' => likeMatches (TokMany :: p) s' | [] => false end.
Proof. by destruct s. Qed.
Lemma many_suffix p u s : likeMatches (TokMany :: p) s = true -> likeMatches (TokMany :: p) (u ++ s) = true.
Proof. induction u as [|c u IH]; intros H; [done|]. cbn [app]. rewrite many_unfold, IH by done. apply orb_true_r. Qed.
Lemma onlyMany_nil p : likeMatches p [] = onlyMany p.
Proof. induction p as [|[r| |] p IH]; cbn; try done. rewrite IH. by rewrite orb_false_r. Qed.

Definition starFree (q : list likeTok) : Prop := Forall (fun t => t <> TokMany) q.
(** Tokens without [%] take one character each. *)
Lemma starFree_take q : starFree q -> forall p s, likeMatches (q ++ p) s = true -> (length q <= length s)%nat /\ likeMatches p (drop (length q) s) = true.
Proof.
  induction 1 as [|t q Ht Hq IH]; intros p s H; [split; [cbn; lia|done]|]. destruct t as [r| |]; [| |done]; destruct s as [|c s]; cbn in H; try done.
  - apply andb_prop in H as [_ H]. apply IH in H as [Hl H]. cbn. split; [lia|done].
  - apply IH in H as [Hl H]. cbn. split; [lia|done].
Qed.
(** After a [%]: some suffix matches. *)
Lemma many_some p s : likeMatches (TokMany :: p) s = true -> exists k, (k <= length s)%nat /\ likeMatches p (drop k s) = true.
Proof.
  induction s as [|c s IH]; rewrite many_unfold; intros [H|H]%orb_prop; [exists 0%nat; split; [lia|done]|done|exists 0%nat; split; [lia|done]|].
  apply IH in H as (k & Hk & H). exists (S k). cbn. split; [lia|done].
Qed.

(** The choices the last [%] still has. *)
Definition later (star : option (list likeTok * list Z)) : bool :=
  match star with Some (ps, _ :: ss) => likeMatches (TokMany :: ps) ss | _ => false end.
(** What was matched since the last [%] is one character for each token. *)
Definition since (star : option (list likeTok * list Z)) (p : list likeTok) (s : list Z) : Prop :=
  match star with
  | Some (ps, ss) => exists q, ps = q ++ p /\ starFree q /\ (length q <= length ss)%nat /\ s = drop (length q) ss
  | None => True
  end.

(** A later choice of the last [%] is covered by a new one. *)
Lemma later_covered star p s : since star (TokMany :: p) s -> later star = true -> likeMatches (TokMany :: p) s = true.
Proof.
  destruct star as [[ps [|c ss]]|]; try done. intros (q & -> & Hq & Hl & ->) H. cbn [later] in H. apply many_some in H as (k & Hk & H).
  apply starFree_take in H as [Hlen H]; [|done]. rewrite length_drop in Hlen. rewrite drop_drop in H.
  assert (drop (length q) (c :: ss) = take (k + 1) (drop (length q) (c :: ss)) ++ drop (k + length q) ss) as ->; [|by apply many_suffix].
  rewrite <- (take_drop (k + 1) (drop (length q) (c :: ss))) at 1. f_equal. rewrite drop_drop. replace (length q + (k + 1))%nat with (S (k + length q)) by lia. done.
Qed.
Lemma later_end star p : since star p [] -> later star = true -> False.
Proof.
  destruct star as [[ps [|c ss]]|]; try done. intros (q & -> & Hq & Hl & Hd) H. cbn [later] in H. apply many_some in H as (k & Hk & H).
  apply starFree_take in H as [Hlen _]; [|done]. rewrite length_drop in Hlen. symmetry in Hd. apply (f_equal length) in Hd. rewrite length_drop in Hd. cbn in Hd, Hl. lia.
Qed.
Lemma since_step star t p c s : t <> TokMany -> since star (t :: p) (c :: s) -> since star p s.
Proof.
  destruct star as [[ps ss]|]; [|done]. intros Ht (q & -> & Hq & Hl & Hd). exists (q ++ [t]). rewrite <- app_assoc, length_app. cbn [length app].
  pose proof (f_equal length Hd) as Hlen. rewrite length_drop in Hlen. cbn in Hlen.
  split_and!; [done|apply Forall_app; split; [done|by constructor; [|constructor]]|lia|]. rewrite <- drop_drop, <- Hd. done.
Qed.

(** The loop decides the choices that are left. *)
Lemma matchLoop_spec fuel : forall s p star b, since star p s -> matchLoop fuel s p star = Some b -> b = likeMatches p s || later star.
Proof.
  induction fuel as [|fuel IH]; intros s p star b Hs E; [done|]. cbn [matchLoop] in E. destruct s as [|c s].
  { injection E as <-. rewrite onlyMany_nil. destruct (later star) eqn:El; [exfalso; by eapply later_end|]. by rewrite orb_false_r. }
  assert (match star with Some (ps, _ :: ss) => matchLoop fuel ss ps (Some (ps, ss)) | Some (_, []) | None => Some false end = Some b -> b = later star) as Hback.
  { destruct star as [[ps [|c' ss]]|]; [by intros [= <-]| |by intros [= <-]]. intros Eb. apply IH in Eb; [|by exists []; split_and!; [|constructor|cbn; lia|]].
    rewrite Eb. cbn [later]. by rewrite (many_unfold ps ss). }
  destruct p as [|[r| |] p].
  - cbn. by apply Hback.
  - cbn [likeMatches]. destruct (Z.eqb_spec r c) as [->|Hne]; [|by apply Hback]. cbn [andb]. apply IH in E; [done|]. by eapply since_step; [|exact Hs].
  - cbn [likeMatches]. apply IH in E; [done|]. by eapply since_step; [|exact Hs].
  - apply IH in E; [|by exists []; split_and!; [|constructor|cbn; lia|]]. cbn [later] in E. rewrite <- (many_unfold p (c :: s)) in E.
    destruct (later star) eqn:El; [|by rewrite orb_false_r]. rewrite (later_covered _ _ _ Hs El) in E |- *. done.
Qed.

(** Each turn of the loop makes progress: a new [%], a later choice, or a character. *)
Definition turns (K N : nat) (s : list Z) (p : list likeTok) (star : option (list likeTok * list Z)) : nat :=
  match star with
  | Some (ps, ss) => length ps * (N * K) + length ss * K + (length s + length p)
  | None => (length p + 1) * (N * K) + (length s + length p)
  end.
Lemma matchLoop_total K N fuel : forall s p star, since star p s ->
  match star with Some (ps, ss) => (length ss < N /\ length ss + length ps < K)%nat | None => (length s < N /\ length s + length p < K)%nat end ->
  (turns K N s p star < fuel)%nat -> exists b, matchLoop fuel s p star = Some b.
Proof.
  induction fuel as [|fuel IH]; intros s p star Hs Hb Hf; [lia|]. cbn [matchLoop]. destruct s as [|c s]; [eauto|].
  assert (exists b, match star with Some (ps, _ :: ss) => matchLoop fuel ss ps (Some (ps, ss)) | Some (_, []) | None => Some false end = Some b) as Hback.
  { destruct star as [[ps [|c' ss]]|]; [eauto| |eauto]. apply IH; [by exists []; split_and!; [|constructor|cbn; lia|]|cbn in *; lia|]. cbn [turns length] in *. lia. }
  assert (match star with Some (ps, ss) => (length (c :: s) <= length ss /\ length p <= length ps)%nat | None => True end) as Hle.
  { destruct star as [[ps ss]|]; [|done]. destruct Hs as (q & -> & _ & _ & ->). rewrite length_drop, length_app. lia. }
  destruct p as [|[r| |] p]; [done| | |].
  - destruct (r =? c); [|done]. apply IH; [by eapply since_step; [|exact Hs]|destruct star as [[ps ss]|]; cbn in *; lia|]. destruct star as [[ps ss]|]; cbn [turns length] in *; nia.
  - apply IH; [by eapply since_step; [|exact Hs]|destruct star as [[ps ss]|]; cbn in *; lia|]. destruct star as [[ps ss]|]; cbn [turns length] in *; nia.
  - apply IH; [by exists []; split_and!; [|constructor|cbn; lia|]|destruct star as [[ps ss]|]; cbn in *; lia|].
    assert (length (c :: s) * K <= match star with Some (_, ss) => length ss | None => N end * K)%nat as Hk by (apply Nat.mul_le_mono_r; destruct star as [[ps ss]|]; cbn in *; lia).
    assert (length p * (N * K) <= match star with Some (ps, _) => length ps | None => length p end * (N * K))%nat as Hnk by (apply Nat.mul_le_mono_r; destruct star as [[ps ss]|]; cbn in *; lia).
    unfold turns in *. destruct star as [[ps ss]|]; cbn [length] in *; nia.
Qed.

(** The matcher always returns, and returns what the pattern means. *)
Lemma match_loop_spec s p : matchLoop (matchFuel s p) s p None = Some (likeMatches p s).
Proof.
  destruct (matchLoop_total (length s + length p + 1) (length s + 1) (matchFuel s p) s p None) as [b E]; [done|lia| |].
  { unfold turns, matchFuel. nia. }
  rewrite E. apply matchLoop_spec in E; [|done]. by rewrite orb_false_r in E; subst.
Qed.

(** ** The prefix of a pattern *)

Lemma likeLiteralPrefix_sound pat : forall prev toks s, compileToks prev pat = Ret toks -> likeMatches toks s = true ->
  exists rest, s = (likeLiteralPrefix pat).1 ++ rest /\ ((likeLiteralPrefix pat).2 = true -> rest = []).
Proof.
  remember (length pat) as n eqn:Hn. revert pat Hn. induction (lt_wf n) as [n _ IH]. intros pat -> prev toks s Hc Hm.
  destruct pat as [|c pat]; cbn in Hc |- *; [injection Hc as <-; exists s; split; [done|by destruct s]|].
  destruct (Z.eqb_spec c 92) as [->|Hc92].
  { destruct pat as [|r pat]; [done|]. inv_outcome. destruct s as [|x s]; [done|]. cbn in Hm. apply andb_prop in Hm as [<-%Z.eqb_eq Hm].
    destruct (IH (length pat) ltac:(cbn; lia) pat eq_refl _ _ _ E Hm) as (rest & -> & He). destruct (likeLiteralPrefix pat) as [pre exact]. exists rest. by split. }
  destruct (Z.eqb_spec c 37) as [->|Hc37]; [exists s; by split|]. destruct (Z.eqb_spec c 95) as [->|Hc95]; [exists s; by split|]. cbn [orb].
  inv_outcome. destruct s as [|x s]; [done|]. cbn in Hm. apply andb_prop in Hm as [<-%Z.eqb_eq Hm].
  destruct (IH (length pat) ltac:(cbn; lia) pat eq_refl _ _ _ E Hm) as (rest & -> & He). destruct (likeLiteralPrefix pat) as [pre exact]. exists rest. by split.
Qed.

(** ** The meaning of a pattern text *)

(** A backslash takes the next character literally; [%] is any sequence, [_] any one
    character. *)
Fixpoint patternMatches (pat s : list Z) {struct pat} : bool :=
  match pat with
  | [] => match s with [] => true | _ => false end
  | c :: rest =>
      if c =? 92 then
        match rest with
        | [] => false
        | r :: rest' => match s with x :: s' => (r =? x) && patternMatches rest' s' | [] => false end
        end
      else if c =? 37 then (fix any (s : list Z) : bool := patternMatches rest s || match s with _ :: s' => any s' | [] => false end) s
      else match s with x :: s' => ((c =? 95) || (c =? x)) && patternMatches rest s' | [] => false end
  end.

Lemma pattern_many rest s : patternMatches (37 :: rest) s = patternMatches rest s || match s with _ :: s' => patternMatches (37 :: rest) s' | [] => false end.
Proof. by destruct s. Qed.
Lemma pattern_many_twice rest s : patternMatches (37 :: 37 :: rest) s = patternMatches (37 :: rest) s.
Proof.
  induction s as [|x s IH]; rewrite pattern_many; [by rewrite orb_false_r|]. rewrite IH, (pattern_many rest (x :: s)). rewrite <- orb_assoc. by rewrite orb_diag.
Qed.

(** The compiled tokens mean what the text means; repeated [%] are one. *)
Lemma compile_means pat : forall prev toks, compileToks prev pat = Ret toks -> forall s,
  if prev then likeMatches (TokMany :: toks) s = patternMatches (37 :: pat) s else likeMatches toks s = patternMatches pat s.
Proof.
  assert (forall (toks : list likeTok) pat, (forall s, likeMatches toks s = patternMatches pat s) -> forall s, likeMatches (TokMany :: toks) s = patternMatches (37 :: pat) s) as Hmany.
  { intros toks p Hp s. induction s as [|x s IH]; rewrite many_unfold, pattern_many, Hp; [done|by rewrite IH]. }
  remember (length pat) as n eqn:Hn. revert pat Hn. induction (lt_wf n) as [n _ IH]. intros pat -> prev toks Hc.
  assert ((forall s, likeMatches toks s = patternMatches pat s) \/ (exists rest, pat = 37 :: rest /\ prev = true /\ compileToks true rest = Ret toks)) as [Hsame|(rest & -> & -> & Hc')].
  { destruct pat as [|c pat]; cbn in Hc; [injection Hc as <-; by left|]. destruct (Z.eqb_spec c 92) as [->|Hc92].
    { destruct pat as [|r pat]; [done|]. inv_outcome. left. intros s. pose proof (IH (length pat) ltac:(cbn; lia) pat eq_refl false _ E) as Hp. cbn. destruct s; [done|]. by rewrite Hp. }
    destruct (Z.eqb_spec c 37) as [->|Hc37].
    { destruct prev; [right; eauto|]. inv_outcome. left. exact (IH (length pat) ltac:(cbn; lia) pat eq_refl true _ E). }
    left. intros s. cbn. rewrite (proj2 (Z.eqb_neq c 92)), (proj2 (Z.eqb_neq c 37)) by done.
    destruct (Z.eqb_spec c 95) as [->|Hc95]; inv_outcome; pose proof (IH (length pat) ltac:(cbn; lia) pat eq_refl false _ E) as Hp; cbn; (destruct s; [done|]); by rewrite Hp. }
  - destruct prev; [by apply Hmany|done].
  - intros s. rewrite pattern_many_twice. exact (IH (length rest) ltac:(cbn; lia) rest eq_refl true _ Hc' s).
Qed.

(** Only a backslash at the end is an error. *)
Lemma compile_fails p : forall prev c, compileToks prev p = Err c -> c = OutOfRange /\ forall s, patternMatches p s = false.
Proof.
  remember (length p) as n eqn:Hn. revert p Hn. induction (lt_wf n) as [n _ IH]. intros p -> prev c E.
  assert (forall (f : list Z -> bool), (forall s, f s = false) -> forall s, (fix any (s : list Z) : bool := f s || match s with _ :: s' => any s' | [] => false end) s = false) as Hany.
  { intros f Hf s'. induction s' as [|x s' IHs]; rewrite Hf; [done|exact IHs]. }
  destruct p as [|x p]; [done|]. cbn in E. destruct (Z.eqb_spec x 92) as [->|H92].
  { destruct p as [|r p]; [injection E as <-; done|]. destruct (compileToks false p) eqn:Ep; [done| |done]. injection E as <-.
    destruct (IH (length p) ltac:(cbn; lia) p eq_refl false _ Ep) as [-> Hf]. split; [done|].
    intros s'. cbn. destruct s'; [done|]. rewrite Hf. apply andb_false_r. }
  destruct (Z.eqb_spec x 37) as [->|H37].
  { assert (exists prev', compileToks prev' p = Err c) as [prev' E'] by (destruct prev; [eauto|]; destruct (compileToks true p) eqn:Ep; [done|injection E as ->; eauto|done]).
    destruct (IH (length p) ltac:(cbn; lia) p eq_refl prev' _ E') as [-> Hf]. split; [done|]. exact (Hany (patternMatches p) Hf). }
  assert (compileToks false p = Err c) as E' by (destruct (compileToks false p); destruct (x =? 95); try done; by injection E as ->).
  destruct (IH (length p) ltac:(cbn; lia) p eq_refl false _ E') as [-> Hf]. split; [done|]. intros s'. cbn.
  rewrite (proj2 (Z.eqb_neq x 92)), (proj2 (Z.eqb_neq x 37)) by done. destruct s'; [done|]. rewrite Hf. apply andb_false_r.
Qed.
Lemma compile_safe p : forall prev, compileToks prev p <> Panic.
Proof.
  remember (length p) as n eqn:Hn. revert p Hn. induction (lt_wf n) as [n _ IH]. intros p -> prev E.
  assert (forall prev' p', (length p' < length p)%nat -> compileToks prev' p' <> Panic) as Hsafe by (intros prev' p' Hl; exact (IH _ Hl p' eq_refl prev')).
  destruct p as [|x p]; [done|]. cbn in E. pose proof (Hsafe false p ltac:(cbn; lia)). pose proof (Hsafe true p ltac:(cbn; lia)).
  destruct (x =? 92); [|by destruct (x =? 37), prev, (x =? 95), (compileToks true p), (compileToks false p)].
  destruct p as [|r p]; [done|]. pose proof (Hsafe false p ltac:(cbn; lia)). by destruct (compileToks false p).
Qed.

(** C28: The LIKE matcher, a loop that backtracks only to the last percent sign, always returns
    and decides exactly the meaning of the pattern; a pattern compiles unless it ends
    with a lone backslash; and a value that matches starts with the literal prefix
    used for key ranges, and equals it when the pattern is literal. *)
Theorem like_decides (pat v : value) (isStr : bool) (p s : list Z) :
  likeElems pat isStr = Ret p -> likeElems v isStr = Ret s ->
  match compileLike pat isStr with
  | Ret lp =>
      like_match lp v = Ret (patternMatches p s) /\
      (patternMatches p s = true -> exists rest, s = (likeLiteralPrefix p).1 ++ rest /\ ((likeLiteralPrefix p).2 = true -> rest = []))
  | Err c => c = OutOfRange /\ forall s, patternMatches p s = false
  | Panic => False
  end.
Proof.
  intros Hp Hv. unfold compileLike. rewrite Hp. cbn [mbind outcome_bind]. destruct (compileToks false p) as [toks|c|] eqn:E; cbn [mbind outcome_bind].
  - unfold like_match. cbn [lp_isStr lp_toks]. rewrite Hv. cbn [mbind outcome_bind]. rewrite match_loop_spec. pose proof (compile_means p false toks E) as Hm. cbn in Hm.
    rewrite <- Hm. split; [done|]. intros Hs. by eapply likeLiteralPrefix_sound.
  - by eapply compile_fails.
  - by eapply compile_safe.
Qed.
Lemma like_decides_witness :
  match compileLike (VBytes (str "a%b_")) false with
  | Ret lp => like_match lp (VBytes (str "axxbbc")) = Ret true
  | _ => False
  end.
Proof.
  pose proof (like_decides (VBytes (str "a%b_")) (VBytes (str "axxbbc")) false (str "a%b_") (str "axxbbc") eq_refl eq_refl) as H.
  cbn in H |- *. exact (proj1 H).
Defined.
