(* ===== verification/SqlOps.v ===== *)
(** * The operators of the query engine

    The evaluators of [internal/gsql/ops.go]: comparison, three-valued logic, IN,
    BETWEEN, LIKE, CASE, subscripts, arithmetic and bit operators on values.  A strict
    evaluator gets values that are not NULL; a lazy one gets the outcomes of its
    arguments.  Every evaluator yields a value of its type on arguments of their types:
    no type assertion of the source fails. *)

From S2P Require Import Prelude Proto Rows Server Tokens KeyCodec KeySchema SqlValues SqlFloat SqlArith Like.
From stdpp Require Import base list.
From Stdlib Require Import ZArith Lia.
From Stdlib Require Import Floats.SpecFloat.

#[local] Open Scope Z_scope.

(** The result of an evaluation: a value of the type, or an error, but no panic. *)
Definition yields (r : outcome value) (t : sqlType) : Prop :=
  match r with Ret v => has_type v t = true | Err _ => True | Panic => False end.

(** ** Comparison *)

Inductive cmpOp : Type := OpEq | OpNe | OpLt | OpLe | OpGt | OpGe.

Definition tri (o : option bool) : value := match o with Some b => VBool b | None => VNull end.
Definition isNaNValue (v : value) : bool := match v with VFloat f => IsNaN f | _ => false end.

(** The closures of [bindCompare]. *)
Definition compareFn (op : cmpOp) (a : list value) : outcome value :=
  match a with
  | [x; y] =>
      match op with
      | OpEq => r ← sqlEquals x y; Ret (tri r)
      | OpNe => r ← sqlEquals x y; Ret (tri (negb <$> r))
      | _ =>
          if isNaNValue x || isNaNValue y then Ret (VBool false)
          else
            c ← compareValues x y;
            Ret (VBool match op with OpLt => c <? 0 | OpLe => c <=? 0 | OpGt => 0 <? c | _ => 0 <=? c end)
      end
  | _ => Panic
  end.

(** ** Three-valued logic *)

Definition evalAnd (now : Z) (args : list (outcome value)) : outcome value :=
  match args with
  | [l; r] =>
      l ← l;
      match l with
      | VBool false => Ret (VBool false)
      | _ =>
          r ← r;
          match r with
          | VBool false => Ret (VBool false)
          | _ => match l, r with VNull, _ | _, VNull => Ret VNull | _, _ => Ret (VBool true) end
          end
      end
  | _ => Panic
  end.
Definition evalOr (now : Z) (args : list (outcome value)) : outcome value :=
  match args with
  | [l; r] =>
      l ← l;
      match l with
      | VBool true => Ret (VBool true)
      | _ =>
          r ← r;
          match r with
          | VBool true => Ret (VBool true)
          | _ => match l, r with VNull, _ | _, VNull => Ret VNull | _, _ => Ret (VBool false) end
          end
      end
  | _ => Panic
  end.
Definition notFn (a : list value) : outcome value := match a with [VBool b] => Ret (VBool (negb b)) | _ => Panic end.
(** [IS [NOT] NULL] and [IS [NOT] TRUE/FALSE]. *)
Definition isNullFn (not : bool) (a : list value) : outcome value :=
  match a with [v] => Ret (VBool (xorb (match v with VNull => true | _ => false end) not)) | _ => Panic end.
Definition isBoolFn (want not : bool) (a : list value) : outcome value :=
  match a with [v] => Ret (VBool (xorb (match v with VBool b => eqb b want | _ => false end) not)) | _ => Panic end.

(** ** IN and BETWEEN *)

Fixpoint inLoop (x : value) (vals : list value) (sawNull : bool) : outcome (option bool) :=
  match vals with
  | [] => Ret (if sawNull then None else Some false)
  | v :: vals' =>
      r ← sqlEquals x v;
      match r with Some true => Ret (Some true) | None => inLoop x vals' true | Some false => inLoop x vals' sawNull end
  end.
Definition inResult (x : value) (vals : list value) : outcome (option bool) :=
  match x with VNull => Ret None | _ => inLoop x vals false end.
Definition negated (not : bool) (o : option bool) : value := tri ((fun b => xorb b not) <$> o).

Definition evalIn (not : bool) (now : Z) (args : list (outcome value)) : outcome value :=
  match args with
  | x :: items => x ← x; vals ← collectM id items; r ← inResult x vals; Ret (negated not r)
  | [] => Panic
  end.
Definition evalInUnnest (not : bool) (now : Z) (args : list (outcome value)) : outcome value :=
  match args with
  | [x; arr] =>
      x ← x; arr ← arr;
      match arr with
      | VNull | VArray [] => Ret (VBool not)
      | VArray vals => r ← inResult x vals; Ret (negated not r)
      | _ => Panic
      end
  | _ => Panic
  end.

(** [cmp] of BETWEEN. *)
Definition atMost (a b : value) : outcome (option bool) :=
  match a, b with
  | VNull, _ | _, VNull => Ret None
  | _, _ => if isNaNValue a || isNaNValue b then Ret (Some false) else c ← compareValues a b; Ret (Some (c <=? 0))
  end.
Definition evalBetween (not : bool) (now : Z) (args : list (outcome value)) : outcome value :=
  match args with
  | [x; lo; hi] =>
      x ← x; lo ← lo; hi ← hi;
      ge ← atMost lo x; le ← atMost x hi;
      let res := match ge, le with Some false, _ | _, Some false => Some false | None, _ | _, None => None | _, _ => Some true end in
      Ret (negated not res)
  | _ => Panic
  end.

(** ** LIKE and STARTS_WITH *)

Definition likeFn (cached : option likePattern) (isStr not : bool) (a : list value) : outcome value :=
  match a with
  | [x; p] =>
      lp ← match cached with Some lp => Ret lp | None => compileLike p isStr end;
      b ← like_match lp x; Ret (VBool (xorb b not))
  | _ => Panic
  end.

(** [asBytes]: [nil] of another type. *)
Definition asBytes (v : value) : bytes := match v with VString s | VBytes s => s | _ => [] end.
Definition startsWithFn (a : list value) : outcome value :=
  match a with x :: y :: _ => Ret (VBool (HasPrefix (asBytes x) (asBytes y))) | _ => Panic end.

(** ** CASE *)

(** [CASE WHEN]: [args] are the [n] conditions, the [n] results and the default. *)
Fixpoint caseLoop (k : nat) (n i : nat) (args : list (outcome value)) : outcome value :=
  match k with
  | O => match args !! (2 * n)%nat with Some r => r | None => Panic end
  | S k =>
      match args !! i with
      | None => Panic
      | Some c =>
          v ← c;
          match v with
          | VBool true => match args !! (n + i)%nat with Some r => r | None => Panic end
          | _ => caseLoop k n (S i) args
          end
      end
  end.
Definition evalCase (n : nat) (now : Z) (args : list (outcome value)) : outcome value := caseLoop n n 0 args.
(** [CASE x WHEN]: the operand comes first. *)
Fixpoint caseValueLoop (k : nat) (n i : nat) (ov : value) (args : list (outcome value)) : outcome value :=
  match k with
  | O => match args !! (1 + 2 * n)%nat with Some r => r | None => Panic end
  | S k =>
      match args !! (1 + i)%nat with
      | None => Panic
      | Some c =>
          v ← c; eq ← sqlEquals ov v;
          match eq with
          | Some true => match args !! (1 + n + i)%nat with Some r => r | None => Panic end
          | _ => caseValueLoop k n (S i) ov args
          end
      end
  end.
Definition evalCaseValue (n : nat) (now : Z) (args : list (outcome value)) : outcome value :=
  match args with o :: _ => ov ← o; caseValueLoop n n 0 ov args | [] => Panic end.

(** ** Arithmetic, bits, concatenation *)

Inductive arithOp : Type := Add | Sub | Mul | Div.

Definition arithIntFn (op : arithOp) (a : list value) : outcome value :=
  match a with
  | [VInt x; VInt y] =>
      n ← match op with Add => addInt64 x y | Sub => subInt64 x y | Mul => mulInt64 x y | Div => Panic end; Ret (VInt n)
  | _ => Panic
  end.
Definition isZero (f : spec_float) : bool := match f with S754_zero _ => true | _ => false end.
Definition arithFloatFn (op : arithOp) (a : list value) : outcome value :=
  match a with
  | [VFloat x; VFloat y] =>
      f ← match op with
          | Add => checkFloat (float64_add x y) [x; y]
          | Sub => checkFloat (float64_sub x y) [x; y]
          | Mul => checkFloat (float64_mul x y) [x; y]
          | Div => if isZero y then Err OutOfRange else checkFloat (float64_div x y) [x; y]
          end;
      Ret (VFloat f)
  | _ => Panic
  end.
Definition negIntFn (a : list value) : outcome value := match a with [VInt x] => n ← negInt64 x; Ret (VInt n) | _ => Panic end.
Definition negFloatFn (a : list value) : outcome value := match a with [VFloat x] => Ret (VFloat (SFopp x)) | _ => Panic end.
Definition bitnotIntFn (a : list value) : outcome value := match a with [VInt x] => Ret (VInt (Z.lnot x)) | _ => Panic end.
Definition bitnotBytesFn (a : list value) : outcome value := match a with [VBytes x] => Ret (VBytes (bitnotBytes x)) | _ => Panic end.
Definition bitwiseIntFn (op : bitOp) (a : list value) : outcome value := match a with [VInt x; VInt y] => Ret (VInt (bitFn op x y)) | _ => Panic end.
Definition bitwiseBytesFn (op : bitOp) (a : list value) : outcome value :=
  match a with [VBytes x; VBytes y] => b ← bitwiseBytes op x y; Ret (VBytes b) | _ => Panic end.
Definition shiftIntFn (left : bool) (a : list value) : outcome value := match a with [VInt x; VInt n] => r ← shiftInt left x n; Ret (VInt r) | _ => Panic end.
Definition shiftBytesFn (left : bool) (a : list value) : outcome value := match a with [VBytes x; VInt n] => r ← shiftBytes left x n; Ret (VBytes r) | _ => Panic end.

(** [concatFn]. *)
Definition concatFn (isStr : bool) (a : list value) : outcome value :=
  parts ← collectM (fun v => match v, isStr with VString s, true => Ret s | VBytes b, false => Ret b | _, _ => Panic end) a;
  Ret (if isStr then VString (mjoin parts) else VBytes (mjoin parts)).

(** ** Subscripts *)

(** An array subscript by [OFFSET] or [ORDINAL]; [safe] makes a position outside NULL. *)
Definition arrayAtFn (safe ordinal : bool) (a : list value) : outcome value :=
  match a with
  | [VArray arr; VInt i] =>
      let i := if ordinal then wrap64 (i - 1) else i in
      if (i <? 0) || (Z.of_nat (length arr) <=? i) then if safe then Ret VNull else Err OutOfRange
      else match arr !! Z.to_nat i with Some v => Ret v | None => Panic end
  | _ => Panic
  end.
Definition mapAtFn (mustExist : bool) (a : list value) : outcome value :=
  match a with
  | [VMap m; k] => match mapLookup m k with Some v => Ret v | None => if mustExist then Err OutOfRange else Ret VNull end
  | _ => Panic
  end.
Definition fieldFn (i : nat) (a : list value) : outcome value :=
  match a with [VStruct l] => match l !! i with Some v => Ret v | None => Panic end | _ => Panic end.

(** ** Evaluators keep types *)

Lemma compare_typed a b t : has_type a t = true -> has_type b t = true -> exists c, compareValues a b = Ret c.
Proof. intros Ha Hb. destruct (compare_agrees a b t Ha Hb) as (c & E & _). eauto. Qed.

(** The loops of [sqlEquals]. *)
Fixpoint allEqual (res : option bool) (x y : list value) : outcome (option bool) :=
  match x, y with
  | e :: x', f :: y' => r ← sqlEquals e f; match r with Some false => Ret (Some false) | None => allEqual None x' y' | Some true => allEqual res x' y' end
  | _, _ => Ret res
  end.
Fixpoint entriesEqual (res : option bool) (x y : list (value * value)) : outcome (option bool) :=
  match x, y with
  | (k, v) :: x', (k', v') :: y' =>
      c ← compareValues k k';
      if negb (c =? 0) then Ret (Some false)
      else r ← sqlEquals v v'; match r with Some false => Ret (Some false) | None => entriesEqual None x' y' | Some true => entriesEqual res x' y' end
  | _, _ => Ret res
  end.

Lemma sqlEquals_typed a : forall b t, has_type a t = true -> has_type b t = true -> exists r, sqlEquals a b = Ret r.
Proof.
  induction a as [|x|n|f|s|s|n|n|l IH|l IH|l IH] using value_nested; intros b t Ha Hb; (destruct b as [|x'|n'|f'|s'|s'|n'|n'|l'|l'|l']; [by eexists|..]); try (by eexists);
    destruct t; try done; try (by eexists).
  - cbn. destruct (Nat.eqb (length l) (length l')); [|eauto]. change (exists r, allEqual (Some true) l l' = Ret r). generalize (Some true). cbn in Ha, Hb.
    revert l' Ha Hb. induction IH as [|a l Hx Hl IHl]; intros [|b l'] Ha Hb res; cbn in Ha, Hb |- *; eauto. apply andb_prop in Ha as [Ha1 Ha2], Hb as [Hb1 Hb2].
    destruct (Hx b t Ha1 Hb1) as [r ->]. cbn. destruct r as [[]|]; eauto.
  - cbn. destruct (Nat.eqb (length l) (length l')); [|eauto]. change (exists r, allEqual (Some true) l l' = Ret r). generalize (Some true). rewrite has_type_struct in Ha, Hb.
    revert l' fields Ha Hb. induction IH as [|a l Hx Hl IHl]; intros [|b l'] [|f fs] Ha Hb res; cbn in Ha, Hb |- *; eauto; try done. apply andb_prop in Ha as [Ha1 Ha2], Hb as [Hb1 Hb2].
    destruct (Hx b f.2 Ha1 Hb1) as [r ->]. cbn. destruct r as [[]|]; eauto.
  - cbn. destruct (negb (Nat.eqb (length l) (length l'))); [eauto|]. change (exists r, entriesEqual (Some true) l l' = Ret r). generalize (Some true). cbn in Ha, Hb.
    revert l' Ha Hb. induction IH as [|[k v] l Hx Hl IHl]; intros [|[k' v'] l'] Ha Hb res; cbn in Ha, Hb |- *; eauto. rewrite !andb_true_iff in Ha, Hb. destruct Ha as [[Ha1 Ha2] Ha3], Hb as [[Hb1 Hb2] Hb3].
    destruct (compare_typed k k' t1 Ha1 Hb1) as [c ->]. cbn. destruct (negb (c =? 0)); [eauto|]. destruct Hx as [_ Hx]. cbn in Hx. destruct (Hx v' t2 Ha2 Hb2) as [r ->]. cbn. destruct r as [[]|]; eauto.
Qed.

Lemma tri_bool o : has_type (tri o) TBool = true.
Proof. by destruct o. Qed.
Lemma negated_bool b o : has_type (negated b o) TBool = true.
Proof. apply tri_bool. Qed.
#[local] Hint Resolve tri_bool negated_bool : core.

Lemma compareFn_yields op x y t : has_type x t = true -> has_type y t = true -> yields (compareFn op [x; y]) TBool.
Proof.
  intros Hx Hy. destruct (sqlEquals_typed x y t Hx Hy) as [r Er]. destruct (compare_typed x y t Hx Hy) as [c Ec]. cbn [compareFn].
  destruct op; rewrite ?Er, ?Ec; cbn [mbind outcome_bind yields]; auto; by destruct (isNaNValue x || isNaNValue y).
Qed.

Lemma bool_cases v : has_type v TBool = true -> v = VNull \/ exists b, v = VBool b.
Proof. destruct v; try done; eauto. Qed.
Lemma evalAnd_yields now l r : yields l TBool -> yields r TBool -> yields (evalAnd now [l; r]) TBool.
Proof.
  intros Hl Hr. destruct l as [l| |], r as [r| |]; try done; cbn in Hl, Hr; try (apply bool_cases in Hl as [->|[[] ->]]); try (apply bool_cases in Hr as [->|[[] ->]]); done.
Qed.
Lemma evalOr_yields now l r : yields l TBool -> yields r TBool -> yields (evalOr now [l; r]) TBool.
Proof.
  intros Hl Hr. destruct l as [l| |], r as [r| |]; try done; cbn in Hl, Hr; try (apply bool_cases in Hl as [->|[[] ->]]); try (apply bool_cases in Hr as [->|[[] ->]]); done.
Qed.

Lemma inLoop_safe x t vals : has_type x t = true -> Forall (fun v => has_type v t = true) vals -> forall b, exists r, inLoop x vals b = Ret r.
Proof.
  intros Hx. induction 1 as [|v vals Hv Hvals IH]; intros b; cbn; [eauto|]. destruct (sqlEquals_typed x v t Hx Hv) as [r ->]. cbn. destruct r as [[]|]; eauto.
Qed.
Lemma inResult_safe x t vals : has_type x t = true -> Forall (fun v => has_type v t = true) vals -> exists r, inResult x vals = Ret r.
Proof. intros Hx Hv. pose proof (inLoop_safe x t vals Hx Hv false). unfold inResult. destruct x; eauto. Qed.

Lemma collect_yields (items : list (outcome value)) t : Forall (fun r => yields r t) items ->
  match collectM id items with Ret vals => Forall (fun v => has_type v t = true) vals | Err _ => True | Panic => False end.
Proof.
  induction 1 as [|r items Hr Hi IH]; cbn; [constructor|]. destruct r; cbn; try done. destruct (collectM id items); cbn; try done. by constructor.
Qed.
Lemma evalIn_yields not now x items t : yields x t -> Forall (fun r => yields r t) items -> yields (evalIn not now (x :: items)) TBool.
Proof.
  intros Hx Hi. cbn. destruct x as [x| |]; cbn; try done. pose proof (collect_yields items t Hi) as Hc. destruct (collectM id items) as [vals| |]; cbn; try done.
  destruct (inResult_safe x t vals Hx Hc) as [r ->]. cbn. auto.
Qed.
Lemma evalInUnnest_yields not now x arr t : yields x t -> yields arr (TArray t) -> yields (evalInUnnest not now [x; arr]) TBool.
Proof.
  intros Hx Ha. cbn. destruct x as [x| |]; cbn; try done. destruct arr as [arr| |]; cbn; try done. destruct arr as [| | | | | | | |vals| |]; try done.
  cbn in Ha. destruct (inResult_safe x t vals Hx) as [r Er]; [by apply list.Forall_forall; intros v Hv%list_elem_of_In; rewrite forallb_forall in Ha; apply Ha|].
  destruct vals; [done|]. rewrite Er. cbn. auto.
Qed.
Lemma atMost_safe a b t : has_type a t = true -> has_type b t = true -> exists r, atMost a b = Ret r.
Proof. intros Ha Hb. destruct (compare_typed a b t Ha Hb) as [c Ec]. unfold atMost. rewrite Ec. cbn. destruct (isNaNValue a || isNaNValue b), a, b; eauto. Qed.
Lemma evalBetween_yields not now x lo hi t : yields x t -> yields lo t -> yields hi t -> yields (evalBetween not now [x; lo; hi]) TBool.
Proof.
  intros Hx Hl Hh. cbn. destruct x as [x| |]; cbn; try done. destruct lo as [lo| |]; cbn; try done. destruct hi as [hi| |]; cbn; try done.
  destruct (atMost_safe lo x t Hl Hx) as [r1 ->]. cbn. destruct (atMost_safe x hi t Hx Hh) as [r2 ->]. cbn. auto.
Qed.

Lemma likeElems_typed v (isStr : bool) : has_type v (if isStr then TString else TBytes) = true -> v <> VNull -> exists s, likeElems v isStr = Ret s.
Proof. intros Hv Hn. destruct isStr, v; try done; eauto. Qed.
Lemma like_match_total lp v s : likeElems v (lp_isStr lp) = Ret s -> like_match lp v = Ret (likeMatches (lp_toks lp) s).
Proof. intros Hs. unfold like_match. rewrite Hs. cbn [mbind outcome_bind]. by rewrite match_loop_spec. Qed.
Lemma likeFn_yields cached (isStr not : bool) x p : has_type x (if isStr then TString else TBytes) = true -> has_type p (if isStr then TString else TBytes) = true ->
  x <> VNull -> p <> VNull -> (forall lp, cached = Some lp -> lp_isStr lp = isStr) -> yields (likeFn cached isStr not [x; p]) TBool.
Proof.
  intros Hx Hp Hx0 Hp0 Hc. destruct (likeElems_typed x isStr Hx Hx0) as [s Es]. destruct (likeElems_typed p isStr Hp Hp0) as [ps Eps]. cbn [likeFn].
  assert (match match cached with Some lp => Ret lp | None => compileLike p isStr end with Ret lp => lp_isStr lp = isStr | Err _ => True | Panic => False end) as Hlp.
  { destruct cached as [lp|]; [by apply Hc|]. unfold compileLike. rewrite Eps. cbn [mbind outcome_bind]. pose proof (compile_safe ps false). by destruct (compileToks false ps). }
  destruct (match cached with Some lp => Ret lp | None => _ end) as [lp| |]; cbn [mbind outcome_bind]; try done. rewrite (like_match_total lp x s) by (by rewrite Hlp). done.
Qed.

(** The conditions of a CASE are booleans and its results have the type of the CASE. *)
Lemma caseLoop_yields n t args : (forall i r, (i < n)%nat -> args !! i = Some r -> yields r TBool) -> (forall i r, (n <= i)%nat -> args !! i = Some r -> yields r t) ->
  length args = (2 * n + 1)%nat -> forall k i, (k + i = n)%nat -> yields (caseLoop k n i args) t.
Proof.
  intros Hc Hr Hl. assert (forall i, (n <= i < 2 * n + 1)%nat -> exists r, args !! i = Some r /\ yields r t) as Hres.
  { intros i Hi. destruct (lookup_lt_is_Some_2 args i) as [r E]; [lia|]. exists r. split; [done|]. apply (Hr i); [lia|done]. }
  induction k as [|k IH]; intros i Hi; cbn [caseLoop].
  - destruct (Hres (2 * n)%nat) as (r & -> & Hy); [lia|done].
  - destruct (lookup_lt_is_Some_2 args i) as [c Ec]; [lia|]. rewrite Ec. pose proof (Hc i c ltac:(lia) Ec) as Hy. destruct c as [c| |]; cbn; try done.
    cbn in Hy. apply bool_cases in Hy as [->|[[] ->]]; try (by apply IH; lia). destruct (Hres (n + i)%nat) as (r & -> & Hy); [lia|done].
Qed.
Lemma caseValueLoop_yields n t ct ov args : has_type ov ct = true -> (forall i r, (1 <= i <= n)%nat -> args !! i = Some r -> yields r ct) -> (forall i r, (n < i)%nat -> args !! i = Some r -> yields r t) ->
  length args = (2 * n + 2)%nat -> forall k i, (k + i = n)%nat -> yields (caseValueLoop k n i ov args) t.
Proof.
  intros Ho Hc Hr Hl. assert (forall i, (n < i < 2 * n + 2)%nat -> exists r, args !! i = Some r /\ yields r t) as Hres.
  { intros i Hi. destruct (lookup_lt_is_Some_2 args i) as [r E]; [lia|]. exists r. split; [done|]. apply (Hr i); [lia|done]. }
  induction k as [|k IH]; intros i Hi; cbn [caseValueLoop].
  - destruct (Hres (1 + 2 * n)%nat) as (r & -> & Hy); [lia|done].
  - destruct (lookup_lt_is_Some_2 args (1 + i)%nat) as [c Ec]; [lia|]. rewrite Ec. pose proof (Hc (1 + i)%nat c ltac:(lia) Ec) as Hy. destruct c as [c| |]; cbn [mbind outcome_bind]; try done.
    destruct (sqlEquals_typed ov c ct Ho Hy) as [eq ->]. cbn [mbind outcome_bind]. destruct eq as [[]|]; try (by apply IH; lia). destruct (Hres (1 + n + i)%nat) as (r & -> & Hy'); [lia|done].
Qed.

Ltac typed_int v H := destruct v; try done; cbn in H.

Lemma arithIntFn_yields op x y : op <> Div -> has_type x TInt64 = true -> has_type y TInt64 = true -> x <> VNull -> y <> VNull -> yields (arithIntFn op [x; y]) TInt64.
Proof.
  intros Hop Hx Hy Hx0 Hy0. typed_int x Hx. typed_int y Hy. apply is_int64b_spec in Hx, Hy. cbn [arithIntFn].
  assert (forall z, yields (n ← exact64 z; Ret (VInt n)) TInt64) as He.
  { intros z. pose proof (exact64_safe z). destruct (exact64 z) eqn:E; try done. cbn. by apply is_int64b_spec, (exact64_typed z). }
  destruct op; [rewrite addInt64_exact by done|rewrite subInt64_exact by done|rewrite mulInt64_exact by done|done]; apply He.
Qed.
Lemma checkFloat_yields r inputs : valid64 r = true -> yields (f ← checkFloat r inputs; Ret (VFloat f)) TFloat64.
Proof. intros Hr. destruct (checkFloat r inputs) eqn:E; cbn; try done; [by apply checkFloat_valid in E|]. unfold checkFloat in E. by repeat case_match. Qed.
Lemma arithFloatFn_yields op x y : has_type x TFloat64 = true -> has_type y TFloat64 = true -> x <> VNull -> y <> VNull -> yields (arithFloatFn op [x; y]) TFloat64.
Proof.
  intros Hx Hy Hx0 Hy0. typed_int x Hx. typed_int y Hy. cbn [arithFloatFn].
  destruct op; [| | |destruct (isZero f0); [done|]]; apply checkFloat_yields; auto with lbt.
Qed.

Lemma bytesb_all s : bytesb s = true <-> all_bytes s.
Proof.
  unfold bytesb, all_bytes. rewrite forallb_forall, list.Forall_forall. unfold is_byte.
  split; intros Hs x Hx; [specialize (Hs x ltac:(by apply list_elem_of_In))|specialize (Hs x ltac:(by apply list_elem_of_In))]; rewrite andb_true_iff, Z.leb_le, Z.ltb_lt in *; done.
Qed.
Lemma bytesb_app a b : bytesb (a ++ b) = bytesb a && bytesb b.
Proof. apply forallb_app. Qed.
Lemma bitnotBytes_bytes x : bytesb x = true -> bytesb (bitnotBytes x) = true.
Proof.
  rewrite !bytesb_all. unfold bitnotBytes. intros Hx. apply Forall_fmap. eapply Forall_impl; [exact Hx|]. intros d Hd. cbn. fold (byte_not d). rewrite byte_not_sub by done. unfold is_byte in *. lia.
Qed.

Lemma notFn_yields x : has_type x TBool = true -> x <> VNull -> yields (notFn [x]) TBool.
Proof. by destruct x. Qed.
Lemma negIntFn_yields x : has_type x TInt64 = true -> x <> VNull -> yields (negIntFn [x]) TInt64.
Proof.
  intros Hx Hx0. typed_int x Hx. apply is_int64b_spec in Hx. cbn [negIntFn]. rewrite negInt64_exact by done.
  pose proof (exact64_safe (- n)). destruct (exact64 (- n)) eqn:E; try done. cbn. by apply is_int64b_spec, (exact64_typed (- n)).
Qed.
Lemma negFloatFn_yields x t : (t = TFloat64 \/ t = TFloat32) -> has_type x t = true -> x <> VNull -> yields (negFloatFn [x]) TFloat64.
Proof. intros [-> | ->] Hx Hx0; typed_int x Hx; cbn. all: by destruct f. Qed.
Lemma bitnotIntFn_yields x : has_type x TInt64 = true -> x <> VNull -> yields (bitnotIntFn [x]) TInt64.
Proof. intros Hx Hx0. typed_int x Hx. cbn. apply is_int64b_spec in Hx. apply is_int64b_spec. unfold Z.lnot. unfold_words. lia. Qed.
Lemma bitnotBytesFn_yields x : has_type x TBytes = true -> x <> VNull -> yields (bitnotBytesFn [x]) TBytes.
Proof. intros Hx Hx0. typed_int x Hx. by apply bitnotBytes_bytes. Qed.
Lemma bitwiseIntFn_yields op x y : has_type x TInt64 = true -> has_type y TInt64 = true -> x <> VNull -> y <> VNull -> yields (bitwiseIntFn op [x; y]) TInt64.
Proof. intros Hx Hy Hx0 Hy0. typed_int x Hx. typed_int y Hy. cbn. apply is_int64b_spec in Hx, Hy. by apply is_int64b_spec, bitFn_int64. Qed.

Lemma is_byte_log2 z : is_byte z <-> 0 <= z /\ Z.log2 z < 8.
Proof.
  unfold is_byte. destruct (Z.eq_dec z 0) as [->|Hz]; [cbn; lia|]. split; intros [H0 H1]; split; try lia.
  - apply Z.log2_lt_pow2; lia.
  - apply Z.log2_lt_pow2 in H1; lia.
Qed.
Lemma bitFn_byte op x y : is_byte x -> is_byte y -> is_byte (bitFn op x y).
Proof.
  rewrite !is_byte_log2. intros [Hx Hx8] [Hy Hy8]. destruct op; cbn.
  - pose proof (Z.log2_land x y Hx Hy). split; [apply Z.land_nonneg; auto|lia].
  - pose proof (Z.log2_lor x y Hx Hy). split; [apply Z.lor_nonneg; auto|lia].
  - pose proof (Z.log2_lxor x y Hx Hy). split; [apply Z.lxor_nonneg; tauto|lia].
Qed.
Lemma bitwiseBytesFn_yields op x y : has_type x TBytes = true -> has_type y TBytes = true -> x <> VNull -> y <> VNull -> yields (bitwiseBytesFn op [x; y]) TBytes.
Proof.
  intros Hx Hy Hx0 Hy0. typed_int x Hx. typed_int y Hy. cbn. unfold bitwiseBytes. destruct (negb _); [done|]. cbn. apply bytesb_all in Hx, Hy. apply bytesb_all.
  clear Hx0 Hy0. revert b0 Hy. induction Hx as [|c b Hc Hb IH]; intros b0 Hy; [constructor|]. destruct Hy as [|d b0 Hd Hb0]; cbn; [constructor|]. constructor; [by apply bitFn_byte|by apply IH].
Qed.
Lemma shiftIntFn_yields left x n : has_type x TInt64 = true -> has_type n TInt64 = true -> x <> VNull -> n <> VNull -> yields (shiftIntFn left [x; n]) TInt64.
Proof. intros Hx Hy Hx0 Hy0. typed_int x Hx. typed_int n Hy. cbn. unfold shiftInt. repeat case_match; cbn; try done. all: by apply is_int64b_spec, wrap64_int64. Qed.
Lemma shiftBytesFn_yields left x n : has_type x TBytes = true -> has_type n TInt64 = true -> x <> VNull -> n <> VNull -> yields (shiftBytesFn left [x; n]) TBytes.
Proof.
  intros Hx Hy Hx0 Hy0. typed_int x Hx. typed_int n Hy. cbn [shiftBytesFn]. unfold shiftBytes. destruct (_ <? 0); [done|]. cbn [mbind outcome_bind yields has_type].
  apply bytesb_all, Forall_fmap, list.Forall_forall. intros j _. unfold compose.
  assert (forall (c : bool) (k acc : Z), 0 <= k < 8 -> is_byte acc -> is_byte (if c then Z.lor acc (Z.shiftr 128 k) else acc)) as Hstep.
  { intros c k acc Hk Ha. destruct c; [|done]. apply (bitFn_byte BitOr acc); [done|]. assert (k = 0 \/ k = 1 \/ k = 2 \/ k = 3 \/ k = 4 \/ k = 5 \/ k = 6 \/ k = 7) as Hk8 by lia. destruct_or! Hk8; subst k; done. }
  assert (forall ks acc (c d : Z -> bool), Forall (fun k => 0 <= k < 8) ks -> is_byte acc ->
    is_byte (foldl (fun acc k => if c k then acc else if d k then Z.lor acc (Z.shiftr 128 k) else acc) acc ks)) as Hfold.
  { intros ks acc c d Hks. revert acc. induction Hks as [|k ks Hk Hks IH]; intros acc Ha; [done|]. cbn [foldl]. apply IH. destruct (c k); [done|by apply Hstep]. }
  apply (Hfold _ 0 (fun k => _) (fun k => _)); [repeat constructor; lia|done].
Qed.

Lemma concatFn_yields (isStr : bool) vs : Forall (fun v => has_type v (if isStr then TString else TBytes) = true /\ v <> VNull) vs -> yields (concatFn isStr vs) (if isStr then TString else TBytes).
Proof.
  intros Hvs. unfold concatFn. assert (exists parts, collectM (fun v => match v, isStr with VString s, true => Ret s | VBytes b, false => Ret b | _, _ => Panic end) vs = Ret parts /\ bytesb (mjoin parts) = true) as (parts & -> & Hp).
  { induction Hvs as [|v vs [Hv Hn] Hvs (parts & Ep & Hp)]; [by exists []|]. cbn [collectM]. rewrite Ep. destruct isStr, v; try done; cbn [mbind outcome_bind]; (eexists; split; [reflexivity|]); cbn in Hv; cbn [mjoin list_join]; rewrite bytesb_app, Hv; exact Hp. }
  by destruct isStr.
Qed.
Lemma arrayAtFn_yields safe ordinal x i t : has_type x (TArray t) = true -> has_type i TInt64 = true -> x <> VNull -> i <> VNull -> yields (arrayAtFn safe ordinal [x; i]) t.
Proof.
  intros Hx Hi Hx0 Hi0. destruct x as [| | | | | | | |arr| |]; try done. typed_int i Hi. cbn. set (j := if ordinal then _ else n). clearbody j.
  destruct ((j <? 0) || (Z.of_nat (length arr) <=? j)) eqn:E; [by destruct safe|]. apply orb_false_iff in E as [E1%Z.ltb_ge E2%Z.leb_gt].
  destruct (lookup_lt_is_Some_2 arr (Z.to_nat j)) as [v Ev]; [lia|]. rewrite Ev. cbn in Hx |- *. rewrite forallb_forall in Hx. apply Hx, list_elem_of_In. by eapply list_elem_of_lookup_2.
Qed.
Lemma mapAtFn_yields must x k kt vt : has_type x (TMap kt vt) = true -> x <> VNull -> yields (mapAtFn must [x; k]) vt.
Proof.
  intros Hx Hx0. destruct x as [| | | | | | | | | |m]; try done. cbn in Hx |- *. destruct (mapLookup m k) as [v|] eqn:E; [|by destruct must]. unfold mapLookup in E.
  destruct (m !! _) as [kv|] eqn:Em in E; [|done]. destruct (_ =? 0); [|done]. injection E as <-. rewrite forallb_forall in Hx. cbn. specialize (Hx kv). apply list_elem_of_lookup_2, list_elem_of_In, Hx, andb_prop in Em as [_ Hv]. by destruct kv.
Qed.
Lemma fieldFn_yields i x fs f : has_type x (TStruct fs) = true -> x <> VNull -> fs !! i = Some f -> yields (fieldFn i [x]) f.2.
Proof.
  intros Hx Hx0 Hf. destruct x as [| | | | | | | | |l|]; try done. rewrite has_type_struct in Hx. cbn. clear Hx0. revert l i Hx Hf.
  induction fs as [|g fs IH]; intros [|v l] [|i] Hx Hf; try done; cbn in *; apply andb_prop in Hx as [Hv Hl]; [by injection Hf as <-|by apply IH].
Qed.
