(* ===== verification/SqlCast.v ===== *)
(** * Conversions between SQL types

    [CAST] and the implicit coercions of [internal/gsql/cast.go]: which conversions
    are allowed, what each returns, and the text forms of values.

    [strconv]'s conversions between floats and decimal text are the parameter
    [Strconv], with what the package documents of them. *)

From S2P Require Import Prelude Proto Rows Server Tokens KeySchema Lexer SqlValues SqlFloat SqlArith SqlTime SqlOps.
From stdpp Require Import base list.
From Stdlib Require Import ZArith Lia.
From Stdlib Require Import Floats.SpecFloat.

#[local] Open Scope Z_scope.

(** The result of [strconv.ParseFloat]: a number, [ErrRange], or [ErrSyntax]. *)
Inductive parsedFloat : Type := FloatOk (f : spec_float) | FloatRange | FloatSyntax.

(** [strconv.FormatFloat(f, 'g', prec, bits)] and [strconv.ParseFloat(s, bits)]. *)
Class Strconv : Type := {
  FormatG : spec_float -> Z -> Z -> bytes;
  ParseFloat : bytes -> Z -> parsedFloat;
  ParseFloat_valid : forall s bits f, ParseFloat s bits = FloatOk f -> valid64 f = true;
  FormatG_bytes : forall f prec bits, bytesb (FormatG f prec bits) = true;
}.

Fixpoint castAllowed (from to : sqlType) {struct from} : bool :=
  typesEqual from to ||
  match to with
  | TBool => match from with TInt64 | TString => true | _ => false end
  | TInt64 => match from with TBool | TFloat32 | TFloat64 | TString => true | _ => false end
  | TFloat32 | TFloat64 => match from with TInt64 | TFloat32 | TFloat64 | TString => true | _ => false end
  | TString => match from with TBool | TInt64 | TFloat32 | TFloat64 | TBytes | TDate | TTimestamp => true | _ => false end
  | TBytes => match from with TString => true | _ => false end
  | TDate => match from with TString | TTimestamp => true | _ => false end
  | TTimestamp => match from with TString | TDate => true | _ => false end
  | TArray te => match from with TArray fe => castAllowed fe te | _ => false end
  | TStruct tfs =>
      match from with
      | TStruct ffs =>
          (fix go (ffs tfs : list (bytes * sqlType)) : bool :=
            match ffs, tfs with
            | [], [] => true
            | f :: ffs', g :: tfs' => castAllowed f.2 g.2 && go ffs' tfs'
            | _, _ => false
            end) ffs tfs
      | _ => false
      end
  | _ => false
  end.

Definition isAllDigits (s : bytes) : bool := forallb isDigit s && negb (bool_decide (s = [])).

(** [parseInt64String]; the caller does not look at the error. *)
Definition parseInt64String (s : bytes) : option Z :=
  let s := strings_TrimSpace s in
  let neg := HasPrefix s (str "-") in
  let s := if neg || HasPrefix s (str "+") then drop 1 s else s in
  u ← (if HasPrefix s (str "0x") || HasPrefix s (str "0X") then ParseUint 16 (drop 2 s)
       else if isAllDigits s then ParseUint 10 s else None);
  if neg then if 2 ^ 63 <? u then None else Some (- u) else if 2 ^ 63 - 1 <? u then None else Some u.

(** [strings.ToLower] compared with an ASCII word: no other letter of "true" or
    "false" lowers to ASCII. *)
Definition lowerByte (c : Z) : Z := if (65 <=? c) && (c <=? 90) then c + 32 else c.
Definition lowersTo (s word : bytes) : bool := bool_decide (lowerByte <$> s = word).

Section casts.
Context `{TimeZones} `{Strconv}.

Definition formatFloat (f : spec_float) (is32 : bool) : bytes :=
  match f with
  | S754_nan => str "nan"
  | S754_infinity false => str "inf"
  | S754_infinity true => str "-inf"
  | _ =>
      if is32 then
        let s := FormatG f 6 32 in
        match ParseFloat s 32 with
        | FloatOk p => if SFeqb (float32_of p) (float32_of f) then s else FormatG f 9 32
        | _ => FormatG f 9 32
        end
      else
        let s := FormatG f 15 64 in
        match ParseFloat s 64 with FloatOk p => if SFeqb p f then s else FormatG f 17 64 | _ => FormatG f 17 64 end
  end.

(** The float cases of [castValue] after the switch. *)
Definition castFloat (f : spec_float) (to32 : bool) : outcome value :=
  if to32 then
    let f32 := float32_of f in if IsInf f32 && negb (IsInf f) then Err OutOfRange else Ret (VFloat f32)
  else Ret (VFloat f).

(** [castValue].  A value is cast by its runtime type; a type that has no cast is an
    error, as is a text that does not read. *)
Fixpoint castValue (v : value) (from to : sqlType) (loc : Location) {struct v} : outcome value :=
  match v with
  | VNull => Ret VNull
  | _ =>
    if typesEqual from to then Ret v
    else
      match to with
      | TBool =>
          match v with
          | VInt x => Ret (VBool (negb (x =? 0)))
          | VString x => if lowersTo x (str "true") then Ret (VBool true) else if lowersTo x (str "false") then Ret (VBool false) else Err OutOfRange
          | _ => Err OutOfRange
          end
      | TInt64 =>
          match v with
          | VBool x => Ret (VInt (if x then 1 else 0))
          | VFloat x => n ← floatToInt64 x; Ret (VInt n)
          | VString x => match parseInt64String x with Some n => Ret (VInt n) | None => Err OutOfRange end
          | _ => Err OutOfRange
          end
      | TFloat64 | TFloat32 =>
          let to32 := match to with TFloat32 => true | _ => false end in
          match v with
          | VInt x => castFloat (float_of_int x) to32
          | VFloat x => castFloat x to32
          | VString x => match ParseFloat (strings_TrimSpace x) 64 with FloatOk f => castFloat f to32 | _ => Err OutOfRange end
          | _ => Err OutOfRange
          end
      | TString =>
          match v with
          | VBool x => Ret (VString (if x then str "true" else str "false"))
          | VInt x => Ret (VString (FormatInt x))
          | VFloat x => Ret (VString (formatFloat x (match from with TFloat32 => true | _ => false end)))
          | VBytes x => if isValidUTF8 x then Ret (VString x) else Err OutOfRange
          | VDate x => Ret (VString (formatDate x))
          | VTs x => Ret (VString (formatTimestamp x loc))
          | _ => Err OutOfRange
          end
      | TBytes => match v with VString x => Ret (VBytes x) | _ => Err OutOfRange end
      | TDate =>
          match v with
          | VString x => match parseDateString x with Ret d => Ret (VDate d) | _ => Err OutOfRange end
          | VTs x => d ← dateFromTime (tm_In (ts_time x) loc); Ret (VDate d)
          | _ => Err OutOfRange
          end
      | TTimestamp =>
          match v with
          | VString x => match parseTimestampString x loc with Ret ts => Ret (VTs ts) | Err _ => Err OutOfRange | Panic => Panic end
          | VDate x => let '(y, m, d) := civil x in ts ← checkTimestamp (UnixMicro (civilToTime y m d 0 0 0 0 loc)); Ret (VTs ts)
          | _ => Err OutOfRange
          end
      | TArray te =>
          match v with
          | VArray l =>
              let fe := match from with TArray fe => fe | _ => TInvalid end in
              out ← collectM (fun e => castValue e fe te loc) l; Ret (VArray out)
          | _ => Err OutOfRange
          end
      | TStruct tfs =>
          match v with
          | VStruct l =>
              if negb (Nat.eqb (length l) (length tfs)) then Err OutOfRange
              else
                out ← (fix go (l : list value) (ffs tfs : list (bytes * sqlType)) : outcome (list value) :=
                  match l, ffs, tfs with
                  | [], _, _ => Ret []
                  | e :: l', f :: ffs', g :: tfs' => c ← castValue e f.2 g.2 loc; cs ← go l' ffs' tfs'; Ret (c :: cs)
                  | _, _, _ => Panic
                  end) l (match from with TStruct ffs => ffs | _ => [] end) tfs;
                Ret (VStruct out)
          | _ => Err OutOfRange
          end
      | _ => Err OutOfRange
      end
  end.

(** ** Casts keep values typed *)

Lemma yields_bind {A : Type} (r : outcome A) (P : A -> Prop) (f : A -> outcome value) t :
  r <> Panic -> (forall a, r = Ret a -> yields (f a) t) -> yields (r ≫= f) t.
Proof. intros Hp Hf. destruct r; cbn; [by apply Hf|done|done]. Qed.

Lemma typesEqual_struct fs gs : typesEqual (TStruct fs) (TStruct gs) = true <-> Forall2 (fun f g => typesEqual f.2 g.2 = true) fs gs.
Proof.
  revert gs. induction fs as [|[n f] fs IH]; intros [|[m g] gs]; cbn; [split; [constructor|done]|split; [done|by intros ?%Forall2_nil_inv_l]|split; [done|by intros ?%Forall2_nil_inv_r]|].
  rewrite andb_true_iff, Forall2_cons. cbn. rewrite <- IH. done.
Qed.
Lemma fields_typed_Forall2 l fs : fields_typed l fs = true <-> Forall2 (fun x f => has_type x f.2 = true) l fs.
Proof.
  revert fs. induction l as [|x l IH]; intros [|f fs]; cbn; [split; [constructor|done]|split; [done|by intros ?%Forall2_nil_inv_l]|split; [done|by intros ?%Forall2_nil_inv_r]|].
  rewrite andb_true_iff, Forall2_cons, <- IH. done.
Qed.
Lemma typesEqual_refl t : typesEqual t t = true.
Proof.
  induction t as [| | | | | | | | |e IH|fs IH|k v IHk IHv] using sqlType_nested; try done.
  - apply typesEqual_struct. induction IH; constructor; auto.
  - cbn. by rewrite IHk, IHv.
Qed.

(** Types that differ in field names only have the same values. *)
Lemma has_type_equal v : forall t t', typesEqual t t' = true -> has_type v t = true -> has_type v t' = true.
Proof.
  induction v as [|x|n|f|s|s|n|n|l IH|l IH|l IH] using value_nested; intros t t' E Ht; destruct t; try done; destruct t'; try done.
  - cbn in *. rewrite forallb_forall in *. intros x Hx. rewrite list.Forall_forall in IH. eapply IH; [by apply list_elem_of_In|done|by apply Ht].
  - rewrite has_type_struct, fields_typed_Forall2 in *. rewrite typesEqual_struct in E. revert fields fields0 E Ht.
    induction IH as [|x l Hx Hl IHl]; intros fs gs E Ht; inversion Ht; subst; inversion E; subst; constructor; eauto.
  - cbn in *. apply andb_prop in E as [E1 E2]. rewrite forallb_forall in *. intros [k v] Hkv. rewrite list.Forall_forall in IH.
    apply list_elem_of_In in Hkv as Hin. apply IH in Hin as [IHk IHv]. specialize (Ht _ Hkv). cbn in *. apply andb_prop in Ht as [H1 H2].
    by rewrite (IHk t1), (IHv t2).
Qed.

Lemma padded_bytes n w : bytesb (padded n w) = true.
Proof.
  unfold padded. assert (bytesb (FormatInt n) = true) as Hf by (apply bytesb_all, FormatInt_bytes). generalize w at 1. intros fuel. revert Hf.
  generalize (FormatInt n). induction fuel as [|fuel IH]; intros s Hs; cbn [leftPad]; [done|]. destruct (Nat.ltb _ _); [|done]. by apply IH.
Qed.
Lemma formatDate_bytes d : bytesb (formatDate d) = true.
Proof. unfold formatDate. destruct (civil d) as [[y m] dd]. by rewrite !bytesb_app, !padded_bytes. Qed.
Lemma formatTimestamp_bytes ts loc : bytesb (formatTimestamp ts loc) = true.
Proof.
  unfold formatTimestamp, Format_seconds, formatOffset. destruct (tm_Date _) as [[y m] d]. rewrite !bytesb_app, !padded_bytes.
  repeat (case_match; rewrite ?bytesb_app, ?padded_bytes); done.
Qed.
Lemma formatFloat_bytes f b : bytesb (formatFloat f b) = true.
Proof. unfold formatFloat. repeat case_match; auto using FormatG_bytes. Qed.

Lemma checkDate_typed n d : checkDate n = Ret d -> is_int32b d = true.
Proof.
  unfold checkDate, minDateDays, maxDateDays, is_int32b. destruct (_ || _) eqn:E; [done|]. intros [= <-]. apply orb_false_iff in E as [E1%Z.ltb_ge E2%Z.ltb_ge].
  rewrite andb_true_iff, !Z.leb_le. lia.
Qed.
Lemma checkTimestamp_typed n d : checkTimestamp n = Ret d -> is_int64b d = true.
Proof.
  unfold checkTimestamp, minTimestampMicros, maxTimestampMicros, is_int64b. destruct (_ || _) eqn:E; [done|]. intros [= <-]. apply orb_false_iff in E as [E1%Z.ltb_ge E2%Z.ltb_ge].
  rewrite andb_true_iff, !Z.leb_le. lia.
Qed.
Lemma checkDate_safe n : checkDate n <> Panic.
Proof. unfold checkDate. by case_match. Qed.
Lemma checkTimestamp_safe n : checkTimestamp n <> Panic.
Proof. unfold checkTimestamp. by case_match. Qed.
Lemma dateFromTime_typed t d : dateFromTime t = Ret d -> is_int32b d = true.
Proof. unfold dateFromTime, dateFromYMD. destruct (tm_Date t) as [[y m] dd]. apply checkDate_typed. Qed.
Lemma dateFromTime_safe t : dateFromTime t <> Panic.
Proof. unfold dateFromTime, dateFromYMD. destruct (tm_Date t) as [[y m] dd]. apply checkDate_safe. Qed.
Lemma parseDateString_typed s d : parseDateString s = Ret d -> is_int32b d = true.
Proof. unfold parseDateString, dateFromYMD. repeat case_match; try done. apply checkDate_typed. Qed.
Lemma parseTimestampString_typed s loc ts : parseTimestampString s loc = Ret ts -> is_int64b ts = true.
Proof. unfold parseTimestampString. repeat case_match; try done; intros E; inv_outcome; repeat case_match; simplify_eq/=; inv_outcome; by eapply checkTimestamp_typed. Qed.
Lemma parseOffsetZone_safe c s : parseOffsetZone (c :: s) <> Panic.
Proof. unfold parseOffsetZone. repeat case_match; done. Qed.
Lemma loadZone_safe name : loadZone name <> Panic.
Proof.
  unfold loadZone. case_match; [done|]. destruct (HasPrefix name (str "+") || HasPrefix name (str "-")) eqn:E.
  - destruct name as [|c name]; [done|]. apply parseOffsetZone_safe.
  - repeat case_match; try done; apply parseOffsetZone_safe.
Qed.
Lemma parseZone_safe s loc : parseZone s loc <> Panic.
Proof. unfold parseZone. destruct s as [|c s]; [done|]. repeat case_match; try done; [apply parseOffsetZone_safe|apply loadZone_safe]. Qed.
Lemma parseClock_safe s : parseClock s <> Panic.
Proof. unfold parseClock. repeat case_match; simplify_eq/=; try done; inv_outcome; repeat case_match; try done. Qed.
Lemma parseTimestampString_safe s loc : parseTimestampString s loc <> Panic.
Proof.
  unfold parseTimestampString. destruct (parseCivilDate _) as [[[[y m] d] rest]|]; [|done]. pose proof (parseClock_safe rest).
  destruct (parseClock rest) as [[[[[h mi] sec] us] rest']| |]; cbn; [|done|done]. pose proof (parseZone_safe rest' loc). destruct (parseZone rest' loc); cbn; [|done|done].
  case_match. apply checkTimestamp_safe.
Qed.

Lemma ParseUint_nonneg base t v : base = 10 \/ base = 16 -> ParseUint base t = Some v -> 0 <= v.
Proof.
  intros Hb Hv. unfold ParseUint in Hv. destruct t as [|c t]; [done|]. destruct (forallb _ _) eqn:Hw; [|done]. case_match; [|done].
  assert (v = foldl (fun v c => v * base + hexValue c) 0 (c :: t)) as -> by congruence. clear Hv. revert Hw. generalize (c :: t). intros w Hw. assert (forall acc, 0 <= acc -> 0 <= foldl (fun v c => v * base + hexValue c) acc w) as Hfold; [|by apply Hfold].
  induction w as [|x w IH]; intros acc Hacc; [done|]. cbn in Hw |- *. apply andb_prop in Hw as [Hx Hw]. apply IH; [done|].
  assert (0 <= hexValue x); [|destruct Hb as [-> | ->]; lia]. unfold hexValue, isHex, isDigit in *.
  destruct Hb as [-> | ->]; cbn in Hx; rewrite ?orb_true_iff, ?andb_true_iff, ?Z.leb_le in Hx; repeat case_match; rewrite ?andb_true_iff, ?andb_false_iff, ?Z.leb_le, ?Z.leb_gt in *; lia.
Qed.
Lemma parseInt64String_typed s n : parseInt64String s = Some n -> is_int64b n = true.
Proof.
  unfold parseInt64String. intros E. apply bind_Some in E as (u & Eu & E).
  assert (0 <= u) as Hu by (repeat case_match; try done; (eapply ParseUint_nonneg; [|done]); auto).
  unfold is_int64b. repeat case_match; simplify_eq; rewrite ?Z.ltb_ge in *; rewrite andb_true_iff, !Z.leb_le; lia.
Qed.

Lemma castFloat_yields f b t : valid64 f = true -> t = TFloat64 \/ t = TFloat32 -> yields (castFloat f b) t.
Proof. intros Hf Ht. unfold castFloat. pose proof (float32_of_valid f Hf). repeat case_match; destruct Ht as [-> | ->]; done. Qed.

(** A cast of a value of its type yields a value of the target type or an error. *)
Lemma castValue_yields v : forall from to loc, has_type v from = true -> yields (castValue v from to loc) to.
Proof.
  induction v as [|x|n|f|s|s|n|n|l IH|l IH|l IH] using value_nested; intros from to loc Hv; cbn [castValue]; [done|..];
    (destruct (typesEqual from to) eqn:E; [by apply (has_type_equal _ from)|]); destruct to; try done;
    try (by destruct from; try done; apply castFloat_yields; auto with lbt).
  - by destruct x.
  - by destruct x.
  - cbn. apply bytesb_all, FormatInt_bytes.
  - destruct (floatToInt64 f) eqn:Ef; cbn; try done; [|by unfold floatToInt64 in Ef; repeat case_match]. by apply is_int64b_spec, (floatToInt64_typed f).
  - cbn. apply formatFloat_bytes.
  - cbn. repeat case_match; done.
  - destruct (parseInt64String s) eqn:Es; [|done]. by apply parseInt64String_typed in Es.
  - destruct (ParseFloat _ _) eqn:Es; try done. apply castFloat_yields; [by eapply ParseFloat_valid|by right].
  - destruct (ParseFloat _ _) eqn:Es; try done. apply castFloat_yields; [by eapply ParseFloat_valid|by left].
  - pose proof (parseTimestampString_safe s loc). destruct (parseTimestampString s loc) eqn:Es; try done. by apply parseTimestampString_typed in Es.
  - destruct (parseDateString s) eqn:Es; try done. by apply parseDateString_typed in Es.
  - cbn. destruct (isValidUTF8 s); [by destruct from|done].
  - cbn. apply formatTimestamp_bytes.
  - pose proof (dateFromTime_safe (tm_In (ts_time n) loc)). destruct (dateFromTime _) eqn:Es; try done. by apply dateFromTime_typed in Es.
  - cbn. apply formatDate_bytes.
  - destruct (civil n) as [[y m] d]. match goal with |- context [checkTimestamp ?z] => pose proof (checkTimestamp_safe z); destruct (checkTimestamp z) eqn:Es end; try done.
    by apply checkTimestamp_typed in Es.
  - destruct from as [| | | | | | | | |fe| |]; try done. cbn in Hv.
    assert (match collectM (fun e => castValue e fe to loc) l with Ret out => forallb (fun x => has_type x to) out = true | Err _ => True | Panic => False end) as Hc.
    { clear E. induction IH as [|x l Hx Hl IHl]; [done|]. cbn in Hv. apply andb_prop in Hv as [Hx1 Hv]. cbn [collectM]. specialize (Hx fe to loc Hx1).
      destruct (castValue x fe to loc); cbn; try done. specialize (IHl Hv). destruct (collectM _ l); cbn; try done. cbn in Hx. by rewrite Hx. }
    destruct (collectM _ l); done.
  - destruct from as [| | | | | | | | | |ffs|]; try done. rewrite has_type_struct, fields_typed_Forall2 in Hv.
    destruct (Nat.eqb_spec (length l) (length fields)) as [El|]; [|done]. cbn [negb].
    match goal with |- yields (?g ≫= _) _ => assert (match g with Ret out => fields_typed out fields = true | Err _ => True | Panic => False end) as Hc; [|destruct g; done] end.
    clear E. revert ffs fields Hv El. induction IH as [|x l Hx Hl IHl]; intros ffs tfs Hv El; [by destruct tfs|].
    destruct tfs as [|g tfs]; [done|]. inversion Hv as [|? f ? ffs' Hx1 Hl1]; subst. specialize (Hx f.2 g.2 loc Hx1). destruct (castValue x f.2 g.2 loc); cbn; try done.
    specialize (IHl ffs' tfs Hl1 ltac:(cbn in El; lia)). match goal with |- context [?h l ffs' tfs ≫= _] => destruct (h l ffs' tfs) end; cbn; try done. cbn in Hx. by rewrite Hx.
Qed.

(** ** Text reads back *)

Lemma parseInt64String_FormatInt n : is_int64 n -> parseInt64String (FormatInt n) = Some n.
Proof.
  intros Hn. assert (forall m, 0 <= m <= two63 -> exists c s, digits 20 m [] = c :: s /\ visible c = true /\ c <> 43 /\ c <> 45 /\
    (exists pre z, c :: s = pre ++ [z] /\ visible z = true) /\ isAllDigits (digits 20 m []) = true /\
    HasPrefix (digits 20 m []) (str "0x") = false /\ HasPrefix (digits 20 m []) (str "0X") = false /\ ParseUint 10 (digits 20 m []) = Some m) as Hdig.
  { intros m Hm. destruct (ParseUint_digits m Hm) as [Hu Hp]. destruct (digits_cons 19 m []) as (c & s & E). pose proof (digits_all 20 m [] ltac:(constructor)) as Hd.
    exists c, s. split; [done|]. rewrite E in *. pose proof Hd as Hd'. apply Forall_cons in Hd as [Hc Hs]. split_and!; [by apply visible_digit|lia|lia| | | | |done].
    - destruct (all_digits_last (c :: s)) as (pre & z & Ez & Hz); [done|done|]. exists pre, z. by rewrite Ez.
    - unfold isAllDigits. rewrite bool_decide_eq_false_2, andb_true_r by done. apply forallb_forall. intros x Hx%list_elem_of_In.
      rewrite list.Forall_forall in Hd'. specialize (Hd' x Hx). unfold isDigit. by rewrite !(proj2 (Z.leb_le _ _)) by lia.
    - destruct (HasPrefix (c :: s) (str "0x")) eqn:Ex; [|done]. specialize (Hp 120 Ex). lia.
    - destruct (HasPrefix (c :: s) (str "0X")) eqn:Ex; [|done]. specialize (Hp 88 Ex). lia. }
  unfold parseInt64String, FormatInt. destruct (Z.ltb_spec n 0) as [Hneg|Hpos].
  - destruct (Hdig (- n)) as (c & s & E & Hc & _ & _ & (pre & z & Ez & Hz) & Ha & H1 & H2 & Hu); [unfold_words; lia|]. rewrite E in *.
    rewrite (TrimSpace_visible 45 (c :: s) z (45 :: pre)) by (done || by rewrite Ez). change (HasPrefix (45 :: c :: s) (str "-")) with true. cbn [orb drop].
    rewrite H1, H2, Ha, Hu. cbn [orb mbind option_bind]. rewrite (proj2 (Z.ltb_ge _ _)) by (unfold_words; lia). f_equal. lia.
  - destruct (Hdig n) as (c & s & E & Hc & Hc43 & Hc45 & (pre & z & Ez & Hz) & Ha & H1 & H2 & Hu); [unfold_words; lia|]. rewrite E in *.
    rewrite (TrimSpace_visible c s z pre) by done. assert (HasPrefix (c :: s) (str "-") = false /\ HasPrefix (c :: s) (str "+") = false) as [-> ->].
    { change (str "-") with [45]. change (str "+") with [43]. cbn [HasPrefix]. by rewrite !(proj2 (Z.eqb_neq _ _)) by congruence. }
    cbn [orb]. rewrite H1, H2, Ha, Hu. cbn [orb mbind option_bind]. by rewrite (proj2 (Z.ltb_ge _ _)) by (unfold_words; lia).
Qed.

(** The values whose text reads back: floats are left to [strconv]. *)
Definition textual (v : value) (t : sqlType) : Prop :=
  match v, t with
  | VBool _, TBool => True
  | VInt n, TInt64 => is_int64 n
  | VDate d, TDate => minDateDays <= d <= maxDateDays
  | VTs us, TTimestamp => minTimestampMicros <= us <= maxTimestampMicros
  | VBytes b, TBytes => isValidUTF8 b = true
  | _, _ => False
  end.
End casts.

(** C27: A value cast to STRING and back is the same value: every BOOL and INT64, every
    supported DATE and TIMESTAMP, and BYTES that are valid UTF-8. *)
Theorem cast_text_roundtrip {TZ : TimeZones} {SC : Strconv} (v : value) (t : sqlType) : textual v t ->
  exists s, castValue v t TString UTC = Ret (VString s) /\ castValue (VString s) TString t UTC = Ret v.
Proof.
  intros Hv. destruct v as [|b|n|f|s|s|n|n|l|l|l], t; try done; cbn in Hv; cbn [castValue typesEqual]; eexists; (split; [done || by rewrite Hv|]).
  - by destruct b.
  - by rewrite parseInt64String_FormatInt.
  - done.
  - rewrite timestamp_text; [done|done| |done|done]. unfold tm_Year. destruct (tm_Date (mkTime n UTC)) as [[y m] d] eqn:E. cbn [fst].
    eapply supported_years; [exact E|]. unfold wall_days, wall, tm_Unix, tm_Zone, minDateDays, maxDateDays, minTimestampMicros, maxTimestampMicros in *. cbn. dlia.
  - by rewrite date_text.
Qed.

(** A host without zone data and a [strconv] that reads no floats. *)
Definition bareZones : TimeZones := {| LoadLocation := fun _ => false; zone_offset := fun _ _ => 0 |}.
Definition bareStrconv : Strconv := {|
  FormatG := fun _ _ _ => str "0"; ParseFloat := fun _ _ => FloatSyntax;
  ParseFloat_valid := fun s bits f (E : FloatSyntax = FloatOk f) => match E with eq_refl => I end; FormatG_bytes := fun _ _ _ => eq_refl |}.
Lemma cast_text_roundtrip_witness : exists s,
  @castValue bareZones bareStrconv (VTs (-1)) TTimestamp TString UTC = Ret (VString s) /\ @castValue bareZones bareStrconv (VString s) TString TTimestamp UTC = Ret (VTs (-1)).
Proof. apply (@cast_text_roundtrip bareZones bareStrconv (VTs (-1)) TTimestamp). split; discriminate. Defined.
