(* ===== verification/Bexpr.v ===== *)
(** * Bound expressions

    The type-checked expressions of [internal/gsql/bind.go], their evaluation, and the
    implicit coercions: [canCoerce], [coerce], [mergeTypes], [commonType].

    The evaluators of the source are closures; they are Rocq functions here.  A lazy
    evaluator decides which of its arguments to evaluate, none of them twice: it gets the
    outcomes of all of them, and the time of the query.

    RAND draws a number at every evaluation.  The numbers are an argument of the model:
    an evaluation has a number for every position in the expression, where a position is
    the path of argument indexes that leads to it.

    [wf] is the invariant of a bound expression in a typing environment.  It says of
    every node that its evaluator, given arguments of their types, yields a value of
    the node's type or an error; [eval_yields] concludes that evaluation never panics. *)

From S2P Require Import Prelude Proto Rows Server Tokens KeySchema Lexer SqlValues SqlFloat SqlArith SqlTime Like SqlOps SqlCast.
From stdpp Require Import base list.
From Stdlib Require Import ZArith Lia.
From Stdlib Require Import Floats.SpecFloat.

#[local] Open Scope Z_scope.

(** [ekRand] is the call of RAND, whose closure draws a number. *)
Inductive exprKind : Type := ekConst | ekParam | ekColumn | ekGroupRef | ekAggRef | ekCall | ekLazy | ekRand.
Inductive litKind : Type := litNone | litNull | litBool | litInt | litFloat | litString | litBytes.

#[global] Instance exprKind_eq_dec : EqDecision exprKind.
Proof. solve_decision. Defined.
#[global] Instance litKind_eq_dec : EqDecision litKind.
Proof. solve_decision. Defined.

(** The numbers drawn, by position. *)
Definition draws : Type := list nat -> spec_float.
Definition draws_at (i : nat) (r : draws) : draws := fun p => r (i :: p).
Definition draws_ok (r : draws) : Prop := forall p, valid64 (r p) = true.

Record evalCtx : Type := mkCtx {
  ec_row : option (nat -> outcome value);
  ec_params : list value;
  ec_group : list value;
  ec_aggs : list value;
  ec_now : Z;
  ec_rand : draws;
}.
(** The context of the evaluation at position [i]. *)
Definition at_pos (i : nat) (ec : evalCtx) : evalCtx := mkCtx (ec_row ec) (ec_params ec) (ec_group ec) (ec_aggs ec) (ec_now ec) (draws_at i (ec_rand ec)).

Inductive bexpr : Type := mkBexpr {
  e_kind : exprKind;
  e_typ : sqlType;
  e_name : bytes;
  e_extra : bytes;
  e_args : list bexpr;
  e_val : value;
  e_idx : nat;
  e_fn : list value -> outcome value;
  e_lazy : Z -> list (outcome value) -> outcome value;
  e_lit : litKind;
  e_strict : bool;
  e_safe : bool;
  e_ctor : bytes;
}.

(** ** Evaluation *)

Definition isEvalError (c : Code) : bool := match c with OutOfRange | InvalidArgument => true | _ => false end.
Definition absorb (safe : bool) (r : outcome value) : outcome value :=
  match r with Err c => if safe && isEvalError c then Ret VNull else Err c | r => r end.
Definition isNull (v : value) : bool := match v with VNull => true | _ => false end.
(** An index into a slice. *)
Definition at_index (l : list value) (i : nat) : outcome value := match l !! i with Some v => Ret v | None => Panic end.

(** Loops over the arguments with their positions. *)
Section positions.
Context {A B : Type}.
Section collectAt.
Context (f : nat -> A -> outcome B).
Fixpoint collectAt (i : nat) (l : list A) : outcome (list B) :=
  match l with [] => Ret [] | a :: l' => b ← f i a; bs ← collectAt (S i) l'; Ret (b :: bs) end.
End collectAt.
Section mapAt.
Context (f : nat -> A -> B).
Fixpoint mapAt (i : nat) (l : list A) : list B := match l with [] => [] | a :: l' => f i a :: mapAt (S i) l' end.
End mapAt.
End positions.

Fixpoint eval (e : bexpr) (ec : evalCtx) {struct e} : outcome value :=
  match e with
  | mkBexpr kind _ _ _ args val idx fn lazy _ strict safe _ =>
      match kind with
      | ekConst => Ret val
      | ekParam => at_index (ec_params ec) idx
      | ekColumn => match ec_row ec with Some row => row idx | None => Err Internal end
      | ekGroupRef => at_index (ec_group ec) idx
      | ekAggRef => at_index (ec_aggs ec) idx
      | ekCall =>
          vs ← collectAt (fun i a => eval a (at_pos i ec)) 0 args;
          if existsb isNull vs && strict then Ret VNull else absorb safe (fn vs)
      | ekLazy => absorb safe (lazy (ec_now ec) (mapAt (fun i a => eval a (at_pos i ec)) 0 args))
      | ekRand => Ret (VFloat (ec_rand ec []))
      end
  end.

Definition noFn : list value -> outcome value := fun _ => Panic.
Definition noLazy : Z -> list (outcome value) -> outcome value := fun _ _ => Panic.

Definition constExpr (v : value) (t : sqlType) (lit : litKind) : bexpr :=
  mkBexpr ekConst t [] [] [] v 0 noFn noLazy lit false false [].
Definition callExpr (name : bytes) (t : sqlType) (fn : list value -> outcome value) (args : list bexpr) : bexpr :=
  mkBexpr ekCall t name [] args VNull 0 fn noLazy litNone true false [].
Definition lazyExpr (name : bytes) (t : sqlType) (lazy : Z -> list (outcome value) -> outcome value) (args : list bexpr) : bexpr :=
  mkBexpr ekLazy t name [] args VNull 0 noFn lazy litNone false false [].
Definition randExpr : bexpr := mkBexpr ekRand TFloat64 (str "RAND") (str "nondet") [] VNull 0 noFn noLazy litNone true false [].
(** References to a parameter or a column. *)
Definition refExpr (kind : exprKind) (t : sqlType) (name : bytes) (idx : nat) : bexpr :=
  mkBexpr kind t name [] [] VNull idx noFn noLazy litNone false false [].

(** The assignments [r.extra = ...], [r.strict = ...], [r.ctor = ...], [r.name = ...], [cp.safe = true]. *)
Definition set_extra (x : bytes) (e : bexpr) : bexpr :=
  mkBexpr (e_kind e) (e_typ e) (e_name e) x (e_args e) (e_val e) (e_idx e) (e_fn e) (e_lazy e) (e_lit e) (e_strict e) (e_safe e) (e_ctor e).
Definition set_strict (b : bool) (e : bexpr) : bexpr :=
  mkBexpr (e_kind e) (e_typ e) (e_name e) (e_extra e) (e_args e) (e_val e) (e_idx e) (e_fn e) (e_lazy e) (e_lit e) b (e_safe e) (e_ctor e).
Definition set_ctor (c : bytes) (e : bexpr) : bexpr :=
  mkBexpr (e_kind e) (e_typ e) (e_name e) (e_extra e) (e_args e) (e_val e) (e_idx e) (e_fn e) (e_lazy e) (e_lit e) (e_strict e) (e_safe e) c.
Definition set_name (n : bytes) (e : bexpr) : bexpr :=
  mkBexpr (e_kind e) (e_typ e) n (e_extra e) (e_args e) (e_val e) (e_idx e) (e_fn e) (e_lazy e) (e_lit e) (e_strict e) (e_safe e) (e_ctor e).
Definition set_safe (e : bexpr) : bexpr :=
  mkBexpr (e_kind e) (e_typ e) (e_name e) (e_extra e) (e_args e) (e_val e) (e_idx e) (e_fn e) (e_lazy e) (e_lit e) (e_strict e) true (e_ctor e).

Fixpoint isConst (e : bexpr) : bool :=
  match e with
  | mkBexpr kind _ _ _ args _ _ _ _ _ _ _ _ =>
      match kind with ekColumn | ekGroupRef | ekAggRef => false | _ => forallb isConst args end
  end.
Definition isNullLit (e : bexpr) : bool := bool_decide (e_kind e = ekConst) && bool_decide (e_lit e = litNull).

(** ** Coercions *)

(** [sqlType.String]. *)
Fixpoint typeString (t : sqlType) : bytes :=
  match t with
  | TInvalid => str "INVALID" | TBool => str "BOOL" | TInt64 => str "INT64" | TFloat32 => str "FLOAT32" | TFloat64 => str "FLOAT64"
  | TString => str "STRING" | TBytes => str "BYTES" | TTimestamp => str "TIMESTAMP" | TDate => str "DATE"
  | TArray e => str "ARRAY<" ++ typeString e ++ str ">"
  | TMap k v => str "MAP<" ++ typeString k ++ str ", " ++ typeString v ++ str ">"
  | TStruct fs =>
      let field (f : bytes * sqlType) := match f.1 with [] => [] | n => n ++ str " " end ++ typeString f.2 in
      str "STRUCT<" ++ match fs with [] => [] | f :: fs' => field f ++ (fs' ≫= fun g => str ", " ++ field g) end ++ str ">"
  end.

Definition arrayCtor : bytes := str "array".
Definition structCtor : bytes := str "struct".

Definition makeArrayCtor (t : sqlType) (args : list bexpr) : bexpr :=
  set_extra (typeString t) (set_ctor arrayCtor (set_strict false (callExpr (str "$array") t (fun a => Ret (VArray a)) args))).
Definition makeStructCtor (t : sqlType) (args : list bexpr) : bexpr :=
  set_extra (typeString t) (set_ctor structCtor (set_strict false (callExpr (str "$struct") t (fun a => Ret (VStruct a)) args))).

(** The implicit conversions between types alone: [&bexpr{typ: from}] is no literal. *)
Fixpoint coercible (from t : sqlType) {struct from} : bool :=
  typesEqual from t ||
  match from, t with
  | TString, TBytes | TInt64, TFloat64 | TFloat32, TFloat64 => true
  | TArray fe, TArray te => coercible fe te
  | TStruct ffs, TStruct tfs =>
      (fix go (ffs tfs : list (bytes * sqlType)) : bool :=
        match ffs, tfs with
        | [], [] => true
        | f :: ffs', g :: tfs' => coercible f.2 g.2 && go ffs' tfs'
        | _, _ => false
        end) ffs tfs
  | _, _ => false
  end.

(** [canCoerce]; the elements of an array or struct constructor are coerced one by one. *)
Fixpoint canCoerce (e : bexpr) (t : sqlType) {struct e} : bool :=
  match e with
  | mkBexpr kind from _ _ args _ _ _ _ lit _ _ ctor =>
      typesEqual from t || (bool_decide (kind = ekConst) && bool_decide (lit = litNull)) ||
      match from, t with
      | TString, TBytes | TInt64, TFloat64 | TFloat32, TFloat64 => true
      | TInt64, TFloat32 => bool_decide (lit = litInt)
      | TFloat64, TFloat32 => bool_decide (lit = litFloat)
      | _, TDate | _, TTimestamp => bool_decide (lit = litString)
      | TArray fe, TArray te => if bool_decide (ctor = arrayCtor) then forallb (fun a => canCoerce a te) args else coercible fe te
      | TStruct ffs, TStruct tfs =>
          if bool_decide (ctor = structCtor) then
            Nat.eqb (length ffs) (length tfs) &&
            (fix go (args : list bexpr) (tfs : list (bytes * sqlType)) : bool :=
              match args, tfs with a :: args', g :: tfs' => canCoerce a g.2 && go args' tfs' | _, _ => true end) args tfs
          else coercible from t
      | _, _ => false
      end
  end.

Section coerce.
Context `{TimeZones} `{Strconv}.

Definition implicitCast (e : bexpr) (t : sqlType) : bexpr :=
  set_extra (typeString t) (callExpr (str "$cast") t (fun a => match a with [v] => castValue v (e_typ e) t UTC | _ => Panic end) [e]).

(** The literal kind of a coerced constant. *)
Definition coercedLit (lit : litKind) (t : sqlType) : litKind :=
  match t with
  | TDate | TTimestamp => litNone
  | TBytes => if bool_decide (lit = litString) then litBytes else litNone
  | _ => lit
  end.

Fixpoint coerce (e : bexpr) (t : sqlType) {struct e} : outcome bexpr :=
  match e with
  | mkBexpr kind from _ _ args val _ _ _ lit _ _ ctor =>
      if typesEqual from t then Ret e
      else if bool_decide (kind = ekConst) && bool_decide (lit = litNull) then Ret (constExpr VNull t litNull)
      else if negb (canCoerce e t) then Err InvalidArgument
      else if bool_decide (kind = ekConst) then
        match castValue val from t UTC with
        | Ret v => Ret (constExpr v t (coercedLit lit t))
        | Err _ => Err InvalidArgument
        | Panic => Panic
        end
      else
        match t with
        | TArray te =>
            if bool_decide (ctor = arrayCtor) then args ← collectM (fun a => coerce a te) args; Ret (makeArrayCtor t args)
            else Ret (implicitCast e t)
        | TStruct tfs =>
            if bool_decide (ctor = structCtor) then
              args ← (fix go (args : list bexpr) (tfs : list (bytes * sqlType)) : outcome (list bexpr) :=
                match args, tfs with
                | [], _ => Ret []
                | a :: args', g :: tfs' => c ← coerce a g.2; cs ← go args' tfs'; Ret (c :: cs)
                | _ :: _, [] => Panic
                end) args tfs;
              Ret (makeStructCtor t args)
            else Ret (implicitCast e t)
        | _ => Ret (implicitCast e t)
        end
  end.

End coerce.

Definition numRank (t : sqlType) : nat := match t with TInt64 => 1 | TFloat32 => 2 | TFloat64 => 3 | _ => 0 end.
Definition isDateOrTs (t : sqlType) : bool := match t with TDate | TTimestamp => true | _ => false end.

Fixpoint mergeTypes (a : sqlType) (alit : litKind) (b : sqlType) (blit : litKind) {struct a} : option (sqlType * litKind) :=
  if typesEqual a b then Some (a, if bool_decide (alit = blit) then alit else litNone)
  else
    let ra := numRank a in let rb := numRank b in
    if Nat.ltb 0 ra && Nat.ltb 0 rb then
      if (Nat.eqb ra 1 && Nat.eqb rb 2 && bool_decide (alit = litInt)) || (Nat.eqb rb 1 && Nat.eqb ra 2 && bool_decide (blit = litInt)) ||
         (Nat.eqb ra 3 && Nat.eqb rb 2 && bool_decide (alit = litFloat)) || (Nat.eqb rb 3 && Nat.eqb ra 2 && bool_decide (blit = litFloat))
      then Some (TFloat32, litNone) else Some (TFloat64, litNone)
    else
      match a, b with
      | TString, TBytes | TBytes, TString => Some (TBytes, litNone)
      | _, _ =>
          if isDateOrTs a && bool_decide (blit = litString) then Some (a, litNone)
          else if isDateOrTs b && bool_decide (alit = litString) then Some (b, litNone)
          else
            match a, b with
            | TArray x, TArray y => '(e, _) ← mergeTypes x litNone y litNone; Some (TArray e, litNone)
            | TStruct fs, TStruct gs =>
                hs ← (fix go (fs gs : list (bytes * sqlType)) : option (list (bytes * sqlType)) :=
                  match fs, gs with
                  | [], [] => Some []
                  | f :: fs', g :: gs' => '(t, _) ← mergeTypes f.2 litNone g.2 litNone; ts ← go fs' gs'; Some ((f.1, t) :: ts)
                  | _, _ => None
                  end) fs gs;
                Some (TStruct hs, litNone)
            | _, _ => None
            end
      end.

(** An untyped empty array literal. *)
Definition emptyArray (e : bexpr) : bool := bool_decide (e_ctor e = arrayCtor) && Nat.eqb (length (e_args e)) 0.
Definition isArray (t : sqlType) : bool := match t with TArray _ => true | _ => false end.

(** The loop of [commonType]: the type so far and whether it is a literal. *)
Definition commonStep (acc : option (sqlType * litKind)) (e : bexpr) : outcome (option (sqlType * litKind)) :=
  if isNullLit e then Ret acc
  else
    let et := e_typ e in
    let elit := if emptyArray e then litNull else e_lit e in
    match acc with
    | None => Ret (Some (et, elit))
    | Some (t, lit) =>
        if bool_decide (lit = litNull) && isArray t && isArray et then Ret (Some (et, elit))
        else if bool_decide (elit = litNull) && isArray et && isArray t then Ret acc
        else match mergeTypes t lit et elit with Some r => Ret (Some r) | None => Err InvalidArgument end
    end.
Definition commonType (exprs : list bexpr) : outcome sqlType :=
  acc ← foldM commonStep None exprs;
  match acc with
  | None => Ret TInt64
  | Some (t, _) =>
      if forallb (fun e => canCoerce e t || (emptyArray e && isArray t)) exprs then Ret t else Err InvalidArgument
  end.

Definition coerceAll `{TimeZones} `{Strconv} (exprs : list bexpr) (t : sqlType) : outcome (list bexpr) :=
  collectM (fun e => if emptyArray e && isArray t then Ret (makeArrayCtor t []) else coerce e t) exprs.

(** ** Typed expressions *)

(** The types of parameters, columns, grouping keys and aggregates. *)
Record tenv : Type := mkTenv { te_params : list sqlType; te_cols : list sqlType; te_group : list sqlType; te_aggs : list sqlType }.

(** The operators that [pushdown.go] recognises by the name of a node. *)
Inductive operator : Type := OAnd | OOr | OCmp (op : cmpOp) | OIn | OInUnnest | OBetween | OStartsWith | OLike.
Definition operators : list (bytes * operator) :=
  [(str "$and", OAnd); (str "$or", OOr); (str "$eq", OCmp OpEq); (str "$lt", OCmp OpLt); (str "$le", OCmp OpLe); (str "$gt", OCmp OpGt); (str "$ge", OCmp OpGe);
   (str "$in", OIn); (str "$in_unnest", OInUnnest); (str "$between", OBetween); (str "STARTS_WITH", OStartsWith); (str "$like", OLike)].
Definition operatorOf (name : bytes) : option operator := snd <$> List.find (fun p => bool_decide (p.1 = name)) operators.
#[global] Arguments operatorOf : simpl never.

(** A node with the name of an operator evaluates it. *)
Definition shape_ok (o : operator) (e : bexpr) : Prop :=
  match o with
  | OAnd => e_kind e = ekLazy /\ e_lazy e = evalAnd /\ exists l r, e_args e = [l; r] /\ e_typ l = TBool /\ e_typ r = TBool
  | OOr => e_kind e = ekLazy /\ e_lazy e = evalOr /\ exists l r, e_args e = [l; r]
  | OCmp op => e_kind e = ekCall /\ e_strict e = true /\ e_fn e = compareFn op /\ exists l r, e_args e = [l; r]
  | OIn => e_kind e = ekLazy /\ e_lazy e = evalIn false /\ exists x items, e_args e = x :: items
  | OInUnnest => e_kind e = ekLazy /\ e_lazy e = evalInUnnest false /\ exists x arr t, e_args e = [x; arr] /\ e_typ arr = TArray t
  | OBetween => e_kind e = ekLazy /\ e_lazy e = evalBetween false /\ exists x lo hi, e_args e = [x; lo; hi]
  | OStartsWith => e_kind e = ekCall /\ e_strict e = true /\ e_fn e = startsWithFn
  | OLike =>
      e_kind e = ekCall /\ e_strict e = true /\ exists cached isStr x p, e_fn e = likeFn cached isStr false /\ e_args e = [x; p] /\
        e_typ x = (if isStr then TString else TBytes) /\
        forall lp, cached = Some lp -> e_kind p = ekConst /\ compileLike (e_val p) isStr = Ret lp
  end.
Definition isCall (e : bexpr) : bool := match e_kind e with ekCall | ekLazy | ekRand => true | _ => false end.
(** A constant or a reference has no arguments; a call that has the name of an operator is one. *)
Definition name_ok (e : bexpr) : Prop := if isCall e then forall o, operatorOf (e_name e) = Some o -> shape_ok o e else e_args e = [].
Lemma plain_name e : isCall e = true -> operatorOf (e_name e) = None -> name_ok e.
Proof. unfold name_ok. intros -> En o Ho. by rewrite En in Ho. Qed.

Section typing.
Context (G : tenv).

Definition typedAs (v : value) (t : sqlType) : Prop := has_type v t = true.
Definition ctx_ok (ec : evalCtx) : Prop :=
  match ec_row ec with Some row => forall i t, te_cols G !! i = Some t -> yields (row i) t | None => True end /\
  Forall2 typedAs (ec_params ec) (te_params G) /\ Forall2 typedAs (ec_group ec) (te_group G) /\ Forall2 typedAs (ec_aggs ec) (te_aggs G) /\
  is_int64b (ec_now ec) = true /\ draws_ok (ec_rand ec).
Lemma ctx_ok_at i ec : ctx_ok ec -> ctx_ok (at_pos i ec).
Proof. intros (? & ? & ? & ? & ? & Hd). split_and!; try done. intros p. apply Hd. Qed.

(** The values that an argument may have: of its type, and a constant has only its own. *)
Definition possible (v : value) (a : bexpr) : Prop := typedAs v (e_typ a) /\ (e_kind a = ekConst -> v = e_val a).
Lemma possible_typed vs args : Forall2 possible vs args -> Forall2 (fun v a => typedAs v (e_typ a)) vs args.
Proof. intros Hvs. eapply Forall2_impl; [exact Hvs|]. by intros v a [Hv _]. Qed.

(** What a node promises, given that its arguments keep their promises. *)
Definition node_ok (e : bexpr) : Prop :=
  match e_kind e with
  | ekConst => typedAs (e_val e) (e_typ e)
  | ekParam => te_params G !! e_idx e = Some (e_typ e)
  | ekColumn => te_cols G !! e_idx e = Some (e_typ e)
  | ekGroupRef => te_group G !! e_idx e = Some (e_typ e)
  | ekAggRef => te_aggs G !! e_idx e = Some (e_typ e)
  | ekCall =>
      forall vs, Forall2 possible vs (e_args e) -> (e_strict e = true -> existsb isNull vs = false) ->
        yields (e_fn e vs) (e_typ e)
  | ekLazy =>
      forall now rs, is_int64b now = true -> Forall2 (fun r a => yields r (e_typ a)) rs (e_args e) -> yields (e_lazy e now rs) (e_typ e)
  | ekRand => e_typ e = TFloat64
  end.
(** The arguments of a constructor have the types of the elements or fields. *)
Definition ctor_ok (e : bexpr) : Prop :=
  (e_ctor e = arrayCtor -> exists t, e_typ e = TArray t /\ Forall (fun a => typesEqual (e_typ a) t = true) (e_args e)) /\
  (e_ctor e = structCtor -> exists fs, e_typ e = TStruct fs /\ Forall2 (fun a f => typesEqual (e_typ a) f.2 = true) (e_args e) fs).

Inductive wf : bexpr -> Prop :=
| wf_node e : Forall wf (e_args e) -> node_ok e -> ctor_ok e -> name_ok e -> wf e.

(** Induction over the arguments. *)
Section bexpr_ind.
Context (P : bexpr -> Prop) (Hstep : forall e, Forall P (e_args e) -> P e).
Fixpoint bexpr_nested (e : bexpr) : P e :=
  Hstep e ((fix go (l : list bexpr) : Forall P l := match l with [] => Forall_nil_2 _ | x :: l' => Forall_cons_2 _ x l' (bexpr_nested x) (go l') end) (e_args e)).
End bexpr_ind.

Lemma yields_absorb b r t : yields r t -> yields (absorb b r) t.
Proof. destruct r; cbn; try done. by destruct (b && isEvalError c). Qed.

Lemma at_index_yields l ts i t : Forall2 typedAs l ts -> ts !! i = Some t -> yields (at_index l i) t.
Proof. intros Hl Ht. destruct (Forall2_lookup_r _ _ _ _ _ Hl Ht) as (v & Hv & Hvt). unfold at_index. by rewrite Hv. Qed.

(** The evaluation of a well-formed expression yields a value of its type or an
    error; it does not panic. *)
Lemma eval_yields e ec : wf e -> ctx_ok ec -> yields (eval e ec) (e_typ e).
Proof.
  revert ec. induction e as [e IH] using bexpr_nested. intros ec Hwf Hec. inversion Hwf as [e' Hargs Hnode _ _]; subst e'.
  pose proof Hec as (Hrow & Hp & Hg & Ha & Hn & Hd). unfold node_ok in Hnode. destruct e as [kind t name extra args val idx fn lazy lit strict safe ctor]. cbn in *.
  assert (Forall (fun a => forall i, yields (eval a (at_pos i ec)) (e_typ a)) args) as Hall.
  { rewrite list.Forall_forall in *. intros a Hin i. apply IH; [done|by apply Hargs|by apply ctx_ok_at]. }
  destruct kind; [done|by eapply at_index_yields| |by eapply at_index_yields|by eapply at_index_yields| | |].
  - destruct (ec_row ec) as [row|]; [|done]. by apply Hrow.
  - assert (forall i, match collectAt (fun i a => eval a (at_pos i ec)) i args with Ret vs => Forall2 possible vs args | Err _ => True | Panic => False end) as Hc.
    { clear -Hall. induction Hall as [|a args Ha Hall IH]; intros i; cbn; [constructor|]. specialize (Ha i). destruct (eval a (at_pos i ec)) as [v| |] eqn:Ev; cbn; try done.
      specialize (IH (S i)). destruct (collectAt _ (S i) args); cbn; try done. constructor; [|done]. split; [done|]. intros Hk. destruct a; cbn in Hk, Ev |- *. subst. by injection Ev. }
    specialize (Hc 0%nat). destruct (collectAt _ _ args) as [vs| |]; cbn; try done. destruct (existsb isNull vs && strict) eqn:E; [done|].
    apply yields_absorb, Hnode; [done|]. intros ->. by rewrite andb_true_r in E.
  - apply yields_absorb, Hnode; [done|]. clear -Hall. generalize 0%nat. induction Hall as [|a args Ha Hall IH]; intros i; cbn; constructor; [apply Ha|apply IH].
  - subst t. cbn. apply Hd.
Qed.

(** *** Expressions that draw no number *)

Fixpoint draws_none (e : bexpr) : bool :=
  match e with mkBexpr kind _ _ _ args _ _ _ _ _ _ _ _ => negb (bool_decide (kind = ekRand)) && forallb draws_none args end.
(** Contexts that differ in the numbers drawn only. *)
Definition same_but_draws (ec ec' : evalCtx) : Prop :=
  ec_row ec = ec_row ec' /\ ec_params ec = ec_params ec' /\ ec_group ec = ec_group ec' /\ ec_aggs ec = ec_aggs ec' /\ ec_now ec = ec_now ec'.
Lemma eval_same e : forall ec ec', draws_none e = true -> same_but_draws ec ec' -> eval e ec = eval e ec'.
Proof.
  induction e as [e IH] using bexpr_nested. intros ec ec' Hd Hs. pose proof Hs as (Er & Ep & Eg & Ea & En). destruct e as [kind t name extra args val idx fn lazy lit strict safe ctor]. cbn in IH, Hd.
  apply andb_prop in Hd as [Hk Hd]. assert (Forall (fun a => forall i j, eval a (at_pos i ec) = eval a (at_pos j ec')) args) as Hall.
  { rewrite forallb_forall in Hd. rewrite list.Forall_forall in IH |- *. intros a Ha i j. apply IH; [done|apply Hd; by apply list_elem_of_In|by split_and!]. }
  destruct kind; cbn; try done; rewrite ?Er, ?Ep, ?Eg, ?Ea, ?En; try done.
  - assert (forall i, collectAt (fun i a => eval a (at_pos i ec)) i args = collectAt (fun i a => eval a (at_pos i ec')) i args) as ->; [|done].
    clear -Hall. induction Hall as [|a args Ha Hall IH]; intros i; [done|]. cbn. by rewrite (Ha i i), IH.
  - assert (forall i, mapAt (fun i a => eval a (at_pos i ec)) i args = mapAt (fun i a => eval a (at_pos i ec')) i args) as ->; [|done].
    clear -Hall. induction Hall as [|a args Ha Hall IH]; intros i; [done|]. cbn. by rewrite (Ha i i), IH.
Qed.
(** Their arguments are evaluated in the same context. *)
Lemma eval_at e i ec : draws_none e = true -> eval e (at_pos i ec) = eval e ec.
Proof. intros Hd. apply eval_same; [done|by split_and!]. Qed.
Lemma mapAt_eval args i ec : forallb draws_none args = true -> mapAt (fun i a => eval a (at_pos i ec)) i args = List.map (fun a => eval a ec) args.
Proof. revert i. induction args as [|a args IH]; intros i; [done|]. cbn. intros [Ha Hd]%andb_prop. by rewrite eval_at, IH. Qed.
Lemma collectAt_eval args i ec : forallb draws_none args = true -> collectAt (fun i a => eval a (at_pos i ec)) i args = collectM (fun a => eval a ec) args.
Proof. revert i. induction args as [|a args IH]; intros i; [done|]. cbn. intros [Ha Hd]%andb_prop. by rewrite eval_at, IH. Qed.
Lemma draws_none_args e : draws_none e = true -> forallb draws_none (e_args e) = true.
Proof. destruct e. cbn. by intros [_ ?]%andb_prop. Qed.

Lemma wf_rand : wf randExpr.
Proof. constructor; [constructor|done|split; done|by apply plain_name]. Qed.
Lemma wf_const v t lit : typedAs v t -> wf (constExpr v t lit).
Proof. intros Hv. constructor; [constructor|done|split; done|done]. Qed.
Lemma wf_call name t fn args : Forall wf args -> name_ok (callExpr name t fn args) ->
  (forall vs, Forall2 (fun v a => typedAs v (e_typ a)) vs args -> existsb isNull vs = false -> yields (fn vs) t) -> wf (callExpr name t fn args).
Proof. intros Ha Hn Hf. constructor; [done| |split; done|done]. intros vs Hvs%possible_typed Hs. apply Hf; [done|by apply Hs]. Qed.
Lemma wf_call_possible name t fn args : Forall wf args -> operatorOf name = None ->
  (forall vs, Forall2 possible vs args -> existsb isNull vs = false -> yields (fn vs) t) -> wf (callExpr name t fn args).
Proof. intros Ha Hn Hf. constructor; [done| |split; done|by apply plain_name]. intros vs Hvs Hs. apply Hf; [done|by apply Hs]. Qed.
Lemma wf_call_lax name t fn args : Forall wf args -> operatorOf name = None ->
  (forall vs, Forall2 (fun v a => typedAs v (e_typ a)) vs args -> yields (fn vs) t) -> wf (set_strict false (callExpr name t fn args)).
Proof. intros Ha Hn Hf. constructor; [done| |split; done|by apply plain_name]. intros vs Hvs%possible_typed _. by apply Hf. Qed.
Lemma wf_lazy name t lazy args : Forall wf args -> name_ok (lazyExpr name t lazy args) ->
  (forall now rs, is_int64b now = true -> Forall2 (fun r a => yields r (e_typ a)) rs args -> yields (lazy now rs) t) -> wf (lazyExpr name t lazy args).
Proof. intros Ha Hn Hf. constructor; [done|done|split; done|done]. Qed.
Lemma wf_set_extra x e : wf e -> wf (set_extra x e).
Proof. intros Hw. inversion Hw; subst. by constructor. Qed.
Lemma wf_set_name x e : isCall e = true -> operatorOf x = None -> wf e -> wf (set_name x e).
Proof. intros Hc Hx Hw. inversion Hw; subst. constructor; try done. by apply plain_name. Qed.
Lemma wf_set_safe e : wf e -> wf (set_safe e).
Proof. intros Hw. inversion Hw; subst. by constructor. Qed.

Lemma typedAs_equal v t t' : typesEqual t t' = true -> typedAs v t -> typedAs v t'.
Proof. apply has_type_equal. Qed.

Lemma wf_array t args : Forall wf args -> Forall (fun a => typesEqual (e_typ a) t = true) args -> wf (makeArrayCtor (TArray t) args).
Proof.
  intros Ha Ht. constructor; [done| |split; [by exists t|done]|by apply plain_name]. intros vs Hvs%possible_typed _. cbn. rewrite forallb_forall. intros v Hv%list_elem_of_In.
  apply list_elem_of_lookup in Hv as [i Hi]. destruct (Forall2_lookup_l _ _ _ _ _ Hvs Hi) as (a & Hi' & Hav).
  eapply typedAs_equal; [|done]. rewrite list.Forall_forall in Ht. apply Ht. by eapply list_elem_of_lookup_2.
Qed.
Lemma wf_struct fs args : Forall wf args -> Forall2 (fun a f => typesEqual (e_typ a) f.2 = true) args fs -> wf (makeStructCtor (TStruct fs) args).
Proof.
  intros Ha Ht. constructor; [done| |split; [done|by exists fs]|by apply plain_name]. intros vs Hvs%possible_typed _. cbn. fold (fields_typed vs fs). apply fields_typed_Forall2.
  clear Ha. revert vs Hvs. induction Ht as [|a f args fs Haf Hl IH]; intros vs Hvs; inversion Hvs; subst; constructor; [by eapply typedAs_equal|by apply IH].
Qed.

(** What [coerce] promises. *)
Definition coerced (r : outcome bexpr) (t : sqlType) : Prop :=
  match r with Ret e => wf e /\ typesEqual (e_typ e) t = true | Err _ => True | Panic => False end.

Context `{TimeZones} `{Strconv}.

Lemma wf_implicitCast e t : wf e -> wf (implicitCast e t).
Proof.
  intros He. apply wf_set_extra, wf_call; [by constructor; [|constructor]|by apply plain_name|]. intros vs Hvs _. inversion Hvs as [|v ? vs' ? Hv Hnil]; subst. inversion Hnil; subst.
  by apply castValue_yields.
Qed.

Lemma collect_coerced args te : Forall (fun a => forall t, wf a -> coerced (coerce a t) t) args -> Forall wf args ->
  match collectM (fun a => coerce a te) args with
  | Ret out => Forall wf out /\ Forall (fun a => typesEqual (e_typ a) te = true) out
  | Err _ => True
  | Panic => False
  end.
Proof.
  induction 1 as [|a args Ha Hall IH]; intros Hwf; cbn; [done|]. apply Forall_cons in Hwf as [Hwa Hwf]. specialize (Ha te Hwa).
  destruct (coerce a te); cbn; try done. specialize (IH Hwf). destruct (collectM _ args); cbn; try done. destruct Ha, IH. by split; constructor.
Qed.

(** A coercion of a well-formed expression is well-formed and has the type asked for. *)
Lemma coerce_coerced e : forall t, wf e -> coerced (coerce e t) t.
Proof.
  induction e as [e IH] using bexpr_nested. intros t Hwf. inversion Hwf as [e' Hargs Hnode Hctor _]; subst e'.
  destruct e as [kind from name extra args val idx fn lazy lit strict safe ctor]. cbn [e_args e_kind e_typ] in *. cbn [coerce].
  destruct (typesEqual from t) eqn:Eeq; [done|]. destruct (bool_decide (kind = ekConst) && bool_decide (lit = litNull)) eqn:Enull.
  { split; [by apply wf_const|apply typesEqual_refl]. }
  destruct (negb (canCoerce _ t)) eqn:Ecan; [done|]. apply negb_false_iff in Ecan. destruct (bool_decide (kind = ekConst)) eqn:Hk.
  { apply bool_decide_eq_true in Hk. subst kind. pose proof (castValue_yields val from t UTC Hnode) as Hy. destruct (castValue val from t UTC); try done. split; [by apply wf_const|apply typesEqual_refl]. }
  assert (coerced (Ret (implicitCast (mkBexpr kind from name extra args val idx fn lazy lit strict safe ctor) t)) t) as Hcast.
  { split; [by apply wf_implicitCast|apply typesEqual_refl]. }
  destruct t as [| | | | | | | | |te|tfs|]; try exact Hcast.
  - destruct (bool_decide (ctor = arrayCtor)); [|exact Hcast]. pose proof (collect_coerced args te IH Hargs) as Hc. destruct (collectM _ args); cbn; try done.
    destruct Hc. split; [by apply wf_array|apply typesEqual_refl].
  - destruct (bool_decide (ctor = structCtor)) eqn:Hst; [|exact Hcast]. apply bool_decide_eq_true in Hst. destruct Hctor as [_ Hs]. destruct (Hs Hst) as (ffs & Ef & Hfs). cbn in Ef, Hfs. subst from.
    assert (length args = length tfs) as Hlen.
    { cbn [canCoerce] in Ecan. rewrite Eeq, Hk, (bool_decide_eq_true_2 _ Hst) in Ecan. cbn [orb andb] in Ecan. apply andb_prop in Ecan as [Ecan%Nat.eqb_eq _].
      rewrite <- Ecan. by eapply Forall2_length. }
    match goal with |- coerced (?g ≫= _) _ => assert (match g with Ret out => Forall wf out /\ Forall2 (fun a f => typesEqual (e_typ a) f.2 = true) out tfs | Err _ => True | Panic => False end) as Hc end.
    { clear -IH Hargs Hlen. revert tfs Hlen. induction IH as [|a args Ha Hall IHl]; intros [|g tfs] Hlen; try done.
      apply Forall_cons in Hargs as [Hwa Hargs]. specialize (Ha g.2 Hwa). destruct (coerce a g.2); cbn; try done. specialize (IHl Hargs tfs ltac:(cbn in Hlen; lia)).
      match goal with |- context [?h args tfs ≫= _] => destruct (h args tfs) end; cbn; try done. destruct Ha, IHl. by split; constructor. }
    match goal with |- coerced (?g ≫= _) _ => destruct g end; cbn; try done. destruct Hc. split; [by apply wf_struct|exact (typesEqual_refl (TStruct tfs))].
Qed.

Lemma coerceAll_coerced es t : Forall wf es ->
  match coerceAll es t with Ret out => Forall wf out /\ Forall (fun a => typesEqual (e_typ a) t = true) out /\ length out = length es | Err _ => True | Panic => False end.
Proof.
  unfold coerceAll. induction 1 as [|e es He Hes IH]; cbn; [done|].
  assert (coerced (if emptyArray e && isArray t then Ret (makeArrayCtor t []) else coerce e t) t) as Hc.
  { destruct (emptyArray e && isArray t) eqn:Ee; [|by apply coerce_coerced]. apply andb_prop in Ee as [_ Ea]. destruct t; try done. split; [by apply wf_array|apply typesEqual_refl]. }
  destruct (if emptyArray e && isArray t then _ else _); cbn; try done. destruct (collectM _ es); cbn; try done. destruct Hc, IH as (? & ? & ?). split_and!; [by constructor|by constructor|by f_equal].
Qed.

Lemma commonType_safe es : commonType es <> Panic.
Proof.
  unfold commonType. pose proof (foldM_safe commonStep es) as Hs. assert (forall b a, commonStep b a <> Panic) as Hstep.
  { intros b a. unfold commonStep. repeat case_match; done. }
  specialize (Hs Hstep None). destruct (foldM commonStep None es) as [[[t lit]|]| |]; cbn; try done. by case_match.
Qed.
End typing.

(** Coercing an expression to a type without parts, the type is exactly that. *)
Definition scalar (t : sqlType) : bool := match t with TArray _ | TStruct _ | TMap _ _ => false | _ => true end.
Lemma typesEqual_scalar t t' : typesEqual t t' = true -> scalar t' = true -> t = t'.
Proof. by destruct t, t'. Qed.
