(* ===== verification/Pushdown.v ===== *)
(** * Row ranges of a WHERE clause

    [internal/gsql/pushdown.go] turns the conditions on the row key of a WHERE clause
    into the ranges of keys that a query scans.  The theorem about it is that no row for
    which the clause is TRUE is left out: the scan of the ranges finds every row that the
    scan of the whole table finds.

    The slice of a nil [start] and an empty one are the same list of bytes; a nil [end]
    is [None]. *)

From S2P Require Import Prelude Proto Rows Server Tokens KeySchema Lexer SqlValues SqlFloat SqlArith Like SqlOps Bexpr.
From stdpp Require Import base list.
From Stdlib Require Import ZArith Lia Sorted.
From Stdlib Require Import Floats.SpecFloat.

#[local] Open Scope Z_scope.

Record keyRange : Type := mkKeyRange { kr_start : bytes; kr_end : option bytes }.

Definition keySuccessor (k : bytes) : bytes := k ++ [0].

(** The loop drops trailing bytes 0xff; [p] is reversed. *)
Fixpoint bumpLast (p : bytes) : option bytes :=
  match p with [] => None | c :: p' => if c =? 255 then bumpLast p' else Some (c + 1 :: p') end.
Definition prefixSuccessor (p : bytes) : option bytes := reverse <$> bumpLast (reverse p).

Definition empty_range (r : keyRange) : bool := match kr_end r with Some e => bytes_leb e (kr_start r) | None => false end.

Definition cmpEnd (a b : option bytes) : Z :=
  match a, b with None, None => 0 | None, Some _ => 1 | Some _, None => -1 | Some a, Some b => cmpBytes a b end.

(** The second loop of [normalizeRanges]; [last] is the last merged range. *)
Fixpoint mergeRanges (last : keyRange) (rs : list keyRange) : list keyRange :=
  match rs with
  | [] => [last]
  | r :: rs' =>
      if match kr_end last with None => true | Some e => cmpBytes (kr_start r) e <=? 0 end
      then mergeRanges (mkKeyRange (kr_start last) (if 0 <? cmpEnd (kr_end r) (kr_end last) then kr_end r else kr_end last)) rs'
      else last :: mergeRanges r rs'
  end.
Definition sortRanges (rs : list keyRange) : list keyRange := isort (fun a b => bytes_leb (kr_start a) (kr_start b)) rs.
Definition normalizeRanges (rs : list keyRange) : list keyRange :=
  match sortRanges (List.filter (fun r => negb (empty_range r)) rs) with [] => [] | r :: rs' => mergeRanges r rs' end.

Definition intersectRange (x y : keyRange) : keyRange :=
  mkKeyRange (if 0 <? cmpBytes (kr_start y) (kr_start x) then kr_start y else kr_start x)
             (if cmpEnd (kr_end y) (kr_end x) <? 0 then kr_end y else kr_end x).
Definition intersectRanges (a b : list keyRange) : list keyRange :=
  normalizeRanges (a ≫= fun x => b ≫= fun y => let r := intersectRange x y in if empty_range r then [] else [r]).

(** ** The ranges of an expression *)

(** The [scope] of a plan, where the key is one of the columns, if any. *)
Definition isBaseKey (keyCol : option nat) (e : bexpr) : bool :=
  bool_decide (e_kind e = ekColumn) && Nat.eqb (e_idx e) 0 && bool_decide (keyCol = Some 0%nat).

(** The context of a constant: parameters, the time of the query, and its own random
    numbers. *)
Definition constCtx (ec : evalCtx) : evalCtx := mkCtx None (ec_params ec) [] [] (ec_now ec) (ec_rand ec).

(** What [constBytes] finds: no constant, NULL, or bytes. *)
Inductive constKey : Type := NotConst | ConstNull | ConstBytes (b : bytes).
Definition isBytes (t : sqlType) : bool := match t with TBytes => true | _ => false end.
Definition constBytes (e : bexpr) (ec : evalCtx) : outcome constKey :=
  if negb (isConst e) || negb (isBytes (e_typ e)) then Ret NotConst
  else
    match eval e (constCtx ec) with
    | Err _ => Ret NotConst
    | Ret VNull => Ret ConstNull
    | Ret (VBytes b) => Ret (ConstBytes b)
    | Ret _ | Panic => Panic
    end.

Definition pointRange (v : bytes) : keyRange := mkKeyRange v (Some (keySuccessor v)).
Definition flipCmp (op : cmpOp) : cmpOp := match op with OpLt => OpGt | OpLe => OpGe | OpGt => OpLt | OpGe => OpLe | op => op end.
Definition cmpRange (op : cmpOp) (v : bytes) : keyRange :=
  match op with
  | OpEq => pointRange v
  | OpLt => mkKeyRange [] (Some v)
  | OpLe => mkKeyRange [] (Some (keySuccessor v))
  | OpGt => mkKeyRange (keySuccessor v) None
  | _ => mkKeyRange v None
  end.

(** The loop of [$in].  Every constant is evaluated at a position of its own. *)
Fixpoint inRanges (items : list bexpr) (ec : evalCtx) : outcome (option (list keyRange)) :=
  match items with
  | [] => Ret (Some [])
  | x :: items' =>
      c ← constBytes x (at_pos 0 ec);
      match c with
      | NotConst => Ret None
      | ConstNull => inRanges items' (at_pos 1 ec)
      | ConstBytes v => rs ← inRanges items' (at_pos 1 ec); match rs with Some rs => Ret (Some (pointRange v :: rs)) | None => Ret None end
      end
  end.

(** [rangesFor]: [None] when the expression does not constrain the key.  The switch is
    on the name of the node alone; a missing argument is an index out of range. *)
Fixpoint rangesFor (keyCol : option nat) (e : bexpr) (ec : evalCtx) {struct e} : outcome (option (list keyRange)) :=
  match e with
  | mkBexpr _ _ name _ args _ _ _ _ _ _ _ _ =>
      match operatorOf name with
      | Some OAnd =>
          match args with
          | x :: y :: _ =>
              l ← rangesFor keyCol x (at_pos 0 ec); r ← rangesFor keyCol y (at_pos 1 ec);
              match l, r with
              | Some l, Some r => Ret (Some (intersectRanges (normalizeRanges l) (normalizeRanges r)))
              | Some l, None => Ret (Some l)
              | None, Some r => Ret (Some r)
              | None, None => Ret None
              end
          | _ => Panic
          end
      | Some OOr =>
          match args with
          | x :: y :: _ =>
              l ← rangesFor keyCol x (at_pos 0 ec); r ← rangesFor keyCol y (at_pos 1 ec);
              match l, r with Some l, Some r => Ret (Some (normalizeRanges (l ++ r))) | _, _ => Ret None end
          | _ => Panic
          end
      | Some (OCmp op) =>
          match args with
          | x :: y :: _ =>
              let '(k, c, op) := if isBaseKey keyCol x then (x, y, op) else (y, x, flipCmp op) in
              if negb (isBaseKey keyCol k) then Ret None
              else
                v ← constBytes c ec;
                match v with NotConst => Ret None | ConstNull => Ret (Some []) | ConstBytes v => Ret (Some [cmpRange op v]) end
          | _ => Panic
          end
      | Some OIn =>
          match args with x :: items => if negb (isBaseKey keyCol x) then Ret None else inRanges items ec | [] => Panic end
      | Some OInUnnest =>
          match args with
          | [] => Panic
          | x :: rest =>
              if negb (isBaseKey keyCol x) then Ret None
              else
                match rest with
                | [] => Panic
                | arr :: _ =>
                    if negb (isConst arr) then Ret None
                    else
                      match eval arr (constCtx ec) with
                      | Err _ => Ret None
                      | Ret VNull => Ret (Some [])
                      | Ret (VArray vs) => Ret (Some (vs ≫= fun v => match v with VBytes b => [pointRange b] | _ => [] end))
                      | Ret _ | Panic => Panic
                      end
                end
          end
      | Some OBetween =>
          match args with
          | [] => Panic
          | x :: rest =>
              if negb (isBaseKey keyCol x) then Ret None
              else
                match rest with
                | lo :: hi :: _ =>
                    lo ← constBytes lo (at_pos 0 ec); hi ← constBytes hi (at_pos 1 ec);
                    match lo, hi with
                    | NotConst, _ | _, NotConst => Ret None
                    | ConstBytes lo, ConstBytes hi => Ret (Some [mkKeyRange lo (Some (keySuccessor hi))])
                    | _, _ => Ret (Some [])
                    end
                | _ => Panic
                end
          end
      | Some OStartsWith =>
          match args with
          | [x; p] =>
              if negb (isBaseKey keyCol x) then Ret None
              else
                p ← constBytes p ec;
                match p with
                | NotConst => Ret None
                | ConstNull => Ret (Some [])
                | ConstBytes pre => Ret (Some [mkKeyRange pre (prefixSuccessor pre)])
                end
          | _ => Ret None
          end
      | Some OLike =>
          match args with
          | [] => Panic
          | x :: rest =>
              if negb (isBaseKey keyCol x) then Ret None
              else
                match rest with
                | [] => Panic
                | p :: _ =>
                    p ← constBytes p ec;
                    match p with
                    | NotConst => Ret None
                    | ConstNull => Ret (Some [])
                    | ConstBytes pat =>
                        let '(pre, exact) := likeLiteralPrefix pat in
                        Ret (Some [if exact : bool then pointRange pre else mkKeyRange pre (prefixSuccessor pre)])
                    end
                end
          end
      | None => Ret None
      end
  end.

Definition fullRange : list keyRange := [mkKeyRange [] None].
Definition keyRanges (keyCol : option nat) (noPushdown : bool) (whr : option bexpr) (ec : evalCtx) : outcome (list keyRange) :=
  match whr with
  | None => Ret fullRange
  | Some e =>
      if noPushdown then Ret fullRange
      else
        rs ← rangesFor keyCol e ec;
        match rs with None => Ret fullRange | Some rs => Ret (normalizeRanges rs) end
  end.

(** ** Sets of ranges *)

Definition in_range (k : bytes) (r : keyRange) : Prop :=
  bytes_leb (kr_start r) k = true /\ match kr_end r with Some e => bytes_ltb k e = true | None => True end.
Definition covers (k : bytes) (rs : list keyRange) : Prop := Exists (in_range k) rs.

(** Ranges are in order and apart: a range starts after the one before it ends. *)
Definition apart (a b : keyRange) : Prop := match kr_end a with Some e => bytes_ltb e (kr_start b) = true | None => False end.
Fixpoint separated (rs : list keyRange) : Prop :=
  match rs with
  | [] => True
  | r :: rs' => empty_range r = false /\ match rs' with [] => True | r' :: _ => apart r r' end /\ separated rs'
  end.

Lemma cmpBytes_le a b : (cmpBytes a b <=? 0) = bytes_leb a b.
Proof. unfold cmpBytes. rewrite bytes_leb_ltb. destruct (bytes_ltb a b) eqn:E, (bytes_ltb b a) eqn:E'; try done. exfalso. pose proof (bytes_ltb_trans _ _ _ E E') as H. by rewrite bytes_ltb_irrefl in H. Qed.
Lemma cmpBytes_gt a b : (0 <? cmpBytes a b) = bytes_ltb b a.
Proof. pose proof (cmpBytes_le a b) as H. rewrite bytes_leb_ltb in H. rewrite Z.leb_antisym in H. destruct (0 <? _), (bytes_ltb b a); done. Qed.
Lemma cmpBytes_lt a b : (cmpBytes a b <? 0) = bytes_ltb a b.
Proof. unfold cmpBytes. destruct (bytes_ltb a b); [done|]. by destruct (bytes_ltb b a). Qed.

Lemma ltb_leb a b : bytes_ltb a b = true -> bytes_leb a b = true.
Proof. intros. apply bytes_leb_cases. by left. Qed.
Lemma leb_false a b : bytes_leb a b = false -> bytes_ltb b a = true.
Proof. rewrite bytes_leb_ltb. by intros ?%negb_false_iff. Qed.
Lemma ltb_false a b : bytes_ltb a b = false -> bytes_leb b a = true.
Proof. rewrite bytes_leb_ltb. by intros ->. Qed.

(** An end as an upper bound: keys below it. *)
Definition below (k : bytes) (e : option bytes) : Prop := match e with Some e => bytes_ltb k e = true | None => True end.
Lemma cmpEnd_max k a b : below k (if 0 <? cmpEnd a b then a else b) <-> below k a \/ below k b.
Proof.
  destruct a as [a|], b as [b|]; cbn; try tauto. rewrite cmpBytes_gt. destruct (bytes_ltb b a) eqn:E; cbn.
  - split; [by left|]. intros [H|H]; [done|]. by eapply bytes_ltb_trans.
  - apply ltb_false in E. split; [by right|]. intros [H|H]; [|done]. by eapply bytes_ltb_leb_trans.
Qed.
Lemma cmpEnd_min k a b : below k (if cmpEnd a b <? 0 then a else b) <-> below k a /\ below k b.
Proof.
  destruct a as [a|], b as [b|]; cbn; try tauto. rewrite cmpBytes_lt. destruct (bytes_ltb a b) eqn:E; cbn.
  - split; [|by intros []]. intros H. split; [done|]. by eapply bytes_ltb_trans.
  - apply ltb_false in E. split; [|by intros []]. intros H. split; [|done]. by eapply bytes_ltb_leb_trans.
Qed.
Lemma in_range_below k r : in_range k r <-> bytes_leb (kr_start r) k = true /\ below k (kr_end r).
Proof. done. Qed.
Lemma empty_covers k r : empty_range r = true -> ~ in_range k r.
Proof. unfold empty_range, in_range. destruct (kr_end r) as [e|]; [|done]. intros He [Hs Hk]. pose proof (bytes_leb_ltb_trans _ _ _ (bytes_leb_trans _ _ _ He Hs) Hk) as H. by rewrite bytes_ltb_irrefl in H. Qed.

Abbreviation by_start := (StronglySorted (fun a b => bytes_leb (kr_start a) (kr_start b) = true)).

Lemma merged_nonempty last r : bytes_leb (kr_start last) (kr_start r) = true -> empty_range last = false -> empty_range r = false ->
  empty_range (mkKeyRange (kr_start last) (if 0 <? cmpEnd (kr_end r) (kr_end last) then kr_end r else kr_end last)) = false.
Proof.
  unfold empty_range. cbn [kr_start kr_end]. intros Hs Hl Hr. destruct (0 <? cmpEnd (kr_end r) (kr_end last)); [|done].
  destruct (kr_end r) as [e|]; [|done]. apply leb_false in Hr. rewrite bytes_leb_ltb. apply negb_false_iff. by eapply bytes_leb_ltb_trans.
Qed.

(** Merging sorted ranges keeps the keys they cover. *)
Lemma merge_covers k rs : forall last, by_start (last :: rs) -> Forall (fun r => empty_range r = false) (last :: rs) -> covers k (mergeRanges last rs) <-> in_range k last \/ covers k rs.
Proof.
  unfold covers. induction rs as [|r rs IH]; intros last Hs He; cbn [mergeRanges].
  { rewrite Exists_cons, !Exists_nil. tauto. }
  apply StronglySorted_inv in Hs as [Hrs Hlast]. apply Forall_cons in Hlast as [Hlr Hlast]. apply Forall_cons in He as [Hel He]. pose proof Hrs as Hrs'. apply StronglySorted_inv in Hrs' as [Hss _].
  rewrite Exists_cons. destruct (match kr_end last with None => true | Some e => _ end) eqn:Em.
  - rewrite IH; [| by constructor|constructor; [|by apply Forall_cons in He as [_ ?]]].
    + rewrite !in_range_below. cbn [kr_start kr_end]. rewrite cmpEnd_max. split; [|].
      * intros [[Hk [Hr|Hl]]|Hx]; [|tauto|tauto]. destruct (bytes_leb (kr_start r) k) eqn:Er; [tauto|]. left. split; [done|]. apply leb_false in Er.
        destruct (kr_end last) as [e|]; [|done]. cbn. rewrite cmpBytes_le in Em. by eapply bytes_ltb_leb_trans.
      * intros [[Hk Hl]|[[Hk Hr]|Hx]]; [tauto| |tauto]. left. split; [by eapply bytes_leb_trans|tauto].
    + apply Forall_cons in He as [Her _]. by apply merged_nonempty.
  - rewrite Exists_cons, IH; [|done|done]. tauto.
Qed.
Lemma merge_head last rs : exists e rs', mergeRanges last rs = mkKeyRange (kr_start last) e :: rs'.
Proof. revert last. induction rs as [|r rs IH]; intros last; cbn [mergeRanges]; [by destruct last; eauto|]. destruct (match kr_end last with None => true | Some _ => _ end); [apply (IH (mkKeyRange _ _))|destruct last; eauto]. Qed.
Lemma merge_separated rs : forall last, by_start (last :: rs) -> Forall (fun r => empty_range r = false) (last :: rs) -> separated (mergeRanges last rs).
Proof.
  induction rs as [|r rs IH]; intros last Hs He; cbn [mergeRanges]; [by apply Forall_cons in He as [? _]|].
  apply StronglySorted_inv in Hs as [Hrs Hlast]. apply Forall_cons in Hlast as [Hlr Hlast]. apply Forall_cons in He as [Hel He]. pose proof Hrs as Hrs'. apply StronglySorted_inv in Hrs' as [Hss _].
  destruct (match kr_end last with None => true | Some e => _ end) eqn:Em.
  - apply IH; [by constructor|]. constructor; [|by apply Forall_cons in He as [_ ?]]. apply Forall_cons in He as [Her _]. by apply merged_nonempty.
  - specialize (IH r Hrs He). destruct (merge_head r rs) as (e & rs' & E). rewrite E in *. split_and!; [done| |exact IH]. unfold apart. cbn. destruct (kr_end last) as [l|]; [|done]. rewrite cmpBytes_le in Em. by apply leb_false in Em.
Qed.

Lemma sort_nonempty rs : by_start (sortRanges (List.filter (fun r => negb (empty_range r)) rs)) /\
  Forall (fun r => empty_range r = false) (sortRanges (List.filter (fun r => negb (empty_range r)) rs)).
Proof.
  split; [apply isort_sorted; intros; eauto with lbt|]. apply list.Forall_forall. intros r Hr. unfold sortRanges in Hr. rewrite elem_of_isort, list_elem_of_In, filter_In in Hr.
  destruct Hr as [_ Hr]. by apply negb_true_iff.
Qed.
Lemma normalize_covers k rs : covers k (normalizeRanges rs) <-> covers k rs.
Proof.
  unfold normalizeRanges. destruct (sort_nonempty rs) as [Hs He]. trans (covers k (sortRanges (List.filter (fun r => negb (empty_range r)) rs))).
  - destruct (sortRanges _) as [|r l]; [done|]. rewrite merge_covers by done. unfold covers. by rewrite Exists_cons.
  - unfold covers. rewrite !Exists_exists. unfold sortRanges. setoid_rewrite elem_of_isort. setoid_rewrite list_elem_of_In. setoid_rewrite filter_In. split; [intros (r & [Hr _] & Hk); eauto|].
    intros (r & Hr & Hk). exists r. split_and!; [done| |done]. destruct (empty_range r) eqn:E; [|done]. by apply (empty_covers k) in E.
Qed.
Lemma normalize_separated rs : separated (normalizeRanges rs).
Proof. unfold normalizeRanges. destruct (sort_nonempty rs) as [Hs He]. destruct (sortRanges _); [done|by apply merge_separated]. Qed.

Lemma intersectRange_spec k x y : in_range k (intersectRange x y) <-> in_range k x /\ in_range k y.
Proof.
  rewrite !in_range_below. unfold intersectRange. cbn [kr_start kr_end]. rewrite cmpEnd_min, cmpBytes_gt. destruct (bytes_ltb (kr_start x) (kr_start y)) eqn:E.
  - apply ltb_leb in E. split; [|tauto]. intros (Hk & ? & ?). split_and!; try done. by eapply bytes_leb_trans.
  - apply ltb_false in E. split; [|tauto]. intros (Hk & ? & ?). split_and!; try done. by eapply bytes_leb_trans.
Qed.
Lemma intersect_covers k a b : covers k (intersectRanges a b) <-> covers k a /\ covers k b.
Proof.
  unfold intersectRanges. rewrite normalize_covers. unfold covers. rewrite !Exists_exists. split.
  - intros (r & Hr & Hk). apply list_elem_of_bind in Hr as (x & Hr & Hx). apply list_elem_of_bind in Hr as (y & Hr & Hy). cbn in Hr.
    destruct (empty_range (intersectRange x y)); [by apply elem_of_nil in Hr|]. apply list_elem_of_singleton in Hr. subst r. apply intersectRange_spec in Hk as [? ?]. split; eauto.
  - intros [(x & Hx & Hkx) (y & Hy & Hky)]. assert (in_range k (intersectRange x y)) as Hk by (by apply intersectRange_spec). exists (intersectRange x y). split; [|done].
    apply list_elem_of_bind. exists x. split; [|done]. apply list_elem_of_bind. exists y. split; [|done]. cbn. destruct (empty_range _) eqn:E; [by apply (empty_covers k) in E|]. by apply list_elem_of_singleton.
Qed.

(** Keys with a prefix lie below its successor. *)
Lemma bytes_ltb_app p a b : bytes_ltb (p ++ a) (p ++ b) = bytes_ltb a b.
Proof. unfold bytes_ltb. induction p as [|c p IH]; [done|]. cbn. by rewrite Z.compare_refl. Qed.
Lemma bumpLast_below p e rest : bumpLast p = Some e -> bytes_ltb (reverse p ++ rest) (reverse e) = true.
Proof.
  revert rest. induction p as [|c p IH]; intros rest; [done|]. cbn [bumpLast]. rewrite reverse_cons. destruct (Z.eqb_spec c 255).
  - intros E. rewrite <- app_assoc. by apply IH.
  - intros [= <-]. rewrite reverse_cons, <- app_assoc, bytes_ltb_app. unfold bytes_ltb. cbn. by rewrite (proj2 (Z.compare_lt_iff c (c + 1)) ltac:(lia)).
Qed.
Lemma prefix_in_range p rest : in_range (p ++ rest) (mkKeyRange p (prefixSuccessor p)).
Proof.
  split; cbn; [unfold bytes_leb; induction p as [|c p IH]; cbn; [by destruct rest|by rewrite Z.compare_refl]|]. unfold prefixSuccessor. destruct (bumpLast (reverse p)) as [e|] eqn:E; [|done]. cbn.
  apply (bumpLast_below _ _ rest) in E. by rewrite reverse_involutive in E.
Qed.
Lemma point_in_range k : all_bytes k -> in_range k (pointRange k).
Proof. intros Hk. split; cbn; [apply bytes_leb_refl|]. unfold keySuccessor. rewrite bytes_ltb_snoc0 by done. apply bytes_leb_refl. Qed.

(** ** Ranges are sound *)

(** The context of a row. *)
Definition with_row (row : nat -> outcome value) (ec : evalCtx) : evalCtx := mkCtx (Some row) (ec_params ec) (ec_group ec) (ec_aggs ec) (ec_now ec) (ec_rand ec).

Lemma isConst_eval e : forall ec ec', isConst e = true -> draws_none e = true -> ec_params ec = ec_params ec' -> ec_now ec = ec_now ec' -> eval e ec = eval e ec'.
Proof.
  induction e as [e IH] using bexpr_nested. intros ec ec' Hc Hd Hp Hn. destruct e as [kind t name extra args val idx fn lazy lit strict safe ctor]. cbn [e_args] in IH. cbn in Hd. apply andb_prop in Hd as [Hk Hd].
  assert (forallb isConst args = true -> List.map (fun a => eval a ec) args = List.map (fun a => eval a ec') args) as Hargs.
  { clear -IH Hp Hn Hd. induction IH as [|a args Ha Hall IHl]; [done|]. cbn in Hd |- *. apply andb_prop in Hd as [Hda Hd]. intros [Hca Hcs]%andb_prop. by rewrite (Ha ec ec'), IHl. }
  destruct kind; cbn in Hc |- *; try done; rewrite ?collectAt_eval, ?mapAt_eval by done; [by rewrite Hp| |].
  - specialize (Hargs Hc). assert (collectM (fun a => eval a ec) args = collectM (fun a => eval a ec') args) as ->; [|done].
    clear -Hargs. induction args as [|a args IH]; [done|]. cbn in Hargs |- *. injection Hargs as -> E. by rewrite IH.
  - by rewrite (Hargs Hc), Hn.
Qed.

(** Well-formed expressions without random numbers. *)
Definition wfd (G : tenv) (e : bexpr) : Prop := wf G e /\ draws_none e = true.
Lemma wfd_args G e : wfd G e -> Forall (wfd G) (e_args e).
Proof.
  intros [Hw Hd]. inversion Hw as [e' Hargs _ _ _]; subst e'. apply draws_none_args in Hd. rewrite forallb_forall in Hd. rewrite list.Forall_forall in Hargs |- *. intros a Ha. split; [by apply Hargs|apply Hd; by apply list_elem_of_In].
Qed.
(** The contexts of one query. *)
Definition same_query (ec ec' : evalCtx) : Prop := ec_params ec = ec_params ec' /\ ec_now ec = ec_now ec'.

Section soundness.
Context (G : tenv) (keyCol : option nat) (ec0 : evalCtx) (row : nat -> outcome value) (key : bytes).
Let ec : evalCtx := with_row row ec0.
Context (Hec : ctx_ok G ec) (Hkey : row 0%nat = Ret (VBytes key)) (Hbytes : all_bytes key).

Lemma constBytes_spec e ec1 : same_query ec1 ec0 -> wfd G e ->
  match constBytes e ec1 with
  | Ret NotConst => True
  | Ret ConstNull => eval e ec = Ret VNull
  | Ret (ConstBytes v) => eval e ec = Ret (VBytes v)
  | Err _ | Panic => False
  end.
Proof.
  intros [Hp Hn] [Hwf Hd]. unfold constBytes. destruct (isConst e) eqn:Hc; [|done]. destruct (isBytes (e_typ e)) eqn:Ht; [|done]. cbn. rewrite (isConst_eval e (constCtx ec1) ec) by done.
  pose proof (eval_yields G e ec Hwf Hec) as Hy. destruct (e_typ e); try done. by destruct (eval e ec) as [[]| |].
Qed.
Lemma isBaseKey_eval e : isBaseKey keyCol e = true -> eval e ec = Ret (VBytes key).
Proof.
  unfold isBaseKey. intros [[Hk%bool_decide_eq_true Hi%Nat.eqb_eq]%andb_prop _]%andb_prop. destruct e. cbn in *. subst. exact Hkey.
Qed.

(** What a strict call of two arguments that is TRUE says. *)
Lemma call2_true e x y fn : e_kind e = ekCall -> e_strict e = true -> e_fn e = fn -> e_args e = [x; y] -> draws_none e = true -> eval e ec = Ret (VBool true) ->
  exists a b, eval x ec = Ret a /\ eval y ec = Ret b /\ a <> VNull /\ b <> VNull /\ fn [a; b] = Ret (VBool true).
Proof.
  destruct e as [kind t name extra args val idx efn lazy lit strict safe ctor]. cbn [e_kind e_strict e_fn e_args]. intros -> -> -> -> Hd%draws_none_args. cbn [e_args eval] in *. rewrite collectAt_eval by done. cbn.
  destruct (eval x ec) as [a| |]; try done. cbn. destruct (eval y ec) as [b| |]; try done. cbn. rewrite orb_false_r, andb_true_r. destruct (isNull a) eqn:Ha, (isNull b) eqn:Hb; try done. cbn.
  intros He. exists a, b. split_and!; [done|done|by intros ->|by intros ->|]. by destruct (fn [a; b]) as [v|c|]; [|cbn in He; destruct (safe && isEvalError c)|].
Qed.
Lemma lazy_true e lazy : e_kind e = ekLazy -> e_lazy e = lazy -> draws_none e = true -> eval e ec = Ret (VBool true) -> lazy (ec_now ec) (List.map (fun a => eval a ec) (e_args e)) = Ret (VBool true).
Proof.
  destruct e as [kind t name extra args val idx efn elazy lit strict safe ctor]. cbn [e_kind e_lazy e_args]. intros -> -> Hd%draws_none_args. cbn [e_args eval] in *. rewrite mapAt_eval by done. destruct (lazy _ _) as [v|c|]; [done| |done]. cbn. by destruct (safe && isEvalError c).
Qed.

Lemma cmp_true op k v : all_bytes k -> compareFn op [VBytes k; VBytes v] = Ret (VBool true) -> op <> OpNe -> in_range k (cmpRange op v).
Proof.
  intros Hk He Hop. destruct op; try done; cbn in He.
  - destruct (Z.eqb_spec (cmpBytes k v) 0) as [E|E]; cbn in He; [|done]. apply cmpBytes_zero in E as ->. by apply point_in_range.
  - split; [apply bytes_leb_nil_l|]. cbn. injection He as E. by rewrite cmpBytes_lt in E.
  - split; [apply bytes_leb_nil_l|]. cbn. injection He as E. rewrite cmpBytes_le in E. unfold keySuccessor. by rewrite bytes_ltb_snoc0.
  - split; [|done]. cbn. injection He as E. rewrite cmpBytes_gt in E. unfold keySuccessor. by rewrite bytes_leb_snoc0.
  - split; [|done]. cbn. injection He as E. rewrite Z.leb_antisym, cmpBytes_lt in E. by rewrite bytes_leb_ltb.
Qed.
Lemma flip_true op k v : compareFn op [VBytes v; VBytes k] = Ret (VBool true) -> compareFn (flipCmp op) [VBytes k; VBytes v] = Ret (VBool true).
Proof.
  assert (cmpBytes v k = - cmpBytes k v) as E.
  { unfold cmpBytes. destruct (bytes_ltb v k) eqn:E1, (bytes_ltb k v) eqn:E2; try done. exfalso. pose proof (bytes_ltb_trans _ _ _ E1 E2) as H. by rewrite bytes_ltb_irrefl in H. }
  destruct op; cbn; rewrite ?E; intros [= H]; do 2 f_equal; rewrite <- H; destruct (cmpBytes k v); done.
Qed.

Lemma and_true now x y : yields x TBool -> yields y TBool -> evalAnd now [x; y] = Ret (VBool true) -> x = Ret (VBool true) /\ y = Ret (VBool true).
Proof.
  intros Hx Hy. destruct x as [x| |]; try done. cbn in Hx |- *. apply bool_cases in Hx as [->|[[] ->]]; (destruct y as [y| |]; try done); cbn in Hy |- *; apply bool_cases in Hy as [->|[[] ->]]; done.
Qed.
Lemma or_true now x y : evalOr now [x; y] = Ret (VBool true) -> x = Ret (VBool true) \/ y = Ret (VBool true).
Proof. destruct x as [[|[]| | | | | | | | |]| |], y as [[|[]| | | | | | | | |]| |]; cbn; try done; auto. Qed.

Lemma equal_bytes k v : sqlEquals (VBytes k) v = Ret (Some true) -> v = VBytes k.
Proof. destruct v; try done; cbn. destruct (Z.eqb_spec (cmpBytes k b) 0) as [E|E]; [|done]. by apply cmpBytes_zero in E as ->. Qed.
Lemma in_true k vals : forall saw, inLoop (VBytes k) vals saw = Ret (Some true) -> VBytes k ∈ vals.
Proof.
  induction vals as [|v vals IH]; intros saw; cbn [inLoop]; [by destruct saw|]. destruct (sqlEquals (VBytes k) v) as [r| |] eqn:E; try done. cbn [mbind outcome_bind].
  destruct r as [[]|]; [apply equal_bytes in E as ->; left|intros H; right; by eapply IH|intros H; right; by eapply IH].
Qed.

(** An element that is equal to the key has its range among those of the list. *)
Lemma inRanges_sound items rs vals ec1 : same_query ec1 ec0 -> Forall (wfd G) items -> inRanges items ec1 = Ret (Some rs) -> collectM id (List.map (fun a => eval a ec) items) = Ret vals -> VBytes key ∈ vals -> covers key rs.
Proof.
  intros Hsq Hwf. revert rs vals ec1 Hsq. induction Hwf as [|x items Hx Hwf IH]; intros rs vals ec1 Hsq; cbn [inRanges List.map collectM id]; [by intros [= <-] [= <-] ?%elem_of_nil|].
  pose proof (constBytes_spec x (at_pos 0 ec1) Hsq Hx) as Hc. destruct (constBytes x (at_pos 0 ec1)) as [[| |b]| |]; try done; cbn [mbind outcome_bind]; rewrite Hc; cbn [mbind outcome_bind].
  - intros Er Ev Hin. inv_outcome. apply elem_of_cons in Hin as [?|Hin]; [done|]. by eapply (IH _ _ (at_pos 1 ec1)).
  - intros Er Ev Hin. inv_outcome. destruct a0 as [rs'|]; [|done]. injection Er as <-. apply elem_of_cons in Hin as [[= <-]|Hin]; [left; by apply point_in_range|]. right. by eapply (IH _ _ (at_pos 1 ec1)).
Qed.

Abbreviation sound e := (forall ec1 rs, same_query ec1 ec0 -> rangesFor keyCol e ec1 = Ret (Some rs) -> eval e ec = Ret (VBool true) -> covers key rs).

(** A comparison: the key on the left, or on the right with the operator turned. *)
Lemma cmp_sound e op x y : wfd G x -> wfd G y -> draws_none e = true -> op <> OpNe -> shape_ok (OCmp op) e -> operatorOf (e_name e) = Some (OCmp op) -> e_args e = [x; y] -> sound e.
Proof.
  intros Hx Hy Hd Hop (Hk & Hs & Hf & _) Hn Ha ec1 rs Hsq Hrs He. destruct (call2_true e x y _ Hk Hs Hf Ha Hd He) as (a & b & Ex & Ey & Ha0 & Hb0 & Ht).
  destruct e as [kind t name extra args val idx efn lazy lit strict safe ctor]. cbn in Hn, Ha. subst args. cbn [rangesFor] in Hrs. rewrite Hn in Hrs.
  destruct (isBaseKey keyCol x) eqn:Hb.
  - rewrite Hb in Hrs. cbn in Hrs. rewrite (isBaseKey_eval x Hb) in Ex. injection Ex as <-. pose proof (constBytes_spec y ec1 Hsq Hy) as Hc. destruct (constBytes y ec1) as [[| |v]| |]; try done; cbn in Hrs; rewrite Hc in Ey; [congruence|].
    injection Ey as <-. injection Hrs as <-. left. by apply cmp_true.
  - destruct (isBaseKey keyCol y) eqn:Hb'; [|done]. cbn in Hrs. rewrite (isBaseKey_eval y Hb') in Ey. injection Ey as <-. pose proof (constBytes_spec x ec1 Hsq Hx) as Hc. destruct (constBytes x ec1) as [[| |v]| |]; try done; cbn in Hrs; rewrite Hc in Ex; [congruence|].
    injection Ex as <-. injection Hrs as <-. left. apply flip_true in Ht. apply cmp_true; [done|done|by destruct op].
Qed.
Lemma in_sound e x items : Forall (wfd G) items -> draws_none e = true -> shape_ok OIn e -> operatorOf (e_name e) = Some OIn -> e_args e = x :: items -> sound e.
Proof.
  intros Hi Hd (Hk & Hf & _) Hn Ha ec1 rs Hsq Hrs He. apply (lazy_true e _ Hk Hf Hd) in He. rewrite Ha in He. destruct e as [kind t name extra args val idx efn lazy lit strict safe ctor]. cbn in Hn, Ha. subst args.
  cbn [rangesFor] in Hrs. rewrite Hn in Hrs. destruct (isBaseKey keyCol x) eqn:Hb; [|done]. cbn in Hrs. cbn [List.map evalIn] in He. rewrite (isBaseKey_eval x Hb) in He. cbn [mbind outcome_bind] in He.
  destruct (collectM id _) as [vals| |] eqn:Ev in He; try done. cbn [mbind outcome_bind inResult] in He. destruct (inLoop (VBytes key) vals false) as [r| |] eqn:El; try done. destruct r as [[]|]; try done. apply in_true in El. by eapply inRanges_sound.
Qed.
Lemma in_unnest_sound e x arr : wfd G arr -> draws_none e = true -> shape_ok OInUnnest e -> operatorOf (e_name e) = Some OInUnnest -> e_args e = [x; arr] -> sound e.
Proof.
  intros Hi Hd (Hk & Hf & _) Hn Ha ec1 rs Hsq Hrs He. apply (lazy_true e _ Hk Hf Hd) in He. rewrite Ha in He. destruct e as [kind t name extra args val idx efn lazy lit strict safe ctor]. cbn in Hn, Ha. subst args.
  cbn [rangesFor] in Hrs. rewrite Hn in Hrs. destruct (isBaseKey keyCol x) eqn:Hb; [|done]. cbn [negb] in Hrs. destruct (isConst arr) eqn:Hc; [|done]. cbn [negb] in Hrs. rewrite (isConst_eval arr (constCtx ec1) ec) in Hrs by (by destruct Hi, Hsq).
  cbn [List.map evalInUnnest] in He. rewrite (isBaseKey_eval x Hb) in He. cbn [mbind outcome_bind] in He. destruct (eval arr ec) as [v| |]; try done. cbn [mbind outcome_bind] in He.
  destruct v as [| | | | | | | |vals| |]; try done. injection Hrs as <-. destruct vals as [|v vals]; [done|]. revert He. generalize (v :: vals). intros l He. cbn [mbind outcome_bind inResult] in He.
  destruct (inLoop (VBytes key) l false) as [r| |] eqn:El; try done. destruct r as [[]|]; try done. apply in_true in El. apply Exists_exists. exists (pointRange key). split; [|by apply point_in_range]. apply list_elem_of_bind. exists (VBytes key). split; [by apply list_elem_of_singleton|done].
Qed.
Lemma between_sound e x lo hi : wfd G lo -> wfd G hi -> draws_none e = true -> shape_ok OBetween e -> operatorOf (e_name e) = Some OBetween -> e_args e = [x; lo; hi] -> sound e.
Proof.
  intros Hl Hh Hd (Hk & Hf & _) Hn Ha ec1 rs Hsq Hrs He. apply (lazy_true e _ Hk Hf Hd) in He. rewrite Ha in He. destruct e as [kind t name extra args val idx efn lazy lit strict safe ctor]. cbn in Hn, Ha. subst args.
  cbn [rangesFor] in Hrs. rewrite Hn in Hrs. destruct (isBaseKey keyCol x) eqn:Hb; [|done]. cbn [negb] in Hrs. cbn [List.map evalBetween] in He. rewrite (isBaseKey_eval x Hb) in He. cbn [mbind outcome_bind] in He.
  pose proof (constBytes_spec lo (at_pos 0 ec1) Hsq Hl) as Hcl. pose proof (constBytes_spec hi (at_pos 1 ec1) Hsq Hh) as Hch. destruct (constBytes lo (at_pos 0 ec1)) as [[| |l]| |]; try done; destruct (constBytes hi (at_pos 1 ec1)) as [[| |h]| |]; try done; cbn in Hrs; rewrite Hcl, Hch in He; cbn in He; try done.
  - exfalso. by destruct (cmpBytes key h <=? 0).
  - exfalso. by destruct (cmpBytes l key <=? 0).
  - injection Hrs as <-. left. rewrite !cmpBytes_le in He. unfold keySuccessor. destruct (bytes_leb l key) eqn:E1, (bytes_leb key h) eqn:E2; try done. split; cbn; [done|]. by rewrite bytes_ltb_snoc0.
Qed.
Lemma starts_with_sound e x p : wfd G p -> draws_none e = true -> shape_ok OStartsWith e -> operatorOf (e_name e) = Some OStartsWith -> e_args e = [x; p] -> sound e.
Proof.
  intros Hp Hd (Hk & Hs & Hf) Hn Ha ec1 rs Hsq Hrs He. destruct (call2_true e x p _ Hk Hs Hf Ha Hd He) as (a & b & Ex & Ey & Ha0 & Hb0 & Ht).
  destruct e as [kind t name extra args val idx efn lazy lit strict safe ctor]. cbn in Hn, Ha. subst args. cbn [rangesFor] in Hrs. rewrite Hn in Hrs. destruct (isBaseKey keyCol x) eqn:Hb; [|done].
  rewrite (isBaseKey_eval x Hb) in Ex. injection Ex as <-. pose proof (constBytes_spec p ec1 Hsq Hp) as Hc. destruct (constBytes p ec1) as [[| |v]| |]; try done; cbn in Hrs; rewrite Hc in Ey; [congruence|].
  injection Ey as <-. injection Hrs as <-. left. cbn in Ht. injection Ht as Ht. apply HasPrefix_spec in Ht as [rest ->]. apply prefix_in_range.
Qed.
Lemma like_sound e x p : wfd G x -> wfd G p -> draws_none e = true -> (keyCol = Some 0%nat -> te_cols G !! 0%nat = Some TBytes) -> shape_ok OLike e -> operatorOf (e_name e) = Some OLike -> e_args e = [x; p] -> sound e.
Proof.
  intros Hx Hp Hd Hcol (Hk & Hs & cached & isStr & x' & p' & Hf & Ha' & Htx & Hca) Hn Ha ec1 rs Hsq Hrs He. rewrite Ha in Ha'. injection Ha' as <- <-. destruct (call2_true e x p _ Hk Hs Hf Ha Hd He) as (a & b & Ex & Ey & Ha0 & Hb0 & Ht).
  destruct e as [kind t name extra args val idx efn lazy lit strict safe ctor]. cbn in Hn, Ha. subst args. cbn [rangesFor] in Hrs. rewrite Hn in Hrs. destruct (isBaseKey keyCol x) eqn:Hb; [|done].
  pose proof (isBaseKey_eval x Hb) as Ex'. rewrite Ex' in Ex. injection Ex as <-. assert (isStr = false) as ->.
  { pose proof (eval_yields G x ec (proj1 Hx) Hec) as Hy. rewrite Ex', Htx in Hy. by destruct isStr. }
  pose proof (constBytes_spec p ec1 Hsq Hp) as Hc. destruct (constBytes p ec1) as [[| |v]| |]; try done; cbn [mbind outcome_bind negb] in Hrs; rewrite Hc in Ey; [congruence|]. injection Ey as <-.
  assert (exists lp, compileLike (VBytes v) false = Ret lp /\ like_match lp (VBytes key) = Ret true) as (lp & El & Em).
  { cbn [likeFn] in Ht. destruct cached as [lp|].
    - destruct (Hca lp eq_refl) as [Hkp Hcp]. assert (e_val p = VBytes v) as Ev by (destruct p; cbn in Hkp; subst; cbn in Hc |- *; congruence). rewrite Ev in Hcp. exists lp. split; [done|]. cbn [mbind outcome_bind] in Ht.
      destruct (like_match lp (VBytes key)) as [[]| |]; done.
    - destruct (compileLike (VBytes v) false) as [lp| |]; try done. cbn [mbind outcome_bind] in Ht. exists lp. split; [done|]. destruct (like_match lp (VBytes key)) as [[]| |]; done. }
  unfold compileLike in El. cbn [likeElems mbind outcome_bind] in El. destruct (compileToks false v) as [toks| |] eqn:Et; try done. injection El as <-.
  unfold like_match in Em. cbn [lp_isStr lp_toks likeElems mbind outcome_bind] in Em. rewrite match_loop_spec in Em. injection Em as Em. destruct (likeLiteralPrefix_sound v false toks key Et Em) as (rest & Hkr & Hex).
  destruct (likeLiteralPrefix v) as [pre exact]. cbn in Hkr, Hex. injection Hrs as <-. left. destruct exact.
  - specialize (Hex eq_refl) as ->. rewrite app_nil_r in Hkr. rewrite <- Hkr. by apply point_in_range.
  - rewrite Hkr. apply prefix_in_range.
Qed.

Context (Hcol : keyCol = Some 0%nat -> te_cols G !! 0%nat = Some TBytes).

Lemma operators_no_ne name : operatorOf name <> Some (OCmp OpNe).
Proof.
  unfold operatorOf. destruct (List.find _ operators) as [[n o]|] eqn:E; [|done]. apply find_some in E as [Hin _]. cbn. intros [= ->]. cbn in Hin. repeat destruct Hin as [[= ]|Hin]; done.
Qed.

(** What [rangesFor] does with a conjunction and a disjunction of [x] and [y]. *)
Lemma and_sound e x y : wf G x -> wf G y -> draws_none e = true -> sound x -> sound y -> shape_ok OAnd e -> operatorOf (e_name e) = Some OAnd -> e_args e = [x; y] -> sound e.
Proof.
  intros Hx Hy Hd IHx IHy (Hk & Hf & x' & y' & Ha' & Htx & Hty) Ho Ha ec1 rs Hsq Hrs He. rewrite Ha in Ha'. injection Ha' as <- <-. apply (lazy_true e _ Hk Hf Hd) in He. rewrite Ha in He. cbn [List.map] in He.
  destruct (and_true (ec_now ec) (eval x ec) (eval y ec)) as [Ex Ey]; [rewrite <- Htx; by apply (eval_yields G)|rewrite <- Hty; by apply (eval_yields G)|done|].
  destruct e as [kind t name extra args]. cbn in Ho, Ha. subst args. cbn [rangesFor] in Hrs. rewrite Ho in Hrs.
  destruct (rangesFor keyCol x (at_pos 0 ec1)) as [l| |] eqn:El; try done. cbn in Hrs. destruct (rangesFor keyCol y (at_pos 1 ec1)) as [r| |] eqn:Er; try done. cbn in Hrs. destruct l as [l|], r as [r|]; try done; injection Hrs as <-; [|by eapply (IHx (at_pos 0 ec1))|by eapply (IHy (at_pos 1 ec1))].
  rewrite intersect_covers, !normalize_covers. split; [by eapply (IHx (at_pos 0 ec1))|by eapply (IHy (at_pos 1 ec1))].
Qed.
Lemma or_sound e x y : draws_none e = true -> sound x -> sound y -> shape_ok OOr e -> operatorOf (e_name e) = Some OOr -> e_args e = [x; y] -> sound e.
Proof.
  intros Hd IHx IHy (Hk & Hf & _) Ho Ha ec1 rs Hsq Hrs He. apply (lazy_true e _ Hk Hf Hd) in He. rewrite Ha in He. cbn [List.map] in He. apply or_true in He.
  destruct e as [kind t name extra args]. cbn in Ho, Ha. subst args. cbn [rangesFor] in Hrs. rewrite Ho in Hrs.
  destruct (rangesFor keyCol x (at_pos 0 ec1)) as [l| |] eqn:El; try done. cbn in Hrs. destruct (rangesFor keyCol y (at_pos 1 ec1)) as [r| |] eqn:Er; try done. cbn in Hrs. destruct l as [l|], r as [r|]; try done; injection Hrs as <-.
  rewrite normalize_covers. apply Exists_app. destruct He; [left; by eapply (IHx (at_pos 0 ec1))|right; by eapply (IHy (at_pos 1 ec1))].
Qed.

(** Every row for which the expression is TRUE has its key in the ranges. *)
Lemma rangesFor_sound e : wfd G e -> sound e.
Proof.
  induction e as [e IH] using bexpr_nested. intros Hwfd. pose proof Hwfd as [Hwf Hd]. apply wfd_args in Hwfd as Hargs. inversion Hwf as [e' _ _ _ Hname]; subst e'. unfold name_ok in Hname.
  destruct (operatorOf (e_name e)) as [o|] eqn:Ho; [|intros ec1 rs Hsq; destruct e as [kind t name]; cbn in Ho; cbn [rangesFor]; by rewrite Ho].
  destruct (isCall e) eqn:Hcall.
  2:{ intros ec1 rs Hsq Hrs. destruct e as [kind t name extra args]. cbn in Ho, Hname. subst args. cbn [rangesFor] in Hrs. rewrite Ho in Hrs. by destruct o. }
  specialize (Hname o eq_refl). destruct o as [| |op| | | | |].
  - pose proof Hname as (_ & _ & x & y & Ha & _). rewrite Ha, !Forall_cons in *. destruct Hargs as (Hx & Hy & _), IH as (IHx & IHy & _). apply (and_sound e x y); [apply Hx|apply Hy|done|exact (IHx Hx)|exact (IHy Hy)|done..].
  - pose proof Hname as (_ & _ & x & y & Ha). rewrite Ha, !Forall_cons in *. destruct Hargs as (Hx & Hy & _), IH as (IHx & IHy & _). apply (or_sound e x y); [done|exact (IHx Hx)|exact (IHy Hy)|done..].
  - pose proof Hname as (_ & _ & _ & x & y & Ha). rewrite Ha, !Forall_cons in Hargs. destruct Hargs as (Hx & Hy & _). apply (cmp_sound e op x y); try done. intros ->. by apply operators_no_ne in Ho.
  - pose proof Hname as (_ & _ & x & items & Ha). rewrite Ha, Forall_cons in Hargs. destruct Hargs as [_ Hi]. by apply (in_sound e x items).
  - pose proof Hname as (_ & _ & x & arr & t & Ha & _). rewrite Ha, !Forall_cons in Hargs. destruct Hargs as (Hx & Hy & _). by apply (in_unnest_sound e x arr).
  - pose proof Hname as (_ & _ & x & lo & hi & Ha). rewrite Ha, !Forall_cons in Hargs. destruct Hargs as (Hx & Hl & Hh & _). by apply (between_sound e x lo hi).
  - intros ec1 rs Hsq Hrs He. assert (exists x p, e_args e = [x; p]) as (x & p & Ha).
    { destruct e as [kind t name extra args]. cbn in Ho |- *. cbn [rangesFor] in Hrs. rewrite Ho in Hrs. destruct args as [|x [|p [|? ?]]]; try done. eauto. }
    rewrite Ha, !Forall_cons in Hargs. destruct Hargs as (Hx & Hp & _). by eapply (starts_with_sound e x p).
  - pose proof Hname as (_ & _ & cached & isStr & x & p & _ & Ha & _). rewrite Ha, !Forall_cons in Hargs. destruct Hargs as (Hx & Hp & _). by apply (like_sound e x p).
Qed.
End soundness.

(** ** Safety *)

(** No parameter and no column has the name of an operator. *)
Fixpoint plainRefs (e : bexpr) : bool :=
  match e with mkBexpr kind t name extra args val idx fn lazy lit strict safe ctor => (match kind with ekCall | ekLazy => true | _ => bool_decide (operatorOf name = None) end) && forallb plainRefs args end.

Section safety.
Context (G : tenv) (keyCol : option nat).

(** A constant has a value without a row. *)
Lemma isConst_yields e ec0 : isConst e = true -> ctx_ok G ec0 -> wf G e -> yields (eval e (constCtx ec0)) (e_typ e).
Proof.
  intros Hc (_ & Hp & _ & _ & Hn & Hr) Hwf. set (G0 := mkTenv (te_params G) [] [] []). apply (eval_yields G0); [|split_and!; done || constructor].
  revert Hc. induction e as [e IH] using bexpr_nested. inversion Hwf as [e' Hargs Hnode Hctor Hname]; subst e'. intros Hc. constructor; [|clear IH Hargs|done|done].
  - rewrite list.Forall_forall in IH, Hargs |- *. intros a Ha. apply IH; [done|by apply Hargs|]. destruct e as [kind t name extra args]. cbn in Hc, Ha. destruct kind; try done; rewrite forallb_forall in Hc; apply Hc; by apply list_elem_of_In.
  - unfold node_ok in *. by destruct e as [[] ? ? ? ?].
Qed.
Lemma constBytes_ret e ec0 : ctx_ok G ec0 -> wf G e -> exists c, constBytes e ec0 = Ret c.
Proof.
  intros Hec Hwf. unfold constBytes. destruct (isConst e) eqn:Hc; [|eexists; done]. destruct (isBytes (e_typ e)) eqn:Ht; [|eexists; done]. cbn.
  pose proof (isConst_yields e ec0 Hc Hec Hwf) as Hy. destruct (e_typ e); try done. destruct (eval e (constCtx ec0)) as [[]| |]; try done; eauto.
Qed.
Lemma inRanges_ret items : Forall (wf G) items -> forall ec0, ctx_ok G ec0 -> exists rs, inRanges items ec0 = Ret rs.
Proof.
  induction 1 as [|x items Hx Hwf IH]; intros ec0 Hec; cbn; [eauto|]. destruct (constBytes_ret x _ (ctx_ok_at G 0 _ Hec) Hx) as [c ->]. cbn. destruct (IH _ (ctx_ok_at G 1 _ Hec)) as [rs ->]. destruct c; cbn; eauto. destruct rs; eauto.
Qed.
Lemma rangesFor_ret e : forall ec0, ctx_ok G ec0 -> wf G e -> plainRefs e = true -> exists rs, rangesFor keyCol e ec0 = Ret rs.
Proof.
  induction e as [e IH] using bexpr_nested. intros ec0 Hec Hwf Hp. pose proof (ctx_ok_at G 0 _ Hec) as Hec0. pose proof (ctx_ok_at G 1 _ Hec) as Hec1. inversion Hwf as [e' Hargs _ _ Hname]; subst e'. unfold name_ok in Hname.
  destruct e as [kind t name extra args val idx fn lazy lit strict safe ctor]. cbn in *. apply andb_prop in Hp as [Hp Hps]. destruct (operatorOf name) as [o|] eqn:Ho; [|eauto].
  assert (isCall (mkBexpr kind t name extra args val idx fn lazy lit strict safe ctor) = true) as Hcall by (destruct kind; try reflexivity; apply bool_decide_eq_true in Hp; congruence).
  rewrite Hcall in Hname. specialize (Hname o eq_refl). destruct o as [| |op| | | | |]; cbn in Hname.
  - destruct Hname as (_ & _ & x & y & -> & _). rewrite !Forall_cons in *. cbn in Hps. rewrite !andb_true_iff in Hps. destruct Hargs as (Hx & Hy & _), IH as (IHx & IHy & _), Hps as (Px & Py & _). destruct (IHx _ Hec0 Hx Px) as [l ->], (IHy _ Hec1 Hy Py) as [r ->]. cbn. destruct l, r; eauto.
  - destruct Hname as (_ & _ & x & y & ->). rewrite !Forall_cons in *. cbn in Hps. rewrite !andb_true_iff in Hps. destruct Hargs as (Hx & Hy & _), IH as (IHx & IHy & _), Hps as (Px & Py & _). destruct (IHx _ Hec0 Hx Px) as [l ->], (IHy _ Hec1 Hy Py) as [r ->]. cbn. destruct l, r; eauto.
  - destruct Hname as (_ & _ & _ & x & y & ->). rewrite !Forall_cons in *. destruct Hargs as (Hx & Hy & _), (isBaseKey keyCol x) eqn:Hb.
    + rewrite Hb. destruct (constBytes_ret y _ Hec Hy) as [c ->]. cbn. destruct c; eauto.
    + destruct (negb (isBaseKey keyCol y)); [eauto|]. destruct (constBytes_ret x _ Hec Hx) as [c ->]. cbn. destruct c; eauto.
  - destruct Hname as (_ & _ & x & items & ->). rewrite Forall_cons in Hargs. destruct Hargs as [_ Hi]. destruct (negb _); [eauto|]. by apply (inRanges_ret items Hi).
  - destruct Hname as (_ & _ & x & arr & te & -> & Ht). rewrite !Forall_cons in Hargs. destruct Hargs as (Hx & Hy & _). destruct (negb (isBaseKey keyCol x)); [eauto|]. destruct (isConst arr) eqn:Hc; [|eauto]. cbn.
    pose proof (isConst_yields arr ec0 Hc Hec Hy) as Hv. rewrite Ht in Hv. destruct (eval arr (constCtx ec0)) as [[]| |]; try done; eauto.
  - destruct Hname as (_ & _ & x & lo & hi & ->). rewrite !Forall_cons in Hargs. destruct Hargs as (Hx & Hl & Hh & _). destruct (negb _); [eauto|]. destruct (constBytes_ret lo _ Hec0 Hl) as [c ->], (constBytes_ret hi _ Hec1 Hh) as [d ->]. cbn. destruct c, d; eauto.
  - destruct args as [|x [|p [|? ?]]]; eauto. rewrite !Forall_cons in Hargs. destruct Hargs as (Hx & Hy & _). destruct (negb _); [eauto|]. destruct (constBytes_ret p _ Hec Hy) as [c ->]. cbn. destruct c; eauto.
  - destruct Hname as (_ & _ & cached & isStr & x & p & _ & -> & _). rewrite !Forall_cons in Hargs. destruct Hargs as (Hx & Hy & _). destruct (negb _); [eauto|]. destruct (constBytes_ret p _ Hec Hy) as [c ->]. cbn. destruct c; eauto. destruct (likeLiteralPrefix _); eauto.
Qed.
End safety.

(** ** The ranges of a WHERE clause *)

(** What is assumed of a query: its WHERE clause is well formed, the context of its
    rows is typed, and the key, when it is a column, is the first one. *)
Definition scan_ok (G : tenv) (keyCol : option nat) (whr : option bexpr) : Prop :=
  match whr with Some e => wf G e /\ plainRefs e = true /\ draws_none e = true | None => True end /\ (keyCol = Some 0%nat -> te_cols G !! 0%nat = Some TBytes).
Definition isTrue (whr : option bexpr) (ec : evalCtx) : Prop := match whr with Some e => eval e ec = Ret (VBool true) | None => True end.

Lemma full_covers k : covers k fullRange.
Proof. left. split; [apply bytes_leb_nil_l|done]. Qed.

Lemma keyRanges_ret G keyCol noPushdown whr ec : scan_ok G keyCol whr -> ctx_ok G ec -> exists rs, keyRanges keyCol noPushdown whr ec = Ret rs /\ separated rs.
Proof.
  intros [Hw _] Hec. destruct whr as [e|]; cbn; [|by exists fullRange]. destruct noPushdown; [by exists fullRange|]. destruct Hw as (Hwf & Hp & _).
  destruct (rangesFor_ret G keyCol e ec Hec Hwf Hp) as [[rs|] ->]; cbn; eexists; (split; [reflexivity|]); [apply normalize_separated|done].
Qed.
Lemma keyRanges_cover G keyCol noPushdown whr ec row key rs : scan_ok G keyCol whr -> keyRanges keyCol noPushdown whr ec = Ret rs ->
  ctx_ok G (with_row row ec) -> row 0%nat = Ret (VBytes key) -> all_bytes key -> isTrue whr (with_row row ec) -> covers key rs.
Proof.
  intros [Hw Hcol] Hrs Hec Hk Hb Ht. destruct whr as [e|]; cbn in Hrs; [|injection Hrs as <-; apply full_covers]. destruct noPushdown; [injection Hrs as <-; apply full_covers|]. destruct Hw as (Hwf & _ & Hd).
  destruct (rangesFor keyCol e ec) as [[l|]| |] eqn:E; try done; cbn in Hrs; injection Hrs as <-; [|apply full_covers]. apply normalize_covers. by eapply (rangesFor_sound G keyCol ec row key Hec Hk Hb Hcol e (conj Hwf Hd)).
Qed.

(** C29: The ranges that a query scans are computed without a panic, are in key order and
    do not overlap, so that no row is scanned twice; and every row for which the WHERE
    clause is TRUE has its key in one of them, so that the scan of the ranges misses no
    row of the result.  The hypotheses say that the clause is a well-formed expression
    that does not call RAND (with RAND it is false, [pushdown_draws_again]), in which no
    parameter or column has the name of an internal operator, and that the key, when it
    is a column, is the first one. *)
Theorem key_ranges_complete (G : tenv) (keyCol : option nat) (noPushdown : bool) (whr : option bexpr) (ec : evalCtx) :
  scan_ok G keyCol whr -> ctx_ok G ec ->
  exists rs, keyRanges keyCol noPushdown whr ec = Ret rs /\ separated rs /\
    forall row key, ctx_ok G (with_row row ec) -> row 0%nat = Ret (VBytes key) -> all_bytes key ->
      isTrue whr (with_row row ec) -> covers key rs.
Proof.
  intros Hs Hec. destruct (keyRanges_ret G keyCol noPushdown whr ec Hs Hec) as (rs & E & Hsep). exists rs. split_and!; [done|done|]. intros row key. by apply (keyRanges_cover G keyCol noPushdown).
Qed.

(** [_key >= b'b' AND _key LIKE b'bc%' OR _key = b'a'] *)
Definition demoKey : bexpr := refExpr ekColumn TBytes (str "_key") 0.
Definition demoCmp (op : cmpOp) (name v : bytes) : bexpr := callExpr name TBool (compareFn op) [demoKey; constExpr (VBytes v) TBytes litBytes].
Definition demoLike (v : bytes) : bexpr := callExpr (str "$like") TBool (likeFn None false false) [demoKey; constExpr (VBytes v) TBytes litBytes].
Definition demoWhere : bexpr :=
  lazyExpr (str "$or") TBool evalOr
    [lazyExpr (str "$and") TBool evalAnd [demoCmp OpGe (str "$ge") (str "b"); demoLike (str "bc%")]; demoCmp OpEq (str "$eq") (str "a")].
Definition demoEnv : tenv := mkTenv [] [TBytes] [] [].
Definition demoCtx : evalCtx := mkCtx None [] [] [] 0 (fun _ => S754_zero false).
Definition demoRow (key : bytes) (i : nat) : outcome value := match i with O => Ret (VBytes key) | _ => Err Internal end.

Lemma demoKey_wf : wf demoEnv demoKey.
Proof. constructor; [constructor|done|split; done|done]. Qed.
Lemma demoArgs_wf v : bytesb v = true -> Forall (wf demoEnv) [demoKey; constExpr (VBytes v) TBytes litBytes].
Proof. intros Hv. apply Forall_cons. split; [apply demoKey_wf|]. apply Forall_cons. split; [by apply wf_const|constructor]. Qed.
Lemma two_values vs (x y : bexpr) : Forall2 (fun v a => typedAs v (e_typ a)) vs [x; y] -> existsb isNull vs = false ->
  exists a b, vs = [a; b] /\ has_type a (e_typ x) = true /\ has_type b (e_typ y) = true /\ a <> VNull /\ b <> VNull.
Proof.
  intros Hvs Hn. inversion Hvs as [|a ? vs1 ? Ha H1]; subst. inversion H1 as [|b ? vs2 ? Hb H2]; subst. inversion H2; subst. exists a, b. cbn in Hn. rewrite orb_false_r in Hn. apply orb_false_iff in Hn as [Hn1 Hn2].
  split_and!; [done|done|done|by intros ->|by intros ->].
Qed.
Lemma demoCmp_wf op name v : bytesb v = true -> operatorOf name = Some (OCmp op) -> wf demoEnv (demoCmp op name v).
Proof.
  intros Hv Hn. apply wf_call; [by apply demoArgs_wf| |].
  - intros o Ho. change (operatorOf name = Some o) in Ho. rewrite Hn in Ho. injection Ho as <-. cbn. eauto 10.
  - intros vs Hvs Hnull. destruct (two_values _ _ _ Hvs Hnull) as (a & b & -> & Ha & Hb & _). by apply (compareFn_yields op a b TBytes).
Qed.
Lemma demoLike_wf v : bytesb v = true -> wf demoEnv (demoLike v).
Proof.
  intros Hv. apply wf_call; [by apply demoArgs_wf| |].
  - intros o [= <-]. cbn. split_and!; [done|done|]. exists None, false, demoKey, (constExpr (VBytes v) TBytes litBytes). by split_and!.
  - intros vs Hvs Hnull. destruct (two_values _ _ _ Hvs Hnull) as (a & b & -> & Ha & Hb & Ha0 & Hb0). by apply (likeFn_yields None false false a b).
Qed.
Lemma two_outcomes rs (x y : bexpr) : Forall2 (fun r a => yields r (e_typ a)) rs [x; y] -> exists a b, rs = [a; b] /\ yields a (e_typ x) /\ yields b (e_typ y).
Proof. intros Hrs. inversion Hrs as [|a ? vs1 ? Ha H1]; subst. inversion H1 as [|b ? vs2 ? Hb H2]; subst. inversion H2; subst. eauto. Qed.
Lemma demoWhere_wf : wf demoEnv demoWhere.
Proof.
  apply wf_lazy.
  - apply Forall_cons; split; [|apply Forall_cons; split; [by apply demoCmp_wf|constructor]]. apply wf_lazy.
    + apply Forall_cons; split; [by apply demoCmp_wf|apply Forall_cons; split; [by apply demoLike_wf|constructor]].
    + intros o [= <-]. cbn. split_and!; [done|done|]. by eexists _, _.
    + intros now rs _ Hrs. destruct (two_outcomes _ _ _ Hrs) as (a & b & -> & Ha & Hb). by apply evalAnd_yields.
  - intros o [= <-]. cbn. split_and!; [done|done|]. by eexists _, _.
  - intros now rs _ Hrs. destruct (two_outcomes _ _ _ Hrs) as (a & b & -> & Ha & Hb). by apply evalOr_yields.
Qed.
Lemma demoRow_ok key : all_bytes key -> ctx_ok demoEnv (with_row (demoRow key) demoCtx).
Proof. intros Hk. split_and!; try done; try constructor. intros [|i] t; cbn; [|by destruct i]. intros [= <-]. cbn. by apply bytesb_all. Qed.

Lemma key_ranges_complete_witness : exists rs, keyRanges (Some 0%nat) false (Some demoWhere) demoCtx = Ret rs /\ covers (str "bcd") rs.
Proof.
  destruct (key_ranges_complete demoEnv (Some 0%nat) false (Some demoWhere) demoCtx) as (rs & E & _ & Hc).
  - split; [split; [apply demoWhere_wf|split; reflexivity]|done].
  - split_and!; try done; constructor.
  - exists rs. split; [exact E|]. apply (Hc (demoRow (str "bcd"))); [apply demoRow_ok, bytesb_all; reflexivity|reflexivity|apply bytesb_all; reflexivity|reflexivity].
Defined.
(** The ranges of the example. *)
Example demo_ranges : keyRanges (Some 0%nat) false (Some demoWhere) demoCtx =
  Ret [mkKeyRange (str "a") (Some (str "a" ++ [0])); mkKeyRange (str "bc") (Some (str "bd"))].
Proof. vm_compute. reflexivity. Qed.

(** A reference named like an operator has no arguments: [WHERE @`$and`] indexes them
    out of range and panics. *)
Theorem operator_named_parameter_panics : keyRanges (Some 0%nat) false (Some (refExpr ekParam TBool (str "$and") 0)) demoCtx = Panic.
Proof. reflexivity. Qed.

(** [WHERE _key = f(RAND())]: the ranges are those of one number, and a row is compared
    with a value of another; the scan misses the row [b]. *)
Definition coin : bexpr :=
  callExpr (str "coin") TBytes (fun a => match a with [VFloat f] => Ret (VBytes (if SFltb f (S754_finite false 4503599627370496 (-53)) then str "a" else str "b")) | _ => Panic end) [randExpr].
Definition keyIsCoin : bexpr := callExpr (str "$eq") TBool (compareFn OpEq) [demoKey; coin].
Theorem pushdown_draws_again : exists ec, draws_ok (ec_rand ec) /\
  isTrue (Some keyIsCoin) (with_row (demoRow (str "b")) ec) /\
  exists rs, keyRanges (Some 0%nat) false (Some keyIsCoin) ec = Ret rs /\ ~ covers (str "b") rs.
Proof.
  exists (mkCtx None [] [] [] 0 (fun p => match p with [_] => S754_zero false | _ => S754_finite false 6755399441055744 (-53) end)).
  split; [intros [|? [|? ?]]; reflexivity|split; [reflexivity|]]. exists [pointRange (str "a")]. split; [vm_compute; reflexivity|].
  intros [[_ H]|H]%Exists_cons; [discriminate H|by apply Exists_nil in H].
Qed.
