(* ===== verification/Aggregates.v ===== *)
(** * Aggregate functions

    The accumulators of [internal/gsql/aggregates.go], the order of the ORDER BY keys,
    and the runner that wraps an accumulator with DISTINCT, IGNORE NULLS, ORDER BY and
    LIMIT.

    The estimate of a HyperLogLog++ sketch is computed with [math.Log]; it is the
    parameter [Estimator]. *)

From S2P Require Import Prelude Proto Rows Server Hll Tokens KeyCodec KeySchema SqlValues SqlFloat SqlArith Like SqlOps Bexpr.
From stdpp Require Import base list gmap sorting.
From Stdlib Require Import ZArith Lia Sorted.
From Stdlib Require Import Floats.SpecFloat.

#[local] Open Scope Z_scope.

(** [HLL.Estimate]: a count. *)
Class Estimator : Type := { Estimate : HLL -> Z; Estimate_int64 : forall h, is_int64 (Estimate h) }.

Definition float64_sqrt (x : spec_float) : spec_float := SFsqrt 53 1024 x.
Definition toF64 (v : value) : spec_float := match v with VFloat f => f | VInt n => float_of_int n | _ => S754_zero false end.

(** ** Order *)

Record orderSpec : Type := mkOrder { or_expr : bexpr; or_desc : bool; or_nullsLast : bool }.

Fixpoint compareOrder (specs : list orderSpec) (a b : list value) : outcome Z :=
  match specs, a, b with
  | [], _, _ => Ret 0
  | s :: specs', x :: a', y :: b' =>
      match x, y with
      | VNull, VNull => compareOrder specs' a' b'
      | VNull, _ => Ret (if or_nullsLast s then 1 else -1)
      | _, VNull => Ret (if or_nullsLast s then -1 else 1)
      | _, _ =>
          c ← compareValues x y;
          if negb (c =? 0) then Ret (if or_desc s then - c else c) else compareOrder specs' a' b'
      end
  | _, _, _ => Panic
  end.
(** The [less] of [sort.SliceStable], which does not panic on keys of the types of the specs. *)
Definition orderLess (specs : list orderSpec) (a b : list value) : bool := match compareOrder specs a b with Ret c => c <? 0 | _ => false end.

(** ** Accumulators *)

(** The kinds of [momentState]. *)
Inductive momentKind : Type := VarSamp | VarPop | StddevSamp | StddevPop | Corr | CovarPop | CovarSamp.

Inductive aggState : Type :=
| countState (n : Z) (star cond : bool)
| sumState (isInt any : bool) (i : Z) (f : spec_float)
| avgState (n : Z) (sum c : spec_float)
| minMaxState (max : bool) (v : value) (nan : bool)
| anyValueState (v : value)
| logicalState (isAnd v seen : bool)
| bitState (op : bitOp) (v : Z) (seen : bool)
| arrayAggState (vals : list value) (any concat : bool)
| stringAggState (isStr : bool) (parts : list bytes) (delim : bytes) (any : bool)
| momentState (kind : momentKind) (n mx my m2x m2y cxy : spec_float)
| hllState (h : option HLL) (precision : Z) (merge count : bool).

(** The canonical bytes hashed into sketches. *)
Definition hllInput (v : value) : option bytes := match v with VInt n => Some (be64 n) | VString s | VBytes s => Some s | _ => None end.
Definition hllItem (v : value) : bytes := match hllInput v with Some b => b | None => valueKey v end.

Definition incr64 (n : Z) : Z := wrap64 (n + 1).

(** [momentState.add] after the NULLs are left out. *)
Definition addMoments (kind : momentKind) (n mx my m2x m2y cxy x y : spec_float) : aggState :=
  let n := float64_add n (float_of_int 1) in
  let dx := float64_sub x mx in
  let mx := float64_add mx (float64_div dx n) in
  let dy := float64_sub y my in
  let my := float64_add my (float64_div dy n) in
  let m2x := float64_add m2x (float64_mul dx (float64_sub x mx)) in
  let m2y := float64_add m2y (float64_mul dy (float64_sub y my)) in
  let cxy := float64_add cxy (float64_mul dx (float64_sub y my)) in
  momentState kind n mx my m2x m2y cxy.

(** The methods of the states; an argument that is missing is an index out of range. *)
Definition countState_add (n : Z) (star cond : bool) (a : list value) : outcome aggState :=
  if star then Ret (countState (incr64 n) star cond)
  else
    match a with
    | [] => Panic
    | v :: _ =>
        let counted := if cond then match v with VBool true => true | _ => false end else negb (isNull v) in
        Ret (countState (if counted then incr64 n else n) star cond)
    end.
Definition sumState_add (isInt any : bool) (i : Z) (f : spec_float) (v : value) : outcome aggState :=
  if isNull v then Ret (sumState isInt any i f)
  else if isInt then match v with VInt n => i ← addInt64 i n; Ret (sumState isInt true i f) | _ => Panic end
  else match v with VFloat x => Ret (sumState isInt true i (float64_add f x)) | _ => Panic end.
Definition avgState_add (n : Z) (sum c : spec_float) (v : value) : outcome aggState :=
  if isNull v then Ret (avgState n sum c)
  else
    let y := float64_sub (toF64 v) c in
    let t := float64_add sum y in
    Ret (avgState (incr64 n) t (float64_sub (float64_sub t sum) y)).
Definition minMaxState_add (max : bool) (m : value) (nan : bool) (v : value) : outcome aggState :=
  if isNull v then Ret (minMaxState max m nan)
  else if isNaNValue v then Ret (minMaxState max m true)
  else if isNull m then Ret (minMaxState max v nan)
  else
    c ← compareValues v m;
    Ret (minMaxState max (if (max && (0 <? c)) || (negb max && (c <? 0)) then v else m) nan).
Definition logicalState_add (isAnd w seen : bool) (v : value) : outcome aggState :=
  match v with
  | VNull => Ret (logicalState isAnd w seen)
  | VBool b => Ret (logicalState isAnd (if negb seen then b else if isAnd then w && b else w || b) true)
  | _ => Panic
  end.
Definition bitState_add (op : bitOp) (w : Z) (seen : bool) (v : value) : outcome aggState :=
  match v with
  | VNull => Ret (bitState op w seen)
  | VInt x => Ret (bitState op (if negb seen then x else bitFn op w x) true)
  | _ => Panic
  end.
Definition arrayAggState_add (vals : list value) (any concat : bool) (v : value) : outcome aggState :=
  if concat then match v with VNull => Ret (arrayAggState vals any concat) | VArray l => Ret (arrayAggState (vals ++ l) true concat) | _ => Panic end
  else Ret (arrayAggState (vals ++ [v]) true concat).
Definition stringAggState_add (isStr : bool) (parts : list bytes) (delim : bytes) (any : bool) (v : value) (rest : list value) : outcome aggState :=
  if isNull v then Ret (stringAggState isStr parts delim any)
  else
    match any, rest with
    | false, d :: _ => if isNull d then Ret (stringAggState isStr parts delim any) else Ret (stringAggState isStr (parts ++ [asBytes v]) (asBytes d) true)
    | _, _ => Ret (stringAggState isStr (parts ++ [asBytes v]) delim true)
    end.
Definition momentState_add (kind : momentKind) (n mx my m2x m2y cxy : spec_float) (v : value) (rest : list value) : outcome aggState :=
  match isNull v, rest with
  | true, _ => Ret (momentState kind n mx my m2x m2y cxy)
  | false, w :: _ => if isNull w then Ret (momentState kind n mx my m2x m2y cxy) else Ret (addMoments kind n mx my m2x m2y cxy (toF64 v) (toF64 w))
  | false, [] => Ret (addMoments kind n mx my m2x m2y cxy (toF64 v) (toF64 v))
  end.
Definition hllState_add (h : option HLL) (precision : Z) (merge count : bool) (v : value) : outcome aggState :=
  if isNull v then Ret (hllState h precision merge count)
  else if merge then
    match v with
    | VBytes b =>
        match DecodeHLL b with
        | None => Err OutOfRange
        | Some o => Ret (hllState (Some match h with None => o | Some h => HLL_Merge h o end) precision merge count)
        end
    | _ => Panic
    end
  else
    let h := match h with None => newHLLPrecision precision | Some h => h end in
    Ret (hllState (Some (HLL_Add h (hllItem v))) precision merge count).

Definition agg_add (st : aggState) (a : list value) : outcome aggState :=
  match st, a with
  | countState n star cond, _ => countState_add n star cond a
  | _, [] => Panic
  | sumState isInt any i f, v :: _ => sumState_add isInt any i f v
  | avgState n sum c, v :: _ => avgState_add n sum c v
  | minMaxState max m nan, v :: _ => minMaxState_add max m nan v
  | anyValueState w, v :: _ => Ret (anyValueState (if isNull w then v else w))
  | logicalState isAnd w seen, v :: _ => logicalState_add isAnd w seen v
  | bitState op w seen, v :: _ => bitState_add op w seen v
  | arrayAggState vals any concat, v :: _ => arrayAggState_add vals any concat v
  | stringAggState isStr parts delim any, v :: rest => stringAggState_add isStr parts delim any v rest
  | momentState kind n mx my m2x m2y cxy, v :: rest => momentState_add kind n mx my m2x m2y cxy v rest
  | hllState h precision merge count, v :: _ => hllState_add h precision merge count v
  end.

(** The parts joined by the delimiter. *)
Fixpoint joinParts (delim : bytes) (parts : list bytes) : bytes :=
  match parts with [] => [] | [p] => p | p :: parts' => p ++ delim ++ joinParts delim parts' end.

Definition sumState_result (isInt any : bool) (i : Z) (f : spec_float) : value := if negb any then VNull else if isInt then VInt i else VFloat f.
Definition avgState_result (n : Z) (sum : spec_float) : value := if n =? 0 then VNull else VFloat (float64_div sum (float_of_int n)).
Definition minMaxState_result (v : value) (nan : bool) : value := if nan then VFloat S754_nan else v.
Definition stringAggState_result (isStr : bool) (parts : list bytes) (delim : bytes) (any : bool) : value :=
  if negb any then VNull else let out := joinParts delim parts in if isStr then VString out else VBytes out.
Definition momentResult (kind : momentKind) (n m2x m2y cxy : spec_float) : value :=
  let one := float_of_int 1 in let two := float_of_int 2 in
  match kind with
  | VarPop => if SFltb n one then VNull else VFloat (float64_div m2x n)
  | StddevPop => if SFltb n one then VNull else VFloat (float64_sqrt (float64_div m2x n))
  | VarSamp => if SFltb n two then VNull else VFloat (float64_div m2x (float64_sub n one))
  | StddevSamp => if SFltb n two then VNull else VFloat (float64_sqrt (float64_div m2x (float64_sub n one)))
  | CovarPop => if SFltb n one then VNull else VFloat (float64_div cxy n)
  | CovarSamp => if SFltb n two then VNull else VFloat (float64_div cxy (float64_sub n one))
  | Corr =>
      if SFltb n two then VNull
      else let d := float64_sqrt (float64_mul m2x m2y) in VFloat (if isZero d then S754_nan else float64_div cxy d)
  end.
Definition hllState_result `{Estimator} (h : option HLL) (count : bool) : value :=
  match h with
  | None => if count then VInt 0 else VNull
  | Some h => if count then VInt (Estimate h) else VBytes (Encode h)
  end.

Definition agg_result `{Estimator} (st : aggState) : value :=
  match st with
  | countState n _ _ => VInt n
  | sumState isInt any i f => sumState_result isInt any i f
  | avgState n sum c => avgState_result n sum
  | minMaxState _ v nan => minMaxState_result v nan
  | anyValueState v => v
  | logicalState _ v seen => if seen then VBool v else VNull
  | bitState _ v seen => if seen then VInt v else VNull
  | arrayAggState vals any _ => if any then VArray vals else VNull
  | stringAggState isStr parts delim any => stringAggState_result isStr parts delim any
  | momentState kind n _ _ m2x m2y cxy => momentResult kind n m2x m2y cxy
  | hllState h _ _ count => hllState_result h count
  end.

(** ** Runners *)

Record aggSpec : Type := mkSpec {
  as_name : bytes;
  as_args : list bexpr;
  as_star : bool;
  as_distinct : bool;
  as_ignoreNulls : bool;
  as_orderBy : list orderSpec;
  as_limit : option bexpr;
  as_typ : sqlType;
  as_newState : aggState;
}.

(** [seen] is a set of keys. *)
Record aggRunner : Type := mkRunner { ar_spec : aggSpec; ar_st : aggState; ar_seen : list bytes; ar_rows : list (list value * list value); ar_limit : Z }.

Definition newAggRunner (spec : aggSpec) (limit : Z) : aggRunner := mkRunner spec (as_newState spec) [] [] limit.

(** Rows are kept for the end when they have to be sorted or counted. *)
Definition buffers (r : aggRunner) : bool := negb (bool_decide (as_orderBy (ar_spec r) = [])) || (0 <=? ar_limit r).

Definition firstNull (args : list value) : bool := match args with v :: _ => isNull v | [] => false end.
Definition takeRow (r : aggRunner) (args keys : list value) : outcome aggRunner :=
  if buffers r then Ret (mkRunner (ar_spec r) (ar_st r) (ar_seen r) (ar_rows r ++ [(args, keys)]) (ar_limit r))
  else st ← agg_add (ar_st r) args; Ret (mkRunner (ar_spec r) st (ar_seen r) (ar_rows r) (ar_limit r)).
Definition runner_add (r : aggRunner) (args keys : list value) : outcome aggRunner :=
  if as_ignoreNulls (ar_spec r) && firstNull args then Ret r
  else if as_distinct (ar_spec r) then
    match args with
    | [] => Panic
    | v :: _ =>
        if isNull v then Ret r
        else
          let k := valueKey v in
          if bool_decide (k ∈ ar_seen r) then Ret r
          else takeRow (mkRunner (ar_spec r) (ar_st r) (k :: ar_seen r) (ar_rows r) (ar_limit r)) args keys
    end
  else takeRow r args keys.

(** [sort.SliceStable] by the keys of the rows. *)
Definition sortRows {A : Type} (specs : list orderSpec) (rows : list (A * list value)) : list (A * list value) :=
  isort (fun a b => negb (orderLess specs b.2 a.2)) rows.

Definition runner_result `{Estimator} (r : aggRunner) : outcome value :=
  if buffers r then
    let rows := if bool_decide (as_orderBy (ar_spec r) = []) then ar_rows r else sortRows (as_orderBy (ar_spec r)) (ar_rows r) in
    let rows := if (0 <=? ar_limit r) && (ar_limit r <? Z.of_nat (length rows)) then take (Z.to_nat (ar_limit r)) rows else rows in
    st ← foldM (fun st row => agg_add st row.1) (ar_st r) rows;
    Ret (agg_result st)
  else Ret (agg_result (ar_st r)).

(** ** The order of ORDER BY is a total preorder *)

(** A comparison of values of a set. *)
Record cmp_ok {A : Type} (P : A -> Prop) (cmp : A -> A -> Z) : Prop := {
  cmp_anti : forall a b, P a -> P b -> Z.sgn (cmp a b) = - Z.sgn (cmp b a);
  cmp_trans : forall a b c, P a -> P b -> P c -> cmp a b <= 0 -> cmp b c <= 0 -> cmp a c <= 0;
}.

Lemma cmp_eq_l {A : Type} (P : A -> Prop) cmp a b c : cmp_ok P cmp -> P a -> P b -> P c -> cmp a b = 0 -> Z.sgn (cmp a c) = Z.sgn (cmp b c).
Proof.
  intros [Ha Ht] Pa Pb Pc E. assert (cmp b a = 0) as E' by (pose proof (Ha a b Pa Pb); rewrite E in *; cbn in *; lia).
  assert (cmp a c <= 0 <-> cmp b c <= 0) by (split; intros; [apply (Ht b a c)|apply (Ht a b c)]; auto; lia).
  assert (cmp c a <= 0 <-> cmp c b <= 0) by (split; intros; [apply (Ht c a b)|apply (Ht c b a)]; auto; lia).
  pose proof (Ha a c Pa Pc). pose proof (Ha b c Pb Pc). lia.
Qed.

(** Comparing by [f] first and by [g] where [f] does not tell. *)
Lemma cmp_lex {A : Type} (P : A -> Prop) f g : cmp_ok P f -> cmp_ok P g -> cmp_ok P (fun a b => if f a b =? 0 then g a b else f a b).
Proof.
  intros Hf Hg. split.
  - intros a b Pa Pb. pose proof (cmp_anti P f Hf a b Pa Pb). pose proof (cmp_anti P g Hg a b Pa Pb). destruct (Z.eqb_spec (f a b) 0), (Z.eqb_spec (f b a) 0); lia.
  - intros a b c Pa Pb Pc. pose proof (cmp_anti P f Hf a b Pa Pb). pose proof (cmp_anti P f Hf b c Pb Pc). pose proof (cmp_anti P f Hf a c Pa Pc).
    destruct (Z.eqb_spec (f a b) 0) as [E1|E1].
    + pose proof (cmp_eq_l P f a b c Hf Pa Pb Pc E1). destruct (Z.eqb_spec (f b c) 0), (Z.eqb_spec (f a c) 0); try lia. by apply (cmp_trans P g Hg a b c).
    + intros Hab Hbc. destruct (Z.eqb_spec (f b c) 0) as [E2|E2].
      * assert (f c b = 0) as E2' by lia. pose proof (cmp_eq_l P f c b a Hf Pc Pb Pa E2'). pose proof (cmp_anti P f Hf c a Pc Pa). pose proof (cmp_anti P f Hf b a Pb Pa). destruct (Z.eqb_spec (f a c) 0); lia.
      * pose proof (cmp_trans P f Hf a b c Pa Pb Pc Hab Hbc). destruct (Z.eqb_spec (f a c) 0) as [E3|E3]; [|done].
        exfalso. assert (f c a = 0) as E3' by lia. pose proof (cmp_eq_l P f c a b Hf Pc Pa Pb E3'). pose proof (cmp_anti P f Hf c b Pc Pb). lia.
Qed.

Lemma cmp_pull {A B : Type} (P : A -> Prop) (Q : B -> Prop) (h : A -> B) f : cmp_ok Q f -> (forall a, P a -> Q (h a)) -> cmp_ok P (fun a b => f (h a) (h b)).
Proof. intros [Ha Ht] Hh. split; intros; [apply Ha; auto|eapply Ht; [| | |eassumption|eassumption]; auto]. Qed.

(** One column of ORDER BY. *)
Definition colCmp (s : orderSpec) (x y : value) : Z :=
  match x, y with
  | VNull, VNull => 0
  | VNull, _ => if or_nullsLast s then 1 else -1
  | _, VNull => if or_nullsLast s then -1 else 1
  | _, _ => if or_desc s then - cmpKeys x y else cmpKeys x y
  end.
Fixpoint orderCmp (specs : list orderSpec) (a b : list value) : Z :=
  match specs with
  | [] => 0
  | s :: specs' => let c := colCmp s (hd VNull a) (hd VNull b) in if c =? 0 then orderCmp specs' (tl a) (tl b) else c
  end.
Definition keys_ok (specs : list orderSpec) (keys : list value) : Prop := Forall2 (fun v s => has_type v (e_typ (or_expr s)) = true) keys specs.

#[local] Instance keys_ok_dec specs keys : Decision (keys_ok specs keys).
Proof. unfold keys_ok. apply _. Defined.

Lemma cmpBytes_ok : cmp_ok (fun _ => True) cmpBytes.
Proof.
  split.
  - intros a b _ _. unfold cmpBytes. destruct (bytes_ltb a b) eqn:E1, (bytes_ltb b a) eqn:E2; try done. pose proof (bytes_ltb_trans _ _ _ E1 E2) as H. by rewrite bytes_ltb_irrefl in H.
  - intros a b c _ _ _. assert (forall x y, cmpBytes x y <= 0 <-> bytes_leb x y = true) as Hle.
    { intros x y. rewrite bytes_leb_ltb. unfold cmpBytes. destruct (bytes_ltb x y) eqn:E1, (bytes_ltb y x) eqn:E2; cbn; try lia; [|split; intros; (lia || done)..].
      pose proof (bytes_ltb_trans _ _ _ E1 E2) as H. by rewrite bytes_ltb_irrefl in H. }
    rewrite !Hle. apply bytes_leb_trans.
Qed.
Lemma colCmp_ok s t : cmp_ok (fun v => has_type v t = true) (colCmp s).
Proof.
  assert (forall a b, has_type a t = true -> has_type b t = true -> a <> VNull -> b <> VNull -> colCmp s a b = if or_desc s then - cmpBytes (okey a) (okey b) else cmpBytes (okey a) (okey b)) as Hcol.
  { intros a b Ha Hb Ha0 Hb0. rewrite <- (cmpKeys_okey a b t) by done. destruct a, b; done. }
  assert (forall a, colCmp s VNull a = if isNull a then 0 else if or_nullsLast s then 1 else -1) as Hnl by (by intros []).
  assert (forall a, colCmp s a VNull = if isNull a then 0 else if or_nullsLast s then -1 else 1) as Hnr by (by intros []).
  assert (forall a, isNull a = true \/ isNull a = false /\ a <> VNull) as Hcase by (intros []; auto).
  assert (forall a, isNull a = true -> a = VNull) as Hnull by (by intros []).
  destruct cmpBytes_ok as [Hanti Htrans]. split.
  - intros a b Ha Hb. destruct (Hcase a) as [Ea|[Ea Ea0]], (Hcase b) as [Eb|[Eb Eb0]]; try (apply Hnull in Ea as ->); try (apply Hnull in Eb as ->); rewrite ?Hnl, ?Hnr, ?Ea, ?Eb, ?Hcol by done; try (by destruct (or_nullsLast s)).
    pose proof (Hanti (okey a) (okey b) I I). destruct (or_desc s); lia.
  - intros a b c Ha Hb Hc. destruct (Hcase a) as [Ea|[Ea Ea0]], (Hcase b) as [Eb|[Eb Eb0]], (Hcase c) as [Ec|[Ec Ec0]]; try (apply Hnull in Ea as ->); try (apply Hnull in Eb as ->); try (apply Hnull in Ec as ->);
      rewrite ?Hnl, ?Hnr, ?Ea, ?Eb, ?Ec, ?Hcol by done; cbn; try (by destruct (or_nullsLast s)).
    destruct (or_desc s); [|by apply Htrans]. intros H1 H2. pose proof (Hanti (okey a) (okey b) I I). pose proof (Hanti (okey b) (okey c) I I). pose proof (Hanti (okey a) (okey c) I I).
    pose proof (Htrans (okey c) (okey b) (okey a) I I I). lia.
Qed.
Lemma orderCmp_ok specs : cmp_ok (keys_ok specs) (orderCmp specs).
Proof.
  induction specs as [|s specs IH]; [by split|]. cbn [orderCmp]. apply (cmp_lex (keys_ok (s :: specs)) (fun a b => colCmp s (hd VNull a) (hd VNull b)) (fun a b => orderCmp specs (tl a) (tl b))).
  - apply (cmp_pull _ (fun v => has_type v (e_typ (or_expr s)) = true)); [apply colCmp_ok|]. intros a Ha. by inversion Ha.
  - apply (cmp_pull _ (keys_ok specs)); [done|]. intros a Ha. by inversion Ha.
Qed.
Lemma compareOrder_ret specs : forall a b, keys_ok specs a -> keys_ok specs b -> compareOrder specs a b = Ret (orderCmp specs a b).
Proof.
  induction specs as [|s specs IH]; intros a b Ha Hb; inversion Ha as [|x ? a' ? Hx Ha']; subst; inversion Hb as [|z ? b' ? Hy Hb']; subst; [done|]. rename z into y. cbn [compareOrder orderCmp hd tl].
  destruct (compare_typed x y _ Hx Hy) as [c Ec]. unfold colCmp, cmpKeys. rewrite Ec. cbn [mbind outcome_bind]. destruct x, y; try (by destruct (or_nullsLast s)); try (by apply IH); destruct (or_desc s), (Z.eqb_spec c 0) as [->|Hc]; cbn [negb]; try (by apply IH); rewrite ?(proj2 (Z.eqb_neq _ _)) by lia; done.
Qed.

Lemma isort_sorted_on {A : Type} (leb : A -> A -> bool) (P : A -> Prop) l :
  (forall x y, P x -> P y -> leb x y = true \/ leb y x = true) -> (forall x y z, P x -> P y -> P z -> leb x y = true -> leb y z = true -> leb x z = true) ->
  Forall P l -> StronglySorted (fun x y => leb x y = true) (isort leb l).
Proof.
  intros Htot Htr Hl. induction Hl as [|x l Hx Hl IH]; [constructor|]. cbn. fold (isort leb l). assert (Forall P (isort leb l)) as Hs by (by rewrite isort_perm).
  revert IH Hs. generalize (isort leb l). intros k Hk Hs. induction Hk as [|y k Hk IHk Hy]; cbn; [by repeat constructor|]. apply Forall_cons in Hs as [Py Hs]. destruct (leb x y) eqn:E.
  - repeat constructor; auto. rewrite list.Forall_forall in *. intros z Hz. apply (Htr x y z); auto.
  - constructor; [auto|]. rewrite insert_sorted_perm. constructor; [|done]. destruct (Htot x y); congruence || auto.
Qed.

Lemma sorted_impl {A : Type} (R S : A -> A -> Prop) l : (forall x y, R x y -> S x y) -> StronglySorted R l -> StronglySorted S l.
Proof. intros H. induction 1 as [|x l Hl IH Hx]; constructor; [done|]. eapply Forall_impl; [exact Hx|]. auto. Qed.

(** The rows of ORDER BY: a permutation, sorted by their keys, in which rows with equal
    keys keep their order. *)
Lemma sortRows_spec {A : Type} specs (rows : list (A * list value)) : Forall (fun r => keys_ok specs r.2) rows ->
  sortRows specs rows ≡ₚ rows /\ StronglySorted (fun a b => orderCmp specs a.2 b.2 <= 0) (sortRows specs rows) /\
  forall keys, keys_ok specs keys -> filter (fun r => orderCmp specs r.2 keys = 0) (sortRows specs rows) = filter (fun r => orderCmp specs r.2 keys = 0) rows.
Proof.
  intros Hrows. destruct (orderCmp_ok specs) as [Hanti Htrans]. split; [apply isort_perm|].
  assert (sortRows specs rows = isort (fun a b => orderCmp specs a.2 b.2 <=? 0) rows) as ->.
  { apply isort_ext. intros x y Hx Hy. rewrite list.Forall_forall in Hrows. pose proof (Hanti x.2 y.2 (Hrows _ Hx) (Hrows _ Hy)). unfold orderLess. rewrite compareOrder_ret by auto.
    destruct (Z.ltb_spec (orderCmp specs y.2 x.2) 0), (Z.leb_spec (orderCmp specs x.2 y.2) 0); cbn; lia. }
  split.
  - eapply sorted_impl; [|apply (isort_sorted_on _ (fun r => keys_ok specs r.2)); [| |done]]; [intros x y H; cbn in H; lia| |].
    + intros x y Hx Hy. pose proof (Hanti _ _ Hx Hy). lia.
    + intros x y z Hx Hy Hz H1 H2. apply Z.leb_le in H1, H2. apply Z.leb_le. by apply (Htrans x.2 y.2 z.2).
  - intros keys Hk. assert (forall l, Forall (fun r : A * list value => keys_ok specs r.2) l -> filter (fun r => orderCmp specs r.2 keys = 0) l = filter (fun r => keys_ok specs r.2 /\ orderCmp specs r.2 keys = 0) l) as Hf.
    { intros l Hl. induction Hl as [|r l Hr Hl IH]; [done|]. rewrite !filter_cons, IH. destruct (decide (orderCmp specs r.2 keys = 0)), (decide (keys_ok specs r.2 /\ orderCmp specs r.2 keys = 0)); tauto. }
    rewrite !Hf; [|done|by rewrite isort_perm]. apply isort_stable. intros y z [Hy Ey] [Hz Ez]. apply Z.leb_le. apply (Htrans y.2 keys z.2); [done|done|done|lia|]. pose proof (Hanti z.2 keys Hz Hk). lia.
Qed.

(** ** Square roots of the format are of the format *)

Lemma sqrt_digits m : 0 < m -> Zdigits2 (Z.sqrt m) = (Zdigits2 m + 1) / 2.
Proof.
  intros Hm. pose proof (Zdigits2_bound m Hm) as Hb. pose proof (Zdigits2_pos m Hm) as Hd. set (d := Zdigits2 m) in *. set (k := (d + 1) / 2).
  assert (2 * k - 1 <= d <= 2 * k /\ 0 < k) as (Hk1 & Hk) by (unfold k; Z.to_euclidean_division_equations; lia).
  assert (2 ^ (k - 1) * 2 ^ (k - 1) <= m) as Hlo by (rewrite <- Z.pow_add_r by lia; transitivity (2 ^ (d - 1)); [apply Z.pow_le_mono_r; lia|lia]).
  assert (m < 2 ^ k * 2 ^ k) as Hhi by (rewrite <- Z.pow_add_r by lia; apply Z.lt_le_trans with (2 ^ d); [lia|apply Z.pow_le_mono_r; lia]).
  assert (2 ^ (k - 1) <= Z.sqrt m) as H1 by (rewrite <- (Z.sqrt_square (2 ^ (k - 1))) by (apply Z.pow_nonneg; lia); by apply Z.sqrt_le_mono).
  assert (Z.sqrt m < 2 ^ k) as H2 by (apply Z.sqrt_lt_square; [lia|apply Z.pow_nonneg; lia|done]).
  apply Zdigits2_unique; [lia|lia|]. assert (0 < 2 ^ (k - 1)) by (apply Z.pow_pos_nonneg; lia). lia.
Qed.
Lemma float64_sqrt_valid x : valid64 x = true -> valid64 (float64_sqrt x) = true.
Proof.
  intros Hx. unfold float64_sqrt. destruct x as [|[]| |[] mx ex]; try done. cbn [SFsqrt]. unfold SFsqrt_core_binary.
  change (IntDef.Z.add ?a ?b) with (Z.add a b). change (IntDef.Z.sub ?a ?b) with (Z.sub a b). change (IntDef.Z.min ?a ?b) with (Z.min a b). change (IntDef.Z.mul ?a ?b) with (Z.mul a b). change (IntDef.Z.div2 ?a) with (Z.div2 a).
  set (d := Zdigits2 (Z.pos mx)). set (e' := Z.min (SpecFloat.fexp 53 1024 (Z.div2 (d + ex + 1))) (Z.div2 ex)). set (s := ex - 2 * e').
  assert (0 <= s) as Hs by (subst s e'; rewrite !Z.div2_div; Z.to_euclidean_division_equations; lia).
  assert (match s with 0 => Z.pos mx | Z.pos _ => IntDef.Z.shiftl (Z.pos mx) s | Z.neg _ => 0 end = Z.pos mx * 2 ^ s) as ->.
  { destruct s as [|p|p]; [lia| |lia]. change (IntDef.Z.shiftl (Z.pos mx) (Z.pos p)) with (Z.shiftl (Z.pos mx) (Z.pos p)). by rewrite Z.shiftl_mul_pow2. }
  change IntDef.Z.sqrtrem with Z.sqrtrem. pose proof (Z.sqrtrem_sqrt (Z.pos mx * 2 ^ s)) as Hq. destruct (Z.sqrtrem (Z.pos mx * 2 ^ s)) as [q r]. cbn [fst] in Hq. subst q.
  assert (0 < Z.pos mx * 2 ^ s) as Hp by (assert (0 < 2 ^ s) by (apply Z.pow_pos_nonneg; lia); nia).
  apply round_aux_valid; [lia|apply Z.sqrt_nonneg|]. rewrite sqrt_digits, Zdigits2_mul_pow by lia. fold d.
  replace ((d + s + 1) / 2 + e') with (Z.div2 (d + ex + 1)); [unfold e'; lia|]. rewrite Z.div2_div. subst s. Z.to_euclidean_division_equations; lia.
Qed.

(** ** Accumulators are typed *)

Section typing.
Context `{Estimator}.

(** An accumulator of arguments of the types [args] with results of the type [ret]. *)
Definition state_ok (args : list sqlType) (ret : sqlType) (st : aggState) : Prop :=
  match st with
  | countState n star cond => is_int64 n /\ ret = TInt64 /\ (star = true \/ args <> [])
  | sumState isInt any i f =>
      exists rest, args = ret :: rest /\ ret = (if isInt then TInt64 else TFloat64) /\ is_int64 i /\ valid64 f = true
  | avgState n sum c => args <> [] /\ ret = TFloat64 /\ valid64 sum = true /\ valid64 c = true
  | minMaxState max v nan => exists rest, args = ret :: rest /\ has_type v ret = true /\ (nan = true -> isFloat ret = true)
  | anyValueState v => exists rest, args = ret :: rest /\ has_type v ret = true
  | logicalState _ _ _ => exists rest, args = TBool :: rest /\ ret = TBool
  | bitState op v seen => exists rest, args = TInt64 :: rest /\ ret = TInt64 /\ is_int64 v
  | arrayAggState vals any concat =>
      exists t rest, args = (if concat then TArray t else t) :: rest /\ ret = TArray t /\ Forall (fun v => has_type v t = true) vals
  | stringAggState isStr parts delim any =>
      ret = (if isStr then TString else TBytes) /\ args <> [] /\ Forall (eq ret) args /\ Forall all_bytes parts /\ all_bytes delim
  | momentState kind n mx my m2x m2y cxy => args <> [] /\ ret = TFloat64 /\ Forall (fun f => valid64 f = true) [n; mx; my; m2x; m2y; cxy]
  | hllState h precision merge count =>
      args <> [] /\ (merge = true -> exists rest, args = TBytes :: rest) /\ ret = (if count then TInt64 else TBytes) /\ (merge = false -> 4 <= precision <= hllMaxPrecision) /\
      match h with Some h => hll_ok h | None => True end
  end.

Lemma wrap64_incr n : is_int64 (incr64 n).
Proof. apply wrap64_int64. Qed.
Lemma toF64_valid v t : has_type v t = true -> valid64 (toF64 v) = true.
Proof. destruct v, t; try done; cbn; auto using float_of_int_valid. Qed.
Lemma asBytes_all v t : has_type v t = true -> all_bytes (asBytes v).
Proof. destruct v, t; try done; cbn; try (intros; constructor); by rewrite bytesb_all. Qed.
Lemma newHLL_ok p : 4 <= p <= hllMaxPrecision -> hll_ok (newHLLPrecision p).
Proof.
  intros Hp. split; [done|]. cbn. split_and!; [done|apply set_Forall_empty|]. rewrite size_empty. unfold sparseLimit. cbn [hll_p]. apply Z.div_pos; [apply Z.pow_nonneg; lia|lia].
Qed.
Lemma addMoments_ok args kind n mx my m2x m2y cxy x y : args <> [] -> Forall (fun f => valid64 f = true) [n; mx; my; m2x; m2y; cxy] -> valid64 x = true -> valid64 y = true ->
  state_ok args TFloat64 (addMoments kind n mx my m2x m2y cxy x y).
Proof. intros Ha Hf Hx Hy. rewrite !Forall_cons in Hf. destruct Hf as (Hn & Hmx & Hmy & Hm2x & Hm2y & Hc & _). split_and!; [done|done|]. repeat apply Forall_cons_2; auto 20 with lbt. Qed.

(** One method of a state. *)
Ltac step_state :=
  cbn [agg_add]; unfold countState_add, sumState_add, avgState_add, minMaxState_add, logicalState_add, bitState_add, arrayAggState_add, stringAggState_add, momentState_add, hllState_add; cbn.
Lemma agg_add_ok args ret st vs : state_ok args ret st -> Forall2 (fun v t => has_type v t = true) vs args ->
  match agg_add st vs with Ret st' => state_ok args ret st' | Err _ => True | Panic => False end.
Proof.
  intros Hst Hvs. destruct st as [n star cond|isInt any i f|n sum c|max m nan|w|isAnd w seen|op w seen|vals any concat|isStr parts delim any|kind n mx my m2x m2y cxy|h precision merge count].
  - destruct Hst as (Hn & -> & Hs). destruct star; [split_and!; [apply wrap64_incr|done|by left]|]. destruct Hs as [|Hs]; [done|]. destruct Hvs as [|v t vs args Hv Hvs]; [done|]. step_state.
    split_and!; [destruct (if cond then _ else _); [apply wrap64_incr|done]|done|by right].
  - destruct Hst as (rest & -> & -> & Hi & Hf). inversion Hvs as [|v ? vs' ? Hv Hvs']; subst. step_state. destruct (isNull v) eqn:Ev; [by exists rest|]. destruct isInt, v; try done; cbn in Hv.
    + apply is_int64b_spec in Hv. rewrite addInt64_exact by done. destruct (exact64 (i + n)) as [r| |] eqn:E; try done; [|by apply exact64_safe in E]. exists rest. split_and!; try done. by apply exact64_typed in E.
    + exists rest. split_and!; auto with lbt.
  - destruct Hst as (Ha & -> & Hs & Hc). destruct Hvs as [|v t vs args Hv Hvs]; [done|]. step_state. destruct (isNull v); [done|]. pose proof (toF64_valid v t Hv). split_and!; auto 10 with lbt.
  - destruct Hst as (rest & -> & Hm & Hnan). inversion Hvs as [|v ? vs' ? Hv Hvs']; subst. step_state. destruct (isNull v); [by exists rest|]. destruct (isNaNValue v) eqn:En.
    { exists rest. split_and!; try done. intros _. by destruct v, ret. }
    destruct (isNull m); [by exists rest|]. destruct (compare_typed v m ret Hv Hm) as [c ->]. cbn. exists rest. split_and!; try done. by destruct (_ || _).
  - destruct Hst as (rest & -> & Hw). inversion Hvs as [|v ? vs' ? Hv Hvs']; subst. step_state. exists rest. split; [done|]. by destruct (isNull w).
  - destruct Hst as (rest & -> & ->). inversion Hvs as [|v ? vs' ? Hv Hvs']; subst. step_state. destruct v; try done; by exists rest.
  - destruct Hst as (rest & -> & -> & Hw). inversion Hvs as [|v ? vs' ? Hv Hvs']; subst. step_state. destruct v as [| |x| | | | | | | |]; try done; [by exists rest|]. cbn in Hv. apply is_int64b_spec in Hv. exists rest. split_and!; try done. destruct seen; [by apply bitFn_int64|done].
  - destruct Hst as (t & rest & -> & -> & Hvals). inversion Hvs as [|v ? vs' ? Hv Hvs']; subst. step_state. destruct concat; [destruct v as [| | | | | | | |l| |]; try done|]; exists t, rest; split_and!; try done.
    + apply Forall_app. split; [done|]. cbn in Hv. apply list.Forall_forall. intros x Hx%list_elem_of_In. rewrite forallb_forall in Hv. by apply Hv.
    + apply Forall_app. by split; [|constructor].
  - destruct Hst as (-> & Ha & Hall & Hp & Hd). destruct Hvs as [|v t vs args Hv Hvs]; [done|]. step_state. apply Forall_cons in Hall as [Ht Hall]. pose proof (asBytes_all v t Hv) as Hbv.
    assert (Forall all_bytes (parts ++ [asBytes v])) as Hp' by (apply Forall_app; split; [done|by constructor]).
    destruct (isNull v); [split_and!; [done|done|by constructor|done|done]|]. destruct any; [split_and!; [done|done|by constructor|done|done]|].
    destruct Hvs as [|w t' vs args Hw Hvs]; [split_and!; [done|done|by constructor|done|done]|]. pose proof (asBytes_all w t' Hw). destruct (isNull w); split_and!; try done; by constructor.
  - destruct Hst as (Ha & -> & Hf). destruct Hvs as [|v t vs args Hv Hvs]; [done|]. step_state. pose proof (toF64_valid v t Hv). destruct (isNull v); [done|]. destruct Hvs as [|w t' vs args Hw Hvs]; [by apply addMoments_ok|].
    pose proof (toF64_valid w t' Hw). destruct (isNull w); [done|by apply addMoments_ok].
  - destruct Hst as (Ha & Hm & -> & Hp & Hh). destruct Hvs as [|v t vs args Hv Hvs]; [done|]. step_state. destruct (isNull v) eqn:Ev; [done|]. destruct merge.
    + destruct (Hm eq_refl) as [rest [= -> ->]]. destruct v as [| | | | |b| | | | |]; try done. cbn in Hv. apply bytesb_all in Hv. destruct (DecodeHLL b) as [o|] eqn:Eo; [|done]. apply DecodeHLL_ok in Eo; [|done]. split_and!; [done|eauto|done|done|]. destruct h as [h|]; [|done]. by apply HLL_Merge_ok.
    + split_and!; [done|done|done|done|]. apply HLL_Add_ok. destruct h as [h|]; [done|by apply newHLL_ok, Hp].
Qed.

Lemma uvarint_all_bytes fuel x : 0 <= x -> all_bytes (uvarint_bytes fuel x).
Proof.
  revert x. induction fuel as [|fuel IH]; intros x Hx; cbn; [constructor|]. destruct (Z.ltb_spec x 128); [constructor; [unfold is_byte; lia|constructor]|]. constructor; [|apply IH, Z.div_pos; lia].
  apply (bitFn_byte BitOr); unfold is_byte; [pose proof (Z.mod_pos_bound x 128); lia|lia].
Qed.
Lemma Encode_all_bytes h : hll_ok h -> all_bytes (Encode h).
Proof.
  intros [Hp Hh]. unfold Encode, hllMaxPrecision in *. assert (is_byte (hll_p h)) by (unfold is_byte; lia). destruct (hll_sparse h) as [s|].
  - unfold AppendUvarint. apply Forall_app. split; [apply Forall_app; split; [repeat constructor; done || (unfold hllVersion; lia)|apply uvarint_all_bytes; lia]|].
    generalize 0. generalize (sortedHashes s). intros l. induction l as [|x l IH]; intros prev; cbn [encodeDeltas]; [constructor|]. apply Forall_app. split; [apply uvarint_all_bytes; apply Z.mod_pos_bound; by unfold_words|apply IH].
  - destruct Hh as [_ Hr]. apply Forall_app. split; [repeat constructor; done || (unfold hllVersion; lia)|]. eapply Forall_impl; [exact Hr|]. intros r Hr'. cbn in Hr'. unfold is_byte. lia.
Qed.
Lemma joinParts_bytes delim parts : all_bytes delim -> Forall all_bytes parts -> all_bytes (joinParts delim parts).
Proof.
  intros Hd. induction 1 as [|p parts Hp Hps IH]; cbn; [constructor|]. destruct parts; [done|]. apply Forall_app. split; [done|]. apply Forall_app. by split.
Qed.

Lemma agg_result_ok args ret st : state_ok args ret st -> has_type (agg_result st) ret = true.
Proof.
  intros Hst. destruct st as [n star cond|isInt any i f|n sum c|max m nan|w|isAnd w seen|op w seen|vals any concat|isStr parts delim any|kind n mx my m2x m2y cxy|h precision merge count].
  - destruct Hst as (Hn & -> & _). cbn. by apply is_int64b_spec.
  - destruct Hst as (rest & _ & -> & Hi & Hf). cbn. unfold sumState_result. destruct any; [|done]. destruct isInt; [by apply is_int64b_spec|done].
  - destruct Hst as (_ & -> & Hs & _). cbn. unfold avgState_result. destruct (n =? 0); [done|]. apply float64_div_valid; auto with lbt.
  - destruct Hst as (rest & _ & Hm & Hnan). cbn. unfold minMaxState_result. destruct nan; [|done]. specialize (Hnan eq_refl). by destruct ret.
  - by destruct Hst as (rest & _ & Hw).
  - destruct Hst as (rest & _ & ->). by destruct seen.
  - destruct Hst as (rest & _ & -> & Hw). destruct seen; [|done]. cbn. by apply is_int64b_spec.
  - destruct Hst as (t & rest & _ & -> & Hvals). destruct any; [|done]. cbn. rewrite forallb_forall. intros v Hv%list_elem_of_In. rewrite list.Forall_forall in Hvals. by apply Hvals.
  - destruct Hst as (-> & _ & _ & Hp & Hd). cbn. unfold stringAggState_result. destruct any; [|done]. cbn. pose proof (joinParts_bytes delim parts Hd Hp) as Hj. destruct isStr; by apply bytesb_all.
  - destruct Hst as (_ & -> & Hf). rewrite !Forall_cons in Hf. destruct Hf as (Hn & _ & _ & Hx & Hy & Hc & _). pose proof (float_of_int_valid 1) as H1.
    destruct kind; unfold agg_result, momentResult; (destruct (SFltb n _); [done|]); try (destruct (isZero _); [done|]); cbn [has_type]; auto 10 using float64_sqrt_valid with lbt.
  - destruct Hst as (_ & _ & -> & _ & Hh). destruct h as [h|]; [|by destruct count]. destruct count; cbn; [apply is_int64b_spec, Estimate_int64|by apply bytesb_all, Encode_all_bytes].
Qed.
End typing.

(** ** The clauses of an aggregate call *)

(** The first row of every key. *)
Fixpoint firstOf (seen : list bytes) (rows : list (list value * list value)) : list (list value * list value) :=
  match rows with
  | [] => []
  | (args, keys) :: rows' =>
      match args with
      | v :: _ => if bool_decide (valueKey v ∈ seen) then firstOf seen rows' else (args, keys) :: firstOf (valueKey v :: seen) rows'
      | [] => firstOf seen rows'
      end
  end.
(** The rows an aggregate call accumulates: without the NULLs that IGNORE NULLS and
    DISTINCT leave out, once per distinct argument, in the order of ORDER BY, and no more
    than LIMIT. *)
Definition selected (spec : aggSpec) (limit : Z) (rows : list (list value * list value)) : list (list value * list value) :=
  let rows := List.filter (fun r => negb ((as_ignoreNulls spec || as_distinct spec) && firstNull r.1)) rows in
  let rows := if as_distinct spec then firstOf [] rows else rows in
  let rows := if bool_decide (as_orderBy spec = []) then rows else sortRows (as_orderBy spec) rows in
  if 0 <=? limit then take (Z.to_nat limit) rows else rows.
(** What every row of a call has: arguments, unless it is a COUNT( * ). *)
Definition args_present (spec : aggSpec) (rows : list (list value * list value)) : Prop := as_distinct spec = true -> Forall (fun r => r.1 <> []) rows.

Section clauses.
Context `{Estimator} (spec : aggSpec) (limit : Z).

(** The rows that reach the accumulator or the buffer, given the keys seen. *)
Definition passed (seen : list bytes) (rows : list (list value * list value)) : list (list value * list value) :=
  let rows := List.filter (fun r => negb ((as_ignoreNulls spec || as_distinct spec) && firstNull r.1)) rows in
  if as_distinct spec then firstOf seen rows else rows.

Lemma runner_add_pass r args keys rows : ar_spec r = spec -> args_present spec [(args, keys)] ->
  runner_add r args keys =
    (match passed (ar_seen r) [(args, keys)] with
     | [] => Ret r
     | _ => takeRow (mkRunner spec (ar_st r) (if as_distinct spec then match args with v :: _ => valueKey v :: ar_seen r | [] => ar_seen r end else ar_seen r) (ar_rows r) (ar_limit r)) args keys
     end) /\
  passed (ar_seen r) ((args, keys) :: rows) =
    match passed (ar_seen r) [(args, keys)] with
    | [] => passed (ar_seen r) rows
    | _ => (args, keys) :: passed (if as_distinct spec then match args with v :: _ => valueKey v :: ar_seen r | [] => ar_seen r end else ar_seen r) rows
    end.
Proof.
  intros Hs Hp. unfold runner_add, passed, args_present in *. rewrite Hs. cbn [List.filter]. cbn [fst].
  destruct (as_distinct spec) eqn:Ed.
  - rewrite orb_true_r. cbn [andb]. specialize (Hp eq_refl). apply Forall_cons in Hp as [Hp _]. cbn in Hp. destruct args as [|v args]; [done|]. cbn [firstNull].
    destruct (isNull v) eqn:Ev; [by rewrite andb_true_r; destruct (as_ignoreNulls spec)|]. rewrite andb_false_r. cbn [negb firstOf]. destruct (bool_decide (valueKey v ∈ ar_seen r)); done.
  - rewrite orb_false_r. destruct (as_ignoreNulls spec && firstNull args) eqn:Ei; cbn [negb]; [done|]. split; [|done]. f_equal. destruct r. cbn in *. by subst.
Qed.

Definition run_rows (r : aggRunner) (rows : list (list value * list value)) : outcome aggRunner := foldM (fun r row => runner_add r row.1 row.2) r rows.

(** A runner that keeps its rows. *)
Lemma run_buffered rows : forall r, ar_spec r = spec -> buffers r = true -> args_present spec rows ->
  exists seen, run_rows r rows = Ret (mkRunner spec (ar_st r) seen (ar_rows r ++ passed (ar_seen r) rows) (ar_limit r)).
Proof.
  unfold run_rows. induction rows as [|[args keys] rows IH]; intros r Hs Hb Hp.
  - exists (ar_seen r). cbn. unfold passed. cbn. assert ((if as_distinct spec then [] else []) = @nil (list value * list value)) as -> by (by destruct (as_distinct spec)). rewrite app_nil_r. destruct r. cbn in *. by subst.
  - assert (args_present spec [(args, keys)] /\ args_present spec rows) as [Hp1 Hp2] by (split; intros Hd; specialize (Hp Hd); apply Forall_cons in Hp as [H1 H2]; [by constructor|done]).
    destruct (runner_add_pass r args keys rows Hs Hp1) as [Ea ->]. cbn [foldM fst snd]. rewrite Ea. destruct (passed (ar_seen r) [(args, keys)]); cbn [mbind outcome_bind]; [by apply IH|].
    unfold takeRow. replace (buffers _) with true by (symmetry; revert Hb; unfold buffers; cbn; by rewrite Hs). cbn [mbind outcome_bind].
    edestruct (IH (mkRunner spec (ar_st r) (if as_distinct spec then match args with v :: _ => valueKey v :: ar_seen r | [] => ar_seen r end else ar_seen r) (ar_rows r ++ [(args, keys)]) (ar_limit r))) as [seen E]; [done| |done|].
    { revert Hb. unfold buffers. cbn. by rewrite Hs. }
    exists seen. cbn [ar_spec ar_st ar_seen ar_rows ar_limit] in E |- *. rewrite E. by rewrite <- app_assoc.
Qed.
(** A runner that accumulates at once. *)
Lemma run_direct rows : forall r, ar_spec r = spec -> buffers r = false -> args_present spec rows ->
  (r' ← run_rows r rows; Ret (ar_st r')) = foldM (fun st row => agg_add st row.1) (ar_st r) (passed (ar_seen r) rows) /\
  (forall r', run_rows r rows = Ret r' -> ar_spec r' = spec /\ ar_limit r' = ar_limit r).
Proof.
  unfold run_rows. induction rows as [|[args keys] rows IH]; intros r Hs Hb Hp.
  - cbn. unfold passed. cbn. destruct (as_distinct spec); (split; [done|by intros r' [= <-]]).
  - assert (args_present spec [(args, keys)] /\ args_present spec rows) as [Hp1 Hp2] by (split; intros Hd; specialize (Hp Hd); apply Forall_cons in Hp as [H1 H2]; [by constructor|done]).
    destruct (runner_add_pass r args keys rows Hs Hp1) as [Ea ->]. cbn [foldM fst snd]. rewrite Ea. destruct (passed (ar_seen r) [(args, keys)]) as [|x l]; cbn [mbind outcome_bind]; [by apply IH|].
    unfold takeRow. replace (buffers _) with false by (symmetry; revert Hb; unfold buffers; cbn; by rewrite Hs). cbn [ar_st ar_spec ar_seen ar_rows ar_limit foldM fst].
    destruct (agg_add (ar_st r) args) as [st| |]; cbn [mbind outcome_bind]; [|by split|by split].
    edestruct (IH (mkRunner spec st (if as_distinct spec then match args with v :: _ => valueKey v :: ar_seen r | [] => ar_seen r end else ar_seen r) (ar_rows r) (ar_limit r))) as [E1 E2]; [done| |done|].
    { revert Hb. unfold buffers. cbn. by rewrite Hs. }
    cbn [ar_st ar_spec ar_seen ar_rows ar_limit] in *. by rewrite E1.
Qed.
End clauses.

Lemma selected_passed spec limit rows : selected spec limit rows =
  let rows := if bool_decide (as_orderBy spec = []) then passed spec [] rows else sortRows (as_orderBy spec) (passed spec [] rows) in
  if 0 <=? limit then take (Z.to_nat limit) rows else rows.
Proof. done. Qed.
Lemma runner_selects `{Estimator} spec limit rows : args_present spec rows ->
  (r ← run_rows (newAggRunner spec limit) rows; runner_result r) =
  (st ← foldM (fun st row => agg_add st row.1) (as_newState spec) (selected spec limit rows); Ret (agg_result st)).
Proof.
  intros Hp. rewrite selected_passed. cbv zeta. destruct (buffers (newAggRunner spec limit)) eqn:Hb.
  - destruct (run_buffered spec rows (newAggRunner spec limit) eq_refl Hb Hp) as [seen ->]. cbn [mbind outcome_bind]. unfold runner_result. replace (buffers _) with true by (symmetry; exact Hb). cbn [ar_spec ar_st ar_seen ar_rows ar_limit newAggRunner app].
    set (l := if bool_decide (as_orderBy spec = []) then _ else _). destruct (Z.leb_spec 0 limit); [|done]. cbn [andb]. destruct (Z.ltb_spec limit (Z.of_nat (length l))); [done|]. by rewrite take_ge by lia.
  - destruct (run_direct spec rows (newAggRunner spec limit) eq_refl Hb Hp) as [E1 E2]. unfold buffers in Hb. apply orb_false_iff in Hb as [Hb1%negb_false_iff Hb2]. cbn [ar_spec ar_limit newAggRunner] in Hb1, Hb2. rewrite Hb1, Hb2.
    cbn [ar_st ar_seen newAggRunner] in E1. rewrite <- E1. destruct (run_rows _ rows) as [r'| |] eqn:E; cbn [mbind outcome_bind]; try done.
    destruct (E2 r' eq_refl) as [Hs Hl]. cbn [ar_limit newAggRunner] in Hl. unfold runner_result, buffers. by rewrite Hs, Hl, Hb1, Hb2.
Qed.

(** ** What the accumulators compute *)

Lemma foldM_snoc {A B : Type} (f : B -> A -> outcome B) b l a : foldM f b (l ++ [a]) = (b' ← foldM f b l; f b' a).
Proof. rewrite foldM_app. destruct (foldM f b l) as [b'| |]; cbn; [|done|done]. by destruct (f b' a). Qed.

Definition intOf (v : value) : Z := match v with VInt n => n | _ => 0 end.
Definition sumOf (vs : list value) : Z := foldr (fun v acc => intOf v + acc) 0 vs.

(** SUM of integers: the exact sum, as long as the partial sums fit. *)
Lemma sum_spec vs : Forall (fun v => has_type v TInt64 = true) vs ->
  foldM (fun st v => agg_add st [v]) (sumState true false 0 (S754_zero false)) vs =
  if forallb (fun k => is_int64b (sumOf (take k vs))) (seq 0 (S (length vs)))
  then Ret (sumState true (existsb (fun v => negb (isNull v)) vs) (sumOf vs) (S754_zero false)) else Err OutOfRange.
Proof.
  intros Hvs. induction vs as [|v vs IH] using rev_ind; [done|]. apply Forall_app in Hvs as [Hvs Hv]. apply Forall_cons in Hv as [Hv _]. rewrite foldM_snoc, (IH Hvs). rewrite length_app, Nat.add_1_r, (seq_S (S (length vs))), forallb_app.
  assert (forallb (fun k => is_int64b (sumOf (take k (vs ++ [v])))) (seq 0 (S (length vs))) = forallb (fun k => is_int64b (sumOf (take k vs))) (seq 0 (S (length vs)))) as ->.
  { apply Bool.eq_true_iff_eq. rewrite !forallb_forall. split; intros Hk k Hin; specialize (Hk k Hin); apply in_seq in Hin; by rewrite take_app_le in * by lia. }
  assert (forall a b, sumOf (a ++ b) = sumOf a + sumOf b) as Happ by (intros a b; unfold sumOf; induction a as [|x a IHa]; cbn in *; lia).
  destruct (forallb _ _) eqn:Ep; cbn [mbind outcome_bind andb]; [|done]. cbn [forallb]. rewrite Nat.add_0_l, (take_ge (vs ++ [v])) by (rewrite length_app; cbn; lia). rewrite Happ. cbn [sumOf foldr]. rewrite Z.add_0_r, andb_true_r.
  rewrite forallb_forall in Ep. assert (is_int64b (sumOf vs) = true) as Hs by (specialize (Ep (length vs)); rewrite take_ge in Ep by lia; apply Ep, in_seq; lia).
  rewrite existsb_app. cbn [existsb]. destruct v; try done; cbn [intOf isNull negb agg_add]; unfold sumState_add; cbn [isNull].
  - rewrite Z.add_0_r, Hs. by rewrite !orb_false_r.
  - cbn in Hv. apply is_int64b_spec in Hv, Hs. rewrite addInt64_exact by done. unfold exact64. destruct (is_int64b (sumOf vs + n)) eqn:E.
    + apply is_int64b_spec in E. rewrite bool_decide_eq_true_2 by done. cbn. by rewrite orb_true_r.
    + rewrite bool_decide_eq_false_2; [done|]. intros Hi%is_int64b_spec. congruence.
Qed.

(** MIN and MAX: the bound of the values that are not NULL, and NaN when one is NaN. *)
Definition bound_of (max : bool) (vs : list value) (m : value) : Prop :=
  match m with
  | VNull => Forall (fun v => isNull v = true \/ isNaNValue v = true) vs
  | _ => m ∈ vs /\ isNaNValue m = false /\ Forall (fun v => isNull v = true \/ isNaNValue v = true \/ (if max then cmpKeys v m <= 0 else cmpKeys m v <= 0)) vs
  end.
Lemma cmpKeys_ok t : cmp_ok (fun v => has_type v t = true) cmpKeys.
Proof.
  destruct cmpBytes_ok as [Hanti Htrans]. split.
  - intros a b Ha Hb. rewrite !(cmpKeys_okey _ _ t) by done. by apply Hanti.
  - intros a b c Ha Hb Hc. rewrite !(cmpKeys_okey _ _ t) by done. by apply Htrans.
Qed.
Lemma bound_skip max vs m v : bound_of max vs m -> isNull v = true \/ isNaNValue v = true -> bound_of max (vs ++ [v]) m.
Proof.
  intros Hb Hv. destruct m; cbn in *; [apply Forall_app; split; [done|by constructor]|..].
  all: destruct Hb as (Hin & Hn & Hall); (split_and!; [apply elem_of_app; by left|done|apply Forall_app; split; [done|constructor; [tauto|done]]]).
Qed.
(** The next value against the bound so far. *)
Lemma bound_next max t vs m v : Forall (fun v => has_type v t = true) vs -> has_type m t = true -> has_type v t = true -> isNull v = false -> isNaNValue v = false -> isNull m = false -> bound_of max vs m ->
  bound_of max (vs ++ [v]) (if (max && (0 <? cmpKeys v m)) || (negb max && (cmpKeys v m <? 0)) then v else m).
Proof.
  intros Hvs Hm Hv Hn Hnan Hmn Hb. destruct (cmpKeys_ok t) as [Hanti Htrans]. assert (forall w, isNull w = false -> bound_of max (vs ++ [v]) w <-> w ∈ vs ++ [v] /\ isNaNValue w = false /\ Forall (fun v => isNull v = true \/ isNaNValue v = true \/ (if max then cmpKeys v w <= 0 else cmpKeys w v <= 0)) (vs ++ [v])) as Hbw by (by intros []).
  assert (m ∈ vs /\ isNaNValue m = false /\ Forall (fun v => isNull v = true \/ isNaNValue v = true \/ (if max then cmpKeys v m <= 0 else cmpKeys m v <= 0)) vs) as (Hin & Hmnan & Hall) by (by destruct m).
  assert (cmpKeys v v = 0) as Hvv by (pose proof (Hanti v v Hv Hv); lia). pose proof (Hanti v m Hv Hm) as Hvm.
  destruct (_ || _) eqn:E; apply Hbw; try done.
  - split_and!; [apply elem_of_app; right; by apply list_elem_of_singleton|done|]. apply Forall_app. split; [|constructor; [right; right; destruct max; lia|done]].
    apply list.Forall_forall. intros w Hw. rewrite list.Forall_forall in Hall, Hvs. specialize (Hall w Hw) as [?|[?|Hw']]; [tauto|tauto|]. right. right. specialize (Hvs w Hw).
    destruct max; cbn in E; [apply (Htrans w m v); [done|done|done|lia|]|apply (Htrans v m w); [done|done|done| |done]]; lia.
  - split_and!; [apply elem_of_app; by left|done|]. apply Forall_app. split; [done|]. constructor; [|done]. right. right. destruct max; cbn in E; lia.
Qed.
Lemma minmax_spec max t vs : Forall (fun v => has_type v t = true) vs ->
  exists m, foldM (fun st v => agg_add st [v]) (minMaxState max VNull false) vs = Ret (minMaxState max m (existsb isNaNValue vs)) /\ has_type m t = true /\ bound_of max vs m.
Proof.
  intros Hvs. induction vs as [|v vs IH] using rev_ind; [exists VNull; split_and!; [done|by destruct t|constructor]|]. apply Forall_app in Hvs as [Hvs Hv]. apply Forall_cons in Hv as [Hv _].
  destruct (IH Hvs) as (m & Em & Hm & Hb). rewrite foldM_snoc, Em. cbn [mbind outcome_bind agg_add]. unfold minMaxState_add. rewrite existsb_app. cbn [existsb]. rewrite orb_false_r.
  destruct (isNull v) eqn:Hn.
  { exists m. split_and!; [|done|apply bound_skip; auto]. destruct v; try done. cbn. by rewrite orb_false_r. }
  destruct (isNaNValue v) eqn:Hnan; [exists m; split_and!; [by rewrite orb_true_r|done|apply bound_skip; auto]|]. rewrite orb_false_r. destruct (isNull m) eqn:Hmn.
  - exists v. split_and!; [done|done|]. destruct m; try done. cbn in Hb. assert (cmpKeys v v <= 0) as Hvv by (destruct (cmpKeys_ok t) as [Hanti _]; pose proof (Hanti v v Hv Hv); lia).
    assert (v ∈ vs ++ [v] /\ isNaNValue v = false /\ Forall (fun w => isNull w = true \/ isNaNValue w = true \/ (if max then cmpKeys w v <= 0 else cmpKeys v w <= 0)) (vs ++ [v])) as Hgoal; [|destruct v; [discriminate Hn|exact Hgoal..]].
    split_and!; [apply elem_of_app; right; by apply list_elem_of_singleton|done|]. apply Forall_app. split; [eapply Forall_impl; [exact Hb|]; cbn; tauto|]. constructor; [|done]. right. right. by destruct max.
  - destruct (compare_typed v m t Hv Hm) as [c Ec]. rewrite Ec. cbn [mbind outcome_bind]. assert (cmpKeys v m = c) as Ek by (unfold cmpKeys; by rewrite Ec). rewrite <- Ek.
    eexists. split; [reflexivity|]. split; [by destruct (_ || _)|by apply (bound_next max t)].
Qed.

Lemma passed_sub spec seen rows r : r ∈ passed spec seen rows -> r ∈ rows.
Proof.
  assert (forall l s, r ∈ firstOf s l -> r ∈ l) as Hfirst.
  { intros l. induction l as [|[args keys] l IH]; intros s; cbn [firstOf]; [done|]. destruct args as [|v args]; [intros Hr; right; by apply (IH s)|].
    destruct (bool_decide _); [intros Hr; right; by apply (IH s)|]. intros [->|Hr]%elem_of_cons; [left|right; by eapply IH]. }
  unfold passed. intros Hr. assert (r ∈ List.filter (fun r => negb ((as_ignoreNulls spec || as_distinct spec) && firstNull r.1)) rows) as Hin by (destruct (as_distinct spec); [by eapply Hfirst|done]).
  apply list_elem_of_In, filter_In in Hin as [Hin _]. by apply list_elem_of_In.
Qed.
Lemma sorted_take {A : Type} (R : A -> A -> Prop) n l : StronglySorted R l -> StronglySorted R (take n l).
Proof. intros Hl. rewrite <- (take_drop n l) in Hl. by apply StronglySorted_app in Hl as (_ & ? & _). Qed.

(** The result of an accumulator over a list of values. *)
Definition accumulated `{Estimator} (st : aggState) (vs : list value) : outcome value := s ← foldM (fun st v => agg_add st [v]) st vs; Ret (agg_result s).

(** C30: An aggregate call with DISTINCT, IGNORE NULLS, ORDER BY and LIMIT accumulates
    exactly the rows these clauses select: without NULLs where they are left out, the
    first row of each distinct argument, sorted by the ORDER BY keys, and at most LIMIT
    of them.  SUM over INT64 values returns the exact sum, NULL when no value is other than
    NULL, and an overflow error when a partial sum does not fit; MIN and MAX return NaN
    when a value is NaN, and otherwise a least or greatest of the values that are not NULL,
    or NULL when there is none. *)
Theorem aggregate_calls `{Estimator} (spec : aggSpec) (limit : Z) (rows : list (list value * list value)) (vs : list value) (t : sqlType) (max : bool) :
  args_present spec rows -> Forall (fun r => keys_ok (as_orderBy spec) r.2) rows -> Forall (fun v => has_type v t = true) vs ->
  (r ← run_rows (newAggRunner spec limit) rows; runner_result r) =
    (st ← foldM (fun st row => agg_add st row.1) (as_newState spec) (selected spec limit rows); Ret (agg_result st)) /\
  StronglySorted (fun a b => orderCmp (as_orderBy spec) a.2 b.2 <= 0) (selected spec limit rows) /\
  (t = TInt64 -> accumulated (sumState true false 0 (S754_zero false)) vs =
    if forallb (fun k => is_int64b (sumOf (take k vs))) (seq 0 (S (length vs)))
    then Ret (if forallb isNull vs then VNull else VInt (sumOf vs)) else Err OutOfRange) /\
  exists m, accumulated (minMaxState max VNull false) vs = Ret m /\
    if existsb isNaNValue vs then m = VFloat S754_nan else bound_of max vs m.
Proof.
  intros Hp Hk Hvs. split_and!; [by apply runner_selects| |intros ->|].
  2: { unfold accumulated. rewrite sum_spec by done. destruct (forallb _ (seq _ _)); [|done]. cbn. unfold sumState_result. assert (forallb isNull vs = negb (existsb (fun v => negb (isNull v)) vs)) as ->; [|by destruct (existsb _ vs)].
    clear. induction vs as [|v vs IH]; [done|]. cbn. rewrite IH, negb_orb. by rewrite negb_involutive. }
  2: { unfold accumulated. destruct (minmax_spec max t vs Hvs) as (m & -> & _ & Hb). cbn. unfold minMaxState_result. eexists. split; [done|]. by destruct (existsb isNaNValue vs). }
  rewrite selected_passed. cbv zeta. assert (Forall (fun r => keys_ok (as_orderBy spec) r.2) (passed spec [] rows)) as Hpk.
  { apply list.Forall_forall. intros r Hr%passed_sub. rewrite list.Forall_forall in Hk. by apply Hk. }
  set (l := if bool_decide _ then _ else _). assert (StronglySorted (fun a b => orderCmp (as_orderBy spec) a.2 b.2 <= 0) l) as Hl; [|destruct (0 <=? limit); [by apply sorted_take|done]].
  subst l. destruct (bool_decide (as_orderBy spec = [])) eqn:Eo; [|by apply sortRows_spec]. apply bool_decide_eq_true in Eo. rewrite Eo. clear. induction (passed spec [] rows); constructor; [done|]. by apply list.Forall_forall.
Qed.

Definition demoSpec : aggSpec :=
  mkSpec (str "ARRAY_AGG") [constExpr VNull TInt64 litNone] false true true [mkOrder (constExpr VNull TInt64 litNone) true false] None (TArray TInt64) (arrayAggState [] false false).
#[local] Instance noEstimate : Estimator := {| Estimate := fun _ => 0; Estimate_int64 := fun _ => proj1 (is_int64b_spec 0) eq_refl |}.
(** [ARRAY_AGG(DISTINCT x IGNORE NULLS ORDER BY x DESC LIMIT 2)] over 1, NULL, 3, 1, 2. *)
Lemma aggregate_calls_witness :
  (r ← run_rows (newAggRunner demoSpec 2) ((fun v => ([v], [v])) <$> [VInt 1; VNull; VInt 3; VInt 1; VInt 2]); runner_result r) = Ret (VArray [VInt 3; VInt 2]).
Proof.
  destruct (aggregate_calls demoSpec 2 ((fun v => ([v], [v])) <$> [VInt 1; VNull; VInt 3; VInt 1; VInt 2]) [VInt 1] TInt64 false) as (E & _).
  - intros _. repeat constructor; discriminate.
  - repeat constructor.
  - repeat constructor.
  - rewrite E. vm_compute. reflexivity.
Defined.
