(* ===== verification/Sources.v ===== *)
(** * Rows of a table as SQL values

    The base-table source of [internal/gsql/source.go]: the temporal arguments of a table,
    which rows they leave visible, and the columns of a row, the maps of its column
    families above all. *)

From S2P Require Import Prelude Proto Rows Server Tokens KeyCodec KeySchema SqlValues SqlArith Like SqlOps Bexpr Pushdown Aggregates.
From stdpp Require Import base list gmap sorting.
From Stdlib Require Import ZArith Lia Sorted.

#[local] Open Scope Z_scope.

(** [Cell], [Row], [Family] and [Table] of [api.go]. *)
Record sqlCell : Type := mkSqlCell { TimestampMicros : Z; CellValue : bytes }.
Record sqlRow : Type := mkSqlRow { RowKey : bytes; RowFamilies : gmap bytes (gmap bytes (list sqlCell)) }.
Inductive FamilyKind : Type := FamilyBytes | FamilyInt64Aggregate | FamilyHLLAggregate.
Record sqlFamily : Type := mkSqlFamily { FamilyName : bytes; Kind : FamilyKind }.
Record sqlTable : Type := mkSqlTable { TableName : bytes; TableFamilies : list sqlFamily; RowKeySchema : option Type_Struct }.

Record temporalSpec : Type := mkTemporal {
  tp_withHistory : bool;
  tp_asOf : option bexpr;
  tp_after : option bexpr;
  tp_afterEq : option bexpr;
  tp_before : option bexpr;
  tp_latestN : option bexpr;
}.
(** A bound is [None] where its [has] flag is unset; [tf_latestN] is 0 without a limit. *)
Record temporalFilter : Type := mkTf {
  tf_withHistory : bool;
  tf_asOf : option Z;
  tf_after : option Z;
  tf_afterEq : option Z;
  tf_before : option Z;
  tf_latestN : Z;
}.

Definition pass (f : temporalFilter) (ts : Z) : bool :=
  if match tf_asOf f with Some x => x <? ts | None => false end then false
  else if match tf_after f with Some x => ts <=? x | None => false end then false
  else if match tf_afterEq f with Some x => ts <? x | None => false end then false
  else if match tf_before f with Some x => x <=? ts | None => false end then false
  else true.

(** [tsArg] of [temporalSpec.eval]. *)
Definition tsArg (e : option bexpr) (ec : evalCtx) : outcome (option Z) :=
  match e with
  | None => Ret None
  | Some e => v ← eval e ec; match v with VNull => Err InvalidArgument | VTs n => Ret (Some n) | _ => Panic end
  end.
Definition temporal_eval (s : temporalSpec) (ec : evalCtx) : outcome temporalFilter :=
  asOf ← tsArg (tp_asOf s) (at_pos 0 ec);
  after ← tsArg (tp_after s) (at_pos 1 ec);
  afterEq ← tsArg (tp_afterEq s) (at_pos 2 ec);
  before ← tsArg (tp_before s) (at_pos 3 ec);
  latestN ← match tp_latestN s with
            | None => Ret 0
            | Some e => v ← eval e (at_pos 4 ec); match v with VNull => Err InvalidArgument | VInt n => if n <? 1 then Err InvalidArgument else Ret n | _ => Panic end
            end;
  Ret (mkTf (tp_withHistory s) asOf after afterEq before latestN).

Record tableSource : Type := mkTableSource { ts_table : sqlTable; ts_famStart : nat; ts_temporal : temporalSpec }.

Definition familyValueType (k : FamilyKind) : sqlType := match k with FamilyInt64Aggregate => TInt64 | _ => TBytes end.
Definition historyCellType (v : sqlType) : sqlType := TStruct [(str "timestamp", TTimestamp); (str "value", v)].
Definition familyType (withHistory : bool) (k : FamilyKind) : sqlType :=
  TMap TBytes (if withHistory then TArray (historyCellType (familyValueType k)) else familyValueType k).

(** The cells of a family, by qualifier; a missing family has none. *)
Definition qualifiers (row : sqlRow) (fam : bytes) : gmap bytes (list sqlCell) := default ∅ (RowFamilies row !! fam).

Definition visible (t : sqlTable) (row : sqlRow) (tf : temporalFilter) : bool :=
  existsb (fun fam => existsb (fun qc => existsb (fun c => pass tf (TimestampMicros c)) qc.2) (map_to_list (qualifiers row (FamilyName fam)))) (TableFamilies t).

Definition cellValue (kind : FamilyKind) (b : bytes) : value :=
  match kind with FamilyInt64Aggregate => if negb (Nat.eqb (length b) 8) then VNull else VInt (be64_int64 b) | _ => VBytes b end.

(** The value of a qualifier: its history, or its newest cell that passes. *)
Definition qualifierValue (kind : FamilyKind) (cells : list sqlCell) (tf : temporalFilter) : option value :=
  if tf_withHistory tf then
    let hist := (fun c => VStruct [VTs (TimestampMicros c); cellValue kind (CellValue c)]) <$> List.filter (fun c => pass tf (TimestampMicros c)) cells in
    let hist := if 0 <? tf_latestN tf then take (Z.to_nat (tf_latestN tf)) hist else hist in
    match hist with [] => None | _ => Some (VArray hist) end
  else (fun c => cellValue kind (CellValue c)) <$> List.find (fun c => pass tf (TimestampMicros c)) cells.
Definition buildFamilyValue (kind : FamilyKind) (quals : gmap bytes (list sqlCell)) (tf : temporalFilter) : value :=
  let names := sort_strings (fst <$> map_to_list quals) in
  let entries := omap (fun q => (fun v => (VBytes q, v)) <$> qualifierValue kind (default [] (quals !! q)) tf) names in
  match entries with [] => VNull | _ => VMap entries end.

(** A field of a structured row key as a value. *)
Definition keyFieldValue (v : keyValue) : value :=
  match v with KV_Nil => VNull | KV_Bytes b => VBytes b | KV_String s => VString s | KV_Int64 n => VInt n | KV_Timestamp us => VTs us end.

(** [baseRow.column]: the key, the fields of the key, the families. *)
Definition baseRow_column (s : tableSource) (tf : temporalFilter) (row : sqlRow) (i : nat) : outcome value :=
  if Nat.leb (ts_famStart s + length (TableFamilies (ts_table s))) i then Panic
  else if Nat.eqb i 0 then Ret (VBytes (RowKey row))
  else if Nat.ltb i (ts_famStart s) then
    match RowKeySchema (ts_table s) with
    | None => Panic
    | Some schema =>
        vals ← decodeKeyInternal schema (RowKey row);
        match vals !! (i - 1)%nat with Some v => Ret (keyFieldValue v) | None => Panic end
    end
  else
    match TableFamilies (ts_table s) !! (i - ts_famStart s)%nat with
    | Some fam => Ret (buildFamilyValue (Kind fam) (qualifiers row (FamilyName fam)) tf)
    | None => Panic
    end.

(** [Catalog.Scan]: the rows of the range in key order; an empty end is no bound. *)
Definition catScan (rows : list sqlRow) (r : Pushdown.keyRange) : list sqlRow :=
  List.filter (fun row => bytes_leb (kr_start r) (RowKey row) && match kr_end r with None | Some [] => true | Some e => bytes_ltb (RowKey row) e end) rows.

(** ** A family is the map of its newest cells *)

Lemma names_sorted (quals : gmap bytes (list sqlCell)) : StronglySorted (fun x y => bytes_ltb x y = true) (sort_strings (fst <$> map_to_list quals)).
Proof.
  pose proof (sort_strings_sorted (fst <$> map_to_list quals)) as Hs. pose proof (NoDup_fst_map_to_list quals) as Hn. rewrite <- sort_strings_perm in Hn.
  induction Hs as [|x l Hl IH Hx]; [constructor|]. apply NoDup_cons in Hn as [Hx' Hn]. constructor; [by apply IH|]. rewrite list.Forall_forall in *. intros y Hy. specialize (Hx y Hy). apply bytes_leb_cases in Hx as [?| ->]; [done|]. by destruct Hx'.
Qed.
Lemma elem_of_names (quals : gmap bytes (list sqlCell)) q : q ∈ sort_strings (fst <$> map_to_list quals) <-> is_Some (quals !! q).
Proof.
  rewrite elem_of_sort_strings, list_elem_of_fmap. split.
  - intros ([q' c] & -> & Hin). apply elem_of_map_to_list in Hin. by exists c.
  - intros [c Hc]. exists (q, c). split; [done|]. by apply elem_of_map_to_list.
Qed.

(** Bytes as an order key. *)
Lemma okey_bytes_lt x y : bytesb x = true -> bytesb y = true -> bytes_ltb x y = true -> bytes_ltb (okey (VBytes x)) (okey (VBytes y)) = true.
Proof.
  intros Hx Hy Hlt. pose proof (cmpKeys_okey (VBytes x) (VBytes y) TBytes Hx Hy) as E. unfold cmpKeys in E. cbn [compareValues] in E. unfold cmpBytes in E. rewrite Hlt in E.
  destruct (bytes_ltb (okey (VBytes x)) (okey (VBytes y))) eqn:E1; [done|]. by destruct (bytes_ltb (okey (VBytes y)) _).
Qed.

(** The cells of a row: keys, qualifiers and values are bytes and timestamps supported. *)
Definition row_bytes (row : sqlRow) : Prop :=
  all_bytes (RowKey row) /\
  forall fam quals q cells, RowFamilies row !! fam = Some quals -> quals !! q = Some cells ->
    all_bytes q /\ Forall (fun c => all_bytes (CellValue c) /\ is_int64 (TimestampMicros c)) cells.

Section family.
Context (kind : FamilyKind) (quals : gmap bytes (list sqlCell)) (tf : temporalFilter).
Context (Hbytes : forall q cells, quals !! q = Some cells -> all_bytes q).

Definition entry_of (q : bytes) : option (value * value) := (fun v => (VBytes q, v)) <$> qualifierValue kind (default [] (quals !! q)) tf.
Definition entries_of (names : list bytes) : list (value * value) := omap entry_of names.

Lemma entries_sorted names : StronglySorted (fun x y => bytes_ltb x y = true) names -> Forall all_bytes names -> keyed TBytes (entries_of names) /\ StronglySorted lt_okey (entries_of names).
Proof.
  induction 1 as [|q names Hs IH Hq]; intros Hb; [split; constructor|]. apply Forall_cons in Hb as [Hbq Hb]. destruct (IH Hb) as [Hk Hso]. unfold entries_of in *. cbn [omap list_omap]. destruct (entry_of q) as [[k v]|] eqn:Eq; [|done]. unfold entry_of in Eq. destruct (qualifierValue kind _ tf); [|done]. injection Eq as <- <-.
  split; [constructor; [cbn; by apply bytesb_all|done]|]. constructor; [done|]. apply list.Forall_forall. intros [k w] Hin. apply list_elem_of_omap in Hin as (q' & Hq' & E). unfold entry_of in E. destruct (qualifierValue kind _ tf); [|done]. injection E as <- <-.
  rewrite list.Forall_forall in Hq, Hb. apply okey_bytes_lt; [by apply bytesb_all|apply bytesb_all; by apply Hb|by apply Hq].
Qed.
(** Subscripting the family by a qualifier is its value. *)
Lemma entries_lookup names q : StronglySorted (fun x y => bytes_ltb x y = true) names -> Forall all_bytes names -> all_bytes q ->
  mapLookup (entries_of names) (VBytes q) = if decide (q ∈ names) then qualifierValue kind (default [] (quals !! q)) tf else None.
Proof.
  intros Hs Hb Hq. destruct (entries_sorted names Hs Hb) as [Hk Hso]. rewrite (mapLookup_sorted TBytes) by (done || by apply bytesb_all). unfold last_value, at_key.
  assert (forall l, StronglySorted (fun x y => bytes_ltb x y = true) l -> Forall all_bytes l ->
    filter (fun kv : value * value => okey kv.1 = okey (VBytes q)) (entries_of l) = if decide (q ∈ l) then option_list (entry_of q) else []) as Hf.
  { induction 1 as [|x l Hl IH Hx]; intros Hbl; [done|]. apply Forall_cons in Hbl as [Hbx Hbl]. specialize (IH Hbl). unfold entries_of in *. cbn [omap list_omap].
    assert (forall y, all_bytes y -> okey (VBytes y) = okey (VBytes q) <-> y = q) as Hinj.
    { intros y Hy. split; [|by intros ->]. intros E. pose proof (cmpKeys_okey (VBytes y) (VBytes q) TBytes ltac:(by apply bytesb_all) ltac:(by apply bytesb_all)) as Ec. unfold cmpKeys in Ec. cbn [compareValues] in Ec. rewrite E in Ec.
      rewrite (proj2 (cmpBytes_zero (okey (VBytes q)) (okey (VBytes q)))) in Ec by done. by apply cmpBytes_zero. }
    destruct (decide (x = q)) as [->|Hne].
    - rewrite decide_True by left. assert (q ∉ l) as Hnin by (intros Hin; rewrite list.Forall_forall in Hx; specialize (Hx q Hin); by rewrite bytes_ltb_irrefl in Hx). rewrite decide_False in IH by done.
      unfold entry_of at 1. destruct (qualifierValue kind (default [] (quals !! q)) tf) as [v|] eqn:Ev; cbn [fmap option_fmap option_map]; [|rewrite IH; unfold entry_of; by rewrite Ev].
      rewrite filter_cons, IH. cbn [fst]. rewrite decide_True by done. unfold entry_of. by rewrite Ev.
    - assert (filter (fun kv : value * value => okey kv.1 = okey (VBytes q)) (match entry_of x with Some y => y :: omap entry_of l | None => omap entry_of l end) = if decide (q ∈ l) then option_list (entry_of q) else []) as ->.
      { destruct (entry_of x) as [[k v]|] eqn:Ex; [|done]. rewrite filter_cons, IH. unfold entry_of in Ex. destruct (qualifierValue kind _ tf); [|done]. injection Ex as <- <-. cbn [fst]. rewrite decide_False; [done|]. by rewrite Hinj. }
      destruct (decide (q ∈ l)); [rewrite decide_True by (by right); done|]. rewrite decide_False; [done|]. by intros [?|?]%elem_of_cons. }
  rewrite Hf by done. destruct (decide (q ∈ names)); [|done]. unfold entry_of. by destruct (qualifierValue kind _ tf).
Qed.
End family.

Lemma buildFamilyValue_entries kind quals tf : buildFamilyValue kind quals tf = match entries_of kind quals tf (sort_strings (fst <$> map_to_list quals)) with [] => VNull | e => VMap e end.
Proof. unfold buildFamilyValue, entries_of, entry_of. cbv zeta. by destruct (omap _ _). Qed.
Lemma names_bytes (quals : gmap bytes (list sqlCell)) : (forall q cells, quals !! q = Some cells -> all_bytes q) -> Forall all_bytes (sort_strings (fst <$> map_to_list quals)).
Proof. intros Hb. apply list.Forall_forall. intros q [c Hc]%elem_of_names. by eapply Hb. Qed.

(** [family['q']], the subscript of a family by a qualifier, finds the value of the column
    [q] in the map that the source builds, and NULL when the column has none. *)
Lemma family_subscript (kind : FamilyKind) (quals : gmap bytes (list sqlCell)) (tf : temporalFilter) (q : bytes) :
  (forall q' cells, quals !! q' = Some cells -> all_bytes q') -> all_bytes q ->
  let v := buildFamilyValue kind quals tf in
  (if isNull v then Ret VNull else mapAtFn false [v; VBytes q]) = Ret (default VNull (qualifierValue kind (default [] (quals !! q)) tf)).
Proof.
  intros Hb Hq. cbv zeta. pose proof (entries_lookup kind quals tf _ q (names_sorted quals) (names_bytes quals Hb) Hq) as Hl. rewrite buildFamilyValue_entries.
  assert ((if decide (q ∈ sort_strings (fst <$> map_to_list quals)) then qualifierValue kind (default [] (quals !! q)) tf else None) = qualifierValue kind (default [] (quals !! q)) tf) as Ed.
  { destruct (decide _) as [_|Hn]; [done|]. rewrite elem_of_names in Hn. apply eq_None_not_Some in Hn. rewrite Hn. unfold qualifierValue. cbn. destruct (tf_withHistory tf); [|done]. destruct (0 <? tf_latestN tf); [by rewrite take_nil|done]. }
  rewrite Ed in Hl. clear Ed. rewrite <- Hl. clear Hl. destruct (entries_of _ _ _ _) as [|e l]; [done|]. cbn [isNull mapAtFn]. by destruct (mapLookup (e :: l) (VBytes q)).
Qed.

(** ** Columns are typed *)

Definition cells_ok (cells : list sqlCell) : Prop := Forall (fun c => all_bytes (CellValue c) /\ is_int64 (TimestampMicros c)) cells.

Lemma cellValue_typed kind b : all_bytes b -> has_type (cellValue kind b) (familyValueType kind) = true.
Proof.
  intros Hb. destruct kind; cbn; [by apply bytesb_all| |by apply bytesb_all]. destruct (negb _); [done|]. cbn. apply is_int64b_spec. apply wrap64_int64.
Qed.
Lemma qualifierValue_typed kind cells tf v : cells_ok cells -> qualifierValue kind cells tf = Some v ->
  has_type v (if tf_withHistory tf then TArray (historyCellType (familyValueType kind)) else familyValueType kind) = true.
Proof.
  intros Hc. unfold qualifierValue. destruct (tf_withHistory tf).
  - set (hist := _ <$> _). assert (Forall (fun v => has_type v (historyCellType (familyValueType kind)) = true) hist) as Hh.
    { subst hist. apply Forall_fmap, list.Forall_forall. intros c Hin. apply list_elem_of_In, filter_In in Hin as [Hin _]. unfold cells_ok in Hc; rewrite list.Forall_forall in Hc. destruct (Hc c) as [Hb Ht]; [by apply list_elem_of_In|].
      unfold compose. unfold historyCellType. rewrite has_type_struct. cbn [fields_typed snd]. rewrite cellValue_typed by done. cbn. by rewrite (proj2 (is_int64b_spec _) Ht). }
    assert (Forall (fun v => has_type v (historyCellType (familyValueType kind)) = true) (if 0 <? tf_latestN tf then take (Z.to_nat (tf_latestN tf)) hist else hist)) as Hh' by (destruct (0 <? _); [by apply Forall_take|done]).
    destruct (if 0 <? tf_latestN tf then _ else _) as [|e l]; [done|]. intros [= <-]. change (forallb (fun v => has_type v (historyCellType (familyValueType kind))) (e :: l) = true). rewrite forallb_forall. intros x Hx%list_elem_of_In. rewrite list.Forall_forall in Hh'. by apply Hh'.
  - destruct (List.find _ cells) as [c|] eqn:E; [|done]. intros [= <-]. apply find_some in E as [Hin _]. unfold cells_ok in Hc; rewrite list.Forall_forall in Hc. apply cellValue_typed, (Hc c). by apply list_elem_of_In.
Qed.
Lemma buildFamilyValue_typed kind quals tf : (forall q cells, quals !! q = Some cells -> all_bytes q /\ cells_ok cells) -> has_type (buildFamilyValue kind quals tf) (familyType (tf_withHistory tf) kind) = true.
Proof.
  intros Hb. rewrite buildFamilyValue_entries. destruct (entries_of _ _ _ _) as [|e l] eqn:E; [done|]. rewrite <- E. unfold familyType. cbn [has_type]. rewrite forallb_forall. intros kv Hin%list_elem_of_In. apply list_elem_of_omap in Hin as (q & Hq & Ek). apply elem_of_names in Hq as [cells Hq].
  destruct (Hb q cells Hq) as [Hbq Hc]. unfold entry_of in Ek. rewrite Hq in Ek. cbn in Ek. destruct (qualifierValue kind cells tf) as [v|] eqn:Ev; [|done]. injection Ek as <-. cbn [fst snd has_type]. rewrite (qualifierValue_typed kind cells tf v Hc Ev), andb_true_r. by apply bytesb_all.
Qed.

(** The column types of a table without a key schema. *)
Definition tableCols (t : sqlTable) (withHistory : bool) : list sqlType := TBytes :: ((fun f => familyType withHistory (Kind f)) <$> TableFamilies t).
Lemma baseRow_typed s tf row i t : ts_famStart s = 1%nat -> row_bytes row -> tableCols (ts_table s) (tf_withHistory tf) !! i = Some t -> yields (baseRow_column s tf row i) t.
Proof.
  intros Hf [Hk Hrow] Ht. unfold baseRow_column. rewrite Hf. pose proof (lookup_lt_Some _ _ _ Ht) as Hlt. cbn in Hlt. rewrite length_fmap in Hlt.
  destruct (Nat.leb_spec (1 + length (TableFamilies (ts_table s))) i); [lia|]. destruct i as [|i]; [cbn in Ht |- *; injection Ht as <-; by apply bytesb_all|]. cbn [Nat.eqb Nat.ltb Nat.leb]. rewrite Nat.sub_1_r. cbn [Nat.pred].
  cbn in Ht. apply list_lookup_fmap_Some in Ht as (fam & -> & Hfam). rewrite Hfam. cbn [yields]. apply buildFamilyValue_typed. intros q cells Hq. unfold qualifiers in Hq. destruct (RowFamilies row !! FamilyName fam) as [quals|] eqn:Eq; cbn in Hq; [|done].
  destruct (Hrow _ _ _ _ Eq Hq) as [? ?]. by split.
Qed.
