(* ===== verification/Exec.v ===== *)
(** * Query execution

    [internal/gsql/exec.go] and the derived sources of [source.go]: scanning, WHERE,
    grouping, HAVING, projection, DISTINCT, ORDER BY, OFFSET and LIMIT.

    The code streams rows through callbacks that may stop the scan.  A callback is a
    function from a state and a row to a state and whether more rows are wanted;
    [errStopScan] is the answer that none are.  The context of a query is not
    cancelled.  [rows_of] and [results_of] are the reference: the lists of rows of a
    source and of a query, with no streaming and no early stop. *)

From S2P Require Import Prelude Proto Rows Server Tokens KeyCodec KeySchema SqlValues SqlArith Like SqlOps Bexpr Pushdown Hll Aggregates Sources.
From stdpp Require Import base list gmap sorting.
From Stdlib Require Import ZArith Lia Sorted SpecFloat.

#[local] Open Scope Z_scope.

(** ** Streams *)

(** Feeding rows to a consumer until it stops or fails. *)
Fixpoint feed {A S : Type} (f : S -> A -> outcome (S * bool)) (s : S) (l : list A) : outcome (S * bool) :=
  match l with
  | [] => Ret (s, true)
  | x :: l' => '(s, more) ← f s x; if more : bool then feed f s l' else Ret (s, false)
  end.

(** Items are counted as they arrive. *)
Fixpoint numberFrom {A : Type} (i : nat) (l : list A) : list (nat * A) := match l with [] => [] | x :: l' => (i, x) :: numberFrom (Datatypes.S i) l' end.
Definition counted {A S : Type} (f : S -> nat * A -> outcome (S * bool)) (ns : nat * S) (x : A) : outcome ((nat * S) * bool) :=
  '(s, more) ← f ns.2 (ns.1, x); Ret ((Datatypes.S ns.1, s), more).

(** A row accessor. *)
Abbreviation accessor := (nat -> outcome value).
Definition emptyRow : accessor := fun _ => Err Internal.
Definition valuesRow (vals : list value) : accessor := fun i => match vals !! i with Some v => Ret v | None => Panic end.

(** ** Plans *)

Record mvPlan : Type := mkMv { mv_keyIdx : list nat; mv_tsIdx : option nat; mv_valueIdx : list nat; mv_keySchema : option Type_Struct }.

(** How [UNPACK] treats a column: a map of histories, a history, or unchanged. *)
Inductive unpackKind : Type := UnpackMap | UnpackArray | UnpackNone.

(** A plan but for its source. *)
Record planBody : Type := mkBody {
  qp_keyCol : option nat;
  qp_where : option bexpr;
  qp_aggregated : bool;
  qp_groupKeys : list bexpr;
  qp_aggs : list aggSpec;
  qp_having : option bexpr;
  qp_outExprs : list bexpr;
  qp_distinct : bool;
  qp_order : list orderSpec;
  qp_orderNoop : bool;
  qp_limit : option bexpr;
  qp_offset : option bexpr;
  qp_mv : option mvPlan;
}.
Inductive queryPlan : Type :=
| mkPlan (src : source) (body : planBody)
with source : Type :=
| NoSource
| TableSource (s : tableSource)
| DerivedSource (plan : queryPlan) (ownParams synthKey : bool)
| UnpackSource (plan : queryPlan) (kinds : list unpackKind).

(** [env_rand]: the numbers that RAND draws in the run.  Every evaluation has a position of
    its own: the limits, the constants of the ranges and of the table's arguments, and
    then the evaluations of each row and of each group, which are counted. *)
Record execEnv : Type := mkEnv { env_cat : bytes -> list sqlRow; env_params : list value; env_now : Z; env_noPushdown : bool; env_rand : draws }.

(** ** Materialized views *)

Definition at_val (vals : list value) (i : nat) : outcome value := match vals !! i with Some v => Ret v | None => Panic end.

(** [mvPlan.accept]: the loops over the key and the value columns. *)
Fixpoint noneNull (vals : list value) (idx : list nat) : outcome bool :=
  match idx with [] => Ret true | i :: idx' => v ← at_val vals i; if isNull v then Ret false else noneNull vals idx' end.
Fixpoint someValue (vals : list value) (idx : list nat) : outcome bool :=
  match idx with [] => Ret false | i :: idx' => v ← at_val vals i; if isNull v then someValue vals idx' else Ret true end.
Definition mv_accept (m : mvPlan) (vals : list value) : outcome bool :=
  keys ← noneNull vals (mv_keyIdx m);
  if negb keys then Ret false
  else
    ts ← match mv_tsIdx m with
         | None => Ret true
         | Some i => v ← at_val vals i; Ret match v with VTs ts => negb ((ts <? 0) || negb (Z.rem ts 1000 =? 0)) | _ => false end
         end;
    if negb ts then Ret false else match mv_valueIdx m with [] => Ret true | idx => someValue vals idx end.

(** [mvPlan.less] on the rows of one view. *)
Definition val_at (vals : list value) (i : nat) : value := default VNull (vals !! i).
Fixpoint mv_keyCmp (idx : list nat) (a b : list value) : Z :=
  match idx with [] => 0 | i :: idx' => let c := cmpKeys (val_at a i) (val_at b i) in if negb (c =? 0) then c else mv_keyCmp idx' a b end.
Definition mv_less (m : mvPlan) (a b : list value) : bool :=
  let c := mv_keyCmp (mv_keyIdx m) a b in
  if negb (c =? 0) then c <? 0 else match mv_tsIdx m with Some i => 0 <? cmpKeys (val_at a i) (val_at b i) | None => false end.

Definition toKeyValue (v : value) : keyValue :=
  match v with VBytes b => KV_Bytes b | VString s => KV_String s | VInt n => KV_Int64 n | VTs us => KV_Timestamp us | _ => KV_Nil end.
Definition mv_encodeKey (m : mvPlan) (vals : list value) : outcome bytes :=
  match mv_keySchema m with
  | None =>
      match mv_keyIdx m with
      | [] => Panic
      | i :: _ => v ← at_val vals i; Ret match v with VBytes b => b | _ => [] end
      end
  | Some schema => kv ← collectM (at_val vals) (mv_keyIdx m); encodeKeyInternal schema (toKeyValue <$> kv)
  end.

(** ** The sink *)

Record sink (S : Type) : Type := mkSink {
  sk_seen : list bytes;
  sk_rows : list (list value * list value);
  sk_skipped : Z;
  sk_emitted : Z;
  sk_out : S;
}.
Arguments mkSink {S}.
Arguments sk_seen {S}.
Arguments sk_rows {S}.
Arguments sk_skipped {S}.
Arguments sk_emitted {S}.
Arguments sk_out {S}.

Definition newSink {S : Type} (s : S) : sink S := mkSink [] [] 0 0 s.
Definition sortsOutput (p : planBody) : bool := negb (bool_decide (qp_order p = []) || qp_orderNoop p) || match qp_mv p with Some _ => true | None => false end.

Section exec.
Context {S : Type} (p : planBody) (limit offset : Z) (emit : S -> list value -> outcome (S * bool)).

Definition sink_push (sk : sink S) (vals : list value) : outcome (sink S * bool) :=
  if sk_skipped sk <? offset then Ret (mkSink (sk_seen sk) (sk_rows sk) (sk_skipped sk + 1) (sk_emitted sk) (sk_out sk), true)
  else if (0 <=? limit) && (limit <=? sk_emitted sk) then Ret (sk, false)
  else
    '(s, more) ← emit (sk_out sk) vals;
    let n := sk_emitted sk + 1 in
    Ret (mkSink (sk_seen sk) (sk_rows sk) (sk_skipped sk) n s, more && ((limit <? 0) || (n <? limit))).

Definition rowKey (vals : list value) : bytes := foldl appendValueKey [] vals.
(** Sorting or pushing a row that passed DISTINCT. *)
Definition sink_take (sk : sink S) (vals keys : list value) : outcome (sink S * bool) :=
  if sortsOutput p then Ret (mkSink (sk_seen sk) (sk_rows sk ++ [(vals, keys)]) (sk_skipped sk) (sk_emitted sk) (sk_out sk), true)
  else sink_push sk vals.
Definition sink_add (sk : sink S) (row : list value * list value) : outcome (sink S * bool) :=
  let '(vals, keys) := row in
  ok ← match qp_mv p with Some m => mv_accept m vals | None => Ret true end;
  if negb ok then Ret (sk, true)
  else if qp_distinct p then
    let k := rowKey vals in
    if bool_decide (k ∈ sk_seen sk) then Ret (sk, true)
    else sink_take (mkSink (k :: sk_seen sk) (sk_rows sk) (sk_skipped sk) (sk_emitted sk) (sk_out sk)) vals keys
  else sink_take sk vals keys.

Definition sortOutput (rows : list (list value * list value)) : list (list value * list value) :=
  match qp_mv p with
  | Some m => isort (fun a b => negb (mv_less m b.1 a.1)) rows
  | None => sortRows (qp_order p) rows
  end.
Definition sink_finish (sk : sink S) : outcome S :=
  if negb (sortsOutput p) then Ret (sk_out sk)
  else '(sk, _) ← feed (fun sk row => sink_push sk row.1) sk (sortOutput (sk_rows sk)); Ret (sk_out sk).
End exec.

(** ** Evaluating a row *)

Section rows.
Context (p : planBody) (ec0 : evalCtx).

(** [limits]: -1 is no limit. *)
Definition bound (e : option bexpr) (none : Z) (ec : evalCtx) : outcome Z :=
  match e with
  | None => Ret none
  | Some e => v ← eval e ec; match v with VNull => Err InvalidArgument | VInt n => if n <? 0 then Err InvalidArgument else Ret n | _ => Panic end
  end.
Definition limits : outcome (Z * Z) := l ← bound (qp_limit p) (-1) (at_pos 0 ec0); o ← bound (qp_offset p) 0 (at_pos 1 ec0); Ret (l, o).

(** Materialized views leave out rows whose evaluation fails. *)
Definition skipErr (c : Code) : bool := match qp_mv p with Some _ => isEvalError c | None => false end.
Definition skipping {A : Type} (r : outcome (option A)) : outcome (option A) := match r with Err c => if skipErr c then Ret None else Err c | r => r end.

Definition holds (e : option bexpr) (ec : evalCtx) : outcome bool :=
  match e with None => Ret true | Some e => v ← eval e ec; Ret match v with VBool true => true | _ => false end end.
Definition evalAll (es : list bexpr) (ec : evalCtx) : outcome (list value) := collectAt (fun i e => eval e (at_pos i ec)) 0 es.
Definition orders (p : planBody) : bool := negb (bool_decide (qp_order p = []) || qp_orderNoop p).
Definition project (ec : evalCtx) : outcome (list value * list value) :=
  vals ← evalAll (qp_outExprs p) (at_pos 1 ec);
  keys ← if orders p then evalAll (or_expr <$> qp_order p) (at_pos 2 ec) else Ret [];
  Ret (vals, keys).

(** The context of the [n]th row, and its output if it passes WHERE. *)
Definition rowCtx (row : nat * accessor) : evalCtx := with_row row.2 (at_pos row.1 (at_pos 5 ec0)).
Definition filtered {A : Type} (row : nat * accessor) (k : evalCtx -> outcome A) : outcome (option A) :=
  skipping (ok ← holds (qp_where p) (at_pos 0 (rowCtx row)); if negb ok then Ret None else r ← k (rowCtx row); Ret (Some r)).
(** A row of a query without aggregation: its output, or nothing. *)
Definition outputRow (row : nat * accessor) : outcome (option (list value * list value)) := filtered row project.

(** A row of an aggregation: its group and what its aggregates get. *)
Record groupRow : Type := mkGroupRow { gr_keys : list value; gr_args : list (list value * list value) }.
Definition aggInput (s : aggSpec) (ec : evalCtx) : outcome (list value * list value) :=
  args ← evalAll (as_args s) (at_pos 0 ec); okeys ← evalAll (or_expr <$> as_orderBy s) (at_pos 1 ec); Ret (args, okeys).
Definition groupInput (ec : evalCtx) : outcome groupRow :=
  keys ← evalAll (qp_groupKeys p) (at_pos 1 ec);
  bufs ← collectAt (fun i s => aggInput s (at_pos i (at_pos 2 ec))) 0 (qp_aggs p);
  Ret (mkGroupRow keys bufs).
Definition inputRow (row : nat * accessor) : outcome (option groupRow) := filtered row groupInput.

(** ** Groups *)

Record group : Type := mkGroup { g_keys : list value; g_runners : list aggRunner }.

Definition aggLimits : outcome (list Z) := collectAt (fun i s => bound (as_limit s) (-1) (at_pos i (at_pos 4 ec0))) 0 (qp_aggs p).
Definition newGroup (limits : list Z) (keys : list value) : group := mkGroup keys (zip_with newAggRunner (qp_aggs p) limits).

(** The key of a runner that failed is seen all the same. *)
Definition runner_note (r : aggRunner) (args : list value) : aggRunner :=
  if as_distinct (ar_spec r) then
    match args with
    | v :: _ => if isNull v || bool_decide (valueKey v ∈ ar_seen r) then r else mkRunner (ar_spec r) (ar_st r) (valueKey v :: ar_seen r) (ar_rows r) (ar_limit r)
    | [] => r
    end
  else r.
Definition addRow (r : aggRunner) (row : list value * list value) : outcome aggRunner :=
  match runner_add r row.1 row.2 with Err c => if skipErr c then Ret (runner_note r row.1) else Err c | r => r end.
Fixpoint addRows (rs : list aggRunner) (rows : list (list value * list value)) : outcome (list aggRunner) :=
  match rs, rows with
  | [], _ => Ret []
  | r :: rs', row :: rows' => r ← addRow r row; rs ← addRows rs' rows'; Ret (r :: rs)
  | _ :: _, [] => Panic
  end.
(** [groups] with its [order]: the groups in the order of their first rows. *)
Abbreviation groups := (list (bytes * group)).
Fixpoint updateGroup (limits : list Z) (kb : bytes) (row : groupRow) (gs : groups) : outcome groups :=
  match gs with
  | [] => let g := newGroup limits (gr_keys row) in rs ← addRows (g_runners g) (gr_args row); Ret [(kb, mkGroup (g_keys g) rs)]
  | (kb', g) :: gs' =>
      if bool_decide (kb = kb') then rs ← addRows (g_runners g) (gr_args row); Ret ((kb', mkGroup (g_keys g) rs) :: gs')
      else gs' ← updateGroup limits kb row gs'; Ret ((kb', g) :: gs')
  end.
Definition groupStep (limits : list Z) (gs : groups) (row : nat * accessor) : outcome (groups * bool) :=
  r ← inputRow row;
  match r with
  | None => Ret (gs, true)
  | Some r => gs ← updateGroup limits (foldl appendValueKey [] (gr_keys r)) r gs; Ret (gs, true)
  end.

(** The output of the [n]th group: its aggregates, HAVING, the projection. *)
Definition groupRowOut `{Estimator} (ng : nat * group) : outcome (option (list value * list value)) :=
  skipping
    (aggs ← collectM runner_result (g_runners ng.2);
     let ec := mkCtx None (ec_params ec0) (g_keys ng.2) aggs (ec_now ec0) (draws_at ng.1 (draws_at 6 (ec_rand ec0))) in
     ok ← holds (qp_having p) (at_pos 0 ec);
     if negb ok then Ret None else r ← project ec; Ret (Some r)).
End rows.

(** ** UNPACK *)

(** A history entry: a timestamp and a value. *)
Definition historyEntry (v : value) : outcome (Z * value) := match v with VStruct (VTs ts :: w :: _) => Ret (ts, w) | _ => Panic end.
Definition historyOf (v : value) : outcome (list (Z * value)) := match v with VArray l => collectM historyEntry l | _ => Panic end.

(** The timestamps of a column. *)
Definition columnTimes (k : unpackKind) (v : value) : outcome (list Z) :=
  match k, v with
  | _, VNull | UnpackNone, _ => Ret []
  | UnpackMap, VMap m => hs ← collectM (fun kv => historyOf kv.2) m; Ret (mjoin hs).*1
  | UnpackArray, v => h ← historyOf v; Ret h.*1
  | _, _ => Panic
  end.
Definition atTime (ts : Z) (h : list (Z * value)) : option value := snd <$> List.find (fun e => e.1 =? ts) h.
(** The column at a timestamp. *)
Definition columnAt (ts : Z) (k : unpackKind) (v : value) : outcome value :=
  match k, v with
  | _, VNull | UnpackNone, _ => Ret v
  | UnpackMap, VMap m =>
      hs ← collectM (fun kv => h ← historyOf kv.2; Ret (kv.1, h)) m;
      Ret match omap (fun kh => (fun w => (kh.1, w)) <$> atTime ts kh.2) hs with [] => VNull | es => VMap es end
  | UnpackArray, v => h ← historyOf v; Ret (default VNull (atTime ts h))
  | _, _ => Panic
  end.
Fixpoint unpackColumns (ts : Z) (kinds : list unpackKind) (vals : list value) : outcome (list value) :=
  match kinds, vals with
  | [], vals => Ret ((fun _ => VNull) <$> vals)
  | k :: kinds', v :: vals' => c ← columnAt ts k v; cs ← unpackColumns ts kinds' vals'; Ret (c :: cs)
  | _ :: _, [] => Panic
  end.
Fixpoint unpackTimes (kinds : list unpackKind) (vals : list value) : outcome (list Z) :=
  match kinds, vals with
  | [], _ => Ret []
  | k :: kinds', v :: vals' => ts ← columnTimes k v; rest ← unpackTimes kinds' vals'; Ret (ts ++ rest)
  | _ :: _, [] => Panic
  end.
(** One row for every timestamp, the newest first. *)
Definition unpackRow (kinds : list unpackKind) (vals : list value) : outcome (list (list value)) :=
  tss ← unpackTimes kinds vals;
  collectM (fun ts => cs ← unpackColumns ts kinds vals; Ret (cs ++ [VTs ts])) (isort (fun a b => b <=? a) (remove_dups tss)).

(** ** Running a plan *)

Definition envCtx (env : execEnv) : evalCtx := mkCtx None (env_params env) [] [] (env_now env) (env_rand env).
(** The environment of a query that another one reads from. *)
Definition innerEnv (ownParams : bool) (env : execEnv) : execEnv :=
  mkEnv (env_cat env) (if ownParams then [] else env_params env) (env_now env) (env_noPushdown env) (draws_at 7 (env_rand env)).

(** The rows of a table in the ranges, as accessors. *)
Definition tableRows (env : execEnv) (s : tableSource) (tf : temporalFilter) (r : Pushdown.keyRange) : list accessor :=
  baseRow_column s tf <$> List.filter (fun row => visible (ts_table s) row tf) (catScan (env_cat env (TableName (ts_table s))) r).

Fixpoint run `{Estimator} (p : queryPlan) (env : execEnv) {S : Type} (emit : S -> list value -> outcome (S * bool)) (s : S) {struct p} : outcome S :=
  match p with
  | mkPlan src b =>
      let ec := envCtx env in
      '(limit, offset) ← limits b ec;
      if limit =? 0 then Ret s
      else if negb (qp_aggregated b) then
        '(sk, _) ← scan src b env (counted (fun sk row => r ← outputRow b ec row; match r with None => Ret (sk, true) | Some r => sink_add b limit offset emit sk r end)) (0%nat, newSink s);
        sink_finish b limit offset emit sk.2
      else
        lims ← aggLimits b ec;
        '(gs, _) ← scan src b env (counted (groupStep b ec lims)) (0%nat, []);
        let gs := match gs.2, qp_groupKeys b with [], [] => [newGroup b lims []] | gs, _ => gs.*2 end in
        '(sk, _) ← feed (fun sk g => r ← groupRowOut b ec g; match r with None => Ret (sk, true) | Some r => sink_add b limit offset emit sk r end) (newSink s) (numberFrom 0 gs);
        sink_finish b limit offset emit sk
  end
(** [scanSource]; the plan of the query gives the ranges of a table. *)
with scan (src : source) `{Estimator} (b : planBody) (env : execEnv) {S : Type} (fn : S -> accessor -> outcome (S * bool)) (s : S) {struct src} : outcome (S * bool) :=
  match src with
  | NoSource => fn s emptyRow
  | TableSource t =>
      ranges ← keyRanges (qp_keyCol b) (env_noPushdown env) (qp_where b) (at_pos 2 (envCtx env));
      tf ← temporal_eval (ts_temporal t) (at_pos 3 (envCtx env));
      feed (fun s r => feed fn s (tableRows env t tf r)) s ranges
  | DerivedSource plan ownParams synthKey =>
      s ← run plan (innerEnv ownParams env)
            (fun s vals =>
               if synthKey then
                 match (match plan with mkPlan _ b => match qp_mv b with Some m => mv_encodeKey m vals | None => Panic end end) with
                 | Ret k => fn s (valuesRow (vals ++ [VBytes k]))
                 | Err _ => Ret (s, true)
                 | Panic => Panic
                 end
               else fn s (valuesRow vals)) s;
      Ret (s, true)
  | UnpackSource plan kinds =>
      s ← run plan (innerEnv false env) (fun s vals => rows ← unpackRow kinds vals; feed fn s (valuesRow <$> rows)) s;
      Ret (s, true)
  end.

(** ** The reference *)

(** The results of [f] that are there. *)
Fixpoint collectSome {A B : Type} (f : A -> outcome (option B)) (l : list A) : outcome (list B) :=
  match l with [] => Ret [] | x :: l' => r ← f x; rest ← collectSome f l'; Ret (option_list r ++ rest) end.
(** The first of the elements with the same key. *)
Fixpoint firstsBy {A : Type} (key : A -> bytes) (seen : list bytes) (l : list A) : list A :=
  match l with
  | [] => []
  | x :: l' => if bool_decide (key x ∈ seen) then firstsBy key seen l' else x :: firstsBy key (key x :: seen) l'
  end.
Definition window {A : Type} (limit offset : Z) (l : list A) : list A :=
  let l := drop (Z.to_nat offset) l in if limit <? 0 then l else take (Z.to_nat limit) l.

(** DISTINCT, ORDER BY, OFFSET and LIMIT on the list of all rows. *)
Definition finishRows (b : planBody) (limit offset : Z) (rows : list (list value * list value)) : outcome (list (list value)) :=
  rows ← match qp_mv b with
         | None => Ret rows
         | Some m => collectSome (fun r => ok ← mv_accept m r.1; Ret (if ok : bool then Some r else None)) rows
         end;
  let rows := if qp_distinct b then firstsBy (fun r => rowKey r.1) [] rows else rows in
  let rows := if sortsOutput b then sortOutput b rows else rows in
  Ret (window limit offset rows.*1).

(** GROUP BY: for every key, in the order of the first rows, the rows of that key
    accumulated one after another. *)
Definition gkey (r : groupRow) : bytes := foldl appendValueKey [] (gr_keys r).
Definition groupOf (b : planBody) (lims : list Z) (rows : list groupRow) (kb : bytes) : outcome (bytes * group) :=
  let rows := List.filter (fun r => bool_decide (gkey r = kb)) rows in
  let keys := match rows with r :: _ => gr_keys r | [] => [] end in
  rs ← foldM (fun rs r => addRows b rs (gr_args r)) (g_runners (newGroup b lims keys)) rows;
  Ret (kb, mkGroup keys rs).
Definition groupsOf (b : planBody) (lims : list Z) (rows : list groupRow) : outcome (list (bytes * group)) :=
  collectM (groupOf b lims rows) (firstsBy id [] (gkey <$> rows)).

Fixpoint results_of `{Estimator} (p : queryPlan) (env : execEnv) {struct p} : outcome (list (list value)) :=
  match p with
  | mkPlan src b =>
      let ec := envCtx env in
      '(limit, offset) ← limits b ec;
      if limit =? 0 then Ret []
      else if negb (qp_aggregated b) then
        rows ← rows_of src b env; outs ← collectSome (outputRow b ec) (numberFrom 0 rows); finishRows b limit offset outs
      else
        lims ← aggLimits b ec;
        rows ← rows_of src b env;
        ins ← collectSome (inputRow b ec) (numberFrom 0 rows);
        gs ← groupsOf b lims ins;
        outs ← collectSome (groupRowOut b ec) (numberFrom 0 (match gs, qp_groupKeys b with [], [] => [newGroup b lims []] | gs, _ => gs.*2 end));
        finishRows b limit offset outs
  end
with rows_of (src : source) `{Estimator} (b : planBody) (env : execEnv) {struct src} : outcome (list accessor) :=
  match src with
  | NoSource => Ret [emptyRow]
  | TableSource t =>
      ranges ← keyRanges (qp_keyCol b) (env_noPushdown env) (qp_where b) (at_pos 2 (envCtx env));
      tf ← temporal_eval (ts_temporal t) (at_pos 3 (envCtx env));
      Ret (ranges ≫= tableRows env t tf)
  | DerivedSource plan ownParams synthKey =>
      rows ← results_of plan (innerEnv ownParams env);
      rows ← if synthKey : bool then
               collectSome (fun vals =>
                 match (match plan with mkPlan _ b => match qp_mv b with Some m => mv_encodeKey m vals | None => Panic end end) with
                 | Ret k => Ret (Some (vals ++ [VBytes k]))
                 | Err _ => Ret None
                 | Panic => Panic
                 end) rows
             else Ret rows;
      Ret (fmap (M := list) valuesRow rows)
  | UnpackSource plan kinds => rows ← results_of plan (innerEnv false env); rows ← collectM (unpackRow kinds) rows; Ret (fmap (M := list) valuesRow (List.concat rows))
  end.

(** ** Streams and lists *)

(** The state in which a consumer is left. *)
Definition state_of {S : Type} (r : outcome (S * bool)) : outcome S := '(s, _) ← r; Ret s.

Lemma feed_app {A S : Type} (f : S -> A -> outcome (S * bool)) l1 l2 : forall s, feed f s (l1 ++ l2) = '(s, more) ← feed f s l1; if more : bool then feed f s l2 else Ret (s, false).
Proof. induction l1 as [|x l1 IH]; intros s; [done|]. cbn. destruct (f s x) as [[s' []]| |]; cbn; [apply IH|done..]. Qed.
Section streams.
Context {A B S : Type}.

Lemma feed_ext (f g : S -> A -> outcome (S * bool)) l : (forall s x, x ∈ l -> f s x = g s x) -> forall s, feed f s l = feed g s l.
Proof.
  induction l as [|x l IH]; intros Hfg s; [done|]. cbn. rewrite Hfg by left. destruct (g s x) as [[s' []]| |]; cbn; try done. apply IH. intros s'' y Hy. apply Hfg. by right.
Qed.
(** What a consumer of counted items is left with. *)
Lemma counted_step (f : S -> nat * A -> outcome (S * bool)) i s x : counted f (i, s) x = ('(s, more) ← f s (i, x); Ret ((Datatypes.S i, s), more)).
Proof. done. Qed.
Lemma feed_counted (f : S -> nat * A -> outcome (S * bool)) l : forall i s, (ns ← state_of (feed (counted f) (i, s) l); Ret ns.2) = state_of (feed f s (numberFrom i l)).
Proof.
  induction l as [|x l IH]; intros i s; [done|]. cbn [feed numberFrom]. rewrite counted_step. destruct (f s (i, x)) as [[s' []]| |]; cbn [mbind outcome_bind]; [apply IH|done..].
Qed.
Lemma feed_fmap (h : A -> B) (f : S -> B -> outcome (S * bool)) l : forall s, feed f s (h <$> l) = feed (fun s x => f s (h x)) s l.
Proof. induction l as [|x l IH]; intros s; [done|]. cbn. destruct (f s (h x)) as [[s' []]| |]; cbn; [apply IH|done..]. Qed.
Lemma feed_bind (h : A -> list B) (f : S -> B -> outcome (S * bool)) l : forall s, feed (fun s x => feed f s (h x)) s l = feed f s (l ≫= h).
Proof.
  induction l as [|x l IH]; intros s; [done|]. change ((x :: l) ≫= h) with (h x ++ (l ≫= h)). rewrite feed_app. cbn. destruct (feed f s (h x)) as [[s' []]| |]; cbn; [apply IH|done..].
Qed.
(** Rows that [g] leaves out do not reach the consumer. *)
Lemma feed_some (g : A -> outcome (option B)) (f : S -> B -> outcome (S * bool)) l ys : collectSome g l = Ret ys ->
  forall s, feed (fun s x => r ← g x; match r with None => Ret (s, true) | Some y => f s y end) s l = feed f s ys.
Proof.
  revert ys. induction l as [|x l IH]; intros ys E s; cbn in E |- *; [by injection E as <-|]. destruct (g x) as [o| |]; try done. cbn in E |- *. destruct (collectSome g l) as [rest| |]; try done. cbn in E. injection E as <-.
  destruct o as [y|]; cbn; [destruct (f s y) as [[s' []]| |]; cbn; try done; by apply IH|by apply IH].
Qed.
End streams.

(** ** The sink is the window of the finished rows *)

Section sinks.
Context {S : Type} (b : planBody) (limit offset : Z) (emit : S -> list value -> outcome (S * bool)).
Context (Hoff : 0 <= offset).

(** The rows a sink still emits of those to come. *)
Definition remaining (sk : sink S) (l : list (list value)) : list (list value) :=
  let l := drop (Z.to_nat (offset - sk_skipped sk)) l in if limit <? 0 then l else take (Z.to_nat (limit - sk_emitted sk)) l.

Lemma remaining_skip sk vals l : sk_skipped sk < offset -> remaining sk (vals :: l) = remaining (mkSink (sk_seen sk) (sk_rows sk) (sk_skipped sk + 1) (sk_emitted sk) (sk_out sk)) l.
Proof. intros Hs. unfold remaining. cbn [sk_skipped sk_emitted]. by replace (Z.to_nat (offset - sk_skipped sk)) with (Datatypes.S (Z.to_nat (offset - (sk_skipped sk + 1)))) by lia. Qed.
Lemma remaining_full sk l : 0 <= limit <= sk_emitted sk -> remaining sk l = [].
Proof. intros Hl. unfold remaining. rewrite (proj2 (Z.ltb_ge limit 0)) by lia. by replace (Z.to_nat (limit - sk_emitted sk)) with 0%nat by lia. Qed.
Lemma remaining_emit sk s vals l : offset <= sk_skipped sk -> limit < 0 \/ sk_emitted sk < limit ->
  remaining sk (vals :: l) = vals :: remaining (mkSink (sk_seen sk) (sk_rows sk) (sk_skipped sk) (sk_emitted sk + 1) s) l.
Proof.
  intros Hs Hl. unfold remaining. cbn [sk_skipped sk_emitted]. replace (Z.to_nat (offset - sk_skipped sk)) with 0%nat by lia. cbn [drop]. destruct (Z.ltb_spec limit 0); [done|].
  by replace (Z.to_nat (limit - sk_emitted sk)) with (Datatypes.S (Z.to_nat (limit - (sk_emitted sk + 1)))) by lia.
Qed.

Lemma sink_push_eq sk vals : sink_push limit offset emit sk vals =
  if sk_skipped sk <? offset then Ret (mkSink (sk_seen sk) (sk_rows sk) (sk_skipped sk + 1) (sk_emitted sk) (sk_out sk), true)
  else if (0 <=? limit) && (limit <=? sk_emitted sk) then Ret (sk, false)
  else '(s, more) ← emit (sk_out sk) vals; Ret (mkSink (sk_seen sk) (sk_rows sk) (sk_skipped sk) (sk_emitted sk + 1) s, more && ((limit <? 0) || (sk_emitted sk + 1 <? limit))).
Proof. done. Qed.
Lemma push_feed l : forall sk, (limit < 0 \/ sk_emitted sk <= limit) ->
  (sk' ← state_of (feed (sink_push limit offset emit) sk l); Ret (sk_out sk')) = state_of (feed emit (sk_out sk) (remaining sk l)).
Proof.
  induction l as [|vals l IH]; intros sk Hl.
  { unfold remaining. rewrite drop_nil, take_nil. by destruct (limit <? 0). }
  cbn [feed]. rewrite sink_push_eq. destruct (Z.ltb_spec (sk_skipped sk) offset) as [Hs|Hs]; [rewrite remaining_skip by done; by apply (IH (mkSink (sk_seen sk) (sk_rows sk) (sk_skipped sk + 1) (sk_emitted sk) (sk_out sk)))|].
  destruct ((0 <=? limit) && (limit <=? sk_emitted sk)) eqn:Ef; [rewrite remaining_full by lia; done|].
  destruct (emit (sk_out sk) vals) as [[s more]| |] eqn:Ee; cbn [mbind outcome_bind].
  - rewrite (remaining_emit sk s) by lia. cbn [feed]. rewrite Ee. cbn [mbind outcome_bind]. destruct more; cbn [andb]; [|done].
    destruct ((limit <? 0) || (sk_emitted sk + 1 <? limit)) eqn:El; [apply (IH (mkSink (sk_seen sk) (sk_rows sk) (sk_skipped sk) (sk_emitted sk + 1) s)); cbn; lia|]. rewrite remaining_full by (cbn; lia). done.
  - rewrite (remaining_emit sk (sk_out sk)) by lia. cbn [feed]. by rewrite Ee.
  - rewrite (remaining_emit sk (sk_out sk)) by lia. cbn [feed]. by rewrite Ee.
Qed.

(** DISTINCT with the keys seen so far. *)
Definition fresh (sk : sink S) (rows : list (list value * list value)) : list (list value * list value) :=
  if qp_distinct b then firstsBy (fun r => rowKey r.1) (sk_seen sk) rows else rows.
(** [sink_add] of an accepted row. *)
Definition sink_next (sk : sink S) (row : list value * list value) : outcome (sink S * bool) :=
  if qp_distinct b then
    if bool_decide (rowKey row.1 ∈ sk_seen sk) then Ret (sk, true)
    else sink_take b limit offset emit (mkSink (rowKey row.1 :: sk_seen sk) (sk_rows sk) (sk_skipped sk) (sk_emitted sk) (sk_out sk)) row.1 row.2
  else sink_take b limit offset emit sk row.1 row.2.

(** What [push] does to the fields it does not use. *)
Lemma push_seen sk seen vals : sink_push limit offset emit (mkSink seen (sk_rows sk) (sk_skipped sk) (sk_emitted sk) (sk_out sk)) vals =
  ('(sk', more) ← sink_push limit offset emit sk vals; Ret (mkSink seen (sk_rows sk') (sk_skipped sk') (sk_emitted sk') (sk_out sk'), more)).
Proof.
  unfold sink_push. cbn [sk_seen sk_rows sk_skipped sk_emitted sk_out]. destruct (_ <? offset); [done|]. destruct (_ && _); [done|]. by destruct (emit (sk_out sk) vals) as [[s more]| |].
Qed.
Abbreviation room sk := (limit < 0 \/ sk_emitted sk <= limit).
Abbreviation out_of r := (sk' ← state_of r; Ret (sk_out sk')).

Lemma push_room sk vals sk' : room sk -> sink_push limit offset emit sk vals = Ret (sk', true) -> room sk'.
Proof.
  intros Hr. rewrite sink_push_eq. destruct (_ <? offset); [by intros [= <-]|]. destruct (_ && _); [done|]. destruct (emit (sk_out sk) vals) as [[s more]| |]; try done. cbn. intros [= <- Hm]. apply andb_prop in Hm as [_ Hm]. cbn. lia.
Qed.
Lemma next_push rows : sortsOutput b = false -> forall sk, room sk ->
  out_of (feed sink_next sk rows) = out_of (feed (sink_push limit offset emit) sk (fresh sk rows).*1).
Proof.
  intros Hso. assert (forall sk row, sink_take b limit offset emit sk row.1 row.2 = sink_push limit offset emit sk row.1) as Ht by (intros; unfold sink_take; by rewrite Hso).
  unfold fresh. destruct (qp_distinct b) eqn:Ed.
  2:{ intros sk _. f_equal. f_equal. rewrite feed_fmap. apply feed_ext. intros sk' row _. unfold sink_next. by rewrite Ed, Ht. }
  induction rows as [|row rows IH]; intros sk Hr; [done|]. cbn [feed firstsBy].
  assert (sink_next sk row = if bool_decide (rowKey row.1 ∈ sk_seen sk) then Ret (sk, true) else sink_push limit offset emit (mkSink (rowKey row.1 :: sk_seen sk) (sk_rows sk) (sk_skipped sk) (sk_emitted sk) (sk_out sk)) row.1) as ->
    by (unfold sink_next; by rewrite Ed, Ht).
  destruct (bool_decide (rowKey row.1 ∈ sk_seen sk)); [by apply IH|]. rewrite push_seen. cbn [fmap list_fmap feed]. destruct (sink_push limit offset emit sk row.1) as [[sk' more]| |] eqn:Ep; cbn [mbind outcome_bind]; [|done|done]. destruct more; [|done].
  pose proof (push_room sk row.1 sk' Hr Ep) as Hr'. rewrite (IH (mkSink (rowKey row.1 :: sk_seen sk) (sk_rows sk') (sk_skipped sk') (sk_emitted sk') (sk_out sk'))) by done. cbn [sk_seen]. by rewrite !push_feed.
Qed.
Lemma next_sorts rows : sortsOutput b = true -> forall sk, exists seen,
  feed sink_next sk rows = Ret (mkSink seen (sk_rows sk ++ fresh sk rows) (sk_skipped sk) (sk_emitted sk) (sk_out sk), true).
Proof.
  intros Hso. assert (forall sk row, sink_take b limit offset emit sk row.1 row.2 = Ret (mkSink (sk_seen sk) (sk_rows sk ++ [row]) (sk_skipped sk) (sk_emitted sk) (sk_out sk), true)) as Ht by (intros sk []; unfold sink_take; by rewrite Hso).
  unfold fresh, sink_next. destruct (qp_distinct b) eqn:Ed; induction rows as [|row rows IH]; intros sk; try (exists (sk_seen sk); cbn; rewrite app_nil_r; by destruct sk).
  - cbn [feed firstsBy]. destruct (bool_decide (rowKey row.1 ∈ sk_seen sk)); [by apply IH|]. rewrite Ht. cbn [mbind outcome_bind sk_seen sk_rows sk_skipped sk_emitted sk_out].
    edestruct (IH (mkSink (rowKey row.1 :: sk_seen sk) (sk_rows sk ++ [row]) (sk_skipped sk) (sk_emitted sk) (sk_out sk))) as [seen E]. exists seen. cbn [sk_seen sk_rows sk_skipped sk_emitted sk_out] in E. rewrite E. by rewrite <- app_assoc.
  - cbn [feed]. rewrite Ht. cbn [mbind outcome_bind]. edestruct (IH (mkSink (sk_seen sk) (sk_rows sk ++ [row]) (sk_skipped sk) (sk_emitted sk) (sk_out sk))) as [seen E]. exists seen. cbn [sk_seen sk_rows sk_skipped sk_emitted sk_out] in E. rewrite E. by rewrite <- app_assoc.
Qed.

(** Adding all rows and finishing emits the finished rows. *)
Lemma sink_spec s rows outs : (limit < 0 \/ 0 <= limit) -> finishRows b limit offset rows = Ret outs ->
  (sk ← state_of (feed (sink_add b limit offset emit) (newSink s) rows); sink_finish b limit offset emit sk) = state_of (feed emit s outs).
Proof.
  intros Hl Ef. unfold finishRows in Ef.
  destruct (match qp_mv b with None => Ret rows | Some m => _ end) as [acc| |] eqn:Ea; try done. cbn [mbind outcome_bind] in Ef. injection Ef as <-.
  assert (feed (sink_add b limit offset emit) (newSink s) rows = feed sink_next (newSink s) acc) as ->.
  { unfold sink_add. destruct (qp_mv b) as [m|] eqn:Em.
    - rewrite <- (feed_some _ sink_next rows acc Ea). apply feed_ext. intros sk [vals keys] _. cbn [fst snd]. destruct (mv_accept m vals) as [[]| |]; done.
    - injection Ea as <-. apply feed_ext. by intros sk [vals keys] _. }
  destruct (sortsOutput b) eqn:Hso.
  - destruct (next_sorts acc Hso (newSink s)) as [seen ->]. cbn [state_of mbind outcome_bind]. unfold sink_finish. rewrite Hso. cbn [negb sk_rows newSink app]. 
    change (if qp_distinct b then firstsBy (fun r => rowKey r.1) [] acc else acc) with (fresh (newSink s) acc).
    pose proof (push_feed (sortOutput b (fresh (newSink s) acc)).*1 (mkSink seen (fresh (newSink s) acc) 0 0 s) ltac:(cbn; lia)) as Hp. rewrite feed_fmap in Hp.
    unfold remaining in Hp. cbn [sk_skipped sk_emitted sk_out] in Hp. rewrite !Z.sub_0_r in Hp. unfold window. rewrite <- Hp. unfold state_of. by destruct (feed _ _ _) as [[sk ?]| |].
  - pose proof (next_push acc Hso (newSink s) ltac:(cbn; lia)) as Hn. rewrite push_feed in Hn by (cbn; lia). unfold remaining in Hn. cbn [sk_skipped sk_emitted sk_out newSink] in Hn. rewrite !Z.sub_0_r in Hn.
    unfold window, sink_finish. rewrite Hso. cbn [negb]. exact Hn.
Qed.
End sinks.

(** ** Grouping row by row is grouping by key *)

Lemma collectM_ext {A B : Type} (f g : A -> outcome B) l : (forall x, x ∈ l -> f x = g x) -> collectM f l = collectM g l.
Proof. induction l as [|x l IH]; intros Hfg; [done|]. cbn. rewrite Hfg by left. rewrite IH; [done|]. intros y Hy. apply Hfg. by right. Qed.
Lemma collectM_app {A B : Type} (f : A -> outcome B) l1 l2 : collectM f (l1 ++ l2) = (a ← collectM f l1; b ← collectM f l2; Ret (a ++ b)).
Proof.
  induction l1 as [|x l1 IH]; cbn; [by destruct (collectM f l2)|]. destruct (f x); cbn; [|done|done]. rewrite IH. destruct (collectM f l1); cbn; [|done|done]. by destruct (collectM f l2).
Qed.
Lemma collectM_Forall2 {A B : Type} (f : A -> outcome B) l bs : collectM f l = Ret bs -> Forall2 (fun x y => f x = Ret y) l bs.
Proof.
  revert bs. induction l as [|x l IH]; intros bs E; cbn in E; [injection E as <-; constructor|]. destruct (f x) as [y| |] eqn:Ef; try done. cbn in E. destruct (collectM f l) as [ys| |]; try done. cbn in E. injection E as <-. constructor; [done|by apply IH].
Qed.

Section grouping.
Context (b : planBody) (lims : list Z).

Definition updates (gs : list (bytes * group)) (rows : list groupRow) : outcome (list (bytes * group)) :=
  foldM (fun gs r => updateGroup b lims (gkey r) r gs) gs rows.

Lemma firsts_snoc (l : list bytes) (x : bytes) : forall seen, firstsBy id seen (l ++ [x]) = if bool_decide (x ∈ seen ++ l) then firstsBy id seen l else firstsBy id seen l ++ [x].
Proof.
  induction l as [|y l IH]; intros seen; cbn [app firstsBy id].
  - rewrite app_nil_r. by destruct (bool_decide (x ∈ seen)).
  - rewrite !IH. destruct (bool_decide (y ∈ seen)) eqn:Ey.
    + apply bool_decide_eq_true in Ey. replace (bool_decide (x ∈ seen ++ y :: l)) with (bool_decide (x ∈ seen ++ l)); [done|]. apply bool_decide_ext. rewrite !elem_of_app, elem_of_cons. set_solver.
    + replace (bool_decide (x ∈ seen ++ y :: l)) with (bool_decide (x ∈ (y :: seen) ++ l)); [by destruct (bool_decide (x ∈ (y :: seen) ++ l))|]. apply bool_decide_ext. cbn. rewrite !elem_of_cons, !elem_of_app, elem_of_cons. tauto.
Qed.
Lemma elem_of_firsts (l : list bytes) (x : bytes) : x ∈ firstsBy id [] l <-> x ∈ l.
Proof.
  induction l as [|y l IH] using rev_ind; [done|]. rewrite firsts_snoc. cbn [app]. rewrite elem_of_app, list_elem_of_singleton. destruct (bool_decide (y ∈ l)) eqn:E.
  - apply bool_decide_eq_true in E. rewrite IH. split; [by left|]. by intros [?| ->].
  - by rewrite elem_of_app, list_elem_of_singleton, IH.
Qed.
Lemma firsts_nodup (l : list bytes) : NoDup (firstsBy id [] l).
Proof.
  induction l as [|y l IH] using rev_ind; [constructor|]. rewrite firsts_snoc. cbn [app]. destruct (bool_decide (y ∈ l)) eqn:E; [done|]. apply bool_decide_eq_false in E.
  apply NoDup_app. split_and!; [done| |apply NoDup_singleton]. intros x Hx ->%list_elem_of_singleton. by rewrite elem_of_firsts in Hx.
Qed.

(** One more row of the key [gkey r]. *)
Lemma groupOf_other rows r kb : kb <> gkey r -> groupOf b lims (rows ++ [r]) kb = groupOf b lims rows kb.
Proof. intros Hne. unfold groupOf. rewrite List.filter_app. cbn [List.filter]. rewrite bool_decide_eq_false_2 by congruence. by rewrite app_nil_r. Qed.
Lemma groupOf_same rows r : gkey r ∈ gkey <$> rows ->
  groupOf b lims (rows ++ [r]) (gkey r) = ('(kb, g) ← groupOf b lims rows (gkey r); rs ← addRows b (g_runners g) (gr_args r); Ret (kb, mkGroup (g_keys g) rs)).
Proof.
  intros Hin. unfold groupOf. rewrite List.filter_app. cbn [List.filter]. rewrite bool_decide_eq_true_2 by done. set (l := List.filter _ rows). assert (exists r0 l', l = r0 :: l') as (r0 & l' & ->).
  { apply list_elem_of_fmap in Hin as (r0 & E & Hr0). assert (r0 ∈ l) as Hl by (apply list_elem_of_In, filter_In; split; [by apply list_elem_of_In|by apply bool_decide_eq_true_2]). destruct l; [by apply elem_of_nil in Hl|eauto]. }
  cbn [app]. rewrite app_comm_cons, foldM_snoc. by destruct (foldM _ _ (r0 :: l')) as [rs| |].
Qed.
Lemma groupOf_new rows r : gkey r ∉ gkey <$> rows ->
  groupOf b lims (rows ++ [r]) (gkey r) = (rs ← addRows b (g_runners (newGroup b lims (gr_keys r))) (gr_args r); Ret (gkey r, mkGroup (gr_keys r) rs)).
Proof.
  intros Hin. unfold groupOf. rewrite List.filter_app. cbn [List.filter]. rewrite bool_decide_eq_true_2 by done. assert (List.filter (fun r0 => bool_decide (gkey r0 = gkey r)) rows = []) as ->.
  { apply elem_of_nil_inv. intros r0 Hr0. apply list_elem_of_In, filter_In in Hr0 as [Hr0 E]. apply bool_decide_eq_true in E. destruct Hin. rewrite <- E. apply list_elem_of_fmap_2. by apply list_elem_of_In. }
  cbn [app foldM]. by destruct (addRows _ _ _).
Qed.

Lemma groupOf_key rows kb p : groupOf b lims rows kb = Ret p -> p.1 = kb.
Proof. unfold groupOf. intros. by inv_outcome. Qed.

(** Updating the group of [kb] among the groups of [keys]. *)
Lemma update_same (F F' : bytes -> outcome (bytes * group)) (r : groupRow) keys gs' : NoDup keys -> gkey r ∈ keys -> (forall kb p, F kb = Ret p -> p.1 = kb) ->
  (forall kb, kb <> gkey r -> F' kb = F kb) -> F' (gkey r) = ('(kb, g) ← F (gkey r); rs ← addRows b (g_runners g) (gr_args r); Ret (kb, mkGroup (g_keys g) rs)) ->
  collectM F' keys = Ret gs' -> exists gs, collectM F keys = Ret gs /\ updateGroup b lims (gkey r) r gs = Ret gs'.
Proof.
  intros Hnd Hin Hkey Hother Hsame. revert gs'. induction Hnd as [|kb keys Hkb Hnd IH]; intros gs' E; [by apply elem_of_nil in Hin|]. cbn [collectM] in E |- *. destruct (decide (kb = gkey r)) as [->|Hne].
  - rewrite Hsame in E. destruct (F (gkey r)) as [[kb g]| |] eqn:EF; try done. cbn [mbind outcome_bind] in E |- *. destruct (addRows b (g_runners g) (gr_args r)) as [rs| |] eqn:Ea; try done. cbn [mbind outcome_bind] in E.
    assert (collectM F' keys = collectM F keys) as Ec by (apply collectM_ext; intros x Hx; apply Hother; intros ->; done). rewrite Ec in E. destruct (collectM F keys) as [gs| |]; try done. cbn [mbind outcome_bind] in E |- *. injection E as <-.
    pose proof (Hkey _ _ EF) as Hk. cbn in Hk. subst kb. eexists. split; [done|]. cbn [updateGroup]. rewrite bool_decide_eq_true_2 by done. by rewrite Ea.
  - apply elem_of_cons in Hin as [?|Hin]; [congruence|]. rewrite Hother in E by done. destruct (F kb) as [[kb' g]| |] eqn:EF; try done. cbn [mbind outcome_bind] in E |- *. destruct (collectM F' keys) as [gs1| |]; try done. cbn [mbind outcome_bind] in E. injection E as <-.
    destruct (IH Hin gs1 eq_refl) as (gs & Eg & Eu). rewrite Eg. cbn [mbind outcome_bind]. eexists. split; [done|]. pose proof (Hkey _ _ EF) as Hk. cbn in Hk. subst kb'. cbn [updateGroup]. rewrite bool_decide_eq_false_2 by congruence. by rewrite Eu.
Qed.
Lemma update_new (r : groupRow) gs g : Forall (fun p => p.1 <> gkey r) gs ->
  (rs ← addRows b (g_runners (newGroup b lims (gr_keys r))) (gr_args r); Ret (gkey r, mkGroup (gr_keys r) rs)) = Ret g -> updateGroup b lims (gkey r) r gs = Ret (gs ++ [g]).
Proof.
  intros Hgs E. induction Hgs as [|[kb g'] gs Hne Hgs IH]; cbn [updateGroup app].
  - cbn in E. cbn. destruct (addRows _ _ _); try done. cbn in E |- *. by injection E as <-.
  - cbn in Hne. rewrite bool_decide_eq_false_2 by congruence. by rewrite IH.
Qed.
Lemma updates_groups rows gs : groupsOf b lims rows = Ret gs -> updates [] rows = Ret gs.
Proof.
  revert gs. induction rows as [|r rows IH] using rev_ind; intros gs' E; [exact E|]. unfold updates. rewrite foldM_snoc. fold (updates [] rows). unfold groupsOf in E. rewrite fmap_app in E. cbn [fmap list_fmap] in E. rewrite firsts_snoc in E. cbn [app] in E.
  destruct (bool_decide (gkey r ∈ gkey <$> rows)) eqn:Eb.
  - apply bool_decide_eq_true in Eb. destruct (update_same (groupOf b lims rows) (groupOf b lims (rows ++ [r])) r _ gs' (firsts_nodup _) ltac:(by apply elem_of_firsts) (groupOf_key rows)
      (fun kb Hne => groupOf_other rows r kb Hne) (groupOf_same rows r Eb) E) as (gs & Eg & Eu). by rewrite (IH gs Eg).
  - apply bool_decide_eq_false in Eb. rewrite collectM_app in E. cbn [collectM] in E. rewrite groupOf_new in E by done.
    assert (collectM (groupOf b lims (rows ++ [r])) (firstsBy id [] (gkey <$> rows)) = groupsOf b lims rows) as Ec by (apply collectM_ext; intros kb Hkb; apply groupOf_other; intros ->; by rewrite elem_of_firsts in Hkb).
    rewrite Ec in E. destruct (groupsOf b lims rows) as [gs| |] eqn:Eg; try done. cbn [mbind outcome_bind] in E. rewrite (IH gs eq_refl). cbn [mbind outcome_bind].
    destruct (addRows b (g_runners (newGroup b lims (gr_keys r))) (gr_args r)) as [rs| |] eqn:Er; try done. cbn [mbind outcome_bind] in E. injection E as <-. apply update_new; [|by rewrite Er]. apply list.Forall_forall. intros p Hp Hk.
    destruct (list_elem_of_lookup_1 _ _ Hp) as [i Hi]. destruct (Forall2_lookup_r _ _ _ _ _ (collectM_Forall2 _ _ _ Eg) Hi) as (kb & Hkb & Ekb). apply Eb, elem_of_firsts. rewrite <- Hk, (groupOf_key _ _ _ Ekb). by eapply list_elem_of_lookup_2.
Qed.
End grouping.

(** ** Running a plan delivers its results *)

Lemma groupStep_feed (b : planBody) (ec : evalCtx) (lims : list Z) (rows : list (nat * accessor)) ins : collectSome (inputRow b ec) rows = Ret ins ->
  forall gs, feed (groupStep b ec lims) gs rows = (gs' ← updates b lims gs ins; Ret (gs', true)).
Proof.
  intros E gs. transitivity (feed (fun gs r => gs' ← updateGroup b lims (gkey r) r gs; Ret (gs', true)) gs ins); [by apply feed_some|]. clear E. revert gs.
  induction ins as [|r ins IH]; intros gs; [done|]. cbn. destruct (updateGroup b lims (gkey r) r gs) as [gs'| |]; cbn; [apply IH|done..].
Qed.
Lemma feed_collect {A B S : Type} (g : A -> outcome (list B)) (f : S -> B -> outcome (S * bool)) l yss : collectM g l = Ret yss ->
  forall s, feed (fun s x => ys ← g x; feed f s ys) s l = feed f s (List.concat yss).
Proof.
  revert yss. induction l as [|x l IH]; intros yss E s; cbn in E |- *; [by injection E as <-|]. destruct (g x) as [ys| |]; try done. cbn in E |- *. destruct (collectM g l) as [rest| |]; try done. cbn in E. injection E as <-. cbn [List.concat].
  rewrite feed_app. destruct (feed f s ys) as [[s' []]| |]; cbn; [by apply IH|done..].
Qed.
Lemma limits_ok (b : planBody) ec limit offset : limits b ec = Ret (limit, offset) -> 0 <= offset /\ (limit = -1 \/ 0 <= limit).
Proof.
  assert (forall e none z ec, bound e none ec = Ret z -> z = none \/ 0 <= z) as Hb.
  { intros [e|] none z ec'; cbn; [|intros [= <-]; by left]. destruct (eval e ec') as [[]| |]; cbn; try done. destruct (Z.ltb_spec n 0); [done|]. intros [= <-]. by right. }
  unfold limits. intros E. destruct (bound (qp_limit b) (-1) _) as [l| |] eqn:El; try done. cbn in E. destruct (bound (qp_offset b) 0 _) as [o| |] eqn:Eo; try done. cbn in E. injection E as <- <-.
  apply Hb in El, Eo. lia.
Qed.
Lemma bind_state {S T : Type} (r : outcome (S * bool)) (k : S -> outcome T) : ('(s, _) ← r; k s) = (s ← state_of r; k s).
Proof. by destruct r as [[s ?]| |]. Qed.
Lemma bind_second {S T : Type} (r : outcome (nat * S)) (k : S -> outcome T) : (ns ← r; k ns.2) = (s ← (ns ← r; Ret ns.2); k s).
Proof. by destruct r. Qed.
Lemma state_of_Ret {S : Type} (r : outcome S) : state_of (s ← r; Ret (s, true)) = r.
Proof. by destruct r. Qed.

Scheme queryPlan_mut := Induction for queryPlan Sort Prop with source_mut := Induction for source Sort Prop.

Section refinement.
Context `{Est : Estimator}.

Definition delivers (p : queryPlan) : Prop :=
  forall env out, results_of p env = Ret out -> forall (S : Type) (emit : S -> list value -> outcome (S * bool)) s, run p env emit s = state_of (feed emit s out).
Definition scans (src : source) : Prop :=
  forall b env rows, rows_of src b env = Ret rows -> forall (S : Type) (fn : S -> accessor -> outcome (S * bool)) s, state_of (scan src b env fn s) = state_of (feed fn s rows).

Lemma plan_delivers src b : scans src -> delivers (mkPlan src b).
Proof.
  intros Hs env out E S emit s. cbn [results_of] in E. cbn [run]. destruct (limits b (envCtx env)) as [[limit offset]| |] eqn:El; try done. cbn [mbind outcome_bind] in E |- *.
  apply limits_ok in El as [Ho Hl]. destruct (limit =? 0); [by injection E as <-|]. destruct (negb (qp_aggregated b)).
  - destruct (rows_of src b env) as [rows| |] eqn:Er; try done. cbn [mbind outcome_bind] in E. destruct (collectSome (outputRow b (envCtx env)) (numberFrom 0 rows)) as [outs| |] eqn:Eo; try done. cbn [mbind outcome_bind] in E.
    rewrite bind_state, (Hs _ _ _ Er), bind_second, feed_counted, (feed_some _ _ _ _ Eo). apply sink_spec; (lia || done).
  - destruct (aggLimits b (envCtx env)) as [lims| |]; try done. cbn [mbind outcome_bind] in E |- *.
    destruct (rows_of src b env) as [rows| |] eqn:Er; try done. cbn [mbind outcome_bind] in E. destruct (collectSome (inputRow b (envCtx env)) (numberFrom 0 rows)) as [ins| |] eqn:Ei; try done. cbn [mbind outcome_bind] in E.
    destruct (groupsOf b lims ins) as [gs| |] eqn:Eg; try done. cbn [mbind outcome_bind] in E.
    destruct (collectSome (groupRowOut b (envCtx env)) _) as [outs| |] eqn:Eo in E; try done. cbn [mbind outcome_bind] in E.
    pose proof (feed_counted (groupStep b (envCtx env) lims) rows 0 []) as Hc. rewrite (groupStep_feed _ _ _ _ _ Ei), (updates_groups _ _ _ _ Eg) in Hc.
    rewrite bind_state, (Hs _ _ _ Er). destruct (state_of (feed (counted _) _ rows)) as [[n gs']| |]; try done. injection Hc as ->. cbn [mbind outcome_bind snd]. rewrite bind_state.
    destruct gs; rewrite (feed_some _ _ _ _ Eo); apply sink_spec; (lia || done).
Qed.
Lemma derived_scans plan own synth : delivers plan -> scans (DerivedSource plan own synth).
Proof.
  intros Hp b env rows E S fn s. cbn [rows_of] in E. cbn [scan]. set (env' := innerEnv own env) in *. rewrite state_of_Ret.
  destruct (results_of plan env') as [out| |] eqn:Eo; try done. cbn [mbind outcome_bind] in E. rewrite (Hp _ _ Eo). f_equal. destruct synth.
  - match type of E with (collectSome ?g out ≫= _) = _ => set (enc := g) in E end. destruct (collectSome enc out) as [rs| |] eqn:Ec; try done. cbn [mbind outcome_bind] in E. injection E as <-. rewrite feed_fmap.
    rewrite <- (feed_some _ (fun s x => fn s (valuesRow x)) _ _ Ec). apply feed_ext. intros s' vals _. unfold enc. by destruct (match plan with mkPlan _ _ => _ end).
  - cbn [mbind outcome_bind] in E. injection E as <-. by rewrite feed_fmap.
Qed.
Lemma unpack_scans plan kinds : delivers plan -> scans (UnpackSource plan kinds).
Proof.
  intros Hp b env rows E S fn s. cbn [rows_of] in E. cbn [scan]. rewrite state_of_Ret.
  destruct (results_of plan (innerEnv false env)) as [out| |] eqn:Eo; try done. cbn [mbind outcome_bind] in E. rewrite (Hp _ _ Eo). f_equal. destruct (collectM (unpackRow kinds) out) as [rs| |] eqn:Ec; try done. cbn [mbind outcome_bind] in E. injection E as <-.
  rewrite feed_fmap, <- (feed_collect _ (fun s x => fn s (valuesRow x)) _ _ Ec). apply feed_ext. intros s' vals _. destruct (unpackRow kinds vals); cbn; [|done|done]. by rewrite feed_fmap.
Qed.
Lemma table_scans t : scans (TableSource t).
Proof.
  intros b env rows E S fn s. cbn [rows_of] in E. cbn [scan]. destruct (keyRanges _ _ _ _) as [ranges| |]; try done. cbn [mbind outcome_bind] in E |- *. destruct (temporal_eval _ _) as [tf| |]; try done. cbn [mbind outcome_bind] in E |- *. injection E as <-. by rewrite feed_bind.
Qed.
Lemma all_deliver p : delivers p.
Proof.
  apply (queryPlan_mut delivers scans); [intros; by apply plan_delivers| |apply table_scans|intros; by apply derived_scans|intros; by apply unpack_scans].
  intros b env rows E S fn s. cbn in E |- *. injection E as <-. cbn. by destruct (fn s emptyRow) as [[s' []]| |].
Qed.
End refinement.

(** ** What the results are *)

Lemma firstsBy_nodup {A : Type} (key : A -> bytes) (l : list A) : forall seen, NoDup (key <$> firstsBy key seen l) /\ Forall (fun x => key x ∉ seen) (firstsBy key seen l).
Proof.
  induction l as [|x l IH]; intros seen; cbn; [split; constructor|]. destruct (bool_decide (key x ∈ seen)) eqn:E; [apply IH|]. apply bool_decide_eq_false in E. destruct (IH (key x :: seen)) as [Hn Hf]. cbn. split; constructor; try done.
  - rewrite list_elem_of_fmap. intros (y & Ey & Hy). rewrite list.Forall_forall in Hf. specialize (Hf y Hy). rewrite Ey in Hf. by destruct Hf; left.
  - eapply Forall_impl; [exact Hf|]. intros y Hy Hs. apply Hy. by right.
Qed.
Lemma window_sublist {A : Type} limit offset (l : list A) : window limit offset l `sublist_of` l.
Proof. unfold window. destruct (limit <? 0); [apply sublist_drop|]. etransitivity; [apply sublist_take|apply sublist_drop]. Qed.
Lemma finishRows_ok b limit offset rows out : finishRows b limit offset rows = Ret out ->
  (0 <= limit -> Z.of_nat (length out) <= limit) /\ (qp_distinct b = true -> NoDup (rowKey <$> out)) /\ (forall vals, vals ∈ out -> vals ∈ rows.*1).
Proof.
  unfold finishRows. destruct (match qp_mv b with None => _ | Some _ => _ end) as [acc| |] eqn:Ea; try done. cbn [mbind outcome_bind]. intros [= <-].
  assert (forall r, r ∈ acc -> r ∈ rows) as Hacc.
  { destruct (qp_mv b) as [m|]; [|by injection Ea as <-]. revert acc Ea. induction rows as [|r rows IH]; intros acc Ea; cbn in Ea; [by injection Ea as <-|]. destruct (mv_accept m r.1) as [ok| |]; try done. cbn in Ea. destruct (collectSome _ rows) as [rest| |]; try done. cbn in Ea. injection Ea as <-.
    intros r' [Hr|Hr]%elem_of_app; [|right; by eapply IH]. destruct ok; cbn in Hr; [apply list_elem_of_singleton in Hr as ->; left|by apply elem_of_nil in Hr]. }
  set (d := if qp_distinct b then _ else _). set (s := if sortsOutput b then _ else _). assert (s ≡ₚ d) as Hp by (unfold s, sortOutput, sortRows; destruct (sortsOutput b); [destruct (qp_mv b); apply isort_perm|done]).
  split_and!.
  - intros Hl. unfold window. rewrite (proj2 (Z.ltb_ge limit 0)) by done. rewrite length_take. lia.
  - intros Hd. eapply sublist_NoDup; [|apply fmap_sublist, window_sublist]. rewrite <- list_fmap_compose, Hp. unfold d. rewrite Hd. apply (firstsBy_nodup (fun r : list value * list value => rowKey r.1)).
  - intros vals Hv. eapply elem_of_sublist in Hv; [|apply window_sublist]. apply list_elem_of_fmap in Hv as (r & -> & Hr). rewrite Hp in Hr. apply list_elem_of_fmap_2, Hacc. unfold d in Hr. destruct (qp_distinct b); [|done]. clear -Hr. revert Hr. generalize (@nil bytes).
    induction acc as [|x acc IH]; intros seen Hr; [done|]. cbn in Hr. destruct (bool_decide _); [right; by eapply IH|]. apply elem_of_cons in Hr as [->|Hr]; [left|right; by eapply IH].
Qed.

(** C18: Running a plan hands the consumer the rows of the reference, one after another,
    until the consumer stops or fails: filtering row by row, the groups built up during
    the scan, the sink that skips, counts, remembers and sorts, and the early stop at
    the limit, through every derived source, come to the WHERE clause on the list of all
    rows, the groups by key, the first row of every DISTINCT key, the stable sort and
    the window of OFFSET and LIMIT.  There are never more rows than the limit, and with
    DISTINCT no two of the same key. *)
Theorem query_results `{Est : Estimator} (src : source) (b : planBody) (env : execEnv) (out : list (list value)) : results_of (mkPlan src b) env = Ret out ->
  (forall (S : Type) (emit : S -> list value -> outcome (S * bool)) s, run (mkPlan src b) env emit s = state_of (feed emit s out)) /\
  (forall limit offset, limits b (envCtx env) = Ret (limit, offset) -> 0 <= limit -> Z.of_nat (length out) <= limit) /\
  (qp_distinct b = true -> NoDup (rowKey <$> out)).
Proof.
  intros E. split; [by apply (all_deliver (mkPlan src b))|]. cbn [results_of] in E. destruct (limits b (envCtx env)) as [[limit offset]| |]; try done. cbn [mbind outcome_bind] in E.
  assert ((0 <= limit -> Z.of_nat (length out) <= limit) /\ (qp_distinct b = true -> NoDup (rowKey <$> out))) as [Hl Hd].
  { destruct (Z.eqb_spec limit 0); [injection E as <-; split; [cbn; lia|constructor]|]. destruct (negb (qp_aggregated b)); inv_outcome; by edestruct finishRows_ok as (? & ? & _); [done|]. }
  split; [|done]. by intros limit' offset' [= <- <-].
Qed.

#[local] Instance noEstimates : Estimator := {| Estimate := fun _ => 0; Estimate_int64 := fun _ => proj1 (is_int64b_spec 0) eq_refl |}.
(** [SELECT DISTINCT _key FROM ... ORDER BY _key DESC LIMIT 2 OFFSET 1] of the same query
    on a table of four rows. *)
Definition demoRows (name : bytes) : list sqlRow :=
  (fun k => mkSqlRow (str k) {[str "f" := {[str "q" := [mkSqlCell 1000 (str "v")]]}]}) <$> ["a"%string; "b"%string; "bcd"%string; "c"%string].
Definition demoTable : tableSource := mkTableSource (mkSqlTable (str "t") [mkSqlFamily (str "f") FamilyBytes] None) 1 (mkTemporal false None None None None None).
Definition demoBody : planBody :=
  mkBody (Some 0%nat) None false [] [] None [demoKey] true [mkOrder demoKey true false] false
         (Some (constExpr (VInt 2) TInt64 litInt)) (Some (constExpr (VInt 1) TInt64 litInt)) None.
Lemma query_results_witness :
  run (mkPlan (DerivedSource (mkPlan (TableSource demoTable) demoBody) false false) demoBody) (mkEnv demoRows [] 0 false (fun _ => S754_zero false))
      (fun acc vals => Ret (acc ++ [vals], true)) [] = Ret [[VBytes (str "b")]].
Proof.
  destruct (query_results (DerivedSource (mkPlan (TableSource demoTable) demoBody) false false) demoBody (mkEnv demoRows [] 0 false (fun _ => S754_zero false)) [[VBytes (str "b")]]) as [E _].
  - vm_compute. reflexivity.
  - rewrite E. vm_compute. reflexivity.
Defined.
