(* ===== verification/ScanRanges.v ===== *)
(** * Scanning key ranges does not change the results

    [pushdown.go] narrows the scan of a table to key ranges of the WHERE clause; the
    [noPushdown] option of [exec.go] scans the whole table.  The results are the same. *)

From S2P Require Import Prelude Proto Rows Server Tokens SqlValues SqlArith SqlOps Bexpr Pushdown Aggregates Sources Exec.
From stdpp Require Import base list gmap sorting.
From Stdlib Require Import ZArith Lia Sorted SpecFloat.

#[local] Open Scope Z_scope.

(** ** The scan of separated ranges *)

Definition in_rangeb (r : Pushdown.keyRange) (row : sqlRow) : bool :=
  bytes_leb (kr_start r) (RowKey row) && match kr_end r with None | Some [] => true | Some e => bytes_ltb (RowKey row) e end.
Definition by_key : sqlRow -> sqlRow -> Prop := fun x y => bytes_ltb (RowKey x) (RowKey y) = true.

Lemma in_rangeb_spec r row : empty_range r = false -> in_rangeb r row = true <-> in_range (RowKey row) r.
Proof.
  unfold in_rangeb, in_range, empty_range. intros He. rewrite andb_true_iff. destruct (kr_end r) as [[|c e]|]; [by rewrite bytes_leb_nil_l in He|done|tauto].
Qed.
Lemma no_match {A : Type} (P : A -> bool) l : Forall (fun x => P x = false) l -> List.filter P l = [].
Proof. induction 1 as [|x l Hx _ IH]; [done|]. cbn. by rewrite Hx. Qed.
Lemma filter_ext_elem {A : Type} (P Q : A -> bool) l : (forall x, x ∈ l -> P x = Q x) -> List.filter P l = List.filter Q l.
Proof. intros Hpq. apply filter_ext_in. intros x Hx. apply Hpq. by apply list_elem_of_In. Qed.
(** In a sorted list the elements of [P], all before those of [Q], come first. *)
Lemma filter_split {A : Type} (R : A -> A -> Prop) (P Q : A -> bool) l : StronglySorted R l -> (forall x y, P x = true -> Q y = true -> R x y /\ ~ R y x) ->
  List.filter (fun x => P x || Q x) l = List.filter P l ++ List.filter Q l.
Proof.
  intros Hl Hpq. induction Hl as [|x l Hl IH Hx]; [done|]. cbn. destruct (P x) eqn:Ep; cbn.
  - destruct (Q x) eqn:Eq; [by destruct (Hpq x x Ep Eq)|]. by rewrite IH.
  - destruct (Q x) eqn:Eq; [|done]. rewrite IH, no_match; [done|]. eapply Forall_impl; [exact Hx|]. intros y Hy. destruct (P y) eqn:Ey; [|done]. by destruct (Hpq y x Ey Eq).
Qed.

Lemma apart_order r rs x y : separated (r :: rs) -> in_range (RowKey x) r -> covers (RowKey y) rs -> by_key x y.
Proof.
  revert r x. induction rs as [|r' rs IH]; intros r x (He & Ha & Hs) Hx Hy; [by apply Exists_nil in Hy|]. unfold apart in Ha. destruct (kr_end r) as [e|] eqn:Ee; [|done]. destruct Hx as [_ Hxe]. rewrite Ee in Hxe.
  apply Exists_cons in Hy as [[Hy _]|Hy]; [eapply bytes_ltb_leb_trans; [|exact Hy]; by eapply bytes_ltb_trans|].
  destruct (decide (kr_end r' = None)) as [En|]; [destruct Hs as (_ & Hs & _); destruct rs; [by apply Exists_nil in Hy|unfold apart in Hs; by rewrite En in Hs]|].
  apply (IH r' (mkSqlRow (kr_start r') ∅)) in Hs as Hs'; [|split; [apply bytes_leb_refl|]|done].
  - eapply bytes_ltb_trans; [|exact Hs']. cbn. by eapply bytes_ltb_trans.
  - destruct Hs as (He' & _). unfold empty_range in He'. cbn. destruct (kr_end r'); [|done]. by rewrite bytes_leb_ltb, negb_false_iff in He'.
Qed.
Definition inRangesb (rs : list Pushdown.keyRange) (row : sqlRow) : bool := existsb (fun r => in_rangeb r row) rs.
Lemma inRangesb_spec rs row : separated rs -> inRangesb rs row = true <-> covers (RowKey row) rs.
Proof.
  induction rs as [|r rs IH]; intros Hs; [split; [done|intros Hc; by apply Exists_nil in Hc]|]. cbn [inRangesb existsb]. destruct Hs as (He & _ & Hs). rewrite orb_true_iff, in_rangeb_spec by done. unfold covers. by rewrite Exists_cons, IH.
Qed.
Lemma scan_ranges rows rs : StronglySorted by_key rows -> separated rs -> rs ≫= catScan rows = List.filter (inRangesb rs) rows.
Proof.
  intros Hrows. induction rs as [|r rs IH]; intros Hs; cbn; [by rewrite no_match by (by apply list.Forall_forall)|]. rewrite IH by (by destruct Hs as (_ & _ & ?)). symmetry. apply (filter_split by_key (in_rangeb r) (inRangesb rs)); [done|].
  intros x y Hx Hy. destruct Hs as (He & Ha & Hs). apply (in_rangeb_spec r x He) in Hx. apply inRangesb_spec in Hy; [|done]. pose proof (apart_order r rs x y ltac:(by split_and!) Hx Hy) as Hxy. split; [done|]. intros Hyx. pose proof (bytes_ltb_trans _ _ _ Hxy Hyx) as Hxx. by rewrite bytes_ltb_irrefl in Hxx.
Qed.

(** ** Rows outside the ranges have no output *)

Lemma filter_comm {A : Type} (P Q : A -> bool) l : List.filter P (List.filter Q l) = List.filter Q (List.filter P l).
Proof. induction l as [|x l IH]; [done|]. cbn. destruct (P x) eqn:Ep, (Q x) eqn:Eq; cbn; rewrite ?Ep, ?Eq, IH; done. Qed.
Lemma filter_bind {A B : Type} (P : B -> bool) (f : A -> list B) l : l ≫= (fun x => List.filter P (f x)) = List.filter P (l ≫= f).
Proof. induction l as [|x l IH]; [done|]. cbn. by rewrite List.filter_app, IH. Qed.
Lemma table_rows_of env t tf rs : StronglySorted by_key (env_cat env (TableName (ts_table t))) -> separated rs ->
  rs ≫= tableRows env t tf = baseRow_column t tf <$> List.filter (inRangesb rs) (List.filter (fun row => visible (ts_table t) row tf) (env_cat env (TableName (ts_table t)))).
Proof.
  intros Hrows Hs. rewrite filter_comm, <- (scan_ranges _ _ Hrows Hs), <- filter_bind. unfold tableRows. induction rs as [|r rs IH]; [done|]. cbn. rewrite fmap_app, IH; [done|]. by destruct Hs as (_ & _ & ?).
Qed.

Lemma collectSome_filter {A B C : Type} (f : B -> outcome (option C)) (h : A -> B) (P : A -> bool) l ys :
  (forall x o, x ∈ l -> P x = false -> f (h x) = Ret o -> o = None) -> collectSome f (h <$> l) = Ret ys -> collectSome f (h <$> List.filter P l) = Ret ys.
Proof.
  revert ys. induction l as [|x l IH]; intros ys Hf E; [done|]. cbn in E. destruct (f (h x)) as [o| |] eqn:Ex; try done. cbn in E. destruct (collectSome f (h <$> l)) as [rest| |] eqn:Er; try done. cbn in E. injection E as <-.
  assert (collectSome f (h <$> List.filter P l) = Ret rest) as Hrest by (apply IH; [|done]; intros y o' Hy; apply Hf; by right). cbn. destruct (P x) eqn:Ep; [cbn; by rewrite Ex, Hrest|]. rewrite (Hf x o ltac:(left) Ep Ex). exact Hrest.
Qed.
(** A row for which the WHERE clause is not TRUE is left out. *)
Lemma rejected {A : Type} (b : planBody) (ec : evalCtx) (k : outcome (option A)) o : ~ isTrue (qp_where b) ec ->
  skipping b (ok ← holds (qp_where b) ec; if negb ok then Ret None else k) = Ret o -> o = None.
Proof.
  intros Hn. unfold holds, isTrue in *. destruct (qp_where b) as [e|]; [|by destruct Hn]. destruct (eval e ec) as [v|c|]; cbn; [|by destruct (skipErr b c); [intros [= <-]|]|done]. destruct v as [|[]| | | | | | | | |]; cbn; by intros [= <-] || done.
Qed.

(** ** Expressions that draw no numbers *)

(** What is evaluated for every row that passes WHERE. *)
Definition rowExprs (b : planBody) : list bexpr :=
  if qp_aggregated b then qp_groupKeys b ++ (qp_aggs b ≫= fun s => as_args s ++ (or_expr <$> as_orderBy s)) else qp_outExprs b ++ (or_expr <$> qp_order b).
Definition drawless (es : list bexpr) : Prop := Forall (fun e => draws_none e = true) es.

Lemma collectAt_ext {A B : Type} (f g : nat -> A -> outcome B) l : forall i, (forall j x, x ∈ l -> f j x = g j x) -> collectAt f i l = collectAt g i l.
Proof.
  induction l as [|x l IH]; intros i Hfg; [done|]. cbn. rewrite (Hfg i x) by left. rewrite IH; [done|]. intros j y Hy. apply Hfg. by right.
Qed.
Lemma evalAll_same es ec ec' : drawless es -> same_but_draws ec ec' -> evalAll es ec = evalAll es ec'.
Proof. intros Hd Hs. apply collectAt_ext. intros j e He. apply eval_same; [|done]. unfold drawless in Hd. rewrite list.Forall_forall in Hd. by apply Hd. Qed.
Lemma project_same b ec ec' : qp_aggregated b = false -> drawless (rowExprs b) -> same_but_draws ec ec' -> project b ec = project b ec'.
Proof.
  unfold rowExprs, project. intros -> [Ho Hk]%Forall_app Hs. rewrite (evalAll_same _ (at_pos 1 ec) (at_pos 1 ec')) by done. by rewrite (evalAll_same (or_expr <$> _) (at_pos 2 ec) (at_pos 2 ec')).
Qed.
Lemma groupInput_same b ec ec' : qp_aggregated b = true -> drawless (rowExprs b) -> same_but_draws ec ec' -> groupInput b ec = groupInput b ec'.
Proof.
  unfold rowExprs, groupInput. intros -> [Hk Ha]%Forall_app Hs. rewrite (evalAll_same _ (at_pos 1 ec) (at_pos 1 ec')) by done.
  rewrite (collectAt_ext (fun i s => aggInput s (at_pos i (at_pos 2 ec))) (fun i s => aggInput s (at_pos i (at_pos 2 ec')))); [done|]. intros j s Hin.
  assert (drawless (as_args s ++ (or_expr <$> as_orderBy s))) as [Hx Hy]%Forall_app.
  { rewrite list.Forall_forall in Ha. apply list.Forall_forall. intros e He. apply Ha. apply list_elem_of_bind. by exists s. }
  unfold aggInput. rewrite (evalAll_same (as_args s) _ (at_pos 0 (at_pos j (at_pos 2 ec')))) by done. by rewrite (evalAll_same (or_expr <$> _) _ (at_pos 1 (at_pos j (at_pos 2 ec')))).
Qed.
(** Without random numbers the numbering of the rows makes no difference. *)
Lemma filtered_same {A : Type} (b : planBody) (ec0 : evalCtx) (k : evalCtx -> outcome A) i j row : match qp_where b with Some e => draws_none e = true | None => True end ->
  (forall ec ec', same_but_draws ec ec' -> k ec = k ec') -> filtered b ec0 (i, row) k = filtered b ec0 (j, row) k.
Proof.
  intros Hw Hk. unfold filtered. rewrite (Hk (rowCtx ec0 (i, row)) (rowCtx ec0 (j, row))) by done. unfold holds. destruct (qp_where b) as [e|]; [|done].
  by rewrite (eval_same e (at_pos 0 (rowCtx ec0 (i, row))) (at_pos 0 (rowCtx ec0 (j, row)))).
Qed.
Lemma collect_numbered {A C : Type} (f : nat * A -> outcome (option C)) (l : list A) : (forall i x, f (i, x) = f (0%nat, x)) ->
  forall i, collectSome f (numberFrom i l) = collectSome (fun x => f (0%nat, x)) l.
Proof. intros Hf. induction l as [|x l IH]; intros i; [done|]. cbn. by rewrite Hf, IH. Qed.

(** ** The results are the same *)

Definition with_noPushdown (env : execEnv) (n : bool) : execEnv := mkEnv (env_cat env) (env_params env) (env_now env) n (env_rand env).

(** The table is in key order and its columns have the types of the scope. *)
Record table_ok (G : tenv) (t : tableSource) (env : execEnv) : Prop := {
  table_start : (1 <= ts_famStart t)%nat;
  table_sorted : StronglySorted by_key (env_cat env (TableName (ts_table t)));
  table_keys : Forall (fun row => all_bytes (RowKey row)) (env_cat env (TableName (ts_table t)));
  table_typed tf row i ty : temporal_eval (ts_temporal t) (at_pos 3 (envCtx env)) = Ret tf -> row ∈ env_cat env (TableName (ts_table t)) -> te_cols G !! i = Some ty -> yields (baseRow_column t tf row i) ty;
}.
(** Tables without a row-key schema are. *)
Lemma plain_table_ok G t env : ts_famStart t = 1%nat -> te_cols G = tableCols (ts_table t) (tp_withHistory (ts_temporal t)) ->
  StronglySorted by_key (env_cat env (TableName (ts_table t))) -> Forall row_bytes (env_cat env (TableName (ts_table t))) -> table_ok G t env.
Proof.
  intros Hf Hc Hs Hb. split; [lia|done|eapply Forall_impl; [exact Hb|by intros row [? _]]|]. intros tf row i ty Htf Hrow Hi. rewrite list.Forall_forall in Hb. apply baseRow_typed; [done|by apply Hb|].
  assert (tf_withHistory tf = tp_withHistory (ts_temporal t)) as ->; [|by rewrite <- Hc]. unfold temporal_eval in Htf. inv_outcome. done.
Qed.

Lemma baseRow_key t tf row : (1 <= ts_famStart t)%nat -> baseRow_column t tf row 0 = Ret (VBytes (RowKey row)).
Proof. intros Hf. unfold baseRow_column. destruct (Nat.leb_spec (ts_famStart t + length (TableFamilies (ts_table t))) 0); [lia|done]. Qed.

Section transparency.
Context `{Est : Estimator} (G : tenv) (t : tableSource) (b : planBody) (env : execEnv).
Context (Hscan : scan_ok G (qp_keyCol b) (qp_where b)) (Hec : ctx_ok G (envCtx env)) (Htable : table_ok G t env).

Lemma outside_rejected tf rs row {A : Type} (k : evalCtx -> outcome A) o : temporal_eval (ts_temporal t) (at_pos 3 (envCtx env)) = Ret tf ->
  keyRanges (qp_keyCol b) false (qp_where b) (at_pos 2 (envCtx env)) = Ret rs -> separated rs -> row ∈ env_cat env (TableName (ts_table t)) -> inRangesb rs row = false ->
  filtered b (envCtx env) (0%nat, baseRow_column t tf row) k = Ret o -> o = None.
Proof.
  intros Htf Hrs Hsep Hrow Hout. apply rejected. intros Ht. assert (covers (RowKey row) rs) as Hc; [|apply (inRangesb_spec rs row Hsep) in Hc; by rewrite Hc in Hout].
  pose proof (table_keys _ _ _ Htable) as Hk. rewrite list.Forall_forall in Hk. pose proof (baseRow_key t tf row (table_start _ _ _ Htable)) as Hkey.
  eapply (keyRanges_cover G (qp_keyCol b) false (qp_where b) _ (baseRow_column t tf row)); try done; [|by apply Hk|].
  - destruct Hec as (_ & Hp & Hg & Ha & Hn & Hd). split_and!; try done; [|intros q; apply Hd]. cbn. intros i ty Hi. by eapply (table_typed _ _ _ Htable).
  - unfold isTrue in *. destruct Hscan as [Hw _]. destruct (qp_where b) as [e|]; [|done]. destruct Hw as (_ & _ & Hd). rewrite <- Ht. by apply eval_same.
Qed.
(** The rows of the ranges give what all rows give. *)
Lemma ranges_collect {A : Type} (k : evalCtx -> outcome A) rows ys : (forall ec ec', same_but_draws ec ec' -> k ec = k ec') ->
  rows_of (TableSource t) b (with_noPushdown env true) = Ret rows ->
  collectSome (fun row => filtered b (envCtx env) row k) (numberFrom 0 rows) = Ret ys ->
  exists rows', rows_of (TableSource t) b (with_noPushdown env false) = Ret rows' /\
    collectSome (fun row => filtered b (envCtx env) row k) (numberFrom 0 rows') = Ret ys.
Proof.
  cbn [rows_of]. change (envCtx (with_noPushdown env _)) with (envCtx env). cbn [env_noPushdown with_noPushdown]. intros Hk Er Ec.
  assert (forall i row, filtered b (envCtx env) (i, row) k = filtered b (envCtx env) (0%nat, row) k) as Hn.
  { intros i row. apply filtered_same; [|done]. destruct Hscan as [Hw _]. destruct (qp_where b); [|done]. by destruct Hw as (_ & _ & ?). }
  rewrite collect_numbered in Ec by done.
  assert (ctx_ok G (at_pos 2 (envCtx env))) as Hec2 by (destruct Hec as (? & ? & ? & ? & ? & Hd); split_and!; try done; intros q; apply Hd).
  destruct (keyRanges_ret G (qp_keyCol b) false (qp_where b) _ Hscan Hec2) as (rs & Ers & Hsep). rewrite Ers.
  assert (keyRanges (qp_keyCol b) true (qp_where b) (at_pos 2 (envCtx env)) = Ret fullRange) as Ef by (by unfold keyRanges; destruct (qp_where b)). rewrite Ef in Er. cbn [mbind outcome_bind] in Er |- *.
  destruct (temporal_eval (ts_temporal t) (at_pos 3 (envCtx env))) as [tf| |] eqn:Etf; try done. cbn [mbind outcome_bind] in Er |- *. assert (rows = fullRange ≫= tableRows (with_noPushdown env true) t tf) as -> by (clear -Er; congruence). eexists. split; [reflexivity|].
  rewrite collect_numbered by done. pose proof (table_sorted _ _ _ Htable) as Hsorted. rewrite table_rows_of in Ec by done. rewrite table_rows_of by done. cbn [env_cat with_noPushdown] in Ec |- *. eapply (collectSome_filter (fun row => filtered b (envCtx env) (0%nat, row) k)).
  - intros row o Hrow Hout. apply (outside_rejected tf rs); try done. apply list_elem_of_In in Hrow. apply filter_In in Hrow as [Hrow _]. by apply list_elem_of_In.
  - rewrite <- Ec. f_equal. f_equal. symmetry. set (l := List.filter _ (env_cat _ _)). clearbody l. induction l as [|x l IH]; [done|]. cbn [List.filter]. assert (inRangesb fullRange x = true) as -> by (apply inRangesb_spec; [done|apply full_covers]). by rewrite IH.
Qed.
End transparency.

(** C19: A query reads the key ranges of its WHERE clause and gives the results of reading
    the whole table: where the scan of the whole table succeeds, so does the scan of the
    ranges, and every consumer gets the same rows in the same order.  The hypotheses say
    that the WHERE clause is a well-formed expression in which no parameter or column has
    the name of an internal operator; that neither the clause nor what is evaluated for
    every row calls RAND, whose numbers depend on the rows that are read (with RAND in the
    clause the rows differ, [pushdown_draws_again]); and that the rows of the table are in
    the order of their keys and their columns have the types of the scope. *)
Theorem pushdown_transparent `{Est : Estimator} (G : tenv) (t : tableSource) (b : planBody) (env : execEnv) (out : list (list value)) :
  scan_ok G (qp_keyCol b) (qp_where b) -> drawless (rowExprs b) -> ctx_ok G (envCtx env) -> table_ok G t env ->
  results_of (mkPlan (TableSource t) b) (with_noPushdown env true) = Ret out ->
  forall (S : Type) (emit : S -> list value -> outcome (S * bool)) s,
    run (mkPlan (TableSource t) b) (with_noPushdown env false) emit s = run (mkPlan (TableSource t) b) (with_noPushdown env true) emit s.
Proof.
  intros Hscan Hrow Hec Htable E S emit s. rewrite (all_deliver (mkPlan (TableSource t) b) _ _ E). apply all_deliver. rewrite <- E. cbn [results_of] in E |- *. change (envCtx (with_noPushdown env _)) with (envCtx env) in E |- *.
  destruct (limits b (envCtx env)) as [[limit offset]| |]; try done. cbn [mbind outcome_bind] in E |- *. destruct (limit =? 0); [done|].
  pose proof (fun A => @ranges_collect Est G t b env Hscan Hec Htable A) as Hcol.
  destruct (qp_aggregated b) eqn:Hagg; cbn [negb] in E |- *.
  - destruct (aggLimits b (envCtx env)) as [lims| |]; try done. cbn [mbind outcome_bind] in E |- *. destruct (rows_of _ b (with_noPushdown env true)) as [rows| |] eqn:Er; try done. cbn [mbind outcome_bind] in E |- *.
    destruct (collectSome (inputRow b (envCtx env)) _) as [ys| |] eqn:Ec; try done.
    destruct (Hcol _ (groupInput b) rows ys ltac:(intros; by apply groupInput_same) eq_refl Ec) as (rows' & -> & Ec'). cbn [mbind outcome_bind]. change (collectSome (inputRow b (envCtx env)) (numberFrom 0 rows') = Ret ys) in Ec'. by rewrite Ec'.
  - destruct (rows_of _ b (with_noPushdown env true)) as [rows| |] eqn:Er; try done. cbn [mbind outcome_bind] in E |- *. destruct (collectSome (outputRow b (envCtx env)) _) as [ys| |] eqn:Ec; try done.
    destruct (Hcol _ (project b) rows ys ltac:(intros; by apply project_same) eq_refl Ec) as (rows' & -> & Ec'). cbn [mbind outcome_bind]. change (collectSome (outputRow b (envCtx env)) (numberFrom 0 rows') = Ret ys) in Ec'. by rewrite Ec'.
Qed.

#[local] Instance zeroEstimates : Estimator := {| Estimate := fun _ => 0; Estimate_int64 := fun _ => proj1 (is_int64b_spec 0) eq_refl |}.
(** [SELECT _key FROM t WHERE _key >= b'b' AND _key LIKE b'bc%' OR _key = b'a'] *)
Definition demoFiltered : planBody := mkBody (Some 0%nat) (Some demoWhere) false [] [] None [demoKey] false [] false None None None.
Lemma pushdown_transparent_witness : run (mkPlan (TableSource demoTable) demoFiltered) (mkEnv demoRows [] 0 false (fun _ => S754_zero false)) (fun acc vals => Ret (acc ++ [vals], true)) [] = Ret [[VBytes (str "a")]; [VBytes (str "bcd")]].
Proof.
  rewrite (pushdown_transparent demoEnv demoTable demoFiltered (mkEnv demoRows [] 0 false (fun _ => S754_zero false)) [[VBytes (str "a")]; [VBytes (str "bcd")]]).
  - vm_compute. reflexivity.
  - split; [split_and!; [apply demoWhere_wf|reflexivity..]|done].
  - repeat constructor.
  - split_and!; try done; try constructor.
  - split; [done|repeat (apply SSorted_cons || apply SSorted_nil || apply Forall_nil || (apply Forall_cons; split)); reflexivity|apply list.Forall_forall; intros row Hrow; cbn in Hrow; set_unfold in Hrow; destruct_or! Hrow; subst row; apply bytesb_all; reflexivity|]. intros tf row [|[|i]] ty _ Hrow; [|done..]. intros [= <-]. rewrite baseRow_key by done. cbn. cbn in Hrow. set_unfold in Hrow. destruct_or! Hrow; subst; done.
  - vm_compute. reflexivity.
Defined.
