(* ===== verification/BindOps.v ===== *)
(** * Binding operators

    The functions of [internal/gsql/ops.go], [bind.go] and [cast.go] that build a bound
    expression from bound operands: they check the types of the operands, coerce them
    and choose the evaluator.  Each builds a well-formed expression from well-formed
    operands or fails; none panics. *)

From stdpp Require Import base list.
From Stdlib Require Import ZArith Lia.
From Stdlib Require Import Floats.SpecFloat.
From S2P Require Import Prelude Proto Rows Server Tokens KeySchema Lexer SqlValues SqlFloat SqlArith SqlTime SqlDates Like SqlOps SqlCast Bexpr.

#[local] Open Scope Z_scope.

Definition isInt64 (t : sqlType) : bool := match t with TInt64 => true | _ => false end.
Definition isBytes (t : sqlType) : bool := match t with TBytes => true | _ => false end.
Definition isDate (t : sqlType) : bool := match t with TDate => true | _ => false end.
Definition isTimestamp (t : sqlType) : bool := match t with TTimestamp => true | _ => false end.
Definition int64OrNull (e : bexpr) : bool := isInt64 (e_typ e) || isNullLit e.
Definition numericOrNull (e : bexpr) : bool := isNumeric (e_typ e) || isNullLit e.

Definition opName (op : arithOp) : bytes := match op with Add => str "+" | Sub => str "-" | Mul => str "*" | Div => str "/" end.
Definition bitName (op : bitOp) : bytes := match op with BitAnd => str "&" | BitOr => str "|" | BitXor => str "^" end.
Definition cmpName (op : cmpOp) : bytes :=
  match op with OpEq => str "$eq" | OpNe => str "$ne" | OpLt => str "$lt" | OpLe => str "$le" | OpGt => str "$gt" | OpGe => str "$ge" end.

Section bind.
Context `{TimeZones} `{Strconv}.

(** [x, _ = coerce(x, t)]: an expression that cannot be coerced is kept. *)
Definition coerceOr (e : bexpr) (t : sqlType) : outcome bexpr := match coerce e t with Err _ => Ret e | r => r end.
(** [if x, err = coerce(x, t); err != nil { return nil, invalidf(...) }]. *)
Definition coerceTo (e : bexpr) (t : sqlType) : outcome bexpr := match coerce e t with Err _ => Err InvalidArgument | r => r end.

(** ** Arithmetic *)

Definition arith (op : arithOp) (l r : bexpr) : outcome bexpr :=
  if int64OrNull l && int64OrNull r && match op with Div => false | _ => true end then
    l ← coerceOr l TInt64;
    r ← coerceOr r TInt64;
    Ret (callExpr (str "$" ++ opName op) TInt64 (arithIntFn op) [l; r])
  else if negb (numericOrNull l) || negb (numericOrNull r) then Err InvalidArgument
  else
    l ← coerce l TFloat64;
    r ← coerce r TFloat64;
    Ret (callExpr (str "$" ++ opName op) TFloat64 (arithFloatFn op) [l; r]).

Inductive unOp : Type := UNot | UPlus | UMinus | UTilde.

(** [-] on a literal. *)
Definition negLiteral (x : bexpr) : option (outcome bexpr) :=
  if bool_decide (e_kind x = ekConst) && (bool_decide (e_lit x = litInt) || bool_decide (e_lit x = litFloat)) then
    match e_val x with
    | VInt v => Some (if v =? int64_min then Err InvalidArgument else Ret (constExpr (VInt (- v)) (e_typ x) (e_lit x)))
    | VFloat v => Some (Ret (constExpr (VFloat (SFopp v)) (e_typ x) (e_lit x)))
    | _ => None
    end
  else None.
(** [bindUnaryExpr]. *)
Definition negate (x : bexpr) : outcome bexpr :=
  if int64OrNull x then x ← coerceOr x TInt64; Ret (callExpr (str "$neg") TInt64 negIntFn [x])
  else if isFloat (e_typ x) then Ret (callExpr (str "$neg") (e_typ x) negFloatFn [x])
  else Err InvalidArgument.
Definition unary (op : unOp) (x : bexpr) : outcome bexpr :=
  match op with
  | UNot => x ← coerceTo x TBool; Ret (callExpr (str "$not") TBool notFn [x])
  | UPlus => if negb (isNumeric (e_typ x)) && negb (isNullLit x) then Err InvalidArgument else Ret x
  | UMinus => match negLiteral x with Some r => r | None => negate x end
  | UTilde =>
      if int64OrNull x then x ← coerceOr x TInt64; Ret (callExpr (str "$bitnot") TInt64 bitnotIntFn [x])
      else if isBytes (e_typ x) then Ret (callExpr (str "$bitnot") TBytes bitnotBytesFn [x])
      else Err InvalidArgument
  end.

(** ** Comparison and bits *)

Definition bindCompare (op : cmpOp) (l r : bexpr) : outcome bexpr :=
  t ← match commonType [l; r] with Err _ => Err InvalidArgument | t => t end;
  if match op with OpEq | OpNe => negb (equalityComparable t) | _ => isArray t || negb (orderable t) end then Err InvalidArgument
  else
    l ← coerce l t;
    r ← coerce r t;
    Ret (callExpr (cmpName op) TBool (compareFn op) [l; r]).

Definition concatArrayFn (a : list value) : outcome value :=
  out ← collectM (fun v => match v with VArray l => Ret l | _ => Panic end) a; Ret (VArray (List.concat out)).
Definition bindArrayConcat (name : bytes) (args : list bexpr) : outcome bexpr :=
  if negb (forallb (fun a => isNullLit a || isArray (e_typ a)) args) then Err InvalidArgument
  else
    t ← commonType args;
    let t := if isArray t then t else TArray TInt64 in
    co ← coerceAll args t;
    Ret (callExpr name t concatArrayFn co).
(** Both overloads of [||]: [sig.build] coerces every operand. *)
Definition bindConcatOp (l r : bexpr) : outcome bexpr :=
  if isArray (e_typ l) || isArray (e_typ r) then bindArrayConcat (str "$concat_array") [l; r]
  else if canCoerce l TString && canCoerce r TString then
    args ← collectM (fun a => coerce a TString) [l; r]; Ret (callExpr (str "$concat") TString (concatFn true) args)
  else if canCoerce l TBytes && canCoerce r TBytes then
    args ← collectM (fun a => coerce a TBytes) [l; r]; Ret (callExpr (str "$concat") TBytes (concatFn false) args)
  else Err InvalidArgument.

Definition bindBitwise (op : bitOp) (l r : bexpr) : outcome bexpr :=
  if int64OrNull l && int64OrNull r then
    l ← coerceOr l TInt64; r ← coerceOr r TInt64; Ret (callExpr (str "$bit" ++ bitName op) TInt64 (bitwiseIntFn op) [l; r])
  else if canCoerce l TBytes && canCoerce r TBytes && (isBytes (e_typ l) || isBytes (e_typ r)) then
    l ← coerceOr l TBytes; r ← coerceOr r TBytes; Ret (callExpr (str "$bit" ++ bitName op) TBytes (bitwiseBytesFn op) [l; r])
  else Err InvalidArgument.
Definition shiftName (left : bool) : bytes := if left then str "$shift<<" else str "$shift>>".
Definition bindShift (left : bool) (l r : bexpr) : outcome bexpr :=
  r ← coerceTo r TInt64;
  if int64OrNull l then l ← coerceOr l TInt64; Ret (callExpr (shiftName left) TInt64 (shiftIntFn left) [l; r])
  else if isBytes (e_typ l) then Ret (callExpr (shiftName left) TBytes (shiftBytesFn left) [l; r])
  else Err InvalidArgument.

(** ** Dates *)

Definition withSign (minus : bool) (k : Z) : outcome Z := if minus then if k =? int64_min then Err OutOfRange else Ret (- k) else Ret k.
Definition signName (minus : bool) : bytes := if minus then str "-" else str "+".
Definition tsAddFn (minus : bool) (unit : bytes) (a : list value) : outcome value :=
  match a with [VTs ts; VInt k] => k ← withSign minus k; r ← addTimestamp ts k unit; Ret (VTs r) | _ => Panic end.
Definition dateAddFn (minus : bool) (unit : bytes) (a : list value) : outcome value :=
  match a with [VDate d; VInt k] => k ← withSign minus k; r ← addDate d k unit; Ret (VDate r) | _ => Panic end.
Definition tsAddExpr (minus : bool) (ts n : bexpr) (unit : bytes) : bexpr :=
  set_extra (signName minus ++ unit) (callExpr (str "$ts_add") TTimestamp (tsAddFn minus unit) [ts; n]).
Definition dateAddExpr (minus : bool) (d n : bexpr) (unit : bytes) : bexpr :=
  set_extra (signName minus ++ unit) (callExpr (str "$date_add") TDate (dateAddFn minus unit) [d; n]).
Definition dateAddDays (minus : bool) (d n : bexpr) : outcome bexpr := n ← coerce n TInt64; Ret (dateAddExpr minus d n (str "DAY")).

(** ** Binary operators, both operands bound *)

Inductive binOp : Type := BArith (op : arithOp) | BConcat | BCmp (op : cmpOp) | BAnd | BOr | BBit (op : bitOp) | BShift (left : bool).

Definition logical (name : bytes) (ev : Z -> list (outcome value) -> outcome value) (l r : bexpr) : outcome bexpr :=
  l ← coerceTo l TBool; r ← coerceTo r TBool; Ret (lazyExpr name TBool ev [l; r]).
Definition binary (op : binOp) (l r : bexpr) : outcome bexpr :=
  match op with
  | BAnd => logical (str "$and") evalAnd l r
  | BOr => logical (str "$or") evalOr l r
  | BCmp op => bindCompare op l r
  | BArith ((Add | Sub) as op) =>
      let minus := match op with Sub => true | _ => false end in
      if isDate (e_typ l) && int64OrNull r then dateAddDays minus l r
      else if negb minus && isDate (e_typ r) && isInt64 (e_typ l) then dateAddDays minus r l
      else if isDateOrTs (e_typ l) || isDateOrTs (e_typ r) then Err Unimplemented
      else arith op l r
  | BArith op => arith op l r
  | BConcat => bindConcatOp l r
  | BBit op => bindBitwise op l r
  | BShift d => bindShift d l r
  end.

(** ** IS, IN, BETWEEN, LIKE, CASE *)

Inductive isWhat : Type := IsNull | IsBool (want : bool).
Definition isName (w : isWhat) (not : bool) : bytes :=
  match w, not with
  | IsNull, false => str "$is_null" | IsNull, true => str "$is_not_null"
  | IsBool true, false => str "$is_true" | IsBool true, true => str "$is_not_true"
  | IsBool false, false => str "$is_false" | IsBool false, true => str "$is_not_false"
  end.
Definition bindIs (w : isWhat) (not : bool) (x : bexpr) : outcome bexpr :=
  match w with
  | IsNull => Ret (set_strict false (callExpr (isName w not) TBool (isNullFn not) [x]))
  | IsBool want => x ← coerceTo x TBool; Ret (set_strict false (callExpr (isName w not) TBool (isBoolFn want not) [x]))
  end.

(** [&bexpr{typ: t}], a node that is no literal. *)
Definition typeOnly (t : sqlType) : bexpr := mkBexpr ekConst t [] [] [] VNull 0 noFn noLazy litNone false false [].
Definition bindInUnnest (not : bool) (x arr : bexpr) : outcome bexpr :=
  if negb (isArray (e_typ arr)) && negb (isNullLit arr) then Err InvalidArgument
  else
    let arr := if isNullLit arr then constExpr VNull (TArray (e_typ x)) litNull else arr in
    match e_typ arr with
    | TArray te =>
        t ← commonType [x; typeOnly te];
        if negb (equalityComparable t) then Err InvalidArgument
        else
          x ← coerce x t;
          arr ← coerce arr (TArray t);
          Ret (lazyExpr (if not then str "$not_in_unnest" else str "$in_unnest") TBool (evalInUnnest not) [x; arr])
    | _ => Panic
    end.
Definition bindInList (not : bool) (x : bexpr) (list : list bexpr) : outcome bexpr :=
  t ← commonType (x :: list);
  if negb (equalityComparable t) then Err InvalidArgument
  else
    all ← coerceAll (x :: list) t;
    Ret (lazyExpr (if not then str "$not_in" else str "$in") TBool (evalIn not) all).

Definition bindBetween (not : bool) (x lo hi : bexpr) : outcome bexpr :=
  t ← commonType [x; lo; hi];
  if isArray t || negb (orderable t) then Err InvalidArgument
  else
    all ← coerceAll [x; lo; hi] t;
    Ret (lazyExpr (if not then str "$not_between" else str "$between") TBool (evalBetween not) all).

(** A constant pattern is compiled once. *)
Definition cachedLike (p : bexpr) (isStr : bool) : outcome (option likePattern) :=
  if bool_decide (e_kind p = ekConst) && negb (isNull (e_val p)) then
    match compileLike (e_val p) isStr with Ret lp => Ret (Some lp) | Err _ => Err InvalidArgument | Panic => Panic end
  else Ret None.
Definition bindLike (not : bool) (x p : bexpr) : outcome bexpr :=
  isStr ← if canCoerce x TString && canCoerce p TString then Ret true
          else if canCoerce x TBytes && canCoerce p TBytes then Ret false
          else Err InvalidArgument;
  let t := if isStr : bool then TString else TBytes in
  x ← coerceOr x t;
  p ← coerceOr p t;
  cached ← cachedLike p isStr;
  Ret (callExpr (if not then str "$not_like" else str "$like") TBool (likeFn cached isStr not) [x; p]).

(** CASE with its parts bound; a missing ELSE is NULL. *)
Definition bindCase (operand : option bexpr) (conds results : list bexpr) (els : option bexpr) : outcome bexpr :=
  let results := results ++ [default (constExpr VNull TInt64 litNull) els] in
  rt ← match commonType results with Err _ => Err InvalidArgument | t => t end;
  results ← coerceAll results rt;
  let n := length conds in
  match operand with
  | Some operand =>
      ct ← commonType (operand :: conds);
      if negb (equalityComparable ct) then Err InvalidArgument
      else
        all ← coerceAll (operand :: conds) ct;
        Ret (lazyExpr (str "$case_value") rt (evalCaseValue n) (all ++ results))
  | None =>
      conds ← collectM (fun c => coerceTo c TBool) conds;
      Ret (lazyExpr (str "$case") rt (evalCase n) (conds ++ results))
  end.

(** ** Subscripts, fields, casts *)

Inductive indexMode : Type := NoMode | OffsetMode | SafeOffset | OrdinalMode | SafeOrdinal | KeyMode | SafeKey.
Definition modeName (m : indexMode) : bytes :=
  match m with
  | NoMode => [] | OffsetMode => str "OFFSET" | SafeOffset => str "SAFE_OFFSET" | OrdinalMode => str "ORDINAL" | SafeOrdinal => str "SAFE_ORDINAL"
  | KeyMode => str "KEY" | SafeKey => str "SAFE_KEY"
  end.
Definition bindIndex (m : indexMode) (x idx : bexpr) : outcome bexpr :=
  match e_typ x with
  | TArray te =>
      let m := match m with NoMode => OffsetMode | m => m end in
      match m with
      | KeyMode | SafeKey => Err InvalidArgument
      | _ =>
          idx ← coerceTo idx TInt64;
          let safe := match m with SafeOffset | SafeOrdinal => true | _ => false end in
          let ordinal := match m with OrdinalMode | SafeOrdinal => true | _ => false end in
          Ret (set_extra (modeName m) (callExpr (str "$array_at") te (arrayAtFn safe ordinal) [x; idx]))
      end
  | TMap tk tv =>
      match m with
      | NoMode | KeyMode | SafeKey =>
          idx ← coerceTo idx tk;
          Ret (set_extra (modeName m) (callExpr (str "$map_at") tv (mapAtFn match m with KeyMode => true | _ => false end) [x; idx]))
      | _ => Err InvalidArgument
      end
  | _ => if isNullLit x then Ret (constExpr VNull TInt64 litNull) else Err InvalidArgument
  end.

Definition castFn (safe : bool) (from to : sqlType) (a : list value) : outcome value :=
  match a with [v] => match castValue v from to UTC with Err c => if safe then Ret VNull else Err c | r => r end | _ => Panic end.
Definition isMap (t : sqlType) : bool := match t with TMap _ _ => true | _ => false end.
Definition bindCast (safe : bool) (to : sqlType) (x : bexpr) : outcome bexpr :=
  if isMap to then Err InvalidArgument
  else if isNullLit x then Ret (constExpr VNull to litNull)
  else if emptyArray x && isArray to then Ret (makeArrayCtor to [])
  else if negb (castAllowed (e_typ x) to) then Err InvalidArgument
  else Ret (set_extra (typeString to) (callExpr (if safe then str "SAFE_CAST" else str "CAST") to (castFn safe (e_typ x) to) [x])).

(** [bindArrayLit] with its elements bound; [et] is the declared element type. *)
Definition bindArrayLit (et : option sqlType) (elems : list bexpr) : outcome bexpr :=
  match et, elems with
  | None, [] => Ret (makeArrayCtor (TArray TInt64) [])
  | _, _ =>
      t ← match et with Some t => Ret t | None => match commonType elems with Err _ => Err InvalidArgument | t => t end end;
      if isArray t then Err InvalidArgument
      else
        co ← coerceAll elems t;
        let r := makeArrayCtor (TArray t) co in
        Ret (match et, co with Some _, [] => set_ctor (str "typed_array") r | _, _ => r end)
  end.
Fixpoint coerceFields (fields : list bexpr) (fs : list (bytes * sqlType)) : outcome (list bexpr) :=
  match fields, fs with
  | e :: fields', f :: fs' => c ← coerce e f.2; cs ← coerceFields fields' fs'; Ret (c :: cs)
  | _, _ => Ret []
  end.
Fixpoint nameFields (names : list bytes) (fields : list bexpr) {struct fields} : outcome (list (bytes * sqlType)) :=
  match fields, names with
  | [], _ => Ret []
  | e :: fields', n :: names' => fs ← nameFields names' fields'; Ret ((n, e_typ e) :: fs)
  | _ :: _, [] => Panic
  end.
Definition bindStructLit (t : option sqlType) (names : list bytes) (fields : list bexpr) : outcome bexpr :=
  match t with
  | Some t =>
      let fs := match t with TStruct fs => fs | _ => [] end in
      if negb (Nat.eqb (length fs) (length fields)) then Err InvalidArgument
      else fields ← coerceFields fields fs; Ret (makeStructCtor t fields)
  | None => fs ← nameFields names fields; Ret (makeStructCtor (TStruct fs) fields)
  end.
End bind.

(** ** The results are well-formed *)

Section wf.
Context (G : tenv) `{TimeZones} `{Strconv}.

(** The outcome of binding: a well-formed expression or an error. *)
Definition binds (r : outcome bexpr) : Prop := match r with Ret e => wf G e | Err _ => True | Panic => False end.
Definition bindsAs (r : outcome bexpr) (t : sqlType) : Prop := match r with Ret e => wf G e /\ typesEqual (e_typ e) t = true | Err _ => True | Panic => False end.

Lemma binds_bind (r : outcome bexpr) (P : bexpr -> Prop) (k : bexpr -> outcome bexpr) :
  match r with Ret e => P e | Err _ => True | Panic => False end -> (forall e, P e -> binds (k e)) -> binds (e ← r; k e).
Proof. destruct r; cbn; auto. Qed.
Lemma coerce_as e t : wf G e -> bindsAs (coerce e t) t.
Proof. apply coerce_coerced. Qed.
Lemma coerceTo_as e t : wf G e -> bindsAs (coerceTo e t) t.
Proof. intros He. unfold coerceTo. pose proof (coerce_as e t He). by destruct (coerce e t). Qed.
Lemma coerce_null e t : isNullLit e = true -> exists e', coerce e t = Ret e' /\ (wf G e -> wf G e') /\ typesEqual (e_typ e') t = true.
Proof.
  intros Hn. destruct e as [kind from name extra args val idx fn lazy lit strict safe ctor]. unfold isNullLit in Hn. cbn in Hn. cbn [coerce]. destruct (typesEqual from t) eqn:E; [by eexists|]. rewrite Hn. eexists. split; [done|]. split; [|apply typesEqual_refl]. intros _. by apply wf_const.
Qed.
Lemma coerce_same e t : typesEqual (e_typ e) t = true -> coerce e t = Ret e.
Proof. destruct e. cbn. by intros ->. Qed.
Lemma coerceOr_int64 e : wf G e -> int64OrNull e = true -> bindsAs (coerceOr e TInt64) TInt64.
Proof.
  intros He Hi. unfold coerceOr. apply orb_prop in Hi as [Hi|Hi].
  - rewrite coerce_same by (by destruct (e_typ e)). split; [done|]. by destruct (e_typ e).
  - destruct (coerce_null e TInt64 Hi) as (e' & -> & Hw & Ht). split; [by apply Hw|done].
Qed.
(** An expression that can be coerced to text is, if the coercion of its literal does not fail. *)
Lemma coerceOr_text e t : t = TString \/ t = TBytes -> wf G e -> canCoerce e t = true -> bindsAs (coerceOr e t) t.
Proof.
  intros Ht He Hc. unfold coerceOr. pose proof (coerce_as e t He) as Hb. destruct (coerce e t) as [e'| |] eqn:Ee; [done| |done].
  exfalso. destruct e as [kind from name extra args val idx fn lazy lit strict safe ctor]. cbn [canCoerce coerce] in Hc, Ee.
  destruct (typesEqual from t) eqn:Et; [done|]. destruct (bool_decide (kind = ekConst) && bool_decide (lit = litNull)) eqn:En; [done|]. cbn [orb] in Hc.
  inversion He as [e' _ Hnode _ _]; subst e'. cbn in Hnode.
  destruct (negb _) eqn:Ecan in Ee; [apply negb_true_iff in Ecan; cbn [orb] in Ecan; by rewrite Hc in Ecan|].
  destruct Ht as [-> | ->]; destruct from; try done. destruct (bool_decide (kind = ekConst)) eqn:Ek; [|done]. apply bool_decide_eq_true in Ek. subst kind. cbn in Hnode. unfold typedAs in Hnode. destruct val; done.
Qed.

Lemma vals1 {A : Type} (P : value -> A -> Prop) vs a : Forall2 P vs [a] -> exists v, vs = [v] /\ P v a.
Proof. intros Hf. inversion Hf as [|v ? vs' ? Hv Hn]; subst. inversion Hn; subst. eauto. Qed.
Lemma vals2 {A B : Type} (P : B -> A -> Prop) vs a b : Forall2 P vs [a; b] -> exists v w, vs = [v; w] /\ P v a /\ P w b.
Proof. intros Hf. inversion Hf as [|v ? vs' ? Hv Hn]; subst. inversion Hn as [|w ? vs2 ? Hw Hn2]; subst. inversion Hn2; subst. eauto. Qed.
Lemma all1 {A : Type} (P : A -> Prop) x : P x -> Forall P [x].
Proof. intros Hx. constructor; [exact Hx|constructor]. Qed.
Lemma all2 {A : Type} (P : A -> Prop) x y : P x -> P y -> Forall P [x; y].
Proof. intros Hx Hy. constructor; [exact Hx|by apply all1]. Qed.
Lemma no_nulls vs : existsb isNull vs = false -> Forall (fun v => v <> VNull) vs.
Proof. induction vs as [|v vs IH]; cbn; [constructor|]. intros [Hv Hvs]%orb_false_elim. constructor; [by destruct v|by apply IH]. Qed.

Lemma yields_equal r t t' : typesEqual t t' = true -> yields r t -> yields r t'.
Proof. destruct r; cbn; [|done|done]. by apply has_type_equal. Qed.

(** Strict calls of one and two arguments. *)
Lemma wf_call1 name t fn x tx : operatorOf name = None -> wf G x -> typesEqual (e_typ x) tx = true ->
  (forall v, has_type v tx = true -> v <> VNull -> yields (fn [v]) t) -> wf G (callExpr name t fn [x]).
Proof.
  intros Hn Hx Ht Hf. apply wf_call; [by apply all1|by apply plain_name|]. intros vs Hvs Hnull. apply vals1 in Hvs as (v & -> & Hv). apply no_nulls in Hnull. inversion Hnull; subst.
  apply Hf; [by eapply has_type_equal|done].
Qed.
Lemma wf_two name t fn x y tx ty : name_ok (callExpr name t fn [x; y]) -> wf G x -> wf G y -> typesEqual (e_typ x) tx = true -> typesEqual (e_typ y) ty = true ->
  (forall v w, has_type v tx = true -> has_type w ty = true -> v <> VNull -> w <> VNull -> yields (fn [v; w]) t) -> wf G (callExpr name t fn [x; y]).
Proof.
  intros Hn Hx Hy Htx Hty Hf. apply wf_call; [by apply all2|done|]. intros vs Hvs Hnull. apply vals2 in Hvs as (v & w & -> & Hv & Hw). apply no_nulls in Hnull. inversion Hnull as [|? ? ? Hnull']; subst. inversion Hnull'; subst.
  apply Hf; try done; by eapply has_type_equal.
Qed.
Lemma wf_call2 name t fn x y tx ty : operatorOf name = None -> wf G x -> wf G y -> typesEqual (e_typ x) tx = true -> typesEqual (e_typ y) ty = true ->
  (forall v w, has_type v tx = true -> has_type w ty = true -> v <> VNull -> w <> VNull -> yields (fn [v; w]) t) -> wf G (callExpr name t fn [x; y]).
Proof. intros Hn. apply wf_two. by apply plain_name. Qed.
(** A strict call whose arguments all have one type. *)
Lemma wf_calls name t fn args ta : operatorOf name = None -> Forall (wf G) args -> Forall (fun a => typesEqual (e_typ a) ta = true) args ->
  (forall vs, Forall (fun v => has_type v ta = true /\ v <> VNull) vs -> length vs = length args -> yields (fn vs) t) -> wf G (callExpr name t fn args).
Proof.
  intros Hn Ha Ht Hf. apply wf_call; [done|by apply plain_name|]. intros vs Hvs Hnull. apply no_nulls in Hnull. apply Hf; [|by eapply Forall2_length].
  apply list.Forall_forall. intros v Hv. rewrite list.Forall_forall in Hnull. rewrite list.Forall_forall in Ht. split; [|by apply Hnull]. apply list_elem_of_lookup in Hv as [i Hi]. destruct (Forall2_lookup_l _ _ _ _ _ Hvs Hi) as (a & Ha' & Hva). eapply has_type_equal; [|exact Hva]. apply Ht. by eapply list_elem_of_lookup_2.
Qed.

(** Reads off a coercion that succeeded. *)
Ltac coerced_by H := apply (binds_bind _ _ _ H); intros ? [? ?].

Lemma isNumeric_cases t : isNumeric t = true -> t = TInt64 \/ t = TFloat32 \/ t = TFloat64.
Proof. destruct t; try done; tauto. Qed.
Lemma arith_binds op l r : wf G l -> wf G r -> binds (arith op l r).
Proof.
  intros Hl Hr. unfold arith. destruct (int64OrNull l && int64OrNull r && _) eqn:Ei.
  - apply andb_prop in Ei as [[Ei Ej]%andb_prop Eo]. coerced_by (coerceOr_int64 l Hl Ei). coerced_by (coerceOr_int64 r Hr Ej). apply (wf_call2 _ _ _ _ _ TInt64 TInt64); try done; try (by destruct op). intros. apply arithIntFn_yields; try done. by destruct op.
  - destruct (negb _ || negb _); [done|]. coerced_by (coerce_as l TFloat64 Hl). coerced_by (coerce_as r TFloat64 Hr). apply (wf_call2 _ _ _ _ _ TFloat64 TFloat64); try done; try (by destruct op). intros. by apply arithFloatFn_yields.
Qed.
Lemma float_same v t : isFloat t = true -> has_type v TFloat64 = true -> has_type v t = true.
Proof. by destruct t, v. Qed.
Lemma negate_binds x : wf G x -> binds (negate x).
Proof.
  intros Hx. unfold negate. destruct (int64OrNull x) eqn:Ei.
  - coerced_by (coerceOr_int64 x Hx Ei). apply (wf_call1 _ _ _ _ TInt64); try done. intros. by apply negIntFn_yields.
  - destruct (isFloat (e_typ x)) eqn:Ef; [|done]. apply (wf_call1 _ _ _ _ (e_typ x)); try done; [apply typesEqual_refl|]. intros v Hv Hn.
    assert (yields (negFloatFn [v]) TFloat64) as Hy by (apply (negFloatFn_yields v (e_typ x)); try done; destruct (e_typ x); try done; tauto). destruct (negFloatFn [v]); try done. by apply float_same.
Qed.
Lemma negLiteral_binds x r : wf G x -> negLiteral x = Some r -> binds r.
Proof.
  intros Hx. unfold negLiteral. destruct (bool_decide (e_kind x = ekConst) && _) eqn:Ec; [|done]. apply andb_prop in Ec as [Ek%bool_decide_eq_true _]. inversion Hx as [x' _ Hnode _ _]; subst x'. unfold node_ok in Hnode. rewrite Ek in Hnode. unfold typedAs in Hnode.
  destruct (e_val x) as [| |v|v| | | | | | |]; try done; intros [= <-].
  - destruct (Z.eqb_spec v int64_min); [done|]. apply wf_const. unfold typedAs. destruct (e_typ x); try done. cbn in Hnode |- *. apply is_int64b_spec in Hnode. apply is_int64b_spec. unfold is_int64 in *. unfold_words. lia.
  - apply wf_const. unfold typedAs. destruct (e_typ x); try done; cbn in Hnode |- *; by destruct v.
Qed.
Lemma unary_binds op x : wf G x -> binds (unary op x).
Proof.
  intros Hx. destruct op; cbn [unary].
  - coerced_by (coerceTo_as x TBool Hx). apply (wf_call1 _ _ _ _ TBool); try done. intros. by apply notFn_yields.
  - by destruct (negb _ && negb _).
  - destruct (negLiteral x) eqn:En; [by eapply negLiteral_binds|by apply negate_binds].
  - destruct (int64OrNull x) eqn:Ei; [|destruct (isBytes (e_typ x)) eqn:Eb; [|done]].
    + coerced_by (coerceOr_int64 x Hx Ei). apply (wf_call1 _ _ _ _ TInt64); try done. intros. by apply bitnotIntFn_yields.
    + apply (wf_call1 _ _ _ _ TBytes); try done; [by destruct (e_typ x)|]. intros. by apply bitnotBytesFn_yields.
Qed.

Lemma common_binds es (k : sqlType -> outcome bexpr) : (forall t, binds (k t)) -> binds (t ← commonType es; k t).
Proof. intros Hk. pose proof (commonType_safe es). destruct (commonType es); try done. apply Hk. Qed.
Lemma common_binds' es (k : sqlType -> outcome bexpr) : (forall t, binds (k t)) -> binds (t ← match commonType es with Err _ => Err InvalidArgument | t => t end; k t).
Proof. intros Hk. pose proof (commonType_safe es). destruct (commonType es); try done. apply Hk. Qed.
Lemma coerceAll_binds es t (k : list bexpr -> outcome bexpr) : Forall (wf G) es ->
  (forall out, Forall (wf G) out -> Forall (fun a => typesEqual (e_typ a) t = true) out -> length out = length es -> binds (k out)) -> binds (out ← coerceAll es t; k out).
Proof. intros Hes Hk. pose proof (coerceAll_coerced G es t Hes) as Hc. destruct (coerceAll es t); try done. destruct Hc as (? & ? & ?). by apply Hk. Qed.

Lemma cmp_shape op l r : name_ok (callExpr (cmpName op) TBool (compareFn op) [l; r]).
Proof. unfold name_ok. cbn. intros o Ho. destruct op; vm_compute in Ho; try done; injection Ho as <-; cbn; split_and!; try done; by eexists _, _. Qed.
Lemma bindCompare_binds op l r : wf G l -> wf G r -> binds (bindCompare op l r).
Proof.
  intros Hl Hr. unfold bindCompare. apply common_binds'. intros t. destruct (match op with OpEq | OpNe => _ | _ => _ end); [done|]. coerced_by (coerce_as l t Hl). coerced_by (coerce_as r t Hr).
  apply (wf_two _ _ _ _ _ t t); try done; [apply cmp_shape|]. intros. by eapply compareFn_yields.
Qed.

Lemma concatArrayFn_yields vs t : Forall (fun v => has_type v (TArray t) = true /\ v <> VNull) vs -> yields (concatArrayFn vs) (TArray t).
Proof.
  intros Hvs. unfold concatArrayFn. assert (match collectM (fun v => match v with VArray l => Ret l | _ => Panic end) vs with Ret out => forallb (fun v => has_type v t) (List.concat out) = true | Err _ => True | Panic => False end) as Hc; [|by destruct (collectM _ vs)].
  induction Hvs as [|v vs [Hv Hn] Hvs IH]; [done|]. cbn. destruct v; try done. cbn. destruct (collectM _ vs); cbn; try done. rewrite forallb_app. cbn in Hv. by rewrite Hv.
Qed.
Lemma bindArrayConcat_binds name args : operatorOf name = None -> Forall (wf G) args -> binds (bindArrayConcat name args).
Proof.
  intros Hn Hargs. unfold bindArrayConcat. destruct (negb _); [done|]. apply common_binds. intros t. apply coerceAll_binds; [done|]. intros out Hout Ht _.
  assert (exists e, (if isArray t then t else TArray TInt64) = TArray e) as [e Ee] by (destruct t; cbn; eauto). rewrite Ee in *. eapply wf_calls; try done. intros. by apply concatArrayFn_yields.
Qed.
Lemma collect_binds es t (k : list bexpr -> outcome bexpr) : Forall (wf G) es ->
  (forall out, Forall (wf G) out -> Forall (fun a => typesEqual (e_typ a) t = true) out -> binds (k out)) -> binds (out ← collectM (fun a => coerce a t) es; k out).
Proof.
  intros Hes Hk. pose proof (collect_coerced G es t) as Hc. destruct (collectM _ es); try done; cbn.
  - destruct Hc as [? ?]; [apply list.Forall_forall; intros; by apply coerce_coerced|done|]. by apply Hk.
  - apply Hc; [apply list.Forall_forall; intros; by apply coerce_coerced|done].
Qed.
Lemma bindConcatOp_binds l r : wf G l -> wf G r -> binds (bindConcatOp l r).
Proof.
  intros Hl Hr. unfold bindConcatOp. destruct (isArray _ || isArray _); [apply bindArrayConcat_binds; [done|by apply all2]|].
  destruct (canCoerce l TString && _); [|destruct (canCoerce l TBytes && _); [|done]]; (apply collect_binds; [by apply all2|]); intros out Hout Ht; eapply wf_calls; try done; intros; [by apply (concatFn_yields true)|by apply (concatFn_yields false)].
Qed.
Lemma bindBitwise_binds op l r : wf G l -> wf G r -> binds (bindBitwise op l r).
Proof.
  intros Hl Hr. unfold bindBitwise. destruct (int64OrNull l && int64OrNull r) eqn:Ei.
  - apply andb_prop in Ei as [Ei Ej]. coerced_by (coerceOr_int64 l Hl Ei). coerced_by (coerceOr_int64 r Hr Ej). apply (wf_call2 _ _ _ _ _ TInt64 TInt64); try done; try (by destruct op). intros. by apply bitwiseIntFn_yields.
  - destruct (canCoerce l TBytes && canCoerce r TBytes && _) eqn:Ec; [|done]. apply andb_prop in Ec as [[El Er]%andb_prop _].
    coerced_by (coerceOr_text l TBytes (or_intror eq_refl) Hl El). coerced_by (coerceOr_text r TBytes (or_intror eq_refl) Hr Er). apply (wf_call2 _ _ _ _ _ TBytes TBytes); try done; try (by destruct op). intros. by apply bitwiseBytesFn_yields.
Qed.
Lemma bindShift_binds d l r : wf G l -> wf G r -> binds (bindShift d l r).
Proof.
  intros Hl Hr. unfold bindShift. coerced_by (coerceTo_as r TInt64 Hr). destruct (int64OrNull l) eqn:Ei; [|destruct (isBytes (e_typ l)) eqn:Eb; [|done]].
  - coerced_by (coerceOr_int64 l Hl Ei). apply (wf_call2 _ _ _ _ _ TInt64 TInt64); try done; try (by destruct d). intros. by apply shiftIntFn_yields.
  - apply (wf_call2 _ _ _ _ _ TBytes TInt64); try done; try (by destruct d); try (by destruct (e_typ l)). intros. by apply shiftBytesFn_yields.
Qed.

(** *** Dates *)

Lemma addTimestamp_typed ts n unit r : addTimestamp ts n unit = Ret r -> is_int64b r = true.
Proof. unfold addTimestamp. destruct (mulInt64 _ _); try done. destruct (addInt64 _ _); try done. apply checkTimestamp_typed. Qed.
Lemma withSign_safe minus k : withSign minus k <> Panic.
Proof. unfold withSign. by destruct minus, (k =? int64_min). Qed.
Lemma addTimestamp_safe ts n unit : addTimestamp ts n unit <> Panic.
Proof. unfold addTimestamp. destruct (mulInt64 _ _); try done. destruct (addInt64 _ _); try done. apply checkTimestamp_safe. Qed.
Lemma dateFromYMD_safe y m d : dateFromYMD y m d <> Panic.
Proof. unfold dateFromYMD. apply checkDate_safe. Qed.
Lemma addDate_safe d n part : addDate d n part <> Panic.
Proof. unfold addDate, checkDateI. repeat case_match; try done; apply checkDate_safe || apply dateFromYMD_safe. Qed.
Lemma dateFromYMD_typed y m d r : dateFromYMD y m d = Ret r -> is_int32b r = true.
Proof. apply checkDate_typed. Qed.
Lemma addDate_typed d n part r : addDate d n part = Ret r -> is_int32b r = true.
Proof. unfold addDate, checkDateI. intros Hr. repeat case_match; lazymatch type of Hr with checkDate _ = _ => exact (checkDate_typed _ _ Hr) | dateFromYMD _ _ _ = _ => exact (dateFromYMD_typed _ _ _ _ Hr) | _ => discriminate Hr end. Qed.

Lemma tsAddFn_yields minus unit v w : has_type v TTimestamp = true -> has_type w TInt64 = true -> v <> VNull -> w <> VNull -> yields (tsAddFn minus unit [v; w]) TTimestamp.
Proof.
  intros Hv Hw Hn Hm. destruct v, w; try done. cbn. pose proof (withSign_safe minus n). destruct (withSign minus n) as [k| |]; try done. cbn. pose proof (addTimestamp_safe us k unit). destruct (addTimestamp us k unit) eqn:E; try done. by eapply addTimestamp_typed.
Qed.
Lemma dateAddFn_yields minus unit v w : has_type v TDate = true -> has_type w TInt64 = true -> v <> VNull -> w <> VNull -> yields (dateAddFn minus unit [v; w]) TDate.
Proof.
  intros Hv Hw Hn Hm. destruct v, w; try done. cbn. pose proof (withSign_safe minus n). destruct (withSign minus n) as [k| |]; try done. cbn. pose proof (addDate_safe days k unit). destruct (addDate days k unit) eqn:E; try done. by eapply addDate_typed.
Qed.
Lemma tsAddExpr_wf minus ts n unit : wf G ts -> wf G n -> typesEqual (e_typ ts) TTimestamp = true -> typesEqual (e_typ n) TInt64 = true -> wf G (tsAddExpr minus ts n unit).
Proof. intros. apply wf_set_extra, (wf_call2 _ _ _ _ _ TTimestamp TInt64); try done. intros. by apply tsAddFn_yields. Qed.
Lemma dateAddExpr_wf minus d n unit : wf G d -> wf G n -> typesEqual (e_typ d) TDate = true -> typesEqual (e_typ n) TInt64 = true -> wf G (dateAddExpr minus d n unit).
Proof. intros. apply wf_set_extra, (wf_call2 _ _ _ _ _ TDate TInt64); try done. intros. by apply dateAddFn_yields. Qed.
Lemma dateAddDays_binds minus d n : wf G d -> wf G n -> isDate (e_typ d) = true -> binds (dateAddDays minus d n).
Proof. intros Hd Hn Ht. unfold dateAddDays. coerced_by (coerce_as n TInt64 Hn). apply dateAddExpr_wf; try done. by destruct (e_typ d). Qed.

(** *** Binary operators *)

Lemma logical_binds (and : bool) l r : wf G l -> wf G r -> binds (if and then logical (str "$and") evalAnd l r else logical (str "$or") evalOr l r).
Proof.
  intros Hl Hr. unfold logical. destruct and; coerced_by (coerceTo_as l TBool Hl); coerced_by (coerceTo_as r TBool Hr).
  - apply wf_lazy; [by apply all2| |].
    + intros o Ho. vm_compute in Ho. injection Ho as <-. cbn. split_and!; try done. eexists _, _. split_and!; [done|by apply typesEqual_scalar|by apply typesEqual_scalar].
    + intros now rs _ Hrs. apply vals2 in Hrs as (a & b & -> & Ha & Hb). apply evalAnd_yields; (eapply yields_equal; [|eassumption]; done).
  - apply wf_lazy; [by apply all2| |].
    + intros o Ho. vm_compute in Ho. injection Ho as <-. cbn. split_and!; try done. by eexists _, _.
    + intros now rs _ Hrs. apply vals2 in Hrs as (a & b & -> & Ha & Hb). apply evalOr_yields; (eapply yields_equal; [|eassumption]; done).
Qed.
Lemma binary_binds op l r : wf G l -> wf G r -> binds (binary op l r).
Proof.
  intros Hl Hr. destruct op as [op| |op| | |op|d]; cbn [binary].
  - assert (forall minus, binds (if isDate (e_typ l) && int64OrNull r then dateAddDays minus l r else if negb minus && isDate (e_typ r) && isInt64 (e_typ l) then dateAddDays minus r l else if isDateOrTs (e_typ l) || isDateOrTs (e_typ r) then Err Unimplemented else arith op l r)) as Hd.
    { intros minus. destruct (isDate (e_typ l) && _) eqn:E1; [apply andb_prop in E1 as [? _]; by apply dateAddDays_binds|]. destruct (negb minus && isDate (e_typ r) && _) eqn:E2; [apply andb_prop in E2 as [[_ ?]%andb_prop _]; by apply dateAddDays_binds|]. destruct (_ || _); [done|by apply arith_binds]. }
    destruct op; try (by apply arith_binds); apply Hd.
  - by apply bindConcatOp_binds.
  - by apply bindCompare_binds.
  - by apply (logical_binds true).
  - by apply (logical_binds false).
  - by apply bindBitwise_binds.
  - by apply bindShift_binds.
Qed.

(** *** IS, IN, BETWEEN, LIKE, CASE *)

Lemma bindIs_binds w not x : wf G x -> binds (bindIs w not x).
Proof.
  intros Hx. destruct w as [|want]; cbn [bindIs].
  - apply wf_call_lax; [by apply all1|by destruct not|]. intros vs Hvs. by apply vals1 in Hvs as (v & -> & _).
  - coerced_by (coerceTo_as x TBool Hx). apply wf_call_lax; [by apply all1|by destruct not, want|]. intros vs Hvs. by apply vals1 in Hvs as (v & -> & _).
Qed.

Lemma results_typed rs args t : Forall2 (fun r a => yields r (e_typ a)) rs args -> Forall (fun a => typesEqual (e_typ a) t = true) args -> Forall (fun r => yields r t) rs.
Proof. intros Hrs Ht. induction Hrs as [|r a rs args Hr Hrs IH]; [constructor|]. apply Forall_cons in Ht as [Ha Ht]. constructor; [by eapply yields_equal|by apply IH]. Qed.
Lemma bindInList_binds not x list : wf G x -> Forall (wf G) list -> binds (bindInList not x list).
Proof.
  intros Hx Hl. unfold bindInList. apply common_binds. intros t. destruct (negb _); [done|]. apply coerceAll_binds; [by constructor|]. intros out Hout Ht Hlen. destruct out as [|x' out]; [done|]. apply wf_lazy; [done| |].
  - intros o Ho. destruct not; vm_compute in Ho; [done|]. injection Ho as <-. cbn. split_and!; try done. by eexists _, _.
  - intros now rs _ Hrs. pose proof (results_typed _ _ _ Hrs Ht) as Hy. destruct rs; [by inversion Hrs|]. apply Forall_cons in Hy as [? ?]. by eapply evalIn_yields.
Qed.
Lemma typeOnly_wf t : wf G (typeOnly t).
Proof. by apply wf_const. Qed.
Lemma bindInUnnest_binds not x arr : wf G x -> wf G arr -> binds (bindInUnnest not x arr).
Proof.
  intros Hx Ha. unfold bindInUnnest. destruct (negb (isArray (e_typ arr)) && negb (isNullLit arr)) eqn:En; [done|]. set (arr' := if isNullLit arr then _ else arr).
  assert (wf G arr' /\ exists te, e_typ arr' = TArray te) as (Ha' & te & ->).
  { unfold arr'. destruct (isNullLit arr); [split; [by apply wf_const|by eexists]|]. split; [done|]. rewrite andb_true_r in En. apply negb_false_iff in En. destruct (e_typ arr); try done. by eexists. }
  apply common_binds. intros t. destruct (negb (equalityComparable t)); [done|]. coerced_by (coerce_as x t Hx). apply (binds_bind _ _ _ (coerce_as arr' (TArray t) Ha')). intros a [Hw Ht]. apply wf_lazy; [by apply all2| |].
  - intros o Ho. destruct not; vm_compute in Ho; [done|]. injection Ho as <-. cbn. split_and!; try done. destruct (e_typ a) as [| | | | | | | | |ta| |] eqn:Ea; try done. by eexists _, _, _.
  - intros now rs _ Hrs. apply vals2 in Hrs as (xr & ar & -> & Hxr & Har). apply (evalInUnnest_yields not now xr ar t); eapply yields_equal; [|exact Hxr| |exact Har]; done.
Qed.
Lemma bindBetween_binds not x lo hi : wf G x -> wf G lo -> wf G hi -> binds (bindBetween not x lo hi).
Proof.
  intros Hx Hlo Hhi. unfold bindBetween. apply common_binds. intros t. destruct (_ || _); [done|]. apply coerceAll_binds; [constructor; [done|by apply all2]|]. intros [|x' [|lo' [|hi' []]]] Hout Ht Hlen; try done. apply wf_lazy; [done| |].
  - intros o Ho. destruct not; vm_compute in Ho; [done|]. injection Ho as <-. cbn. split_and!; try done. by eexists _, _, _.
  - intros now rs _ Hrs. pose proof (results_typed _ _ _ Hrs Ht) as Hy. apply Forall2_length in Hrs. destruct rs as [|? [|? [|? []]]]; try done. rewrite !Forall_cons in Hy. destruct Hy as (? & ? & ? & _). by eapply evalBetween_yields.
Qed.

Lemma compileLike_isStr v isStr lp : compileLike v isStr = Ret lp -> lp_isStr lp = isStr.
Proof. unfold compileLike. intros. inv_outcome. done. Qed.
Lemma bindLike_binds not x p : wf G x -> wf G p -> binds (bindLike not x p).
Proof.
  intros Hx Hp. unfold bindLike.
  assert (forall isStr : bool, canCoerce x (if isStr then TString else TBytes) = true -> canCoerce p (if isStr then TString else TBytes) = true ->
    binds (x ← coerceOr x (if isStr then TString else TBytes); p ← coerceOr p (if isStr then TString else TBytes); cached ← cachedLike p isStr;
           Ret (callExpr (if not then str "$not_like" else str "$like") TBool (likeFn cached isStr not) [x; p]))) as Hl.
  2:{ destruct (canCoerce x TString && canCoerce p TString) eqn:E1; [apply andb_prop in E1 as [? ?]; by apply (Hl true)|]. destruct (canCoerce x TBytes && canCoerce p TBytes) eqn:E2; [apply andb_prop in E2 as [? ?]; by apply (Hl false)|done]. }
  intros isStr Hcx Hcp. set (t := if isStr then TString else TBytes) in *. assert (t = TString \/ t = TBytes) as Ht by (destruct isStr; auto). assert (scalar t = true) as Hs by (by destruct isStr).
  apply (binds_bind _ _ _ (coerceOr_text x t Ht Hx Hcx)). intros x' [Hx' Htx]. apply (binds_bind _ _ _ (coerceOr_text p t Ht Hp Hcp)). intros p' [Hp' Htp]. apply typesEqual_scalar in Htx, Htp; try done.
  assert (match cachedLike p' isStr with Ret c => forall lp, c = Some lp -> e_kind p' = ekConst /\ compileLike (e_val p') isStr = Ret lp | Err _ => True | Panic => False end) as Hc.
  { unfold cachedLike. destruct (bool_decide (e_kind p' = ekConst) && negb (isNull (e_val p'))) eqn:Ek; [|done]. apply andb_prop in Ek as [Ek%bool_decide_eq_true Env]. inversion Hp' as [p2 _ Hnode _ _]; subst p2. unfold node_ok in Hnode. rewrite Ek, Htp in Hnode.
    destruct (likeElems_typed (e_val p') isStr Hnode) as [ps Eps]; [by destruct (e_val p')|]. destruct (compileLike (e_val p') isStr) as [lp| |] eqn:El; [|done|].
    - intros lp' [= <-]. done.
    - unfold compileLike in El. rewrite Eps in El. cbn [mbind outcome_bind] in El. pose proof (compile_safe ps false). by destruct (compileToks false ps). }
  destruct (cachedLike p' isStr) as [cached| |]; try done. cbn [mbind outcome_bind binds]. apply (wf_two _ _ _ _ _ t t); try done; try (rewrite Htx || rewrite Htp; apply typesEqual_refl).
  - intros o Ho. destruct not; vm_compute in Ho; [done|]. injection Ho as <-. cbn. split_and!; try done. by eexists _, _, _, _.
  - intros v w Hv Hw Hnv Hnw. apply likeFn_yields; try done. intros lp Elp. destruct (Hc lp Elp) as [_ El]. by eapply compileLike_isStr.
Qed.

Lemma lookup_typed rs args t i r : Forall2 (fun r a => yields r (e_typ a)) rs args -> rs !! i = Some r -> (forall a, args !! i = Some a -> typesEqual (e_typ a) t = true) -> yields r t.
Proof. intros Hrs Hi Ht. destruct (Forall2_lookup_l _ _ _ _ _ Hrs Hi) as (a & Ha & Hy). eapply yields_equal; [by apply Ht|done]. Qed.
Lemma bindCase_binds operand conds results els : match operand with Some e => wf G e | None => True end -> Forall (wf G) conds -> Forall (wf G) results -> length conds = length results -> match els with Some e => wf G e | None => True end ->
  binds (bindCase operand conds results els).
Proof.
  intros Ho Hc Hr Hlen He. unfold bindCase. apply common_binds'. intros rt. apply coerceAll_binds.
  { apply Forall_app. split; [done|]. apply all1. destruct els; [done|by apply wf_const]. }
  intros res Hres Hrt Hlr. rewrite length_app in Hlr. cbn in Hlr. destruct operand as [operand|].
  - apply common_binds. intros ct. destruct (negb _); [done|]. apply coerceAll_binds; [by constructor|]. intros all Hall Hct Hla. cbn in Hla. apply wf_lazy; [by apply Forall_app|intros o Eo; by vm_compute in Eo|].
    intros now rs _ Hrs. pose proof (Forall2_length _ _ _ Hrs) as Hl. rewrite length_app in Hl. rewrite list.Forall_forall in Hct. rewrite list.Forall_forall in Hrt.
    unfold evalCaseValue. destruct rs as [|ov rs]; [cbn in Hl; lia|]. assert (yields ov ct) as Hov by (apply (lookup_typed _ _ _ 0 _ Hrs eq_refl); intros a Ha; apply Hct; rewrite lookup_app_l in Ha by lia; by eapply list_elem_of_lookup_2).
    destruct ov as [ov| |]; cbn [mbind outcome_bind]; try done. apply (caseValueLoop_yields _ _ ct); try lia; try done.
    + intros i r Hi Er. apply (lookup_typed _ _ _ _ _ Hrs Er). intros a Ha. apply Hct. rewrite lookup_app_l in Ha by lia. by eapply list_elem_of_lookup_2.
    + intros i r Hi Er. apply (lookup_typed _ _ _ _ _ Hrs Er). intros a Ha. apply Hrt. rewrite lookup_app_r in Ha by lia. by eapply list_elem_of_lookup_2.
  - assert (match collectM (fun c => coerceTo c TBool) conds with Ret out => Forall (wf G) out /\ Forall (fun a => typesEqual (e_typ a) TBool = true) out /\ length out = length conds | Err _ => True | Panic => False end) as Hcs.
    { clear -Hc. induction Hc as [|c conds Hc Hcs IH]; cbn; [done|]. pose proof (coerceTo_as c TBool Hc) as H1. destruct (coerceTo c TBool); cbn; try done. destruct (collectM _ conds); cbn; try done. destruct H1, IH as (? & ? & ?). split_and!; [by constructor|by constructor|by f_equal]. }
    destruct (collectM _ conds) as [cs| |]; cbn [mbind outcome_bind]; try done. destruct Hcs as (Hcs & Hct & Hlc). apply wf_lazy; [by apply Forall_app|intros o Eo; by vm_compute in Eo|].
    intros now rs _ Hrs. pose proof (Forall2_length _ _ _ Hrs) as Hl. rewrite length_app in Hl. rewrite list.Forall_forall in Hct. rewrite list.Forall_forall in Hrt. apply caseLoop_yields; try lia.
    + intros i r Hi Er. apply (lookup_typed _ _ _ _ _ Hrs Er). intros a Ha. apply Hct. rewrite lookup_app_l in Ha by lia. by eapply list_elem_of_lookup_2.
    + intros i r Hi Er. apply (lookup_typed _ _ _ _ _ Hrs Er). intros a Ha. apply Hrt. rewrite lookup_app_r in Ha by lia. by eapply list_elem_of_lookup_2.
Qed.

(** *** Subscripts, casts and constructors *)

Lemma bindIndex_binds m x idx : wf G x -> wf G idx -> binds (bindIndex m x idx).
Proof.
  intros Hx Hi. unfold bindIndex. assert (binds (if isNullLit x then Ret (constExpr VNull TInt64 litNull) else Err InvalidArgument)) as Hn by (destruct (isNullLit x); [by apply wf_const|done]).
  destruct (e_typ x) as [| | | | | | | | |te|fs|tk tv] eqn:Ex; try exact Hn.
  - destruct m; try done; coerced_by (coerceTo_as idx TInt64 Hi); apply wf_set_extra, (wf_call2 _ _ _ _ _ (TArray te) TInt64); try done; try (rewrite Ex; apply typesEqual_refl); intros; by apply arrayAtFn_yields.
  - destruct m; try done; coerced_by (coerceTo_as idx tk Hi); apply wf_set_extra, (wf_call2 _ _ _ _ _ (TMap tk tv) tk); try done; try (rewrite Ex; apply typesEqual_refl); intros; by eapply mapAtFn_yields.
Qed.
Lemma castFn_yields safe from to v : has_type v from = true -> yields (castFn safe from to [v]) to.
Proof. intros Hv. cbn. pose proof (castValue_yields v from to UTC Hv) as Hy. destruct (castValue v from to UTC); try done. by destruct safe. Qed.
Lemma bindCast_binds safe to x : wf G x -> binds (bindCast safe to x).
Proof.
  intros Hx. unfold bindCast. destruct (isMap to); [done|]. destruct (isNullLit x); [by apply wf_const|]. destruct (emptyArray x && isArray to) eqn:Ee.
  { apply andb_prop in Ee as [_ Ea]. destruct to; try done. apply wf_array; constructor. }
  destruct (negb _); [done|]. apply wf_set_extra, (wf_call1 _ _ _ _ (e_typ x)); [by destruct safe|done|apply typesEqual_refl|]. intros. by apply castFn_yields.
Qed.
Lemma wf_typed_array e : wf G e -> wf G (set_ctor (str "typed_array") e).
Proof. intros He. inversion He; subst. by constructor. Qed.
Lemma bindArrayLit_binds et elems : Forall (wf G) elems -> binds (bindArrayLit et elems).
Proof.
  intros Hes. unfold bindArrayLit.
  assert (forall t, binds (if isArray t then Err InvalidArgument else co ← coerceAll elems t; let r := makeArrayCtor (TArray t) co in Ret match et, co with Some _, [] => set_ctor (str "typed_array") r | _, _ => r end)) as Hk.
  { intros t. destruct (isArray t); [done|]. apply coerceAll_binds; [done|]. intros co Hco Ht _. assert (wf G (makeArrayCtor (TArray t) co)) by (by apply wf_array). cbn. destruct et, co; try done. by apply wf_typed_array. }
  destruct et as [t|]; [apply Hk|]. destruct elems as [|e elems]; [apply wf_array; constructor|]. by apply common_binds'.
Qed.
Lemma coerceFields_binds fields fs : Forall (wf G) fields -> length fs = length fields ->
  match coerceFields fields fs with Ret out => Forall (wf G) out /\ Forall2 (fun a f => typesEqual (e_typ a) f.2 = true) out fs | Err _ => True | Panic => False end.
Proof.
  intros Hf. revert fs. induction Hf as [|e fields He Hf IH]; intros [|f fs] Hlen; try done. cbn. pose proof (coerce_as e f.2 He) as Hc. destruct (coerce e f.2); cbn; try done. specialize (IH fs ltac:(cbn in Hlen; lia)). destruct (coerceFields fields fs); cbn; try done. destruct Hc, IH. by split; constructor.
Qed.
Lemma nameFields_binds names fields : (length fields <= length names)%nat ->
  match nameFields names fields with Ret fs => Forall2 (fun a f => typesEqual (e_typ a) f.2 = true) fields fs | Err _ => False | Panic => False end.
Proof.
  revert names. induction fields as [|e fields IH]; intros names Hlen; cbn; [constructor|]. destruct names as [|n names]; [cbn in Hlen; lia|]. specialize (IH names ltac:(cbn in Hlen; lia)). destruct (nameFields names fields); cbn; try done. constructor; [apply typesEqual_refl|done].
Qed.
(** A struct type, or no type at all, comes with a struct literal; the parser names every field. *)
Definition structType (t : option sqlType) : Prop := match t with Some (TStruct _) | None => True | Some _ => False end.
Lemma bindStructLit_binds t names fields : structType t -> (length fields <= length names)%nat -> Forall (wf G) fields -> binds (bindStructLit t names fields).
Proof.
  intros Ht Hn Hf. unfold bindStructLit. destruct t as [t|].
  - destruct t as [| | | | | | | | | |fs|]; try done. destruct (negb (Nat.eqb (length fs) (length fields))) eqn:El; [done|]. apply negb_false_iff, Nat.eqb_eq in El. pose proof (coerceFields_binds fields fs Hf El) as Hc. destruct (coerceFields fields fs); try done. destruct Hc. by apply wf_struct.
  - pose proof (nameFields_binds names fields Hn) as Hc. destruct (nameFields names fields); try done. by apply wf_struct.
Qed.
End wf.
#[export] Hint Resolve arith_binds unary_binds binary_binds bindIs_binds bindInList_binds bindInUnnest_binds bindBetween_binds bindLike_binds bindIndex_binds bindCast_binds bindArrayLit_binds : lbt.
