(* ===== verification/Funcs.v ===== *)
(** * Scalar functions: overloads and the function table

    The machinery of [internal/gsql/bind.go] for function calls: an overload [sig] says
    which argument types it takes and how it is evaluated; [bySigs] resolves the first
    overload that matches.  A function promises that a call with well-formed arguments
    binds to a well-formed expression; [sig_ok] is what an overload has to promise. *)

From stdpp Require Import base list.
From Stdlib Require Import ZArith Lia.
From Stdlib Require Import Floats.SpecFloat.
From S2P Require Import Prelude Proto Rows Server Tokens SqlValues SqlFloat SqlArith SqlTime SqlOps SqlCast Bexpr BindOps.

#[local] Open Scope Z_scope.

(** The [bind] of a function: its name and its bound arguments. *)
Abbreviation binding := (bytes -> list bexpr -> outcome bexpr).
Abbreviation evaluator := (list value -> outcome value).

(** Reads off a coercion that succeeded. *)
Ltac coerced_by H := apply (binds_bind _ _ _ _ H); intros ? [? ?].

(** The values of a list of types, one by one. *)
Ltac value_list :=
  repeat match goal with
  | H : Forall2 _ _ (_ :: _) |- _ => inversion H; clear H; subst
  | H : Forall2 _ _ [] |- _ => inversion H; clear H; subst
  | H : _ /\ _ |- _ => destruct H
  end.

Record sig : Type := mkSig {
  sg_args : list sqlType;
  sg_minArgs : nat;
  sg_variadic : bool;
  sg_ret : sqlType;
  sg_fn : evaluator;
  sg_nullOK : bool;
}.
Definition s1 (a ret : sqlType) (fn : value -> outcome value) : sig :=
  mkSig [a] 0 false ret (fun x => match x with v :: _ => fn v | [] => Panic end) false.
Definition s2 (a b ret : sqlType) (fn : value -> value -> outcome value) : sig :=
  mkSig [a; b] 0 false ret (fun x => match x with v :: w :: _ => fn v w | _ => Panic end) false.

Section sigs.
Context `{TimeZones} `{Strconv}.

(** [s.args[min(i, len(s.args)-1)]]. *)
Definition typeAt (s : sig) (i : nat) : option sqlType := sg_args s !! Nat.min i (length (sg_args s) - 1)%nat.
Definition required (s : sig) : nat := match sg_minArgs s with O => length (sg_args s) | n => n end.
Fixpoint matchesFrom (s : sig) (i : nat) (args : list bexpr) : outcome bool :=
  match args with
  | [] => Ret true
  | a :: args' => match typeAt s i with Some t => if canCoerce a t then matchesFrom s (S i) args' else Ret false | None => Panic end
  end.
Definition sig_matches (s : sig) (args : list bexpr) : outcome bool :=
  let n := length args in
  if Nat.ltb n (required s) || (negb (sg_variadic s) && Nat.ltb (length (sg_args s)) n) then Ret false else matchesFrom s 0 args.
Fixpoint coerceFrom (s : sig) (i : nat) (args : list bexpr) : outcome (list bexpr) :=
  match args with
  | [] => Ret []
  | a :: args' => match typeAt s i with Some t => c ← coerce a t; cs ← coerceFrom s (S i) args'; Ret (c :: cs) | None => Panic end
  end.
Definition sig_build (s : sig) (name : bytes) (args : list bexpr) : outcome bexpr :=
  co ← coerceFrom s 0 args; Ret (set_strict (negb (sg_nullOK s)) (callExpr name (sg_ret s) (sg_fn s) co)).
Fixpoint bySigs (ss : list sig) (name : bytes) (args : list bexpr) : outcome bexpr :=
  match ss with
  | [] => Err InvalidArgument
  | s :: ss' => m ← sig_matches s args; if m : bool then sig_build s name args else bySigs ss' name args
  end.

(** ** What overloads promise *)

(** The values of a call have the types of the overload. *)
Definition argTyped (s : sig) (i : nat) (v : value) : Prop := exists t, typeAt s i = Some t /\ has_type v t = true.
Definition sig_ok (s : sig) : Prop :=
  sg_args s = [] /\ sg_variadic s = false /\ yields (sg_fn s []) (sg_ret s) \/
  sg_args s <> [] /\
  forall vs, (required s <= length vs)%nat -> (sg_variadic s = true \/ (length vs <= length (sg_args s))%nat) -> (forall i v, vs !! i = Some v -> argTyped s i v) ->
    (sg_nullOK s = false -> Forall (fun v => v <> VNull) vs) -> yields (sg_fn s vs) (sg_ret s).

Lemma s1_ok a ret fn : (forall v, has_type v a = true -> v <> VNull -> yields (fn v) ret) -> sig_ok (s1 a ret fn).
Proof.
  intros Hf. right. split; [done|]. intros [|v [|]] Hr Hl Ht Hn; cbn in Hr; try lia; [|destruct Hl; [done|cbn in *; lia]]. cbn. destruct (Ht 0%nat v eq_refl) as (t & [= <-] & Hv). apply Hf; [done|]. specialize (Hn eq_refl). by inversion Hn.
Qed.
Lemma s2_ok a b ret fn : (forall v w, has_type v a = true -> has_type w b = true -> v <> VNull -> w <> VNull -> yields (fn v w) ret) -> sig_ok (s2 a b ret fn).
Proof.
  intros Hf. right. split; [done|]. intros [|v [|w [|]]] Hr Hl Ht Hn; cbn in Hr; try lia; [|destruct Hl; [done|cbn in *; lia]]. cbn. destruct (Ht 0%nat v eq_refl) as (t & [= <-] & Hv). destruct (Ht 1%nat w eq_refl) as (t & [= <-] & Hw). specialize (Hn eq_refl). inversion Hn as [|? ? ? Hn']; subst. inversion Hn'; subst. by apply Hf.
Qed.
(** Overloads with optional arguments: the types position by position. *)
Fixpoint typedTo (ts : list sqlType) (vs : list value) : Prop :=
  match vs, ts with [], _ => True | v :: vs', t :: ts' => (has_type v t = true /\ v <> VNull) /\ typedTo ts' vs' | _ :: _, [] => False end.
Lemma optional_ok args k ret fn : args <> [] -> (forall vs, (required (mkSig args k false ret fn false) <= length vs)%nat -> typedTo args vs -> yields (fn vs) ret) -> sig_ok (mkSig args k false ret fn false).
Proof.
  intros Hne Hf. right. split; [done|]. intros vs Hr Hl Ht Hn. destruct Hl as [|Hl]; [done|]. cbn in Hl. apply Hf; [done|]. specialize (Hn eq_refl).
  assert (forall i v, vs !! i = Some v -> exists t, args !! i = Some t /\ has_type v t = true) as Ha.
  { intros i v Hi. destruct (Ht i v Hi) as (t & Hat & Hv). unfold typeAt in Hat. cbn in Hat. exists t. split; [|done]. apply lookup_lt_Some in Hi. by rewrite Nat.min_l in Hat by lia. }
  clear -Ha Hn. revert vs Ha Hn. induction args as [|t args IH]; intros [|v vs] Ha Hn; cbn; try done.
  - destruct (Ha 0%nat v eq_refl) as (? & ? & _). done.
  - destruct (Ha 0%nat v eq_refl) as (? & [= <-] & Hv). inversion Hn; subst. split; [done|]. apply IH; [|done]. intros i w Hi. apply (Ha (S i) w Hi).
Qed.

Context (G : tenv).

Lemma coerceFrom_binds s args : Forall (wf G) args -> sg_args s <> [] -> forall i,
  match coerceFrom s i args with Ret out => Forall (wf G) out /\ length out = length args /\ (forall j e, out !! j = Some e -> exists t, typeAt s (i + j) = Some t /\ typesEqual (e_typ e) t = true) | Err _ => True | Panic => False end.
Proof.
  intros Hargs Hne. induction Hargs as [|a args Ha Hargs IH]; intros i; cbn; [split_and!; done|].
  assert (exists t, typeAt s i = Some t) as [t Et]. { unfold typeAt. apply lookup_lt_is_Some_2. destruct (sg_args s); [done|]. cbn. lia. }
  rewrite Et. pose proof (coerce_as G a t Ha) as Hc. destruct (coerce a t) as [c| |]; cbn; try done. specialize (IH (S i)). destruct (coerceFrom s (S i) args) as [cs| |]; cbn; try done. destruct Hc as [Hw Ht], IH as (Hws & Hl & Hts). split_and!; [by constructor|by f_equal|].
  intros [|j] e; cbn; [intros [= <-]; exists t; by rewrite Nat.add_0_r|]. intros Hj. rewrite Nat.add_succ_r. by apply (Hts j).
Qed.
Lemma matches_safe s args : sg_args s <> [] -> forall i, matchesFrom s i args <> Panic.
Proof.
  intros Hne. induction args as [|a args IH]; intros i; cbn; [done|]. assert (exists t, typeAt s i = Some t) as [t ->]. { unfold typeAt. apply lookup_lt_is_Some_2. destruct (sg_args s); [done|]. cbn. lia. } by destruct (canCoerce a t).
Qed.
Lemma sig_matches_safe s args : sig_ok s -> sig_matches s args <> Panic.
Proof.
  unfold sig_matches. intros [(Ha & Hv & _)|[Hne _]].
  - destruct args as [|a args]; [by destruct (_ || _)|]. rewrite Ha, Hv. cbn. by rewrite orb_true_r.
  - destruct (_ || _); [done|]. by apply matches_safe.
Qed.
Lemma sig_build_binds s name args : sig_ok s -> Forall (wf G) args ->
  (forall co, length co = length args -> name_ok (set_strict (negb (sg_nullOK s)) (callExpr name (sg_ret s) (sg_fn s) co))) -> sig_matches s args = Ret true -> binds G (sig_build s name args).
Proof.
  intros Hs Hargs Hname Hm. unfold sig_build. unfold sig_matches in Hm. destruct (Nat.ltb (length args) (required s) || _) eqn:El; [done|]. apply orb_false_elim in El as [Er%Nat.ltb_ge Ev].
  destruct Hs as [(Ha & Hv & Hy)|[Hne Hy]].
  - destruct args as [|a args]; [|rewrite Ha, Hv in Ev; by cbn in Ev]. cbn. constructor; [constructor| |by split|by apply Hname]. intros vs Hvs _. inversion Hvs; subst. exact Hy.
  - pose proof (coerceFrom_binds s args Hargs Hne 0) as Hc. destruct (coerceFrom s 0 args) as [co| |]; cbn [mbind outcome_bind]; try done. destruct Hc as (Hw & Hl & Ht). cbn. constructor; [done| |by split|by apply Hname]. intros vs Hvs%possible_typed Hs. cbn in Hvs, Hs |- *. pose proof (Forall2_length _ _ _ Hvs) as Hlen.
    apply Hy; [lia| | |].
    + destruct (sg_variadic s); [by left|]. right. cbn in Ev. apply Nat.ltb_ge in Ev. lia.
    + intros i v Hi. destruct (Forall2_lookup_l _ _ _ _ _ Hvs Hi) as (e & He & Hv). destruct (Ht i e He) as (t & Et & Hte). exists t. split; [done|]. by eapply has_type_equal.
    + intros En. rewrite En in Hs. apply no_nulls. by apply Hs.
Qed.
Lemma bySigs_binds ss name args : Forall sig_ok ss -> Forall (wf G) args -> operatorOf name = None -> binds G (bySigs ss name args).
Proof.
  intros Hss Hargs Hn. induction Hss as [|s ss Hs Hss IH]; cbn; [done|]. pose proof (sig_matches_safe s args Hs) as Hsafe. destruct (sig_matches s args) as [[]| |] eqn:Em; cbn [mbind outcome_bind]; try done.
  apply sig_build_binds; try done. intros co _. by apply plain_name.
Qed.
Lemma all3 {A : Type} (P : A -> Prop) x y z : P x -> P y -> P z -> Forall P [x; y; z].
Proof. intros. constructor; [done|]. by apply all2. Qed.
Lemma each3 {A B : Type} (P : A -> B -> Prop) x y z a b c : P x a -> P y b -> P z c -> Forall2 P [x; y; z] [a; b; c].
Proof. by repeat constructor. Qed.

(** What a function of the table promises. *)
Definition func_ok (p : bytes * binding) : Prop := forall args, Forall (wf G) args -> binds G (p.2 p.1 args).
Lemma sigs_ok name ss : operatorOf name = None -> Forall sig_ok ss -> func_ok (name, bySigs ss).
Proof. intros Hn Hs args Hargs. by apply bySigs_binds. Qed.

(** A strict call with arguments of the given types. *)
Lemma wf_typed name t fn args ts : operatorOf name = None -> Forall (wf G) args -> Forall2 (fun a u => typesEqual (e_typ a) u = true) args ts ->
  (forall vs, Forall2 (fun v u => has_type v u = true /\ v <> VNull) vs ts -> yields (fn vs) t) -> wf G (callExpr name t fn args).
Proof.
  intros Hn Ha Ht Hf. apply wf_call; [done|by apply plain_name|]. intros vs Hvs Hnull%no_nulls. apply Hf. clear -Ht Hvs Hnull. revert ts Ht Hnull.
  induction Hvs as [|v a vs args Hv Hvs IH]; intros ts Ht Hnull; inversion Ht; subst; [constructor|]. inversion Hnull; subst. constructor; [|by apply IH]. split; [|done]. by eapply has_type_equal.
Qed.
End sigs.
