(* ===== verification/FuncsMath.v ===== *)
(** * Mathematical functions

    [internal/gsql/funcs_math.go].  Rounding, sign and arithmetic functions are exact;
    the transcendental functions of package [math] are an interface that promises a
    float for a float.  RAND is [randExpr] of Bexpr.v, bound in Binder.v. *)

From stdpp Require Import base list.
From Stdlib Require Import ZArith Lia.
From Stdlib Require Import Floats.SpecFloat.
From S2P Require Import Prelude Proto Rows Server Tokens SqlValues SqlFloat SqlArith SqlTime SqlOps SqlCast Bexpr BindOps Aggregates Funcs.

#[local] Open Scope Z_scope.

(** The functions of package [math] by name. *)
Class MathLib : Type := {
  math_fn : bytes -> spec_float -> spec_float;
  math_Pow : spec_float -> spec_float -> spec_float;
  math_Atan2 : spec_float -> spec_float -> spec_float;
  math_fn_valid : forall name x, valid64 x = true -> valid64 (math_fn name x) = true;
  math_Pow_valid : forall x y, valid64 x = true -> valid64 y = true -> valid64 (math_Pow x y) = true;
  math_Atan2_valid : forall x y, valid64 x = true -> valid64 y = true -> valid64 (math_Atan2 x y) = true;
}.
#[export] Hint Resolve math_fn_valid math_Pow_valid math_Atan2_valid : lbt.

(** ** Rounding to integers *)

(** The magnitude [m * 2^e], [e] negative, rounded by [mag] on numerator and divisor;
    the zero keeps the sign. *)
Definition roundBy (mag : bool -> Z -> Z -> Z) (f : spec_float) : spec_float :=
  match f with
  | S754_finite s m e =>
      if 0 <=? e then f
      else let q := mag s (Z.pos m) (2 ^ (- e)) in if q =? 0 then S754_zero s else float_of_int (if s then - q else q)
  | f => f
  end.
Definition divUp (m d : Z) : Z := (m + d - 1) / d.
Definition math_Floor : spec_float -> spec_float := roundBy (fun s m d => if s then divUp m d else m / d).
Definition math_Ceil : spec_float -> spec_float := roundBy (fun s m d => if s then m / d else divUp m d).
Definition math_Trunc : spec_float -> spec_float := roundBy (fun _ m d => m / d).
Definition round_away : spec_float -> spec_float := roundBy (fun _ m d => (m + d / 2) / d).

Lemma roundBy_valid mag f : valid64 f = true -> valid64 (roundBy mag f) = true.
Proof. intros Hf. destruct f; cbn; try done. destruct (0 <=? _); [done|]. destruct (_ =? 0); [done|apply float_of_int_valid]. Qed.

(** ** Evaluators *)

Definition one : spec_float := float_of_int 1.
Definition zero : spec_float := S754_zero false.
Definition math_Pi : spec_float := S754_finite false 7074237752028440 (-51).

Definition f1 (fn : spec_float -> outcome value) : sig := s1 TFloat64 TFloat64 (fun v => match v with VFloat x => fn x | _ => Panic end).
Definition f2 (fn : spec_float -> spec_float -> outcome value) : sig :=
  s2 TFloat64 TFloat64 TFloat64 (fun v w => match v, w with VFloat x, VFloat y => fn x y | _, _ => Panic end).
Definition checked (r : spec_float) (inputs : list spec_float) : outcome value := f ← checkFloat r inputs; Ret (VFloat f).
Definition mathFn (fn : spec_float -> spec_float) : sig :=
  f1 (fun x => let r := fn x in if IsNaN r && negb (IsNaN x) then Err OutOfRange else checked r [x]).

Section math.
Context `{MathLib}.

Definition roundHalfAway (x : spec_float) (digits : Z) : outcome value :=
  if IsNaN x || IsInf x then Ret (VFloat x)
  else if 330 <? digits then Ret (VFloat x)
  else if digits <? -330 then Ret (VFloat zero)
  else
    let ten := float_of_int 10 in
    let p := math_Pow ten (float_of_int digits) in
    let r :=
      if 0 <=? digits then
        let xp := float64_mul x p in if IsInf xp then x else float64_div (round_away xp) p
      else let q := math_Pow ten (float_of_int (- digits)) in float64_mul (round_away (float64_div x q)) q in
    checked r [x].
Definition truncDigits (x : spec_float) (digits : Z) : outcome value :=
  if IsNaN x || IsInf x then Ret (VFloat x)
  else if 330 <? digits then Ret (VFloat x)
  else if digits <? -330 then Ret (VFloat zero)
  else if 0 <=? digits then
    let p := math_Pow (float_of_int 10) (float_of_int digits) in
    let xp := float64_mul x p in if IsInf xp then Ret (VFloat x) else Ret (VFloat (float64_div (math_Trunc xp) p))
  else
    let p := math_Pow (float_of_int 10) (float_of_int (- digits)) in
    Ret (VFloat (float64_mul (math_Trunc (float64_div x p)) p)).
(** ROUND and TRUNC with an optional number of digits. *)
Definition withDigits (fn : spec_float -> Z -> outcome value) : sig :=
  mkSig [TFloat64; TInt64] 1 false TFloat64
    (fun a => match a with [VFloat x] => fn x 0 | [VFloat x; VInt d] => fn x d | _ => Panic end) false.

Definition absInt (v : value) : outcome value :=
  match v with VInt x => if x =? int64_min then Err OutOfRange else Ret (VInt (if x <? 0 then - x else x)) | _ => Panic end.
Definition absFloat (v : value) : outcome value := match v with VFloat x => Ret (VFloat (SFabs x)) | _ => Panic end.
Definition signInt (v : value) : outcome value := match v with VInt x => Ret (VInt (Z.sgn x)) | _ => Panic end.
Definition signFloat (v : value) : outcome value :=
  match v with
  | VFloat x => Ret (VFloat (if IsNaN x then x else if SFltb zero x then one else if SFltb x zero then float_of_int (-1) else zero))
  | _ => Panic
  end.
Definition modFn (v w : value) : outcome value :=
  match v, w with
  | VInt x, VInt y => if y =? 0 then Err OutOfRange else if y =? -1 then Ret (VInt 0) else Ret (VInt (Z.rem x y))
  | _, _ => Panic
  end.
Definition divFn (v w : value) : outcome value :=
  match v, w with
  | VInt x, VInt y => if y =? 0 then Err OutOfRange else if (x =? int64_min) && (y =? -1) then Err OutOfRange else Ret (VInt (Z.quot x y))
  | _, _ => Panic
  end.
Definition powFn (x y : spec_float) : outcome value :=
  if isZero x && SFltb y zero then Err OutOfRange
  else let r := math_Pow x y in if IsNaN r && negb (IsNaN x) && negb (IsNaN y) then Err OutOfRange else checked r [x; y].
Definition logDomain (name : bytes) : sig := f1 (fun x => if SFleb x zero then Err OutOfRange else checked (math_fn name x) [x]).
Definition logBase (x base : spec_float) : outcome value :=
  if SFleb x zero || SFleb base zero || SFeqb base one then Err OutOfRange
  else checked (float64_div (math_fn (str "Log") x) (math_fn (str "Log") base)) [x; base].

(** The loop of GREATEST and LEAST. *)
Fixpoint bestOf (want : Z) (best : value) (vs : list value) : outcome value :=
  match vs with
  | [] => Ret best
  | v :: vs' => if isNaNValue v then Ret v else c ← compareValues v best; bestOf want (if 0 <? c * want then v else best) vs'
  end.
Definition greatestFn (want : Z) (a : list value) : outcome value := match a with [] => Panic | v :: _ => bestOf want v a end.

(** ** Functions *)

Context `{TimeZones} `{Strconv}.

Definition safeBin (op : arithOp) : binding := fun name args =>
  match args with
  | [l; r] => match arith op l r with Ret e => Ret (set_safe (set_name name e)) | Err _ => Err InvalidArgument | Panic => Panic end
  | _ => Err InvalidArgument
  end.
Definition safeNegate : binding := fun name args =>
  match args with
  | [x] => match negate x with Ret e => Ret (set_safe e) | Err _ => Err InvalidArgument | Panic => Panic end
  | _ => Err InvalidArgument
  end.
Definition greatest (want : Z) : binding := fun name args =>
  match args with
  | [] => Err InvalidArgument
  | _ =>
      t ← match commonType args with Err _ => Err InvalidArgument | t => t end;
      if isArray t || negb (orderable t) then Err InvalidArgument
      else co ← coerceAll args t; Ret (callExpr name t (greatestFn want) co)
  end.

Definition trig : list bytes := [str "Sin"; str "Cos"; str "Tan"; str "Asin"; str "Acos"; str "Atan"; str "Sinh"; str "Cosh"; str "Tanh"; str "Asinh"; str "Acosh"; str "Atanh"].
Definition upperByte (c : Z) : Z := if (97 <=? c) && (c <=? 122) then c - 32 else c.
Definition trigFuncs : list (bytes * binding) := (fun n => (upperByte <$> n, bySigs [mathFn (math_fn n)])) <$> trig.
Definition reciprocal (name : bytes) : sig := mathFn (fun x => float64_div one (math_fn name x)).

Definition mathFuncs : list (bytes * binding) :=
  [(str "ABS", bySigs [s1 TInt64 TInt64 absInt; s1 TFloat32 TFloat32 absFloat; s1 TFloat64 TFloat64 absFloat]);
   (str "SIGN", bySigs [s1 TInt64 TInt64 signInt; s1 TFloat32 TFloat32 signFloat; s1 TFloat64 TFloat64 signFloat]);
   (str "MOD", bySigs [s2 TInt64 TInt64 TInt64 modFn]);
   (str "DIV", bySigs [s2 TInt64 TInt64 TInt64 divFn]);
   (str "ROUND", bySigs [withDigits roundHalfAway]);
   (str "TRUNC", bySigs [withDigits truncDigits]);
   (str "CEIL", bySigs [f1 (fun x => Ret (VFloat (math_Ceil x)))]);
   (str "CEILING", bySigs [f1 (fun x => Ret (VFloat (math_Ceil x)))]);
   (str "FLOOR", bySigs [f1 (fun x => Ret (VFloat (math_Floor x)))]);
   (str "SQRT", bySigs [f1 (fun x => if SFltb x zero then Err OutOfRange else Ret (VFloat (float64_sqrt x)))]);
   (str "POW", bySigs [f2 powFn]);
   (str "POWER", bySigs [f2 powFn]);
   (str "EXP", bySigs [mathFn (math_fn (str "Exp"))]);
   (str "LN", bySigs [logDomain (str "Log")]);
   (str "LOG10", bySigs [logDomain (str "Log10")]);
   (str "LOG", bySigs [logDomain (str "Log"); f2 logBase]);
   (str "IEEE_DIVIDE", bySigs [f2 (fun x y => Ret (VFloat (float64_div x y)))]);
   (str "IS_INF", bySigs [s1 TFloat64 TBool (fun v => match v with VFloat x => Ret (VBool (IsInf x)) | _ => Panic end)]);
   (str "IS_NAN", bySigs [s1 TFloat64 TBool (fun v => match v with VFloat x => Ret (VBool (IsNaN x)) | _ => Panic end)]);
   (str "SAFE_ADD", safeBin SqlOps.Add); (str "SAFE_SUBTRACT", safeBin Sub); (str "SAFE_MULTIPLY", safeBin Mul); (str "SAFE_DIVIDE", safeBin Div);
   (str "SAFE_NEGATE", safeNegate);
   (str "COT", bySigs [reciprocal (str "Tan")]); (str "COTH", bySigs [reciprocal (str "Tanh")]);
   (str "CSC", bySigs [reciprocal (str "Sin")]); (str "CSCH", bySigs [reciprocal (str "Sinh")]);
   (str "SEC", bySigs [reciprocal (str "Cos")]); (str "SECH", bySigs [reciprocal (str "Cosh")]);
   (str "ATAN2", bySigs [f2 (fun y x => Ret (VFloat (math_Atan2 y x)))]);
   (str "PI", bySigs [mkSig [] 0 false TFloat64 (fun _ => Ret (VFloat math_Pi)) false]);
   (str "GREATEST", greatest 1); (str "LEAST", greatest (-1))] ++ trigFuncs.
End math.

(** ** The functions are well-formed *)

Section wf.
Context `{MathLib} `{TimeZones} `{Strconv} (G : tenv).

Lemma checked_yields r inputs : valid64 r = true -> yields (checked r inputs) TFloat64.
Proof. apply checkFloat_yields. Qed.
Lemma f1_ok fn : (forall x, valid64 x = true -> yields (fn x) TFloat64) -> sig_ok (f1 fn).
Proof. intros Hf. apply s1_ok. intros v Hv Hn. destruct v; try done. by apply Hf. Qed.
Lemma f2_ok fn : (forall x y, valid64 x = true -> valid64 y = true -> yields (fn x y) TFloat64) -> sig_ok (f2 fn).
Proof. intros Hf. apply s2_ok. intros v w Hv Hw Hn Hm. destruct v; try done. destruct w; try done. by apply Hf. Qed.
Lemma mathFn_ok fn : (forall x, valid64 x = true -> valid64 (fn x) = true) -> sig_ok (mathFn fn).
Proof. intros Hf. apply f1_ok. intros x Hx. cbn zeta; destruct (IsNaN (fn x) && negb (IsNaN x)); [done|]. by apply checked_yields, Hf. Qed.
Lemma withDigits_ok fn : (forall x d, valid64 x = true -> yields (fn x d) TFloat64) -> sig_ok (withDigits fn).
Proof.
  intros Hf. apply optional_ok; [done|]. intros [|v [|w []]] Hr Ht; cbn in Hr, Ht; try lia; try tauto.
  - destruct Ht as [[Hv Hn] _]. destruct v; try done. by apply Hf.
  - destruct Ht as [[Hv Hn] [[Hw Hm] _]]. destruct v; try done. destruct w; try done. by apply Hf.
Qed.
Lemma SFabs_valid x : valid64 x = true -> valid64 (SFabs x) = true.
Proof. by destruct x. Qed.
Hint Resolve roundBy_valid float_of_int_valid float64_mul_valid float64_div_valid float64_sqrt_valid SFabs_valid checked_yields : lbt.

Lemma roundHalfAway_yields x d : valid64 x = true -> yields (roundHalfAway x d) TFloat64.
Proof. intros Hx. unfold roundHalfAway. repeat (case_match; try done); apply checked_yields; try done; unfold round_away; auto 10 with lbt. Qed.
Lemma truncDigits_yields x d : valid64 x = true -> yields (truncDigits x d) TFloat64.
Proof.
  intros Hx. unfold truncDigits. destruct (IsNaN x || IsInf x); [done|]. destruct (330 <? d); [done|]. destruct (d <? -330); [done|]. destruct (0 <=? d); [destruct (IsInf _); [done|]|]; cbn [yields has_type]; change (valid_binary 53 1024 ?y) with (valid64 y); unfold math_Trunc; auto 10 with lbt.
Qed.
Lemma bestOf_yields want t vs : Forall (fun v => has_type v t = true) vs -> forall best, has_type best t = true -> yields (bestOf want best vs) t.
Proof.
  induction 1 as [|v vs Hv Hvs IH]; intros best Hb; cbn; [done|]. destruct (isNaNValue v); [done|]. destruct (compare_typed v best t Hv Hb) as [c ->]. cbn. apply IH. by destruct (0 <? c * want).
Qed.
Lemma arith_isCall op l r e : arith op l r = Ret e -> isCall e = true.
Proof.
  unfold arith. destruct (_ && _); [destruct (coerceOr l TInt64); try done; cbn; destruct (coerceOr r TInt64); try done; cbn; by intros [= <-]|]. destruct (_ || _); [done|].
  destruct (coerce l TFloat64); try done; cbn. destruct (coerce r TFloat64); try done; cbn. by intros [= <-].
Qed.

Lemma safeBin_ok name op : operatorOf name = None -> func_ok G (name, safeBin op).
Proof.
  intros Hn args Hargs. cbn. unfold safeBin. destruct args as [|l [|r []]]; try done. rewrite !Forall_cons in Hargs. destruct Hargs as (Hl & Hr & _). pose proof (arith_binds G op l r Hl Hr) as Hb. destruct (arith op l r) as [e| |] eqn:Ea; try done. apply wf_set_safe, wf_set_name; try done. by eapply arith_isCall.
Qed.
Lemma greatest_ok name want : operatorOf name = None -> func_ok G (name, greatest want).
Proof.
  intros Hn args Hargs. cbn. unfold greatest. destruct args as [|a args]; [done|]. apply common_binds'. intros t. destruct (_ || _); [done|]. apply coerceAll_binds; [done|]. intros out Hout Ht Hlen. eapply wf_calls; try done. intros vs Hvs Hl.
  destruct vs as [|v vs]; [cbn in Hl; cbn in Hlen; lia|]. cbn [greatestFn]. apply bestOf_yields; [eapply Forall_impl; [exact Hvs|]; by intros ? [? _]|]. by apply Forall_cons in Hvs as [[? _] _].
Qed.

Lemma int_ok fn : (forall n, is_int64 n -> yields (fn (VInt n)) TInt64) -> sig_ok (s1 TInt64 TInt64 fn).
Proof. intros Hf. apply s1_ok. intros v Hv Hn. destruct v; try done. apply Hf. by apply is_int64b_spec. Qed.
Lemma int2_ok fn : (forall n m, is_int64 n -> is_int64 m -> yields (fn (VInt n) (VInt m)) TInt64) -> sig_ok (s2 TInt64 TInt64 TInt64 fn).
Proof. intros Hf. apply s2_ok. intros v w Hv Hw Hn Hm. destruct v; try done. destruct w; try done. apply Hf; by apply is_int64b_spec. Qed.
Lemma abs_ok n : is_int64 n -> yields (absInt (VInt n)) TInt64.
Proof. intros Hn. cbn. destruct (Z.eqb_spec n int64_min); [done|]. cbn. apply is_int64b_spec. unfold is_int64 in *. unfold_words. destruct (Z.ltb_spec n 0); lia. Qed.
Lemma mod_ok n m : is_int64 n -> is_int64 m -> yields (modFn (VInt n) (VInt m)) TInt64.
Proof.
  intros Hn Hm. cbn. destruct (Z.eqb_spec m 0); [done|]. destruct (m =? -1); [done|]. cbn. apply is_int64b_spec. unfold is_int64 in *. unfold_words. pose proof (Z.rem_bound_abs n m). lia.
Qed.
Lemma div_ok n m : is_int64 n -> is_int64 m -> yields (divFn (VInt n) (VInt m)) TInt64.
Proof.
  intros Hn Hm. cbn. destruct (Z.eqb_spec m 0); [done|]. destruct ((n =? int64_min) && (m =? -1)) eqn:E; [done|]. cbn. apply is_int64b_spec. unfold is_int64 in *. unfold_words.
  pose proof (Z.quot_abs n m). assert (Z.abs n / Z.abs m <= Z.abs n) by (apply Z.div_le_upper_bound; nia). assert (m = 1 \/ m = -1 \/ 2 <= Z.abs m) as Hc by lia. rewrite Z.quot_div_nonneg in * by lia.
  destruct Hc as [->|[->|Hc]]; [rewrite Z.quot_1_r; lia| |].
  - rewrite Z.quot_opp_r with (b := 1), Z.quot_1_r by lia. lia.
  - assert (Z.abs n / Z.abs m <= Z.abs n / 2) by (apply Z.div_le_compat_l; lia). assert (Z.abs n / 2 < 2 ^ 63) by (apply Z.div_lt_upper_bound; lia). lia.
Qed.

Lemma float_ok t fn : isFloat t = true -> (forall x, valid64 x = true -> exists y, fn (VFloat x) = Ret (VFloat y) /\ valid64 y = true) -> sig_ok (s1 t t fn).
Proof. intros Ht Hf. apply s1_ok. intros v Hv Hn. destruct t; try done; (destruct v; try done); destruct (Hf f Hv) as (y & -> & Hy); done. Qed.
Lemma absFloat_ok x : valid64 x = true -> exists y, absFloat (VFloat x) = Ret (VFloat y) /\ valid64 y = true.
Proof. intros Hx. eexists. split; [done|]. auto with lbt. Qed.
Lemma signFloat_ok x : valid64 x = true -> exists y, signFloat (VFloat x) = Ret (VFloat y) /\ valid64 y = true.
Proof. intros Hx. eexists. split; [done|]. repeat case_match; done. Qed.
Lemma pow_ok x y : valid64 x = true -> valid64 y = true -> yields (powFn x y) TFloat64.
Proof. intros Hx Hy. unfold powFn. destruct (isZero x && _); [done|]. cbn zeta. destruct (IsNaN _ && _ && _); [done|]. auto with lbt. Qed.
Lemma logDomain_ok name : sig_ok (logDomain name).
Proof. apply f1_ok. intros x Hx. destruct (SFleb x zero); [done|]. auto with lbt. Qed.
Lemma logBase_ok x y : valid64 x = true -> valid64 y = true -> yields (logBase x y) TFloat64.
Proof. intros Hx Hy. unfold logBase. destruct (_ || _ || _); [done|]. auto with lbt. Qed.
Lemma reciprocal_ok name : sig_ok (reciprocal name).
Proof. apply mathFn_ok. intros x Hx. unfold one. auto with lbt. Qed.
Lemma trig_ok : Forall (func_ok G) trigFuncs.
Proof. unfold trigFuncs. apply Forall_fmap. apply list.Forall_forall. intros n Hn. apply sigs_ok; [|apply all1, mathFn_ok; auto with lbt]. revert n Hn. apply list.Forall_forall. by repeat constructor. Qed.

(** Proves the table entry by entry. *)
Ltac one_sig :=
  first
    [ apply int_ok, abs_ok | apply float_ok; [done|apply absFloat_ok] | apply float_ok; [done|apply signFloat_ok] | apply int2_ok, mod_ok | apply int2_ok, div_ok
    | apply withDigits_ok, roundHalfAway_yields | apply withDigits_ok, truncDigits_yields | apply f2_ok, pow_ok | apply f2_ok, logBase_ok | apply logDomain_ok | apply reciprocal_ok
    | apply mathFn_ok; solve [auto with lbt]
    | apply f1_ok; intros x Hx; unfold math_Ceil, math_Floor; repeat case_match; try done; cbn [yields has_type]; change (valid_binary 53 1024 ?y) with (valid64 y); solve [auto with lbt]
    | apply f2_ok; intros x y Hx Hy; cbn [yields has_type]; change (valid_binary 53 1024 ?z) with (valid64 z); solve [auto with lbt]
    | apply int_ok; intros n Hn; cbn; apply is_int64b_spec; unfold is_int64 in *; unfold_words; lia
    | apply s1_ok; intros v Hv Hn; destruct v; done
    | left; done ].
Lemma mathFuncs_ok : Forall (func_ok G) mathFuncs.
Proof.
  unfold mathFuncs. apply Forall_app. split; [|apply trig_ok].
  repeat (apply Forall_cons; split); try apply Forall_nil_2;
    try (apply safeBin_ok; done); try (apply greatest_ok; done);
    try (apply sigs_ok; [done|]; repeat (apply Forall_cons; split); try apply Forall_nil_2; one_sig).
  intros args Hargs. cbn. unfold safeNegate. destruct args as [|x []]; try done. apply Forall_cons in Hargs as [Hx _]. pose proof (negate_binds G x Hx) as Hb. destruct (negate x); try done. by apply wf_set_safe.
Qed.
End wf.
