(* ===== verification/FuncsArray.v ===== *)
(** * Array, map and vector functions

    [internal/gsql/funcs_array.go]: the functions on arrays, the accessors of maps and
    the vector distances, each with the argument checks it makes before it builds its
    call.  Every function yields a well-formed call. *)

From stdpp Require Import base list.
From Stdlib Require Import ZArith Lia.
From Stdlib Require Import Floats.SpecFloat.
From S2P Require Import Prelude Proto Rows Server Tokens SqlValues SqlFloat SqlArith SqlTime SqlOps SqlCast Bexpr BindOps Aggregates Funcs FuncsMath.

#[local] Open Scope Z_scope.

(** Go's [int64(len(l))]. *)
Definition int64_len {A : Type} (l : list A) : Z := wrap64 (Z.of_nat (length l)).
Definition asStringOrBytes (b : bytes) (isStr : bool) : value := if isStr then VString b else VBytes b.

(** ** Evaluators *)

Definition lengthFn (a : list value) : outcome value := match a with [VArray l] => Ret (VInt (int64_len l)) | _ => Panic end.
Definition reverseFn (a : list value) : outcome value := match a with [VArray l] => Ret (VArray (reverse l)) | _ => Panic end.

(** ARRAY_TO_STRING: a NULL element is the third argument, or left out. *)
Definition partsOf (missing : option value) (l : list value) : list bytes :=
  mjoin ((fun v => if isNull v then match missing with Some m => [asBytes m] | None => [] end else [asBytes v]) <$> l).
Definition toStringFn (isStr : bool) (a : list value) : outcome value :=
  match a with
  | VArray l :: delim :: rest =>
      if isNull delim || match rest with m :: _ => isNull m | [] => false end then Ret VNull
      else Ret (asStringOrBytes (joinParts (asBytes delim) (partsOf (head rest) l)) isStr)
  | VNull :: _ :: _ => Ret VNull
  | _ => Panic
  end.
Definition firstLastFn (last : bool) (a : list value) : outcome value :=
  match a with
  | [VArray l] =>
      match (if last then List.rev l else l) with v :: _ => Ret v | [] => Err OutOfRange end
  | _ => Panic
  end.
Definition firstLastNFn (last : bool) (a : list value) : outcome value :=
  match a with
  | [VArray l; VInt k] =>
      if k <? 0 then Err OutOfRange
      else
        let n := Z.of_nat (length l) in
        let k := if n <? k then n else k in
        Ret (VArray (if last then drop (Z.to_nat (n - k)) l else take (Z.to_nat k) l))
  | _ => Panic
  end.
(** [arr[lo:hi+1]], positions from the end when negative. *)
Definition sliceFn (a : list value) : outcome value :=
  match a with
  | [VArray l; VInt s; VInt e] =>
      let n := Z.of_nat (length l) in
      let norm := fun i => if i <? 0 then i + n else i in
      let lo := if norm s <? 0 then 0 else norm s in
      let hi := if n <=? norm e then n - 1 else norm e in
      if (hi <? lo) || (n <=? lo) then Ret (VArray [])
      else Ret (VArray (take (Z.to_nat (hi + 1 - lo)) (drop (Z.to_nat lo) l)))
  | _ => Panic
  end.

Fixpoint includes (l : list value) (x : value) : outcome bool :=
  match l with [] => Ret false | e :: l' => r ← sqlEquals e x; match r with Some true => Ret true | _ => includes l' x end end.
Definition includesFn (a : list value) : outcome value :=
  match a with [VArray l; x] => b ← includes l x; Ret (VBool b) | _ => Panic end.
Fixpoint includesLoop (all : bool) (l search : list value) : outcome value :=
  match search with
  | [] => Ret (VBool all)
  | s :: search' =>
      if isNull s then Ret VNull
      else
        found ← includes l s;
        if all && negb found then Ret (VBool false) else if negb all && found then Ret (VBool true) else includesLoop all l search'
  end.
Definition includesSetFn (all : bool) (a : list value) : outcome value :=
  match a with [VArray l; VArray search] => includesLoop all l search | _ => Panic end.
Fixpoint distinctKeys (seen : list bytes) (l : list value) : bool :=
  match l with [] => true | e :: l' => let k := valueKey e in if bool_decide (k ∈ seen) then false else distinctKeys (k :: seen) l' end.
Definition isDistinctFn (a : list value) : outcome value := match a with [VArray l] => Ret (VBool (distinctKeys [] l)) | _ => Panic end.
(** The positions from [i] on that hold [x]: the first, or all of them. *)
Fixpoint offsetLoop (all : bool) (x : value) (l : list value) (i : Z) (out : list value) : outcome value :=
  match l with
  | [] => Ret (if all then VArray out else VNull)
  | e :: l' =>
      r ← sqlEquals e x;
      match r with
      | Some true => if all then offsetLoop all x l' (i + 1) (out ++ [VInt (wrap64 i)]) else Ret (VInt (wrap64 i))
      | _ => offsetLoop all x l' (i + 1) out
      end
  end.
Definition offsetsFn (all : bool) (a : list value) : outcome value := match a with [VArray l; x] => offsetLoop all x l 0 [] | _ => Panic end.

(** ** GENERATE_ARRAY *)

(** [room] is what the limit of a million elements leaves. *)
Fixpoint genInts (room : nat) (step e cur : Z) : outcome (list value) :=
  if (0 <? step) && (cur <=? e) || (step <? 0) && (e <=? cur) then
    match room with
    | O => Err OutOfRange
    | S room' =>
        let next := wrap64 (cur + step) in
        if (0 <? step) && (next <? cur) || (step <? 0) && (cur <? next) then Ret [VInt cur]
        else out ← genInts room' step e next; Ret (VInt cur :: out)
    end
  else Ret [].
Fixpoint genFloats (room : nat) (s step e : spec_float) (i : Z) : outcome (list value) :=
  let cur := float64_add s (float64_mul (float_of_int i) step) in
  if SFltb zero step && SFltb e cur || SFltb step zero && SFltb cur e then Ret []
  else match room with O => Err OutOfRange | S room' => out ← genFloats room' s step e (i + 1); Ret (VFloat cur :: out) end.
Definition maxGenerated : nat := Z.to_nat 1000000.
Definition generateInt (s e step : Z) : outcome value :=
  if step =? 0 then Err OutOfRange else out ← genInts maxGenerated step e s; Ret (VArray out).
Definition generateIntFn (a : list value) : outcome value :=
  match a with [VInt s; VInt e] => generateInt s e 1 | [VInt s; VInt e; VInt step] => generateInt s e step | _ => Panic end.
Definition generateFloat (s e step : spec_float) : outcome value :=
  if isZero step || IsNaN step || IsNaN s || IsNaN e || IsInf step then Err OutOfRange
  else out ← genFloats maxGenerated s step e 0; Ret (VArray out).
Definition generateFloatFn (a : list value) : outcome value :=
  match a with [VFloat s; VFloat e] => generateFloat s e one | [VFloat s; VFloat e; VFloat step] => generateFloat s e step | _ => Panic end.

(** ** Maps and vectors *)

Definition mapKeysFn (a : list value) : outcome value := match a with [VMap m] => Ret (VArray m.*1) | _ => Panic end.
Definition mapValuesFn (a : list value) : outcome value := match a with [VMap m] => Ret (VArray m.*2) | _ => Panic end.
Definition mapEntriesFn (a : list value) : outcome value := match a with [VMap m] => Ret (VArray ((fun kv => VStruct [kv.1; kv.2]) <$> m)) | _ => Panic end.
Definition mapContainsFn (a : list value) : outcome value :=
  match a with [VMap m; k] => Ret (VBool (match mapLookup m k with Some _ => true | None => false end)) | _ => Panic end.
Definition mapEmptyFn (a : list value) : outcome value := match a with [VMap m] => Ret (VBool (match m with [] => true | _ => false end)) | _ => Panic end.

Fixpoint vectors (xs ys : list value) {struct xs} : outcome (list (spec_float * spec_float)) :=
  match xs, ys with
  | x :: xs', y :: ys' =>
      if isNull x || isNull y then Err OutOfRange
      else match x, y with VFloat f, VFloat g => l ← vectors xs' ys'; Ret ((f, g) :: l) | _, _ => Panic end
  | _, _ => Ret []
  end.
Definition euclidean (l : list (spec_float * spec_float)) : outcome value :=
  Ret (VFloat (float64_sqrt (foldl (fun s p => let d := float64_sub p.1 p.2 in float64_add s (float64_mul d d)) zero l))).
Definition sumOf (f : spec_float * spec_float -> spec_float) (l : list (spec_float * spec_float)) : spec_float := foldl (fun s p => float64_add s (f p)) zero l.
Definition cosine (l : list (spec_float * spec_float)) : outcome value :=
  let dot := sumOf (fun p => float64_mul p.1 p.2) l in
  let nx := sumOf (fun p => float64_mul p.1 p.1) l in
  let ny := sumOf (fun p => float64_mul p.2 p.2) l in
  if isZero nx || isZero ny then Err OutOfRange
  else Ret (VFloat (float64_sub one (float64_div dot (float64_mul (float64_sqrt nx) (float64_sqrt ny))))).
Definition distFn (fn : list (spec_float * spec_float) -> outcome value) (a : list value) : outcome value :=
  match a with
  | [VArray xs; VArray ys] => if negb (Nat.eqb (length xs) (length ys)) then Err OutOfRange else l ← vectors xs ys; fn l
  | _ => Panic
  end.

(** ** Functions *)

Section functions.
Context `{TimeZones} `{Strconv}.

Definition exactArgs (args : list bexpr) (lo hi : nat) : bool := Nat.leb lo (length args) && Nat.leb (length args) hi.
(** The element type of the array argument [i]; a literal NULL becomes an array. *)
Definition arrayArg (args : list bexpr) (i : nat) : outcome (sqlType * list bexpr) :=
  match args !! i with
  | None => Err InvalidArgument
  | Some a =>
      if isNullLit a then Ret (TInt64, <[i := constExpr VNull (TArray TInt64) litNull]> args)
      else match e_typ a with TArray t => Ret (t, args) | _ => Err InvalidArgument end
  end.
Definition mapArg (args : list bexpr) (i : nat) : outcome (sqlType * sqlType) :=
  match args !! i with Some a => match e_typ a with TMap k v => Ret (k, v) | _ => Err InvalidArgument end | None => Err InvalidArgument end.

(** A function of one array. *)
Definition onArray (ret : sqlType -> sqlType) (fn : list value -> outcome value) : binding := fun name args =>
  if negb (exactArgs args 1 1) then Err InvalidArgument
  else '(t, args) ← arrayArg args 0; Ret (callExpr name (ret t) fn args).
Definition arrayLength : binding := onArray (fun _ => TInt64) lengthFn.
Definition arrayReverse : binding := onArray TArray reverseFn.
Definition arrayIsDistinct : binding := onArray (fun _ => TBool) isDistinctFn.
Definition firstLast (last : bool) : binding := onArray (fun t => t) (firstLastFn last).

Definition arrayConcat : binding := fun name args => match args with [] => Err InvalidArgument | _ => bindArrayConcat name args end.
Definition arrayToString : binding := fun name args =>
  if negb (exactArgs args 2 3) then Err InvalidArgument
  else
    '(t, args) ← arrayArg args 0;
    match t, args with
    | (TString | TBytes), a :: rest =>
        rest ← collectM (fun x => coerceTo x t) rest;
        Ret (callExpr name t (toStringFn (match t with TString => true | _ => false end)) (a :: rest))
    | _, _ => Err InvalidArgument
    end.
(** A function of an array and a value of the type [vt] of its elements. *)
Definition onArrayAnd (vt : sqlType -> sqlType) (ok : sqlType -> bool) (ret : sqlType -> sqlType) (fn : list value -> outcome value) : binding := fun name args =>
  if negb (exactArgs args 2 2) then Err InvalidArgument
  else
    '(t, args) ← arrayArg args 0;
    match args with
    | [a; x] => x ← coerceTo x (vt t); if negb (ok t) then Err InvalidArgument else Ret (callExpr name (ret t) fn [a; x])
    | _ => Panic
    end.
Definition firstLastN (last : bool) : binding := onArrayAnd (fun _ => TInt64) (fun _ => true) TArray (firstLastNFn last).
Definition arrayIncludes : binding := onArrayAnd (fun t => t) equalityComparable (fun _ => TBool) includesFn.
Definition offsets (all : bool) : binding := onArrayAnd (fun t => t) (fun _ => true) (fun _ => if all then TArray TInt64 else TInt64) (offsetsFn all).
Definition arraySlice : binding := fun name args =>
  if negb (exactArgs args 3 3) then Err InvalidArgument
  else
    '(t, args) ← arrayArg args 0;
    match args with
    | [a; s; e] => s ← coerceTo s TInt64; e ← coerceTo e TInt64; Ret (callExpr name (TArray t) sliceFn [a; s; e])
    | _ => Panic
    end.
Definition includesSet (all : bool) : binding := fun name args =>
  if negb (exactArgs args 2 2) then Err InvalidArgument
  else
    '(_, args) ← arrayArg args 0;
    '(_, args) ← arrayArg args 1;
    t ← match commonType args with Err _ => Err InvalidArgument | t => t end;
    co ← coerceAll args t;
    Ret (callExpr name TBool (includesSetFn all) co).
Definition generateArray : binding := fun name args =>
  if negb (exactArgs args 2 3) then Err InvalidArgument
  else
    t ← match commonType args with Err _ => Err InvalidArgument | t => t end;
    if negb (isNumeric t) then Err InvalidArgument
    else
      let t := match t with TFloat32 => TFloat64 | t => t end in
      co ← coerceAll args t;
      match t with
      | TInt64 => Ret (callExpr name (TArray TInt64) generateIntFn co)
      | _ => Ret (callExpr name (TArray TFloat64) generateFloatFn co)
      end.

(** A function of one map. *)
Definition onMap (ok : sqlType -> bool) (ret : sqlType -> sqlType -> sqlType) (fn : list value -> outcome value) : binding := fun name args =>
  if negb (exactArgs args 1 1) then Err InvalidArgument
  else '(k, v) ← mapArg args 0; if negb (ok v) then Err InvalidArgument else Ret (callExpr name (ret k v) fn args).
Definition mapKeys : binding := onMap (fun _ => true) (fun k _ => TArray k) mapKeysFn.
Definition mapValues : binding := onMap (fun v => negb (isArray v)) (fun _ v => TArray v) mapValuesFn.
Definition mapEntries : binding := onMap (fun _ => true) (fun k v => TArray (TStruct [(str "key", k); (str "value", v)])) mapEntriesFn.
Definition mapEmpty : binding := onMap (fun _ => true) (fun _ _ => TBool) mapEmptyFn.
Definition mapContainsKey : binding := fun name args =>
  if negb (exactArgs args 2 2) then Err InvalidArgument
  else
    '(k, v) ← mapArg args 0;
    match args with [m; x] => x ← coerceTo x k; Ret (callExpr name TBool mapContainsFn [m; x]) | _ => Panic end.

Definition vectorArg (x : bexpr) : outcome bexpr :=
  match coerce x (TArray TFloat64) with
  | Err _ => match e_typ x with TArray TFloat32 => Ret (implicitCast x (TArray TFloat64)) | _ => Err InvalidArgument end
  | r => r
  end.
Definition dist (fn : list (spec_float * spec_float) -> outcome value) : binding := fun name args =>
  if negb (exactArgs args 2 2) then Err InvalidArgument
  else co ← collectM vectorArg args; Ret (callExpr name TFloat64 (distFn fn) co).

Definition arrayFuncs : list (bytes * binding) :=
  [(str "ARRAY_LENGTH", arrayLength); (str "ARRAY_CONCAT", arrayConcat); (str "ARRAY_REVERSE", arrayReverse);
   (str "ARRAY_TO_STRING", arrayToString); (str "ARRAY_FIRST", firstLast false); (str "ARRAY_LAST", firstLast true);
   (str "ARRAY_FIRST_N", firstLastN false); (str "ARRAY_LAST_N", firstLastN true); (str "ARRAY_SLICE", arraySlice);
   (str "ARRAY_INCLUDES", arrayIncludes); (str "ARRAY_INCLUDES_ALL", includesSet true); (str "ARRAY_INCLUDES_ANY", includesSet false);
   (str "ARRAY_IS_DISTINCT", arrayIsDistinct); (str "ARRAY_OFFSET", offsets false); (str "ARRAY_OFFSETS", offsets true);
   (str "GENERATE_ARRAY", generateArray);
   (str "MAP_KEYS", mapKeys); (str "MAP_VALUES", mapValues); (str "MAP_ENTRIES", mapEntries);
   (str "MAP_CONTAINS_KEY", mapContainsKey); (str "MAP_EMPTY", mapEmpty);
   (str "EUCLIDEAN_DISTANCE", dist euclidean); (str "COSINE_DISTANCE", dist cosine)].
End functions.

(** ** The functions are well-formed *)

Section wf.
Context `{TimeZones} `{Strconv} (G : tenv).

Lemma wrap64_typed n : has_type (VInt (wrap64 n)) TInt64 = true.
Proof. apply is_int64b_spec, wrap64_range. Qed.
Hint Resolve wrap64_typed : lbt.
Lemma exactArgs_length args lo hi : exactArgs args lo hi = true -> (lo <= length args <= hi)%nat.
Proof. unfold exactArgs. rewrite andb_true_iff, !Nat.leb_le. done. Qed.
(** The array argument in front. *)
Lemma arrayArg_front args (k : sqlType * list bexpr -> outcome bexpr) : Forall (wf G) args ->
  (forall t a rest, wf G a -> Forall (wf G) rest -> e_typ a = TArray t -> length args = S (length rest) -> binds G (k (t, a :: rest))) -> binds G (r ← arrayArg args 0; k r).
Proof.
  intros Hargs Hk. unfold arrayArg. destruct args as [|a rest]; [done|]. cbn [lookup list_lookup]. apply Forall_cons in Hargs as [Ha Hr]. destruct (isNullLit a); [by apply Hk; try apply wf_const|].
  destruct (e_typ a) eqn:Et; try done. by apply Hk.
Qed.
Lemma array_typed a t : e_typ a = TArray t -> typesEqual (e_typ a) (TArray t) = true.
Proof. intros ->. apply typesEqual_refl. Qed.
Lemma elems_typed l t : has_type (VArray l) (TArray t) = true <-> Forall (fun v => has_type v t = true) l.
Proof. cbn. rewrite forallb_forall, list.Forall_forall. split; intros Hl v Hv; apply Hl; by apply list_elem_of_In. Qed.
Lemma array_cases v t : has_type v (TArray t) = true -> v <> VNull -> exists l, v = VArray l /\ Forall (fun v => has_type v t = true) l.
Proof. intros Hv Hn. destruct v; try done. eexists. split; [done|]. by apply elems_typed. Qed.
Lemma array_yields l t : Forall (fun v => has_type v t = true) l -> yields (Ret (VArray l)) (TArray t).
Proof. apply elems_typed. Qed.

Lemma onArray_ok name ret fn : operatorOf name = None -> (forall l t, Forall (fun v => has_type v t = true) l -> yields (fn [VArray l]) (ret t)) -> func_ok G (name, onArray ret fn).
Proof.
  intros Hn Hf args Hargs. cbn. unfold onArray. destruct (exactArgs args 1 1) eqn:El; [|done]. apply exactArgs_length in El. apply arrayArg_front; [done|]. intros t a rest Ha _ Ht Hl. destruct rest; [|cbn in *; lia].
  eapply wf_call1; [done|done|by apply array_typed|]. intros v Hv Hnull. destruct (array_cases v t Hv Hnull) as (l & -> & Hall). by apply Hf.
Qed.
Lemma onArrayAnd_ok name vt okt ret fn : operatorOf name = None ->
  (forall l x t, okt t = true -> Forall (fun v => has_type v t = true) l -> has_type x (vt t) = true -> x <> VNull -> yields (fn [VArray l; x]) (ret t)) -> func_ok G (name, onArrayAnd vt okt ret fn).
Proof.
  intros Hn Hf args Hargs. cbn. unfold onArrayAnd. destruct (exactArgs args 2 2) eqn:El; [|done]. apply exactArgs_length in El. apply arrayArg_front; [done|]. intros t a rest Ha Hr Ht Hl. destruct rest as [|x [|]]; try (cbn in *; lia). apply Forall_cons in Hr as [Hx _].
  coerced_by (coerceTo_as G x (vt t) Hx). destruct (okt t) eqn:Eo; [|done]. eapply wf_call2; [done|done|done|by apply array_typed|done|]. intros v w Hv Hw Hnv Hnw. destruct (array_cases v t Hv Hnv) as (l & -> & Hall). by apply Hf.
Qed.
Lemma onMap_ok name okt ret fn : operatorOf name = None -> (forall m k v, has_type (VMap m) (TMap k v) = true -> yields (fn [VMap m]) (ret k v)) -> func_ok G (name, onMap okt ret fn).
Proof.
  intros Hn Hf args Hargs. cbn. unfold onMap. destruct (exactArgs args 1 1) eqn:El; [|done]. apply exactArgs_length in El. destruct args as [|a [|]]; try (cbn in *; lia). apply Forall_cons in Hargs as [Ha _]. cbn.
  destruct (e_typ a) eqn:Et; try done. cbn. destruct (okt _); [|done]. eapply wf_call1; [done|done|rewrite Et; apply typesEqual_refl|]. intros v Hv Hnull. destruct v; try done. by apply Hf.
Qed.

(** *** Evaluators *)
Lemma includes_total l x t : Forall (fun v => has_type v t = true) l -> has_type x t = true -> exists b, includes l x = Ret b.
Proof.
  intros Hl Hx. induction Hl as [|e l He Hl IH]; cbn; [eauto|]. destruct (sqlEquals_typed e x t He Hx) as [r ->]. cbn. destruct r as [[]|]; eauto.
Qed.
Lemma includesLoop_yields all l search t : Forall (fun v => has_type v t = true) l -> Forall (fun v => has_type v t = true) search -> yields (includesLoop all l search) TBool.
Proof.
  intros Hl Hs. induction Hs as [|s search Hs1 Hs IH]; cbn; [done|]. destruct (isNull s); [done|]. destruct (includes_total l s t Hl Hs1) as [b ->]. cbn. destruct (all && negb b); [done|]. by destruct (negb all && b).
Qed.
Lemma offsetLoop_yields all x l t : Forall (fun v => has_type v t = true) l -> has_type x t = true -> forall i out, Forall (fun v => has_type v TInt64 = true) out -> yields (offsetLoop all x l i out) (if all then TArray TInt64 else TInt64).
Proof.
  intros Hl Hx. induction Hl as [|e l He Hl IH]; intros i out Ho; cbn; [destruct all; [by apply array_yields|done]|]. destruct (sqlEquals_typed e x t He Hx) as [r ->]. cbn. destruct r as [[]|]; try by apply IH.
  destruct all; [|apply wrap64_typed]. apply IH, Forall_app. split; [done|]. apply all1, wrap64_typed.
Qed.
Lemma genInts_typed room step e : forall cur, is_int64 cur -> match genInts room step e cur with Ret l => Forall (fun v => has_type v TInt64 = true) l | Err _ => True | Panic => False end.
Proof.
  induction room as [|room IH]; intros cur Hc; cbn; destruct (_ || _); try done. destruct (_ || _).
  - apply all1. by apply is_int64b_spec.
  - specialize (IH _ (wrap64_range (cur + step))). destruct (genInts _ _ _ _); try done. cbn. constructor; [by apply is_int64b_spec|done].
Qed.
Lemma genFloats_typed room s step e : valid64 s = true -> valid64 step = true -> forall i, match genFloats room s step e i with Ret l => Forall (fun v => has_type v TFloat64 = true) l | Err _ => True | Panic => False end.
Proof.
  intros Hs Ht. induction room as [|room IH]; intros i; cbn; destruct (_ || _); try done. specialize (IH (i + 1)). destruct (genFloats _ _ _ _ _); try done. cbn. constructor; [|done]. apply float64_add_valid; [done|]. apply float64_mul_valid; [apply float_of_int_valid|done].
Qed.
Lemma generateInt_yields s e step : is_int64 s -> yields (generateInt s e step) (TArray TInt64).
Proof.
  intros Hs. unfold generateInt. destruct (step =? 0); [done|]. pose proof (genInts_typed maxGenerated step e s Hs) as Hg. destruct (genInts _ _ _ _); try done. by apply array_yields.
Qed.
Lemma generateFloat_yields s e step : valid64 s = true -> valid64 step = true -> yields (generateFloat s e step) (TArray TFloat64).
Proof.
  intros Hs Ht. unfold generateFloat. destruct (_ || _); [done|]. pose proof (genFloats_typed maxGenerated s step e Hs Ht 0) as Hg. destruct (genFloats _ _ _ _ _); try done. by apply array_yields.
Qed.
Definition valid_pair (p : spec_float * spec_float) : Prop := valid64 p.1 = true /\ valid64 p.2 = true.
Lemma vectors_typed xs : forall ys, Forall (fun v => has_type v TFloat64 = true) xs -> Forall (fun v => has_type v TFloat64 = true) ys ->
  match vectors xs ys with Ret l => Forall valid_pair l | Err _ => True | Panic => False end.
Proof.
  induction xs as [|x xs IH]; intros [|y ys] Hx Hy; cbn; try done. apply Forall_cons in Hx as [Hx Hxs]. apply Forall_cons in Hy as [Hy Hys]. specialize (IH ys Hxs Hys).
  destruct x; try done; destruct y; try done. cbn. destruct (vectors xs ys); try done. cbn. by constructor.
Qed.
Lemma fold_valid (f : spec_float -> spec_float * spec_float -> spec_float) l : Forall valid_pair l -> (forall s p, valid64 s = true -> valid_pair p -> valid64 (f s p) = true) -> forall s, valid64 s = true -> valid64 (foldl f s l) = true.
Proof. intros Hl Hf. induction Hl as [|p l Hp Hl IH]; intros s Hs; cbn; [done|]. apply IH. by apply Hf. Qed.
Hint Resolve float64_mul_valid float64_div_valid float64_add_valid float64_sub_valid float64_sqrt_valid float_of_int_valid : lbt.
Lemma sumOf_valid f l : Forall valid_pair l -> (forall p, valid_pair p -> valid64 (f p) = true) -> valid64 (sumOf f l) = true.
Proof. intros Hl Hf. apply fold_valid; [done| |done]. auto with lbt. Qed.
Lemma euclidean_yields l : Forall valid_pair l -> yields (euclidean l) TFloat64.
Proof. intros Hl. apply float64_sqrt_valid, fold_valid; [done| |done]. intros s p Hs [H1 H2]. cbn zeta. auto with lbt. Qed.
Lemma cosine_yields l : Forall valid_pair l -> yields (cosine l) TFloat64.
Proof.
  intros Hl. unfold cosine. assert (forall f, (forall p, valid_pair p -> valid64 (f p) = true) -> valid64 (sumOf f l) = true) as Hs by (intros; by apply sumOf_valid).
  pose proof (Hs (fun p => float64_mul p.1 p.2)) as Hd. pose proof (Hs (fun p => float64_mul p.1 p.1)) as Hx. pose proof (Hs (fun p => float64_mul p.2 p.2)) as Hy. cbn zeta. destruct (_ || _); [done|]. cbn [yields has_type]. change (valid_binary 53 1024 ?z) with (valid64 z).
  apply float64_sub_valid; [apply float_of_int_valid|]. apply float64_div_valid; [apply Hd; intros p []; auto with lbt|]. apply float64_mul_valid; apply float64_sqrt_valid; first [apply Hx; intros p [? ?]; solve [auto with lbt]|apply Hy; intros p [? ?]; solve [auto with lbt]].
Qed.

(** *** Functions of several arguments *)
Lemma toStringFn_yields (isStr : bool) l delim rest : let t := if isStr then TString else TBytes in
  Forall (fun v => has_type v t = true) l -> has_type delim t = true -> Forall (fun v => has_type v t = true) rest -> yields (toStringFn isStr (VArray l :: delim :: rest)) t.
Proof.
  intros t Hl Hd Hr. cbn. destruct (_ || _); [done|]. assert (bytesb (joinParts (asBytes delim) (partsOf (head rest) l)) = true) as Hj; [|by destruct isStr].
  apply bytesb_all, joinParts_bytes; [by eapply asBytes_all|]. unfold partsOf. induction Hl as [|v l Hv Hl IH]; cbn; [done|]. apply Forall_app. split; [|done].
  destruct (isNull v); [|apply all1; by eapply asBytes_all]. destruct Hr as [|m rest Hm Hr]; cbn; [done|]. apply all1. by eapply asBytes_all.
Qed.
Lemma coerceTos_binds es t (k : list bexpr -> outcome bexpr) : Forall (wf G) es ->
  (forall out, Forall (wf G) out -> Forall (fun a => typesEqual (e_typ a) t = true) out -> length out = length es -> binds G (k out)) -> binds G (out ← collectM (fun x => coerceTo x t) es; k out).
Proof.
  intros Hes Hk. assert (match collectM (fun x => coerceTo x t) es with Ret out => Forall (wf G) out /\ Forall (fun a => typesEqual (e_typ a) t = true) out /\ length out = length es | Err _ => True | Panic => False end) as Hc.
  { clear Hk. induction Hes as [|e es He Hes IH]; cbn; [done|]. pose proof (coerceTo_as G e t He) as Hc. destruct (coerceTo e t); cbn; try done. destruct (collectM _ es); cbn; try done. destruct Hc as [? ?], IH as (? & ? & ->). split_and!; by try constructor. }
  destruct (collectM _ es); try done. destruct Hc as (? & ? & ?). by apply Hk.
Qed.
Lemma arrayToString_ok name : operatorOf name = None -> func_ok G (name, arrayToString).
Proof.
  intros Hn args Hargs. cbn. unfold arrayToString. destruct (exactArgs args 2 3) eqn:El; [|done]. apply exactArgs_length in El. apply arrayArg_front; [done|]. intros t a rest Ha Hr Ht Hl.
  assert (forall (isStr : bool), t = (if isStr then TString else TBytes) -> binds G (rest ← collectM (fun x => coerceTo x t) rest; Ret (callExpr name t (toStringFn isStr) (a :: rest)))) as Hb.
  { intros isStr Et. apply coerceTos_binds; [done|]. intros out Hw Hts Hlen. eapply (wf_typed _ _ _ _ _ (TArray t :: repeat t (length out))); [done|by constructor|constructor; [by apply array_typed|]|].
    - clear -Hts. induction Hts; cbn; by constructor.
    - intros vs Hvs. inversion Hvs as [|v u vs' us [Hv Hnv] Hvs']; subst. destruct (array_cases v _ Hv Hnv) as (l & -> & Hall). destruct out as [|o out]; [cbn in *; lia|]. inversion Hvs' as [|d u vs'' us' [Hd Hnd] Hvs'']; subst. apply toStringFn_yields; [done..|].
      clear -Hvs''. remember (repeat _ _) as us eqn:Eu. revert out Eu. induction Hvs'' as [|v u vs us [Hv _] Hvs IH]; intros [|o out] Eu; try done. injection Eu as -> ->. constructor; [done|]. by eapply IH. }
  destruct t; try done; [apply (Hb true)|apply (Hb false)]; done.
Qed.
Lemma arraySlice_ok name : operatorOf name = None -> func_ok G (name, arraySlice).
Proof.
  intros Hn args Hargs. cbn. unfold arraySlice. destruct (exactArgs args 3 3) eqn:El; [|done]. apply exactArgs_length in El. apply arrayArg_front; [done|]. intros t a rest Ha Hr Ht Hl. destruct rest as [|s [|e [|]]]; try (cbn in *; lia). apply Forall_cons in Hr as [Hs Hr]. apply Forall_cons in Hr as [He _].
  coerced_by (coerceTo_as G s TInt64 Hs). coerced_by (coerceTo_as G e TInt64 He). eapply (wf_typed _ _ _ _ _ [TArray t; TInt64; TInt64]); [done|by apply all3|apply each3; try done; by apply array_typed|].
  intros vs Hvs. value_list. destruct (array_cases x t) as (l & -> & Hall); [done..|]. destruct x0; try done. destruct x1; try done.
  unfold sliceFn. cbn zeta. destruct (_ || _); [done|]. apply array_yields. by apply Forall_take, Forall_drop.
Qed.

(** The common type of two arrays is an array, unless both are literal NULLs. *)
Lemma mergeTypes_arrays x la y lb r : mergeTypes (TArray x) la (TArray y) lb = Some r -> isArray r.1 = true.
Proof.
  unfold mergeTypes; fold mergeTypes. destruct (typesEqual (TArray x) (TArray y)); [by intros [= <-]|]. change (numRank (TArray x)) with 0%nat. cbn. destruct (mergeTypes x litNone y litNone) as [[e l]|]; [|done]. by intros [= <-].
Qed.
Lemma commonStep_arrays acc e acc' : match acc with Some p => isArray p.1 = true | None => True end -> isArray (e_typ e) = true -> commonStep acc e = Ret acc' ->
  match acc' with Some p => isArray p.1 = true | None => acc = None /\ isNullLit e = true end.
Proof.
  intros Ha He. unfold commonStep. destruct (isNullLit e); [intros [= <-]; by destruct acc|]. cbn zeta. destruct acc as [[t lit]|]; [|by intros [= <-]]. cbn in Ha.
  destruct (_ && isArray (e_typ e)); [by intros [= <-]|]. destruct (_ && isArray t); [by intros [= <-]|].
  destruct (mergeTypes _ _ _ _) as [[u l]|] eqn:Em; [|done]. intros [= <-]. destruct t; try done. destruct (e_typ e); try done. by apply mergeTypes_arrays in Em.
Qed.
Lemma commonType_arrays a b t : isArray (e_typ a) = true -> isArray (e_typ b) = true -> commonType [a; b] = Ret t -> isArray t = true \/ isNullLit a = true /\ isNullLit b = true.
Proof.
  intros Ha Hb. unfold commonType. cbn [foldM]. destruct (commonStep None a) as [acc| |] eqn:Ea; try done. cbn [mbind outcome_bind]. destruct (commonStep acc b) as [acc'| |] eqn:Eb; try done. cbn [mbind outcome_bind].
  apply commonStep_arrays in Ea; [|done..]. apply commonStep_arrays in Eb; [|by destruct acc|done]. destruct acc' as [[u l]|].
  - intros Hr. case_match; simplify_eq. by left.
  - intros _. right. destruct Eb as [-> Hn]. by destruct Ea.
Qed.
Lemma coerce_null_scalar e t : isNullLit e = true -> isArray (e_typ e) = true -> isArray t = false -> coerce e t = Ret (constExpr VNull t litNull).
Proof. intros Hn Ha Ht. destruct e as [kind u ? ? ? ? ? ? ? lit ? ? ?]. cbn in *. unfold isNullLit in Hn. cbn in Hn. destruct u; try done. rewrite Hn. by destruct t. Qed.

Lemma includesSet_ok all name : operatorOf name = None -> func_ok G (name, includesSet all).
Proof.
  intros Hn args Hargs. cbn. unfold includesSet. destruct (exactArgs args 2 2) eqn:El; [|done]. apply exactArgs_length in El. apply arrayArg_front; [done|]. intros t a rest Ha Hr Ht Hl. destruct rest as [|b [|]]; try (cbn in *; lia). apply Forall_cons in Hr as [Hb _].
  assert (forall b, wf G b -> isArray (e_typ b) = true -> binds G (t ← match commonType [a; b] with Err _ => Err InvalidArgument | t => t end; co ← coerceAll [a; b] t; Ret (callExpr name TBool (includesSetFn all) co))) as Hk.
  { clear b Hb Hl. intros b Hb Htb.
    assert (forall u, isArray u = true -> binds G (co ← coerceAll [a; b] u; Ret (callExpr name TBool (includesSetFn all) co))) as Harr.
    { intros t0 Hu. destruct t0 as [| | | | | | | | |u| |]; try done. apply coerceAll_binds; [by apply all2|]. intros out Hw Hts Hlen. eapply wf_calls; try done. intros vs Hvs Hlv. destruct vs as [|v [|w [|]]]; try (rewrite Hlen in Hlv; done). apply Forall_cons in Hvs as [[Hv Hnv] Hvs]. apply Forall_cons in Hvs as [[Hw' Hnw] _].
      destruct (array_cases v u Hv Hnv) as (l & -> & Hall). destruct (array_cases w u Hw' Hnw) as (l' & -> & Hall'). by eapply includesLoop_yields. }
    pose proof (commonType_arrays a b) as Hc. pose proof (commonType_safe [a; b]). destruct (commonType [a; b]) as [u| |]; cbn [mbind outcome_bind]; try done. destruct (Hc u) as [Hu|[Na Nb]]; [by rewrite Ht|done|done| |].
    - by apply Harr.
    - destruct (isArray u) eqn:Eu.
      + by apply Harr.
      + unfold coerceAll. cbn [collectM]. rewrite Eu, !andb_false_r. rewrite (coerce_null_scalar a), (coerce_null_scalar b) by (done || by rewrite Ht). cbn. apply wf_call_possible; [by apply all2; apply wf_const|done|]. intros vs Hvs Hnull. apply vals2 in Hvs as (v & w & -> & [_ Hv] & _). by rewrite (Hv eq_refl) in Hnull. }
  cbn [mbind outcome_bind]. unfold arrayArg. cbn [lookup list_lookup]. destruct (isNullLit b); cbn [mbind outcome_bind]; [apply Hk; [by apply wf_const|done]|]. destruct (e_typ b) eqn:Etb; try done. cbn [mbind outcome_bind]. apply Hk; [done|by rewrite Etb].
Qed.
Lemma generateArray_ok name : operatorOf name = None -> func_ok G (name, generateArray).
Proof.
  intros Hn args Hargs. cbn. unfold generateArray. destruct (exactArgs args 2 3) eqn:El; [|done]. apply exactArgs_length in El. apply common_binds'. intros t. destruct (isNumeric t) eqn:Et; [|done]. cbn zeta.
  assert (forall u fn r, (forall vs, Forall (fun v => has_type v u = true /\ v <> VNull) vs -> (2 <= length vs <= 3)%nat -> yields (fn vs) r) -> binds G (co ← coerceAll args u; Ret (callExpr name r fn co))) as Hk.
  { intros u fn r Hf. apply coerceAll_binds; [done|]. intros out Hw Hts Hlen. eapply wf_calls; try done. intros vs Hvs Hl. apply Hf; [done|lia]. }
  assert (forall vs, Forall (fun v => has_type v TFloat64 = true /\ v <> VNull) vs -> (2 <= length vs <= 3)%nat -> yields (generateFloatFn vs) (TArray TFloat64)) as Hfl.
  { intros vs Hvs Hl. destruct vs as [|v [|w vs]]; cbn in Hl; try lia. apply Forall_cons in Hvs as [[Hv Hnv] Hvs]. apply Forall_cons in Hvs as [[Hw Hnw] Hvs]. destruct v; try done. destruct w; try done.
    destruct vs as [|x [|]]; cbn in Hl; try lia; [by apply generateFloat_yields|]. apply Forall_cons in Hvs as [[Hx Hnx] _]. destruct x; try done. by apply generateFloat_yields. }
  apply isNumeric_cases in Et as [-> | [-> | ->]]; cbn [mbind outcome_bind]; apply Hk; [|exact Hfl..].
  intros vs Hvs Hl. destruct vs as [|v [|w vs]]; cbn in Hl; try lia. apply Forall_cons in Hvs as [[Hv Hnv] Hvs]. apply Forall_cons in Hvs as [[Hw Hnw] Hvs]. destruct v; try done. destruct w; try done. apply is_int64b_spec in Hv.
  destruct vs as [|x [|]]; cbn in Hl; try lia; [by apply generateInt_yields|]. apply Forall_cons in Hvs as [[Hx Hnx] _]. destruct x; try done. by apply generateInt_yields.
Qed.
Lemma mapContainsKey_ok name : operatorOf name = None -> func_ok G (name, mapContainsKey).
Proof.
  intros Hn args Hargs. cbn. unfold mapContainsKey. destruct (exactArgs args 2 2) eqn:El; [|done]. apply exactArgs_length in El. destruct args as [|m [|x [|]]]; try (cbn in *; lia). apply Forall_cons in Hargs as [Hm Hargs]. apply Forall_cons in Hargs as [Hx _]. cbn.
  destruct (e_typ m) as [| | | | | | | | | | |kt vt] eqn:Et; try done. cbn. coerced_by (coerceTo_as G x kt Hx). eapply wf_call2; [done|done|done|rewrite Et; apply typesEqual_refl|done|]. intros v w Hv Hw Hnv Hnw. by destruct v.
Qed.
Lemma vectorArg_as x : wf G x -> bindsAs G (vectorArg x) (TArray TFloat64).
Proof.
  intros Hx. unfold vectorArg. pose proof (coerce_as G x (TArray TFloat64) Hx) as Hc. destruct (coerce x _); try done. destruct (e_typ x) as [| | | | | | | | |[]| |]; try done. split; [by apply wf_implicitCast|done].
Qed.
Lemma dist_ok fn name : operatorOf name = None -> (forall l, Forall valid_pair l -> yields (fn l) TFloat64) -> func_ok G (name, dist fn).
Proof.
  intros Hn Hf args Hargs. cbn. unfold dist. destruct (exactArgs args 2 2) eqn:El; [|done]. apply exactArgs_length in El. destruct args as [|x [|y [|]]]; try (cbn in *; lia). apply Forall_cons in Hargs as [Hx Hargs]. apply Forall_cons in Hargs as [Hy _]. cbn [collectM].
  pose proof (vectorArg_as x Hx) as Cx. pose proof (vectorArg_as y Hy) as Cy. destruct (vectorArg x); cbn [mbind outcome_bind]; try done. destruct (vectorArg y); cbn [mbind outcome_bind]; try done. destruct Cx, Cy.
  eapply wf_call2; try done. intros v w Hv Hw Hnv Hnw. destruct (array_cases v _ Hv Hnv) as (l & -> & Hl). destruct (array_cases w _ Hw Hnw) as (l' & -> & Hl'). cbn. destruct (Nat.eqb _ _); [|done]. cbn.
  pose proof (vectors_typed l l' Hl Hl') as Hp. destruct (vectors l l'); try done. by apply Hf.
Qed.

Lemma map_typed m k v : has_type (VMap m) (TMap k v) = true <-> Forall (fun kv => has_type kv.1 k = true /\ has_type kv.2 v = true) m.
Proof. cbn. rewrite forallb_forall, list.Forall_forall. split; intros Hm kv Hin; specialize (Hm kv); rewrite andb_true_iff in *; apply Hm; by apply list_elem_of_In. Qed.
Lemma firstLast_yields last l t : Forall (fun v => has_type v t = true) l -> yields (firstLastFn last [VArray l]) t.
Proof.
  intros Hl. cbn. assert (Forall (fun v => has_type v t = true) (if last then List.rev l else l)) as Hr by (destruct last; [by apply Forall_rev|done]). by destruct Hr.
Qed.
Lemma firstLastN_yields last l k t : Forall (fun v => has_type v t = true) l -> yields (firstLastNFn last [VArray l; VInt k]) (TArray t).
Proof. intros Hl. unfold firstLastNFn. destruct (k <? 0); [done|]. cbn zeta. apply array_yields. destruct last; [by apply Forall_drop|by apply Forall_take]. Qed.

Lemma arrayFuncs_ok : Forall (func_ok G) arrayFuncs.
Proof.
  unfold arrayFuncs, arrayLength, arrayReverse, arrayIsDistinct, firstLast, firstLastN, arrayIncludes, offsets, mapKeys, mapValues, mapEntries, mapEmpty. repeat (apply Forall_cons; split); try apply Forall_nil_2.
  - apply onArray_ok; [done|]. intros l t Hl. apply wrap64_typed.
  - intros args Hargs. cbn. destruct args as [|a args]; [done|]. by apply bindArrayConcat_binds.
  - apply onArray_ok; [done|]. intros l t Hl. by apply array_yields, Forall_reverse.
  - by apply arrayToString_ok.
  - apply onArray_ok; [done|]. intros. by apply firstLast_yields.
  - apply onArray_ok; [done|]. intros. by apply firstLast_yields.
  - apply onArrayAnd_ok; [done|]. intros l x t _ Hl Hx Hn. destruct x; try done. by apply firstLastN_yields.
  - apply onArrayAnd_ok; [done|]. intros l x t _ Hl Hx Hn. destruct x; try done. by apply firstLastN_yields.
  - by apply arraySlice_ok.
  - apply onArrayAnd_ok; [done|]. intros l x t _ Hl Hx _. cbn. by destruct (includes_total l x t Hl Hx) as [b ->].
  - by apply includesSet_ok.
  - by apply includesSet_ok.
  - by apply onArray_ok.
  - apply onArrayAnd_ok; [done|]. intros l x t _ Hl Hx _. apply (offsetLoop_yields false x l t); done.
  - apply onArrayAnd_ok; [done|]. intros l x t _ Hl Hx _. apply (offsetLoop_yields true x l t); done.
  - by apply generateArray_ok.
  - apply onMap_ok; [done|]. intros m k v Hm%map_typed. apply array_yields, Forall_fmap. eapply Forall_impl; [exact Hm|]. by intros kv [? _].
  - apply onMap_ok; [done|]. intros m k v Hm%map_typed. apply array_yields, Forall_fmap. eapply Forall_impl; [exact Hm|]. by intros kv [_ ?].
  - apply onMap_ok; [done|]. intros m k v Hm%map_typed. apply array_yields, Forall_fmap. eapply Forall_impl; [exact Hm|]. intros kv [H1 H2]. cbn. by rewrite H1, H2.
  - by apply mapContainsKey_ok.
  - by apply onMap_ok.
  - by apply dist_ok, euclidean_yields.
  - by apply dist_ok, cosine_yields.
Qed.
End wf.

(** ** What GENERATE_ARRAY produces *)

(** How many of [cur], [cur + step], ... do not pass [e]. *)
Definition steps (step e cur : Z) : Z := if (0 <? step) && (cur <=? e) || (step <? 0) && (e <=? cur) then (e - cur) / step + 1 else 0.
Lemma steps_next step e cur : step <> 0 -> (0 <? step) && (cur <=? e) || (step <? 0) && (e <=? cur) = true -> steps step e cur = 1 + steps step e (cur + step).
Proof.
  intros Hs Hc. unfold steps. rewrite Hc. replace (e - cur) with (e - (cur + step) + 1 * step) by ring. rewrite Z.div_add by done.
  destruct ((0 <? step) && (cur + step <=? e) || (step <? 0) && (e <=? cur + step)) eqn:En; [lia|]. enough ((e - (cur + step)) / step = -1) by lia.
  symmetry. apply Z.div_unique with (r := e - cur); [|ring]. destruct (Z.ltb_spec 0 step), (Z.ltb_spec step 0); cbn in *; rewrite ?orb_false_r in *; lia.
Qed.
Lemma steps_nonneg step e cur : 0 <= steps step e cur.
Proof.
  unfold steps. destruct (_ || _) eqn:E; [|lia]. enough (0 <= (e - cur) / step) by lia. apply orb_prop in E as [[H1%Z.ltb_lt H2%Z.leb_le]%andb_prop|[H1%Z.ltb_lt H2%Z.leb_le]%andb_prop].
  - apply Z.div_pos; lia.
  - rewrite <- Z.div_opp_opp by lia. apply Z.div_pos; lia.
Qed.
Lemma genInts_exact room step e : step <> 0 -> is_int64 step -> is_int64 e -> forall cur, is_int64 cur ->
  genInts room step e cur =
    if steps step e cur <=? Z.of_nat room then Ret ((fun i => VInt (cur + i * step)) <$> seqZ 0 (steps step e cur)) else Err OutOfRange.
Proof.
  intros Hs Hst He. induction room as [|room IH]; intros cur Hc; unfold genInts; fold genInts; destruct ((0 <? step) && (cur <=? e) || (step <? 0) && (e <=? cur)) eqn:Ec.
  - rewrite steps_next by done. pose proof (steps_nonneg step e (cur + step)). by destruct (Z.leb_spec (1 + steps step e (cur + step)) (Z.of_nat 0)); [lia|].
  - unfold steps. by rewrite Ec.
  - rewrite steps_next by done. pose proof (steps_nonneg step e (cur + step)) as Hn. cbn zeta.
    destruct ((0 <? step) && (wrap64 (cur + step) <? cur) || (step <? 0) && (cur <? wrap64 (cur + step))) eqn:Ew.
    + assert (~ is_int64 (cur + step)) as Ho. { intros Hi. rewrite wrap64_id in Ew by done. lia. }
      assert (steps step e (cur + step) = 0) as ->. { unfold steps. destruct ((0 <? step) && (cur + step <=? e) || (step <? 0) && (e <=? cur + step)) eqn:E'; [exfalso|done]. clear Ew. unfold is_int64 in *. unfold_words. lia. }
      destruct (Z.leb_spec (1 + 0) (Z.of_nat (S room))); [|lia]. replace (seqZ 0 (1 + 0)) with [0] by reflexivity. cbn [fmap list_fmap]. by rewrite Z.mul_0_l, Z.add_0_r.
    + assert (is_int64 (cur + step)) as Hi.
      { clear -Ew Hc Hst Hs. destruct (decide (is_int64 (cur + step))) as [|Ho]; [done|]. exfalso. unfold wrap64 in Ew. unfold is_int64 in *. unfold_words.
        destruct (decide (cur + step < -9223372036854775808)).
        - replace (cur + step + 9223372036854775808) with (cur + step + 18446744073709551616 + 9223372036854775808 + (-1) * 18446744073709551616) in Ew by ring. rewrite Z.mod_add, Z.mod_small in Ew by lia. lia.
        - replace (cur + step + 9223372036854775808) with (cur + step - 18446744073709551616 + 9223372036854775808 + 1 * 18446744073709551616) in Ew by ring. rewrite Z.mod_add, Z.mod_small in Ew by lia. lia. }
      rewrite wrap64_id by done. rewrite IH by done. rewrite Nat2Z.inj_succ. destruct (Z.leb_spec (steps step e (cur + step)) (Z.of_nat room)), (Z.leb_spec (1 + steps step e (cur + step)) (Z.succ (Z.of_nat room))); try lia; [|done].
      cbn [mbind outcome_bind]. f_equal. rewrite (seqZ_cons 0 (1 + steps step e (cur + step))) by lia. cbn [fmap list_fmap]. rewrite Z.mul_0_l, Z.add_0_r. f_equal. replace (Z.pred (1 + steps step e (cur + step))) with (steps step e (cur + step)) by lia.
      change (Z.succ 0) with (1 + 0). rewrite <- (fmap_add_seqZ 1 0), <- list_fmap_compose. apply list_fmap_ext. intros i x _. cbn. f_equal. ring.
  - unfold steps. by rewrite Ec.
Qed.

(** GENERATE_ARRAY of integers: the exact arithmetic sequence from the start up to the
    end, every element computed without overflow even when the sequence runs into the
    end of the 64-bit range, and an error when it would be longer than a million. *)
Theorem generate_array_exact (s e step : Z) : is_int64 s -> is_int64 e -> is_int64 step ->
  generateIntFn [VInt s; VInt e; VInt step] =
    if step =? 0 then Err OutOfRange
    else if steps step e s <=? 1000000 then Ret (VArray ((fun i => VInt (s + i * step)) <$> seqZ 0 (steps step e s)))
    else Err OutOfRange.
Proof.
  intros Hs He Ht. cbn -[Z.mul seqZ]. unfold generateInt. destruct (Z.eqb_spec step 0); [done|]. rewrite genInts_exact by done. unfold maxGenerated. rewrite Z2Nat.id by done. by destruct (_ <=? 1000000).
Qed.
Lemma generate_array_exact_witness :
  generateIntFn [VInt 9223372036854775800; VInt 9223372036854775807; VInt 5] = Ret (VArray [VInt 9223372036854775800; VInt 9223372036854775805]).
Proof. rewrite (generate_array_exact 9223372036854775800 9223372036854775807 5) by done. reflexivity. Defined.
