(* ===== verification/Encodings.v ===== *)
(** * Text encodings of byte strings

    [encoding/hex], [encoding/base64] and [encoding/base32] as [internal/gsql/funcs_string.go]
    uses them: the standard alphabets, padding, the newlines that decoders skip, and the
    trailing bits that they do not look at.  Decoding returns what was encoded. *)

From stdpp Require Import base list sets.
From Stdlib Require Import ZArith Lia.
From S2P Require Import Prelude Proto Rows Server Tokens KeySchema Lexer.

#[local] Open Scope Z_scope.

(** ** Digits of a number *)

(** The [k] lowest digits of [n] in base [b], the highest first. *)
Fixpoint toBase (b : Z) (k : nat) (n : Z) : list Z :=
  match k with O => [] | S k' => (n / b ^ Z.of_nat k') mod b :: toBase b k' n end.
Fixpoint ofBase (b : Z) (l : list Z) : Z :=
  match l with [] => 0 | d :: l' => d * b ^ Z.of_nat (length l') + ofBase b l' end.

Definition digits (b : Z) (l : list Z) : Prop := Forall (fun d => 0 <= d < b) l.
Lemma toBase_length b k n : length (toBase b k n) = k.
Proof. induction k; cbn; auto. Qed.
Lemma toBase_digits b k n : 0 < b -> digits b (toBase b k n).
Proof. intros Hb. induction k as [|k IH]; cbn; constructor; [by apply Z.mod_pos_bound|done]. Qed.
Lemma ofBase_range b l : 0 < b -> digits b l -> 0 <= ofBase b l < b ^ Z.of_nat (length l).
Proof.
  intros Hb Hl. induction Hl as [|d l Hd Hl IH]; cbn [ofBase length]; [by cbn|]. rewrite Nat2Z.inj_succ, Z.pow_succ_r by lia. assert (0 < b ^ Z.of_nat (length l)) by (apply Z.pow_pos_nonneg; lia). nia.
Qed.
Lemma toBase_mod b k n m : 0 < b -> toBase b k (n + m * b ^ Z.of_nat k) = toBase b k n.
Proof.
  intros Hb. revert n m. induction k as [|k IH]; intros n m; cbn [toBase]; [done|]. assert (0 < b ^ Z.of_nat k) by (apply Z.pow_pos_nonneg; lia).
  rewrite Nat2Z.inj_succ, Z.pow_succ_r by lia. f_equal.
  - replace (n + m * (b * b ^ Z.of_nat k)) with (n + (m * b) * b ^ Z.of_nat k) by ring. rewrite Z.div_add by lia. by rewrite Z.mod_add by lia.
  - replace (n + m * (b * b ^ Z.of_nat k)) with (n + (m * b) * b ^ Z.of_nat k) by ring. apply IH.
Qed.
Lemma toBase_ofBase b l : 0 < b -> digits b l -> toBase b (length l) (ofBase b l) = l.
Proof.
  intros Hb Hl. induction Hl as [|d l Hd Hl IH]; cbn [ofBase length toBase]; [done|]. pose proof (ofBase_range b l Hb Hl). f_equal.
  - rewrite Z.add_comm, Z.div_add, Z.div_small, Z.mod_small by lia. lia.
  - rewrite Z.add_comm, toBase_mod by done. exact IH.
Qed.
Lemma ofBase_toBase b k n : 0 < b -> 0 <= n < b ^ Z.of_nat k -> ofBase b (toBase b k n) = n.
Proof.
  intros Hb. revert n. induction k as [|k IH]; intros n Hn; [cbn in *; lia|]. cbn [toBase ofBase]. rewrite toBase_length. assert (0 < b ^ Z.of_nat k) by (apply Z.pow_pos_nonneg; lia). rewrite Nat2Z.inj_succ, Z.pow_succ_r in Hn by lia.
  pose proof (Z.div_mod n (b ^ Z.of_nat k)) as Hdm. pose proof (Z.mod_pos_bound n (b ^ Z.of_nat k)).
  assert (toBase b k n = toBase b k (n mod b ^ Z.of_nat k)) as ->.
  { rewrite <- (toBase_mod b k (n mod b ^ Z.of_nat k) (n / b ^ Z.of_nat k)) by done. f_equal. lia. }
  rewrite IH by lia. rewrite (Z.mod_small (n / b ^ Z.of_nat k)); [lia|]. split; [apply Z.div_pos; lia|]. apply Z.div_lt_upper_bound; lia.
Qed.
Lemma ofBase_zeros b l n : ofBase b (l ++ repeat 0 n) = ofBase b l * b ^ Z.of_nat n.
Proof.
  induction l as [|d l IH]; cbn [ofBase app].
  - induction n as [|n IHn]; cbn [repeat ofBase]; lia.
  - rewrite IH, length_app, repeat_length, Nat2Z.inj_add, Z.pow_add_r by lia. ring.
Qed.
(** A number whose low part is zero ends in zero digits. *)
Lemma toBase_zeros b m k n : 0 < b -> toBase b (m + k) (n * b ^ Z.of_nat k) = toBase b m n ++ repeat 0 k.
Proof.
  intros Hb. assert (forall j, 0 < b ^ Z.of_nat j) as Hp by (intros; apply Z.pow_pos_nonneg; lia). induction m as [|m IH]; cbn [Nat.add toBase app].
  - assert (forall j, (j <= k)%nat -> toBase b j (n * b ^ Z.of_nat k) = repeat 0 j) as Hj; [|by apply Hj]. induction j as [|j IHj]; intros Hjk; cbn [toBase repeat]; [done|]. f_equal; [|apply IHj; lia].
    replace (Z.of_nat k) with (Z.of_nat (k - S j) + 1 + Z.of_nat j) by lia. rewrite !Z.pow_add_r by lia. rewrite Z.mul_assoc, Z.div_mul by (specialize (Hp j); lia). rewrite Z.pow_1_r, Z.mul_assoc. apply Z.mod_mul. lia.
  - f_equal; [|exact IH]. f_equal. rewrite Nat2Z.inj_add, Z.pow_add_r by lia. rewrite Z.div_mul_cancel_r; [done| |]; pose proof (Hp m); pose proof (Hp k); lia.
Qed.

(** ** Groups

    A group of at most [g] bytes is written with [d] digits of [w] bits, [8 g = w d]; a
    short group fills up with zero bits and leaves out the digits that hold no byte. *)
(** How many digits of [w] bits [k] bytes take, and how many bytes [m] digits hold. *)
Definition digitCount (w : Z) (k : nat) : nat := Z.to_nat ((8 * Z.of_nat k + w - 1) / w).
Definition byteCount (w : Z) (m : nat) : nat := Z.to_nat (w * Z.of_nat m / 8).
Lemma digitCount_bounds w k : 0 < w -> 8 * Z.of_nat k <= w * Z.of_nat (digitCount w k) < 8 * Z.of_nat k + w.
Proof.
  intros Hw. unfold digitCount. rewrite Z2Nat.id by (apply Z.div_pos; lia). pose proof (Z.div_mod (8 * Z.of_nat k + w - 1) w). pose proof (Z.mod_pos_bound (8 * Z.of_nat k + w - 1) w). lia.
Qed.

Section group.
Context (g d : nat) (w : Z) (Hw : 0 < w) (Hgd : 8 * Z.of_nat g = w * Z.of_nat d).

Definition groupDigits (bs : bytes) : list Z :=
  take (digitCount w (length bs)) (toBase (2 ^ w) d (ofBase 256 (bs ++ repeat 0 (g - length bs)))).
Definition groupBytes (ds : list Z) : bytes :=
  take (byteCount w (length ds)) (toBase 256 g (ofBase (2 ^ w) (ds ++ repeat 0 (d - length ds)))).

Lemma group_roundtrip bs : (length bs <= g)%nat -> w < 8 -> digits 256 bs -> groupBytes (groupDigits bs) = bs.
Proof.
  intros Hl Hw8 Hbs. pose proof (digitCount_bounds w (length bs) Hw) as Hc. set (k := length bs) in *. set (m := digitCount w k) in *. assert (m <= d)%nat as Hmd. { destruct (decide (m <= d)%nat); [done|]. exfalso. assert (w * (Z.of_nat d + 1) <= w * Z.of_nat m) by (apply Z.mul_le_mono_nonneg_l; lia). lia. }
  assert (0 < 2 ^ w) by (apply Z.pow_pos_nonneg; lia). pose proof (ofBase_range 256 bs ltac:(lia) Hbs) as Hr. fold k in Hr.
  unfold groupDigits. fold k m. rewrite ofBase_zeros.
  (* The number is a multiple of the digits left out. *)
  assert (256 ^ Z.of_nat (g - k) = 2 ^ (8 * Z.of_nat (g - k))) as E8 by (rewrite Z.pow_mul_r by lia; done).
  assert ((2 ^ w) ^ Z.of_nat (d - m) = 2 ^ (w * Z.of_nat (d - m))) as Ew by (rewrite Z.pow_mul_r by lia; done).
  set (q := 8 * Z.of_nat (g - k) - w * Z.of_nat (d - m)). assert (0 <= w * Z.of_nat (d - m)) by (apply Z.mul_nonneg_nonneg; lia). assert (0 <= w * Z.of_nat m) by (apply Z.mul_nonneg_nonneg; lia). assert (0 <= q) by (unfold q; lia).
  assert (ofBase 256 bs * 256 ^ Z.of_nat (g - k) = (ofBase 256 bs * 2 ^ q) * (2 ^ w) ^ Z.of_nat (d - m)) as En.
  { rewrite E8, Ew, <- Z.mul_assoc, <- Z.pow_add_r by lia. do 2 f_equal. unfold q. lia. }
  rewrite En. replace d with (m + (d - m))%nat at 1 by lia. rewrite toBase_zeros, take_app_le, take_ge by (rewrite ?toBase_length; lia).
  unfold groupBytes. rewrite toBase_length, ofBase_zeros, ofBase_toBase; [|lia|].
  - rewrite <- En, <- ofBase_zeros.
    assert (byteCount w m = k) as ->. { unfold byteCount. rewrite <- (Nat2Z.id k). f_equal. symmetry. apply Z.div_unique with (r := w * Z.of_nat m - 8 * Z.of_nat k); lia. }
    assert (digits 256 (bs ++ repeat 0 (g - k))) as Hd. { apply Forall_app. split; [done|]. clear. induction (g - k)%nat; cbn; constructor; [lia|done]. }
    assert (length (bs ++ repeat 0 (g - k)) = g) as Hlen by (rewrite length_app, repeat_length; fold k; lia).
    rewrite <- Hlen at 1. rewrite toBase_ofBase by (lia || done). unfold k. by rewrite take_app_le, take_ge by done.
  - replace ((2 ^ w) ^ Z.of_nat m) with (2 ^ (8 * Z.of_nat k) * 2 ^ q); [rewrite Z.pow_mul_r by lia; change (2 ^ 8) with 256; assert (0 < 2 ^ q) by (apply Z.pow_pos_nonneg; lia); nia|].
    rewrite <- Z.pow_add_r, <- Z.pow_mul_r by lia. f_equal. unfold q. rewrite (Nat2Z.inj_sub d m), Z.mul_sub_distr_l by done. lia.
Qed.
End group.

(** ** Alphabets *)

Fixpoint indexOf (c : Z) (l : bytes) (i : Z) : option Z :=
  match l with [] => None | x :: l' => if x =? c then Some i else indexOf c l' (i + 1) end.
Definition char_at (alphabet : bytes) (n : Z) : Z := nth (Z.to_nat n) alphabet 0.
(** Every index of the alphabet is read back. *)
Definition reads_back (alphabet : bytes) : bool :=
  forallb (fun n => bool_decide (indexOf (char_at alphabet n) alphabet 0 = Some n)) (seqZ 0 (Z.of_nat (length alphabet))).
Lemma reads_back_at alphabet n : reads_back alphabet = true -> 0 <= n < Z.of_nat (length alphabet) -> indexOf (char_at alphabet n) alphabet 0 = Some n.
Proof. unfold reads_back. rewrite forallb_forall. intros Hr Hn. specialize (Hr n). rewrite bool_decide_eq_true in Hr. apply Hr, list_elem_of_In, elem_of_seqZ. lia. Qed.

Definition pad : Z := 61.
Definition notNewline (c : Z) : bool := negb ((c =? 10) || (c =? 13)).
Fixpoint encodeGroups (g d : nat) (w : Z) (alphabet : bytes) (fuel : nat) (bs : bytes) : bytes :=
  match fuel, bs with
  | S fuel', _ :: _ =>
      let ds := groupDigits g d w (take g bs) in
      (char_at alphabet <$> ds) ++ repeat pad (d - length ds) ++ encodeGroups g d w alphabet fuel' (drop g bs)
  | _, _ => []
  end.

(** *** Hexadecimal *)
Definition hexEncode (b : bytes) : bytes := b ≫= fun c => [hexDigit (c / 16); hexDigit (c mod 16)].
Fixpoint hexDecode (s : bytes) : option bytes :=
  match s with
  | [] => Some []
  | x :: y :: s' => if isHex x && isHex y then b ← hexDecode s'; Some (16 * hexValue x + hexValue y :: b) else None
  | _ => None
  end.

(** *** Base 64 *)
Definition base64Alphabet : bytes := str "ABCDEFGHIJKLMNOPQRSTUVWXYZabcdefghijklmnopqrstuvwxyz0123456789+/".
Definition base64Encode (b : bytes) : bytes := encodeGroups 3 4 6 base64Alphabet (length b) b.
Definition base64Value (c : Z) : option Z := indexOf c base64Alphabet 0.
Definition base64Bytes (ds : list Z) : bytes := groupBytes 3 4 6 ds.
(** [decodeQuantum] after the newlines are gone; without padding the last group may be short. *)
Fixpoint base64Quanta (padded : bool) (s : bytes) : option bytes :=
  match s with
  | [] => Some []
  | [_] => None
  | c0 :: c1 :: rest =>
      v0 ← base64Value c0; v1 ← base64Value c1;
      match rest with
      | [] => if padded then None else Some (base64Bytes [v0; v1])
      | c2 :: rest2 =>
          match base64Value c2 with
          | None => if padded && (c2 =? pad) && bool_decide (rest2 = [pad]) then Some (base64Bytes [v0; v1]) else None
          | Some v2 =>
              match rest2 with
              | [] => if padded then None else Some (base64Bytes [v0; v1; v2])
              | c3 :: t =>
                  match base64Value c3 with
                  | None => if padded && (c3 =? pad) && bool_decide (t = []) then Some (base64Bytes [v0; v1; v2]) else None
                  | Some v3 => b ← base64Quanta padded t; Some (base64Bytes [v0; v1; v2; v3] ++ b)
                  end
              end
          end
      end
  end.
Definition base64Decode (padded : bool) (s : bytes) : option bytes := base64Quanta padded (List.filter notNewline s).

(** *** Base 32 *)
Definition base32Alphabet : bytes := str "ABCDEFGHIJKLMNOPQRSTUVWXYZ234567".
Definition base32Encode (b : bytes) : bytes := encodeGroups 5 8 5 base32Alphabet (length b) b.
(** The digits of a group, [k] of them left to read, whether padding ended it, and what follows. *)
Fixpoint base32Group (k : nat) (s : bytes) : option (list Z * bool * bytes) :=
  match k with
  | O => Some ([], false, s)
  | S k' =>
      let j := (7 - k')%nat in
      match s with
      | [] => None
      | c :: s' =>
          if (c =? pad) && Nat.leb 2 j && Nat.ltb (length s') 8 then
            if Nat.ltb (length s' + j) 7 || negb (forallb (Z.eqb pad) (take (7 - j) s')) || existsb (Nat.eqb j) [1; 3; 6]%nat then None
            else Some ([], true, s')
          else
            v ← indexOf c base32Alphabet 0;
            '(ds, last, rest) ← base32Group k' s';
            Some (v :: ds, last, rest)
      end
  end.
Fixpoint base32Groups (fuel : nat) (s : bytes) : option bytes :=
  match fuel, s with
  | S fuel', _ :: _ =>
      '(ds, last, rest) ← base32Group 8 s;
      if last : bool then Some (groupBytes 5 8 5 ds) else b ← base32Groups fuel' rest; Some (groupBytes 5 8 5 ds ++ b)
  | _, _ => Some []
  end.
Definition base32Decode (s : bytes) : option bytes := let s := List.filter notNewline s in base32Groups (length s) s.

Example base64_example : base64Encode (str "light w") = str "bGlnaHQgdw==" /\ base64Decode true (str "bGlnaHQgdw==") = Some (str "light w").
Proof. by vm_compute. Qed.
Example base32_example : base32Encode (str "foob") = str "MZXW6YQ=" /\ base32Decode (str "MZXW6YQ=") = Some (str "foob") /\ base32Decode (str "MZXW6YTB") = Some (str "fooba").
Proof. by vm_compute. Qed.

(** ** Round trips *)

Lemma hexValue_ok x : 0 <= x < 256 -> isHex (hexDigit (x / 16)) && isHex (hexDigit (x mod 16)) = true /\ 16 * hexValue (hexDigit (x / 16)) + hexValue (hexDigit (x mod 16)) = x.
Proof.
  intros Hx. destruct (hexDigit_ok (x / 16)) as [-> ->]; [split; [apply Z.div_pos; lia|apply Z.div_lt_upper_bound; lia]|]. destruct (hexDigit_ok (x mod 16)) as [-> ->]; [apply Z.mod_pos_bound; lia|]. split; [done|]. symmetry. apply Z.div_mod. lia.
Qed.
Lemma hex_roundtrip b : digits 256 b -> hexDecode (hexEncode b) = Some b.
Proof. induction 1 as [|x b Hx Hb IH]; [done|]. destruct (hexValue_ok x Hx) as [H1 H2]. cbn. rewrite H1. unfold hexEncode in IH. cbn in IH. rewrite IH. cbn. by rewrite H2. Qed.

Lemma groupDigits_length g d w bs : 0 < w -> 8 * Z.of_nat g = w * Z.of_nat d -> (length bs <= g)%nat -> length (groupDigits g d w bs) = digitCount w (length bs).
Proof.
  intros Hw Hgd Hl. unfold groupDigits. rewrite length_take, toBase_length. pose proof (digitCount_bounds w (length bs) Hw). enough (digitCount w (length bs) <= d)%nat by lia.
  destruct (decide (digitCount w (length bs) <= d)%nat); [done|]. exfalso. assert (w * (Z.of_nat d + 1) <= w * Z.of_nat (digitCount w (length bs))) by (apply Z.mul_le_mono_nonneg_l; lia). lia.
Qed.
Lemma groupDigits_digits g d w bs : 0 < w -> digits (2 ^ w) (groupDigits g d w bs).
Proof. intros Hw. apply Forall_take, toBase_digits. apply Z.pow_pos_nonneg; lia. Qed.

Section roundtrip.
Context (g d : nat) (w : Z) (alphabet : bytes).
Context (Hw : 0 < w < 8) (Hgd : 8 * Z.of_nat g = w * Z.of_nat d) (Hg : (0 < g)%nat).
Context (Hlen : Z.of_nat (length alphabet) = 2 ^ w) (Hread : reads_back alphabet = true).

Lemma value_of n : 0 <= n < 2 ^ w -> indexOf (char_at alphabet n) alphabet 0 = Some n.
Proof. intros Hn. apply reads_back_at; [done|]. by rewrite Hlen. Qed.
Lemma chars_in ds c : digits (2 ^ w) ds -> c ∈ char_at alphabet <$> ds -> c ∈ alphabet.
Proof. intros Hd. rewrite list_elem_of_fmap. intros (n & -> & Hn). unfold digits in Hd. rewrite list.Forall_forall in Hd. specialize (Hd n Hn). unfold char_at. apply list_elem_of_In, nth_In. lia. Qed.
Lemma encoded_chars fuel bs c : c ∈ encodeGroups g d w alphabet fuel bs -> c ∈ alphabet \/ c = pad.
Proof.
  revert bs. induction fuel as [|fuel IH]; intros [|x bs]; cbn [encodeGroups]; try (intros ?; set_solver). rewrite !elem_of_app. intros [Hc|[Hc|Hc]]; [|right|by apply IH in Hc].
  - left. eapply chars_in; [|done]. apply groupDigits_digits. lia.
  - by apply list_elem_of_In, repeat_spec in Hc.
Qed.
End roundtrip.

Lemma filter_id (s : bytes) : (forall c, c ∈ s -> notNewline c = true) -> List.filter notNewline s = s.
Proof. induction s as [|c s IH]; cbn; [done|]. intros Hs. rewrite (Hs c) by set_solver. f_equal. apply IH. set_solver. Qed.
Lemma encoded_filter g d w alphabet fuel bs : 0 < w < 8 -> 8 * Z.of_nat g = w * Z.of_nat d -> (0 < g)%nat -> Z.of_nat (length alphabet) = 2 ^ w -> reads_back alphabet = true -> forallb notNewline alphabet = true -> List.filter notNewline (encodeGroups g d w alphabet fuel bs) = encodeGroups g d w alphabet fuel bs.
Proof.
  intros Hw Hgd Hg Hl Hr Ha. apply filter_id. intros c Hc. eapply encoded_chars in Hc; [|done..]. destruct Hc as [Hc| ->]; [|done]. rewrite forallb_forall in Ha. by apply Ha, list_elem_of_In.
Qed.

Lemma base64_char n : 0 <= n < 64 -> base64Value (char_at base64Alphabet n) = Some n.
Proof. intros Hn. apply reads_back_at; [by vm_compute|exact Hn]. Qed.
Lemma base64_roundtrip b : digits 256 b -> base64Decode true (base64Encode b) = Some b.
Proof.
  unfold base64Decode, base64Encode. rewrite encoded_filter by (lia || by vm_compute). generalize (Nat.le_refl (length b)). generalize (length b) at 2 3. intros fuel. revert b. induction fuel as [|fuel IH]; intros b Hl Hb; [destruct b; [done|cbn in Hl; lia]|].
  assert (forall bs, (length bs <= 3)%nat -> digits 256 bs -> exists ds, groupDigits 3 4 6 bs = ds /\ length ds = digitCount 6 (length bs) /\ digits (2 ^ 6) ds /\ base64Bytes ds = bs) as Hgroup.
  { intros bs Hbs Hd. eexists. split; [done|]. split_and!; [by apply groupDigits_length|by apply groupDigits_digits|by apply group_roundtrip]. }
  destruct b as [|x [|y [|z b]]]; [done| | |].
  - destruct (Hgroup [x]) as (ds & E & El & Hr & Hb'); [cbn; lia|done|]. unfold digits in Hr. change (2 ^ 6) with 64 in Hr. cbn [encodeGroups take drop]. rewrite E. destruct ds as [|v0 [|v1 [|]]]; try done. apply Forall_cons in Hr as [H0 Hr]. apply Forall_cons in Hr as [H1 _].
    assert (encodeGroups 3 4 6 base64Alphabet fuel [] = []) as -> by (by destruct fuel). cbn -[base64Value char_at base64Bytes]. rewrite !base64_char by done. change (base64Value pad) with (@None Z). cbn -[base64Value char_at base64Bytes]. by rewrite Hb'.
  - destruct (Hgroup [x; y]) as (ds & E & El & Hr & Hb'); [cbn; lia|done|]. unfold digits in Hr. change (2 ^ 6) with 64 in Hr. cbn [encodeGroups take drop]. rewrite E. destruct ds as [|v0 [|v1 [|v2 [|]]]]; try done. apply Forall_cons in Hr as [H0 Hr]. apply Forall_cons in Hr as [H1 Hr]. apply Forall_cons in Hr as [H2 _].
    assert (encodeGroups 3 4 6 base64Alphabet fuel [] = []) as -> by (by destruct fuel). cbn -[base64Value char_at base64Bytes]. rewrite !base64_char by done. change (base64Value pad) with (@None Z). cbn -[base64Value char_at base64Bytes]. by rewrite Hb'.
  - unfold digits in Hb. rewrite !Forall_cons in Hb. destruct Hb as (Hx & Hy & Hz & Hb). destruct (Hgroup [x; y; z]) as (ds & E & El & Hr & Hb'); [cbn; lia|by unfold digits; rewrite !Forall_cons, Forall_nil|]. unfold digits in Hr. change (2 ^ 6) with 64 in Hr. cbn [encodeGroups take drop]. rewrite take_0, drop_0, E. destruct ds as [|v0 [|v1 [|v2 [|v3 [|]]]]]; try done.
    rewrite !Forall_cons in Hr. destruct Hr as (H0 & H1 & H2 & H3 & _). cbn -[base64Value char_at base64Bytes encodeGroups]. rewrite !base64_char by done. cbn -[base64Value char_at base64Bytes encodeGroups].
    rewrite IH by (done || cbn in Hl; lia). cbn -[base64Bytes]. by rewrite Hb'.
Qed.

Lemma base32_char n : 0 <= n < 32 -> indexOf (char_at base32Alphabet n) base32Alphabet 0 = Some n /\ char_at base32Alphabet n =? pad = false.
Proof.
  intros Hn. split; [apply reads_back_at; [by vm_compute|exact Hn]|]. assert (forallb (fun n => negb (char_at base32Alphabet n =? pad)) (seqZ 0 32) = true) as Hf by by vm_compute.
  rewrite forallb_forall in Hf. apply negb_true_iff, Hf, list_elem_of_In, elem_of_seqZ. lia.
Qed.
Lemma base32Group_chars ds : forall k s, digits (2 ^ 5) ds -> (length ds <= k)%nat ->
  base32Group k ((char_at base32Alphabet <$> ds) ++ s) = '(ds', last, rest) ← base32Group (k - length ds) s; Some (ds ++ ds', last, rest).
Proof.
  induction ds as [|n ds IH]; intros k s Hd Hk; [cbn; rewrite Nat.sub_0_r; by destruct (base32Group k s) as [[[? ?] ?]|]|]. destruct k as [|k]; [cbn in Hk; lia|]. unfold digits in Hd. apply Forall_cons in Hd as [Hn Hd].
  destruct (base32_char n Hn) as [Hv Hp]. cbn [fmap list_fmap app base32Group]. rewrite Hp, Hv. cbn [andb mbind option_bind]. rewrite IH by (done || cbn in Hk; lia). cbn [length Nat.sub]. by destruct (base32Group (k - length ds) s) as [[[? ?] ?]|].
Qed.
(** The padding of a group of [m] digits. *)
Lemma base32Group_pad m : m = 2%nat \/ m = 4%nat \/ m = 5%nat \/ m = 7%nat -> base32Group (8 - m) (repeat pad (8 - m)) = Some ([], true, repeat pad (7 - m)).
Proof. by intros [-> | [-> | [-> | ->]]]. Qed.
Lemma base32_group bs : (0 < length bs <= 5)%nat -> digits 256 bs -> let ds := groupDigits 5 8 5 bs in
  groupBytes 5 8 5 ds = bs /\ digits (2 ^ 5) ds /\ (length bs = 5 /\ length ds = 8 \/ length bs < 5 /\ (length ds = 2 \/ length ds = 4 \/ length ds = 5 \/ length ds = 7))%nat.
Proof.
  intros Hl Hb ds. split_and!; [apply group_roundtrip; (lia || done)|by apply groupDigits_digits|]. unfold ds. rewrite groupDigits_length by (lia || done). destruct bs as [|? [|? [|? [|? [|? [|]]]]]]; cbn in Hl |- *; try lia; (left; done) || (right; split; [lia|auto]).
Qed.
Lemma base32_roundtrip b : digits 256 b -> base32Decode (base32Encode b) = Some b.
Proof.
  unfold base32Decode, base32Encode. rewrite encoded_filter by (lia || by vm_compute). cbn zeta.
  assert (forall n fuel b, (length b <= n)%nat -> (length (encodeGroups 5 8 5 base32Alphabet n b) <= fuel)%nat -> digits 256 b -> base32Groups fuel (encodeGroups 5 8 5 base32Alphabet n b) = Some b) as Hmain; [|by apply Hmain].
  clear b. induction n as [|n IH]; intros fuel b Hl Hf Hb; [destruct b; [by destruct fuel|cbn in Hl; lia]|]. destruct b as [|x b]; [by destruct fuel|].
  destruct (base32_group (take 5 (x :: b))) as (Hg & Hd & Hc); [rewrite length_take; cbn [length]; lia|by apply Forall_take|]. cbn [encodeGroups] in *. set (ds := groupDigits 5 8 5 (take 5 (x :: b))) in *.
  assert (forall s, base32Groups fuel ((char_at base32Alphabet <$> ds) ++ s) =
    match fuel with O => Some [] | S fuel => '(ds', last, rest) ← base32Group (8 - length ds) s; if last : bool then Some (groupBytes 5 8 5 (ds ++ ds')) else b ← base32Groups fuel rest; Some (groupBytes 5 8 5 (ds ++ ds') ++ b) end) as Hread.
  { intros s. destruct fuel as [|fuel]; [done|]. assert (length ds <= 8)%nat as Hle by lia. pose proof (base32Group_chars ds 8 s Hd Hle) as Hr. destruct ds as [|d ds']; [cbn in Hc; lia|]. cbn [base32Groups fmap list_fmap app] in Hr |- *. rewrite Hr. by destruct (base32Group _ s) as [[[? ?] ?]|]. }
  rewrite Hread. assert (1 <= length ds)%nat as Hone by lia. destruct fuel as [|fuel]; [rewrite !length_app, length_fmap in Hf; lia|]. destruct Hc as [[Hb5 Hd8]|[Hb5 Hdm]].
  - rewrite Hd8, Nat.sub_diag in *. cbn [repeat app base32Group mbind option_bind]. rewrite app_nil_r, Hg, IH; [cbn [mbind option_bind]; by rewrite take_drop| | |by apply Forall_drop].
    + rewrite length_drop. cbn in Hl |- *. lia.
    + rewrite !length_app, length_fmap in Hf. lia.
  - assert (drop 5 (x :: b) = []) as Hdrop by (apply drop_ge; rewrite length_take in Hb5; lia). rewrite Hdrop. assert (encodeGroups 5 8 5 base32Alphabet n [] = []) as -> by (by destruct n). rewrite app_nil_r, base32Group_pad by done. cbn [mbind option_bind]. rewrite app_nil_r, Hg. f_equal. apply take_ge. rewrite length_take in Hb5. lia.
Qed.

(** ** Everything is bytes *)

Lemma digits_bytes l : digits 256 l <-> all_bytes l.
Proof. done. Qed.
Lemma groupBytes_bytes g d w ds : all_bytes (groupBytes g d w ds).
Proof. apply digits_bytes, Forall_take, toBase_digits. lia. Qed.
Lemma base64Quanta_bytes padded s : forall b, base64Quanta padded s = Some b -> all_bytes b.
Proof.
  enough (forall n s, (length s <= n)%nat -> forall b, base64Quanta padded s = Some b -> all_bytes b) by eauto. clear s. induction n as [|n IH]; intros s Hl b; [destruct s; [cbn; intros [= <-]; constructor|cbn in Hl; lia]|].
  destruct s as [|c0 [|c1 rest]]; [intros [= <-]; constructor|by intros [=]|]. cbn [base64Quanta]. destruct (base64Value c0); [|done]. cbn [mbind option_bind]. destruct (base64Value c1); [|done]. cbn [mbind option_bind].
  destruct rest as [|c2 rest]; [destruct padded; [done|intros [= <-]; apply groupBytes_bytes]|]. destruct (base64Value c2); [|destruct (padded && _ && _); [|done]; intros [= <-]; apply groupBytes_bytes].
  destruct rest as [|c3 t]; [destruct padded; [done|intros [= <-]; apply groupBytes_bytes]|]. destruct (base64Value c3); [|destruct (padded && _ && _); [|done]; intros [= <-]; apply groupBytes_bytes].
  destruct (base64Quanta padded t) eqn:Et; [|done]. cbn [mbind option_bind]. intros Hs. assert (b = base64Bytes [z; z0; z1; z2] ++ l) as -> by congruence. clear Hs. apply Forall_app. split; [apply groupBytes_bytes|]. eapply IH; [|done]. cbn in Hl. lia.
Qed.
Lemma base64Decode_bytes padded s b : base64Decode padded s = Some b -> all_bytes b.
Proof. apply base64Quanta_bytes. Qed.
Lemma base32Groups_bytes fuel : forall s b, base32Groups fuel s = Some b -> all_bytes b.
Proof.
  induction fuel as [|fuel IH]; intros s b; [intros [= <-]; constructor|]. cbn [base32Groups]. destruct s as [|c s]; [intros [= <-]; constructor|]. destruct (base32Group 8 (c :: s)) as [[[ds last] rest]|]; [|done]. cbn [mbind option_bind].
  destruct last; [intros [= <-]; apply groupBytes_bytes|]. destruct (base32Groups fuel rest) as [l|] eqn:E; [|done]. cbn [mbind option_bind]. intros Hs. assert (b = groupBytes 5 8 5 ds ++ l) as -> by congruence. clear Hs. apply Forall_app. split; [apply groupBytes_bytes|by eapply IH].
Qed.
Lemma base32Decode_bytes s b : base32Decode s = Some b -> all_bytes b.
Proof. apply base32Groups_bytes. Qed.
Lemma isHex_range c : isHex c = true -> 0 <= hexValue c < 16.
Proof. unfold isHex, hexValue, isDigit. intros Hc. repeat case_match; lia. Qed.
Lemma hexDecode_bytes s : forall b, hexDecode s = Some b -> all_bytes b.
Proof.
  enough (forall n s, (length s <= n)%nat -> forall b, hexDecode s = Some b -> all_bytes b) by eauto. clear s. induction n as [|n IH]; intros s Hl b; [destruct s; [intros [= <-]; constructor|cbn in Hl; lia]|].
  destruct s as [|x [|y s]]; [intros [= <-]; constructor|by intros [=]|]. cbn. destruct (isHex x) eqn:Ex; [|done]. destruct (isHex y) eqn:Ey; [|done]. cbn. destruct (hexDecode s) eqn:Es; [|done]. cbn. intros [= <-].
  pose proof (isHex_range x Ex). pose proof (isHex_range y Ey). constructor; [unfold is_byte; lia|]. eapply IH; [|done]. cbn in Hl. lia.
Qed.
Lemma hexEncode_bytes b : all_bytes b -> all_bytes (hexEncode b).
Proof.
  intros Hb. induction Hb as [|x b Hx Hb IH]; [constructor|]. unfold is_byte in Hx. cbn. destruct (hexDigit_ok (x / 16)) as [H1 _]; [split; [apply Z.div_pos; lia|apply Z.div_lt_upper_bound; lia]|]. destruct (hexDigit_ok (x mod 16)) as [H2 _]; [apply Z.mod_pos_bound; lia|].
  assert (forall c, isHex c = true -> is_byte c) as Hh. { intros c. unfold isHex, isDigit, is_byte. lia. } repeat (constructor; [by apply Hh|]). exact IH.
Qed.
Lemma base64Encode_bytes b : all_bytes (base64Encode b).
Proof.
  apply list.Forall_forall. intros c Hc. eapply (encoded_chars 3 4 6) in Hc; [|lia|done|lia|done|by vm_compute]. destruct Hc as [Hc| ->]; [|done]. revert c Hc. apply list.Forall_forall. by repeat constructor.
Qed.
Lemma base32Encode_bytes b : all_bytes (base32Encode b).
Proof.
  apply list.Forall_forall. intros c Hc. eapply (encoded_chars 5 8 5) in Hc; [|lia|done|lia|done|by vm_compute]. destruct Hc as [Hc| ->]; [|done]. revert c Hc. apply list.Forall_forall. by repeat constructor.
Qed.
