(* ===== verification/SqlText.v ===== *)
(** * Values as text

    The text forms of SQL values: literals ([sqlLiteral], [literalText]), the text of
    FORMAT's [%t] ([textValue], both of [internal/gsql/cast.go]) and JSON ([jsonQuote],
    [toJSON] of [internal/gsql/funcs_misc.go]).  A typed value always has a text, and the
    text is a string of bytes. *)

From stdpp Require Import base list.
From Stdlib Require Import ZArith Lia.
From Stdlib Require Import Floats.SpecFloat.
From S2P Require Import Prelude Proto Rows Server Tokens KeySchema Lexer SqlValues SqlFloat SqlArith SqlTime SqlOps SqlCast Bexpr Aggregates Encodings.

#[local] Open Scope Z_scope.

Section text.
Context `{TimeZones} `{Strconv}.

(** ** SQL literals *)

(** An ignored error leaves the empty string. *)
Definition orEmpty (r : outcome bytes) : outcome bytes := match r with Err _ => Ret [] | r => r end.
Definition formatBool (b : bool) : bytes := if b then str "true" else str "false".
Definition floatLiteral (f : spec_float) (t : sqlType) : bytes :=
  let special (s : bytes) := str "CAST(" ++ [34] ++ s ++ [34] ++ str " AS " ++ typeString t ++ str ")" in
  match f with
  | S754_nan => special (str "nan")
  | S754_infinity false => special (str "inf")
  | S754_infinity true => special (str "-inf")
  | f =>
      let s := formatFloat f (match t with TFloat32 => true | _ => false end) in
      if existsb (fun c => existsb (Z.eqb c) (str ".eE")) s then s else s ++ str ".0"
  end.

Fixpoint sqlLiteral (v : value) (t : sqlType) {struct v} : outcome bytes :=
  match v with
  | VNull => Ret (str "NULL")
  | _ =>
    match t, v with
    | TBool, VBool b => Ret (formatBool b)
    | TInt64, VInt n => Ret (FormatInt n)
    | (TFloat32 | TFloat64), VFloat f => Ret (floatLiteral f t)
    | TString, VString s => Ret (quoteSQLString s)
    | TBytes, VBytes b => Ret (quoteSQLBytes b)
    | TDate, VDate d => Ret (str "DATE " ++ [34] ++ formatDate d ++ [34])
    | TTimestamp, VTs ts => Ret (str "TIMESTAMP " ++ [34] ++ formatTimestamp ts UTC ++ [34])
    | TArray e, VArray l => parts ← collectM (fun x => sqlLiteral x e) l; Ret (str "[" ++ joinParts (str ", ") parts ++ str "]")
    | TStruct fs, VStruct l =>
        parts ← (fix go (l : list value) (fs : list (bytes * sqlType)) {struct l} : outcome (list bytes) :=
          match l, fs with
          | [], _ => Ret []
          | x :: l', f :: fs' => s ← sqlLiteral x f.2; ss ← go l' fs'; Ret (s :: ss)
          | _ :: _, [] => Panic
          end) l fs;
        Ret (str "(" ++ joinParts (str ", ") parts ++ str ")")
    | TMap k w, VMap m =>
        parts ← collectM (fun kv => a ← orEmpty (sqlLiteral kv.1 k); b ← orEmpty (sqlLiteral kv.2 w); Ret (a ++ str ": " ++ b)) m;
        Ret (str "{" ++ joinParts (str ", ") parts ++ str "}")
    | TInvalid, _ => Err OutOfRange
    | _, _ => Panic
    end
  end.
Definition literalText (v : value) (t : sqlType) : outcome bytes := match sqlLiteral v t with Err _ => Ret (str "?") | r => r end.

(** ** Text of values *)

Definition scalarText (v : value) (t : sqlType) : outcome bytes :=
  match castValue v t TString UTC with
  | Ret (VString s) => Ret s
  | Ret _ | Panic => Panic
  | Err _ => s ← literalText v t; Ret (base64Encode s)
  end.
Fixpoint textValue (v : value) (t : sqlType) {struct v} : outcome bytes :=
  match v with
  | VNull => Ret (str "NULL")
  | _ =>
    match t, v with
    | TBytes, VBytes b => Ret b
    | TArray e, VArray l => parts ← collectM (fun x => textValue x e) l; Ret (str "[" ++ joinParts (str ", ") parts ++ str "]")
    | TStruct fs, VStruct l =>
        parts ← (fix go (l : list value) (fs : list (bytes * sqlType)) {struct l} : outcome (list bytes) :=
          match l, fs with
          | [], _ => Ret []
          | x :: l', f :: fs' => s ← textValue x f.2; ss ← go l' fs'; Ret (s :: ss)
          | _ :: _, [] => Panic
          end) l fs;
        Ret (str "(" ++ joinParts (str ", ") parts ++ str ")")
    | TMap k w, VMap m =>
        parts ← collectM (fun kv => a ← textValue kv.1 k; b ← textValue kv.2 w; Ret (a ++ str ": " ++ b)) m;
        Ret (str "{" ++ joinParts (str ", ") parts ++ str "}")
    | (TBytes | TArray _ | TStruct _ | TMap _ _), _ => Panic
    | _, _ => scalarText v t
    end
  end.

(** ** JSON *)

(** [\u] and [leftPad(strconv.FormatInt(r, 16), 4)]. *)
Definition jsonEscape (r : Z) : bytes := [92; 117; hexDigit (r / 4096 mod 16); hexDigit (r / 256 mod 16); hexDigit (r / 16 mod 16); hexDigit (r mod 16)].
Definition jsonRune (r : Z) : bytes :=
  if r =? 34 then [92; 34] else if r =? 92 then [92; 92] else if r =? 10 then [92; 110] else if r =? 13 then [92; 114]
  else if r =? 9 then [92; 116] else if r =? 8 then [92; 98] else if r =? 12 then [92; 102]
  else if (r <? 32) || (r =? 65533) then jsonEscape r else encodeRune r.
Definition jsonQuote (s : bytes) : bytes := [34] ++ (runes 0 s ≫= jsonRune) ++ [34].
Definition trimZeros (s : bytes) : bytes := reverse (span (Z.eqb 48) (reverse s)).2.
Definition jsonTimestamp (ts : Z) : bytes :=
  let t := ts_time ts in
  let '(y, m, d) := tm_Date t in
  let us := floorMod ts 1000000 in
  padded y 4 ++ str "-" ++ padded m 2 ++ str "-" ++ padded d 2 ++ str "T" ++ padded (tm_Hour t) 2 ++ str ":" ++ padded (tm_Minute t) 2 ++ str ":" ++ padded (tm_Second t) 2 ++
  (if us =? 0 then [] else str "." ++ trimZeros (padded us 6)) ++ str "Z".
Definition jsonInt (n : Z) : bytes := if (9007199254740992 <? n) || (n <? -9007199254740992) then [34] ++ FormatInt n ++ [34] else FormatInt n.
Definition jsonFloat (f : spec_float) (is32 : bool) : bytes :=
  match f with
  | S754_nan => [34] ++ str "NaN" ++ [34]
  | S754_infinity false => [34] ++ str "Infinity" ++ [34]
  | S754_infinity true => [34] ++ str "-Infinity" ++ [34]
  | f => formatFloat f is32
  end.
(** The name of a map entry. *)
Definition jsonKey (k : value) (t : sqlType) : outcome bytes :=
  match k with VBytes b => Ret (base64Encode b) | VString s => Ret s | _ => textValue k t end.

Fixpoint toJSON (v : value) (t : sqlType) {struct v} : outcome bytes :=
  match v with
  | VNull => Ret (str "null")
  | _ =>
    match t, v with
    | TBool, VBool b => Ret (formatBool b)
    | TInt64, VInt n => Ret (jsonInt n)
    | TFloat32, VFloat f => Ret (jsonFloat f true)
    | TFloat64, VFloat f => Ret (jsonFloat f false)
    | TString, VString s => Ret (jsonQuote s)
    | TBytes, VBytes b => Ret ([34] ++ base64Encode b ++ [34])
    | TDate, VDate d => Ret ([34] ++ formatDate d ++ [34])
    | TTimestamp, VTs ts => Ret ([34] ++ jsonTimestamp ts ++ [34])
    | TArray e, VArray l => parts ← collectM (fun x => toJSON x e) l; Ret (str "[" ++ joinParts (str ",") parts ++ str "]")
    | TStruct fs, VStruct l =>
        parts ← (fix go (l : list value) (fs : list (bytes * sqlType)) {struct l} : outcome (list bytes) :=
          match l, fs with
          | [], _ => Ret []
          | x :: l', f :: fs' => s ← toJSON x f.2; ss ← go l' fs'; Ret ((jsonQuote f.1 ++ str ":" ++ s) :: ss)
          | _ :: _, [] => Panic
          end) l fs;
        Ret (str "{" ++ joinParts (str ",") parts ++ str "}")
    | TMap k w, VMap m =>
        parts ← collectM (fun kv => a ← jsonKey kv.1 k; b ← toJSON kv.2 w; Ret (jsonQuote a ++ str ":" ++ b)) m;
        Ret (str "{" ++ joinParts (str ",") parts ++ str "}")
    | TInvalid, _ => Ret (str "null")
    | _, _ => Panic
    end
  end.
End text.

(** ** Typed values have texts *)

(** A text or an error, in bytes. *)
Definition texts (r : outcome bytes) : Prop := match r with Ret s => all_bytes s | Err _ => True | Panic => False end.
Definition all_texts (r : outcome (list bytes)) : Prop := match r with Ret l => Forall all_bytes l | Err _ => True | Panic => False end.

Lemma str_bytes s : bytesb s = true -> all_bytes s.
Proof. apply bytesb_all. Qed.
Lemma app_bytes a b : all_bytes a -> all_bytes b -> all_bytes (a ++ b).
Proof. intros Ha Hb. by apply Forall_app. Qed.
Lemma quoted_bytes s : all_bytes s -> all_bytes ([34] ++ s ++ [34]).
Proof. intros Hs. apply app_bytes; [by apply str_bytes|]. apply app_bytes; [done|by apply str_bytes]. Qed.
Lemma bind_bytes (l : list Z) (f : Z -> bytes) : (forall c, all_bytes (f c)) -> all_bytes (l ≫= f).
Proof. intros Hf. induction l as [|c l IH]; cbn; [constructor|]. by apply app_bytes. Qed.
Lemma joined_texts (r : outcome (list bytes)) sep a b : all_bytes sep -> all_bytes a -> all_bytes b -> all_texts r -> texts (parts ← r; Ret (a ++ joinParts sep parts ++ b)).
Proof. intros Hs Ha Hb Hr. destruct r; cbn in *; try done. apply app_bytes; [done|]. apply app_bytes; [by apply joinParts_bytes|done]. Qed.
Lemma collect_texts {A : Type} (f : A -> outcome bytes) (l : list A) : Forall (fun x => texts (f x)) l -> all_texts (collectM f l).
Proof.
  induction 1 as [|x l Hx Hl IH]; cbn; [constructor|]. destruct (f x); cbn; try done. destruct (collectM f l); cbn in *; try done. by constructor.
Qed.

Lemma encodeRune_bytes r : all_bytes (encodeRune r).
Proof.
  unfold encodeRune. destruct (Z.ltb_spec r 0); [by apply str_bytes|]. destruct (Z.ltb_spec r 128); [constructor; [unfold is_byte; lia|constructor]|].
  assert (forall x, is_byte (128 + x mod 64)) as Hc by (intros x; unfold is_byte; pose proof (Z.mod_pos_bound x 64); lia).
  destruct (Z.ltb_spec r 2048). { constructor; [unfold is_byte; pose proof (Z.div_lt_upper_bound r 64 32); pose proof (Z.div_pos r 64); lia|]. by repeat (constructor; [apply Hc|]). }
  destruct (_ || _) eqn:Er; [by apply str_bytes|]. apply orb_false_elim in Er as [_ Er%Z.ltb_ge]. destruct (Z.ltb_spec r 65536).
  - constructor; [unfold is_byte; pose proof (Z.div_lt_upper_bound r 4096 16); pose proof (Z.div_pos r 4096); lia|]. by repeat (constructor; [apply Hc|]).
  - constructor; [unfold is_byte; pose proof (Z.div_lt_upper_bound r 262144 5); pose proof (Z.div_pos r 262144); lia|]. by repeat (constructor; [apply Hc|]).
Qed.
Lemma hexDigit_byte n : 0 <= n < 16 -> is_byte (hexDigit n).
Proof. intros Hn. destruct (hexDigit_ok n Hn) as [Hh _]. unfold isHex, isDigit in Hh. unfold is_byte. lia. Qed.
Lemma hexEscape_bytes c : 0 <= c < 256 -> all_bytes (hexEscape c).
Proof.
  intros Hc. unfold hexEscape. do 2 (constructor; [unfold is_byte; lia|]). constructor; [apply hexDigit_byte; split; [apply Z.div_pos; lia|apply Z.div_lt_upper_bound; lia]|].
  constructor; [apply hexDigit_byte, Z.mod_pos_bound; lia|constructor].
Qed.
Lemma jsonRune_bytes r : all_bytes (jsonRune r).
Proof.
  unfold jsonRune. repeat (match goal with |- context [if ?c then _ else _] => destruct c end; [first [by apply str_bytes|idtac]|]); [|apply encodeRune_bytes].
  unfold jsonEscape. do 2 (constructor; [unfold is_byte; lia|]). repeat (constructor; [apply hexDigit_byte, Z.mod_pos_bound; lia|]). constructor.
Qed.
Lemma jsonQuote_bytes s : all_bytes (jsonQuote s).
Proof. apply quoted_bytes, bind_bytes, jsonRune_bytes. Qed.

Lemma land_bound a b : 0 <= b -> 0 <= Z.land a b <= b.
Proof.
  intros Hb. split; [by apply Z.land_nonneg; right|]. destruct (Z.le_gt_cases (Z.land a b) b) as [|Hgt]; [done|]. exfalso.
  assert (Z.ldiff (Z.land a b) b = 0) as Hl. { apply Z.bits_inj'. intros n Hn. rewrite Z.ldiff_spec, Z.land_spec, Z.bits_0. by destruct (Z.testbit a n), (Z.testbit b n). }
  apply Z.ldiff_le in Hl; lia.
Qed.
Lemma rune_at_range b r n : rune_at b = Some (r, n) -> 0 <= r <= 1114111.
Proof.
  unfold rune_at, between. destruct b as [|b0 t]; [done|]. destruct ((0 <=? b0) && (b0 <=? 127)) eqn:E0; [intros [= <- <-]; lia|]. destruct t as [|b1 t1]; [done|].
  pose proof (land_bound b1 63). pose proof (land_bound b0 31). pose proof (land_bound b0 15). pose proof (land_bound b0 7).
  clear E0. destruct ((194 <=? b0) && (b0 <=? 223)). { destruct ((128 <=? b1) && (b1 <=? 191)); [|done]. intros [= <- <-]. lia. }
  destruct t1 as [|b2 t2]; [done|]. pose proof (land_bound b2 63). destruct ((224 <=? b0) && (b0 <=? 239)). { match goal with |- (if ?c then _ else _) = _ -> _ => destruct c; [|done] end. intros [= <- <-]. lia. }
  destruct t2 as [|b3 t3]; [done|]. pose proof (land_bound b3 63).
  destruct (((240 <=? b0) && (b0 <=? 244)) && (((if b0 =? 240 then 144 else 128) <=? b1) && (b1 <=? (if b0 =? 244 then 143 else 191))) && ((128 <=? b2) && (b2 <=? 191)) && ((128 <=? b3) && (b3 <=? 191))) eqn:E; [|done]. intros [= <- <-].
  rewrite !andb_true_iff, !Z.leb_le in E. destruct E as (((Hb0 & Hb1) & Hb2) & Hb3).
  (* The first byte of the longest encodings, and its bound on the second. *)
  assert (Z.land b0 7 = b0 - 240) as E0'. { assert (b0 = 240 \/ b0 = 241 \/ b0 = 242 \/ b0 = 243 \/ b0 = 244) as Hc by lia. by destruct Hc as [-> | [-> | [-> | [-> | ->]]]]. }
  assert (b0 = 244 -> Z.land b1 63 <= 15) as Hc.
  { intros ->. cbn in Hb1. assert (exists k, b1 = 128 + k /\ 0 <= k < 16) as (k & -> & Hk) by (exists (b1 - 128); lia). change 63 with (Z.ones 6). rewrite Z.land_ones by lia. change (2 ^ 6) with 64. rewrite <- (Z.mod_add _ (-2)) by lia. rewrite Z.mod_small by lia. lia. }
  destruct (Z.eqb_spec b0 244); [specialize (Hc e); lia|lia].
Qed.
Lemma runes_range b : forall k, Forall (fun r => 0 <= r <= 1114111) (runes k b).
Proof.
  induction b as [|c b IH]; intros k; cbn [runes]; [constructor|]. destruct k; [|apply IH]. destruct (rune_at (c :: b)) as [[r n]|] eqn:E; constructor; try apply IH; [by eapply rune_at_range|lia].
Qed.
Lemma bind_bytes_in (l : list Z) (f : Z -> bytes) : Forall (fun c => all_bytes (f c)) l -> all_bytes (l ≫= f).
Proof. induction 1 as [|c l Hc Hl IH]; cbn; [constructor|]. by apply app_bytes. Qed.
Lemma quoteSQLString_bytes s : all_bytes (quoteSQLString s).
Proof.
  apply quoted_bytes, bind_bytes_in. eapply Forall_impl; [apply (runes_range s 0)|]. intros r Hr. cbn beta in Hr. unfold quoteRune. repeat (match goal with |- context [if ?c then _ else _] => destruct c eqn:?E end; [first [by apply str_bytes|idtac]|]); [apply hexEscape_bytes; lia|apply encodeRune_bytes].
Qed.
Lemma quoteSQLBytes_bytes s : all_bytes s -> all_bytes (quoteSQLBytes s).
Proof.
  intros Hs. apply app_bytes; [by apply str_bytes|]. apply app_bytes; [|by apply str_bytes]. apply bind_bytes_in. eapply Forall_impl; [exact Hs|]. intros c Hc. unfold quoteByte. destruct (c =? 34); [by apply str_bytes|]. destruct (c =? 92); [by apply str_bytes|].
  destruct (_ && _); [constructor; [done|constructor]|by apply hexEscape_bytes].
Qed.

Section texts.
Context `{TimeZones} `{Strconv}.

Lemma FormatInt_all n : all_bytes (FormatInt n).
Proof. apply FormatInt_bytes. Qed.
Lemma floatLiteral_bytes f t : t = TFloat32 \/ t = TFloat64 -> all_bytes (floatLiteral f t).
Proof.
  intros Ht. unfold floatLiteral. assert (forall b, all_bytes (formatFloat f b)) as Hf by (intros b; apply bytesb_all, formatFloat_bytes).
  assert (forall (s : bytes), all_bytes s -> all_bytes (str "CAST(" ++ [34] ++ s ++ [34] ++ str " AS " ++ typeString t ++ str ")")) as Hc.
  { intros s Hs. apply app_bytes; [by apply str_bytes|]. apply app_bytes; [by apply str_bytes|]. apply app_bytes; [done|]. by destruct Ht as [-> | ->]; apply str_bytes. }
  destruct f; try (destruct s); cbn zeta; try (by apply Hc, str_bytes); destruct (existsb _ _); try done; (apply app_bytes; [done|by apply str_bytes]).
Qed.
Lemma collect_in {A : Type} (f : A -> outcome bytes) (l : list A) (P : A -> bool) : forallb P l = true -> (forall x, x ∈ l -> P x = true -> texts (f x)) -> all_texts (collectM f l).
Proof. intros Hl Hf. apply collect_texts, list.Forall_forall. intros x Hx. apply Hf; [done|]. rewrite forallb_forall in Hl. by apply Hl, list_elem_of_In. Qed.
(** The fields of a struct, each with the type of its position. *)
Lemma fields_texts (f : value -> bytes * sqlType -> outcome bytes) (h : bytes * sqlType -> bytes -> bytes) l : (forall g s, all_bytes s -> all_bytes (h g s)) -> forall fs, fields_typed l fs = true -> Forall (fun v => forall g, has_type v g.2 = true -> texts (f v g)) l ->
  all_texts ((fix go (l : list value) (fs : list (bytes * sqlType)) {struct l} : outcome (list bytes) :=
    match l, fs with [], _ => Ret [] | x :: l', g :: fs' => s ← f x g; ss ← go l' fs'; Ret (h g s :: ss) | _ :: _, [] => Panic end) l fs).
Proof.
  intros Hh. induction l as [|x l IH]; intros fs Hl Hf; [constructor|]. destruct fs as [|g fs]; [done|]. cbn in Hl. apply andb_prop in Hl as [Hx Hl]. apply Forall_cons in Hf as [Hfx Hf]. specialize (Hfx g Hx). destruct (f x g) as [s| |]; cbn; try done.
  specialize (IH fs Hl Hf). match goal with |- context [mbind _ ?r] => destruct r end; cbn in *; try done. constructor; [by apply Hh|done].
Qed.
Lemma entries_texts (f g : value -> outcome bytes) (h : bytes -> bytes -> bytes) (m : list (value * value)) (k w : sqlType) :
  forallb (fun kv => has_type kv.1 k && has_type kv.2 w) m = true -> Forall (fun kv => (has_type kv.1 k = true -> texts (f kv.1)) /\ (has_type kv.2 w = true -> texts (g kv.2))) m ->
  (forall a b, all_bytes a -> all_bytes b -> all_bytes (h a b)) -> all_texts (collectM (fun kv => a ← f kv.1; b ← g kv.2; Ret (h a b)) m).
Proof.
  intros Hm Hf Hh. apply collect_texts. rewrite forallb_forall in Hm. rewrite list.Forall_forall in *. intros kv Hin. specialize (Hf kv Hin). apply list_elem_of_In, Hm, andb_prop in Hin as [H1 H2]. destruct Hf as [Ha Hb]. specialize (Ha H1). specialize (Hb H2).
  destruct (f kv.1); cbn in *; try done. destruct (g kv.2); cbn in *; try done. by apply Hh.
Qed.
Lemma pair_bytes sep a b : all_bytes sep -> all_bytes a -> all_bytes b -> all_bytes (a ++ sep ++ b).
Proof. intros Hs Ha Hb. apply app_bytes; [done|by apply app_bytes]. Qed.
Lemma array_texts (f : value -> outcome bytes) l t : forallb (fun x => has_type x t) l = true -> Forall (fun v => has_type v t = true -> texts (f v)) l -> all_texts (collectM f l).
Proof. intros Hl Hf. eapply collect_in; [exact Hl|]. intros x Hx. rewrite list.Forall_forall in Hf. by apply Hf. Qed.

Lemma sqlLiteral_texts v : forall t, has_type v t = true -> texts (sqlLiteral v t).
Proof.
  induction v as [|x|n|f|s|s|n|n|l IH|l IH|l IH] using value_nested; intros t Ht; [by apply str_bytes|..]; destruct t as [| | | | | | | | |e|fs|k w]; try done; cbn [sqlLiteral].
  - by destruct x; apply str_bytes.
  - apply FormatInt_all.
  - apply floatLiteral_bytes. by left.
  - apply floatLiteral_bytes. by right.
  - apply quoteSQLString_bytes.
  - apply quoteSQLBytes_bytes. by apply bytesb_all.
  - apply app_bytes; [by apply str_bytes|]. apply quoted_bytes, bytesb_all, formatTimestamp_bytes.
  - apply app_bytes; [by apply str_bytes|]. apply quoted_bytes, bytesb_all, formatDate_bytes.
  - apply joined_texts; [by apply str_bytes..|]. apply (array_texts _ _ e); [done|]. eapply Forall_impl; [exact IH|]. auto.
  - apply joined_texts; [by apply str_bytes..|]. apply (fields_texts (fun x g => sqlLiteral x g.2) (fun _ s => s)); [done|done|]. eapply Forall_impl; [exact IH|]. auto.
  - apply joined_texts; [by apply str_bytes..|]. apply (entries_texts (fun x => orEmpty (sqlLiteral x k)) (fun x => orEmpty (sqlLiteral x w)) (fun a b => a ++ str ": " ++ b) _ k w); [done| |intros; apply pair_bytes; [by apply str_bytes|done..]].
    assert (forall r, texts r -> texts (orEmpty r)) as He by (intros []; [done|intros; constructor|done]). eapply Forall_impl; [exact IH|]. cbn. intros kv [H1 H2]. split; auto.
Qed.
Lemma literalText_texts v t : has_type v t = true -> texts (literalText v t).
Proof. intros Ht. unfold literalText. pose proof (sqlLiteral_texts v t Ht) as Hs. destruct (sqlLiteral v t); try done. by apply str_bytes. Qed.
Lemma scalarText_texts v t : has_type v t = true -> v <> VNull -> match t with TArray _ | TStruct _ | TMap _ _ => False | _ => True end -> texts (scalarText v t).
Proof.
  intros Ht Hn Hs. unfold scalarText. pose proof (castValue_yields v t TString UTC Ht) as Hy. pose proof (literalText_texts v t Ht) as Hl.
  assert (forall r, r = castValue v t TString UTC -> r <> Ret VNull) as Hne. { intros r ->. destruct v; try done; destruct t; try done; cbn; try (destruct (isValidUTF8 _)); done. }
  specialize (Hne _ eq_refl). destruct (castValue v t TString UTC) as [r| |]; cbn in Hy; try done; [destruct r; try done; by apply bytesb_all|]. destruct (literalText v t); cbn in *; try done. apply base64Encode_bytes.
Qed.
Lemma textValue_texts v : forall t, has_type v t = true -> texts (textValue v t).
Proof.
  induction v as [|x|n|f|s|s|n|n|l IH|l IH|l IH] using value_nested; intros t Ht; [by apply str_bytes|..]; destruct t as [| | | | | | | | |e|fs|k w]; try done; cbn [textValue]; try (by apply scalarText_texts).
  - by apply bytesb_all.
  - apply joined_texts; [by apply str_bytes..|]. apply (array_texts _ _ e); [done|]. eapply Forall_impl; [exact IH|]. auto.
  - apply joined_texts; [by apply str_bytes..|]. apply (fields_texts (fun x g => textValue x g.2) (fun _ s => s)); [done|done|]. eapply Forall_impl; [exact IH|]. auto.
  - apply joined_texts; [by apply str_bytes..|]. apply (entries_texts (fun x => textValue x k) (fun x => textValue x w) (fun a b => a ++ str ": " ++ b) _ k w); [done| |intros; apply pair_bytes; [by apply str_bytes|done..]].
    eapply Forall_impl; [exact IH|]. cbn. intros kv [H1 H2]. split; auto.
Qed.
Lemma trimZeros_bytes s : all_bytes s -> all_bytes (trimZeros s).
Proof.
  intros Hs. unfold trimZeros. apply Forall_reverse. apply Forall_reverse in Hs. revert Hs. generalize (reverse s). clear s. intros s Hs. induction Hs as [|c s Hc Hs IH]; cbn [span]; [constructor|]. destruct (48 =? c); [|by constructor]. destruct (span (Z.eqb 48) s). exact IH.
Qed.
Lemma jsonTimestamp_bytes ts : all_bytes (jsonTimestamp ts).
Proof.
  unfold jsonTimestamp. destruct (tm_Date _) as [[y m] d]. assert (forall n k, all_bytes (padded n k)) as Hp by (intros; apply bytesb_all, padded_bytes). cbn zeta.
  repeat (apply app_bytes; [first [apply Hp|by apply str_bytes|idtac]|]); [|by apply str_bytes]. destruct (_ =? 0); [constructor|]. apply app_bytes; [by apply str_bytes|]. apply trimZeros_bytes, Hp.
Qed.
Lemma jsonInt_bytes n : all_bytes (jsonInt n).
Proof. unfold jsonInt. destruct (_ || _); [apply quoted_bytes|]; apply FormatInt_all. Qed.
Lemma jsonFloat_bytes f b : all_bytes (jsonFloat f b).
Proof. unfold jsonFloat. destruct f as [|[]| |]; try (by apply quoted_bytes, str_bytes); apply bytesb_all, formatFloat_bytes. Qed.
Lemma toJSON_texts v : forall t, has_type v t = true -> texts (toJSON v t).
Proof.
  induction v as [|x|n|f|s|s|n|n|l IH|l IH|l IH] using value_nested; intros t Ht; [by apply str_bytes|..]; destruct t as [| | | | | | | | |e|fs|k w]; try done; cbn [toJSON].
  - by destruct x; apply str_bytes.
  - apply jsonInt_bytes.
  - apply jsonFloat_bytes.
  - apply jsonFloat_bytes.
  - apply jsonQuote_bytes.
  - apply quoted_bytes, base64Encode_bytes.
  - apply quoted_bytes, jsonTimestamp_bytes.
  - apply quoted_bytes, bytesb_all, formatDate_bytes.
  - apply joined_texts; [by apply str_bytes..|]. apply (array_texts _ _ e); [done|]. eapply Forall_impl; [exact IH|]. auto.
  - apply joined_texts; [by apply str_bytes..|].
    apply (fields_texts (fun x g => toJSON x g.2) (fun g s => jsonQuote g.1 ++ str ":" ++ s)); [|done|eapply Forall_impl; [exact IH|]; auto]. intros g s Hs. apply pair_bytes; [by apply str_bytes|apply jsonQuote_bytes|done].
  - apply joined_texts; [by apply str_bytes..|]. apply (entries_texts (fun x => jsonKey x k) (fun x => toJSON x w) (fun a b => jsonQuote a ++ str ":" ++ b) _ k w); [done| |intros; apply pair_bytes; [by apply str_bytes|apply jsonQuote_bytes|done]].
    eapply Forall_impl; [exact IH|]. cbn. intros kv [H1 H2]. split; [|by auto]. intros Hk. unfold jsonKey. destruct kv.1 eqn:E; try (rewrite <- E in *; by apply textValue_texts); [by apply bytesb_all; destruct k|apply base64Encode_bytes].
Qed.
End texts.
