(* ===== verification/TimeFmt.v ===== *)
(** * Format strings of dates and timestamps

    [internal/gsql/timefmt.go]: the elements of FORMAT_TIMESTAMP and FORMAT_DATE, and the
    parser of PARSE_TIMESTAMP and PARSE_DATE.  Both walk the format string once; an element
    such as %c stands for a format string of its own, which is walked in its place. *)

From stdpp Require Import base list.
From Stdlib Require Import ZArith Lia.
From Stdlib Require Import Floats.SpecFloat.
From S2P Require Import Prelude Proto Rows Server Tokens Lexer SqlValues SqlFloat SqlArith SqlTime SqlDates SqlOps SqlCast SqlText.

#[local] Open Scope Z_scope.

Definition weekdayNames : list bytes := str <$> ["Sunday"; "Monday"; "Tuesday"; "Wednesday"; "Thursday"; "Friday"; "Saturday"]%string.
Definition monthNames : list bytes := str <$> ["January"; "February"; "March"; "April"; "May"; "June"; "July"; "August"; "September"; "October"; "November"; "December"]%string.

Definition pad (n : Z) (width : nat) (padChar : Z) : bytes :=
  let s := FormatInt (Z.abs n) in
  (if n <? 0 then str "-" else []) ++ replicate (width - length s) padChar ++ s.
Definition pad0 (n : Z) (width : nat) : bytes := pad n width 48.

(** The format string that an element abbreviates. *)
Definition composite (c : Z) : option bytes :=
  if c =? 99 (* c *) then Some (str "%a %b %e %H:%M:%S %Y")
  else if (c =? 68) || (c =? 120) (* D, x *) then Some (str "%m/%d/%y")
  else if c =? 70 (* F *) then Some (str "%Y-%m-%d")
  else if c =? 82 (* R *) then Some (str "%H:%M")
  else if c =? 114 (* r *) then Some (str "%I:%M:%S %p")
  else if (c =? 84) || (c =? 88) (* T, X *) then Some (str "%H:%M:%S")
  else None.

(** [strconv.Atoi] of digits, its error dropped. *)
Definition atoiDigits (s : bytes) : Z := Z.min (foldl (fun v c => v * 10 + (c - 48)) 0 s) int64_max.

Section format.
Context `{TimeZones}.

Definition zoneName (t : Time) : bytes :=
  let off := tm_Zone t in
  if off =? 0 then str "UTC"
  else
    let sign := if off <? 0 then str "-" else str "+" in
    let off := Z.abs off in
    let m := Z.quot (Z.rem off 3600) 60 in
    str "UTC" ++ sign ++ FormatInt (Z.quot off 3600) ++ (if m =? 0 then [] else str ":" ++ pad0 m 2).

Definition hour12 (t : Time) : Z := let h := tm_Hour t mod 12 in if h =? 0 then 12 else h.
(** An element that is no abbreviation. *)
Definition element (t : Time) (c : Z) : option bytes :=
  let name (l : list bytes) (i : Z) := nth (Z.to_nat i) l [] in
  if c =? 65 (* A *) then Some (name weekdayNames (tm_Weekday t))
  else if c =? 97 (* a *) then Some (take 3 (name weekdayNames (tm_Weekday t)))
  else if c =? 66 (* B *) then Some (name monthNames (tm_Month t - 1))
  else if (c =? 98) || (c =? 104) (* b, h *) then Some (take 3 (name monthNames (tm_Month t - 1)))
  else if c =? 67 (* C *) then Some (pad0 (Z.quot (tm_Year t) 100) 2)
  else if c =? 100 (* d *) then Some (pad0 (tm_Day t) 2)
  else if c =? 101 (* e *) then Some (pad (tm_Day t) 2 32)
  else if c =? 71 (* G *) then Some (pad0 (tm_ISOWeek t).1 4)
  else if c =? 103 (* g *) then Some (pad0 (Z.rem (tm_ISOWeek t).1 100) 2)
  else if c =? 72 (* H *) then Some (pad0 (tm_Hour t) 2)
  else if c =? 73 (* I *) then Some (pad0 (hour12 t) 2)
  else if c =? 106 (* j *) then Some (pad0 (tm_YearDay t) 3)
  else if c =? 107 (* k *) then Some (pad (tm_Hour t) 2 32)
  else if c =? 108 (* l *) then Some (pad (hour12 t) 2 32)
  else if c =? 77 (* M *) then Some (pad0 (tm_Minute t) 2)
  else if c =? 109 (* m *) then Some (pad0 (tm_Month t) 2)
  else if c =? 110 (* n *) then Some [10]
  else if c =? 80 (* P *) then Some (if tm_Hour t <? 12 then str "am" else str "pm")
  else if c =? 112 (* p *) then Some (if tm_Hour t <? 12 then str "AM" else str "PM")
  else if c =? 81 (* Q *) then Some (FormatInt (Z.quot (tm_Month t - 1) 3 + 1))
  else if c =? 83 (* S *) then Some (pad0 (tm_Second t) 2)
  else if c =? 115 (* s *) then Some (FormatInt (tm_Unix t))
  else if c =? 116 (* t *) then Some [9]
  else if c =? 85 (* U *) then Some (pad0 (weekNumber (wall_days t) 0) 2)
  else if c =? 117 (* u *) then Some (FormatInt (if tm_Weekday t =? 0 then 7 else tm_Weekday t))
  else if c =? 86 (* V *) then Some (pad0 (tm_ISOWeek t).2 2)
  else if c =? 87 (* W *) then Some (pad0 (weekNumber (wall_days t) 1) 2)
  else if c =? 119 (* w *) then Some (FormatInt (tm_Weekday t))
  else if c =? 89 (* Y *) then Some (pad0 (tm_Year t) 4)
  else if c =? 121 (* y *) then Some (pad0 (Z.rem (tm_Year t) 100) 2)
  else if c =? 90 (* Z *) then Some (zoneName t)
  else if c =? 122 (* z *) then Some (List.filter (fun d => negb (d =? 58)) (formatOffset t true))
  else if c =? 37 (* % *) then Some (str "%")
  else None.

(** What follows %E: text of its own, or the element it modifies. *)
Definition eModifier (t : Time) (micros : Z) (rest : bytes) : outcome (bytes * bytes + Z * bytes) :=
  match rest with
  | [] => Panic
  | d :: rest' =>
      if d =? 122 (* z *) then Ret (inl (formatOffset t true, rest'))
      else if (d =? 42) && HasPrefix rest' (str "S") then
        Ret (inl (pad0 (tm_Second t) 2 ++ (if micros =? 0 then [] else str "." ++ trimZeros (pad0 micros 6)), drop 1 rest'))
      else if isDigit d then
        let '(ds, after) := span isDigit rest in
        let n := atoiDigits ds in
        match after with
        | 83 (* S *) :: after' =>
            Ret (inl (pad0 (tm_Second t) 2 ++ (if 0 <? n then str "." ++ take (Z.to_nat (Z.min n 9)) (pad0 micros 6 ++ str "000000000") else []), after'))
        | 89 (* Y *) :: after' => if n =? 4 then Ret (inl (pad0 (tm_Year t) 4, after')) else Err OutOfRange
        | _ => Err OutOfRange
        end
      else if existsb (Z.eqb d) (str "cxXYyC") then Ret (inr (d, rest'))
      else Err OutOfRange
  end.

Fixpoint formatTime (fuel : nat) (f : bytes) (t : Time) (micros : Z) : outcome bytes :=
  match fuel with
  | O => Panic
  | S fuel' =>
      match f with
      | [] => Ret []
      | 37 :: ((c :: rest) as f') =>
          let '(c, rest) := match c, rest with 79 (* O *), d :: rest' => (d, rest') | _, _ => (c, rest) end in
          m ← match c, rest with 69 (* E *), _ :: _ => eModifier t micros rest | _, _ => Ret (inr (c, rest)) end;
          match m with
          | inl (s, rest) => out ← formatTime fuel' rest t micros; Ret (s ++ out)
          | inr (c, rest) =>
              s ← match composite c with
                  | Some g => match formatTime fuel' g t micros with Err _ => Ret [] | r => r end
                  | None => match element t c with Some s => Ret s | None => Err OutOfRange end
                  end;
              out ← formatTime fuel' rest t micros; Ret (s ++ out)
          end
      | c :: rest => out ← formatTime fuel' rest t micros; Ret (c :: out)
      end
  end.
(** The longest abbreviated format has twenty bytes. *)
Definition formatFuel (f : bytes) : nat := length f + 22.
End format.

(** ** Parsing *)

Record parsedTime : Type := mkParsed {
  p_year : Z; p_month : Z; p_day : Z;
  p_hour : Z; p_min : Z; p_sec : Z; p_micros : Z;
  p_pm : option bool;      (* [pm], [hasPM] *)
  p_hour12 : bool;
  p_yday : Z;
  p_loc : Location;
  p_epoch : option Z;
  p_century : option Z; p_yy : option Z;
}.
Definition parsed0 (loc : Location) : parsedTime := mkParsed 1970 1 1 0 0 0 0 None false 0 loc None None None.

Definition set_year (n : Z) (p : parsedTime) : parsedTime := mkParsed n (p_month p) (p_day p) (p_hour p) (p_min p) (p_sec p) (p_micros p) (p_pm p) (p_hour12 p) (p_yday p) (p_loc p) (p_epoch p) (p_century p) (p_yy p).
Definition set_month (n : Z) (p : parsedTime) : parsedTime := mkParsed (p_year p) n (p_day p) (p_hour p) (p_min p) (p_sec p) (p_micros p) (p_pm p) (p_hour12 p) (p_yday p) (p_loc p) (p_epoch p) (p_century p) (p_yy p).
Definition set_day (n : Z) (p : parsedTime) : parsedTime := mkParsed (p_year p) (p_month p) n (p_hour p) (p_min p) (p_sec p) (p_micros p) (p_pm p) (p_hour12 p) (p_yday p) (p_loc p) (p_epoch p) (p_century p) (p_yy p).
Definition set_hour (h12 : bool) (n : Z) (p : parsedTime) : parsedTime := mkParsed (p_year p) (p_month p) (p_day p) n (p_min p) (p_sec p) (p_micros p) (p_pm p) (h12 || p_hour12 p) (p_yday p) (p_loc p) (p_epoch p) (p_century p) (p_yy p).
Definition set_min (n : Z) (p : parsedTime) : parsedTime := mkParsed (p_year p) (p_month p) (p_day p) (p_hour p) n (p_sec p) (p_micros p) (p_pm p) (p_hour12 p) (p_yday p) (p_loc p) (p_epoch p) (p_century p) (p_yy p).
Definition set_sec (n : Z) (p : parsedTime) : parsedTime := mkParsed (p_year p) (p_month p) (p_day p) (p_hour p) (p_min p) n (p_micros p) (p_pm p) (p_hour12 p) (p_yday p) (p_loc p) (p_epoch p) (p_century p) (p_yy p).
Definition set_micros (n : Z) (p : parsedTime) : parsedTime := mkParsed (p_year p) (p_month p) (p_day p) (p_hour p) (p_min p) (p_sec p) n (p_pm p) (p_hour12 p) (p_yday p) (p_loc p) (p_epoch p) (p_century p) (p_yy p).
Definition set_pm (b : bool) (p : parsedTime) : parsedTime := mkParsed (p_year p) (p_month p) (p_day p) (p_hour p) (p_min p) (p_sec p) (p_micros p) (Some b) (p_hour12 p) (p_yday p) (p_loc p) (p_epoch p) (p_century p) (p_yy p).
Definition set_yday (n : Z) (p : parsedTime) : parsedTime := mkParsed (p_year p) (p_month p) (p_day p) (p_hour p) (p_min p) (p_sec p) (p_micros p) (p_pm p) (p_hour12 p) n (p_loc p) (p_epoch p) (p_century p) (p_yy p).
Definition set_loc (l : Location) (p : parsedTime) : parsedTime := mkParsed (p_year p) (p_month p) (p_day p) (p_hour p) (p_min p) (p_sec p) (p_micros p) (p_pm p) (p_hour12 p) (p_yday p) l (p_epoch p) (p_century p) (p_yy p).
Definition set_epoch (n : Z) (p : parsedTime) : parsedTime := mkParsed (p_year p) (p_month p) (p_day p) (p_hour p) (p_min p) (p_sec p) (p_micros p) (p_pm p) (p_hour12 p) (p_yday p) (p_loc p) (Some n) (p_century p) (p_yy p).
Definition set_century (n : Z) (p : parsedTime) : parsedTime := mkParsed (p_year p) (p_month p) (p_day p) (p_hour p) (p_min p) (p_sec p) (p_micros p) (p_pm p) (p_hour12 p) (p_yday p) (p_loc p) (p_epoch p) (Some n) (p_yy p).
Definition set_yy (n : Z) (p : parsedTime) : parsedTime := mkParsed (p_year p) (p_month p) (p_day p) (p_hour p) (p_min p) (p_sec p) (p_micros p) (p_pm p) (p_hour12 p) (p_yday p) (p_loc p) (p_epoch p) (p_century p) (Some n).

Definition isBlank (c : Z) : bool := (c =? 32) || (c =? 9) || (c =? 10).
Definition skipSpace (s : bytes) : bytes := (span isBlank s).2.
(** [num]: at most [maxDigits] digits; more than 64 bits is a failure. *)
Definition num (maxDigits : nat) (allowSign : bool) (s : bytes) : option (Z * bytes) :=
  let '(neg, s1) := match s with c :: s' => if allowSign && ((c =? 45) || (c =? 43)) then (c =? 45, s') else (false, s) | [] => (false, s) end in
  let ds := (span isDigit (take maxDigits s1)).1 in
  if bool_decide (ds = []) then None
  else
    let n := (if neg then -1 else 1) * foldl (fun v c => v * 10 + (c - 48)) 0 ds in
    if is_int64b n then Some (n, drop (length ds) s1) else None.
(** [strings.EqualFold] with an ASCII name of the same number of bytes. *)
Definition foldsTo (cand s : bytes) : bool := bool_decide (upperByte <$> take (length cand) s = upperByte <$> cand).
Fixpoint matchName (names : list bytes) (i : Z) (s : bytes) : option (Z * bytes) :=
  match names with
  | [] => None
  | n :: names' =>
      if foldsTo n s then Some (i, drop (length n) s)
      else if foldsTo (take 3 n) s then Some (i, drop 3 s)
      else matchName names' (i + 1) s
  end.

Section parse.
Context `{TimeZones}.

(** An element that is no abbreviation: what is left of the input and the fields, or failure. *)
Definition parseElement (c : Z) (p : parsedTime) (s : bytes) : option (parsedTime * bytes) :=
  let field (n : nat) (set : Z -> parsedTime -> parsedTime) (s : bytes) := '(v, s) ← num n false s; Some (set v p, s) in
  if (c =? 89) || (c =? 71) (* Y, G *) then field 4%nat set_year s
  else if c =? 121 (* y *) then field 2%nat set_yy s
  else if c =? 67 (* C *) then field 2%nat set_century s
  else if c =? 109 (* m *) then field 2%nat set_month s
  else if (c =? 100) || (c =? 101) (* d, e *) then field 2%nat set_day (skipSpace s)
  else if (c =? 72) || (c =? 107) (* H, k *) then field 2%nat (set_hour false) (skipSpace s)
  else if (c =? 73) || (c =? 108) (* I, l *) then field 2%nat (set_hour true) (skipSpace s)
  else if c =? 77 (* M *) then field 2%nat set_min s
  else if c =? 83 (* S *) then
    '(v, s) ← num 2 false s;
    match s with
    | 46 :: s' => let '(ds, s'') := span isDigit s' in Some (set_micros (atoiDigits (take 6 (ds ++ str "000000"))) (set_sec v p), s'')
    | _ => Some (set_sec v p, s)
    end
  else if c =? 106 (* j *) then field 3%nat set_yday s
  else if (c =? 112) || (c =? 80) (* p, P *) then
    if foldsTo (str "AM") s then Some (set_pm false p, drop 2 s) else if foldsTo (str "PM") s then Some (set_pm true p, drop 2 s) else None
  else if (c =? 98) || (c =? 66) || (c =? 104) (* b, B, h *) then '(i, s) ← matchName monthNames 0 s; Some (set_month (i + 1) p, s)
  else if (c =? 97) || (c =? 65) (* a, A *) then '(_, s) ← matchName weekdayNames 0 s; Some (p, s)
  else if (c =? 117) || (c =? 119) (* u, w *) then field 1%nat (fun _ p => p) s
  else if (c =? 85) || (c =? 87) || (c =? 86) (* U, W, V *) then field 2%nat (fun _ p => p) s
  else if c =? 81 (* Q *) then field 1%nat (fun n => set_month ((n - 1) * 3 + 1)) s
  else if c =? 115 (* s *) then '(v, s) ← num 19 true s; Some (set_epoch v p, s)
  else if c =? 122 (* z *) then
    let '(zone, rest) := span (fun c => (c =? 43) || (c =? 45) || (c =? 58) || isDigit c) s in
    match zone with
    | d :: _ => if (d =? 43) || (d =? 45) then match parseOffsetZone zone with Ret l => Some (set_loc l p, rest) | _ => None end else None
    | [] => match s with d :: s' => if (d =? 90) || (d =? 122) then Some (set_loc UTC p, s') else None | [] => None end
    end
  else if c =? 90 (* Z *) then
    let '(zone, rest) := span (fun c => negb (c =? 32)) s in
    match loadZone zone with Ret l => Some (set_loc l p, rest) | _ => None end
  else if (c =? 110) || (c =? 116) (* n, t *) then Some (p, skipSpace s)
  else if c =? 37 (* % *) then match s with 37 :: s' => Some (p, s') | _ => None end
  else None.

(** The element after %: its character and the rest of the format. *)
Definition parseModifiers (c : Z) (rest : bytes) : option (Z * bytes) :=
  let '(c, rest) := match c, rest with 79 (* O *), d :: rest' => (d, rest') | _, _ => (c, rest) end in
  match c, rest with
  | 69 (* E *), d :: rest' =>
      if (d =? 42) && HasPrefix rest' (str "S") then Some (83, drop 1 rest')
      else if isDigit d then match (span isDigit rest).2 with e :: after => Some (e, after) | [] => None end
      else Some (d, rest')
  | _, _ => Some (c, rest)
  end.

(** [expand]; out of fuel is a panic. *)
Fixpoint expand (fuel : nat) (f : bytes) (p : parsedTime) (s : bytes) : outcome (option (parsedTime * bytes)) :=
  match fuel with
  | O => Panic
  | S fuel' =>
      match f with
      | [] => Ret (Some (p, s))
      | c :: rest =>
          if isBlank c then expand fuel' rest p (skipSpace s)
          else
            match c, rest with
            | 37, d :: rest =>
                match parseModifiers d rest with
                | None => Ret None
                | Some (c, rest) =>
                    r ← match composite c with Some g => expand fuel' g p s | None => Ret (parseElement c p s) end;
                    match r with Some (p, s) => expand fuel' rest p s | None => Ret None end
                end
            | _, _ => match s with d :: s' => if d =? c then expand fuel' rest p s' else Ret None | [] => Ret None end
            end
      end
  end.

Definition yearOf (p : parsedTime) : Z :=
  match p_yy p, p_century p with
  | Some yy, Some c => c * 100 + yy
  | Some yy, None => if yy <? 69 then 2000 + yy else 1900 + yy
  | None, Some c => c * 100
  | None, None => p_year p
  end.
Definition hourOf (p : parsedTime) : option Z :=
  let pm := bool_decide (p_pm p = Some true) in
  if p_hour12 p then if (p_hour p <? 1) || (12 <? p_hour p) then None else Some (p_hour p mod 12 + if pm then 12 else 0)
  else Some (if pm && (p_hour p <? 12) then p_hour p + 12 else p_hour p).

Definition parseTimeFormat (f s : bytes) (loc : Location) : outcome Time :=
  r ← expand (formatFuel f) f (parsed0 loc) s;
  match r with
  | None => Err OutOfRange
  | Some (p, s) =>
      if negb (bool_decide (skipSpace s = [])) then Err OutOfRange
      else
        match p_epoch p with
        | Some e => Ret (mkTime (e * 1000000) UTC)
        | None =>
            let y := yearOf p in
            match hourOf p with
            | None => Err OutOfRange
            | Some h =>
                if (p_month p <? 1) || (12 <? p_month p) || (23 <? h) || (59 <? p_min p) || (60 <? p_sec p) then Err OutOfRange
                else if 0 <? p_yday p then
                  let '(y', m', d') := civil_of_days (days_of_civil y 1 1 + (p_yday p - 1)) in
                  Ret (civilToTime y' m' d' h (p_min p) (p_sec p) (p_micros p) (p_loc p))
                else if (p_day p <? 1) || (daysIn (p_month p) y <? p_day p) then Err OutOfRange
                else Ret (civilToTime y (p_month p) (p_day p) h (p_min p) (p_sec p) (p_micros p) (p_loc p))
            end
        end
  end.
End parse.

(** ** The fuel is enough, and the texts are bytes *)

(** A format without abbreviations. *)
Definition flat (f : bytes) : Prop := Forall (fun c => composite c = None) f.
Lemma composite_flat c g : composite c = Some g -> flat g /\ (length g <= 20)%nat /\ all_bytes g.
Proof.
  unfold composite. intros Hc. repeat (destruct (_ =? _) in Hc; cbn [orb] in Hc); try done; injection Hc as <-; (split; [|split; [vm_compute; lia|by apply str_bytes]]); unfold flat; repeat constructor.
Qed.
Lemma span_suffix (p : Z -> bool) (s : bytes) : s = (span p s).1 ++ (span p s).2.
Proof. induction s as [|c s IH]; cbn; [done|]. destruct (p c); [|done]. destruct (span p s). cbn in *. by f_equal. Qed.

Lemma span_parts (P : Z -> Prop) (p : Z -> bool) (s : bytes) : Forall P s -> Forall P (span p s).1 /\ Forall P (span p s).2.
Proof. intros Hs. rewrite (span_suffix p s) in Hs. by apply Forall_app in Hs. Qed.
Lemma span_lengths (p : Z -> bool) (s : bytes) : length s = (length (span p s).1 + length (span p s).2)%nat.
Proof. rewrite (span_suffix p s) at 1. by rewrite length_app. Qed.

Section format_ok.
Context `{TimeZones}.

Lemma pad_bytes n w : all_bytes (pad0 n w).
Proof. unfold pad0, pad. apply app_bytes; [destruct (n <? 0); [by apply str_bytes|constructor]|]. apply app_bytes; [|apply FormatInt_bytes]. apply Forall_replicate. unfold is_byte. lia. Qed.
Lemma pad_blank_bytes n w : all_bytes (pad n w 32).
Proof. unfold pad. apply app_bytes; [destruct (n <? 0); [by apply str_bytes|constructor]|]. apply app_bytes; [|apply FormatInt_bytes]. apply Forall_replicate. unfold is_byte. lia. Qed.
Lemma name_bytes (l : list bytes) i : Forall all_bytes l -> all_bytes (nth i l []).
Proof. intros Hl. revert i. induction Hl; intros [|i]; cbn; try constructor; auto. Qed.
Lemma weekday_bytes i : all_bytes (nth i weekdayNames []).
Proof. apply name_bytes. unfold weekdayNames. apply Forall_fmap. repeat (apply Forall_cons; split; [by apply str_bytes|]). by apply Forall_nil. Qed.
Lemma month_bytes i : all_bytes (nth i monthNames []).
Proof. apply name_bytes. unfold monthNames. apply Forall_fmap. repeat (apply Forall_cons; split; [by apply str_bytes|]). by apply Forall_nil. Qed.
Lemma formatOffset_bytes t b : all_bytes (formatOffset t b).
Proof.
  unfold formatOffset. cbn zeta. assert (forall n k, all_bytes (padded n k)) as Hp by (intros; apply bytesb_all, padded_bytes). assert (all_bytes (if tm_Zone t <? 0 then str "-" else str "+")) by (destruct (_ <? 0); by apply str_bytes).
  destruct (b || _); repeat (apply app_bytes; [|]); auto. by apply str_bytes.
Qed.
Lemma zoneName_bytes t : all_bytes (zoneName t).
Proof.
  unfold zoneName. cbn zeta. destruct (_ =? 0); [by apply str_bytes|]. apply app_bytes; [by apply str_bytes|]. apply app_bytes; [destruct (_ <? 0); by apply str_bytes|]. apply app_bytes; [apply FormatInt_bytes|]. destruct (_ =? 0); [constructor|]. apply app_bytes; [by apply str_bytes|apply pad_bytes].
Qed.
Lemma element_bytes t c s : element t c = Some s -> all_bytes s.
Proof.
  unfold element. intros He. repeat (match type of He with (if ?b then _ else _) = _ => destruct b end; [injection He as <-|]); try done;
    first [apply weekday_bytes|apply month_bytes|apply Forall_take, weekday_bytes|apply Forall_take, month_bytes|apply pad_bytes|apply pad_blank_bytes|apply FormatInt_bytes|apply zoneName_bytes|by apply str_bytes|by destruct (_ <? _); apply str_bytes|by apply Forall_cons|idtac].
  apply list.Forall_forall. intros x Hx%list_elem_of_In%filter_In. pose proof (formatOffset_bytes t true) as Ho. unfold all_bytes in Ho. rewrite list.Forall_forall in Ho. apply Ho, list_elem_of_In, Hx.
Qed.
End format_ok.

(** Enough fuel: the format is walked once, and an abbreviation costs twenty-one more. *)
Definition fueled (fuel : nat) (f : bytes) : Prop := flat f /\ (length f < fuel)%nat \/ (length f + 22 <= fuel)%nat.
Definition tailOf (f r : bytes) : Prop := exists pre, f = pre ++ r /\ pre <> [].
Lemma fueled_tail fuel f r : fueled (S fuel) f -> tailOf f r -> fueled fuel r.
Proof.
  intros Hf (pre & -> & Hp). assert (0 < length pre)%nat by (destruct pre; [done|cbn; lia]). unfold fueled, flat in *. rewrite Forall_app, length_app in Hf. destruct Hf as [[[_ Hf] Hl]|Hl]; [left; split; [done|lia]|right; lia].
Qed.
Lemma tail_cons c f r : f = r \/ tailOf f r -> tailOf (c :: f) r.
Proof. intros [->|(pre & -> & Hp)]; [by exists [c]|by exists (c :: pre)]. Qed.
Lemma tail_span (p : Z -> bool) d f r : p d = true -> (span p (d :: f)).2 = r -> tailOf (d :: f) r.
Proof. intros Hd <-. exists (span p (d :: f)).1. split; [apply span_suffix|]. cbn. rewrite Hd. by destruct (span p f). Qed.
Lemma tail_trans f g r : tailOf f g -> tailOf g r -> tailOf f r.
Proof. intros (a & -> & Ha) (b & -> & Hb). exists (a ++ b). rewrite app_assoc. split; [done|]. by destruct a. Qed.
Lemma tail_bytes f r : tailOf f r -> all_bytes f -> all_bytes r.
Proof. intros (pre & -> & _) Hf. unfold all_bytes in *. by apply Forall_app in Hf as [_ ?]. Qed.
(** An abbreviation is walked with one turn less. *)
Lemma fueled_composite fuel f c g : fueled (S fuel) f -> c ∈ f -> composite c = Some g -> fueled fuel g.
Proof.
  intros Hf Hc Hg. destruct (composite_flat c g Hg) as (Hfl & Hl & _). left. split; [done|]. destruct Hf as [[Hf _]|Hf]; [|lia]. unfold flat in Hf. rewrite list.Forall_forall in Hf. rewrite (Hf c Hc) in Hg. done.
Qed.

Section format_total.
Context `{TimeZones}.

Lemma eModifier_ok t micros rest : rest <> [] ->
  match eModifier t micros rest with
  | Ret (inl (s, r)) => all_bytes s /\ tailOf rest r
  | Ret (inr (c, r)) => c ∈ rest /\ tailOf rest r
  | Err _ => True
  | Panic => False
  end.
Proof.
  intros Hr. destruct rest as [|d rest']; [done|]. cbn [eModifier]. destruct (d =? 122); [split; [apply formatOffset_bytes|by apply tail_cons; left]|].
  destruct ((d =? 42) && HasPrefix rest' (str "S")) eqn:Es.
  { apply andb_prop in Es as [_ Es]. split.
    - apply app_bytes; [apply pad_bytes|]. destruct (micros =? 0); [constructor|]. apply app_bytes; [by apply str_bytes|]. apply trimZeros_bytes, pad_bytes.
    - apply tail_cons. destruct rest' as [|e rest']; [done|]. right. apply tail_cons. by left. }
  destruct (isDigit d) eqn:Ed.
  - destruct (span isDigit (d :: rest')) as [ds after] eqn:Esp. pose proof (tail_span isDigit d rest' after Ed ltac:(by rewrite Esp)) as Ht. destruct after as [|e after]; [done|].
    assert (tailOf (d :: rest') after) as Ht' by (eapply tail_trans; [exact Ht|apply tail_cons; by left]).
    destruct (decide (e = 83)) as [->|]; [|destruct (decide (e = 89)) as [->|]; [|by repeat (case_match; try done)]].
    + split; [|done]. apply app_bytes; [apply pad_bytes|]. destruct (0 <? _); [|constructor]. apply app_bytes; [by apply str_bytes|]. apply Forall_take, app_bytes; [apply pad_bytes|by apply str_bytes].
    + destruct (_ =? 4); [|done]. split; [apply pad_bytes|done].
  - destruct (existsb _ _); [|done]. split; [constructor|by apply tail_cons; left].
Qed.

(** %O stands before the element. *)
Definition oModifier (c : Z) (rest : bytes) : Z * bytes := match c, rest with 79, d :: rest' => (d, rest') | _, _ => (c, rest) end.
Lemma oModifier_tail c rest : (oModifier c rest).1 ∈ c :: rest /\ tailOf (c :: rest) (oModifier c rest).2.
Proof.
  unfold oModifier. assert (c ∈ c :: rest /\ tailOf (c :: rest) rest) as Hc by (split; [constructor|by apply tail_cons; left]).
  destruct (decide (c = 79)) as [->|]; [|by repeat (case_match; try exact Hc)]. destruct rest as [|d rest]; [exact Hc|]. cbn. split; [by do 2 constructor|]. apply tail_cons. right. apply tail_cons. by left.
Qed.
Lemma tail_in x f r : tailOf f r -> x ∈ r -> x ∈ f.
Proof. intros (pre & -> & _) Hx. apply elem_of_app. by right. Qed.

Definition eStep (t : Time) (micros : Z) (c : Z) (rest : bytes) : outcome (bytes * bytes + Z * bytes) :=
  match c, rest with 69, _ :: _ => eModifier t micros rest | _, _ => Ret (inr (c, rest)) end.
Lemma eStep_ok t micros c rest :
  match eStep t micros c rest with
  | Ret (inl (s, r)) => all_bytes s /\ tailOf rest r
  | Ret (inr (d, r)) => d = c /\ r = rest \/ d ∈ rest /\ tailOf rest r
  | Err _ => True
  | Panic => False
  end.
Proof.
  destruct (decide (c = 69 /\ rest <> [])) as [[-> Hr]|Hn].
  2:{ assert (eStep t micros c rest = Ret (inr (c, rest))) as ->; [|by left]. unfold eStep. repeat (case_match; subst; try done). by destruct Hn. }
  destruct rest; [done|]. cbn [eStep].
  pose proof (eModifier_ok t micros (z :: rest) Hr) as He. destruct (eModifier _ _ _) as [[[s r]|[d r]]| |]; try done. by right.
Qed.
Lemma format_ok fuel : forall f t micros, fueled fuel f -> all_bytes f -> texts (formatTime fuel f t micros).
Proof.
  induction fuel as [|fuel IH]; intros f t micros Hf Hb; [destruct Hf as [[_ ?]|?]; lia|].
  assert (forall s r, all_bytes s -> tailOf f r -> texts (out ← formatTime fuel r t micros; Ret (s ++ out))) as Hk.
  { intros s r Hs Hr. pose proof (IH r t micros (fueled_tail _ _ _ Hf Hr) (tail_bytes _ _ Hr Hb)) as Ht. destruct (formatTime fuel r t micros); try done. by apply app_bytes. }
  destruct f as [|c f]; [constructor|]. destruct (decide (c = 37)) as [->|Hc].
  2:{ cbn [formatTime]. assert (texts (out ← formatTime fuel f t micros; Ret (c :: out))) as Hl; [|by repeat (case_match; subst; try exact Hl; try done)].
      apply (Hk [c] f); [by apply Forall_cons in Hb as [Hc' _]; constructor|by apply tail_cons; left]. }
  destruct f as [|c f]; [by apply (Hk [37] []); [by apply str_bytes|apply tail_cons; left]|]. cbn [formatTime]. fold (oModifier c f).
  pose proof (oModifier_tail c f) as [Hin Htl]. destruct (oModifier c f) as [c1 r1]. cbn [fst snd] in Hin, Htl.
  assert (tailOf (37 :: c :: f) r1) as Htl' by (by apply tail_cons; right).
  fold (eStep t micros c1 r1). pose proof (eStep_ok t micros c1 r1) as Hm. destruct (eStep t micros c1 r1) as [[[s r]|[c2 r]]| |]; cbn [mbind outcome_bind]; try done.
  { destruct Hm as [Hs Hr]. apply Hk; [done|]. by eapply tail_trans. }
  assert (c2 ∈ 37 :: c :: f /\ tailOf (37 :: c :: f) r) as [Hs Hr].
  { destruct Hm as [[-> ->]|[Hc2 Hr]]; [by split; [constructor|]|]. split; [by eapply tail_in|by eapply tail_trans]. }
  destruct (composite c2) as [g|] eqn:Eg.
  - pose proof (IH g t micros (fueled_composite _ _ _ _ Hf Hs Eg) (proj2 (proj2 (composite_flat _ _ Eg)))) as Hg. destruct (formatTime fuel g t micros) as [s| |]; cbn [mbind outcome_bind]; try done; apply Hk; try done. constructor.
  - destruct (element t c2) as [s|] eqn:Es; cbn [mbind outcome_bind]; [|done]. apply Hk; [by eapply element_bytes|done].
Qed.
Lemma formatFuel_ok f t micros : all_bytes f -> texts (formatTime (formatFuel f) f t micros).
Proof. intros Hf. apply format_ok; [|done]. right. unfold formatFuel. lia. Qed.

Lemma parseModifiers_tail c rest d r : parseModifiers c rest = Some (d, r) -> d ∈ c :: rest /\ tailOf (c :: rest) r.
Proof.
  unfold parseModifiers. fold (oModifier c rest). pose proof (oModifier_tail c rest) as [Hin Htl]. destruct (oModifier c rest) as [c1 r1]. cbn [fst snd] in *.
  assert (Some (c1, r1) = Some (d, r) -> d ∈ c :: rest /\ tailOf (c :: rest) r) as Hd by (by intros [= <- <-]).
  destruct (decide (c1 = 69)) as [->|]; [|by repeat (case_match; subst; try exact Hd; try done)]. destruct r1 as [|e r1]; [exact Hd|]. clear Hd.
  destruct ((e =? 42) && HasPrefix r1 (str "S")) eqn:Es.
  { apply andb_prop in Es as [_ Es]. destruct r1 as [|e' r1]; [done|]. apply HasPrefix_spec in Es as [r2 [= -> ->]]. cbn [drop app]. intros [= <- <-]. split; [eapply tail_in; [exact Htl|]; do 2 constructor|]. eapply tail_trans; [exact Htl|]. apply tail_cons. right. apply tail_cons. by left. }
  destruct (isDigit e) eqn:Ed.
  - destruct (span isDigit (e :: r1)).2 as [|x after] eqn:Esp; [done|]. intros [= <- <-]. pose proof (tail_span isDigit e r1 _ Ed Esp) as Ht. split; [eapply tail_in; [exact Htl|]; eapply tail_in; [exact Ht|constructor]|].
    eapply tail_trans; [exact Htl|]. eapply tail_trans; [exact Ht|]. apply tail_cons. by left.
  - intros [= <- <-]. split; [eapply tail_in; [exact Htl|constructor]|]. eapply tail_trans; [exact Htl|]. apply tail_cons. by left.
Qed.
Lemma expand_total fuel : forall f p s, fueled fuel f -> expand fuel f p s <> Panic /\ (forall c, expand fuel f p s <> Err c).
Proof.
  induction fuel as [|fuel IH]; intros f p s Hf; [destruct Hf as [[_ ?]|?]; lia|]. destruct f as [|c f]; [done|]. cbn [expand].
  assert (forall r p s, tailOf (c :: f) r -> expand fuel r p s <> Panic /\ (forall c, expand fuel r p s <> Err c)) as Hk by (intros; apply IH; by eapply fueled_tail).
  assert (tailOf (c :: f) f) as Htf by (by apply tail_cons; left).
  destruct (isBlank c); [by apply Hk|]. assert (forall g d : Z, let r := match s with d' :: s' => if d' =? c then expand fuel f p s' else Ret None | [] => Ret None end in r <> Panic /\ (forall c, r <> Err c)) as Hl.
  { intros. subst r. destruct s as [|d' s']; [done|]. destruct (d' =? c); [by apply Hk|done]. }
  specialize (Hl 0 0). cbn zeta in Hl. destruct (decide (c = 37)) as [->|]; [|by repeat (case_match; subst; try exact Hl; try done)]. destruct f as [|d f]; [exact Hl|].
  destruct (parseModifiers d f) as [[c2 r]|] eqn:Em; [|done]. apply parseModifiers_tail in Em as [Hin Htl]. assert (tailOf (37 :: d :: f) r) as Htl' by (apply tail_cons; by right).
  destruct (composite c2) as [g|] eqn:Eg; cbn [mbind outcome_bind].
  - destruct (IH g p s (fueled_composite _ _ _ _ Hf (tail_in _ _ _ Htf Hin) Eg)) as [Hp He]. destruct (expand fuel g p s) as [[[p' s']|]|c|]; cbn; [by apply Hk|done|by destruct (He c)|done].
  - destruct (parseElement c2 p s) as [[p' s']|]; [by apply Hk|done].
Qed.
Lemma parseTimeFormat_safe f s loc : parseTimeFormat f s loc <> Panic.
Proof.
  unfold parseTimeFormat. destruct (expand_total (formatFuel f) f (parsed0 loc) s) as [Hp He]; [right; unfold formatFuel; lia|]. destruct (expand _ f _ s) as [[[p s']|]|c|]; cbn [mbind outcome_bind]; try done.
  destruct (negb _); [done|]. destruct (p_epoch p); [done|]. cbn zeta. destruct (hourOf p); [|done]. destruct ((p_month p <? 1) || _ || _ || _ || _); [done|]. destruct (0 <? p_yday p); [by destruct (civil_of_days _) as [[? ?] ?]|]. by destruct ((p_day p <? 1) || _).
Qed.
End format_total.

Example format_example `{TimeZones} : formatTime (formatFuel (str "%F %T %Ez %a %j %E3S")) (str "%F %T %Ez %a %j %E3S") (ts_time 1700000000123456) 123456 = Ret (str "2023-11-14 22:13:20 +00:00 Tue 318 20.123").
Proof. by vm_compute. Qed.
Example parse_example `{TimeZones} : parseTimeFormat (str "%d %b %Y %I:%M%p %z") (str "14 nov 2023 10:13PM +02:00") UTC = Ret (mkTime 1699992780000000 (FixedZone 7200)).
Proof. by vm_compute. Qed.
