(* ===== verification/FuncsString.v ===== *)
(** * String functions

    [internal/gsql/funcs_string.go] without regular expressions and FORMAT: the functions
    on STRING, a sequence of runes, and BYTES, a sequence of bytes, the code points, the
    encodings and the decoders of big-endian numbers.  The case tables of [unicode] are an
    interface; everything else is defined.  Every function but REPEAT yields a well-formed
    call; REPEAT multiplies two 64-bit numbers before it checks the product. *)

From stdpp Require Import base list.
From Stdlib Require Import ZArith Lia.
From Stdlib Require Import Floats.SpecFloat.
From S2P Require Import Prelude Proto Rows Server Tokens KeySchema Operations Lexer SqlValues SqlFloat SqlArith SqlTime SqlOps SqlCast Bexpr BindOps Aggregates Funcs FuncsMath FuncsArray Encodings SqlText.

#[local] Open Scope Z_scope.

(** The case tables of package [unicode]; ASCII letters are what the source relies on. *)
Class Unicode : Type := {
  unicode_ToUpper : Z -> Z;
  unicode_ToLower : Z -> Z;
  ToUpper_ascii : forall r, 0 <= r < 128 -> unicode_ToUpper r = if (97 <=? r) && (r <=? 122) then r - 32 else r;
  ToUpper_not_lower : forall r, ~ 97 <= unicode_ToUpper r <= 122;
  ToLower_ascii : forall r, 0 <= r < 128 -> unicode_ToLower r = if (65 <=? r) && (r <=? 90) then r + 32 else r;
}.

(** ** Sequences *)

(** The code points of a STRING, the bytes of BYTES. *)
Definition toSeq (v : value) : list Z := match v with VString s => runes 0 s | VBytes b => b | _ => [] end.
Definition fromSeq (s : list Z) (isStr : bool) : value :=
  if isStr then VString (s ≫= encodeRune) else VBytes ((fun r => r mod 256) <$> s).
(** [s[lo:hi]], which panics outside its bounds. *)
Definition slice (s : list Z) (lo hi : Z) : outcome (list Z) :=
  if (0 <=? lo) && (lo <=? hi) && (hi <=? Z.of_nat (length s)) then Ret (take (Z.to_nat (hi - lo)) (drop (Z.to_nat lo) s)) else Panic.
(** The first position of [sub] in [s] from [i] on. *)
Fixpoint indexFrom (s sub : list Z) (i : Z) : Z :=
  if HasPrefix s sub then i else match s with [] => -1 | _ :: s' => indexFrom s' sub (i + 1) end.
Definition seqIndex (s sub : list Z) (from : Z) : Z :=
  if Z.of_nat (length s) <? from then -1 else indexFrom (drop (Z.to_nat from) s) sub from.

Abbreviation S1 := [@None sqlType].
Abbreviation S2 := [@None sqlType; None].
Abbreviation S3 := [@None sqlType; None; None].
Abbreviation I64 := (Some TInt64).

Section functions.
Context `{Unicode} `{TimeZones} `{Strconv}.

(** [strBytes]: one implementation, a STRING and a BYTES overload; [None] stands for
    the type of the overload. *)
Definition strSig (argTypes : list (option sqlType)) (minArgs : nat) (retSame : bool) (ret : sqlType) (fn : bool -> list value -> outcome value) (isStr : bool) : sig :=
  let t := if isStr then TString else TBytes in
  mkSig (from_option id t <$> argTypes) minArgs false (if retSame then t else ret) (fn isStr) false.
Definition strBytes (argTypes : list (option sqlType)) (minArgs : nat) (retSame : bool) (ret : sqlType) (fn : bool -> list value -> outcome value) : binding :=
  bySigs [strSig argTypes minArgs retSame ret fn true; strSig argTypes minArgs retSame ret fn false].

(** [strings.ToLower] and [asciiMap]. *)
Definition mapRunes (f : Z -> Z) (s : bytes) : bytes := runes 0 s ≫= fun r => encodeRune (f r).
Definition asciiMap (f : Z -> Z) (b : bytes) : bytes := (fun c => if c <? 128 then f c mod 256 else c) <$> b.
Definition caseFn (f : Z -> Z) (isStr : bool) (a : list value) : outcome value :=
  match a with
  | [VString s] => Ret (VString (mapRunes f s))
  | [VBytes b] => Ret (VBytes (asciiMap f b))
  | _ => Panic
  end.
Definition runeCountFn (isStr : bool) (a : list value) : outcome value := match a with [v] => Ret (VInt (int64_len (toSeq v))) | _ => Panic end.
Definition byteLenFn (isStr : bool) (a : list value) : outcome value := match a with [v] => Ret (VInt (int64_len (asBytes v))) | _ => Panic end.

(** ** Substrings *)

Definition substr (isStr : bool) (v : value) (pos : Z) (len : option Z) : outcome value :=
  let s := toSeq v in
  let n := Z.of_nat (length s) in
  let start := if 0 <? pos then pos - 1 else if pos =? 0 then 0 else Z.max 0 (n + pos) in
  let start := if n <? start then n else start in
  stop ← match len with
         | None => Ret n
         | Some l => if l <? 0 then Err OutOfRange else Ret (if l <? n - start then start + l else n)
         end;
  r ← slice s start stop; Ret (fromSeq r isStr).
Definition substrFn (isStr : bool) (a : list value) : outcome value :=
  match a with [v; VInt pos] => substr isStr v pos None | [v; VInt pos; VInt l] => substr isStr v pos (Some l) | _ => Panic end.
Definition leftFn (isStr : bool) (a : list value) : outcome value :=
  match a with
  | [v; VInt n] => if n <? 0 then Err OutOfRange else r ← slice (toSeq v) 0 (Z.min n (Z.of_nat (length (toSeq v)))); Ret (fromSeq r isStr)
  | _ => Panic
  end.
Definition rightFn (isStr : bool) (a : list value) : outcome value :=
  match a with
  | [v; VInt n] =>
      let len := Z.of_nat (length (toSeq v)) in
      if n <? 0 then Err OutOfRange else r ← slice (toSeq v) (len - Z.min n len) len; Ret (fromSeq r isStr)
  | _ => Panic
  end.
Definition startsWithStr (isStr : bool) : list value -> outcome value := startsWithFn.
Definition HasSuffix (s suffix : bytes) : bool := HasPrefix (reverse s) (reverse suffix).
Definition endsWithFn (isStr : bool) (a : list value) : outcome value :=
  match a with [v; w] => Ret (VBool (HasSuffix (asBytes v) (asBytes w))) | _ => Panic end.
Definition strposFn (isStr : bool) (a : list value) : outcome value :=
  match a with [v; w] => Ret (VInt (wrap64 (seqIndex (toSeq v) (toSeq w) 0 + 1))) | _ => Panic end.

(** The occurrences from position [i] on; each lies after the one before. *)
Fixpoint instrLoop (fuel : nat) (s sub : list Z) (i occ : Z) : Z :=
  match fuel with
  | O => 0
  | S fuel' =>
      if i <=? Z.of_nat (length s) - Z.of_nat (length sub) then
        let j := seqIndex s sub i in
        if j <? 0 then 0 else if occ - 1 =? 0 then j + 1 else instrLoop fuel' s sub (j + 1) (occ - 1)
      else 0
  end.
(** The occurrences at the positions below [k], from the end. *)
Fixpoint instrBack (k : nat) (s sub : list Z) (occ : Z) : Z :=
  match k with
  | O => 0
  | S i =>
      let at_i := seqIndex (take (Nat.min (length s) (i + length sub)) s) sub (Z.of_nat i) =? Z.of_nat i in
      if at_i then if occ - 1 =? 0 then Z.of_nat i + 1 else instrBack i s sub (occ - 1) else instrBack i s sub occ
  end.
Definition instr (s sub : list Z) (pos occ : Z) : outcome value :=
  if pos =? 0 then Err OutOfRange
  else if occ <=? 0 then Err OutOfRange
  else
    let n := Z.of_nat (length s) in
    if 0 <? pos then Ret (VInt (wrap64 (instrLoop (S (length s)) s sub (pos - 1) occ)))
    else
      let start := Z.min (n + pos) (n - Z.of_nat (length sub)) in
      Ret (VInt (wrap64 (instrBack (Z.to_nat (start + 1)) s sub occ))).
Definition instrFn (isStr : bool) (a : list value) : outcome value :=
  match a with
  | [v; w] => instr (toSeq v) (toSeq w) 1 1
  | [v; w; VInt pos] => instr (toSeq v) (toSeq w) pos 1
  | [v; w; VInt pos; VInt occ] => instr (toSeq v) (toSeq w) pos occ
  | _ => Panic
  end.

(** ** Replacing *)

(** [bytes.Split] with a delimiter that is not empty; [skip] bytes belong to one that was found. *)
Fixpoint splitOn (delim : bytes) (skip : nat) (cur s : bytes) : list bytes :=
  match s with
  | [] => [cur]
  | c :: s' =>
      match skip with
      | S k => splitOn delim k cur s'
      | O => if HasPrefix s delim then cur :: splitOn delim (length delim - 1) [] s' else splitOn delim 0 (cur ++ [c]) s'
      end
  end.
Definition ReplaceAll (s old new : bytes) : bytes := joinParts new (splitOn old 0 [] s).
Definition replaceFn (isStr : bool) (a : list value) : outcome value :=
  match a with
  | [v; w; x] => match asBytes w with [] => Ret v | from => Ret (asStringOrBytes (ReplaceAll (asBytes v) from (asBytes x)) isStr) end
  | _ => Panic
  end.
(** [bytes.Repeat] panics when the length does not fit an [int]. *)
Definition bytes_Repeat (b : bytes) (n : Z) : outcome bytes :=
  if (n <? 0) || (int64_max <? Z.of_nat (length b) * n) then Panic else Ret (List.concat (repeat b (match b with [] => O | _ => Z.to_nat n end))).
Definition repeatFn (isStr : bool) (a : list value) : outcome value :=
  match a with
  | [v; VInt n] =>
      if n <? 0 then Err OutOfRange
      else if 67108864 <? wrap64 (int64_len (asBytes v) * n) then Err OutOfRange
      else r ← bytes_Repeat (asBytes v) n; Ret (asStringOrBytes r isStr)
  | _ => Panic
  end.
Definition reverseStrFn (isStr : bool) (a : list value) : outcome value := match a with [v] => Ret (fromSeq (reverse (toSeq v)) isStr) | _ => Panic end.

(** The runes that a trimming function removes: white space, or those of a set. *)
Definition trimSet (set : option value) (r : Z) : bool := match set with Some v => existsb (fun x => x =? r) (toSeq v) | None => isSpaceRune r end.
Definition trimSeq (left right : bool) (inSet : Z -> bool) (s : list Z) : list Z :=
  let s := if left then dropWhile inSet s else s in
  if right then reverse (dropWhile inSet (reverse s)) else s.
Definition trimFn (left right isStr : bool) (a : list value) : outcome value :=
  match a with
  | [v] => Ret (fromSeq (trimSeq left right (trimSet None) (toSeq v)) isStr)
  | [v; w] => Ret (fromSeq (trimSeq left right (trimSet (Some w)) (toSeq v)) isStr)
  | _ => Panic
  end.
(** [k] elements of the pattern [p], over and over. *)
Fixpoint fillFrom (p cur : list Z) (k : nat) : list Z :=
  match k with
  | O => []
  | S k' => match cur with c :: cur' => c :: fillFrom p cur' k' | [] => match p with c :: p' => c :: fillFrom p p' k' | [] => [] end end
  end.
Definition pad (left isStr : bool) (v : list Z) (n : Z) (p : list Z) : outcome value :=
  let len := Z.of_nat (length v) in
  if n <? 0 then Err OutOfRange
  else if 67108864 <? n then Err OutOfRange
  else
    match p with
    | [] => Err OutOfRange
    | _ =>
        if n <=? len then r ← slice v 0 n; Ret (fromSeq r isStr)
        else
          let fill := fillFrom p p (Z.to_nat (n - len)) in
          Ret (fromSeq (if left then fill ++ v else v ++ fill) isStr)
    end.
Definition padFn (left isStr : bool) (a : list value) : outcome value :=
  match a with
  | [v; VInt n] => pad left isStr (toSeq v) n [32]
  | [v; VInt n; w] => pad left isStr (toSeq v) n (toSeq w)
  | _ => Panic
  end.
Definition splitFn (isStr : bool) (a : list value) : outcome value :=
  let split (val delim : bytes) : list bytes :=
    match delim with
    | [] => if isStr then encodeRune <$> runes 0 val else (fun c => [c]) <$> val
    | _ => splitOn delim 0 [] val
    end in
  match a with
  | [v] => Ret (VArray ((fun p => asStringOrBytes p isStr) <$> split (asBytes v) (str ",")))
  | [v; w] => Ret (VArray ((fun p => asStringOrBytes p isStr) <$> split (asBytes v) (asBytes w)))
  | _ => Panic
  end.

(** TRANSLATE: the position of a character, and [None] for a duplicate. *)
Fixpoint hasDuplicate (l : list Z) : bool := match l with [] => false | r :: l' => existsb (Z.eqb r) l' || hasDuplicate l' end.
Definition translateRune (from to : list Z) (r : Z) : list Z :=
  match indexOf r from 0 with Some i => match to !! Z.to_nat i with Some x => [x] | None => [] end | None => [r] end.
Definition translateFn (isStr : bool) (a : list value) : outcome value :=
  match a with
  | [v; w; x] =>
      if hasDuplicate (toSeq w) then Err OutOfRange
      else Ret (fromSeq (toSeq v ≫= translateRune (toSeq w) (toSeq x)) isStr)
  | _ => Panic
  end.

(** ** Characters *)

Definition isCodePoint (n : Z) : bool := negb ((n <? 0) || (1114111 <? n) || (55296 <=? n) && (n <=? 57343)).
Definition firstRune (s : bytes) : Z := match runes 0 s with r :: _ => r | [] => 0 end.
Definition asciiFn (isStr : bool) (a : list value) : outcome value :=
  match a with
  | [VString s] => if 127 <? firstRune s then Err OutOfRange else Ret (VInt (firstRune s))
  | [VBytes b] => Ret (VInt (match b with c :: _ => c | [] => 0 end))
  | _ => Panic
  end.
Definition unicodeFn (v : value) : outcome value := match v with VString s => Ret (VInt (firstRune s)) | _ => Panic end.
Definition chrFn (v : value) : outcome value :=
  match v with VInt n => if n =? 0 then Ret (VString []) else if negb (isCodePoint n) then Err OutOfRange else Ret (VString (encodeRune n)) | _ => Panic end.
Definition initcapDelims : bytes :=
  [32; 9; 10; 13; 12; 11] ++ str "[](){}/|\<>!?@" ++ [34] ++ str "^#$&~_,.:;*%+-".
(** The loop of INITCAP: [newWord] until a character that is no delimiter. *)
Fixpoint initcap (delims : list Z) (newWord : bool) (s : list Z) : bytes :=
  match s with
  | [] => []
  | r :: s' =>
      if existsb (Z.eqb r) delims then encodeRune r ++ initcap delims true s'
      else encodeRune (if newWord then unicode_ToUpper r else unicode_ToLower r) ++ initcap delims false s'
  end.
Definition initcapFn (a : list value) : outcome value :=
  match a with
  | [VString s] => Ret (VString (initcap (runes 0 initcapDelims) true (runes 0 s)))
  | [VString s; VString d] => Ret (VString (initcap (runes 0 d) true (runes 0 s)))
  | _ => Panic
  end.

(** SOUNDEX: the digit of an upper-case letter, [h] for the letters that are passed over, 0 for the others. *)
Definition soundexCode (r : Z) : Z :=
  let u := unicode_ToUpper r in
  let among (l : bytes) := existsb (Z.eqb u) l in
  if among (str "BFPV") then 49 else if among (str "CGJKQSXZ") then 50 else if among (str "DT") then 51 else if among (str "L") then 52
  else if among (str "MN") then 53 else if among (str "R") then 54 else if among (str "HW") then 104 else 0.
Definition isASCIILetter (r : Z) : bool := (65 <=? r) && (r <=? 90) || (97 <=? r) && (r <=? 122).
Fixpoint soundexLoop (out : bytes) (last : Z) (s : list Z) : bytes :=
  match s with
  | [] => out
  | r :: s' =>
      if negb (isASCIILetter r) then soundexLoop out last s'
      else
        let c := soundexCode r in
        match out with
        | [] => soundexLoop [unicode_ToUpper r mod 256] c s'
        | _ =>
            if c =? 104 then soundexLoop out last s'
            else
              let out := if negb (c =? 0) && negb (c =? last) then out ++ [c] else out in
              if Nat.eqb (length out) 4 then out else soundexLoop out c s'
        end
  end.
Definition soundex (s : bytes) : bytes :=
  match soundexLoop [] 0 (runes 0 s) with [] => [] | out => out ++ repeat 48 (4 - length out) end.
Definition soundexFn (v : value) : outcome value := match v with VString s => Ret (VString (soundex s)) | _ => Panic end.

(** ** Encodings and code points *)

Definition toHexFn (v : value) : outcome value := match v with VBytes b => Ret (VString (hexEncode b)) | _ => Panic end.
Definition decoded (r : option bytes) : outcome value := match r with Some b => Ret (VBytes b) | None => Err OutOfRange end.
Definition fromHexFn (v : value) : outcome value :=
  match v with VString s => decoded (hexDecode (if Nat.odd (length s) then 48 :: s else s)) | _ => Panic end.
Definition toBase64Fn (v : value) : outcome value := match v with VBytes b => Ret (VString (base64Encode b)) | _ => Panic end.
Definition trimRightByte (c : Z) (s : bytes) : bytes := reverse (dropWhile (Z.eqb c) (reverse s)).
Definition fromBase64Fn (v : value) : outcome value :=
  match v with
  | VString s =>
      let s := strings_TrimSpace s in
      decoded (match base64Decode true s with Some b => Some b | None => base64Decode false (trimRightByte 61 s) end)
  | _ => Panic
  end.
Definition toBase32Fn (v : value) : outcome value := match v with VBytes b => Ret (VString (base32Encode b)) | _ => Panic end.
Definition fromBase32Fn (v : value) : outcome value := match v with VString s => decoded (base32Decode (strings_TrimSpace s)) | _ => Panic end.
Definition safeConvertFn (v : value) : outcome value :=
  match v with VBytes b => Ret (VString (if isValidUTF8 b then b else runes 0 b ≫= encodeRune)) | _ => Panic end.
Definition toCodePointsFn (isStr : bool) (a : list value) : outcome value := match a with [v] => Ret (VArray (VInt <$> toSeq v)) | _ => Panic end.

(** The loops over code points: NULL at the first NULL element, an error at the first bad one. *)
Fixpoint pointsLoop (ok : Z -> bool) (enc : Z -> bytes) (l : list value) (out : bytes) : outcome (option bytes) :=
  match l with
  | [] => Ret (Some out)
  | VNull :: _ => Ret None
  | VInt n :: l' => if ok n then pointsLoop ok enc l' (out ++ enc n) else Err OutOfRange
  | _ => Panic
  end.
Definition pointsToStringFn (v : value) : outcome value :=
  match v with VArray l => r ← pointsLoop isCodePoint encodeRune l []; Ret (match r with Some s => VString s | None => VNull end) | _ => Panic end.
Definition pointsToBytesFn (v : value) : outcome value :=
  match v with
  | VArray l => r ← pointsLoop (fun n => (0 <=? n) && (n <=? 255)) (fun n => [n]) l []; Ret (match r with Some b => VBytes b | None => VNull end)
  | _ => Panic
  end.

(** ** Big-endian numbers *)

Definition toInt64Fn (v : value) : outcome value :=
  match v with VBytes b => if negb (Nat.eqb (length b) 8) then Err OutOfRange else Ret (VInt (be64_int64 b)) | _ => Panic end.
(** [float64(f)] of a float of 32 bits: the same number, written with 53 bits. *)
Definition widen (f : spec_float) : spec_float :=
  match f with S754_finite s m e => binary_normalize 53 1024 (if s then Z.neg m else Z.pos m) e s | f => f end.
Definition float64_of_bytes (b : bytes) : spec_float := Float64frombits (be_decode b).
Definition float32_of_bytes (b : bytes) : spec_float := widen (Float32frombits (be_decode b)).
Definition toFloatFn (size : nat) (conv : bytes -> spec_float) (v : value) : outcome value :=
  match v with VBytes b => if negb (Nat.eqb (length b) size) then Err OutOfRange else Ret (VFloat (conv b)) | _ => Panic end.
(** [b[i*size:]] for every [i]. *)
Definition vectorOf (size : nat) (conv : bytes -> spec_float) (b : bytes) : list value :=
  (fun i => VFloat (conv (take size (drop (i * size) b)))) <$> seq 0 (length b / size).
Definition toVectorFn (size : nat) (conv : bytes -> spec_float) (v : value) : outcome value :=
  match v with VBytes b => if negb (Nat.eqb (length b mod size) 0) then Err OutOfRange else Ret (VArray (vectorOf size conv b)) | _ => Panic end.

(** ** The functions *)

(** The two overloads of TRIM and SPLIT: BYTES needs both arguments. *)
Definition strDelim (ret : sqlType -> sqlType) (fn : bool -> list value -> outcome value) : binding :=
  bySigs [mkSig [TString; TString] 1 false (ret TString) (fn true) false; mkSig [TBytes; TBytes] 2 false (ret TBytes) (fn false) false].
Definition concatBinding : binding := fun name args =>
  match args with
  | [] => Err InvalidArgument
  | _ => bySigs [mkSig [TString] 0 true TString (concatFn true) false; mkSig [TBytes] 0 true TBytes (concatFn false) false] name args
  end.

Definition stringFuncs : list (bytes * binding) :=
  [(str "CONCAT", concatBinding);
   (str "LENGTH", strBytes S1 0 false TInt64 runeCountFn);
   (str "CHAR_LENGTH", bySigs [s1 TString TInt64 (fun v => runeCountFn true [v])]); (str "CHARACTER_LENGTH", bySigs [s1 TString TInt64 (fun v => runeCountFn true [v])]);
   (str "BYTE_LENGTH", strBytes S1 0 false TInt64 byteLenFn); (str "OCTET_LENGTH", strBytes S1 0 false TInt64 byteLenFn);
   (str "LOWER", strBytes S1 0 true TInvalid (caseFn unicode_ToLower)); (str "UPPER", strBytes S1 0 true TInvalid (caseFn unicode_ToUpper));
   (str "SUBSTR", strBytes [None; I64; I64] 2 true TInvalid substrFn); (str "SUBSTRING", strBytes [None; I64; I64] 2 true TInvalid substrFn);
   (str "ENDS_WITH", strBytes S2 0 false TBool endsWithFn); (str "STRPOS", strBytes S2 0 false TInt64 strposFn);
   (str "INSTR", strBytes [None; None; I64; I64] 2 false TInt64 instrFn);
   (str "LEFT", strBytes [None; I64] 0 true TInvalid leftFn); (str "RIGHT", strBytes [None; I64] 0 true TInvalid rightFn);
   (str "REPLACE", strBytes S3 0 true TInvalid replaceFn);
   (str "REVERSE", strBytes S1 0 true TInvalid reverseStrFn);
   (str "TRIM", strDelim id (trimFn true true)); (str "LTRIM", strDelim id (trimFn true false)); (str "RTRIM", strDelim id (trimFn false true));
   (str "LPAD", strBytes [None; I64; None] 2 true TInvalid (padFn true)); (str "RPAD", strBytes [None; I64; None] 2 true TInvalid (padFn false));
   (str "SPLIT", strDelim TArray splitFn);
   (str "ASCII", strBytes S1 0 false TInt64 asciiFn); (str "UNICODE", bySigs [s1 TString TInt64 unicodeFn]); (str "CHR", bySigs [s1 TInt64 TString chrFn]);
   (str "INITCAP", bySigs [mkSig [TString; TString] 1 false TString initcapFn false]);
   (str "TRANSLATE", strBytes S3 0 true TInvalid translateFn); (str "SOUNDEX", bySigs [s1 TString TString soundexFn]);
   (str "TO_HEX", bySigs [s1 TBytes TString toHexFn]); (str "FROM_HEX", bySigs [s1 TString TBytes fromHexFn]);
   (str "TO_BASE64", bySigs [s1 TBytes TString toBase64Fn]); (str "FROM_BASE64", bySigs [s1 TString TBytes fromBase64Fn]);
   (str "TO_BASE32", bySigs [s1 TBytes TString toBase32Fn]); (str "FROM_BASE32", bySigs [s1 TString TBytes fromBase32Fn]);
   (str "SAFE_CONVERT_BYTES_TO_STRING", bySigs [s1 TBytes TString safeConvertFn]);
   (str "TO_CODE_POINTS", strBytes S1 0 false (TArray TInt64) toCodePointsFn);
   (str "CODE_POINTS_TO_STRING", bySigs [s1 (TArray TInt64) TString pointsToStringFn]); (str "CODE_POINTS_TO_BYTES", bySigs [s1 (TArray TInt64) TBytes pointsToBytesFn]);
   (str "TO_INT64", bySigs [s1 TBytes TInt64 toInt64Fn]);
   (str "TO_FLOAT64", bySigs [s1 TBytes TFloat64 (toFloatFn 8 float64_of_bytes)]); (str "TO_FLOAT32", bySigs [s1 TBytes TFloat32 (toFloatFn 4 float32_of_bytes)]);
   (str "TO_VECTOR32", bySigs [s1 TBytes (TArray TFloat32) (toVectorFn 4 float32_of_bytes)]); (str "TO_VECTOR64", bySigs [s1 TBytes (TArray TFloat64) (toVectorFn 8 float64_of_bytes)])].
(** The two whose calls are special: an operator, and one that can panic. *)
Definition startsWith : binding := strBytes S2 0 false TBool startsWithStr.
Definition repeatStr : binding := strBytes [None; I64] 0 true TInvalid repeatFn.
End functions.

Example substr_back : substrFn true [VString (str "apple"); VInt (-3); VInt 2] = Ret (VString (str "pl")).
Proof. by vm_compute. Qed.
Example instr_last : instrFn true [VString (str "helloo"); VString (str "o"); VInt (-1); VInt 2] = Ret (VInt 5) /\ instrFn false [VBytes (str "helloooo"); VBytes (str "oo"); VInt 1; VInt 2] = Ret (VInt 6).
Proof. by vm_compute. Qed.
Example translate_example : translateFn true [VString (str "This is a cookie"); VString (str "sco"); VString (str "zku")] = Ret (VString (str "Thiz iz a kuukie")).
Proof. by vm_compute. Qed.
Example rpad_example : padFn false true [VString (str "abc"); VInt 8; VString (str "de")] = Ret (VString (str "abcdeded")).
Proof. by vm_compute. Qed.
Example split_example : splitFn true [VString (str "a,b,,c")] = Ret (VArray [VString (str "a"); VString (str "b"); VString []; VString (str "c")]).
Proof. by vm_compute. Qed.

(** ** The functions are well-formed *)

Section wf.
Context `{Unicode} `{TimeZones} `{Strconv} (G : tenv).

Definition textType (isStr : bool) : sqlType := if isStr then TString else TBytes.
Definition textV (isStr : bool) (s : bytes) : value := if isStr then VString s else VBytes s.
Lemma text_cases (isStr : bool) v : has_type v (textType isStr) = true -> v <> VNull -> exists s, all_bytes s /\ v = textV isStr s.
Proof. intros Hv Hn. destruct isStr, v as [| | | |s|s| | | | |]; try done; exists s; (split; [by apply bytesb_all|done]). Qed.
Lemma int_cases v : has_type v TInt64 = true -> v <> VNull -> exists n, is_int64 n /\ v = VInt n.
Proof. intros Hv Hn. destruct v as [| |n| | | | | | | |]; try done. exists n. split; [by apply is_int64b_spec|done]. Qed.
Lemma textV_typed (isStr : bool) s : all_bytes s -> has_type (textV isStr s) (textType isStr) = true.
Proof. intros Hs. by destruct isStr; apply bytesb_all. Qed.
Lemma asBytes_text isStr s : asBytes (textV isStr s) = s.
Proof. by destruct isStr. Qed.
Lemma asStringOrBytes_text s (isStr : bool) : all_bytes s -> yields (Ret (asStringOrBytes s isStr)) (textType isStr).
Proof. intros Hs. destruct isStr; by apply bytesb_all. Qed.
Lemma bytes_mod (s : list Z) : all_bytes ((fun r => r mod 256) <$> s).
Proof. apply Forall_fmap, Forall_true. intros r. cbn. unfold is_byte. apply Z.mod_pos_bound. lia. Qed.
Lemma fromSeq_yields s (isStr : bool) : yields (Ret (fromSeq s isStr)) (textType isStr).
Proof. destruct isStr; [apply bytesb_all, bind_bytes, encodeRune_bytes|apply bytesb_all, bytes_mod]. Qed.
Lemma slice_yields s lo hi (isStr : bool) : 0 <= lo <= hi -> hi <= Z.of_nat (length s) -> yields (r ← slice s lo hi; Ret (fromSeq r isStr)) (textType isStr).
Proof.
  intros Hlo Hhi. unfold slice. destruct (Z.leb_spec 0 lo), (Z.leb_spec lo hi), (Z.leb_spec hi (Z.of_nat (length s))); try lia. apply fromSeq_yields.
Qed.
Definition point (r : Z) : Prop := 0 <= r <= 1114111.
Lemma toSeq_points (isStr : bool) s : all_bytes s -> Forall point (toSeq (textV isStr s)).
Proof. intros Hs. destruct isStr; [apply runes_range|]. eapply Forall_impl; [exact Hs|]. intros c. unfold is_byte, point. lia. Qed.
Lemma point_int64 r : point r -> is_int64b r = true.
Proof. intros Hr. apply is_int64b_spec. unfold point, is_int64 in *. unfold_words. lia. Qed.
Lemma int_yields n : yields (Ret (VInt (wrap64 n))) TInt64.
Proof. apply wrap64_typed. Qed.
Lemma is_int64_wrap n : is_int64b (wrap64 n) = true.
Proof. apply is_int64b_spec, wrap64_range. Qed.

(** *** Overloads *)
Definition argTypes (isStr : bool) (l : list (option sqlType)) : list sqlType := from_option id (textType isStr) <$> l.
Definition needed (args : list (option sqlType)) (minArgs : nat) : nat := match minArgs with O => length args | n => n end.
Lemma strBytes_ok name args minArgs retSame ret fn : operatorOf name = None -> args <> [] ->
  (forall isStr vs, (needed args minArgs <= length vs)%nat -> typedTo (argTypes isStr args) vs -> yields (fn isStr vs) (if retSame : bool then textType isStr else ret)) ->
  func_ok G (name, strBytes args minArgs retSame ret fn).
Proof.
  intros Hn Ha Hf. apply sigs_ok; [done|]. apply all2; unfold strSig; (apply optional_ok; [by destruct args|]); intros vs Hr Ht.
  - apply (Hf true vs); [|done]. unfold required in Hr. cbn in Hr. unfold needed. destruct minArgs; [by rewrite length_fmap in Hr|done].
  - apply (Hf false vs); [|done]. unfold required in Hr. cbn in Hr. unfold needed. destruct minArgs; [by rewrite length_fmap in Hr|done].
Qed.
Lemma strDelim_ok name ret fn : operatorOf name = None ->
  (forall isStr v, has_type v (textType isStr) = true -> v <> VNull -> yields (fn isStr [v]) (ret (textType isStr))) ->
  (forall isStr v w, has_type v (textType isStr) = true -> v <> VNull -> has_type w (textType isStr) = true -> w <> VNull -> yields (fn isStr [v; w]) (ret (textType isStr))) -> func_ok G (name, strDelim ret fn).
Proof.
  intros Hn Hone Htwo. apply sigs_ok; [done|]. apply all2; (apply optional_ok; [done|]); intros [|v [|w [|]]] Hr Ht; cbn in Hr, Ht; try lia; try tauto.
  - destruct Ht as [[] _]. by apply (Hone true).
  - destruct Ht as [[] [[] _]]. by apply (Htwo true).
  - destruct Ht as [[] [[] _]]. by apply (Htwo false).
Qed.
(** The arguments one by one. *)
Lemma typed_text isStr ts vs : typedTo (textType isStr :: ts) vs -> vs = [] \/ exists s vs', vs = textV isStr s :: vs' /\ all_bytes s /\ typedTo ts vs'.
Proof. destruct vs as [|v vs]; [by left|]. intros [[Hv Hn] Hvs]. right. destruct (text_cases isStr v Hv Hn) as (s & Hs & ->). eauto. Qed.
Lemma typed_int ts vs : typedTo (TInt64 :: ts) vs -> vs = [] \/ exists n vs', vs = VInt n :: vs' /\ is_int64 n /\ typedTo ts vs'.
Proof. destruct vs as [|v vs]; [by left|]. intros [[Hv Hn] Hvs]. right. destruct (int_cases v Hv Hn) as (n & Hi & ->). eauto. Qed.
Lemma typed_nil vs : typedTo [] vs -> vs = [].
Proof. destruct vs; [done|by intros []]. Qed.
End wf.

Ltac text_args :=
  repeat match goal with
  | H : typedTo (argTypes _ _) _ |- _ => unfold argTypes in H; cbn [fmap list_fmap from_option id] in H
  | H : typedTo (textType _ :: _) _ |- _ => apply typed_text in H as [->|(?s & ?vs & -> & ? & H)]; cbn [length needed] in *
  | H : typedTo (TInt64 :: _) _ |- _ => apply typed_int in H as [->|(?n & ?vs & -> & ? & H)]; cbn [length needed] in *
  | H : typedTo [] _ |- _ => apply typed_nil in H as ->; cbn [length needed] in *
  end; try lia.

Section functions_ok.
Context `{Unicode} `{TimeZones} `{Strconv} (G : tenv).

Ltac overloads := apply strBytes_ok; [done|done|]; intros isStr vs Hl Hvs; text_args; cbn [app].

Lemma runeCount_yields v (isStr : bool) : yields (runeCountFn isStr [v]) TInt64.
Proof. apply int_yields. Qed.
Lemma mapRunes_bytes f s : all_bytes (mapRunes f s).
Proof. apply bind_bytes. intros c. apply encodeRune_bytes. Qed.
Lemma asciiMap_bytes f b : all_bytes b -> all_bytes (asciiMap f b).
Proof. intros Hb. apply Forall_fmap. eapply Forall_impl; [exact Hb|]. intros c Hc. cbn. destruct (c <? 128); [|done]. unfold is_byte. apply Z.mod_pos_bound. lia. Qed.
Lemma case_ok name f : operatorOf name = None -> func_ok G (name, strBytes S1 0 true TInvalid (caseFn f)).
Proof. intros Hn. overloads. destruct isStr; cbn; apply bytesb_all; [apply mapRunes_bytes|by apply asciiMap_bytes]. Qed.
Lemma substr_yields (isStr : bool) v pos len : yields (substr isStr v pos len) (textType isStr).
Proof.
  unfold substr. cbn zeta. set (n := Z.of_nat (length (toSeq v))). assert (0 <= n) by lia. set (st := if n <? _ then n else _). assert (0 <= st <= n) as Hst.
  { unfold st. destruct (Z.ltb_spec 0 pos), (Z.eqb_spec pos 0); try lia; match goal with |- context [?a <? ?b] => destruct (Z.ltb_spec a b) end; lia. }
  destruct len as [l|]; cbn [mbind outcome_bind]; [|apply slice_yields; lia]. destruct (Z.ltb_spec l 0); [done|]. cbn [mbind outcome_bind]. destruct (Z.ltb_spec l (n - st)); apply slice_yields; lia.
Qed.
Lemma substr_ok name : operatorOf name = None -> func_ok G (name, strBytes [None; I64; I64] 2 true TInvalid substrFn).
Proof. intros Hn. overloads; destruct isStr; apply (substr_yields _ (_ _)). Qed.
Lemma left_ok name : operatorOf name = None -> func_ok G (name, strBytes [None; I64] 0 true TInvalid leftFn).
Proof. intros Hn. overloads. destruct isStr; cbn; destruct (Z.ltb_spec n 0); try done; first [apply (slice_yields _ _ _ true)|apply (slice_yields _ _ _ false)]; lia. Qed.
Lemma right_ok name : operatorOf name = None -> func_ok G (name, strBytes [None; I64] 0 true TInvalid rightFn).
Proof. intros Hn. overloads. destruct isStr; cbn; destruct (Z.ltb_spec n 0); try done; first [apply (slice_yields _ _ _ true)|apply (slice_yields _ _ _ false)]; lia. Qed.
Lemma instr_yields s sub pos occ : yields (instr s sub pos occ) TInt64.
Proof. unfold instr. destruct (pos =? 0); [done|]. destruct (occ <=? 0); [done|]. cbn zeta. destruct (0 <? pos); apply int_yields. Qed.
Lemma instr_ok name : operatorOf name = None -> func_ok G (name, strBytes [None; None; I64; I64] 2 false TInt64 instrFn).
Proof. intros Hn. overloads; destruct isStr; apply instr_yields. Qed.
Lemma splitOn_bytes delim s : all_bytes s -> forall skip cur, all_bytes cur -> Forall all_bytes (splitOn delim skip cur s).
Proof.
  induction 1 as [|c s Hc Hs IH]; intros skip cur Hcur; cbn; [by repeat constructor|]. destruct skip; [|by apply IH]. destruct (HasPrefix _ _); [constructor; [done|]; apply IH; constructor|]. apply IH, app_bytes; [done|]. constructor; [done|constructor].
Qed.
Lemma ReplaceAll_bytes s old new : all_bytes s -> all_bytes new -> all_bytes (ReplaceAll s old new).
Proof. intros Hs Hn. apply joinParts_bytes; [done|]. apply splitOn_bytes; [done|constructor]. Qed.
Lemma replace_ok name : operatorOf name = None -> func_ok G (name, strBytes S3 0 true TInvalid replaceFn).
Proof.
  intros Hn. overloads. cbn [replaceFn]. rewrite !asBytes_text. destruct s0; [by apply textV_typed|]. apply asStringOrBytes_text. by apply ReplaceAll_bytes.
Qed.
Lemma reverse_ok name : operatorOf name = None -> func_ok G (name, strBytes S1 0 true TInvalid reverseStrFn).
Proof. intros Hn. overloads. apply fromSeq_yields. Qed.
Lemma trim_ok name left right : operatorOf name = None -> func_ok G (name, strDelim id (trimFn left right)).
Proof. intros Hn. apply strDelim_ok; [done| |]; intros; apply fromSeq_yields. Qed.
Lemma pad_yields left (isStr : bool) v n p : yields (pad left isStr v n p) (textType isStr).
Proof.
  unfold pad. cbn zeta. destruct (Z.ltb_spec n 0); [done|]. destruct (67108864 <? n); [done|]. destruct p; [done|]. destruct (Z.leb_spec n (Z.of_nat (length v))); [apply slice_yields; lia|apply fromSeq_yields].
Qed.
Lemma pad_ok name left : operatorOf name = None -> func_ok G (name, strBytes [None; I64; None] 2 true TInvalid (padFn left)).
Proof. intros Hn. overloads; apply pad_yields. Qed.
Lemma strings_array (isStr : bool) (parts : list bytes) : Forall all_bytes parts -> yields (Ret (VArray ((fun p => asStringOrBytes p isStr) <$> parts))) (TArray (textType isStr)).
Proof. intros Hp. apply array_yields, Forall_fmap. eapply Forall_impl; [exact Hp|]. intros p Hb. by apply (asStringOrBytes_text p isStr). Qed.
Lemma splitFn_ok name : operatorOf name = None -> func_ok G (name, strDelim TArray splitFn).
Proof.
  intros Hn. assert (forall (isStr : bool) val delim, all_bytes val ->
    Forall all_bytes (match delim with [] => if isStr then encodeRune <$> runes 0 val else (fun c => [c]) <$> val | _ => splitOn delim 0 [] val end)) as Hs.
  { intros isStr val delim Hv. destruct delim; [|apply splitOn_bytes; [done|constructor]]. destruct isStr; apply Forall_fmap; [apply Forall_true; intros; apply encodeRune_bytes|]. eapply Forall_impl; [exact Hv|]. intros c Hc. constructor; [done|constructor]. }
  apply strDelim_ok; [done| |]; intros; cbn [splitFn]; apply strings_array, (Hs isStr); by eapply asBytes_all.
Qed.
Lemma firstRune_point s : point (firstRune s).
Proof. unfold firstRune. pose proof (runes_range s 0) as Hr. destruct Hr; [unfold point; lia|done]. Qed.
Lemma ascii_ok name : operatorOf name = None -> func_ok G (name, strBytes S1 0 false TInt64 asciiFn).
Proof.
  intros Hn. overloads. destruct isStr; cbn; [destruct (127 <? firstRune s); [done|]; by apply point_int64, firstRune_point|]. apply point_int64. match goal with H : all_bytes s |- _ => destruct H as [|c s Hc] end; unfold point, is_byte in *; lia.
Qed.
Lemma string_sig_ok ret fn : (forall s, all_bytes s -> yields (fn (VString s)) ret) -> sig_ok (s1 TString ret fn).
Proof. intros Hf. apply s1_ok. intros v Hv Hn. destruct (text_cases true v Hv Hn) as (s & Hs & ->). by apply Hf. Qed.
Lemma bytes_sig_ok ret fn : (forall s, all_bytes s -> yields (fn (VBytes s)) ret) -> sig_ok (s1 TBytes ret fn).
Proof. intros Hf. apply s1_ok. intros v Hv Hn. destruct (text_cases false v Hv Hn) as (s & Hs & ->). by apply Hf. Qed.
Lemma string_yields s : all_bytes s -> yields (Ret (VString s)) TString.
Proof. apply bytesb_all. Qed.
Lemma chr_sig : sig_ok (s1 TInt64 TString chrFn).
Proof. apply s1_ok. intros v Hv Hn. destruct (int_cases v Hv Hn) as (n & _ & ->). cbn. destruct (n =? 0); [done|]. destruct (negb _); [done|]. apply string_yields, encodeRune_bytes. Qed.
Lemma initcap_bytes delims s : forall w, all_bytes (initcap delims w s).
Proof. induction s as [|r s IH]; intros w; cbn; [constructor|]. destruct (existsb _ _); (apply app_bytes; [apply encodeRune_bytes|apply IH]). Qed.
Lemma initcap_sig : sig_ok (mkSig [TString; TString] 1 false TString initcapFn false).
Proof.
  apply optional_ok; [done|]. intros vs Hr Hvs. unfold required in Hr. cbn [sg_minArgs] in Hr. change [TString; TString] with [textType true; textType true] in Hvs. text_args; apply string_yields, initcap_bytes.
Qed.
Lemma indexOf_range c l i k : indexOf c l i = Some k -> i <= k < i + Z.of_nat (length l).
Proof. revert i. induction l as [|x l IH]; intros i; cbn [indexOf length]; [done|]. destruct (x =? c); [intros [= <-]; lia|]. intros Hk%IH. lia. Qed.
Lemma translate_ok name : operatorOf name = None -> func_ok G (name, strBytes S3 0 true TInvalid translateFn).
Proof. intros Hn. overloads. cbn [translateFn]. destruct (hasDuplicate _); [done|]. apply fromSeq_yields. Qed.
Lemma soundexCode_byte r : is_byte (soundexCode r).
Proof. unfold soundexCode, is_byte. cbn zeta. repeat case_match; lia. Qed.
Lemma soundexLoop_bytes s : forall out last, all_bytes out -> all_bytes (soundexLoop out last s).
Proof.
  induction s as [|r s IH]; intros out last Ho; cbn [soundexLoop]; [done|]. destruct (negb (isASCIILetter r)); [by apply IH|]. cbn zeta. destruct out as [|o out].
  - apply IH. constructor; [unfold is_byte; apply Z.mod_pos_bound; lia|constructor].
  - destruct (soundexCode r =? 104); [by apply IH|]. match goal with |- context [if ?c then (o :: out) ++ ?x else _] => assert (all_bytes (if c then (o :: out) ++ x else o :: out)) as Ho' end.
    { destruct (_ && _); [|done]. apply app_bytes; [done|]. constructor; [apply soundexCode_byte|constructor]. }
    destruct (Nat.eqb _ 4); [done|]. by apply IH.
Qed.
Lemma soundex_bytes s : all_bytes (soundex s).
Proof.
  unfold soundex. pose proof (soundexLoop_bytes (runes 0 s) [] 0 ltac:(constructor)) as Hs. destruct (soundexLoop [] 0 (runes 0 s)) as [|o out]; [constructor|]. apply app_bytes; [done|]. generalize (4 - length (o :: out))%nat. intros n. induction n; cbn; constructor; [unfold is_byte; lia|done].
Qed.
Lemma decoded_yields r : (forall b, r = Some b -> all_bytes b) -> yields (decoded r) TBytes.
Proof. intros Hr. destruct r as [b|]; cbn; [|done]. by apply bytesb_all, Hr. Qed.
Lemma fromBase64_sig : sig_ok (s1 TString TBytes fromBase64Fn).
Proof.
  apply string_sig_ok. intros s Hs. apply decoded_yields. cbn zeta. intros b. destruct (base64Decode true _) eqn:E; [intros [= <-]|intros Hb]; by eapply base64Decode_bytes.
Qed.
Lemma fromHex_sig : sig_ok (s1 TString TBytes fromHexFn).
Proof. apply string_sig_ok. intros s Hs. apply decoded_yields. intros b. apply hexDecode_bytes. Qed.
Lemma fromBase32_sig : sig_ok (s1 TString TBytes fromBase32Fn).
Proof. apply string_sig_ok. intros s Hs. apply decoded_yields. intros b. apply base32Decode_bytes. Qed.
Lemma safeConvert_sig : sig_ok (s1 TBytes TString safeConvertFn).
Proof. apply bytes_sig_ok. intros s Hs. apply string_yields. destruct (isValidUTF8 s); [done|]. apply bind_bytes, encodeRune_bytes. Qed.
Lemma toCodePoints_ok name : operatorOf name = None -> func_ok G (name, strBytes S1 0 false (TArray TInt64) toCodePointsFn).
Proof.
  intros Hn. overloads. cbn [toCodePointsFn]. apply array_yields, Forall_fmap. match goal with H : all_bytes s |- _ => pose proof (toSeq_points isStr s H) as Hp end. eapply Forall_impl; [exact Hp|]. intros r Hr. by apply point_int64.
Qed.
Lemma pointsLoop_typed ok enc l : (forall n, ok n = true -> all_bytes (enc n)) -> Forall (fun v => has_type v TInt64 = true) l -> forall out, all_bytes out ->
  match pointsLoop ok enc l out with Ret (Some s) => all_bytes s | Ret None | Err _ => True | Panic => False end.
Proof.
  intros He. induction 1 as [|v l Hv Hl IH]; intros out Ho; cbn; [done|]. destruct v; try done. destruct (ok n) eqn:E; [|done]. apply IH, app_bytes; [done|by apply He].
Qed.
Lemma points_sig ok enc (isStr : bool) fn : (forall l, fn (VArray l) = (r ← pointsLoop ok enc l []; Ret (match r with Some s => textV isStr s | None => VNull end))) ->
  (forall n, ok n = true -> all_bytes (enc n)) -> sig_ok (s1 (TArray TInt64) (textType isStr) fn).
Proof.
  intros Hf He. apply s1_ok. intros v Hv Hn. destruct (array_cases v _ Hv Hn) as (l & -> & Hl). rewrite Hf. pose proof (pointsLoop_typed ok enc l He Hl [] ltac:(constructor)) as Hp. destruct (pointsLoop ok enc l []) as [[s|]| |]; try done. cbn. by apply textV_typed.
Qed.
Lemma pointsToString_sig : sig_ok (s1 (TArray TInt64) TString pointsToStringFn).
Proof. apply (points_sig isCodePoint encodeRune true); [done|]. intros n _. apply encodeRune_bytes. Qed.
Lemma pointsToBytes_sig : sig_ok (s1 (TArray TInt64) TBytes pointsToBytesFn).
Proof. apply (points_sig (fun n => (0 <=? n) && (n <=? 255)) (fun n => [n]) false); [done|]. intros n Hn. constructor; [unfold is_byte; lia|constructor]. Qed.

(** *** Decoders *)
Lemma digits2_unique m d : 2 ^ (d - 1) <= Z.pos m < 2 ^ d -> 1 <= d -> Z.pos (digits2_pos m) = d.
Proof.
  intros Hm Hd. pose proof (digits2_pos_bound m) as Hb. destruct (Z.lt_trichotomy (Z.pos (digits2_pos m)) d) as [Hlt|[Heq|Hgt]]; [|done|]; exfalso.
  - assert (2 ^ Z.pos (digits2_pos m) <= 2 ^ (d - 1)) by (apply Z.pow_le_mono_r; lia). lia.
  - assert (2 ^ d <= 2 ^ (Z.pos (digits2_pos m) - 1)) by (apply Z.pow_le_mono_r; lia). lia.
Qed.
Lemma Float64frombits_valid u : 0 <= u < 2 ^ 64 -> valid64 (Float64frombits u) = true.
Proof.
  intros Hu. unfold Float64frombits, bits_float. cbn zeta. set (ex := (u / 2 ^ 52) mod 2 ^ 11). set (frac := u mod 2 ^ 52). change (3 - 2 ^ (11 - 1) - (52 + 1)) with (-1074).
  assert (0 <= ex < 2048) as Hex by (apply Z.mod_pos_bound; lia). assert (0 <= frac < 4503599627370496) as Hfr by (apply Z.mod_pos_bound; lia). change (2 ^ 11 - 1) with 2047.
  destruct (Z.eqb_spec ex 2047); [by destruct (frac =? 0)|].
  assert (forall m e, e = Z.max (Z.pos (digits2_pos m) + e - 53) (-1074) -> e <= 971 -> forall s, valid64 (S754_finite s m e) = true) as Hv.
  { intros m e He He' s. cbn. unfold bounded, canonical_mantissa, fexp, SpecFloat.emin. apply andb_true_iff. split; [apply Z.eqb_eq; lia|apply Z.leb_le; lia]. }
  destruct (Z.eqb_spec ex 0).
  - destruct frac as [|m|] eqn:Em; [done| |lia]. apply Hv; [|lia]. pose proof (digits2_pos_bound m) as Hb. assert (Z.pos (digits2_pos m) <= 52); [|lia]. destruct (Z.le_gt_cases (Z.pos (digits2_pos m)) 52); [done|]. exfalso.
    assert (2 ^ 52 <= 2 ^ (Z.pos (digits2_pos m) - 1)) by (apply Z.pow_le_mono_r; lia). change (2 ^ 52) with 4503599627370496 in *. lia.
  - destruct (frac + 2 ^ 52) as [|m|] eqn:Em; [done| |done]. assert (Z.pos (digits2_pos m) = 53) as Hd. { apply digits2_unique; [|lia]. change (2 ^ (53 - 1)) with 4503599627370496. change (2 ^ 53) with 9007199254740992. change (2 ^ 52) with 4503599627370496 in Em. lia. }
    apply Hv; lia.
Qed.
Lemma float32_of_bytes_valid b : valid64 (float32_of_bytes b) = true.
Proof. unfold float32_of_bytes, widen. destruct (Float32frombits _); try done. by apply normalize_valid. Qed.
Lemma float64_of_bytes_valid b : all_bytes b -> (length b <= 8)%nat -> valid64 (float64_of_bytes b) = true.
Proof.
  intros Hb Hl. apply Float64frombits_valid. pose proof (be_decode_bound b Hb) as Hd. assert (256 ^ Z.of_nat (length b) <= 256 ^ 8) by (apply Z.pow_le_mono_r; lia). change (256 ^ 8) with (2 ^ 64) in *. lia.
Qed.
Lemma toInt64_sig : sig_ok (s1 TBytes TInt64 toInt64Fn).
Proof. apply bytes_sig_ok. intros s Hs. cbn [toInt64Fn]. destruct (negb _); [done|]. apply wrap64_typed. Qed.
Lemma toFloat_sig size conv t : isFloat t = true -> (forall b, all_bytes b -> (length b <= size)%nat -> valid64 (conv b) = true) -> sig_ok (s1 TBytes t (toFloatFn size conv)).
Proof.
  intros Ht Hc. apply bytes_sig_ok. intros s Hs. cbn [toFloatFn]. destruct (Nat.eqb_spec (length s) size); [|done]. cbn [negb]. assert (valid64 (conv s) = true) by (apply Hc; [done|lia]). by destruct t.
Qed.
Lemma toVector_sig size conv t : isFloat t = true -> (forall b, all_bytes b -> (length b <= size)%nat -> valid64 (conv b) = true) -> sig_ok (s1 TBytes (TArray t) (toVectorFn size conv)).
Proof.
  intros Ht Hc. apply bytes_sig_ok. intros s Hs. cbn [toVectorFn]. destruct (negb _); [done|]. apply array_yields, Forall_fmap, Forall_true. intros i. cbn beta.
  assert (valid64 (conv (take size (drop (i * size) s))) = true) by (apply Hc; [by apply Forall_take, Forall_drop|rewrite length_take; lia]). by destruct t.
Qed.

(** *** CONCAT, STARTS_WITH and REPEAT *)
Lemma concat_sig (isStr : bool) : sig_ok (mkSig [textType isStr] 0 true (textType isStr) (concatFn isStr) false).
Proof.
  right. split; [done|]. intros vs _ _ Ht Hn. apply (concatFn_yields isStr). specialize (Hn eq_refl). apply Forall_lookup. intros i v Hi. split; [|exact (Forall_lookup_1 _ _ _ _ Hn Hi)].
  destruct (Ht i v Hi) as (t & Et & Hv). unfold typeAt in Et. cbn in Et. replace (Nat.min i 0) with 0%nat in Et by lia. by injection Et as <-.
Qed.
Lemma concat_ok name : operatorOf name = None -> func_ok G (name, concatBinding).
Proof.
  intros Hn args Hargs. cbn [fst snd]. unfold concatBinding. destruct args as [|a args]; [done|]. apply bySigs_binds; [|done|done]. apply all2; [apply (concat_sig true)|apply (concat_sig false)].
Qed.
Lemma startsWith_sig (isStr : bool) : sig_ok (strSig S2 0 false TBool startsWithStr isStr).
Proof.
  unfold strSig. apply optional_ok; [done|]. intros vs Hr Hvs. unfold required in Hr. cbn [sg_minArgs] in Hr. change (from_option id (if isStr then TString else TBytes) <$> S2) with [textType isStr; textType isStr] in *. cbn [sg_args length] in Hr. text_args; done.
Qed.
(** A call of STARTS_WITH is the operator that the key ranges recognise. *)
Lemma startsWith_ok : func_ok G (str "STARTS_WITH", startsWith).
Proof.
  intros args Hargs. cbn [fst snd]. unfold startsWith, strBytes. pose proof (startsWith_sig true) as Ht. pose proof (startsWith_sig false) as Hf.
  assert (forall isStr, sig_matches (strSig S2 0 false TBool startsWithStr isStr) args = Ret true -> binds G (sig_build (strSig S2 0 false TBool startsWithStr isStr) (str "STARTS_WITH") args)) as Hb.
  { intros isStr Hm. apply sig_build_binds; [by destruct isStr|done| |done]. intros co _ o Ho. assert (o = OStartsWith) as -> by (vm_compute in Ho; congruence). done. }
  cbn [bySigs]. pose proof (sig_matches_safe _ args Ht). destruct (sig_matches (strSig _ _ _ _ _ true) args) as [[]| |] eqn:E; cbn [mbind outcome_bind]; try done; [by apply (Hb true)|].
  pose proof (sig_matches_safe _ args Hf). destruct (sig_matches (strSig _ _ _ _ _ false) args) as [[]| |] eqn:E'; cbn [mbind outcome_bind]; try done. by apply (Hb false).
Qed.
Lemma stringFuncs_ok : Forall (func_ok G) stringFuncs.
Proof.
  unfold stringFuncs. repeat (apply Forall_cons; split); try apply Forall_nil_2.
  - by apply concat_ok.
  - overloads. apply runeCount_yields.
  - apply sigs_ok; [done|]. apply all1, string_sig_ok. intros. apply runeCount_yields.
  - apply sigs_ok; [done|]. apply all1, string_sig_ok. intros. apply runeCount_yields.
  - overloads. apply int_yields.
  - overloads. apply int_yields.
  - by apply case_ok.
  - by apply case_ok.
  - by apply substr_ok.
  - by apply substr_ok.
  - overloads. done.
  - overloads. apply int_yields.
  - by apply instr_ok.
  - by apply left_ok.
  - by apply right_ok.
  - by apply replace_ok.
  - by apply reverse_ok.
  - by apply trim_ok.
  - by apply trim_ok.
  - by apply trim_ok.
  - by apply pad_ok.
  - by apply pad_ok.
  - by apply splitFn_ok.
  - by apply ascii_ok.
  - apply sigs_ok; [done|]. apply all1, string_sig_ok. intros. apply point_int64, firstRune_point.
  - apply sigs_ok; [done|]. apply all1, chr_sig.
  - apply sigs_ok; [done|]. apply all1, initcap_sig.
  - by apply translate_ok.
  - apply sigs_ok; [done|]. apply all1, string_sig_ok. intros. apply string_yields, soundex_bytes.
  - apply sigs_ok; [done|]. apply all1, bytes_sig_ok. intros. by apply string_yields, hexEncode_bytes.
  - apply sigs_ok; [done|]. apply all1, fromHex_sig.
  - apply sigs_ok; [done|]. apply all1, bytes_sig_ok. intros. apply string_yields, base64Encode_bytes.
  - apply sigs_ok; [done|]. apply all1, fromBase64_sig.
  - apply sigs_ok; [done|]. apply all1, bytes_sig_ok. intros. apply string_yields, base32Encode_bytes.
  - apply sigs_ok; [done|]. apply all1, fromBase32_sig.
  - apply sigs_ok; [done|]. apply all1, safeConvert_sig.
  - by apply toCodePoints_ok.
  - apply sigs_ok; [done|]. apply all1, pointsToString_sig.
  - apply sigs_ok; [done|]. apply all1, pointsToBytes_sig.
  - apply sigs_ok; [done|]. apply all1, toInt64_sig.
  - apply sigs_ok; [done|]. by apply all1, toFloat_sig; [|apply float64_of_bytes_valid].
  - apply sigs_ok; [done|]. apply all1, toFloat_sig; [done|]. intros. apply float32_of_bytes_valid.
  - apply sigs_ok; [done|]. apply all1, toVector_sig; [done|]. intros. apply float32_of_bytes_valid.
  - apply sigs_ok; [done|]. by apply all1, toVector_sig; [|apply float64_of_bytes_valid].
Qed.

(** REPEAT multiplies before it compares: a count that makes the product wrap around
    passes the check, and [bytes.Repeat] panics. *)
Lemma repeat_overflow_panics : repeatFn true [VString (str "ab"); VInt 4611686018427387904] = Panic.
Proof. by vm_compute. Qed.
Lemma repeat_small (isStr : bool) s n : all_bytes s -> is_int64 n -> Z.of_nat (length s) * n <= int64_max -> Z.of_nat (length s) <= int64_max -> yields (repeatFn isStr [textV isStr s; VInt n]) (textType isStr).
Proof.
  intros Hs Hn Hl Hs'. cbn [repeatFn]. rewrite asBytes_text. destruct (Z.ltb_spec n 0); [done|]. destruct (67108864 <? _); [done|]. unfold bytes_Repeat. destruct (Z.ltb_spec n 0); [lia|]. destruct (Z.ltb_spec int64_max (Z.of_nat (length s) * n)); [lia|]. cbn [orb mbind outcome_bind].
  apply asStringOrBytes_text. generalize (match s with [] => 0%nat | _ => Z.to_nat n end). intros k. induction k; cbn; [constructor|by apply app_bytes].
Qed.
End functions_ok.
