(* ===== verification/FuncsPattern.v ===== *)
(** * Regular expressions and FORMAT

    The functions of [internal/gsql/funcs_string.go] on top of packages [regexp] and
    [fmt], which are interfaces here: what a match is made of, and that a formatted value
    is a byte string.  [regexCache] only saves compilations.  Every function but
    REGEXP_INSTR yields a well-formed call; REGEXP_INSTR uses the position -1 of a group
    that took no part in the match as a slice bound. *)

From stdpp Require Import base list.
From Stdlib Require Import ZArith Lia.
From Stdlib Require Import Floats.SpecFloat.
From S2P Require Import Prelude Proto Rows Server Tokens KeySchema Operations Lexer SqlValues SqlFloat SqlArith SqlTime SqlOps SqlCast Bexpr BindOps Aggregates Funcs FuncsMath FuncsArray Encodings SqlText FuncsString.

#[local] Open Scope Z_scope.

(** Package [regexp]: a match is the bounds of the whole and of every group, -1 for a
    group that took no part. *)
Class Regexp : Type := {
  regexp : Type;
  regexp_Compile : bytes -> option regexp;
  NumSubexp : regexp -> nat;
  regexp_Match : regexp -> bytes -> bool;
  FindAllSubmatchIndex : regexp -> bytes -> list (list Z);
  regexp_ReplaceAll : regexp -> bytes -> bytes -> bytes;
  submatch_bounds : forall re s m i, m ∈ FindAllSubmatchIndex re s -> (i <= NumSubexp re)%nat ->
    exists lo hi, m !! (2 * i)%nat = Some lo /\ m !! (2 * i + 1)%nat = Some hi /\
      (0 <= lo <= hi /\ hi <= Z.of_nat (length s) \/ i <> O /\ lo = -1 /\ hi = -1);
  ReplaceAll_all_bytes : forall re s t, all_bytes s -> all_bytes t -> all_bytes (regexp_ReplaceAll re s t);
}.
(** [fmt.Sprintf] of one value. *)
Inductive fmtArg : Type := ArgInt (n : Z) | ArgUint (n : Z) | ArgFloat (f : spec_float) | ArgString (s : bytes).
Class Fmt : Type := { Sprintf : bytes -> fmtArg -> bytes; Sprintf_bytes : forall f a, all_bytes (Sprintf f a) }.

(** ** Regular expressions *)

Section regex.
Context `{Regexp}.

Definition compileRegex (pat : bytes) : outcome regexp := match regexp_Compile pat with Some re => Ret re | None => Err OutOfRange end.

(** The byte offset of the 1-based position [pos], -1 past the end. *)
Fixpoint runeOffset (fuel : nat) (i pos : Z) (rest : bytes) (off : Z) : Z :=
  match fuel with
  | O => -1
  | S fuel' =>
      if i <? pos then
        match rest with
        | [] => -1
        | _ => let n := match rune_at rest with Some (_, n) => n | None => 1%nat end in runeOffset fuel' (i + 1) pos (drop n rest) (off + Z.of_nat n)
        end
      else off
  end.
Definition regexOffset (val : bytes) (pos : Z) (isStr : bool) : Z :=
  if isStr then runeOffset (S (length val)) 1 pos val 0
  else if Z.of_nat (length val) <? pos - 1 then -1 else pos - 1.

(** The bounds that a function looks at: the only group, or the whole match. *)
Definition bounds (re : regexp) (m : list Z) : outcome (Z * Z) :=
  let i := match NumSubexp re with O => 0%nat | _ => 2%nat end in
  match m !! i, m !! S i with Some lo, Some hi => Ret (lo, hi) | _, _ => Panic end.
(** The match number [occ] from the position [pos] on, with the offset of the search. *)
Definition findMatch (re : regexp) (isStr : bool) (val : bytes) (pos occ : Z) : outcome (option (Z * list Z)) :=
  let off := regexOffset val pos isStr in
  if off <? 0 then Ret None
  else
    rest ← slice val off (Z.of_nat (length val));
    let ms := FindAllSubmatchIndex re rest in
    if Z.of_nat (length ms) <? occ then Ret None
    else match ms !! Z.to_nat (occ - 1) with Some m => Ret (Some (off, m)) | None => Panic end.

Definition regexContainsFn (isStr : bool) (a : list value) : outcome value :=
  match a with [v; w] => re ← compileRegex (asBytes w); Ret (VBool (regexp_Match re (asBytes v))) | _ => Panic end.
Definition extract (isStr : bool) (v pat : value) (pos occ : Z) : outcome value :=
  re ← compileRegex (asBytes pat);
  if Nat.ltb 1 (NumSubexp re) then Err OutOfRange
  else if (pos <=? 0) || (occ <=? 0) then Err OutOfRange
  else
    r ← findMatch re isStr (asBytes v) pos occ;
    match r with
    | None => Ret VNull
    | Some (off, m) =>
        '(lo, hi) ← bounds re m;
        if lo <? 0 then Ret VNull
        else s ← slice (asBytes v) (off + lo) (off + hi); Ret (asStringOrBytes s isStr)
    end.
Definition extractFn (isStr : bool) (a : list value) : outcome value :=
  match a with
  | [v; w] => extract isStr v w 1 1
  | [v; w; VInt pos] => extract isStr v w pos 1
  | [v; w; VInt pos; VInt occ] => extract isStr v w pos occ
  | _ => Panic
  end.
Definition extractAllFn (isStr : bool) (a : list value) : outcome value :=
  match a with
  | [v; w] =>
      re ← compileRegex (asBytes w);
      if Nat.ltb 1 (NumSubexp re) then Err OutOfRange
      else
        out ← collectM (fun m => '(lo, hi) ← bounds re m; if lo <? 0 then Ret VNull else s ← slice (asBytes v) lo hi; Ret (asStringOrBytes s isStr))
          (FindAllSubmatchIndex re (asBytes v));
        Ret (VArray out)
  | _ => Panic
  end.
(** A replacement as a template of [regexp]: [\n] is a group, a dollar is doubled. *)
Fixpoint regexReplacement (r : bytes) (groups : nat) : outcome bytes :=
  match r with
  | [] => Ret []
  | c :: r' =>
      if c =? 36 then out ← regexReplacement r' groups; Ret (36 :: 36 :: out)
      else if c =? 92 then
        match r' with
        | [] => Err OutOfRange
        | n :: r2 =>
            if isDigit n then if Z.of_nat groups <? n - 48 then Err OutOfRange else out ← regexReplacement r2 groups; Ret (str "${" ++ [n] ++ str "}" ++ out)
            else if n =? 92 then out ← regexReplacement r2 groups; Ret (92 :: out)
            else Err OutOfRange
        end
      else out ← regexReplacement r' groups; Ret (c :: out)
  end.
Definition regexReplaceFn (isStr : bool) (a : list value) : outcome value :=
  match a with
  | [v; w; x] =>
      re ← compileRegex (asBytes w);
      tmpl ← regexReplacement (asBytes x) (NumSubexp re);
      Ret (asStringOrBytes (regexp_ReplaceAll re (asBytes v) tmpl) isStr)
  | _ => Panic
  end.
Definition regexInstr (isStr : bool) (v pat : value) (pos occ occPos : Z) : outcome value :=
  re ← compileRegex (asBytes pat);
  if Nat.ltb 1 (NumSubexp re) then Err OutOfRange
  else if (pos <=? 0) || (occ <=? 0) || negb (occPos =? 0) && negb (occPos =? 1) then Err OutOfRange
  else
    r ← findMatch re isStr (asBytes v) pos occ;
    match r with
    | None => Ret (VInt 0)
    | Some (off, m) =>
        '(lo, hi) ← bounds re m;
        let at_ := if occPos =? 1 then off + hi else off + lo in
        if isStr then before ← slice (asBytes v) 0 at_; Ret (VInt (wrap64 (Z.of_nat (length (runes 0 before)) + 1)))
        else Ret (VInt (wrap64 (at_ + 1)))
    end.
Definition regexInstrFn (isStr : bool) (a : list value) : outcome value :=
  match a with
  | [v; w] => regexInstr isStr v w 1 1 0
  | [v; w; VInt pos] => regexInstr isStr v w pos 1 0
  | [v; w; VInt pos; VInt occ] => regexInstr isStr v w pos occ 0
  | [v; w; VInt pos; VInt occ; VInt occPos] => regexInstr isStr v w pos occ occPos
  | _ => Panic
  end.
End regex.

(** ** FORMAT *)

Section format.
Context `{Fmt} `{TimeZones} `{Strconv}.

Definition fmtPad (spec s : bytes) : bytes :=
  Sprintf (reverse (dropWhile (fun c => (c =? 46) || isDigit c) (reverse spec)) ++ str "s") (ArgString s).
Definition formatInt (spec : bytes) (verb : Z) (n : Z) : bytes :=
  let s := Sprintf (List.filter (fun c => negb (c =? 43)) spec ++ [verb]) (ArgUint (Z.abs n)) in
  if n <? 0 then 45 :: dropWhile (Z.eqb 32) s else s.
Definition formatNumber (spec : bytes) (verb : Z) (x : spec_float) : bytes :=
  if IsInf x || IsNaN x then fmtPad spec (formatFloat x false) else Sprintf (spec ++ [verb]) (ArgFloat x).
Definition among (c : Z) (l : bytes) : bool := existsb (Z.eqb c) l.
(** One value that is not NULL. *)
Definition formatArg (spec : bytes) (verb : Z) (v : value) (t : sqlType) : outcome bytes :=
  if among verb (str "di") then match v with VInt n => Ret (Sprintf (spec ++ str "d") (ArgInt n)) | _ => Err OutOfRange end
  else if among verb (str "oxX") then match v with VInt n => Ret (formatInt spec verb n) | _ => Err OutOfRange end
  else if among verb (str "fFeEgG") then
    match v with VFloat x => Ret (formatNumber spec verb x) | VInt n => Ret (formatNumber spec verb (float_of_int n)) | _ => Err OutOfRange end
  else if verb =? 115 then
    match t with TString => match v with VString s => Ret (Sprintf (spec ++ str "s") (ArgString s)) | _ => Panic end | _ => Err OutOfRange end
  else if verb =? 116 then s ← textValue v t; Ret (Sprintf (spec ++ str "s") (ArgString s))
  else if verb =? 84 then s ← sqlLiteral v t; Ret (Sprintf (spec ++ str "s") (ArgString s))
  else Err OutOfRange.
(** Flags, width and precision after a percent sign, and what follows. *)
Definition specOf (f : bytes) : bytes * bytes :=
  let '(flags, r) := span (fun c => among c (str "-+ #0'")) f in
  let '(width, r) := span isDigit r in
  let '(prec, r) := match r with 46 :: r' => let '(d, r2) := span isDigit r' in (46 :: d, r2) | _ => ([], r) end in
  ([37] ++ List.filter (fun c => negb (c =? 39)) (flags ++ width ++ prec), r).
(** The loop of [formatSQL]; [None] is a NULL result. *)
Fixpoint formatLoop (fuel : nat) (f : bytes) (args : list (value * sqlType)) (out : bytes) : outcome (option bytes) :=
  match fuel with
  | O => Panic
  | S fuel' =>
      match f with
      | [] => match args with [] => Ret (Some out) | _ => Err OutOfRange end
      | c :: f' =>
          if negb (c =? 37) then formatLoop fuel' f' args (out ++ [c])
          else
            let '(spec, r) := specOf f' in
            match r with
            | [] => Err OutOfRange
            | verb :: rest =>
                if verb =? 37 then formatLoop fuel' rest args (out ++ [37])
                else
                  match args with
                  | [] => Err OutOfRange
                  | (v, t) :: args' =>
                      if isNull v then
                        if (verb =? 116) || (verb =? 84) then formatLoop fuel' rest args' (out ++ fmtPad spec (str "NULL")) else Ret None
                      else s ← formatArg spec verb v t; formatLoop fuel' rest args' (out ++ s)
                  end
            end
      end
  end.
Definition formatSQL (f : bytes) (args : list (value * sqlType)) : outcome value :=
  r ← formatLoop (S (length f)) f args []; Ret (match r with Some s => VString s | None => VNull end).
Definition formatFn (types : list sqlType) (a : list value) : outcome value :=
  match a with
  | VNull :: _ => Ret VNull
  | VString f :: args => formatSQL f (zip args types)
  | _ => Panic
  end.
Definition bindFormat : binding := fun name args =>
  match args with
  | [] => Err InvalidArgument
  | a :: rest => f ← coerceTo a TString; Ret (set_strict false (callExpr (str "FORMAT") TString (formatFn (e_typ <$> rest)) (f :: rest)))
  end.

(** ** The functions *)
Context `{Unicode} `{Regexp}.
Definition extractAll : binding :=
  bySigs [mkSig [TString; TString] 0 false (TArray TString) (extractAllFn true) false; mkSig [TBytes; TBytes] 0 false (TArray TBytes) (extractAllFn false) false].
Definition patternFuncs : list (bytes * binding) :=
  [(str "REGEXP_CONTAINS", strBytes S2 0 false TBool regexContainsFn);
   (str "REGEXP_EXTRACT", strBytes [None; None; I64; I64] 2 true TInvalid extractFn); (str "REGEXP_SUBSTR", strBytes [None; None; I64; I64] 2 true TInvalid extractFn);
   (str "REGEXP_EXTRACT_ALL", extractAll); (str "REGEXP_REPLACE", strBytes S3 0 true TInvalid regexReplaceFn);
   (str "FORMAT", bindFormat)].
Definition regexpInstr : binding := strBytes [None; None; I64; I64; I64] 2 false TInt64 regexInstrFn.
End format.

(** ** The functions are well-formed *)

Section wf.
Context `{Regexp} `{Fmt} `{TimeZones} `{Strconv} `{Unicode} (G : tenv).

Ltac overloads := apply strBytes_ok; [done|done|]; intros isStr vs Hl Hvs; text_args; cbn [app].

Lemma runeOffset_range fuel : forall i pos rest off, 0 <= off -> runeOffset fuel i pos rest off = -1 \/ 0 <= runeOffset fuel i pos rest off <= off + Z.of_nat (length rest).
Proof.
  induction fuel as [|fuel IH]; intros i pos rest off Ho; cbn [runeOffset]; [by left|]. destruct (i <? pos); [|right; lia]. destruct rest as [|c rest]; [by left|]. cbn zeta.
  assert (exists n, match rune_at (c :: rest) with Some (_, n) => n | None => 1%nat end = n /\ (1 <= n <= length (c :: rest))%nat) as (n & -> & Hn).
  { destruct (rune_at (c :: rest)) as [[r n]|] eqn:E; [|exists 1%nat; cbn [length]; split; [done|lia]]. exists n. split; [done|]. by destruct (rune_at_app _ _ _ [] E). }
  destruct (IH (i + 1) pos (drop n (c :: rest)) (off + Z.of_nat n)) as [|Hr]; [lia|by left|]. right. rewrite length_drop in Hr. lia.
Qed.
Lemma regexOffset_range val pos isStr : 1 <= pos -> regexOffset val pos isStr = -1 \/ 0 <= regexOffset val pos isStr <= Z.of_nat (length val).
Proof. intros Hp. unfold regexOffset. destruct isStr; [by apply runeOffset_range|]. destruct (Z.ltb_spec (Z.of_nat (length val)) (pos - 1)); [by left|right; lia]. Qed.
Lemma slice_ret (s : list Z) lo hi : 0 <= lo <= hi -> hi <= Z.of_nat (length s) -> slice s lo hi = Ret (take (Z.to_nat (hi - lo)) (drop (Z.to_nat lo) s)).
Proof. intros Hlo Hhi. unfold slice. by destruct (Z.leb_spec 0 lo), (Z.leb_spec lo hi), (Z.leb_spec hi (Z.of_nat (length s))); try lia. Qed.
(** What a found match says: its bounds are positions of the value, or the group took no part. *)
Lemma findMatch_spec re isStr val pos occ : 1 <= pos -> 1 <= occ ->
  match findMatch re isStr val pos occ with
  | Ret (Some (off, m)) => 0 <= off /\ exists rest, m ∈ FindAllSubmatchIndex re rest /\ off + Z.of_nat (length rest) = Z.of_nat (length val)
  | Ret None => True | Err _ => True | Panic => False
  end.
Proof.
  intros Hp Ho. unfold findMatch. destruct (regexOffset_range val pos isStr Hp) as [-> | Hoff]; [done|]. set (off := regexOffset val pos isStr) in *. cbn zeta. destruct (Z.ltb_spec off 0); [lia|]. rewrite slice_ret by lia. cbn [mbind outcome_bind].
  set (rest := take _ _). destruct (Z.ltb_spec (Z.of_nat (length (FindAllSubmatchIndex re rest))) occ); [done|]. destruct (FindAllSubmatchIndex re rest !! Z.to_nat (occ - 1)) as [m|] eqn:Em; [|apply lookup_ge_None in Em; lia].
  split; [lia|]. exists rest. split; [by eapply list_elem_of_lookup_2|]. unfold rest. rewrite length_take, length_drop. lia.
Qed.
Lemma bounds_spec re rest m : m ∈ FindAllSubmatchIndex re rest -> (NumSubexp re <= 1)%nat ->
  exists lo hi, bounds re m = Ret (lo, hi) /\ (0 <= lo <= hi /\ hi <= Z.of_nat (length rest) \/ NumSubexp re = 1%nat /\ lo = -1 /\ hi = -1).
Proof.
  intros Hm Hn. unfold bounds. destruct (NumSubexp re) as [|[|]] eqn:En; [| |lia].
  - destruct (submatch_bounds re rest m 0 Hm) as (lo & hi & El & Eh & Hb); [lia|]. cbn in El, Eh. rewrite El, Eh. exists lo, hi. split; [done|]. destruct Hb as [|(? & _)]; [by left|done].
  - destruct (submatch_bounds re rest m 1 Hm) as (lo & hi & El & Eh & Hb); [lia|]. cbn in El, Eh. rewrite El, Eh. exists lo, hi. split; [done|]. destruct Hb as [|(_ & -> & ->)]; [by left|by right].
Qed.
Lemma sliced_yields val lo hi (isStr : bool) : all_bytes val -> 0 <= lo <= hi -> hi <= Z.of_nat (length val) -> yields (s ← slice val lo hi; Ret (asStringOrBytes s isStr)) (textType isStr).
Proof. intros Hv Hlo Hhi. rewrite slice_ret by done. cbn [mbind outcome_bind]. apply asStringOrBytes_text. by apply Forall_take, Forall_drop. Qed.
Lemma extract_yields (isStr : bool) s pat pos occ : all_bytes s -> yields (extract isStr (textV isStr s) pat pos occ) (textType isStr).
Proof.
  intros Hs. unfold extract, compileRegex. destruct (regexp_Compile (asBytes pat)) as [re|]; [|done]. cbn [mbind outcome_bind]. destruct (Nat.ltb_spec 1 (NumSubexp re)); [done|]. destruct (Z.leb_spec pos 0); [done|]. destruct (Z.leb_spec occ 0); [done|]. cbn [orb]. rewrite asBytes_text.
  pose proof (findMatch_spec re isStr s pos occ) as Hf. destruct (findMatch re isStr s pos occ) as [[[off m]|]| |]; cbn [mbind outcome_bind]; try done; [|by apply Hf; lia]. destruct Hf as (Ho & rest & Hm & Hl); [lia..|].
  destruct (bounds_spec re rest m Hm) as (lo & hi & -> & Hb); [lia|]. cbn [mbind outcome_bind]. destruct (Z.ltb_spec lo 0); [done|]. destruct Hb as [Hb|]; [|lia]. apply sliced_yields; [done|lia..].
Qed.
Lemma extract_ok name : operatorOf name = None -> func_ok G (name, strBytes [None; None; I64; I64] 2 true TInvalid extractFn).
Proof. intros Hn. overloads; cbn [extractFn]; destruct isStr; by apply (extract_yields _ _). Qed.
Lemma extractAll_ok name : operatorOf name = None -> func_ok G (name, extractAll).
Proof.
  intros Hn. assert (forall isStr : bool, sig_ok (mkSig [textType isStr; textType isStr] 0 false (TArray (textType isStr)) (extractAllFn isStr) false)) as Hs; [|apply sigs_ok; [done|]; apply all2; [apply (Hs true)|apply (Hs false)]].
  intros isStr. apply optional_ok; [done|]. intros vs Hr Hvs. unfold required in Hr. cbn [sg_minArgs sg_args length] in Hr. text_args. cbn [extractAllFn]. unfold compileRegex. destruct (regexp_Compile _) as [re|]; [|done]. cbn [mbind outcome_bind]. destruct (Nat.ltb_spec 1 (NumSubexp re)); [done|]. rewrite !asBytes_text.
  assert (forall ms, Forall (fun m => m ∈ FindAllSubmatchIndex re s) ms -> match collectM (fun m => '(lo, hi) ← bounds re m; if lo <? 0 then Ret VNull else x ← slice s lo hi; Ret (asStringOrBytes x isStr)) ms with
    Ret out => Forall (fun v => has_type v (textType isStr) = true) out | Err _ => True | Panic => False end) as Hc.
  { induction 1 as [|m ms Hm Hms IH]; cbn [collectM]; [constructor|]. destruct (bounds_spec re s m Hm) as (lo & hi & -> & Hb); [lia|]. cbn [mbind outcome_bind].
    assert (yields (if lo <? 0 then Ret VNull else x ← slice s lo hi; Ret (asStringOrBytes x isStr)) (textType isStr)) as Hy. { destruct (Z.ltb_spec lo 0); [done|]. destruct Hb as [Hb|]; [|lia]. apply sliced_yields; [done|lia|lia]. }
    destruct (if lo <? 0 then _ else _) as [v| |]; cbn [mbind outcome_bind]; try done. destruct (collectM _ ms); cbn [mbind outcome_bind]; try done. by constructor. }
  specialize (Hc (FindAllSubmatchIndex re s)). destruct (collectM _ _) as [out| |]; cbn [mbind outcome_bind]; try done; [apply array_yields|]; apply Hc; by apply list.Forall_forall.
Qed.
Lemma regexReplacement_bytes groups r : all_bytes r -> match regexReplacement r groups with Ret t => all_bytes t | Err _ => True | Panic => False end.
Proof.
  enough (forall n r, (length r <= n)%nat -> all_bytes r -> match regexReplacement r groups with Ret t => all_bytes t | Err _ => True | Panic => False end) as He by (intros Hr; by apply (He (length r) r)). clear r. induction n as [|n IH]; intros r Hl Hr; [destruct r; [constructor|cbn in Hl; lia]|].
  destruct Hr as [|c r Hc Hr]; [constructor|]. cbn [length] in Hl. cbn [regexReplacement].
  assert (forall r' pre, (length r' <= n)%nat -> all_bytes r' -> all_bytes pre -> match out ← regexReplacement r' groups; Ret (pre ++ out) with Ret t => all_bytes t | Err _ => True | Panic => False end) as Hk.
  { intros r' pre Hl' Hr' Hp. specialize (IH r' Hl' Hr'). destruct (regexReplacement r' groups); try done. by apply app_bytes. }
  destruct (c =? 36); [apply (Hk r [36; 36]); [lia|done|by apply str_bytes]|]. destruct (c =? 92); [|apply (Hk r [c]); [lia|done|constructor; [done|constructor]]].
  destruct Hr as [|x r Hx Hr]; [done|]. cbn [length] in Hl. destruct (isDigit x).
  - destruct (_ <? _); [done|]. specialize (Hk r (str "${" ++ [x] ++ str "}")). destruct (regexReplacement r groups); cbn [mbind outcome_bind] in *; try done; [|by apply Hk; [lia|done|apply app_bytes; [by apply str_bytes|apply app_bytes; [constructor; [done|constructor]|by apply str_bytes]]]].
    rewrite <- !app_assoc in Hk. apply Hk; [lia|done|]. apply app_bytes; [by apply str_bytes|]. apply app_bytes; [constructor; [done|constructor]|by apply str_bytes].
  - destruct (x =? 92); [|done]. apply (Hk r [92]); [lia|done|by apply str_bytes].
Qed.
Lemma regexReplace_ok name : operatorOf name = None -> func_ok G (name, strBytes S3 0 true TInvalid regexReplaceFn).
Proof.
  intros Hn. overloads. cbn [regexReplaceFn]. unfold compileRegex. rewrite !asBytes_text. destruct (regexp_Compile _) as [re|]; [|done]. cbn [mbind outcome_bind].
  match goal with |- context [regexReplacement ?x _] => assert (all_bytes x) as Hx by done; pose proof (regexReplacement_bytes (NumSubexp re) x Hx) as Ht; destruct (regexReplacement x _) end; try done. cbn [mbind outcome_bind]. apply asStringOrBytes_text. by apply ReplaceAll_all_bytes.
Qed.

(** *** FORMAT *)
Lemma span_tail p s : (length (span p s).2 <= length s)%nat /\ (all_bytes s -> all_bytes (span p s).2).
Proof.
  induction s as [|c s [IHl IHb]]; cbn [span]; [done|]. destruct (p c); [|done]. destruct (span p s) as [a b]. cbn in *. split; [lia|]. intros Hs. apply IHb. by apply Forall_cons in Hs as [_ ?].
Qed.
Lemma specOf_tail f : (length (specOf f).2 <= length f)%nat /\ (all_bytes f -> all_bytes (specOf f).2).
Proof.
  unfold specOf. destruct (span_tail (fun c => among c (str "-+ #0'")) f) as [L1 B1]. destruct (span _ f) as [flags r]. cbn [snd] in *. destruct (span_tail isDigit r) as [L2 B2]. destruct (span isDigit r) as [width r2]. cbn [snd] in *.
  assert (forall (r3 : bytes) (pre : bytes), (length r3 <= length r2)%nat -> (all_bytes r2 -> all_bytes r3) -> (length (pre, r3).2 <= length f)%nat /\ (all_bytes f -> all_bytes (pre, r3).2)) as Hk by (intros r3 pre Hl Hb; cbn; split; [lia|auto]).
  destruct (match r2 with 46 :: r' => let '(d, r2) := span isDigit r' in (46 :: d, r2) | _ => ([], r2) end) as [prec r3] eqn:E. cbn [snd].
  enough ((length r3 <= length r2)%nat /\ (all_bytes r2 -> all_bytes r3)) as [Hl Hb] by (split; [lia|auto]). destruct r2 as [|c r2]; [injection E as <- <-; done|]. destruct (decide (c = 46)) as [->|Hne].
  - destruct (span_tail isDigit r2) as [L3 B3]. destruct (span isDigit r2) as [d r4]. injection E as <- <-. cbn in *. split; [lia|]. intros Hb. apply B3. by apply Forall_cons in Hb as [_ ?].
  - assert (r3 = c :: r2) as -> by (repeat case_match; congruence). done.
Qed.
Lemma formatArg_texts spec verb v t : has_type v t = true -> v <> VNull -> texts (formatArg spec verb v t).
Proof.
  intros Ht Hn. assert (forall f a, texts (Ret (Sprintf f a))) as Hs by (intros; apply Sprintf_bytes). assert (forall sp x, all_bytes (formatNumber spec sp x)) as Hnum by (intros; unfold formatNumber, fmtPad; destruct (_ || _); apply Sprintf_bytes).
  unfold formatArg. destruct (among verb (str "di")); [destruct v; try done; apply Hs|]. destruct (among verb (str "oxX")).
  { destruct v; try done. cbn. unfold formatInt. cbn zeta. pose proof (Sprintf_bytes (List.filter (fun c => negb (c =? 43)) spec ++ [verb]) (ArgUint (Z.abs n))) as Hb. destruct (n <? 0); [|done]. constructor; [unfold is_byte; lia|].
    revert Hb. generalize (Sprintf (List.filter (fun c => negb (c =? 43)) spec ++ [verb]) (ArgUint (Z.abs n))). intros s Hb. induction Hb as [|c s Hc Hb IH]; cbn [dropWhile]; [constructor|]. destruct (32 =? c); [done|by constructor]. }
  destruct (among verb (str "fFeEgG")); [destruct v; try done; apply Hnum|]. destruct (verb =? 115); [destruct t; try done; destruct v; try done; apply Hs|].
  destruct (verb =? 116); [pose proof (textValue_texts v t Ht) as Hx; destruct (textValue v t); try done; apply Hs|]. destruct (verb =? 84); [|done]. pose proof (sqlLiteral_texts v t Ht) as Hx. destruct (sqlLiteral v t); try done. apply Hs.
Qed.
Lemma formatLoop_ok fuel : forall f args out, (length f < fuel)%nat -> all_bytes f -> Forall (fun a => has_type a.1 a.2 = true) args -> all_bytes out ->
  match formatLoop fuel f args out with Ret (Some s) => all_bytes s | Ret None | Err _ => True | Panic => False end.
Proof.
  induction fuel as [|fuel IH]; intros f args out Hl Hf Ha Ho; [lia|]. cbn [formatLoop]. destruct Hf as [|c f Hc Hf]; [by destruct args|]. cbn [length] in Hl. destruct (c =? 37); cbn [negb]; [|apply IH; [lia|done|done|apply app_bytes; [done|constructor; [done|constructor]]]].
  destruct (specOf_tail f) as [Hsl Hsb]. specialize (Hsb Hf). destruct (specOf f) as [spec r]. cbn [snd] in *. destruct Hsb as [|verb rest Hv Hr]; [done|]. cbn [length] in Hsl. destruct (verb =? 37); [apply IH; [lia|done|done|apply app_bytes; [done|by apply str_bytes]]|].
  destruct Ha as [|[v t] args Hvt Ha]; [done|]. cbn [fst snd] in Hvt. destruct (isNull v) eqn:En.
  - destruct (_ || _); [|done]. apply IH; [lia|done|done|]. apply app_bytes; [done|apply Sprintf_bytes].
  - pose proof (formatArg_texts spec verb v t Hvt) as Hs. destruct (formatArg spec verb v t) as [s| |]; cbn [mbind outcome_bind]; [|done|apply Hs; by destruct v]. apply IH; [lia|done|done|]. apply app_bytes; [done|]. apply Hs. by destruct v.
Qed.
Lemma bindFormat_ok name : func_ok G (name, bindFormat).
Proof.
  intros args Hargs. cbn [fst snd]. unfold bindFormat. destruct Hargs as [|a rest Ha Hrest]; [done|]. coerced_by (coerceTo_as G a TString Ha). apply wf_call_lax; [by constructor|done|]. intros vs Hvs. inversion Hvs as [|v ? vs' ? Hv Hvs']; subst.
  assert (has_type v TString = true) as Hvt by (by eapply has_type_equal). destruct v; try done. cbn [formatFn]. unfold formatSQL.
  assert (Forall (fun a => has_type a.1 a.2 = true) (zip vs' (e_typ <$> rest))) as Hz. { clear -Hvs'. induction Hvs'; cbn; by constructor. }
  pose proof (formatLoop_ok (S (length s)) s _ [] ltac:(lia) ltac:(by apply bytesb_all) Hz ltac:(constructor)) as Hf. destruct (formatLoop _ _ _ _) as [[x|]| |]; try done. by apply bytesb_all.
Qed.

Lemma patternFuncs_ok : Forall (func_ok G) patternFuncs.
Proof.
  unfold patternFuncs. repeat (apply Forall_cons; split); try apply Forall_nil_2.
  - overloads. cbn [regexContainsFn]. unfold compileRegex. by destruct (regexp_Compile _).
  - by apply extract_ok.
  - by apply extract_ok.
  - by apply extractAll_ok.
  - by apply regexReplace_ok.
  - apply bindFormat_ok.
Qed.

(** REGEXP_INSTR without a group finds a position. *)
Lemma regexInstr_yields (isStr : bool) s pat pos occ occPos : (forall re, regexp_Compile (asBytes pat) = Some re -> NumSubexp re = O) ->
  yields (regexInstr isStr (textV isStr s) pat pos occ occPos) TInt64.
Proof.
  intros Hg. unfold regexInstr, compileRegex. destruct (regexp_Compile (asBytes pat)) as [re|]; [|done]. specialize (Hg re eq_refl). cbn [mbind outcome_bind]. rewrite Hg. cbn [Nat.ltb Nat.leb]. destruct (Z.leb_spec pos 0); [done|]. destruct (Z.leb_spec occ 0); [done|]. cbn [orb]. destruct (_ && _); [done|]. rewrite asBytes_text.
  pose proof (findMatch_spec re isStr s pos occ) as Hf. destruct (findMatch re isStr s pos occ) as [[[off m]|]| |]; cbn [mbind outcome_bind]; try done; [|by apply Hf; lia]. destruct Hf as (Ho & rest & Hm & Hl); [lia..|].
  destruct (bounds_spec re rest m Hm) as (lo & hi & -> & Hb); [lia|]. cbn [mbind outcome_bind]. destruct Hb as [Hb|(? & _)]; [|lia]. cbn zeta. destruct isStr; [|apply int_yields]. rewrite slice_ret by (destruct (occPos =? 1); lia). apply int_yields.
Qed.
(** With a group that takes no part in the match, as in [(a)?b] on "b", the position of
    the group is -1, and the text before it is not a slice. *)
Lemma regexInstr_unmatched_group_panics (s pat : bytes) (re : regexp) (m : list Z) (ms : list (list Z)) :
  regexp_Compile pat = Some re -> NumSubexp re = 1%nat -> FindAllSubmatchIndex re s = m :: ms -> m !! 2%nat = Some (-1) -> m !! 3%nat = Some (-1) ->
  regexInstr true (VString s) (VString pat) 1 1 0 = Panic.
Proof.
  intros Hc Hn Hf Hlo Hhi. unfold regexInstr, compileRegex, findMatch. cbn [asBytes]. rewrite Hc. cbn [mbind outcome_bind]. rewrite Hn. cbn [Nat.ltb Nat.leb Z.leb orb andb negb Z.eqb]. change (regexOffset s 1 true) with 0. cbn zeta. change (0 <? 0) with false. cbn iota.
  rewrite slice_ret by lia. cbn [mbind outcome_bind]. rewrite Z.sub_0_r, Nat2Z.id, drop_0, take_ge by done. rewrite Hf. destruct (Z.ltb_spec (Z.of_nat (length (m :: ms))) 1); [cbn [length] in *; lia|]. cbn [Z.sub Z.to_nat lookup list_lookup mbind outcome_bind].
  change ((m :: ms) !! Z.to_nat (1 - 1)) with (Some m). cbn [mbind outcome_bind]. unfold bounds. rewrite Hn, Hlo, Hhi. cbn [mbind outcome_bind]. done.
Qed.
End wf.

(** An engine with one expression, [(a)?b], good for the subject "b". *)
Definition optional_group : Regexp.
Proof.
  refine {| regexp := unit; regexp_Compile _ := Some (); NumSubexp _ := 1%nat; regexp_Match _ s := bool_decide (s = str "b");
    FindAllSubmatchIndex _ s := if bool_decide (s = str "b") then [[0; 1; -1; -1]] else []; regexp_ReplaceAll _ s t := if bool_decide (s = str "b") then t else s |}.
  - intros _ s m i Hm Hi. case_bool_decide as Hs; [|by apply elem_of_nil in Hm]. subst s. apply list_elem_of_singleton in Hm as ->. destruct i as [|[|]]; [exists 0, 1; split_and!; [done|done|]; left; cbn; lia|exists (-1), (-1); split_and!; [done|done|]; by right|lia].
  - intros _ s t Hs Ht. by case_bool_decide.
Defined.
Lemma regexInstr_panics_witness : @regexInstrFn optional_group true [VString (str "b"); VString (str "(a)?b")] = Panic.
Proof. by apply (@regexInstr_unmatched_group_panics optional_group (str "b") (str "(a)?b") () [0; 1; -1; -1] []). Defined.
