(* ===== verification/FuncsMisc.v ===== *)
(** * Conditional functions and JSON

    [internal/gsql/funcs_misc.go]: IF, COALESCE, NULLIF, the functions that look at errors,
    IS DISTINCT FROM, and the JSON functions with the source's own document model, paths
    and printer.  The tokens of [encoding/json] and its indentation are an interface. *)

From stdpp Require Import base list.
From Stdlib Require Import ZArith Lia.
From Stdlib Require Import Floats.SpecFloat.
From S2P Require Import Prelude Proto Rows Server Hll Tokens KeySchema Lexer SqlValues SqlFloat SqlArith SqlTime SqlOps SqlCast Bexpr BindOps Aggregates Funcs FuncsMath FuncsArray Encodings SqlText FuncsString.

#[local] Open Scope Z_scope.

(** ** Conditions and errors *)

Definition evalIf (now : Z) (args : list (outcome value)) : outcome value :=
  match args with [c; x; y] => v ← c; match v with VBool true => x | _ => y end | _ => Panic end.
Fixpoint evalCoalesce (now : Z) (args : list (outcome value)) : outcome value :=
  match args with [] => Ret VNull | r :: args' => v ← r; if isNull v then evalCoalesce now args' else Ret v end.
Definition nullifFn (a : list value) : outcome value :=
  match a with
  | [x; y] => if isNull x then Ret VNull else r ← sqlEquals x y; match r with Some true => Ret VNull | _ => Ret x end
  | _ => Panic
  end.
Definition evalIfError (now : Z) (args : list (outcome value)) : outcome value :=
  match args with [x; y] => match x with Err c => if isEvalError c then y else Err c | r => r end | _ => Panic end.
Definition evalIsError (now : Z) (args : list (outcome value)) : outcome value :=
  match args with [x] => match x with Ret _ => Ret (VBool false) | Err c => if isEvalError c then Ret (VBool true) else Err c | Panic => Panic end | _ => Panic end.
Definition evalNullIfError (now : Z) (args : list (outcome value)) : outcome value :=
  match args with [x] => match x with Err c => if isEvalError c then Ret VNull else Err c | r => r end | _ => Panic end.
(** Keys compare first: NaN is not distinct from NaN. *)
Definition distinctFn (neg : bool) (a : list value) : outcome value :=
  match a with
  | [x; y] =>
      same ← (if isNull x || isNull y then Ret (isNull x && isNull y)
              else if bool_decide (valueKey x = valueKey y) then Ret true
              else r ← sqlEquals x y; Ret (match r with Some true => true | _ => false end));
      Ret (VBool (Bool.eqb same neg))
  | _ => Panic
  end.

(** ** JSON documents *)

Inductive jsonVal : Type :=
| JObject (members : list (bytes * jsonVal)) | JArray (elems : list jsonVal)
| JString (s : bytes) | JNumber (s : bytes) | JTrue | JFalse | JNull.

(** A token of a [json.Decoder] that keeps numbers as they are. *)
Inductive jsonToken : Type := TokDelim (c : Z) | TokString (s : bytes) | TokNumber (s : bytes) | TokBool (b : bool) | TokNull.
Definition token_bytes (t : jsonToken) : Prop := match t with TokString s | TokNumber s => all_bytes s | _ => True end.
(** Package [encoding/json]: the tokens of a text up to its end or the first error, and
    whether it was the end; [json.Indent]. *)
Class Json : Type := {
  json_Tokens : bytes -> list jsonToken * bool;
  json_Indent : bytes -> option bytes;
  json_Tokens_bytes : forall s, Forall token_bytes (json_Tokens s).1;
  json_Indent_bytes : forall s t, all_bytes s -> json_Indent s = Some t -> all_bytes t;
}.

(** [dec.More()]: the next token closes nothing. *)
Definition dec_More (toks : list jsonToken) : bool :=
  match toks with TokDelim c :: _ => (c =? 123) || (c =? 91) | [] => false | _ => true end.
(** [readJSON] and its two loops; every call reads a token. *)
Fixpoint readJSON (fuel : nat) (toks : list jsonToken) : option (jsonVal * list jsonToken) :=
  match fuel with
  | O => None
  | S fuel' =>
      match toks with
      | TokDelim c :: rest =>
          if c =? 123 then '(ms, rest) ← readMembers fuel' rest; Some (JObject ms, rest)
          else if c =? 91 then '(vs, rest) ← readElems fuel' rest; Some (JArray vs, rest)
          else None
      | TokString s :: rest => Some (JString s, rest)
      | TokNumber s :: rest => Some (JNumber s, rest)
      | TokBool b :: rest => Some (if b then JTrue else JFalse, rest)
      | TokNull :: rest => Some (JNull, rest)
      | [] => None
      end
  end
with readMembers (fuel : nat) (toks : list jsonToken) : option (list (bytes * jsonVal) * list jsonToken) :=
  match fuel with
  | O => None
  | S fuel' =>
      if dec_More toks then
        match toks with
        | TokString k :: rest =>
            '(v, rest) ← readJSON fuel' rest;
            '(ms, rest) ← readMembers fuel' rest;
            Some ((k, v) :: ms, rest)
        | _ => None
        end
      else match toks with _ :: rest => Some ([], rest) | [] => None end
  end
with readElems (fuel : nat) (toks : list jsonToken) : option (list jsonVal * list jsonToken) :=
  match fuel with
  | O => None
  | S fuel' =>
      if dec_More toks then
        '(v, rest) ← readJSON fuel' toks;
        '(vs, rest) ← readElems fuel' rest;
        Some (v :: vs, rest)
      else match toks with _ :: rest => Some ([], rest) | [] => None end
  end.
(** Twice the tokens: [readElems] and [readJSON] both take a turn for one. *)
Definition readFuel (toks : list jsonToken) : nat := 2 * length toks + 2.
Definition parseJSON `{Json} (b : bytes) : option jsonVal :=
  let '(toks, atEOF) := json_Tokens b in
  match readJSON (readFuel toks) toks with
  | Some (v, []) => if atEOF : bool then Some v else None
  | _ => None
  end.

(** *** Paths *)

Inductive jsonStep : Type := StepKey (k : bytes) | StepIndex (i : Z).
(** [strings.IndexByte], as what comes before and after the byte. *)
Fixpoint cutByte (c : Z) (s : bytes) : option (bytes * bytes) :=
  match s with [] => None | x :: s' => if x =? c then Some ([], s') else '(a, b) ← cutByte c s'; Some (x :: a, b) end.
(** [strconv.Atoi]. *)
Definition Atoi (s : bytes) : option Z :=
  let neg := HasPrefix s (str "-") in
  let d := if neg || HasPrefix s (str "+") then drop 1 s else s in
  if isAllDigits d then
    u ← ParseUint 10 d;
    if neg then if 2 ^ 63 <? u then None else Some (- u) else if 2 ^ 63 - 1 <? u then None else Some u
  else None.
Definition quotedStep (inner : bytes) : option bytes :=
  match inner with
  | q :: rest =>
      if ((q =? 39) || (q =? 34)) && negb (bool_decide (rest = [])) && bool_decide (last inner = Some q) then Some (take (length rest - 1) rest) else None
  | [] => None
  end.
Fixpoint pathSteps (fuel : nat) (p : bytes) : outcome (list jsonStep) :=
  match fuel with
  | O => Panic
  | S fuel' =>
      match p with
      | [] => Ret []
      | 46 :: 34 :: rest =>
          match cutByte 34 rest with None => Err OutOfRange | Some (k, rest) => steps ← pathSteps fuel' rest; Ret (StepKey k :: steps) end
      | 46 :: rest =>
          let '(k, rest) := span (fun c => negb ((c =? 46) || (c =? 91))) rest in
          if bool_decide (k = []) || bool_decide (k = str "*") then Err OutOfRange
          else steps ← pathSteps fuel' rest; Ret (StepKey k :: steps)
      | 91 :: rest =>
          match cutByte 93 rest with
          | None => Err OutOfRange
          | Some (inner, rest) =>
              let inner := strings_TrimSpace inner in
              match quotedStep inner with
              | Some k => steps ← pathSteps fuel' rest; Ret (StepKey k :: steps)
              | None =>
                  match Atoi inner with
                  | Some n => if n <? 0 then Err OutOfRange else steps ← pathSteps fuel' rest; Ret (StepIndex n :: steps)
                  | None => Err OutOfRange
                  end
              end
          end
      | _ => Err OutOfRange
      end
  end.
Definition parseJSONPath (p : bytes) : outcome (list jsonStep) :=
  match p with 36 :: rest => pathSteps (S (length rest)) rest | _ => Err OutOfRange end.

Fixpoint navigate (v : jsonVal) (steps : list jsonStep) {struct steps} : option jsonVal :=
  match steps with
  | [] => Some v
  | StepIndex i :: steps' => match v with JArray vs => x ← vs !! Z.to_nat i; navigate x steps' | _ => None end
  | StepKey k :: steps' => match v with JObject ms => m ← List.find (fun m => bool_decide (m.1 = k)) ms; navigate m.2 steps' | _ => None end
  end.

(** *** Printing *)
Fixpoint serialize (v : jsonVal) : bytes :=
  match v with
  | JObject ms => str "{" ++ joinParts (str ",") ((fun m => jsonQuote m.1 ++ str ":" ++ serialize m.2) <$> ms) ++ str "}"
  | JArray vs => str "[" ++ joinParts (str ",") (serialize <$> vs) ++ str "]"
  | JString s => jsonQuote s
  | JNumber s => s
  | JTrue => str "true"
  | JFalse => str "false"
  | JNull => str "null"
  end.

Definition jsonScalar (v : jsonVal) : value :=
  match v with JString s | JNumber s => VString s | JTrue => VString (str "true") | JFalse => VString (str "false") | _ => VNull end.
Definition jsonQuery (v : jsonVal) : value := VString (serialize v).
Definition jsonQueryArray (v : jsonVal) : value := match v with JArray vs => VArray ((fun e => VString (serialize e)) <$> vs) | _ => VNull end.
Definition jsonValueArray (v : jsonVal) : value :=
  match v with
  | JArray vs => if existsb (fun e => match e with JObject _ | JArray _ => true | _ => false end) vs then VNull else VArray (jsonScalar <$> vs)
  | _ => VNull
  end.

(** ** The functions *)

Section functions.
Context `{Json} `{TimeZones} `{Strconv} `{Estimator}.

Definition jsonEval (fn : jsonVal -> value) (a : list value) : outcome value :=
  match a with
  | doc :: rest =>
      path ← match rest with [] => Ret (str "$") | [VString p] => Ret p | _ => Panic end;
      steps ← parseJSONPath path;
      Ret (match parseJSON (asBytes doc) with None => VNull | Some root => match navigate root steps with None => VNull | Some v => fn v end end)
  | [] => Panic
  end.
Definition jsonFn (ret : sqlType) (defaultPath : bool) (fn : jsonVal -> value) : binding := fun name args =>
  if negb (exactArgs args (if defaultPath then 1 else 2)%nat 2) then Err InvalidArgument
  else
    match args with
    | [] => Panic
    | doc :: rest =>
        doc ← (if canCoerce doc TString then coerceOr doc TString else match e_typ doc with TBytes => Ret doc | _ => Err InvalidArgument end);
        ps ← collectM (fun p => coerceTo p TString) rest;
        Ret (callExpr name ret (jsonEval fn) (doc :: ps))
    end.
Definition toJSONFn (t : sqlType) (a : list value) : outcome value :=
  match a with
  | v :: rest =>
      s ← toJSON v t;
      Ret (VString (match rest with VBool true :: _ => match json_Indent s with Some p => p | None => s end | _ => s end))
  | [] => Panic
  end.
Definition toJSONString : binding := fun name args =>
  if negb (exactArgs args 1 2) then Err InvalidArgument
  else
    match args with
    | [] => Panic
    | x :: rest => ps ← collectM (fun p => coerceTo p TBool) rest; Ret (set_strict false (callExpr name TString (toJSONFn (e_typ x)) (x :: ps)))
    end.

Definition ifBinding : binding := fun name args =>
  match args with
  | [c; x; y] =>
      c ← coerceTo c TBool;
      t ← match commonType [x; y] with Err _ => Err InvalidArgument | t => t end;
      res ← coerceAll [x; y] t;
      Ret (lazyExpr (str "IF") t evalIf (c :: res))
  | _ => Err InvalidArgument
  end.
Definition coalesce (lo hi : nat) : binding := fun name args =>
  if Nat.ltb (length args) lo || (Nat.ltb 0 hi && Nat.ltb hi (length args)) then Err InvalidArgument
  else
    t ← match commonType args with Err _ => Err InvalidArgument | t => t end;
    co ← coerceAll args t;
    Ret (lazyExpr name t evalCoalesce co).
Definition nullif : binding := fun name args =>
  if negb (exactArgs args 2 2) then Err InvalidArgument
  else
    t ← match commonType args with Err _ => Err InvalidArgument | t => t end;
    if negb (equalityComparable t) then Err InvalidArgument
    else co ← coerceAll args t; Ret (set_strict false (callExpr (str "NULLIF") t nullifFn co)).
Definition ifError : binding := fun name args =>
  if negb (exactArgs args 2 2) then Err InvalidArgument
  else
    t ← match commonType args with Err _ => Err InvalidArgument | t => t end;
    co ← coerceAll args t; Ret (lazyExpr (str "IFERROR") t evalIfError co).
Definition isError : binding := fun name args => match args with [x] => Ret (lazyExpr (str "ISERROR") TBool evalIsError [x]) | _ => Err InvalidArgument end.
Definition nullIfError : binding := fun name args => match args with [x] => Ret (lazyExpr (str "NULLIFERROR") (e_typ x) evalNullIfError [x]) | _ => Err InvalidArgument end.
Definition distinctFrom (neg : bool) : binding := fun name args =>
  t ← match commonType args with Err _ => Err InvalidArgument | t => t end;
  if negb (equalityComparable t) then Err InvalidArgument
  else co ← coerceAll args t; Ret (set_strict false (callExpr name TBool (distinctFn neg) co)).
Definition hllExtractFn (a : list value) : outcome value :=
  match a with
  | [VNull] => Ret (VInt 0)
  | [VBytes b] => match DecodeHLL b with Some h => Ret (VInt (Estimate h)) | None => Err OutOfRange end
  | _ => Panic
  end.
Definition hllExtract : binding := fun name args =>
  match args with [x] => x ← coerceTo x TBytes; Ret (set_strict false (callExpr name TInt64 hllExtractFn [x])) | _ => Err InvalidArgument end.

Definition miscFuncs : list (bytes * binding) :=
  [(str "IF", ifBinding); (str "COALESCE", coalesce 1 0); (str "IFNULL", coalesce 2 2); (str "NULLIF", nullif);
   (str "IFERROR", ifError); (str "ISERROR", isError); (str "NULLIFERROR", nullIfError);
   (str "JSON_VALUE", jsonFn TString true jsonScalar); (str "JSON_EXTRACT_SCALAR", jsonFn TString true jsonScalar);
   (str "JSON_QUERY", jsonFn TString false jsonQuery); (str "JSON_EXTRACT", jsonFn TString false jsonQuery);
   (str "JSON_QUERY_ARRAY", jsonFn (TArray TString) true jsonQueryArray); (str "JSON_EXTRACT_ARRAY", jsonFn (TArray TString) true jsonQueryArray);
   (str "JSON_VALUE_ARRAY", jsonFn (TArray TString) true jsonValueArray); (str "JSON_EXTRACT_STRING_ARRAY", jsonFn (TArray TString) true jsonValueArray);
   (str "TO_JSON_STRING", toJSONString); (str "HLL_COUNT.EXTRACT", hllExtract)].
(** The operators IS DISTINCT FROM and IS NOT DISTINCT FROM, always of two operands. *)
Definition distinctFuncs : list (bytes * binding) := [(str "$is_distinct_from", distinctFrom false); (str "$is_not_distinct_from", distinctFrom true)].
End functions.

Example path_example : parseJSONPath (str "$.a[0]." ++ [34] ++ str "b" ++ [34] ++ str "['c']") = Ret [StepKey (str "a"); StepIndex 0; StepKey (str "b"); StepKey (str "c")].
Proof. by vm_compute. Qed.

(** ** Documents *)

(** Induction over a document and the documents in it. *)
Lemma jsonVal_nested (P : jsonVal -> Prop) :
  (forall ms, Forall (fun m => P m.2) ms -> P (JObject ms)) -> (forall vs, Forall P vs -> P (JArray vs)) ->
  (forall v, match v with JObject _ | JArray _ => True | _ => P v end) -> forall v, P v.
Proof.
  intros Ho Ha Hs. fix IH 1. intros v. destruct v as [ms|vs|x|x| | |]; [| |exact (Hs (JString x))|exact (Hs (JNumber x))|exact (Hs JTrue)|exact (Hs JFalse)|exact (Hs JNull)].
  - apply Ho. induction ms as [|[k w] ms IHms]; constructor; [apply IH|exact IHms].
  - apply Ha. induction vs as [|w vs IHvs]; constructor; [apply IH|exact IHvs].
Qed.

(** The tokens of a document. *)
Fixpoint tokensOf (v : jsonVal) : list jsonToken :=
  match v with
  | JObject ms => TokDelim 123 :: (ms ≫= fun m => TokString m.1 :: tokensOf m.2) ++ [TokDelim 125]
  | JArray vs => TokDelim 91 :: (vs ≫= tokensOf) ++ [TokDelim 93]
  | JString s => [TokString s]
  | JNumber s => [TokNumber s]
  | JTrue => [TokBool true]
  | JFalse => [TokBool false]
  | JNull => [TokNull]
  end.
Definition reads (v : jsonVal) : Prop := forall fuel rest, (2 * length (tokensOf v) <= fuel)%nat -> readJSON fuel (tokensOf v ++ rest) = Some (v, rest).

Lemma tokens_more v rest : dec_More (tokensOf v ++ rest) = true /\ (1 <= length (tokensOf v))%nat.
Proof. destruct v; cbn; (split; [done|lia]). Qed.
Lemma read_members ms : Forall (fun m => reads m.2) ms -> forall fuel rest, (2 * length (ms ≫= fun m => TokString m.1 :: tokensOf m.2) + 1 <= fuel)%nat ->
  readMembers fuel ((ms ≫= fun m => TokString m.1 :: tokensOf m.2) ++ TokDelim 125 :: rest) = Some (ms, rest).
Proof.
  induction 1 as [|[k v] ms Hv Hms IH]; intros [|fuel] rest Hf; try (cbn in Hf; lia); [done|]. rewrite bind_cons, length_app in Hf. cbn [fst snd length] in Hf.
  rewrite bind_cons. cbn [fst snd app readMembers dec_More]. rewrite <- app_assoc, Hv by (cbn [snd]; lia). cbn [mbind option_bind]. by rewrite IH by lia.
Qed.
Lemma read_elems vs : Forall reads vs -> forall fuel rest, (2 * length (vs ≫= tokensOf) + 1 <= fuel)%nat -> readElems fuel ((vs ≫= tokensOf) ++ TokDelim 93 :: rest) = Some (vs, rest).
Proof.
  induction 1 as [|v vs Hv Hvs IH]; intros [|fuel] rest Hf; try (cbn in Hf; lia); [done|]. rewrite bind_cons, length_app in Hf. rewrite bind_cons, <- app_assoc. cbn [readElems].
  destruct (tokens_more v ((vs ≫= tokensOf) ++ TokDelim 93 :: rest)) as [-> Hl]. rewrite Hv by lia. cbn [mbind option_bind]. by rewrite IH by lia.
Qed.
(** C31: Every document is read back from its tokens, member by member and in order, within
    the fuel that [parseJSON] allows. *)
Theorem json_read_back (v : jsonVal) : readJSON (readFuel (tokensOf v)) (tokensOf v) = Some (v, []).
Proof.
  rewrite <- (app_nil_r (tokensOf v)) at 2. enough (forall v, reads v) as Hr by (apply Hr; unfold readFuel; lia). clear v.
  apply jsonVal_nested; [intros ms Hms|intros vs Hvs|intros v].
  - intros [|fuel] rest; cbn [tokensOf length app]; rewrite length_app; cbn [length]; [lia|]. intros Hf. cbn [readJSON Z.eqb Pos.eqb]. rewrite <- app_assoc. cbn [app]. by rewrite read_members by (done || lia).
  - intros [|fuel] rest; cbn [tokensOf length app]; rewrite length_app; cbn [length]; [lia|]. intros Hf. cbn [readJSON Z.eqb Pos.eqb]. rewrite <- app_assoc. cbn [app]. by rewrite read_elems by (done || lia).
  - destruct v; try done; intros [|fuel] rest Hf; cbn in Hf; try lia; done.
Qed.

(** Reading consumes tokens. *)
Lemma read_consumes fuel : (forall toks v rest, readJSON fuel toks = Some (v, rest) -> (length rest < length toks)%nat) /\
  (forall toks ms rest, readMembers fuel toks = Some (ms, rest) -> (length rest < length toks)%nat) /\ (forall toks vs rest, readElems fuel toks = Some (vs, rest) -> (length rest < length toks)%nat).
Proof.
  induction fuel as [|fuel (IHj & IHm & IHe)]; [done|]. split_and!.
  - intros [|[c|s|s|b|] toks] v rest; cbn [readJSON length]; try done; try (intros [= <- <-]; lia).
    destruct (c =? 123); [|destruct (c =? 91); [|done]]; intros ([? ?] & Hr & [= <- <-])%bind_Some; [apply IHm in Hr|apply IHe in Hr]; lia.
  - intros toks ms rest; cbn [readMembers]. destruct (dec_More toks).
    + destruct toks as [|[c|k|s|b|] toks]; try done. intros ([? ?] & Hv & ([? ?] & Hr & [= <- <-])%bind_Some)%bind_Some. apply IHj in Hv. apply IHm in Hr. cbn. lia.
    + destruct toks; [done|]. intros [= <- <-]. cbn. lia.
  - intros toks vs rest; cbn [readElems]. destruct (dec_More toks).
    + intros ([? ?] & Hv & ([? ?] & Hr & [= <- <-])%bind_Some)%bind_Some. apply IHj in Hv. apply IHe in Hr. lia.
    + destruct toks; [done|]. intros [= <- <-]. cbn. lia.
Qed.
(** ... so more fuel than [readFuel] changes nothing: the reader terminates by itself. *)
Lemma read_enough fuel : forall fuel', (fuel <= fuel')%nat ->
  (forall toks, (2 * length toks + 1 <= fuel)%nat -> readJSON fuel' toks = readJSON fuel toks) /\
  (forall toks, (2 * length toks + 2 <= fuel)%nat -> readMembers fuel' toks = readMembers fuel toks) /\ (forall toks, (2 * length toks + 2 <= fuel)%nat -> readElems fuel' toks = readElems fuel toks).
Proof.
  induction fuel as [|fuel IH]; intros [|fuel'] Hf; try (split_and!; intros; lia). destruct (IH fuel' ltac:(lia)) as (IHj & IHm & IHe). split_and!.
  - intros [|[c|s|s|b|] toks]; cbn [readJSON length]; intros Hl; try done. by rewrite IHm, IHe by lia.
  - intros toks Hl; cbn [readMembers]. destruct (dec_More toks); [|done]. destruct toks as [|[c|k|s|b|] toks]; try done. cbn [length] in Hl. rewrite IHj by lia. destruct (readJSON fuel toks) as [[v rest]|] eqn:E; [|done]. cbn [mbind option_bind]. apply read_consumes in E. by rewrite IHm by lia.
  - intros toks Hl; cbn [readElems]. destruct (dec_More toks); [|done]. rewrite IHj by lia. destruct (readJSON fuel toks) as [[v rest]|] eqn:E; [|done]. cbn [mbind option_bind]. apply read_consumes in E. by rewrite IHe by lia.
Qed.
Lemma readFuel_enough fuel toks : (readFuel toks <= fuel)%nat -> readJSON fuel toks = readJSON (readFuel toks) toks.
Proof. intros Hf. apply (read_enough (readFuel toks)); [done|]. unfold readFuel. lia. Qed.

(** *** The bytes of documents *)
Fixpoint json_bytesb (v : jsonVal) : bool :=
  match v with
  | JObject ms => forallb (fun m => bytesb m.1 && json_bytesb m.2) ms
  | JArray vs => forallb json_bytesb vs
  | JString s | JNumber s => bytesb s
  | _ => true
  end.
Lemma read_bytes fuel : (forall toks v rest, Forall token_bytes toks -> readJSON fuel toks = Some (v, rest) -> json_bytesb v = true /\ Forall token_bytes rest) /\
  (forall toks ms rest, Forall token_bytes toks -> readMembers fuel toks = Some (ms, rest) -> json_bytesb (JObject ms) = true /\ Forall token_bytes rest) /\
  (forall toks vs rest, Forall token_bytes toks -> readElems fuel toks = Some (vs, rest) -> json_bytesb (JArray vs) = true /\ Forall token_bytes rest).
Proof.
  induction fuel as [|fuel (IHj & IHm & IHe)]; [done|]. split_and!.
  - intros [|t toks] v rest Ht; [done|]. apply Forall_cons in Ht as [Ht Hts]. cbn [readJSON]. destruct t as [c|s|s|b|]; try (intros [= <- <-]; split; [|done]; cbn; by first [apply bytesb_all|destruct b|idtac]).
    destruct (c =? 123); [|destruct (c =? 91); [|done]]; intros ([? ?] & Hr & [= <- <-])%bind_Some; [by eapply IHm|by eapply IHe].
  - intros toks ms rest Ht; cbn [readMembers]. destruct (dec_More toks).
    + destruct toks as [|[c|k|s|b|] toks]; try done. apply Forall_cons in Ht as [Hk Ht]. intros ([? ?] & Hv & ([? ?] & Hr & [= <- <-])%bind_Some)%bind_Some. apply IHj in Hv as [Hv ?]; [|done]. apply IHm in Hr as [Hr ?]; [|done]. split; [|done]. cbn [json_bytesb forallb fst snd] in *. rewrite Hv, Hr. rewrite (proj2 (bytesb_all k) Hk). done.
    + destruct toks; [done|]. apply Forall_cons in Ht as [_ Ht]. by intros [= <- <-].
  - intros toks vs rest Ht; cbn [readElems]. destruct (dec_More toks).
    + intros ([? ?] & Hv & ([? ?] & Hr & [= <- <-])%bind_Some)%bind_Some. apply IHj in Hv as [Hv ?]; [|done]. apply IHe in Hr as [Hr ?]; [|done]. split; [|done]. cbn [json_bytesb forallb] in *. by rewrite Hv, Hr.
    + destruct toks; [done|]. apply Forall_cons in Ht as [_ Ht]. by intros [= <- <-].
Qed.
Lemma parseJSON_bytes `{Json} b v : parseJSON b = Some v -> json_bytesb v = true.
Proof.
  unfold parseJSON. pose proof (json_Tokens_bytes b) as Hb. destruct (json_Tokens b) as [toks atEOF]. destruct (readJSON _ toks) as [[w [|]]|] eqn:E; try done. destruct atEOF; [|done]. intros [= <-]. by eapply read_bytes.
Qed.
Lemma navigate_bytes steps : forall v w, json_bytesb v = true -> navigate v steps = Some w -> json_bytesb w = true.
Proof.
  induction steps as [|[k|i] steps IH]; intros v w Hv; cbn [navigate]; [by intros [= <-]| |].
  - destruct v as [ms| | | | | |]; try done. intros (m & Hm & Hn)%bind_Some. eapply IH; [|exact Hn]. apply find_some in Hm as [Hm _]. cbn in Hv. rewrite forallb_forall in Hv. by apply Hv, andb_prop in Hm as [_ ?].
  - destruct v as [|vs| | | | |]; try done. intros (x & Hx & Hn)%bind_Some. eapply IH; [|exact Hn]. cbn in Hv. rewrite forallb_forall in Hv. apply Hv. by apply list_elem_of_In, (list_elem_of_lookup_2 _ (Z.to_nat i)).
Qed.
Lemma serialize_bytes v : json_bytesb v = true -> all_bytes (serialize v).
Proof.
  revert v. apply (jsonVal_nested (fun v => json_bytesb v = true -> all_bytes (serialize v))); [intros ms Hms Hv|intros vs Hvs Hv|intros v].
  - cbn [serialize]. apply app_bytes; [by apply str_bytes|]. apply app_bytes; [|by apply str_bytes]. apply joinParts_bytes; [by apply str_bytes|]. apply Forall_fmap. cbn in Hv. induction Hms as [|m ms Hm Hms IH]; constructor.
    + cbn in Hv. apply andb_prop in Hv as [[_ Hv]%andb_prop _]. cbn beta. change (all_bytes (jsonQuote m.1 ++ str ":" ++ serialize m.2)). apply app_bytes; [apply jsonQuote_bytes|]. apply app_bytes; [by apply str_bytes|by apply Hm].
    + apply IH. cbn in Hv. by apply andb_prop in Hv as [_ ?].
  - cbn [serialize]. apply app_bytes; [by apply str_bytes|]. apply app_bytes; [|by apply str_bytes]. apply joinParts_bytes; [by apply str_bytes|]. apply Forall_fmap. cbn in Hv. induction Hvs as [|v vs Hx Hvs IH]; constructor; cbn in Hv; apply andb_prop in Hv as [? ?]; auto.
  - destruct v; try done; cbn; intros Hs; first [apply jsonQuote_bytes|by apply bytesb_all|by apply str_bytes].
Qed.

(** *** Paths *)
Lemma cutByte_shorter c s : forall a b, cutByte c s = Some (a, b) -> (length b < length s)%nat.
Proof. induction s as [|x s IH]; intros a b; cbn; [done|]. destruct (x =? c); [intros [= <- <-]; lia|]. intros ([? ?] & Hc & [= <- <-])%bind_Some. apply IH in Hc. lia. Qed.
Lemma span_shorter (f : Z -> bool) (l : bytes) : (length (span f l).2 <= length l)%nat.
Proof. induction l as [|x l IH]; cbn; [done|]. destruct (f x); [|done]. destruct (span f l). cbn in *. lia. Qed.
Lemma pathSteps_safe fuel : forall p, (length p < fuel)%nat -> pathSteps fuel p <> Panic.
Proof.
  induction fuel as [|fuel IH]; intros p Hl; [lia|]. destruct p as [|c p]; [done|].
  assert (forall (q : bytes) (st : jsonStep), (length q <= length p)%nat -> (steps ← pathSteps fuel q; Ret (st :: steps)) <> Panic) as Hk.
  { intros q st Hq. cbn in Hl. pose proof (IH q ltac:(lia)). by destruct (pathSteps fuel q). }
  assert (forall q : bytes, (length q <= length p)%nat -> (let '(k, rest) := span (fun c => negb ((c =? 46) || (c =? 91))) q in
    if bool_decide (k = []) || bool_decide (k = str "*") then Err OutOfRange else steps ← pathSteps fuel rest; Ret (StepKey k :: steps)) <> Panic) as Hdot.
  { intros q Hq. pose proof (span_shorter (fun c => negb ((c =? 46) || (c =? 91))) q). destruct (span _ q) as [k rest]. cbn in *. destruct (bool_decide (k = []) || _); [done|]. apply Hk. lia. }
  destruct (decide (c = 46)) as [->|H46].
  - cbn [pathSteps]. destruct p as [|d p]; [by apply (Hdot [])|]. destruct (decide (d = 34)) as [->|H34].
    + destruct (cutByte 34 p) as [[k rest]|] eqn:E; [|done]. apply cutByte_shorter in E. apply Hk. cbn. lia.
    + specialize (Hdot (d :: p) ltac:(lia)). repeat (case_match; try done); exact Hdot.
  - destruct (decide (c = 91)) as [->|H91]; [|cbn [pathSteps]; repeat (case_match; try done); subst; done].
    cbn [pathSteps]. destruct (cutByte 93 p) as [[inner rest]|] eqn:E; [|done]. apply cutByte_shorter in E. cbn zeta. destruct (quotedStep _); [apply Hk; lia|]. destruct (Atoi _); [|done]. destruct (_ <? 0); [done|]. apply Hk; lia.
Qed.
Lemma parseJSONPath_safe p : parseJSONPath p <> Panic.
Proof. unfold parseJSONPath. destruct p as [|c p]; [done|]. repeat (case_match; try done). subst. apply pathSteps_safe. lia. Qed.

(** ** The tables are well-formed *)

Section functions_ok.
Context `{Json} `{TimeZones} `{Strconv} `{Estimator} (G : tenv).

Lemma string_typed s : all_bytes s -> has_type (VString s) TString = true.
Proof. apply bytesb_all. Qed.
Lemma jsonScalar_typed v : json_bytesb v = true -> has_type (jsonScalar v) TString = true.
Proof. by destruct v. Qed.
Lemma jsonQuery_typed v : json_bytesb v = true -> has_type (jsonQuery v) TString = true.
Proof. intros. by apply string_typed, serialize_bytes. Qed.
Lemma jsonQueryArray_typed v : json_bytesb v = true -> has_type (jsonQueryArray v) (TArray TString) = true.
Proof. destruct v as [|vs| | | | |]; try done. cbn [json_bytesb]. intros Hv. cbn. apply forallb_forall. intros x (e & <- & He)%in_map_iff. apply jsonQuery_typed. rewrite forallb_forall in Hv. by apply Hv. Qed.
Lemma jsonValueArray_typed v : json_bytesb v = true -> has_type (jsonValueArray v) (TArray TString) = true.
Proof.
  destruct v as [|vs| | | | |]; try done. cbn [json_bytesb jsonValueArray]. intros Hv. destruct (existsb _ vs); [done|]. cbn. apply forallb_forall. intros x (e & <- & He)%in_map_iff. apply jsonScalar_typed. rewrite forallb_forall in Hv. by apply Hv.
Qed.
Lemma jsonEval_yields fn ret doc rest : (forall v, json_bytesb v = true -> has_type (fn v) ret = true) -> rest = [] \/ (exists p, rest = [VString p]) -> yields (jsonEval fn (doc :: rest)) ret.
Proof.
  intros Hf Hr. unfold jsonEval. assert (exists p, match rest with [] => Ret (str "$") | [VString p] => Ret p | _ => Panic end = Ret p) as [p ->] by (destruct Hr as [->|[p ->]]; eauto). cbn [mbind outcome_bind].
  pose proof (parseJSONPath_safe p). destruct (parseJSONPath p) as [steps| |]; try done. cbn [mbind outcome_bind yields]. destruct (parseJSON (asBytes doc)) as [root|] eqn:Ep; [|by destruct ret].
  destruct (navigate root steps) as [v|] eqn:En; [|by destruct ret]. eapply Hf, navigate_bytes; [|exact En]. by eapply parseJSON_bytes.
Qed.
Lemma typed_string v : has_type v TString = true -> v <> VNull -> exists s, v = VString s.
Proof. destruct v; try done. eauto. Qed.
Lemma exactArgs_range args lo hi : negb (exactArgs args lo hi) = false -> (lo <= length args <= hi)%nat.
Proof. intros Hx%negb_false_iff. by apply exactArgs_length. Qed.
Lemma jsonFn_ok name ret d fn : operatorOf name = None -> (forall v, json_bytesb v = true -> has_type (fn v) ret = true) -> func_ok G (name, jsonFn ret d fn).
Proof.
  intros Hn Hf args Hargs. cbn [fst snd]. unfold jsonFn. destruct (negb _) eqn:Ex; [done|]. apply exactArgs_range in Ex. destruct args as [|doc rest]; [destruct d; cbn in Ex; lia|]. apply Forall_cons in Hargs as [Hdoc Hrest].
  apply (binds_bind G _ (wf G)). { destruct (canCoerce doc TString) eqn:Ec; [|by destruct (e_typ doc)]. pose proof (coerceOr_text G doc TString (or_introl eq_refl) Hdoc Ec) as Hb. destruct (coerceOr doc TString); [apply Hb|done|done]. }
  intros doc' Hd. assert (forall ps, Forall (wf G) ps -> ps = [] \/ (exists q, ps = [q] /\ typesEqual (e_typ q) TString = true) -> binds G (Ret (callExpr name ret (jsonEval fn) (doc' :: ps)))) as Hb.
  { intros ps Hps Hc. apply wf_call; [by constructor|by apply plain_name|]. intros vs Hvs Hnull%no_nulls. inversion Hvs as [|v ? vs' ? Hv Hvs']; subst. apply jsonEval_yields; [done|]. destruct Hc as [->|(q & -> & Hq)]; [left; by inversion Hvs'|right]. apply vals1 in Hvs' as (w & -> & Hw).
    apply Forall_cons in Hnull as [_ Hnull]. apply Forall_cons in Hnull as [Hnull _]. destruct (typed_string w) as [s ->]; [by eapply has_type_equal|done|by eexists]. }
  destruct rest as [|q [|]]; cbn [collectM mbind outcome_bind]; [by apply Hb; [constructor|left]| |cbn in Ex; lia].
  apply Forall_cons in Hrest as [Hq _]. pose proof (coerceTo_as G q TString Hq) as Hc. destruct (coerceTo q TString) as [q'| |]; cbn [mbind outcome_bind]; try done. destruct Hc. apply Hb; [by apply all1|right; by eexists].
Qed.
Lemma toJSONFn_yields t v rest : has_type v t = true -> yields (toJSONFn t (v :: rest)) TString.
Proof.
  intros Hv. cbn [toJSONFn]. pose proof (toJSON_texts v t Hv) as Ht. destruct (toJSON v t) as [s| |]; cbn [mbind outcome_bind] in *; try done. apply string_typed. cbn in Ht.
  destruct rest as [|[| [] | | | | | | | | | ] ?]; try done. destruct (json_Indent s) eqn:Ei; [by eapply json_Indent_bytes|done].
Qed.
Lemma toJSONString_ok name : operatorOf name = None -> func_ok G (name, toJSONString).
Proof.
  intros Hn args Hargs. cbn [fst snd]. unfold toJSONString. destruct (negb _) eqn:Ex; [done|]. apply exactArgs_range in Ex. destruct args as [|x rest]; [by cbn in Ex; lia|]. apply Forall_cons in Hargs as [Hx Hrest].
  assert (forall ps, Forall (wf G) ps -> binds G (Ret (set_strict false (callExpr name TString (toJSONFn (e_typ x)) (x :: ps))))) as Hb.
  { intros ps Hps. apply wf_call_lax; [by constructor|done|]. intros vs Hvs. inversion Hvs as [|v ? vs' ? Hv Hvs']; subst. by apply toJSONFn_yields. }
  destruct rest as [|q [|]]; cbn [collectM mbind outcome_bind]; [by apply Hb| |cbn in Ex; lia].
  apply Forall_cons in Hrest as [Hq _]. pose proof (coerceTo_as G q TBool Hq) as Hc. destruct (coerceTo q TBool) as [q'| |]; cbn [mbind outcome_bind]; try done. destruct Hc. apply Hb. by apply all1.
Qed.

Lemma if_ok : func_ok G (str "IF", ifBinding).
Proof.
  intros args Hargs. cbn [fst snd]. unfold ifBinding. destruct args as [|c [|x [|y []]]]; try done. rewrite !Forall_cons in Hargs. destruct Hargs as (Hc & Hx & Hy & _).
  coerced_by (coerceTo_as G c TBool Hc). apply common_binds'. intros t. apply coerceAll_binds; [by apply all2|]. intros [|x' [|y' []]] Hout Ht Hl; try done. apply wf_lazy; [by constructor|by apply plain_name|].
  intros now rs _ Hrs. inversion Hrs as [|cr ? rs' ? Hcr Hrs']; subst. apply vals2 in Hrs' as (xr & yr & -> & Hxr & Hyr). rewrite !Forall_cons in Ht. destruct Ht as (Htx & Hty & _). cbn [evalIf]. destruct cr as [v| |]; cbn [mbind outcome_bind]; try done.
  destruct v as [| [] | | | | | | | | | ]; first [by eapply yields_equal; [exact Htx|]|by eapply yields_equal; [exact Hty|]].
Qed.
Lemma evalCoalesce_yields now rs t : Forall (fun r => yields r t) rs -> yields (evalCoalesce now rs) t.
Proof. induction 1 as [|r rs Hr Hrs IH]; cbn; [by destruct t|]. destruct r as [v| |]; cbn; try done. by destruct (isNull v). Qed.
Lemma coalesce_ok name lo hi : operatorOf name = None -> func_ok G (name, coalesce lo hi).
Proof.
  intros Hn args Hargs. cbn [fst snd]. unfold coalesce. destruct (Nat.ltb (length args) lo || _); [done|]. apply common_binds'. intros t. apply coerceAll_binds; [done|]. intros out Hout Ht _. apply wf_lazy; [done|by apply plain_name|].
  intros now rs _ Hrs. by eapply evalCoalesce_yields, results_typed.
Qed.
Lemma two_args (out args : list bexpr) : negb (exactArgs args 2 2) = false -> length out = length args -> exists x y, out = [x; y].
Proof. intros Hx%exactArgs_range Hl. destruct out as [|x [|y []]]; cbn in Hl; try lia. by eexists _, _. Qed.
Lemma nullif_ok name : func_ok G (name, nullif).
Proof.
  intros args Hargs. cbn [fst snd]. unfold nullif. destruct (negb _) eqn:Ex; [done|]. apply common_binds'. intros t. destruct (negb (equalityComparable t)); [done|]. apply coerceAll_binds; [done|]. intros out Hout Ht Hl. destruct (two_args out args Ex Hl) as (x & y & ->). apply wf_call_lax; [done|done|].
  intros vs Hvs. apply vals2 in Hvs as (v & w & -> & Hv & Hw). rewrite !Forall_cons in Ht. destruct Ht as (Htx & Hty & _). apply (has_type_equal _ _ _ Htx) in Hv. apply (has_type_equal _ _ _ Hty) in Hw. cbn [nullifFn]. destruct (isNull v); [by destruct t|].
  destruct (sqlEquals_typed v w t Hv Hw) as [r ->]. cbn. destruct r as [[]|]; cbn; try done.
Qed.
Lemma ifError_ok name : func_ok G (name, ifError).
Proof.
  intros args Hargs. cbn [fst snd]. unfold ifError. destruct (negb _) eqn:Ex; [done|]. apply common_binds'. intros t. apply coerceAll_binds; [done|]. intros out Hout Ht Hl. destruct (two_args out args Ex Hl) as (x & y & ->). apply wf_lazy; [done|by apply plain_name|].
  intros now rs _ Hrs. pose proof (results_typed _ _ _ Hrs Ht) as Hy. apply Forall2_length in Hrs. destruct rs as [|xr [|yr []]]; try done. rewrite !Forall_cons in Hy. destruct Hy as (Hx & Hy & _). cbn. destruct xr; try done. by destruct (isEvalError _).
Qed.
Lemma isError_ok name : func_ok G (name, isError).
Proof.
  intros args Hargs. cbn [fst snd]. unfold isError. destruct args as [|x []]; try done. apply wf_lazy; [done|by apply plain_name|]. intros now rs _ Hrs. inversion Hrs as [|r ? ? ? Hr Hn]; subst. inversion Hn; subst. cbn. destruct r; try done. by destruct (isEvalError _).
Qed.
Lemma nullIfError_ok name : func_ok G (name, nullIfError).
Proof.
  intros args Hargs. cbn [fst snd]. unfold nullIfError. destruct args as [|x []]; try done. apply wf_lazy; [done|by apply plain_name|]. intros now rs _ Hrs. inversion Hrs as [|r ? ? ? Hr Hn]; subst. inversion Hn; subst. cbn. destruct r; try done. by destruct (isEvalError _), (e_typ x).
Qed.
Lemma hllExtract_ok name : operatorOf name = None -> func_ok G (name, hllExtract).
Proof.
  intros Hn args Hargs. cbn [fst snd]. unfold hllExtract. destruct args as [|x []]; try done. apply Forall_cons in Hargs as [Hx _]. coerced_by (coerceTo_as G x TBytes Hx). apply wf_call_lax; [by apply all1|done|]. intros vs Hvs. apply vals1 in Hvs as (v & -> & Hv).
  match goal with Ht : typesEqual _ TBytes = true |- _ => apply (has_type_equal _ _ _ Ht) in Hv end. destruct v; try done. cbn. destruct (DecodeHLL _); [|done]. apply is_int64b_spec, Estimate_int64.
Qed.
(** IS [NOT] DISTINCT FROM, of two operands. *)
Lemma distinctFrom_binds neg name x y : operatorOf name = None -> wf G x -> wf G y -> binds G (distinctFrom neg name [x; y]).
Proof.
  intros Hn Hx Hy. unfold distinctFrom. apply common_binds'. intros t. destruct (negb (equalityComparable t)); [done|]. apply coerceAll_binds; [by apply all2|]. intros [|x' [|y' []]] Hout Ht Hl; try done. apply wf_call_lax; [done|done|].
  intros vs Hvs. apply vals2 in Hvs as (v & w & -> & Hv & Hw). rewrite !Forall_cons in Ht. destruct Ht as (Htx & Hty & _). apply (has_type_equal _ _ _ Htx) in Hv. apply (has_type_equal _ _ _ Hty) in Hw. cbn [distinctFn]. destruct (isNull v || isNull w); [done|].
  destruct (bool_decide _); [done|]. destruct (sqlEquals_typed v w t Hv Hw) as [r ->]. by destruct r as [[]|].
Qed.

Lemma miscFuncs_ok : Forall (func_ok G) miscFuncs.
Proof.
  unfold miscFuncs. repeat (apply Forall_cons; split); try apply Forall_nil_2.
  - apply if_ok.
  - by apply coalesce_ok.
  - by apply coalesce_ok.
  - apply nullif_ok.
  - apply ifError_ok.
  - apply isError_ok.
  - apply nullIfError_ok.
  - apply jsonFn_ok; [done|apply jsonScalar_typed].
  - apply jsonFn_ok; [done|apply jsonScalar_typed].
  - apply jsonFn_ok; [done|apply jsonQuery_typed].
  - apply jsonFn_ok; [done|apply jsonQuery_typed].
  - apply jsonFn_ok; [done|apply jsonQueryArray_typed].
  - apply jsonFn_ok; [done|apply jsonQueryArray_typed].
  - apply jsonFn_ok; [done|apply jsonValueArray_typed].
  - apply jsonFn_ok; [done|apply jsonValueArray_typed].
  - by apply toJSONString_ok.
  - by apply hllExtract_ok.
Qed.
End functions_ok.
