(* ===== verification/FuncsTime.v ===== *)
(** * Date and time functions

    The functions of [internal/gsql/funcs_time.go].  Those with a date part or an INTERVAL
    get unbound arguments: their bodies are here, as expressions built from bound
    arguments and a part; the binder (Binder.v) finds the parts. *)

From stdpp Require Import base list.
From Stdlib Require Import ZArith Lia.
From Stdlib Require Import Floats.SpecFloat.
From S2P Require Import Prelude Proto Rows Server Tokens Lexer SqlValues SqlFloat SqlArith SqlTime SqlDates SqlOps SqlCast Bexpr BindOps Funcs FuncsMath FuncsArray SqlText TimeFmt.

#[local] Open Scope Z_scope.

(** ** Parts *)

Definition tsAddParts : list bytes := [str "MICROSECOND"; str "MILLISECOND"; str "SECOND"; str "MINUTE"; str "HOUR"; str "DAY"].
Definition tsTruncParts : list bytes := [str "MICROSECOND"; str "MILLISECOND"; str "SECOND"; str "MINUTE"; str "HOUR"; str "DAY"; str "WEEK"; str "ISOWEEK"; str "MONTH"; str "QUARTER"; str "YEAR"; str "ISOYEAR"].
Definition dateAddParts : list bytes := [str "DAY"; str "WEEK"; str "MONTH"; str "QUARTER"; str "YEAR"].
Definition dateDiffParts : list bytes := [str "DAY"; str "WEEK"; str "ISOWEEK"; str "MONTH"; str "QUARTER"; str "YEAR"; str "ISOYEAR"].
Definition lastDayParts : list bytes := [str "WEEK"; str "ISOWEEK"; str "MONTH"; str "QUARTER"; str "YEAR"; str "ISOYEAR"].
Definition extractTS : list bytes := [str "MICROSECOND"; str "MILLISECOND"; str "SECOND"; str "MINUTE"; str "HOUR"; str "DAYOFWEEK"; str "DAY"; str "DAYOFYEAR"; str "WEEK"; str "ISOWEEK"; str "MONTH"; str "QUARTER"; str "YEAR"; str "ISOYEAR"; str "DATE"].
Definition extractDate : list bytes := [str "DAYOFWEEK"; str "DAY"; str "DAYOFYEAR"; str "WEEK"; str "ISOWEEK"; str "MONTH"; str "QUARTER"; str "YEAR"; str "ISOYEAR"].
(** [datePart.String]. *)
Definition partName (dp : datePart) : bytes :=
  if bool_decide (dp_name dp = str "WEEK") && negb (dp_weekday dp =? 0) then str "WEEK(" ++ (upperByte <$> nth (Z.to_nat (dp_weekday dp)) weekdayNames []) ++ str ")" else dp_name dp.
Definition plainPart (name : bytes) : datePart := mkDatePart name 0.

Section functions.
Context `{TimeZones} `{Strconv}.

Definition zoneArg (v : value) : outcome Location := match v with VNull => Ret UTC | VString s => loadZone s | _ => Panic end.
(** An optional last argument with a time zone. *)
Definition zoneOf (rest : list value) : outcome Location := match rest with [] => Ret UTC | v :: _ => zoneArg v end.
Definition asTs (r : outcome Z) : outcome value := ts ← r; Ret (VTs ts).
Definition asDate (r : outcome Z) : outcome value := d ← r; Ret (VDate d).
(** An error of a parser becomes an evaluation error. *)
Definition evalError {A : Type} (r : outcome A) : outcome A := match r with Err _ => Err OutOfRange | r => r end.

(** ** Conversions *)

Definition timestampStringFn (a : list value) : outcome value :=
  match a with VString s :: rest => loc ← zoneOf rest; asTs (evalError (parseTimestampString s loc)) | _ => Panic end.
Definition timestampDateFn (a : list value) : outcome value :=
  match a with v :: rest => loc ← zoneOf rest; castValue v TDate TTimestamp loc | _ => Panic end.
Definition dateFn (a : list value) : outcome value :=
  match a with
  | [VInt y; VInt m; VInt d] =>
      if (m <? 1) || (12 <? m) || (d <? 1) || (y <? 1) || (9999 <? y) || (daysIn m y <? d) then Err OutOfRange else asDate (dateFromYMD y m d)
  | _ => Panic
  end.
Definition dateTimestampFn (a : list value) : outcome value :=
  match a with VTs ts :: rest => loc ← zoneOf rest; asDate (dateFromTime (tm_In (ts_time ts) loc)) | _ => Panic end.
Definition dateStringFn (v : value) : outcome value := match v with VString s => asDate (evalError (parseDateString s)) | _ => Panic end.
Definition timesMicrosFn (m : Z) (v : value) : outcome value := match v with VInt n => r ← evalError (mulInt64 n m); asTs (checkTimestamp r) | _ => Panic end.
Definition timestampMicrosFn (v : value) : outcome value := match v with VInt n => asTs (checkTimestamp n) | _ => Panic end.
Definition unixFn (d : Z) (v : value) : outcome value := match v with VTs ts => Ret (VInt (wrap64 (floorDiv ts d))) | _ => Panic end.
Definition unixDateFn (v : value) : outcome value := match v with VDate d => Ret (VInt d) | _ => Panic end.
Definition dateFromUnixFn (v : value) : outcome value := match v with VInt n => asDate (checkDate n) | _ => Panic end.
Definition stringFn (a : list value) : outcome value := match a with VTs ts :: rest => loc ← zoneOf rest; Ret (VString (formatTimestamp ts loc)) | _ => Panic end.
Definition formatTimestampFn (a : list value) : outcome value :=
  match a with
  | VString f :: VTs ts :: rest => loc ← zoneOf rest; s ← formatTime (formatFuel f) f (tm_In (ts_time ts) loc) (floorMod ts 1000000); Ret (VString s)
  | _ => Panic
  end.
Definition formatDateFn (f d : value) : outcome value := match f, d with VString f, VDate d => s ← formatTime (formatFuel f) f (dateTime d) 0; Ret (VString s) | _, _ => Panic end.
(** [t.UnixMicro()] wraps around. *)
Definition parseTimestampFn (a : list value) : outcome value :=
  match a with VString f :: VString s :: rest => loc ← zoneOf rest; t ← parseTimeFormat f s loc; asTs (checkTimestamp (wrap64 (UnixMicro t))) | _ => Panic end.
Definition parseDateFn (f s : value) : outcome value := match f, s with VString f, VString s => t ← parseTimeFormat f s UTC; asDate (dateFromTime t) | _, _ => Panic end.

Definition evalNow (now : Z) (args : list (outcome value)) : outcome value := Ret (VTs now).
Definition evalToday (now : Z) (args : list (outcome value)) : outcome value :=
  match args with
  | [] => asDate (dateFromTime (ts_time now))
  | r :: _ => v ← r; if isNull v then Ret VNull else loc ← zoneArg v; asDate (dateFromTime (tm_In (ts_time now) loc))
  end.
Definition currentTimestamp : binding := fun name args => match args with [] => Ret (lazyExpr (str "CURRENT_TIMESTAMP") TTimestamp evalNow []) | _ => Err InvalidArgument end.
Definition currentDate : binding := fun name args =>
  match args with
  | [] => Ret (lazyExpr (str "CURRENT_DATE") TDate evalToday [])
  | [tz] => tz ← coerceTo tz TString; Ret (lazyExpr (str "CURRENT_DATE") TDate evalToday [tz])
  | _ => Err InvalidArgument
  end.

Definition fromUnix (m : Z) : binding := bySigs [s1 TInt64 TTimestamp (timesMicrosFn m); s1 TTimestamp TTimestamp Ret].
Definition toUnix (d : Z) : binding := bySigs [s1 TTimestamp TInt64 (unixFn d)].
Definition withZone (args : list sqlType) (ret : sqlType) (fn : evaluator) : sig := mkSig (args ++ [TString]) (length args) false ret fn false.
Definition timeFuncs : list (bytes * binding) :=
  [(str "CURRENT_TIMESTAMP", currentTimestamp); (str "CURRENT_DATE", currentDate);
   (str "TIMESTAMP", bySigs [withZone [TString] TTimestamp timestampStringFn; withZone [TDate] TTimestamp timestampDateFn]);
   (str "DATE", bySigs [mkSig [TInt64; TInt64; TInt64] 0 false TDate dateFn false; withZone [TTimestamp] TDate dateTimestampFn; s1 TDate TDate Ret; s1 TString TDate dateStringFn]);
   (str "TIMESTAMP_MICROS", bySigs [s1 TInt64 TTimestamp timestampMicrosFn]);
   (str "TIMESTAMP_MILLIS", bySigs [s1 TInt64 TTimestamp (timesMicrosFn 1000)]);
   (str "TIMESTAMP_SECONDS", bySigs [s1 TInt64 TTimestamp (timesMicrosFn 1000000)]);
   (str "TIMESTAMP_FROM_UNIX_MICROS", fromUnix 1); (str "TIMESTAMP_FROM_UNIX_MILLIS", fromUnix 1000); (str "TIMESTAMP_FROM_UNIX_SECONDS", fromUnix 1000000);
   (str "UNIX_MICROS", toUnix 1); (str "UNIX_MILLIS", toUnix 1000); (str "UNIX_SECONDS", toUnix 1000000);
   (str "UNIX_DATE", bySigs [s1 TDate TInt64 unixDateFn]); (str "DATE_FROM_UNIX_DATE", bySigs [s1 TInt64 TDate dateFromUnixFn]);
   (str "STRING", bySigs [withZone [TTimestamp] TString stringFn]);
   (str "FORMAT_TIMESTAMP", bySigs [withZone [TString; TTimestamp] TString formatTimestampFn]); (str "FORMAT_DATE", bySigs [s2 TString TDate TString formatDateFn]);
   (str "PARSE_TIMESTAMP", bySigs [withZone [TString; TString] TTimestamp parseTimestampFn]); (str "PARSE_DATE", bySigs [s2 TString TString TDate parseDateFn])].

(** ** Functions of a date part *)

Definition partExpr (name : bytes) (t : sqlType) (extra : bytes) (fn : evaluator) (args : list bexpr) : bexpr := set_extra extra (callExpr name t fn args).

Definition tsDiffFn (u : Z) (a : list value) : outcome value := match a with [VTs x; VTs y] => Ret (VInt (Z.quot (wrap64 (x - y)) u)) | _ => Panic end.
Definition tsDiff (dp : datePart) (x y : bexpr) : bexpr := partExpr (str "TIMESTAMP_DIFF") TInt64 (partName dp) (tsDiffFn (default 0 (unitMicros (dp_name dp)))) [x; y].
Definition dateDiffFn (dp : datePart) (a : list value) : outcome value := match a with [VDate x; VDate y] => Ret (VInt (wrap64 (dateDiff x y dp))) | _ => Panic end.
Definition dateDiffExpr (dp : datePart) (x y : bexpr) : bexpr := partExpr (str "DATE_DIFF") TInt64 (partName dp) (dateDiffFn dp) [x; y].
Definition tsTruncFn (dp : datePart) (a : list value) : outcome value := match a with VTs ts :: rest => loc ← zoneOf rest; asTs (truncTimestamp ts dp loc) | _ => Panic end.
Definition tsTrunc (dp : datePart) (x : bexpr) (tz : option bexpr) : bexpr := partExpr (str "TIMESTAMP_TRUNC") TTimestamp (partName dp) (tsTruncFn dp) (x :: option_list tz).
Definition dateTruncFn (dp : datePart) (a : list value) : outcome value := match a with [VDate d] => Ret (VDate (truncDate d dp)) | _ => Panic end.
Definition dateTrunc (dp : datePart) (x : bexpr) : bexpr := partExpr (str "DATE_TRUNC") TDate (partName dp) (dateTruncFn dp) [x].
Definition lastDayFn (dp : datePart) (a : list value) : outcome value := match a with [VDate d] => asDate (lastDay d dp) | _ => Panic end.
Definition lastDayExpr (dp : datePart) (x : bexpr) : bexpr := partExpr (str "LAST_DAY") TDate (partName dp) (lastDayFn dp) [x].

Definition optInt (r : option Z) : value := match r with Some n => VInt (wrap64 n) | None => VNull end.
Definition extractTsFn (dp : datePart) (a : list value) : outcome value :=
  match a with
  | VTs ts :: rest =>
      loc ← zoneOf rest;
      let t := tm_In (ts_time ts) loc in
      if bool_decide (dp_name dp = str "DATE") then asDate (dateFromTime t) else Ret (optInt (extractPart t (floorMod ts 1000000) dp))
  | _ => Panic
  end.
Definition extractTsExpr (dp : datePart) (x : bexpr) (tz : option bexpr) : bexpr :=
  partExpr (str "EXTRACT") (if bool_decide (dp_name dp = str "DATE") then TDate else TInt64) (partName dp) (extractTsFn dp) (x :: option_list tz).
Definition extractDateFn (dp : datePart) (a : list value) : outcome value := match a with [VDate d] => Ret (optInt (extractPart (dateTime d) 0 dp)) | _ => Panic end.
Definition extractDateExpr (dp : datePart) (x : bexpr) : bexpr := partExpr (str "EXTRACT") TInt64 (partName dp) (extractDateFn dp) [x].

(** The loops of GENERATE_DATE_ARRAY and GENERATE_TIMESTAMP_ARRAY, with room for a million elements. *)
Fixpoint genDates (room : nat) (s step e : Z) (unit : bytes) (i : Z) : outcome (list value) :=
  match addDate s (wrap64 (step * i)) unit with
  | Ret d =>
      if (0 <? step) && (e <? d) || (step <? 0) && (d <? e) then Ret []
      else match room with O => Err OutOfRange | S room' => rest ← genDates room' s step e unit (i + 1); Ret (VDate d :: rest) end
  | Err _ => Ret []
  | Panic => Panic
  end.
Definition genDatesFn (unit : bytes) (a : list value) : outcome value :=
  let gen (s e step : Z) := if step =? 0 then Err OutOfRange else l ← genDates maxGenerated s step e unit 0; Ret (VArray l) in
  match a with [VDate s; VDate e] => gen s e 1 | [VDate s; VDate e; VInt step] => gen s e step | _ => Panic end.
Definition genDatesExpr (unit : bytes) (x y : bexpr) (step : option bexpr) : bexpr := partExpr (str "GENERATE_DATE_ARRAY") (TArray TDate) unit (genDatesFn unit) (x :: y :: option_list step).
Fixpoint genTimestamps (room : nat) (step e : Z) (unit : bytes) (cur : Z) : outcome (list value) :=
  if (0 <? step) && (cur <=? e) || (step <? 0) && (e <=? cur) then
    match room with
    | O => Err OutOfRange
    | S room' =>
        match addTimestamp cur step unit with
        | Ret next => rest ← genTimestamps room' step e unit next; Ret (VTs cur :: rest)
        | Err _ => Ret [VTs cur]
        | Panic => Panic
        end
    end
  else Ret [].
Definition genTimestampsFn (unit : bytes) (a : list value) : outcome value :=
  match a with [VTs s; VTs e; VInt step] => if step =? 0 then Err OutOfRange else l ← genTimestamps maxGenerated step e unit s; Ret (VArray l) | _ => Panic end.
Definition genTimestampsExpr (unit : bytes) (x y step : bexpr) : bexpr := partExpr (str "GENERATE_TIMESTAMP_ARRAY") (TArray TTimestamp) unit (genTimestampsFn unit) [x; y; step].
End functions.

(** ** The table and the builders are well-formed *)

Section functions_ok.
Context `{TimeZones} `{Strconv} (G : tenv).

Definition zoned (rest : list value) : Prop := rest = [] \/ exists s, rest = [VString s].
Lemma zoneOf_safe rest : zoned rest -> zoneOf rest <> Panic.
Proof. intros [->|[s ->]]; [done|apply loadZone_safe]. Qed.
Lemma zoned_yields rest t (f : Location -> outcome value) : zoned rest -> (forall loc, yields (f loc) t) -> yields (loc ← zoneOf rest; f loc) t.
Proof. intros Hr Hf. pose proof (zoneOf_safe rest Hr). destruct (zoneOf rest); [apply Hf|done|done]. Qed.

Lemma asTs_yields r : r <> Panic -> (forall ts, r = Ret ts -> is_int64b ts = true) -> yields (asTs r) TTimestamp.
Proof. intros Hp Ht. destruct r as [ts| |]; cbn; [by apply Ht|done|done]. Qed.
Lemma asDate_yields r : r <> Panic -> (forall d, r = Ret d -> is_int32b d = true) -> yields (asDate r) TDate.
Proof. intros Hp Ht. destruct r as [d| |]; cbn; [by apply Ht|done|done]. Qed.
Lemma checkTimestamp_yields n : yields (asTs (checkTimestamp n)) TTimestamp.
Proof. apply asTs_yields; [apply checkTimestamp_safe|apply checkTimestamp_typed]. Qed.
Lemma checkDate_yields n : yields (asDate (checkDate n)) TDate.
Proof. apply asDate_yields; [apply checkDate_safe|apply checkDate_typed]. Qed.
Lemma dateFromYMD_yields y m d : yields (asDate (dateFromYMD y m d)) TDate.
Proof. apply checkDate_yields. Qed.
Lemma dateFromTime_yields t : yields (asDate (dateFromTime t)) TDate.
Proof. unfold dateFromTime. destruct (tm_Date t) as [[y m] d]. apply dateFromYMD_yields. Qed.
Lemma evalError_safe {A : Type} (r : outcome A) : r <> Panic -> evalError r <> Panic.
Proof. by destruct r. Qed.
Lemma evalError_Ret {A : Type} (r : outcome A) a : evalError r = Ret a -> r = Ret a.
Proof. by destruct r. Qed.
Lemma parseDateString_safe s : parseDateString s <> Panic.
Proof. unfold parseDateString. destruct (parseCivilDate _) as [[[[y m] d] [|]]|]; try done. apply checkDate_safe. Qed.

Lemma typedTo_app ts us vs : typedTo (ts ++ us) vs -> (length ts <= length vs)%nat ->
  exists a b, vs = a ++ b /\ Forall2 (fun v t => has_type v t = true /\ v <> VNull) a ts /\ typedTo us b.
Proof.
  revert vs. induction ts as [|t ts IH]; intros vs Hvs Hl; [by exists [], vs|]. destruct vs as [|v vs]; [cbn in Hl; lia|]. destruct Hvs as [Hv Hvs]. destruct (IH vs Hvs ltac:(cbn in Hl; lia)) as (a & b & -> & Ha & Hb). exists (v :: a), b. split_and!; [done|by constructor|done].
Qed.
Lemma zoned_typed vs : typedTo [TString] vs -> zoned vs.
Proof. destruct vs as [|v [|w vs]]; [by left| |by intros [_ []]]. intros [[Hv Hn] _]. right. destruct v; try done. by eexists. Qed.
Lemma withZone_ok args ret fn : args <> [] -> (forall a rest, Forall2 (fun v t => has_type v t = true /\ v <> VNull) a args -> zoned rest -> yields (fn (a ++ rest)) ret) -> sig_ok (withZone args ret fn).
Proof.
  intros Ha Hf. unfold withZone. apply optional_ok; [by destruct args|]. intros vs Hr Hvs. unfold required in Hr. cbn [sg_minArgs sg_args] in Hr.
  apply typedTo_app in Hvs as (a & b & -> & Ht & Hb); [|destruct args; [done|cbn in *; lia]]. apply Hf; [done|by apply zoned_typed].
Qed.

Lemma int_value v : has_type v TInt64 = true /\ v <> VNull -> exists n, v = VInt n /\ is_int64 n.
Proof. intros [Hv Hn]. destruct v; try done. exists n. split; [done|]. by apply is_int64b_spec. Qed.
Lemma ts_value v : has_type v TTimestamp = true /\ v <> VNull -> exists n, v = VTs n /\ is_int64 n.
Proof. intros [Hv Hn]. destruct v; try done. eexists. split; [done|]. by apply is_int64b_spec. Qed.
Lemma date_value v : has_type v TDate = true /\ v <> VNull -> exists d, v = VDate d /\ is_int32b d = true.
Proof. intros [Hv Hn]. destruct v; try done. by eexists. Qed.
Lemma string_value v : has_type v TString = true /\ v <> VNull -> exists s, v = VString s /\ all_bytes s.
Proof. intros [Hv Hn]. destruct v; try done. eexists. split; [done|]. by apply bytesb_all. Qed.
End functions_ok.

(** The values of the arguments, one by one. *)
Ltac time_values :=
  repeat match goal with
  | H : Forall2 _ _ (_ :: _) |- _ => inversion H; clear H; subst
  | H : Forall2 _ _ [] |- _ => inversion H; clear H; subst
  | H : has_type _ TInt64 = true /\ _ |- _ => apply int_value in H as (? & -> & ?)
  | H : has_type _ TTimestamp = true /\ _ |- _ => apply ts_value in H as (? & -> & ?)
  | H : has_type _ TDate = true /\ _ |- _ => apply date_value in H as (? & -> & ?)
  | H : has_type _ TString = true /\ _ |- _ => apply string_value in H as (? & -> & ?)
  end; cbn [app].

Section table_ok.
Context `{TimeZones} `{Strconv} (G : tenv).

Lemma timestampString_sig : sig_ok (withZone [TString] TTimestamp timestampStringFn).
Proof.
  apply withZone_ok; [done|]. intros a rest Ha Hr. time_values. cbn. apply zoned_yields; [done|]. intros loc. apply asTs_yields; [apply evalError_safe, parseTimestampString_safe|]. intros ts Hts%evalError_Ret. by eapply parseTimestampString_typed.
Qed.
Lemma timestampDate_sig : sig_ok (withZone [TDate] TTimestamp timestampDateFn).
Proof. apply withZone_ok; [done|]. intros a rest Ha Hr. time_values. cbn [timestampDateFn]. apply zoned_yields; [done|]. intros loc. by apply castValue_yields. Qed.
Lemma date_sig : sig_ok (mkSig [TInt64; TInt64; TInt64] 0 false TDate dateFn false).
Proof.
  apply optional_ok; [done|]. intros vs Hr Hvs. unfold required in Hr. cbn in Hr. destruct vs as [|v1 [|v2 [|v3 [|]]]]; cbn in Hr, Hvs; try lia; try tauto. destruct Hvs as (H1 & H2 & H3 & _). time_values. cbn [dateFn].
  match goal with |- yields (if ?c then _ else _) _ => destruct c end; [done|]. apply dateFromYMD_yields.
Qed.
Lemma dateTimestamp_sig : sig_ok (withZone [TTimestamp] TDate dateTimestampFn).
Proof. apply withZone_ok; [done|]. intros a rest Ha Hr. time_values. cbn. apply zoned_yields; [done|]. intros loc. apply dateFromTime_yields. Qed.
Lemma same_sig t : sig_ok (s1 t t Ret).
Proof. by apply s1_ok. Qed.
Lemma dateString_sig : sig_ok (s1 TString TDate dateStringFn).
Proof.
  apply s1_ok. intros v Hv Hn. destruct (string_value v (conj Hv Hn)) as (s & -> & _). cbn. apply asDate_yields; [apply evalError_safe, parseDateString_safe|]. intros d Hd%evalError_Ret. by eapply parseDateString_typed.
Qed.
Lemma micros_sig : sig_ok (s1 TInt64 TTimestamp timestampMicrosFn).
Proof. apply s1_ok. intros v Hv Hn. destruct (int_value v (conj Hv Hn)) as (n & -> & _). apply checkTimestamp_yields. Qed.
Lemma timesMicros_sig m : is_int64 m -> sig_ok (s1 TInt64 TTimestamp (timesMicrosFn m)).
Proof.
  intros Hm. apply s1_ok. intros v Hv Hn. destruct (int_value v (conj Hv Hn)) as (n & -> & Hi). cbn [timesMicrosFn]. rewrite mulInt64_exact by done. pose proof (exact64_safe (n * m)). destruct (exact64 (n * m)); cbn; try done. apply checkTimestamp_yields.
Qed.
Lemma fromUnix_ok name m : operatorOf name = None -> is_int64 m -> func_ok G (name, fromUnix m).
Proof. intros Hn Hm. apply sigs_ok; [done|]. apply all2; [by apply timesMicros_sig|apply same_sig]. Qed.
Lemma toUnix_ok name d : operatorOf name = None -> func_ok G (name, toUnix d).
Proof. intros Hn. apply sigs_ok; [done|]. apply all1, s1_ok. intros v Hv Hx. destruct (ts_value v (conj Hv Hx)) as (n & -> & _). apply wrap64_typed. Qed.
Lemma currentDate_ok name : func_ok G (name, currentDate).
Proof.
  intros args Hargs. cbn [fst snd]. unfold currentDate. destruct args as [|tz [|]]; [|apply Forall_cons in Hargs as [Htz _]; coerced_by (coerceTo_as G tz TString Htz)|done].
  - apply wf_lazy; [done|by apply plain_name|]. intros now rs _ Hrs. inversion Hrs; subst. apply dateFromTime_yields.
  - apply wf_lazy; [by apply all1|by apply plain_name|]. intros now rs _ Hrs. inversion Hrs as [|r ? ? ? Hr Hn]; subst. inversion Hn; subst. cbn. destruct r as [v| |]; try done. cbn in Hr |- *.
    match goal with Ht : typesEqual _ TString = true |- _ => apply (has_type_equal _ _ _ Ht) in Hr end. destruct (isNull v) eqn:Ev; [done|]. destruct v; try done. cbn [zoneArg]. pose proof (loadZone_safe s). destruct (loadZone s); cbn; try done. apply dateFromTime_yields.
Qed.
Lemma currentTimestamp_ok name : func_ok G (name, currentTimestamp).
Proof.
  intros args Hargs. cbn [fst snd]. unfold currentTimestamp. destruct args; [|done]. apply wf_lazy; [done|by apply plain_name|]. intros now rs Hnow _. done.
Qed.
Lemma timeFuncs_ok : Forall (func_ok G) timeFuncs.
Proof.
  unfold timeFuncs. repeat (apply Forall_cons; split); try apply Forall_nil_2.
  - apply currentTimestamp_ok.
  - apply currentDate_ok.
  - apply sigs_ok; [done|]. apply all2; [apply timestampString_sig|apply timestampDate_sig].
  - apply sigs_ok; [done|]. repeat (apply Forall_cons; split); try apply Forall_nil_2; [apply date_sig|apply dateTimestamp_sig|apply same_sig|apply dateString_sig].
  - apply sigs_ok; [done|]. apply all1, micros_sig.
  - apply sigs_ok; [done|]. by apply all1, timesMicros_sig.
  - apply sigs_ok; [done|]. by apply all1, timesMicros_sig.
  - by apply fromUnix_ok.
  - by apply fromUnix_ok.
  - by apply fromUnix_ok.
  - by apply toUnix_ok.
  - by apply toUnix_ok.
  - by apply toUnix_ok.
  - apply sigs_ok; [done|]. apply all1, s1_ok. intros v Hv Hx. destruct (date_value v (conj Hv Hx)) as (n & -> & Hd). cbn in Hd |- *. unfold is_int32b, is_int64b in *. lia.
  - apply sigs_ok; [done|]. apply all1, s1_ok. intros v Hv Hx. destruct (int_value v (conj Hv Hx)) as (n & -> & _). apply checkDate_yields.
  - apply sigs_ok; [done|]. apply all1, withZone_ok; [done|]. intros a rest Ha Hr. time_values. cbn. apply zoned_yields; [done|]. intros loc. apply formatTimestamp_bytes.
  - apply sigs_ok; [done|]. apply all1, withZone_ok; [done|]. intros a rest Ha Hr. time_values. cbn [formatTimestampFn]. apply zoned_yields; [done|]. intros loc. match goal with Hb : all_bytes ?f |- context [formatTime (formatFuel ?f) ?f ?t ?m] => pose proof (formatFuel_ok f t m Hb) as Hf; destruct (formatTime (formatFuel f) f t m) end; cbn; try done. by apply bytesb_all.
  - apply sigs_ok; [done|]. apply all1, s2_ok. intros v w Hv Hw Hnv Hnw. destruct (string_value v (conj Hv Hnv)) as (f & -> & Hb), (date_value w (conj Hw Hnw)) as (d & -> & _). cbn [formatDateFn]. pose proof (formatFuel_ok f (dateTime d) 0 Hb) as Hf. destruct (formatTime _ _ _ _); cbn; try done. by apply bytesb_all.
  - apply sigs_ok; [done|]. apply all1, withZone_ok; [done|]. intros a rest Ha Hr. time_values. cbn [parseTimestampFn]. apply zoned_yields; [done|]. intros loc. match goal with |- context [parseTimeFormat ?f ?s ?l] => pose proof (parseTimeFormat_safe f s l); destruct (parseTimeFormat f s l) end; cbn; try done. apply checkTimestamp_yields.
  - apply sigs_ok; [done|]. apply all1, s2_ok. intros v w Hv Hw Hnv Hnw. destruct (string_value v (conj Hv Hnv)) as (f & -> & _), (string_value w (conj Hw Hnw)) as (s & -> & _). cbn [parseDateFn]. pose proof (parseTimeFormat_safe f s UTC). destruct (parseTimeFormat f s UTC); cbn; try done. apply dateFromTime_yields.
Qed.
End table_ok.

(** ** The functions of a date part are well-formed *)

Section builders_ok.
Context `{TimeZones} `{Strconv} (G : tenv).

Lemma checkDate_supported n d : checkDate n = Ret d -> supported d.
Proof. unfold checkDate, supported. destruct (_ || _) eqn:E; [done|]. intros [= <-]. lia. Qed.
Lemma orZero_supported y m d : supported (orZero (dateFromYMD y m d)).
Proof.
  assert (supported 0) as Hz by (unfold supported, minDateDays, maxDateDays; lia). unfold orZero. destruct (dateFromYMD y m d) eqn:E; try exact Hz. by eapply checkDate_supported.
Qed.
Lemma dateFromYMD_supported y m d r : dateFromYMD y m d = Ret r -> supported r.
Proof. unfold dateFromYMD. apply checkDate_supported. Qed.
Lemma addDate_supported d n part r : addDate d n part = Ret r -> supported r.
Proof.
  unfold addDate, checkDateI. destruct (bool_decide _); [destruct (_ || _); [done|apply checkDate_supported]|]. destruct (bool_decide _).
  - destruct (_ || _); [done|]. destruct (_ || _); [done|apply checkDate_supported].
  - destruct (monthsOf part) as [k|]; [|done]. destruct (_ || _); [done|]. destruct (civil d) as [[y m] day]. destruct (_ || _); [done|]. apply dateFromYMD_supported.
Qed.
Lemma isoYearStart_supported iy : supported (isoYearStart iy).
Proof. unfold isoYearStart. destruct (civil_of_days _) as [[y m] d]. apply orZero_supported. Qed.
Lemma supported_int32 d : supported d -> is_int32b (d - 1) = true /\ is_int32b d = true.
Proof. unfold supported, is_int32b, minDateDays, maxDateDays. lia. Qed.
Lemma wrap32_typed z : is_int32b (wrap32 z) = true.
Proof. pose proof (wrap32_range z). unfold is_int32b. lia. Qed.
Lemma truncDate_typed d dp : is_int32b d = true -> is_int32b (truncDate d dp) = true.
Proof.
  intros Hd. unfold truncDate. destruct (civil d) as [[y m] day]. repeat case_match; try done; try apply wrap32_typed; apply supported_int32; apply orZero_supported || apply isoYearStart_supported.
Qed.
Lemma truncTimestamp_yields ts dp loc : yields (asTs (truncTimestamp ts dp loc)) TTimestamp.
Proof.
  assert (yields (asTs (d ← dateFromTime (tm_In (ts_time ts) loc); let '(y, m, day) := civil (truncDate d dp) in checkTimestamp (UnixMicro (civilToTime y m day 0 0 0 0 loc)))) TTimestamp) as Hd.
  { pose proof (dateFromTime_safe (tm_In (ts_time ts) loc)). destruct (dateFromTime _) as [d| |]; cbn [mbind outcome_bind]; [|exact I|congruence]. destruct (civil _) as [[y m] day]. apply checkTimestamp_yields. }
  unfold truncTimestamp. destruct (unitMicros _); [|exact Hd]. destruct (bool_decide _); [exact Hd|]. destruct (_ || _); apply checkTimestamp_yields.
Qed.
Lemma lastDay_yields d dp : yields (asDate (lastDay d dp)) TDate.
Proof.
  assert (forall s n, yields (asDate (n ← addDate s n (str "MONTH"); Ret (n - 1))) TDate) as Ha.
  { intros s n. pose proof (addDate_safe s n (str "MONTH")). destruct (addDate s n _) as [k| |] eqn:E; cbn; try done. apply (proj1 (supported_int32 k (addDate_supported _ _ _ _ E))). }
  unfold lastDay. destruct (_ || _); [apply checkDate_yields|]. destruct (bool_decide _); [apply Ha|]. destruct (bool_decide _); [apply Ha|]. destruct (bool_decide _).
  - destruct (civil _) as [[y m] day]. apply dateFromYMD_yields.
  - apply (proj1 (supported_int32 _ (isoYearStart_supported _))).
Qed.

Lemma optInt_yields r : yields (Ret (optInt r)) TInt64.
Proof. destruct r; [apply wrap64_typed|done]. Qed.

(** *** Arrays of dates and timestamps *)

Lemma genDates_typed s step e unit room : forall i,
  match genDates room s step e unit i with Ret l => Forall (fun v => has_type v TDate = true) l | Err _ => True | Panic => False end.
Proof.
  induction room as [|room IH]; intros i; cbn [genDates]; pose proof (addDate_safe s (wrap64 (step * i)) unit); destruct (addDate s _ unit) as [d| |] eqn:E; try done; destruct (_ || _); try done.
  specialize (IH (i + 1)). destruct (genDates room s step e unit (i + 1)); cbn; try done. constructor; [|done]. by eapply addDate_typed.
Qed.
Lemma genTimestamps_typed step e unit room : forall cur, is_int64 cur ->
  match genTimestamps room step e unit cur with Ret l => Forall (fun v => has_type v TTimestamp = true) l | Err _ => True | Panic => False end.
Proof.
  induction room as [|room IH]; intros cur Hc; cbn [genTimestamps]; destruct (_ || _); try done.
  pose proof (addTimestamp_safe cur step unit). assert (has_type (VTs cur) TTimestamp = true) by (by apply is_int64b_spec). destruct (addTimestamp cur step unit) as [n| |] eqn:E; try done; [|by apply all1].
  apply addTimestamp_typed, is_int64b_spec in E. specialize (IH n E). destruct (genTimestamps room step e unit n); cbn; try done. by constructor.
Qed.
Lemma elements_yield t (r : outcome (list value)) :
  match r with Ret l => Forall (fun v => has_type v t = true) l | Err _ => True | Panic => False end -> yields (l ← r; Ret (VArray l)) (TArray t).
Proof. destruct r as [l| |]; cbn; try done. intros Hl. rewrite forallb_forall. rewrite list.Forall_forall in Hl. intros v Hv%list_elem_of_In. by apply Hl. Qed.

(** *** The builders *)

Abbreviation typed := (fun (t : sqlType) (e : bexpr) => wf G e /\ typesEqual (e_typ e) t = true).
Definition optTyped (t : sqlType) (o : option bexpr) : Prop := match o with Some e => typed t e | None => True end.
Lemma opt_args (xs : list bexpr) (ts : list sqlType) o t : Forall2 (fun a u => typed u a) xs ts -> optTyped t o ->
  exists us, Forall (wf G) (xs ++ option_list o) /\ Forall2 (fun a u => typesEqual (e_typ a) u = true) (xs ++ option_list o) (ts ++ us) /\ (us = [] \/ us = [t]).
Proof.
  intros Hx Ho. assert (Forall (wf G) xs /\ Forall2 (fun a u => typesEqual (e_typ a) u = true) xs ts) as [Hw Ht].
  { induction Hx as [|x u xs ts [? ?] Hx IH]; [done|]. destruct (IH) as [? ?]. split; by constructor. }
  destruct o as [o|]; cbn in Ho |- *.
  - destruct Ho. exists [t]. split_and!; [apply Forall_app; split; [done|by apply all1]|apply Forall2_app; [done|by repeat constructor]|by right].
  - exists []. rewrite !app_nil_r. split_and!; [done|done|by left].
Qed.
Lemma wf_opt name t extra fn xs ts o u : operatorOf name = None -> Forall2 (fun a u => typed u a) xs ts -> optTyped u o ->
  (forall vs rest, Forall2 (fun v u => has_type v u = true /\ v <> VNull) vs ts -> (rest = [] \/ exists v, rest = [v] /\ has_type v u = true /\ v <> VNull) -> yields (fn (vs ++ rest)) t) ->
  wf G (partExpr name t extra fn (xs ++ option_list o)).
Proof.
  intros Hn Hx Ho Hf. destruct (opt_args xs ts o u Hx Ho) as (us & Hw & Ht & Hus). apply wf_set_extra, (wf_typed G _ _ _ _ (ts ++ us)); try done. intros vs Hvs.
  apply Forall2_app_inv_r in Hvs as (a & b & Ha & Hb & ->). apply Hf; [done|]. destruct Hus as [-> | ->]; [left; by inversion Hb|]. right. inversion Hb as [|v ? l ? Hv Hl]; subst. inversion Hl; subst. by exists v.
Qed.
Lemma rest_zoned rest : (rest = [] \/ exists v, rest = [v] /\ has_type v TString = true /\ v <> VNull) -> zoned rest.
Proof. intros [->|(v & -> & Hv & Hn)]; [by left|]. right. destruct v; try done. by eexists. Qed.

Lemma tsDiff_wf dp x y : is_Some (unitMicros (dp_name dp)) -> typed TTimestamp x -> typed TTimestamp y -> wf G (tsDiff dp x y).
Proof.
  intros [u Hu] [Hx Tx] [Hy Ty]. apply wf_set_extra, (wf_call2 G _ _ _ _ _ TTimestamp TTimestamp); try done. intros v w Hv Hw Hnv Hnw. destruct (ts_value v (conj Hv Hnv)) as (n & -> & _), (ts_value w (conj Hw Hnw)) as (k & -> & _).
  cbn. rewrite Hu. change (default 0 (Some u)) with u. assert (1 <= u) as Hpos. { unfold unitMicros in Hu. repeat case_match; try done; injection Hu as <-; lia. }
  pose proof (wrap64_typed (n - k)) as Hw64. cbn in Hw64. apply is_int64b_spec in Hw64. apply is_int64b_spec. unfold is_int64, int64_min, int64_max in *. set (a := wrap64 (n - k)) in *.
  assert (forall k, 0 <= k -> 0 <= Z.quot k u <= k) as Hb. { intros k0 Hk. rewrite Z.quot_div_nonneg by lia. split; [apply Z.div_pos; lia|]. apply Z.div_le_upper_bound; nia. }
  destruct (Z.le_gt_cases 0 a) as [Ha|Ha]; [specialize (Hb a Ha); lia|]. specialize (Hb (- a) ltac:(lia)). rewrite Z.quot_opp_l in Hb by lia. lia.
Qed.
Lemma dateDiffExpr_wf dp x y : typed TDate x -> typed TDate y -> wf G (dateDiffExpr dp x y).
Proof.
  intros [Hx Tx] [Hy Ty]. apply wf_set_extra, (wf_call2 G _ _ _ _ _ TDate TDate); try done. intros v w Hv Hw Hnv Hnw. destruct (date_value v (conj Hv Hnv)) as (n & -> & _), (date_value w (conj Hw Hnw)) as (k & -> & _). apply wrap64_typed.
Qed.
Lemma tsTrunc_wf dp x tz : typed TTimestamp x -> optTyped TString tz -> wf G (tsTrunc dp x tz).
Proof.
  intros Hx Hz. apply (wf_opt _ _ _ _ [x] [TTimestamp] tz TString); [done|by apply Forall2_cons; split; [|apply Forall2_nil]|done|]. intros vs rest Hvs Hr%rest_zoned. time_values. cbn. apply zoned_yields; [done|]. intros loc. apply truncTimestamp_yields.
Qed.
Lemma dateTrunc_wf dp x : typed TDate x -> wf G (dateTrunc dp x).
Proof.
  intros [Hx Tx]. apply wf_set_extra, (wf_call1 G _ _ _ _ TDate); try done. intros v Hv Hn. destruct (date_value v (conj Hv Hn)) as (d & -> & Hd). by apply truncDate_typed.
Qed.
Lemma lastDayExpr_wf dp x : typed TDate x -> wf G (lastDayExpr dp x).
Proof.
  intros [Hx Tx]. apply wf_set_extra, (wf_call1 G _ _ _ _ TDate); try done. intros v Hv Hn. destruct (date_value v (conj Hv Hn)) as (d & -> & _). apply lastDay_yields.
Qed.
Lemma extractTsExpr_wf dp x tz : typed TTimestamp x -> optTyped TString tz -> wf G (extractTsExpr dp x tz).
Proof.
  intros Hx Hz. apply (wf_opt _ _ _ _ [x] [TTimestamp] tz TString); [done|by apply Forall2_cons; split; [|apply Forall2_nil]|done|]. intros vs rest Hvs Hr%rest_zoned. time_values. cbn [app extractTsFn]. apply zoned_yields; [done|]. intros loc. cbv zeta. destruct (bool_decide _); [apply dateFromTime_yields|apply optInt_yields].
Qed.
Lemma extractDateExpr_wf dp x : typed TDate x -> wf G (extractDateExpr dp x).
Proof.
  intros [Hx Tx]. apply wf_set_extra, (wf_call1 G _ _ _ _ TDate); try done. intros v Hv Hn. destruct (date_value v (conj Hv Hn)) as (d & -> & _). apply optInt_yields.
Qed.
Lemma genDatesExpr_wf unit x y step : typed TDate x -> typed TDate y -> optTyped TInt64 step -> wf G (genDatesExpr unit x y step).
Proof.
  intros Hx Hy Hs. apply (wf_opt _ _ _ _ [x; y] [TDate; TDate] step TInt64); [done|by apply Forall2_cons; split; [|apply Forall2_cons; split; [|apply Forall2_nil]]|done|]. intros vs rest Hvs Hr. time_values.
  assert (forall s e k, yields (if k =? 0 then Err OutOfRange else l ← genDates maxGenerated s k e unit 0; Ret (VArray l)) (TArray TDate)) as Hg.
  { intros s e k. destruct (k =? 0); [done|]. apply elements_yield, genDates_typed. }
  destruct Hr as [->|(v & -> & Hv)]; [apply Hg|]. apply int_value in Hv as (k & -> & _). apply Hg.
Qed.
Lemma genTimestampsExpr_wf unit x y step : typed TTimestamp x -> typed TTimestamp y -> typed TInt64 step -> wf G (genTimestampsExpr unit x y step).
Proof.
  intros [Hx Tx] [Hy Ty] [Hs Ts]. apply wf_set_extra, (wf_typed G _ _ _ _ [TTimestamp; TTimestamp; TInt64]); [done|by apply all3|by apply each3|]. intros vs Hvs. time_values. cbn [genTimestampsFn].
  destruct (_ =? 0); [done|]. by apply elements_yield, genTimestamps_typed.
Qed.
End builders_ok.

(** [UnixMicro] wraps around: 18446744073710 seconds are about half a second past the epoch. *)
Lemma parseTimestamp_wraps `{TimeZones} : parseTimestampFn [VString (str "%s"); VString (str "18446744073710")] = Ret (VTs 448384).
Proof. vm_compute. reflexivity. Qed.
