(* ===== verification/Ast.v ===== *)
(** * The syntax tree of queries

    [internal/gsql/ast.go]: what the parser produces.  Positions, which only error
    messages use, are left out.  The operators, which the source keeps as strings, are the
    inductive types of BindOps.v; a type has the parts that its name calls for. *)

From stdpp Require Import base list.
From Stdlib Require Import ZArith Lia.
From S2P Require Import Prelude Proto Rows Server Lexer SqlValues SqlOps Bexpr BindOps.

(** A type name; only ARRAY, MAP and STRUCT have parameters. *)
Inductive astType : Type :=
| TyName (name : bytes)
| TyArray (elem : astType)
| TyMap (key val : astType)
| TyStruct (fields : list (bytes * astType)).

(** The flags of an item of ORDER BY. *)
Record orderFlags : Type := mkOrderItem { oi_desc : bool; oi_explicit : bool; oi_nulls : option bool (* LAST *) }.
(** The clauses of a call beside its arguments. *)
Record callFlags : Type := mkFlags { cf_star : bool; cf_distinct : bool; cf_ignoreNulls : bool; cf_respectNull : bool; cf_safe : bool }.

Inductive astExpr : Type :=
| ALit (kind : litKind) (val : value)
| ATypedLit (typ : bytes) (val : bytes)
| AParam (name : bytes)
| AIdent (name : bytes) (quoted : bool)
| AField (x : astExpr) (name : bytes)
| AIndex (x : astExpr) (mode : indexMode) (idx : astExpr)
| AUnary (op : unOp) (x : astExpr)
| ABinary (op : binOp) (l r : astExpr)
| AIs (x : astExpr) (not : bool) (what : isWhat)
| AIn (x : astExpr) (not : bool) (items : list astExpr) (unnest : option astExpr)
| ABetween (x lo hi : astExpr) (not : bool)
| ALike (x pattern : astExpr) (not : bool)
| ACase (operand : option astExpr) (whens : list (astExpr * astExpr)) (els : option astExpr)
| ACall (name : bytes) (args : list astExpr) (flags : callFlags) (orderBy : list (astExpr * orderFlags)) (limit : option astExpr)
| ACast (x : astExpr) (typ : astType) (safe : bool)
| AExtract (part x : astExpr) (tz : option astExpr)
| AInterval (x : astExpr) (unit : bytes)
| AArray (elemType : option astType) (elems : list astExpr)
| AStruct (typ : option astType) (fields : list astExpr) (names : list bytes)
| AUnsupported (what : bytes) (unimpl : bool) (message : bytes).

(** ** Induction over expressions *)

Section astExpr_ind.
Context (P : astExpr -> Prop).
Definition optP (o : option astExpr) : Prop := match o with Some e => P e | None => True end.
(** The parts of an expression. *)
Definition partsP (e : astExpr) : Prop :=
  match e with
  | ALit _ _ | ATypedLit _ _ | AParam _ | AIdent _ _ | AUnsupported _ _ _ => True
  | AField x _ | AUnary _ x | AIs x _ _ | ACast x _ _ | AInterval x _ => P x
  | AIndex x _ y | ABinary _ x y | ALike x y _ => P x /\ P y
  | AIn x _ items unnest => P x /\ Forall P items /\ optP unnest
  | ABetween x lo hi _ => P x /\ P lo /\ P hi
  | ACase operand whens els => optP operand /\ Forall (fun w => P w.1 /\ P w.2) whens /\ optP els
  | ACall _ args _ orderBy limit => Forall P args /\ Forall (fun o => P o.1) orderBy /\ optP limit
  | AExtract part x tz => P part /\ P x /\ optP tz
  | AArray _ elems => Forall P elems
  | AStruct _ fields _ => Forall P fields
  end.
Context (Hstep : forall e, partsP e -> P e).
Fixpoint astExpr_nested (e : astExpr) : P e :=
  let list_ind := fix go (l : list astExpr) : Forall P l := match l with [] => Forall_nil_2 _ | x :: l' => Forall_cons_2 _ x l' (astExpr_nested x) (go l') end in
  let opt_ind (o : option astExpr) : optP o := match o with Some x => astExpr_nested x | None => I end in
  Hstep e
    match e as e return partsP e with
    | ALit _ _ | ATypedLit _ _ | AParam _ | AIdent _ _ | AUnsupported _ _ _ => I
    | AField x _ | AUnary _ x | AIs x _ _ | ACast x _ _ | AInterval x _ => astExpr_nested x
    | AIndex x _ y | ABinary _ x y | ALike x y _ => conj (astExpr_nested x) (astExpr_nested y)
    | AIn x _ items unnest => conj (astExpr_nested x) (conj (list_ind items) (opt_ind unnest))
    | ABetween x lo hi _ => conj (astExpr_nested x) (conj (astExpr_nested lo) (astExpr_nested hi))
    | ACase operand whens els =>
        conj (opt_ind operand)
          (conj ((fix go (l : list (astExpr * astExpr)) : Forall (fun w => P w.1 /\ P w.2) l :=
                    match l with [] => Forall_nil_2 _ | w :: l' => Forall_cons_2 (fun w => P w.1 /\ P w.2) w l' (conj (astExpr_nested w.1) (astExpr_nested w.2)) (go l') end) whens)
             (opt_ind els))
    | ACall _ args _ orderBy limit =>
        conj (list_ind args)
          (conj ((fix go (l : list (astExpr * orderFlags)) : Forall (fun o => P o.1) l :=
                    match l with [] => Forall_nil_2 _ | o :: l' => Forall_cons_2 (fun o => P o.1) o l' (astExpr_nested o.1) (go l') end) orderBy)
             (opt_ind limit))
    | AExtract part x tz => conj (astExpr_nested part) (conj (astExpr_nested x) (opt_ind tz))
    | AArray _ elems => list_ind elems
    | AStruct _ fields _ => list_ind fields
    end.
End astExpr_ind.

(** ** Queries *)

Record selectItem : Type := mkItem {
  it_star : bool;
  it_starExpr : option astExpr;
  it_except : list bytes;
  it_replace : list (astExpr * bytes);
  it_expr : option astExpr;
  it_alias : option bytes;
}.
Record namedArg : Type := mkNamed { na_name : bytes; na_x : astExpr }.

Inductive astFrom : Type :=
| mkFrom (table : bytes) (tableArgs : list namedArg) (hasArgs : bool) (alias : bytes) (unpack : option astQuery) (hints : list namedArg)
with astSelect : Type :=
| mkSelect (distinct : bool) (items : list selectItem) (from : option astFrom) (where_ : option astExpr) (groupBy : list astExpr) (having : option astExpr)
with astQuery : Type :=
| mkQuery (sel : option astSelect) (inner : option astQuery) (orderBy : list (astExpr * orderFlags)) (limit offset : option astExpr).
