(* ===== verification/Binder.v ===== *)
(** * The binder

    The type checker of [internal/gsql]: [bind.go], the binding functions of [ops.go],
    [cast.go], [funcs_time.go] and [aggregates.go].  It turns a syntax tree into a bound
    expression, resolving names, overloads, date parts and aggregate calls.

    The binder changes the analyzer (whether a nondeterministic function or a struct was
    seen) and the list of aggregate calls of the query: it is a state monad over
    [outcome].  An argument of a function is its syntax with the action that binds it, so
    that a function decides what it binds and in which order. *)

From stdpp Require Import base list.
From Stdlib Require Import ZArith Lia.
From Stdlib Require Import Floats.SpecFloat.
From S2P Require Import Prelude Proto Rows Server Hll Tokens KeySchema Lexer SqlValues SqlFloat SqlArith SqlTime SqlDates Like SqlOps SqlCast Bexpr Aggregates BindOps Funcs FuncsMath FuncsArray SqlText FuncsString FuncsPattern FuncsMisc TimeFmt FuncsTime Ast.

#[local] Open Scope Z_scope.

(** ** The state *)

(** [aggs] holds the aggregate calls with their fingerprints. *)
Record bstate : Type := mkBst { bs_aggs : list (bytes * aggSpec); bs_nondet : bool; bs_struct : bool }.
Definition B (A : Type) : Type := bstate -> outcome (A * bstate).
#[global] Instance B_ret : MRet B := fun A a st => Ret (a, st).
#[global] Instance B_bind : MBind B := fun A C f m st => '(a, st) ← m st; f a st.
Definition lift {A : Type} (r : outcome A) : B A := fun st => a ← r; Ret (a, st).
Definition failB {A : Type} (c : Code) : B A := fun _ => Err c.
Fixpoint seqB {A : Type} (l : list (B A)) : B (list A) := match l with [] => mret [] | m :: l' => x ← m; xs ← seqB l'; mret (x :: xs) end.
Definition optB {A : Type} (o : option (B A)) : B (option A) := match o with None => mret None | Some m => x ← m; mret (Some x) end.

(** ** Names *)

(** [strings.EqualFold] compares runes by a representative of their case folding, which
    differs for different ASCII letters. *)
Class Folding : Type := {
  foldRune : Z -> Z;
  foldRune_letters : forall r s, 65 <= r <= 90 -> 65 <= s <= 90 -> foldRune r = foldRune s -> r = s;
}.
Definition EqualFold `{Folding} (s t : bytes) : bool := bool_decide (foldRune <$> runes 0 s = foldRune <$> runes 0 t).
Definition ToUpper `{Unicode} (s : bytes) : bytes := mapRunes unicode_ToUpper s.
(** [strconv.Quote]. *)
Class Quoting : Type := { strconv_Quote : bytes -> bytes }.

Record scopeCol : Type := mkCol { sc_name : bytes; sc_typ : sqlType; sc_hidden : bool }.
Record scope : Type := mkScope { sc_cols : list scopeCol; sc_alias : bytes; sc_keyCol : option nat }.
Record paramInfo : Type := mkParam { pi_name : bytes; pi_typ : sqlType }.

Section names.
Context `{Folding}.

(** The only column that satisfies [p]; two of them are ambiguous. *)
Fixpoint onlyCol (p : scopeCol -> bool) (i : nat) (cols : list scopeCol) (found : option nat) : outcome (option nat) :=
  match cols with
  | [] => Ret found
  | c :: cols' => if p c then match found with Some _ => Err InvalidArgument | None => onlyCol p (S i) cols' (Some i) end else onlyCol p (S i) cols' found
  end.
Definition lookup (s : scope) (name : bytes) : outcome (option nat) :=
  exact ← onlyCol (fun c => bool_decide (sc_name c = name)) 0 (sc_cols s) None;
  match exact with Some i => Ret (Some i) | None => onlyCol (fun c => EqualFold (sc_name c) name) 0 (sc_cols s) None end.

Fixpoint indexOf {A : Type} (p : A -> bool) (i : nat) (l : list A) : option nat :=
  match l with [] => None | a :: l' => if p a then Some i else indexOf p (S i) l' end.
(** Names that differ in case only are looked up in the order of the map, which Go leaves
    open; here it is the order of the list. *)
Definition lookupParam (params : list paramInfo) (name : bytes) : option nat :=
  match indexOf (fun p => bool_decide (pi_name p = name)) 0 params with
  | Some i => Some i
  | None => indexOf (fun p => EqualFold (pi_name p) name) 0 params
  end.

Definition columnRef (s : scope) (i : nat) : outcome bexpr := match sc_cols s !! i with Some c => Ret (refExpr ekColumn (sc_typ c) (sc_name c) i) | None => Panic end.

Fixpoint onlyField (name : bytes) (i : nat) (fs : list (bytes * sqlType)) (found : option nat) : outcome (option nat) :=
  match fs with
  | [] => Ret found
  | f :: fs' => if EqualFold f.1 name then match found with Some _ => Err InvalidArgument | None => onlyField name (S i) fs' (Some i) end else onlyField name (S i) fs' found
  end.
(** The field [i] of a struct. *)
Definition fieldRef (x : bexpr) (t : sqlType) (i : nat) : bexpr := set_extra (FormatInt (Z.of_nat i)) (callExpr (str "$field") t (fieldFn i) [x]).
Definition fieldAccess (x : bexpr) (name : bytes) : outcome bexpr :=
  match e_typ x with
  | TStruct fs =>
      idx ← onlyField name 0 fs None;
      match idx with
      | None => Err InvalidArgument
      | Some i => match fs !! i with Some f => Ret (fieldRef x f.2 i) | None => Panic end
      end
  | _ => Err InvalidArgument
  end.
Definition fieldPath (base : bexpr) (names : list bytes) : outcome bexpr := foldM fieldAccess base names.
End names.

(** ** Types *)

Definition typeNames : list (bytes * sqlType) :=
  [(str "INT64", TInt64); (str "INT", TInt64); (str "INTEGER", TInt64); (str "BIGINT", TInt64); (str "SMALLINT", TInt64); (str "TINYINT", TInt64); (str "BYTEINT", TInt64);
   (str "FLOAT64", TFloat64); (str "DOUBLE", TFloat64); (str "FLOAT32", TFloat32); (str "BOOL", TBool); (str "BOOLEAN", TBool);
   (str "STRING", TString); (str "BYTES", TBytes); (str "DATE", TDate); (str "TIMESTAMP", TTimestamp)].
Definition unsupportedTypes : list bytes :=
  [str "NUMERIC"; str "BIGNUMERIC"; str "DECIMAL"; str "BIGDECIMAL"; str "JSON"; str "DATETIME"; str "TIME"; str "INTERVAL"; str "GEOGRAPHY"; str "RANGE"].
Definition assoc {A : Type} (name : bytes) (l : list (bytes * A)) : option A := snd <$> List.find (fun p => bool_decide (p.1 = name)) l.
(** The name of an array or a map comes with its parameters: without, they are nil. *)
Fixpoint resolveType (t : astType) : outcome sqlType :=
  match t with
  | TyName name =>
      match assoc name typeNames with
      | Some t => Ret t
      | None =>
          if bool_decide (name = str "ARRAY") || bool_decide (name = str "MAP") then Panic
          else if bool_decide (name = str "STRUCT") then Ret (TStruct [])
          else if bool_decide (name ∈ unsupportedTypes) then Err Unimplemented
          else Err InvalidArgument
      end
  | TyArray elem => e ← resolveType elem; if isArray e then Err InvalidArgument else Ret (TArray e)
  | TyMap key val => k ← resolveType key; v ← resolveType val; Ret (TMap k v)
  | TyStruct fields =>
      fs ← (fix go (fields : list (bytes * astType)) : outcome (list (bytes * sqlType)) :=
        match fields with [] => Ret [] | f :: fields' => t ← resolveType f.2; ts ← go fields'; Ret ((f.1, t) :: ts) end) fields;
      Ret (TStruct fs)
  end.

(** ** Date parts *)

Section parts.
Context `{Folding} `{Unicode}.

Fixpoint weekdayOf (names : list bytes) (i : Z) (name : bytes) : option Z :=
  match names with [] => None | n :: names' => if EqualFold n name then Some i else weekdayOf names' (i + 1) name end.
Definition checkPart (name : bytes) (allowed : list bytes) : outcome datePart :=
  if bool_decide (name ∈ [str "TIME"; str "DATETIME"; str "NANOSECOND"]) then Err Unimplemented
  else if bool_decide (name ∈ allowed) then Ret (plainPart name)
  else Err InvalidArgument.
Definition datePartFromAST (x : astExpr) (allowed : list bytes) : outcome datePart :=
  match x with
  | AIdent name _ => checkPart (ToUpper name) allowed
  | ACall name [AIdent day _] _ _ _ =>
      if bool_decide (name = str "WEEK") then
        match weekdayOf weekdayNames 0 day with
        | Some i => if bool_decide (str "WEEK" ∈ allowed) then Ret (mkDatePart (str "WEEK") i) else Err InvalidArgument
        | None => Err InvalidArgument
        end
      else Err InvalidArgument
  | _ => Err InvalidArgument
  end.
End parts.

(** ** Aggregate functions *)

(** What a function of the table gives to [aggSpec]: arguments, type and first state. *)
Record aggBase : Type := mkBase { ab_args : list bexpr; ab_typ : sqlType; ab_state : aggState }.
Record aggDef : Type := mkDef { ad_bind : bool -> list bexpr -> outcome aggBase; ad_distinct : bool; ad_order : bool }.

Definition fzero : spec_float := S754_zero false.

Section aggregates.
Context `{TimeZones} `{Strconv}.

Fixpoint coerceEach (args : list bexpr) (types : list sqlType) : outcome (list bexpr) :=
  match args, types with
  | [], [] => Ret []
  | a :: args', t :: types' => x ← coerceTo a t; xs ← coerceEach args' types'; Ret (x :: xs)
  | _, _ => Err InvalidArgument
  end.
Definition simpleAgg (types : list sqlType) (ret : sqlType) (st : aggState) (star : bool) (args : list bexpr) : outcome aggBase :=
  if negb (Nat.eqb (length args) (length types)) then Err InvalidArgument else xs ← coerceEach args types; Ret (mkBase xs ret st).
(** [if isNullLit(a) { a, _ = coerce(a, I) }]. *)
Definition typedNull (a : bexpr) : outcome bexpr := if isNullLit a then coerceOr a TInt64 else Ret a.
(** An aggregate of one argument. *)
Definition oneArg (f : bexpr -> outcome aggBase) (star : bool) (args : list bexpr) : outcome aggBase := match args with [a] => f a | _ => Err InvalidArgument end.

Definition countAgg (star : bool) (args : list bexpr) : outcome aggBase :=
  if star then Ret (mkBase [] TInt64 (countState 0 true false)) else match args with [_] => Ret (mkBase args TInt64 (countState 0 false false)) | _ => Err InvalidArgument end.
Definition sumAgg : bool -> list bexpr -> outcome aggBase := oneArg (fun a =>
  if isInt64 (e_typ a) || isNullLit a then x ← coerceOr a TInt64; Ret (mkBase [x] TInt64 (sumState true false 0 fzero))
  else x ← coerceTo a TFloat64; Ret (mkBase [x] TFloat64 (sumState false false 0 fzero))).
Definition isFloat32 (t : sqlType) : bool := match t with TFloat32 => true | _ => false end.
Definition avgAgg : bool -> list bexpr -> outcome aggBase := oneArg (fun a =>
  if negb (isInt64 (e_typ a)) && negb (isFloat (e_typ a)) && negb (isNullLit a) then Err InvalidArgument
  else
    a ← if isFloat32 (e_typ a) then coerceOr a TFloat64 else Ret a;
    a ← typedNull a;
    Ret (mkBase [a] TFloat64 (avgState 0 fzero fzero))).
Definition minMax (max : bool) : bool -> list bexpr -> outcome aggBase := oneArg (fun a =>
  a ← typedNull a;
  if isArray (e_typ a) || negb (orderable (e_typ a)) then Err InvalidArgument else Ret (mkBase [a] (e_typ a) (minMaxState max VNull false))).
Definition anyValue : bool -> list bexpr -> outcome aggBase := oneArg (fun a => Ret (mkBase [a] (e_typ a) (anyValueState VNull))).
Definition arrayAgg : bool -> list bexpr -> outcome aggBase := oneArg (fun a =>
  a ← typedNull a; if isArray (e_typ a) then Err InvalidArgument else Ret (mkBase [a] (TArray (e_typ a)) (arrayAggState [] false false))).
Definition arrayConcatAgg : bool -> list bexpr -> outcome aggBase := oneArg (fun a =>
  if isArray (e_typ a) then Ret (mkBase [a] (e_typ a) (arrayAggState [] false true)) else Err InvalidArgument).
(** [args, _ := coerceAll(c.args, t)]. *)
Definition stringAggOf (isStr : bool) (args : list bexpr) : outcome aggBase :=
  let t := if isStr then TString else TBytes in
  xs ← match coerceAll args t with Err _ => Ret [] | r => r end;
  Ret (mkBase xs t (stringAggState isStr [] (str ",") false)).
Definition stringAgg (star : bool) (args : list bexpr) : outcome aggBase :=
  if negb (Nat.eqb (length args) 1) && negb (Nat.eqb (length args) 2) then Err InvalidArgument
  else if forallb (fun a => canCoerce a TString) args then stringAggOf true args
  else if forallb (fun a => canCoerce a TBytes) args then stringAggOf false args
  else Err InvalidArgument.
Definition approxCountDistinct : bool -> list bexpr -> outcome aggBase := oneArg (fun a =>
  if groupable (e_typ a) then Ret (mkBase [a] TInt64 (hllState None hllDefaultPrecision false true)) else Err InvalidArgument).

Definition hllInitPrecision : Z := 15.
Definition hllMinPrecision : Z := 10.
(** The second argument of HLL_COUNT.INIT. *)
Definition hllPrecision (a : bexpr) : outcome Z :=
  pe ← coerceTo a TInt64;
  if bool_decide (e_kind pe = ekConst) then
    match e_val pe with
    | VNull => Err InvalidArgument
    | VInt p => if (p <? hllMinPrecision) || (hllMaxPrecision <? p) then Err InvalidArgument else Ret p
    | _ => Panic
    end
  else Err InvalidArgument.
Definition hllInit (star : bool) (args : list bexpr) : outcome aggBase :=
  let build (a : bexpr) (rest : option bexpr) : outcome aggBase :=
    a ← typedNull a;
    match e_typ a with
    | TInt64 | TString | TBytes => p ← match rest with None => Ret hllInitPrecision | Some x => hllPrecision x end; Ret (mkBase [a] TBytes (hllState None p false false))
    | _ => Err InvalidArgument
    end in
  match args with [a] => build a None | [a; x] => build a (Some x) | _ => Err InvalidArgument end.

Definition moments (kind : momentKind) : aggState := momentState kind fzero fzero fzero fzero fzero fzero.
Definition bitAgg (op : bitOp) : aggDef := mkDef (simpleAgg [TInt64] TInt64 (bitState op 0 false)) true false.
Definition momentAgg (kind : momentKind) : aggDef := mkDef (simpleAgg [TFloat64] TFloat64 (moments kind)) true false.
Definition pairAgg (kind : momentKind) : aggDef := mkDef (simpleAgg [TFloat64; TFloat64] TFloat64 (moments kind)) false false.
Definition aggFuncs : list (bytes * aggDef) :=
  [(str "COUNT", mkDef countAgg true false); (str "COUNTIF", mkDef (simpleAgg [TBool] TInt64 (countState 0 false true)) false false);
   (str "SUM", mkDef sumAgg true false); (str "AVG", mkDef avgAgg true false); (str "MIN", mkDef (minMax false) true false); (str "MAX", mkDef (minMax true) true false);
   (str "ANY_VALUE", mkDef anyValue false false);
   (str "LOGICAL_AND", mkDef (simpleAgg [TBool] TBool (logicalState true false false)) false false); (str "LOGICAL_OR", mkDef (simpleAgg [TBool] TBool (logicalState false false false)) false false);
   (str "BIT_AND", bitAgg BitAnd); (str "BIT_OR", bitAgg BitOr); (str "BIT_XOR", bitAgg BitXor);
   (str "ARRAY_AGG", mkDef arrayAgg true true); (str "ARRAY_CONCAT_AGG", mkDef arrayConcatAgg false true); (str "STRING_AGG", mkDef stringAgg true true);
   (str "APPROX_COUNT_DISTINCT", mkDef approxCountDistinct false false); (str "HLL_COUNT.INIT", mkDef hllInit false false);
   (str "HLL_COUNT.MERGE", mkDef (simpleAgg [TBytes] TInt64 (hllState None 0 true true)) false false);
   (str "HLL_COUNT.MERGE_PARTIAL", mkDef (simpleAgg [TBytes] TBytes (hllState None 0 true false)) false false);
   (str "STDDEV", momentAgg StddevSamp); (str "STDDEV_SAMP", momentAgg StddevSamp); (str "STDDEV_POP", momentAgg StddevPop);
   (str "VARIANCE", momentAgg VarSamp); (str "VAR_SAMP", momentAgg VarSamp); (str "VAR_POP", momentAgg VarPop);
   (str "CORR", pairAgg Corr); (str "COVAR_POP", pairAgg CovarPop); (str "COVAR_SAMP", pairAgg CovarSamp)].
Definition mvAggregates : list bytes :=
  [str "COUNT"; str "SUM"; str "MIN"; str "MAX"; str "AVG"; str "ANY_VALUE"; str "BIT_AND"; str "BIT_OR"; str "BIT_XOR"; str "HLL_COUNT.INIT"; str "HLL_COUNT.MERGE"; str "HLL_COUNT.MERGE_PARTIAL"].
End aggregates.

(** ** Fingerprints *)

Section fingerprints.
Context `{Quoting}.

Definition commas (l : list bytes) : bytes := match l with [] => [] | s :: l' => s ++ (l' ≫= fun t => str "," ++ t) end.
Fixpoint fingerprint (e : bexpr) : bytes :=
  match e with
  | mkBexpr kind t name extra args val idx _ _ _ _ safe _ =>
      match kind with
      | ekConst => str "K" ++ typeString t ++ str ":" ++ strconv_Quote (valueKey val)
      | ekParam => str "P" ++ FormatInt (Z.of_nat idx)
      | ekColumn => str "C" ++ FormatInt (Z.of_nat idx)
      | ekGroupRef => str "G" ++ FormatInt (Z.of_nat idx)
      | ekAggRef => str "A" ++ name
      | _ => name ++ str "[" ++ extra ++ str "](" ++ commas (List.map fingerprint args) ++ str ")" ++ (if safe then str "!safe" else [])
      end
  end.
Definition aggFingerprint (s : aggSpec) : bytes :=
  as_name s ++ (if as_star s then str "*" else []) ++ (if as_distinct s then str " DISTINCT" else []) ++ (if as_ignoreNulls s then str " IGNORE NULLS" else []) ++ str "(" ++
  (as_args s ≫= fun a => fingerprint a ++ str ",") ++
  (as_orderBy s ≫= fun o => str "ORDER:" ++ fingerprint (or_expr o) ++ (if or_desc o then str " DESC" else []) ++ (if or_nullsLast o then str " NL" else [])) ++
  match as_limit s with Some l => str "LIMIT:" ++ fingerprint l | None => [] end ++ str ")".
End fingerprints.
Definition nullsLast (o : orderFlags) : bool := match oi_nulls o with Some last => last | None => oi_desc o end.

(** ** Scalar functions *)

Definition randBinding : binding := fun name args => match args with [] => Ret randExpr | _ => Err InvalidArgument end.

(** An argument of a function: its syntax, the action that binds it, and the count and
    unit of an INTERVAL. *)
Record argument : Type := mkArg { arg_ast : astExpr; arg_bind : B bexpr; arg_interval : option (B bexpr * bytes) }.

Section scalar.
Context `{TimeZones} `{Strconv} `{Unicode} `{Folding} `{Regexp} `{Fmt} `{MathLib} `{Json} `{Estimator}.

(** *** Unbound arguments *)

Definition bindInterval (n : B bexpr) (unit : bytes) (allowed : list bytes) : B (bexpr * bytes) :=
  n ← n; n ← lift (coerceTo n TInt64); if bool_decide (unit ∈ allowed) then mret (n, unit) else failB InvalidArgument.
Definition bindIntervalArg (a : argument) (allowed : list bytes) : B (bexpr * bytes) :=
  match arg_interval a with None => failB InvalidArgument | Some (n, unit) => bindInterval n unit allowed end.
Definition bindIntervalArith (minus : bool) (base : bexpr) (n : B bexpr) (unit : bytes) : B bexpr :=
  match e_typ base with
  | TTimestamp => '(n, unit) ← bindInterval n unit tsAddParts; mret (tsAddExpr minus base n unit)
  | TDate => '(n, unit) ← bindInterval n unit dateAddParts; mret (dateAddExpr minus base n unit)
  | _ => failB InvalidArgument
  end.
Definition bindCoerced (a : argument) (t : sqlType) : B bexpr := e ← arg_bind a; lift (coerceTo e t).
Definition partOf (a : argument) (allowed : list bytes) : B datePart := lift (datePartFromAST (arg_ast a) allowed).

Abbreviation raw := (list argument -> B bexpr).
Definition tsAddSub (minus : bool) : raw := fun args =>
  match args with [x; i] => ts ← bindCoerced x TTimestamp; '(n, unit) ← bindIntervalArg i tsAddParts; mret (tsAddExpr minus ts n unit) | _ => failB InvalidArgument end.
Definition dateAddSub (minus : bool) : raw := fun args =>
  match args with [x; i] => d ← bindCoerced x TDate; '(n, unit) ← bindIntervalArg i dateAddParts; mret (dateAddExpr minus d n unit) | _ => failB InvalidArgument end.
Definition timestampDiff : raw := fun args =>
  match args with [x; y; p] => x ← bindCoerced x TTimestamp; y ← bindCoerced y TTimestamp; dp ← partOf p tsAddParts; mret (tsDiff dp x y) | _ => failB InvalidArgument end.
Definition dateDiffFunc : raw := fun args =>
  match args with [x; y; p] => x ← bindCoerced x TDate; y ← bindCoerced y TDate; dp ← partOf p dateDiffParts; mret (dateDiffExpr dp x y) | _ => failB InvalidArgument end.
(** [tsTrunc]: the part and an optional zone. *)
Definition bindTrunc (x : bexpr) (p : argument) (zone : option argument) : B bexpr :=
  dp ← partOf p tsTruncParts; tz ← optB ((fun z => bindCoerced z TString) <$> zone); mret (tsTrunc dp x tz).
(** Two arguments and an optional third. *)
Definition two_three (f : argument -> argument -> option argument -> B bexpr) : raw := fun args =>
  match args with [x; y] => f x y None | [x; y; z] => f x y (Some z) | _ => failB InvalidArgument end.
Definition timestampTrunc : raw := two_three (fun x p zone => x ← bindCoerced x TTimestamp; bindTrunc x p zone).
Definition dateTruncFunc : raw := two_three (fun x p zone =>
  x ← arg_bind x;
  if isTimestamp (e_typ x) then bindTrunc x p zone
  else
    x ← lift (coerceTo x TDate);
    match zone with
    | Some _ => failB InvalidArgument
    | None => dp ← partOf p dateDiffParts; mret (dateTrunc dp x)
    end).
Definition lastDayFunc : raw := fun args =>
  match args with
  | [x] => x ← bindCoerced x TDate; mret (lastDayExpr (plainPart (str "MONTH")) x)
  | [x; p] => x ← bindCoerced x TDate; dp ← partOf p lastDayParts; mret (lastDayExpr dp x)
  | _ => failB InvalidArgument
  end.
Definition generateDateArray : raw := two_three (fun x y i =>
  x ← bindCoerced x TDate; y ← bindCoerced y TDate;
  step ← optB ((fun i => bindIntervalArg i dateAddParts) <$> i);
  mret match step with None => genDatesExpr (str "DAY") x y None | Some (n, unit) => genDatesExpr unit x y (Some n) end).
Definition generateTimestampArray : raw := fun args =>
  match args with
  | [x; y; i] => x ← bindCoerced x TTimestamp; y ← bindCoerced y TTimestamp; '(n, unit) ← bindIntervalArg i tsAddParts; mret (genTimestampsExpr unit x y n)
  | _ => failB InvalidArgument
  end.
Definition rawFuncs : list (bytes * raw) :=
  [(str "TIMESTAMP_ADD", tsAddSub false); (str "TIMESTAMP_SUB", tsAddSub true); (str "DATE_ADD", dateAddSub false); (str "DATE_SUB", dateAddSub true);
   (str "TIMESTAMP_DIFF", timestampDiff); (str "DATE_DIFF", dateDiffFunc); (str "TIMESTAMP_TRUNC", timestampTrunc); (str "DATE_TRUNC", dateTruncFunc);
   (str "LAST_DAY", lastDayFunc); (str "GENERATE_DATE_ARRAY", generateDateArray); (str "GENERATE_TIMESTAMP_ARRAY", generateTimestampArray)].

(** EXTRACT, its operand bound. *)
Definition bindExtract (part : astExpr) (x : bexpr) (tz : option bexpr) : outcome bexpr :=
  x ← if bool_decide (e_lit x = litString) then coerceOr x TTimestamp else Ret x;
  match e_typ x with
  | TTimestamp => dp ← datePartFromAST part extractTS; Ret (extractTsExpr dp x tz)
  | TDate => match tz with Some _ => Err InvalidArgument | None => dp ← datePartFromAST part extractDate; Ret (extractDateExpr dp x) end
  | _ => if isNullLit x then Ret (constExpr VNull TInt64 litNull) else Err InvalidArgument
  end.

(** *** The table *)

Definition scalarFuncs : list (bytes * binding) :=
  mathFuncs ++ arrayFuncs ++ stringFuncs ++ patternFuncs ++ miscFuncs ++ timeFuncs ++ distinctFuncs ++
  [(str "RAND", randBinding); (str "STARTS_WITH", startsWith); (str "REPEAT", repeatStr); (str "REGEXP_INSTR", regexpInstr)].
Definition nondetFuncs : list bytes := [str "CURRENT_TIMESTAMP"; str "CURRENT_DATE"; str "RAND"].
Definition sawNondet : B unit := fun st => Ret (tt, mkBst (bs_aggs st) true (bs_struct st)).
Definition sawStruct : B unit := fun st => Ret (tt, mkBst (bs_aggs st) (bs_nondet st) true).
(** SAFE. does nothing to a constant. *)
Definition safely (safe : bool) (r : bexpr) : bexpr := if safe && isCall r then set_safe r else r.
Definition isScalar (name : bytes) : bool := match assoc name rawFuncs, assoc name scalarFuncs with None, None => false | _, _ => true end.
Definition applyFunc (name : bytes) (args : list argument) : B bexpr :=
  match assoc name rawFuncs with
  | Some f => f args
  | None =>
      match assoc name scalarFuncs with
      | Some bind => xs ← seqB (arg_bind <$> args); lift (bind name xs)
      | None => failB InvalidArgument
      end
  end.
(** [bindCall] of a scalar function. *)
Definition bindScalar (name : bytes) (safe aggClauses : bool) (args : list argument) : B bexpr :=
  if negb (isScalar name) then failB InvalidArgument
  else if aggClauses then failB InvalidArgument
  else
    r ← applyFunc name args;
    _ ← if bool_decide (name ∈ nondetFuncs) then sawNondet else mret tt;
    mret (safely safe r).
End scalar.

(** ** Expressions *)

(** [aggs]: whether aggregates are allowed. *)
Record binder : Type := mkBinder {
  b_mv : bool;
  b_params : list paramInfo;
  b_scope : option scope;
  b_aggs : bool;
  b_inAgg : bool;
  b_aliases : option (bytes -> outcome (option bexpr));
}.

Section binder.
Context `{TimeZones} `{Strconv} `{Unicode} `{Folding} `{Quoting} `{Regexp} `{Fmt} `{MathLib} `{Json} `{Estimator}.

Definition bindLit (kind : litKind) (val : value) : outcome bexpr :=
  match kind with
  | litNone => Err Internal
  | litNull => Ret (constExpr VNull TInt64 litNull)
  | litBool => Ret (constExpr val TBool litBool)
  | litInt => Ret (constExpr val TInt64 litInt)
  | litFloat => Ret (constExpr val TFloat64 litFloat)
  | litString => Ret (constExpr val TString litString)
  | litBytes => Ret (constExpr val TBytes litBytes)
  end.
(** An error of a parser becomes an error of the query. *)
Definition invalid {A : Type} (r : outcome A) : outcome A := match r with Err _ => Err InvalidArgument | r => r end.
Definition bindTypedLit (typ val : bytes) : outcome bexpr :=
  if bool_decide (typ = str "DATE") then d ← invalid (parseDateString val); Ret (constExpr (VDate d) TDate litNone)
  else if bool_decide (typ = str "TIMESTAMP") then ts ← invalid (parseTimestampString val UTC); Ret (constExpr (VTs ts) TTimestamp litNone)
  else Err Internal.
Definition bindParam (b : binder) (name : bytes) : outcome bexpr :=
  match lookupParam (b_params b) name with
  | None => Err InvalidArgument
  | Some i => match b_params b !! i with Some p => Ret (refExpr ekParam (pi_typ p) name i) | None => Panic end
  end.
Definition bindUnsupported (b : binder) (what : bytes) (unimpl : bool) (message : bytes) : outcome bexpr :=
  if b_mv b && HasPrefix what (str "window function") then Err InvalidArgument else if unimpl then Err Unimplemented else Err InvalidArgument.

Definition isRangeVar (s : scope) (name : bytes) : bool := negb (bool_decide (sc_alias s = [])) && EqualFold name (sc_alias s).
(** The column of an identifier, if there is one. *)
Definition scopeColumn (s : option scope) (name : bytes) : outcome (option bexpr) :=
  match s with
  | None => Ret None
  | Some s => i ← lookup s name; match i with Some i => c ← columnRef s i; Ret (Some c) | None => Ret None end
  end.
Definition bindIdent (b : binder) (name : bytes) (quoted : bool) : B bexpr :=
  alias ← lift match b_aliases b with Some f => f name | None => Ret None end;
  match alias with
  | Some r => mret r
  | None =>
      col ← lift (scopeColumn (b_scope b) name);
      match col with
      | Some c => mret c
      | None =>
          if negb quoted && bool_decide (ToUpper name ∈ [str "CURRENT_TIMESTAMP"; str "CURRENT_DATE"]) then bindScalar (ToUpper name) false false []
          else match b_scope b with Some s => if isRangeVar s name then failB Unimplemented else failB InvalidArgument | None => failB InvalidArgument end
      end
  end.
(** A path [a.b.c] that starts with an identifier: a range variable unless there is a
    column of the same name. *)
Definition bindPath (b : binder) (name : bytes) (quoted : bool) (names : list bytes) : B bexpr :=
  let plain : B bexpr := base ← bindIdent b name quoted; lift (fieldPath base names) in
  match b_scope b, names with
  | Some s, n :: rest =>
      if isRangeVar s name && match lookup s name with Ret (Some _) => false | _ => true end then
        i ← lift (lookup s n);
        match i with
        | None => failB InvalidArgument
        | Some i => base ← lift (columnRef s i); lift (fieldPath base rest)
        end
      else plain
  | _, _ => plain
  end.

(** *** Aggregate calls *)

(** The binder of the arguments, and that of a constant clause. *)
Definition innerBinder (b : binder) : binder := mkBinder (b_mv b) (b_params b) (b_scope b) (b_aggs b) true None.
Definition constBinder (b : binder) : binder := mkBinder (b_mv b) (b_params b) None false false None.

Fixpoint bindOrder (l : list (B bexpr * orderFlags)) : B (list orderSpec) :=
  match l with
  | [] => mret []
  | (m, o) :: l' =>
      x ← m;
      if isArray (e_typ x) || negb (orderable (e_typ x)) then failB InvalidArgument
      else os ← bindOrder l'; mret (mkOrder x (oi_desc o) (nullsLast o) :: os)
  end.
Definition bindLimit (m : B bexpr) : B bexpr :=
  x ← m; x ← lift (coerceTo x TInt64); if isConst x then mret x else failB InvalidArgument.
(** The call with this fingerprint, or a new one. *)
Definition useAgg (spec : aggSpec) : B bexpr := fun st =>
  let fp := aggFingerprint spec in
  match indexOf (fun p => bool_decide (p.1 = fp)) 0 (bs_aggs st) with
  | Some i => match bs_aggs st !! i with Some p => Ret (refExpr ekAggRef (as_typ p.2) p.1 i, st) | None => Panic end
  | None => Ret (refExpr ekAggRef (as_typ spec) fp (length (bs_aggs st)), mkBst (bs_aggs st ++ [(fp, spec)]) (bs_nondet st) (bs_struct st))
  end.
Definition hasOrder (flags : callFlags) (orderBy : list (B bexpr * orderFlags)) (limit : option (B bexpr)) : bool :=
  negb (Nat.eqb (length orderBy) 0) || match limit with Some _ => true | None => false end || cf_ignoreNulls flags || cf_respectNull flags.
(** The checks before the arguments are bound. *)
Definition aggAllowed (b : binder) (name : bytes) (flags : callFlags) (def : aggDef) (ordered : bool) : bool :=
  b_aggs b && negb (b_inAgg b) && negb (cf_safe flags) &&
  negb (b_mv b && (negb (bool_decide (name ∈ mvAggregates)) || cf_distinct flags)) &&
  negb (cf_distinct flags && negb (ad_distinct def)) && negb (ordered && negb (ad_order def)) &&
  negb (cf_star flags && negb (bool_decide (name = str "COUNT"))).
Definition ungroupable (distinct : bool) (args : list bexpr) : bool := match args with a :: _ => distinct && negb (groupable (e_typ a)) | [] => false end.
Definition bindAggregate (b : binder) (name : bytes) (flags : callFlags) (def : aggDef) (args : list (B bexpr)) (orderBy : list (B bexpr * orderFlags)) (limit : option (B bexpr)) : B bexpr :=
  if negb (aggAllowed b name flags def (hasOrder flags orderBy limit)) then failB InvalidArgument
  else
    xs ← (if cf_star flags then mret [] else seqB args);
    base ← lift (ad_bind def (cf_star flags) xs);
    if ungroupable (cf_distinct flags) (ab_args base) then failB InvalidArgument
    else
      order ← bindOrder orderBy;
      limit ← optB (bindLimit <$> limit);
      useAgg (mkSpec name (ab_args base) (cf_star flags) (cf_distinct flags) (cf_ignoreNulls flags) order limit (ab_typ base) (ab_state base)).

(** *** The recursion *)

Definition typeOpt (t : option astType) : outcome (option sqlType) := match t with None => Ret None | Some t => t ← resolveType t; Ret (Some t) end.
Fixpoint bindExpr (b : binder) (e : astExpr) {struct e} : B bexpr :=
  match e with
  | ALit kind val => lift (bindLit kind val)
  | ATypedLit typ val => lift (bindTypedLit typ val)
  | AParam name => lift (bindParam b name)
  | AIdent name quoted => bindIdent b name quoted
  | AField x name =>
      (fix path (r : astExpr) (names : list bytes) {struct r} : B bexpr :=
        match r with
        | AField r' n => path r' (n :: names)
        | AIdent name quoted => bindPath b name quoted names
        | r => base ← bindExpr b r; lift (fieldPath base names)
        end) x [name]
  | AIndex x mode idx => x ← bindExpr b x; idx ← bindExpr b idx; lift (bindIndex mode x idx)
  | AUnary op x => x ← bindExpr b x; lift (unary op x)
  | ABinary op l r =>
      let plain : B bexpr := l ← bindExpr b l; r ← bindExpr b r; lift (binary op l r) in
      match op with
      | BArith Add =>
          match r with
          | AInterval n unit => base ← bindExpr b l; bindIntervalArith false base (bindExpr b n) unit
          | _ =>
              match l with
              | AInterval n unit => base ← bindExpr b r; bindIntervalArith false base (bindExpr b n) unit
              | _ => plain
              end
          end
      | BArith Sub => match r with AInterval n unit => base ← bindExpr b l; bindIntervalArith true base (bindExpr b n) unit | _ => plain end
      | _ => plain
      end
  | AIs x not what => x ← bindExpr b x; lift (bindIs what not x)
  | AIn x not items unnest =>
      x ← bindExpr b x;
      match unnest with
      | Some arr => arr ← bindExpr b arr; lift (bindInUnnest not x arr)
      | None => items ← seqB (List.map (fun i => bindExpr b i) items); lift (bindInList not x items)
      end
  | ABetween x lo hi not => x ← bindExpr b x; lo ← bindExpr b lo; hi ← bindExpr b hi; lift (bindBetween not x lo hi)
  | ALike x pattern not => x ← bindExpr b x; p ← bindExpr b pattern; lift (bindLike not x p)
  | ACase operand whens els =>
      operand ← optB match operand with Some o => Some (bindExpr b o) | None => None end;
      ws ← seqB (List.map (fun w => c ← bindExpr b w.1; r ← bindExpr b w.2; mret (c, r)) whens);
      els ← optB match els with Some x => Some (bindExpr b x) | None => None end;
      lift (bindCase operand ws.*1 ws.*2 els)
  | ACall name args flags orderBy limit =>
      match assoc name aggFuncs with
      | Some def =>
          bindAggregate b name flags def (List.map (fun a => bindExpr (innerBinder b) a) args) (List.map (fun o => (bindExpr (innerBinder b) o.1, o.2)) orderBy)
            match limit with Some l => Some (bindExpr (constBinder b) l) | None => None end
      | None =>
          bindScalar name (cf_safe flags)
            (cf_distinct flags || cf_star flags || negb (Nat.eqb (length orderBy) 0) || match limit with Some _ => true | None => false end || cf_ignoreNulls flags || cf_respectNull flags)
            (List.map (fun a => mkArg a (bindExpr b a) match a with AInterval n unit => Some (bindExpr b n, unit) | _ => None end) args)
      end
  | ACast x typ safe => x ← bindExpr b x; to ← lift (resolveType typ); lift (bindCast safe to x)
  | AExtract part x tz =>
      x ← bindExpr b x;
      tz ← optB match tz with Some z => Some (z ← bindExpr b z; lift (coerceTo z TString)) | None => None end;
      lift (bindExtract part x tz)
  | AInterval _ _ => failB InvalidArgument
  | AArray elemType elems =>
      elems ← seqB (List.map (fun x => bindExpr b x) elems);
      et ← lift (typeOpt elemType);
      lift (bindArrayLit et elems)
  | AStruct typ fields names =>
      _ ← sawStruct;
      fields ← seqB (List.map (fun x => bindExpr b x) fields);
      t ← lift (typeOpt typ);
      lift (bindStructLit t names fields)
  | AUnsupported what unimpl message => lift (bindUnsupported b what unimpl message)
  end.
End binder.
