(* ===== verification/BinderOk.v ===== *)
(** * The binder is sound

    Binding never panics, and what it returns is well-formed in the typing environment of
    the query: its parameters, the columns of its scope and the aggregate calls found so
    far.  The aggregate calls themselves are well-formed without aggregates, and their
    first state fits their arguments and their type. *)

From stdpp Require Import base list.
From Stdlib Require Import ZArith Lia.
From Stdlib Require Import Floats.SpecFloat.
From S2P Require Import Prelude Proto Rows Server Hll Tokens KeySchema Lexer SqlValues SqlFloat SqlArith SqlTime SqlDates Like SqlOps SqlCast Bexpr Aggregates BindOps Funcs FuncsMath FuncsArray SqlText FuncsString FuncsPattern FuncsMisc TimeFmt FuncsTime Ast Binder.

#[local] Open Scope Z_scope.

(** ** Well-formedness does not depend on later aggregates *)

Definition extends (G G' : tenv) : Prop := te_params G = te_params G' /\ te_cols G = te_cols G' /\ te_group G = te_group G' /\ te_aggs G `prefix_of` te_aggs G'.
Lemma extends_refl G : extends G G.
Proof. by split_and!. Qed.
Lemma extends_trans G1 G2 G3 : extends G1 G2 -> extends G2 G3 -> extends G1 G3.
Proof. intros (? & ? & ? & ?) (? & ? & ? & ?). split_and!; try congruence. by etrans. Qed.
Lemma wf_extends G G' e : extends G G' -> wf G e -> wf G' e.
Proof.
  intros (Hp & Hc & Hg & Ha). induction e as [e IH] using bexpr_nested. intros Hwf. inversion Hwf as [e' Hargs Hnode Hctor Hname]; subst e'. constructor; [|  |done|done].
  - rewrite list.Forall_forall in *. intros a Hin. by apply IH, Hargs.
  - unfold node_ok in *. rewrite <- Hp, <- Hc, <- Hg. destruct (e_kind e); try done. by eapply prefix_lookup_Some.
Qed.
Lemma all_wf_extends G G' l : extends G G' -> Forall (wf G) l -> Forall (wf G') l.
Proof. intros Hx Hl. eapply Forall_impl; [exact Hl|]. intros e. by apply wf_extends. Qed.

(** ** The accumulator of an aggregate call *)

Definition base_ok (G : tenv) (a : aggBase) : Prop := Forall (wf G) (ab_args a) /\ state_ok (e_typ <$> ab_args a) (ab_typ a) (ab_state a).
Definition gives {A : Type} (Q : A -> Prop) (r : outcome A) : Prop := match r with Ret a => Q a | Err _ => True | Panic => False end.
Lemma gives_bind {A C : Type} (Q : A -> Prop) (Q' : C -> Prop) (r : outcome A) k : gives Q r -> (forall a, Q a -> gives Q' (k a)) -> gives Q' (r ≫= k).
Proof. destruct r; cbn; auto. Qed.

Section aggregates.
Context `{TimeZones} `{Strconv} (G : tenv).

Definition agg_bind_ok (d : aggDef) : Prop := forall star args, Forall (wf G) args -> gives (base_ok G) (ad_bind d star args).

Lemma coerceEach_ok args : Forall (wf G) args -> forall types, gives (fun xs => Forall (wf G) xs /\ Forall2 (fun x t => typesEqual (e_typ x) t = true) xs types) (coerceEach args types).
Proof.
  induction 1 as [|a args Ha Hargs IH]; intros [|t types]; cbn [coerceEach]; try done. apply (gives_bind (fun x => wf G x /\ typesEqual (e_typ x) t = true)); [by apply coerceTo_as|]. intros x [Hx Ht].
  eapply gives_bind; [apply IH|]. intros xs [Hxs Hts]. split; by constructor.
Qed.
Lemma types_eq xs types : Forall (fun t => scalar t = true) types -> Forall2 (fun x t => typesEqual (e_typ x) t = true) xs types -> e_typ <$> xs = types.
Proof. intros Hs Hf. induction Hf as [|x t xs types Hx Hf IH]; [done|]. apply Forall_cons in Hs as [Ht Hs]. cbn. rewrite (IH Hs). f_equal. by apply typesEqual_scalar. Qed.
Lemma simpleAgg_ok types ret st star args : Forall (fun t => scalar t = true) types -> state_ok types ret st -> Forall (wf G) args -> gives (base_ok G) (simpleAgg types ret st star args).
Proof.
  intros Hs Hst Hargs. unfold simpleAgg. destruct (negb _); [done|]. eapply gives_bind; [by apply coerceEach_ok|]. intros xs [Hxs Ht]. split; [done|]. cbn. by rewrite (types_eq xs types).
Qed.
Lemma oneArg_ok f star args : (forall a, wf G a -> gives (base_ok G) (f a)) -> Forall (wf G) args -> gives (base_ok G) (oneArg f star args).
Proof. intros Hf Hargs. destruct args as [|a [|]]; try done. apply Forall_cons in Hargs as [Ha _]. by apply Hf. Qed.
Lemma typedNull_ok a : wf G a -> gives (wf G) (typedNull a).
Proof.
  intros Ha. unfold typedNull. destruct (isNullLit a) eqn:En; [|done]. destruct (coerce_null G a TInt64 En) as (e & Ee & He & _). unfold coerceOr. rewrite Ee. by apply He.
Qed.
Lemma base1 a t st : wf G a -> state_ok [e_typ a] t st -> base_ok G (mkBase [a] t st).
Proof. intros Ha Hs. split; [by apply all1|done]. Qed.

Lemma zeros n : Forall (fun f => valid64 f = true) (List.repeat fzero n).
Proof. induction n; by constructor. Qed.

Lemma countAgg_ok star args : Forall (wf G) args -> gives (base_ok G) (countAgg star args).
Proof.
  intros Hargs. unfold countAgg. destruct star; [split; [done|]; cbn; split_and!; [done|done|by left]|]. destruct args as [|a [|]]; try done. split; [done|]. cbn. split_and!; [done|done|by right].
Qed.
Lemma sumAgg_ok star args : Forall (wf G) args -> gives (base_ok G) (sumAgg star args).
Proof.
  intros Hargs. apply oneArg_ok; [|done]. intros a Ha. destruct (isInt64 (e_typ a) || isNullLit a) eqn:Ei.
  - apply (gives_bind (fun x => wf G x /\ typesEqual (e_typ x) TInt64 = true)); [by apply coerceOr_int64|]. intros x [Hx Ht%typesEqual_scalar]; [|done]. apply base1; [done|]. rewrite Ht. by exists [].
  - apply (gives_bind (fun x => wf G x /\ typesEqual (e_typ x) TFloat64 = true)); [by apply coerceTo_as|]. intros x [Hx Ht%typesEqual_scalar]; [|done]. apply base1; [done|]. rewrite Ht. by exists [].
Qed.
Lemma coerceOr_wf a t : wf G a -> gives (wf G) (coerceOr a t).
Proof. intros Ha. unfold coerceOr. pose proof (coerce_as G a t Ha) as Hc. destruct (coerce a t); [apply Hc|done|done]. Qed.
Lemma avgAgg_ok star args : Forall (wf G) args -> gives (base_ok G) (avgAgg star args).
Proof.
  intros Hargs. apply oneArg_ok; [|done]. intros a Ha. destruct (_ && _); [done|]. apply (gives_bind (wf G)); [destruct (isFloat32 _); [by apply coerceOr_wf|done]|]. intros a1 H1. apply (gives_bind (wf G)); [by apply typedNull_ok|]. intros a2 H2. by apply base1.
Qed.
Lemma minMax_ok max star args : Forall (wf G) args -> gives (base_ok G) (minMax max star args).
Proof.
  intros Hargs. apply oneArg_ok; [|done]. intros a Ha. apply (gives_bind (wf G)); [by apply typedNull_ok|]. intros x Hx. destruct (_ || _); [done|]. apply base1; [done|]. by exists [].
Qed.
Lemma anyValue_ok star args : Forall (wf G) args -> gives (base_ok G) (anyValue star args).
Proof. intros Hargs. apply oneArg_ok; [|done]. intros a Ha. apply base1; [done|]. by exists []. Qed.
Lemma arrayAgg_ok star args : Forall (wf G) args -> gives (base_ok G) (arrayAgg star args).
Proof.
  intros Hargs. apply oneArg_ok; [|done]. intros a Ha. apply (gives_bind (wf G)); [by apply typedNull_ok|]. intros x Hx. destruct (isArray _); [done|]. apply base1; [done|]. by exists (e_typ x), [].
Qed.
Lemma arrayConcatAgg_ok star args : Forall (wf G) args -> gives (base_ok G) (arrayConcatAgg star args).
Proof.
  intros Hargs. apply oneArg_ok; [|done]. intros a Ha. destruct (isArray (e_typ a)) eqn:Ea; [|done]. apply base1; [done|]. destruct (e_typ a) as [| | | | | | | | |t| |]; try done. by exists t, [].
Qed.
Lemma approx_ok star args : Forall (wf G) args -> gives (base_ok G) (approxCountDistinct star args).
Proof. intros Hargs. apply oneArg_ok; [|done]. intros a Ha. destruct (groupable _); [|done]. apply base1; [done|]. split_and!; [done|done|done| |exact I]. intros _. unfold hllDefaultPrecision, hllMaxPrecision. lia. Qed.
Lemma hllPrecision_ok x : wf G x -> gives (fun p => 4 <= p <= hllMaxPrecision) (hllPrecision x).
Proof.
  intros Hx. unfold hllPrecision. apply (gives_bind (fun x => wf G x /\ typesEqual (e_typ x) TInt64 = true)); [by apply coerceTo_as|]. intros y [Hy Ht%typesEqual_scalar]; [|done].
  destruct (bool_decide (e_kind y = ekConst)) eqn:Ek; [|done]. apply bool_decide_eq_true in Ek. inversion Hy as [y' _ Hnode _ _]; subst y'. unfold node_ok in Hnode. rewrite Ek, Ht in Hnode. destruct (e_val y); try done.
  destruct (_ || _) eqn:Er; [done|]. unfold hllMinPrecision in Er. cbn. lia.
Qed.
Lemma hllInit_ok star args : Forall (wf G) args -> gives (base_ok G) (hllInit star args).
Proof.
  intros Hargs. unfold hllInit. destruct args as [|a args]; [done|]. apply Forall_cons in Hargs as [Ha Hargs].
  assert (forall a p, wf G a -> 4 <= p <= hllMaxPrecision -> base_ok G (mkBase [a] TBytes (hllState None p false false))) as Hb. { intros a' p Ha' Hp. apply base1; [done|]. split_and!; [done|done|done|intros _; exact Hp|exact I]. }
  assert (4 <= hllInitPrecision <= hllMaxPrecision) as H15 by (unfold hllInitPrecision, hllMaxPrecision; lia).
  destruct args as [|x [|]]; [| |done]; apply (gives_bind (wf G)); try (by apply typedNull_ok); intros a' Ha'; destruct (e_typ a'); try done; cbn [mbind outcome_bind gives]; try (by apply Hb).
  all: apply Forall_cons in Hargs as [Hx _]; eapply gives_bind; [by apply hllPrecision_ok|]; intros p Hp; by apply Hb.
Qed.
Lemma coerceAll_text (isStr : bool) args : Forall (wf G) args -> forallb (fun a => canCoerce a (if isStr then TString else TBytes)) args = true ->
  exists xs, coerceAll args (if isStr then TString else TBytes) = Ret xs /\ Forall (wf G) xs /\ length xs = length args /\ Forall (fun x => e_typ x = if isStr then TString else TBytes) xs.
Proof.
  intros Hargs Hc. set (t := if isStr then TString else TBytes) in *. assert (t = TString \/ t = TBytes) as Ht by (destruct isStr; auto). unfold coerceAll. induction Hargs as [|a args Ha Hargs IH]; [by exists []|]. cbn [forallb] in Hc. apply andb_prop in Hc as [Hca Hc]. destruct (IH Hc) as (xs & Exs & Hxs & Hl & Hts). cbn [collectM].
  assert (emptyArray a && isArray t = false) as -> by (rewrite andb_comm; by destruct isStr).
  assert (exists x, coerce a t = Ret x /\ wf G x /\ e_typ x = t) as (x & Ex & Hx & Htx).
  { pose proof (coerceOr_text G a t Ht Ha Hca) as Ho. pose proof (coerce_as G a t Ha) as Hca'. unfold coerceOr in Ho. destruct (coerce a t) as [x| |] eqn:Ec; [|exfalso|done].
    - exists x. destruct Hca' as [? Ht']. split_and!; [done|done|]. apply typesEqual_scalar; try done. by destruct isStr.
    - destruct Ho as [_ Hs]. by rewrite (coerce_same a t Hs) in Ec. }
  rewrite Ex. cbn [mbind outcome_bind]. rewrite Exs. exists (x :: xs). split_and!; [done|by constructor|cbn; by f_equal|by constructor].
Qed.
Lemma stringAggOf_ok (isStr : bool) args : Forall (wf G) args -> args <> [] -> forallb (fun a => canCoerce a (if isStr then TString else TBytes)) args = true -> gives (base_ok G) (stringAggOf isStr args).
Proof.
  intros Hargs Hne Hc. unfold stringAggOf. destruct (coerceAll_text isStr args Hargs Hc) as (xs & -> & Hxs & Hl & Ht). cbn [mbind outcome_bind gives]. split; [done|]. cbn. split_and!; [done|destruct xs, args; done| |constructor|by apply str_bytes].
  apply Forall_fmap. eapply Forall_impl; [exact Ht|]. intros x Hx. cbn. by rewrite Hx.
Qed.
Lemma stringAgg_ok star args : Forall (wf G) args -> gives (base_ok G) (stringAgg star args).
Proof.
  intros Hargs. unfold stringAgg. destruct args as [|a args]; [done|]. destruct (_ && _); [done|]. destruct (forallb _ _) eqn:E1; [by apply (stringAggOf_ok true)|]. destruct (forallb (fun a => canCoerce a TBytes) _) eqn:E2; [by apply (stringAggOf_ok false)|done].
Qed.

(** Every function of the table. *)
Lemma aggFuncs_ok : Forall (fun p => agg_bind_ok p.2) aggFuncs.
Proof.
  assert (forall types ret st d o, Forall (fun t => scalar t = true) types -> state_ok types ret st -> agg_bind_ok (mkDef (simpleAgg types ret st) d o)) as Hs by (intros types ret st d o Ht Hst star args Ha; by apply simpleAgg_ok).
  assert (forall op, agg_bind_ok (bitAgg op)) as Hb by (intros op; apply Hs; [by repeat constructor|by exists []]).
  assert (forall kind, agg_bind_ok (momentAgg kind)) as Hm by (intros kind; apply Hs; [by repeat constructor|]; split_and!; [done|done|exact (zeros 6)]).
  assert (forall kind, agg_bind_ok (pairAgg kind)) as Hp by (intros kind; apply Hs; [by repeat constructor|]; split_and!; [done|done|exact (zeros 6)]).
  assert (forall count, state_ok [TBytes] (if count : bool then TInt64 else TBytes) (hllState None 0 true count)) as Hh by (intros count; split_and!; [done|by exists []|done|done|done]).
  unfold aggFuncs. repeat (apply Forall_cons; split); try apply Forall_nil_2; cbn [snd]; try apply Hb; try apply Hm; try apply Hp.
  - intros star args. apply countAgg_ok.
  - apply Hs; [by repeat constructor|]. split_and!; [done|done|by right].
  - intros star args. apply sumAgg_ok.
  - intros star args. apply avgAgg_ok.
  - intros star args. apply minMax_ok.
  - intros star args. apply minMax_ok.
  - intros star args. apply anyValue_ok.
  - apply Hs; [by repeat constructor|by exists []].
  - apply Hs; [by repeat constructor|by exists []].
  - intros star args. apply arrayAgg_ok.
  - intros star args. apply arrayConcatAgg_ok.
  - intros star args. apply stringAgg_ok.
  - intros star args. apply approx_ok.
  - intros star args. apply hllInit_ok.
  - apply Hs; [by repeat constructor|apply (Hh true)].
  - apply Hs; [by repeat constructor|apply (Hh false)].
Qed.
End aggregates.

(** ** Trees that a parser can produce *)

Fixpoint type_ok (t : astType) : bool :=
  match t with
  | TyName name => negb (bool_decide (name = str "ARRAY")) && negb (bool_decide (name = str "MAP"))
  | TyArray elem => type_ok elem
  | TyMap key val => type_ok key && type_ok val
  | TyStruct fields => forallb (fun f => type_ok f.2) fields
  end.
Definition lit_ok (kind : litKind) (val : value) : bool :=
  match kind with
  | litNone | litNull => true | litBool => has_type val TBool | litInt => has_type val TInt64 | litFloat => has_type val TFloat64
  | litString => has_type val TString | litBytes => has_type val TBytes
  end.
Definition opt_ok {A : Type} (f : A -> bool) (o : option A) : bool := match o with Some x => f x | None => true end.
Definition structType_ok (t : option astType) : bool := match t with Some (TyStruct fs) => type_ok (TyStruct fs) | None => true | Some _ => false end.
(** The two functions that panic on some arguments. *)
Definition panicking : list bytes := [str "REPEAT"; str "REGEXP_INSTR"].
(** Trees that do not call the functions [excluded].  The parser gives the operators IS
    [NOT] DISTINCT FROM two operands. *)
Section trees.
Context (excluded : list bytes).
Definition call_ok (name : bytes) (nargs : nat) : bool :=
  negb (bool_decide (name ∈ excluded)) &&
  (negb (bool_decide (name ∈ [str "$is_distinct_from"; str "$is_not_distinct_from"])) || Nat.eqb nargs 2).
Fixpoint ast_ok (e : astExpr) : bool :=
  match e with
  | ALit kind val => lit_ok kind val
  | ATypedLit _ _ | AParam _ | AIdent _ _ | AUnsupported _ _ _ => true
  | AField x _ | AUnary _ x | AIs x _ _ | AInterval x _ => ast_ok x
  | AIndex x _ y | ABinary _ x y | ALike x y _ => ast_ok x && ast_ok y
  | AIn x _ items unnest => ast_ok x && forallb ast_ok items && match unnest with Some u => ast_ok u | None => true end
  | ABetween x lo hi _ => ast_ok x && ast_ok lo && ast_ok hi
  | ACase operand whens els =>
      match operand with Some o => ast_ok o | None => true end && forallb (fun w => ast_ok w.1 && ast_ok w.2) whens && match els with Some x => ast_ok x | None => true end
  | ACall name args flags orderBy limit =>
      call_ok name (length args) && forallb ast_ok args && forallb (fun o => ast_ok o.1) orderBy && match limit with Some l => ast_ok l | None => true end
  | ACast x typ _ => ast_ok x && type_ok typ
  | AExtract part x tz => ast_ok x && match tz with Some z => ast_ok z | None => true end
  | AArray elemType elems => opt_ok type_ok elemType && forallb ast_ok elems
  | AStruct typ fields names => structType_ok typ && forallb ast_ok fields && Nat.leb (length fields) (length names)
  end.
End trees.

Lemma astType_nested (P : astType -> Prop) : (forall n, P (TyName n)) -> (forall e, P e -> P (TyArray e)) -> (forall k v, P k -> P v -> P (TyMap k v)) -> (forall fs, Forall (fun f => P f.2) fs -> P (TyStruct fs)) -> forall t, P t.
Proof.
  intros Hn Ha Hm Hs. fix IH 1. intros [n|e|k v|fs]; [apply Hn|apply Ha, IH|apply Hm; apply IH|]. apply Hs. induction fs as [|[n t] fs IHfs]; constructor; [apply IH|exact IHfs].
Qed.
Lemma resolveType_safe t : type_ok t = true -> resolveType t <> Panic.
Proof.
  induction t as [n|e IH|k v IHk IHv|fs IH] using astType_nested; cbn [type_ok resolveType]; intros Hok.
  - apply andb_prop in Hok as [->%negb_true_iff ->%negb_true_iff]. by repeat case_match.
  - specialize (IH Hok). destruct (resolveType e); cbn; try done. by destruct (isArray _).
  - apply andb_prop in Hok as [Hk Hv]. specialize (IHk Hk). specialize (IHv Hv). destruct (resolveType k); cbn; try done. by destruct (resolveType v).
  - match goal with |- (fs ← ?go fs; _) <> Panic => set (f := go) end. assert (f fs <> Panic) as Hf; [|by destruct (f fs)].
    induction IH as [|[n t] fs Ht Hfs IH]; [done|]. cbn [forallb] in Hok. apply andb_prop in Hok as [Ho Hos]. specialize (Ht Ho). specialize (IH Hos). cbn in Ht |- *. destruct (resolveType t); cbn; try done. by destruct (f fs).
Qed.
Lemma resolveStruct t r : structType_ok t = true -> typeOpt t = Ret r -> structType r.
Proof.
  destruct t as [[n|e|k v|fs]|]; try done; cbn [typeOpt resolveType]; intros _ Hr; [|by injection Hr as <-]. inv_outcome. done.
Qed.
Lemma typeOpt_safe t : opt_ok type_ok t = true -> typeOpt t <> Panic.
Proof. destruct t as [t|]; [|done]. cbn. intros Ht%resolveType_safe. by destruct (resolveType t). Qed.

(** ** Names *)

Section names.
Context `{Folding}.

Definition index_in {A : Type} (l : list A) (o : option nat) : Prop := match o with Some i => (i < length l)%nat | None => True end.
Lemma onlyCol_in p all : forall cols i found, all = take i all ++ cols -> (i + length cols = length all)%nat -> index_in all found -> gives (index_in all) (onlyCol p i cols found).
Proof.
  induction cols as [|c cols IH]; intros i found Ha Hl Hf; cbn [onlyCol]; [done|]. cbn in Hl. assert (all = take (S i) all ++ cols) as Ha'. { rewrite (take_S_r all i c), <- app_assoc; [done|]. rewrite Ha. by rewrite list_lookup_middle by (rewrite length_take; lia). }
  destruct (p c); [destruct found; [done|]|]; apply IH; try done; cbn; lia.
Qed.
Lemma lookup_in s name : gives (index_in (sc_cols s)) (lookup s name).
Proof.
  unfold lookup. assert (forall p, gives (index_in (sc_cols s)) (onlyCol p 0 (sc_cols s) None)) as Ho by (intros p; by apply onlyCol_in).
  eapply gives_bind; [apply Ho|]. intros [i|] Hi; [done|apply Ho].
Qed.
Lemma onlyField_in name all : forall fs i found, all = take i all ++ fs -> (i + length fs = length all)%nat -> index_in all found -> gives (index_in all) (onlyField name i fs found).
Proof.
  induction fs as [|f fs IH]; intros i found Ha Hl Hf; cbn [onlyField]; [done|]. cbn in Hl. assert (all = take (S i) all ++ fs) as Ha'. { rewrite (take_S_r all i f), <- app_assoc; [done|]. rewrite Ha. by rewrite list_lookup_middle by (rewrite length_take; lia). }
  destruct (EqualFold _ _); [destruct found; [done|]|]; apply IH; try done; cbn; lia.
Qed.
Lemma indexOf_in {A : Type} (p : A -> bool) (all : list A) : forall l i, (i + length l = length all)%nat -> index_in all (indexOf p i l).
Proof. induction l as [|a l IH]; intros i Hl; cbn; [done|]. cbn in Hl. destruct (p a); [cbn; lia|apply IH; lia]. Qed.
Lemma lookupParam_in params name : index_in params (lookupParam params name).
Proof. unfold lookupParam. pose proof (indexOf_in (fun p => bool_decide (pi_name p = name)) params params 0 eq_refl) as Hi. destruct (indexOf _ 0 params); [done|]. by apply indexOf_in. Qed.

Context (G : tenv).
Lemma fieldRef_wf x fs i f : wf G x -> e_typ x = TStruct fs -> fs !! i = Some f -> wf G (fieldRef x f.2 i).
Proof.
  intros Hx Ht Hf. apply wf_set_extra, (wf_call1 _ _ _ _ _ (TStruct fs)); [done|done|by rewrite Ht; apply typesEqual_refl|]. intros v Hv Hn. by eapply fieldFn_yields.
Qed.
Lemma fieldAccess_ok x name : wf G x -> gives (wf G) (fieldAccess x name).
Proof.
  intros Hx. unfold fieldAccess. destruct (e_typ x) as [| | | | | | | | | |fs|] eqn:Ht; try done. eapply gives_bind; [by apply (onlyField_in name fs)|]. intros [i|] Hi; [|done]. cbn in Hi. destruct (lookup_lt_is_Some_2 fs i Hi) as [f Hf]. rewrite Hf. by eapply fieldRef_wf.
Qed.
Lemma fieldPath_ok names : forall x, wf G x -> gives (wf G) (fieldPath x names).
Proof. induction names as [|n names IH]; intros x Hx; [done|]. cbn. eapply gives_bind; [by apply fieldAccess_ok|]. apply IH. Qed.
End names.

(** ** The invariant of binding *)

Definition specs (st : bstate) : list aggSpec := (bs_aggs st).*2.
Definition colTypes (s : option scope) : list sqlType := match s with Some s => sc_typ <$> sc_cols s | None => [] end.
(** The parameters and columns that a binder sees; with the aggregates of the query. *)
Definition rowEnv (b : binder) : tenv := mkTenv (pi_typ <$> b_params b) (colTypes (b_scope b)) [] [].
Definition collects (b : binder) : bool := b_aggs b && negb (b_inAgg b).
Definition seesAggs (b : binder) : bool := collects b || match b_aliases b with Some _ => true | None => false end.
Definition envOf (b : binder) (st : bstate) : tenv := mkTenv (pi_typ <$> b_params b) (colTypes (b_scope b)) [] (if seesAggs b then as_typ <$> specs st else []).

(** An aggregate call that can run: [R] is the environment of its rows. *)
Definition spec_ok (R : tenv) (s : aggSpec) : Prop :=
  Forall (wf R) (as_args s) /\ state_ok (e_typ <$> as_args s) (as_typ s) (as_newState s) /\ Forall (fun o => wf R (or_expr o)) (as_orderBy s) /\
  match as_limit s with Some l => wf (mkTenv (te_params R) [] [] []) l /\ e_typ l = TInt64 | None => True end.
Definition st_ok (R : tenv) (st : bstate) : Prop := Forall (spec_ok R) (specs st).
Definition alias_ok (b : binder) (st : bstate) : Prop :=
  match b_aliases b with Some f => forall name, gives (fun r => match r with Some e => wf (envOf b st) e | None => True end) (f name) | None => True end.
Definition binder_ok (R : tenv) (b : binder) (st : bstate) : Prop := te_params R = pi_typ <$> b_params b /\ (collects b = true -> rowEnv b = R) /\ alias_ok b st.

Definition grows (st st' : bstate) : Prop := bs_aggs st `prefix_of` bs_aggs st'.
#[global] Instance grows_preorder : PreOrder grows.
Proof. split; [by intros st; unfold grows|]. intros st1 st2 st3. unfold grows. apply transitivity. Qed.
Lemma grows_env b st st' : grows st st' -> extends (envOf b st) (envOf b st').
Proof. intros [l Hl]. split_and!; try done. cbn. destruct (seesAggs b); [|done]. unfold specs. rewrite Hl, !fmap_app. by apply prefix_app_r. Qed.
Lemma binder_ok_grows R b st st' : grows st st' -> binder_ok R b st -> binder_ok R b st'.
Proof.
  intros Hg (Hp & Hr & Ha). split_and!; [done|done|]. unfold alias_ok in *. destruct (b_aliases b) as [f|]; [|done]. intros name. specialize (Ha name). destruct (f name) as [[e|]| |]; try done. cbn in *. eapply wf_extends; [by apply grows_env|done].
Qed.

(** An action keeps the aggregates well-formed, adds to them only, and yields [Q]. *)
Definition safe {A : Type} (R : tenv) (st : bstate) (Q : bstate -> A -> Prop) (r : outcome (A * bstate)) : Prop :=
  match r with Ret (a, st') => st_ok R st' /\ grows st st' /\ Q st' a | Err _ => True | Panic => False end.
Section safe.
Context (R : tenv).
Lemma safe_bind {A C : Type} st Q Q' (m : B A) (k : A -> B C) : safe R st Q (m st) -> (forall a st', st_ok R st' -> grows st st' -> Q st' a -> safe R st' Q' (k a st')) -> safe R st Q' ((m ≫= k) st).
Proof.
  intros Hm Hk. unfold mbind, B_bind. cbn. destruct (m st) as [[a st']| |]; cbn; try done. destruct Hm as (Hs & Hg & Hq). specialize (Hk a st' Hs Hg Hq). destruct (k a st') as [[c st'']| |]; try done. destruct Hk as (? & ? & ?). split_and!; try done. by etrans.
Qed.
Lemma safe_ret {A : Type} st (Q : bstate -> A -> Prop) a : st_ok R st -> Q st a -> safe R st Q ((mret a : B A) st).
Proof. intros. cbn. split_and!; done. Qed.
Lemma safe_lift {A : Type} st (Q : bstate -> A -> Prop) r : st_ok R st -> gives (Q st) r -> safe R st Q (lift r st).
Proof. intros Hs Hr. unfold lift. destruct r; cbn in *; try done. Qed.
Lemma safe_mono {A : Type} st (Q Q' : bstate -> A -> Prop) r : safe R st Q r -> (forall st' a, grows st st' -> Q st' a -> Q' st' a) -> safe R st Q' r.
Proof. intros Hr Hq. destruct r as [[a st']| |]; cbn in *; try done. destruct Hr as (? & ? & ?). split_and!; auto. Qed.
End safe.

(** ** Functions *)

Section functions.
Context `{TimeZones} `{Strconv} `{Unicode} `{Folding} `{Regexp} `{Fmt} `{MathLib} `{Json} `{Estimator}.
Context (R : tenv) (b : binder).

(** The actions of this binder. *)
Definition runs {A : Type} (Q : tenv -> A -> Prop) (st : bstate) (m : B A) : Prop := safe R st (fun st' a => Q (envOf b st') a) (m st).
Definition good {A : Type} (Q : tenv -> A -> Prop) (m : B A) : Prop := forall st, st_ok R st -> binder_ok R b st -> runs Q st m.
Abbreviation typed := (fun (t : sqlType) (G : tenv) (e : bexpr) => wf G e /\ typesEqual (e_typ e) t = true).
Lemma later_wf st st' e : grows st st' -> wf (envOf b st) e -> wf (envOf b st') e.
Proof. intros Hg. by apply wf_extends, grows_env. Qed.

Lemma good_bind {A C : Type} (Q : tenv -> A -> Prop) (Q' : tenv -> C -> Prop) (m : B A) (k : A -> B C) st : good Q m -> st_ok R st -> binder_ok R b st ->
  (forall a st', st_ok R st' -> binder_ok R b st' -> grows st st' -> Q (envOf b st') a -> runs Q' st' (k a)) -> runs Q' st (m ≫= k).
Proof. intros Hm Hs Hb Hk. apply (safe_bind R st (fun st' a => Q (envOf b st') a)); [by apply Hm|]. intros a st' Hs' Hg Hq. apply Hk; try done. by eapply binder_ok_grows. Qed.
Lemma lift_bind {A C : Type} (Q : A -> Prop) (Q' : tenv -> C -> Prop) (r : outcome A) (k : A -> B C) st : gives Q r -> (forall a, Q a -> runs Q' st (k a)) -> runs Q' st (lift r ≫= k).
Proof. intros Hr Hk. unfold runs, mbind, B_bind, lift. cbn. destruct r; cbn in *; try done. by apply Hk. Qed.
Lemma runs_ret {A : Type} (Q : tenv -> A -> Prop) st a : st_ok R st -> Q (envOf b st) a -> runs Q st (mret a).
Proof. intros Hs Hq. by apply safe_ret. Qed.
Lemma runs_lift {A : Type} (Q : tenv -> A -> Prop) st r : st_ok R st -> gives (Q (envOf b st)) r -> runs Q st (lift r).
Proof. intros Hs Hr. by apply safe_lift. Qed.
Lemma runs_fail {A : Type} (Q : tenv -> A -> Prop) st c : runs Q st (failB c).
Proof. done. Qed.
Lemma seq_length (l : list (B bexpr)) : Forall (good wf) l -> good (fun G xs => Forall (wf G) xs /\ length xs = length l) (seqB l).
Proof.
  induction 1 as [|m l Hm Hl IH]; intros st Hs Hb; cbn [seqB]; [by apply runs_ret|]. apply (good_bind wf); [done|done|done|]. intros x st1 Hs1 Hb1 Hg1 Hx.
  apply (good_bind _ _ _ _ _ IH); [done|done|]. intros xs st2 Hs2 Hb2 Hg2 [Hxs Hlen]. apply runs_ret; [done|]. split; [|cbn; by f_equal]. constructor; [by eapply later_wf|done].
Qed.
Lemma seq_good (l : list (B bexpr)) : Forall (good wf) l -> good (fun G => Forall (wf G)) (seqB l).
Proof.
  intros Hl st Hs Hb. eapply safe_mono; [by apply (seq_length l Hl)|]. by intros st' xs _ [? _].
Qed.
Lemma opt_good {A : Type} (Q : tenv -> A -> Prop) (o : option (B A)) : match o with Some m => good Q m | None => True end -> good (fun G r => match r with Some a => Q G a | None => True end) (optB o).
Proof.
  intros Ho st Hs Hb. destruct o as [m|]; cbn [optB]; [|by apply runs_ret]. apply (good_bind Q); [done|done|done|]. intros a st1 Hs1 _ _ Ha. by apply runs_ret.
Qed.

(** *** Unbound arguments *)

Definition arg_good (a : argument) : Prop := good wf (arg_bind a) /\ match arg_interval a with Some (n, _) => good wf n | None => True end.
Definition interval_ok (allowed : list bytes) (G : tenv) (p : bexpr * bytes) : Prop := typed TInt64 G p.1 /\ p.2 ∈ allowed.
Lemma bindInterval_good n unit allowed : good wf n -> good (interval_ok allowed) (bindInterval n unit allowed).
Proof.
  intros Hn st Hs Hb. unfold bindInterval. apply (good_bind wf); [done|done|done|]. intros e st1 Hs1 _ _ He. apply (lift_bind (typed TInt64 (envOf b st1))); [by apply coerceTo_as|]. intros x Hx. destruct (bool_decide _) eqn:Eu; [|done]. apply bool_decide_eq_true in Eu. by apply runs_ret.
Qed.
Lemma bindIntervalArg_good a allowed : arg_good a -> good (interval_ok allowed) (bindIntervalArg a allowed).
Proof. intros [_ Ha]. unfold bindIntervalArg. destruct (arg_interval a) as [[n u]|]; [by apply bindInterval_good|done]. Qed.
Lemma bindIntervalArith_good minus base n unit st : st_ok R st -> binder_ok R b st -> wf (envOf b st) base -> good wf n -> runs wf st (bindIntervalArith minus base n unit).
Proof.
  intros Hs Hb Hbase Hn. unfold bindIntervalArith. destruct (e_typ base) eqn:Et; try done.
  - apply (good_bind _ _ _ _ _ (bindInterval_good n unit tsAddParts Hn)); [done|done|]. intros [x u] st1 Hs1 _ Hg [[Hx Ht] _]. apply runs_ret; [done|]. apply tsAddExpr_wf; try done; [by eapply later_wf|by rewrite Et].
  - apply (good_bind _ _ _ _ _ (bindInterval_good n unit dateAddParts Hn)); [done|done|]. intros [x u] st1 Hs1 _ Hg [[Hx Ht] _]. apply runs_ret; [done|]. apply dateAddExpr_wf; try done; [by eapply later_wf|by rewrite Et].
Qed.
Lemma bindCoerced_good a t : arg_good a -> good (typed t) (bindCoerced a t).
Proof. intros [Ha _] st Hs Hb. unfold bindCoerced. apply (good_bind wf); [done|done|done|]. intros e st1 Hs1 _ _ He. apply runs_lift; [done|]. by apply coerceTo_as. Qed.
Definition part_ok (allowed : list bytes) (dp : datePart) : Prop := dp_name dp ∈ allowed.
Lemma checkPart_ok name allowed : gives (part_ok allowed) (checkPart name allowed).
Proof. unfold checkPart. destruct (bool_decide _); [done|]. destruct (bool_decide (name ∈ allowed)) eqn:E; [|done]. by apply bool_decide_eq_true in E. Qed.
Lemma datePart_ok x allowed : gives (part_ok allowed) (datePartFromAST x allowed).
Proof.
  destruct x as [| | |name q| | | | | | | | | |name args flags os lim| | | | | |]; try done; cbn [datePartFromAST]; [apply checkPart_ok|]. destruct args as [|[| | |day q| | | | | | | | | | | | | | | |] [|]]; try done. destruct (bool_decide (name = _)); [|done]. destruct (weekdayOf _ _ _); [|done].
  destruct (bool_decide (_ ∈ allowed)) eqn:E; [|done]. by apply bool_decide_eq_true in E.
Qed.
Lemma partOf_bind {C : Type} (Q' : tenv -> C -> Prop) a allowed (k : datePart -> B C) st : (forall dp, part_ok allowed dp -> runs Q' st (k dp)) -> runs Q' st (partOf a allowed ≫= k).
Proof. intros Hk. by apply (lift_bind (part_ok allowed)); [apply datePart_ok|]. Qed.

(** *** Functions of unbound arguments *)

Definition raw_good (f : list argument -> B bexpr) : Prop := forall args, Forall arg_good args -> good wf (f args).
Lemma later_typed st st' t e : grows st st' -> typed t (envOf b st) e -> typed t (envOf b st') e.
Proof. intros Hg [He Ht]. split; [by eapply later_wf|done]. Qed.
Lemma later_opt st st' t o : grows st st' -> optTyped (envOf b st) t o -> optTyped (envOf b st') t o.
Proof. intros Hg. destruct o as [o|]; [|done]. by apply later_typed. Qed.
Lemma coerced_good a t (Q' : tenv -> bexpr -> Prop) k st : arg_good a -> st_ok R st -> binder_ok R b st ->
  (forall x st', st_ok R st' -> binder_ok R b st' -> grows st st' -> typed t (envOf b st') x -> runs Q' st' (k x)) -> runs Q' st (bindCoerced a t ≫= k).
Proof. intros Ha Hs Hb Hk. by apply (good_bind (typed t) _ _ _ _ (bindCoerced_good a t Ha)). Qed.
Lemma interval_good a allowed (Q' : tenv -> bexpr -> Prop) k st : arg_good a -> st_ok R st -> binder_ok R b st ->
  (forall p st', st_ok R st' -> binder_ok R b st' -> grows st st' -> typed TInt64 (envOf b st') p.1 -> runs Q' st' (k p)) -> runs Q' st (bindIntervalArg a allowed ≫= k).
Proof. intros Ha Hs Hb Hk. apply (good_bind _ _ _ _ _ (bindIntervalArg_good a allowed Ha)); [done|done|]. intros p st' Hs' Hb' Hg [Hp _]. by apply Hk. Qed.

(** Splits the arguments of a function off the list. *)
Ltac take_args := repeat match goal with H : Forall arg_good (_ :: _) |- _ => apply Forall_cons in H as [? H] end.
Lemma tsAddSub_good minus : raw_good (tsAddSub minus).
Proof.
  intros [|x [|i [|]]] Ha st Hs Hb; try done. take_args. apply (coerced_good x TTimestamp); [done|done|done|]. intros ts st1 Hs1 Hb1 _ Hts.
  apply interval_good; [done|done|done|]. intros [n u] st2 Hs2 _ Hg [Hn Tn]. apply runs_ret; [done|]. destruct (later_typed _ _ _ _ Hg Hts). by apply tsAddExpr_wf.
Qed.
Lemma dateAddSub_good minus : raw_good (dateAddSub minus).
Proof.
  intros [|x [|i [|]]] Ha st Hs Hb; try done. take_args. apply (coerced_good x TDate); [done|done|done|]. intros ts st1 Hs1 Hb1 _ Hts.
  apply interval_good; [done|done|done|]. intros [n u] st2 Hs2 _ Hg [Hn Tn]. apply runs_ret; [done|]. destruct (later_typed _ _ _ _ Hg Hts). by apply dateAddExpr_wf.
Qed.
Lemma tsAddParts_units dp : part_ok tsAddParts dp -> is_Some (unitMicros (dp_name dp)).
Proof. unfold part_ok, tsAddParts. rewrite !elem_of_cons. intros Hp. repeat destruct Hp as [-> | Hp]; [by eexists..|by apply elem_of_nil in Hp]. Qed.
Lemma timestampDiff_good : raw_good timestampDiff.
Proof.
  intros [|x [|y [|p [|]]]] Ha st Hs Hb; try done. take_args. apply (coerced_good x TTimestamp); [done|done|done|]. intros ex st1 Hs1 Hb1 _ Hx. apply (coerced_good y TTimestamp); [done|done|done|]. intros ey st2 Hs2 _ Hg Hy.
  apply partOf_bind. intros dp Hdp. apply runs_ret; [done|]. apply tsDiff_wf; [by apply tsAddParts_units|by eapply later_typed|done].
Qed.
Lemma dateDiff_good : raw_good dateDiffFunc.
Proof.
  intros [|x [|y [|p [|]]]] Ha st Hs Hb; try done. take_args. apply (coerced_good x TDate); [done|done|done|]. intros ex st1 Hs1 Hb1 _ Hx. apply (coerced_good y TDate); [done|done|done|]. intros ey st2 Hs2 _ Hg Hy.
  apply partOf_bind. intros dp _. apply runs_ret; [done|]. apply dateDiffExpr_wf; [by eapply later_typed|done].
Qed.
Lemma bindTrunc_good x p zone st : st_ok R st -> binder_ok R b st -> typed TTimestamp (envOf b st) x -> match zone with Some z => arg_good z | None => True end -> runs wf st (bindTrunc x p zone).
Proof.
  intros Hs Hb Hx Hz. apply partOf_bind. intros dp _. assert (good (fun G o => optTyped G TString o) (optB ((fun z => bindCoerced z TString) <$> zone))) as Ho by (apply opt_good; destruct zone; [by apply bindCoerced_good|done]).
  apply (good_bind _ _ _ _ _ Ho); [done|done|]. intros tz st1 Hs1 _ Hg Htz. apply runs_ret; [done|]. apply tsTrunc_wf; [by eapply later_typed|done].
Qed.
Lemma two_three_good f : (forall x y z, arg_good x -> arg_good y -> match z with Some z => arg_good z | None => True end -> good wf (f x y z)) -> raw_good (two_three f).
Proof. intros Hf [|x [|y [|z [|]]]] Ha; try done; take_args; by apply Hf. Qed.
Lemma timestampTrunc_good : raw_good timestampTrunc.
Proof.
  apply two_three_good. intros x p z Hx Hp Hz st Hs Hb. apply (coerced_good x TTimestamp); [done|done|done|]. intros ex st1 Hs1 Hb1 _ Hex. by apply bindTrunc_good.
Qed.
Lemma dateTrunc_good : raw_good dateTruncFunc.
Proof.
  apply two_three_good. intros x p z [Hx _] Hp Hz st Hs Hb. apply (good_bind wf); [done|done|done|]. intros ex st1 Hs1 Hb1 _ Hex. destruct (isTimestamp (e_typ ex)) eqn:Et.
  - apply bindTrunc_good; try done. split; [done|]. by destruct (e_typ ex).
  - apply (lift_bind (typed TDate (envOf b st1))); [by apply coerceTo_as|]. intros d Hd. destruct z; [done|]. apply partOf_bind. intros dp _. apply runs_ret; [done|]. by apply dateTrunc_wf.
Qed.
Lemma lastDay_good : raw_good lastDayFunc.
Proof.
  intros [|x [|p [|]]] Ha st Hs Hb; try done; take_args; (apply (coerced_good x TDate); [done|done|done|]); intros ex st1 Hs1 _ _ Hx; [|apply partOf_bind; intros dp _]; (apply runs_ret; [done|by apply lastDayExpr_wf]).
Qed.
Lemma genDates_good : raw_good generateDateArray.
Proof.
  apply two_three_good. intros x y z Hx Hy Hz st Hs Hb. apply (coerced_good x TDate); [done|done|done|]. intros ex st1 Hs1 Hb1 _ Hex. apply (coerced_good y TDate); [done|done|done|]. intros ey st2 Hs2 Hb2 Hg2 Hey.
  assert (good (fun G o => match o with Some p => interval_ok dateAddParts G p | None => True end) (optB ((fun i => bindIntervalArg i dateAddParts) <$> z))) as Ho by (apply opt_good; destruct z; [by apply bindIntervalArg_good|done]).
  apply (good_bind _ _ _ _ _ Ho); [done|done|]. intros step st3 Hs3 _ Hg3 Hst. apply runs_ret; [done|]. apply (later_typed _ _ _ _ Hg2), (later_typed _ _ _ _ Hg3) in Hex. apply (later_typed _ _ _ _ Hg3) in Hey. destruct step as [[n u]|]; [destruct Hst as [Hst _]|]; by apply genDatesExpr_wf.
Qed.
Lemma genTimestamps_good : raw_good generateTimestampArray.
Proof.
  intros [|x [|y [|i [|]]]] Ha st Hs Hb; try done. take_args. apply (coerced_good x TTimestamp); [done|done|done|]. intros ex st1 Hs1 Hb1 _ Hx. apply (coerced_good y TTimestamp); [done|done|done|]. intros ey st2 Hs2 Hb2 Hg2 Hy.
  apply interval_good; [done|done|done|]. intros [n u] st3 Hs3 _ Hg3 Hn. apply runs_ret; [done|]. apply genTimestampsExpr_wf; [by eapply later_typed, later_typed|by eapply later_typed|done].
Qed.
Lemma rawFuncs_good : Forall (fun p => raw_good p.2) rawFuncs.
Proof.
  unfold rawFuncs. repeat (apply Forall_cons; split); try apply Forall_nil_2; cbn [snd].
  1-2: apply tsAddSub_good. 1-2: apply dateAddSub_good. - apply timestampDiff_good. - apply dateDiff_good. - apply timestampTrunc_good. - apply dateTrunc_good. - apply lastDay_good. - apply genDates_good. - apply genTimestamps_good.
Qed.
Lemma bindExtract_ok st part x tz : wf (envOf b st) x -> optTyped (envOf b st) TString tz -> gives (wf (envOf b st)) (bindExtract part x tz).
Proof.
  intros Hx Hz. unfold bindExtract. apply (gives_bind (wf (envOf b st))); [destruct (bool_decide _); [by apply coerceOr_wf|done]|]. intros y Hy.
  assert (gives (wf (envOf b st)) (if isNullLit y then Ret (constExpr VNull TInt64 litNull) else Err InvalidArgument)) as Hn by (destruct (isNullLit y); [by apply wf_const|done]).
  destruct (e_typ y) eqn:Et; try exact Hn; [|destruct tz; [done|]]; (eapply gives_bind; [apply datePart_ok|]); intros dp _; cbn.
  - apply extractTsExpr_wf; [by rewrite Et|done].
  - apply extractDateExpr_wf. by rewrite Et.
Qed.

(** *** The table of functions *)

Lemma assoc_in {A : Type} name (l : list (bytes * A)) a : assoc name l = Some a -> (name, a) ∈ l.
Proof.
  unfold assoc. destruct (List.find _ l) as [[n x]|] eqn:E; [|done]. intros [= <-]. apply find_some in E as [Hin Hn%bool_decide_eq_true]. cbn in Hn. subst. by apply list_elem_of_In.
Qed.
Lemma randBinding_ok G : func_ok G (str "RAND", randBinding).
Proof.
  intros [|x args] _; [|done]. apply wf_rand.
Qed.
Lemma scalar_binds G name bind args : assoc name scalarFuncs = Some bind -> call_ok panicking name (length args) = true -> Forall (wf G) args -> binds G (bind name args).
Proof.
  intros Ha%assoc_in Hc Hargs. unfold scalarFuncs in Ha. unfold call_ok in Hc. apply andb_prop in Hc as [Hc Hd]. apply negb_true_iff, bool_decide_eq_false in Hc.
  assert (forall l, Forall (func_ok G) l -> (name, bind) ∈ l -> binds G (bind name args)) as Hl by (intros l Hl Hin; rewrite list.Forall_forall in Hl; by apply (Hl _ Hin)).
  rewrite !elem_of_app in Ha. destruct Ha as [Ha|[Ha|[Ha|[Ha|[Ha|[Ha|[Ha|Ha]]]]]]].
  - by apply (Hl _ (mathFuncs_ok G)).
  - by apply (Hl _ (arrayFuncs_ok G)).
  - by apply (Hl _ (stringFuncs_ok G)).
  - by apply (Hl _ (patternFuncs_ok G)).
  - by apply (Hl _ (miscFuncs_ok G)).
  - by apply (Hl _ (timeFuncs_ok G)).
  - apply orb_prop in Hd. unfold distinctFuncs in Ha. rewrite !elem_of_cons, elem_of_nil in Ha. destruct Hd as [Hd|Hd]; [apply negb_true_iff, bool_decide_eq_false in Hd; destruct Ha as [[= -> _]|[[= -> _]|[]]]; rewrite !elem_of_cons in Hd; tauto|].
    apply Nat.eqb_eq in Hd. destruct args as [|x [|y [|]]]; try done. rewrite !Forall_cons in Hargs. destruct Hargs as (Hx & Hy & _). destruct Ha as [[= -> ->]|[[= -> ->]|[]]]; by apply distinctFrom_binds.
  - rewrite !elem_of_cons, elem_of_nil in Ha. destruct Ha as [[= -> ->]|[[= -> ->]|[[= -> ->]|[[= -> ->]|[]]]]].
    + by apply randBinding_ok.
    + by apply startsWith_ok.
    + destruct Hc. by left.
    + destruct Hc. by right; left.
Qed.

Lemma mark_good (m : B unit) : (forall st, exists st', m st = Ret (tt, st') /\ bs_aggs st' = bs_aggs st) -> good (fun _ _ => True) m.
Proof. intros Hm st Hs Hb. destruct (Hm st) as (st' & E & Ea). unfold runs, safe. rewrite E. split_and!; [unfold st_ok, specs in *; by rewrite Ea|unfold grows; by rewrite Ea|done]. Qed.
Lemma safely_wf G safe e : wf G e -> wf G (safely safe e).
Proof. intros He. unfold safely. destruct (_ && _); [by apply wf_set_safe|done]. Qed.
Lemma applyFunc_good name args : call_ok panicking name (length args) = true -> Forall arg_good args -> good wf (applyFunc name args).
Proof.
  intros Hc Ha st Hs Hb. unfold applyFunc. destruct (assoc name rawFuncs) as [f|] eqn:Er.
  - apply assoc_in in Er. pose proof rawFuncs_good as Hraw. rewrite list.Forall_forall in Hraw. by apply (Hraw _ Er).
  - destruct (assoc name scalarFuncs) as [bind|] eqn:Es; [|done]. assert (Forall (good wf) (arg_bind <$> args)) as Hl by (apply Forall_fmap; eapply Forall_impl; [exact Ha|]; by intros a []).
    apply (good_bind _ _ _ _ _ (seq_length _ Hl)); [done|done|]. intros xs st1 Hs1 _ _ [Hxs Hlen]. apply runs_lift; [done|]. apply (scalar_binds (envOf b st1)); [done| |done]. by rewrite Hlen, length_fmap.
Qed.
Lemma bindScalar_good name safe clauses args : call_ok panicking name (length args) = true -> Forall arg_good args -> good wf (bindScalar name safe clauses args).
Proof.
  intros Hc Ha st Hs Hb. unfold bindScalar. destruct (negb _); [done|]. destruct clauses; [done|]. apply (good_bind wf _ _ _ _ (applyFunc_good name args Hc Ha)); [done|done|]. intros r st1 Hs1 Hb1 _ Hr.
  assert (good (fun _ _ => True) (if bool_decide (name ∈ nondetFuncs) then sawNondet else mret tt)) as Hm by (destruct (bool_decide _); apply mark_good; intros st2; by eexists).
  apply (good_bind _ _ _ _ _ Hm); [done|done|]. intros _ st2 Hs2 _ Hg _. apply runs_ret; [done|]. apply safely_wf. by eapply later_wf.
Qed.

(** *** Identifiers *)

Lemma columnRef_ok G s i : te_cols G = sc_typ <$> sc_cols s -> (i < length (sc_cols s))%nat -> gives (wf G) (columnRef s i).
Proof.
  intros Hc Hi. unfold columnRef. destruct (lookup_lt_is_Some_2 _ _ Hi) as [c Ec]. rewrite Ec. constructor; [done| |by split|done]. unfold node_ok. cbn. by rewrite Hc, list_lookup_fmap, Ec.
Qed.
Lemma scopeColumn_ok st name : gives (fun r => match r with Some e => wf (envOf b st) e | None => True end) (scopeColumn (b_scope b) name).
Proof.
  unfold scopeColumn. destruct (b_scope b) as [s|] eqn:Es; [|done]. eapply gives_bind; [apply lookup_in|]. intros [i|] Hi; [|done]. assert (gives (wf (envOf b st)) (columnRef s i)) as Hc by (apply columnRef_ok; [by cbn; rewrite Es|done]). destruct (columnRef s i); done.
Qed.
Lemma bindIdent_good name quoted : good wf (bindIdent b name quoted).
Proof.
  intros st Hs Hb. unfold bindIdent. apply (lift_bind (fun r => match r with Some e => wf (envOf b st) e | None => True end)).
  { destruct Hb as (_ & _ & Ha). unfold alias_ok in Ha. destruct (b_aliases b); [apply Ha|done]. }
  intros [r|] Hr; [by apply runs_ret|]. eapply lift_bind; [apply scopeColumn_ok|]. intros [c|] Hc; [by apply runs_ret|]. destruct (negb quoted && _) eqn:Eq; [|destruct (b_scope b); [destruct (isRangeVar _ _)|]; done].
  apply bindScalar_good; [|done|done|done]. apply andb_prop in Eq as [_ Eq%bool_decide_eq_true]. rewrite !elem_of_cons, elem_of_nil in Eq. by destruct Eq as [-> |[-> |[]]].
Qed.
Lemma path_good names st base : st_ok R st -> wf (envOf b st) base -> runs wf st (lift (fieldPath base names)).
Proof. intros Hs Hw. apply runs_lift; [done|]. by apply fieldPath_ok. Qed.
Lemma bindPath_good name quoted names : good wf (bindPath b name quoted names).
Proof.
  intros st Hs Hb. unfold bindPath. assert (runs wf st (base ← bindIdent b name quoted; lift (fieldPath base names))) as Hp.
  { apply (good_bind wf _ _ _ _ (bindIdent_good name quoted)); [done|done|]. intros base st1 Hs1 _ _ Hbase. by apply path_good. }
  destruct (b_scope b) as [s|] eqn:Es; [|done]. destruct names as [|n rest]; [done|]. destruct (_ && _); [|done].
  eapply lift_bind; [apply lookup_in|]. intros [i|] Hi; [|done]. eapply lift_bind; [apply (columnRef_ok (envOf b st)); [by cbn; rewrite Es|done]|]. intros base Hbase. by apply path_good.
Qed.
End functions.

(** ** Aggregate calls *)

Section aggregate.
Context `{TimeZones} `{Strconv} `{Unicode} `{Folding} `{Quoting} `{Regexp} `{Fmt} `{MathLib} `{Json} `{Estimator}.
Context (R : tenv) (b : binder).

(** What the binder of the arguments binds has no aggregates. *)
Lemma inner_env st : collects b = true -> rowEnv b = R -> envOf (innerBinder b) st = R.
Proof. intros Hc <-. unfold envOf, seesAggs, collects, rowEnv, innerBinder in *. cbn. apply andb_prop in Hc as [-> _]. done. Qed.
Lemma inner_ok st : binder_ok R b st -> binder_ok R (innerBinder b) st.
Proof. intros (Hp & _ & _). split_and!; [done| |done]. unfold collects. cbn. by rewrite andb_false_r. Qed.
Lemma const_ok st : binder_ok R b st -> binder_ok R (constBinder b) st.
Proof. intros (Hp & _ & _). by split_and!. Qed.
Lemma const_env st st' : binder_ok R b st -> envOf (constBinder b) st' = mkTenv (te_params R) [] [] [].
Proof. intros (Hp & _ & _). unfold envOf. cbn. by rewrite Hp. Qed.

(** An action whose results do not depend on the state. *)
Definition fixedly {A : Type} (Q : A -> Prop) (m : B A) : Prop := forall st, st_ok R st -> binder_ok R b st -> safe R st (fun _ => Q) (m st).
Lemma fixedly_bind {A C : Type} (Q : A -> Prop) (Q' : bstate -> C -> Prop) (m : B A) (k : A -> B C) st : fixedly Q m -> st_ok R st -> binder_ok R b st ->
  (forall a st', st_ok R st' -> binder_ok R b st' -> grows st st' -> Q a -> safe R st' Q' (k a st')) -> safe R st Q' ((m ≫= k) st).
Proof. intros Hm Hs Hb Hk. apply (safe_bind R st (fun _ => Q)); [by apply Hm|]. intros a st' Hs' Hg Hq. apply Hk; try done. by eapply binder_ok_grows. Qed.
Lemma fixed_lift {A C : Type} (Q : A -> Prop) (Q' : bstate -> C -> Prop) (r : outcome A) (k : A -> B C) st : gives Q r -> (forall a, Q a -> safe R st Q' (k a st)) -> safe R st Q' ((lift r ≫= k) st).
Proof. intros Hr Hk. unfold mbind, B_bind, lift. cbn. destruct r; cbn in *; try done. by apply Hk. Qed.
Lemma fixedly_opt {A : Type} (Q : A -> Prop) (o : option (B A)) : match o with Some m => fixedly Q m | None => True end -> fixedly (fun r => match r with Some a => Q a | None => True end) (optB o).
Proof.
  intros Ho st Hs Hb. destruct o as [m|]; cbn [optB]; [|by apply safe_ret]. apply (fixedly_bind Q); [done|done|done|]. intros a st1 Hs1 _ _ Ha. by apply safe_ret.
Qed.

Lemma bindOrder_fixed l : Forall (fun o => fixedly (wf R) o.1) l -> fixedly (fun os => Forall (fun o => wf R (or_expr o)) os) (bindOrder l).
Proof.
  induction 1 as [|[m o] l Hm Hl IH]; intros st Hs Hb; cbn [bindOrder]; [by apply safe_ret|]. apply (fixedly_bind (wf R)); [done|done|done|]. intros x st1 Hs1 Hb1 _ Hx. destruct (_ || _); [done|].
  apply (fixedly_bind _ _ _ _ _ IH); [done|done|]. intros os st2 Hs2 _ _ Hos. apply safe_ret; [done|by constructor].
Qed.
Definition limitEnv : tenv := mkTenv (te_params R) [] [] [].
Lemma bindLimit_fixed m : fixedly (wf limitEnv) m -> fixedly (fun l => wf limitEnv l /\ e_typ l = TInt64) (bindLimit m).
Proof.
  intros Hm st Hs Hb. unfold bindLimit. apply (fixedly_bind (wf limitEnv)); [done|done|done|]. intros x st1 Hs1 _ _ Hx. apply (fixed_lift (fun x => wf limitEnv x /\ typesEqual (e_typ x) TInt64 = true)); [by apply coerceTo_as|]. intros y [Hy Ht%typesEqual_scalar]; [|done]. destruct (isConst y); [|done]. by apply safe_ret.
Qed.
Lemma useAgg_runs st spec : collects b = true -> st_ok R st -> spec_ok R spec -> runs R b wf st (useAgg spec).
Proof.
  intros Hc Hs Hspec. unfold runs, useAgg. pose proof (indexOf_in (fun p => bool_decide (p.1 = aggFingerprint spec)) (bs_aggs st) (bs_aggs st) 0 eq_refl) as Hi.
  assert (seesAggs b = true) as Hsee by (unfold seesAggs; by rewrite Hc).
  destruct (indexOf _ 0 (bs_aggs st)) as [i|].
  - destruct (lookup_lt_is_Some_2 _ _ Hi) as [p Ep]. rewrite Ep. split_and!; [done|done|]. constructor; [done| |by split|done]. unfold node_ok. cbn. rewrite Hsee. unfold specs. by rewrite !list_lookup_fmap, Ep.
  - cbn. split_and!; [| |].
    + unfold st_ok, specs in *. cbn. rewrite fmap_app. apply Forall_app. split; [done|by constructor].
    + unfold grows. cbn. by apply prefix_app_r.
    + constructor; [done| |by split|done]. unfold node_ok. cbn. rewrite Hsee. unfold specs. cbn. rewrite !fmap_app, lookup_app_r by (by rewrite !length_fmap). by rewrite !length_fmap, Nat.sub_diag.
Qed.
Lemma bindAggregate_good name flags def args orderBy limit : agg_bind_ok R def ->
  (collects b = true -> rowEnv b = R -> fixedly (fun xs => Forall (wf R) xs) (seqB args) /\ Forall (fun o => fixedly (wf R) o.1) orderBy) ->
  match limit with Some m => fixedly (wf limitEnv) m | None => True end ->
  good R b wf (bindAggregate b name flags def args orderBy limit).
Proof.
  intros Hdef Hargs Hlim st Hs Hb. unfold bindAggregate. destruct (aggAllowed _ _ _ _ _) eqn:Eal; [|done]. cbn [negb].
  assert (collects b = true) as Hc. { unfold aggAllowed in Eal. rewrite !andb_true_iff in Eal. unfold collects. rewrite andb_true_iff. tauto. }
  destruct (Hargs Hc) as [Hxs Hord]; [by apply Hb|]. assert (fixedly (fun xs => Forall (wf R) xs) (if cf_star flags then mret [] else seqB args)) as Hxs'.
  { destruct (cf_star flags); [|done]. intros st' Hs' Hb'. by apply safe_ret. }
  apply (fixedly_bind _ _ _ _ _ Hxs'); [done|done|]. intros xs st1 Hs1 Hb1 _ Hwx. apply (fixed_lift (base_ok R)); [by apply Hdef|]. intros base [Hba Hbs]. destruct (ungroupable _ _); [done|].
  apply (fixedly_bind _ _ _ _ _ (bindOrder_fixed orderBy Hord)); [done|done|]. intros os st2 Hs2 Hb2 _ Hos.
  assert (fixedly (fun r => match r with Some l => wf limitEnv l /\ e_typ l = TInt64 | None => True end) (optB (bindLimit <$> limit))) as Hl by (apply fixedly_opt; destruct limit; [by apply bindLimit_fixed|done]).
  apply (fixedly_bind _ _ _ _ _ Hl); [done|done|]. intros lim st3 Hs3 Hb3 _ Hlm. apply useAgg_runs; try done.
Qed.
End aggregate.

(** ** Expressions *)

Section expressions.
Context `{TimeZones} `{Strconv} `{Unicode} `{Folding} `{Quoting} `{Regexp} `{Fmt} `{MathLib} `{Json} `{Estimator}.
Context (R : tenv).

(** A path, apart from [bindExpr]. *)
Fixpoint pathOf (b : binder) (r : astExpr) (names : list bytes) : B bexpr :=
  match r with
  | AField r' n => pathOf b r' (n :: names)
  | AIdent name quoted => bindPath b name quoted names
  | r => base ← bindExpr b r; lift (fieldPath base names)
  end.
Lemma bindExpr_field b x name : bindExpr b (AField x name) = pathOf b x [name].
Proof.
  cbn [bindExpr]. generalize [name]. induction x as [x IH] using astExpr_nested. intros names. by destruct x.
Qed.

Definition goods (e : astExpr) : Prop := forall b, good R b wf (bindExpr b e).
Lemma map_good (l : list astExpr) b : Forall goods l -> Forall (good R b wf) (List.map (fun a => bindExpr b a) l).
Proof. induction 1; constructor; [done|done]. Qed.
Lemma seq_map_good l b : Forall goods l -> good R b (fun G => Forall (wf G)) (seqB (List.map (fun a => bindExpr b a) l)).
Proof. intros Hl. by apply seq_good, map_good. Qed.
(** Binding two and three operands. *)
Lemma bind1 b x (f : bexpr -> outcome bexpr) st : goods x -> st_ok R st -> binder_ok R b st -> (forall G e, wf G e -> binds G (f e)) -> runs R b wf st (e ← bindExpr b x; lift (f e)).
Proof. intros Hx Hs Hb Hf. apply (good_bind R b wf); [apply Hx|done|done|]. intros e st1 Hs1 _ _ He. apply runs_lift; [done|]. by apply Hf. Qed.
Lemma bind2 b x y (f : bexpr -> bexpr -> outcome bexpr) st : goods x -> goods y -> st_ok R st -> binder_ok R b st -> (forall G e e', wf G e -> wf G e' -> binds G (f e e')) ->
  runs R b wf st (e ← bindExpr b x; e' ← bindExpr b y; lift (f e e')).
Proof.
  intros Hx Hy Hs Hb Hf. apply (good_bind R b wf); [apply Hx|done|done|]. intros e st1 Hs1 Hb1 _ He. apply (good_bind R b wf); [apply Hy|done|done|]. intros e' st2 Hs2 _ Hg He'. apply runs_lift; [done|]. apply Hf; [by eapply later_wf|done].
Qed.
Lemma inner_fixed b x : goods x -> collects b = true -> rowEnv b = R -> fixedly R b (wf R) (bindExpr (innerBinder b) x).
Proof.
  intros Hx Hc Hr st Hs Hb. eapply safe_mono; [apply (Hx (innerBinder b) st Hs); by apply inner_ok|]. intros st' e _ He. cbv beta in He. by rewrite (inner_env R b st' Hc Hr) in He.
Qed.
Lemma const_fixed b x : goods x -> fixedly R b (wf (limitEnv R)) (bindExpr (constBinder b) x).
Proof.
  intros Hx st Hs Hb. eapply safe_mono; [apply (Hx (constBinder b) st Hs); by apply const_ok|]. intros st' e _ He. cbv beta in He. by rewrite (const_env R b st st' Hb) in He.
Qed.
Lemma inner_seq b l : Forall goods l -> collects b = true -> rowEnv b = R -> fixedly R b (fun xs => Forall (wf R) xs) (seqB (List.map (fun a => bindExpr (innerBinder b) a) l)).
Proof.
  intros Hl Hc Hr. induction Hl as [|x l Hx Hl IH]; intros st Hs Hb; cbn [List.map seqB]; [by apply safe_ret|]. apply (fixedly_bind R b (wf R)); [by apply inner_fixed|done|done|]. intros e st1 Hs1 Hb1 _ He. apply (fixedly_bind R b _ _ _ _ _ IH); [done|done|]. intros es st2 Hs2 _ _ Hes. apply safe_ret; [done|by constructor].
Qed.
Lemma call_good b name args flags orderBy limit : call_ok panicking name (length args) = true -> Forall goods args -> Forall (fun a => match a with AInterval n _ => goods n | _ => True end) args ->
  Forall (fun o => goods o.1) orderBy -> match limit with Some l => goods l | None => True end -> good R b wf (bindExpr b (ACall name args flags orderBy limit)).
Proof.
  intros Hc Hargs Hint Hord Hlim. cbn [bindExpr]. destruct (assoc name aggFuncs) as [def|] eqn:Ea.
  - apply assoc_in in Ea. apply bindAggregate_good.
    + pose proof (aggFuncs_ok R) as Hf. rewrite list.Forall_forall in Hf. by apply (Hf _ Ea).
    + intros Hc' Hr. split; [by apply inner_seq|]. clear -Hord Hc' Hr. induction Hord; constructor; [by apply inner_fixed|done].
    + destruct limit; [by apply const_fixed|done].
  - apply bindScalar_good; [by rewrite length_map|]. clear -Hargs Hint. induction Hargs as [|a args Ha Hargs IH]; [constructor|]. apply Forall_cons in Hint as [Hi Hint]. constructor; [|by apply IH]. split; [apply Ha|]. destruct a; try exact I; exact (Hi b).
Qed.
Lemma interval_good_arith b minus n unit l st : goods l -> goods n -> st_ok R st -> binder_ok R b st -> runs R b wf st (base ← bindExpr b l; bindIntervalArith minus base (bindExpr b n) unit).
Proof.
  intros Hl Hn Hs Hb. apply (good_bind R b wf); [apply Hl|done|done|]. intros base st1 Hs1 Hb1 _ Hbase. apply bindIntervalArith_good; try done.
Qed.
(** What is an INTERVAL has a count to bind. *)
Definition interval_goods (e : astExpr) : Prop := match e with AInterval n _ => goods n | _ => True end.
Lemma binary_good b op l r : goods l -> goods r -> interval_goods l -> interval_goods r -> good R b wf (bindExpr b (ABinary op l r)).
Proof.
  intros Hl Hr Il Ir st Hs Hb. assert (runs R b wf st (x ← bindExpr b l; y ← bindExpr b r; lift (binary op x y))) as Hp by (apply bind2; try done; intros; by apply binary_binds).
  destruct op as [[]| | | | | |]; try exact Hp.
  - cbn [bindExpr]. destruct r; try exact (interval_good_arith b false _ _ _ _ Hl Ir Hs Hb); destruct l; first [exact Hp|exact (interval_good_arith b false _ _ _ _ Hr Il Hs Hb)].
  - cbn [bindExpr]. destruct r; first [exact Hp|exact (interval_good_arith b true _ _ _ _ Hl Ir Hs Hb)].
Qed.

(** ** The theorem *)

Definition sound (e : astExpr) : Prop := ast_ok panicking e = true -> goods e /\ interval_goods e /\ forall b names, good R b wf (pathOf b e names).
Lemma sound_all l : Forall sound l -> forallb (ast_ok panicking) l = true -> Forall goods l /\ Forall interval_goods l.
Proof. induction 1 as [|x l Hx Hl IH]; cbn; [done|]. intros [Ho Hos]%andb_prop. destruct (Hx Ho) as (? & ? & _), (IH Hos). split; by constructor. Qed.
Lemma sound_opt o : match o with Some x => sound x | None => True end -> match o with Some x => ast_ok panicking x | None => true end = true -> match o with Some x => goods x | None => True end.
Proof. destruct o; [|done]. intros Hx Ho. by destruct (Hx Ho). Qed.
Lemma opt_bind b o : match o with Some x => goods x | None => True end -> good R b (fun G r => match r with Some e => wf G e | None => True end) (optB match o with Some x => Some (bindExpr b x) | None => None end).
Proof. intros Ho. apply opt_good. destruct o; [apply Ho|done]. Qed.
Lemma pairs_good b whens : Forall (fun w => goods w.1 /\ goods w.2) whens ->
  good R b (fun G ws => Forall (wf G) ws.*1 /\ Forall (wf G) ws.*2) (seqB (List.map (fun w => c ← bindExpr b w.1; r ← bindExpr b w.2; mret (c, r)) whens)).
Proof.
  induction 1 as [|w whens [Hc Hr] Hw IH]; intros st Hs Hb; cbn [List.map seqB]; [by apply runs_ret|].
  assert (good R b (fun G p => wf G p.1 /\ wf G p.2) (c ← bindExpr b w.1; r ← bindExpr b w.2; mret (c, r))) as Hp.
  { intros st0 Hs0 Hb0. apply (good_bind R b wf); [apply Hc|done|done|]. intros c st1 Hs1 Hb1 _ Hwc. apply (good_bind R b wf); [apply Hr|done|done|]. intros r st2 Hs2 _ Hg Hwr. apply runs_ret; [done|]. split; [by eapply later_wf|done]. }
  apply (good_bind R b _ _ _ _ _ Hp); [done|done|]. intros p st1 Hs1 Hb1 _ [Hp1 Hp2]. apply (good_bind R b _ _ _ _ _ IH); [done|done|]. intros ps st2 Hs2 _ Hg [Hq1 Hq2]. apply runs_ret; [done|]. split; cbn; constructor; try done; by eapply later_wf.
Qed.

Lemma case_good b operand whens els : match operand with Some x => goods x | None => True end -> Forall (fun w => goods w.1 /\ goods w.2) whens -> match els with Some x => goods x | None => True end -> good R b wf (bindExpr b (ACase operand whens els)).
Proof.
  intros Ho Hw He st Hs Hb. cbn [bindExpr]. apply (good_bind R b _ _ _ _ _ (opt_bind b operand Ho)); [done|done|]. intros o st1 Hs1 Hb1 _ Hwo. apply (good_bind R b _ _ _ _ _ (pairs_good b whens Hw)); [done|done|]. intros ws st2 Hs2 Hb2 Hg2 [Hc Hr].
  apply (good_bind R b _ _ _ _ _ (opt_bind b els He)); [done|done|]. intros x st3 Hs3 _ Hg3 Hx. apply runs_lift; [done|]. pose proof (grows_env b _ _ Hg2). pose proof (grows_env b _ _ Hg3). apply bindCase_binds.
  - destruct o; [|done]. by do 2 (eapply wf_extends; [done|]).
  - by eapply all_wf_extends.
  - by eapply all_wf_extends.
  - by rewrite !length_fmap.
  - done.
Qed.
Lemma in_good b x not items unnest : goods x -> Forall goods items -> match unnest with Some u => goods u | None => True end -> good R b wf (bindExpr b (AIn x not items unnest)).
Proof.
  intros Hx Hi Hu st Hs Hb. cbn [bindExpr]. destruct unnest as [u|]; [apply bind2; try done; intros; by apply bindInUnnest_binds|].
  apply (good_bind R b wf); [apply Hx|done|done|]. intros e st1 Hs1 Hb1 _ He. apply (good_bind R b _ _ _ _ _ (seq_map_good items b Hi)); [done|done|]. intros es st2 Hs2 _ Hg Hes. apply runs_lift; [done|]. apply bindInList_binds; [by eapply later_wf|done].
Qed.
Lemma between_good b x lo hi not : goods x -> goods lo -> goods hi -> good R b wf (bindExpr b (ABetween x lo hi not)).
Proof.
  intros Hx Hl Hh st Hs Hb. cbn [bindExpr]. apply (good_bind R b wf); [apply Hx|done|done|]. intros e st1 Hs1 Hb1 _ He. apply (good_bind R b wf); [apply Hl|done|done|]. intros e2 st2 Hs2 Hb2 Hg2 He2. apply (good_bind R b wf); [apply Hh|done|done|]. intros e3 st3 Hs3 _ Hg3 He3.
  apply runs_lift; [done|]. apply bindBetween_binds; [by eapply later_wf, later_wf|by eapply later_wf|done].
Qed.
Lemma cast_good b x typ safe : goods x -> type_ok typ = true -> good R b wf (bindExpr b (ACast x typ safe)).
Proof.
  intros Hx Ht st Hs Hb. cbn [bindExpr]. apply (good_bind R b wf); [apply Hx|done|done|]. intros e st1 Hs1 _ _ He. apply (lift_bind R b (fun _ => True)); [pose proof (resolveType_safe typ Ht); by destruct (resolveType typ)|]. intros to _. apply runs_lift; [done|]. by apply bindCast_binds.
Qed.
Lemma extract_good b part x tz : goods x -> match tz with Some z => goods z | None => True end -> good R b wf (bindExpr b (AExtract part x tz)).
Proof.
  intros Hx Hz st Hs Hb. cbn [bindExpr]. apply (good_bind R b wf); [apply Hx|done|done|]. intros e st1 Hs1 Hb1 _ He.
  assert (good R b (fun G o => optTyped G TString o) (optB match tz with Some z => Some (z ← bindExpr b z; lift (coerceTo z TString)) | None => None end)) as Ho.
  { apply opt_good. destruct tz as [z|]; [|done]. intros st2 Hs2 Hb2. apply (good_bind R b wf); [apply Hz|done|done|]. intros e2 st3 Hs3 _ _ He2. apply runs_lift; [done|]. by apply coerceTo_as. }
  apply (good_bind R b _ _ _ _ _ Ho); [done|done|]. intros o st2 Hs2 _ Hg Hwo. apply runs_lift; [done|]. apply bindExtract_ok; [by eapply later_wf|done].
Qed.
Lemma array_good b et elems : opt_ok type_ok et = true -> Forall goods elems -> good R b wf (bindExpr b (AArray et elems)).
Proof.
  intros Ht Hes st Hs Hb. cbn [bindExpr]. apply (good_bind R b _ _ _ _ _ (seq_map_good elems b Hes)); [done|done|]. intros es st1 Hs1 _ _ Hws. apply (lift_bind R b (fun _ => True)); [pose proof (typeOpt_safe et Ht); by destruct (typeOpt et)|]. intros t _. apply runs_lift; [done|]. by apply bindArrayLit_binds.
Qed.
Lemma struct_good b typ fields names : structType_ok typ = true -> Forall goods fields -> (length fields <= length names)%nat -> good R b wf (bindExpr b (AStruct typ fields names)).
Proof.
  intros Ht Hf Hl st Hs Hb. cbn [bindExpr]. assert (good R b (fun _ _ => True) sawStruct) as Hm by (apply mark_good; intros st0; by eexists). apply (good_bind R b _ _ _ _ _ Hm); [done|done|]. intros _ st1 Hs1 Hb1 _ _.
  assert (Forall (good R b wf) (List.map (fun a => bindExpr b a) fields)) as Hfs by (by apply map_good). apply (good_bind R b _ _ _ _ _ (seq_length R b _ Hfs)); [done|done|]. intros fs st2 Hs2 _ _ [Hws Hlen].
  apply (lift_bind R b structType).
  { destruct (typeOpt typ) eqn:E; [by eapply resolveStruct|done|]. apply typeOpt_safe in E; [done|]. destruct typ as [[]|]; try done. }
  intros t Hst. apply runs_lift; [done|]. apply bindStructLit_binds; [done|by rewrite Hlen, length_map|done].
Qed.
Lemma lit_good b kind val : lit_ok kind val = true -> good R b wf (bindExpr b (ALit kind val)).
Proof. intros Hl st Hs Hb. apply runs_lift; [done|]. destruct kind; cbn in *; try done; by apply wf_const. Qed.
Lemma typedLit_good b typ val : good R b wf (bindExpr b (ATypedLit typ val)).
Proof.
  intros st Hs Hb. apply runs_lift; [done|]. unfold bindTypedLit. destruct (bool_decide _); [|destruct (bool_decide _); [|done]].
  - pose proof (parseDateString_safe val). destruct (parseDateString val) as [d| |] eqn:E; try done. apply wf_const. by eapply parseDateString_typed.
  - pose proof (parseTimestampString_safe val UTC). destruct (parseTimestampString val UTC) as [d| |] eqn:E; try done. apply wf_const. by eapply parseTimestampString_typed.
Qed.
Lemma param_good b name : good R b wf (bindExpr b (AParam name)).
Proof.
  intros st Hs Hb. apply runs_lift; [done|]. unfold bindParam. pose proof (lookupParam_in (b_params b) name) as Hi. destruct (lookupParam _ _) as [i|]; [|done]. destruct (lookup_lt_is_Some_2 _ _ Hi) as [p Ep]. rewrite Ep.
  constructor; [done| |by split|done]. unfold node_ok. cbn. by rewrite list_lookup_fmap, Ep.
Qed.

Lemma sound_good e : partsP sound e -> ast_ok panicking e = true -> goods e.
Proof.
  assert (forall x, sound x -> ast_ok panicking x = true -> goods x) as Hg by (intros x Hx Ho; apply (Hx Ho)). assert (forall x, sound x -> ast_ok panicking x = true -> interval_goods x) as Hi by (intros x Hx Ho; apply (Hx Ho)).
  destruct e as [kind val|typ val|name|name q|x name|x mode idx|op x|op l r|x not what|x not items unnest|x lo hi not|x p not|operand whens els|name args flags orderBy limit|x typ safe|part x tz|x unit|et elems|typ fields names|what un msg]; cbn [partsP ast_ok]; intros Hp Ho b; try (apply andb_prop in Ho as [Ho ?]).
  - by apply lit_good.
  - apply typedLit_good.
  - apply param_good.
  - apply bindIdent_good.
  - rewrite bindExpr_field. by apply (Hp Ho).
  - destruct Hp. intros st Hs Hb. apply bind2; try done; [by apply Hg|by apply Hg|]. intros. by apply bindIndex_binds.
  - intros st Hs Hb. apply bind1; try done; [by apply Hg|]. intros. by apply unary_binds.
  - destruct Hp. by apply binary_good; [apply Hg|apply Hg|apply Hi|apply Hi].
  - intros st Hs Hb. apply bind1; try done; [by apply Hg|]. intros. by apply bindIs_binds.
  - destruct Hp as (Hx & Hits & Hu). apply andb_prop in Ho as [Ho Hos]. apply in_good; [by apply Hg|by apply sound_all|by apply sound_opt].
  - destruct Hp as (? & ? & ?). apply andb_prop in Ho as [? ?]. by apply between_good; apply Hg.
  - destruct Hp. intros st Hs Hb. apply bind2; try done; [by apply Hg|by apply Hg|]. intros. by apply bindLike_binds.
  - destruct Hp as (Hop & Hw & He). apply andb_prop in Ho as [Ho Hws]. apply case_good; [by apply sound_opt| |by apply sound_opt]. rewrite forallb_forall in Hws. rewrite list.Forall_forall in Hw |- *. intros w Hin. destruct (Hw w Hin). pose proof (Hws w (proj1 (list_elem_of_In _ _) Hin)) as Hwo. apply andb_prop in Hwo as [? ?]. split; by apply Hg.
  - destruct Hp as (Ha & Hob & Hl). apply andb_prop in Ho as [Ho Hos]. apply andb_prop in Ho as [Hc Has]. destruct (sound_all args Ha Has). apply call_good; try done; [|by apply sound_opt]. rewrite forallb_forall in Hos. rewrite list.Forall_forall in Hob |- *. intros o Hin. apply Hg; [by apply Hob|]. apply Hos. by apply list_elem_of_In.
  - by apply cast_good; [apply Hg|].
  - destruct Hp as (_ & Hx & Hz). by apply extract_good; [apply Hg|apply sound_opt].
  - done.
  - apply array_good; [done|]. by apply sound_all.
  - apply andb_prop in Ho as [Ht Hf]. apply struct_good; [done|by apply sound_all|by apply Nat.leb_le].
  - intros st Hs Hb. apply runs_lift; [done|]. unfold bindUnsupported. by repeat case_match.
Qed.
Lemma all_sound e : sound e.
Proof.
  induction e as [e IH] using astExpr_nested. intros Ho. pose proof (sound_good e IH Ho) as Hg. split_and!; [done| |].
  - destruct e; try done. cbn in IH, Ho. apply (IH Ho).
  - assert (forall b names, good R b wf (base ← bindExpr b e; lift (fieldPath base names))) as Hp. { intros b names st Hs Hb. apply (good_bind R b wf); [apply Hg|done|done|]. intros base st1 Hs1 _ _ Hbase. by apply path_good. }
    intros b names. destruct e; try exact (Hp b names); cbn [pathOf]; [apply bindPath_good|]. cbn in IH, Ho. by apply (IH Ho).
Qed.
End expressions.

(** C24: Binding an expression of the parser that calls neither REPEAT nor REGEXP_INSTR never
    panics, and it is type-safe: what it returns, evaluated where parameters, columns and
    aggregates have the types that the binder knows, yields a value of the type that the
    binder gave it, or an error status; it never panics.  The aggregate calls that it adds
    to those of the query are well-formed: their arguments are, and their first accumulator
    fits them.  The two functions are left out ([panicking]) because their evaluation can
    panic: [repeat_overflow_panics] and [regexInstr_unmatched_group_panics].  The columns,
    parameters and aggregate calls that the binder starts with are well-formed. *)
Theorem binder_type_safe `{TimeZones} `{Strconv} `{Unicode} `{Folding} `{Quoting} `{Regexp} `{Fmt} `{MathLib} `{Json} `{Estimator} (R : tenv) (b : binder) (e : astExpr) (st : bstate) :
  ast_ok panicking e = true -> st_ok R st -> binder_ok R b st ->
  match bindExpr b e st with
  | Ret (r, st') => st_ok R st' /\ grows st st' /\ forall ec, ctx_ok (envOf b st') ec -> yields (eval r ec) (e_typ r)
  | Err _ => True
  | Panic => False
  end.
Proof.
  intros Ho Hs Hb. pose proof (proj1 (all_sound R e Ho) b st Hs Hb) as Hr. unfold runs, safe in Hr. destruct (bindExpr b e st) as [[r st']| |]; [|done|done]. destruct Hr as (Hs' & Hg & Hw). split_and!; [done|done|]. intros ec Hec. by eapply eval_yields.
Qed.

(** ** A concrete binder *)

(** The interfaces without their data: ASCII case tables, no regular expressions, no
    JSON documents. *)
Module Bare.
Definition asciiUpper (r : Z) : Z := if (97 <=? r) && (r <=? 122) then r - 32 else r.
Definition asciiLower (r : Z) : Z := if (65 <=? r) && (r <=? 90) then r + 32 else r.
#[export] Instance zones : TimeZones := bareZones.
#[export] Instance strconv : Strconv := bareStrconv.
#[export, refine] Instance unicode : Unicode := {| unicode_ToUpper := asciiUpper; unicode_ToLower := asciiLower |}.
Proof. all: try done. intros r. unfold asciiUpper. case_match; lia. Defined.
#[export, refine] Instance folding : Folding := {| foldRune := asciiLower |}.
Proof. intros r s. unfold asciiLower. repeat case_match; lia. Defined.
#[export] Instance quoting : Quoting := {| strconv_Quote := fun s => s |}.
#[export, refine] Instance regexps : Regexp :=
  {| regexp := Empty_set; regexp_Compile := fun _ => None; NumSubexp := fun _ => 0%nat; regexp_Match := fun _ _ => false; FindAllSubmatchIndex := fun _ _ => []; regexp_ReplaceAll := fun _ s _ => s |}.
Proof. all: done. Defined.
#[export, refine] Instance fmt : Fmt := {| Sprintf := fun _ _ => [] |}.
Proof. constructor. Defined.
#[export, refine] Instance mathLib : MathLib := {| math_fn := fun _ x => x; math_Pow := fun x _ => x; math_Atan2 := fun x _ => x |}.
Proof. all: done. Defined.
#[export, refine] Instance json : Json := {| json_Tokens := fun _ => ([], false); json_Indent := fun _ => None |}.
Proof. all: done. Defined.
#[export] Instance estimator : Estimator := {| Estimate := fun _ => 0; Estimate_int64 := fun _ => proj1 (is_int64b_spec 0) eq_refl |}.

(** A table with a column of numbers. *)
Definition cols : scope := mkScope [mkCol (str "_key") TBytes false; mkCol (str "x") TInt64 false] (str "t") (Some 0%nat).
Definition rows : tenv := mkTenv [] [TBytes; TInt64] [] [].
Definition selectList : binder := mkBinder false [] (Some cols) true false None.
Definition noAggs : bstate := mkBst [] false false.
Definition plainCall (name : bytes) (args : list astExpr) : astExpr := ACall name args (mkFlags false false false false false) [] None.
Definition x : astExpr := AIdent (str "X") false.
(** SUM(x) + t.x *)
Definition total : astExpr := ABinary (BArith Add) (plainCall (str "SUM") [x]) (AField (AIdent (str "t") false) (str "x")).
Definition hll (precision : Z) : astExpr := plainCall (str "HLL_COUNT.INIT") [x; ALit litInt (VInt precision)].
End Bare.
Import Bare.

Lemma binder_type_safe_witness :
  is_ret (bindExpr selectList total noAggs) = true /\
  match bindExpr selectList total noAggs with
  | Ret (r, st') => st_ok rows st' /\ grows noAggs st' /\ forall ec, ctx_ok (envOf selectList st') ec -> yields (eval r ec) (e_typ r)
  | Err _ => True
  | Panic => False
  end.
Proof. split; [by vm_compute|]. apply (binder_type_safe rows selectList total noAggs); [reflexivity|constructor|]. split; [reflexivity|]. split; [reflexivity|exact I]. Defined.

(** The precision of HLL_COUNT.INIT is not part of the fingerprint of the call: two calls
    that differ in nothing else share the accumulator of the first. *)
Theorem hll_precision_shared :
  match (a ← bindExpr selectList (hll 10); b ← bindExpr selectList (hll 15); mret (e_idx a, e_idx b)) noAggs with
  | Ret ((i, j), st) => i = j /\ as_newState <$> specs st = [hllState None 10 false false]
  | _ => False
  end.
Proof. by vm_compute. Qed.
Example nested_aggregates : bindExpr selectList (plainCall (str "SUM") [plainCall (str "COUNT") [x]]) noAggs = Err InvalidArgument.
Proof. by vm_compute. Qed.
(** No function is registered twice. *)
Example function_names : NoDup ((rawFuncs).*1 ++ (scalarFuncs).*1 ++ (aggFuncs).*1).
Proof. apply (bool_decide_unpack _). by vm_compute. Qed.
