(* ===== verification/Parser.v ===== *)
(** * The parser of queries

    [internal/gsql/parser.go].  The parser is a state monad over [outcome]: its state is
    the tokens that are left, the last of which is the end token and is never passed.  The
    field [depth] of the source counts the expressions and queries that are open, so it is
    an argument.  Positions and texts of error messages are left out, and with them
    [exprSource] of a select item, which nothing reads.

    The grammar is recursive in four places after a token has been read.  [grammar] ties
    the knot: [levels n] parses what is at most [n] tokens long. *)

From stdpp Require Import base list.
From Stdlib Require Import ZArith Lia.
From Stdlib Require Import Floats.SpecFloat.
From S2P Require Import Prelude Proto Rows Server Instances Tokens KeySchema Lexer SqlValues SqlFloat SqlArith SqlTime SqlOps SqlCast Bexpr BindOps FuncsString Ast Binder.

#[local] Open Scope Z_scope.

#[global] Instance tokKind_eq_dec : EqDecision tokKind.
Proof. solve_decision. Defined.

(** ** Tokens *)

Definition parser (A : Type) : Type := list token -> outcome (A * list token).
#[global] Instance parser_ret : MRet parser := fun A a ts => Ret (a, ts).
#[global] Instance parser_bind : MBind parser := fun A C f m ts => '(a, ts) ← m ts; f a ts.
Definition fail {A : Type} (c : Code) : parser A := fun _ => Err c.
(** An error status that carries a value is a value or an error. *)
Definition liftP {A : Type} (r : outcome A) : parser A := fun ts => a ← r; Ret (a, ts).
(** The fuel of a loop that reads a token in every turn. *)
Definition withFuel {A : Type} (f : nat -> parser A) : parser A := fun ts => f (length ts) ts.
Definition noFuel {A : Type} : parser A := fun _ => Panic.

Definition endToken : token := mkTok tEOF [] [] [] 0.
Definition headTok (ts : list token) : token := match ts with t :: _ => t | [] => endToken end.
Definition peek : parser token := fun ts => Ret (headTok ts, ts).
Definition peekN (n : nat) : parser token := fun ts => Ret (match ts !! n with Some t => t | None => List.last ts endToken end, ts).
Definition advance : parser token := fun ts => Ret (headTok ts, match ts with _ :: (_ :: _) as ts' => ts' | _ => ts end).

Definition isOp (t : token) (op : bytes) : bool := bool_decide (tk_kind t = tOp) && bool_decide (tk_text t = op).
Definition isIdent (t : token) : bool := bool_decide (tk_kind t = tIdent) || bool_decide (tk_kind t = tQIdent).

Definition reservedKeywords : list bytes :=
  [str "ALL"; str "AND"; str "ANY"; str "ARRAY"; str "AS"; str "ASC"; str "ASSERT_ROWS_MODIFIED"; str "AT"; str "BETWEEN"; str "BY"; str "CASE"; str "CAST"; str "COLLATE"; str "CONTAINS"; str "CREATE"; str "CROSS";
   str "CUBE"; str "CURRENT"; str "DEFAULT"; str "DEFINE"; str "DESC"; str "DISTINCT"; str "ELSE"; str "END"; str "ENUM"; str "ESCAPE"; str "EXCEPT"; str "EXCLUDE"; str "EXISTS"; str "EXTRACT"; str "FALSE";
   str "FETCH"; str "FOLLOWING"; str "FOR"; str "FROM"; str "FULL"; str "GROUP"; str "GROUPING"; str "GROUPS"; str "HASH"; str "HAVING"; str "IF"; str "IGNORE"; str "IN"; str "INNER"; str "INTERSECT";
   str "INTERVAL"; str "INTO"; str "IS"; str "JOIN"; str "LATERAL"; str "LEFT"; str "LIKE"; str "LIMIT"; str "LOOKUP"; str "MERGE"; str "NATURAL"; str "NEW"; str "NO"; str "NOT"; str "NULL"; str "NULLS";
   str "OF"; str "ON"; str "OR"; str "ORDER"; str "OUTER"; str "OVER"; str "PARTITION"; str "PRECEDING"; str "PROTO"; str "QUALIFY"; str "RANGE"; str "RECURSIVE"; str "RESPECT"; str "RIGHT"; str "ROLLUP"; str "ROWS";
   str "SELECT"; str "SET"; str "SOME"; str "STRUCT"; str "TABLESAMPLE"; str "THEN"; str "TO"; str "TREAT"; str "TRUE"; str "UNBOUNDED"; str "UNION"; str "UNNEST"; str "USING"; str "WHEN"; str "WHERE";
   str "WINDOW"; str "WITH"; str "WITHIN"].

Definition comparisonOps : list (bytes * binOp) :=
  [(str "=", BCmp OpEq); (str "!=", BCmp OpNe); (str "<>", BCmp OpNe); (str "<", BCmp OpLt); (str "<=", BCmp OpLe); (str ">", BCmp OpGt); (str ">=", BCmp OpGe)].
Definition indexModes : list (bytes * indexMode) :=
  [(str "OFFSET", OffsetMode); (str "SAFE_OFFSET", SafeOffset); (str "ORDINAL", OrdinalMode); (str "SAFE_ORDINAL", SafeOrdinal); (str "KEY", KeyMode); (str "SAFE_KEY", SafeKey)].
(** The operator that a token is, by a table. *)
Definition opIn {A : Type} (ops : list (bytes * A)) (t : token) : option A := if bool_decide (tk_kind t = tOp) then assoc (tk_text t) ops else None.

Section parser.
Context `{Folding} `{Unicode} `{Strconv}.

Definition isReserved (word : bytes) : bool := bool_decide (ToUpper word ∈ reservedKeywords).
Definition isKw (t : token) (kw : bytes) : bool := bool_decide (tk_kind t = tIdent) && EqualFold (tk_text t) kw.
Definition isKwIn (t : token) (kws : list bytes) : bool := existsb (isKw t) kws.
(** An unquoted identifier that is not reserved, or a quoted one. *)
Definition nameToken (t : token) : bool := bool_decide (tk_kind t = tQIdent) || (bool_decide (tk_kind t = tIdent) && negb (isReserved (tk_text t))).

Definition accept (p : token -> bool) : parser bool := t ← peek; if p t then _ ← advance; mret true else mret false.
Definition acceptKw (kw : bytes) : parser bool := accept (fun t => isKw t kw).
Definition acceptOp (op : bytes) : parser bool := accept (fun t => isOp t op).
Definition expectKw (kw : bytes) : parser unit := ok ← acceptKw kw; if ok : bool then mret tt else fail InvalidArgument.
Definition expectOp (op : bytes) : parser unit := ok ← acceptOp op; if ok : bool then mret tt else fail InvalidArgument.
(** [expectGT] takes a [>] off [>>] and [>=]. *)
Definition expectGT : parser unit := fun ts =>
  let t := headTok ts in
  let rest text := mkTok (tk_kind t) text (tk_str t) (tk_b t) (S (tk_pos t)) :: tl ts in
  if isOp t (str ">") then (_ ← advance; mret tt : parser unit) ts
  else if isOp t (str ">>") then Ret (tt, rest (str ">"))
  else if isOp t (str ">=") then Ret (tt, rest (str "="))
  else Err InvalidArgument.
Definition identifier : parser bytes := t ← peek; if nameToken t then _ ← advance; mret (tk_str t) else fail InvalidArgument.

(** A list with commaList between its items. *)
Section commaList.
Context {A : Type} (item : parser A).
Fixpoint commaLoop (n : nat) : parser (list A) :=
  match n with
  | O => noFuel
  | S n' => x ← item; more ← acceptOp (str ","); if more : bool then xs ← commaLoop n'; mret (x :: xs) else mret [x]
  end.
Definition commaList : parser (list A) := withFuel commaLoop.
End commaList.
(** What follows a keyword, if the keyword is there. *)
Definition onKw {A : Type} (kw : bytes) (p : parser A) : parser (option A) := ok ← acceptKw kw; if ok : bool then x ← p; mret (Some x) else mret None.

(** ** Types *)

Definition structField (parseType : parser astType) : parser (bytes * astType) :=
  t ← peek; n ← peekN 1;
  name ← (if isIdent t && isIdent n then _ ← advance; mret (tk_str t) else mret [] : parser bytes);
  typ ← parseType; mret (name, typ).
(** The fields of STRUCT<...> up to the bracket that closes it. *)
Definition structFields (parseType : parser astType) : parser (list (bytes * astType)) :=
  t ← peek; fs ← (if isOp t (str ">") then mret [] else commaList (structField parseType) : parser _); _ ← expectGT; mret fs.
Fixpoint typeLevels (n : nat) : parser astType :=
  match n with
  | O => noFuel
  | S n' =>
      t ← peek;
      if negb (bool_decide (tk_kind t = tIdent)) then fail InvalidArgument
      else
        _ ← advance;
        let name := ToUpper (tk_text t) in
        if bool_decide (name = str "ARRAY") then _ ← expectOp (str "<"); e ← typeLevels n'; _ ← expectGT; mret (TyArray e)
        else if bool_decide (name = str "MAP") then
          _ ← expectOp (str "<"); k ← typeLevels n'; _ ← expectOp (str ","); v ← typeLevels n'; _ ← expectGT; mret (TyMap k v)
        else if bool_decide (name = str "STRUCT") then _ ← expectOp (str "<"); fs ← structFields (typeLevels n'); mret (TyStruct fs)
        else u ← peek; if isOp u (str "(") then fail Unimplemented else mret (TyName name)
  end.
Definition parseType : parser astType := withFuel typeLevels.

(** ** Expressions *)

(** The nonterminals that are parsed again inside an expression; [k_expr] takes the number
    of expressions and queries around it. *)
Record grammar : Type := mkGrammar { k_expr : nat -> parser astExpr; k_not : nat -> parser astExpr; k_unary : nat -> parser astExpr; k_postfix : nat -> parser astExpr }.

(** Operators of one level associate to the left. *)
Section leftAssoc.
Context (opOf : token -> option binOp) (operand : parser astExpr).
Fixpoint levelLoop (n : nat) (l : astExpr) : parser astExpr :=
  match n with
  | O => noFuel
  | S n' =>
      t ← peek;
      match opOf t with
      | None => mret l
      | Some op => _ ← advance; r ← operand; levelLoop n' (ABinary op l r)
      end
  end.
Definition leftAssoc : parser astExpr := l ← operand; withFuel (fun n => levelLoop n l).
End leftAssoc.
Definition parseBinaryLevel (ops : list (bytes * binOp)) (operand : parser astExpr) : parser astExpr := leftAssoc (opIn ops) operand.
Definition kwOp (kw : bytes) (op : binOp) (t : token) : option binOp := if isKw t kw then Some op else None.

Definition parseOrderItem (expr : parser astExpr) : parser (astExpr * orderFlags) :=
  x ← expr;
  asc ← acceptKw (str "ASC");
  desc ← (if asc : bool then mret false else acceptKw (str "DESC") : parser bool);
  nulls ← onKw (str "NULLS")
    (first ← acceptKw (str "FIRST");
     if first : bool then mret false else last ← acceptKw (str "LAST"); if last : bool then mret true else fail InvalidArgument);
  mret (x, mkOrderItem desc (asc || desc) nulls).
Definition parseOrderItems (expr : parser astExpr) : parser (list (astExpr * orderFlags)) := commaList (parseOrderItem expr).

(** Functions that are not implemented; their arguments are skipped. *)
Definition unsupportedFunction (name : bytes) : option bytes :=
  if HasPrefix name (str "ST_") || HasPrefix name (str "S2_") then Some (str "geography function " ++ name)
  else if bool_decide (name ∈ [str "ROW_NUMBER"; str "RANK"; str "DENSE_RANK"; str "PERCENT_RANK"; str "CUME_DIST"; str "NTILE"; str "LAG"; str "LEAD"; str "FIRST_VALUE"; str "LAST_VALUE"; str "NTH_VALUE"; str "PERCENTILE_CONT"; str "PERCENTILE_DISC"]) then Some (str "window function " ++ name)
  else if bool_decide (name ∈ [str "APPROX_QUANTILES"; str "APPROX_TOP_COUNT"; str "APPROX_TOP_SUM"]) then Some (str "approximate aggregate function " ++ name)
  else if bool_decide (name ∈ [str "ARRAY_FILTER"; str "ARRAY_TRANSFORM"]) then Some (str "lambda function " ++ name)
  else if bool_decide (name ∈ [str "NORMALIZE"; str "NORMALIZE_AND_CASEFOLD"]) then Some (str "Unicode normalization function " ++ name)
  else if bool_decide (name = str "CLUSTER_ATTRIBUTE") then Some (str "non-deterministic function CLUSTER_ATTRIBUTE")
  else None.

(** The loop of [skipBalanced]; [depth] parentheses are open. *)
Fixpoint skipLoop (n : nat) (depth : Z) : parser unit :=
  match n with
  | O => noFuel
  | S n' =>
      t ← advance;
      if bool_decide (tk_kind t = tEOF) then fail InvalidArgument
      else if isOp t (str "(") then skipLoop n' (depth + 1)
      else if isOp t (str ")") then if depth - 1 =? 0 then mret tt else skipLoop n' (depth - 1)
      else skipLoop n' depth
  end.
Definition skipBalanced : parser unit := t ← peek; if isOp t (str "(") then withFuel (fun n => skipLoop n 0) else fail InvalidArgument.
Definition skipOver : parser bool :=
  over ← acceptKw (str "OVER");
  if over : bool then t ← peek; if isOp t (str "(") then _ ← skipBalanced; mret true else _ ← identifier; mret true
  else mret false.

Section expressions.
Context (K : grammar) (d : nat).

Definition parseArrayLiteral (elemType : option astType) : parser astExpr :=
  _ ← expectOp (str "[");
  empty ← acceptOp (str "]");
  if empty : bool then mret (AArray elemType [])
  else xs ← commaList (k_expr K d); _ ← expectOp (str "]"); mret (AArray elemType xs).

Definition implicitAlias (x : astExpr) : bytes := match x with AIdent name _ => name | AField _ name => name | _ => [] end.
Definition parseStructField (typed : bool) : parser (astExpr * bytes) :=
  x ← k_expr K d;
  as_ ← acceptKw (str "AS");
  if as_ : bool then if typed then fail InvalidArgument else name ← identifier; mret (x, name)
  else mret (x, implicitAlias x).
Definition parseStruct : parser astExpr :=
  _ ← advance;
  params ← acceptOp (str "<");
  typ ← (if params : bool then fs ← structFields parseType; mret (Some (TyStruct fs)) else mret None : parser (option astType));
  _ ← expectOp (str "(");
  empty ← acceptOp (str ")");
  if empty : bool then mret (AStruct typ [] [])
  else
    fs ← commaList (parseStructField (match typ with Some _ => true | None => false end));
    _ ← expectOp (str ")");
    mret (AStruct typ fs.*1 fs.*2).

(** The WHEN clauses of a CASE. *)
Fixpoint whenLoop (n : nat) : parser (list (astExpr * astExpr)) :=
  match n with
  | O => noFuel
  | S n' =>
      more ← acceptKw (str "WHEN");
      if more : bool then
        cond ← k_expr K d; _ ← expectKw (str "THEN"); res ← k_expr K d; ws ← whenLoop n'; mret ((cond, res) :: ws)
      else mret []
  end.
Definition parseCase : parser astExpr :=
  _ ← advance;
  t ← peek;
  operand ← (if isKw t (str "WHEN") then mret None else x ← k_expr K d; mret (Some x) : parser (option astExpr));
  whens ← withFuel whenLoop;
  match whens with
  | [] => fail InvalidArgument
  | _ => els ← onKw (str "ELSE") (k_expr K d); _ ← expectKw (str "END"); mret (ACase operand whens els)
  end.

Definition parseCast (safe : bool) : parser astExpr :=
  _ ← advance; _ ← advance;
  x ← k_expr K d;
  _ ← expectKw (str "AS");
  typ ← parseType;
  t ← peek;
  if EqualFold (tk_text t) (str "FORMAT") then fail Unimplemented
  else _ ← expectOp (str ")"); mret (ACast x typ safe).

(** [AT TIME ZONE] after AT. *)
Definition timeZone : parser astExpr :=
  t ← peek;
  if negb (EqualFold (tk_text t) (str "TIME")) then fail InvalidArgument
  else
    _ ← advance; u ← peek;
    if negb (EqualFold (tk_text u) (str "ZONE")) then fail InvalidArgument else _ ← advance; k_expr K d.
Definition parseExtract : parser astExpr :=
  _ ← advance;
  _ ← expectOp (str "(");
  part ← k_postfix K d;
  _ ← expectKw (str "FROM");
  x ← k_expr K d;
  tz ← onKw (str "AT") timeZone;
  _ ← expectOp (str ")");
  mret (AExtract part x tz).

Definition callArg (name : bytes) : parser astExpr :=
  t ← peek; n ← peekN 1;
  if isIdent t && isOp n (str "=>") then fail Unimplemented else k_expr K d.
Definition nullsClause (kw : bytes) : parser bool := o ← onKw kw (expectKw (str "NULLS")); mret (match o with Some _ => true | None => false end).
(** The arguments and clauses of a call, after the opening parenthesis and before the
    closing one. *)
Definition callBody (name : bytes) (safe : bool) : parser astExpr :=
  t ← peek; n ← peekN 1;
  if isOp t (str "*") && isOp n (str ")") then _ ← advance; mret (ACall name [] (mkFlags true false false false safe) [] None)
  else
    distinct ← acceptKw (str "DISTINCT");
    args ← commaList (callArg name);
    ignoreNulls ← nullsClause (str "IGNORE");
    respectNull ← (if ignoreNulls : bool then mret false else nullsClause (str "RESPECT") : parser bool);
    t ← peek;
    if isKw t (str "HAVING") then fail Unimplemented
    else
      orderBy ← onKw (str "ORDER") (_ ← expectKw (str "BY"); parseOrderItems (k_expr K d));
      limit ← onKw (str "LIMIT") (k_expr K d);
      mret (ACall name args (mkFlags false distinct ignoreNulls respectNull safe) (match orderBy with Some l => l | None => [] end) limit).
Definition parseCall (name0 : bytes) : parser astExpr :=
  let safe := HasPrefix name0 (str "SAFE.") in
  let name := TrimPrefix name0 (str "SAFE.") in
  match unsupportedFunction name with
  | Some what =>
      _ ← skipBalanced; _ ← skipOver;
      mret (AUnsupported what true (if HasPrefix what (str "window function") then str "window functions are not supported by the emulator (" ++ name ++ str ")" else []))
  | None =>
      _ ← expectOp (str "(");
      empty ← acceptOp (str ")");
      call ← (if empty : bool then mret (ACall name [] (mkFlags false false false false safe) [] None)
              else call ← callBody name safe; _ ← expectOp (str ")"); mret call : parser astExpr);
      over ← skipOver;
      if over : bool then mret (AUnsupported (str "window function " ++ name) true (str "window functions are not supported by the emulator (" ++ name ++ str " ... OVER)"))
      else mret call
  end.

(** The parts of a dotted name after the first. *)
Fixpoint dottedLoop (n : nat) : parser (list token) :=
  match n with
  | O => noFuel
  | S n' =>
      t ← peek; u ← peekN 1;
      if isOp t (str ".") && isIdent u then _ ← advance; _ ← advance; us ← dottedLoop n'; mret (u :: us) else mret []
  end.
Definition parseIdentOrCall : parser astExpr :=
  first ← advance;
  parts ← withFuel dottedLoop;
  t ← peek;
  if isOp t (str "(") && bool_decide (tk_kind first = tIdent) then parseCall (joinBytes ((fun p => ToUpper (tk_str p)) <$> first :: parts) (str "."))
  else if bool_decide (tk_kind first = tIdent) && isReserved (tk_text first) then fail InvalidArgument
  else mret (foldl (fun x p => AField x (tk_str p)) (AIdent (tk_str first) (bool_decide (tk_kind first = tQIdent))) parts).

(** After an opening parenthesis: an expression or a tuple. *)
Definition parseParenthesized : parser astExpr :=
  n ← peek;
  if isKwIn n [str "SELECT"; str "WITH"] then fail InvalidArgument
  else
    x ← k_expr K d;
    tuple ← acceptOp (str ",");
    if tuple : bool then
      ys ← commaList (k_expr K d); _ ← expectOp (str ")"); mret (AStruct None (x :: ys) ((fun _ => []) <$> x :: ys))
    else _ ← expectOp (str ")"); mret x.

(** After ARRAY. *)
Definition parseArray : parser astExpr :=
  n ← peek;
  if isOp n (str "<") then
    _ ← advance; et ← parseType; _ ← expectGT; u ← peek;
    if isOp u (str "[") then parseArrayLiteral (Some et) else fail InvalidArgument
  else if isOp n (str "[") then parseArrayLiteral None
  else fail InvalidArgument.

Definition parseInterval : parser astExpr :=
  _ ← advance;
  x ← k_unary K d;
  u ← peek;
  if negb (bool_decide (tk_kind u = tIdent)) then fail InvalidArgument
  else _ ← advance; v ← peek; if isKw v (str "TO") then fail Unimplemented else mret (AInterval x (ToUpper (tk_text u))).

(** An unquoted identifier or keyword [t]. *)
Definition parseWord (t : token) : parser astExpr :=
  let up := ToUpper (tk_text t) in
  n ← peekN 1;
  if bool_decide (up = str "NULL") then _ ← advance; mret (ALit litNull VNull)
  else if bool_decide (up ∈ [str "TRUE"; str "FALSE"]) then _ ← advance; mret (ALit litBool (VBool (bool_decide (up = str "TRUE"))))
  else if bool_decide (up = str "CASE") then parseCase
  else if bool_decide (up ∈ [str "CAST"; str "SAFE_CAST"]) && isOp n (str "(") then parseCast (bool_decide (up = str "SAFE_CAST"))
  else if bool_decide (up = str "EXTRACT") then parseExtract
  else if bool_decide (up = str "INTERVAL") then parseInterval
  else if bool_decide (up = str "ARRAY") then _ ← advance; parseArray
  else if bool_decide (up = str "STRUCT") then parseStruct
  else if bool_decide (up ∈ [str "EXISTS"; str "SELECT"]) then fail InvalidArgument
  else if bool_decide (up ∈ [str "DATE"; str "TIMESTAMP"]) && bool_decide (tk_kind n = tString) then _ ← advance; _ ← advance; mret (ATypedLit up (tk_str n))
  else if bool_decide (up ∈ [str "NUMERIC"; str "BIGNUMERIC"; str "JSON"; str "DATETIME"; str "TIME"; str "RANGE"]) && bool_decide (tk_kind n = tString) then fail Unimplemented
  else parseIdentOrCall.

Definition intLit (text : bytes) : parser astExpr := v ← liftP (parseIntLiteral text); mret (ALit litInt (VInt v)).
Definition parsePrimary : parser astExpr :=
  t ← peek;
  match tk_kind t with
  | tInt => _ ← advance; intLit (tk_text t)
  | tFloat => _ ← advance; match ParseFloat (tk_text t) 64 with FloatOk f => mret (ALit litFloat (VFloat f)) | _ => fail InvalidArgument end
  | tString => _ ← advance; mret (ALit litString (VString (tk_str t)))
  | tBytes => _ ← advance; mret (ALit litBytes (VBytes (tk_b t)))
  | tParam => _ ← advance; mret (AParam (tk_str t))
  | tOp =>
      if bool_decide (tk_text t = str "(") then _ ← advance; parseParenthesized
      else if bool_decide (tk_text t = str "[") then parseArrayLiteral None
      else fail InvalidArgument
  | tQIdent => parseIdentOrCall
  | tIdent => parseWord t
  | tEOF | tHint => fail InvalidArgument
  end.

(** The index of a subscript, after the bracket. *)
Definition parseIndex : parser (indexMode * astExpr) :=
  n ← peek; u ← peekN 1;
  match (if bool_decide (tk_kind n = tIdent) && isOp u (str "(") then assoc (ToUpper (tk_text n)) indexModes else None) with
  | Some m => _ ← advance; _ ← advance; e ← k_expr K d; _ ← expectOp (str ")"); mret (m, e)
  | None => e ← k_expr K d; mret (NoMode, e)
  end.
Fixpoint postfixLoop (n : nat) (x : astExpr) : parser astExpr :=
  match n with
  | O => noFuel
  | S n' =>
      t ← peek;
      if isOp t (str "[") then
        _ ← advance; i ← parseIndex; _ ← expectOp (str "]"); postfixLoop n' (AIndex x i.1 i.2)
      else if isOp t (str ".") then
        u ← peekN 1;
        if isOp u (str "*") then mret x
        else if negb (isIdent u) then fail InvalidArgument
        else _ ← advance; _ ← advance; postfixLoop n' (AField x (tk_str u))
      else mret x
  end.
Definition parsePostfix : parser astExpr := x ← parsePrimary; withFuel (fun n => postfixLoop n x).

Definition unaryOps : list (bytes * unOp) := [(str "-", UMinus); (str "+", UPlus); (str "~", UTilde)].
Definition parseUnary : parser astExpr :=
  t ← peek;
  match opIn unaryOps t with
  | None => parsePostfix
  | Some op =>
      _ ← advance;
      n ← peek; u ← peekN 1;
      if isOp t (str "-") && bool_decide (tk_kind n = tInt) && negb (isOp u (str "[")) && negb (isOp u (str ".")) then _ ← advance; intLit (str "-" ++ tk_text n)
      else x ← k_unary K d; mret (AUnary op x)
  end.

Definition parseMul : parser astExpr := parseBinaryLevel [(str "*", BArith Mul); (str "/", BArith Div); (str "||", BConcat)] parseUnary.
Definition parseAdd : parser astExpr := parseBinaryLevel [(str "+", BArith Add); (str "-", BArith Sub)] parseMul.
Definition parseShift : parser astExpr := parseBinaryLevel [(str "<<", BShift true); (str ">>", BShift false)] parseAdd.
Definition parseBitAnd : parser astExpr := parseBinaryLevel [(str "&", BBit BitAnd)] parseShift.
Definition parseBitXor : parser astExpr := parseBinaryLevel [(str "^", BBit BitXor)] parseBitAnd.
Definition parseBitOr : parser astExpr := parseBinaryLevel [(str "|", BBit BitOr)] parseBitXor.

(** What follows IS or IS NOT. *)
Definition parseIs (l : astExpr) (not : bool) : parser astExpr :=
  w ← peek;
  if isKwIn w [str "NULL"; str "UNKNOWN"] then _ ← advance; mret (AIs l not IsNull)
  else if isKw w (str "TRUE") then _ ← advance; mret (AIs l not (IsBool true))
  else if isKw w (str "FALSE") then _ ← advance; mret (AIs l not (IsBool false))
  else if isKw w (str "DISTINCT") then
    _ ← advance; _ ← expectKw (str "FROM"); r ← parseBitOr;
    mret (ACall (if not then str "$is_not_distinct_from" else str "$is_distinct_from") [l; r] (mkFlags false false false false false) [] None)
  else fail InvalidArgument.
(** What follows IN. *)
Definition parseIn (l : astExpr) (not : bool) : parser astExpr :=
  unnest ← acceptKw (str "UNNEST");
  _ ← expectOp (str "(");
  if unnest : bool then x ← k_expr K d; _ ← expectOp (str ")"); mret (AIn l not [] (Some x))
  else
    t ← peek;
    if isKwIn t [str "SELECT"; str "WITH"] then fail InvalidArgument
    else xs ← commaList (k_expr K d); _ ← expectOp (str ")"); mret (AIn l not xs None).
Definition parseLike (l : astExpr) (not : bool) : parser astExpr :=
  n ← peek;
  if isKwIn n [str "ANY"; str "SOME"; str "ALL"] then fail Unimplemented
  else r ← parseBitOr; t ← peek; if isKw t (str "ESCAPE") then fail Unimplemented else mret (ALike l r not).
Definition parseBetween (l : astExpr) (not : bool) : parser astExpr :=
  lo ← parseBitOr; _ ← expectKw (str "AND"); hi ← parseBitOr; mret (ABetween l lo hi not).

Definition parseComparison : parser astExpr :=
  l ← parseBitOr;
  t ← peek;
  match opIn comparisonOps t with
  | Some op =>
      _ ← advance; r ← parseBitOr; n ← peek;
      match opIn comparisonOps n with Some _ => fail InvalidArgument | None => mret (ABinary op l r) end
  | None =>
      if isKw t (str "IS") then _ ← advance; not ← acceptKw (str "NOT"); parseIs l not
      else
        n ← peekN 1;
        let not := isKw t (str "NOT") && isKwIn n [str "IN"; str "LIKE"; str "BETWEEN"] in
        _ ← (if not then advance else peek : parser token);
        u ← peek;
        if isKw u (str "IN") then _ ← advance; parseIn l not
        else if isKw u (str "LIKE") then _ ← advance; parseLike l not
        else if isKw u (str "BETWEEN") then _ ← advance; parseBetween l not
        else mret l
  end.
Definition parseNot : parser astExpr :=
  t ← peek;
  if isKw t (str "NOT") then _ ← advance; x ← k_not K d; mret (AUnary UNot x) else parseComparison.
Definition parseAnd : parser astExpr := leftAssoc (kwOp (str "AND") BAnd) parseNot.
Definition parseOr : parser astExpr := leftAssoc (kwOp (str "OR") BOr) parseAnd.
End expressions.

Definition maxExprDepth : nat := 200.
Definition stepGrammar (K : grammar) : grammar :=
  mkGrammar (fun d => if Nat.ltb maxExprDepth (S d) then fail InvalidArgument else parseOr K (S d)) (parseNot K) (parseUnary K) (parsePostfix K).
Fixpoint levels (n : nat) : grammar :=
  match n with O => mkGrammar (fun _ => noFuel) (fun _ => noFuel) (fun _ => noFuel) (fun _ => noFuel) | S n' => stepGrammar (levels n') end.
Definition parseExpr (d : nat) : parser astExpr := withFuel (fun n => k_expr (levels n) d).

(** ** Queries *)

(** The name of a hint after its first part. *)
Fixpoint hintLoop (n : nat) (name : bytes) : parser bytes :=
  match n with
  | O => noFuel
  | S n' => dot ← acceptOp (str "."); if dot : bool then t ← advance; hintLoop n' (name ++ str "." ++ tk_str t) else mret name
  end.
Section queries.
Context (d : nat).

Definition parseHint : parser namedArg :=
  t ← peek;
  if negb (isIdent t) then fail InvalidArgument
  else
    _ ← advance;
    name ← withFuel (fun n => hintLoop n (tk_str t));
    _ ← expectOp (str "=");
    x ← withFuel (fun n => k_unary (levels n) d);
    mret (mkNamed name x).
Definition parseHints : parser (list namedArg) := _ ← advance; hs ← commaList parseHint; _ ← expectOp (str "}"); mret hs.

Definition parseReplace : parser (astExpr * bytes) := x ← parseExpr d; _ ← expectKw (str "AS"); name ← identifier; mret (x, name).
Definition inParens {A : Type} (p : parser A) : parser A := _ ← expectOp (str "("); a ← p; _ ← expectOp (str ")"); mret a.
(** The modifiers change the item that is returned with them; the source returns both in
    one statement, in which the compiler calls functions first. *)
Definition parseStarModifiers (starExpr : option astExpr) : parser selectItem :=
  except ← onKw (str "EXCEPT") (inParens (commaList identifier));
  replace ← onKw (str "REPLACE") (inParens (commaList parseReplace));
  mret (mkItem true starExpr (match except with Some l => l | None => [] end) (match replace with Some l => l | None => [] end) None None).
(** An alias: after AS, or a name that follows. *)
Definition parseAlias : parser (option bytes) :=
  as_ ← acceptKw (str "AS");
  if as_ : bool then name ← identifier; mret (Some name)
  else t ← peek; if nameToken t then _ ← advance; mret (Some (tk_str t)) else mret None.
Definition parseSelectItem : parser selectItem :=
  star ← acceptOp (str "*");
  if star : bool then parseStarModifiers None
  else
    x ← parseExpr d;
    t ← peek; u ← peekN 1;
    if isOp t (str ".") && isOp u (str "*") then _ ← advance; _ ← advance; parseStarModifiers (Some x)
    else alias ← parseAlias; mret (mkItem false None [] [] (Some x) alias).

Definition parseTableArg : parser namedArg :=
  t ← peek; n ← peekN 1;
  if negb (isIdent t) || negb (isOp n (str "=>")) then fail InvalidArgument
  else _ ← advance; _ ← advance; x ← parseExpr d; mret (mkNamed (tk_str t) x).
(** The name of a table and its arguments. *)
Definition parseTable : parser (bytes * bool * list namedArg) :=
  name ← identifier;
  t ← peek;
  if isOp t (str ".") then fail InvalidArgument
  else
    hasArgs ← acceptOp (str "(");
    if hasArgs : bool then
      empty ← acceptOp (str ")");
      if empty : bool then mret (name, true, []) else args ← commaList parseTableArg; _ ← expectOp (str ")"); mret (name, true, args)
    else mret (name, false, []).

Section from.
Context (subquery : parser astQuery).
(** After [UNPACK] and its parenthesis. *)
Definition parseUnpack : parser astQuery :=
  t ← peek;
  if isOp t (str "(") || isKw t (str "SELECT") then q ← subquery; _ ← expectOp (str ")"); mret q else fail InvalidArgument.
Definition parseFrom : parser astFrom :=
  t ← peek; n ← peekN 1;
  if isOp t (str "(") then fail InvalidArgument
  else if isKw t (str "UNNEST") then fail Unimplemented
  else
    '(table, hasArgs, args, unpack) ←
      (if isKw t (str "UNPACK") && isOp n (str "(") then _ ← advance; _ ← advance; q ← parseUnpack; mret ([], false, [], Some q)
       else r ← parseTable; mret (r, None) : parser (bytes * bool * list namedArg * option astQuery));
    h ← peek;
    hints ← (if bool_decide (tk_kind h = tHint) then parseHints else mret [] : parser (list namedArg));
    alias ← parseAlias;
    u ← peek;
    if isOp u (str ",") || isKwIn u [str "JOIN"; str "CROSS"; str "INNER"; str "LEFT"; str "RIGHT"; str "FULL"; str "NATURAL"] then fail InvalidArgument
    else if isKw u (str "TABLESAMPLE") then fail Unimplemented
    else mret (mkFrom table args hasArgs (match alias with Some a => a | None => [] end) unpack hints).

(** A token that ends the select list. *)
Definition endsItems (t : token) : bool :=
  bool_decide (tk_kind t = tEOF) || isKwIn t [str "FROM"; str "WHERE"; str "GROUP"; str "ORDER"; str "LIMIT"; str "HAVING"] || isOp t (str ")") || isOp t (str ";").
(** The select list; a comma may end it. *)
Fixpoint itemsLoop (n : nat) (items : list selectItem) : parser (list selectItem) :=
  match n with
  | O => noFuel
  | S n' =>
      t ← peek;
      if endsItems t then match items with [] => fail InvalidArgument | _ => mret items end
      else
        item ← parseSelectItem;
        more ← acceptOp (str ",");
        if more : bool then itemsLoop n' (items ++ [item]) else mret (items ++ [item])
  end.
Definition parseGroupBy : parser (list astExpr) :=
  _ ← expectKw (str "BY");
  t ← peek;
  if isKwIn t [str "ROLLUP"; str "CUBE"; str "GROUPING"; str "ALL"] then fail Unimplemented else commaList (parseExpr d).
Definition parseSelect : parser astSelect :=
  _ ← expectKw (str "SELECT");
  t ← peek; u ← peekN 1;
  if isKw t (str "AS") && isKwIn u [str "STRUCT"; str "VALUE"] then fail Unimplemented
  else
    distinct ← acceptKw (str "DISTINCT");
    _ ← (if distinct : bool then mret false else acceptKw (str "ALL") : parser bool);
    items ← withFuel (fun n => itemsLoop n []);
    from ← onKw (str "FROM") parseFrom;
    where_ ← onKw (str "WHERE") (parseExpr d);
    groupBy ← onKw (str "GROUP") parseGroupBy;
    having ← onKw (str "HAVING") (parseExpr d);
    t ← peek;
    if isKwIn t [str "WINDOW"; str "QUALIFY"] then fail Unimplemented
    else mret (mkSelect distinct items from where_ (match groupBy with Some l => l | None => [] end) having).
End from.

(** A query after its body: ORDER BY, LIMIT and OFFSET. *)
Definition parseTail (sel : option astSelect) (inner : option astQuery) : parser astQuery :=
  t ← peek;
  if isKwIn t [str "UNION"; str "INTERSECT"; str "EXCEPT"] then fail InvalidArgument
  else
    orderBy ← onKw (str "ORDER") (_ ← expectKw (str "BY"); parseOrderItems (parseExpr d));
    lim ← onKw (str "LIMIT") (x ← parseExpr d; o ← onKw (str "OFFSET") (parseExpr d); mret (x, o));
    let q limit offset := mkQuery sel inner (match orderBy with Some l => l | None => [] end) limit offset in
    match lim with
    | Some (x, o) => mret (q (Some x) o)
    | None => u ← peek; if isKw u (str "OFFSET") then fail InvalidArgument else mret (q None None)
    end.
End queries.

Definition maxQueryDepth : nat := 64.
Fixpoint queryLevels (n : nat) (d0 : nat) : parser astQuery :=
  match n with
  | O => noFuel
  | S n' =>
      let d := S d0 in
      if Nat.ltb maxQueryDepth d then fail InvalidArgument
      else
        paren ← acceptOp (str "(");
        if paren : bool then inner ← queryLevels n' d; _ ← expectOp (str ")"); parseTail d None (Some inner)
        else sel ← parseSelect d (queryLevels n' d); parseTail d (Some sel) None
  end.
Definition parseQuery (d : nat) : parser astQuery := withFuel (fun n => queryLevels n d).

(** The statement of a token list; whatever does not start a SELECT is an invalid
    argument. *)
Definition statement : parser (astQuery * list namedArg) :=
  h ← peek;
  hints ← (if bool_decide (tk_kind h = tHint) then parseHints 0 else mret [] : parser (list namedArg));
  t ← peek;
  if isKw t (str "SELECT") || isOp t (str "(") then
    q ← parseQuery 0;
    _ ← acceptOp (str ";");
    u ← peek;
    if bool_decide (tk_kind u = tEOF) then mret (q, hints) else fail InvalidArgument
  else fail InvalidArgument.
Definition parseStatement (src : bytes) : outcome (astQuery * list namedArg) := toks ← lex src; r ← statement toks; Ret r.1.
End parser.
