(* ===== verification/ParserOk.v ===== *)
(** * The parser is total

    On the tokens of the lexer the parser never runs out of fuel and never panics, and the
    trees that it returns are those for which the binder is sound ([ast_ok], BinderOk.v).
    [runs m p ts Q]: run on [ts], the parser [p] leaves at most [m] tokens and returns a
    value that satisfies [Q], or fails. *)

From stdpp Require Import base list.
From Stdlib Require Import ZArith Lia.
From Stdlib Require Import Floats.SpecFloat.
From S2P Require Import Prelude Proto Rows Server Instances Tokens KeySchema Lexer SqlValues SqlFloat SqlArith SqlTime SqlOps SqlCast Bexpr BindOps SqlText FuncsString Ast Binder BinderOk Parser.

#[local] Open Scope Z_scope.

(** ** Trees of queries *)

Section queries.
Context (excluded : list bytes).
Notation ok := (ast_ok excluded).
Definition replace_ok (r : astExpr * bytes) : bool := ok r.1.
Definition named_ok (a : namedArg) : bool := ok (na_x a).
Definition item_ok (i : selectItem) : bool :=
  opt_ok ok (it_starExpr i) && forallb replace_ok (it_replace i) && opt_ok ok (it_expr i) && (it_star i || match it_expr i with Some _ => true | None => false end).
Definition orders_ok (l : list (astExpr * orderFlags)) : bool := forallb (fun o => ok o.1) l.
Fixpoint query_ok (q : astQuery) : bool :=
  match q with
  | mkQuery sel inner orderBy limit offset =>
      match sel, inner with Some s, None => select_ok s | None, Some q' => query_ok q' | _, _ => false end &&
      orders_ok orderBy && opt_ok ok limit && opt_ok ok offset
  end
with select_ok (s : astSelect) : bool :=
  match s with
  | mkSelect _ items from where_ groupBy having =>
      forallb item_ok items && match from with Some f => from_ok f | None => true end && opt_ok ok where_ && forallb ok groupBy && opt_ok ok having
  end
with from_ok (f : astFrom) : bool :=
  match f with
  | mkFrom _ args _ _ unpack hints => forallb named_ok args && match unpack with Some q => query_ok q | None => true end && forallb named_ok hints
  end.
End queries.

(** ** Tokens of the lexer *)

Definition token_ok (t : token) : bool := bytesb (tk_str t) && bytesb (tk_b t).
Fixpoint stream (ts : list token) : Prop :=
  match ts with
  | [] => False
  | [t] => tk_kind t = tEOF /\ token_ok t = true
  | t :: ts' => tk_kind t <> tEOF /\ token_ok t = true /\ stream ts'
  end.
Lemma stream_cons t ts : stream (t :: ts) -> token_ok t = true /\ (ts = [] /\ tk_kind t = tEOF \/ tk_kind t <> tEOF /\ stream ts).
Proof. destruct ts; cbn; [intros [? ?]; split; [done|by left]|intros (? & ? & ?); split; [done|by right]]. Qed.
Lemma stream_tokens ts : stream ts -> Forall (fun t => token_ok t = true) ts /\ ts <> [].
Proof.
  induction ts as [|t ts IH]; [done|]. intros [Ht [[-> _]|[_ Hs]]]%stream_cons; split; try done; [by repeat constructor|].
  constructor; [done|by apply IH].
Qed.
Lemma stream_pos ts : stream ts -> (length ts <= 0)%nat -> False.
Proof. destruct ts; cbn; [done|lia]. Qed.
Lemma head_ok ts : stream ts -> token_ok (headTok ts) = true.
Proof. destruct ts as [|t ts]; [done|]. by intros [? _]%stream_cons. Qed.

(** ** Runs of a parser *)

Definition runs {A : Type} (m : nat) (p : parser A) (ts : list token) (Q : A -> Prop) : Prop :=
  match p ts with Ret (a, ts') => stream ts' /\ (length ts' <= m)%nat /\ Q a | Err _ => True | Panic => False end.
Lemma bind_eq {A B : Type} (p : parser B) (f : B -> parser A) ts : (p ≫= f) ts = ('(b, ts') ← p ts; f b ts').
Proof. done. Qed.
Lemma accept_eq p ts : accept p ts = if p (headTok ts) then Ret (true, match ts with _ :: (_ :: _) as ts' => ts' | _ => ts end) else Ret (false, ts).
Proof. unfold accept. rewrite bind_eq. cbn [peek mbind outcome_bind]. by destruct (p _). Qed.
Section runs.
Context {A : Type}.
Lemma runs_mono m m' p ts (Q Q' : A -> Prop) : runs m p ts Q -> (m <= m')%nat -> (forall a, Q a -> Q' a) -> runs m' p ts Q'.
Proof. unfold runs. destruct (p ts) as [[a ts']| |]; [|done|done]. intros (? & ? & ?) ? HQ. split_and!; [done|lia|by apply HQ]. Qed.
Lemma mret_runs m a ts (Q : A -> Prop) : stream ts -> (length ts <= m)%nat -> Q a -> runs m (mret a) ts Q.
Proof. intros. unfold runs. cbn. by split_and!. Qed.
Lemma fail_runs m c ts (Q : A -> Prop) : runs m (fail c) ts Q.
Proof. done. Qed.
Lemma runs_bind {B} m k (p : parser B) (f : B -> parser A) ts (Q : A -> Prop) (R : B -> Prop) :
  runs k p ts R -> (forall b ts', stream ts' -> (length ts' <= k)%nat -> R b -> runs m (f b) ts' Q) -> runs m (p ≫= f) ts Q.
Proof. unfold runs, mbind, parser_bind. destruct (p ts) as [[b ts']| |]; [|done|done]. intros (? & ? & ?) Hf. by apply Hf. Qed.
Lemma runs_unbind m (p : parser A) ts Q : runs m (p ≫= mret) ts Q -> runs m p ts Q.
Proof. unfold runs. rewrite bind_eq. by destruct (p ts) as [[? ?]| |]. Qed.
Lemma runs_peek m (f : token -> parser A) ts Q : runs m (f (headTok ts)) ts Q -> runs m (peek ≫= f) ts Q.
Proof. done. Qed.
Lemma runs_peekN m n (f : token -> parser A) ts Q : stream ts -> (forall u, token_ok u = true -> runs m (f u) ts Q) -> runs m (peekN n ≫= f) ts Q.
Proof.
  intros Hs Hf. apply (Hf (match ts !! n with Some t => t | None => List.last ts endToken end)). destruct (stream_tokens ts Hs) as [Ht Hn].
  destruct (ts !! n) eqn:E; [by eapply Forall_lookup_1 in Ht|]. destruct ts as [|t ts] using rev_ind; [done|]. rewrite last_last. apply Forall_app in Ht as [_ Ht]. by inv Ht.
Qed.
(** Reading a token passes it, unless it is the end. *)
Lemma runs_advance m (f : token -> parser A) ts Q : stream ts ->
  (forall ts', stream ts' -> (length ts' <= length ts)%nat -> (tk_kind (headTok ts) <> tEOF -> (length ts' < length ts)%nat) -> runs m (f (headTok ts)) ts' Q) ->
  runs m (advance ≫= f) ts Q.
Proof.
  intros Hs Hf. destruct ts as [|t ts]; [done|]. unfold runs. cbn. unfold parser_bind. cbn. apply stream_cons in Hs as [Ht [[-> Hk]|[Hk Hs]]].
  - apply Hf; cbn; [done|lia|done].
  - destruct ts as [|t' ts]; [done|]. apply Hf; cbn; [done|lia|intros _; lia].
Qed.
Lemma runs_accept m (p : token -> bool) (f : bool -> parser A) ts Q : (forall t, p t = true -> tk_kind t <> tEOF) -> stream ts ->
  (forall ts', stream ts' -> (length ts' < length ts)%nat -> runs m (f true) ts' Q) -> runs m (f false) ts Q -> runs m (accept p ≫= f) ts Q.
Proof.
  intros Hp Hs Ht Hf. unfold runs. rewrite bind_eq, accept_eq. destruct (p (headTok ts)) eqn:E; [|exact Hf].
  assert (runs m (advance ≫= fun _ => f true) ts Q) as Hr by (apply runs_advance; [done|]; intros ts' Hs1 _ Hl; apply Ht; [done|]; by apply Hl, Hp).
  exact Hr.
Qed.
Lemma runs_withFuel m (f : nat -> parser A) ts Q : runs m (f (length ts)) ts Q -> runs m (withFuel f) ts Q.
Proof. done. Qed.
End runs.

Lemma isOp_kind t op : isOp t op = true -> tk_kind t <> tEOF.
Proof. unfold isOp. intros [H _]%andb_prop. apply bool_decide_eq_true in H. by rewrite H. Qed.
Lemma opIn_kind {A} (ops : list (bytes * A)) t op : opIn ops t = Some op -> tk_kind t <> tEOF.
Proof. unfold opIn. case_bool_decide as H; [by rewrite H|done]. Qed.

Section parser.
Context `{Folding} `{Unicode} `{Strconv}.

Lemma isKw_kind t kw : isKw t kw = true -> tk_kind t <> tEOF.
Proof. unfold isKw. intros [H2 _]%andb_prop. apply bool_decide_eq_true in H2. by rewrite H2. Qed.
Lemma isKwIn_kind t kws : isKwIn t kws = true -> tk_kind t <> tEOF.
Proof. intros [kw [_ Hk]]%existsb_exists. by eapply isKw_kind. Qed.
Lemma isName_kind t : nameToken t = true -> tk_kind t <> tEOF.
Proof. unfold nameToken. intros [H2|[H2 _]%andb_prop]%orb_prop; apply bool_decide_eq_true in H2; by rewrite H2. Qed.

Section steps.
Context {A : Type} (m : nat) (ts : list token) (Q : A -> Prop).
Hypothesis Hs : stream ts.
Lemma runs_acceptKw kw (f : bool -> parser A) : (forall ts', stream ts' -> (length ts' < length ts)%nat -> runs m (f true) ts' Q) -> runs m (f false) ts Q -> runs m (acceptKw kw ≫= f) ts Q.
Proof. apply runs_accept; [|done]. intros t. apply isKw_kind. Qed.
Lemma runs_acceptOp op (f : bool -> parser A) : (forall ts', stream ts' -> (length ts' < length ts)%nat -> runs m (f true) ts' Q) -> runs m (f false) ts Q -> runs m (acceptOp op ≫= f) ts Q.
Proof. apply runs_accept; [|done]. intros t. apply isOp_kind. Qed.
Lemma runs_unit (p : parser bool) (f : unit -> parser A) :
  (runs m (p ≫= fun b => if b : bool then f tt else fail InvalidArgument) ts Q) -> runs m ((ok ← p; if ok : bool then mret tt else fail InvalidArgument : parser unit) ≫= f) ts Q.
Proof. unfold runs. rewrite !bind_eq. destruct (p ts) as [[[] ts']| |]; done. Qed.
Lemma runs_expectKw kw (f : unit -> parser A) : (forall ts', stream ts' -> (length ts' < length ts)%nat -> runs m (f tt) ts' Q) -> runs m (expectKw kw ≫= f) ts Q.
Proof. intros Hf. apply runs_unit, runs_acceptKw; [done|apply fail_runs]. Qed.
Lemma runs_expectOp op (f : unit -> parser A) : (forall ts', stream ts' -> (length ts' < length ts)%nat -> runs m (f tt) ts' Q) -> runs m (expectOp op ≫= f) ts Q.
Proof. intros Hf. apply runs_unit, runs_acceptOp; [done|apply fail_runs]. Qed.
Lemma runs_expectGT (f : unit -> parser A) : (forall ts', stream ts' -> (length ts' <= length ts)%nat -> runs m (f tt) ts' Q) -> runs m (expectGT ≫= f) ts Q.
Proof.
  intros Hf. apply (runs_bind _ (length ts) _ _ _ _ (fun _ => True)).
  - unfold expectGT, runs. destruct (isOp (headTok ts) (str ">")).
    { apply (runs_advance (length ts) (fun _ => mret tt) ts (fun _ => True)); [done|]. intros ts' ???. by split_and!. }
    destruct ts as [|t ts0]; [done|]. apply stream_cons in Hs as [Ht [[-> Hk]|[Hk Hs']]].
    + destruct (isOp _ _) eqn:E; [by apply isOp_kind in E|]. destruct (isOp _ (str ">=")) eqn:E2; [by apply isOp_kind in E2|done].
    + destruct ts0 as [|t' ts0]; [done|]. destruct (isOp _ _); [|destruct (isOp _ _); [|done]]; (split_and!; [|cbn; lia|done]); done.
  - intros [] ts' ???. by apply Hf.
Qed.
Lemma runs_identifier (f : bytes -> parser A) : (forall name ts', stream ts' -> (length ts' < length ts)%nat -> runs m (f name) ts' Q) -> runs m (identifier ≫= f) ts Q.
Proof.
  intros Hf. unfold runs. rewrite bind_eq. assert (identifier ts = if nameToken (headTok ts) then Ret (tk_str (headTok ts), match ts with _ :: (_ :: _) as ts' => ts' | _ => ts end) else Err InvalidArgument) as ->.
  { unfold identifier. rewrite bind_eq. cbn [peek mbind outcome_bind]. by destruct (nameToken _). }
  destruct (nameToken (headTok ts)) eqn:E; [|done].
  assert (runs m (advance ≫= fun _ => f (tk_str (headTok ts))) ts Q) as Hr. { apply runs_advance; [done|]. intros ts' Hs1 _ Hl. apply Hf; [done|]. by apply Hl, isName_kind. }
  exact Hr.
Qed.
End steps.

(** ** Combinators *)

(** [p] does well on the streams of at most [n] tokens. *)
Definition good {A : Type} (n : nat) (p : parser A) (Q : A -> Prop) : Prop :=
  forall ts, stream ts -> (length ts <= n)%nat -> runs (length ts) p ts Q.
Lemma good_mono {A} n n' (p : parser A) (Q Q' : A -> Prop) : good n p Q -> (n' <= n)%nat -> (forall a, Q a -> Q' a) -> good n' p Q'.
Proof. intros Hp Hn HQ ts Hs Hl. eapply runs_mono; [apply Hp; [done|lia]|lia|done]. Qed.
Lemma runs_good {A B} n m (p : parser B) (f : B -> parser A) ts Q R : good n p R -> stream ts -> (length ts <= n)%nat ->
  (forall b ts', stream ts' -> (length ts' <= length ts)%nat -> R b -> runs m (f b) ts' Q) -> runs m (p ≫= f) ts Q.
Proof. intros Hp Hs Hn. apply runs_bind. by apply Hp. Qed.
Lemma runs_onKw {A B} m kw (p : parser B) (f : option B -> parser A) ts Q (R : B -> Prop) : stream ts ->
  (forall ts', stream ts' -> (length ts' < length ts)%nat -> runs (length ts) p ts' R) ->
  (forall o ts', stream ts' -> (length ts' <= length ts)%nat -> match o with Some b => R b | None => True end -> runs m (f o) ts' Q) ->
  runs m (onKw kw p ≫= f) ts Q.
Proof.
  intros Hs Hp. apply runs_bind. unfold onKw. apply runs_acceptKw; [done| |apply mret_runs; [done|lia|done]].
  intros ts' Hs' Hl. eapply runs_bind; [by apply Hp|]. intros b ts'' Hs'' Hl'' Hb. apply mret_runs; [done|lia|done].
Qed.
Lemma commas_good {A} n (item : parser A) (R : A -> Prop) : good n item R -> good n (commaList item) (Forall R).
Proof.
  intros Hi. enough (forall k ts, stream ts -> (length ts <= n)%nat -> (length ts <= k)%nat -> runs (length ts) (commaLoop item k) ts (Forall R)) as Hgo.
  { intros ts Hs Hl. apply runs_withFuel, Hgo; [done|done|lia]. }
  induction k as [|k IH]; intros ts Hs Hl Hk; [by destruct (stream_pos ts)|]. cbn [commaLoop]. eapply runs_good; [done..|]. intros a ts1 Hs1 Hl1 Ha.
  apply runs_acceptOp; [done| |].
  - intros ts2 Hs2 Hl2. eapply runs_bind; [apply IH; [done|lia|lia]|]. intros l ts3 Hs3 Hl3 Hf. apply mret_runs; [done|lia|by constructor].
  - apply mret_runs; [done|lia|by repeat constructor].
Qed.
Lemma leftAssoc_good n opOf operand (R : astExpr -> Prop) : (forall t op, opOf t = Some op -> tk_kind t <> tEOF) -> (forall op l r, R l -> R r -> R (ABinary op l r)) ->
  good n operand R -> good n (leftAssoc opOf operand) R.
Proof.
  intros Hop HR Ho. enough (forall k ts l, stream ts -> (length ts <= n)%nat -> (length ts <= k)%nat -> R l -> runs (length ts) (levelLoop opOf operand k l) ts R) as Hgo.
  { intros ts Hs Hl. unfold leftAssoc. eapply runs_good; [done..|]. intros l ts1 Hs1 Hl1 Hr. eapply runs_mono; [apply runs_withFuel, Hgo; [done|lia|lia|done]|lia|done]. }
  induction k as [|k IH]; intros ts l Hs Hl Hk Hr; [by destruct (stream_pos ts)|]. cbn [levelLoop]. apply runs_peek. destruct (opOf (headTok ts)) as [op|] eqn:E; [|apply mret_runs; [done|lia|done]].
  apply runs_advance; [done|]. intros ts1 Hs1 _ Hlt. specialize (Hlt (Hop _ _ E)). eapply runs_good; [done|done|lia|]. intros r ts2 Hs2 Hl2 Hr2.
  eapply runs_mono; [apply IH; [done|lia|lia|by apply HR]|lia|done].
Qed.
End parser.

(** The token that a test accepts is not the end. *)
Ltac kinds :=
  match goal with
  | H : ?k <> tEOF |- ?k <> tEOF => exact H
  | H : isOp ?t _ = true |- tk_kind ?t <> tEOF => exact (isOp_kind _ _ H)
  | H : opIn _ ?t = Some _ |- tk_kind ?t <> tEOF => exact (opIn_kind _ _ _ H)
  | H : isKw ?t _ = true |- tk_kind ?t <> tEOF => exact (isKw_kind _ _ H)
  | H : isKwIn ?t _ = true |- tk_kind ?t <> tEOF => exact (isKwIn_kind _ _ H)
  | H : nameToken ?t = true |- tk_kind ?t <> tEOF => exact (isName_kind _ H)
  | H : ?k = _ |- ?k <> tEOF => rewrite H; discriminate
  end.
(** One step of a parser: the goal is [runs m (x ← p; f x) ts Q]. *)
Ltac pstep :=
  cbv beta zeta;
  lazymatch goal with
  | |- runs _ (if ?b then _ else _) _ _ => let E := fresh "E" in destruct b eqn:E; [repeat match goal with H : _ && _ = true |- _ => let E2 := fresh "E" in apply andb_prop in H as [H E2] end|]
  | |- runs _ (mret _) _ _ => apply mret_runs; [assumption|lia|]
  | |- runs ?m (mret ?a ≫= ?f) ?ts ?Q => change (runs m (f a) ts Q)
  | |- runs _ (fail _) _ _ => apply fail_runs
  | |- runs _ (peek ≫= _) _ _ => apply runs_peek
  | |- runs _ (peekN _ ≫= _) _ _ => apply runs_peekN; [assumption|let u := fresh "u" in let Hu := fresh "Hu" in intros u Hu]
  | |- runs _ (advance ≫= _) _ _ =>
      apply runs_advance; [assumption|]; let ts := fresh "ts" in let Hs := fresh "Hs" in let Hl := fresh "Hl" in let Hlt := fresh "Hlt" in
      intros ts Hs Hl Hlt; try (specialize (Hlt ltac:(kinds)))
  | |- runs _ (acceptKw _ ≫= _) _ _ => apply runs_acceptKw; [assumption|let ts := fresh "ts" in let Hs := fresh "Hs" in let Hl := fresh "Hl" in intros ts Hs Hl|]
  | |- runs _ (acceptOp _ ≫= _) _ _ => apply runs_acceptOp; [assumption|let ts := fresh "ts" in let Hs := fresh "Hs" in let Hl := fresh "Hl" in intros ts Hs Hl|]
  | |- runs _ (expectKw _ ≫= _) _ _ => apply runs_expectKw; [assumption|let ts := fresh "ts" in let Hs := fresh "Hs" in let Hl := fresh "Hl" in intros ts Hs Hl]
  | |- runs _ (expectOp _ ≫= _) _ _ => apply runs_expectOp; [assumption|let ts := fresh "ts" in let Hs := fresh "Hs" in let Hl := fresh "Hl" in intros ts Hs Hl]
  | |- runs _ (expectGT ≫= _) _ _ => apply runs_expectGT; [assumption|let ts := fresh "ts" in let Hs := fresh "Hs" in let Hl := fresh "Hl" in intros ts Hs Hl]
  | |- runs _ (identifier ≫= _) _ _ => apply runs_identifier; [assumption|let ts := fresh "ts" in let Hs := fresh "Hs" in let Hl := fresh "Hl" in let n := fresh "name" in intros n ts Hs Hl]
  end.
(** The next parser does well. *)
Tactic Notation "pgood" uconstr(H) := cbv beta iota; eapply runs_good; [eapply H; try eassumption|assumption|lia|let a := fresh "a" in let ts := fresh "ts" in let Hs := fresh "Hs" in let Hl := fresh "Hl" in let Ha := fresh "Ha" in intros a ts Hs Hl Ha].
Ltac psteps := repeat pstep.

Section types.
Context `{Folding} `{Unicode}.

Definition fields_ok (fs : list (bytes * astType)) : Prop := forallb (fun f => type_ok f.2) fs = true.
Lemma structFields_good n pt : good n pt (fun t => type_ok t = true) -> good n (structFields pt) fields_ok.
Proof.
  intros Hp. assert (good n (commaList (structField pt)) fields_ok) as Hc.
  { eapply good_mono; [apply (commas_good n _ (fun f => type_ok f.2 = true))|lia|].
    - intros ts Hs Hl. unfold structField. psteps. eapply (runs_good n _ _ _ _ _ (fun _ => True)); [|done|done|].
      + intros ts2 Hs2 Hl2. psteps; done.
      + intros name ts2 Hs2 Hl2 _. pgood Hp. psteps. done.
    - intros fs Hf. apply forallb_forall. intros f Hin. rewrite Forall_forall in Hf. apply Hf. by apply list_elem_of_In. }
  intros ts Hs Hl. unfold structFields. psteps. eapply (runs_good n _ _ _ _ _ fields_ok); [|done|done|].
  - intros ts0 Hs0 Hl0. destruct (isOp _ _); [apply mret_runs; [done|lia|done]|by apply Hc].
  - intros fs ts1 Hs1 Hl1 Hf. psteps. done.
Qed.
Lemma typeLevels_good n : good n (typeLevels n) (fun t => type_ok t = true).
Proof.
  induction n as [|n IH]; intros ts Hs Hl; [by destruct (stream_pos ts)|]. cbn [typeLevels]. pstep. pstep; [pstep|]. apply negb_false_iff, bool_decide_eq_true in E. psteps.
  - pgood IH. psteps. done.
  - pgood IH. psteps. pgood IH. psteps. cbn. by rewrite Ha, Ha0.
  - pgood structFields_good. psteps. done.
  - apply bool_decide_eq_false in E0, E1. cbn [type_ok]. by rewrite !bool_decide_eq_false_2.
Qed.
Lemma parseType_good n : good n parseType (fun t => type_ok t = true).
Proof. intros ts Hs Hl. apply runs_withFuel, typeLevels_good; [done|lia]. Qed.
End types.

(** ** Names of calls *)

Definition noLower (s : bytes) : Prop := Forall (fun c => ~ 97 <= c <= 122) s.
Lemma encodeRune_noLower r : ~ 97 <= r <= 122 -> noLower (encodeRune r).
Proof.
  intros Hr. unfold noLower, encodeRune. pose proof (Z.mod_pos_bound r 64 eq_refl). pose proof (Z.mod_pos_bound (r / 64) 64 eq_refl). pose proof (Z.mod_pos_bound (r / 4096) 64 eq_refl).
  destruct (r <? 0) eqn:E; [repeat constructor; lia|]. apply Z.ltb_ge in E. pose proof (Z.div_pos r 64 E eq_refl). pose proof (Z.div_pos r 4096 E eq_refl). pose proof (Z.div_pos r 262144 E eq_refl).
  repeat case_match; repeat constructor; lia.
Qed.
Lemma ToUpper_noLower `{Unicode} s : noLower (ToUpper s).
Proof. unfold ToUpper, mapRunes, noLower. induction (runes 0 s) as [|r l IH]; cbn; [constructor|]. apply Forall_app. split; [|done]. apply encodeRune_noLower, ToUpper_not_lower. Qed.
Lemma joinBytes_noLower sep l : noLower sep -> Forall noLower l -> noLower (joinBytes l sep).
Proof.
  intros Hs. induction l as [|e l IH]; intros Hl; [constructor|]. inv Hl. destruct l as [|e' l]; [done|].
  change (noLower (e ++ sep ++ joinBytes (e' :: l) sep)). apply Forall_app. split; [done|]. apply Forall_app. split; [done|]. by apply IH.
Qed.
Lemma call_name_ok name n : noLower name -> call_ok [] name n = true.
Proof.
  intros Hn. unfold call_ok. rewrite bool_decide_eq_false_2 by apply not_elem_of_nil. cbn [negb andb]. rewrite bool_decide_eq_false_2; [done|].
  intros Hin. repeat (apply elem_of_cons in Hin as [->|Hin]); try by inv Hin.
  all: unfold noLower in Hn; rewrite Forall_forall in Hn; apply (Hn 115); [cbn; right; right; left|lia].
Qed.
Lemma ParseUint_pos base s u : 0 <= base -> ParseUint base s = Some u -> 0 <= u.
Proof.
  intros Hb E. unfold ParseUint in E. destruct s as [|c0 s0]; [done|]. set (s := c0 :: s0) in *.
  destruct (forallb _ s) eqn:Ef; [|done]. destruct (_ <? _); [|done]. injection E as <-.
  assert (Forall (fun c => isHex c = true) s) as Hs. { apply Forall_forall. intros c Hc%list_elem_of_In. rewrite forallb_forall in Ef. specialize (Ef c Hc). destruct (base =? 16); [exact Ef|]. unfold isHex. by rewrite (Ef : isDigit c = true). }
  enough (forall l a, Forall (fun c => isHex c = true) l -> 0 <= a -> 0 <= foldl (fun v c => v * base + hexValue c) a l) as Hgo; [apply (Hgo s 0 Hs); lia|].
  induction l as [|c l IH]; intros a Hl Ha; [done|]. inv Hl. cbn. apply IH; [done|]. assert (0 <= hexValue c); [|nia].
  unfold isHex, isDigit in *. unfold hexValue, isDigit. repeat case_match; lia.
Qed.
Lemma parseIntLiteral_int64 text : match parseIntLiteral text with Ret v => is_int64 v | Err _ => True | Panic => False end.
Proof.
  unfold parseIntLiteral. cbv zeta. destruct (if _ || _ then _ else _) as [u|] eqn:E; [|done].
  assert (0 <= u) as Hu. { destruct (_ || _); eapply ParseUint_pos in E; lia. }
  destruct (HasPrefix text (str "-")), (2 ^ 63 <? u) eqn:E1, (2 ^ 63 - 1 <? u) eqn:E2; try done; unfold is_int64, int64_min, int64_max; lia.
Qed.

(** ** Expressions *)

Notation okE := (fun e => ast_ok [] e = true).
(** The nonterminals do well on streams of at most [n] tokens. *)
Definition grammar_good `{Folding} `{Unicode} `{Strconv} (n : nat) (K : grammar) : Prop :=
  forall d, good n (k_expr K d) okE /\ good n (k_not K d) okE /\ good n (k_unary K d) okE /\ good n (k_postfix K d) okE.

Section expressions.
Context `{Folding} `{Unicode} `{Strconv} (n : nat) (K : grammar) (d : nat).
Hypothesis HK : grammar_good n K.
Lemma expr_good : good n (k_expr K d) okE.
Proof. apply HK. Qed.
Lemma exprs_good : good n (commaList (k_expr K d)) (fun l => forallb (ast_ok []) l = true).
Proof. eapply good_mono; [apply commas_good, expr_good|lia|]. intros l Hl. apply forallb_forall. intros e He. rewrite Forall_forall in Hl. apply Hl. by apply list_elem_of_In. Qed.

Lemma parseArrayLiteral_good et : opt_ok type_ok et = true -> good (S n) (parseArrayLiteral K d et) okE.
Proof.
  intros Ht ts Hs Hl. unfold parseArrayLiteral. psteps; [cbn; by rewrite Ht|]. pgood exprs_good. psteps. cbn. by rewrite Ht.
Qed.
Lemma parseStructField_good typed : good n (parseStructField K d typed) (fun f => okE f.1).
Proof. intros ts Hs Hl. unfold parseStructField. pgood expr_good. psteps; done. Qed.

(** A parser that is run at a word. *)
Definition goodW (p : parser astExpr) : Prop := forall ts, stream ts -> tk_kind (headTok ts) <> tEOF -> (length ts <= S n)%nat -> runs (length ts) p ts okE.
Lemma parseStruct_good : goodW (parseStruct K d).
Proof.
  intros ts Hs Hk Hl. unfold parseStruct. do 2 pstep.
  all: eapply (runs_bind _ (length ts0) _ _ _ _ (fun t => structType_ok t = true)); [|intros typ ts2 Hs2 Hl2 Ht].
  1: { pgood (structFields_good n); [apply parseType_good|]. psteps. exact Ha. }
  2: { psteps. done. }
  all: psteps; [cbn; by rewrite Ht|]; pgood (commas_good n); [apply parseStructField_good|]; psteps; cbn [ast_ok].
  all: rewrite Ht, !length_fmap, Nat.leb_refl, andb_true_r; apply forallb_forall; intros e (f & -> & Hf)%list_elem_of_In%list_elem_of_fmap; rewrite Forall_forall in Ha; by apply Ha.
Qed.
Lemma whenLoop_good k : forall ts, stream ts -> (length ts <= n)%nat -> (length ts <= k)%nat -> runs (length ts) (whenLoop K d k) ts (fun ws => forallb (fun w => ast_ok [] w.1 && ast_ok [] w.2) ws = true).
Proof.
  induction k as [|k IH]; intros ts Hs Hl Hk; [by destruct (stream_pos ts)|]. cbn [whenLoop]. psteps; [|done]. pgood expr_good. psteps. pgood expr_good.
  eapply runs_bind; [apply IH; [done|lia|lia]|]. intros ws ts5 Hs5 Hl5 Hw. psteps. cbn. by rewrite Ha, Ha0.
Qed.
Lemma parseCase_good : goodW (parseCase K d).
Proof.
  intros ts Hs Hk Hl. unfold parseCase. psteps.
  eapply (runs_bind _ (length ts0) _ _ _ _ (fun o => opt_ok (ast_ok []) o = true)).
  { psteps; [done|]. pgood expr_good. psteps. done. }
  intros operand ts1 Hs1 Hl1 Ho. eapply runs_bind; [apply runs_withFuel, whenLoop_good; [done|lia|lia]|]. intros ws ts2 Hs2 Hl2 Hw.
  destruct ws as [|w ws]; [apply fail_runs|]. eapply runs_onKw; [done|intros ts3 Hs3 Hl3; eapply runs_mono; [apply expr_good; [done|lia]|lia|intros a Ha; exact Ha]|].
  intros o ts3 Hs3 Hl3 He. psteps. destruct operand, o; cbn in *; by rewrite ?Ho, ?He, ?Hw.
Qed.
Lemma parseCast_good safe : goodW (parseCast K d safe).
Proof. intros ts Hs Hk Hl. unfold parseCast. psteps. pgood expr_good. psteps. pgood (parseType_good n). psteps. cbn. by rewrite Ha, Ha0. Qed.
Lemma parseExtract_good : goodW (parseExtract K d).
Proof.
  intros ts Hs Hk Hl. unfold parseExtract. psteps. pgood (proj2 (proj2 (proj2 (HK d)))). psteps. pgood expr_good. eapply (runs_onKw _ _ _ _ _ _ okE); [done| |].
  - intros ts5 Hs5 Hl5. unfold timeZone. psteps. eapply runs_mono; [apply expr_good; [done|lia]|lia|done].
  - intros o ts5 Hs5 Hl5 Ho. psteps. destruct o; cbn in *; by rewrite ?Ha, ?Ha0, ?Ho.
Qed.

(** ** Calls and names *)

Lemma acceptKw_good m kw : good m (acceptKw kw) (fun _ => True).
Proof.
  intros ts Hs Hl. apply runs_unbind. by psteps.
Qed.
Lemma skipLoop_good k : forall depth ts, stream ts -> (length ts <= k)%nat -> runs (length ts) (skipLoop k depth) ts (fun _ => True).
Proof.
  induction k as [|k IH]; intros depth ts Hs Hk; [by destruct (stream_pos ts)|]. cbn [skipLoop]. apply runs_advance; [done|]. intros ts1 Hs1 Hl1 Hlt.
  case_bool_decide as E; [apply fail_runs|]. specialize (Hlt E). psteps; try done; (eapply runs_mono; [apply IH; [done|lia]|lia|done]).
Qed.
Lemma skipBalanced_good m : good m skipBalanced (fun _ => True).
Proof. intros ts Hs Hl. unfold skipBalanced. psteps. apply runs_withFuel, skipLoop_good; [done|lia]. Qed.
Lemma skipOver_good m : good m skipOver (fun _ => True).
Proof. intros ts Hs Hl. unfold skipOver. psteps; try done. pgood (skipBalanced_good m). by psteps. Qed.

Lemma parseOrderItems_good expr : good n expr okE -> good n (parseOrderItems expr) (fun l => orders_ok [] l = true).
Proof.
  intros Hexpr.   eapply good_mono; [apply (commas_good n _ (fun o => okE o.1))|lia|].
  - intros ts Hs Hl. unfold parseOrderItem. pgood Hexpr. psteps.
    all: eapply (runs_onKw _ _ _ _ _ _ (fun _ => True)); [done|intros ts3 Hs3 Hl3; by psteps|]; intros nulls ts3 Hs3 Hl3 _; by psteps.
  - intros l Hl. apply forallb_forall. intros o Ho. rewrite Forall_forall in Hl. apply Hl. by apply list_elem_of_In.
Qed.
Lemma callArgs_good name : good n (commaList (callArg K d name)) (fun l => forallb (ast_ok []) l = true).
Proof.
  eapply good_mono; [apply (commas_good n _ okE)|lia|].
  - intros ts Hs Hl. unfold callArg. psteps. by apply expr_good.
  - intros l Hl. apply forallb_forall. intros o Ho. rewrite Forall_forall in Hl. apply Hl. by apply list_elem_of_In.
Qed.
Lemma nullsClause_good kw : good n (nullsClause kw) (fun _ => True).
Proof.
  intros ts Hs Hl. unfold nullsClause. eapply (runs_onKw _ _ _ _ _ _ (fun _ => True)); [done| |intros o ts1 Hs1 Hl1 _; by psteps].
  intros ts1 Hs1 Hl1. apply runs_unbind. by psteps.
Qed.
Lemma callBody_good name safe : noLower name -> good n (callBody K d name safe) okE.
Proof.
  intros Hn ts Hs Hl. unfold callBody. psteps; [cbn; by rewrite call_name_ok|..].
  all: pgood callArgs_good; pgood nullsClause_good.
  all: eapply (runs_bind _ (length ts) _ _ _ _ (fun _ => True)); [destruct a0; [psteps; done|eapply runs_mono; [apply nullsClause_good; [done|lia]|lia|done]]|]; intros respect ts4 Hs4 Hl4 _.
  all: pstep; pstep; [apply fail_runs|].
  all: eapply (runs_onKw _ _ _ _ _ _ (fun l => orders_ok [] l = true)); [done|intros ts5 Hs5 Hl5; psteps; eapply runs_mono; [apply parseOrderItems_good; [apply expr_good|done|lia]|lia|done]|]; intros o ts5 Hs5 Hl5 Ho.
  all: eapply (runs_onKw _ _ _ _ _ _ okE); [done|intros ts6 Hs6 Hl6; eapply runs_mono; [apply expr_good; [done|lia]|lia|done]|]; intros lim ts6 Hs6 Hl6 Hlim.
  all: psteps; cbn [ast_ok]; rewrite call_name_ok, Ha by done; cbn [andb]; unfold orders_ok in Ho; destruct o, lim; cbn in *; by rewrite ?Ho, ?Hlim.
Qed.
Lemma parseCall_good name : noLower name -> good n (parseCall K d name) okE.
Proof.
  intros Hn ts Hs Hl. unfold parseCall. cbv zeta. set (name' := TrimPrefix name (str "SAFE.")). assert (noLower name') as Hn'. { subst name'. unfold TrimPrefix. destruct (HasPrefix _ _); [|done]. by apply Forall_drop. }
  destruct (unsupportedFunction name').
  - pgood (skipBalanced_good n). pgood (skipOver_good n). by psteps.
  - psteps; [pgood (skipOver_good n); psteps; [done|]; cbn; by rewrite call_name_ok|].
    eapply (runs_bind _ (length ts0) _ _ _ _ okE); [pgood callBody_good; by psteps|]. intros e ts2 Hs2 Hl2 He. pgood (skipOver_good n). by psteps.
Qed.
Lemma dottedLoop_good k : forall ts, stream ts -> (length ts <= k)%nat -> runs (length ts) (dottedLoop k) ts (fun _ => True).
Proof.
  induction k as [|k IH]; intros ts Hs Hk; [by destruct (stream_pos ts)|]. cbn [dottedLoop]. psteps; try done. eapply runs_bind; [apply IH; [done|lia]|]. intros us ts2 Hs2 Hl2 _. by psteps.
Qed.
Lemma fields_of_ok parts e : okE e -> okE (foldl (fun x p => AField x (tk_str p)) e parts).
Proof. revert e. induction parts as [|p parts IH]; intros e He; [done|]. by apply IH. Qed.
Lemma parseIdentOrCall_good : goodW (parseIdentOrCall K d).
Proof.
  intros ts Hs Hk Hl. unfold parseIdentOrCall. psteps. eapply runs_bind; [apply runs_withFuel, dottedLoop_good; [done|lia]|]. intros parts ts1 Hs1 Hl1 _. psteps.
  - eapply runs_mono; [apply parseCall_good; [|done|lia]|lia|done]. apply joinBytes_noLower; [change (str ".") with [46]; apply Forall_singleton; lia|]. apply Forall_fmap. apply Forall_true. intros p. apply ToUpper_noLower.
  - by apply fields_of_ok.
Qed.

(** ** Operands *)

Lemma parseParenthesized_good : good n (parseParenthesized K d) okE.
Proof. intros ts Hs Hl. unfold parseParenthesized. psteps. pgood expr_good. psteps; [|done]. pgood exprs_good. psteps. cbn. by rewrite Ha, Ha0, length_fmap, Nat.leb_refl. Qed.
Lemma parseArray_good : good n (parseArray K d) okE.
Proof.
  intros ts Hs Hl. unfold parseArray. psteps.
  - pgood (parseType_good n). psteps. eapply runs_mono; [apply parseArrayLiteral_good; [done|done|lia]|lia|done].
  - eapply runs_mono; [apply parseArrayLiteral_good; [done|done|lia]|lia|done].
Qed.
Lemma parseInterval_good : goodW (parseInterval K d).
Proof. intros ts Hs Hk Hl. unfold parseInterval. psteps. pgood (proj1 (proj2 (proj2 (HK d)))). psteps. done. Qed.
Lemma intLit_good text m : good m (intLit text) okE.
Proof.
  intros ts Hs Hl. unfold intLit, runs. rewrite bind_eq. unfold liftP. pose proof (parseIntLiteral_int64 text) as Hv. destruct (parseIntLiteral text) as [v| |]; [|done|done]. cbn.
  split_and!; [done|done|]. by apply is_int64b_spec.
Qed.
Lemma parseWord_good ts : stream ts -> tk_kind (headTok ts) <> tEOF -> (length ts <= S n)%nat -> runs (length ts) (parseWord K d (headTok ts)) ts okE.
Proof.
  intros Hs Hk Hl. unfold parseWord. psteps; try done.
  - by apply parseCase_good.
  - by apply parseCast_good.
  - by apply parseExtract_good.
  - by apply parseInterval_good.
  - eapply runs_mono; [apply parseArray_good; [done|lia]|lia|done].
  - by apply parseStruct_good.
  - by apply parseIdentOrCall_good.
Qed.
Lemma parsePrimary_good : good (S n) (parsePrimary K d) okE.
Proof.
  intros ts Hs Hl. unfold parsePrimary. apply runs_peek. pose proof (head_ok ts Hs) as Ht. apply andb_prop in Ht as [Ht1 Ht2]. destruct (tk_kind (headTok ts)) eqn:Ek; psteps; try done.
  - apply parseWord_good; [done|by rewrite Ek|done].
  - apply parseIdentOrCall_good; [done|by rewrite Ek|done].
  - eapply runs_mono; [by apply (intLit_good _ (S n)); [|lia]|lia|done].
  - destruct (ParseFloat _ _) eqn:Ef; psteps. cbn. by eapply ParseFloat_valid.
  - eapply runs_mono; [apply parseParenthesized_good; [done|lia]|lia|done].
  - by apply parseArrayLiteral_good.
Qed.
Lemma parseIndex_good : good n (parseIndex K d) (fun i => okE i.2).
Proof. intros ts Hs Hl. unfold parseIndex. psteps. destruct (if _ : bool then _ else _); psteps; pgood expr_good; by psteps. Qed.
Lemma postfixLoop_good k : forall ts x, stream ts -> (length ts <= S n)%nat -> (length ts <= k)%nat -> okE x -> runs (length ts) (postfixLoop K d k x) ts okE.
Proof.
  induction k as [|k IH]; intros ts x Hs Hl Hk Hx; [by destruct (stream_pos ts)|]. cbn [postfixLoop]. psteps; try done.
  - pgood parseIndex_good. psteps. eapply runs_mono; [apply IH; [done|lia|lia|]|lia|done]. cbn. by rewrite Hx.
  - eapply runs_mono; [apply IH; [done|lia|lia|done]|lia|done].
Qed.
Lemma parsePostfix_good : good (S n) (parsePostfix K d) okE.
Proof. intros ts Hs Hl. unfold parsePostfix. pgood parsePrimary_good. eapply runs_mono; [apply runs_withFuel, postfixLoop_good; [done|lia|lia|done]|lia|done]. Qed.
Lemma parseUnary_good : good (S n) (parseUnary K d) okE.
Proof.
  intros ts Hs Hl. unfold parseUnary. psteps. destruct (opIn _ _) eqn:Eo; [|by apply parsePostfix_good]. psteps.
  - eapply runs_mono; [apply (intLit_good _ (S n)); [done|lia]|lia|done].
  - pgood (proj1 (proj2 (proj2 (HK d)))). by psteps.
Qed.

(** ** Operators *)

Lemma binary_ok op l r : okE l -> okE r -> okE (ABinary op l r).
Proof. cbn. by intros -> ->. Qed.
Lemma level_good ops p : good (S n) p okE -> good (S n) (parseBinaryLevel ops p) okE.
Proof. intros Hp. apply leftAssoc_good; [intros t op E; by eapply opIn_kind|apply binary_ok|done]. Qed.
Lemma parseBitOr_good : good (S n) (parseBitOr K d) okE.
Proof. do 6 apply level_good. apply parseUnary_good. Qed.
Lemma call2_ok name : call_ok [] name 2 = true.
Proof. unfold call_ok. rewrite bool_decide_eq_false_2 by apply not_elem_of_nil. apply orb_true_r. Qed.
Lemma parseIs_good l not : okE l -> good n (parseIs K d l not) okE.
Proof. intros Hx ts Hs Hl. unfold parseIs. psteps; try done. all: pgood parseBitOr_good; psteps; cbn [ast_ok length]; rewrite call2_ok; cbn; by rewrite Hx, Ha. Qed.
Lemma parseIn_good l not : okE l -> good n (parseIn K d l not) okE.
Proof.
  intros Hx ts Hs Hl. unfold parseIn. psteps.
  - pgood expr_good. psteps. cbn. by rewrite Hx.
  - pgood exprs_good. psteps. cbn. by rewrite Hx, Ha.
Qed.
Lemma parseLike_good l not : okE l -> good n (parseLike K d l not) okE.
Proof. intros Hx ts Hs Hl. unfold parseLike. psteps. pgood parseBitOr_good. psteps. cbn. by rewrite Hx. Qed.
Lemma parseBetween_good l not : okE l -> good n (parseBetween K d l not) okE.
Proof. intros Hx ts Hs Hl. unfold parseBetween. pgood parseBitOr_good. psteps. pgood parseBitOr_good. psteps. cbn. by rewrite Hx, Ha. Qed.
Lemma parseComparison_good : good (S n) (parseComparison K d) okE.
Proof.
  intros ts Hs Hl. unfold parseComparison. pgood parseBitOr_good. apply runs_peek. destruct (opIn comparisonOps (headTok ts0)) as [op|] eqn:Eo.
  - psteps. pgood parseBitOr_good. psteps. destruct (opIn _ (headTok ts2)); psteps; by apply binary_ok.
  - psteps.
    1,2: eapply runs_mono; [apply parseIs_good; [done|done|lia]|lia|done].
    set (not := _ && _). eapply (runs_bind _ (length ts0) _ _ _ _ (fun _ => True)); [destruct not; apply runs_unbind; psteps; done|]. intros t ts1 Hs1 Hl1 _.
    psteps; [eapply runs_mono; [apply parseIn_good; [done|done|lia]|lia|done]|eapply runs_mono; [apply parseLike_good; [done|done|lia]|lia|done]|eapply runs_mono; [apply parseBetween_good; [done|done|lia]|lia|done]|done].
Qed.
Lemma parseNot_good : good (S n) (parseNot K d) okE.
Proof.
  intros ts Hs Hl. unfold parseNot. psteps; [|by apply parseComparison_good]. pgood (proj1 (proj2 (HK d))). by psteps.
Qed.
Lemma kwOp_kind kw op t o : kwOp kw op t = Some o -> tk_kind t <> tEOF.
Proof. unfold kwOp. destruct (isKw t kw) eqn:E; [|done]. intros _. by eapply isKw_kind. Qed.
Lemma parseOr_good : good (S n) (parseOr K d) okE.
Proof. do 2 (apply leftAssoc_good; [apply kwOp_kind|apply binary_ok|]). apply parseNot_good. Qed.
End expressions.

Section queries.
Context `{Folding} `{Unicode} `{Strconv}.
(** As many levels as tokens are enough. *)
Lemma levels_good n : grammar_good n (levels n).
Proof.
  induction n as [|n IH]; intros d.
  - split_and!; intros ts Hs Hl; by destruct (stream_pos ts).
  - cbn [levels stepGrammar k_expr k_not k_unary k_postfix]. split_and!.
    + intros ts Hs Hl. psteps. by apply (parseOr_good n).
    + by apply parseNot_good.
    + by apply parseUnary_good.
    + by apply parsePostfix_good.
Qed.
Lemma parseExpr_good n d : good n (parseExpr d) okE.
Proof. intros ts Hs Hl. apply runs_withFuel. by apply (levels_good (length ts) d). Qed.

Context (d : nat).
Lemma hintLoop_good k : forall name ts, stream ts -> (length ts <= k)%nat -> runs (length ts) (hintLoop k name) ts (fun _ => True).
Proof.
  induction k as [|k IH]; intros name ts Hs Hk; [by destruct (stream_pos ts)|]. cbn [hintLoop]. psteps; [|done]. eapply runs_mono; [apply IH; [done|lia]|lia|done].
Qed.
Lemma parseHints_good n : good n (parseHints d) (fun l => forallb (named_ok []) l = true).
Proof.
  intros ts Hs Hl. unfold parseHints. psteps. pgood (commas_good (length ts0) (parseHint d) (fun a => named_ok [] a = true)).
  - intros ts1 Hs1 Hl1. unfold parseHint. psteps. eapply runs_bind; [apply runs_withFuel, hintLoop_good; [done|lia]|]. intros name ts3 Hs3 Hl3 _. psteps.
    eapply runs_bind; [apply runs_withFuel; by apply (levels_good (length ts4) d)|]. intros x ts5 Hs5 Hl5 Hx. by psteps.
  - psteps. apply forallb_forall. intros o Ho. rewrite Forall_forall in Ha. apply Ha. by apply list_elem_of_In.
Qed.
Lemma forallb_Forall_impl {A} (f : A -> bool) (l : list A) : Forall (fun a => f a = true) l -> forallb f l = true.
Proof. intros Hl. apply forallb_forall. intros o Ho. rewrite Forall_forall in Hl. apply Hl. by apply list_elem_of_In. Qed.
Lemma commas_all {A} n (p : parser A) (f : A -> bool) : good n p (fun a => f a = true) -> good n (commaList p) (fun l => forallb f l = true).
Proof. intros Hp. eapply good_mono; [by apply commas_good|lia|]. intros l. apply forallb_Forall_impl. Qed.
Lemma inParens_good {A} n (p : parser A) R : good n p R -> good n (inParens p) R.
Proof. intros Hp ts Hs Hl. unfold inParens. psteps. pgood Hp. by psteps. Qed.
Lemma identifier_good n : good n identifier (fun _ => True).
Proof. intros ts Hs Hl. apply runs_unbind. by psteps. Qed.
Lemma runs_onKw_good {A B} n m kw (p : parser B) (f : option B -> parser A) ts Q (R : B -> Prop) : good n p R -> stream ts -> (length ts <= S n)%nat ->
  (forall o ts', stream ts' -> (length ts' <= length ts)%nat -> match o with Some b => R b | None => True end -> runs m (f o) ts' Q) -> runs m (onKw kw p ≫= f) ts Q.
Proof. intros Hp Hs Hl Hf. eapply runs_onKw; [done| |exact Hf]. intros ts' Hs' Hl'. eapply runs_mono; [apply Hp; [done|lia]|lia|done]. Qed.
Lemma parseStarModifiers_good n starExpr : opt_ok (ast_ok []) starExpr = true -> good n (parseStarModifiers d starExpr) (fun i => item_ok [] i = true).
Proof.
  intros Hx ts Hs Hl. unfold parseStarModifiers.
  eapply (runs_onKw_good n); [apply inParens_good, commas_good, identifier_good|done|lia|]. intros except ts1 Hs1 Hl1 _.
  eapply (runs_onKw_good n); [apply inParens_good, (commas_all n _ (replace_ok []))|done|lia|].
  - intros ts2 Hs2 Hl2. unfold parseReplace. pgood (parseExpr_good n). by psteps.
  - intros replace ts2 Hs2 Hl2 Hr. psteps. unfold item_ok. cbn. rewrite Hx. destruct replace; [by rewrite Hr|done].
Qed.
Lemma parseAlias_good n : good n parseAlias (fun _ => True).
Proof. intros ts Hs Hl. unfold parseAlias. by psteps. Qed.
Lemma parseSelectItem_good n : good n (parseSelectItem d) (fun i => item_ok [] i = true).
Proof.
  intros ts Hs Hl. unfold parseSelectItem. psteps.
  - eapply runs_mono; [apply (parseStarModifiers_good n); [done|done|lia]|lia|done].
  - pgood (parseExpr_good n). psteps.
    + eapply runs_mono; [apply (parseStarModifiers_good n); [done|done|lia]|lia|done].
    + pgood (parseAlias_good n). psteps. unfold item_ok. cbn. by rewrite Ha.
Qed.
Lemma parseTable_good n : good n (parseTable d) (fun r => forallb (named_ok []) r.2 = true).
Proof.
  intros ts Hs Hl. unfold parseTable. psteps; try done. pgood (commas_all n _ (named_ok [])); [|by psteps].
  intros ts3 Hs3 Hl3. unfold parseTableArg. psteps. pgood (parseExpr_good n). by psteps.
Qed.

Section from.
Context (n : nat) (subquery : parser astQuery).
Hypothesis Hsub : good n subquery (fun q => query_ok [] q = true).
Lemma parseUnpack_good : good n (parseUnpack subquery) (fun q => query_ok [] q = true).
Proof. intros ts Hs Hl. unfold parseUnpack. psteps. pgood Hsub. by psteps. Qed.
Definition from_parts (r : bytes * bool * list namedArg * option astQuery) : Prop := forallb (named_ok []) r.1.2 = true /\ opt_ok (query_ok []) r.2 = true.
Lemma parseFrom_good : good n (parseFrom d subquery) (fun f => from_ok [] f = true).
Proof.
  intros ts Hs Hl. unfold parseFrom. pstep. pstep. pstep; [by psteps|]. pstep; [by psteps|].
  eapply (runs_bind _ (length ts) _ _ _ _ from_parts).
  { psteps; [pgood parseUnpack_good; by psteps|]. pgood (parseTable_good n). by psteps. }
  intros [[[table hasArgs] args] unpack] ts1 Hs1 Hl1 [Hargs Hunpack]. apply runs_peek.
  eapply (runs_bind _ (length ts1) _ _ _ _ (fun l => forallb (named_ok []) l = true)); [psteps; [by apply (parseHints_good (length ts1))|done]|]. intros hints ts2 Hs2 Hl2 Hh.
  pgood (parseAlias_good n). psteps. cbn in *. rewrite Hargs, Hh. destruct unpack; cbn in *; by rewrite ?Hunpack.
Qed.
Lemma itemsLoop_good k : forall items ts, stream ts -> (length ts <= n)%nat -> (length ts <= k)%nat -> forallb (item_ok []) items = true ->
  runs (length ts) (itemsLoop d k items) ts (fun l => forallb (item_ok []) l = true).
Proof.
  induction k as [|k IH]; intros items ts Hs Hl Hk Hi; [by destruct (stream_pos ts)|]. cbn [itemsLoop]. do 2 pstep; [destruct items; by psteps|].
  pgood (parseSelectItem_good n). assert (forallb (item_ok []) (items ++ [a]) = true) as Ha' by (rewrite forallb_app, Hi; cbn; by rewrite Ha).
  psteps; [|done]. eapply runs_mono; [apply IH; [done|lia|lia|done]|lia|done].
Qed.
Lemma parseGroupBy_good : good n (parseGroupBy d) (fun l => forallb (ast_ok []) l = true).
Proof. intros ts Hs Hl. unfold parseGroupBy. psteps. eapply runs_mono; [apply (commas_all n); [apply parseExpr_good|done|lia]|lia|done]. Qed.
Lemma parseSelect_good : good (S n) (parseSelect d subquery) (fun s => select_ok [] s = true).
Proof.
  intros ts Hs Hl. unfold parseSelect. psteps.
  all: eapply runs_bind; [apply runs_withFuel, itemsLoop_good; [done|lia|lia|done]|]; intros items ts4 Hs4 Hl4 Hi.
  all: eapply (runs_onKw_good n); [apply parseFrom_good|done|lia|]; intros from ts5 Hs5 Hl5 Hf.
  all: eapply (runs_onKw_good n); [apply parseExpr_good|done|lia|]; intros where_ ts6 Hs6 Hl6 Hw.
  all: eapply (runs_onKw_good n); [apply parseGroupBy_good|done|lia|]; intros group ts7 Hs7 Hl7 Hg.
  all: eapply (runs_onKw_good n); [apply parseExpr_good|done|lia|]; intros having ts8 Hs8 Hl8 Hh.
  all: psteps; cbn [select_ok]; rewrite Hi; destruct from, where_, group, having; cbn in *; by rewrite ?Hf, ?Hw, ?Hg, ?Hh.
Qed.
End from.

Lemma parseTail_good n sel inner : match sel, inner with Some s, None => select_ok [] s | None, Some q => query_ok [] q | _, _ => false end = true ->
  good n (parseTail d sel inner) (fun q => query_ok [] q = true).
Proof.
  intros Hb ts Hs Hl. unfold parseTail. psteps.
  eapply (runs_onKw_good n _ _ _ _ _ _ (fun l => orders_ok [] l = true)); [|done|lia|].
  { intros ts1 Hs1 Hl1. psteps. eapply runs_mono; [apply (parseOrderItems_good n); [apply parseExpr_good|done|lia]|lia|done]. }
  intros orders ts1 Hs1 Hl1 Ho.
  eapply (runs_onKw_good n _ _ _ _ _ _ (fun r => opt_ok (ast_ok []) (Some r.1) = true /\ opt_ok (ast_ok []) r.2 = true)); [|done|lia|].
  { intros ts2 Hs2 Hl2. pgood (parseExpr_good n). eapply (runs_onKw_good n); [apply parseExpr_good|done|lia|]. intros o ts4 Hs4 Hl4 Hx. psteps. split; [done|]. by destruct o. }
  assert (forall limit offset, opt_ok (ast_ok []) limit = true -> opt_ok (ast_ok []) offset = true -> query_ok [] (mkQuery sel inner (match orders with Some l => l | None => [] end) limit offset) = true) as Hq.
  { intros limit offset H1' H2'. cbn [query_ok]. rewrite Hb, H1', H2'. by destruct orders; [rewrite Ho|]. }
  intros lim ts2 Hs2 Hl2 Hlim. destruct lim as [[x o]|]; psteps; apply Hq; try done; by destruct Hlim.
Qed.
End queries.

Section statements.
Context `{Folding} `{Unicode} `{Strconv}.
Lemma queryLevels_good n : forall d, good n (queryLevels n d) (fun q => query_ok [] q = true).
Proof.
  induction n as [|n IH]; intros d ts Hs Hl; [by destruct (stream_pos ts)|]. cbn [queryLevels]. psteps.
  - pgood (IH (S d)). psteps. eapply runs_mono; [apply (parseTail_good _ n); [done|done|lia]|lia|done].
  - pgood (parseSelect_good (S d) n _ (IH (S d))). eapply runs_mono; [apply (parseTail_good _ (S n)); [done|done|lia]|lia|done].
Qed.
Lemma statement_good n : good n statement (fun r => query_ok [] r.1 = true /\ forallb (named_ok []) r.2 = true).
Proof.
  intros ts Hs Hl. unfold statement. psteps.
  eapply (runs_bind _ (length ts) _ _ _ _ (fun l => forallb (named_ok []) l = true)); [psteps; [by apply (parseHints_good 0 (length ts))|done]|]. intros hints ts1 Hs1 Hl1 Hh.
  psteps. all: eapply runs_bind; [apply runs_withFuel, (queryLevels_good (length ts1) 0); [done|lia]|]; intros q ts2 Hs2 Hl2 Hq; by psteps.
Qed.
End statements.

(** ** The tokens of a source of bytes *)

(** What is read and what is left are bytes. *)
Definition reads_bytes {A : Type} (P : A -> Prop) (r : outcome (A * bytes)) : Prop := match r with Ret (a, rest) => P a /\ all_bytes rest | _ => True end.
Lemma reads_bind {A C} (P : A -> Prop) (Q : C -> Prop) (m : outcome (A * bytes)) (f : A * bytes -> outcome (C * bytes)) :
  reads_bytes P m -> (forall a rest, P a -> all_bytes rest -> reads_bytes Q (f (a, rest))) -> reads_bytes Q (m ≫= f).
Proof. destruct m as [[a rest]| |]; [|done|done]. intros [Ha Hr] Hf. by apply Hf. Qed.
Lemma isHex_value c : isHex c = true -> 0 <= hexValue c < 16.
Proof. unfold isHex, hexValue, isDigit. intros E. repeat case_match; lia. Qed.
Lemma unescape_bytes rest : all_bytes rest -> reads_bytes all_bytes (unescape rest).
Proof.
  intros Hr. destruct rest as [|b [|c t]]; [done|done|]. inv Hr. match goal with H : Forall _ (c :: t) |- _ => inv H end. unfold unescape.
  assert (forall x, 0 <= x < 256 -> reads_bytes all_bytes (Ret ([x], t))) as Hone by (intros; split; [by apply Forall_singleton|done]).
  do 7 (destruct (_ =? _); [apply Hone; lia|]). destruct (_ || _); [by apply Hone|]. destruct (_ || _).
  { destruct t as [|h1 [|h2 t']]; [done|done|]. destruct (isHex h1 && isHex h2) eqn:E; [|done]. apply andb_prop in E as [?%isHex_value ?%isHex_value].
    split; [|match goal with H : Forall _ (h1 :: h2 :: t') |- _ => inv H end; by match goal with H : Forall _ (h2 :: t') |- _ => inv H end]. apply Forall_singleton. unfold is_byte, hexNumber. cbn. lia. }
  destruct (_ || _).
  { cbv zeta. destruct (_ <? _)%nat; [done|]. destruct (_ || _); [done|]. split; [apply encodeRune_bytes|by apply Forall_drop]. }
  destruct (_ && _) eqn:E; [|done]. destruct t as [|o1 [|o2 t']]; [done|done|]. cbv zeta. match goal with |- context [if ?b then _ else _] => destruct b eqn:E2 end; [|done].
  split; [apply Forall_singleton; unfold is_byte; lia|]. match goal with H : Forall _ (o1 :: o2 :: t') |- _ => inv H end. by match goal with H : Forall _ (o2 :: t') |- _ => inv H end.
Qed.
Lemma backquotedLoop_bytes fuel : forall rest acc, all_bytes rest -> all_bytes acc -> reads_bytes all_bytes (backquotedLoop fuel rest acc).
Proof.
  induction fuel as [|fuel IH]; intros rest acc Hr Ha; [done|]. destruct rest as [|c rest]; [done|]. cbn [backquotedLoop]. pose proof Hr as Hr'. inv Hr'.
  destruct (_ =? _); [done|]. destruct (_ =? _).
  - eapply reads_bind; [by apply unescape_bytes|]. intros r t Hr1 Ht. apply IH; [done|]. by apply Forall_app.
  - apply IH; [done|]. apply Forall_app. split; [done|by apply Forall_singleton].
Qed.
Lemma quotedLoop_bytes fuel raw triple q : forall rest acc, all_bytes rest -> all_bytes acc -> reads_bytes all_bytes (quotedLoop fuel raw triple q rest acc).
Proof.
  induction fuel as [|fuel IH]; intros rest acc Hr Ha; [by destruct rest|]. destruct rest as [|c rest]; [done|]. cbn [quotedLoop]. pose proof Hr as Hr'. inv Hr'.
  destruct (_ && _); [split; [done|by apply Forall_drop]|]. destruct (_ && _); [done|]. destruct (_ && _); [done|]. destruct (_ =? _).
  - destruct raw.
    + destruct rest as [|b rest]; [done|]. match goal with H : Forall _ (b :: rest) |- _ => inv H end. apply IH; [done|]. apply Forall_app. split; [done|apply Forall_cons; split; [done|by apply Forall_singleton]].
    + eapply reads_bind; [by apply unescape_bytes|]. intros r t Hr1 Ht. apply IH; [done|]. by apply Forall_app.
  - apply IH; [done|]. apply Forall_app. split; [done|by apply Forall_singleton].
Qed.
Lemma lexQuoted_all raw isBytes rest : all_bytes rest -> reads_bytes all_bytes (lexQuoted raw isBytes rest).
Proof.
  intros Hr. destruct rest as [|q rest]; [done|]. unfold lexQuoted. cbv zeta. eapply reads_bind; [apply quotedLoop_bytes; [|constructor]|].
  - destruct (HasPrefix _ _); [by apply Forall_drop|by inv Hr].
  - intros s t Hs Ht. by destruct (_ && _).
Qed.
Lemma span_bytes p s : all_bytes s -> all_bytes (span p s).1 /\ all_bytes (span p s).2.
Proof.
  induction s as [|c s IH]; intros Hs; [done|]. cbn. inv Hs. destruct (p c); [|split; [constructor|by constructor]]. destruct (span p s). destruct IH; [done|]. split; [by constructor|done].
Qed.
Lemma slice_bytes a b : all_bytes a -> all_bytes (Lexer.slice a b).
Proof. intros Ha. by apply Forall_take. Qed.
Lemma token_bytes k text s b pos : all_bytes s -> all_bytes b -> token_ok (mkTok k text s b pos) = true.
Proof. intros Hs Hb. unfold token_ok. cbn. apply andb_true_intro. split; by apply bytesb_all. Qed.
Lemma lexBackquoted_bytes pos rest : all_bytes rest -> reads_bytes (fun t => token_ok t = true) (lexBackquoted pos rest).
Proof.
  intros Hr. unfold lexBackquoted. eapply reads_bind; [apply backquotedLoop_bytes; [by apply Forall_drop|constructor]|]. intros s t Hs Ht. destruct s; [done|]. split; [|done]. apply token_bytes; [done|constructor].
Qed.

Lemma lexExponent_bytes rest r : all_bytes rest -> lexExponent rest = Some r -> all_bytes r.
Proof.
  intros Hr. unfold lexExponent. destruct rest as [|e t]; [done|]. inv Hr. destruct (_ || _); [|done]. cbv zeta.
  assert (all_bytes (match t with c :: t' => if (c =? 43) || (c =? 45) then t' else t | [] => t end)) as Ht. { destruct t as [|c t']; [done|]. destruct (_ || _); [|done]. match goal with H : Forall _ (c :: t') |- _ => by inv H end. }
  revert Ht. generalize (match t with c :: t' => if (c =? 43) || (c =? 45) then t' else t | [] => t end). intros l Hl. destruct l as [|c' l]; [done|]. pose proof (span_bytes isDigit _ Hl) as [_ Hx]. destruct (isDigit c'); [|done]. intros E. by simplify_eq.
Qed.
Notation token_bytes_ok := (fun t => token_ok t = true).
Lemma plain_token k text pos (t : bytes) : all_bytes t -> reads_bytes token_bytes_ok (Ret (mkTok k text [] [] pos, t)).
Proof. intros Ht. split; [|done]. by apply token_bytes; constructor. Qed.
Lemma lexNumber_bytes pos rest : all_bytes rest -> reads_bytes token_bytes_ok (lexNumber pos rest).
Proof.
  intros Hr. unfold lexNumber. destruct (match rest with 48 :: x :: _ => _ | _ => _ end).
  - pose proof (span_bytes isHex (drop 2 rest) ltac:(by apply Forall_drop)) as [_ Ht]. destruct (span isHex (drop 2 rest)) as [[|dg ds] rest']; [done|]. destruct (identFollows rest'); [done|]. by apply plain_token.
  - cbv zeta. pose proof (span_bytes isDigit rest Hr) as [_ Hd]. revert Hd. generalize ((span isDigit rest).2). intros rest1 Hd.
    assert (exists (b : bool) rest2, match rest1 with 46 :: t => (true, (span isDigit t).2) | _ => (false, rest1) end = (b, rest2) /\ all_bytes rest2) as (b & rest2 & -> & H2').
    { assert (forall c t, rest1 = c :: t -> all_bytes (span isDigit t).2) as Hs by (intros c t ->; inv Hd; by apply span_bytes). repeat case_match; subst; eexists _, _; (split; [reflexivity|]); first [done|by eapply Hs]. }
    destruct (lexExponent rest2) as [r|] eqn:E; [apply lexExponent_bytes in E; [|done]|]; (destruct (identFollows _); [done|]); by apply plain_token.
Qed.
Lemma lexParam_bytes pos rest : all_bytes rest -> reads_bytes token_bytes_ok (lexParam pos rest).
Proof.
  intros Hr. unfold lexParam. assert (all_bytes (drop 1 rest)) as Hd by by apply Forall_drop. pose proof (lexBackquoted_bytes (S pos) _ Hd) as Hb. pose proof (span_bytes isIdentChar _ Hd) as [Hi1 Hi2].
  assert (forall c t, drop 1 rest = c :: t -> all_bytes t) as Ht by (intros c t E; rewrite E in Hd; by inv Hd).
  assert (reads_bytes token_bytes_ok ('(t, rest') ← lexBackquoted (S pos) (drop 1 rest); Ret (mkTok tParam (64 :: tk_str t) (tk_str t) [] pos, rest'))) as Hq.
  { eapply reads_bind; [exact Hb|]. intros t rest' Hk Hr'. split; [|done]. apply andb_prop in Hk as [Hk _]. apply token_bytes; [by apply bytesb_all|constructor]. }
  assert (forall c, reads_bytes token_bytes_ok (if negb (isIdentStart c) then Err InvalidArgument else let '(id, rest') := span isIdentChar (drop 1 rest) in Ret (mkTok tParam (Lexer.slice rest rest') id [] pos, rest'))) as Hid.
  { intros c. destruct (negb _); [done|]. destruct (span _ _) as [id rest']. split; [|done]. by apply token_bytes; [|constructor]. }
  repeat case_match; subst; try done; try (apply plain_token; by eapply Ht); by match goal with H : negb (isIdentStart ?c) = false |- _ => specialize (Hid c); rewrite H in Hid end.
Qed.
Lemma skip_bytes fuel : forall rest, all_bytes rest -> match skipSpaceAndComments fuel rest with Ret r => all_bytes r | _ => True end.
Proof.
  assert (forall s r, all_bytes s -> afterComment s = Some r -> all_bytes r) as Ha.
  { induction s as [|c s IH]; intros r Hs E; [done|]. inv Hs. cbn in E. repeat case_match; simplify_eq; try (by eapply IH). match goal with H : Forall _ (_ :: r) |- _ => by inv H end. }
  induction fuel as [|fuel IH]; intros rest Hr; [by destruct rest|]. destruct rest as [|c rest]; [done|]. cbn [skipSpaceAndComments]. pose proof Hr as Hr'. inv Hr'.
  destruct (isSpace c); [by apply IH|]. destruct (_ || _); [apply IH; by apply span_bytes|]. destruct (HasPrefix _ _); [|done].
  destruct (afterComment _) eqn:E; [|done]. apply IH. eapply Ha; [|exact E]. by apply Forall_drop.
Qed.
Lemma literalPrefix_bytes rest r b j : all_bytes rest -> literalPrefix rest = Some (r, b, j) -> all_bytes j.
Proof.
  intros Hr. unfold literalPrefix. destruct rest as [|c t]; [done|]. inv Hr. destruct (_ || _); [|done].
  assert (forall c' t', t = c' :: t' -> all_bytes t') as Ht by (intros c' t' ->; match goal with H : Forall _ (c' :: t') |- _ => by inv H end).
  intros E. repeat case_match; simplify_eq; try done; by eapply Ht.
Qed.
Lemma next_bytes len rest0 : all_bytes rest0 -> reads_bytes token_bytes_ok (next len rest0).
Proof.
  intros Hr0. unfold next. pose proof (skip_bytes (S (length rest0)) rest0 Hr0) as Hr. destruct (skipSpaceAndComments _ _) as [rest| |]; [|done|done]. cbn [mbind outcome_bind]. cbv zeta.
  destruct rest as [|c t]; [by apply plain_token|]. pose proof Hr as Hr'. inv Hr'. destruct (literalPrefix _) as [[[raw isBytes] j]|] eqn:El.
  { apply literalPrefix_bytes in El; [|done]. eapply reads_bind; [by apply lexQuoted_all|]. intros s rest' Hs Ht. split; [|done]. destruct isBytes; apply token_bytes; try done; constructor. }
  destruct (_ || _). { eapply reads_bind; [by apply lexQuoted_all|]. intros s rest' Hs Ht. split; [|done]. by apply token_bytes; [|constructor]. }
  destruct (_ =? _); [by apply lexBackquoted_bytes|]. destruct (_ || _).
  { pose proof (span_bytes isIdentChar t ltac:(done)) as [_ Ht]. split; [|done]. apply token_bytes; [by apply slice_bytes|constructor]. }
  destruct (_ || _); [by apply lexNumber_bytes|]. destruct (_ =? _); [by apply lexParam_bytes|]. destruct (find _ _); [apply plain_token; by apply Forall_drop|]. destruct (existsb _ _); [by apply plain_token|done].
Qed.
Lemma lexLoop_stream len : forall fuel rest, all_bytes rest -> (length rest <= len)%nat -> match lexLoop fuel len rest with Ret ts => stream ts | _ => True end.
Proof.
  induction fuel as [|fuel IH]; intros rest Hr Hl; [done|]. cbn [lexLoop]. pose proof (next_bytes len rest Hr) as Hb. pose proof (next_ok len rest Hl) as Hn.
  destruct (next len rest) as [[tok rest']| |]; [|done|done]. cbn [mbind outcome_bind]. destruct Hb as [Ht Hr']. destruct Hn as [_ [Hk|(Hk & _ & Hlt)]].
  - by rewrite Hk.
  - specialize (IH rest' Hr' ltac:(lia)). destruct (lexLoop fuel len rest') as [ts| |]; [|by destruct (tk_kind tok)..].
    assert (stream (tok :: ts)) as Hs; [|by destruct (tk_kind tok)]. destruct ts; [done|]. by split_and!.
Qed.
Lemma lex_stream src : all_bytes src -> match lex src with Ret ts => stream ts | Err _ => True | Panic => False end.
Proof. intros Hs. pose proof (lexLoop_ok (length src) (S (length src)) src ltac:(lia) ltac:(lia)) as Ht. pose proof (lexLoop_stream (length src) (S (length src)) src Hs ltac:(lia)) as Hl. unfold lex in *. by destruct (lexLoop _ _ _). Qed.


Import Bare.
