(* ===== verification/Precedence.v ===== *)
(** * Operators and their precedence

    The grammar of operators, from OR, which binds least, to the operands, as an inductive
    relation between trees and token lists; and the proof that the parser reads every
    sentence of it as its tree: binary operators associate to the left, comparisons do not
    associate, AND inside BETWEEN belongs to it. *)

From stdpp Require Import base list strings.
From Stdlib Require Import ZArith Lia.
From S2P Require Import Prelude Proto Rows Server Instances Tokens KeySchema Lexer SqlValues SqlFloat SqlArith SqlTime SqlOps SqlCast Bexpr BindOps FuncsString Ast Binder BinderOk Parser.

#[local] Open Scope Z_scope.

(** ** The grammar *)

(** The binary operators of the levels from [|] to the multiplications. *)
Definition levelOps (k : nat) : list (bytes * binOp) :=
  match k with
  | 4 => [(str "|", BBit BitOr)] | 5 => [(str "^", BBit BitXor)] | 6 => [(str "&", BBit BitAnd)]
  | 7 => [(str "<<", BShift true); (str ">>", BShift false)]
  | 8 => [(str "+", BArith Add); (str "-", BArith Sub)]
  | 9 => [(str "*", BArith Mul); (str "/", BArith Div); (str "||", BConcat)]
  | _ => []
  end%nat.

Section grammar.
Context `{Folding}.

(** [o] is the operator of the level [k]: OR, AND, a bit operator, a shift, a sum or a
    product. *)
Definition opOfLevel (k : nat) (t : token) : option binOp :=
  match k with O => kwOp (str "OR") BOr t | S O => kwOp (str "AND") BAnd t | _ => opIn (levelOps k) t end.
Definition isAssoc (k : nat) : bool := Nat.leb k 1 || (Nat.leb 4 k && Nat.leb k 9).
(** IS is followed by one of these. *)
Definition isWord (w : token) (what : isWhat) : Prop :=
  match what with IsNull => isKw w (str "NULL") = true | IsBool true => isKw w (str "TRUE") = true | IsBool false => isKw w (str "FALSE") = true end.
Definition optNot (not : bool) (ts : list token) : Prop := if not then exists t, ts = [t] /\ isKw t (str "NOT") = true else ts = [].

(** [sentence k p e ts]: the tokens [ts] are the expression [e] at level [k], with at most
    [p] parentheses around a token.  Levels: 0 OR, 1 AND, 2 NOT, 3 comparisons, 4 to 9 the
    operators of [levelOps], 10 unary operators, 11 operands. *)
Inductive sentence : nat -> nat -> astExpr -> list token -> Prop :=
| s_name p t : tk_kind t = tQIdent -> sentence 11 p (AIdent (tk_str t) true) [t]
| s_string p t : tk_kind t = tString -> sentence 11 p (ALit litString (VString (tk_str t))) [t]
| s_int p t v : tk_kind t = tInt -> parseIntLiteral (tk_text t) = Ret v -> sentence 11 p (ALit litInt (VInt v)) [t]
| s_negative p o t v : isOp o (str "-") = true -> tk_kind t = tInt -> parseIntLiteral (str "-" ++ tk_text t) = Ret v -> sentence 10 p (ALit litInt (VInt v)) [o; t]
| s_parens p e ts o c : isOp o (str "(") = true -> isOp c (str ")") = true -> sentence 0 p e ts -> sentence 11 (S p) e (o :: ts ++ [c])
| s_unary p op e o ts : opIn unaryOps o = Some op -> isOp o (str "-") && bool_decide (tk_kind (headTok ts) = tInt) = false -> sentence 10 p e ts -> sentence 10 p (AUnary op e) (o :: ts)
| s_binary k p op l r tl o tr : isAssoc k = true -> opOfLevel k o = Some op -> sentence k p l tl -> sentence (S k) p r tr -> sentence k p (ABinary op l r) (tl ++ o :: tr)
| s_compare p op l r tl o tr : opIn comparisonOps o = Some op -> sentence 4 p l tl -> sentence 4 p r tr -> sentence 3 p (ABinary op l r) (tl ++ o :: tr)
| s_is p l not what tl o nots w : isKw o (str "IS") = true -> optNot not nots -> isWord w what -> sentence 4 p l tl -> sentence 3 p (AIs l not what) (tl ++ o :: nots ++ [w])
| s_like p l r not tl nots o tr : optNot not nots -> isKw o (str "LIKE") = true -> isKwIn (headTok tr) [str "ANY"; str "SOME"; str "ALL"] = false ->
    sentence 4 p l tl -> sentence 4 p r tr -> sentence 3 p (ALike l r not) (tl ++ nots ++ o :: tr)
| s_between p l lo hi not tl nots o tlo a thi : optNot not nots -> isKw o (str "BETWEEN") = true -> isKw a (str "AND") = true ->
    sentence 4 p l tl -> sentence 4 p lo tlo -> sentence 4 p hi thi -> sentence 3 p (ABetween l lo hi not) (tl ++ nots ++ o :: tlo ++ a :: thi)
| s_not p e o ts : isKw o (str "NOT") = true -> sentence 2 p e ts -> sentence 2 p (AUnary UNot e) (o :: ts)
| s_operand k p e ts : (k < 11)%nat -> sentence (S k) p e ts -> sentence k p e ts.

(** What a token continues: an expression of level [k] that it follows is not at its end. *)
Definition continues (k : nat) (t : token) : bool :=
  match k with
  | 3 => match opIn comparisonOps t with Some _ => true | None => isKwIn t [str "IS"; str "IN"; str "LIKE"; str "BETWEEN"; str "NOT"; str "ESCAPE"] end
  | 11 => isOp t (str "[") || isOp t (str ".")
  | _ => match opOfLevel k t with Some _ => true | None => false end
  end%nat.
Definition stops (k : nat) (t : token) : Prop := forall j, (k <= j)%nat -> continues j t = false.
End grammar.

(** ** Running the parser on known tokens *)

Section run.
Context {A B : Type} (f : B -> parser A).
Lemma run_bind (p : parser B) ts b ts' : p ts = Ret (b, ts') -> (p ≫= f) ts = f b ts'.
Proof. intros E. unfold mbind, parser_bind. by rewrite E. Qed.
End run.
Lemma run_peek {A} (f : token -> parser A) ts : (peek ≫= f) ts = f (headTok ts) ts.
Proof. done. Qed.
Lemma run_peekN {A} (f : token -> parser A) t ts : ts <> [] -> (peekN 1 ≫= f) (t :: ts) = f (headTok ts) (t :: ts).
Proof. by destruct ts. Qed.
Lemma run_advance {A} (f : token -> parser A) t ts : ts <> [] -> (advance ≫= f) (t :: ts) = f t ts.
Proof. by destruct ts. Qed.
Lemma accept_yes p t ts : ts <> [] -> p t = true -> accept p (t :: ts) = Ret (true, ts).
Proof. intros Hn E. unfold accept. rewrite run_peek. cbn [headTok]. rewrite E. by destruct ts. Qed.
Lemma accept_no p ts : p (headTok ts) = false -> accept p ts = Ret (false, ts).
Proof. intros E. unfold accept. rewrite run_peek. by rewrite E. Qed.

Section facts.
Context `{Folding} `{Unicode} `{Strconv}.
Lemma expectKw_yes kw t ts : ts <> [] -> isKw t kw = true -> expectKw kw (t :: ts) = Ret (tt, ts).
Proof. intros Hn E. unfold expectKw. by rewrite (run_bind _ _ _ _ _ (accept_yes (fun t => isKw t kw) t ts Hn E)). Qed.
Lemma expectOp_yes op t ts : ts <> [] -> isOp t op = true -> expectOp op (t :: ts) = Ret (tt, ts).
Proof. intros Hn E. unfold expectOp. by rewrite (run_bind _ _ _ _ _ (accept_yes (fun t => isOp t op) t ts Hn E)). Qed.

(** *** Keywords and operators *)

Definition letters (s : list Z) : bool := forallb (fun r => (65 <=? r) && (r <=? 90)) s.
Lemma fold_letters l1 : forall l2, letters l1 = true -> letters l2 = true -> foldRune <$> l1 = foldRune <$> l2 -> l1 = l2.
Proof.
  induction l1 as [|r l1 IH]; intros [|s l2]; try done. cbn. intros [Hr H1']%andb_prop [Hs H2']%andb_prop E. injection E as E1 E2.
  f_equal; [apply foldRune_letters; [lia|lia|done]|by apply IH].
Qed.
(** A token is one keyword at most. *)
Lemma kw_other t a b : isKw t a = true -> letters (runes 0 a) && letters (runes 0 b) && negb (bool_decide (runes 0 a = runes 0 b)) = true -> isKw t b = false.
Proof.
  intros Ha [[Hla Hlb]%andb_prop Hne]%andb_prop. apply negb_true_iff, bool_decide_eq_false in Hne. apply not_true_iff_false. intros Hb.
  unfold isKw, EqualFold in *. apply andb_prop in Ha as [_ Ea], Hb as [_ Eb]. apply bool_decide_eq_true in Ea, Eb. apply Hne, fold_letters; [done|done|]. by rewrite <-Ea.
Qed.
Lemma isKw_ident t kw : isKw t kw = true -> tk_kind t = tIdent.
Proof. unfold isKw. intros [E _]%andb_prop. by apply bool_decide_eq_true in E. Qed.
Lemma not_kw t kw : tk_kind t <> tIdent -> isKw t kw = false.
Proof. intros Hk. unfold isKw. by rewrite bool_decide_eq_false_2. Qed.
Lemma not_kwIn t kws : tk_kind t <> tIdent -> isKwIn t kws = false.
Proof. intros Hk. apply not_true_iff_false. intros (kw & _ & E)%existsb_exists. by apply isKw_ident in E. Qed.
Lemma not_op t op : tk_kind t <> tOp -> isOp t op = false.
Proof. intros Hk. unfold isOp. by rewrite bool_decide_eq_false_2. Qed.
Lemma not_opIn {A} (ops : list (bytes * A)) t : tk_kind t <> tOp -> opIn ops t = None.
Proof. intros Hk. unfold opIn. by rewrite bool_decide_eq_false_2. Qed.
Lemma isOp_token t op : isOp t op = true -> exists s b pos, t = mkTok tOp op s b pos.
Proof. unfold isOp. intros [E1%bool_decide_eq_true E2%bool_decide_eq_true]%andb_prop. destruct t; cbn in *; subst. by do 3 eexists. Qed.
Lemma opIn_token {A} (ops : list (bytes * A)) t op : opIn ops t = Some op -> exists text s b pos, t = mkTok tOp text s b pos /\ text ∈ ops.*1.
Proof.
  unfold opIn. case_bool_decide as E; [|done]. intros Ho. destruct t as [k text s b pos]. cbn in *. subst. exists text, s, b, pos. split; [done|].
  unfold assoc in Ho. destruct (List.find _ _) as [[t' o]|] eqn:Ef; [|done]. apply find_some in Ef as [Hin Et]. apply bool_decide_eq_true in Et as <-. apply list_elem_of_fmap. exists (t', o). split; [done|]. by apply list_elem_of_In.
Qed.

Lemma continues_small j t : (11 < j)%nat -> continues j t = false.
Proof. intros Hj. do 12 (destruct j as [|j]; [lia|]). cbn. unfold opIn. by case_bool_decide. Qed.
Lemma stops_check k t : (forall j, (k <= j <= 11)%nat -> continues j t = false) -> stops k t.
Proof. intros Hc j Hj. destruct (decide (j <= 11)%nat); [apply Hc; lia|apply continues_small; lia]. Qed.
Lemma stops_mono k k' t : stops k t -> (k <= k')%nat -> stops k' t.
Proof. intros Hs Hk j Hj. apply Hs. lia. Qed.
Lemma continues_ident j t : (4 <= j)%nat -> tk_kind t <> tOp -> continues j t = false.
Proof.
  intros Hj Hk. do 4 (destruct j as [|j]; [lia|]). assert (forall k, opIn (levelOps k) t = None) as Hn by (intros; by apply not_opIn).
  do 8 (destruct j as [|j]; [cbn [continues opOfLevel]; by rewrite ?Hn, ?not_op|]). cbn [continues opOfLevel]. by rewrite Hn.
Qed.
Lemma stops_ident k t : (4 <= k)%nat -> tk_kind t <> tOp -> stops k t.
Proof. intros Hk Ht j Hj. apply continues_ident; [lia|done]. Qed.

Ltac each_level := apply stops_check; let lvl := fresh in intros lvl; do 12 (destruct lvl as [|lvl]; [intros ?; first [lia|reflexivity]|]); lia.
Lemma stops_close t k : isOp t (str ")") = true -> stops k t.
Proof. intros (s & b & pos & ->)%isOp_token. eapply (stops_mono 0); [|lia]. each_level. Qed.
Lemma stops_comparison t op : opIn comparisonOps t = Some op -> stops 4 t.
Proof. intros (text & s & b & pos & -> & Ht)%opIn_token. repeat (apply elem_of_cons in Ht as [->|Ht]; [each_level|]). by inv Ht. Qed.
Lemma stops_op k t op : isAssoc k = true -> opOfLevel k t = Some op -> stops (S k) t.
Proof.
  intros Hk E. destruct k as [|[|k]].
  - unfold opOfLevel, kwOp in E. destruct (isKw t (str "OR")) eqn:Ek; [|done]. pose proof (isKw_ident _ _ Ek) as Hi. apply stops_check. intros j Hj.
    destruct (decide (4 <= j)%nat); [apply continues_ident; [done|by rewrite Hi]|]. destruct j as [|[|[|[|j]]]]; [lia| | | |lia].
    + cbn [continues opOfLevel]. unfold kwOp. by rewrite (kw_other t (str "OR")).
    + cbn [continues opOfLevel]. by rewrite not_opIn by by rewrite Hi.
    + cbn [continues]. rewrite not_opIn by by rewrite Hi. unfold isKwIn. cbn [existsb]. by rewrite !(kw_other t (str "OR")).
  - cbn [opOfLevel] in E. unfold kwOp in E. destruct (isKw t (str "AND")) eqn:Ek; [|done]. pose proof (isKw_ident _ _ Ek) as Hi. apply stops_check. intros j Hj.
    destruct (decide (4 <= j)%nat); [apply continues_ident; [done|by rewrite Hi]|]. destruct j as [|[|[|[|j]]]]; [lia|lia| | |lia].
    + cbn [continues opOfLevel]. by rewrite not_opIn by by rewrite Hi.
    + cbn [continues]. rewrite not_opIn by by rewrite Hi. unfold isKwIn. cbn [existsb]. by rewrite !(kw_other t (str "AND")).
  - change (opIn (levelOps (S (S k))) t = Some op) in E. apply opIn_token in E as (text & s & b & pos & -> & Ht).
    do 2 (destruct k as [|k]; [by inv Ht|]). do 6 (destruct k as [|k]; [repeat (apply elem_of_cons in Ht as [->|Ht]; [each_level|]); by inv Ht|]). by inv Ht.
Qed.
End facts.

(** ** The parser reads the grammar *)

Section reads.
Context `{Folding} `{Unicode} `{Strconv}.

(** The parser of a level. *)
Definition parserAt (K : grammar) (d k : nat) : parser astExpr :=
  match k with
  | 0 => parseOr K d | 1 => parseAnd K d | 2 => parseNot K d | 3 => parseComparison K d | 4 => parseBitOr K d | 5 => parseBitXor K d
  | 6 => parseBitAnd K d | 7 => parseShift K d | 8 => parseAdd K d | 9 => parseMul K d | 10 => parseUnary K d | _ => parsePostfix K d
  end%nat.
Lemma parserAt_assoc K d k : isAssoc k = true -> parserAt K d k = leftAssoc (opOfLevel k) (parserAt K d (S k)).
Proof. intros Hk. do 10 (destruct k as [|k]; [first [done|reflexivity]|]). unfold isAssoc in Hk. cbn in Hk. by destruct k. Qed.

(** What the parser of level [k] returns when it has read [e] and [rest] is left. *)
Definition finish (K : grammar) (d k : nat) (e : astExpr) (rest : list token) (res : astExpr * list token) : Prop :=
  if isAssoc k then stops (S k) (headTok rest) /\ forall m, (length rest <= m)%nat -> levelLoop (opOfLevel k) (parserAt K d (S k)) m e rest = Ret res
  else stops k (headTok rest) /\ res = (e, rest).
Definition reads (K : grammar) (d k : nat) (e : astExpr) (ts rest : list token) : Prop :=
  forall res, finish K d k e rest res -> parserAt K d k (ts ++ rest) = Ret res.

Lemma levelLoop_stop K d k m e rest : isAssoc k = true -> stops k (headTok rest) -> (0 < m)%nat -> levelLoop (opOfLevel k) (parserAt K d (S k)) m e rest = Ret (e, rest).
Proof.
  intros Hk Hs Hm. destruct m as [|m]; [lia|]. cbn [levelLoop]. rewrite run_peek. specialize (Hs k ltac:(lia)).
  assert (opOfLevel k (headTok rest) = None) as ->; [|done].
  do 10 (destruct k as [|k]; [first [done|cbn [continues] in Hs; by destruct (opOfLevel _ _)]|]). unfold isAssoc in Hk. cbn in Hk. by destruct k.
Qed.
(** At a token that ends the level, the parser is done. *)
Lemma finish_stop K d k e rest : rest <> [] -> stops k (headTok rest) -> finish K d k e rest (e, rest).
Proof.
  intros Hn Hs. unfold finish. destruct (isAssoc k) eqn:Hk; [|done]. split; [eapply stops_mono; [done|lia]|]. intros m Hm. apply levelLoop_stop; [done|done|]. destruct rest; [done|cbn in Hm; lia].
Qed.
Lemma reads_stop K d k e ts rest : reads K d k e ts rest -> rest <> [] -> stops k (headTok rest) -> parserAt K d k (ts ++ rest) = Ret (e, rest).
Proof. intros Hr Hn Hs. by apply Hr, finish_stop. Qed.

Lemma head_app (ts rest : list token) : ts <> [] -> headTok (ts ++ rest) = headTok ts.
Proof. by destruct ts. Qed.
Lemma sentence_nonempty k p e ts : sentence k p e ts -> ts <> [].
Proof. induction 1; try done; by destruct tl. Qed.
(** The first token of a level above NOT is no keyword. *)
Lemma sentence_head k p e ts : sentence k p e ts -> (3 <= k)%nat -> tk_kind (headTok ts) <> tIdent.
Proof.
  induction 1; intros Hle.
  all: try (cbn; by match goal with E : tk_kind ?t = _ |- tk_kind ?t <> _ => rewrite E end).
  all: try (cbn; by match goal with E : isOp ?o _ = true |- tk_kind ?o <> _ => apply isOp_token in E as (? & ? & ? & ->) end).
  all: try (cbn; by match goal with E : opIn _ ?o = Some _ |- tk_kind ?o <> _ => apply opIn_token in E as (? & ? & ? & ? & -> & _) end).
  all: rewrite ?head_app by (by eapply sentence_nonempty).
  all: try match goal with IH : (3 <= ?k)%nat -> ?P |- ?P => apply IH; lia end.
  lia.
Qed.
(** An operand starts with a name, a literal or a parenthesis. *)
Definition startsOperand (t : token) : Prop := tk_kind t = tQIdent \/ tk_kind t = tString \/ tk_kind t = tInt \/ isOp t (str "(") = true.
Lemma operand_head p e ts : sentence 11 p e ts -> startsOperand (headTok ts).
Proof. intros Hs. unfold startsOperand. inv Hs; try (cbn; by auto). lia. Qed.
Lemma operand_not_unary t : startsOperand t -> opIn unaryOps t = None.
Proof.
  intros [E|[E|[E|E]]]; [by apply not_opIn; rewrite E..|]. apply isOp_token in E as (? & ? & ? & ->). reflexivity.
Qed.
Lemma run_peekN_any {A} n (f : token -> parser A) ts : exists u, (peekN n ≫= f) ts = f u ts.
Proof. by eexists. Qed.

(** *** One case of the grammar after the other *)

Section cases.
Context (K : grammar) (d : nat).
Lemma reads_operand k e ts rest : (k < 11)%nat -> ts <> [] -> rest <> [] -> (k = 2%nat -> tk_kind (headTok ts) <> tIdent) -> (k = 10%nat -> startsOperand (headTok ts)) ->
  reads K d (S k) e ts rest -> reads K d k e ts rest.
Proof.
  intros Hlt Hn Hr H2 H10 IH res Hf. unfold finish in Hf. destruct (isAssoc k) eqn:Hk.
  { destruct Hf as [Hs Hl]. rewrite parserAt_assoc by done. unfold leftAssoc. rewrite (run_bind _ _ _ _ _ (reads_stop _ _ _ _ _ _ IH Hr Hs)). by apply Hl. }
  destruct Hf as [Hs ->]. pose proof (reads_stop _ _ _ _ _ _ IH Hr (stops_mono _ _ _ Hs (Nat.le_succ_diag_r k))) as E. destruct (decide (k = 2)%nat) as [->|]; [|destruct (decide (k = 10)%nat) as [->|]; [|assert (k = 3)%nat as ->]].
  - cbn [parserAt] in *. unfold parseNot. rewrite run_peek, head_app by done. by rewrite not_kw by by apply H2.
  - cbn [parserAt] in *. unfold parseUnary. rewrite run_peek, head_app by done. by rewrite operand_not_unary by by apply H10.
  - unfold isAssoc in Hk. do 10 (destruct k as [|k]; [cbn in Hk; lia|]). lia.
  - cbn [parserAt] in *. unfold parseComparison. rewrite (run_bind _ _ _ _ _ E), run_peek. specialize (Hs 3%nat (le_n 3)). cbn [continues] in Hs. destruct (opIn _ _); [done|].
    unfold isKwIn in Hs. cbn [existsb] in Hs. repeat (apply orb_false_elim in Hs as [? Hs]). match goal with H : isKw _ (str "IS") = false |- _ => rewrite H end.
    match goal with |- (peekN ?n ≫= ?f) ?ts = _ => destruct (run_peekN_any n f ts) as [u ->] end. match goal with H : isKw _ (str "NOT") = false |- _ => rewrite H end. cbn [andb]. rewrite run_peek, run_peek.
    repeat match goal with H : isKw _ ?kw = false |- context [isKw _ ?kw] => rewrite H end. done.
Qed.
Lemma reads_binary k op l r tl o tr rest : isAssoc k = true -> opOfLevel k o = Some op -> rest <> [] ->
  reads K d k l tl (o :: tr ++ rest) -> reads K d (S k) r tr rest -> reads K d k (ABinary op l r) (tl ++ o :: tr) rest.
Proof.
  intros Hk Ho Hr IHl IHr res Hf. unfold finish in Hf. rewrite Hk in Hf. destruct Hf as [Hs Hl]. rewrite <-app_assoc. apply IHl. unfold finish. rewrite Hk.
  split; [by eapply stops_op|]. intros [|m] Hm; [cbn in Hm; lia|]. cbn [levelLoop]. rewrite run_peek. cbn [headTok app]. rewrite Ho, run_advance by by destruct tr.
  rewrite (run_bind _ _ _ _ _ (reads_stop _ _ _ _ _ _ IHr Hr Hs)). apply Hl. cbn in Hm. rewrite length_app in Hm. lia.
Qed.
(** A comparison after its left operand. *)
Definition afterLeft (l : astExpr) : parser astExpr :=
  t ← peek;
  match opIn comparisonOps t with
  | Some op => _ ← advance; r ← parseBitOr K d; n ← peek; match opIn comparisonOps n with Some _ => fail InvalidArgument | None => mret (ABinary op l r) end
  | None =>
      if isKw t (str "IS") then _ ← advance; not ← acceptKw (str "NOT"); parseIs K d l not
      else
        n ← peekN 1;
        let not := isKw t (str "NOT") && isKwIn n [str "IN"; str "LIKE"; str "BETWEEN"] in
        _ ← (if not then advance else peek : parser token);
        u ← peek;
        if isKw u (str "IN") then _ ← advance; parseIn K d l not
        else if isKw u (str "LIKE") then _ ← advance; parseLike K d l not
        else if isKw u (str "BETWEEN") then _ ← advance; parseBetween K d l not
        else mret l
  end.
Lemma reads_left l tl rest : rest <> [] -> stops 4 (headTok rest) -> reads K d 4 l tl rest -> parseComparison K d (tl ++ rest) = afterLeft l rest.
Proof. intros Hr Hs IH. unfold parseComparison. by rewrite (run_bind _ _ _ _ _ (reads_stop K d 4 l tl rest IH Hr Hs)). Qed.
(** The operators after an optional NOT. *)
Lemma afterLeft_not l not nots o rest : optNot not nots -> isKw o (str "LIKE") = true \/ isKw o (str "BETWEEN") = true -> rest <> [] ->
  stops 4 (headTok (nots ++ o :: rest)) /\ afterLeft l (nots ++ o :: rest) = (if isKw o (str "LIKE") then parseLike K d l not else parseBetween K d l not) rest.
Proof.
  intros Hn Ho Hr. assert (tk_kind o = tIdent /\ isKw o (str "IS") = false /\ isKw o (str "NOT") = false /\ isKw o (str "IN") = false /\ (isKw o (str "LIKE") = false -> isKw o (str "BETWEEN") = true)) as (Hi & H1' & H2' & H3' & H4').
  { destruct Ho as [E|E]; (split_and!; [by eapply isKw_ident|by eapply kw_other..|]); [by rewrite E|done]. }
  destruct not; unfold optNot in Hn.
  - destruct Hn as (t & -> & Et). cbn [app headTok]. pose proof (isKw_ident _ _ Et) as Hti. split; [apply stops_ident; [done|by rewrite Hti]|]. unfold afterLeft. rewrite run_peek. cbn [headTok]. rewrite not_opIn by by rewrite Hti.
    rewrite (kw_other t (str "NOT") (str "IS")) by done. rewrite run_peekN by done. cbn [headTok]. rewrite Et.
    assert (isKwIn o [str "IN"; str "LIKE"; str "BETWEEN"] = true) as ->. { unfold isKwIn. cbn [existsb]. destruct Ho as [-> | ->]; by rewrite ?orb_true_r. }
    cbn [andb]. rewrite run_advance by done. rewrite run_peek. cbn [headTok]. rewrite H3'. destruct (isKw o (str "LIKE")); [by rewrite run_advance|]. rewrite H4' by done. by rewrite run_advance.
  - subst nots. cbn [app headTok]. split; [apply stops_ident; [done|by rewrite Hi]|]. unfold afterLeft. rewrite run_peek. cbn [headTok]. rewrite not_opIn by by rewrite Hi. rewrite H1'.
    rewrite run_peekN by done. rewrite H2'. cbn [andb]. rewrite run_peek, run_peek. cbn [headTok]. rewrite H3'. destruct (isKw o (str "LIKE")); [by rewrite run_advance|]. rewrite H4' by done. by rewrite run_advance.
Qed.
Lemma reads_compare op l r tl o tr rest : opIn comparisonOps o = Some op -> tr <> [] -> rest <> [] ->
  reads K d 4 l tl (o :: tr ++ rest) -> reads K d 4 r tr rest -> reads K d 3 (ABinary op l r) (tl ++ o :: tr) rest.
Proof.
  intros Ho Ht Hr IHl IHr res [Hs ->]. rewrite <-app_assoc. cbn [parserAt app]. rewrite (reads_left l) by (first [done|by eapply stops_comparison]). unfold afterLeft. rewrite run_peek. cbn [headTok]. rewrite Ho, run_advance by by destruct tr.
  assert (parseBitOr K d (tr ++ rest) = Ret (r, rest)) as E by (apply (reads_stop _ _ 4 _ _ _ IHr Hr); eapply stops_mono; [done|lia]). rewrite (run_bind _ _ _ _ _ E), run_peek.
  specialize (Hs 3%nat (le_n 3)). cbn [continues] in Hs. by destruct (opIn comparisonOps (headTok rest)).
Qed.
Lemma reads_is l not what tl o nots w rest : isKw o (str "IS") = true -> optNot not nots -> isWord w what -> rest <> [] ->
  reads K d 4 l tl (o :: nots ++ w :: rest) -> reads K d 3 (AIs l not what) (tl ++ o :: nots ++ [w]) rest.
Proof.
  intros Ho Hn Hw Hr IHl res [Hs ->]. rewrite <-app_assoc. cbn [parserAt app]. rewrite <-app_assoc. cbn [app]. pose proof (isKw_ident _ _ Ho) as Hi.
  rewrite (reads_left l) by (first [done|apply stops_ident; [done|cbn; by rewrite Hi]]). unfold afterLeft. rewrite run_peek. cbn [headTok]. rewrite not_opIn by by rewrite Hi. rewrite Ho, run_advance by by destruct nots.
  assert (isKw w (str "NOT") = false) as Hwn by (destruct what as [|[]]; by eapply kw_other).
  assert (acceptKw (str "NOT") (nots ++ w :: rest) = Ret (not, w :: rest)) as E.
  { destruct not; unfold optNot in Hn; [|subst; by apply accept_no]. destruct Hn as (t & -> & Et). by apply accept_yes. }
  rewrite (run_bind _ _ _ _ _ E). unfold parseIs. rewrite run_peek. cbn [headTok]. unfold isKwIn. cbn [existsb]. destruct what as [|[]]; unfold isWord in Hw.
  - rewrite Hw. cbn [orb]. by rewrite run_advance.
  - rewrite !(kw_other w (str "TRUE")) by done. cbn [orb]. rewrite Hw. by rewrite run_advance.
  - rewrite !(kw_other w (str "FALSE")) by done. cbn [orb]. rewrite Hw. by rewrite run_advance.
Qed.
Lemma reads_like l r not tl nots o tr rest : optNot not nots -> isKw o (str "LIKE") = true -> isKwIn (headTok tr) [str "ANY"; str "SOME"; str "ALL"] = false -> tr <> [] -> rest <> [] ->
  reads K d 4 l tl (nots ++ o :: tr ++ rest) -> reads K d 4 r tr rest -> reads K d 3 (ALike l r not) (tl ++ nots ++ o :: tr) rest.
Proof.
  intros Hn Ho Ha Ht Hr IHl IHr res [Hs ->]. rewrite <-!app_assoc. cbn [parserAt app]. destruct (afterLeft_not l not nots o (tr ++ rest) Hn (or_introl Ho)) as [Hst Hrun]; [by destruct tr|].
  rewrite (reads_left l) by (first [done|by destruct nots]). rewrite Hrun, Ho. unfold parseLike. rewrite run_peek, head_app by done. rewrite Ha.
  assert (parseBitOr K d (tr ++ rest) = Ret (r, rest)) as E by (apply (reads_stop _ _ 4 _ _ _ IHr Hr); eapply stops_mono; [done|lia]). rewrite (run_bind _ _ _ _ _ E), run_peek.
  specialize (Hs 3%nat (le_n 3)). cbn [continues] in Hs. destruct (opIn _ _); [done|]. unfold isKwIn in Hs. cbn [existsb] in Hs. repeat (apply orb_false_elim in Hs as [? Hs]). by match goal with H : isKw _ (str "ESCAPE") = false |- _ => rewrite H end.
Qed.
Lemma reads_between l lo hi not tl nots o tlo a thi rest : optNot not nots -> isKw o (str "BETWEEN") = true -> isKw a (str "AND") = true -> tlo <> [] -> thi <> [] -> rest <> [] ->
  reads K d 4 l tl (nots ++ o :: tlo ++ a :: thi ++ rest) -> reads K d 4 lo tlo (a :: thi ++ rest) -> reads K d 4 hi thi rest ->
  reads K d 3 (ABetween l lo hi not) (tl ++ nots ++ o :: tlo ++ a :: thi) rest.
Proof.
  intros Hn Ho Ha Hlo Hhi Hr IHl IHlo IHhi res [Hs ->]. rewrite <-!app_assoc. cbn [parserAt app]. rewrite <-!app_assoc. cbn [app].
  destruct (afterLeft_not l not nots o (tlo ++ a :: thi ++ rest) Hn (or_intror Ho)) as [Hst Hrun]; [by destruct tlo|].
  rewrite (reads_left l) by (first [done|by destruct nots]). rewrite Hrun, (kw_other o (str "BETWEEN") (str "LIKE")) by done. unfold parseBetween.
  assert (parseBitOr K d (tlo ++ a :: thi ++ rest) = Ret (lo, a :: thi ++ rest)) as E. { apply (reads_stop _ _ 4 _ _ _ IHlo); [done|]. apply stops_ident; [done|cbn; by rewrite (isKw_ident _ _ Ha)]. }
  rewrite (run_bind _ _ _ _ _ E), (run_bind _ _ _ _ _ (expectKw_yes _ a (thi ++ rest) ltac:(by destruct thi) Ha)).
  assert (parseBitOr K d (thi ++ rest) = Ret (hi, rest)) as E2 by (apply (reads_stop _ _ 4 _ _ _ IHhi Hr); eapply stops_mono; [done|lia]). by rewrite (run_bind _ _ _ _ _ E2).
Qed.
(** Operands. *)
Lemma finish_operand e rest res : finish K d 11 e rest res -> isOp (headTok rest) (str "[") = false /\ isOp (headTok rest) (str ".") = false /\ res = (e, rest).
Proof. intros [Hs ->]. specialize (Hs 11%nat (le_n 11)). cbn [continues] in Hs. by apply orb_false_elim in Hs as [? ?]. Qed.
Lemma postfix_done x rest : rest <> [] -> isOp (headTok rest) (str "[") = false -> isOp (headTok rest) (str ".") = false -> withFuel (fun n => postfixLoop K d n x) rest = Ret (x, rest).
Proof. intros Hr H1' H2'. destruct rest as [|t rest]; [done|]. unfold withFuel. cbn [length postfixLoop]. rewrite run_peek. cbn [headTok] in *. by rewrite H1', H2'. Qed.
Lemma reads_primary x ts rest : rest <> [] -> (isOp (headTok rest) (str ".") = false -> isOp (headTok rest) (str "[") = false -> parsePrimary K d (ts ++ rest) = Ret (x, rest)) -> reads K d 11 x ts rest.
Proof.
  intros Hr Hp res (Hb & Hd & ->)%finish_operand. cbn [parserAt]. unfold parsePostfix. rewrite (run_bind _ _ _ _ _ (Hp Hd Hb)). by apply postfix_done.
Qed.
Lemma reads_string t rest : rest <> [] -> tk_kind t = tString -> reads K d 11 (ALit litString (VString (tk_str t))) [t] rest.
Proof. intros Hr Hk. apply reads_primary; [done|]. intros _ _. unfold parsePrimary. rewrite run_peek. cbn [headTok app]. by rewrite Hk, run_advance. Qed.
Lemma reads_int t v rest : rest <> [] -> tk_kind t = tInt -> parseIntLiteral (tk_text t) = Ret v -> reads K d 11 (ALit litInt (VInt v)) [t] rest.
Proof. intros Hr Hk Hv. apply reads_primary; [done|]. intros _ _. unfold parsePrimary. rewrite run_peek. cbn [headTok app]. rewrite Hk, run_advance by done. unfold intLit, liftP. by rewrite Hv. Qed.
Lemma reads_name t rest : rest <> [] -> tk_kind t = tQIdent -> reads K d 11 (AIdent (tk_str t) true) [t] rest.
Proof.
  intros Hr Hk. apply reads_primary; [done|]. intros Hd _. unfold parsePrimary. rewrite run_peek. cbn [headTok app]. rewrite Hk. unfold parseIdentOrCall. rewrite run_advance by done.
  assert (withFuel dottedLoop rest = Ret ([], rest)) as E by (destruct rest as [|u rest]; [done|]; unfold withFuel; cbn [length dottedLoop]; rewrite run_peek; cbn [headTok] in *; by rewrite Hd).
  rewrite (run_bind _ _ _ _ _ E), run_peek, Hk. cbn. by rewrite andb_false_r.
Qed.
Lemma reads_negative o t v rest : rest <> [] -> isOp o (str "-") = true -> tk_kind t = tInt -> parseIntLiteral (str "-" ++ tk_text t) = Ret v -> reads K d 10 (ALit litInt (VInt v)) [o; t] rest.
Proof.
  intros Hr Ho Hk Hv res [Hs ->]. specialize (Hs 11%nat ltac:(lia)). cbn [continues] in Hs. apply orb_false_elim in Hs as [Hb Hd]. cbn [parserAt app]. unfold parseUnary. rewrite run_peek. cbn [headTok].
  assert (opIn unaryOps o = Some UMinus) as -> by (by apply isOp_token in Ho as (? & ? & ? & ->)). rewrite run_advance by done. rewrite run_peek, run_peekN by done. cbn [headTok]. rewrite Ho, Hb, Hd, (bool_decide_eq_true_2 _ Hk). cbn [andb negb].
  rewrite run_advance by done. unfold intLit, liftP. by rewrite Hv.
Qed.
Lemma reads_unary op e o ts rest : opIn unaryOps o = Some op -> isOp o (str "-") && bool_decide (tk_kind (headTok ts) = tInt) = false -> ts <> [] -> rest <> [] ->
  (stops 10 (headTok rest) -> k_unary K d (ts ++ rest) = Ret (e, rest)) -> reads K d 10 (AUnary op e) (o :: ts) rest.
Proof.
  intros Ho Hn Ht Hr IH res [Hs ->]. cbn [parserAt app]. unfold parseUnary. rewrite run_peek. cbn [headTok]. rewrite Ho, run_advance by by destruct ts.
  rewrite run_peek. match goal with |- (peekN ?n ≫= ?f) ?l = _ => destruct (run_peekN_any n f l) as [u ->] end. rewrite head_app by done. rewrite Hn. cbn [andb]. by rewrite (run_bind _ _ _ _ _ (IH Hs)).
Qed.
Lemma reads_not e o ts rest : isKw o (str "NOT") = true -> ts <> [] -> rest <> [] -> (stops 2 (headTok rest) -> k_not K d (ts ++ rest) = Ret (e, rest)) -> reads K d 2 (AUnary UNot e) (o :: ts) rest.
Proof.
  intros Ho Ht Hr IH res [Hs ->]. cbn [parserAt app]. unfold parseNot. rewrite run_peek. cbn [headTok]. rewrite Ho, run_advance by by destruct ts. by rewrite (run_bind _ _ _ _ _ (IH Hs)).
Qed.
Lemma reads_parens e ts o c rest : isOp o (str "(") = true -> isOp c (str ")") = true -> isKwIn (headTok ts) [str "SELECT"; str "WITH"] = false -> ts <> [] -> rest <> [] ->
  k_expr K d (ts ++ c :: rest) = Ret (e, c :: rest) -> reads K d 11 e (o :: ts ++ [c]) rest.
Proof.
  intros Ho Hc Hkw Ht Hr IH. apply reads_primary; [done|]. intros _ _. cbn [app]. rewrite <-app_assoc. cbn [app]. unfold parsePrimary. rewrite run_peek. cbn [headTok]. apply isOp_token in Ho as (? & ? & ? & ->). cbn [tk_kind tk_text].
  rewrite bool_decide_eq_true_2 by done. rewrite run_advance by by destruct ts. unfold parseParenthesized. rewrite run_peek, head_app by done. rewrite Hkw, (run_bind _ _ _ _ _ IH).
  assert (acceptOp (str ",") (c :: rest) = Ret (false, c :: rest)) as E by (apply accept_no; by apply isOp_token in Hc as (? & ? & ? & ->)). rewrite (run_bind _ _ _ _ _ E). by rewrite (run_bind _ _ _ _ _ (expectOp_yes _ _ _ Hr Hc)).
Qed.
End cases.

(** A sentence does not start with a keyword other than NOT. *)
Lemma sentence_keyword k p e ts : sentence k p e ts -> isKwIn (headTok ts) [str "SELECT"; str "WITH"] = false.
Proof.
  intros Hs. destruct (decide (tk_kind (headTok ts) = tIdent)) as [Hk|Hk]; [|by apply not_kwIn].
  assert (isKw (headTok ts) (str "NOT") = true) as Hn.
  { revert Hk. induction Hs; rewrite ?head_app by (by eapply sentence_nonempty); try done.
    all: cbn [headTok]; intros Hk.
    all: try (exfalso; congruence).
    all: try (match goal with E : isOp ?o _ = true, Hk : tk_kind ?o = _ |- _ => apply isOp_token in E as (? & ? & ? & ->); discriminate Hk end).
    all: match goal with E : opIn _ ?o = Some _, Hk : tk_kind ?o = _ |- _ => apply opIn_token in E as (? & ? & ? & ? & -> & _); discriminate Hk end. }
  unfold isKwIn. cbn [existsb]. by rewrite !(kw_other (headTok ts) (str "NOT")).
Qed.

Lemma sentence_level k p e ts : sentence k p e ts -> (k <= 11)%nat.
Proof. induction 1; lia. Qed.
Lemma sentence_reads k p e ts : sentence k p e ts -> forall n d rest, (length ts <= S n)%nat -> (d + p <= maxExprDepth)%nat -> rest <> [] -> reads (levels n) d k e ts rest.
Proof.
  induction 1 as [p t Hk|p t Hk|p t v Hk Hv|p o t v Ho Hk Hv|p e ts o c Ho Hc Hs IH|p op e o ts Ho Hn Hs IH|k p op l r tl o tr Hk Ho Hl IHl Hr' IHr|p op l r tl o tr Ho Hl IHl Hr' IHr|p l not what tl o nots w Ho Hn Hw Hl IHl
    |p l r not tl nots o tr Hn Ho Ha Hl IHl Hr' IHr|p l lo hi not tl nots o tlo a thi Hn Ho Ha Hl IHl Hlo IHlo Hhi IHhi|p e o ts Ho Hs IH|k p e ts Hk Hs IH]; intros n d rest Hlen Hd Hr; repeat match goal with H : sentence _ _ _ ?ts |- _ => lazymatch goal with _ : ts <> [] |- _ => fail | _ => pose proof (sentence_nonempty _ _ _ _ H) end end.
  - by apply reads_name.
  - by apply reads_string.
  - by apply reads_int.
  - by apply reads_negative.
  - cbn [length] in Hlen. rewrite length_app in Hlen. destruct n as [|n]; [cbn in Hlen; lia|]. apply reads_parens; try done; [by eapply sentence_keyword|]. cbn [levels stepGrammar k_expr].
    rewrite (proj2 (Nat.ltb_ge maxExprDepth (S d))) by (unfold maxExprDepth in *; lia). apply (reads_stop (levels n) (S d) 0); [apply IH; [cbn in Hlen; lia|lia|done]|done|by apply stops_close].
  - cbn [length] in Hlen. destruct n as [|n]; [destruct ts; [done|cbn in Hlen; lia]|]. apply reads_unary; try done. intros Hst. change (k_unary (levels (S n)) d) with (parserAt (levels n) d 10). apply (reads_stop (levels n) d 10); [apply IH; [lia|done|done]|done|done].
  - rewrite length_app in Hlen. cbn [length] in Hlen. apply reads_binary; try done; [apply IHl; [lia|done|done]|apply IHr; [lia|done|done]].
  - rewrite length_app in Hlen. cbn [length] in Hlen. apply reads_compare; try done; [apply IHl; [lia|done|done]|apply IHr; [lia|done|done]].
  - rewrite length_app in Hlen. cbn [length] in Hlen. apply reads_is; try done. apply IHl; [lia|done|done].
  - rewrite !length_app in Hlen. cbn [length] in Hlen. apply reads_like; try done; [apply IHl; [lia|done|by destruct nots]|apply IHr; [lia|done|done]].
  - rewrite !length_app in Hlen. cbn [length] in Hlen. rewrite length_app in Hlen. cbn [length] in Hlen. apply reads_between; try done; [apply IHl; [lia|done|by destruct nots]|apply IHlo; [lia|done|done]|apply IHhi; [lia|done|done]].
  - cbn [length] in Hlen. destruct n as [|n]; [destruct ts; [done|cbn in Hlen; lia]|]. apply reads_not; try done. intros Hst. change (k_not (levels (S n)) d) with (parserAt (levels n) d 2). apply (reads_stop (levels n) d 2); [apply IH; [lia|done|done]|done|done].
  - apply reads_operand; try done; [|intros ->; by eapply operand_head|by apply IH]. intros ->. by eapply sentence_head.
Qed.
End reads.


Import Bare.
(** [`a` OR `b` AND `c` BETWEEN 1 AND (2 + 3 * 4) - 5] *)
Definition quoted (name : string) (pos : nat) : token := mkTok tQIdent (str "`" ++ str name ++ str "`") (str name) [] pos.
Definition word (text : string) (pos : nat) : token := mkTok tIdent (str text) (str text) [] pos.
Definition digit (text : string) (pos : nat) : token := mkTok tInt (str text) [] [] pos.
Definition sign (text : string) (pos : nat) : token := mkTok tOp (str text) [] [] pos.
Definition demoTokens : list token :=
  [quoted "a" 0; word "OR" 4; quoted "b" 7; word "and" 11; quoted "c" 15; word "Between" 19; digit "1" 27; word "AND" 29; sign "(" 33; digit "2" 34; sign "+" 36; digit "3" 38; sign "*" 40; digit "4" 42;
   sign ")" 43; sign "-" 45; digit "5" 47].
Example demo_lexed : lex (str "`a` OR `b` and `c` Between 1 AND (2 + 3 * 4) - 5") = Ret (demoTokens ++ [mkTok tEOF [] [] [] 48]).
Proof. vm_compute. reflexivity. Qed.
Definition demoTree : astExpr :=
  let num n := ALit litInt (VInt n) in let name s := AIdent (str s) true in
  ABinary BOr (name "a"%string)
    (ABinary BAnd (name "b"%string) (ABetween (name "c"%string) (num 1) (ABinary (BArith Sub) (ABinary (BArith Add) (num 2) (ABinary (BArith Mul) (num 3) (num 4))) (num 5)) false)).
Ltac to_operand := repeat (apply s_operand; [lia|]).
Ltac at_token n := match goal with |- sentence ?k ?p (ABinary ?op ?l ?r) ?ts =>
  let tl := eval cbv [take] in (take n ts) in let o := eval cbv [nth] in (nth n ts endToken) in let tr := eval cbv [drop] in (drop (S n) ts) in
  apply (s_binary k p op l r tl o tr); [reflexivity|reflexivity| |] end.
